(* ===== verification/_CoqProject ===== *)
-Q . S2P
Prelude.v
GoStrings.v
Hub.v
Float64.v
GroupModel.v
Protocol.v
Backoff.v
Route.v
Demo.v
RouteInv.v
Breaker.v
RouteProps.v
RouteThms.v
Sticky.v
RefChain.v
Window.v
KeyLimit.v
ChannelLimit.v
KeySelect.v
Cache.v
Utf8.v
Errors.v
Usage.v
Requests.v
RequestInv.v
RequestThms.v
MaskText.v
MaskThms.v
MaskSession.v
Eviction.v
Diff.v
GroupOps.v
StreamEvents.v
StreamWindow.v
StreamForward.v
StreamThms.v
ContextFit.v
Headers.v
Forward.v
ForwardLogic.v
GoInts.v
BodyBudget.v
ForwardRecord.v
ForwardPenalty.v
Entry.v
ForwardDemo.v
OcPool.v
WarpSlots.v
Reasoning.v
UsageBuckets.v
LoginLimit.v
OrderedRows.v
EvalQueue.v
EvalScheduler.v
EvalRank.v
Runes.v
GoRegexp.v
GoJson.v
RuneBytes.v
GoJsonThms.v
Boundaries.v
MaskRules.v
MaskEngine.v
MaskEngineThms.v
MaskRulesThms.v
MaskPrecheck.v
MaskUtf8.v
MaskJson.v
MaskApply.v
Gjson.v
OcReplacer.v
OcAlias.v
OcAliasThms.v
OcShape.v
OcStreamThms.v
OcTools.v
ConvFiles.v
Conversation.v
ErrorLogText.v
ErrorLog.v
