(* ===== verification/Prelude.v ===== *)
(** * NovaVeil: a verified model of the relay core

    NovaVeil is an LLM API gateway written in Go.  A client sends a request in
    one of four protocols; the gateway authenticates it, chooses a member of the
    group the model name stands for, masks secrets in the body, calls the
    upstream channel, and gives the answer back, trying other members while
    nothing has been delivered.  This library models the code that decides what
    happens to a request (internal/relay, internal/keylimit, internal/op/group.go
    and the caches they read), the queues behind it (internal/op, internal/eval)
    and the rule engine that hides secrets, and proves what that code promises.

    ** The parts, and how they interact

    - Package state.  Every package variable is a field of a record, every
      critical section (the code between [Lock] and [Unlock], or a function whose
      name ends in [Locked]) is one Rocq function on that record.  Concurrency is
      interleaving: a step relation whose steps are the critical sections, and
      theorems over all reachable states ([RouteInv], [RequestInv], [OcPool],
      [WarpSlots], [BodyBudget], [ChannelLimit], [EvalScheduler],
      [Conversation], [ErrorLog]).
    - Pointers that outlive the map they were found in (a [*RequestState], a
      limiter's counter, a pool account, a list element, a subscriber's channel,
      an open file) are addresses into a store; the map holds addresses.
    - Iteration over a Go map takes its order from the class [MapOrder]; the
      theorems hold for every order.  [sort.Slice] is any sorted permutation.
    - [int64], [time.Duration] and [float64] have their width where the code
      depends on it ([GoInts], [Float64]); a Go string is a list of bytes
      ([GoStrings], [Utf8]).

    ** Files and the code they model (paths below src/internal/)

    The standard library, as far as the code uses it.  [GoStrings]: strings;
    [Utf8], [Runes], [RuneBytes], [Boundaries]: runes, their encoding and the
    places where a text may be cut; [GoInts], [Float64]: machine numbers;
    [GoRegexp]: leftmost matching of regexp, with [FindAllStringIndex];
    [GoJson], [GoJsonThms]: the decoder and the encoder of encoding/json.

    Routing.  [GroupModel]: model/group.go, model/channel.go.  [Protocol]:
    relay/channel.go.  [Backoff], [Route], [RouteInv], [Breaker], [RouteProps],
    [RouteThms]: relay/route.go, relay/prober.go; [Breaker] is the abstract
    three-state machine that [Route] refines.  [Sticky]: relay/sticky.go.
    [RefChain]: the references between groups of relay/route.go.  [GroupOps]:
    op/group.go, which keeps those references acyclic.  [Hub]: the broadcast of
    route.go and state.go.

    Limits.  [Window], [KeyLimit]: keylimit.  [ChannelLimit]:
    relay/channellimit.go.  [KeySelect]: relay/keyselect.go.  [BodyBudget]:
    relay/bodylimit.go.  [OcPool]: relay/opencode_proxy_pool.go.  [WarpSlots]:
    relay/warp_slots.go, relay/warp_block.go.  [Eviction]: the bounded tables of
    relay/state.go and server/middleware/admin_ratelimit.go.
    [LoginLimit]: server/handlers/loginratelimit.go and the login of user.go.
    [Cache]: utils/cache.  [Reasoning]: relay/reasoning.go.  [Diff]: utils/diff.

    Requests.  [Errors], [Requests], [RequestInv], [RequestThms]:
    relay/state.go.  [Usage]: relay/usage_sanitize.go.  [Headers], [Forward],
    [ForwardLogic], [ForwardRecord], [ForwardPenalty], [Entry]:
    relay/handler.go; [Forward]: the head of a turn is [turn_head], a turn is
    [forward_round], the loop [request_loop], the handler [handle_request], its
    recovery from a panic [on_panic].  [StreamEvents], [StreamWindow],
    [StreamForward], [StreamThms]: relay/protocol.go, relay/upstream.go and the
    stream half of handler.go.  [ContextFit]: relay/context_fit.go,
    relay/context_probe.go.

    Masking.  [MaskText], [MaskThms], [MaskSession]: the placeholders, their
    restoration whole and in chunks, and the sessions of relay/mask.
    [MaskRules], [MaskRulesThms], [MaskPrecheck]: relay/mask/rules.go, the twelve
    rules as expressions, their validators and the test that skips a rule.
    [MaskEngine], [MaskEngineThms], [MaskUtf8], [MaskJson], [MaskApply]:
    relay/mask/engine.go, from the candidates of one text to [Apply] on a body.

    Names of the opencode lane.  [Gjson]: what the code relies on of gjson and
    sjson, as a class, with an implementation.  [OcReplacer], [OcAlias],
    [OcAliasThms], [OcShape], [OcStreamThms]: relay/opencode_alias.go, requests,
    answers and streams.  [OcTools]: relay/opencode_tool_alias.go.

    Queues.  [OrderedRows], [EvalQueue]: op/model_eval_queue.go.
    [EvalScheduler]: eval/scheduler.go over that table.  [EvalRank]:
    op/model_eval_rank.go.  [UsageBuckets]: op/usage_bucket.go.  [ConvFiles],
    [Conversation]: op/conversation.go, the files of a day and the queue, the
    writer and those who stop it.  [ErrorLogText], [ErrorLog]: op/error_log.go and
    op/error_log_mask.go, what is kept of a failed request, and the queue, the
    writer, the shutdown and the rows.

    [Prelude] holds the notation, the tactics and the lemmas the parts share,
    [Demo] and [ForwardDemo] the concrete inputs of the witnesses.

    ** What the theorems show

    - Selection returns only members that may be used, in every mode; a failed
      round is charged to the member that failed, once, and to nobody when the
      client, the administrator, the body or a limit is to blame.
    - The breaker of every member moves along the edges of the abstract machine
      in every interleaving; a member becomes half-open only for one request or
      probe at a time, and no handler, not even one that panics, leaves it so.
    - Every request that is admitted ends: the loop terminates, the record is
      closed exactly once, in the state the answer tells; the maps of requests
      stay bounded, and no channel is closed twice or written after its end.
    - A stream is committed only behind a valid window; one that fails is cut
      without an end the client could mistake for success, and restoring masked
      values does not depend on how it was cut into chunks.
    - What masking hides: every value a rule names and no longer candidate
      covers is gone from the text, the document keeps its shape, skipping the
      rules the pre-check rules out changes nothing, and the client gets back
      what it sent.
    - The names of the opencode lane are restored in answers and streams, an
      alias never collides, and only names of the template leave the gateway.
    - Counters are the sum of what their holders hold: key slots, channel slots,
      body bytes, account leases, slot reservations, failures of a login.
    - References between groups never form a cycle, and resolution ends.
    - One worker runs a task of the evaluation queue at a time, in one process
      or several, and a finished task is never run again.
    - Every conversation that was accepted is in the queue, in the hands of the
      writer, in a file or counted as lost, whatever fails; a crash while a day
      is compacted leaves one complete file of it; the clean-up keeps within its
      budget.
    - A secret of a request that failed is not stored when its body is a document;
      an entry of the error log that was accepted is in one place until it is
      stored or lost with a failed insert, and a shutdown that ends with no call in
      flight leaves none behind.

    ** Bounds and fuel

    [request_loop] runs on fuel: the configured number of turns and one more is
    always enough ([ForwardLogic.forward_terminates]).  Resolution of references
    uses the ten hops of the code; [WalkRefChain] nine.  The count of leaves needs
    twice the number of groups and one.  Loops that shorten a list ([trim_loop],
    [shrink]) take the length of the list.  The star of a regular expression
    takes the length of the text, the search for all matches one more, and
    [Replace_loop] the length of the text.  The JSON decoder takes the length of
    its input ([GoJsonThms] shows that it is enough for every encoded value),
    [maskJSONStream] the number of tokens.  [probe_alias] makes the tries of the
    code; [unused] needs one more than the names taken.  [Write_loop] of a
    buffered writer ends in two rounds, which [Conversation.flush_writes_all]
    shows.  [shrink_loop] halves its limit at most six times before it gives up; ten
    rounds are more ([ErrorLogText.shrink_loop_document]).

    ** Parameters

    Code that is not in the repository is an argument: the JSON decoder and the
    protocol types of the axonhub library ([Decoder], [Aggregator], [BodyQuery]),
    gjson and sjson ([Gjson]), gzip and the encoding of a record to a line of
    JSON ([ConvFiles], [Conversation]), the hash of the cache, the template of
    tools, the upstream with everything it returns ([Outside] of [Forward]), the
    outcome of every operation on a file, time and randomness (arguments of the
    operations).

    ** Not modelled

    - HTTP servers and clients, the database and its migrations, the web
      console, backups, notifications, updates of the program and the tables of
      built-in data: input, output, constants and glue.
    - The bodies of relay/upstream.go that build and send HTTP requests: they
      call net/http and the axonhub transformers, and what is left without them
      is modelled where it is used ([Forward], [StreamEvents], [Headers]).
    - The rewriting of opencode requests (opencode_free.go) and the adaptation of
      the arguments of a tool (opencode_tool_adapter.go): edits of JSON by long
      paths of gjson and sjson, with tables of the lane's headers.
    - The probe of opencode accounts: a conversation with remote services.
    - op/client_stat.go: counters per client in the database, behind a queue with
      the shape of the error log's.
    - op/channel.go, op/apikey.go, op/user.go and op/setting.go are rows of the
      database behind a cache; the cache is modelled ([Cache]).
    - Database errors of op/group.go abort the transaction and leave the caches as
      they were. *)

From stdpp Require Export base gmap sets list strings fin_maps sorting.
From Stdlib Require Export ZArith Lia.

#[export] Set Default Proof Using "Type".
#[global] Open Scope Z_scope.

(** ** Notation and hint databases of the development *)

Declare Scope nova_scope.
Delimit Scope nova_scope with nova.

(** [m .[ k ]] is a Go read of a [map[K]int]: the zero value when the key is
    absent. *)
Notation "m .[ k ]" := (default 0 (m !! k))
  (at level 1, k at level 200, format "m .[ k ]") : nova_scope.
#[global] Open Scope nova_scope.

Create HintDb nova.

(** [case_ifs] splits every [if] and [match] of the goal, recording the
    equation of each test; [solve_ifs] closes what remains by computation,
    arithmetic or the map simplifier. *)
Ltac case_ifs := repeat case_match.
Ltac solve_ifs := case_ifs; simplify_eq/=; eauto with nova; try lia.

(** Case analysis on a Boolean test of the goal. *)
Ltac case_test b := let H := fresh "Htest" in destruct b eqn:H.

(** ** Options *)

Definition is_some {A} (o : option A) : bool :=
  match o with Some _ => true | None => false end.

Lemma is_some_true {A} (o : option A) : is_some o = true <-> exists x, o = Some x.
Proof. destruct o; simpl; naive_solver. Qed.

Lemma is_some_false {A} (o : option A) : is_some o = false <-> o = None.
Proof. destruct o; simpl; naive_solver. Qed.

(** ** Iteration over a Go map

    The order in which [range] visits a map is unspecified.  Wherever the code
    depends on it, the definitions take it from this class: a listing of the
    map that is a permutation of its bindings. *)

Class MapOrder (K : Type) `{Countable K} := {
  map_order : forall {V : Type}, gmap K V -> list (K * V);
  map_order_perm : forall {V : Type} (m : gmap K V), map_order m ≡ₚ map_to_list m;
}.

(** One admissible order, used to run the definitions. *)
#[export] Program Instance canonical_order `{Countable K} : MapOrder K | 10 :=
  { map_order _ m := map_to_list m }.
Next Obligation. intros. reflexivity. Qed.

Section map_order_facts.
Context `{MapOrder K} {V : Type}.
Implicit Types m : gmap K V.

Lemma elem_of_map_order m k v : (k, v) ∈ map_order m <-> m !! k = Some v.
Proof. rewrite map_order_perm. apply elem_of_map_to_list. Qed.

Lemma map_order_nil m : map_order m = [] <-> m = ∅.
Proof.
  split.
  - intros Hnil. apply map_to_list_empty_iff.
    apply Permutation_nil. rewrite <- Hnil. by rewrite map_order_perm.
  - intros ->. apply Permutation_nil. by rewrite map_order_perm, map_to_list_empty.
Qed.
End map_order_facts.

(** ** Sums over integer-valued maps *)

Definition map_sum `{Countable K} (m : gmap K Z) : Z :=
  map_fold (fun _ v acc => v + acc) 0 m.

Section map_sum_facts.
Context `{Countable K}.
Implicit Types m : gmap K Z.

Lemma map_sum_empty : map_sum (∅ : gmap K Z) = 0.
Proof. apply map_fold_empty. Qed.

Lemma map_sum_insert_fresh m k v :
  m !! k = None -> map_sum (<[k := v]> m) = v + map_sum m.
Proof.
  intros Hk. unfold map_sum. rewrite map_fold_insert_L; [done | | done].
  intros; lia.
Qed.

Lemma map_sum_delete m k : map_sum m = m.[k] + map_sum (delete k m).
Proof.
  destruct (m !! k) as [v|] eqn:Hk; simpl.
  - rewrite <- (insert_delete_id m k v) at 1 by done.
    apply map_sum_insert_fresh. apply lookup_delete_eq.
  - by rewrite delete_id.
Qed.

Lemma map_sum_insert m k v : map_sum (<[k := v]> m) = v - m.[k] + map_sum m.
Proof.
  rewrite (map_sum_delete (<[k := v]> m) k), (map_sum_delete m k).
  rewrite lookup_insert_eq, delete_insert_eq. simpl. lia.
Qed.

Lemma map_sum_nonneg m : map_Forall (fun _ v => 0 <= v) m -> 0 <= map_sum m.
Proof.
  induction m as [|k v m Hk IH] using map_ind; intros Hall.
  - by rewrite map_sum_empty.
  - rewrite map_sum_insert_fresh by done.
    apply map_Forall_insert in Hall as [? ?]; [|done]. specialize (IH ltac:(done)). lia.
Qed.

Lemma map_sum_pos m k v :
  map_Forall (fun _ v => 0 < v) m -> m !! k = Some v -> v <= map_sum m.
Proof.
  intros Hall Hk. rewrite (map_sum_delete m k), Hk. simpl.
  enough (0 <= map_sum (delete k m)) by lia.
  apply map_sum_nonneg. intros i w [_ Hi]%lookup_delete_Some.
  specialize (Hall i w Hi). simpl in Hall. lia.
Qed.

Lemma map_sum_zero m : map_Forall (fun _ v => 0 < v) m -> map_sum m <= 0 <-> m = ∅.
Proof.
  intros Hall. split.
  - intros Hz. apply map_empty. intros k. destruct (m !! k) as [v|] eqn:Hk; [|done].
    pose proof (Hall k v Hk). pose proof (map_sum_pos m k v Hall Hk). simpl in *. lia.
  - intros ->. by rewrite map_sum_empty.
Qed.
End map_sum_facts.

(** ** Restricting a map to a set of keys: the loop
    [for k := range m { if !items[k] { delete(m, k) } }]. *)

Definition restrict_keys `{Countable K} {V} (items : gset K) (m : gmap K V) : gmap K V :=
  filter (fun kv => kv.1 ∈ items) m.

Section restrict_facts.
Context `{Countable K} {V : Type}.
Implicit Types (m : gmap K V) (items : gset K).

Lemma restrict_keys_Some items m k v :
  restrict_keys items m !! k = Some v <-> m !! k = Some v /\ k ∈ items.
Proof. unfold restrict_keys. rewrite map_lookup_filter_Some. done. Qed.

Lemma restrict_keys_lookup items m k :
  k ∈ items -> restrict_keys items m !! k = m !! k.
Proof.
  intros Hk. apply option_eq. intros v. rewrite restrict_keys_Some. naive_solver.
Qed.

Lemma restrict_keys_out items m k :
  k ∉ items -> restrict_keys items m !! k = None.
Proof.
  intros Hk. apply eq_None_not_Some. intros [v Hv].
  apply restrict_keys_Some in Hv. naive_solver.
Qed.

Lemma restrict_keys_dom items m : dom (restrict_keys items m) ⊆ items.
Proof.
  intros k Hk. apply elem_of_dom in Hk as [v Hv].
  by apply restrict_keys_Some in Hv as [_ ?].
Qed.

Lemma restrict_keys_id items m : dom m ⊆ items -> restrict_keys items m = m.
Proof.
  intros Hsub. apply map_eq. intros k. apply option_eq. intros v.
  rewrite restrict_keys_Some. split; [naive_solver|]. intros Hk. split; [done|].
  apply Hsub. by eapply elem_of_dom_2.
Qed.

Lemma restrict_keys_Forall (P : K -> V -> Prop) items m :
  map_Forall P m -> map_Forall P (restrict_keys items m).
Proof. intros HP k v [Hk _]%restrict_keys_Some. by apply HP. Qed.
End restrict_facts.

(** Dropping entries of a map of non-negative values does not raise the sum. *)
Lemma map_sum_restrict `{Countable K} (items : gset K) (m : gmap K Z) :
  map_Forall (fun _ v => 0 <= v) m -> map_sum (restrict_keys items m) <= map_sum m.
Proof.
  induction m as [|k v m Hk IH] using map_ind; intros Hall.
  - unfold restrict_keys. by rewrite map_filter_empty.
  - apply map_Forall_insert in Hall as [Hv Hall]; [|done]. specialize (IH Hall).
    rewrite map_sum_insert_fresh by done.
    destruct (decide (k ∈ items)) as [Hin|Hout]; unfold restrict_keys in *.
    + rewrite map_filter_insert_True by done. rewrite map_sum_insert_fresh; [lia|].
      by apply map_lookup_filter_None; left.
    + rewrite map_filter_insert_False by done. rewrite delete_id by done. lia.
Qed.

#[export] Hint Resolve restrict_keys_Forall restrict_keys_dom : nova.

(** ** Lists *)

Section list_facts.
Context {A : Type}.

(** The first element that passes a test, as a Go [for ... break] loop. *)
Fixpoint find_first (p : A -> bool) (l : list A) : option A :=
  match l with
  | [] => None
  | x :: l => if p x then Some x else find_first p l
  end.

Lemma find_first_Some p l x :
  find_first p l = Some x -> x ∈ l /\ p x = true.
Proof.
  induction l as [|y l IH]; simpl; [done|].
  destruct (p y) eqn:Hy; intros Heq; simplify_eq.
  - split; [left|done].
  - destruct (IH Heq). split; [by right|done].
Qed.

Lemma find_first_None p l :
  find_first p l = None <-> forall x, x ∈ l -> p x = false.
Proof.
  induction l as [|y l IH]; simpl.
  - split; [intros _ x Hx; by apply elem_of_nil in Hx | done].
  - destruct (p y) eqn:Hy.
    + split; [done|]. intros Hall. specialize (Hall y ltac:(left)). congruence.
    + rewrite IH. setoid_rewrite elem_of_cons. naive_solver.
Qed.
End list_facts.

(** ** The best of a list

    The loop [for _, x := range xs { if !ok(x) { continue }; if best == nil ||
    better(x, best) { best = x } }] over keyed values. *)

Section best.
Context {K V : Type} (eligible : K * V -> bool) (better : V -> V -> bool).

Definition keep_best (l : list (K * V)) : option (K * V) :=
  foldl (fun best kv =>
    if negb (eligible kv) then best
    else match best with
         | None => Some kv
         | Some b => if better kv.2 b.2 then Some kv else best
         end) None l.

Lemma elem_of_snoc {A} (x y : A) l : x ∈ l ++ [y] -> x ∈ l \/ x = y.
Proof. rewrite elem_of_app, list_elem_of_singleton. done. Qed.

(** No worse than a worse one is no better than the better one. *)
Lemma keep_best_spec l :
  (forall a, better a a = false) -> (forall x b c, better x b = true -> better c b = false -> better c x = false) ->
  match keep_best l with
  | None => forall kv, kv ∈ l -> eligible kv = false
  | Some b => b ∈ l /\ eligible b = true /\ forall kv, kv ∈ l -> eligible kv = true -> better kv.2 b.2 = false
  end.
Proof.
  intros Hirr Htrans. induction l as [|kv l IH] using rev_ind; [by intros ? ?%elem_of_nil|].
  unfold keep_best in *. rewrite foldl_app. cbn [foldl]. set (best := foldl _ None l) in *. clearbody best.
  destruct (eligible kv) eqn:He; cbn [negb].
  - destruct best as [b|].
    + destruct IH as (Hb & Heb & Hall). destruct (better kv.2 b.2) eqn:Hk; (split; [set_solver|]; split; [done|]);
        intros kv' [Hin| ->]%elem_of_snoc He'; auto. eapply Htrans; [exact Hk|by apply Hall].
    + split; [set_solver|]. split; [done|]. intros kv' [Hin| ->]%elem_of_snoc He'; [by rewrite IH in He'|done].
  - destruct best as [b|].
    + destruct IH as (Hb & Heb & Hall). split; [set_solver|]. split; [done|].
      intros kv' [Hin| ->]%elem_of_snoc He'; [by apply Hall|congruence].
    + intros kv' [Hin| ->]%elem_of_snoc; [by apply IH|done].
Qed.
End best.
