(* ===== verification/GoStrings.v ===== *)
(** * Go strings

    A Go string is a sequence of bytes, here [string] with one [ascii] per byte.
    The functions of package strings that the modelled code calls, and UTF-8. *)

From Stdlib Require Export Ascii.
From stdpp Require Import pretty.
From S2P Require Import Prelude.

Definition byte_of (a : ascii) : Z := Z.of_N (Ascii.N_of_ascii a).
Definition of_byte (b : Z) : ascii := Ascii.ascii_of_N (Z.to_N b).

Definition slen (s : string) : Z := Z.of_nat (String.length s).

(** [strings.Contains]. *)
Fixpoint str_contains (s sub : string) : bool :=
  String.prefix sub s ||
  match s with
  | EmptyString => false
  | String.String _ s => str_contains s sub
  end.

Definition lower_byte (a : ascii) : ascii :=
  let b := byte_of a in if (65 <=? b) && (b <=? 90) then of_byte (b + 32) else a.

(** [strings.ToLower].  Two runes outside ASCII have a lower case inside it, the
    Kelvin sign and the dotted capital I; the others stay outside ASCII and are
    left alone, no caller compares them. *)
Fixpoint ToLower (s : string) : string :=
  match s with
  | String.String a rest =>
      match rest with
      | String.String b rest1 =>
          if (byte_of a =? 0xC4) && (byte_of b =? 0xB0) then String.String "i" (ToLower rest1)
          else match rest1 with
               | String.String c rest2 =>
                   if (byte_of a =? 0xE2) && (byte_of b =? 0x84) && (byte_of c =? 0xAA)
                   then String.String "k" (ToLower rest2)
                   else String.String (lower_byte a) (ToLower rest)
               | EmptyString => String.String (lower_byte a) (ToLower rest)
               end
      | EmptyString => String.String (lower_byte a) EmptyString
      end
  | EmptyString => EmptyString
  end.

Definition is_digit (a : ascii) : bool := (48 <=? byte_of a) && (byte_of a <=? 57).
Definition digit_of (a : ascii) : Z := byte_of a - 48.

(** The class [\s] of package regexp. *)
Definition is_regexp_space (a : ascii) : bool :=
  existsb (Z.eqb (byte_of a)) [9; 10; 12; 13; 32].

(** [strings.TrimPrefix]. *)
Fixpoint drop_prefix (p s : string) : option string :=
  match p, s with
  | EmptyString, _ => Some s
  | String.String a p, String.String b s => if Ascii.eqb a b then drop_prefix p s else None
  | _, EmptyString => None
  end.
Definition TrimPrefix (s p : string) : string := default s (drop_prefix p s).

(** [strings.HasSuffix]. *)
Fixpoint HasSuffix (s suffix : string) : bool :=
  bool_decide (s = suffix) ||
  match s with EmptyString => false | String.String _ s => HasSuffix s suffix end.

(** [strings.TrimRight] with a cutset of one byte. *)
Fixpoint TrimRight (s : string) (c : ascii) : string :=
  match s with
  | EmptyString => EmptyString
  | String.String a s =>
      let rest := TrimRight s c in
      if bool_decide (rest = "") && Ascii.eqb a c then "" else String.String a rest
  end.

Lemma drop_prefix_app p s : drop_prefix p (p +:+ s) = Some s.
Proof. induction p as [|a p IH]; [by destruct s|].
  change (drop_prefix (String.String a p) (String.String a p +:+ s))
    with (if Ascii.eqb a a then drop_prefix p (p +:+ s) else None). by rewrite Ascii.eqb_refl, IH. Qed.

Lemma drop_prefix_Some p s rest : drop_prefix p s = Some rest -> s = p +:+ rest.
Proof.
  revert s. induction p as [|a p IH]; intros s.
  - destruct s; cbn; intros Hs; injection Hs as <-; reflexivity.
  - destruct s as [|b s]; [done|]. cbn [drop_prefix]. destruct (Ascii.eqb a b) eqn:Hab; [|done].
    intros Hs. apply Ascii.eqb_eq in Hab as ->. by rewrite (IH _ Hs).
Qed.

Lemma prefix_app sub u : String.prefix sub (sub +:+ u) = true.
Proof.
  induction sub as [|a sub IH]; [by destruct u|].
  change (String.prefix (String.String a sub) (String.String a sub +:+ u))
    with (if ascii_dec a a then String.prefix sub (sub +:+ u) else false).
  by destruct (ascii_dec a a).
Qed.

Lemma str_contains_prefix s sub : String.prefix sub s = true -> str_contains s sub = true.
Proof. intros Hp. destruct s; unfold str_contains; fold str_contains; by rewrite Hp. Qed.

Lemma str_contains_app t sub u : str_contains (t +:+ sub +:+ u) sub = true.
Proof.
  induction t as [|a t IH]; [exact (str_contains_prefix (sub +:+ u) sub (prefix_app sub u))|].
  change (String.String a t +:+ sub +:+ u) with (String.String a (t +:+ sub +:+ u)).
  unfold str_contains; fold str_contains. by rewrite IH, orb_true_r.
Qed.
