(* ===== verification/Hub.v ===== *)
(** * Status streams

    The two broadcast hubs of the relay ([watchers] with [publishRequestLocked]
    in state.go, [routeStreams] with [publishRouteLocked] in route.go) are the
    same code over two message types.  A hub is a set of registered Go channels;
    a publication sends without blocking and evicts a subscriber whose buffer is
    full by unregistering and closing its channel.

    Go panics on a send to a closed channel and on a second [close], so the
    model keeps the channel objects in a store, separate from the set of
    registered references, and records a panic.  The invariant [hub_ok] shows
    that no reachable hub panics. *)

From S2P Require Import Prelude.

(** A buffered channel: its queue, oldest message first, and whether it has
    been closed. *)
Record Chan (M : Type) := mkChan { ch_buf : list M; ch_closed : bool }.
Arguments mkChan {M} _ _.
Arguments ch_buf {M} _.
Arguments ch_closed {M} _.

Record Hub (M : Type) := mkHub {
  hub_chans : gmap Z (Chan M);   (** every channel object ever made *)
  hub_watchers : gset Z;         (** the registered references *)
  hub_panicked : bool;           (** a Go run-time panic has happened *)
}.
Arguments mkHub {M} _ _ _.
Arguments hub_chans {M} _.
Arguments hub_watchers {M} _.
Arguments hub_panicked {M} _.

Section hub.
Context {M : Type}.
Implicit Types (h : Hub M) (msg : M) (ch : Z).

Definition hub_empty : Hub M := mkHub ∅ ∅ false.

(** [close(ch)]: panics when [ch] is already closed. *)
Definition chan_close ch h : Hub M :=
  match hub_chans h !! ch with
  | Some c =>
      if ch_closed c then mkHub (hub_chans h) (hub_watchers h) true
      else mkHub (<[ch := mkChan (ch_buf c) true]> (hub_chans h)) (hub_watchers h)
             (hub_panicked h)
  | None => mkHub (hub_chans h) (hub_watchers h) true
  end.

(** [delete(watchers, ch)]. *)
Definition unregister ch h : Hub M :=
  mkHub (hub_chans h) (hub_watchers h ∖ {[ch]}) (hub_panicked h).

(** One iteration of the publication loop: [select] with a [default] branch,
    on a buffer of capacity [cap]. *)
Definition publish_one (cap : nat) msg h ch : Hub M :=
  match hub_chans h !! ch with
  | Some c =>
      if ch_closed c then mkHub (hub_chans h) (hub_watchers h) true
      else if decide (length (ch_buf c) < cap)%nat
      then mkHub (<[ch := mkChan (ch_buf c ++ [msg]) false]> (hub_chans h))
             (hub_watchers h) (hub_panicked h)
      else chan_close ch (unregister ch h)
  | None => h
  end.

Definition publish (cap : nat) msg h : Hub M :=
  foldl (publish_one cap msg) h (elements (hub_watchers h)).

(** [OpenRequestStream] and [OpenRouteStream] register a channel that [make]
    has just returned, so its reference [ch] is fresh. *)
Definition open_stream ch h : Hub M :=
  mkHub (<[ch := mkChan [] false]> (hub_chans h)) ({[ch]} ∪ hub_watchers h) (hub_panicked h).

(** [CloseRequestStream] and [CloseRouteStream]. *)
Definition close_stream ch h : Hub M :=
  if decide (ch ∈ hub_watchers h) then chan_close ch (unregister ch h) else h.

(** The consumer takes the oldest message of its channel. *)
Definition recv ch h : option M * Hub M :=
  match hub_chans h !! ch with
  | Some (mkChan (m :: buf) cl) =>
      (Some m, mkHub (<[ch := mkChan buf cl]> (hub_chans h)) (hub_watchers h) (hub_panicked h))
  | _ => (None, h)
  end.

(** Registered channels exist and are open, their buffers respect the
    capacity, and nothing has panicked. *)
Record hub_ok (cap : nat) h : Prop := {
  ok_open : forall ch, ch ∈ hub_watchers h ->
    exists buf, hub_chans h !! ch = Some (mkChan buf false);
  ok_cap : forall ch c, hub_chans h !! ch = Some c -> (length (ch_buf c) <= cap)%nat;
  ok_panic : hub_panicked h = false;
}.

Lemma hub_empty_ok cap : hub_ok cap hub_empty.
Proof.
  split; simpl; [set_solver | | done].
  intros ch c Hc. by rewrite lookup_empty in Hc.
Qed.

(** Evicting an open channel leaves a consistent hub. *)
Lemma chan_close_ok cap ch h :
  hub_ok cap h -> ch ∈ hub_watchers h -> hub_ok cap (chan_close ch (unregister ch h)).
Proof.
  intros [Hopen Hcap Hpan] Hch. destruct (Hopen ch Hch) as [buf Hb].
  unfold chan_close; simpl. rewrite Hb; simpl.
  split; simpl; [| |done].
  - intros ch' [Hin Hne]%elem_of_difference. rewrite elem_of_singleton in Hne.
    rewrite lookup_insert_ne by done. by apply Hopen.
  - intros ch' c. rewrite lookup_insert. case_decide; intros Hc; simplify_eq/=; eauto.
    by apply (Hcap ch' _ Hb).
Qed.

Lemma publish_one_ok cap msg h ch :
  hub_ok cap h -> ch ∈ hub_watchers h -> hub_ok cap (publish_one cap msg h ch).
Proof.
  intros Hok Hch. pose proof Hok as [Hopen Hcap Hpan].
  destruct (Hopen ch Hch) as [buf Hb]. unfold publish_one. rewrite Hb; simpl.
  case_decide; [|by apply chan_close_ok].
  split; simpl; [| |done].
  - intros ch' Hin. rewrite lookup_insert. case_decide; eauto.
  - intros ch' c. rewrite lookup_insert. case_decide; intros Hc; simplify_eq/=; eauto.
    rewrite length_app; simpl. lia.
Qed.

(** A step touches its own channel and its own registration only. *)
Lemma publish_one_other cap msg h ch ch' :
  ch' ≠ ch ->
  hub_chans (publish_one cap msg h ch) !! ch' = hub_chans h !! ch' /\
  (ch' ∈ hub_watchers (publish_one cap msg h ch) <-> ch' ∈ hub_watchers h).
Proof.
  intros Hne. unfold publish_one, chan_close, unregister.
  solve_ifs; simpl; rewrite ?lookup_insert_ne by done; split; set_solver.
Qed.

Lemma publish_fold_ok cap msg l h :
  NoDup l -> (forall ch, ch ∈ l -> ch ∈ hub_watchers h) -> hub_ok cap h ->
  hub_ok cap (foldl (publish_one cap msg) h l).
Proof.
  revert h. induction l as [|ch l IH]; intros h Hnd Hin Hok; simpl; [done|].
  apply NoDup_cons in Hnd as [Hnotin Hnd]. apply IH; [done| |].
  - intros ch' Hch'. apply publish_one_other; [intros ->; done|]. apply Hin. by right.
  - apply publish_one_ok; [done|]. apply Hin. by left.
Qed.

Lemma publish_ok cap msg h : hub_ok cap h -> hub_ok cap (publish cap msg h).
Proof.
  intros Hok. apply publish_fold_ok; [apply NoDup_elements | | done].
  intros ch. by rewrite elem_of_elements.
Qed.

Lemma publish_fold_other cap msg l h ch :
  ch ∉ l ->
  hub_chans (foldl (publish_one cap msg) h l) !! ch = hub_chans h !! ch /\
  (ch ∈ hub_watchers (foldl (publish_one cap msg) h l) <-> ch ∈ hub_watchers h).
Proof.
  revert h. induction l as [|x l IH]; intros h Hch; simpl; [done|].
  apply not_elem_of_cons in Hch as [Hne Hch].
  destruct (IH (publish_one cap msg h x) Hch) as [-> ->].
  by apply publish_one_other.
Qed.

(** What a publication does to one channel. *)
Definition published (cap : nat) msg (c : Chan M) : Chan M :=
  if decide (length (ch_buf c) < cap)%nat then mkChan (ch_buf c ++ [msg]) false
  else mkChan (ch_buf c) true.

Lemma publish_fold_in cap msg l h ch c :
  NoDup l -> ch ∈ l -> hub_chans h !! ch = Some c -> ch_closed c = false ->
  hub_chans (foldl (publish_one cap msg) h l) !! ch = Some (published cap msg c).
Proof.
  revert h. induction l as [|x l IH]; intros h Hnd Hin Hc Hcl; simpl.
  { by apply elem_of_nil in Hin. }
  apply NoDup_cons in Hnd as [Hnotin Hnd].
  destruct (decide (ch = x)) as [->|Hne].
  - destruct (publish_fold_other cap msg l (publish_one cap msg h x) x Hnotin) as [-> _].
    unfold publish_one, published, chan_close. rewrite Hc, Hcl.
    case_decide; simpl; [by rewrite lookup_insert_eq|].
    rewrite Hc, Hcl; simpl. by rewrite lookup_insert_eq.
  - apply elem_of_cons in Hin as [?|Hin]; [done|].
    apply IH; [done..| |done]. by rewrite (proj1 (publish_one_other cap msg h x ch Hne)).
Qed.

(** Every registered channel gets the message at the end of its queue, or is
    closed with its queue intact when the queue is full; every other channel
    is untouched. *)
Lemma publish_lookup cap msg h ch :
  hub_ok cap h ->
  hub_chans (publish cap msg h) !! ch =
    (if decide (ch ∈ hub_watchers h) then published cap msg <$> hub_chans h !! ch
     else hub_chans h !! ch).
Proof.
  intros Hok. unfold publish. case_decide as Hch.
  - destruct (ok_open _ _ Hok ch Hch) as [buf Hb]. rewrite Hb; simpl.
    apply publish_fold_in; [apply NoDup_elements | by apply elem_of_elements | done | done].
  - apply publish_fold_other. by rewrite elem_of_elements.
Qed.

Lemma open_stream_ok cap ch h : hub_ok cap h -> hub_ok cap (open_stream ch h).
Proof.
  intros [Hopen Hcap Hpan]. split; simpl; [| |done].
  - intros ch' Hin. rewrite lookup_insert. case_decide; [eauto|]. apply Hopen. set_solver.
  - intros ch' c. rewrite lookup_insert.
    case_decide; intros Hc; simplify_eq/=; [lia|eauto].
Qed.

Lemma close_stream_ok cap ch h : hub_ok cap h -> hub_ok cap (close_stream ch h).
Proof.
  intros Hok. unfold close_stream. case_decide; [by apply chan_close_ok | done].
Qed.

Lemma recv_ok cap ch h : hub_ok cap h -> hub_ok cap (recv ch h).2.
Proof.
  intros Hok. pose proof Hok as [Hopen Hcap Hpan]. unfold recv.
  destruct (hub_chans h !! ch) as [[[|m buf] cl]|] eqn:Hc; simpl; try done.
  split; simpl; [| |done].
  - intros ch' Hin. rewrite lookup_insert. case_decide; subst; [|by apply Hopen].
    destruct (Hopen _ Hin) as [buf' Hb']. simplify_eq. eauto.
  - intros ch' c. rewrite lookup_insert. case_decide; intros Hc'; simplify_eq/=; eauto.
    specialize (Hcap _ _ Hc); simpl in Hcap. lia.
Qed.

(** The life of a hub, seen from its operations. *)
Inductive hub_step (cap : nat) : Hub M -> Hub M -> Prop :=
| step_publish h msg : hub_step cap h (publish cap msg h)
| step_open h ch : hub_chans h !! ch = None -> hub_step cap h (open_stream ch h)
| step_close h ch : hub_step cap h (close_stream ch h)
| step_recv h ch : hub_step cap h (recv ch h).2.

Lemma hub_step_ok cap h h' : hub_step cap h h' -> hub_ok cap h -> hub_ok cap h'.
Proof.
  destruct 1; eauto using publish_ok, open_stream_ok, close_stream_ok, recv_ok.
Qed.
End hub.

#[export] Hint Resolve hub_empty_ok publish_ok open_stream_ok close_stream_ok recv_ok : nova.
