(* ===== verification/Float64.v ===== *)
(** * Go [float64] arithmetic on the values the relay computes with

    A finite float is [m * 2^e]; [round53] is the IEEE 754 round-to-nearest,
    ties-to-even of an exact dyadic to a 53-bit significand.  The relay feeds
    these operations with decoded JSON numbers and machine integers, so NaN does
    not arise; the exponent range is that of the normal numbers, and a result
    above it is [FInf]. *)

From S2P Require Import Prelude.

Inductive f64 :=
| FFin (m e : Z)   (** the value [m * 2^e] *)
| FInf.            (** +Inf *)

Definition f64_zero : f64 := FFin 0 0.
Definition f64_one : f64 := FFin 1 0.

(** Round half to even of [a / 2^k] for [0 < k]. *)
Definition rne (a k : Z) : Z :=
  let q := a / 2 ^ k in
  let r := a mod 2 ^ k in
  let h := 2 ^ (k - 1) in
  if r <? h then q
  else if h <? r then q + 1
  else if Z.even q then q else q + 1.

(** Rounding to a 53-bit significand.  [Z.log2 a - 52] bits are dropped. *)
Definition round53 (m e : Z) : f64 :=
  let a := Z.abs m in
  let k := Z.log2 a - 52 in
  if k <=? 0 then FFin m e
  else
    let q := rne a k in
    if 1024 <=? Z.log2 q + e + k then FInf else FFin (Z.sgn m * q) (e + k).

Definition f64_of_int (n : Z) : f64 := round53 n 0.

Definition f64_mul (x y : f64) : f64 :=
  match x, y with
  | FFin m1 e1, FFin m2 e2 => round53 (m1 * m2) (e1 + e2)
  | _, _ => FInf
  end.

(** The quotient of a nonnegative and a positive finite value: 130 bits more than
    the significand of the divisor, and a sticky bit for the remainder. *)
Definition f64_quot (x y : f64) : f64 :=
  match x, y with
  | FFin m1 e1, FFin m2 e2 =>
      let k := Z.log2 m2 + 130 in
      let q := m1 * 2 ^ k / m2 in
      let sticky := if (m1 * 2 ^ k) mod m2 =? 0 then 0 else 1 in
      round53 (2 * q + sticky) (e1 - e2 - k - 1)
  | FFin _ _, FInf => f64_zero
  | FInf, _ => FInf
  end.

(** Comparison of finite values after aligning the exponents. *)
Definition f64_ltb (x y : f64) : bool :=
  match x, y with
  | FFin m1 e1, FFin m2 e2 =>
      let e := Z.min e1 e2 in (m1 * 2 ^ (e1 - e) <? m2 * 2 ^ (e2 - e))
  | FFin _ _, FInf => true
  | FInf, _ => false
  end.

Definition f64_eqb (x y : f64) : bool := negb (f64_ltb x y) && negb (f64_ltb y x).

(** Go's [max] on floats. *)
Definition f64_max (x y : f64) : f64 := if f64_ltb x y then y else x.

(** Conversion to [int64]: truncation toward zero.  [None] where the Go
    specification leaves the result to the implementation. *)
Definition f64_to_int64 (x : f64) : option Z :=
  match x with
  | FFin m e =>
      let v := if 0 <=? e then m * 2 ^ e else Z.quot m (2 ^ (- e)) in
      if (- 2 ^ 63 <=? v) && (v <? 2 ^ 63) then Some v else None
  | FInf => None
  end.

(** ** [math.Pow] of Go's math package, for a finite base and an integer
    exponent converted from a positive [int]

    The loop multiplies significands kept in [[0.5, 1)] by [Frexp] and adds up
    exponents; [Ldexp] scales the result. *)

(** [Frexp] of a positive finite number: significand and exponent. *)
Definition frexp (m e : Z) : (Z * Z) * Z :=
  let n := Z.log2 m + 1 in ((m, - n), e + n).

Definition ldexp (m e ae : Z) : f64 :=
  if m =? 0 then FFin 0 0
  else if 1024 <=? Z.log2 (Z.abs m) + e + ae then FInf else FFin m (e + ae).

Definition fin_mul (x y : Z * Z) : Z * Z :=
  match round53 (x.1 * y.1) (x.2 + y.2) with
  | FFin m e => (m, e)
  | FInf => (0, 0)   (* both factors are at most 1 in magnitude: no overflow *)
  end.

(** The squaring loop over the bits of [i]; 63 rounds exhaust an [int64]. *)
Fixpoint pow_loop (fuel : nat) (i : Z) (x1 : Z * Z) (xe : Z) (a1 : Z * Z) (ae : Z)
  : (Z * Z) * Z :=
  match fuel with
  | O => (a1, ae)
  | S fuel =>
      if i =? 0 then (a1, ae)
      else if (xe <? - 2 ^ 12) || (2 ^ 12 <? xe) then (a1, ae + xe)
      else
        let '(a1, ae) := if Z.odd i then (fin_mul a1 x1, ae + xe) else (a1, ae) in
        let x1 := fin_mul x1 x1 in
        let xe := 2 * xe in
        if f64_ltb (FFin x1.1 x1.2) (FFin 1 (-1))
        then pow_loop fuel (Z.shiftr i 1) (x1.1, x1.2 + 1) (xe - 1) a1 ae
        else pow_loop fuel (Z.shiftr i 1) x1 xe a1 ae
  end.

(** [math.Pow(x, float64(n))] for [x >= 1] and [n > 0]. *)
Definition pow_int (x : f64) (n : Z) : f64 :=
  if f64_eqb x f64_one then f64_one
  else
    match f64_of_int n, x with
    | FFin my ey, FFin m e =>
        let yi := my * 2 ^ ey in
        if yi =? 1 then x
        else if 2 ^ 63 <=? yi then FInf
        else
          let '(x1, xe) := frexp m e in
          let '(a1, ae) := pow_loop 64 yi x1 xe (1, 0) 0 in
          ldexp a1.1 a1.2 ae
    | _, _ => FInf
    end.
