(* ===== verification/GroupModel.v ===== *)
(** * Groups, members, channels and the relay configuration

    The data of internal/model/group.go and internal/model/channel.go that
    routing reads, with [NormalizeGroupRelayConfig] and the total order of
    [sortGroupItems]. *)

From S2P Require Import Prelude Float64.

(** ** Relay configuration *)

Record GroupRelayConfig := mkRelayConfig {
  MemberMaxAttempts : Z;
  MemberInfraMaxRetries : Z;
  MemberRetryIntervalSeconds : f64;
  MemberNonStreamResponseTimeoutSeconds : Z;
  MemberStreamFirstEventTimeoutSeconds : Z;
  MemberStreamIdleTimeoutSeconds : Z;
  MemberStreamMaxBytes : Z;
  MemberStreamMaxEvents : Z;
  MemberCooldownSeconds : Z;
  MemberAffinitySeconds : Z;
  MaxRequestRounds : Z;
  MaxRequestSeconds : Z;
  SessionStickyEnabled : bool;
  SessionStickySeconds : Z;
  CooldownBackoffMultiplier : f64;
  CooldownMaxSeconds : Z;
  AllCooldownRetryBaseSeconds : Z;
  AllCooldownRetryMaxSeconds : Z;
  BackgroundProbeEnabled : bool;
  BackgroundProbeIntervalSeconds : Z;
  EmergencyItemID : Z;
  PreferPassthrough : bool;
  MaskEnabled : bool;
  AutoMatchModels : bool;
  EchoResponseModel : bool;
  ContextFitEnabled : bool;
  RejectTitleRequests : bool;
}.

Definition DefaultGroupRelayConfig : GroupRelayConfig := {|
  MemberMaxAttempts := 3;
  MemberInfraMaxRetries := 3;
  MemberRetryIntervalSeconds := FFin 2 0;
  MemberNonStreamResponseTimeoutSeconds := 1200;
  MemberStreamFirstEventTimeoutSeconds := 60;
  MemberStreamIdleTimeoutSeconds := 120;
  MemberStreamMaxBytes := 0;
  MemberStreamMaxEvents := 0;
  MemberCooldownSeconds := 60;
  MemberAffinitySeconds := 300;
  MaxRequestRounds := 600;
  MaxRequestSeconds := 0;
  SessionStickyEnabled := true;
  SessionStickySeconds := 300;
  CooldownBackoffMultiplier := FFin 2 0;
  CooldownMaxSeconds := 1800;
  AllCooldownRetryBaseSeconds := 3;
  AllCooldownRetryMaxSeconds := 60;
  BackgroundProbeEnabled := false;
  BackgroundProbeIntervalSeconds := 60;
  EmergencyItemID := 0;
  PreferPassthrough := false;
  MaskEnabled := false;
  AutoMatchModels := false;
  EchoResponseModel := false;
  ContextFitEnabled := false;
  RejectTitleRequests := false;
|}.

(** [*config == (GroupRelayConfig{})]: every field has its zero value. *)
Definition is_zero_config (c : GroupRelayConfig) : bool :=
  forallb (Z.eqb 0)
    [MemberMaxAttempts c; MemberInfraMaxRetries c;
     MemberNonStreamResponseTimeoutSeconds c; MemberStreamFirstEventTimeoutSeconds c;
     MemberStreamIdleTimeoutSeconds c; MemberStreamMaxBytes c; MemberStreamMaxEvents c;
     MemberCooldownSeconds c; MemberAffinitySeconds c; MaxRequestRounds c;
     MaxRequestSeconds c; SessionStickySeconds c; CooldownMaxSeconds c;
     AllCooldownRetryBaseSeconds c; AllCooldownRetryMaxSeconds c;
     BackgroundProbeIntervalSeconds c; EmergencyItemID c]
  && forallb negb
    [SessionStickyEnabled c; BackgroundProbeEnabled c; PreferPassthrough c; MaskEnabled c;
     AutoMatchModels c; EchoResponseModel c; ContextFitEnabled c; RejectTitleRequests c]
  && f64_eqb (MemberRetryIntervalSeconds c) f64_zero
  && f64_eqb (CooldownBackoffMultiplier c) f64_zero.

(** The two repairs of [NormalizeGroupRelayConfig]: a field must be at least
    [1], or at least [0]. *)
Definition at_least (bound v dflt : Z) : Z := if v <? bound then dflt else v.
Definition f64_at_least (bound v dflt : f64) : f64 := if f64_ltb v bound then dflt else v.

Definition NormalizeGroupRelayConfig (c : GroupRelayConfig) : GroupRelayConfig :=
  let d := DefaultGroupRelayConfig in
  if is_zero_config c then d
  else {|
    MemberMaxAttempts := at_least 1 (MemberMaxAttempts c) (MemberMaxAttempts d);
    MemberInfraMaxRetries := at_least 0 (MemberInfraMaxRetries c) (MemberInfraMaxRetries d);
    MemberRetryIntervalSeconds :=
      f64_at_least f64_zero (MemberRetryIntervalSeconds c) (MemberRetryIntervalSeconds d);
    MemberNonStreamResponseTimeoutSeconds :=
      at_least 1 (MemberNonStreamResponseTimeoutSeconds c) (MemberNonStreamResponseTimeoutSeconds d);
    MemberStreamFirstEventTimeoutSeconds :=
      at_least 1 (MemberStreamFirstEventTimeoutSeconds c) (MemberStreamFirstEventTimeoutSeconds d);
    MemberStreamIdleTimeoutSeconds :=
      at_least 0 (MemberStreamIdleTimeoutSeconds c) (MemberStreamIdleTimeoutSeconds d);
    MemberStreamMaxBytes := at_least 0 (MemberStreamMaxBytes c) (MemberStreamMaxBytes d);
    MemberStreamMaxEvents := at_least 0 (MemberStreamMaxEvents c) (MemberStreamMaxEvents d);
    MemberCooldownSeconds := at_least 1 (MemberCooldownSeconds c) (MemberCooldownSeconds d);
    MemberAffinitySeconds := at_least 0 (MemberAffinitySeconds c) (MemberAffinitySeconds d);
    MaxRequestRounds := at_least 1 (MaxRequestRounds c) (MaxRequestRounds d);
    MaxRequestSeconds := at_least 0 (MaxRequestSeconds c) (MaxRequestSeconds d);
    SessionStickyEnabled := SessionStickyEnabled c;
    SessionStickySeconds := at_least 1 (SessionStickySeconds c) (SessionStickySeconds d);
    CooldownBackoffMultiplier :=
      f64_at_least f64_one (CooldownBackoffMultiplier c) (CooldownBackoffMultiplier d);
    CooldownMaxSeconds := at_least 1 (CooldownMaxSeconds c) (CooldownMaxSeconds d);
    AllCooldownRetryBaseSeconds :=
      at_least 0 (AllCooldownRetryBaseSeconds c) (AllCooldownRetryBaseSeconds d);
    AllCooldownRetryMaxSeconds :=
      at_least 1 (AllCooldownRetryMaxSeconds c) (AllCooldownRetryMaxSeconds d);
    BackgroundProbeEnabled := BackgroundProbeEnabled c;
    BackgroundProbeIntervalSeconds :=
      at_least 1 (BackgroundProbeIntervalSeconds c) (BackgroundProbeIntervalSeconds d);
    EmergencyItemID := at_least 0 (EmergencyItemID c) 0;
    PreferPassthrough := PreferPassthrough c;
    MaskEnabled := MaskEnabled c;
    AutoMatchModels := AutoMatchModels c;
    EchoResponseModel := EchoResponseModel c;
    ContextFitEnabled := ContextFitEnabled c;
    RejectTitleRequests := RejectTitleRequests c;
  |}.

(** ** Channels *)

Inductive ChannelProvider :=
| ChannelProviderOpenAI
| ChannelProviderOpenAIResponses
| ChannelProviderAnthropic
| ChannelProviderCustom
| ChannelProviderOther (s : string).   (** any other value of the Go string type *)

#[export] Instance ChannelProvider_eq_dec : EqDecision ChannelProvider.
Proof. solve_decision. Defined.

Record ChannelKey := mkKey { key_ID : string; key_Key : string; key_Remark : string }.

(** The limits of one model within a channel. *)
Record ChannelModelLimit := mkModelLimit {
  ml_MaxOutput : option Z; ml_ThinkingLevel : string; ml_ContextWindow : option Z }.

Record Channel := mkChannel {
  ch_ID : Z;
  ch_Type : ChannelProvider;
  ch_Enabled : bool;
  ch_Key : string;
  ch_Keys : list ChannelKey;
  ch_ChannelProxy : option string;
  ch_PassThroughBodyEnabled : bool;
  ch_OpencodeCompat : bool;
  ch_MaxConcurrent : Z;
  ch_RateLimitRPM : Z;
  ch_Name : string;
  ch_BaseURL : string;
  ch_Keyed : bool;
  ch_Proxy : bool;
  ch_OpencodeLane : string;
  ch_ModelLimits : gmap string ChannelModelLimit;
}.

Record ChannelModel := mkChannelModel {
  cm_ID : Z;
  cm_ChannelID : Z;
  cm_Name : string;
  cm_UpstreamProtocol : string;
}.

(** ** Groups *)

Inductive GroupMode := GroupModeManual | GroupModeFailover.

#[export] Instance GroupMode_eq_dec : EqDecision GroupMode.
Proof. solve_decision. Defined.

Record GroupItem := mkItem {
  item_ID : Z;
  item_ChannelModelID : Z;
  item_RefGroupName : string;
  item_ChannelModel : option ChannelModel;
  item_Priority : Z;
}.

(** [model.GroupItem{}], returned where no member is available. *)
Definition zero_item : GroupItem := mkItem 0 0 "" None 0.

Record Group := mkGroup {
  g_ID : Z;
  g_Name : string;
  g_Mode : GroupMode;
  g_ActiveItemID : Z;
  g_RelayConfig : GroupRelayConfig;
  g_Items : list GroupItem;
}.

Definition MaxGroupRefDepth : Z := 8.

Definition IsGroupRef (i : GroupItem) : bool :=
  (item_ChannelModelID i =? 0) && negb (bool_decide (item_RefGroupName i = "")).

(** route.go: [itemOf]. *)
Fixpoint itemOf_items (items : list GroupItem) (itemID : Z) : GroupItem :=
  match items with
  | [] => zero_item
  | item :: items => if item_ID item =? itemID then item else itemOf_items items itemID
  end.

Definition itemOf (g : Group) (itemID : Z) : GroupItem := itemOf_items (g_Items g) itemID.

(** The set of member identifiers, the [items] map of [groupRouteLocked]. *)
Definition item_ids (g : Group) : gset Z := list_to_set (item_ID <$> g_Items g).

(** A stored group: primary keys are positive and distinct. *)
Definition group_wf (g : Group) : Prop :=
  NoDup (item_ID <$> g_Items g) /\ Forall (fun i => 0 < item_ID i) (g_Items g).

Lemma itemOf_items_spec items id :
  id ≠ 0 ->
  (item_ID (itemOf_items items id) = id /\ itemOf_items items id ∈ items) \/
  (itemOf_items items id = zero_item /\ id ∉ item_ID <$> items).
Proof.
  intros Hid. induction items as [|i items IH]; simpl.
  - right. split; [done|]. apply not_elem_of_nil.
  - destruct (item_ID i =? id) eqn:Heq.
    + left. split; [lia | by left].
    + destruct IH as [[? ?]|[? ?]].
      * left. split; [done | by right].
      * right. split; [done|]. apply not_elem_of_cons. split; [lia|done].
Qed.

Lemma itemOf_spec g id :
  id ≠ 0 ->
  (item_ID (itemOf g id) = id /\ itemOf g id ∈ g_Items g) \/
  (itemOf g id = zero_item /\ id ∉ item_ids g).
Proof.
  intros Hid. destruct (itemOf_items_spec (g_Items g) id Hid) as [?|[? ?]]; [by left|].
  right. split; [done|]. unfold item_ids. by rewrite elem_of_list_to_set.
Qed.

Lemma itemOf_found g id :
  item_ID (itemOf g id) ≠ 0 -> item_ID (itemOf g id) = id /\ itemOf g id ∈ g_Items g.
Proof.
  unfold itemOf. induction (g_Items g) as [|i items IH]; simpl; [done|].
  destruct (item_ID i =? id) eqn:Heq; intros Hne.
  - split; [lia | by left].
  - destruct (IH Hne). split; [done | by right].
Qed.

Lemma elem_of_item_ids g i : i ∈ g_Items g -> item_ID i ∈ item_ids g.
Proof.
  intros Hi. unfold item_ids. rewrite elem_of_list_to_set.
  by apply list_elem_of_fmap_2.
Qed.

#[export] Hint Resolve elem_of_item_ids : nova.

(** ** Member order

    op/group.go: [sortGroupItems] sorts by priority, then by primary key. *)

Definition item_le (a b : GroupItem) : Prop :=
  if decide (item_Priority a = item_Priority b) then item_ID a <= item_ID b
  else item_Priority a < item_Priority b.

#[export] Instance item_le_dec : RelDecision item_le.
Proof. intros a b. unfold item_le. case_decide; apply _. Defined.

#[export] Instance item_le_total : Total item_le.
Proof. intros a b. unfold item_le. repeat case_decide; lia. Qed.

#[export] Instance item_le_trans : Transitive item_le.
Proof. intros a b c. unfold item_le. repeat case_decide; lia. Qed.

Definition sortGroupItems (items : list GroupItem) : list GroupItem :=
  merge_sort item_le items.

(** ** The relay configuration and the member order

    What [NormalizeGroupRelayConfig] guarantees to the rest of the relay, and
    that [sortGroupItems] is a canonical order of the members. *)

(** The ranges routing relies on. *)
Record config_valid (c : GroupRelayConfig) : Prop := {
  cv_attempts : 1 <= MemberMaxAttempts c;
  cv_infra : 0 <= MemberInfraMaxRetries c;
  cv_interval : f64_ltb (MemberRetryIntervalSeconds c) f64_zero = false;
  cv_nonstream : 1 <= MemberNonStreamResponseTimeoutSeconds c;
  cv_first : 1 <= MemberStreamFirstEventTimeoutSeconds c;
  cv_idle : 0 <= MemberStreamIdleTimeoutSeconds c;
  cv_bytes : 0 <= MemberStreamMaxBytes c;
  cv_events : 0 <= MemberStreamMaxEvents c;
  cv_cooldown : 1 <= MemberCooldownSeconds c;
  cv_affinity : 0 <= MemberAffinitySeconds c;
  cv_rounds : 1 <= MaxRequestRounds c;
  cv_seconds : 0 <= MaxRequestSeconds c;
  cv_sticky : 1 <= SessionStickySeconds c;
  cv_backoff : f64_ltb (CooldownBackoffMultiplier c) f64_one = false;
  cv_max : 1 <= CooldownMaxSeconds c;
  cv_base : 0 <= AllCooldownRetryBaseSeconds c;
  cv_retry : 1 <= AllCooldownRetryMaxSeconds c;
  cv_probe : 1 <= BackgroundProbeIntervalSeconds c;
  cv_emergency : 0 <= EmergencyItemID c;
}.

Lemma at_least_ge bound v dflt : bound <= dflt -> bound <= at_least bound v dflt.
Proof. unfold at_least. case_ifs; lia. Qed.

Lemma at_least_id bound v dflt : bound <= v -> at_least bound v dflt = v.
Proof. unfold at_least. case_ifs; lia. Qed.

Lemma f64_at_least_ge bound v dflt :
  f64_ltb dflt bound = false -> f64_ltb (f64_at_least bound v dflt) bound = false.
Proof. unfold f64_at_least. by case_ifs. Qed.

Lemma f64_at_least_id bound v dflt :
  f64_ltb v bound = false -> f64_at_least bound v dflt = v.
Proof. unfold f64_at_least. by intros ->. Qed.

Lemma default_valid : config_valid DefaultGroupRelayConfig.
Proof. split; vm_compute; done. Qed.

Lemma normalize_valid_all c : config_valid (NormalizeGroupRelayConfig c).
Proof.
  unfold NormalizeGroupRelayConfig. case_match; [apply default_valid|].
  split; cbn -[at_least f64_at_least DefaultGroupRelayConfig f64_ltb];
    first [apply at_least_ge; vm_compute; congruence | apply f64_at_least_ge; reflexivity].
Qed.

Lemma normalize_fixes c : config_valid c -> NormalizeGroupRelayConfig c = c.
Proof.
  intros [H1 H2 H3 H4 H5 H6 H7 H8 H9 H10 H11 H12 H13 H14 H15 H16 H17 H18 H19].
  unfold NormalizeGroupRelayConfig.
  assert (Hz : is_zero_config c = false).
  { unfold is_zero_config. cbn [forallb]. rewrite (proj2 (Z.eqb_neq 0 (MemberMaxAttempts c))) by lia.
    done. }
  rewrite Hz. rewrite !at_least_id, !f64_at_least_id by done. by destruct c.
Qed.

(** C9: whatever was decoded from the API or the database, a normalized
    configuration satisfies every range the relay assumes (so no cooldown,
    retry or timeout is ever zero or negative), a configuration that already
    does is not touched, and normalizing twice is normalizing once. *)
Theorem normalize_valid c :
  config_valid (NormalizeGroupRelayConfig c) /\
  (NormalizeGroupRelayConfig c = c <-> config_valid c) /\
  NormalizeGroupRelayConfig (NormalizeGroupRelayConfig c) = NormalizeGroupRelayConfig c.
Proof.
  pose proof (normalize_valid_all c) as Hv. split; [done|]. split.
  - split; [by intros <- | apply normalize_fixes].
  - by apply normalize_fixes.
Qed.

(** ** Member order *)

(** Two members that [item_le] cannot tell apart have the same primary key. *)
Lemma item_le_antisym a b : item_le a b -> item_le b a -> item_ID a = item_ID b.
Proof. unfold item_le. repeat case_decide; lia. Qed.

(** Sorted lists of pairwise different keys are determined by their elements. *)
Lemma sorted_unique l1 l2 :
  NoDup (item_ID <$> l1) -> StronglySorted item_le l1 -> StronglySorted item_le l2 ->
  l1 ≡ₚ l2 -> l1 = l2.
Proof.
  revert l2. induction l1 as [|a l1 IH]; intros l2 Hnd Hs1 Hs2 Hp.
  { by apply Permutation_nil in Hp as ->. }
  destruct l2 as [|b l2]; [by apply Permutation_sym, Permutation_nil in Hp|].
  apply StronglySorted_inv in Hs1 as [Hs1 Ha]. apply StronglySorted_inv in Hs2 as [Hs2 Hb].
  rewrite Forall_forall in Ha, Hb.
  assert (Hab : a = b).
  { assert (Hbin : b ∈ a :: l1) by (rewrite Hp; by left).
    assert (Hain : a ∈ b :: l2) by (rewrite <- Hp; by left).
    apply elem_of_cons in Hbin as [|Hbin]; [done|]. apply elem_of_cons in Hain as [|Hain]; [done|].
    pose proof (item_le_antisym a b (Ha _ Hbin) (Hb _ Hain)) as Hid.
    rewrite fmap_cons in Hnd. apply NoDup_cons in Hnd as [Hn _]. destruct Hn. rewrite Hid.
    by apply list_elem_of_fmap_2. }
  subst b. apply Permutation_cons_inv in Hp. f_equal. apply IH; try done.
  rewrite fmap_cons in Hnd. by apply NoDup_cons in Hnd as [_ ?].
Qed.

(** [sortGroupItems] returns the same members ordered by priority, ties
    broken by primary key; with distinct primary keys the order is unique, so it
    does not depend on the order in which the database returned the rows. *)
Theorem sortGroupItems_canonical items items' :
  NoDup (item_ID <$> items) -> items ≡ₚ items' ->
  sortGroupItems items ≡ₚ items /\ StronglySorted item_le (sortGroupItems items) /\
  sortGroupItems items = sortGroupItems items'.
Proof.
  intros Hnd Hp. unfold sortGroupItems.
  pose proof (merge_sort_Permutation item_le items) as Hp1.
  pose proof (merge_sort_Permutation item_le items') as Hp2.
  pose proof (StronglySorted_merge_sort item_le items) as Hs1.
  pose proof (StronglySorted_merge_sort item_le items') as Hs2.
  split; [done|]. split; [done|]. apply sorted_unique; try done.
  - by rewrite Hp1.
  - by rewrite Hp1, Hp, Hp2.
Qed.

Lemma sortGroupItems_canonical_witness :
  sortGroupItems [mkItem 2 1 "" None 0; mkItem 1 1 "" None 0] =
  sortGroupItems [mkItem 1 1 "" None 0; mkItem 2 1 "" None 0].
Proof.
  apply (sortGroupItems_canonical [mkItem 2 1 "" None 0; mkItem 1 1 "" None 0]).
  - apply (bool_decide_eq_true_1 (NoDup [2; 1])). reflexivity.
  - apply perm_swap.
Defined.
