(* ===== verification/Protocol.v ===== *)
(** * Protocol selection

    relay/channel.go: which upstream protocol a hop uses, and whether the client
    request can be passed through unconverted. *)

From S2P Require Import Prelude Float64 GroupModel.

(** The client protocols the relay distinguishes.  [llm.APIFormat] is a string
    type of a library; its constants are pairwise distinct and nonempty. *)
Inductive APIFormat :=
| APIFormatNone                    (** the empty string *)
| APIFormatOpenAIChatCompletion
| APIFormatOpenAIResponse
| APIFormatAnthropicMessage
| APIFormatOpenAIImageGeneration
| APIFormatOpenAIImageEdit
| APIFormatOpenAIImageVariation
| APIFormatOpenAIVideo
| APIFormatOpenAISpeech
| APIFormatOpenAITranscription
| APIFormatOpenAITranslation
| APIFormatOpenAIEmbedding
| APIFormatOther.

#[export] Instance APIFormat_eq_dec : EqDecision APIFormat.
Proof. solve_decision. Defined.

Definition UpstreamProtocolChat : string := "chat".
Definition UpstreamProtocolResponses : string := "responses".
Definition UpstreamProtocolAnthropic : string := "anthropic".

Definition is_custom (c : Channel) : bool :=
  bool_decide (ch_Type c = ChannelProviderCustom).

(** [modelProtocolProvider]: the second result of the Go function is the
    constructor of the option. *)
Definition modelProtocolProvider (c : Channel) (m : option ChannelModel)
  : option ChannelProvider :=
  if is_custom c || negb (ch_OpencodeCompat c) then None
  else
    match m with
    | None => None
    | Some m =>
        if bool_decide (cm_UpstreamProtocol m = UpstreamProtocolChat)
        then Some ChannelProviderOpenAI
        else if bool_decide (cm_UpstreamProtocol m = UpstreamProtocolResponses)
        then Some ChannelProviderOpenAIResponses
        else if bool_decide (cm_UpstreamProtocol m = UpstreamProtocolAnthropic)
        then Some ChannelProviderAnthropic
        else None
    end.

Definition outboundProvider (c : Channel) (m : option ChannelModel) : ChannelProvider :=
  if ch_PassThroughBodyEnabled c && negb (is_custom c) then ch_Type c
  else
    match modelProtocolProvider c m with
    | Some provider => provider
    | None => ch_Type c
    end.

(** The OpenAI family of endpoints an OpenAI channel serves natively. *)
Definition openai_native (format : APIFormat) : bool :=
  match format with
  | APIFormatOpenAIChatCompletion
  | APIFormatOpenAIImageGeneration
  | APIFormatOpenAIImageEdit
  | APIFormatOpenAIImageVariation
  | APIFormatOpenAIVideo
  | APIFormatOpenAISpeech
  | APIFormatOpenAITranscription
  | APIFormatOpenAITranslation
  | APIFormatOpenAIEmbedding => true
  | _ => false
  end.

Definition supportsNativeFormat (c : Channel) (m : option ChannelModel) (format : APIFormat)
  : bool :=
  if ch_PassThroughBodyEnabled c && negb (is_custom c) then true
  else
    match outboundProvider c m with
    | ChannelProviderOpenAI => openai_native format
    | ChannelProviderOpenAIResponses => bool_decide (format = APIFormatOpenAIResponse)
    | ChannelProviderAnthropic => bool_decide (format = APIFormatAnthropicMessage)
    | ChannelProviderCustom | ChannelProviderOther _ => false
    end.

Inductive RelayMode := RelayPassthrough | RelayConverted.

Definition relayModeFor (c : Channel) (m : option ChannelModel) (format : APIFormat) : RelayMode :=
  if supportsNativeFormat c m format then RelayPassthrough else RelayConverted.

Definition clientFormatLabel (format : APIFormat) : string :=
  match format with
  | APIFormatOpenAIResponse => "openai_responses"
  | APIFormatAnthropicMessage => "anthropic"
  | APIFormatOpenAIImageGeneration => "openai_image_generation"
  | APIFormatOpenAIImageEdit => "openai_image_edit"
  | APIFormatOpenAIImageVariation => "openai_image_variation"
  | APIFormatOpenAIVideo => "openai_video"
  | APIFormatOpenAISpeech => "openai_audio_speech"
  | APIFormatOpenAITranscription => "openai_audio_transcription"
  | APIFormatOpenAITranslation => "openai_audio_translation"
  | APIFormatOpenAIEmbedding => "openai_embedding"
  | _ => "openai_chat"
  end.

(** A fixed-reply channel never passes a body through, whatever its flags and
    whatever protocol its model row carries. *)
Lemma custom_never_native c m format :
  ch_Type c = ChannelProviderCustom -> supportsNativeFormat c m format = false.
Proof.
  intros Hc. unfold supportsNativeFormat, outboundProvider, modelProtocolProvider, is_custom.
  rewrite Hc, !andb_false_r. done.
Qed.

(** Every native format of a hop other than full pass-through is determined by
    the provider of its outbound transformer. *)
Lemma native_provider c m format :
  supportsNativeFormat c m format = true ->
  (ch_PassThroughBodyEnabled c = true /\ ch_Type c ≠ ChannelProviderCustom) \/
  (outboundProvider c m = ChannelProviderOpenAI /\ openai_native format = true) \/
  (outboundProvider c m = ChannelProviderOpenAIResponses /\ format = APIFormatOpenAIResponse) \/
  (outboundProvider c m = ChannelProviderAnthropic /\ format = APIFormatAnthropicMessage).
Proof.
  unfold supportsNativeFormat. intros Hn.
  destruct (ch_PassThroughBodyEnabled c && negb (is_custom c)) eqn:Hpt.
  - left. unfold is_custom in Hpt. apply andb_true_iff in Hpt as [? Hc].
    split; [done|]. by apply negb_true_iff, bool_decide_eq_false in Hc.
  - right. destruct (outboundProvider c m); try done; try case_bool_decide; naive_solver.
Qed.
