(* ===== verification/Backoff.v ===== *)
(** * Cooldown back-off

    route.go: [cooldownMillis].  The base cooldown is multiplied by the
    configured factor once per failed probe and capped, in [float64]. *)

From S2P Require Import Prelude Float64 GroupModel.

(** [int64(seconds * 1000)] of an out-of-range float is left to the
    implementation by the Go specification; amd64 yields the minimal [int64]. *)
Definition int64_of_f64 (x : f64) : Z := default (- 2 ^ 63) (f64_to_int64 x).

(** The float the code calls [seconds], after the cap. *)
Definition cooldown_seconds (config : GroupRelayConfig) (level : Z) : f64 :=
  let seconds := f64_of_int (Z.max (MemberCooldownSeconds config) 1) in
  let seconds :=
    if 0 <? level then
      let multiplier := f64_max (CooldownBackoffMultiplier config) f64_one in
      f64_mul seconds (pow_int multiplier level)
    else seconds in
  let ceiling := f64_of_int (Z.max (CooldownMaxSeconds config) 0) in
  if negb (f64_ltb ceiling f64_one) && f64_ltb ceiling seconds then ceiling else seconds.

Definition cooldownMillis (config : GroupRelayConfig) (level : Z) : Z :=
  int64_of_f64 (f64_mul (cooldown_seconds config level) (FFin 1000 0)).
