(* ===== verification/Route.v ===== *)
(** * Per-group routing state

    relay/route.go and relay/prober.go: the three-state circuit breaker
    (CLOSED / OPEN / HALF-OPEN), the emergency fallback and the affinity of one
    group.  [routeMu] makes every function ending in [Locked], and every
    exported function between its [Lock] and [Unlock], one atomic step; the
    definitions below are those critical sections, over the package state
    [World]. *)

From S2P Require Import Prelude GoStrings Hub Float64 GroupModel Protocol Backoff.

(** ** State *)

Record RouteState := mkRoute {
  r_GroupID : Z;
  r_CurrentItemID : Z;
  r_ProbeItemID : Z;
  r_AffinityUntil : Z;
  r_Cooldowns : gmap Z Z;
  r_Levels : gmap Z Z;
  r_HalfOpens : gmap Z Z;
  r_PostCommitStrikes : gmap Z Z;
  r_EmergencyItemID : Z;
  r_EmergencyActive : Z;
  r_emergencyCounts : gmap Z Z;
  r_emergencyBlocks : gmap Z Z;
  r_affinityArmed : bool;
}.

(** Field updates. *)
Definition set_GroupID (v : Z) (r : RouteState) : RouteState :=
  mkRoute v (r_CurrentItemID r) (r_ProbeItemID r) (r_AffinityUntil r) (r_Cooldowns r) (r_Levels r) (r_HalfOpens r) (r_PostCommitStrikes r) (r_EmergencyItemID r) (r_EmergencyActive r) (r_emergencyCounts r) (r_emergencyBlocks r) (r_affinityArmed r).
Definition set_CurrentItemID (v : Z) (r : RouteState) : RouteState :=
  mkRoute (r_GroupID r) v (r_ProbeItemID r) (r_AffinityUntil r) (r_Cooldowns r) (r_Levels r) (r_HalfOpens r) (r_PostCommitStrikes r) (r_EmergencyItemID r) (r_EmergencyActive r) (r_emergencyCounts r) (r_emergencyBlocks r) (r_affinityArmed r).
Definition set_ProbeItemID (v : Z) (r : RouteState) : RouteState :=
  mkRoute (r_GroupID r) (r_CurrentItemID r) v (r_AffinityUntil r) (r_Cooldowns r) (r_Levels r) (r_HalfOpens r) (r_PostCommitStrikes r) (r_EmergencyItemID r) (r_EmergencyActive r) (r_emergencyCounts r) (r_emergencyBlocks r) (r_affinityArmed r).
Definition set_AffinityUntil (v : Z) (r : RouteState) : RouteState :=
  mkRoute (r_GroupID r) (r_CurrentItemID r) (r_ProbeItemID r) v (r_Cooldowns r) (r_Levels r) (r_HalfOpens r) (r_PostCommitStrikes r) (r_EmergencyItemID r) (r_EmergencyActive r) (r_emergencyCounts r) (r_emergencyBlocks r) (r_affinityArmed r).
Definition set_Cooldowns (v : gmap Z Z) (r : RouteState) : RouteState :=
  mkRoute (r_GroupID r) (r_CurrentItemID r) (r_ProbeItemID r) (r_AffinityUntil r) v (r_Levels r) (r_HalfOpens r) (r_PostCommitStrikes r) (r_EmergencyItemID r) (r_EmergencyActive r) (r_emergencyCounts r) (r_emergencyBlocks r) (r_affinityArmed r).
Definition set_Levels (v : gmap Z Z) (r : RouteState) : RouteState :=
  mkRoute (r_GroupID r) (r_CurrentItemID r) (r_ProbeItemID r) (r_AffinityUntil r) (r_Cooldowns r) v (r_HalfOpens r) (r_PostCommitStrikes r) (r_EmergencyItemID r) (r_EmergencyActive r) (r_emergencyCounts r) (r_emergencyBlocks r) (r_affinityArmed r).
Definition set_HalfOpens (v : gmap Z Z) (r : RouteState) : RouteState :=
  mkRoute (r_GroupID r) (r_CurrentItemID r) (r_ProbeItemID r) (r_AffinityUntil r) (r_Cooldowns r) (r_Levels r) v (r_PostCommitStrikes r) (r_EmergencyItemID r) (r_EmergencyActive r) (r_emergencyCounts r) (r_emergencyBlocks r) (r_affinityArmed r).
Definition set_PostCommitStrikes (v : gmap Z Z) (r : RouteState) : RouteState :=
  mkRoute (r_GroupID r) (r_CurrentItemID r) (r_ProbeItemID r) (r_AffinityUntil r) (r_Cooldowns r) (r_Levels r) (r_HalfOpens r) v (r_EmergencyItemID r) (r_EmergencyActive r) (r_emergencyCounts r) (r_emergencyBlocks r) (r_affinityArmed r).
Definition set_EmergencyItemID (v : Z) (r : RouteState) : RouteState :=
  mkRoute (r_GroupID r) (r_CurrentItemID r) (r_ProbeItemID r) (r_AffinityUntil r) (r_Cooldowns r) (r_Levels r) (r_HalfOpens r) (r_PostCommitStrikes r) v (r_EmergencyActive r) (r_emergencyCounts r) (r_emergencyBlocks r) (r_affinityArmed r).
Definition set_EmergencyActive (v : Z) (r : RouteState) : RouteState :=
  mkRoute (r_GroupID r) (r_CurrentItemID r) (r_ProbeItemID r) (r_AffinityUntil r) (r_Cooldowns r) (r_Levels r) (r_HalfOpens r) (r_PostCommitStrikes r) (r_EmergencyItemID r) v (r_emergencyCounts r) (r_emergencyBlocks r) (r_affinityArmed r).
Definition set_emergencyCounts (v : gmap Z Z) (r : RouteState) : RouteState :=
  mkRoute (r_GroupID r) (r_CurrentItemID r) (r_ProbeItemID r) (r_AffinityUntil r) (r_Cooldowns r) (r_Levels r) (r_HalfOpens r) (r_PostCommitStrikes r) (r_EmergencyItemID r) (r_EmergencyActive r) v (r_emergencyBlocks r) (r_affinityArmed r).
Definition set_emergencyBlocks (v : gmap Z Z) (r : RouteState) : RouteState :=
  mkRoute (r_GroupID r) (r_CurrentItemID r) (r_ProbeItemID r) (r_AffinityUntil r) (r_Cooldowns r) (r_Levels r) (r_HalfOpens r) (r_PostCommitStrikes r) (r_EmergencyItemID r) (r_EmergencyActive r) (r_emergencyCounts r) v (r_affinityArmed r).
Definition set_affinityArmed (v : bool) (r : RouteState) : RouteState :=
  mkRoute (r_GroupID r) (r_CurrentItemID r) (r_ProbeItemID r) (r_AffinityUntil r) (r_Cooldowns r) (r_Levels r) (r_HalfOpens r) (r_PostCommitStrikes r) (r_EmergencyItemID r) (r_EmergencyActive r) (r_emergencyCounts r) (r_emergencyBlocks r) v.

(** A session bound to a member until a deadline (sticky.go). *)
Record stickyEntry := mkSticky { se_ItemID : Z; se_ExpireAtUnixMilli : Z }.

(** The package variables that [routeMu] protects.  [w_async] lists the
    asynchronous probes that [goSafe] has started and that have not reported. *)
Record World := mkWorld {
  w_routes : gmap Z RouteState;
  w_hub : Hub RouteState;
  w_async : list (Group * GroupItem);
  w_stickies : gmap Z (gmap string stickyEntry);
  w_stickyLastPrune : Z;
}.

Definition world_init : World := mkWorld ∅ hub_empty [] ∅ 0.

Definition set_w_routes v w := mkWorld v (w_hub w) (w_async w) (w_stickies w) (w_stickyLastPrune w).
Definition set_w_hub v w := mkWorld (w_routes w) v (w_async w) (w_stickies w) (w_stickyLastPrune w).
Definition set_w_async v w := mkWorld (w_routes w) (w_hub w) v (w_stickies w) (w_stickyLastPrune w).
Definition set_w_stickies v w := mkWorld (w_routes w) (w_hub w) (w_async w) v (w_stickyLastPrune w).
Definition set_w_stickyLastPrune v w := mkWorld (w_routes w) (w_hub w) (w_async w) (w_stickies w) v.

Definition emergencyMaxConcurrent : Z := 3.
Definition routeStreamBuffer : nat := 16.

(** ** What routing reads from other components

    [channelLookup] is [channelLookupFunc] (op.ChannelGetCore), [groupLookup] is
    [groupLookupFunc] (op.GroupGetByName) and [warpBlocked] is the answer of
    [warpChannelBlocked] at the time of the critical section. *)

Class Directory := {
  channelLookup : Z -> option Channel;
  groupLookup : string -> option Group;
  warpBlocked : Z -> bool;
}.

(** model.WarpProxyMarker. *)
Definition WarpProxyMarker : string := "NovaVeil_WARP_socks5".

Definition isWarpProxy (c : Channel) : bool :=
  match ch_ChannelProxy c with
  | None => false
  | Some proxy => str_contains proxy WarpProxyMarker
  end.

Section route.
Context `{dir : Directory} `{ord : !MapOrder Z}.
Implicit Types (r : RouteState) (w : World) (group : Group) (item : GroupItem).

Definition channelDisabledForRouting item : bool :=
  match item_ChannelModel item with
  | None => false
  | Some m =>
      match channelLookup (cm_ChannelID m) with
      | None => false
      | Some channel =>
          if negb (ch_Enabled channel) then true
          else isWarpProxy channel && warpBlocked (ch_ID channel)
      end
  end.

Definition itemExcluded item (exclude : Z) (skipped : gset Z) : bool :=
  (item_ID item =? exclude) || bool_decide (item_ID item ∈ skipped).

Definition itemMatchesClientFormat item (format : APIFormat) : bool :=
  match item_ChannelModel item with
  | None => false
  | Some m =>
      match channelLookup (cm_ChannelID m) with
      | None => false
      | Some channel => supportsNativeFormat channel (Some m) format
      end
  end.

(** The optional [clientFormat] argument: [None] when the caller passes none. *)
Definition passthroughOrderedItems group (clientFormat : option APIFormat) : list GroupItem :=
  match clientFormat with
  | Some format =>
      if negb (PreferPassthrough (g_RelayConfig group))
         || bool_decide (format = APIFormatNone)
      then g_Items group
      else
        let native := filter (fun i => itemMatchesClientFormat i format = true) (g_Items group) in
        let other := filter (fun i => itemMatchesClientFormat i format = false) (g_Items group) in
        match native, other with
        | [], _ | _, [] => g_Items group
        | _, _ => native ++ other
        end
  | None => g_Items group
  end.

(** ** Publication *)

Definition publishRouteLocked r w : World :=
  set_w_hub (publish routeStreamBuffer r (w_hub w)) w.

(** Writing back the state a [*RouteState] points to, then publishing it. *)
Definition put_route (gid : Z) r w : World := set_w_routes (<[gid := r]> (w_routes w)) w.
Definition commit (gid : Z) r w : World := publishRouteLocked r (put_route gid r w).
Definition commit_if (changed : bool) (gid : Z) r w : World :=
  if changed then commit gid r w else put_route gid r w.

(** ** Emergency summary *)

Definition syncEmergencySummaryLocked r : RouteState :=
  let total := map_sum (r_emergencyCounts r) in
  if total <=? 0 then set_EmergencyActive 0 (set_EmergencyItemID 0 r)
  else
    let r :=
      if (r_EmergencyItemID r =? 0) || ((r_emergencyCounts r).[r_EmergencyItemID r] <=? 0)
      then
        match map_order (r_emergencyCounts r) with
        | (itemID, _) :: _ => set_EmergencyItemID itemID r
        | [] => r
        end
      else r in
    set_EmergencyActive total r.

Definition emergencyHeldLocked r (itemID : Z) : bool := 0 <? (r_emergencyCounts r).[itemID].

(** The Boolean is the Go result: whether the state changed. *)
Definition releaseEmergencyLocked r (itemID : Z) : bool * RouteState :=
  if (r_emergencyCounts r).[itemID] <=? 0 then (false, r)
  else
    let n := (r_emergencyCounts r).[itemID] - 1 in
    let counts := <[itemID := n]> (r_emergencyCounts r) in
    let counts := if n <=? 0 then delete itemID counts else counts in
    (true, syncEmergencySummaryLocked (set_emergencyCounts counts r)).

(** ** State of a group *)

Definition new_route (gid : Z) : RouteState :=
  mkRoute gid 0 0 0 ∅ ∅ ∅ ∅ 0 0 ∅ ∅ false.

(** The part of [groupRouteLocked] that drops the traces of deleted members. *)
Definition clean_route (items : gset Z) r : RouteState :=
  let r := set_Cooldowns (restrict_keys items (r_Cooldowns r)) r in
  let r := set_Levels (restrict_keys items (r_Levels r)) r in
  let r := set_HalfOpens (restrict_keys items (r_HalfOpens r)) r in
  let r := set_PostCommitStrikes (restrict_keys items (r_PostCommitStrikes r)) r in
  let r := set_emergencyCounts (restrict_keys items (r_emergencyCounts r)) r in
  let r := set_emergencyBlocks (restrict_keys items (r_emergencyBlocks r)) r in
  let r := syncEmergencySummaryLocked r in
  let r :=
    if negb (r_ProbeItemID r =? 0) && negb (bool_decide (r_ProbeItemID r ∈ items))
    then set_ProbeItemID 0 r else r in
  if negb (r_CurrentItemID r =? 0) && negb (bool_decide (r_CurrentItemID r ∈ items))
  then set_affinityArmed false (set_AffinityUntil 0 (set_CurrentItemID 0 r))
  else r.

Definition groupRouteLocked group w : RouteState * World :=
  let r := default (new_route (g_ID group)) (w_routes w !! g_ID group) in
  let r := clean_route (item_ids group) r in
  (r, put_route (g_ID group) r w).

(** ** Half-open probes (prober.go) *)

Definition claimHalfOpenLocked r (itemID now : Z) : bool * RouteState :=
  if negb (r_ProbeItemID r =? 0) then (false, r)
  else
    match r_Cooldowns r !! itemID with
    | None => (false, r)
    | Some deadline =>
        if (now <? deadline) || (0 <? (r_HalfOpens r).[itemID]) then (false, r)
        else (true, set_HalfOpens (<[itemID := now]> (r_HalfOpens r)) r)
    end.

(** [goSafe] starts [runAsyncProbe]: the pending probe is appended to the list
    the caller threads. *)
Definition ensureProbeLocked r group item (now : Z) (async : list (Group * GroupItem))
  : bool * RouteState * list (Group * GroupItem) :=
  match claimHalfOpenLocked r (item_ID item) now with
  | (true, r) => (true, r, async ++ [(group, item)])
  | (false, r) => (false, r, async)
  end.

(** The loop [for _, item := range items { started ||= ensureProbeLocked(...) }]. *)
Fixpoint ensure_probes r group (items : list GroupItem) (now : Z)
    (async : list (Group * GroupItem)) : bool * RouteState * list (Group * GroupItem) :=
  match items with
  | [] => (false, r, async)
  | item :: items =>
      let '(started, r, async) := ensureProbeLocked r group item now async in
      let '(started', r, async) := ensure_probes r group items now async in
      (started || started', r, async)
  end.

Definition ProbeExpiredItems (now : Z) group w : World :=
  if bool_decide (g_Mode group ≠ GroupModeFailover)
     || negb (BackgroundProbeEnabled (g_RelayConfig group))
  then w
  else
    let '(r, w) := groupRouteLocked group w in
    let '(started, r, async) := ensure_probes r group (g_Items group) now (w_async w) in
    commit_if started (g_ID group) r (set_w_async async w).

Definition restoreItemLocked r (itemID : Z) : RouteState :=
  let r := set_Cooldowns (delete itemID (r_Cooldowns r)) r in
  let r := set_Levels (delete itemID (r_Levels r)) r in
  set_HalfOpens (delete itemID (r_HalfOpens r)) r.

Definition reopenItemLocked r (config : GroupRelayConfig) (itemID now : Z) : RouteState :=
  let level := (r_Levels r).[itemID] + 1 in
  let r := set_Levels (<[itemID := level]> (r_Levels r)) r in
  let r := set_Cooldowns (<[itemID := now + cooldownMillis config level]> (r_Cooldowns r)) r in
  set_HalfOpens (delete itemID (r_HalfOpens r)) r.

(** The critical section that ends [runAsyncProbe]; [ok] is the outcome of the
    synthetic request (false as well when the member has no channel model, its
    channel is gone or no effective channel can be built). *)
Definition runAsyncProbe_finish (now : Z) group item (ok : bool) w : World :=
  match w_routes w !! g_ID group with
  | None => w
  | Some r =>
      if (r_HalfOpens r).[item_ID item] =? 0 then w
      else
        let r :=
          if ok then restoreItemLocked r (item_ID item)
          else reopenItemLocked r (g_RelayConfig group) (item_ID item) now in
        commit (g_ID group) r w
  end.

(** ** Emergency fallback *)

Definition claimEmergencyLocked r group (exclude : Z) (skipped : gset Z) (now : Z)
  : GroupItem * option RouteState :=
  let itemID := EmergencyItemID (g_RelayConfig group) in
  if (itemID <=? 0) || (itemID =? exclude) || bool_decide (itemID ∈ skipped)
     || (emergencyMaxConcurrent <=? r_EmergencyActive r)
  then (zero_item, None)
  else
    let item := itemOf group itemID in
    if item_ID item =? 0 then (zero_item, None)
    else if channelDisabledForRouting item then (zero_item, None)
    else if 0 <? (r_HalfOpens r).[itemID] then (zero_item, None)
    else if match r_emergencyBlocks r !! itemID with
            | Some block => now <? block
            | None => false
            end then (zero_item, None)
    else
      let counts := <[itemID := (r_emergencyCounts r).[itemID] + 1]> (r_emergencyCounts r) in
      (item, Some (syncEmergencySummaryLocked (set_emergencyCounts counts r))).

Definition claimEmergencyItemSkipping (now : Z) group (exclude : Z) (skipped : gset Z) w
  : GroupItem * World :=
  let '(r, w) := groupRouteLocked group w in
  match claimEmergencyLocked r group exclude skipped now with
  | (item, Some r) => (item, commit (g_ID group) r w)
  | (item, None) => (item, w)
  end.

(** ** Selection *)

(** What the first critical section of [pickGroupItemSkipping] decides. *)
Inductive PickPhase :=
| Picked (item : GroupItem)
| RecoverBatch (expired : list GroupItem)
| TryEmergency.

(** The scan: the expired members met on the way, and the first CLOSED one. *)
Fixpoint scan_items r (exclude : Z) (skipped : gset Z) (now : Z) (items : list GroupItem)
  : list GroupItem * option GroupItem :=
  match items with
  | [] => ([], None)
  | item :: items =>
      if itemExcluded item exclude skipped then scan_items r exclude skipped now items
      else if channelDisabledForRouting item then scan_items r exclude skipped now items
      else
        match r_Cooldowns r !! item_ID item with
        | Some deadline =>
            if (now <? deadline) || (0 <? (r_HalfOpens r).[item_ID item])
            then scan_items r exclude skipped now items
            else
              let '(expired, selected) := scan_items r exclude skipped now items in
              (item :: expired, selected)
        | None => ([], if item_ID item =? 0 then None else Some item)
        end
  end.

Definition claim_batch r (items : list GroupItem) (now : Z) : RouteState :=
  foldl (fun r item => (claimHalfOpenLocked r (item_ID item) now).2) r items.

Definition pick_manual group (exclude : Z) (skipped : gset Z) : GroupItem :=
  match find_first (fun item => (item_ID item =? g_ActiveItemID group)
                                 && negb (itemExcluded item exclude skipped))
          (g_Items group) with
  | Some item => if channelDisabledForRouting item then zero_item else item
  | None => zero_item
  end.

(** The first critical section, in failover mode. *)
Definition pick_locked (now : Z) group (exclude : Z) (skipped : gset Z)
    (clientFormat : option APIFormat) w : PickPhase * World :=
  let items := passthroughOrderedItems group clientFormat in
  let '(r, w) := groupRouteLocked group w in
  let r := if r_AffinityUntil r <=? now then set_AffinityUntil 0 r else r in
  let gid := g_ID group in
  if negb (r_ProbeItemID r =? 0) then (Picked zero_item, put_route gid r w)
  else
    let drop := negb (r_CurrentItemID r =? 0) && bool_decide (r_CurrentItemID r ∈ skipped) in
    let r := if drop then set_affinityArmed false (set_AffinityUntil 0 (set_CurrentItemID 0 r))
             else r in
    let w := commit_if drop gid r w in
    let affine := itemOf group (r_CurrentItemID r) in
    if negb (r_CurrentItemID r =? 0) && negb (r_CurrentItemID r =? exclude)
       && negb (bool_decide (r_CurrentItemID r ∈ skipped)) && (now <? r_AffinityUntil r)
       && negb (item_ID affine =? 0) && negb (channelDisabledForRouting affine)
    then (Picked affine, w)
    else
      match scan_items r exclude skipped now items with
      | (expired, Some selected) =>
          let '(_, r, async) := ensure_probes r group expired now (w_async w) in
          let r := set_CurrentItemID (item_ID selected) r in
          (Picked selected, commit gid r (set_w_async async w))
      | (expired, None) =>
          match expired with
          | [] => (TryEmergency, w)
          | _ => (RecoverBatch expired, commit gid (claim_batch r expired now) w)
          end
      end.

(** The collection loop of [recoverExpiredItems]: [results] are the probe
    outcomes in arrival order; the first success wins. *)
Definition collect_winner (results : list (GroupItem * bool)) : GroupItem :=
  foldl (fun winner res => if negb res.2 || negb (item_ID winner =? 0) then winner else res.1)
    zero_item results.

(** The critical section that ends [recoverExpiredItems]; [ctxErr] tells
    whether the request context is done. *)
Definition recover_finish (now : Z) group (candidates : list GroupItem) (winner : GroupItem)
    (ctxErr : bool) w : GroupItem * World :=
  match w_routes w !! g_ID group with
  | None => (zero_item, w)
  | Some r =>
      let gid := g_ID group in
      if negb (item_ID winner =? 0) then
        let r := foldl (fun r item => if item_ID item =? item_ID winner then r
                                      else set_HalfOpens (delete (item_ID item) (r_HalfOpens r)) r)
                   r candidates in
        (winner, commit gid (set_ProbeItemID (item_ID winner) r) w)
      else if ctxErr then
        let r := foldl (fun r item => set_HalfOpens (delete (item_ID item) (r_HalfOpens r)) r)
                   r candidates in
        (zero_item, commit gid r w)
      else
        let r := foldl (fun r item => reopenItemLocked r (g_RelayConfig group) (item_ID item) now)
                   r candidates in
        (zero_item, commit gid r w)
  end.

(** The environment of one selection: the clock at each critical section, the
    probe outcomes as they arrive for a batch, and the request context. *)
Record PickEnv := mkPickEnv {
  env_now : Z; env_now_recover : Z; env_now_emergency : Z;
  env_results : list GroupItem -> list (GroupItem * bool);
  env_ctxErr : bool;
}.

Definition pickGroupItemSkipping (env : PickEnv) group (exclude : Z) (skipped : gset Z)
    (clientFormat : option APIFormat) w : GroupItem * World :=
  if bool_decide (g_Mode group = GroupModeManual)
  then (pick_manual group exclude skipped, w)
  else
    match pick_locked (env_now env) group exclude skipped clientFormat w with
    | (Picked item, w) => (item, w)
    | (RecoverBatch expired, w) =>
        let winner := collect_winner (env_results env expired) in
        let '(item, w) :=
          recover_finish (env_now_recover env) group expired winner (env_ctxErr env) w in
        if negb (item_ID item =? 0) then (item, w)
        else claimEmergencyItemSkipping (env_now_emergency env) group exclude skipped w
    | (TryEmergency, w) =>
        claimEmergencyItemSkipping (env_now_emergency env) group exclude skipped w
    end.

(** ** Reports *)

Definition recordRouteSuccess (now : Z) group (itemID : Z) w : World :=
  if bool_decide (g_Mode group = GroupModeManual) then w
  else
    match w_routes w !! g_ID group with
    | None => w
    | Some r =>
        let held := emergencyHeldLocked r itemID in
        let '(changed, r) :=
          if 0 <? (r_PostCommitStrikes r).[itemID]
          then (true, set_PostCommitStrikes (delete itemID (r_PostCommitStrikes r)) r)
          else (false, r) in
        let '(changed, r) :=
          if (r_ProbeItemID r =? itemID) || (0 <? (r_HalfOpens r).[itemID]) then
            let r := set_ProbeItemID 0 (restoreItemLocked r itemID) in
            let r := set_emergencyBlocks (delete itemID (r_emergencyBlocks r)) r in
            let r := if (r_CurrentItemID r =? 0) || (r_AffinityUntil r <=? now)
                     then set_AffinityUntil 0 (set_CurrentItemID itemID r) else r in
            (true, r)
          else (changed, r) in
        let '(changed, r) :=
          if held then
            let '(released, r) := releaseEmergencyLocked r itemID in
            (changed || released, r)
          else if (r_CurrentItemID r =? itemID) && r_affinityArmed r then
            let r := set_affinityArmed false r in
            if 0 <? MemberAffinitySeconds (g_RelayConfig group)
            then (true, set_AffinityUntil
                          (now + MemberAffinitySeconds (g_RelayConfig group) * 1000) r)
            else (changed, r)
          else (changed, r) in
        commit_if changed (g_ID group) r w
    end.

(** Dropping the affinity of a member that has just been cooled. *)
Definition break_affinity r (itemID : Z) : RouteState :=
  if r_CurrentItemID r =? itemID
  then set_affinityArmed true (set_AffinityUntil 0 (set_CurrentItemID 0 r))
  else r.

Definition recordPostCommitFailure (now : Z) group (itemID : Z) w : bool * World :=
  if bool_decide (g_Mode group = GroupModeManual) then (false, w)
  else
    let '(r, w) := groupRouteLocked group w in
    let gid := g_ID group in
    if is_some (r_Cooldowns r !! itemID) then (true, w)
    else
      let strikes := (r_PostCommitStrikes r).[itemID] + 1 in
      let r := set_PostCommitStrikes (<[itemID := strikes]> (r_PostCommitStrikes r)) r in
      if strikes <? Z.max (MemberMaxAttempts (g_RelayConfig group)) 1
      then (false, commit gid r w)
      else
        let r := set_PostCommitStrikes (delete itemID (r_PostCommitStrikes r)) r in
        let r := set_Cooldowns (<[itemID := now + cooldownMillis (g_RelayConfig group) 1]>
                                  (r_Cooldowns r)) r in
        (true, commit gid (break_affinity r itemID) w).

Definition recordRouteFailureWithLimit (now : Z) group (itemID failures threshold : Z) w
  : bool * World :=
  if bool_decide (g_Mode group = GroupModeManual) then (false, w)
  else
    let threshold := Z.max threshold 1 in
    match w_routes w !! g_ID group with
    | None => (false, w)
    | Some r =>
        let gid := g_ID group in
        let config := g_RelayConfig group in
        if (r_ProbeItemID r =? itemID) || (0 <? (r_HalfOpens r).[itemID]) then
          let r := set_ProbeItemID 0 (set_HalfOpens (delete itemID (r_HalfOpens r)) r) in
          let r :=
            if threshold <=? failures then
              let level := (r_Levels r).[itemID] + 1 in
              let r := set_Levels (<[itemID := level]> (r_Levels r)) r in
              set_Cooldowns (<[itemID := now + cooldownMillis config level]> (r_Cooldowns r)) r
            else set_Cooldowns (delete itemID (r_Cooldowns r)) r in
          let r := break_affinity r itemID in
          let '(_, r) := releaseEmergencyLocked r itemID in
          (true, commit gid r w)
        else if failures <? threshold then
          let '(released, r) := releaseEmergencyLocked r itemID in
          (false, commit_if released gid r w)
        else
          let millis := cooldownMillis config (r_Levels r).[itemID] in
          let r := set_Cooldowns (<[itemID := now + millis]> (r_Cooldowns r)) r in
          let r := if emergencyHeldLocked r itemID
                   then set_emergencyBlocks (<[itemID := now + millis]> (r_emergencyBlocks r)) r
                   else r in
          let r := break_affinity r itemID in
          let '(_, r) := releaseEmergencyLocked r itemID in
          (true, commit gid r w)
    end.

Definition recordRouteFailure (now : Z) group (itemID failures : Z) w : bool * World :=
  recordRouteFailureWithLimit now group itemID failures
    (Z.max (MemberMaxAttempts (g_RelayConfig group)) 1) w.

(** The two failure counters of a member within one request. *)
Record memberFailureCounts := mkCounts { business : Z; infra : Z }.

(** [isInfra] is [isInfrastructureError(err)]. *)
Definition recordRouteFailureIfReal (now : Z) group (itemID : Z)
    (counts : gmap Z memberFailureCounts) (isInfra : bool) w
  : bool * gmap Z memberFailureCounts * World :=
  let member := default (mkCounts 0 0) (counts !! itemID) in
  if negb isInfra then
    let member := mkCounts (business member + 1) (infra member) in
    let '(again, w) := recordRouteFailure now group itemID (business member) w in
    (again, <[itemID := member]> counts, w)
  else
    let member := mkCounts (business member) (infra member + 1) in
    let limit := MemberInfraMaxRetries (g_RelayConfig group) in
    let limit := if limit <=? 0 then MemberMaxAttempts (g_RelayConfig group) else limit in
    let '(again, w) := recordRouteFailureWithLimit now group itemID (infra member) limit w in
    (again, <[itemID := member]> counts, w).

Definition releaseRouteProbe group (itemID : Z) w : World :=
  match w_routes w !! g_ID group with
  | None => w
  | Some r =>
      let '(changed, r) :=
        if (r_ProbeItemID r =? itemID) || (0 <? (r_HalfOpens r).[itemID]) then
          let r := set_HalfOpens (delete itemID (r_HalfOpens r)) r in
          let r := if r_ProbeItemID r =? itemID then set_ProbeItemID 0 r else r in
          (true, r)
        else (false, r) in
      let '(released, r) := releaseEmergencyLocked r itemID in
      commit_if (changed || released) (g_ID group) r w
  end.

(** ** Administration *)

Definition allMembersInCooldown (now : Z) group w : bool :=
  if bool_decide (g_Mode group = GroupModeManual) || bool_decide (g_Items group = [])
  then false
  else
    match w_routes w !! g_ID group with
    | None => false
    | Some r =>
        (fix go (hasCandidate : bool) (items : list GroupItem) : bool :=
           match items with
           | [] => hasCandidate
           | item :: items =>
               if channelDisabledForRouting item then go hasCandidate items
               else
                 match r_Cooldowns r !! item_ID item with
                 | Some deadline => if deadline <=? now then false else go true items
                 | None => false
                 end
           end) false (g_Items group)
    end.

(** Keys of a map whose value is positive. *)
Definition positive_keys (m : gmap Z Z) : gset Z := dom (filter (fun kv => 0 < kv.2) m).

Definition ResetGroupCooldown (groupID : Z) w : Z * World :=
  match w_routes w !! groupID with
  | None => (0, w)
  | Some r =>
      let dirty := positive_keys (r_Cooldowns r) ∪ positive_keys (r_Levels r)
                   ∪ positive_keys (r_PostCommitStrikes r) ∪ positive_keys (r_emergencyBlocks r) in
      let r := set_Levels ∅ (set_Cooldowns ∅ r) in
      let r := set_emergencyBlocks ∅ (set_PostCommitStrikes ∅ r) in
      (Z.of_nat (size dirty), commit groupID (syncEmergencySummaryLocked r) w)
  end.

Definition RemoveGroupRoute (groupID : Z) w : World :=
  set_w_stickies (delete groupID (w_stickies w)) (set_w_routes (delete groupID (w_routes w)) w).

(** [OpenRouteStream]: the snapshot lists every route. *)
Definition OpenRouteStream (ch : Z) w : list RouteState * World :=
  ((map_order (w_routes w)).*2, set_w_hub (open_stream ch (w_hub w)) w).

Definition CloseRouteStream (ch : Z) w : World := set_w_hub (close_stream ch (w_hub w)) w.
End route.
