(* ===== verification/Demo.v ===== *)
(** * Concrete inputs

    A directory with two channels and a failover group of two members, on which
    the witnesses of the routing theorems run. *)

From S2P Require Import Prelude Hub Float64 GroupModel Protocol Backoff Route.

Definition demo_channel (id : Z) : Channel :=
  {| ch_ID := id; ch_Type := ChannelProviderOpenAI; ch_Enabled := true;
     ch_Key := "sk"; ch_Keys := []; ch_ChannelProxy := None;
     ch_PassThroughBodyEnabled := false; ch_OpencodeCompat := false;
     ch_MaxConcurrent := 0; ch_RateLimitRPM := 0; ch_Name := "c"; ch_BaseURL := "https://up";
     ch_Keyed := false; ch_Proxy := false; ch_OpencodeLane := ""; ch_ModelLimits := ∅ |}.

Definition demo_model (id : Z) : ChannelModel :=
  {| cm_ID := id; cm_ChannelID := id; cm_Name := "m"; cm_UpstreamProtocol := "" |}.

Definition demo_item (id cm prio : Z) : GroupItem :=
  mkItem id cm "" (Some (demo_model cm)) prio.

(** Channels 1 and 2 exist; channel 3 is disabled. *)
#[export] Instance demo_directory : Directory := {
  channelLookup id :=
    if (id =? 1) || (id =? 2) then Some (demo_channel id)
    else if id =? 3 then
      Some (mkChannel 3 ChannelProviderAnthropic false "" [] None false false 0 0 "d" "" false false "" ∅)
    else None;
  groupLookup _ := None;
  warpBlocked _ := false;
}.

Definition demo_config (emergency : Z) : GroupRelayConfig :=
  let d := DefaultGroupRelayConfig in
  mkRelayConfig 2 (MemberInfraMaxRetries d) (MemberRetryIntervalSeconds d)
    (MemberNonStreamResponseTimeoutSeconds d) (MemberStreamFirstEventTimeoutSeconds d)
    (MemberStreamIdleTimeoutSeconds d) (MemberStreamMaxBytes d) (MemberStreamMaxEvents d)
    (MemberCooldownSeconds d) (MemberAffinitySeconds d) (MaxRequestRounds d)
    (MaxRequestSeconds d) (SessionStickyEnabled d) (SessionStickySeconds d)
    (CooldownBackoffMultiplier d) (CooldownMaxSeconds d) (AllCooldownRetryBaseSeconds d)
    (AllCooldownRetryMaxSeconds d) (BackgroundProbeEnabled d) (BackgroundProbeIntervalSeconds d)
    emergency (PreferPassthrough d) (MaskEnabled d) (AutoMatchModels d) (EchoResponseModel d)
    (ContextFitEnabled d) (RejectTitleRequests d).

(** Members 11 and 12 on channels 1 and 2; 13 on the disabled channel. *)
Definition demo_group : Group :=
  mkGroup 7 "g" GroupModeFailover 0 (demo_config 12)
    [demo_item 11 1 0; demo_item 12 2 1; demo_item 13 3 2].

(** The same group with a background probe, switched to a one-member list. *)
Definition demo_single : Group :=
  mkGroup 7 "g" GroupModeFailover 0 (demo_config 0) [demo_item 11 1 0].

(** Picked member 11 at 1000, one failure over the threshold at 2000. *)
Definition demo_picked : World :=
  (pick_locked 1000 demo_group 0 ∅ None world_init).2.
Definition demo_cooled : World :=
  (recordRouteFailureWithLimit 2000 demo_group 11 2 2 demo_picked).2.
