(* ===== verification/RouteInv.v ===== *)
(** * Invariants of the routing state

    The critical sections of route.go and prober.go as a step relation, in any
    interleaving, with what every reachable state satisfies: the emergency
    accounting, the shape of the breaker maps, the health of the route hub, and
    how a member becomes HALF-OPEN. *)

From S2P Require Import Prelude Hub Float64 GroupModel Protocol Backoff Route.

Section inv.
Context `{dir : Directory} `{ord : !MapOrder Z}.
Implicit Types (r : RouteState) (w : World) (group : Group) (item : GroupItem).
Implicit Types (counts half cool : gmap Z Z).

(** ** Steps

    One constructor per critical section; [now] is the clock read inside it.
    [resets] tells whether the administrator's [ResetGroupCooldown] may occur. *)
Inductive route_step (resets : bool) (now : Z) : World -> World -> Prop :=
| step_pick group exclude skipped fmt w :
    route_step resets now w (pick_locked now group exclude skipped fmt w).2
| step_recover group candidates winner ctxErr w :
    route_step resets now w (recover_finish now group candidates winner ctxErr w).2
| step_emergency group exclude skipped w :
    route_step resets now w (claimEmergencyItemSkipping now group exclude skipped w).2
| step_probe_expired group w :
    route_step resets now w (ProbeExpiredItems now group w)
| step_async_done group item ok l1 l2 w :
    w_async w = l1 ++ (group, item) :: l2 ->
    route_step resets now w (runAsyncProbe_finish now group item ok (set_w_async (l1 ++ l2) w))
| step_success group itemID w :
    route_step resets now w (recordRouteSuccess now group itemID w)
| step_failure group itemID failures threshold w :
    route_step resets now w (recordRouteFailureWithLimit now group itemID failures threshold w).2
| step_postcommit group itemID w :
    route_step resets now w (recordPostCommitFailure now group itemID w).2
| step_release group itemID w :
    route_step resets now w (releaseRouteProbe group itemID w)
| step_reset groupID w :
    resets = true -> route_step resets now w (ResetGroupCooldown groupID w).2
| step_remove groupID w :
    route_step resets now w (RemoveGroupRoute groupID w)
| step_open_stream ch w :
    hub_chans (w_hub w) !! ch = None -> route_step resets now w (OpenRouteStream ch w).2
| step_close_stream ch w :
    route_step resets now w (CloseRouteStream ch w).

(** Any interleaving, at any positive clock readings. *)
Definition route_reachable (resets : bool) : World -> Prop :=
  rtc (fun w w' => exists now, 0 < now /\ route_step resets now w w') world_init.

(** ** Emergency accounting *)

Definition counts_ok counts : Prop :=
  map_Forall (fun id n => 0 < id /\ 0 < n) counts /\
  map_sum counts <= emergencyMaxConcurrent.

(** The exported summary agrees with the per-member counters: the total is
    their sum, and the advertised member is one that holds a slot. *)
Definition emergency_ok counts (active itemID : Z) : Prop :=
  counts_ok counts /\ active = map_sum counts /\
  (if decide (counts = ∅) then itemID = 0 else is_Some (counts !! itemID)).

(** Only members in cooldown are HALF-OPEN. *)
Definition half_cool half cool : Prop :=
  forall id, is_Some (half !! id) -> is_Some (cool !! id).

(** An entry of a breaker map is present exactly when the Go test [> 0]
    holds, and, unless the administrator resets cooldowns, only a member in
    cooldown is HALF-OPEN. *)
Record route_ok (resets : bool) r : Prop := {
  ro_emergency : emergency_ok (r_emergencyCounts r) (r_EmergencyActive r) (r_EmergencyItemID r);
  ro_half : map_Forall (fun _ t => 0 < t) (r_HalfOpens r);
  ro_levels : map_Forall (fun _ n => 0 < n) (r_Levels r);
  ro_strikes : map_Forall (fun _ n => 0 < n) (r_PostCommitStrikes r);
  ro_cool : resets = false -> half_cool (r_HalfOpens r) (r_Cooldowns r);
}.

Record world_ok (resets : bool) w : Prop := {
  wo_routes : map_Forall (fun gid r => route_ok resets r /\ r_GroupID r = gid) (w_routes w);
  wo_hub : hub_ok routeStreamBuffer (w_hub w);
}.

(** ** Counters *)

Lemma counts_pos counts : counts_ok counts -> map_Forall (fun _ n => 0 < n) counts.
Proof. intros [Hp _] k v Hk. by apply (Hp k v Hk). Qed.

Lemma counts_ok_empty : counts_ok ∅.
Proof.
  split; [apply map_Forall_empty|]. rewrite map_sum_empty. unfold emergencyMaxConcurrent. lia.
Qed.

Lemma counts_ok_delete counts id : counts_ok counts -> counts_ok (delete id counts).
Proof.
  intros Hok. pose proof (counts_pos _ Hok) as Hpos. destruct Hok as [Hp Hs]. split.
  - by apply map_Forall_delete.
  - pose proof (map_sum_delete counts id).
    destruct (counts !! id) as [v|] eqn:Hk; simpl in *; [|lia].
    pose proof (Hpos id v Hk). simpl in *. lia.
Qed.

Lemma counts_ok_restrict items counts : counts_ok counts -> counts_ok (restrict_keys items counts).
Proof.
  intros Hok. pose proof (counts_pos _ Hok) as Hpos. destruct Hok as [Hp Hs]. split.
  - by apply restrict_keys_Forall.
  - pose proof (map_sum_restrict items counts) as Hle.
    enough (map_sum (restrict_keys items counts) <= map_sum counts) by lia.
    apply Hle. intros k v Hk. pose proof (Hpos k v Hk). simpl in *. lia.
Qed.

Lemma counts_get counts id : counts_ok counts -> 0 <= counts.[id].
Proof.
  intros Hok. destruct (counts !! id) as [v|] eqn:Hk; simpl; [|lia].
  pose proof (counts_pos _ Hok id v Hk). simpl in *. lia.
Qed.

Lemma counts_ok_claim counts id :
  counts_ok counts -> 0 < id -> map_sum counts < emergencyMaxConcurrent ->
  counts_ok (<[id := counts.[id] + 1]> counts).
Proof.
  intros Hok Hid Hlt. pose proof (counts_get counts id Hok). split.
  - apply map_Forall_insert_2; [lia|]. apply Hok.
  - rewrite map_sum_insert. lia.
Qed.

Lemma counts_ok_release counts id :
  counts_ok counts -> 0 < counts.[id] ->
  counts_ok (if counts.[id] - 1 <=? 0 then delete id (<[id := counts.[id] - 1]> counts)
             else <[id := counts.[id] - 1]> counts).
Proof.
  intros Hok Hpos. case_test (counts.[id] - 1 <=? 0).
  - rewrite delete_insert_eq. by apply counts_ok_delete.
  - destruct Hok as [Hp Hs]. split; [|rewrite map_sum_insert; lia].
    apply map_Forall_insert_2; [|done]. split; [|lia].
    destruct (counts !! id) as [v|] eqn:Hk; simpl in *; [|lia]. by apply (Hp id v).
Qed.

(** [r'] is [r] up to the four emergency fields. *)
Definition emergency_upd counts (active itemID : Z) r : RouteState :=
  set_EmergencyActive active (set_EmergencyItemID itemID (set_emergencyCounts counts r)).

Lemma sync_upd r :
  counts_ok (r_emergencyCounts r) ->
  exists active itemID,
    syncEmergencySummaryLocked r = emergency_upd (r_emergencyCounts r) active itemID r /\
    emergency_ok (r_emergencyCounts r) active itemID.
Proof.
  intros Hok. pose proof (counts_pos _ Hok) as Hpos. destruct r as [g cu pr af co le ha po ei ea ec eb aa].
  unfold syncEmergencySummaryLocked, emergency_upd, emergency_ok; simpl in *.
  case_test (map_sum ec <=? 0).
  - exists 0, 0. split; [done|]. split; [done|].
    assert (Hz : ec = ∅) by (apply (map_sum_zero ec Hpos); lia). subst.
    split; [symmetry; apply map_sum_empty|]. by rewrite decide_True.
  - assert (Hne : ec ≠ ∅) by (intros ->; rewrite map_sum_empty in Htest; done).
    case_test ((ei =? 0) || (ec.[ei] <=? 0)).
    + destruct (map_order ec) as [|[i v] l] eqn:Hl; [by apply map_order_nil in Hl|].
      exists (map_sum ec), i. split; [done|]. split; [done|]. split; [done|].
      rewrite decide_False by done. exists v. apply elem_of_map_order. rewrite Hl. by left.
    + exists (map_sum ec), ei. split; [done|]. split; [done|]. split; [done|].
      rewrite decide_False by done. destruct (ec !! ei) eqn:He; [done|].
      apply orb_false_iff in Htest0 as [_ Ht]. simpl in Ht. done.
Qed.

Lemma release_upd r itemID :
  emergency_ok (r_emergencyCounts r) (r_EmergencyActive r) (r_EmergencyItemID r) ->
  exists counts active it,
    (releaseEmergencyLocked r itemID).2 = emergency_upd counts active it r /\
    emergency_ok counts active it.
Proof.
  intros Hok. unfold releaseEmergencyLocked.
  case_test ((r_emergencyCounts r).[itemID] <=? 0); simpl.
  - exists (r_emergencyCounts r), (r_EmergencyActive r), (r_EmergencyItemID r).
    split; [by destruct r | done].
  - set (counts := if _ - 1 <=? 0 then _ else _).
    destruct (sync_upd (set_emergencyCounts counts r)) as (a & i & -> & Hok').
    { apply counts_ok_release; [apply Hok | lia]. }
    exists counts, a, i. split; [by destruct r | done].
Qed.

(** ** Breaker maps *)

Lemma half_cool_delete_half half cool id : half_cool half cool -> half_cool (delete id half) cool.
Proof. intros Hh id' [t [_ Ht]%lookup_delete_Some]. apply Hh. eauto. Qed.

Lemma half_cool_insert half cool id d : half_cool half cool -> half_cool half (<[id := d]> cool).
Proof. intros Hh id' Hid. rewrite lookup_insert. case_decide; eauto. Qed.

Lemma half_cool_delete half cool id : half_cool half cool -> half_cool (delete id half) (delete id cool).
Proof.
  intros Hh id' [t [Hne Ht]%lookup_delete_Some]. rewrite lookup_delete_ne by done.
  apply Hh. eauto.
Qed.

Lemma half_cool_restrict items half cool :
  half_cool half cool -> half_cool (restrict_keys items half) (restrict_keys items cool).
Proof.
  intros Hh id [t [Ht Hin]%restrict_keys_Some]. rewrite restrict_keys_lookup by done.
  apply Hh. eauto.
Qed.

Lemma half_cool_claim half cool id d t :
  cool !! id = Some d -> half_cool half cool -> half_cool (<[id := t]> half) cool.
Proof.
  intros Hd Hh id' Hid. destruct (decide (id = id')) as [->|Hne]; [eauto|].
  rewrite lookup_insert_ne in Hid by done. eauto.
Qed.

Lemma pos_get (m : gmap Z Z) id : map_Forall (fun _ n => 0 < n) m -> 0 <= m.[id].
Proof.
  intros Hm. destruct (m !! id) as [v|] eqn:Hk; simpl; [|lia].
  pose proof (Hm id v Hk). simpl in *. lia.
Qed.

Lemma pos_incr (m : gmap Z Z) id :
  map_Forall (fun _ n => 0 < n) m -> map_Forall (fun _ n => 0 < n) (<[id := m.[id] + 1]> m).
Proof. intros Hm. apply map_Forall_insert_2; [|done]. pose proof (pos_get m id Hm). lia. Qed.

Lemma pos_insert (m : gmap Z Z) id v :
  0 < v -> map_Forall (fun _ n => 0 < n) m -> map_Forall (fun _ n => 0 < n) (<[id := v]> m).
Proof. intros Hv Hm. by apply map_Forall_insert_2. Qed.

Lemma pos_delete (m : gmap Z Z) id :
  map_Forall (fun _ n => 0 < n) m -> map_Forall (fun _ n => 0 < n) (delete id m).
Proof. apply map_Forall_delete. Qed.

Local Hint Resolve pos_delete pos_insert map_Forall_empty pos_incr
  half_cool_delete_half half_cool_insert half_cool_delete half_cool_restrict half_cool_claim
  restrict_keys_Forall counts_ok_restrict : core.

(** Closing [route_ok] of an updated record from [route_ok] of the original. *)
Ltac route_auto :=
  match goal with
  | H : route_ok _ _ |- route_ok _ _ => destruct H; split; simpl; eauto
  end.

Lemma new_route_ok resets gid : route_ok resets (new_route gid).
Proof.
  split; simpl; [|apply map_Forall_empty..|].
  - split; [apply counts_ok_empty|]. split; [symmetry; apply map_sum_empty|].
    by rewrite decide_True.
  - intros _ id [t Ht]. by rewrite lookup_empty in Ht.
Qed.

Lemma sync_ok resets r :
  counts_ok (r_emergencyCounts r) ->
  map_Forall (fun _ t => 0 < t) (r_HalfOpens r) -> map_Forall (fun _ n => 0 < n) (r_Levels r) ->
  map_Forall (fun _ n => 0 < n) (r_PostCommitStrikes r) ->
  (resets = false -> half_cool (r_HalfOpens r) (r_Cooldowns r)) ->
  route_ok resets (syncEmergencySummaryLocked r).
Proof.
  intros Hc Hh Hl Hs Hd. destruct (sync_upd r Hc) as (a & i & -> & Hok). by split.
Qed.

Lemma clean_ok resets items r : route_ok resets r -> route_ok resets (clean_route items r).
Proof.
  intros Hok. unfold clean_route.
  match goal with |- context [syncEmergencySummaryLocked ?x] =>
    assert (Hs : route_ok resets (syncEmergencySummaryLocked x));
    [|revert Hs; generalize (syncEmergencySummaryLocked x)] end.
  - destruct Hok as [[? _] ????]. apply sync_ok; simpl; auto.
  - clear r Hok. intros r Hok. case_ifs; route_auto.
Qed.

Lemma claim_half_ok resets r id now :
  0 < now -> route_ok resets r -> route_ok resets (claimHalfOpenLocked r id now).2.
Proof.
  intros Hnow Hok. unfold claimHalfOpenLocked. case_ifs; simpl; try done. route_auto.
Qed.

Lemma restore_ok resets r id : route_ok resets r -> route_ok resets (restoreItemLocked r id).
Proof. intros Hok. route_auto. Qed.

Lemma reopen_ok resets r config id now :
  route_ok resets r -> route_ok resets (reopenItemLocked r config id now).
Proof. intros Hok. route_auto. Qed.

Lemma break_ok resets r id : route_ok resets r -> route_ok resets (break_affinity r id).
Proof. intros Hok. unfold break_affinity. case_ifs; [route_auto|done]. Qed.

Lemma release_ok resets r id :
  route_ok resets r -> route_ok resets (releaseEmergencyLocked r id).2.
Proof.
  intros Hok. destruct (release_upd r id) as (c & a & i & -> & Hok'); [by apply Hok|].
  route_auto.
Qed.

Lemma ensure_probes_ok resets group items now async r :
  0 < now -> route_ok resets r -> route_ok resets (ensure_probes r group items now async).1.2.
Proof.
  intros Hnow. revert r async. induction items as [|item items IH]; intros r async Hok; simpl; [done|].
  unfold ensureProbeLocked.
  pose proof (claim_half_ok resets r (item_ID item) now Hnow Hok) as Hc.
  destruct (claimHalfOpenLocked r (item_ID item) now) as [[] r1]; simpl in *.
  - specialize (IH r1 (async ++ [(group, item)]) Hc). by destruct ensure_probes as [[? ?] ?].
  - specialize (IH r1 async Hc). by destruct ensure_probes as [[? ?] ?].
Qed.

Lemma fold_ok {A} resets (f : RouteState -> A -> RouteState) l r :
  (forall r x, route_ok resets r -> route_ok resets (f r x)) ->
  route_ok resets r -> route_ok resets (foldl f r l).
Proof. intros Hf. revert r. induction l; simpl; auto. Qed.

(** ** Worlds *)

Lemma commit_ok resets gid r w :
  route_ok resets r -> r_GroupID r = gid -> world_ok resets w -> world_ok resets (commit gid r w).
Proof.
  intros Hr Hg [Hw Hh]. split; simpl; [|by apply publish_ok].
  by apply map_Forall_insert_2.
Qed.

Lemma put_ok resets gid r w :
  route_ok resets r -> r_GroupID r = gid -> world_ok resets w -> world_ok resets (put_route gid r w).
Proof. intros Hr Hg [Hw Hh]. split; simpl; [|done]. by apply map_Forall_insert_2. Qed.

Lemma commit_if_ok resets b gid r w :
  route_ok resets r -> r_GroupID r = gid -> world_ok resets w -> world_ok resets (commit_if b gid r w).
Proof. destruct b; [apply commit_ok | apply put_ok]. Qed.

Lemma async_ok resets l w : world_ok resets w -> world_ok resets (set_w_async l w).
Proof. by intros [? ?]. Qed.

Lemma lookup_ok resets w gid r :
  world_ok resets w -> w_routes w !! gid = Some r -> route_ok resets r /\ r_GroupID r = gid.
Proof. intros [Hw _] Hr. by apply (Hw gid r). Qed.

Lemma sync_gid r : r_GroupID (syncEmergencySummaryLocked r) = r_GroupID r.
Proof. unfold syncEmergencySummaryLocked. by case_ifs. Qed.

Lemma clean_gid items r : r_GroupID (clean_route items r) = r_GroupID r.
Proof.
  unfold clean_route. case_ifs; simpl; rewrite sync_gid; done.
Qed.

Lemma release_gid r id : r_GroupID (releaseEmergencyLocked r id).2 = r_GroupID r.
Proof. unfold releaseEmergencyLocked. case_ifs; simpl; rewrite ?sync_gid; done. Qed.

Lemma claim_gid r id now : r_GroupID (claimHalfOpenLocked r id now).2 = r_GroupID r.
Proof. unfold claimHalfOpenLocked. by case_ifs. Qed.

Lemma ensure_probes_gid group items now async r :
  r_GroupID (ensure_probes r group items now async).1.2 = r_GroupID r.
Proof.
  revert r async. induction items as [|item items IH]; intros r async; simpl; [done|].
  unfold ensureProbeLocked. pose proof (claim_gid r (item_ID item) now) as Hc.
  destruct (claimHalfOpenLocked r (item_ID item) now) as [[] r1]; simpl in *.
  - specialize (IH r1 (async ++ [(group, item)])). destruct ensure_probes as [[? ?] ?]; simpl in *; congruence.
  - specialize (IH r1 async). destruct ensure_probes as [[? ?] ?]; simpl in *; congruence.
Qed.

Lemma fold_gid {A} (f : RouteState -> A -> RouteState) l r :
  (forall r x, r_GroupID (f r x) = r_GroupID r) -> r_GroupID (foldl f r l) = r_GroupID r.
Proof. intros Hf. revert r. induction l as [|x l IH]; intros r; simpl; [done|]. by rewrite IH. Qed.

Lemma break_gid r id : r_GroupID (break_affinity r id) = r_GroupID r.
Proof. unfold break_affinity. by case_ifs. Qed.

Local Hint Resolve commit_ok put_ok commit_if_ok async_ok clean_ok release_ok restore_ok
  reopen_ok break_ok claim_half_ok ensure_probes_ok fold_ok : core.

(** Rewriting the group identifier of an updated record. *)
Ltac gid_auto :=
  simpl; rewrite ?release_gid, ?break_gid, ?ensure_probes_gid, ?clean_gid, ?claim_gid, ?sync_gid;
  simpl; try done.

Lemma group_route_ok resets group w r w' :
  groupRouteLocked group w = (r, w') -> world_ok resets w ->
  route_ok resets r /\ r_GroupID r = g_ID group /\ world_ok resets w'.
Proof.
  intros Heq Hw. unfold groupRouteLocked in Heq. injection Heq as <- <-.
  assert (Hr : let r := default (new_route (g_ID group)) (w_routes w !! g_ID group) in
               route_ok resets r /\ r_GroupID r = g_ID group).
  { destruct (w_routes w !! g_ID group) as [r|] eqn:Hr; simpl.
    - by apply (lookup_ok _ w).
    - split; [apply new_route_ok | done]. }
  destruct Hr as [Hr Hg]. split; [by apply clean_ok|]. split; [by gid_auto|].
  apply put_ok; [by apply clean_ok | by gid_auto | done].
Qed.

Lemma pick_ok resets now group exclude skipped fmt w :
  0 < now -> world_ok resets w ->
  world_ok resets (pick_locked now group exclude skipped fmt w).2.
Proof.
  intros Hnow Hw. unfold pick_locked.
  destruct (groupRouteLocked group w) as [r0 w0] eqn:Hgr.
  destruct (group_route_ok _ _ _ _ _ Hgr Hw) as (Hr0 & Hg0 & Hw0). clear Hgr Hw.
  set (r1 := if r_AffinityUntil r0 <=? now then _ else r0).
  assert (Hr1 : route_ok resets r1) by (subst r1; case_ifs; [route_auto | done]).
  assert (Hg1 : r_GroupID r1 = g_ID group) by (subst r1; by case_ifs).
  clearbody r1. case_match; simpl; [by auto|].
  set (drop := negb _ && bool_decide (r_CurrentItemID r1 ∈ skipped)). clearbody drop.
  set (r2 := if drop then _ else r1).
  assert (Hr2 : route_ok resets r2) by (subst r2; case_ifs; [route_auto | done]).
  assert (Hg2 : r_GroupID r2 = g_ID group) by (subst r2; by case_ifs).
  set (w2 := commit_if drop _ _ _).
  assert (Hw2 : world_ok resets w2) by (subst w2; auto).
  clearbody w2 r2. case_match; simpl; [done|].
  destruct (scan_items r2 exclude skipped now (passthroughOrderedItems group fmt)) as [expired [sel|]].
  - pose proof (ensure_probes_ok resets group expired now (w_async w2) r2 Hnow Hr2) as He.
    pose proof (ensure_probes_gid group expired now (w_async w2) r2) as Hge.
    destruct (ensure_probes r2 group expired now (w_async w2)) as [[b r3] async]; simpl in *.
    apply commit_ok; [route_auto | simpl; congruence | auto].
  - assert (Hb : route_ok resets (claim_batch r2 expired now)) by (apply fold_ok; auto).
    assert (Hgb : r_GroupID (claim_batch r2 expired now) = g_ID group).
    { unfold claim_batch. rewrite fold_gid; [done|]. intros. apply claim_gid. }
    destruct expired; simpl; [done|]. by apply commit_ok.
Qed.

Lemma recover_ok resets now group candidates winner ctxErr w :
  world_ok resets w -> world_ok resets (recover_finish now group candidates winner ctxErr w).2.
Proof.
  intros Hw. unfold recover_finish.
  destruct (w_routes w !! g_ID group) as [r|] eqn:Hr; [|done].
  destruct (lookup_ok _ _ _ _ Hw Hr) as [Hok Hg].
  case_ifs; simpl; apply commit_ok; try done; simpl; try (rewrite fold_gid; [done|]; by intros; case_ifs).
  - match goal with |- route_ok _ (set_ProbeItemID _ ?x) => assert (Hx : route_ok resets x) end.
    { apply fold_ok; [|done]. intros r' x Hr'. case_ifs; [done|]. route_auto. }
    revert Hx. generalize (foldl (fun r item => if item_ID item =? item_ID winner then r
        else set_HalfOpens (delete (item_ID item) (r_HalfOpens r)) r) r candidates).
    intros r' Hr'. route_auto.
  - apply fold_ok; [|done]. intros r' x Hr'. route_auto.
  - apply fold_ok; auto.
Qed.

Lemma emergency_claim_ok resets now group exclude skipped w :
  world_ok resets w -> world_ok resets (claimEmergencyItemSkipping now group exclude skipped w).2.
Proof.
  intros Hw. unfold claimEmergencyItemSkipping.
  destruct (groupRouteLocked group w) as [r0 w0] eqn:Hgr.
  destruct (group_route_ok _ _ _ _ _ Hgr Hw) as (Hr0 & Hg0 & Hw0).
  unfold claimEmergencyLocked. case_test ((EmergencyItemID (g_RelayConfig group) <=? 0)
    || (EmergencyItemID (g_RelayConfig group) =? exclude)
    || bool_decide (EmergencyItemID (g_RelayConfig group) ∈ skipped)
    || (emergencyMaxConcurrent <=? r_EmergencyActive r0)); [done|].
  apply orb_false_iff in Htest as [Htest Hcap]. apply orb_false_iff in Htest as [Htest _].
  apply orb_false_iff in Htest as [Hid _].
  case_ifs; simpl; try done; simplify_eq.
  all: apply commit_ok; [|by gid_auto|done].
  all: destruct Hr0 as [Hem ? ? ? ?]; destruct Hem as (Hc & Ha & _).
  all: apply sync_ok; simpl; auto; apply counts_ok_claim; [done|lia|lia].
Qed.

Lemma probe_expired_ok resets now group w :
  0 < now -> world_ok resets w -> world_ok resets (ProbeExpiredItems now group w).
Proof.
  intros Hnow Hw. unfold ProbeExpiredItems. case_match; [done|].
  destruct (groupRouteLocked group w) as [r0 w0] eqn:Hgr.
  destruct (group_route_ok _ _ _ _ _ Hgr Hw) as (Hr0 & Hg0 & Hw0).
  pose proof (ensure_probes_ok resets group (g_Items group) now (w_async w0) r0 Hnow Hr0) as He.
  pose proof (ensure_probes_gid group (g_Items group) now (w_async w0) r0) as Hge.
  destruct (ensure_probes r0 group (g_Items group) now (w_async w0)) as [[b r3] async]; simpl in *.
  apply commit_if_ok; [done | congruence | auto].
Qed.

Lemma async_done_ok resets now group item ok w :
  world_ok resets w -> world_ok resets (runAsyncProbe_finish now group item ok w).
Proof.
  intros Hw. unfold runAsyncProbe_finish.
  destruct (w_routes w !! g_ID group) as [r|] eqn:Hr; [|done].
  destruct (lookup_ok _ _ _ _ Hw Hr) as [Hok Hg].
  case_ifs; [done|..]; apply commit_ok; auto.
Qed.

(** The second phase of a success report: closing the breaker. *)
Definition close_breaker now itemID r : RouteState :=
  let r := set_ProbeItemID 0 (restoreItemLocked r itemID) in
  let r := set_emergencyBlocks (delete itemID (r_emergencyBlocks r)) r in
  if (r_CurrentItemID r =? 0) || (r_AffinityUntil r <=? now)
  then set_AffinityUntil 0 (set_CurrentItemID itemID r) else r.

Lemma close_breaker_ok resets now itemID r :
  route_ok resets r -> route_ok resets (close_breaker now itemID r).
Proof. intros Hr. unfold close_breaker, restoreItemLocked. case_ifs; route_auto. Qed.

Lemma close_breaker_gid now itemID r : r_GroupID (close_breaker now itemID r) = r_GroupID r.
Proof. unfold close_breaker. by case_ifs. Qed.

Lemma success_ok resets now group itemID w :
  world_ok resets w -> world_ok resets (recordRouteSuccess now group itemID w).
Proof.
  intros Hw. unfold recordRouteSuccess. case_match; [done|].
  destruct (w_routes w !! g_ID group) as [r|] eqn:Hr; [|done].
  destruct (lookup_ok _ _ _ _ Hw Hr) as [Hok Hg]. clear Hr.
  set (p1 := if 0 <? (r_PostCommitStrikes r).[itemID] then _ else _).
  assert (H1 : route_ok resets p1.2 /\ r_GroupID p1.2 = g_ID group).
  { subst p1. case_ifs; simpl; split; try done. route_auto. }
  clearbody p1. destruct p1 as [c1 r1]; simpl in *. destruct H1 as [Hr1 Hg1].
  set (p2 := if (r_ProbeItemID r1 =? itemID) || _ then _ else _).
  assert (H2 : route_ok resets p2.2 /\ r_GroupID p2.2 = g_ID group).
  { subst p2. case_match; simpl; [|done].
    split; [exact (close_breaker_ok _ now itemID _ Hr1) |].
    etrans; [exact (close_breaker_gid now itemID r1) | done]. }
  clearbody p2. destruct p2 as [c2 r2]; simpl in *. destruct H2 as [Hr2 Hg2].
  pose proof (release_ok resets r2 itemID Hr2) as Hrel. pose proof (release_gid r2 itemID) as Hrg.
  destruct (releaseEmergencyLocked r2 itemID) as [rel r3]; simpl in *.
  destruct (emergencyHeldLocked r itemID); [apply commit_if_ok; [done | congruence | done]|].
  clear Hrel Hrg Hok Hr1. destruct ((r_CurrentItemID r2 =? itemID) && r_affinityArmed r2);
    [destruct (0 <? MemberAffinitySeconds (g_RelayConfig group))|];
    apply commit_if_ok; try done; route_auto.
Qed.

Lemma postcommit_ok resets now group itemID w :
  world_ok resets w -> world_ok resets (recordPostCommitFailure now group itemID w).2.
Proof.
  intros Hw. unfold recordPostCommitFailure. case_match; [done|].
  destruct (groupRouteLocked group w) as [r0 w0] eqn:Hgr.
  destruct (group_route_ok _ _ _ _ _ Hgr Hw) as (Hr0 & Hg0 & Hw0).
  case_match; simpl; [done|]. case_match; simpl.
  - apply commit_ok; [route_auto | by gid_auto | done].
  - apply commit_ok; [|by gid_auto|done]. apply break_ok.
    destruct Hr0; split; simpl; auto.
Qed.

Lemma failure_ok resets now group itemID failures threshold w :
  world_ok resets w ->
  world_ok resets (recordRouteFailureWithLimit now group itemID failures threshold w).2.
Proof.
  intros Hw. unfold recordRouteFailureWithLimit. case_match; [done|].
  destruct (w_routes w !! g_ID group) as [r|] eqn:Hr; [|done].
  destruct (lookup_ok _ _ _ _ Hw Hr) as [Hok Hg]. clear Hr.
  (* every branch ends by releasing the emergency slot of an updated route *)
  assert (Hend : forall b r', route_ok resets r' -> r_GroupID r' = g_ID group ->
    world_ok resets (commit_if b (g_ID group) (releaseEmergencyLocked r' itemID).2 w)).
  { intros b r' Hr' Hg'. apply commit_if_ok; [auto | by gid_auto | done]. }
  case_match; [|case_match].
  - match goal with |- context [releaseEmergencyLocked ?x itemID] =>
      specialize (Hend true x); destruct (releaseEmergencyLocked x itemID) end.
    apply Hend; [|by gid_auto; case_ifs]. apply break_ok.
    case_ifs; [route_auto|]. destruct Hok; split; simpl; auto.
  - match goal with |- context [releaseEmergencyLocked ?x itemID] =>
      pose proof (fun b => Hend b x) as Hend'; destruct (releaseEmergencyLocked x itemID) end.
    simpl. by apply Hend'.
  - match goal with |- context [releaseEmergencyLocked ?x itemID] =>
      specialize (Hend true x); destruct (releaseEmergencyLocked x itemID) end.
    apply Hend; [|by gid_auto; case_ifs]. apply break_ok. case_ifs; route_auto.
Qed.

Lemma release_probe_ok resets group itemID w :
  world_ok resets w -> world_ok resets (releaseRouteProbe group itemID w).
Proof.
  intros Hw. unfold releaseRouteProbe.
  destruct (w_routes w !! g_ID group) as [r|] eqn:Hr; [|done].
  destruct (lookup_ok _ _ _ _ Hw Hr) as [Hok Hg]. clear Hr.
  set (p1 := if (r_ProbeItemID r =? itemID) || _ then _ else _).
  assert (H1 : route_ok resets p1.2 /\ r_GroupID p1.2 = g_ID group).
  { subst p1. case_ifs; simpl; split; try done; route_auto. }
  clearbody p1. destruct p1 as [c1 r1]; simpl in *. destruct H1 as [Hr1 Hg1].
  pose proof (release_ok resets r1 itemID Hr1) as Hrel. pose proof (release_gid r1 itemID) as Hrg.
  destruct (releaseEmergencyLocked r1 itemID) as [rel r3]; simpl in *.
  apply commit_if_ok; [done | congruence | done].
Qed.

Lemma reset_ok groupID w : world_ok true w -> world_ok true (ResetGroupCooldown groupID w).2.
Proof.
  intros Hw. unfold ResetGroupCooldown.
  destruct (w_routes w !! groupID) as [r|] eqn:Hr; [|done].
  destruct (lookup_ok _ _ _ _ Hw Hr) as [[Hem ? ? ? ?] Hg]. simpl.
  apply commit_ok; [|by gid_auto|done].
  apply sync_ok; simpl; auto; try done; try apply map_Forall_empty. apply Hem.
Qed.

(** Every critical section preserves the invariant. *)
Lemma route_step_ok resets now w w' :
  0 < now -> route_step resets now w w' -> world_ok resets w -> world_ok resets w'.
Proof.
  intros Hnow Hs Hw. destruct Hs.
  - by apply pick_ok.
  - by apply recover_ok.
  - by apply emergency_claim_ok.
  - by apply probe_expired_ok.
  - by apply async_done_ok, async_ok.
  - by apply success_ok.
  - by apply failure_ok.
  - by apply postcommit_ok.
  - by apply release_probe_ok.
  - subst. by apply reset_ok.
  - destruct Hw as [Hw Hh]. split; [|done]. by apply map_Forall_delete.
  - destruct Hw as [Hw Hh]. split; [done|]. by apply open_stream_ok.
  - destruct Hw as [Hw Hh]. split; [done|]. by apply close_stream_ok.
Qed.

Lemma world_init_ok resets : world_ok resets world_init.
Proof. split; simpl; [apply map_Forall_empty | apply hub_empty_ok]. Qed.

Lemma reachable_ok resets w : route_reachable resets w -> world_ok resets w.
Proof.
  intros Hr. unfold route_reachable in Hr.
  assert (Hgen : forall w0 w, rtc (fun w w' => exists now, 0 < now /\ route_step resets now w w') w0 w ->
            world_ok resets w0 -> world_ok resets w).
  { induction 1 as [|x y z (now & Hnow & Hs) _ IH]; [done|]. intros Hx. apply IH.
    by eapply route_step_ok. }
  by eapply Hgen; [exact Hr | apply world_init_ok].
Qed.
End inv.
