(* ===== verification/Breaker.v ===== *)
(** * The circuit breaker of one member

    An abstract three-state breaker, and the proof that every critical section
    of the routing state moves each member along its edges only. *)

From S2P Require Import Prelude Hub Float64 GroupModel Protocol Backoff Route Demo RouteInv.

(** The breaker of a member: CLOSED, OPEN until a deadline, or HALF-OPEN with the
    deadline it will fall back to when its probe reports nothing.  That deadline is
    missing only after an administrator's reset has hit a running probe. *)
Inductive breaker :=
| Closed
| Open (deadline : Z)
| HalfOpen (fallback : option Z).

Definition resting (o : option Z) : breaker :=
  match o with None => Closed | Some d => Open d end.

Definition breaker_of (r : RouteState) (id : Z) : breaker :=
  match r_HalfOpens r !! id with
  | Some _ => HalfOpen (r_Cooldowns r !! id)
  | None => resting (r_Cooldowns r !! id)
  end.

(** The breaker of member [id] of group [gid]; a group without state is all CLOSED. *)
Definition world_breaker (w : World) (gid id : Z) : breaker :=
  match w_routes w !! gid with Some r => breaker_of r id | None => Closed end.

(** The edges, at clock [now]. *)
Inductive breaker_step (resets : bool) (now : Z) : breaker -> breaker -> Prop :=
| bs_stay s : breaker_step resets now s s
| bs_claim d : d <= now -> breaker_step resets now (Open d) (HalfOpen (Some d))
| bs_release o : breaker_step resets now (HalfOpen o) (resting o)
| bs_close s : breaker_step resets now s Closed
| bs_trip s config level :
    breaker_step resets now s (Open (now + cooldownMillis config level))
| bs_strike config :
    resets = true ->
    breaker_step resets now (HalfOpen None) (HalfOpen (Some (now + cooldownMillis config 1)))
| bs_reset o :
    resets = true -> breaker_step resets now (HalfOpen o) (HalfOpen None).

#[export] Hint Constructors breaker_step : nova.

Section breaker.
Context `{dir : Directory} `{ord : !MapOrder Z}.
Implicit Types (r : RouteState) (w : World) (group : Group) (item : GroupItem).

Local Notation bstep resets now r r' id :=
  (breaker_step resets now (breaker_of r id) (breaker_of r' id)).

(** Updates that leave the two breaker maps alone. *)
Lemma breaker_of_frame r r' id :
  r_HalfOpens r' = r_HalfOpens r -> r_Cooldowns r' = r_Cooldowns r ->
  breaker_of r' id = breaker_of r id.
Proof. intros Hh Hc. unfold breaker_of. by rewrite Hh, Hc. Qed.

Lemma sync_breaker r id : breaker_of (syncEmergencySummaryLocked r) id = breaker_of r id.
Proof. apply breaker_of_frame; unfold syncEmergencySummaryLocked; by case_ifs. Qed.

Lemma release_breaker r it id : breaker_of (releaseEmergencyLocked r it).2 id = breaker_of r id.
Proof.
  unfold releaseEmergencyLocked. case_ifs; simpl; [done|..]; by rewrite sync_breaker.
Qed.

Lemma break_breaker r it id : breaker_of (break_affinity r it) id = breaker_of r id.
Proof. unfold break_affinity. by case_ifs. Qed.

Lemma clean_breaker items r id :
  breaker_of (clean_route items r) id =
  (if decide (id ∈ items) then breaker_of r id else Closed).
Proof.
  unfold clean_route.
  match goal with |- context [syncEmergencySummaryLocked ?x] =>
    pose proof (sync_breaker x id) as Hs; revert Hs;
    generalize (syncEmergencySummaryLocked x) end.
  intros r' Hr'. transitivity (breaker_of r' id); [by case_ifs|]. rewrite Hr'.
  unfold breaker_of; simpl. case_decide as Hin.
  - by rewrite !restrict_keys_lookup.
  - by rewrite !restrict_keys_out.
Qed.

Lemma group_route_breaker group w r w' id :
  groupRouteLocked group w = (r, w') ->
  (forall gid, gid ≠ g_ID group -> w_routes w' !! gid = w_routes w !! gid) /\
  w_routes w' !! g_ID group = Some r /\
  breaker_of r id = (if decide (id ∈ item_ids group)
                     then world_breaker w (g_ID group) id else Closed).
Proof.
  intros Heq. unfold groupRouteLocked in Heq. injection Heq as <- <-. simpl. split; [|split].
  - intros gid Hne. by rewrite lookup_insert_ne by done.
  - by rewrite lookup_insert_eq.
  - rewrite clean_breaker. unfold world_breaker.
    by destruct (w_routes w !! g_ID group).
Qed.

(** ** Claims *)

Definition claims now r r' : Prop :=
  r_Cooldowns r' = r_Cooldowns r /\
  forall id, breaker_of r' id = breaker_of r id \/
    exists d, d <= now /\ breaker_of r id = Open d /\ breaker_of r' id = HalfOpen (Some d).

Lemma claims_refl now r : claims now r r.
Proof. split; [done|]. by left. Qed.

Lemma claims_trans now r1 r2 r3 : claims now r1 r2 -> claims now r2 r3 -> claims now r1 r3.
Proof.
  intros [Hc1 H1] [Hc2 H2]. split; [congruence|]. intros id.
  destruct (H1 id) as [E1|(d & Hd & E1 & E1')]; destruct (H2 id) as [E2|(d2 & Hd2 & E2 & E2')].
  - left. congruence.
  - right. exists d2. split; [done|]. split; congruence.
  - right. exists d. split; [done|]. split; congruence.
  - congruence.
Qed.

Lemma claims_frame now r r1 r2 :
  claims now r r1 -> r_HalfOpens r2 = r_HalfOpens r1 -> r_Cooldowns r2 = r_Cooldowns r1 ->
  claims now r r2.
Proof.
  intros [Hc H] Hh2 Hc2. split; [congruence|]. intros id.
  rewrite (breaker_of_frame r1 r2) by done. apply H.
Qed.

Lemma claim_claims resets now r id :
  route_ok resets r -> claims now r (claimHalfOpenLocked r id now).2.
Proof.
  intros Hok. unfold claimHalfOpenLocked. case_match; [apply claims_refl|].
  destruct (r_Cooldowns r !! id) as [d|] eqn:Hd; [|apply claims_refl].
  case_match eqn:Ht; [apply claims_refl|]. simpl. split; [done|]. intros id'.
  apply orb_false_iff in Ht as [Ht1 Ht2].
  destruct (decide (id = id')) as [<-|Hne].
  - right. exists d. split; [lia|]. unfold breaker_of; simpl.
    rewrite lookup_insert_eq, Hd.
    destruct (r_HalfOpens r !! id) as [t|] eqn:Ht; [|done].
    pose proof (ro_half _ _ Hok id t Ht). simpl in *. lia.
  - left. unfold breaker_of; simpl. by rewrite lookup_insert_ne.
Qed.

Lemma ensure_probes_claims resets now group items async r :
  0 < now -> route_ok resets r ->
  claims now r (ensure_probes r group items now async).1.2.
Proof.
  intros Hnow. revert r async. induction items as [|item items IH]; intros r async Hok; simpl;
    [apply claims_refl|].
  unfold ensureProbeLocked.
  pose proof (claim_half_ok resets r (item_ID item) now Hnow Hok) as Hc.
  pose proof (claim_claims resets now r (item_ID item) Hok) as Hcl.
  destruct (claimHalfOpenLocked r (item_ID item) now) as [[] r1]; simpl in *.
  - specialize (IH r1 (async ++ [(group, item)]) Hc).
    destruct ensure_probes as [[? ?] ?]. by eapply claims_trans.
  - specialize (IH r1 async Hc). destruct ensure_probes as [[? ?] ?]. by eapply claims_trans.
Qed.

Lemma batch_claims resets now items r :
  0 < now -> route_ok resets r -> claims now r (claim_batch r items now).
Proof.
  intros Hnow. unfold claim_batch. revert r.
  induction items as [|item items IH]; intros r Hok; simpl; [apply claims_refl|].
  eapply claims_trans; [by eapply claim_claims|]. apply IH. by apply claim_half_ok.
Qed.

Lemma claims_step resets now r r' id : claims now r r' -> bstep resets now r r' id.
Proof.
  intros [_ H]. destruct (H id) as [->|(d & Hd & -> & ->)]; eauto with nova.
Qed.

(** A claim that follows the cleaning of [groupRouteLocked]. *)
Lemma claims_clean_step resets now group w r w' r' id :
  groupRouteLocked group w = (r, w') -> claims now r r' ->
  breaker_step resets now (world_breaker w (g_ID group) id) (breaker_of r' id).
Proof.
  intros Hgr [_ H]. destruct (group_route_breaker _ _ _ _ id Hgr) as (_ & _ & Hb).
  case_decide.
  - destruct (H id) as [->|(d & Hd & E & ->)]; rewrite <- Hb; [eauto with nova|].
    rewrite E. eauto with nova.
  - destruct (H id) as [->|(d & Hd & E & ->)]; rewrite Hb in *; [eauto with nova|done].
Qed.

(** ** Worlds *)

Definition world_step resets now w w' : Prop :=
  forall gid id, breaker_step resets now (world_breaker w gid id) (world_breaker w' gid id).

(** A world obtained by replacing the route of one group. *)
Lemma replaced_step resets now w w' g r' :
  (forall gid, gid ≠ g -> w_routes w' !! gid = w_routes w !! gid) ->
  w_routes w' !! g = Some r' ->
  (forall id, breaker_step resets now (world_breaker w g id) (breaker_of r' id)) ->
  world_step resets now w w'.
Proof.
  intros Hother Hg Hb gid id. destruct (decide (gid = g)) as [->|Hne].
  - unfold world_breaker at 2. by rewrite Hg.
  - unfold world_breaker. rewrite Hother by done. eauto with nova.
Qed.

Lemma commit_if_routes b g r w :
  w_routes (commit_if b g r w) = <[g := r]> (w_routes w).
Proof. by destruct b. Qed.

Lemma same_routes_step resets now w w' :
  w_routes w' = w_routes w -> world_step resets now w w'.
Proof. intros Heq gid id. unfold world_breaker. rewrite Heq. eauto with nova. Qed.

(** A report: the route of an existing group is replaced. *)
Lemma report_step resets now b g r r' w :
  w_routes w !! g = Some r -> (forall id, bstep resets now r r' id) ->
  world_step resets now w (commit_if b g r' w).
Proof.
  intros Hr Hb. apply (replaced_step _ _ _ _ g r').
  - intros gid Hne. by rewrite commit_if_routes, lookup_insert_ne.
  - by rewrite commit_if_routes, lookup_insert_eq.
  - intros id. unfold world_breaker. by rewrite Hr.
Qed.

(** A section that starts with [groupRouteLocked]. *)
Lemma group_step resets now b group w r w' r' :
  groupRouteLocked group w = (r, w') ->
  (forall id, breaker_step resets now (world_breaker w (g_ID group) id) (breaker_of r' id)) ->
  world_step resets now w (commit_if b (g_ID group) r' w').
Proof.
  intros Hgr Hb. destruct (group_route_breaker _ _ _ _ 0 Hgr) as (Ho & Hg & _).
  apply (replaced_step _ _ _ _ (g_ID group) r'); [| |done].
  - intros gid Hne. rewrite commit_if_routes, lookup_insert_ne by done. by apply Ho.
  - by rewrite commit_if_routes, lookup_insert_eq.
Qed.

Lemma group_only_step resets now group w r w' :
  groupRouteLocked group w = (r, w') -> world_step resets now w w'.
Proof.
  intros Hgr. destruct (group_route_breaker _ _ _ _ 0 Hgr) as (Ho & Hg & _).
  apply (replaced_step _ _ _ _ (g_ID group) r); [done..|]. intros id.
  eapply claims_clean_step; [done|]. apply claims_refl.
Qed.

Lemma pick_step resets now group exclude skipped fmt w :
  0 < now -> world_ok resets w ->
  world_step resets now w (pick_locked now group exclude skipped fmt w).2.
Proof.
  intros Hnow Hw. unfold pick_locked.
  destruct (groupRouteLocked group w) as [r0 w0] eqn:Hgr.
  destruct (group_route_ok _ _ _ _ _ Hgr Hw) as (Hr0 & Hg0 & Hw0).
  (* every branch writes a route that [r0] reaches by claims *)
  assert (Hend : forall b r', claims now r0 r' ->
    world_step resets now w (commit_if b (g_ID group) r' w0)).
  { intros b r' Hcl. eapply group_step; [done|]. intros id. by eapply claims_clean_step. }
  set (r1 := if r_AffinityUntil r0 <=? now then _ else r0).
  assert (H1 : route_ok resets r1 /\ claims now r0 r1).
  { subst r1. case_ifs; [|by split; [|apply claims_refl]].
    split; [destruct Hr0; by split | eapply claims_frame; [apply claims_refl|done..]]. }
  clearbody r1. destruct H1 as [Hr1 Hc1]. case_match; simpl.
  { by apply (Hend false). }
  set (drop := negb _ && bool_decide (r_CurrentItemID r1 ∈ skipped)). clearbody drop.
  set (r2 := if drop then _ else r1).
  assert (H2 : route_ok resets r2 /\ claims now r0 r2).
  { subst r2. case_ifs; [|done]. split; [destruct Hr1; by split | by eapply claims_frame]. }
  clearbody r2. destruct H2 as [Hr2 Hc2]. case_match; simpl.
  { by apply Hend. }
  (* a second commit overwrites the first *)
  assert (Hend2 : forall r' async, claims now r2 r' ->
    world_step resets now w (commit (g_ID group) r' (set_w_async async
      (commit_if drop (g_ID group) r2 w0)))).
  { intros r' async Hcl gid id. specialize (Hend true r' (claims_trans _ _ _ _ Hc2 Hcl) gid id).
    unfold world_breaker in *. simpl in *. rewrite commit_if_routes, insert_insert_eq. done. }
  destruct (scan_items r2 exclude skipped now (passthroughOrderedItems group fmt)) as [expired [sel|]].
  - pose proof (ensure_probes_claims resets now group expired
      (w_async (commit_if drop (g_ID group) r2 w0)) r2 Hnow Hr2) as He.
    destruct (ensure_probes r2 group expired now _) as [[b r3] async]; simpl in *.
    apply Hend2. exact He.
  - pose proof (batch_claims resets now expired r2 Hnow Hr2) as Hb.
    destruct expired; simpl; [by apply Hend|].
    specialize (Hend2 (claim_batch r2 (g :: expired) now)
      (w_async (commit_if drop (g_ID group) r2 w0)) Hb).
    exact Hend2.
Qed.

(** Releasing, reopening and restoring one member. *)
Lemma free_half_step resets now r it id :
  bstep resets now r (set_HalfOpens (delete it (r_HalfOpens r)) r) id.
Proof.
  unfold breaker_of; simpl. rewrite lookup_delete. case_decide; [|eauto with nova].
  subst. destruct (r_HalfOpens r !! id); eauto with nova.
Qed.

Lemma reopen_step resets now r config it id : bstep resets now r (reopenItemLocked r config it now) id.
Proof.
  unfold breaker_of; simpl. rewrite lookup_delete, lookup_insert.
  case_decide; [simpl|]; eauto with nova.
Qed.

Lemma restore_step resets now r it id : bstep resets now r (restoreItemLocked r it) id.
Proof.
  unfold breaker_of; simpl. rewrite !lookup_delete. case_decide; [simpl|]; eauto with nova.
Qed.

Lemma free_half_fold_step {A} resets now (key : A -> Z) (p : A -> bool) l r id :
  bstep resets now r
    (foldl (fun r x => if p x then r else set_HalfOpens (delete (key x) (r_HalfOpens r)) r) r l) id.
Proof.
  enough (Hgen : forall r', r_Cooldowns r' = r_Cooldowns r ->
    (r_HalfOpens r' !! id = r_HalfOpens r !! id \/ r_HalfOpens r' !! id = None) ->
    bstep resets now r
      (foldl (fun r x => if p x then r else set_HalfOpens (delete (key x) (r_HalfOpens r)) r) r' l) id).
  { apply Hgen; auto. }
  induction l as [|x l IH]; intros r' Hc Hh; simpl.
  - unfold breaker_of. rewrite Hc. destruct Hh as [->| ->]; [eauto with nova|].
    destruct (r_HalfOpens r !! id); eauto with nova.
  - apply IH; destruct (p x); simpl; try done.
    rewrite lookup_delete. case_decide; [by right|done].
Qed.

Lemma reopen_fold_step {A} resets now config (key : A -> Z) l r id :
  bstep resets now r (foldl (fun r x => reopenItemLocked r config (key x) now) r l) id.
Proof.
  enough (Hgen : forall r',
    (breaker_of r' id = breaker_of r id \/
     exists level, breaker_of r' id = Open (now + cooldownMillis config level)) ->
    bstep resets now r (foldl (fun r x => reopenItemLocked r config (key x) now) r' l) id).
  { apply Hgen; auto. }
  induction l as [|x l IH]; intros r' Hr; simpl.
  - destruct Hr as [->|[level ->]]; eauto with nova.
  - apply IH. unfold breaker_of in *; simpl. rewrite lookup_delete, lookup_insert.
    case_decide; [|done]. subst. simpl. right. eauto.
Qed.

Lemma recover_step resets now group candidates winner ctxErr w :
  world_step resets now w (recover_finish now group candidates winner ctxErr w).2.
Proof.
  unfold recover_finish.
  destruct (w_routes w !! g_ID group) as [r|] eqn:Hr; [|by apply same_routes_step].
  case_match; [|case_match]; simpl; apply (report_step _ _ true _ r); try done; intros id.
  - exact (free_half_fold_step resets now item_ID
             (fun item => item_ID item =? item_ID winner) candidates r id).
  - exact (free_half_fold_step resets now item_ID (fun _ => false) candidates r id).
  - apply reopen_fold_step.
Qed.

Lemma emergency_step resets now group exclude skipped w :
  world_step resets now w (claimEmergencyItemSkipping now group exclude skipped w).2.
Proof.
  unfold claimEmergencyItemSkipping.
  destruct (groupRouteLocked group w) as [r0 w0] eqn:Hgr.
  assert (Hsame : world_step resets now w w0) by (by eapply group_only_step).
  unfold claimEmergencyLocked. case_ifs; simpl; try done; simplify_eq.
  all: apply (group_step _ _ true _ _ _ _ _ Hgr); intros id; rewrite sync_breaker.
  all: eapply claims_clean_step; [done|]; eapply claims_frame; [apply claims_refl|done..].
Qed.

Lemma probe_expired_step resets now group w :
  0 < now -> world_ok resets w -> world_step resets now w (ProbeExpiredItems now group w).
Proof.
  intros Hnow Hw. unfold ProbeExpiredItems. case_match; [by apply same_routes_step|].
  destruct (groupRouteLocked group w) as [r0 w0] eqn:Hgr.
  destruct (group_route_ok _ _ _ _ _ Hgr Hw) as (Hr0 & _ & _).
  pose proof (ensure_probes_claims resets now group (g_Items group) (w_async w0) r0 Hnow Hr0) as He.
  destruct (ensure_probes r0 group (g_Items group) now (w_async w0)) as [[b r3] async]; simpl in *.
  intros gid id.
  pose proof (group_step resets now b group w r0 w0 r3 Hgr
    (fun id => claims_clean_step _ _ _ _ _ _ _ id Hgr He) gid id) as Hs.
  unfold world_breaker in *. rewrite commit_if_routes in *. done.
Qed.

Lemma async_done_step resets now group item ok l w :
  world_step resets now w (runAsyncProbe_finish now group item ok (set_w_async l w)).
Proof.
  unfold runAsyncProbe_finish. simpl.
  destruct (w_routes w !! g_ID group) as [r|] eqn:Hr; [|by apply same_routes_step].
  case_match; [by apply same_routes_step|].
  apply (report_step _ _ true _ r _ (set_w_async l w)); [done|]. intros id.
  destruct ok; [apply restore_step | apply reopen_step].
Qed.

Lemma success_step resets now group itemID w :
  world_step resets now w (recordRouteSuccess now group itemID w).
Proof.
  unfold recordRouteSuccess. case_match; [by apply same_routes_step|].
  destruct (w_routes w !! g_ID group) as [r|] eqn:Hr; [|by apply same_routes_step].
  set (p1 := if 0 <? (r_PostCommitStrikes r).[itemID] then _ else _).
  assert (H1 : forall id, breaker_of p1.2 id = breaker_of r id) by (subst p1; by case_ifs).
  clearbody p1. destruct p1 as [c1 r1]; simpl in *.
  set (p2 := if (r_ProbeItemID r1 =? itemID) || _ then _ else _).
  assert (H2 : forall id, bstep resets now r p2.2 id).
  { intros id. subst p2. case_match; simpl; [|rewrite H1; eauto with nova].
    rewrite <- H1. pose proof (restore_step resets now r1 itemID id) as Hs. by case_ifs. }
  clearbody p2. destruct p2 as [c2 r2]; simpl in *.
  pose proof (fun id => release_breaker r2 itemID id) as Hrel.
  destruct (releaseEmergencyLocked r2 itemID) as [rel r3]; simpl in *.
  destruct (emergencyHeldLocked r itemID).
  - apply (report_step _ _ _ _ r); [done|]. intros id. by rewrite Hrel.
  - destruct ((r_CurrentItemID r2 =? itemID) && r_affinityArmed r2);
      [destruct (0 <? MemberAffinitySeconds (g_RelayConfig group))|];
      apply (report_step _ _ _ _ r); done.
Qed.

Lemma postcommit_step now group itemID resets w :
  world_ok resets w -> world_step resets now w (recordPostCommitFailure now group itemID w).2.
Proof.
  intros Hw. unfold recordPostCommitFailure. case_match; [by apply same_routes_step|].
  destruct (groupRouteLocked group w) as [r0 w0] eqn:Hgr.
  destruct (group_route_ok _ _ _ _ _ Hgr Hw) as (Hr0 & _ & _).
  destruct (group_route_breaker _ _ _ _ 0 Hgr) as (Ho & Hg & _).
  assert (Hclean : forall id, breaker_step resets now (world_breaker w (g_ID group) id) (breaker_of r0 id)).
  { intros id. eapply claims_clean_step; [done|]. apply claims_refl. }
  case_match eqn:Hcool; simpl; [by eapply group_only_step|]. case_match; simpl.
  { by apply (group_step _ _ true _ _ _ _ _ Hgr). }
  apply (group_step _ _ true _ _ _ _ _ Hgr). intros id. rewrite break_breaker.
  apply is_some_false in Hcool.
  unfold breaker_of at 1; simpl. rewrite lookup_insert.
  destruct (decide (itemID = id)) as [<-|Hne]; [|exact (Hclean id)].
  destruct (r_HalfOpens r0 !! itemID) as [t|] eqn:Ht; simpl; [|eauto with nova].
  destruct resets eqn:Hres.
  - destruct (group_route_breaker _ _ _ _ itemID Hgr) as (_ & _ & Hb).
    unfold breaker_of in Hb. rewrite Ht, Hcool in Hb.
    destruct (decide (itemID ∈ item_ids group)); [|done]. rewrite <- Hb.
    eauto with nova.
  - destruct (ro_cool _ _ Hr0 eq_refl itemID) as [d Hd]; [eauto|]. congruence.
Qed.

Lemma failure_step resets now group itemID failures threshold w :
  world_ok resets w ->
  world_step resets now w (recordRouteFailureWithLimit now group itemID failures threshold w).2.
Proof.
  intros Hw. unfold recordRouteFailureWithLimit. case_match; [by apply same_routes_step|].
  destruct (w_routes w !! g_ID group) as [r|] eqn:Hr; [|by apply same_routes_step].
  destruct (lookup_ok _ _ _ _ Hw Hr) as [Hok _].
  assert (Hend : forall b r', (forall id, bstep resets now r r' id) ->
    world_step resets now w (commit_if b (g_ID group) (releaseEmergencyLocked r' itemID).2 w)).
  { intros b r' Hb. apply (report_step _ _ _ _ r); [done|]. intros id. by rewrite release_breaker. }
  case_match eqn:Hprobe; [|case_match].
  - match goal with |- context [releaseEmergencyLocked ?x itemID] =>
      specialize (Hend true x); destruct (releaseEmergencyLocked x itemID) end.
    apply Hend. intros id. rewrite break_breaker. clear Hend. case_match.
    + exact (reopen_step resets now r (g_RelayConfig group) itemID id).
    + exact (restore_step resets now r itemID id).
  - match goal with |- context [releaseEmergencyLocked ?x itemID] =>
      pose proof (fun b => Hend b x) as Hend'; destruct (releaseEmergencyLocked x itemID) end.
    simpl. apply Hend'. eauto with nova.
  - match goal with |- context [releaseEmergencyLocked ?x itemID] =>
      specialize (Hend true x); destruct (releaseEmergencyLocked x itemID) end.
    apply Hend. intros id. rewrite break_breaker. clear Hend.
    apply orb_false_iff in Hprobe as [_ Hhalf].
    match goal with |- breaker_step _ _ _ (breaker_of ?x id) =>
      assert (Hx : breaker_of x id = breaker_of (set_Cooldowns (<[itemID :=
        now + cooldownMillis (g_RelayConfig group) (r_Levels r).[itemID]]> (r_Cooldowns r)) r) id)
        by (by case_ifs) end.
    rewrite Hx. unfold breaker_of; simpl. rewrite lookup_insert.
    destruct (decide (itemID = id)) as [<-|Hne]; [|eauto with nova].
    destruct (r_HalfOpens r !! itemID) as [t|] eqn:Ht; simpl in *; [|eauto with nova].
    pose proof (ro_half _ _ Hok itemID t Ht). simpl in *. lia.
Qed.

Lemma release_probe_step resets now group itemID w :
  world_step resets now w (releaseRouteProbe group itemID w).
Proof.
  unfold releaseRouteProbe.
  destruct (w_routes w !! g_ID group) as [r|] eqn:Hr; [|by apply same_routes_step].
  set (p1 := if (r_ProbeItemID r =? itemID) || _ then _ else _).
  assert (H1 : forall id, bstep resets now r p1.2 id).
  { intros id. subst p1. case_match; simpl; [|eauto with nova].
    pose proof (free_half_step resets now r itemID id) as Hs. by case_ifs. }
  clearbody p1. destruct p1 as [c1 r1]; simpl in *.
  pose proof (fun id => release_breaker r1 itemID id) as Hrel.
  destruct (releaseEmergencyLocked r1 itemID) as [rel r3]; simpl in *.
  apply (report_step _ _ _ _ r); [done|]. intros id. by rewrite Hrel.
Qed.

Lemma reset_step now groupID w :
  world_step true now w (ResetGroupCooldown groupID w).2.
Proof.
  unfold ResetGroupCooldown.
  destruct (w_routes w !! groupID) as [r|] eqn:Hr; [|by apply same_routes_step].
  simpl. apply (report_step _ _ true _ r); [done|]. intros id. rewrite sync_breaker.
  unfold breaker_of; simpl. rewrite lookup_empty.
  destruct (r_HalfOpens r !! id); simpl; eauto with nova.
Qed.

Lemma remove_step resets now groupID w :
  world_step resets now w (RemoveGroupRoute groupID w).
Proof.
  intros gid id. unfold world_breaker; simpl. rewrite lookup_delete.
  case_decide; eauto with nova.
Qed.

(** ** The contracts *)

End breaker.

(** One reachable state of the demonstration group: picked, then cooled. *)
Lemma demo_cooled_reachable : route_reachable false demo_cooled.
Proof.
  apply (rtc_l _ world_init demo_picked); [|apply (rtc_l _ demo_picked demo_cooled); [|apply rtc_refl]].
  - exists 1000. split; [lia|]. unfold demo_picked. apply step_pick.
  - exists 2000. split; [lia|]. unfold demo_cooled. generalize demo_picked.
    intros w. apply step_failure.
Qed.

