(* ===== verification/RouteProps.v ===== *)
(** * Contracts of the routing operations

    What a selection may return, what each report does to the breaker of its
    member, the emergency slots, and the administrator's reset. *)

From S2P Require Import Prelude Hub Float64 GroupModel Protocol Backoff Route Demo RouteInv.

Section props.
Context `{dir : Directory} `{ord : !MapOrder Z}.
Implicit Types (r : RouteState) (w : World) (group : Group) (item : GroupItem).

(** A member a selection may consider. *)
Definition candidate (exclude : Z) (skipped : gset Z) item : bool :=
  negb (itemExcluded item exclude skipped) && negb (channelDisabledForRouting item).

(** A member in cooldown whose deadline has passed and that nobody probes. *)
Definition probe_ready r (now : Z) item : bool :=
  match r_Cooldowns r !! item_ID item with
  | Some deadline => negb ((now <? deadline) || (0 <? (r_HalfOpens r).[item_ID item]))
  | None => false
  end.

(** The members in front of the first one that passes a test. *)
Fixpoint before_first {A} (p : A -> bool) (l : list A) : list A :=
  match l with
  | [] => []
  | x :: l => if p x then [] else x :: before_first p l
  end.

Definition closed_candidate r exclude skipped item : bool :=
  candidate exclude skipped item && negb (is_some (r_Cooldowns r !! item_ID item)).

(** The zero member stands for none. *)
Definition selected_of (o : option GroupItem) : option GroupItem :=
  match o with
  | Some item => if item_ID item =? 0 then None else Some item
  | None => None
  end.

(** ** The scan *)

Lemma scan_reference r exclude skipped now items :
  scan_items r exclude skipped now items =
  (filter (fun i => candidate exclude skipped i && probe_ready r now i = true)
     (before_first (closed_candidate r exclude skipped) items),
   selected_of (find_first (closed_candidate r exclude skipped) items)).
Proof.
  induction items as [|item items IH]; simpl; [done|].
  assert (Hcl : closed_candidate r exclude skipped item =
    candidate exclude skipped item && negb (is_some (r_Cooldowns r !! item_ID item))) by done.
  rewrite !Hcl. rewrite IH.
  unfold candidate in *. destruct (itemExcluded item exclude skipped) eqn:Hex; simpl in *.
  { by rewrite filter_cons_False by (by rewrite Hex). }
  destruct (channelDisabledForRouting item) eqn:Hdis; simpl in *.
  { by rewrite filter_cons_False by (by rewrite Hex, Hdis). }
  unfold probe_ready. destruct (r_Cooldowns r !! item_ID item) as [d|] eqn:Hd; simpl; [|done].
  destruct ((now <? d) || (0 <? (r_HalfOpens r).[item_ID item])) eqn:Hr.
  - by rewrite filter_cons_False by (by rewrite Hex, Hdis, Hd, Hr).
  - by rewrite filter_cons_True by (by rewrite Hex, Hdis, Hd, Hr).
Qed.

Lemma before_first_sub {A} (p : A -> bool) l x : x ∈ before_first p l -> x ∈ l.
Proof.
  induction l as [|y l IH]; simpl; [done|]. destruct (p y).
  - intros Hx. by apply elem_of_nil in Hx.
  - rewrite !elem_of_cons. naive_solver.
Qed.

Lemma scan_expired_in r exclude skipped now items item :
  item ∈ (scan_items r exclude skipped now items).1 ->
  item ∈ items /\ candidate exclude skipped item = true /\ probe_ready r now item = true.
Proof.
  rewrite scan_reference. simpl. rewrite list_elem_of_filter. intros [Hc Hin].
  apply andb_true_iff in Hc as [? ?]. split; [by eapply before_first_sub|]. done.
Qed.

Lemma scan_selected_in r exclude skipped now items item :
  (scan_items r exclude skipped now items).2 = Some item ->
  item ∈ items /\ candidate exclude skipped item = true /\ r_Cooldowns r !! item_ID item = None.
Proof.
  rewrite scan_reference. simpl. unfold selected_of. intros Hsel.
  destruct (find_first _ items) as [i|] eqn:Hf; [|done].
  destruct (item_ID i =? 0); [done|]. injection Hsel as ->.
  apply find_first_Some in Hf as [Hin Hc]. split; [done|].
  unfold closed_candidate in Hc. apply andb_true_iff in Hc as [? Hc]. split; [done|].
  by destruct (r_Cooldowns r !! item_ID item).
Qed.

Lemma passthrough_perm group fmt : passthroughOrderedItems group fmt ≡ₚ g_Items group.
Proof.
  unfold passthroughOrderedItems. destruct fmt as [format|]; [|done].
  case_match; [done|]. case_match eqn:Hn; [done|]. case_match eqn:Ho; [done|].
  rewrite <- Hn, <- Ho. clear.
  induction (g_Items group) as [|i l IH]; simpl; [done|].
  rewrite !filter_cons. destruct (itemMatchesClientFormat i format) eqn:Hm;
    repeat case_decide; try congruence; simpl.
  - by constructor.
  - rewrite <- Permutation_middle. by constructor.
Qed.

Lemma passthrough_in group fmt item :
  item ∈ passthroughOrderedItems group fmt <-> item ∈ g_Items group.
Proof. by rewrite passthrough_perm. Qed.

(** Native members first, each class in the configured order. *)
Lemma passthrough_split group fmt :
  passthroughOrderedItems group fmt = g_Items group \/
  exists format, fmt = Some format /\
    passthroughOrderedItems group fmt =
      filter (fun i => itemMatchesClientFormat i format = true) (g_Items group) ++
      filter (fun i => itemMatchesClientFormat i format = false) (g_Items group).
Proof.
  unfold passthroughOrderedItems. destruct fmt as [format|]; [|by left].
  case_match; [by left|]. case_match eqn:Hn; [by left|]. case_match eqn:Ho; [by left|].
  right. exists format. split; [done|]. by rewrite Hn, Ho.
Qed.

(** ** Shape of the first critical section *)

Lemma pick_manual_in group exclude skipped item :
  pick_manual group exclude skipped = item -> item_ID item ≠ 0 ->
  item ∈ g_Items group /\ candidate exclude skipped item = true /\ item_ID item = g_ActiveItemID group.
Proof.
  unfold pick_manual. destruct (find_first _ _) as [i|] eqn:Hf; [|by intros <-].
  apply find_first_Some in Hf as [Hin Ht]. apply andb_true_iff in Ht as [Ha Hx].
  destruct (channelDisabledForRouting i) eqn:Hd; intros <- Hne; [done|].
  split; [done|]. split; [|lia]. unfold candidate. by rewrite Hx, Hd.
Qed.

(** Resolved by the affinity of the group rather than by the scan. *)
Definition affine_to r (now : Z) (id : Z) : Prop :=
  id = r_CurrentItemID r /\ now < r_AffinityUntil r.

Lemma pick_phase_spec now group exclude skipped fmt w r :
  0 <= now -> r = (groupRouteLocked group w).1 ->
  match (pick_locked now group exclude skipped fmt w).1 with
  | Picked item =>
      item_ID item ≠ 0 ->
      r_ProbeItemID r = 0 /\ item ∈ g_Items group /\ candidate exclude skipped item = true /\
      (affine_to r now (item_ID item) \/ r_Cooldowns r !! item_ID item = None)
  | RecoverBatch expired =>
      r_ProbeItemID r = 0 /\
      forall item, item ∈ expired ->
        item ∈ g_Items group /\ candidate exclude skipped item = true /\
        probe_ready r now item = true
  | TryEmergency => r_ProbeItemID r = 0
  end.
Proof.
  intros Hnow Hr. unfold pick_locked. destruct (groupRouteLocked group w) as [r0 w0]. simpl in Hr. subst r.
  set (r1 := if r_AffinityUntil r0 <=? now then _ else r0).
  assert (H1 : r_ProbeItemID r1 = r_ProbeItemID r0 /\ r_CurrentItemID r1 = r_CurrentItemID r0 /\
    r_Cooldowns r1 = r_Cooldowns r0 /\ r_HalfOpens r1 = r_HalfOpens r0 /\
    (now < r_AffinityUntil r1 -> now < r_AffinityUntil r0)).
  { subst r1. case_match; simpl; repeat split; try done. lia. }
  clearbody r1. destruct H1 as (Hp & Hcu & Hco & Hh & Haf).
  destruct (negb (r_ProbeItemID r1 =? 0)) eqn:Hprobe; simpl; [by intros []|].
  apply negb_false_iff, Z.eqb_eq in Hprobe. rewrite Hp in Hprobe.
  set (drop := negb _ && bool_decide (r_CurrentItemID r1 ∈ skipped)).
  set (r2 := if drop then _ else r1).
  assert (H2 : r_Cooldowns r2 = r_Cooldowns r0 /\ r_HalfOpens r2 = r_HalfOpens r0 /\
    (r_CurrentItemID r2 ≠ 0 -> r_CurrentItemID r2 = r_CurrentItemID r0 /\
       r_AffinityUntil r2 = r_AffinityUntil r1)).
  { subst r2. case_match; simpl; repeat split; try done. }
  set (w2 := commit_if drop _ _ _). clearbody w2 drop r2. destruct H2 as (Hco2 & Hh2 & Hcu2).
  match goal with |- context [if ?b then (Picked (itemOf _ _), _) else _] =>
    destruct b eqn:Haff end; simpl.
  { intros Hne. rewrite !andb_true_iff, !negb_true_iff, !Z.eqb_neq in Haff.
    destruct Haff as (((((Hc0 & Hcx) & Hcs) & Hlt) & Hi0) & Hdis).
    destruct (itemOf_found _ _ Hi0) as [Hid Hin].
    destruct (Hcu2 Hc0) as [Hcur Hau]. split; [done|]. split; [done|]. split.
    - unfold candidate, itemExcluded. rewrite Hid, Hdis, Hcs.
      by rewrite (proj2 (Z.eqb_neq _ _) Hcx).
    - left. split; [by rewrite Hid|]. apply Haf. lia. }
  pose proof (fun i => scan_selected_in r2 exclude skipped now (passthroughOrderedItems group fmt) i) as Hsel.
  pose proof (fun i => scan_expired_in r2 exclude skipped now (passthroughOrderedItems group fmt) i) as Hexp.
  setoid_rewrite passthrough_in in Hsel. setoid_rewrite passthrough_in in Hexp.
  destruct (scan_items r2 exclude skipped now (passthroughOrderedItems group fmt)) as [expired [sel|]];
    simpl in *.
  - destruct (ensure_probes r2 group expired now _) as [[b r3] async]. simpl. intros _.
    destruct (Hsel sel eq_refl) as (? & ? & Hc). rewrite Hco2 in Hc. auto.
  - assert (Hbatch : forall item, item ∈ expired ->
      item ∈ g_Items group /\ candidate exclude skipped item = true /\ probe_ready r0 now item = true).
    { intros i Hi. destruct (Hexp i Hi) as (? & ? & Hrd). unfold probe_ready in *.
      rewrite Hco2, Hh2 in Hrd. auto. }
    destruct expired; simpl; auto.
Qed.

(** ** Batch recovery *)

Lemma collect_winner_in results :
  item_ID (collect_winner results) ≠ 0 -> exists b, (collect_winner results, b) ∈ results /\ b = true.
Proof.
  unfold collect_winner.
  enough (Hgen : forall acc,
    let win := foldl (fun winner res => if negb res.2 || negb (item_ID winner =? 0) then winner
                                        else res.1) acc results in
    item_ID win ≠ 0 -> win = acc \/ exists b, (win, b) ∈ results /\ b = true).
  { intros Hne. destruct (Hgen zero_item Hne) as [Hz|?]; [|done]. by rewrite Hz in Hne. }
  induction results as [|[item ok] results IH]; intros acc; simpl; intros Hne; [by left|].
  destruct (IH _ Hne) as [Heq|(b & Hin & Hb)].
  - destruct (negb ok || negb (item_ID acc =? 0)) eqn:Ht; [by left|].
    right. exists true. split; [|done]. rewrite Heq.
    apply orb_false_iff in Ht as [Hok _]. destruct ok; [|done]. by left.
  - right. exists b. split; [by right|done].
Qed.

Lemma recover_finish_item now group candidates winner ctxErr w :
  (recover_finish now group candidates winner ctxErr w).1 = zero_item \/
  (recover_finish now group candidates winner ctxErr w).1 = winner /\ item_ID winner ≠ 0.
Proof.
  unfold recover_finish. destruct (w_routes w !! g_ID group); [|by left].
  case_test (item_ID winner =? 0); simpl.
  - left. by case_match.
  - right. split; [done|lia].
Qed.

(** ** Emergency *)

Lemma claim_emergency_in r group exclude skipped now item o :
  claimEmergencyLocked r group exclude skipped now = (item, o) ->
  (item = zero_item /\ o = None) \/
  (item ∈ g_Items group /\ candidate exclude skipped item = true /\
   item_ID item = EmergencyItemID (g_RelayConfig group) /\ 0 < item_ID item /\
   (r_HalfOpens r).[item_ID item] <= 0 /\
   r_EmergencyActive r < emergencyMaxConcurrent /\
   o = Some (syncEmergencySummaryLocked (set_emergencyCounts
         (<[item_ID item := (r_emergencyCounts r).[item_ID item] + 1]> (r_emergencyCounts r)) r))).
Proof.
  unfold claimEmergencyLocked. set (id := EmergencyItemID (g_RelayConfig group)).
  case_match eqn:Hg; [intros [= <- <-]; by left|].
  rewrite !orb_false_iff in Hg. destruct Hg as (((Hpos & Hx) & Hs) & Hcap).
  case_match eqn:Hz; [intros [= <- <-]; by left|].
  case_match eqn:Hd; [intros [= <- <-]; by left|].
  case_match eqn:Hh; [intros [= <- <-]; by left|].
  case_match eqn:Hb; [intros [= <- <-]; by left|].
  intros [= <- <-]. right. apply Z.eqb_neq in Hz.
  destruct (itemOf_found _ _ Hz) as [Hid Hin]. rewrite Hid. split; [done|].
  split; [unfold candidate, itemExcluded; by rewrite Hid, Hx, Hs, Hd|].
  split; [done|]. split; [lia|]. split; [lia|]. split; [lia|done].
Qed.

Lemma claim_emergency_item_in now group exclude skipped w item w' :
  claimEmergencyItemSkipping now group exclude skipped w = (item, w') -> item_ID item ≠ 0 ->
  item ∈ g_Items group /\ candidate exclude skipped item = true /\
  item_ID item = EmergencyItemID (g_RelayConfig group).
Proof.
  unfold claimEmergencyItemSkipping. destruct (groupRouteLocked group w) as [r0 w0].
  destruct (claimEmergencyLocked r0 group exclude skipped now) as [i o] eqn:Hc.
  intros Heq Hne. assert (i = item) by (destruct o; congruence). subst i.
  destruct (claim_emergency_in _ _ _ _ _ _ _ Hc) as [[-> _]|(? & ? & ? & _)]; [done|auto].
Qed.

(** The probe outcomes of a batch are about members of that batch. *)
Definition results_of_batch (env : PickEnv) : Prop :=
  forall l res, res ∈ env_results env l -> res.1 ∈ l.

Lemma pick_cases env group exclude skipped fmt w item w' :
  pickGroupItemSkipping env group exclude skipped fmt w = (item, w') -> item_ID item ≠ 0 ->
  (g_Mode group = GroupModeManual /\ pick_manual group exclude skipped = item) \/
  (g_Mode group ≠ GroupModeManual /\
   ((pick_locked (env_now env) group exclude skipped fmt w).1 = Picked item \/
    (exists expired b,
       (pick_locked (env_now env) group exclude skipped fmt w).1 = RecoverBatch expired /\
       (item, b) ∈ env_results env expired /\ b = true) \/
    (exists w1, claimEmergencyItemSkipping (env_now_emergency env) group exclude skipped w1 = (item, w')))).
Proof.
  unfold pickGroupItemSkipping. intros Heq Hne.
  destruct (bool_decide (g_Mode group = GroupModeManual)) eqn:Hm.
  { left. apply bool_decide_eq_true in Hm. split; [done|congruence]. }
  right. apply bool_decide_eq_false in Hm. split; [done|].
  destruct (pick_locked (env_now env) group exclude skipped fmt w) as [[i|expired|] w1]; simpl.
  - left. congruence.
  - right. set (win := collect_winner (env_results env expired)) in *.
    pose proof (recover_finish_item (env_now_recover env) group expired win (env_ctxErr env) w1) as Hrf.
    destruct (recover_finish (env_now_recover env) group expired win (env_ctxErr env) w1) as [i w2].
    simpl in Hrf. case_test (item_ID i =? 0); simpl in Heq; [by right; eauto|].
    left. destruct Hrf as [->|[-> Hw]]; [done|]. injection Heq as <- <-.
    destruct (collect_winner_in _ Hw) as (b & Hin & Hb). eauto.
  - right. right. eauto.
Qed.

(** ** Reports, as equations *)

(** [cooldown_of] and [half_of] read the two breaker maps of a world. *)
Definition cooldown_of w (gid id : Z) : option Z :=
  w_routes w !! gid ≫= fun r => r_Cooldowns r !! id.
Definition half_of w (gid id : Z) : option Z :=
  w_routes w !! gid ≫= fun r => r_HalfOpens r !! id.
Definition level_of w (gid id : Z) : Z :=
  default 0 (w_routes w !! gid ≫= fun r => r_Levels r !! id).
Definition slots_of w (gid : Z) : gmap Z Z :=
  from_option r_emergencyCounts ∅ (w_routes w !! gid).

Lemma sync_frame r :
  r_Cooldowns (syncEmergencySummaryLocked r) = r_Cooldowns r /\
  r_HalfOpens (syncEmergencySummaryLocked r) = r_HalfOpens r /\
  r_Levels (syncEmergencySummaryLocked r) = r_Levels r /\
  r_PostCommitStrikes (syncEmergencySummaryLocked r) = r_PostCommitStrikes r /\
  r_emergencyCounts (syncEmergencySummaryLocked r) = r_emergencyCounts r /\
  r_emergencyBlocks (syncEmergencySummaryLocked r) = r_emergencyBlocks r /\
  r_ProbeItemID (syncEmergencySummaryLocked r) = r_ProbeItemID r /\
  r_CurrentItemID (syncEmergencySummaryLocked r) = r_CurrentItemID r.
Proof. unfold syncEmergencySummaryLocked. by case_ifs. Qed.

(** What [groupRouteLocked] leaves of a route. *)
Lemma clean_frame items r :
  r_Cooldowns (clean_route items r) = restrict_keys items (r_Cooldowns r) /\
  r_HalfOpens (clean_route items r) = restrict_keys items (r_HalfOpens r) /\
  r_Levels (clean_route items r) = restrict_keys items (r_Levels r) /\
  r_PostCommitStrikes (clean_route items r) = restrict_keys items (r_PostCommitStrikes r) /\
  r_emergencyCounts (clean_route items r) = restrict_keys items (r_emergencyCounts r) /\
  r_emergencyBlocks (clean_route items r) = restrict_keys items (r_emergencyBlocks r) /\
  r_ProbeItemID (clean_route items r) =
    (if bool_decide (r_ProbeItemID r ∈ items) then r_ProbeItemID r else 0).
Proof.
  unfold clean_route. match goal with |- context [syncEmergencySummaryLocked ?x] =>
    pose proof (sync_frame x) as Hs; revert Hs; generalize (syncEmergencySummaryLocked x) end.
  intros r'. simpl. intros (Hc & Hh & Hl & Hp & He & Hb & Hpr & _).
  rewrite Hpr. destruct (Z.eqb_spec (r_ProbeItemID r) 0) as [Hz|Hz]; simpl.
  - rewrite Hz. case_ifs; simpl; rewrite ?Hc, ?Hh, ?Hl, ?Hp, ?He, ?Hb, ?Hpr; repeat split; done.
  - destruct (bool_decide (r_ProbeItemID r ∈ items)); simpl;
      (match goal with |- context [if ?b then _ else _] => destruct b end; simpl;
       rewrite ?Hc, ?Hh, ?Hl, ?Hp, ?He, ?Hb, ?Hpr; repeat split; done).
Qed.

Lemma release_frame r id :
  r_Cooldowns (releaseEmergencyLocked r id).2 = r_Cooldowns r /\
  r_HalfOpens (releaseEmergencyLocked r id).2 = r_HalfOpens r /\
  r_Levels (releaseEmergencyLocked r id).2 = r_Levels r /\
  r_CurrentItemID (releaseEmergencyLocked r id).2 = r_CurrentItemID r.
Proof.
  unfold releaseEmergencyLocked. case_ifs; simpl; [done|..];
    match goal with |- context [syncEmergencySummaryLocked ?x] =>
      pose proof (sync_frame x) as (-> & -> & -> & _ & _ & _ & _ & ->) end; done.
Qed.

(** What releasing a slot does to the counters. *)
Lemma release_counts r id :
  counts_ok (r_emergencyCounts r) ->
  r_emergencyCounts (releaseEmergencyLocked r id).2 =
    (if (r_emergencyCounts r).[id] <=? 1 then delete id (r_emergencyCounts r)
     else <[id := (r_emergencyCounts r).[id] - 1]> (r_emergencyCounts r)).
Proof.
  intros Hok. unfold releaseEmergencyLocked. pose proof (counts_get _ id Hok) as Hge.
  case_test ((r_emergencyCounts r).[id] <=? 0); simpl.
  - destruct (r_emergencyCounts r !! id) as [n|] eqn:Hn; simpl in *.
    + pose proof (counts_pos _ Hok id n Hn). simpl in *. lia.
    + by rewrite delete_id.
  - match goal with |- context [syncEmergencySummaryLocked ?x] =>
      pose proof (sync_frame x) as (_ & _ & _ & _ & -> & _) end. simpl.
    case_test ((r_emergencyCounts r).[id] <=? 1).
    + rewrite (proj2 (Z.leb_le _ 0)) by lia. by rewrite delete_insert_eq.
    + by rewrite (proj2 (Z.leb_gt _ 0)) by lia.
Qed.

Lemma break_frame r id :
  r_Cooldowns (break_affinity r id) = r_Cooldowns r /\
  r_HalfOpens (break_affinity r id) = r_HalfOpens r /\
  r_Levels (break_affinity r id) = r_Levels r /\
  r_emergencyCounts (break_affinity r id) = r_emergencyCounts r /\
  (id ≠ 0 -> r_CurrentItemID (break_affinity r id) ≠ id).
Proof.
  unfold break_affinity. case_test (r_CurrentItemID r =? id); simpl; repeat split; try done; lia.
Qed.

Lemma commit_if_lookup b gid r w : w_routes (commit_if b gid r w) !! gid = Some r.
Proof. destruct b; simpl; apply lookup_insert_eq. Qed.

(** The limit of a failure report, by kind of error. *)
Definition failure_limit (config : GroupRelayConfig) (isInfra : bool) : Z :=
  Z.max (if isInfra then
           if MemberInfraMaxRetries config <=? 0 then MemberMaxAttempts config
           else MemberInfraMaxRetries config
         else MemberMaxAttempts config) 1.

Definition bump (isInfra : bool) (m : memberFailureCounts) : memberFailureCounts :=
  if isInfra then mkCounts (business m) (infra m + 1) else mkCounts (business m + 1) (infra m).
Definition failures_of (isInfra : bool) (m : memberFailureCounts) : Z :=
  if isInfra then infra m else business m.

Lemma failure_if_real_unfold now group itemID counts isInfra w :
  recordRouteFailureIfReal now group itemID counts isInfra w =
  let m := bump isInfra (default (mkCounts 0 0) (counts !! itemID)) in
  let res := recordRouteFailureWithLimit now group itemID (failures_of isInfra m)
               (failure_limit (g_RelayConfig group) isInfra) w in
  (res.1, <[itemID := m]> counts, res.2).
Proof.
  unfold recordRouteFailureIfReal, recordRouteFailure, failure_limit, bump, failures_of.
  assert (Hmax : forall f t, recordRouteFailureWithLimit now group itemID f (Z.max t 1) w =
                            recordRouteFailureWithLimit now group itemID f t w).
  { intros f t. unfold recordRouteFailureWithLimit.
    by replace (Z.max (Z.max t 1) 1) with (Z.max t 1) by lia. }
  destruct isInfra; simpl; rewrite Hmax; by destruct recordRouteFailureWithLimit.
Qed.

(** A report on a CLOSED or OPEN member. *)
Lemma failure_plain now group itemID failures threshold w r :
  g_Mode group = GroupModeFailover -> w_routes w !! g_ID group = Some r ->
  r_ProbeItemID r ≠ itemID -> (r_HalfOpens r).[itemID] <= 0 -> 1 <= threshold -> itemID ≠ 0 ->
  let res := recordRouteFailureWithLimit now group itemID failures threshold w in
  res.1 = (threshold <=? failures) /\
  cooldown_of res.2 (g_ID group) itemID =
    (if threshold <=? failures
     then Some (now + cooldownMillis (g_RelayConfig group) (r_Levels r).[itemID])
     else r_Cooldowns r !! itemID) /\
  exists r', w_routes res.2 !! g_ID group = Some r' /\
    (threshold <=? failures = true -> r_CurrentItemID r' ≠ itemID).
Proof.
  intros Hmode Hr Hp Hh Ht Hid. simpl. unfold recordRouteFailureWithLimit.
  rewrite bool_decide_false by (by rewrite Hmode). rewrite Hr.
  replace (Z.max threshold 1) with threshold by lia.
  rewrite (proj2 (Z.eqb_neq _ _) Hp), (proj2 (Z.ltb_ge _ _) Hh). simpl.
  destruct (Z.leb_spec threshold failures) as [Hle|Hlt].
  - rewrite (proj2 (Z.ltb_ge _ _) Hle).
    match goal with |- context [releaseEmergencyLocked ?x itemID] =>
      destruct (release_frame x itemID) as (Hc & _ & _ & Hcur);
      destruct (releaseEmergencyLocked x itemID) as [b r'] end.
    cbn [fst snd] in *. split; [done|].
    unfold cooldown_of. simpl. rewrite lookup_insert_eq. simpl.
    match type of Hc with _ = r_Cooldowns (break_affinity ?x _) =>
      destruct (break_frame x itemID) as (Hb & _ & _ & _ & Hbc) end.
    split; [rewrite Hc, Hb; case_match; simpl; apply lookup_insert_eq|].
    exists r'. split; [done|]. intros _. rewrite Hcur. by apply Hbc.
  - rewrite (proj2 (Z.ltb_lt _ _) Hlt).
    destruct (release_frame r itemID) as (Hc & _).
    destruct (releaseEmergencyLocked r itemID) as [b r']. simpl in *.
    split; [done|]. unfold cooldown_of. rewrite commit_if_lookup. simpl. rewrite Hc.
    split; [done|]. by exists r'.
Qed.

(** A report on a member whose probe is in flight. *)
Lemma failure_probed now group itemID failures threshold w r :
  g_Mode group = GroupModeFailover -> w_routes w !! g_ID group = Some r ->
  0 < (r_HalfOpens r).[itemID] -> 1 <= threshold ->
  let res := recordRouteFailureWithLimit now group itemID failures threshold w in
  res.1 = true /\ half_of res.2 (g_ID group) itemID = None /\
  (if threshold <=? failures
   then level_of res.2 (g_ID group) itemID = (r_Levels r).[itemID] + 1 /\
        cooldown_of res.2 (g_ID group) itemID =
          Some (now + cooldownMillis (g_RelayConfig group) ((r_Levels r).[itemID] + 1))
   else level_of res.2 (g_ID group) itemID = (r_Levels r).[itemID] /\
        cooldown_of res.2 (g_ID group) itemID = None).
Proof.
  intros Hmode Hr Hh Ht. simpl. unfold recordRouteFailureWithLimit.
  rewrite bool_decide_false by (by rewrite Hmode). rewrite Hr.
  replace (Z.max threshold 1) with threshold by lia.
  rewrite (proj2 (Z.ltb_lt _ _) Hh), orb_true_r.
  match goal with |- context [releaseEmergencyLocked ?x itemID] =>
    destruct (release_frame x itemID) as (Hc & Hho & Hl & _);
    destruct (releaseEmergencyLocked x itemID) as [b r'] end.
  cbn [fst snd] in *.
  match type of Hc with _ = r_Cooldowns (break_affinity ?x _) =>
    destruct (break_frame x itemID) as (Hb & Hbh & Hbl & _ & _) end.
  rewrite Hb in Hc. rewrite Hbh in Hho. rewrite Hbl in Hl. clear Hb Hbh Hbl.
  unfold half_of, level_of, cooldown_of. simpl. rewrite lookup_insert_eq. simpl.
  rewrite Hc, Hho, Hl. split; [done|].
  case_match; simpl; rewrite ?lookup_insert_eq, ?lookup_delete_eq; done.
Qed.

(** A selection that meets a running exclusive probe. *)
Lemma pick_probed now group exclude skipped fmt w r0 w0 :
  groupRouteLocked group w = (r0, w0) -> r_ProbeItemID r0 ≠ 0 ->
  pick_locked now group exclude skipped fmt w =
    (Picked zero_item,
     put_route (g_ID group) (if r_AffinityUntil r0 <=? now then set_AffinityUntil 0 r0 else r0) w0).
Proof.
  intros Hgr Hp. unfold pick_locked. rewrite Hgr.
  destruct (r_AffinityUntil r0 <=? now); cbn [r_ProbeItemID set_AffinityUntil];
    by rewrite (proj2 (Z.eqb_neq _ _) Hp).
Qed.

(** [groupRouteLocked] on a group that has a state. *)
Lemma group_route_found group w r :
  w_routes w !! g_ID group = Some r ->
  groupRouteLocked group w =
    (clean_route (item_ids group) r, put_route (g_ID group) (clean_route (item_ids group) r) w).
Proof. intros Hr. unfold groupRouteLocked. by rewrite Hr. Qed.
End props.
