(* ===== verification/RouteThms.v ===== *)
(** * The routing contracts

    The theorems about selection, reports, batch recovery, the emergency slots
    and the administrator's reset, with a run of each on a concrete group. *)

From S2P Require Import Prelude Hub Float64 GroupModel Protocol Backoff Route Demo RouteInv RouteProps.

Section recover.
Context `{dir : Directory} `{ord : !MapOrder Z}.
Implicit Types (r : RouteState) (w : World) (group : Group) (item : GroupItem).

(** ** Folds over the candidates of a batch *)

Lemma free_fold_spec (p : GroupItem -> bool) l r :
  let r' := foldl (fun r item => if p item then r
              else set_HalfOpens (delete (item_ID item) (r_HalfOpens r)) r) r l in
  r_Cooldowns r' = r_Cooldowns r /\ r_Levels r' = r_Levels r /\
  forall id, r_HalfOpens r' !! id =
    (if existsb (fun item => (item_ID item =? id) && negb (p item)) l then None
     else r_HalfOpens r !! id).
Proof.
  revert r. induction l as [|item l IH]; intros r; simpl; [done|].
  destruct (p item) eqn:Hp; simpl in *.
  - destruct (IH r) as (-> & -> & Hh). repeat split. intros id. rewrite Hh.
    by rewrite andb_false_r.
  - destruct (IH (set_HalfOpens (delete (item_ID item) (r_HalfOpens r)) r)) as (-> & -> & Hh).
    simpl in *. repeat split. intros id. rewrite Hh. rewrite lookup_delete.
    destruct (existsb _ l); [by rewrite orb_true_r|]. rewrite orb_false_r, andb_true_r.
    case_decide; [subst; by rewrite Z.eqb_refl|]. by rewrite (proj2 (Z.eqb_neq _ _)).
Qed.

Lemma reopen_fold_spec config now l r :
  NoDup (item_ID <$> l) ->
  let r' := foldl (fun r item => reopenItemLocked r config (item_ID item) now) r l in
  forall id,
    if decide (id ∈ item_ID <$> l)
    then r_HalfOpens r' !! id = None /\ (r_Levels r').[id] = (r_Levels r).[id] + 1 /\
         r_Cooldowns r' !! id = Some (now + cooldownMillis config ((r_Levels r).[id] + 1))
    else r_HalfOpens r' !! id = r_HalfOpens r !! id /\ r_Levels r' !! id = r_Levels r !! id /\
         r_Cooldowns r' !! id = r_Cooldowns r !! id.
Proof.
  revert r. induction l as [|item l IH]; intros r Hnd; cbn [foldl]; cbv zeta; intros id.
  { rewrite decide_False; [done|]. apply not_elem_of_nil. }
  rewrite fmap_cons in Hnd. apply NoDup_cons in Hnd as [Hnotin Hnd].
  specialize (IH (reopenItemLocked r config (item_ID item) now) Hnd id).
  destruct (decide (id = item_ID item)) as [->|Hne].
  - rewrite decide_False in IH by done. rewrite decide_True by (rewrite fmap_cons; by left).
    destruct IH as (-> & -> & ->). simpl.
    rewrite lookup_delete_eq, !lookup_insert_eq. done.
  - destruct (decide (id ∈ item_ID <$> l)) as [Hin|Hout]; simpl in IH;
      rewrite ?lookup_delete_ne, ?lookup_insert_ne in IH by done.
    + rewrite decide_True by (rewrite fmap_cons; by right). done.
    + rewrite decide_False by (rewrite fmap_cons, not_elem_of_cons; done). done.
Qed.

(** ** Emergency slots *)

(** The three ways a request reports on the member it holds. *)
Inductive report := ReportSuccess | ReportFailure (failures threshold : Z) | ReportRelease.

Definition apply_report (now : Z) group (itemID : Z) (rep : report) w : World :=
  match rep with
  | ReportSuccess => recordRouteSuccess now group itemID w
  | ReportFailure failures threshold =>
      (recordRouteFailureWithLimit now group itemID failures threshold w).2
  | ReportRelease => releaseRouteProbe group itemID w
  end.

(** One slot fewer for [id]. *)
Definition drop_slot (id : Z) (counts : gmap Z Z) : gmap Z Z :=
  if counts.[id] <=? 1 then delete id counts else <[id := counts.[id] - 1]> counts.

Lemma drop_claimed id counts :
  counts_ok counts -> drop_slot id (<[id := counts.[id] + 1]> counts) = counts.
Proof.
  intros Hok. unfold drop_slot. rewrite lookup_insert_eq. simpl.
  pose proof (counts_get counts id Hok).
  destruct (counts !! id) as [n|] eqn:Hn; simpl in *.
  - pose proof (counts_pos _ Hok id n Hn). simpl in *.
    rewrite (proj2 (Z.leb_gt _ 1)) by lia. rewrite insert_insert_eq.
    replace (n + 1 - 1) with n by lia. by apply insert_id.
  - by rewrite delete_insert_id.
Qed.

Lemma success_slots resets now group itemID w r :
  world_ok resets w -> g_Mode group = GroupModeFailover ->
  w_routes w !! g_ID group = Some r ->
  slots_of (recordRouteSuccess now group itemID w) (g_ID group) =
    drop_slot itemID (r_emergencyCounts r).
Proof.
  intros Hw Hmode Hr. destruct (lookup_ok _ _ _ _ Hw Hr) as [Hok _].
  pose proof (proj1 (ro_emergency _ _ Hok)) as Hc.
  unfold recordRouteSuccess. rewrite bool_decide_false by (by rewrite Hmode). rewrite Hr.
  set (p1 := if 0 <? (r_PostCommitStrikes r).[itemID] then _ else _).
  assert (H1 : r_emergencyCounts p1.2 = r_emergencyCounts r) by (subst p1; by case_ifs).
  clearbody p1. destruct p1 as [c1 r1]; simpl in *.
  set (p2 := if (r_ProbeItemID r1 =? itemID) || _ then _ else _).
  assert (H2 : r_emergencyCounts p2.2 = r_emergencyCounts r).
  { subst p2. by case_ifs. }
  clearbody p2. destruct p2 as [c2 r2]; simpl in *.
  pose proof (release_counts r2 itemID) as Hrel. rewrite H2 in Hrel. specialize (Hrel Hc).
  destruct (releaseEmergencyLocked r2 itemID) as [rel r3]; simpl in *.
  unfold emergencyHeldLocked. case_test (0 <? (r_emergencyCounts r).[itemID]).
  - unfold slots_of. rewrite commit_if_lookup. simpl. by rewrite Hrel.
  - assert (Hnone : r_emergencyCounts r !! itemID = None).
    { destruct (r_emergencyCounts r !! itemID) as [n|] eqn:Hn; [|done].
      pose proof (counts_pos _ Hc itemID n Hn). simpl in *. lia. }
    unfold drop_slot. rewrite Hnone. simpl. rewrite delete_id by done.
    destruct ((r_CurrentItemID r2 =? itemID) && r_affinityArmed r2);
      [destruct (0 <? MemberAffinitySeconds (g_RelayConfig group))|];
      unfold slots_of; rewrite commit_if_lookup; simpl; by rewrite H2.
Qed.

Lemma failure_slots resets now group itemID failures threshold w r :
  world_ok resets w -> g_Mode group = GroupModeFailover ->
  w_routes w !! g_ID group = Some r ->
  slots_of (recordRouteFailureWithLimit now group itemID failures threshold w).2 (g_ID group) =
    drop_slot itemID (r_emergencyCounts r).
Proof.
  intros Hw Hmode Hr. destruct (lookup_ok _ _ _ _ Hw Hr) as [Hok _].
  pose proof (proj1 (ro_emergency _ _ Hok)) as Hc.
  unfold recordRouteFailureWithLimit. rewrite bool_decide_false by (by rewrite Hmode). rewrite Hr.
  assert (Hend : forall b r', r_emergencyCounts r' = r_emergencyCounts r ->
    slots_of (commit_if b (g_ID group) (releaseEmergencyLocked r' itemID).2 w) (g_ID group) =
    drop_slot itemID (r_emergencyCounts r)).
  { intros b r' Heq. unfold slots_of. rewrite commit_if_lookup. simpl.
    rewrite release_counts by (by rewrite Heq). by rewrite Heq. }
  destruct ((r_ProbeItemID r =? itemID) || _); [|destruct (failures <? Z.max threshold 1)].
  - match goal with |- context [releaseEmergencyLocked ?x itemID] =>
      specialize (Hend true x); destruct (releaseEmergencyLocked x itemID) end.
    apply Hend. match goal with |- context [break_affinity ?x _] =>
      destruct (break_frame x itemID) as (_ & _ & _ & -> & _) end. by case_ifs.
  - match goal with |- context [releaseEmergencyLocked ?x itemID] =>
      pose proof (fun b => Hend b x) as Hend'; destruct (releaseEmergencyLocked x itemID) end.
    simpl. by apply Hend'.
  - match goal with |- context [releaseEmergencyLocked ?x itemID] =>
      specialize (Hend true x); destruct (releaseEmergencyLocked x itemID) end.
    apply Hend. match goal with |- context [break_affinity ?x _] =>
      destruct (break_frame x itemID) as (_ & _ & _ & -> & _) end. by case_ifs.
Qed.

Lemma release_slots resets group itemID w r :
  world_ok resets w -> w_routes w !! g_ID group = Some r ->
  slots_of (releaseRouteProbe group itemID w) (g_ID group) =
    drop_slot itemID (r_emergencyCounts r).
Proof.
  intros Hw Hr. destruct (lookup_ok _ _ _ _ Hw Hr) as [Hok _].
  pose proof (proj1 (ro_emergency _ _ Hok)) as Hc.
  unfold releaseRouteProbe. rewrite Hr.
  set (p1 := if (r_ProbeItemID r =? itemID) || _ then _ else _).
  assert (H1 : r_emergencyCounts p1.2 = r_emergencyCounts r) by (subst p1; by case_ifs).
  clearbody p1. destruct p1 as [c1 r1]; simpl in *.
  pose proof (release_counts r1 itemID) as Hrel. rewrite H1 in Hrel. specialize (Hrel Hc).
  destruct (releaseEmergencyLocked r1 itemID) as [rel r3]; simpl in *.
  unfold slots_of. rewrite commit_if_lookup. simpl. by rewrite Hrel.
Qed.

Lemma report_slots resets now group itemID rep w r :
  world_ok resets w -> g_Mode group = GroupModeFailover ->
  w_routes w !! g_ID group = Some r ->
  slots_of (apply_report now group itemID rep w) (g_ID group) =
    drop_slot itemID (r_emergencyCounts r).
Proof.
  destruct rep; simpl;
    eauto using success_slots, failure_slots, release_slots.
Qed.

(** Claiming adds exactly one slot to the counters of the cleaned state. *)
Lemma claim_slots now group exclude skipped w item w' :
  claimEmergencyItemSkipping now group exclude skipped w = (item, w') -> item_ID item ≠ 0 ->
  exists r, w_routes w' !! g_ID group = Some r /\
    let before := r_emergencyCounts (groupRouteLocked group w).1 in
    r_emergencyCounts r = <[item_ID item := before.[item_ID item] + 1]> before.
Proof.
  unfold claimEmergencyItemSkipping. destruct (groupRouteLocked group w) as [r0 w0].
  destruct (claimEmergencyLocked r0 group exclude skipped now) as [i o] eqn:Hcl.
  intros Heq Hne. assert (i = item) by (destruct o; congruence). subst i.
  destruct (claim_emergency_in _ _ _ _ _ _ _ Hcl) as [[-> _]|(_ & _ & _ & _ & _ & _ & ->)]; [done|].
  injection Heq as <-. simpl. rewrite lookup_insert_eq. eexists. split; [done|].
  match goal with |- context [syncEmergencySummaryLocked ?x] =>
    pose proof (sync_frame x) as (_ & _ & _ & _ & -> & _) end. done.
Qed.
End recover.

Section contracts.
Context `{dir : Directory} `{ord : !MapOrder Z}.
Implicit Types (r : RouteState) (w : World) (group : Group) (item : GroupItem).


(** C7: whatever the mode and the branch taken (affinity, first CLOSED member,
    batch recovery or emergency), the member a selection returns belongs to the
    group, is neither excluded nor skipped, and its channel is not disabled. *)
Theorem pick_sound env group exclude skipped fmt w item w' :
  0 <= env_now env -> results_of_batch env ->
  pickGroupItemSkipping env group exclude skipped fmt w = (item, w') -> item_ID item ≠ 0 ->
  item ∈ g_Items group /\ itemExcluded item exclude skipped = false /\
  channelDisabledForRouting item = false.
Proof.
  intros Hnow Hres Hpick Hne.
  enough (H : item ∈ g_Items group /\ candidate exclude skipped item = true).
  { destruct H as [Hin Hc]. unfold candidate in Hc. apply andb_true_iff in Hc as [Hx Hd].
    by rewrite negb_true_iff in Hx, Hd. }
  destruct (pick_cases _ _ _ _ _ _ _ _ Hpick Hne)
    as [[_ Hm]|[_ [Hp|[(expired & b & Hp & Hin & _)|[w1 Hc]]]]].
  - apply pick_manual_in in Hm as (? & ? & _); auto.
  - pose proof (pick_phase_spec (env_now env) group exclude skipped fmt w _ Hnow eq_refl) as Hs.
    rewrite Hp in Hs. destruct (Hs Hne) as (_ & ? & ? & _). auto.
  - pose proof (pick_phase_spec (env_now env) group exclude skipped fmt w _ Hnow eq_refl) as Hs.
    rewrite Hp in Hs. destruct Hs as [_ Hs].
    destruct (Hs item) as (? & ? & _); [|auto]. by apply (Hres expired (item, b)).
  - apply claim_emergency_item_in in Hc as (? & ? & _); auto.
Qed.

(** The scan of a failover group is its specification: the selected member
    is the first one, native members first, that is eligible and not in
    cooldown, and the members probed in the background are exactly the
    eligible ones in front of it whose cooldown has expired unprobed. *)
Theorem scan_first_closed r exclude skipped now group fmt :
  scan_items r exclude skipped now (passthroughOrderedItems group fmt) =
  (filter (fun i => candidate exclude skipped i && probe_ready r now i = true)
     (before_first (closed_candidate r exclude skipped) (passthroughOrderedItems group fmt)),
   selected_of (find_first (closed_candidate r exclude skipped)
                  (passthroughOrderedItems group fmt))) /\
  passthroughOrderedItems group fmt ≡ₚ g_Items group.
Proof. split; [apply scan_reference | apply passthrough_perm]. Qed.

(** A member whose cooldown has not expired is not returned by any
    failover selection, unless it is the group's emergency member or holds its
    affinity. *)
Theorem cooling_not_selected env group exclude skipped fmt w id deadline item w' :
  0 <= env_now env -> results_of_batch env -> g_Mode group = GroupModeFailover ->
  cooldown_of w (g_ID group) id = Some deadline -> env_now env < deadline ->
  id ∈ item_ids group ->
  ~ affine_to (groupRouteLocked group w).1 (env_now env) id ->
  EmergencyItemID (g_RelayConfig group) ≠ id ->
  pickGroupItemSkipping env group exclude skipped fmt w = (item, w') ->
  item_ID item ≠ 0 -> item_ID item ≠ id.
Proof.
  intros Hnow Hres Hmode Hcool Hlt Hid Haff Hem Hpick Hne <-.
  assert (Hc : r_Cooldowns (groupRouteLocked group w).1 !! item_ID item = Some deadline).
  { unfold cooldown_of in Hcool. unfold groupRouteLocked.
    destruct (w_routes w !! g_ID group) as [r|] eqn:Hr; [|done]. simpl in *.
    destruct (clean_frame (item_ids group) r) as (-> & _). by rewrite restrict_keys_lookup. }
  pose proof (pick_phase_spec (env_now env) group exclude skipped fmt w _ Hnow eq_refl) as Hs.
  destruct (pick_cases _ _ _ _ _ _ _ _ Hpick Hne)
    as [[Hm _]|[_ [Hp|[(expired & b & Hp & Hin & _)|[w1 Hcl]]]]].
  - rewrite Hmode in Hm. discriminate Hm.
  - rewrite Hp in Hs. destruct (Hs Hne) as (_ & _ & _ & [Ha|Ha]); [done|by rewrite Hc in Ha].
  - rewrite Hp in Hs. destruct Hs as [_ Hs].
    destruct (Hs item) as (_ & _ & Hrd); [by apply (Hres expired (item, b))|].
    unfold probe_ready in Hrd. rewrite Hc in Hrd.
    by rewrite (proj2 (Z.ltb_lt _ _) Hlt) in Hrd.
  - apply claim_emergency_item_in in Hcl as (_ & _ & Hem2); [by apply Hem|exact Hne].
Qed.


(** A failed attempt counts against its own kind of error only; the member
    is given up exactly when that count reaches the configured limit, and it is
    then in cooldown from now on and without affinity; below the limit its
    breaker does not move. *)
Theorem failure_threshold now group itemID counts isInfra w r :
  g_Mode group = GroupModeFailover -> w_routes w !! g_ID group = Some r ->
  r_ProbeItemID r ≠ itemID -> (r_HalfOpens r).[itemID] <= 0 -> itemID ≠ 0 ->
  let before := default (mkCounts 0 0) (counts !! itemID) in
  let limit := failure_limit (g_RelayConfig group) isInfra in
  let '(giveUp, counts', w') := recordRouteFailureIfReal now group itemID counts isInfra w in
  let after := default (mkCounts 0 0) (counts' !! itemID) in
  failures_of isInfra after = failures_of isInfra before + 1 /\
  failures_of (negb isInfra) after = failures_of (negb isInfra) before /\
  (giveUp = true <-> limit <= failures_of isInfra after) /\
  cooldown_of w' (g_ID group) itemID =
    (if giveUp then Some (now + cooldownMillis (g_RelayConfig group) (r_Levels r).[itemID])
     else r_Cooldowns r !! itemID).
Proof.
  intros Hmode Hr Hp Hh Hid. cbv zeta. rewrite failure_if_real_unfold. cbv zeta.
  set (m := bump isInfra _). set (limit := failure_limit _ _).
  assert (Hlim : 1 <= limit) by (unfold limit, failure_limit; lia).
  pose proof (failure_plain now group itemID (failures_of isInfra m) limit w r
                Hmode Hr Hp Hh Hlim Hid) as (Hres & Hcool & _).
  rewrite lookup_insert_eq. cbn [from_option id]. rewrite Hcool, Hres.
  subst m. unfold bump. repeat split; try by destruct isInfra.
  - intros Hle. by apply Z.leb_le.
  - intros Hle. by apply Z.leb_le.
Qed.

(** A failure reported by the request that probes a HALF-OPEN member always
    gives the member up: at the limit it reopens one back-off level higher,
    below the limit it closes, and in both cases the probe is over. *)
Theorem probe_failure now group itemID failures threshold w r :
  g_Mode group = GroupModeFailover -> w_routes w !! g_ID group = Some r ->
  0 < (r_HalfOpens r).[itemID] -> 1 <= threshold ->
  let res := recordRouteFailureWithLimit now group itemID failures threshold w in
  res.1 = true /\ half_of res.2 (g_ID group) itemID = None /\
  (if threshold <=? failures
   then level_of res.2 (g_ID group) itemID = (r_Levels r).[itemID] + 1 /\
        cooldown_of res.2 (g_ID group) itemID =
          Some (now + cooldownMillis (g_RelayConfig group) ((r_Levels r).[itemID] + 1))
   else level_of res.2 (g_ID group) itemID = (r_Levels r).[itemID] /\
        cooldown_of res.2 (g_ID group) itemID = None).
Proof. apply failure_probed. Qed.

(** The end of a concurrent batch probe.  With a winner, the winner alone
    stays HALF-OPEN and becomes the group's exclusive probe while every loser
    falls back to its cooldown; when the request is gone, every candidate falls
    back; otherwise every candidate reopens one level higher.  Members outside
    the batch do not move. *)
Theorem batch_recovery now group candidates winner ctxErr w r :
  NoDup (item_ID <$> candidates) -> w_routes w !! g_ID group = Some r ->
  let w' := (recover_finish now group candidates winner ctxErr w).2 in
  exists r', w_routes w' !! g_ID group = Some r' /\
  forall id,
    if decide (id ∈ item_ID <$> candidates) then
      if negb (item_ID winner =? 0) then
        r_ProbeItemID r' = item_ID winner /\ r_Cooldowns r' !! id = r_Cooldowns r !! id /\
        r_HalfOpens r' !! id = (if id =? item_ID winner then r_HalfOpens r !! id else None)
      else if ctxErr then
        r_Cooldowns r' !! id = r_Cooldowns r !! id /\ r_HalfOpens r' !! id = None
      else
        r_HalfOpens r' !! id = None /\ (r_Levels r').[id] = (r_Levels r).[id] + 1 /\
        r_Cooldowns r' !! id =
          Some (now + cooldownMillis (g_RelayConfig group) ((r_Levels r).[id] + 1))
    else r_Cooldowns r' !! id = r_Cooldowns r !! id /\
         r_HalfOpens r' !! id = r_HalfOpens r !! id /\ r_Levels r' !! id = r_Levels r !! id.
Proof.
  intros Hnd Hr. cbv zeta. unfold recover_finish. rewrite Hr.
  assert (Hex : forall (p : GroupItem -> bool) id,
    (forall item, item_ID item = id -> p item = (item_ID item =? item_ID winner)) \/
    (forall item, p item = false) ->
    existsb (fun item => (item_ID item =? id) && negb (p item)) candidates = true <->
    id ∈ item_ID <$> candidates /\ exists item, item ∈ candidates /\ item_ID item = id /\ p item = false).
  { intros p id _. rewrite existsb_exists. split.
    - intros (x & Hx & Ht). apply list_elem_of_In in Hx.
      apply andb_true_iff in Ht as [Heq Hp]. apply Z.eqb_eq in Heq. apply negb_true_iff in Hp.
      split; [|eauto]. rewrite <- Heq. by apply list_elem_of_fmap_2.
    - intros (_ & x & Hx & Heq & Hp). exists x. split; [by apply list_elem_of_In|].
      by rewrite Heq, Z.eqb_refl, Hp. }
  destruct (negb (item_ID winner =? 0)) eqn:Hw; [|destruct ctxErr]; simpl;
    rewrite lookup_insert_eq; eexists; (split; [done|]); intros id.
  - destruct (free_fold_spec (fun item => item_ID item =? item_ID winner) candidates r)
      as (Hc & Hl & Hh). simpl. rewrite Hc, Hl, Hh.
    destruct (existsb _ candidates) eqn:He.
    + apply Hex in He as [Hin (x & _ & Hx & Hpx)]; [|by left].
      rewrite decide_True by done. rewrite Hx in Hpx. by rewrite Hpx.
    + case_decide as Hin; [|done]. apply list_elem_of_fmap in Hin as (x & Hx & Hin).
      destruct (Z.eqb_spec id (item_ID winner)) as [|Hne]; [done|]. exfalso.
      apply (eq_true_false_abs _) with (2 := He). apply Hex; [by left|].
      split; [rewrite Hx; by apply list_elem_of_fmap_2|].
      exists x. split; [done|]. split; [done|]. rewrite <- Hx. by apply Z.eqb_neq.
  - destruct (free_fold_spec (fun _ => false) candidates r) as (Hc & Hl & Hh).
    rewrite Hc, Hl, Hh.
    destruct (existsb _ candidates) eqn:He.
    + apply Hex in He as [Hin _]; [|by right]. by rewrite decide_True.
    + case_decide as Hin; [|done]. exfalso.
      apply list_elem_of_fmap in Hin as (x & Hx & Hin).
      apply (eq_true_false_abs _) with (2 := He). apply Hex; [by right|].
      split; [rewrite Hx; by apply list_elem_of_fmap_2|]. eauto.
  - pose proof (reopen_fold_spec (g_RelayConfig group) now candidates r Hnd id) as Hs.
    cbv zeta in Hs. case_decide; [done|]. destruct Hs as (? & ? & ?). done.
Qed.

(** An emergency slot is held exactly for the duration of a request: after
    any reachable history, claiming the emergency member and then reporting
    success, failure or release restores the counters of before the claim. *)
Theorem emergency_slot_roundtrip resets now now' group exclude skipped w item w1 rep :
  route_reachable resets w -> g_Mode group = GroupModeFailover ->
  claimEmergencyItemSkipping now group exclude skipped w = (item, w1) -> item_ID item ≠ 0 ->
  slots_of (apply_report now' group (item_ID item) rep w1) (g_ID group) =
    restrict_keys (item_ids group) (slots_of w (g_ID group)).
Proof.
  intros Hreach Hmode Hcl Hne. apply reachable_ok in Hreach as Hw.
  assert (Hw1 : world_ok resets w1).
  { replace w1 with (claimEmergencyItemSkipping now group exclude skipped w).2
      by (by rewrite Hcl). by apply emergency_claim_ok. }
  destruct (claim_slots _ _ _ _ _ _ _ Hcl Hne) as (r & Hr & Hcounts).
  rewrite (report_slots resets now' group (item_ID item) rep w1 r Hw1 Hmode Hr), Hcounts.
  destruct (groupRouteLocked group w) as [r0 w0] eqn:Hgr.
  destruct (group_route_ok _ _ _ _ _ Hgr Hw) as (Hr0 & _ & _). cbn [fst].
  rewrite drop_claimed by apply Hr0.
  unfold groupRouteLocked in Hgr. injection Hgr as <- _.
  unfold slots_of. destruct (w_routes w !! g_ID group) as [r'|]; cbn [from_option].
  - apply clean_frame.
  - by destruct (clean_frame (item_ids group) (new_route (g_ID group))) as (_ & _ & _ & _ & -> & _).
Qed.

(** The administrator's reset closes every breaker of the group and clears
    its back-off levels, strikes and emergency blocks; running probes and
    emergency slots survive, no other group is touched, and the group is no
    longer reported as entirely in cooldown. *)
Theorem reset_closes now group w r :
  w_routes w !! g_ID group = Some r ->
  let w' := (ResetGroupCooldown (g_ID group) w).2 in
  (forall id, cooldown_of w' (g_ID group) id = None /\ level_of w' (g_ID group) id = 0 /\
     half_of w' (g_ID group) id = r_HalfOpens r !! id) /\
  slots_of w' (g_ID group) = r_emergencyCounts r /\
  (forall r', w_routes w' !! g_ID group = Some r' ->
     r_PostCommitStrikes r' = ∅ /\ r_emergencyBlocks r' = ∅) /\
  (forall gid, gid ≠ g_ID group -> w_routes w' !! gid = w_routes w !! gid) /\
  allMembersInCooldown now group w' = false.
Proof.
  intros Hr. cbv zeta. unfold ResetGroupCooldown. rewrite Hr. cbn [snd].
  match goal with |- context [syncEmergencySummaryLocked ?x] =>
    pose proof (sync_frame x) as (Hc & Hh & Hl & Hs & He & Hb & _);
    revert Hc Hh Hl Hs He Hb; generalize (syncEmergencySummaryLocked x) end.
  intros r' Hc Hh Hl Hs He Hb. simpl in Hc, Hh, Hl, Hs, He, Hb.
  unfold cooldown_of, level_of, half_of, slots_of, allMembersInCooldown.
  cbn [commit publishRouteLocked put_route set_w_routes set_w_hub w_routes].
  rewrite lookup_insert_eq. cbn [mbind option_bind from_option].
  rewrite Hh, He. split.
  { intros id. by rewrite Hc, Hl, !lookup_empty. }
  split; [done|]. split; [intros ? [= <-]; done|].
  split; [intros gid Hne; by rewrite lookup_insert_ne|].
  destruct (_ || _); [done|]. induction (g_Items group) as [|i l IH]; [done|].
  destruct (channelDisabledForRouting i); [exact IH|]. by rewrite Hc, lookup_empty.
Qed.
End contracts.

(** ** Witnesses *)

(** Both usable members in cooldown, then an emergency claim of member 12. *)
Definition demo_both : World :=
  (recordRouteFailureWithLimit 2500 demo_group 12 2 2 demo_cooled).2.
Definition demo_claimed : World :=
  (claimEmergencyItemSkipping 3000 demo_group 0 ∅ demo_both).2.

Lemma demo_both_reachable : route_reachable false demo_both.
Proof.
  apply (rtc_l _ world_init demo_picked); [|apply (rtc_l _ demo_picked demo_cooled);
    [|apply (rtc_l _ demo_cooled demo_both); [|apply rtc_refl]]].
  - exists 1000. split; [lia|]. unfold demo_picked. apply step_pick.
  - exists 2000. split; [lia|]. unfold demo_cooled. generalize demo_picked.
    intros w. apply step_failure.
  - exists 2500. split; [lia|]. unfold demo_both. generalize demo_cooled.
    intros w. apply step_failure.
Qed.

Lemma demo_claimed_reachable : route_reachable false demo_claimed.
Proof.
  apply (rtc_r _ demo_both demo_claimed); [exact demo_both_reachable|].
  exists 3000. split; [lia|]. unfold demo_claimed. generalize demo_both.
  intros w. apply step_emergency.
Qed.

Definition demo_env : PickEnv :=
  mkPickEnv 3000 3000 3000 (fun l => (fun i => (i, true)) <$> l) false.

Lemma demo_env_results : results_of_batch demo_env.
Proof.
  intros l [i b] Hin. cbn [env_results demo_env] in Hin.
  apply list_elem_of_fmap in Hin as (x & [= -> _] & Hx). exact Hx.
Qed.

Definition demo_route (w : World) : RouteState := default (new_route 7) (w_routes w !! 7).


(** The batch of the second member: picked although the first one is cooling. *)
Lemma pick_sound_witness :
  let p := pickGroupItemSkipping demo_env demo_group 0 ∅ None demo_cooled in
  item_ID p.1 = 12 /\
  (p.1 ∈ g_Items demo_group /\ itemExcluded p.1 0 ∅ = false /\
   channelDisabledForRouting p.1 = false).
Proof.
  cbv zeta. split; [vm_compute; reflexivity|].
  apply (pick_sound demo_env demo_group 0 ∅ None demo_cooled _
    (pickGroupItemSkipping demo_env demo_group 0 ∅ None demo_cooled).2).
  - vm_compute. discriminate.
  - exact demo_env_results.
  - apply surjective_pairing.
  - vm_compute. discriminate.
Defined.

Lemma cooling_not_selected_witness :
  cooldown_of demo_cooled 7 11 = Some 62000 /\
  item_ID (pickGroupItemSkipping demo_env demo_group 0 ∅ None demo_cooled).1 ≠ 11.
Proof.
  split; [vm_compute; reflexivity|].
  apply (cooling_not_selected demo_env demo_group 0 ∅ None demo_cooled 11 62000 _
    (pickGroupItemSkipping demo_env demo_group 0 ∅ None demo_cooled).2).
  - vm_compute. discriminate.
  - exact demo_env_results.
  - reflexivity.
  - vm_compute. reflexivity.
  - vm_compute. reflexivity.
  - apply (bool_decide_eq_true_1 (11 ∈ item_ids demo_group)). vm_compute. reflexivity.
  - intros [_ Haff]. revert Haff. vm_compute. discriminate.
  - vm_compute. discriminate.
  - apply surjective_pairing.
  - vm_compute. discriminate.
Defined.

(** Past its deadline, member 11 is probed alone and wins. *)
Definition demo_only : Group :=
  mkGroup 7 "g" GroupModeFailover 0 (demo_config 0) [demo_item 11 1 0].
Definition demo_probing : World :=
  (pick_locked 70000 demo_only 0 ∅ None demo_cooled).2.
Definition demo_winner : World :=
  (recover_finish 70500 demo_only [demo_item 11 1 0] (demo_item 11 1 0) false demo_probing).2.


(** The second business failure of member 11 gives it up. *)
Lemma failure_threshold_witness :
  let res := recordRouteFailureIfReal 2000 demo_group 11 {[11 := mkCounts 1 0]} false demo_picked in
  res.1.1 = true /\ cooldown_of res.2 7 11 = Some 62000.
Proof.
  cbv zeta. split; [vm_compute; reflexivity|].
  pose proof (failure_threshold 2000 demo_group 11 {[11 := mkCounts 1 0]} false demo_picked
    (demo_route demo_picked) ltac:(reflexivity) ltac:(vm_compute; reflexivity)
    ltac:(vm_compute; discriminate) ltac:(vm_compute; discriminate) ltac:(discriminate)) as H.
  revert H. cbv zeta.
  destruct (recordRouteFailureIfReal 2000 demo_group 11 {[11 := mkCounts 1 0]} false demo_picked)
    as [[giveUp counts'] w'] eqn:Heq.
  assert (Hg : giveUp = true).
  { change giveUp with (giveUp, counts', w').1.1. rewrite <- Heq. vm_compute. reflexivity. }
  rewrite Hg. intros (_ & _ & _ & Hc). cbn [snd]. etrans; [exact Hc|]. vm_compute. reflexivity.
Defined.

Lemma probe_failure_witness :
  half_of demo_probing 7 11 = Some 70000 /\
  cooldown_of (recordRouteFailureWithLimit 71000 demo_only 11 2 2 demo_probing).2 7 11 = Some 191000.
Proof.
  split; [vm_compute; reflexivity|].
  destruct (probe_failure 71000 demo_only 11 2 2 demo_probing (demo_route demo_probing))
    as (_ & _ & _ & Hc).
  - reflexivity.
  - vm_compute. reflexivity.
  - vm_compute. reflexivity.
  - lia.
  - etrans; [exact Hc|]. vm_compute. reflexivity.
Defined.

Lemma batch_recovery_witness :
  exists r', w_routes demo_winner !! 7 = Some r' /\ r_ProbeItemID r' = 11.
Proof.
  destruct (batch_recovery 70500 demo_only [demo_item 11 1 0] (demo_item 11 1 0) false demo_probing
    (demo_route demo_probing)) as (r' & Hr' & H).
  - apply (bool_decide_eq_true_1 (NoDup (item_ID <$> [demo_item 11 1 0]))). vm_compute. reflexivity.
  - vm_compute. reflexivity.
  - exists r'. split; [exact Hr'|]. specialize (H 11). destruct (decide _) as [_|Hn].
    + destruct H as [Hp _]. exact Hp.
    + destruct Hn. by left.
Defined.

Lemma emergency_slot_roundtrip_witness :
  slots_of demo_claimed 7 = {[12 := 1]} /\
  slots_of (apply_report 4000 demo_group 12 (ReportFailure 1 2) demo_claimed) 7 =
    restrict_keys (item_ids demo_group) (slots_of demo_both 7).
Proof.
  split; [vm_compute; reflexivity|].
  apply (emergency_slot_roundtrip false 3000 4000 demo_group 0 ∅ demo_both (demo_item 12 2 1)
    demo_claimed (ReportFailure 1 2)).
  - exact demo_both_reachable.
  - reflexivity.
  - vm_compute. reflexivity.
  - discriminate.
Defined.

Lemma reset_closes_witness :
  cooldown_of demo_both 7 11 = Some 62000 /\
  cooldown_of (ResetGroupCooldown 7 demo_both).2 7 11 = None.
Proof.
  split; [vm_compute; reflexivity|].
  destruct (reset_closes 3000 demo_group demo_both (demo_route demo_both)) as [H _].
  - vm_compute. reflexivity.
  - apply H.
Defined.
