(* ===== verification/Sticky.v ===== *)
(** * Session stickiness

    relay/sticky.go: the table that pins a client session to a member, shared
    with the routing state under [routeMu], with its two size limits. *)

From Stdlib Require Import Ascii.
From stdpp Require Import pretty.
From S2P Require Import Prelude Hub Float64 GroupModel Protocol Backoff Route Demo.

Definition maxSessionStickiesPerGroup : Z := 4096.
Definition maxSessionStickiesTotal : Z := 16384.
Definition maxSessionKeyBytes : Z := 256.
Definition maxStickyKeyBytes : Z := 512.
Definition consoleSessionPrefix : string := "console:".
Definition stickyPruneInterval : Z := 60000.

(** [len] of a Go string: bytes. *)
Definition slen (s : string) : Z := Z.of_nat (String.length s).

(** [strconv.Itoa] of a positive number. *)
Definition itoa_pos (n : Z) : string := pretty (Z.to_N n).

Definition sessionScopeKey (apiKeyID : Z) (sessionKey : string) : string :=
  if bool_decide (sessionKey = "") || (maxSessionKeyBytes <? slen sessionKey) then ""
  else if 0 <? apiKeyID then (itoa_pos apiKeyID +:+ ":" +:+ sessionKey)
  else (consoleSessionPrefix +:+ sessionKey).

Definition sessionStickyEnabled (group : Group) (sessionKey : string) : bool :=
  bool_decide (g_Mode group = GroupModeFailover) &&
  SessionStickyEnabled (g_RelayConfig group) && negb (bool_decide (sessionKey = "")).

(** The table: group, then session. *)
Notation Stickies := (gmap Z (gmap string stickyEntry)).

(** Writing a session map back; an emptied one loses its outer entry. *)
Definition put_sessions (gid : Z) (sessions : gmap string stickyEntry) (st : Stickies) : Stickies :=
  if decide (sessions = ∅) then delete gid st else <[gid := sessions]> st.

Definition zsize {V} (m : gmap string V) : Z := Z.of_nat (size m).

Definition sessionStickyTotalLocked (st : Stickies) : Z :=
  map_sum (zsize <$> st).

Definition stickyFullLocked (gid : Z) (st : Stickies) : bool :=
  match st !! gid with
  | Some sessions => maxSessionStickiesPerGroup <=? zsize sessions
  | None => false
  end || (maxSessionStickiesTotal <=? sessionStickyTotalLocked st).

(** [for key, entry := range sessions { if expired(entry) { delete } }]. *)
Definition drop_entries (dead : stickyEntry -> bool) (sessions : gmap string stickyEntry)
  : gmap string stickyEntry :=
  filter (fun kv => dead kv.2 = false) sessions.

Definition expired (now : Z) (e : stickyEntry) : bool := se_ExpireAtUnixMilli e <=? now.

Definition pruneAllSessionStickiesLocked (now : Z) (st : Stickies) : Stickies :=
  omap (fun sessions =>
          let sessions := drop_entries (expired now) sessions in
          if decide (sessions = ∅) then None else Some sessions) st.

Definition pruneSessionStickyLocked (now : Z) (group : Group) (st : Stickies) : Stickies :=
  match st !! g_ID group with
  | None => st
  | Some sessions =>
      put_sessions (g_ID group)
        (drop_entries (fun e => expired now e || negb (bool_decide (se_ItemID e ∈ item_ids group)))
           sessions) st
  end.

Section sticky.
Context `{dir : Directory}.
Implicit Types (w : World) (group : Group).

Definition pickSessionStickyLocked (now : Z) group (sessionKey : string) (exclude : Z)
    (skipped : gset Z) w : GroupItem * World :=
  match w_stickies w !! g_ID group ≫= fun s => s !! sessionKey with
  | None => (zero_item, w)
  | Some entry =>
      let item := itemOf group (se_ItemID entry) in
      let valid := (now <? se_ExpireAtUnixMilli entry) && negb (item_ID item =? 0)
                   && negb (itemExcluded item exclude skipped) in
      let cooling :=
        match w_routes w !! g_ID group ≫= fun r => r_Cooldowns r !! item_ID item with
        | Some deadline => now <? deadline
        | None => false
        end in
      if valid && negb cooling && negb (channelDisabledForRouting item) then (item, w)
      else
        let sessions := default ∅ (w_stickies w !! g_ID group) in
        (zero_item, set_w_stickies
           (put_sessions (g_ID group) (delete sessionKey sessions) (w_stickies w)) w)
  end.

(** The clock is read once by [bindSessionSticky] and once by each
    [pruneSessionStickyLocked] it calls. *)
Definition bindSessionSticky (now now1 now2 : Z) group (sessionKey : string) (itemID : Z) w : World :=
  if bool_decide (sessionKey = "") || (itemID =? 0)
     || (SessionStickySeconds (g_RelayConfig group) <? 1)
     || (maxStickyKeyBytes <? slen sessionKey)
  then w
  else
    let w :=
      if stickyPruneInterval <=? now - w_stickyLastPrune w
      then set_w_stickies (pruneSessionStickyLocked now1 group (w_stickies w))
             (set_w_stickyLastPrune now w)
      else w in
    let known st := is_some (st !! g_ID group ≫= fun s : gmap string stickyEntry => s !! sessionKey) in
    let full st := negb (known st) && stickyFullLocked (g_ID group) st in
    let bind st : Stickies :=
      <[g_ID group :=
          <[sessionKey := mkSticky itemID (now + SessionStickySeconds (g_RelayConfig group) * 1000)]>
            (default ∅ (st !! g_ID group))]> st in
    if full (w_stickies w) then
      let st := pruneAllSessionStickiesLocked now (pruneSessionStickyLocked now2 group (w_stickies w)) in
      if full st then set_w_stickies st w else set_w_stickies (bind st) w
    else set_w_stickies (bind (w_stickies w)) w.

Definition clearSessionStickyByItem (groupID itemID : Z) w : World :=
  match w_stickies w !! groupID with
  | None => w
  | Some sessions =>
      set_w_stickies
        (put_sessions groupID (drop_entries (fun e => se_ItemID e =? itemID) sessions)
           (w_stickies w)) w
  end.

Definition clearSessionStickyByGroup (groupID : Z) w : World :=
  set_w_stickies (delete groupID (w_stickies w)) w.

(** The result counts the removed entries. *)
Definition PruneExpiredSessionStickies (now : Z) w : Z * World :=
  let st := pruneAllSessionStickiesLocked now (w_stickies w) in
  (sessionStickyTotalLocked (w_stickies w) - sessionStickyTotalLocked st, set_w_stickies st w).

(** ** Table invariant *)

Record stickies_ok (st : Stickies) : Prop := {
  so_group : map_Forall (fun _ s => s ≠ ∅ /\ zsize s <= maxSessionStickiesPerGroup) st;
  so_entry : map_Forall (fun _ s => map_Forall
               (fun key e => slen key <= maxStickyKeyBytes /\ key ≠ "" /\ se_ItemID e ≠ 0) s) st;
  so_total : sessionStickyTotalLocked st <= maxSessionStickiesTotal;
}.

Lemma zsize_nonneg {V} (m : gmap string V) : 0 <= zsize m.
Proof. unfold zsize. lia. Qed.

Lemma zsize_empty {V} : zsize (∅ : gmap string V) = 0.
Proof. unfold zsize. by rewrite map_size_empty. Qed.

Lemma zsize_filter (dead : stickyEntry -> bool) s : zsize (drop_entries dead s) <= zsize s.
Proof.
  unfold zsize, drop_entries. apply inj_le.
  rewrite <- !size_dom. apply subseteq_size, dom_filter_subseteq.
Qed.

Lemma total_put st gid s :
  sessionStickyTotalLocked (<[gid := s]> st) =
  zsize s - zsize (default ∅ (st !! gid)) + sessionStickyTotalLocked st.
Proof.
  unfold sessionStickyTotalLocked. rewrite fmap_insert, map_sum_insert, lookup_fmap.
  by destruct (st !! gid).
Qed.

Lemma total_delete st gid :
  sessionStickyTotalLocked (delete gid st) =
  sessionStickyTotalLocked st - zsize (default ∅ (st !! gid)).
Proof.
  unfold sessionStickyTotalLocked. rewrite fmap_delete.
  pose proof (map_sum_delete (zsize <$> st) gid) as H. rewrite lookup_fmap in H.
  destruct (st !! gid); simpl in *; unfold zsize in *; rewrite ?map_size_empty; simpl; lia.
Qed.

(** Replacing one session map by a smaller one. *)
Lemma put_smaller_ok st gid s s' :
  stickies_ok st -> st !! gid = Some s -> s' ⊆ s -> stickies_ok (put_sessions gid s' st).
Proof.
  intros [Hg He Ht] Hs Hsub.
  assert (Hz : zsize s' <= zsize s).
  { unfold zsize. apply inj_le. rewrite <- !size_dom. by apply subseteq_size, subseteq_dom. }
  unfold put_sessions. case_decide as Hempty; split.
  - by apply map_Forall_delete.
  - by apply map_Forall_delete.
  - rewrite total_delete. pose proof (zsize_nonneg (default ∅ (st !! gid))). lia.
  - apply map_Forall_insert_2; [|done]. split; [done|]. destruct (Hg gid s Hs). lia.
  - apply map_Forall_insert_2; [|done]. intros k e Hk. apply (He gid s Hs k e).
    by eapply lookup_weaken.
  - rewrite total_put, Hs. simpl. lia.
Qed.

Lemma drop_sub dead s : drop_entries dead s ⊆ s.
Proof. apply map_filter_subseteq. Qed.

Lemma prune_all_lookup now st gid s' :
  pruneAllSessionStickiesLocked now st !! gid = Some s' <->
  exists s, st !! gid = Some s /\ s' = drop_entries (expired now) s /\ s' ≠ ∅.
Proof.
  unfold pruneAllSessionStickiesLocked. rewrite lookup_omap_Some.
  split; intros (s & H1 & H2).
  - case_decide; [done|]. injection H1 as <-. eauto.
  - destruct H2 as [-> Hne]. exists s. by rewrite decide_False.
Qed.

Lemma total_prune_all now st :
  sessionStickyTotalLocked (pruneAllSessionStickiesLocked now st) <= sessionStickyTotalLocked st.
Proof.
  unfold pruneAllSessionStickiesLocked.
  induction st as [|gid s st Hg IH] using map_ind; [by rewrite omap_empty|].
  rewrite (total_put st gid s), Hg. cbn [from_option]. rewrite zsize_empty.
  rewrite omap_insert. pose proof (zsize_filter (expired now) s) as Hf.
  pose proof (zsize_nonneg s) as Hs.
  case_decide; [rewrite total_delete|rewrite total_put];
    rewrite lookup_omap, Hg; cbn [mbind option_bind from_option]; rewrite zsize_empty; lia.
Qed.

Lemma prune_all_ok now st : stickies_ok st -> stickies_ok (pruneAllSessionStickiesLocked now st).
Proof.
  intros [Hg He Ht]. split.
  - intros gid s' Hs'. apply prune_all_lookup in Hs' as (s & Hs & -> & Hne).
    split; [done|]. destruct (Hg gid s Hs). pose proof (zsize_filter (expired now) s). lia.
  - intros gid s' Hs'. apply prune_all_lookup in Hs' as (s & Hs & -> & Hne).
    intros k e Hk. apply (He gid s Hs k e). by apply (lookup_weaken _ _ _ _ Hk), drop_sub.
  - pose proof (total_prune_all now st). lia.
Qed.

Lemma prune_group_ok now group st :
  stickies_ok st -> stickies_ok (pruneSessionStickyLocked now group st).
Proof.
  intros Hok. unfold pruneSessionStickyLocked. destruct (st !! g_ID group) as [s|] eqn:Hs; [|done].
  eapply put_smaller_ok; [done|exact Hs|apply drop_sub].
Qed.

(** Writing one entry when it exists already or the table is not full. *)
Lemma bind_entry_ok st gid key e :
  stickies_ok st -> key ≠ "" -> slen key <= maxStickyKeyBytes -> se_ItemID e ≠ 0 ->
  negb (is_some (st !! gid ≫= fun s : gmap string stickyEntry => s !! key))
    && stickyFullLocked gid st = false ->
  stickies_ok (<[gid := <[key := e]> (default ∅ (st !! gid))]> st).
Proof.
  intros [Hg He Ht] Hk Hlen Hit Hfull.
  set (s := default ∅ (st !! gid)).
  assert (Hs : zsize s <= maxSessionStickiesPerGroup).
  { subst s. destruct (st !! gid) as [s|] eqn:Hs; simpl; [by apply (Hg gid s)|].
    unfold zsize. rewrite map_size_empty. unfold maxSessionStickiesPerGroup. lia. }
  assert (Hsz : zsize (<[key := e]> s) = zsize s + (if is_some (s !! key) then 0 else 1)).
  { unfold zsize. rewrite map_size_insert. destruct (s !! key); simpl; lia. }
  assert (Hroom : zsize (<[key := e]> s) <= maxSessionStickiesPerGroup /\
    zsize (<[key := e]> s) - zsize s + sessionStickyTotalLocked st <= maxSessionStickiesTotal).
  { rewrite Hsz. unfold stickyFullLocked in Hfull. subst s.
    destruct (st !! gid) as [s|] eqn:Hgid; simpl in *.
    - destruct (s !! key); simpl in *; [lia|]. apply orb_false_iff in Hfull. lia.
    - rewrite lookup_empty in *. simpl in *. unfold zsize in *. rewrite map_size_empty in *.
      unfold maxSessionStickiesPerGroup in *. lia. }
  split.
  - apply map_Forall_insert_2; [|done]. split; [apply insert_non_empty | lia].
  - apply map_Forall_insert_2; [|done]. apply map_Forall_insert_2; [done|].
    subst s. destruct (st !! gid) as [s|] eqn:Hgid; simpl; [by apply (He gid s)|].
    apply map_Forall_empty.
  - rewrite total_put. fold s. lia.
Qed.

(** ** Steps *)

Inductive sticky_step (now : Z) : World -> World -> Prop :=
| sticky_pick group key exclude skipped w :
    sticky_step now w (pickSessionStickyLocked now group key exclude skipped w).2
| sticky_bind now1 now2 group key itemID w :
    sticky_step now w (bindSessionSticky now now1 now2 group key itemID w)
| sticky_clear_item gid itemID w : sticky_step now w (clearSessionStickyByItem gid itemID w)
| sticky_clear_group gid w : sticky_step now w (clearSessionStickyByGroup gid w)
| sticky_prune w : sticky_step now w (PruneExpiredSessionStickies now w).2
| sticky_remove gid w : sticky_step now w (RemoveGroupRoute gid w).

Lemma delete_group_ok st gid : stickies_ok st -> stickies_ok (delete gid st).
Proof.
  intros [Hg He Ht]. split; try by apply map_Forall_delete.
  rewrite total_delete. pose proof (zsize_nonneg (default ∅ (st !! gid))). lia.
Qed.

Lemma bind_ok now now1 now2 group key itemID w :
  stickies_ok (w_stickies w) ->
  stickies_ok (w_stickies (bindSessionSticky now now1 now2 group key itemID w)).
Proof.
  intros Hok. unfold bindSessionSticky.
  destruct (bool_decide (key = "")) eqn:Hk; [done|].
  destruct (Z.eqb_spec itemID 0) as [|Hit]; [done|].
  destruct (SessionStickySeconds (g_RelayConfig group) <? 1); [done|].
  destruct (Z.ltb_spec maxStickyKeyBytes (slen key)) as [|Hlen]; [done|]. cbn [orb].
  apply bool_decide_eq_false in Hk.
  set (w1 := if stickyPruneInterval <=? now - w_stickyLastPrune w then _ else w).
  assert (H1 : stickies_ok (w_stickies w1)).
  { subst w1. case_match; [|done]. cbn. by apply prune_group_ok. }
  clearbody w1. case_match eqn:Hfull.
  - set (st := pruneAllSessionStickiesLocked _ _).
    assert (H2 : stickies_ok st) by (subst st; by apply prune_all_ok, prune_group_ok).
    clearbody st. case_match eqn:Hfull2; [done|]. by apply bind_entry_ok.
  - by apply bind_entry_ok.
Qed.

Lemma sticky_step_ok now w w' :
  sticky_step now w w' -> stickies_ok (w_stickies w) -> stickies_ok (w_stickies w').
Proof.
  destruct 1; intros Hok.
  - unfold pickSessionStickyLocked.
    destruct (w_stickies w !! g_ID group) as [s|] eqn:Hs; cbn [mbind option_bind]; [|done].
    destruct (s !! key) as [e|]; [|done]. case_match; [done|]. cbn.
    eapply put_smaller_ok; [done|exact Hs|apply delete_subseteq].
  - by apply bind_ok.
  - unfold clearSessionStickyByItem. destruct (w_stickies w !! gid) as [s|] eqn:Hs; [|done]. cbn.
    eapply put_smaller_ok; [done|exact Hs|apply drop_sub].
  - by apply delete_group_ok.
  - by apply prune_all_ok.
  - by apply delete_group_ok.
Qed.

(** ** Lookup *)

Definition sticky_of w (gid : Z) (key : string) : option stickyEntry :=
  w_stickies w !! gid ≫= fun s => s !! key.

Lemma put_sessions_lookup gid s st key :
  put_sessions gid s st !! gid ≫= (fun s : gmap string stickyEntry => s !! key) = s !! key.
Proof.
  unfold put_sessions. case_decide as Hs.
  - rewrite lookup_delete_eq, Hs. simpl. by rewrite lookup_empty.
  - by rewrite lookup_insert_eq.
Qed.

(** ** Contracts *)

(** In every interleaving of lookups, bindings, clearings and prunings,
    the sticky table holds at most 4096 sessions per group and 16384 in all,
    every key is non-empty and at most 512 bytes, and no emptied group keeps an
    entry: client-chosen session identifiers cannot grow the memory of the
    process. *)
Theorem sticky_table_bounded w :
  rtc (fun w w' => exists now, sticky_step now w w') world_init w ->
  sessionStickyTotalLocked (w_stickies w) <= maxSessionStickiesTotal /\
  forall gid s, w_stickies w !! gid = Some s ->
    0 < zsize s <= maxSessionStickiesPerGroup /\
    forall key e, s !! key = Some e -> 0 < slen key <= maxStickyKeyBytes /\ se_ItemID e ≠ 0.
Proof.
  intros Hreach. enough (Hok : stickies_ok (w_stickies w)).
  { destruct Hok as [Hg He Ht]. split; [done|]. intros gid s Hs.
    destruct (Hg gid s Hs) as [Hne Hle]. split.
    - split; [|done]. unfold zsize. apply map_size_non_empty_iff in Hne. lia.
    - intros key e Hk. destruct (He gid s Hs key e Hk) as (Hl & Hk0 & Hi).
      split; [|done]. split; [|done]. unfold slen. destruct key; [done|].
      cbn [String.length]. lia. }
  assert (Hinit : stickies_ok (w_stickies world_init)).
  { split; [apply map_Forall_empty..|]. vm_compute. discriminate. }
  revert Hinit. generalize world_init, Hreach. clear Hreach. intros w0 Hreach.
  induction Hreach as [|x y z [now Hs] _ IH]; [done|]. intros Hx. apply IH.
  by eapply sticky_step_ok.
Qed.

(** A session is pinned only to a member that still belongs to the group,
    is neither excluded nor skipped, whose channel is not disabled and whose
    cooldown is over, by an unexpired entry; otherwise the entry is gone
    afterwards and the request falls back to normal routing. *)
Theorem sticky_pick_sound now group key exclude skipped w :
  let '(item, w') := pickSessionStickyLocked now group key exclude skipped w in
  if item_ID item =? 0 then sticky_of w' (g_ID group) key = None
  else w' = w /\
    exists e, sticky_of w (g_ID group) key = Some e /\ item = itemOf group (se_ItemID e) /\
    now < se_ExpireAtUnixMilli e /\ item ∈ g_Items group /\
    itemExcluded item exclude skipped = false /\ channelDisabledForRouting item = false /\
    (forall r d, w_routes w !! g_ID group = Some r -> r_Cooldowns r !! item_ID item = Some d -> d <= now).
Proof.
  unfold pickSessionStickyLocked, sticky_of.
  destruct (w_stickies w !! g_ID group ≫= fun s => s !! key) as [e|] eqn:He; [|done].
  set (item := itemOf group (se_ItemID e)).
  match goal with |- context [if ?b then (item, w) else _] => destruct b eqn:Hv end.
  - rewrite !andb_true_iff, !negb_true_iff in Hv.
    destruct Hv as ((((Hexp & Hid) & Hx) & Hcool) & Hdis). rewrite Hid. split; [done|].
    exists e. split; [done|]. split; [done|]. split; [lia|].
    apply Z.eqb_neq in Hid. split; [by apply itemOf_found|]. split; [done|]. split; [done|].
    intros r d Hr Hd. rewrite Hr in Hcool. cbn in Hcool. rewrite Hd in Hcool. lia.
  - cbn [item_ID zero_item Z.eqb]. cbn [w_stickies set_w_stickies].
    rewrite put_sessions_lookup. apply lookup_delete_eq.
Qed.

(** A binding holds for exactly the configured time: after binding a session
    to a usable member, a lookup of that session before
    [now + SessionStickySeconds] returns that member, and one at or after it
    returns none. *)
Theorem sticky_bind_pick now now1 now2 later group key itemID exclude skipped w :
  key ≠ "" -> slen key <= maxStickyKeyBytes -> 1 <= SessionStickySeconds (g_RelayConfig group) ->
  itemID ≠ 0 -> stickyFullLocked (g_ID group) (w_stickies w) = false ->
  now - w_stickyLastPrune w < stickyPruneInterval ->
  item_ID (itemOf group itemID) = itemID ->
  itemExcluded (itemOf group itemID) exclude skipped = false ->
  channelDisabledForRouting (itemOf group itemID) = false ->
  (forall r, w_routes w !! g_ID group = Some r -> r_Cooldowns r !! itemID = None) ->
  (pickSessionStickyLocked later group key exclude skipped
     (bindSessionSticky now now1 now2 group key itemID w)).1 =
  (if later <? now + SessionStickySeconds (g_RelayConfig group) * 1000
   then itemOf group itemID else zero_item).
Proof.
  intros Hk Hlen Hsec Hit Hfull Hprune Hid Hx Hdis Hcool.
  unfold bindSessionSticky. rewrite bool_decide_false by done.
  rewrite (proj2 (Z.eqb_neq _ _) Hit), (proj2 (Z.ltb_ge _ _) Hsec), (proj2 (Z.ltb_ge _ _) Hlen).
  cbn [orb]. rewrite (proj2 (Z.leb_gt _ _) Hprune), Hfull, andb_false_r.
  unfold pickSessionStickyLocked. cbn [w_stickies set_w_stickies w_routes].
  rewrite lookup_insert_eq. cbn [mbind option_bind]. rewrite lookup_insert_eq.
  cbn [se_ItemID se_ExpireAtUnixMilli]. rewrite Hx, Hdis, Hid, (proj2 (Z.eqb_neq _ _) Hit).
  destruct (w_routes w !! g_ID group) as [r|] eqn:Hr; cbn [mbind option_bind].
  - rewrite (Hcool r eq_refl). by destruct (later <? _).
  - by destruct (later <? _).
Qed.

(** ** Session keys *)

Fixpoint all_digits (s : string) : bool :=
  match s with
  | EmptyString => true
  | String.String a s => bool_decide (a ≠ ":"%char) && bool_decide (a ≠ "c"%char) && all_digits s
  end.

Lemma pretty_go_digits x s : all_digits s = true -> all_digits (pretty_N_go x s) = true.
Proof.
  revert s. induction (N.lt_wf_0 x) as [x _ IH]; intros s Hs.
  destruct (decide (0 < x)%N) as [Hx|Hx].
  - rewrite pretty_N_go_step by done. apply IH; [by apply N.div_lt|].
    cbn [all_digits]. rewrite Hs, andb_true_r.
    unfold pretty_N_char. by repeat case_match.
  - replace x with 0%N by lia. by rewrite pretty_N_go_0.
Qed.

Lemma itoa_digits n : all_digits (itoa_pos n) = true.
Proof.
  unfold itoa_pos, pretty, pretty_N. case_decide; [done|]. by apply pretty_go_digits.
Qed.

(** The first colon splits a key into its owner and the session. *)
Lemma split_at_colon d1 d2 s1 s2 :
  all_digits d1 = true -> all_digits d2 = true ->
  d1 +:+ ":" +:+ s1 = d2 +:+ ":" +:+ s2 -> d1 = d2 /\ s1 = s2.
Proof.
  revert d2. induction d1 as [|a d1 IH]; intros [|b d2] H1 H2 Heq; cbn in *.
  - split; [done|]. by injection Heq.
  - injection Heq as <- _. discriminate H2.
  - injection Heq as -> _. discriminate H1.
  - rewrite !andb_true_iff in H1, H2. injection Heq as <- Heq.
    destruct (IH d2) as [-> ->]; naive_solver.
Qed.

Lemma itoa_not_console n s s' :
  itoa_pos n +:+ ":" +:+ s ≠ consoleSessionPrefix +:+ s'.
Proof.
  pose proof (itoa_digits n) as Hd. destruct (itoa_pos n) as [|a d]; cbn; [done|].
  intros Heq. injection Heq as -> _. discriminate Hd.
Qed.

(** Session keys isolate API keys: two requests share a non-empty scope key
    only if they present the same session identifier and the same API key (or
    both come from the console), so no client can reach another key's sticky
    bindings, and a usable scope key always fits the sticky table. *)
Theorem sessionScopeKey_isolates a b s t :
  0 <= a -> 0 <= b -> sessionScopeKey a s = sessionScopeKey b t -> sessionScopeKey a s ≠ "" ->
  a = b /\ s = t.
Proof.
  intros Ha Hb. unfold sessionScopeKey.
  destruct (bool_decide (s = "") || _); [by intros _ []|].
  destruct (bool_decide (t = "") || _); [by intros ->|].
  destruct (Z.ltb_spec 0 a), (Z.ltb_spec 0 b); intros Heq _.
  - apply split_at_colon in Heq as [Hi ->]; [|apply itoa_digits..]. split; [|done].
    unfold itoa_pos in Hi. apply (inj (pretty (A := N))) in Hi. apply Z2N.inj in Hi; lia.
  - by apply itoa_not_console in Heq.
  - symmetry in Heq. by apply itoa_not_console in Heq.
  - split; [lia|]. by apply (inj (String.append consoleSessionPrefix)) in Heq.
Qed.
End sticky.

Definition demo_bound : World := bindSessionSticky 1000 1000 1000 demo_group "7:s" 11 world_init.

Lemma sticky_table_bounded_witness :
  sessionStickyTotalLocked (w_stickies demo_bound) = 1 /\
  sessionStickyTotalLocked (w_stickies demo_bound) <= maxSessionStickiesTotal.
Proof.
  split; [vm_compute; reflexivity|].
  refine (proj1 (sticky_table_bounded demo_bound _)).
  apply (rtc_l _ world_init demo_bound); [|apply rtc_refl].
  exists 1000. unfold demo_bound. apply sticky_bind.
Defined.

Lemma sticky_bind_pick_witness :
  (pickSessionStickyLocked 2000 demo_group "7:s" 0 ∅ demo_bound).1 = demo_item 11 1 0.
Proof.
  apply (sticky_bind_pick 1000 1000 1000 2000 demo_group "7:s" 11 0 ∅ world_init);
    vm_compute; congruence.
Defined.

Lemma sessionScopeKey_isolates_witness : sessionScopeKey 1 "a" ≠ sessionScopeKey 2 "a".
Proof.
  intros Heq. destruct (sessionScopeKey_isolates 1 2 "a" "a") as [H _].
  - lia.
  - lia.
  - exact Heq.
  - vm_compute. discriminate.
  - discriminate H.
Defined.
