(* ===== verification/RefChain.v ===== *)
(** * Group references

    A member may be a reference to another group.  relay/route.go resolves such
    a member hop by hop down to a leaf, counts the leaves a request can reach,
    and gives the probe holds of a whole chain back. *)

From S2P Require Import Prelude Hub Float64 GroupModel Protocol Backoff Route Demo RouteInv.
From S2P Require Import RouteProps Breaker Sticky.

(** One hop: member [hop_item] was selected inside [hop_group]. *)
Record refHop := mkHop { hop_group : Group; hop_item : GroupItem }.

Section refchain.
Context `{dir : Directory} `{ord : !MapOrder Z}.
Implicit Types (w : World) (group : Group) (item : GroupItem) (visited : gset Z).

(** ** Reachable leaves

    [routableLeafCountFrom] works on a group and [routableItemLeafCount] on a
    member; they call each other and share the [visited] map, which is threaded.
    [None] stands for exhausted fuel. *)
Definition count_member (count : Group + GroupItem -> gset Z -> option (Z * gset Z))
    (acc : option (Z * gset Z)) item : option (Z * gset Z) :=
  acc ≫= fun '(n, visited) =>
    if IsGroupRef item then
      match groupLookup (item_RefGroupName item) with
      | None => Some (n, visited)
      | Some ref =>
          if bool_decide (g_ID ref ∈ visited) then Some (n, visited)
          else if bool_decide (g_Mode ref = GroupModeManual) then
            let visited := {[g_ID ref]} ∪ visited in
            let next := itemOf ref (g_ActiveItemID ref) in
            if item_ID next =? 0 then Some (n, visited)
            else '(k, visited) ← count (inr next) visited; Some (n + k, visited)
          else '(k, visited) ← count (inl ref) visited; Some (n + k, visited)
      end
    else if channelDisabledForRouting item then Some (n, visited)
    else Some (n + 1, visited).

Fixpoint leaf_count (fuel : nat) (t : Group + GroupItem) visited : option (Z * gset Z) :=
  match fuel with
  | O => None
  | S fuel =>
      match t with
      | inl g =>
          if bool_decide (g_ID g ∈ visited) then Some (0, visited)
          else
          foldl (count_member (leaf_count fuel)) (Some (0, {[g_ID g]} ∪ visited)) (g_Items g)
      | inr item =>
          if negb (IsGroupRef item) then
            Some (if channelDisabledForRouting item then 0 else 1, visited)
          else
            match groupLookup (item_RefGroupName item) with
            | None => Some (0, visited)
            | Some ref =>
                if bool_decide (g_ID ref ∈ visited) then Some (0, visited)
                else if bool_decide (g_Mode ref = GroupModeManual) then
                  let visited := {[g_ID ref]} ∪ visited in
                  let next := itemOf ref (g_ActiveItemID ref) in
                  if item_ID next =? 0 then Some (0, visited)
                  else leaf_count fuel (inr next) visited
                else leaf_count fuel (inl ref) visited
            end
      end
  end.

Definition routableLeafCount (fuel : nat) (top : Group) : option Z :=
  fst <$> leaf_count fuel (inl top) ∅.

Definition routableCandidateCount (fuel : nat) group : option Z :=
  if bool_decide (g_Mode group ≠ GroupModeManual) then routableLeafCount fuel group
  else
    let item := itemOf group (g_ActiveItemID group) in
    if item_ID item =? 0 then Some 0
    else fst <$> leaf_count fuel (inr item) {[g_ID group]}.

(** ** Resolution *)

Definition pickRefChainHopSkipping (env : PickEnv) group (sessionKey : string) (exclude : Z)
    (skipped : gset Z) (clientFormat : option APIFormat) w : GroupItem * World :=
  let '(item, w) :=
    if sessionStickyEnabled group sessionKey
    then pickSessionStickyLocked (env_now env) group sessionKey exclude skipped w
    else (zero_item, w) in
  if item_ID item =? 0 then pickGroupItemSkipping env group exclude skipped clientFormat w
  else (item, w).

(** The loop of [resolveGroupRefChainSkipping]; [envs] gives the environment of
    each hop.  The second result is [failedIdx]. *)
Fixpoint resolve_loop (fuel : nat) (envs : nat -> PickEnv) (sessionKey : string) (exclude : Z)
    (skipped : gset Z) (clientFormat : option APIFormat) (hops : list refHop) visited item w
  : option (list refHop * Z * World) :=
  match fuel with
  | O => None
  | S fuel =>
      if negb (IsGroupRef item) then Some (hops, -1, w)
      else
        let fail := Z.of_nat (length hops) - 1 in
        if MaxGroupRefDepth <=? Z.of_nat (size visited) - 1 then Some (hops, fail, w)
        else
          match groupLookup (item_RefGroupName item) with
          | None => Some (hops, fail, w)
          | Some next =>
              if bool_decide (g_ID next ∈ visited) then Some (hops, fail, w)
              else
                let '(nextItem, w) :=
                  pickRefChainHopSkipping (envs (length hops)) next sessionKey exclude skipped
                    clientFormat w in
                if item_ID nextItem =? 0 then Some (hops, fail, w)
                else resolve_loop fuel envs sessionKey exclude skipped clientFormat
                       (hops ++ [mkHop next nextItem]) ({[g_ID next]} ∪ visited) nextItem w
          end
  end.

Definition resolveGroupRefChainSkipping (fuel : nat) (envs : nat -> PickEnv) (top : Group)
    (first : GroupItem) (sessionKey : string) (exclude : Z) (skipped : gset Z)
    (clientFormat : option APIFormat) w : option (list refHop * Z * World) :=
  resolve_loop fuel envs sessionKey exclude skipped clientFormat [mkHop top first] {[g_ID top]}
    first w.

(** ** Release *)

Definition releaseRefChainHops (hops : list refHop) w : World :=
  foldl (fun w hop => releaseRouteProbe (hop_group hop) (item_ID (hop_item hop)) w) w hops.

Definition release_probe_hold (hop : refHop) w : World :=
  let gid := g_ID (hop_group hop) in
  let id := item_ID (hop_item hop) in
  match w_routes w !! gid with
  | None => w
  | Some r =>
      if negb (r_ProbeItemID r =? id) && ((r_HalfOpens r).[id] =? 0) then w
      else
        let r := set_HalfOpens (delete id (r_HalfOpens r)) r in
        let r := if r_ProbeItemID r =? id then set_ProbeItemID 0 r else r in
        commit gid r w
  end.

Definition releaseRefChainProbeHolds (hops : list refHop) w : World :=
  foldl (fun w hop => release_probe_hold hop w) w hops.

(** ** Termination of the leaf count *)

(** Every group a reference can reach has its identifier in [ids]. *)
Definition directory_within (ids : gset Z) : Prop :=
  forall name g, groupLookup name = Some g -> g_ID g ∈ ids.

Definition target_within (ids : gset Z) (t : Group + GroupItem) : Prop :=
  match t with inl g => g_ID g ∈ ids | inr _ => True end.

(** What is left to visit; a member stands one call above its group. *)
Definition leaf_measure (ids : gset Z) (t : Group + GroupItem) visited : nat :=
  2 * size (ids ∖ visited) + match t with inl _ => 0 | inr _ => 1 end.

Lemma measure_visit ids visited id :
  id ∈ ids -> id ∉ visited -> (size (ids ∖ ({[id]} ∪ visited)) < size (ids ∖ visited))%nat.
Proof.
  intros Hin Hout. apply subset_size. split; [set_solver|].
  intros Hsub. assert (id ∈ ids ∖ visited) as Hid by set_solver. apply Hsub in Hid. set_solver.
Qed.

Lemma measure_mono (ids v1 v2 : gset Z) : v1 ⊆ v2 -> (size (ids ∖ v2) <= size (ids ∖ v1))%nat.
Proof. intros Hsub. apply subseteq_size. set_solver. Qed.

Lemma leaf_count_total ids fuel : directory_within ids ->
  forall t visited, target_within ids t -> (leaf_measure ids t visited < fuel)%nat ->
  exists n visited', leaf_count fuel t visited = Some (n, visited') /\ visited ⊆ visited' /\ 0 <= n.
Proof.
  intros Hdir. induction fuel as [|fuel IH]; intros t visited Ht Hm; [lia|].
  destruct t as [g|item]; cbn [leaf_count].
  - case_bool_decide as Hg; [exists 0, visited; split; [done|]; split; [done|lia]|].
    cbn in Ht. pose proof (measure_visit ids visited _ Ht Hg) as Hv.
    assert (Hloop : forall items n v, {[g_ID g]} ∪ visited ⊆ v -> 0 <= n ->
      exists n' v', foldl (count_member (leaf_count fuel)) (Some (n, v)) items = Some (n', v') /\
        {[g_ID g]} ∪ visited ⊆ v' /\ 0 <= n').
    { induction items as [|item items IHi]; intros n v Hsub Hn; [by exists n, v|].
      cbn [foldl]. unfold count_member at 2. cbn [mbind option_bind].
      destruct (IsGroupRef item); [|destruct (channelDisabledForRouting item); apply IHi; try done; lia].
      destruct (groupLookup (item_RefGroupName item)) as [ref|] eqn:Hl; [|by apply IHi].
      case_bool_decide as Href; [by apply IHi|]. specialize (Hdir _ _ Hl).
      pose proof (measure_mono ids _ _ Hsub) as Hmono.
      pose proof (measure_visit ids v (g_ID ref) Hdir Href) as Hv2.
      unfold leaf_measure in Hm. case_bool_decide.
      - cbv zeta. case_match; [apply IHi; set_solver|].
        destruct (IH (inr (itemOf ref (g_ActiveItemID ref))) ({[g_ID ref]} ∪ v)) as (k & v' & -> & Hv' & Hk);
          [done | unfold leaf_measure; lia |].
        cbn. apply IHi; [set_solver | lia].
      - destruct (IH (inl ref) v) as (k & v' & -> & Hv' & Hk); [done | unfold leaf_measure; lia |].
        cbn. apply IHi; [set_solver | lia]. }
    destruct (Hloop (g_Items g) 0 ({[g_ID g]} ∪ visited)) as (n & v' & -> & Hsub & Hn); [done|lia|].
    exists n, v'. split; [done|]. split; [set_solver|done].
  - destruct (negb (IsGroupRef item)).
    { eexists _, visited. split; [done|]. split; [done|]. destruct (channelDisabledForRouting item); lia. }
    destruct (groupLookup (item_RefGroupName item)) as [ref|] eqn:Hl;
      [|exists 0, visited; split; [done|]; split; [done|lia]].
    case_bool_decide as Href; [exists 0, visited; split; [done|]; split; [done|lia]|].
    specialize (Hdir _ _ Hl). pose proof (measure_visit ids visited _ Hdir Href) as Hv.
    unfold leaf_measure in Hm. case_bool_decide.
    + case_match; [exists 0, ({[g_ID ref]} ∪ visited); split; [done|]; split; [set_solver|lia]|].
      destruct (IH (inr (itemOf ref (g_ActiveItemID ref))) ({[g_ID ref]} ∪ visited))
        as (k & v' & -> & Hv' & Hk); [done | unfold leaf_measure; lia |].
      exists k, v'. split; [done|]. split; [set_solver|done].
    + apply (IH (inl ref) visited); [done | unfold leaf_measure; lia].
Qed.

(** ** Resolution *)

(** Consecutive hops are linked by the reference of the first one. *)
Fixpoint linked (hops : list refHop) : Prop :=
  match hops with
  | h1 :: ((h2 :: _) as rest) =>
      IsGroupRef (hop_item h1) = true /\
      groupLookup (item_RefGroupName (hop_item h1)) = Some (hop_group h2) /\
      item_ID (hop_item h2) ≠ 0 /\ linked rest
  | _ => True
  end.

Lemma linked_snoc hops last h :
  linked (hops ++ [last]) -> IsGroupRef (hop_item last) = true ->
  groupLookup (item_RefGroupName (hop_item last)) = Some (hop_group h) ->
  item_ID (hop_item h) ≠ 0 -> linked (hops ++ [last; h]).
Proof.
  intros Hl Hr Hg Hid. induction hops as [|x hops IH]; cbn in *; [done|].
  destruct hops as [|y hops]; cbn in *; naive_solver.
Qed.

Definition last_item (hops : list refHop) : option GroupItem := hop_item <$> last hops.

(** The state of the loop: a linked chain over distinct groups, all visited. *)
Record chain_ok (hops : list refHop) visited item : Prop := {
  ch_linked : linked hops;
  ch_last : last_item hops = Some item;
  ch_visited : visited = list_to_set (g_ID ∘ hop_group <$> hops);
  ch_nodup : NoDup (g_ID ∘ hop_group <$> hops);
}.

Lemma chain_size hops visited item :
  chain_ok hops visited item -> Z.of_nat (size visited) = Z.of_nat (length hops).
Proof.
  intros [_ _ -> Hnd]. rewrite size_list_to_set by done. by rewrite length_fmap.
Qed.

(** The result of a resolution that started from the hops [start]. *)
Definition resolved (start : list refHop) (hops : list refHop) (failed : Z) : Prop :=
  exists item, start `prefix_of` hops /\ linked hops /\ NoDup (g_ID ∘ hop_group <$> hops) /\
  last_item hops = Some item /\ Z.of_nat (length hops) <= MaxGroupRefDepth + 1 /\
  (if IsGroupRef item then failed = Z.of_nat (length hops) - 1 else failed = -1).

Lemma resolve_loop_spec fuel envs key exclude skipped fmt hops visited item w :
  chain_ok hops visited item -> Z.of_nat (length hops) <= MaxGroupRefDepth + 1 ->
  MaxGroupRefDepth + 2 - Z.of_nat (length hops) <= Z.of_nat fuel ->
  exists hops' failed w',
    resolve_loop fuel envs key exclude skipped fmt hops visited item w = Some (hops', failed, w') /\
    resolved hops hops' failed.
Proof.
  revert hops visited item w.
  induction fuel as [|fuel IH]; intros hops visited item w Hok Hlen Hfuel;
    [unfold MaxGroupRefDepth in *; lia|].
  pose proof (chain_size _ _ _ Hok) as Hsz. cbn [resolve_loop].
  (* every exit returns the current hops *)
  assert (Hstop : resolved hops hops (if IsGroupRef item then Z.of_nat (length hops) - 1 else -1)).
  { exists item. destruct Hok. do 5 (split; [done|]). by destruct (IsGroupRef item). }
  destruct (IsGroupRef item) eqn:Href; cbn [negb]; [|by eexists _, _, _].
  destruct (Z.leb_spec MaxGroupRefDepth (Z.of_nat (size visited) - 1)) as [|Hdepth];
    [by eexists _, _, _|].
  destruct (groupLookup (item_RefGroupName item)) as [next|] eqn:Hl; [|by eexists _, _, _].
  case_bool_decide as Hv; [by eexists _, _, _|].
  destruct (pickRefChainHopSkipping (envs (length hops)) next key exclude skipped fmt w) as [ni w1].
  destruct (Z.eqb_spec (item_ID ni) 0) as [|Hni]; [by eexists _, _, _|].
  destruct (IH (hops ++ [mkHop next ni]) ({[g_ID next]} ∪ visited) ni w1) as (hops' & f & w' & Heq & Hres).
  - destruct Hok as [Hlk Hlast Hvis Hnd]. split.
    + destruct (exists_last (l := hops)) as (pre & lst & ->); [by intros ->|].
      unfold last_item in Hlast. rewrite last_snoc in Hlast. injection Hlast as <-.
      rewrite <- app_assoc. by apply linked_snoc.
    + unfold last_item. by rewrite last_snoc.
    + rewrite fmap_app, list_to_set_app_L, <- Hvis. cbn. set_solver.
    + rewrite fmap_app. apply NoDup_app. split; [done|]. split; [|apply NoDup_singleton].
      intros x Hx Hx2. apply list_elem_of_singleton in Hx2. cbn in Hx2. subst x.
      apply Hv. rewrite Hvis. by apply elem_of_list_to_set.
  - rewrite length_app. cbn. lia.
  - rewrite length_app. cbn. lia.
  - exists hops', f, w'. split; [done|]. destruct Hres as (it & Hpre & Hrest).
    exists it. split; [|done]. eapply prefix_app_l. exact Hpre.
Qed.

(** Resolving a reference always ends.  The chain starts with the given
    member, every hop is the group named by the reference before it with a real
    member selected in it, no group occurs twice, there are at most eight groups
    below the top one, and the reported index is [-1] exactly when the chain ends
    in a leaf and otherwise that of the unresolved last hop. *)
Theorem resolve_terminates envs top first key exclude skipped fmt w :
  exists hops failed w',
    resolveGroupRefChainSkipping 10 envs top first key exclude skipped fmt w = Some (hops, failed, w') /\
    exists rest item, hops = mkHop top first :: rest /\ linked hops /\
      NoDup (g_ID ∘ hop_group <$> hops) /\ Z.of_nat (length rest) <= MaxGroupRefDepth /\
      last_item hops = Some item /\
      failed = (if IsGroupRef item then Z.of_nat (length rest) else -1).
Proof.
  destruct (resolve_loop_spec 10 envs key exclude skipped fmt [mkHop top first] {[g_ID top]} first w)
    as (hops & failed & w' & Heq & (item & [rest Hpre] & Hlk & Hnd & Hlast & Hlen & Hf)).
  - split; [done..| |apply NoDup_singleton]. cbn. set_solver.
  - done.
  - done.
  - exists hops, failed, w'. split; [exact Heq|]. exists rest, item. rewrite Hpre in *. cbn in *.
    split; [done|]. split; [done|]. split; [done|]. split; [lia|]. split; [done|].
    destruct (IsGroupRef item); lia.
Qed.

(** The leaf count of a finite directory is always computed: with one unit
    of fuel more than twice the number of groups the count is defined, and it is
    never negative, whatever cycles the references form. *)
Theorem leaf_count_terminates ids top :
  directory_within ids -> g_ID top ∈ ids ->
  exists n, routableLeafCount (2 * size ids + 1) top = Some n /\ 0 <= n.
Proof.
  intros Hdir Htop.
  destruct (leaf_count_total ids (2 * size ids + 1) Hdir (inl top) ∅ Htop) as (n & v & Heq & _ & Hn).
  { unfold leaf_measure. rewrite difference_empty_L. lia. }
  exists n. unfold routableLeafCount. by rewrite Heq.
Qed.

(** ** Release *)

(** Whether a request holds the probe of a member. *)
Definition held r (id : Z) : Prop := r_ProbeItemID r = id \/ r_HalfOpens r !! id ≠ None.

Definition world_held w (gid id : Z) : Prop := exists r, w_routes w !! gid = Some r /\ held r id.

Lemma release_unheld group id w gid' id' :
  id ≠ 0 -> (forall r, w_routes w !! g_ID group = Some r -> map_Forall (fun _ t => 0 < t) (r_HalfOpens r)) ->
  ~ world_held (releaseRouteProbe group id w) (g_ID group) id /\
  (world_held (releaseRouteProbe group id w) gid' id' -> id' ≠ 0 -> world_held w gid' id').
Proof.
  intros Hid Hpos. unfold releaseRouteProbe.
  destruct (w_routes w !! g_ID group) as [r|] eqn:Hr.
  2: { split; [|done]. intros (r & Hr' & _). congruence. }
  specialize (Hpos r eq_refl).
  set (p1 := if (r_ProbeItemID r =? id) || _ then _ else _).
  assert (H1 : ~ held p1.2 id /\ (forall id', held p1.2 id' -> id' ≠ 0 -> held r id')).
  { subst p1. cbn [r_ProbeItemID set_HalfOpens].
    destruct (Z.eqb_spec (r_ProbeItemID r) id) as [Hp|Hp]; cbn [orb].
    - split; cbn.
      + unfold held; cbn. rewrite lookup_delete_eq. naive_solver.
      + intros i [Hi|Hi] Hi0; unfold held; cbn in *; [congruence|].
        right. rewrite lookup_delete in Hi. by case_decide.
    - destruct (Z.ltb_spec 0 (r_HalfOpens r).[id]) as [Hh|Hh]; cbn.
      + split; unfold held; cbn.
        * rewrite lookup_delete_eq. naive_solver.
        * intros i [Hi|Hi] Hi0; [by left|]. right. rewrite lookup_delete in Hi. by case_decide.
      + split; [|done]. intros [Hx|Hx]; [done|]. destruct (r_HalfOpens r !! id) as [t|] eqn:Ht; [|done].
        pose proof (Hpos id t Ht). simpl in *. lia. }
  clearbody p1. destruct p1 as [c1 r1]; cbn [snd] in *. destruct H1 as [Hun Hmono].
  pose proof (release_frame r1 id) as (_ & Hho & _ & _).
  assert (Hpr : r_ProbeItemID (releaseEmergencyLocked r1 id).2 = r_ProbeItemID r1).
  { unfold releaseEmergencyLocked. case_match; [done|]. cbn.
    match goal with |- context [syncEmergencySummaryLocked ?x] =>
      pose proof (sync_frame x) as (_ & _ & _ & _ & _ & _ & -> & _) end. done. }
  destruct (releaseEmergencyLocked r1 id) as [rel r3]; cbn [snd] in *.
  assert (Hheld : forall i, held r3 i <-> held r1 i) by (intros i; unfold held; by rewrite Hho, Hpr).
  split.
  - intros (r' & Hr' & Hh). rewrite commit_if_lookup in Hr'. injection Hr' as <-. by apply Hun, Hheld.
  - intros (r' & Hr' & Hh) Hid'. destruct (decide (gid' = g_ID group)) as [->|Hne].
    + rewrite commit_if_lookup in Hr'. injection Hr' as <-. exists r. split; [done|].
      apply Hmono; [by apply Hheld | done].
    + exists r'. split; [|done].
      assert (Hc : forall b x y, w_routes (commit_if b (g_ID group) x y) !! gid' = w_routes y !! gid')
        by (intros [] ??; cbn; by rewrite lookup_insert_ne). by rewrite Hc in Hr'.
Qed.

Lemma chain_release_mono resets hops w gid id :
  world_ok resets w -> Forall (fun hop => item_ID (hop_item hop) ≠ 0) hops -> id ≠ 0 ->
  world_held (releaseRefChainHops hops w) gid id -> world_held w gid id.
Proof.
  revert w. induction hops as [|hop hops IH]; intros w Hw Hids Hid Hh; [done|].
  apply Forall_cons in Hids as [Hhop Hids]. cbn in Hh. apply IH in Hh; [|by apply release_probe_ok|done|done].
  eapply release_unheld; [exact Hhop| |exact Hh|done].
  intros r Hr. apply (ro_half resets). by apply (lookup_ok _ _ _ _ Hw Hr).
Qed.

(** Releasing a reference chain after an inconclusive attempt leaves no
    probe behind: no hop's member is the exclusive probe of its group or
    HALF-OPEN, whatever the state was and even when a group occurs twice. *)
Theorem chain_release_frees resets hops w :
  route_reachable resets w -> Forall (fun hop => item_ID (hop_item hop) ≠ 0) hops ->
  forall hop, hop ∈ hops ->
    ~ world_held (releaseRefChainHops hops w) (g_ID (hop_group hop)) (item_ID (hop_item hop)).
Proof.
  intros Hreach Hids. apply reachable_ok in Hreach as Hw. clear Hreach.
  revert w Hw. induction hops as [|h hops IH]; intros w Hw hop Hin; [by apply elem_of_nil in Hin|].
  apply Forall_cons in Hids as [Hh Hids]. cbn.
  apply elem_of_cons in Hin as [->|Hin].
  - intros Hheld. apply (chain_release_mono resets) in Hheld; [|by apply release_probe_ok|done|done].
    revert Hheld. apply (release_unheld (hop_group h) (item_ID (hop_item h)) w 0 0 Hh).
    intros r Hr. apply (ro_half resets). by apply (lookup_ok _ _ _ _ Hw Hr).
  - apply IH; [done | by apply release_probe_ok | done].
Qed.
End refchain.

(** ** Witnesses *)

(** Group "top" refers to "g", which refers back to "top". *)
Definition cyc_top : Group :=
  mkGroup 1 "top" GroupModeFailover 0 DefaultGroupRelayConfig [mkItem 5 0 "g" None 0].
Definition cyc_g : Group :=
  mkGroup 2 "g" GroupModeFailover 0 DefaultGroupRelayConfig
    [mkItem 6 0 "top" None 0; demo_item 7 1 1].

Definition cyc_directory : Directory := {|
  channelLookup := @channelLookup demo_directory;
  groupLookup name := if bool_decide (name = "top") then Some cyc_top
                      else if bool_decide (name = "g") then Some cyc_g else None;
  warpBlocked _ := false;
|}.

Lemma leaf_count_terminates_witness :
  exists n, @routableLeafCount cyc_directory (2 * size ({[1; 2]} : gset Z) + 1) cyc_top = Some n /\ 0 <= n.
Proof.
  apply (@leaf_count_terminates cyc_directory {[1; 2]} cyc_top).
  - intros name g. cbn. repeat case_bool_decide; intros [= <-] || discriminate; cbn; set_solver.
  - cbn. set_solver.
Defined.

(** Member 11 is HALF-OPEN, then its chain is released. *)
Definition demo_half : World := (pick_locked 70000 demo_single 0 ∅ None demo_cooled).2.

Lemma chain_release_frees_witness :
  world_breaker demo_half 7 11 = HalfOpen (Some 62000) /\
  ~ world_held (releaseRefChainHops [mkHop demo_single (demo_item 11 1 0)] demo_half) 7 11.
Proof.
  split; [vm_compute; reflexivity|].
  apply (chain_release_frees false [mkHop demo_single (demo_item 11 1 0)] demo_half) with
    (hop := mkHop demo_single (demo_item 11 1 0)).
  - apply (rtc_r _ demo_cooled demo_half); [exact demo_cooled_reachable|].
    exists 70000. split; [lia|]. unfold demo_half. generalize demo_cooled.
    intros w. apply step_pick.
  - constructor; [discriminate | constructor].
  - by left.
Defined.
