(* ===== verification/Window.v ===== *)
(** * Sliding windows

    The rate limiters of internal/keylimit and internal/relay/channellimit.go
    keep, per key, the instants of the grants of the last window.  This file
    holds the part they share: trimming, granting, and what a history of calls
    at non-decreasing instants satisfies. *)

From S2P Require Import Prelude.

(** Instants and durations in nanoseconds; [time.Minute]. *)
Definition rpmWindow : Z := 60000000000.

(** [for start < len(window) && !window[start].After(cutoff) { start++ }]. *)
Fixpoint trim (cutoff : Z) (window : list Z) : list Z :=
  match window with
  | [] => []
  | t :: rest => if t <=? cutoff then trim cutoff rest else window
  end.

(** What a full window answers: the instant of the next free slot. *)
Inductive permit := Granted | Full (admitAt : Z).

#[export] Instance permit_eq_dec : EqDecision permit.
Proof. solve_decision. Defined.

(** One critical section with [0 < rpm]: the verdict and the stored window. *)
Definition try_permit (now rpm : Z) (window : list Z) : permit * list Z :=
  let window := trim (now - rpmWindow) window in
  if rpm <=? Z.of_nat (length window) then
    (Full (nth (length window - Z.to_nat rpm) window 0 + rpmWindow), window)
  else (Granted, window ++ [now]).

(** A history of calls [(now, rpm)] on one key, from a window: the granted
    instants, oldest first, and the final window. *)
Fixpoint run_permits (calls : list (Z * Z)) (window : list Z) : list Z * list Z :=
  match calls with
  | [] => ([], window)
  | (now, rpm) :: calls =>
      let '(p, window) := try_permit now rpm window in
      let '(granted, window) := run_permits calls window in
      (match p with Granted => now :: granted | Full _ => granted end, window)
  end.

(** Grants within the window that ends at [t]. *)
Definition in_window (t : Z) (g : Z) : bool := (t - rpmWindow <? g) && (g <=? t).
Definition count_window (t : Z) (granted : list Z) : Z :=
  Z.of_nat (length (filter (fun g => in_window t g = true) granted)).

(** ** Trimming *)

Lemma trim_suffix cutoff window : exists dropped, window = dropped ++ trim cutoff window /\
  Forall (fun t => t <= cutoff) dropped.
Proof.
  induction window as [|t window IH]; cbn; [by exists []|].
  destruct (Z.leb_spec t cutoff).
  - destruct IH as (d & Heq & Hd). exists (t :: d). split; [cbn; congruence|]. by constructor.
  - by exists [].
Qed.

Lemma trim_length cutoff window : (length (trim cutoff window) <= length window)%nat.
Proof.
  destruct (trim_suffix cutoff window) as (d & Heq & _).
  rewrite Heq at 2. rewrite length_app. lia.
Qed.

Lemma trim_sorted cutoff window : StronglySorted Z.le window ->
  StronglySorted Z.le (trim cutoff window) /\ Forall (fun t => cutoff < t) (trim cutoff window).
Proof.
  induction window as [|t window IH]; intros Hs; cbn; [done|].
  pose proof Hs as Hs'. apply StronglySorted_inv in Hs' as [Hs' Ht].
  destruct (Z.leb_spec t cutoff); [by apply IH|]. split; [done|].
  constructor; [done|]. eapply Forall_impl; [exact Ht|]. cbn. lia.
Qed.

Lemma trim_all cutoff window : Forall (fun t => t <= cutoff) window -> trim cutoff window = [].
Proof.
  induction 1 as [|t window Ht _ IH]; cbn; [done|]. by rewrite (proj2 (Z.leb_le _ _) Ht).
Qed.

Lemma sorted_snoc window now :
  StronglySorted Z.le window -> Forall (fun t => t <= now) window ->
  StronglySorted Z.le (window ++ [now]).
Proof.
  induction window as [|t window IH]; intros Hs Hle; cbn; [by repeat constructor|].
  apply StronglySorted_inv in Hs as [Hs Ht]. apply Forall_cons in Hle as [Hle Hle'].
  constructor; [by apply IH|]. apply Forall_app. split; [done|]. by constructor.
Qed.

(** The stored window never exceeds the limit it was granted under. *)
Lemma try_permit_length now rpm window p window' :
  0 < rpm -> try_permit now rpm window = (p, window') ->
  p = Granted -> Z.of_nat (length window') <= rpm.
Proof.
  intros Hrpm Heq ->. unfold try_permit in Heq. case_match eqn:Hf; [done|].
  injection Heq as <-. rewrite length_app. cbn. lia.
Qed.

(** ** Histories *)

(** The stored window remembers every grant of the current window. *)
Record remembers (now : Z) (granted window : list Z) : Prop := {
  rm_split : exists old, granted = old ++ window /\ Forall (fun t => t <= now - rpmWindow) old;
  rm_sorted : StronglySorted Z.le window;
  rm_past : Forall (fun t => t <= now) granted;
}.

Lemma remembers_nil now : remembers now [] [].
Proof. split; [by exists [] | constructor | constructor]. Qed.

Lemma remembers_trim now now' granted window :
  now <= now' -> remembers now granted window ->
  remembers now' granted (trim (now' - rpmWindow) window).
Proof.
  intros Hle [(old & -> & Hold) Hs Hp]. destruct (trim_suffix (now' - rpmWindow) window) as (d & Heq & Hd).
  split.
  - exists (old ++ d). rewrite <- app_assoc, <- Heq. split; [done|].
    apply Forall_app. split; [|done]. eapply Forall_impl; [exact Hold|]. cbn. lia.
  - by apply trim_sorted.
  - eapply Forall_impl; [exact Hp|]. cbn. lia.
Qed.

(** Right after trimming, the window is exactly the current window of the history. *)
Lemma remembers_count now granted window :
  remembers now granted window -> Forall (fun t => now - rpmWindow < t) window ->
  count_window now granted = Z.of_nat (length window).
Proof.
  intros [(old & -> & Hold) Hs Hp] Hw. unfold count_window.
  rewrite filter_app. apply Forall_app in Hp as [_ Hp].
  assert (H1 : filter (fun g => in_window now g = true) old = []).
  { clear -Hold. induction Hold as [|t l Ht _ IH]; [done|]. rewrite filter_cons_False; [done|].
    unfold in_window. rewrite (proj2 (Z.ltb_ge _ _) Ht). done. }
  assert (H2 : filter (fun g => in_window now g = true) window = window).
  { clear -Hw Hp. induction window as [|t l IH]; [done|].
    apply Forall_cons in Hw as [Ht Hw]. apply Forall_cons in Hp as [Hn Hp].
    rewrite filter_cons_True; [by rewrite IH|]. unfold in_window.
    by rewrite (proj2 (Z.ltb_lt _ _) Ht), (proj2 (Z.leb_le _ _) Hn). }
  by rewrite H1, H2.
Qed.

Lemma try_permit_remembers now now' rpm granted window p window' :
  now <= now' -> remembers now granted window ->
  try_permit now' rpm window = (p, window') ->
  match p with
  | Granted => remembers now' (granted ++ [now']) window' /\ count_window now' (granted ++ [now']) <= rpm
  | Full _ => remembers now' granted window' /\ rpm <= count_window now' granted
  end.
Proof.
  intros Hle Hrem Heq. unfold try_permit in Heq.
  pose proof (remembers_trim now now' granted window Hle Hrem) as Ht.
  pose proof (proj2 (trim_sorted (now' - rpmWindow) window (rm_sorted _ _ _ Hrem))) as Hrec.
  pose proof (remembers_count now' granted _ Ht Hrec) as Hc.
  set (win := trim (now' - rpmWindow) window) in *. clearbody win.
  case_match eqn:Hfull; injection Heq as <- <-.
  - split; [done|]. lia.
  - assert (Hrem' : remembers now' (granted ++ [now']) (win ++ [now'])).
    { destruct Ht as [(old & -> & Hold) Hs Hp]. split.
      - exists old. by rewrite app_assoc.
      - apply sorted_snoc; [done|]. by apply Forall_app in Hp as [_ ?].
      - apply Forall_app. split; [done|]. by repeat constructor. }
    split; [done|]. rewrite (remembers_count now' _ _ Hrem').
    + rewrite length_app. cbn. lia.
    + apply Forall_app. split; [done|]. repeat constructor. unfold rpmWindow. lia.
Qed.

(** A refused caller that waits until [admitAt] is granted if nobody else was
    granted meanwhile, and is refused again at any earlier instant. *)
Lemma retry_exact now later rpm window admitAt window' :
  0 < rpm -> StronglySorted Z.le window -> now <= later ->
  try_permit now rpm window = (Full admitAt, window') ->
  now < admitAt /\
  ((try_permit later rpm window').1 = Granted <-> admitAt <= later).
Proof.
  intros Hrpm Hs Hle Heq. unfold try_permit in Heq.
  destruct (trim_sorted (now - rpmWindow) window Hs) as [Hs' Hrec].
  set (win := trim (now - rpmWindow) window) in *. clearbody win.
  case_match eqn:Hfull; [|done]. injection Heq as <- <-. apply Z.leb_le in Hfull.
  set (k := (length win - Z.to_nat rpm)%nat).
  assert (Hk : (k < length win)%nat) by (unfold k; lia).
  destruct (lookup_lt_is_Some_2 win k Hk) as [x Hx].
  assert (Hnth : nth k win 0 = x) by (by apply nth_lookup_Some). rewrite Hnth.
  pose proof (list_elem_of_split_length win k x Hx) as (l1 & l2 & -> & Hl1).
  apply Forall_app in Hrec as [Hrec1 Hrec2]. apply Forall_cons in Hrec2 as [Hxrec Hrec2].
  split; [lia|].
  assert (Hlow : Forall (fun t => t <= x) l1).
  { clear -Hs'. apply Forall_forall. intros t Ht. apply list_elem_of_split in Ht as (a & b & ->).
    rewrite <- app_assoc in Hs'. cbn in Hs'. induction a as [|y a IH]; cbn in Hs'.
    - apply StronglySorted_inv in Hs' as [_ Hf]. rewrite Forall_forall in Hf. apply Hf.
      apply elem_of_app. right. by left.
    - apply StronglySorted_inv in Hs' as [Hs' _]. by apply IH. }
  assert (Hhigh : StronglySorted Z.le (x :: l2)).
  { clear -Hs'. induction l1 as [|y l1 IH]; [done|]. cbn in Hs'.
    apply StronglySorted_inv in Hs' as [Hs' _]. by apply IH. }
  rewrite length_app in Hk, Hfull. unfold k in Hl1. rewrite length_app in Hl1. cbn in *.
  unfold try_permit. split.
  - intros Hg. destruct (Z.le_gt_cases (x + rpmWindow) later) as [|Hlt]; [done|]. exfalso.
    assert (Hlen : (S (length l2) <= length (trim (later - rpmWindow) (l1 ++ x :: l2)))%nat).
    { clear -Hlt. induction l1 as [|y l1 IH]; cbn.
      - rewrite (proj2 (Z.leb_gt x (later - rpmWindow))) by lia. cbn. lia.
      - case_match; [done|]. cbn. rewrite length_app. cbn. lia. }
    case_match eqn:Hf; [done|]. apply Z.leb_gt in Hf. lia.
  - intros Hx2.
    assert (Htrim : trim (later - rpmWindow) (l1 ++ x :: l2) = trim (later - rpmWindow) l2).
    { clear -Hlow Hx2. induction Hlow as [|y l1 Hy _ IH]; cbn.
      - by rewrite (proj2 (Z.leb_le x (later - rpmWindow))) by lia.
      - by rewrite (proj2 (Z.leb_le y (later - rpmWindow))) by lia. }
    rewrite Htrim. pose proof (trim_length (later - rpmWindow) l2).
    rewrite (proj2 (Z.leb_gt _ _)) by lia. done.
Qed.
