(* ===== verification/KeyLimit.v ===== *)
(** * Per-key limits of client API keys

    internal/keylimit/keylimit.go: fail-fast concurrency slots and a sliding
    RPM window per API key.  A slot is returned by a closure that holds a pointer
    to the counter object, not to the table, so the counters live in a store of
    their own and a [token] stands for one closure with its [sync.Once]. *)

From S2P Require Import Prelude Window.

(** ** State *)

Record Limits := mkLimits {
  l_objs : gmap Z Z;               (** counter objects: [active] *)
  l_states : gmap Z Z;             (** key -> counter object *)
  l_tokens : gmap Z (Z * bool);    (** closure -> counter object, and whether it has run *)
  l_windows : gmap Z (list Z);     (** key -> instants of the grants, in nanoseconds *)
}.

Definition limits_init : Limits := mkLimits ∅ ∅ ∅ ∅.

Inductive acquired := NoLimit | Slot (token : Z) | ErrConcurrencyFull.

(** ** Operations *)

(** [ref] and [token] are the addresses that the allocator returns. *)
Definition AcquireConcurrency (keyID limit ref token : Z) (l : Limits) : acquired * Limits :=
  if limit <=? 0 then (NoLimit, l)
  else
    let '(st, l) :=
      match l_states l !! keyID with
      | Some st => (st, l)
      | None => (ref, mkLimits (<[ref := 0]> (l_objs l)) (<[keyID := ref]> (l_states l))
                        (l_tokens l) (l_windows l))
      end in
    if limit <=? (l_objs l).[st] then (ErrConcurrencyFull, l)
    else (Slot token,
          mkLimits (<[st := (l_objs l).[st] + 1]> (l_objs l)) (l_states l)
            (<[token := (st, false)]> (l_tokens l)) (l_windows l)).

(** Running the closure: [once.Do(st.release)]. *)
Definition release (token : Z) (l : Limits) : Limits :=
  match l_tokens l !! token with
  | Some (st, false) =>
      let active := (l_objs l).[st] in
      mkLimits (if 0 <? active then <[st := active - 1]> (l_objs l) else l_objs l)
        (l_states l) (<[token := (st, true)]> (l_tokens l)) (l_windows l)
  | _ => l
  end.

(** [int(math.Ceil(d.Seconds()))], at least one; [d] is positive and below a minute
    here, where the float computation is exact enough for the ceiling. *)
Definition retry_seconds (d : Z) : Z := Z.max ((d + 999999999) / 1000000000) 1.

Inductive rpm_result := RpmOk | ErrRateLimited (retryAfter : Z).

Definition AcquireRPMPermit (now keyID rpm : Z) (l : Limits) : rpm_result * Limits :=
  if rpm <=? 0 then
    (RpmOk, mkLimits (l_objs l) (l_states l) (l_tokens l) (delete keyID (l_windows l)))
  else
    let '(p, window) := try_permit now rpm (default [] (l_windows l !! keyID)) in
    (match p with Granted => RpmOk | Full admitAt => ErrRateLimited (retry_seconds (admitAt - now)) end,
     mkLimits (l_objs l) (l_states l) (l_tokens l) (<[keyID := window]> (l_windows l))).

Definition Cleanup (keyID : Z) (l : Limits) : Limits :=
  mkLimits (l_objs l) (delete keyID (l_states l)) (l_tokens l) (delete keyID (l_windows l)).

(** ** Invariant of the slots *)

(** The closures of [st] that have not run yet. *)
Definition live (st : Z) (tokens : gmap Z (Z * bool)) : Z :=
  Z.of_nat (size (filter (fun kv => kv.2 = (st, false)) tokens)).

Record limits_ok (l : Limits) : Prop := {
  lo_count : forall st, (l_objs l).[st] = live st (l_tokens l);
  lo_known : forall key st, l_states l !! key = Some st -> is_Some (l_objs l !! st);
  lo_dom : forall t st b, l_tokens l !! t = Some (st, b) -> is_Some (l_objs l !! st);
}.

Lemma live_insert_live st tokens t st' :
  tokens !! t = None -> live st (<[t := (st', false)]> tokens) =
    live st tokens + (if decide (st' = st) then 1 else 0).
Proof.
  intros Hfresh. unfold live. case_decide as Heq.
  - subst. rewrite map_filter_insert_True by done. rewrite map_size_insert_None; [lia|].
    apply map_lookup_filter_None. by left.
  - rewrite map_filter_insert_False by (cbn; congruence). rewrite delete_id by done. lia.
Qed.

Lemma live_release st tokens t st' :
  tokens !! t = Some (st', false) -> live st (<[t := (st', true)]> tokens) =
    live st tokens - (if decide (st' = st) then 1 else 0).
Proof.
  intros Ht. unfold live. rewrite map_filter_insert_False by (cbn; congruence).
  rewrite map_filter_delete. case_decide as Heq.
  - subst. assert (Hl : filter (fun kv => kv.2 = (st, false)) tokens !! t = Some (st, false)).
    { by apply map_lookup_filter_Some. }
    rewrite map_size_delete_Some by eauto.
    assert (0 < size (filter (fun kv : Z * (Z * bool) => kv.2 = (st, false)) tokens))%nat; [|lia].
    apply Nat.neq_0_lt_0. rewrite map_size_non_empty_iff. intros He. rewrite He in Hl.
    by rewrite lookup_empty in Hl.
  - rewrite delete_id; [lia|]. apply map_lookup_filter_None. right. intros x Hx.
    rewrite Ht in Hx. injection Hx as <-. cbn. congruence.
Qed.

Lemma live_nonneg st tokens : 0 <= live st tokens.
Proof. unfold live. lia. Qed.

Lemma live_fresh st l : limits_ok l -> l_objs l !! st = None -> live st (l_tokens l) = 0.
Proof. intros Hok Hst. by rewrite <- (lo_count _ Hok), Hst. Qed.

Lemma init_ok : limits_ok limits_init.
Proof.
  split; cbn.
  - intros st. rewrite lookup_empty. unfold live. rewrite map_filter_empty, map_size_empty. done.
  - intros key st H. by rewrite lookup_empty in H.
  - intros t st b H. by rewrite lookup_empty in H.
Qed.

Lemma acquire_ok key limit ref token l :
  limits_ok l -> l_objs l !! ref = None -> l_tokens l !! token = None ->
  limits_ok (AcquireConcurrency key limit ref token l).2.
Proof.
  intros Hok Href Htok. unfold AcquireConcurrency. case_match; [done|].
  set (p := match l_states l !! key with Some st => (st, l) | None => _ end).
  assert (Hp : limits_ok p.2 /\ is_Some (l_objs p.2 !! p.1) /\ l_tokens p.2 = l_tokens l).
  { subst p. destruct (l_states l !! key) as [st|] eqn:Hst; cbn.
    - split; [done|]. split; [by apply (lo_known _ Hok key)|done].
    - split; [|split; [rewrite lookup_insert_eq; eauto|done]]. split; cbn.
      + intros st. rewrite lookup_insert. case_decide; [subst; cbn; symmetry; by apply live_fresh|].
        apply Hok.
      + intros k st. rewrite !lookup_insert. case_decide; intros Hk.
        * injection Hk as <-. rewrite decide_True by done. eauto.
        * case_decide; [eauto|]. by apply (lo_known _ Hok k).
      + intros t st b Ht. rewrite lookup_insert. case_decide; [eauto|]. by apply (lo_dom _ Hok t st b). }
  clearbody p. destruct p as [st l1]; cbn [fst snd] in *. destruct Hp as (Hok1 & Hst & Htoks).
  case_match; [done|]. cbn. split; cbn.
  - intros st'. rewrite live_insert_live by (by rewrite Htoks). rewrite lookup_insert.
    case_decide as Heq; cbn; [subst; by rewrite (lo_count _ Hok1)|].
    rewrite Z.add_0_r. apply Hok1.
  - intros k st' Hk. rewrite lookup_insert. case_decide; [eauto|]. by apply (lo_known _ Hok1 k).
  - intros t st' b. rewrite !lookup_insert. case_decide; intros Ht.
    + injection Ht as <- _. rewrite decide_True by done. eauto.
    + case_decide; [eauto|]. by apply (lo_dom _ Hok1 t st' b).
Qed.

Lemma slot_release_ok token l : limits_ok l -> limits_ok (release token l).
Proof.
  intros Hok. unfold release.
  destruct (l_tokens l !! token) as [[st [|]]|] eqn:Ht; [done| |done].
  assert (Hpos : 0 < (l_objs l).[st]).
  { rewrite (lo_count _ Hok). pose proof (live_release st (l_tokens l) token st Ht) as Hr.
    rewrite decide_True in Hr by done. pose proof (live_nonneg st (<[token := (st, true)]> (l_tokens l))). lia. }
  rewrite (proj2 (Z.ltb_lt _ _) Hpos). split; cbn.
  - intros st'. rewrite (live_release st' _ _ _ Ht), lookup_insert.
    case_decide as Heq; cbn; [subst; by rewrite (lo_count _ Hok)|].
    rewrite Z.sub_0_r. apply Hok.
  - intros k st' Hk. rewrite lookup_insert. case_decide; [eauto|]. by apply (lo_known _ Hok k).
  - intros t st' b. rewrite !lookup_insert. case_decide; intros Hb.
    + injection Hb as <- _. rewrite decide_True by done. eauto.
    + case_decide; [eauto|]. by apply (lo_dom _ Hok t st' b).
Qed.

(** ** Steps *)

Inductive limit_step : Limits -> Limits -> Prop :=
| ls_acquire key limit ref token l :
    l_objs l !! ref = None -> l_tokens l !! token = None ->
    limit_step l (AcquireConcurrency key limit ref token l).2
| ls_release token l : limit_step l (release token l)
| ls_rpm now key rpm l : limit_step l (AcquireRPMPermit now key rpm l).2
| ls_cleanup key l : limit_step l (Cleanup key l).

Lemma limit_step_ok l l' : limit_step l l' -> limits_ok l -> limits_ok l'.
Proof.
  destruct 1; intros Hok.
  - by apply acquire_ok.
  - by apply slot_release_ok.
  - unfold AcquireRPMPermit. case_match; [by destruct Hok|].
    destruct (try_permit _ _ _) as [p win]. by destruct Hok.
  - destruct Hok. split; cbn; try done. intros k st [_ Hk]%lookup_delete_Some. eauto.
Qed.

Lemma limits_reachable l : rtc limit_step limits_init l -> limits_ok l.
Proof.
  intros Hr. pose proof init_ok as Hinit. revert Hinit. generalize limits_init, Hr. clear Hr.
  intros l0 Hr. induction Hr as [|x y z Hs _ IH]; [done|]. intros Hx. apply IH.
  by eapply limit_step_ok.
Qed.

(** ** Contracts *)

(** A concurrency slot is granted exactly when fewer requests of the key's
    counter are in flight than the limit in force at that moment: the counter
    always equals the number of closures that have not run, so lowering the
    limit never forgets a running request, and a refused request holds nothing. *)
Theorem slot_granted_iff key limit ref token l :
  rtc limit_step limits_init l -> 0 < limit ->
  l_objs l !! ref = None -> l_tokens l !! token = None ->
  let st := default ref (l_states l !! key) in
  let '(res, l') := AcquireConcurrency key limit ref token l in
  (res = Slot token <-> live st (l_tokens l) < limit) /\
  (res = Slot token -> live st (l_tokens l') = live st (l_tokens l) + 1 /\
                       live st (l_tokens l') <= limit) /\
  (res ≠ Slot token -> res = ErrConcurrencyFull /\ l_tokens l' = l_tokens l).
Proof.
  intros Hreach Hlim Href Htok. apply limits_reachable in Hreach as Hok. cbv zeta.
  unfold AcquireConcurrency. rewrite (proj2 (Z.leb_gt _ _) Hlim).
  assert (Hgo : forall l1 st, (l_objs l1).[st] = live st (l_tokens l) -> l_tokens l1 = l_tokens l ->
    let '(res, l') := if limit <=? (l_objs l1).[st] then (ErrConcurrencyFull, l1) else
      (Slot token, mkLimits (<[st := (l_objs l1).[st] + 1]> (l_objs l1)) (l_states l1)
            (<[token := (st, false)]> (l_tokens l1)) (l_windows l1)) in
    (res = Slot token <-> live st (l_tokens l) < limit) /\
    (res = Slot token -> live st (l_tokens l') = live st (l_tokens l) + 1 /\
                       live st (l_tokens l') <= limit) /\
    (res ≠ Slot token -> res = ErrConcurrencyFull /\ l_tokens l' = l_tokens l)).
  { intros l1 st Hc Ht. rewrite Hc. destruct (Z.leb_spec limit (live st (l_tokens l))).
    - split; [split; [done|lia]|]. split; [done|]. by rewrite Ht.
    - cbn. rewrite Ht, live_insert_live, decide_True by done.
      split; [split; [lia|done]|]. split; [lia|done]. }
  destruct (l_states l !! key) as [st|] eqn:Hst.
  - apply Hgo; [apply Hok|done].
  - apply Hgo; [|done]. cbn. rewrite lookup_insert_eq. cbn. symmetry. by apply live_fresh.
Qed.

(** A closure gives its slot back exactly once: the first run lowers the
    counter of the object it was issued on by one, also after the key was cleaned
    up or recreated, and every later run changes nothing. *)
Theorem release_once token l (st : Z) (b : bool) :
  rtc limit_step limits_init l -> l_tokens l !! token = Some (st, b) ->
  let l' := release token l in
  (l_objs l').[st] = (l_objs l).[st] - (if b then 0 else 1) /\
  (forall st', st' ≠ st -> l_objs l' !! st' = l_objs l !! st') /\
  0 <= (l_objs l').[st] /\ release token l' = l'.
Proof.
  intros Hreach Ht. apply limits_reachable in Hreach as Hok. cbv zeta.
  destruct b.
  - assert (Hl : release token l = l) by (unfold release; by rewrite Ht). rewrite !Hl, Z.sub_0_r.
    split; [done|]. split; [done|]. split; [rewrite (lo_count _ Hok); apply live_nonneg | done].
  - assert (Hpos : 0 < (l_objs l).[st]).
    { rewrite (lo_count _ Hok). pose proof (live_release st (l_tokens l) token st Ht) as Hr.
      rewrite decide_True in Hr by done.
      pose proof (live_nonneg st (<[token := (st, true)]> (l_tokens l))). lia. }
    assert (Hl : release token l = mkLimits (<[st := (l_objs l).[st] - 1]> (l_objs l)) (l_states l)
                   (<[token := (st, true)]> (l_tokens l)) (l_windows l)).
    { unfold release. by rewrite Ht, (proj2 (Z.ltb_lt _ _) Hpos). }
    rewrite Hl. cbn [l_objs]. rewrite lookup_insert_eq. cbn [from_option id].
    split; [done|]. split; [intros st' Hne; by rewrite lookup_insert_ne|]. split; [lia|].
    unfold release. cbn [l_tokens]. by rewrite lookup_insert_eq.
Qed.

(** One key's calls, as a client makes them. *)
Fixpoint run_key (calls : list (Z * Z)) (keyID : Z) (l : Limits) : list Z * Limits :=
  match calls with
  | [] => ([], l)
  | (now, rpm) :: calls =>
      let '(res, l) := AcquireRPMPermit now keyID rpm l in
      let '(granted, l) := run_key calls keyID l in
      (match res with RpmOk => now :: granted | ErrRateLimited _ => granted end, l)
  end.

Definition window_of (keyID : Z) (l : Limits) : list Z := default [] (l_windows l !! keyID).

Lemma rpm_permit keyID now rpm l : 0 < rpm ->
  let '(res, l') := AcquireRPMPermit now keyID rpm l in
  let '(p, window) := try_permit now rpm (window_of keyID l) in
  window_of keyID l' = window /\ (res = RpmOk <-> p = Granted) /\
  (forall admitAt, p = Full admitAt -> res = ErrRateLimited (retry_seconds (admitAt - now))).
Proof.
  intros Hrpm. unfold AcquireRPMPermit. rewrite (proj2 (Z.leb_gt _ _) Hrpm).
  fold (window_of keyID l). destruct (try_permit now rpm (window_of keyID l)) as [[|a] win];
    unfold window_of; cbn; rewrite lookup_insert_eq; cbn; naive_solver.
Qed.

Lemma run_key_remembers keyID calls : forall l now granted,
  Forall (fun c => 0 < c.2) calls -> StronglySorted Z.le (now :: calls.*1) ->
  remembers now granted (window_of keyID l) ->
  let '(granted', l') := run_key calls keyID l in
  remembers (List.last calls.*1 now) (granted ++ granted') (window_of keyID l').
Proof.
  induction calls as [|[now' rpm] calls IH]; intros l now granted Hpos Hs Hrem; cbn.
  { by rewrite app_nil_r. }
  apply Forall_cons in Hpos as [Hrpm Hpos]. cbn in Hrpm, Hs.
  apply StronglySorted_inv in Hs as [Hs Hle]. apply Forall_cons in Hle as [Hle _].
  pose proof (rpm_permit keyID now' rpm l Hrpm) as Hp.
  destruct (AcquireRPMPermit now' keyID rpm l) as [res l1].
  destruct (try_permit now' rpm (window_of keyID l)) as [p win] eqn:Ht.
  destruct Hp as (Hwin & Hres & Hfull).
  pose proof (try_permit_remembers _ _ _ _ _ _ _ Hle Hrem Ht) as Hrem'.
  assert (Hlast : forall d, List.last calls.*1 d = List.last calls.*1 d) by done.
  assert (Hgoal : remembers now' (granted ++ (if decide (p = Granted) then [now'] else [])) (window_of keyID l1)).
  { rewrite Hwin. destruct p; cbn; [by apply Hrem'|]. rewrite app_nil_r. by apply Hrem'. }
  specialize (IH l1 now' _ Hpos Hs Hgoal).
  destruct (run_key calls keyID l1) as [g l2].
  replace (match calls.*1 with [] => now' | _ :: _ => List.last calls.*1 now end)
    with (List.last calls.*1 now').
  2: { destruct (calls.*1) as [|c cs]; [done|]. cbn. clear. revert c. induction cs; cbn; [done|].
       intros c. destruct cs; [done|]. apply (IHcs a). }
  destruct p as [|a].
  - rewrite (proj2 Hres eq_refl). cbn in IH. by rewrite <- app_assoc in IH.
  - rewrite (Hfull a eq_refl). cbn in IH. by rewrite app_nil_r in IH.
Qed.

(** The part of a sorted list before its last element. *)
Lemma sorted_before cs (x : Z) :
  StronglySorted Z.le (cs ++ [x]) -> StronglySorted Z.le cs /\ Forall (fun c => c <= x) cs.
Proof.
  induction cs as [|c cs IH]; intros Hs; [by repeat constructor|]. cbn in Hs.
  apply StronglySorted_inv in Hs as [Hs Hc]. apply Forall_app in Hc as [Hc Hx].
  rewrite Forall_singleton in Hx. destruct (IH Hs). by split; constructor.
Qed.

(** The state after any history on a fresh key remembers its grants. *)
Lemma run_key_fresh keyID calls l now :
  window_of keyID l = [] -> Forall (fun c => 0 < c.2) calls ->
  StronglySorted Z.le (calls.*1 ++ [now]) ->
  exists t, t <= now /\
    remembers t (run_key calls keyID l).1 (window_of keyID (run_key calls keyID l).2).
Proof.
  intros Hwin Hpos Hs. apply sorted_before in Hs as [Hs Hle].
  set (t0 := default now (head calls.*1)).
  assert (Hs0 : StronglySorted Z.le (t0 :: calls.*1)).
  { subst t0. destruct (calls.*1) as [|c cs]; cbn; [by repeat constructor|].
    apply StronglySorted_inv in Hs as Hs'. destruct Hs' as [_ Hc].
    constructor; [done|]. by constructor. }
  pose proof (run_key_remembers keyID calls l t0 [] Hpos Hs0) as H.
  rewrite Hwin in H. specialize (H (remembers_nil t0)).
  exists (List.last calls.*1 t0). split; [|by destruct (run_key calls keyID l)].
  subst t0. clear -Hle. destruct (calls.*1) as [|c cs] eqn:Hcs; [cbn; lia|].
  rewrite (app_removelast_last (default now (head (c :: cs))) (l := c :: cs)) in Hle by done.
  apply Forall_app in Hle as [_ Hle]. by rewrite Forall_singleton in Hle.
Qed.

Lemma count_window_snoc now granted :
  count_window now (granted ++ [now]) = count_window now granted + 1.
Proof.
  unfold count_window. rewrite filter_app, length_app. rewrite filter_cons_True; [cbn; lia|].
  unfold in_window, rpmWindow. rewrite (proj2 (Z.ltb_lt _ _)) by lia.
  by rewrite (proj2 (Z.leb_le _ _)) by lia.
Qed.

(** C11: the request rate is exact: after any history of calls of one key, at
    non-decreasing instants and under any positive limits, the next call is let
    through if and only if fewer than [rpm] calls were let through in the minute
    that ends at it. *)
Theorem rate_limit_exact keyID calls l now rpm :
  window_of keyID l = [] -> Forall (fun c => 0 < c.2) calls ->
  StronglySorted Z.le (calls.*1 ++ [now]) -> 0 < rpm ->
  (AcquireRPMPermit now keyID rpm (run_key calls keyID l).2).1 = RpmOk <->
  count_window now (run_key calls keyID l).1 < rpm.
Proof.
  intros Hwin Hpos Hs Hrpm. destruct (run_key_fresh keyID calls l now Hwin Hpos Hs) as (t & Ht & Hrem).
  destruct (run_key calls keyID l) as [granted l1]. cbn [fst snd] in *.
  pose proof (rpm_permit keyID now rpm l1 Hrpm) as Hp.
  destruct (AcquireRPMPermit now keyID rpm l1) as [res l2]. cbn [fst].
  destruct (try_permit now rpm (window_of keyID l1)) as [p win] eqn:Htry.
  pose proof (try_permit_remembers _ _ _ _ _ _ _ Ht Hrem Htry) as Hc.
  destruct Hp as (_ & -> & _). destruct p as [|a].
  - destruct Hc as [_ Hc]. rewrite count_window_snoc in Hc. split; [lia|done].
  - split; [done|]. lia.
Qed.

(** The advertised [Retry-After] is the exact number of whole seconds: a
    refused client that waits that long is let through when nobody used the key
    meanwhile, and waiting one second less is refused again. *)
Theorem retry_after_exact keyID calls l now rpm s :
  window_of keyID l = [] -> Forall (fun c => 0 < c.2) calls ->
  StronglySorted Z.le (calls.*1 ++ [now]) -> 0 < rpm ->
  (AcquireRPMPermit now keyID rpm (run_key calls keyID l).2).1 = ErrRateLimited s ->
  let l' := (AcquireRPMPermit now keyID rpm (run_key calls keyID l).2).2 in
  1 <= s /\
  (AcquireRPMPermit (now + s * 1000000000) keyID rpm l').1 = RpmOk /\
  (AcquireRPMPermit (now + (s - 1) * 1000000000) keyID rpm l').1 ≠ RpmOk.
Proof.
  intros Hwin Hpos Hs Hrpm Href. destruct (run_key_fresh keyID calls l now Hwin Hpos Hs) as (t & Ht & Hrem).
  destruct (run_key calls keyID l) as [granted l1]. cbn [fst snd] in *.
  pose proof (rpm_permit keyID now rpm l1 Hrpm) as Hp.
  destruct (AcquireRPMPermit now keyID rpm l1) as [res l2]. cbn [fst snd] in *. subst res.
  destruct (try_permit now rpm (window_of keyID l1)) as [p win] eqn:Htry.
  destruct Hp as (Hw & Hres & Hfull).
  destruct p as [|a]; [discriminate (proj2 Hres eq_refl)|].
  specialize (Hfull a eq_refl). injection Hfull as ->. cbv zeta.
  set (s := retry_seconds (a - now)).
  assert (Hretry : forall later, now <= later ->
    (AcquireRPMPermit later keyID rpm l2).1 = RpmOk <-> a <= later).
  { intros later Hle. pose proof (rpm_permit keyID later rpm l2 Hrpm) as Hp2.
    destruct (retry_exact now later rpm _ a win Hrpm (rm_sorted _ _ _ Hrem) Hle Htry) as [_ Hiff].
    rewrite Hw in Hp2. destruct (AcquireRPMPermit later keyID rpm l2) as [res2 l3].
    destruct (try_permit later rpm win) as [p2 win2]. cbn [fst] in *.
    destruct Hp2 as (_ & -> & _). exact Hiff. }
  destruct (retry_exact now now rpm _ a win Hrpm (rm_sorted _ _ _ Hrem) ltac:(lia) Htry) as [Hlt _].
  assert (Hs1 : 1 <= s /\ a - now <= s * 1000000000 /\ (s - 1) * 1000000000 < a - now).
  { subst s. unfold retry_seconds.
    pose proof (Z.div_mod (a - now + 999999999) 1000000000 ltac:(lia)).
    pose proof (Z.mod_pos_bound (a - now + 999999999) 1000000000 ltac:(lia)). lia. }
  split; [lia|]. rewrite !Hretry by lia. lia.
Qed.

(** ** Witnesses *)

(** Two grants under a limit of two, then a refusal. *)
Definition demo_calls : list (Z * Z) := [(0, 2); (10000000000, 2)].

Lemma slot_granted_iff_witness :
  (AcquireConcurrency 5 1 1 1 limits_init).1 = Slot 1 <-> live 1 (l_tokens limits_init) < 1.
Proof.
  apply (slot_granted_iff 5 1 1 1 limits_init).
  - apply rtc_refl.
  - lia.
  - reflexivity.
  - reflexivity.
Defined.

Lemma release_once_witness :
  let l := (AcquireConcurrency 5 1 1 1 limits_init).2 in
  (l_objs l).[1] = 1 /\ (l_objs (release 1 l)).[1] = 1 - 1.
Proof.
  cbv zeta. split; [vm_compute; reflexivity|].
  destruct (release_once 1 (AcquireConcurrency 5 1 1 1 limits_init).2 1 false) as [H _].
  - eapply rtc_l; [|apply rtc_refl]. by apply ls_acquire.
  - vm_compute. reflexivity.
  - rewrite H. vm_compute. reflexivity.
Defined.

Lemma rate_limit_exact_witness :
  (AcquireRPMPermit 60000000000 5 2 (run_key demo_calls 5 limits_init).2).1 = RpmOk.
Proof.
  apply (rate_limit_exact 5 demo_calls limits_init 60000000000 2).
  - reflexivity.
  - repeat constructor.
  - repeat constructor; vm_compute; discriminate.
  - lia.
  - vm_compute. reflexivity.
Defined.

Lemma retry_after_exact_witness :
  (AcquireRPMPermit 20000000000 5 2 (run_key demo_calls 5 limits_init).2).1 = ErrRateLimited 40 /\
  (AcquireRPMPermit 60000000000 5 2
     (AcquireRPMPermit 20000000000 5 2 (run_key demo_calls 5 limits_init).2).2).1 = RpmOk.
Proof.
  split; [vm_compute; reflexivity|].
  apply (retry_after_exact 5 demo_calls limits_init 20000000000 2 40).
  - reflexivity.
  - repeat constructor.
  - repeat constructor; vm_compute; discriminate.
  - lia.
  - vm_compute. reflexivity.
Defined.
