(* ===== verification/ChannelLimit.v ===== *)
(** * Channel concurrency and per-key request rate

    internal/relay/channellimit.go: a request waits for a slot of its channel (at
    most one second) and for a free place in the RPM window of its channel key.
    The wake-up channel that a release closes and replaces is a generation
    number; a waiter remembers the generation it saw under the lock. *)

From S2P Require Import Prelude Window.

(** ** State *)

(** [channelConcurrencyState]. *)
Record ChannelObj := mkObj { co_active : Z; co_wake : Z }.

(** A request inside [acquireChannelConcurrency], or past it. *)
Inductive Waiter :=
| Trying (st limit : Z)
| Waiting (st limit wake : Z)     (** in the [select], on that generation *)
| Holding (st : Z)                (** got a slot; the closure has not run *)
| Released (st : Z)               (** the closure has run at least once *)
| GaveUp (timeout : bool).        (** [errChannelConcurrencyFull], or [ctx.Err()] *)

#[export] Instance Waiter_eq_dec : EqDecision Waiter.
Proof. solve_decision. Defined.

Record ChannelLimits := mkCL {
  cl_objs : gmap Z ChannelObj;
  cl_states : gmap Z Z;                       (** channel -> counter object *)
  cl_waiters : gmap Z Waiter;                 (** one per request *)
  cl_windows : gmap (Z * string) (list Z);    (** channel key -> grants *)
}.

Definition cl_init : ChannelLimits := mkCL ∅ ∅ ∅ ∅.

Definition set_waiter (req : Z) (wt : Waiter) (l : ChannelLimits) : ChannelLimits :=
  mkCL (cl_objs l) (cl_states l) (<[req := wt]> (cl_waiters l)) (cl_windows l).
Definition set_obj (st : Z) (o : ChannelObj) (l : ChannelLimits) : ChannelLimits :=
  mkCL (<[st := o]> (cl_objs l)) (cl_states l) (cl_waiters l) (cl_windows l).

(** ** Concurrency slots *)

(** The entry of [acquireChannelConcurrency]: find or make the counter; [ref] is
    the address of a new one.  Without a limit nothing is recorded, and the
    returned release does nothing. *)
Definition acquire_enter (req channelID limit ref : Z) (l : ChannelLimits) : ChannelLimits :=
  if limit <=? 0 then l else
  match cl_states l !! channelID with
  | Some st => set_waiter req (Trying st limit) l
  | None =>
      set_waiter req (Trying ref limit)
        (mkCL (<[ref := mkObj 0 0]> (cl_objs l)) (<[channelID := ref]> (cl_states l))
           (cl_waiters l) (cl_windows l))
  end.

(** One turn of the loop under [st.mu]. *)
Definition acquire_try (req : Z) (l : ChannelLimits) : ChannelLimits :=
  match cl_waiters l !! req with
  | Some (Trying st limit) =>
      match cl_objs l !! st with
      | Some o =>
          if co_active o <? limit
          then set_waiter req (Holding st) (set_obj st (mkObj (co_active o + 1) (co_wake o)) l)
          else set_waiter req (Waiting st limit (co_wake o)) l
      | None => l
      end
  | _ => l
  end.

(** The [select]: the remembered generation has been closed. *)
Definition acquire_woken (req : Z) (l : ChannelLimits) : ChannelLimits :=
  match cl_waiters l !! req with
  | Some (Waiting st limit wake) =>
      match cl_objs l !! st with
      | Some o => if co_wake o =? wake then l else set_waiter req (Trying st limit) l
      | None => l
      end
  | _ => l
  end.

(** The other branches: the budget is used up, or the context is done. *)
Definition acquire_give_up (req : Z) (timeout : bool) (l : ChannelLimits) : ChannelLimits :=
  match cl_waiters l !! req with
  | Some (Waiting st limit wake) => set_waiter req (GaveUp timeout) l
  | _ => l
  end.

(** The closure returned to the request: [once.Do(st.release)]. *)
Definition channel_release (req : Z) (l : ChannelLimits) : ChannelLimits :=
  match cl_waiters l !! req with
  | Some (Holding st) =>
      match cl_objs l !! st with
      | Some o =>
          set_waiter req (Released st)
            (set_obj st (mkObj (if 0 <? co_active o then co_active o - 1 else co_active o)
                           (co_wake o + 1)) l)
      | None => l
      end
  | _ => l
  end.

(** ** Request rate *)

Definition set_windows (ws : gmap (Z * string) (list Z)) (l : ChannelLimits) : ChannelLimits :=
  mkCL (cl_objs l) (cl_states l) (cl_waiters l) ws.

(** The first result is the wait, in nanoseconds; [None] when granted. *)
Definition tryChannelRPMPermit (now : Z) (ref : Z * string) (rpm : Z) (l : ChannelLimits)
  : option Z * ChannelLimits :=
  let '(p, window) := try_permit now rpm (default [] (cl_windows l !! ref)) in
  (match p with Granted => None | Full admitAt => Some (admitAt - now) end,
   set_windows (<[ref := window]> (cl_windows l)) l).

(** What ends one [select] of [waitChannelRPM]. *)
Inductive rpm_event := TimerFired (now : Z) | CtxDone | AdminStop.
Inductive rpm_outcome := RpmAdmitted | RpmCtxErr | RpmAdminStopped | RpmStillWaiting.

(** [events] lists what ends each [select], with the clock of the next turn. *)
Fixpoint wait_rpm (events : list rpm_event) (now : Z) (ref : Z * string) (rpm : Z)
    (l : ChannelLimits) : rpm_outcome * ChannelLimits :=
  match tryChannelRPMPermit now ref rpm l with
  | (None, l) => (RpmAdmitted, l)
  | (Some wait, l) =>
      match events with
      | [] => (RpmStillWaiting, l)
      | TimerFired now :: events => wait_rpm events now ref rpm l
      | CtxDone :: _ => (RpmCtxErr, l)
      | AdminStop :: _ => (RpmAdminStopped, l)
      end
  end.

Definition waitChannelRPM (events : list rpm_event) (now channelID : Z) (keyID : string) (rpm : Z)
    (l : ChannelLimits) : rpm_outcome * ChannelLimits :=
  if rpm <=? 0 then (RpmAdmitted, set_windows (delete (channelID, keyID) (cl_windows l)) l)
  else wait_rpm events now (channelID, keyID) rpm l.

(** The result counts the windows removed. *)
Definition cleanupChannelLimits (channelID : Z) (l : ChannelLimits) : Z * ChannelLimits :=
  let kept := filter (fun kv => kv.1.1 ≠ channelID) (cl_windows l) in
  (Z.of_nat (size (cl_windows l)) - Z.of_nat (size kept),
   mkCL (cl_objs l) (delete channelID (cl_states l)) (cl_waiters l) kept).

(** ** Invariant *)

(** Requests that hold a slot of [st]. *)
Definition holders (st : Z) (waiters : gmap Z Waiter) : Z :=
  Z.of_nat (size (filter (fun kv => kv.2 = Holding st) waiters)).

Definition waits_on (wt : Waiter) : option Z :=
  match wt with
  | Trying st _ | Waiting st _ _ | Holding st | Released st => Some st
  | GaveUp _ => None
  end.

Record cl_ok (l : ChannelLimits) : Prop := {
  ok_active : forall st o, cl_objs l !! st = Some o -> co_active o = holders st (cl_waiters l);
  ok_states : forall ch st, cl_states l !! ch = Some st -> is_Some (cl_objs l !! st);
  ok_refs : forall req wt st, cl_waiters l !! req = Some wt -> waits_on wt = Some st ->
    is_Some (cl_objs l !! st);
  ok_wake : forall req st limit wake o,
    cl_waiters l !! req = Some (Waiting st limit wake) -> cl_objs l !! st = Some o ->
    wake <= co_wake o /\ (wake = co_wake o -> limit <= co_active o);
}.

Definition is_holding (st : Z) (o : option Waiter) : Z :=
  if decide (o = Some (Holding st)) then 1 else 0.

Lemma holders_insert st req wt waiters :
  holders st (<[req := wt]> waiters) =
    holders st waiters - is_holding st (waiters !! req) + is_holding st (Some wt).
Proof.
  unfold holders, is_holding.
  assert (Hdel : Z.of_nat (size (filter (fun kv => kv.2 = Holding st) (delete req waiters))) =
    Z.of_nat (size (filter (fun kv => kv.2 = Holding st) waiters)) -
    (if decide (waiters !! req = Some (Holding st)) then 1 else 0)).
  { rewrite map_filter_delete. case_decide as Hr.
    - assert (Hl : filter (fun kv => kv.2 = Holding st) waiters !! req = Some (Holding st))
        by (by apply map_lookup_filter_Some).
      rewrite map_size_delete_Some by eauto.
      enough (size (filter (fun kv : Z * Waiter => kv.2 = Holding st) waiters) ≠ 0)%nat by lia.
      rewrite map_size_non_empty_iff. intros He. rewrite He, lookup_empty in Hl. done.
    - rewrite delete_id; [lia|]. apply map_lookup_filter_None. right. intros x Hx Heq. cbn in Heq.
      by subst. }
  rewrite <- Hdel, <- insert_delete_eq.
  assert (Hnone : filter (fun kv => kv.2 = Holding st) (delete req waiters) !! req = None).
  { apply map_lookup_filter_None. left. apply lookup_delete_eq. }
  destruct (decide (Some wt = Some (Holding st))) as [Heq|Hne].
  - injection Heq as ->. rewrite map_filter_insert_True by done.
    rewrite map_size_insert_None by done. lia.
  - rewrite map_filter_insert_False by (cbn; congruence).
    rewrite (delete_id (delete req waiters)) by apply lookup_delete_eq. lia.
Qed.

Lemma holders_nonneg st waiters : 0 <= holders st waiters.
Proof. unfold holders. lia. Qed.

Lemma is_holding_not st wt : wt ≠ Holding st -> is_holding st (Some wt) = 0.
Proof. intros Hne. unfold is_holding. rewrite decide_False; congruence. Qed.

Lemma is_holding_yes st : is_holding st (Some (Holding st)) = 1.
Proof. unfold is_holding. by rewrite decide_True. Qed.

Lemma cl_init_ok : cl_ok cl_init.
Proof.
  split; cbn.
  - intros st o H. by rewrite lookup_empty in H.
  - intros ch st H. by rewrite lookup_empty in H.
  - intros req wt st H. by rewrite lookup_empty in H.
  - intros req st limit wake o H. by rewrite lookup_empty in H.
Qed.

(** A request that neither held a slot nor gets one. *)
Lemma set_waiter_ok req wt l :
  cl_ok l -> (forall st, is_holding st (cl_waiters l !! req) = 0) ->
  (forall st, wt ≠ Holding st) -> (forall st, waits_on wt = Some st -> is_Some (cl_objs l !! st)) ->
  (forall st limit wake o, wt = Waiting st limit wake -> cl_objs l !! st = Some o ->
     wake <= co_wake o /\ (wake = co_wake o -> limit <= co_active o)) ->
  cl_ok (set_waiter req wt l).
Proof.
  intros Hok Hold Hnew Hst Hwake. split; cbn.
  - intros st o Ho. rewrite holders_insert, Hold, is_holding_not by done.
    rewrite (ok_active _ Hok st o Ho). lia.
  - apply Hok.
  - intros r wt' st Hr Hw. rewrite lookup_insert in Hr. case_decide; [injection Hr as <-; by apply Hst|].
    by apply (ok_refs _ Hok r wt').
  - intros r st limit wake o Hr Ho. rewrite lookup_insert in Hr.
    case_decide; [injection Hr as ->; by eapply Hwake|]. by apply (ok_wake _ Hok r st limit).
Qed.

Lemma enter_ok req ch limit ref l :
  cl_ok l -> cl_waiters l !! req = None -> cl_objs l !! ref = None ->
  cl_ok (acquire_enter req ch limit ref l).
Proof.
  intros Hok Hreq Href. unfold acquire_enter. destruct (limit <=? 0); [done|].
  destruct (cl_states l !! ch) as [st|] eqn:Hst.
  - apply set_waiter_ok; try done.
    + intros st'. by rewrite Hreq.
    + intros st' [= <-]. by apply (ok_states _ Hok ch).
  - assert (Hfresh : holders ref (cl_waiters l) = 0).
    { unfold holders. replace (filter _ (cl_waiters l)) with (∅ : gmap Z Waiter); [done|].
      symmetry. apply map_empty. intros r. apply map_lookup_filter_None. right. intros wt Hw Heq.
      cbn in Heq. subst. destruct (ok_refs _ Hok r _ ref Hw eq_refl). congruence. }
    apply set_waiter_ok; cbn.
    + split; cbn.
      * intros st o. rewrite lookup_insert. case_decide; [|apply Hok].
        intros [= <-]. subst. by rewrite Hfresh.
      * intros c st. rewrite !lookup_insert. case_decide.
        -- intros [= <-]. rewrite decide_True by done. eauto.
        -- intros Hc. case_decide; [eauto|]. by apply (ok_states _ Hok c).
      * intros r wt st Hr Hw. rewrite lookup_insert. case_decide; [eauto|].
        by apply (ok_refs _ Hok r wt).
      * intros r st lim wake o Hr. rewrite lookup_insert. case_decide as Heq; [|by apply (ok_wake _ Hok r)].
        subst. destruct (ok_refs _ Hok r _ st Hr eq_refl). congruence.
    + intros st. by rewrite Hreq.
    + done.
    + intros st [= <-]. rewrite lookup_insert_eq. eauto.
    + done.
Qed.

(** A request moves in or out of [Holding st] together with the counter. *)
Lemma move_ok req st o o' wt l :
  cl_ok l -> cl_objs l !! st = Some o -> waits_on wt = Some st ->
  (forall lim wake, wt ≠ Waiting st lim wake) -> (forall st', wt = Holding st' -> st' = st) ->
  (forall st', st' ≠ st -> is_holding st' (cl_waiters l !! req) = 0) ->
  co_active o' = co_active o - is_holding st (cl_waiters l !! req) + is_holding st (Some wt) ->
  co_wake o <= co_wake o' -> (co_wake o = co_wake o' -> co_active o <= co_active o') ->
  cl_ok (set_waiter req wt (set_obj st o' l)).
Proof.
  intros Hok Ho Hw Hnw Hst Hold Hact Hwk Hgrow. split; cbn.
  - intros s os. rewrite lookup_insert, holders_insert. case_decide as Heq.
    + intros [= <-]. subst. by rewrite Hact, (ok_active _ Hok s o Ho).
    + intros Hs. rewrite (ok_active _ Hok s os Hs), Hold by done.
      rewrite is_holding_not; [lia|]. intros ->. apply Heq. symmetry. by apply Hst.
  - intros c s Hc. rewrite lookup_insert. case_decide; [eauto|]. by apply (ok_states _ Hok c).
  - intros r wt' s Hr Hwt. rewrite lookup_insert. case_decide; [eauto|].
    rewrite lookup_insert in Hr. case_decide; [|by apply (ok_refs _ Hok r wt')].
    injection Hr as <-. congruence.
  - intros r s lim wake os Hr. rewrite lookup_insert in Hr. case_decide.
    { injection Hr as ->. cbn in Hw. injection Hw as ->. by destruct (Hnw lim wake). }
    rewrite lookup_insert. case_decide as Heq; [|by apply (ok_wake _ Hok r)].
    intros [= <-]. subst. destruct (ok_wake _ Hok r _ _ _ _ Hr Ho) as [Hle Himp].
    split; [lia|]. intros ->. assert (Hsame : co_wake o = co_wake o') by lia.
    specialize (Himp (eq_sym Hsame)). specialize (Hgrow Hsame). lia.
Qed.

Lemma holding_wait req wt st l :
  cl_waiters l !! req = Some wt -> wt ≠ Holding st -> is_holding st (cl_waiters l !! req) = 0.
Proof. intros Hr Hne. rewrite Hr. by apply is_holding_not. Qed.

Lemma try_ok req l : cl_ok l -> cl_ok (acquire_try req l).
Proof.
  intros Hok. unfold acquire_try.
  destruct (cl_waiters l !! req) as [[st limit| | | |]|] eqn:Hr; try done.
  destruct (cl_objs l !! st) as [o|] eqn:Ho; [|done]. case_match eqn:Hfree.
  - apply (move_ok req st o); try done; cbn.
    + intros st' [= <-]. done.
    + intros st' _. by rewrite Hr, is_holding_not.
    + rewrite Hr, is_holding_yes, is_holding_not by done. lia.
    + lia.
  - apply set_waiter_ok; try done.
    + intros st'. by rewrite Hr, is_holding_not.
    + intros st' [= <-]. eauto.
    + intros st' lim wake o' [= <- <- <-]. rewrite Ho. intros [= <-]. split; [lia|]. intros _. lia.
Qed.

Lemma woken_ok req l : cl_ok l -> cl_ok (acquire_woken req l).
Proof.
  intros Hok. unfold acquire_woken.
  destruct (cl_waiters l !! req) as [[|st limit wake| | |]|] eqn:Hr; try done.
  destruct (cl_objs l !! st) as [o|] eqn:Ho; [|done]. case_match; [done|].
  apply set_waiter_ok; try done.
  - intros st'. by rewrite Hr, is_holding_not.
  - intros st' [= <-]. eauto.
Qed.

Lemma give_up_ok req b l : cl_ok l -> cl_ok (acquire_give_up req b l).
Proof.
  intros Hok. unfold acquire_give_up.
  destruct (cl_waiters l !! req) as [[|st limit wake| | |]|] eqn:Hr; try done.
  apply set_waiter_ok; try done. intros st'. by rewrite Hr, is_holding_not.
Qed.

(** A holder is counted. *)
Lemma holding_pos req st o l :
  cl_ok l -> cl_waiters l !! req = Some (Holding st) -> cl_objs l !! st = Some o -> 0 < co_active o.
Proof.
  intros Hok Hr Ho. rewrite (ok_active _ Hok st o Ho).
  pose proof (holders_insert st req (GaveUp true) (cl_waiters l)) as H.
  rewrite Hr, is_holding_yes, is_holding_not in H by done.
  pose proof (holders_nonneg st (<[req := GaveUp true]> (cl_waiters l))). lia.
Qed.

Lemma channel_release_ok req l : cl_ok l -> cl_ok (channel_release req l).
Proof.
  intros Hok. unfold channel_release.
  destruct (cl_waiters l !! req) as [[| |st| |]|] eqn:Hr; try done.
  destruct (cl_objs l !! st) as [o|] eqn:Ho; [|done].
  pose proof (holding_pos req st o l Hok Hr Ho) as Hpos.
  rewrite (proj2 (Z.ltb_lt _ _) Hpos).
  apply (move_ok req st o); try done; cbn.
  - intros st' Hne. rewrite Hr. apply is_holding_not. congruence.
  - rewrite Hr, is_holding_yes, is_holding_not by done. lia.
  - lia.
  - lia.
Qed.

Lemma windows_ok ws l : cl_ok l -> cl_ok (set_windows ws l).
Proof. by intros []. Qed.

Lemma wait_rpm_ok events now ref rpm l : cl_ok l -> cl_ok (wait_rpm events now ref rpm l).2.
Proof.
  revert now l. induction events as [|e events IH]; intros now l Hok; cbn;
    unfold tryChannelRPMPermit;
    destruct (try_permit now rpm (default [] (cl_windows l !! ref))) as [[|a] win];
    try (by apply windows_ok).
  destruct e; try (by apply windows_ok). apply IH. by apply windows_ok.
Qed.

(** ** Steps: any number of requests, interleaved at their critical sections *)

Inductive channel_step : ChannelLimits -> ChannelLimits -> Prop :=
| cs_enter req ch limit ref l :
    0 < limit -> cl_waiters l !! req = None -> cl_objs l !! ref = None ->
    channel_step l (acquire_enter req ch limit ref l)
| cs_try req l : channel_step l (acquire_try req l)
| cs_woken req l : channel_step l (acquire_woken req l)
| cs_give_up req b l : channel_step l (acquire_give_up req b l)
| cs_release req l : channel_step l (channel_release req l)
| cs_rpm events now ch key rpm l : channel_step l (waitChannelRPM events now ch key rpm l).2
| cs_cleanup ch l : channel_step l (cleanupChannelLimits ch l).2.

Lemma channel_step_ok l l' : channel_step l l' -> cl_ok l -> cl_ok l'.
Proof.
  destruct 1; intros Hok.
  - by apply enter_ok.
  - by apply try_ok.
  - by apply woken_ok.
  - by apply give_up_ok.
  - by apply channel_release_ok.
  - unfold waitChannelRPM. case_match; [by apply windows_ok | by apply wait_rpm_ok].
  - destruct Hok. split; cbn; try done. intros c st [_ Hc]%lookup_delete_Some. eauto.
Qed.

Definition channel_reachable (l : ChannelLimits) : Prop := rtc channel_step cl_init l.

Lemma channel_reachable_ok l : channel_reachable l -> cl_ok l.
Proof.
  unfold channel_reachable. pose proof cl_init_ok as Hinit. revert Hinit. generalize cl_init.
  intros l0 Hinit Hr. revert Hinit.
  induction Hr as [|x y z Hs _ IH]; [done|]. intros Hx. apply IH. by eapply channel_step_ok.
Qed.

(** ** Contracts *)

(** C12: a channel never serves more requests than allowed: with any number of
    requests waiting, woken, giving up and releasing concurrently, and the limit
    changing between requests, the counter is the number of holders, and a turn
    of the loop grants the slot exactly when that number is below the limit of
    the request. *)
Theorem channel_slot_granted_iff req l st limit o :
  channel_reachable l -> cl_waiters l !! req = Some (Trying st limit) -> cl_objs l !! st = Some o ->
  co_active o = holders st (cl_waiters l) /\
  (cl_waiters (acquire_try req l) !! req = Some (Holding st) <-> holders st (cl_waiters l) < limit) /\
  (holders st (cl_waiters l) < limit -> holders st (cl_waiters (acquire_try req l)) <= limit) /\
  (limit <= holders st (cl_waiters l) ->
     cl_waiters (acquire_try req l) !! req = Some (Waiting st limit (co_wake o)) /\
     holders st (cl_waiters (acquire_try req l)) = holders st (cl_waiters l)).
Proof.
  intros Hreach Hr Ho. apply channel_reachable_ok in Hreach as Hok.
  pose proof (ok_active _ Hok st o Ho) as Hact. split; [done|].
  unfold acquire_try. rewrite Hr, Ho, Hact.
  destruct (Z.ltb_spec (holders st (cl_waiters l)) limit) as [Hlt|Hge]; cbn.
  - rewrite lookup_insert_eq, holders_insert, Hr, is_holding_yes, is_holding_not by done.
    split; [done|]. split; lia.
  - rewrite lookup_insert_eq, holders_insert, Hr, !is_holding_not by done.
    split; [split; [done|lia]|]. split; [lia|]. split; [done|lia].
Qed.

(** C13: no wake-up is lost: in every reachable state, a request still waiting on
    the generation it remembered faces a full counter, so as soon as a release
    leaves room for it, its [select] can fire and it tries again. *)
Theorem no_lost_wakeup req l st limit wake o :
  channel_reachable l -> cl_waiters l !! req = Some (Waiting st limit wake) ->
  cl_objs l !! st = Some o -> holders st (cl_waiters l) < limit ->
  cl_waiters (acquire_woken req l) !! req = Some (Trying st limit) /\
  cl_waiters (acquire_try req (acquire_woken req l)) !! req = Some (Holding st).
Proof.
  intros Hreach Hr Ho Hlt. apply channel_reachable_ok in Hreach as Hok.
  pose proof (ok_active _ Hok st o Ho) as Hact.
  destruct (ok_wake _ Hok req st limit wake o Hr Ho) as [Hle Himp].
  unfold acquire_woken. rewrite Hr, Ho.
  destruct (Z.eqb_spec (co_wake o) wake) as [Heq|Hne]; [specialize (Himp (eq_sym Heq)); lia|].
  cbn. rewrite lookup_insert_eq. split; [done|].
  unfold acquire_try. cbn. rewrite lookup_insert_eq, Ho.
  rewrite (proj2 (Z.ltb_lt _ _)) by lia. cbn. by rewrite lookup_insert_eq.
Qed.

(** Releasing is idempotent and never drives the counter below the number
    of requests in flight, also after the channel was deleted or recreated. *)
Theorem channel_release_once req l st o :
  channel_reachable l -> cl_waiters l !! req = Some (Holding st) -> cl_objs l !! st = Some o ->
  let l' := channel_release req l in
  cl_objs l' !! st = Some (mkObj (co_active o - 1) (co_wake o + 1)) /\
  0 <= co_active o - 1 /\ holders st (cl_waiters l') = holders st (cl_waiters l) - 1 /\
  channel_release req l' = l'.
Proof.
  intros Hreach Hr Ho. apply channel_reachable_ok in Hreach as Hok. cbv zeta.
  pose proof (holding_pos req st o l Hok Hr Ho) as Hpos.
  assert (Hl : channel_release req l = set_waiter req (Released st)
    (set_obj st (mkObj (co_active o - 1) (co_wake o + 1)) l)).
  { unfold channel_release. by rewrite Hr, Ho, (proj2 (Z.ltb_lt _ _) Hpos). }
  rewrite Hl. cbn [cl_objs set_waiter set_obj cl_waiters]. rewrite lookup_insert_eq. split; [done|].
  split; [lia|]. rewrite holders_insert, Hr, is_holding_yes, is_holding_not by done.
  split; [lia|]. unfold channel_release. cbn. by rewrite lookup_insert_eq.
Qed.

(** A request that waits for the RPM window of its channel key needs one
    timer: if it is refused at [now] with a window of non-decreasing instants and
    nobody else uses the key, the advertised wait is positive, a timer fired at or
    after it admits the request, and an administrator's stop ends the wait. *)
Theorem rpm_wait_admits now later ref rpm l wait l' rest :
  0 < rpm -> StronglySorted Z.le (default [] (cl_windows l !! ref)) ->
  tryChannelRPMPermit now ref rpm l = (Some wait, l') -> now + wait <= later ->
  0 < wait /\
  (wait_rpm (TimerFired later :: rest) now ref rpm l).1 = RpmAdmitted /\
  (wait_rpm (AdminStop :: rest) now ref rpm l).1 = RpmAdminStopped.
Proof.
  intros Hrpm Hs Htry Hlater. cbn [wait_rpm]. rewrite Htry. cbn.
  unfold tryChannelRPMPermit in Htry.
  destruct (try_permit now rpm (default [] (cl_windows l !! ref))) as [[|a] win] eqn:Hp; [done|].
  injection Htry as Hwait <-.
  destruct (retry_exact now now rpm _ a win Hrpm Hs ltac:(lia) Hp) as [Hlt _].
  destruct (retry_exact now later rpm _ a win Hrpm Hs ltac:(lia) Hp) as [_ Hiff].
  split; [lia|]. split; [|done].
  assert (Hg : (try_permit later rpm win).1 = Granted) by (apply Hiff; lia).
  destruct rest; cbn; unfold tryChannelRPMPermit; cbn; rewrite lookup_insert_eq; cbn;
    destruct (try_permit later rpm win) as [p win2]; cbn in Hg; by subst p.
Qed.

(** ** Witnesses *)

(** Requests 1 and 2 on channel 9 with one slot: the second waits, the first
    releases. *)
Definition demo_one : ChannelLimits := acquire_try 1 (acquire_enter 1 9 1 100 cl_init).
Definition demo_two : ChannelLimits := acquire_enter 2 9 1 101 demo_one.
Definition demo_waiting : ChannelLimits := acquire_try 2 demo_two.
Definition demo_freed : ChannelLimits := channel_release 1 demo_waiting.

Lemma demo_one_reachable : channel_reachable demo_one.
Proof.
  eapply rtc_l; [|eapply rtc_l; [|apply rtc_refl]].
  - by apply (cs_enter 1 9 1 100 cl_init).
  - apply cs_try.
Qed.

Lemma demo_two_reachable : channel_reachable demo_two.
Proof. eapply rtc_r; [exact demo_one_reachable|]. by apply cs_enter. Qed.

Lemma demo_freed_reachable : channel_reachable demo_freed.
Proof.
  eapply rtc_r; [eapply rtc_r; [exact demo_two_reachable | apply (cs_try 2)]|]. apply cs_release.
Qed.

Lemma channel_slot_granted_iff_witness :
  cl_waiters demo_two !! 2 = Some (Trying 100 1) /\
  cl_waiters (acquire_try 2 demo_two) !! 2 = Some (Waiting 100 1 0).
Proof.
  split; [vm_compute; reflexivity|].
  refine (proj1 (proj2 (proj2 (proj2 (channel_slot_granted_iff 2 demo_two 100 1 (mkObj 1 0)
    demo_two_reachable _ _))) _)).
  - vm_compute. reflexivity.
  - vm_compute. reflexivity.
  - vm_compute. discriminate.
Defined.

Lemma no_lost_wakeup_witness :
  cl_waiters demo_freed !! 2 = Some (Waiting 100 1 0) /\
  cl_waiters (acquire_try 2 (acquire_woken 2 demo_freed)) !! 2 = Some (Holding 100).
Proof.
  split; [vm_compute; reflexivity|].
  refine (proj2 (no_lost_wakeup 2 demo_freed 100 1 0 (mkObj 0 1) demo_freed_reachable _ _ _)).
  - vm_compute. reflexivity.
  - vm_compute. reflexivity.
  - vm_compute. reflexivity.
Defined.

Lemma channel_release_once_witness :
  cl_objs (channel_release 1 demo_one) !! 100 = Some (mkObj 0 1).
Proof.
  refine (proj1 (channel_release_once 1 demo_one 100 (mkObj 1 0) demo_one_reachable _ _)).
  - vm_compute. reflexivity.
  - vm_compute. reflexivity.
Defined.

Lemma rpm_wait_admits_witness :
  let l := (tryChannelRPMPermit 0 (9, "k") 1 cl_init).2 in
  (wait_rpm [TimerFired 60000000000] 20000000000 (9, "k") 1 l).1 = RpmAdmitted.
Proof.
  cbv zeta.
  refine (proj1 (proj2 (rpm_wait_admits 20000000000 60000000000 (9, "k") 1
    (tryChannelRPMPermit 0 (9, "k") 1 cl_init).2 40000000000
    (tryChannelRPMPermit 20000000000 (9, "k") 1 (tryChannelRPMPermit 0 (9, "k") 1 cl_init).2).2
    [] _ _ _ _))).
  - lia.
  - vm_compute. repeat constructor.
  - vm_compute. reflexivity.
  - lia.
Defined.
