(* ===== verification/KeySelect.v ===== *)
(** * Channel keys

    relay/keyselect.go: the round-robin choice among the keys of a channel, the
    cooldown of a rejected key, and the health state that channel deletion and
    the periodic pruning clean up. *)

From S2P Require Import Prelude GoStrings Float64 GroupModel Protocol Backoff Hub Route Window ChannelLimit.

(** ** State *)

(** [keyCursors] and [keyCooldowns]; deadlines in nanoseconds. *)
Record KeyHealth := mkHealth {
  kh_cursors : gmap Z Z;                  (** channel -> [atomic.Uint64] *)
  kh_cooldowns : gmap (Z * string) Z;     (** channel key -> deadline *)
}.

Definition health_init : KeyHealth := mkHealth ∅ ∅.

Definition set_cooldowns (c : gmap (Z * string) Z) (h : KeyHealth) : KeyHealth :=
  mkHealth (kh_cursors h) c.

(** ** Cooldowns *)

Definition markChannelKeyCooldown (now channelID : Z) (keyID : string) (seconds : Z) (h : KeyHealth)
  : KeyHealth :=
  let seconds := if seconds <? 1 then MemberCooldownSeconds DefaultGroupRelayConfig else seconds in
  set_cooldowns (<[(channelID, keyID) := now + seconds * 1000000000]> (kh_cooldowns h)) h.

(** The clock is read under the read lock and again under the write lock. *)
Definition channelKeyCooling (now now2 channelID : Z) (keyID : string) (h : KeyHealth)
  : bool * KeyHealth :=
  match kh_cooldowns h !! (channelID, keyID) with
  | None => (false, h)
  | Some deadline =>
      if now <? deadline then (true, h)
      else
        (false,
         match kh_cooldowns h !! (channelID, keyID) with
         | Some d =>
             if negb (now2 <? d) then set_cooldowns (delete (channelID, keyID) (kh_cooldowns h)) h else h
         | None => h
         end)
  end.

(** ** Selection *)

(** A scan over candidates with their indices; [clock] is read per candidate. *)
Fixpoint scan_keys (clock : nat -> Z) (n : nat) (channelID : Z) (candidates : list (Z * ChannelKey))
    (h : KeyHealth) : option (Z * ChannelKey) * KeyHealth :=
  match candidates with
  | [] => (None, h)
  | (idx, candidate) :: candidates =>
      let '(cooling, h) := channelKeyCooling (clock n) (clock n) channelID (key_ID candidate) h in
      if cooling then scan_keys clock (S n) channelID candidates h
      else (Some (idx, candidate), h)
  end.

(** The ring order from [start]: index [(start + offset) % len]. *)
Definition ring (start : Z) (keys : list ChannelKey) : list (Z * ChannelKey) :=
  (fun offset : nat =>
     let idx := (start + Z.of_nat offset) mod Z.of_nat (length keys) in
     (idx, nth (Z.to_nat idx) keys (mkKey "" "" ""))) <$> seq 0 (length keys).

(** The Go results [(index, effective, ok)]; [None] is [ok = false]. *)
Definition selectChannelKey (clock : nat -> Z) (channel : Channel) (h : KeyHealth)
  : option (Z * ChannelKey) * KeyHealth :=
  match ch_Keys channel with
  | [] => (Some (0, mkKey "" (ch_Key channel) ""), h)
  | keys =>
      let cursor := (kh_cursors h).[ch_ID channel] in
      let ticket := (cursor + 1) mod 2 ^ 64 in
      let h := mkHealth (<[ch_ID channel := ticket]> (kh_cursors h)) (kh_cooldowns h) in
      let start := ((ticket - 1) mod 2 ^ 64) mod Z.of_nat (length keys) in
      scan_keys clock 0 (ch_ID channel) (ring start keys) h
  end.

Definition indexed (keys : list ChannelKey) : list (Z * ChannelKey) := zip (Z.of_nat <$> seq 0 (length keys)) keys.

Definition selectProbeChannelKey (clock : nat -> Z) (channel : Channel) (h : KeyHealth)
  : option (Z * ChannelKey) * KeyHealth :=
  match ch_Keys channel with
  | [] => (Some (0, mkKey "" (ch_Key channel) ""), h)
  | keys => scan_keys clock 0 (ch_ID channel) (indexed keys) h
  end.

(** ** Effective channels

    [ResolveProxyTemplate] and [AccountAliasFor] (internal/helper) are arguments. *)

Definition AccountPlaceholder : string := "{account}".
Definition HasAccountPlaceholder (template : string) : bool :=
  existsb (str_contains template)
    [AccountPlaceholder; "%7Baccount%7D"; "%7baccount%7d"; "%7Baccount%7d"; "%7baccount%7D"].

Inductive key_error :=
| ErrAllChannelKeysCooling | ErrProxyTemplateInvalid | ErrChannelDisabled | ErrWarpProbeUnsupported.

Section effective.
Variable ResolveProxyTemplate : string -> string -> option string.
Variable AccountAliasFor : Z -> string -> string.

Definition with_key (channel : Channel) (key : string) (proxy : option string) : Channel :=
  mkChannel (ch_ID channel) (ch_Type channel) (ch_Enabled channel) key [] proxy
    (ch_PassThroughBodyEnabled channel) (ch_OpencodeCompat channel) (ch_MaxConcurrent channel)
    (ch_RateLimitRPM channel) (ch_Name channel) (ch_BaseURL channel) (ch_Keyed channel)
    (ch_Proxy channel) (ch_OpencodeLane channel) (ch_ModelLimits channel).

Definition effectiveChannelForKey (channel : Channel) (selected : ChannelKey) : Channel + key_error :=
  let effective := with_key channel (key_Key selected) (ch_ChannelProxy channel) in
  match ch_ChannelProxy channel with
  | None => inl effective
  | Some proxy =>
      if negb (HasAccountPlaceholder proxy) then inl effective
      else if isWarpProxy channel then inl effective
      else
        match ResolveProxyTemplate proxy (AccountAliasFor (ch_ID channel) (key_ID selected)) with
        | None => inr ErrProxyTemplateInvalid
        | Some addr => inl (with_key channel (key_Key selected) (Some addr))
        end
  end.

Definition effectiveProbeChannel (clock : nat -> Z) (channel : Channel) (h : KeyHealth)
  : (Channel * Z * ChannelKey + key_error) * KeyHealth :=
  if isWarpProxy channel then (inr ErrWarpProbeUnsupported, h)
  else if (0 <? ch_ID channel) && negb (ch_Enabled channel) then (inr ErrChannelDisabled, h)
  else
    match selectProbeChannelKey clock channel h with
    | (None, h) => (inr ErrAllChannelKeysCooling, h)
    | (Some (index, selected), h) =>
        (match effectiveChannelForKey channel selected with
         | inl effective => inl (effective, index, selected)
         | inr e => inr e
         end, h)
    end.
End effective.

(** ** Cleaning *)

(** The result counts the removed entries. *)
Definition PruneExpiredKeyCooldowns (now : Z) (h : KeyHealth) : Z * KeyHealth :=
  let kept := filter (fun kv => now < kv.2) (kh_cooldowns h) in
  (Z.of_nat (size (kh_cooldowns h)) - Z.of_nat (size kept), set_cooldowns kept h).

Definition drop_channel_cooldowns (channelID : Z) (h : KeyHealth) : KeyHealth :=
  set_cooldowns (filter (fun kv => kv.1.1 ≠ channelID) (kh_cooldowns h)) h.

Definition ClearChannelKeyStateForUI (channelID : Z) (s : KeyHealth * ChannelLimits)
  : (Z * Z) * (KeyHealth * ChannelLimits) :=
  let h := drop_channel_cooldowns channelID s.1 in
  let '(rateWindows, l) := cleanupChannelLimits channelID s.2 in
  ((Z.of_nat (size (kh_cooldowns s.1)) - Z.of_nat (size (kh_cooldowns h)), rateWindows), (h, l)).

Definition CleanupChannelKeyState (channelID : Z) (s : KeyHealth * ChannelLimits)
  : KeyHealth * ChannelLimits :=
  let h := mkHealth (delete channelID (kh_cursors s.1)) (kh_cooldowns s.1) in
  (drop_channel_cooldowns channelID h, (cleanupChannelLimits channelID s.2).2).

(** ** Lemmas *)

Definition cooling (h : KeyHealth) (channelID now : Z) (keyID : string) : bool :=
  match kh_cooldowns h !! (channelID, keyID) with Some d => now <? d | None => false end.

Lemma cooling_answer now channelID keyID h :
  (channelKeyCooling now now channelID keyID h).1 = cooling h channelID now keyID.
Proof. unfold channelKeyCooling, cooling. by case_ifs. Qed.

(** The eviction of an expired entry is not observable at or after that instant. *)
Lemma cooling_evict now channelID keyID h ch' k' t :
  now <= t -> cooling (channelKeyCooling now now channelID keyID h).2 ch' t k' = cooling h ch' t k'.
Proof.
  intros Ht. unfold channelKeyCooling.
  destruct (kh_cooldowns h !! (channelID, keyID)) as [d|] eqn:Hd; [|done].
  destruct (Z.ltb_spec now d); [done|]. cbn. unfold cooling. cbn. rewrite lookup_delete.
  case_decide as Heq; [|done]. injection Heq as -> ->. rewrite Hd. symmetry. apply Z.ltb_ge. lia.
Qed.

Lemma cooling_cursors now channelID keyID h :
  kh_cursors (channelKeyCooling now now channelID keyID h).2 = kh_cursors h.
Proof. unfold channelKeyCooling. by case_ifs. Qed.

(** What the scan returns, with a clock that does not run backwards. *)
Lemma scan_keys_spec clock n channelID candidates h :
  (forall a b, (a <= b)%nat -> clock a <= clock b) ->
  match (scan_keys clock n channelID candidates h).1 with
  | Some (idx, k) =>
      exists before after, candidates = before ++ (idx, k) :: after /\
        cooling h channelID (clock (n + length before)%nat) (key_ID k) = false /\
        forall j c, before !! j = Some c -> cooling h channelID (clock (n + j)%nat) (key_ID c.2) = true
  | None =>
      forall j c, candidates !! j = Some c -> cooling h channelID (clock (n + j)%nat) (key_ID c.2) = true
  end.
Proof.
  intros Hmono. revert n h. induction candidates as [|[idx k] candidates IH]; intros n h; cbn; [done|].
  pose proof (cooling_answer (clock n) channelID (key_ID k) h) as Ha.
  pose proof (fun t => cooling_evict (clock n) channelID (key_ID k) h channelID (key_ID k) t) as _.
  pose proof (fun k' t => cooling_evict (clock n) channelID (key_ID k) h channelID k' t) as He.
  destruct (channelKeyCooling (clock n) (clock n) channelID (key_ID k) h) as [c h1]. cbn [fst snd] in *.
  destruct c.
  - specialize (IH (S n) h1). destruct (scan_keys clock (S n) channelID candidates h1).1 as [[i k']|].
    + destruct IH as (before & after & -> & Hc & Hb). exists ((idx, k) :: before), after.
      split; [done|]. split.
      * rewrite <- Hc. cbn [length]. rewrite Nat.add_succ_r. symmetry. apply He. apply Hmono. lia.
      * intros [|j] c Hj; cbn in Hj; [injection Hj as <-; by rewrite Nat.add_0_r|].
        rewrite <- (Hb j c Hj), Nat.add_succ_r. symmetry. apply He, Hmono. lia.
    + intros [|j] c Hj; cbn in Hj; [injection Hj as <-; by rewrite Nat.add_0_r|].
      rewrite <- (IH j c Hj), Nat.add_succ_r. symmetry. apply He, Hmono. lia.
  - exists [], candidates. split; [done|]. cbn. rewrite Nat.add_0_r. split; [done|].
    intros j c Hj. by rewrite lookup_nil in Hj.
Qed.

Lemma scan_keys_cursors clock n channelID candidates h :
  kh_cursors (scan_keys clock n channelID candidates h).2 = kh_cursors h.
Proof.
  revert n h. induction candidates as [|[idx k] candidates IH]; intros n h; cbn; [done|].
  pose proof (cooling_cursors (clock n) channelID (key_ID k) h) as Hc.
  destruct (channelKeyCooling _ _ _ _ h) as [[] h1]; cbn in *; [|done]. rewrite IH. exact Hc.
Qed.

Lemma ring_lookup start keys j c :
  ring start keys !! j = Some c ->
  (j < length keys)%nat /\
  c.1 = (start + Z.of_nat j) mod Z.of_nat (length keys) /\
  0 <= c.1 < Z.of_nat (length keys) /\ keys !! Z.to_nat c.1 = Some c.2.
Proof.
  unfold ring. rewrite list_lookup_fmap. intros Hj.
  destruct (seq 0 (length keys) !! j) as [o|] eqn:Ho; [|done].
  apply lookup_seq in Ho as [-> Hlt]. cbn in Hj. injection Hj as <-. cbn.
  assert (Hb : 0 <= (start + Z.of_nat j) mod Z.of_nat (length keys) < Z.of_nat (length keys))
    by (apply Z.mod_pos_bound; lia).
  split; [done|]. split; [done|]. split; [done|].
  destruct (lookup_lt_is_Some_2 keys (Z.to_nat ((start + Z.of_nat j) mod Z.of_nat (length keys))))
    as [k Hk]; [lia|]. rewrite Hk. f_equal. symmetry. by apply nth_lookup_Some.
Qed.

Lemma ring_in start keys i k :
  keys !! i = Some k -> exists j, ring start keys !! j = Some (Z.of_nat i, k).
Proof.
  intros Hi. pose proof (lookup_lt_Some _ _ _ Hi) as Hlt.
  set (n := Z.of_nat (length keys)). assert (Hn : 0 < n) by (subst n; lia).
  exists (Z.to_nat ((Z.of_nat i - start) mod n)).
  assert (Hb : 0 <= (Z.of_nat i - start) mod n < n) by (by apply Z.mod_pos_bound).
  assert (Hlt2 : (Z.to_nat ((Z.of_nat i - start) mod n) < length keys)%nat) by (subst n; lia).
  unfold ring. rewrite list_lookup_fmap.
  rewrite (proj2 (lookup_seq 0 (length keys) (Z.to_nat ((Z.of_nat i - start) mod n)) _)
    (conj eq_refl Hlt2)). cbn. rewrite Z2Nat.id by lia. fold n.
  assert (Hm : (start + (Z.of_nat i - start) mod n) mod n = Z.of_nat i).
  { rewrite Zplus_mod_idemp_r. replace (start + (Z.of_nat i - start)) with (Z.of_nat i) by lia.
    apply Z.mod_small. subst n. lia. }
  rewrite Hm, Nat2Z.id. f_equal. f_equal. by apply nth_lookup_Some.
Qed.

(** The ring position of a channel's next selection. *)
Definition ring_start (channel : Channel) (h : KeyHealth) : Z :=
  (((kh_cursors h).[ch_ID channel] + 1) mod 2 ^ 64 - 1) mod 2 ^ 64
    mod Z.of_nat (length (ch_Keys channel)).

Lemma select_unfold clock channel h :
  ch_Keys channel ≠ [] ->
  selectChannelKey clock channel h =
  scan_keys clock 0 (ch_ID channel) (ring (ring_start channel h) (ch_Keys channel))
    (mkHealth (<[ch_ID channel := ((kh_cursors h).[ch_ID channel] + 1) mod 2 ^ 64]> (kh_cursors h))
       (kh_cooldowns h)).
Proof. intros Hne. unfold selectChannelKey, ring_start. by destruct (ch_Keys channel). Qed.

(** ** Contracts *)

(** A multi-key channel's selection returns a key of the channel with its
    index, outside its cooldown, and every key before it in ring order from the
    cursor is cooling; it reports failure exactly when every key is cooling; each
    call advances the channel's cursor by one and no other cursor. *)
Theorem select_key_spec clock channel h :
  ch_Keys channel ≠ [] -> (forall a b, (a <= b)%nat -> clock a <= clock b) ->
  let keys := ch_Keys channel in
  let start := ring_start channel h in
  let '(res, h') := selectChannelKey clock channel h in
  match res with
  | Some (idx, k) =>
      keys !! Z.to_nat idx = Some k /\ 0 <= idx < Z.of_nat (length keys) /\
      exists n, (n < length keys)%nat /\ idx = (start + Z.of_nat n) mod Z.of_nat (length keys) /\
        cooling h (ch_ID channel) (clock n) (key_ID k) = false /\
        forall j c, (j < n)%nat -> ring start keys !! j = Some c ->
          cooling h (ch_ID channel) (clock j) (key_ID c.2) = true
  | None =>
      forall i k, keys !! i = Some k ->
        exists j, (j < length keys)%nat /\ cooling h (ch_ID channel) (clock j) (key_ID k) = true
  end /\
  (kh_cursors h').[ch_ID channel] = ((kh_cursors h).[ch_ID channel] + 1) mod 2 ^ 64 /\
  (forall ch, ch ≠ ch_ID channel -> kh_cursors h' !! ch = kh_cursors h !! ch).
Proof.
  intros Hne Hmono. cbv zeta. rewrite select_unfold by done.
  set (h1 := mkHealth _ _). set (start := ring_start channel h).
  pose proof (scan_keys_spec clock 0 (ch_ID channel) (ring start (ch_Keys channel)) h1 Hmono) as Hs.
  pose proof (scan_keys_cursors clock 0 (ch_ID channel) (ring start (ch_Keys channel)) h1) as Hc.
  destruct (scan_keys clock 0 (ch_ID channel) (ring start (ch_Keys channel)) h1) as [res h'].
  cbn [fst snd] in *. split; [|rewrite Hc; unfold h1; cbn; split;
    [by rewrite lookup_insert_eq | intros ch Hch; by rewrite lookup_insert_ne]].
  destruct res as [[idx k]|].
  - destruct Hs as (before & after & Heq & Hk & Hb).
    assert (Hn : ring start (ch_Keys channel) !! length before = Some (idx, k)).
    { rewrite Heq. by apply list_lookup_middle. }
    destruct (ring_lookup _ _ _ _ Hn) as (Hlt & Hidx & Hbd & Hkey). cbn in *.
    split; [done|]. split; [done|]. exists (length before). split; [done|]. split; [done|].
    split; [exact Hk|]. intros j c Hj Hr. apply (Hb j c).
    by rewrite Heq, lookup_app_l in Hr.
  - intros i k Hi. destruct (ring_in start _ i k Hi) as [j Hj].
    exists j. destruct (ring_lookup _ _ _ _ Hj) as (Hlt & _). split; [done|]. exact (Hs j _ Hj).
Qed.

(** [n] selections in a row, at one instant. *)
Fixpoint select_many (n : nat) (now : Z) (channel : Channel) (h : KeyHealth) : list (option Z) :=
  match n with
  | O => []
  | S n =>
      let '(res, h) := selectChannelKey (fun _ => now) channel h in
      (fst <$> res) :: select_many n now channel h
  end.

Lemma scan_first clock n channelID idx k rest h :
  cooling h channelID (clock n) (key_ID k) = false ->
  (scan_keys clock n channelID ((idx, k) :: rest) h).1 = Some (idx, k) /\
  forall ch t k', clock n <= t ->
    cooling (scan_keys clock n channelID ((idx, k) :: rest) h).2 ch t k' = cooling h ch t k'.
Proof.
  intros Hc. cbn. pose proof (cooling_answer (clock n) channelID (key_ID k) h) as Ha.
  pose proof (fun ch k' t => cooling_evict (clock n) channelID (key_ID k) h ch k' t) as He.
  destruct (channelKeyCooling (clock n) (clock n) channelID (key_ID k) h) as [c h1]. cbn in *.
  rewrite Ha, Hc. cbn. split; [done|]. intros ch t k' Ht. by apply He.
Qed.

(** From cursor [c] the m-th of a run of selections takes key [c + m] modulo the
    number of keys. *)
Lemma select_many_from n now channel h :
  ch_Keys channel ≠ [] ->
  (forall k, k ∈ ch_Keys channel -> cooling h (ch_ID channel) now (key_ID k) = false) ->
  0 <= (kh_cursors h).[ch_ID channel] -> (kh_cursors h).[ch_ID channel] + Z.of_nat n < 2 ^ 64 ->
  select_many n now channel h =
    (fun i => Some (((kh_cursors h).[ch_ID channel] + Z.of_nat i) mod Z.of_nat (length (ch_Keys channel))))
      <$> seq 0 n.
Proof.
  intros Hne. revert h. induction n as [|n IH]; intros h Hcool Hc0 Hcn; [done|].
  cbn [select_many]. rewrite select_unfold by done.
  set (c := (kh_cursors h).[ch_ID channel]) in *. set (N := Z.of_nat (length (ch_Keys channel))) in *.
  assert (Hpos : 0 < N) by (unfold N; destruct (ch_Keys channel); [done|cbn; lia]).
  set (h1 := mkHealth _ _).
  assert (Hstart : ring_start channel h = c mod N).
  { unfold ring_start. fold c N. rewrite (Z.mod_small (c + 1)) by lia.
    replace (c + 1 - 1) with c by lia. by rewrite (Z.mod_small c) by lia. }
  destruct (ring (ring_start channel h) (ch_Keys channel)) as [|[idx k] rest] eqn:Hring.
  { exfalso. unfold ring in Hring. apply fmap_nil_inv in Hring. by destruct (ch_Keys channel). }
  destruct (ring_lookup (ring_start channel h) (ch_Keys channel) 0 (idx, k)) as (_ & Hidx & _ & Hkey);
    [by rewrite Hring|]. cbn [fst snd] in *.
  assert (Hk : cooling h1 (ch_ID channel) now (key_ID k) = false).
  { apply (Hcool k). by eapply list_elem_of_lookup_2. }
  destruct (scan_first (fun _ => now) 0 (ch_ID channel) idx k rest h1 Hk) as [Hres Hkeep].
  pose proof (scan_keys_cursors (fun _ => now) 0 (ch_ID channel) ((idx, k) :: rest) h1) as Hcur.
  destruct (scan_keys (fun _ => now) 0 (ch_ID channel) ((idx, k) :: rest) h1) as [res h2].
  cbn [fst snd] in *. subst res. cbn [fst].
  assert (Hcur2 : (kh_cursors h2).[ch_ID channel] = c + 1).
  { rewrite Hcur. unfold h1. cbn. rewrite lookup_insert_eq. cbn. fold c. apply Z.mod_small. lia. }
  rewrite IH; [|intros k' Hk'; rewrite Hkeep by lia; by apply Hcool | lia | lia].
  rewrite Hcur2. cbn [seq]. rewrite fmap_cons. f_equal.
  - cbn. f_equal. rewrite Hidx, Hstart. fold N. by rewrite Z.add_0_r, Z.mod_mod, Z.add_0_r by lia.
  - rewrite <- fmap_S_seq, <- list_fmap_compose. apply list_fmap_ext. intros _ i _. cbn.
    f_equal. f_equal. lia.
Qed.

(** [c + i] modulo [n], for [i] below [n], takes every value below [n] once. *)
Lemma rotation_perm (c : Z) (n : nat) :
  (fun i => Some ((c + Z.of_nat i) mod Z.of_nat n)) <$> seq 0 n
    ≡ₚ (fun i => Some (Z.of_nat i)) <$> seq 0 n.
Proof.
  destruct (decide (n = 0%nat)) as [->|Hn]; [done|].
  set (N := Z.of_nat n). assert (Hpos : 0 < N) by lia. apply NoDup_Permutation.
  - apply NoDup_fmap_2_strong; [|apply NoDup_seq].
    intros i j Hi Hj Heq. rewrite elem_of_seq in Hi, Hj. injection Heq as Heq.
    assert (H0 : ((c + Z.of_nat i) - (c + Z.of_nat j)) mod N = 0)
      by (by rewrite Zminus_mod, Heq, Z.sub_diag, Z.mod_0_l by lia).
    apply Z.mod_divide in H0 as [q Hq]; [|lia].
    assert (- N < Z.of_nat i - Z.of_nat j < N) by (unfold N; lia). assert (q = 0) by nia. lia.
  - apply NoDup_fmap_2; [|apply NoDup_seq]. intros i j Heq. injection Heq as Heq. lia.
  - intros x. rewrite !list_elem_of_fmap. split.
    + intros (i & -> & Hi). pose proof (Z.mod_pos_bound (c + Z.of_nat i) N Hpos).
      exists (Z.to_nat ((c + Z.of_nat i) mod N)). rewrite Z2Nat.id by lia.
      split; [done|]. apply elem_of_seq. unfold N in *. lia.
    + intros (i & -> & Hi). apply elem_of_seq in Hi.
      pose proof (Z.mod_pos_bound (Z.of_nat i - c) N Hpos).
      exists (Z.to_nat ((Z.of_nat i - c) mod N)). rewrite Z2Nat.id by lia.
      rewrite Zplus_mod_idemp_r. replace (c + (Z.of_nat i - c)) with (Z.of_nat i) by lia.
      rewrite Z.mod_small by (unfold N; lia). split; [done|]. apply elem_of_seq. unfold N in *. lia.
Qed.

(** Without cooling keys the choice is a perfect round robin: as many
    consecutive requests as the channel has keys use every key exactly once. *)
Theorem round_robin now channel h :
  ch_Keys channel ≠ [] ->
  (forall k, k ∈ ch_Keys channel -> cooling h (ch_ID channel) now (key_ID k) = false) ->
  0 <= (kh_cursors h).[ch_ID channel] ->
  (kh_cursors h).[ch_ID channel] + Z.of_nat (length (ch_Keys channel)) < 2 ^ 64 ->
  select_many (length (ch_Keys channel)) now channel h
    ≡ₚ (fun i => Some (Z.of_nat i)) <$> seq 0 (length (ch_Keys channel)).
Proof. intros Hne Hcool Hc0 Hcn. rewrite select_many_from by done. apply rotation_perm. Qed.

(** A key rejected by the upstream stays out of its channel's selection for
    exactly the configured time (one minute by default), and no other key of any
    channel is affected. *)
Theorem key_cooldown_exact now channelID keyID seconds h t ch k :
  cooling (markChannelKeyCooldown now channelID keyID seconds h) ch t k =
  (if decide ((ch, k) = (channelID, keyID))
   then t <? now + (if seconds <? 1 then 60 else seconds) * 1000000000
   else cooling h ch t k).
Proof.
  unfold cooling, markChannelKeyCooldown. cbn. rewrite lookup_insert.
  destruct (decide ((ch, k) = (channelID, keyID))) as [Heq|Hne].
  - rewrite decide_True by done. done.
  - by rewrite decide_False by done.
Qed.

(** Pruning and the lazy eviction are invisible: at any later instant every
    key answers as before, and the count is the number of entries dropped. *)
Theorem prune_keys_invisible now t ch k h :
  now <= t ->
  cooling (PruneExpiredKeyCooldowns now h).2 ch t k = cooling h ch t k /\
  0 <= (PruneExpiredKeyCooldowns now h).1 /\
  (forall ref d, kh_cooldowns (PruneExpiredKeyCooldowns now h).2 !! ref = Some d <->
                 kh_cooldowns h !! ref = Some d /\ now < d).
Proof.
  intros Ht. unfold PruneExpiredKeyCooldowns. cbn. split; [|split].
  - unfold cooling. cbn.
    destruct (kh_cooldowns h !! (ch, k)) as [d|] eqn:Hd.
    + destruct (Z.ltb_spec now d).
      * rewrite (proj2 (map_lookup_filter_Some _ _ _ d)); [done|]. by split.
      * rewrite (proj2 (map_lookup_filter_None _ _ _)); [symmetry; apply Z.ltb_ge; lia|].
        right. intros x Hx. rewrite Hd in Hx. injection Hx as <-. cbn. lia.
    + rewrite (proj2 (map_lookup_filter_None _ _ _)); [done|]. by left.
  - assert (size (filter (fun kv : Z * string * Z => (now < kv.2)%Z) (kh_cooldowns h)) <= size (kh_cooldowns h))%nat; [|lia].
    rewrite <- !size_dom. apply subseteq_size, dom_filter_subseteq.
  - intros ref d. rewrite map_lookup_filter_Some. done.
Qed.

(** ** Witnesses *)

Definition demo_keys : Channel :=
  mkChannel 4 ChannelProviderOpenAI true "" [mkKey "a" "sk-a" ""; mkKey "b" "sk-b" ""; mkKey "c" "sk-c" ""]
    None false false 0 0 "k" "" false false "" ∅.

(** Key "a" is cooling; the cursor stands at the first key. *)
Definition demo_health : KeyHealth := markChannelKeyCooldown 0 4 "a" 10 health_init.

Lemma select_key_spec_witness :
  (selectChannelKey (fun _ => 5) demo_keys demo_health).1 = Some (1, mkKey "b" "sk-b" "") /\
  (kh_cursors (selectChannelKey (fun _ => 5) demo_keys demo_health).2).[4] = 1.
Proof.
  split; [vm_compute; reflexivity|].
  pose proof (select_key_spec (fun _ => 5) demo_keys demo_health ltac:(discriminate) ltac:(intros; reflexivity)) as H.
  cbv zeta in H. destruct (selectChannelKey (fun _ => 5) demo_keys demo_health) as [res h'].
  destruct H as (_ & Hc & _). exact Hc.
Defined.

Lemma round_robin_witness :
  select_many 3 0 demo_keys health_init ≡ₚ [Some 0; Some 1; Some 2].
Proof.
  apply (round_robin 0 demo_keys health_init).
  - discriminate.
  - intros k _. reflexivity.
  - vm_compute. discriminate.
  - vm_compute. reflexivity.
Defined.

Lemma prune_keys_invisible_witness :
  cooling (PruneExpiredKeyCooldowns 20000000000 demo_health).2 4 30000000000 "a" = false.
Proof.
  etrans; [apply (prune_keys_invisible 20000000000 30000000000 4 "a" demo_health); lia|].
  vm_compute. reflexivity.
Defined.
