(* ===== verification/Cache.v ===== *)
(** * The sharded cache

    internal/utils/cache: every snapshot the relay reads (groups, channels,
    models, keys) lives in a cache of 2^n mutex-protected shards selected by the
    low bits of a hash.  The hash (xxhash, third-party) is an argument.  The
    contract is a plain finite map. *)

From S2P Require Import Prelude.

(** ** The number of shards *)

(** One turn of [for shards&(shards-1) != 0 { shards = (shards | (shards-1)) + 1 }]. *)
Fixpoint round_shards (fuel : nat) (shards : Z) : option Z :=
  match fuel with
  | O => None
  | S fuel =>
      if Z.land shards (shards - 1) =? 0 then Some shards
      else round_shards fuel (Z.lor shards (shards - 1) + 1)
  end.

Definition shard_count (fuel : nat) (shards : Z) : option Z :=
  round_shards fuel (if shards <=? 0 then 1024 else shards).

(** ** The cache *)

#[local] Set Default Proof Using "Type*".

Section cache.
Context `{Countable K} {V : Type} `{ord : !MapOrder K}.
Variable hash : K -> Z.   (** [xxhash.Sum64String(keyToString(k))] *)
Hypothesis hash_range : forall k, 0 <= hash k < 2 ^ 64.
Implicit Types (k : K) (v : V) (m : gmap K V).

(** The current generation and the mask. *)
Record cache := mkCache { c_shards : list (gmap K V); c_shardMask : Z }.

Definition newGeneration (shards : Z) : list (gmap K V) := replicate (Z.to_nat shards) ∅.

Definition New (fuel : nat) (shards : Z) : option cache :=
  n ← shard_count fuel shards; Some (mkCache (newGeneration n) (n - 1)).

(** [hashedKey & c.shardMask]. *)
Definition shard_index (mask : Z) k : nat := Z.to_nat (Z.land (hash k) mask).

Definition getShard (c : cache) k : gmap K V := nth (shard_index (c_shardMask c) k) (c_shards c) ∅.

Definition set_shards (mask : Z) k v (shards : list (gmap K V)) : list (gmap K V) :=
  alter (fun m => <[k := v]> m) (shard_index mask k) shards.

Definition cache_Set k v (c : cache) : cache :=
  mkCache (set_shards (c_shardMask c) k v (c_shards c)) (c_shardMask c).

Definition cache_Get k (c : cache) : option V := getShard c k !! k.

(** [result[k] = v] for every shard in turn. *)
Definition cache_GetAll (c : cache) : gmap K V :=
  foldl (fun result shard => shard ∪ result) ∅ (c_shards c).

Definition del_one k (c : cache) : Z * cache :=
  match getShard c k !! k with
  | Some _ => (1, mkCache (alter (fun m => delete k m) (shard_index (c_shardMask c) k) (c_shards c))
                    (c_shardMask c))
  | None => (0, c)
  end.

Fixpoint cache_Del (ks : list K) (c : cache) : Z * cache :=
  match ks with
  | [] => (0, c)
  | k :: ks =>
      let '(n, c) := del_one k c in
      let '(n', c) := cache_Del ks c in (n + n', c)
  end.

Definition cache_Len (c : cache) : Z := foldl (fun n shard => n + Z.of_nat (size shard)) 0 (c_shards c).

Definition cache_Clear (c : cache) : cache := mkCache (newGeneration (c_shardMask c + 1)) (c_shardMask c).

Definition cache_RefreshAll (target : gmap K V) (c : cache) : cache :=
  mkCache (foldl (fun shards kv => set_shards (c_shardMask c) kv.1 kv.2 shards)
             (newGeneration (c_shardMask c + 1)) (map_order target))
    (c_shardMask c).

(** ** Invariant *)

(** As many shards as the mask addresses, and every key in its own shard. *)
Record cache_ok (c : cache) : Prop := {
  ck_mask : exists n, c_shardMask c = 2 ^ n - 1 /\ 0 <= n;
  ck_len : Z.of_nat (length (c_shards c)) = c_shardMask c + 1;
  ck_home : forall i m k v, c_shards c !! i = Some m -> m !! k = Some v ->
    i = shard_index (c_shardMask c) k;
}.

Lemma index_bound mask k : (exists n, mask = 2 ^ n - 1 /\ 0 <= n) ->
  (shard_index mask k < Z.to_nat (mask + 1))%nat.
Proof.
  intros (n & -> & Hn). unfold shard_index. pose proof (hash_range k) as Hh.
  pose proof (Z.pow_pos_nonneg 2 n ltac:(lia) Hn).
  replace (2 ^ n - 1) with (Z.ones n) by (rewrite Z.ones_equiv; lia).
  rewrite Z.land_ones by done. pose proof (Z.mod_pos_bound (hash k) (2 ^ n) ltac:(lia)).
  rewrite Z.ones_equiv. lia.
Qed.

Lemma shard_some c k : cache_ok c ->
  exists m, c_shards c !! shard_index (c_shardMask c) k = Some m /\ getShard c k = m.
Proof.
  intros [Hm Hl _]. pose proof (index_bound _ k Hm) as Hb.
  destruct (lookup_lt_is_Some_2 (c_shards c) (shard_index (c_shardMask c) k)) as [m Hs]; [lia|].
  exists m. split; [done|]. unfold getShard. by apply nth_lookup_Some.
Qed.

(** What [cache_GetAll] answers for a key. *)
Lemma getall_lookup c k : cache_ok c -> cache_GetAll c !! k = getShard c k !! k.
Proof.
  intros Hok. destruct (shard_some c k Hok) as (m & Hs & ->). pose proof (ck_home c Hok) as Hh.
  unfold cache_GetAll.
  assert (Hgen : forall shards acc,
    (forall m', m' ∈ shards -> forall v, m' !! k = Some v -> m' !! k = m !! k) ->
    foldl (fun result shard => shard ∪ result) acc shards !! k =
      (if existsb (fun m' => is_some (m' !! k)) shards then m !! k else acc !! k)).
  { induction shards as [|m' shards IH]; intros acc Hall; cbn; [done|].
    rewrite IH by (intros; eapply Hall; [by right|done]).
    destruct (existsb (fun m' => is_some (m' !! k)) shards); [by rewrite orb_true_r|].
    rewrite orb_false_r, lookup_union. destruct (m' !! k) as [v|] eqn:Hv; cbn.
    - rewrite <- (Hall m' ltac:(left) v Hv), Hv. by destruct (acc !! k).
    - by rewrite (left_id_L None _). }
  rewrite Hgen.
  - destruct (existsb _ (c_shards c)) eqn:He; [done|]. rewrite lookup_empty.
    destruct (m !! k) as [v|] eqn:Hv; [|done]. exfalso.
    apply (eq_true_false_abs _) with (2 := He). apply existsb_exists. exists m.
    split; [apply list_elem_of_In; by eapply list_elem_of_lookup_2|]. by rewrite Hv.
  - intros m' Hin v Hv. apply list_elem_of_lookup in Hin as [i Hi].
    pose proof (Hh i m' k v Hi Hv) as ->. rewrite Hs in Hi. by injection Hi as ->.
Qed.

Lemma alter_home c k f : cache_ok c ->
  (forall m k' v, f m !! k' = Some v -> k' = k \/ m !! k' = Some v) ->
  cache_ok (mkCache (alter f (shard_index (c_shardMask c) k) (c_shards c)) (c_shardMask c)).
Proof.
  intros [Hm Hl Hh] Hf. split; cbn; [done | by rewrite length_alter |].
  intros i m k' v Hi Hv. destruct (decide (i = shard_index (c_shardMask c) k)) as [->|Hne].
  - rewrite list_lookup_alter_eq in Hi. destruct (c_shards c !! _) as [m0|] eqn:Hm0; [|done].
    cbn in Hi. injection Hi as <-. destruct (Hf m0 k' v Hv) as [->|Hv']; [done|].
    by apply (Hh _ m0 k' v).
  - rewrite list_lookup_alter_ne in Hi by done. by apply (Hh i m k' v).
Qed.

Lemma alter_getall c k f : cache_ok c ->
  (forall m k' v, f m !! k' = Some v -> k' = k \/ m !! k' = Some v) ->
  (forall m k', k' ≠ k -> f m !! k' = m !! k') ->
  forall k', cache_GetAll (mkCache (alter f (shard_index (c_shardMask c) k) (c_shards c)) (c_shardMask c)) !! k' =
    (if decide (k' = k) then f (getShard c k) !! k else cache_GetAll c !! k').
Proof.
  intros Hok Hf1 Hf2 k'. pose proof (alter_home c k f Hok Hf1) as Hok'.
  rewrite !getall_lookup by done. unfold getShard at 1. cbn [c_shards c_shardMask].
  destruct (shard_some c k Hok) as (m & Hs & Hg). destruct (shard_some c k' Hok) as (m' & Hs' & Hg').
  rewrite Hg, Hg'.
  destruct (decide (shard_index (c_shardMask c) k' = shard_index (c_shardMask c) k)) as [Heq|Hne].
  - rewrite (nth_lookup_Some _ _ _ (f m)).
    2: { rewrite Heq, list_lookup_alter_eq, Hs. done. }
    rewrite Heq in Hs'. rewrite Hs in Hs'. injection Hs' as <-.
    case_decide; [by subst|]. by apply Hf2.
  - rewrite (nth_lookup_Some _ _ _ m') by (by rewrite list_lookup_alter_ne).
    rewrite decide_False by congruence. done.
Qed.

Lemma set_ok k v c : cache_ok c ->
  cache_ok (cache_Set k v c) /\ cache_GetAll (cache_Set k v c) = <[k := v]> (cache_GetAll c).
Proof.
  intros Hok. unfold cache_Set, set_shards. split.
  - apply alter_home; [done|]. intros m k' v'. rewrite lookup_insert. case_decide; naive_solver.
  - apply map_eq. intros k'. rewrite alter_getall; [|done| |].
    + destruct (decide (k' = k)) as [->|Hne]; [by rewrite !lookup_insert_eq|].
      by rewrite lookup_insert_ne.
    + intros m k2 v'. rewrite lookup_insert. case_decide; naive_solver.
    + intros m k2 Hne. by rewrite lookup_insert_ne.
Qed.

Lemma del_one_ok k c : cache_ok c ->
  cache_ok (del_one k c).2 /\ cache_GetAll (del_one k c).2 = delete k (cache_GetAll c) /\
  (del_one k c).1 = (if is_some (cache_GetAll c !! k) then 1 else 0).
Proof.
  intros Hok. unfold del_one. rewrite getall_lookup by done.
  destruct (getShard c k !! k) as [v|] eqn:Hv; cbn [fst snd is_some].
  - split; [|split; [|done]].
    + apply alter_home; [done|]. intros m k' v'. rewrite lookup_delete. case_decide; naive_solver.
    + apply map_eq. intros k'. rewrite alter_getall; [|done| |].
      * destruct (decide (k' = k)) as [->|Hne]; [by rewrite !lookup_delete_eq|].
        by rewrite lookup_delete_ne.
      * intros m k2 v'. rewrite lookup_delete. case_decide; naive_solver.
      * intros m k2 Hne. by rewrite lookup_delete_ne.
  - split; [done|]. split; [|done]. symmetry. apply delete_id. by rewrite getall_lookup.
Qed.

Lemma fresh_ok mask : (exists n, mask = 2 ^ n - 1 /\ 0 <= n) ->
  cache_ok (mkCache (newGeneration (mask + 1)) mask) /\
  cache_GetAll (mkCache (newGeneration (mask + 1)) mask) = ∅.
Proof.
  intros Hm. assert (Hlen : 0 <= mask + 1) by (destruct Hm as (n & -> & Hn); pose proof (Z.pow_nonneg 2 n); lia).
  assert (Hok : cache_ok (mkCache (newGeneration (mask + 1)) mask)).
  { split; cbn; [done| |].
    - unfold newGeneration. rewrite length_replicate. lia.
    - intros i m k v Hi Hv. apply lookup_replicate in Hi as [-> _]. by rewrite lookup_empty in Hv. }
  split; [done|]. apply map_empty. intros k. rewrite getall_lookup by done.
  destruct (shard_some _ k Hok) as (m & Hs & ->). cbn in Hs.
  apply lookup_replicate in Hs as [-> _]. apply lookup_empty.
Qed.

Lemma refresh_ok target c : cache_ok c ->
  cache_ok (cache_RefreshAll target c) /\ cache_GetAll (cache_RefreshAll target c) = target.
Proof.
  intros Hok. unfold cache_RefreshAll.
  assert (Hgen : forall l c0, cache_ok c0 -> c_shardMask c0 = c_shardMask c ->
    let c1 := mkCache (foldl (fun shards kv => set_shards (c_shardMask c) kv.1 kv.2 shards)
                (c_shards c0) l) (c_shardMask c) in
    cache_ok c1 /\ cache_GetAll c1 = foldl (fun m kv => <[kv.1 := kv.2]> m) (cache_GetAll c0) l).
  { induction l as [|[k v] l IH]; intros c0 Hok0 Hm0; cbn.
    - rewrite <- Hm0. by destruct c0.
    - destruct (set_ok k v c0 Hok0) as [Hok1 Hg1]. unfold cache_Set in *. rewrite Hm0 in *.
      destruct (IH _ Hok1 eq_refl) as [Hok2 Hg2]. cbn in *. split; [done|]. by rewrite Hg2, Hg1. }
  destruct (fresh_ok (c_shardMask c) (ck_mask c Hok)) as [Hok0 Hg0].
  destruct (Hgen (map_order target) _ Hok0 eq_refl) as [Hok1 Hg1]. split; [done|].
  cbn [c_shards c_shardMask] in Hg1. rewrite Hg1, Hg0. clear -ord.
  assert (Hfold : forall l m, NoDup l.*1 ->
    foldl (fun m kv => <[kv.1 := kv.2]> m) m l = list_to_map l ∪ m).
  { induction l as [|[k v] l IH]; intros m Hnd; cbn; [by rewrite (left_id_L ∅ _)|].
    apply NoDup_cons in Hnd as [Hk Hnd]. rewrite IH by done.
    rewrite <- insert_union_l. rewrite <- insert_union_r; [done|].
    by apply not_elem_of_list_to_map_1. }
  rewrite Hfold.
  - rewrite (right_id_L ∅ _). apply map_eq. intros k. apply option_eq. intros v.
    rewrite <- elem_of_list_to_map, elem_of_map_order; [done|].
    rewrite map_order_perm. apply NoDup_fst_map_to_list.
  - rewrite map_order_perm. apply NoDup_fst_map_to_list.
Qed.

Lemma union_size_fold (shards : list (gmap K V)) (acc : gmap K V) n :
  (forall i j m1 m2, shards !! i = Some m1 -> shards !! j = Some m2 -> i ≠ j -> m1 ##ₘ m2) ->
  (forall m, m ∈ shards -> m ##ₘ acc) -> n = Z.of_nat (size acc) ->
  foldl (fun n shard => n + Z.of_nat (size shard)) n shards =
    Z.of_nat (size (foldl (fun result shard => shard ∪ result) acc shards)).
Proof.
  revert acc n. induction shards as [|m shards IH]; intros acc n Hpair Hacc ->; cbn; [done|].
  apply IH.
  - intros i j m1 m2 Hi Hj Hne. apply (Hpair (S i) (S j)); [done|done|congruence].
  - intros m' Hm'. apply map_disjoint_union_r. split; [|apply Hacc; by right].
    apply list_elem_of_lookup in Hm' as [i Hi]. apply (Hpair (S i) 0%nat); [done|done|congruence].
  - rewrite map_size_disj_union by (apply Hacc; by left). lia.
Qed.

Lemma len_ok c : cache_ok c -> cache_Len c = Z.of_nat (size (cache_GetAll c)).
Proof.
  intros Hok. apply union_size_fold; [| |by rewrite map_size_empty].
  - intros i j m1 m2 Hi Hj Hne. apply map_disjoint_spec. intros k v1 v2 H1 H2.
    pose proof (ck_home c Hok i m1 k v1 Hi H1). pose proof (ck_home c Hok j m2 k v2 Hj H2). congruence.
  - intros m _. apply map_disjoint_empty_r.
Qed.

(** ** The contract: a finite map *)

Inductive cache_op :=
| OpSet (k : K) (v : V) | OpGet (k : K) | OpGetAll | OpDel (ks : list K) | OpLen | OpClear
| OpRefreshAll (target : gmap K V).

Inductive cache_out := OutNone | OutGet (o : option V) | OutAll (m : gmap K V) | OutInt (n : Z).

Definition run_cache (op : cache_op) (c : cache) : cache_out * cache :=
  match op with
  | OpSet k v => (OutNone, cache_Set k v c)
  | OpGet k => (OutGet (cache_Get k c), c)
  | OpGetAll => (OutAll (cache_GetAll c), c)
  | OpDel ks => let '(n, c) := cache_Del ks c in (OutInt n, c)
  | OpLen => (OutInt (cache_Len c), c)
  | OpClear => (OutNone, cache_Clear c)
  | OpRefreshAll target => (OutNone, cache_RefreshAll target c)
  end.

(** The same operations on a plain map. *)
Definition run_map (op : cache_op) m : cache_out * gmap K V :=
  match op with
  | OpSet k v => (OutNone, <[k := v]> m)
  | OpGet k => (OutGet (m !! k), m)
  | OpGetAll => (OutAll m, m)
  | OpDel ks =>
      (OutInt (Z.of_nat (size m) - Z.of_nat (size (foldl (fun m k => delete k m) m ks))),
       foldl (fun m k => delete k m) m ks)
  | OpLen => (OutInt (Z.of_nat (size m)), m)
  | OpClear => (OutNone, ∅)
  | OpRefreshAll target => (OutNone, target)
  end.

Fixpoint run_all {S : Type} (step : cache_op -> S -> cache_out * S) (ops : list cache_op) (s : S)
  : list cache_out :=
  match ops with
  | [] => []
  | op :: ops => let '(out, s) := step op s in out :: run_all step ops s
  end.

Lemma size_delete m k :
  Z.of_nat (size (delete k m)) = Z.of_nat (size m) - (if is_some (m !! k) then 1 else 0).
Proof.
  destruct (m !! k) as [v|] eqn:Hk; cbn; [|by rewrite delete_id by done; lia].
  rewrite map_size_delete_Some by eauto.
  enough (size m ≠ 0)%nat by lia. rewrite map_size_non_empty_iff. intros ->. by rewrite lookup_empty in Hk.
Qed.

Lemma del_ok ks c : cache_ok c ->
  let m := cache_GetAll c in
  let m' := foldl (fun m k => delete k m) m ks in
  cache_ok (cache_Del ks c).2 /\ cache_GetAll (cache_Del ks c).2 = m' /\
  (cache_Del ks c).1 = Z.of_nat (size m) - Z.of_nat (size m').
Proof.
  revert c. induction ks as [|k ks IH]; intros c Hok; cbn [cache_Del foldl].
  { split; [done|]. split; [done|]. cbn. lia. }
  destruct (del_one_ok k c Hok) as (Hok1 & Hg1 & Hn1).
  destruct (del_one k c) as [n1 c1]. cbn [fst snd] in *. specialize (IH c1 Hok1).
  cbv zeta in IH. destruct (cache_Del ks c1) as [n2 c2]. cbn [fst snd] in *. rewrite Hg1 in IH.
  destruct IH as (Hok2 & Hg2 & Hn2). cbv zeta. split; [done|]. split; [done|].
  rewrite Hn1, Hn2, size_delete. lia.
Qed.

Lemma run_simulates op c : cache_ok c ->
  (run_cache op c).1 = (run_map op (cache_GetAll c)).1 /\
  cache_ok (run_cache op c).2 /\ cache_GetAll (run_cache op c).2 = (run_map op (cache_GetAll c)).2.
Proof.
  intros Hok. destruct op as [k v|k| |ks| | |target]; cbn [run_cache run_map fst snd].
  - by destruct (set_ok k v c Hok).
  - split; [|done]. f_equal. symmetry. by apply getall_lookup.
  - done.
  - pose proof (del_ok ks c Hok) as (Hok' & Hg & Hn). destruct (cache_Del ks c) as [n c'].
    cbn [fst snd] in *. by rewrite Hn.
  - split; [f_equal; by apply len_ok | done].
  - by destruct (fresh_ok (c_shardMask c) (ck_mask c Hok)).
  - by destruct (refresh_ok target c Hok).
Qed.

Lemma run_all_simulates ops c : cache_ok c ->
  run_all run_cache ops c = run_all run_map ops (cache_GetAll c).
Proof.
  revert c. induction ops as [|op ops IH]; intros c Hok; cbn; [done|].
  destruct (run_simulates op c Hok) as (Ho & Hok' & Hg).
  destruct (run_cache op c) as [out c'], (run_map op (cache_GetAll c)) as [out' m']. cbn [fst snd] in *.
  rewrite Ho, (IH c' Hok'), Hg. done.
Qed.
End cache.

(** ** Rounding *)

Lemma land_double_odd a b : Z.land (2 * a) (2 * b + 1) = 2 * Z.land a b.
Proof.
  apply Z.bits_inj'. intros n Hn. rewrite Z.land_spec.
  destruct (Z.eq_dec n 0) as [->|Hne]; [by rewrite !Z.testbit_even_0|].
  replace n with (Z.succ (n - 1)) by lia.
  rewrite !Z.testbit_even_succ, Z.testbit_odd_succ by lia. by rewrite Z.land_spec.
Qed.

Lemma lor_double_odd a b : Z.lor (2 * a) (2 * b + 1) = 2 * Z.lor a b + 1.
Proof.
  apply Z.bits_inj'. intros n Hn. rewrite Z.lor_spec.
  destruct (Z.eq_dec n 0) as [->|Hne]; [by rewrite Z.testbit_even_0, !Z.testbit_odd_0|].
  replace n with (Z.succ (n - 1)) by lia.
  rewrite Z.testbit_even_succ, !Z.testbit_odd_succ by lia. by rewrite Z.lor_spec.
Qed.

(** The lowest set bit: [x & (x-1)] clears it and [(x | (x-1)) + 1] adds it. *)
Lemma low_bit (k : nat) q : let x := 2 ^ Z.of_nat k * (2 * q + 1) in
  Z.land x (x - 1) = x - 2 ^ Z.of_nat k /\ Z.lor x (x - 1) + 1 = x + 2 ^ Z.of_nat k.
Proof.
  induction k as [|k IH]; cbv zeta in *.
  - change (2 ^ Z.of_nat 0) with 1. rewrite Z.mul_1_l. replace (2 * q + 1 - 1) with (2 * q) by lia.
    rewrite Z.land_comm, Z.lor_comm, land_double_odd, lor_double_odd, Z.land_diag, Z.lor_diag. lia.
  - rewrite Nat2Z.inj_succ, Z.pow_succ_r by lia.
    set (y := 2 ^ Z.of_nat k * (2 * q + 1)) in *.
    replace (2 * 2 ^ Z.of_nat k * (2 * q + 1)) with (2 * y) by (unfold y; lia).
    replace (2 * y - 1) with (2 * (y - 1) + 1) by lia.
    rewrite land_double_odd, lor_double_odd. lia.
Qed.

(** Every positive number has a lowest set bit. *)
Lemma low_bit_exists x : 0 < x -> exists (k : nat) q, x = 2 ^ Z.of_nat k * (2 * q + 1) /\ 0 <= q.
Proof.
  intros Hx. induction x as [x IH] using (well_founded_induction (Z.lt_wf 0)).
  destruct (Z.Even_or_Odd x) as [[y Hy]|[y Hy]].
  - destruct (IH y) as (k & q & Hk & Hq); [lia|lia|]. exists (S k), q.
    rewrite Nat2Z.inj_succ, Z.pow_succ_r by lia. lia.
  - exists 0%nat, y. change (2 ^ Z.of_nat 0) with 1. lia.
Qed.

(** With [j] low bits already cleared, [62 - j] turns remain. *)
Lemma round_shards_spec n fuel (j : nat) x : 0 <= n ->
  0 < x <= 2 ^ n -> (2 ^ Z.of_nat j | x) -> n - Z.of_nat j < Z.of_nat fuel ->
  exists p, round_shards fuel x = Some (2 ^ p) /\ 0 <= p /\ x <= 2 ^ p /\
    (forall p', 0 <= p' -> x <= 2 ^ p' -> 2 ^ p <= 2 ^ p').
Proof.
  intros Hn. revert j x. induction fuel as [|fuel IH]; intros j x Hx Hdiv Hfuel.
  { exfalso. destruct Hdiv as [z Hz].
    pose proof (Z.pow_pos_nonneg 2 (Z.of_nat j) ltac:(lia) ltac:(lia)) as Hpj.
    assert (1 <= z) by nia. assert (Hjn : 2 ^ Z.of_nat j <= 2 ^ n) by nia.
    apply Z.pow_le_mono_r_iff in Hjn; lia. }
  destruct (low_bit_exists x) as (k & q & Hxk & Hq); [lia|].
  destruct (low_bit k q) as [Hland Hlor]. cbv zeta in Hland, Hlor. rewrite <- Hxk in Hland, Hlor.
  cbn [round_shards]. rewrite Hland. pose proof (Z.pow_pos_nonneg 2 (Z.of_nat k) ltac:(lia) ltac:(lia)) as Hpk.
  destruct (Z.eqb_spec (x - 2 ^ Z.of_nat k) 0) as [Hz|Hz].
  { assert (Hxe : x = 2 ^ Z.of_nat k) by lia. exists (Z.of_nat k). rewrite <- Hxe.
    split; [done|]. split; [lia|]. split; [lia|]. done. }
  rewrite Hlor.
  assert (Hq1 : 1 <= q) by nia.
  (* adding the low bit stays below any power of two above *)
  assert (Hup : forall p', 0 <= p' -> x <= 2 ^ p' -> x + 2 ^ Z.of_nat k <= 2 ^ p').
  { intros p' Hp' Hle. destruct (Z_lt_le_dec (Z.of_nat k) p') as [Hlt|Hge].
    - replace p' with (Z.of_nat k + 1 + (p' - Z.of_nat k - 1)) in * by lia.
      rewrite !Z.pow_add_r in * by lia. rewrite Z.pow_1_r in *.
      set (P := 2 ^ (p' - Z.of_nat k - 1)) in *. assert (2 * q + 1 <= 2 * P) by nia. nia.
    - assert (2 ^ p' <= 2 ^ Z.of_nat k) by (apply Z.pow_le_mono_r; lia). nia. }
  assert (Hjk : (j <= k)%nat).
  { destruct (Nat.le_gt_cases j k) as [|Hgt]; [done|]. exfalso.
    destruct Hdiv as [z Hz2]. assert (exists d : nat, j = (k + 1 + d)%nat) as [d ->]
      by (exists (j - k - 1)%nat; lia).
    replace (Z.of_nat (k + 1 + d)) with (Z.of_nat k + (1 + Z.of_nat d)) in Hz2 by lia.
    rewrite Z.pow_add_r in Hz2 by lia. rewrite (Z.pow_add_r 2 1) in Hz2 by lia.
    rewrite Z.pow_1_r, Hxk in Hz2. set (A := 2 ^ Z.of_nat k) in *. set (B := 2 ^ Z.of_nat d) in *.
    assert (A * (2 * q + 1 - 2 * (z * B)) = 0) as H0 by (ring_simplify; ring_simplify in Hz2; lia).
    apply Z.mul_eq_0 in H0. lia. }
  destruct (IH (S j) (x + 2 ^ Z.of_nat k)) as (p & Heq & Hp & Hle & Hmin).
  - specialize (Hup n Hn). lia.
  - exists (2 ^ (Z.of_nat k - Z.of_nat j) * (q + 1)).
    replace (2 ^ Z.of_nat (S j)) with (2 * 2 ^ Z.of_nat j) by (rewrite Nat2Z.inj_succ, Z.pow_succ_r; lia).
    assert (2 ^ Z.of_nat k = 2 ^ (Z.of_nat k - Z.of_nat j) * 2 ^ Z.of_nat j) as Hk2
      by (rewrite <- Z.pow_add_r by lia; f_equal; lia).
    rewrite Hxk, Hk2. ring.
  - lia.
  - exists p. split; [done|]. split; [done|]. split; [lia|]. intros p' Hp' Hx'. apply Hmin; [done|].
    by apply Hup.
Qed.

(** ** Contracts *)

(** The number of shards is always computed: for any requested count up to
    2^62 the rounding loop stops, with the least power of two that is large
    enough (1024 when none is requested). *)
Theorem shard_count_spec shards :
  shards <= 2 ^ 62 ->
  exists p, shard_count 64 shards = Some (2 ^ p) /\ 0 <= p /\
    let want := if shards <=? 0 then 1024 else shards in
    want <= 2 ^ p /\ forall p', 0 <= p' -> want <= 2 ^ p' -> 2 ^ p <= 2 ^ p'.
Proof.
  intros Hle. unfold shard_count.
  set (want := if shards <=? 0 then 1024 else shards).
  assert (Hw : 0 < want <= 2 ^ 62).
  { unfold want. destruct (Z.leb_spec shards 0); [split; [lia|]; apply Z.leb_le; reflexivity | lia]. }
  destruct (round_shards_spec 62 64 0 want) as (p & Heq & Hp & Hx & Hmin); [lia|done|apply Z.divide_1_l|lia|].
  by exists p.
Qed.

(** The cache is a finite map: whatever the hash and the requested number of
    shards, every sequence of operations on a new cache returns exactly what the
    same operations return on an initially empty map, including the counts of
    [Del] and [Len] and the atomic replacement of [RefreshAll]. *)
Theorem cache_refines_map {K V} `{Countable K} `{ord : !MapOrder K} (hash : K -> Z) shards
    (ops : list (@cache_op K _ _ V)) :
  (forall k, 0 <= hash k < 2 ^ 64) -> shards <= 2 ^ 62 ->
  exists c, New (K := K) (V := V) 64 shards = Some c /\
    run_all (run_cache hash) ops c = run_all run_map ops ∅.
Proof.
  intros Hhash Hle. unfold New, shard_count.
  set (want := if shards <=? 0 then 1024 else shards).
  assert (Hw : 0 < want <= 2 ^ 62).
  { unfold want. destruct (Z.leb_spec shards 0); [split; [lia|]; apply Z.leb_le; reflexivity | lia]. }
  destruct (round_shards_spec 62 64 0 want) as (p & -> & Hp & _); [lia|done|apply Z.divide_1_l|lia|].
  cbn. eexists. split; [done|].
  assert (Hmask : exists n, 2 ^ p - 1 = 2 ^ n - 1 /\ 0 <= n) by eauto.
  destruct (fresh_ok (V := V) hash Hhash (2 ^ p - 1) Hmask) as [Hok Hg].
  replace (2 ^ p - 1 + 1) with (2 ^ p) in * by lia.
  rewrite (run_all_simulates hash Hhash ops _ Hok). by rewrite Hg.
Qed.

(** ** Witnesses *)

Lemma shard_count_spec_witness : exists p, shard_count 64 5 = Some (2 ^ p) /\ 0 <= p.
Proof.
  destruct (shard_count_spec 5) as (p & Heq & Hp & _); [vm_compute; discriminate|]. by exists p.
Defined.

Lemma cache_refines_map_witness :
  exists c, New (K := Z) (V := string) 64 3 = Some c /\
    run_all (run_cache (fun k => k mod 2 ^ 64)) [OpSet 5 "a"; OpDel [5; 6]; OpGet 5; OpLen] c =
      [OutNone; OutInt 1; OutGet None; OutInt 0].
Proof.
  destruct (cache_refines_map (V := string) (fun k => k mod 2 ^ 64) 3
    [OpSet 5 "a"; OpDel [5; 6]; OpGet 5; OpLen]) as (c & Hc & Hrun).
  - intros k. by apply Z.mod_pos_bound.
  - vm_compute. discriminate.
  - exists c. split; [exact Hc|]. rewrite Hrun. vm_compute. reflexivity.
Defined.
