(* ===== verification/Utf8.v ===== *)
(** * Runes

    Package unicode/utf8 as far as the modelled code uses it, and the two
    functions of relay/state.go that cut strings: [truncateUTF8Bytes] and
    [maskAPIKey]. *)

From S2P Require Import Prelude GoStrings.

Fixpoint str_take (n : nat) (s : string) : string :=
  match n, s with
  | S n, String.String a s => String.String a (str_take n s)
  | _, _ => EmptyString
  end.

Fixpoint str_drop (n : nat) (s : string) : string :=
  match n, s with
  | S n, String.String _ s => str_drop n s
  | _, _ => s
  end.

Definition str_at (i : Z) (s : string) : option Z :=
  match str_drop (Z.to_nat i) s with String.String a _ => Some (byte_of a) | EmptyString => None end.

(** ** Decoding *)

Definition RuneError : Z := 0xFFFD.
Definition RuneStart (b : Z) : bool := negb (Z.land b 0xC0 =? 0x80).

(** The size and the range of the second byte that a first byte asks for; [None]
    for a byte that starts no rune. *)
Definition first_byte (b : Z) : option (Z * Z * Z) :=
  if b <? 0x80 then Some (1, 0, 0)
  else if b <? 0xC2 then None
  else if b <? 0xE0 then Some (2, 0x80, 0xBF)
  else if b =? 0xE0 then Some (3, 0xA0, 0xBF)
  else if b =? 0xED then Some (3, 0x80, 0x9F)
  else if b <? 0xF0 then Some (3, 0x80, 0xBF)
  else if b =? 0xF0 then Some (4, 0x90, 0xBF)
  else if b <? 0xF4 then Some (4, 0x80, 0xBF)
  else if b =? 0xF4 then Some (4, 0x80, 0x8F)
  else None.

Definition continues (o : option Z) (lo hi : Z) : option Z :=
  match o with
  | Some b => if (lo <=? b) && (b <=? hi) then Some (Z.land b 0x3F) else None
  | None => None
  end.

(** [utf8.DecodeRuneInString]. *)
Definition DecodeRune (s : string) : Z * Z :=
  match str_at 0 s with
  | None => (RuneError, 0)
  | Some b =>
      match first_byte b with
      | None => (RuneError, 1)
      | Some (size, lo, hi) =>
          if size =? 1 then (b, 1) else
          match continues (str_at 1 s) lo hi with
          | None => (RuneError, 1)
          | Some b1 =>
              if size =? 2 then (Z.lor (Z.shiftl (Z.land b 0x1F) 6) b1, 2) else
              match continues (str_at 2 s) 0x80 0xBF with
              | None => (RuneError, 1)
              | Some b2 =>
                  if size =? 3
                  then (Z.lor (Z.shiftl (Z.land b 0x0F) 12) (Z.lor (Z.shiftl b1 6) b2), 3) else
                  match continues (str_at 3 s) 0x80 0xBF with
                  | None => (RuneError, 1)
                  | Some b3 =>
                      (Z.lor (Z.shiftl (Z.land b 0x07) 18)
                         (Z.lor (Z.shiftl b1 12) (Z.lor (Z.shiftl b2 6) b3)), 4)
                  end
              end
          end
      end
  end.

(** The backward search of [utf8.DecodeLastRuneInString]: from [start], at most
    [n] more positions. *)
Fixpoint rune_start_before (n : nat) (start : Z) (s : string) : Z :=
  match n with
  | O => start
  | S n =>
      match str_at start s with
      | Some b => if RuneStart b then start else rune_start_before n (start - 1) s
      | None => start
      end
  end.

(** [utf8.DecodeLastRuneInString]; the search stops below [max(end-4, 0)]. *)
Definition DecodeLastRune (s : string) : Z * Z :=
  let stop := slen s in
  match str_at (stop - 1) s with
  | None => (RuneError, 0)
  | Some b =>
      if b <? 0x80 then (b, 1) else
      let lim := Z.max 0 (stop - 4) in
      let start := Z.max 0 (rune_start_before (Z.to_nat (stop - 1 - lim)) (stop - 2) s) in
      let '(r, size) := DecodeRune (str_drop (Z.to_nat start) s) in
      if negb (start + size =? stop) then (RuneError, 1) else (r, size)
  end.

(** The conversion [[]rune(s)], with [n] a bound on the length. *)
Fixpoint runes_of (n : nat) (s : string) : list Z :=
  match n, s with
  | S n, String.String _ _ =>
      let '(r, size) := DecodeRune s in r :: runes_of n (str_drop (Z.to_nat size) s)
  | _, _ => []
  end.
Definition to_runes (s : string) : list Z := runes_of (String.length s) s.

(** [utf8.AppendRune]: surrogates and values out of range become [RuneError]. *)
Definition encode_valid (r : Z) : list Z :=
  if r <? 0x80 then [r]
  else if r <? 0x800 then [Z.lor 0xC0 (Z.shiftr r 6); Z.lor 0x80 (Z.land r 0x3F)]
  else if r <? 0x10000
  then [Z.lor 0xE0 (Z.shiftr r 12); Z.lor 0x80 (Z.land (Z.shiftr r 6) 0x3F); Z.lor 0x80 (Z.land r 0x3F)]
  else [Z.lor 0xF0 (Z.shiftr r 18); Z.lor 0x80 (Z.land (Z.shiftr r 12) 0x3F);
        Z.lor 0x80 (Z.land (Z.shiftr r 6) 0x3F); Z.lor 0x80 (Z.land r 0x3F)].

Definition encode_rune (r : Z) : list Z :=
  if (r <? 0) || (0x10FFFF <? r) || ((0xD800 <=? r) && (r <=? 0xDFFF))
  then encode_valid RuneError else encode_valid r.

Definition of_bytes (bs : list Z) : string := foldr (fun b s => String.String (of_byte b) s) EmptyString bs.
Definition of_runes (rs : list Z) : string := of_bytes (rs ≫= encode_rune).

(** ** [strings.TrimSpace] *)

Definition IsSpace (r : Z) : bool :=
  existsb (Z.eqb r) [9; 10; 11; 12; 13; 32; 0x85; 0xA0; 0x1680; 0x2028; 0x2029; 0x202F; 0x205F; 0x3000]
  || ((0x2000 <=? r) && (r <=? 0x200A)).

Fixpoint trim_left (n : nat) (s : string) : string :=
  match n, s with
  | S n, String.String _ _ =>
      let '(r, size) := DecodeRune s in
      if IsSpace r then trim_left n (str_drop (Z.to_nat size) s) else s
  | _, _ => s
  end.

Fixpoint trim_right (n : nat) (s : string) : string :=
  match n, s with
  | S n, String.String _ _ =>
      let '(r, size) := DecodeLastRune s in
      if IsSpace r then trim_right n (str_take (String.length s - Z.to_nat size) s) else s
  | _, _ => s
  end.

Definition TrimSpace (s : string) : string :=
  let s := trim_left (String.length s) s in trim_right (String.length s) s.

(** ** relay/state.go *)

(** The loop of [truncateUTF8Bytes]: shorten [text[:n]] until its last rune is
    complete. *)
Fixpoint cut_rune (n : nat) (text : string) : string :=
  match n with
  | O => EmptyString
  | S n' =>
      let '(r, size) := DecodeLastRune (str_take n text) in
      if negb (r =? RuneError) || (1 <? size) then str_take n text else cut_rune n' text
  end.

Definition truncateUTF8Bytes (text : string) (limit : Z) : string :=
  if slen text <=? limit then text else cut_rune (Z.to_nat limit) text.

Definition errBriefLimit : Z := 256.
Definition maxBodyPreview : Z := 64 * 1024.
Definition truncateErrBrief (text : string) : string := truncateUTF8Bytes text errBriefLimit.
Definition truncatePreview (text : string) : string := truncateUTF8Bytes text maxBodyPreview.

(** The last four runes behind a fixed mask. *)
Definition maskAPIKey (raw : string) : string :=
  let raw := TrimSpace raw in
  if bool_decide (raw = EmptyString) then EmptyString else
  let runes := to_runes (TrimPrefix raw "...") in
  let runes := if (4 <? length runes)%nat then drop (length runes - 4) runes else runes in
  "..." +:+ of_runes runes.

(** ** Lemmas *)

Lemma slen_nonneg s : 0 <= slen s.
Proof. unfold slen. lia. Qed.

Lemma length_take n s : (String.length (str_take n s) <= n)%nat.
Proof. revert s. induction n as [|n IH]; intros [|a s]; cbn; try lia. specialize (IH s). lia. Qed.

Lemma length_cut_rune n s : (String.length (cut_rune n s) <= n)%nat.
Proof.
  induction n as [|n IH]; [done|]. cbn [cut_rune].
  destruct (DecodeLastRune (str_take (S n) s)) as [r size].
  destruct (negb (r =? RuneError) || (1 <? size)); [apply length_take|]. lia.
Qed.

Lemma truncate_length text limit : 0 <= limit -> slen (truncateUTF8Bytes text limit) <= limit.
Proof.
  intros Hl. unfold truncateUTF8Bytes. destruct (Z.leb_spec (slen text) limit); [done|].
  pose proof (length_cut_rune (Z.to_nat limit) text). unfold slen. lia.
Qed.

(** The value of a key never leaves the process: at most four runes of it are kept. *)
Lemma mask_runes raw :
  maskAPIKey raw = EmptyString \/
  exists runes, (length runes <= 4)%nat /\ maskAPIKey raw = "..." +:+ of_runes runes.
Proof.
  unfold maskAPIKey. case_bool_decide; [by left|]. right. eexists. split; [|reflexivity].
  set (rs := to_runes _). destruct (Nat.ltb_spec 4 (length rs)); [|lia]. rewrite length_drop. lia.
Qed.

Example mask_examples :
  maskAPIKey "sk-abcdef" = "...cdef" /\ maskAPIKey "...cdef" = "...cdef" /\ maskAPIKey " ab " = "...ab" /\
  truncateUTF8Bytes "a界" 3 = "a" /\ truncateUTF8Bytes "a界" 4 = "a界".
Proof. by vm_compute. Qed.
