(* ===== verification/Errors.v ===== *)
(** * Errors and their classification

    relay/state.go and the end of relay/handler.go: the error classes of a
    request and of a round, the status code recovered from an upstream error,
    and the decisions taken on it.  A Go error is a tree: every node has its own
    text and dynamic type, [Unwrap] gives the children; [errors.Is] and
    [errors.As] search it in preorder. *)

From S2P Require Import Prelude GoStrings.

(** ** Go errors *)

(** The package-level sentinels the relay compares with. *)
Inductive Sentinel :=
| errZeroOutput | errNoAnswerStop | errStreamEarlyEof | errStreamIdleTimeout
| errStreamBudgetExceeded | errStreamWindowBudgetExceeded | errMemberResponseTimeout
| errRoundsExceeded | errDeadlineExceeded | errChannelConcurrencyFull | errAllChannelsBusy
| errTitleRequestRejected | errRequestTooLarge | errContextWindowExceeded
| errAllRequestsStopped | errAdminStopped | contextCanceled
| errAbnormalFinish | errStreamEarlyClose | errContextWindowTooSmall | errAllChannelKeysCooling
| errNoAvailableChannels | errWarpProxyInvalid | errWarpProxyTemplateInvalid | ErrRelayBodyTooLarge
| errShortWrite.
#[export] Instance Sentinel_eq_dec : EqDecision Sentinel.
Proof. solve_decision. Defined.

(** The dynamic types [errors.As] looks for.  A [*net.OpError] is also a
    [net.Error]. *)
Inductive ErrKind :=
| PlainError
| SentinelError (s : Sentinel)
| HttpError (StatusCode : Z) (Body : string)   (** [*httpclient.Error] *)
| ResponseError (StatusCode : Z)               (** [llm.ResponseError] *)
| OpError                                      (** [*net.OpError] *)
| NetError                                     (** another [net.Error] *)
| WarpSlotsBusy (RetryAfter : Z).              (** [*warpSlotsBusyError], nanoseconds *)

Inductive GoErr := mkErr { err_Error : string; err_kind : ErrKind; err_wrapped : list GoErr }.

(** The kinds of the tree in the order the standard library visits them. *)
Fixpoint err_chain (e : GoErr) : list ErrKind :=
  match e with mkErr _ k ws => k :: flat_map err_chain ws end.

Definition is_sentinel (s : Sentinel) (k : ErrKind) : bool :=
  match k with SentinelError s' => bool_decide (s' = s) | _ => false end.

(** [errors.Is(err, s)]; the nil error is [None]. *)
Definition errors_Is (e : option GoErr) (s : Sentinel) : bool :=
  match e with Some e => existsb (is_sentinel s) (err_chain e) | None => false end.

(** [errors.As] with a target of the type that [pick] recognises. *)
Definition errors_As {A} (pick : ErrKind -> option A) (e : GoErr) : option A :=
  head (omap pick (err_chain e)).

Definition as_http (k : ErrKind) : option (Z * string) :=
  match k with HttpError code body => Some (code, body) | _ => None end.
Definition as_response (k : ErrKind) : option Z :=
  match k with ResponseError code => Some code | _ => None end.
Definition as_net (k : ErrKind) : option unit :=
  match k with OpError | NetError => Some () | _ => None end.
Definition as_warp_busy (k : ErrKind) : option Z :=
  match k with WarpSlotsBusy d => Some d | _ => None end.

(** [fmt.Errorf] with one [%w]. *)
Definition errorf_w (text : string) (e : GoErr) : GoErr := mkErr text PlainError [e].

(** ** Classes *)

Inductive ErrClass :=
| ErrClassNone | ErrClassZeroOutput | ErrClassNoAnswer | ErrClassEarlyEof | ErrClassStreamIdle
| ErrClassStreamBudget | ErrClassTimeout | ErrClassClientCancel | ErrClassAdminAbort
| ErrClassUpstream4xx | ErrClassUpstream5xx | ErrClassUpstreamNetwork | ErrClassUpstream
| ErrClassChannelBusy | ErrClassClientRejected | ErrClassRoundsExhausted.
#[export] Instance ErrClass_eq_dec : EqDecision ErrClass.
Proof. solve_decision. Defined.

Definition classifyStatusCode (code : Z) : ErrClass :=
  if 500 <=? code then ErrClassUpstream5xx
  else if 400 <=? code then ErrClassUpstream4xx
  else ErrClassUpstream.

Definition infrastructureErrorKeywords : list string :=
  ["socks"; "connection refused"; "connection reset"; "no such host"; "tls handshake"; "x509: ";
   "unexpected eof"; "broken pipe"; "network is unreachable"; "i/o timeout"].

Definition isInfrastructureError (err : option GoErr) : bool :=
  match err with
  | None => false
  | Some e =>
      match errors_As as_http e with
      | Some (code, _) => code =? 0
      | None =>
          if is_some (errors_As as_net e) then true
          else existsb (str_contains (ToLower (err_Error e))) infrastructureErrorKeywords
      end
  end.

(** *** Status codes in texts

    [statusTextPattern] is [(?:with status|upstream responded)\s+(\d{3})]; a
    match of the rest after the words, then the leftmost match. *)
Fixpoint match_digits (s : string) : option Z :=
  match s with
  | String.String a (String.String b (String.String c _)) =>
      if is_digit a && is_digit b && is_digit c
      then Some (100 * digit_of a + 10 * digit_of b + digit_of c) else None
  | _ => None
  end.

Fixpoint skip_spaces (s : string) : string :=
  match s with
  | String.String a rest => if is_regexp_space a then skip_spaces rest else s
  | EmptyString => s
  end.

Definition match_after_words (s : string) : option Z :=
  match s with
  | String.String a rest => if is_regexp_space a then match_digits (skip_spaces rest) else None
  | EmptyString => None
  end.

Definition match_status_here (s : string) : option Z :=
  match drop_prefix "with status" s with
  | Some rest => match_after_words rest
  | None =>
      match drop_prefix "upstream responded" s with
      | Some rest => match_after_words rest
      | None => None
      end
  end.

Fixpoint statusTextPattern (s : string) : option Z :=
  match match_status_here s with
  | Some code => Some code
  | None => match s with String.String _ rest => statusTextPattern rest | EmptyString => None end
  end.

Definition statusPhraseMap : gmap string Z := list_to_map [
  ("bad request", 400); ("unauthorized", 401); ("payment required", 402); ("forbidden", 403);
  ("not found", 404); ("method not allowed", 405); ("conflict", 409);
  ("unprocessable entity", 422); ("too many requests", 429); ("internal server error", 500);
  ("bad gateway", 502); ("service unavailable", 503)].

Section classify.
Context `{ord : !MapOrder string}.

(** The text fallbacks of [UpstreamStatusCode]: the pattern, then the phrases in
    the order in which [range] visits the map. *)
Definition status_of_text (text : string) : option Z :=
  match statusTextPattern text with
  | Some code => Some code
  | None =>
      snd <$> find_first (fun pc => str_contains (ToLower text) ("request failed: " +:+ pc.1))
                (map_order statusPhraseMap)
  end.

Definition UpstreamStatusCode (err : option GoErr) : option Z :=
  match err with
  | None => None
  | Some e =>
      match errors_As as_http e with
      | Some (code, _) =>
          if negb (code =? 0) then Some code
          else match errors_As as_response e with
               | Some code => if negb (code =? 0) then Some code else status_of_text (err_Error e)
               | None => status_of_text (err_Error e)
               end
      | None =>
          match errors_As as_response e with
          | Some code => if negb (code =? 0) then Some code else status_of_text (err_Error e)
          | None => status_of_text (err_Error e)
          end
      end
  end.

Definition classifyUpstreamStatus (err : option GoErr) : ErrClass :=
  match UpstreamStatusCode err with
  | Some code => classifyStatusCode code
  | None => ErrClassUpstream
  end.

Definition ClassifyError (err : option GoErr) : ErrClass :=
  match err with
  | None => ErrClassNone
  | Some _ =>
      if errors_Is err errZeroOutput then ErrClassZeroOutput
      else if errors_Is err errNoAnswerStop then ErrClassNoAnswer
      else if errors_Is err errStreamEarlyEof then ErrClassEarlyEof
      else if errors_Is err errStreamIdleTimeout then ErrClassStreamIdle
      else if errors_Is err errStreamBudgetExceeded || errors_Is err errStreamWindowBudgetExceeded
      then ErrClassStreamBudget
      else if errors_Is err errMemberResponseTimeout then ErrClassTimeout
      else if errors_Is err errRoundsExceeded || errors_Is err errDeadlineExceeded
      then ErrClassRoundsExhausted
      else if errors_Is err errChannelConcurrencyFull || errors_Is err errAllChannelsBusy
      then ErrClassChannelBusy
      else if errors_Is err errTitleRequestRejected then ErrClassClientRejected
      else if errors_Is err errRequestTooLarge || errors_Is err errContextWindowExceeded
      then ErrClassUpstream4xx
      else if isInfrastructureError err then ErrClassUpstreamNetwork
      else classifyUpstreamStatus err
  end.

(** A context as [classifyRound] sees it: [None] is a nil context; [Some None]
    is live, [Some (Some cause)] done with that cause.  The error of the parent
    context only matters as nil or not. *)
Definition Ctx := option (option GoErr).

Definition ctx_done (c : Ctx) : bool := match c with Some (Some _) => true | _ => false end.
Definition ctx_cause (c : Ctx) : option GoErr := mjoin c.

Definition classifyRound (err : option GoErr) (parentCtx roundCtx : Ctx) : ErrClass :=
  if ctx_done parentCtx then ErrClassClientCancel
  else if errors_Is err errZeroOutput then ErrClassZeroOutput
  else if errors_Is err errNoAnswerStop then ErrClassNoAnswer
  else if errors_Is err errChannelConcurrencyFull then ErrClassChannelBusy
  else if errors_Is err errStreamEarlyEof then ErrClassEarlyEof
  else if errors_Is err errStreamIdleTimeout then ErrClassStreamIdle
  else if errors_Is err errStreamBudgetExceeded || errors_Is err errStreamWindowBudgetExceeded
  then ErrClassStreamBudget
  else if errors_Is err errMemberResponseTimeout then ErrClassTimeout
  else if errors_Is (ctx_cause roundCtx) errMemberResponseTimeout then ErrClassTimeout
  else if errors_Is (ctx_cause roundCtx) errStreamIdleTimeout then ErrClassStreamIdle
  else if errors_Is (ctx_cause roundCtx) contextCanceled then ErrClassAdminAbort
  else if isInfrastructureError err then ErrClassUpstreamNetwork
  else classifyUpstreamStatus err.

(** ** Decisions on a status code *)

(** relay/keyselect.go. *)
Definition isAuthRejectionError (err : option GoErr) : bool :=
  match UpstreamStatusCode err with
  | Some code => (code =? 401) || (code =? 403)
  | None => false
  end.

Definition isKeyRateLimitError (err : option GoErr) : bool :=
  match UpstreamStatusCode err with Some code => code =? 429 | None => false end.

Definition deterministicClientRejectionMarkers : list string :=
  ["invalid_request_error"; "invalid_request"; "context_length_exceeded"; "maximum context length";
   "string_above_max_length"; "prompt is too long"].

Definition isDeterministicClientResponse (status : Z) (body : string) : bool :=
  if negb (status =? 400) && negb (status =? 422) then false
  else existsb (str_contains (ToLower body)) deterministicClientRejectionMarkers.

(** The body of the first [*httpclient.Error], when it has one, else the text. *)
Definition rejection_text (e : GoErr) : string :=
  match errors_As as_http e with
  | Some (_, body) => if 0 <? slen body then body else err_Error e
  | None => err_Error e
  end.

Definition isDeterministicRequestRejection (err : option GoErr) : bool :=
  match err, UpstreamStatusCode err with
  | Some e, Some status => isDeterministicClientResponse status (rejection_text e)
  | _, _ => false
  end.

(** relay/context_probe.go. *)
Definition contextOverflowHints : list string :=
  ["context_length"; "context length"; "context window"; "maximum context"; "too many tokens";
   "too long"; "exceed"; "max_tokens"; "token limit"; "上下文"; "超出"; "过长"; "太长"].

Definition looksLikeContextOverflow (detail : string) : bool :=
  existsb (str_contains (ToLower detail)) contextOverflowHints.

Definition isContextOverflowRejection (err : option GoErr) : bool :=
  match err with Some e => looksLikeContextOverflow (rejection_text e) | None => false end.

(** [seen] maps a member to the status that made it infeasible. *)
Definition requestInfeasibleError (seen : gmap Z Z) (tooLargeContextHint : bool) : option GoErr :=
  let tooLarge := mkErr "请求体超过上游限制（413），请减小上下文后重试" (SentinelError errRequestTooLarge) [] in
  if existsb (fun kv => kv.2 =? 413) (map_to_list seen) then
    if tooLargeContextHint
    then Some (errorf_w (err_Error tooLarge +:+ "（输入可能超出上游上下文窗口）") tooLarge)
    else Some tooLarge
  else if 0 <? Z.of_nat (size seen)
  then Some (mkErr "请求上下文超出模型上限，请减少输入或提高模型窗口" (SentinelError errContextWindowExceeded) [])
  else None.

(** The status and the Retry-After seconds of [rejectRequest]. *)
Definition rejectRequest (e : GoErr) : Z * option Z :=
  if errors_Is (Some e) errAllRequestsStopped || errors_Is (Some e) errAllChannelsBusy
  then (503, Some 5)
  else match errors_As as_warp_busy e with
       | Some d => (503, Some (Z.max 1 (Z.quot (d + 1000000000 - 1) 1000000000)))
       | None => if errors_Is (Some e) errRequestTooLarge then (413, None) else (400, None)
       end.
End classify.

(** ** Theorems *)

Section theorems.
Context `{ord : !MapOrder string}.

Lemma chain_wrap text e : err_chain (errorf_w text e) = PlainError :: err_chain e.
Proof. cbn. by rewrite app_nil_r. Qed.

Lemma errors_Is_wrap text e s : errors_Is (Some (errorf_w text e)) s = errors_Is (Some e) s.
Proof. unfold errors_Is. by rewrite chain_wrap. Qed.

Lemma errors_As_wrap {A} (pick : ErrKind -> option A) text e :
  pick PlainError = None -> errors_As pick (errorf_w text e) = errors_As pick e.
Proof. intros Hp. unfold errors_As. rewrite chain_wrap. cbn. by rewrite Hp. Qed.

(** The error carries its meaning in a value, not only in its text: a sentinel
    that both classifications know, or an HTTP response. *)
Definition round_sentinels : list Sentinel :=
  [errZeroOutput; errNoAnswerStop; errStreamEarlyEof; errStreamIdleTimeout; errStreamBudgetExceeded;
   errStreamWindowBudgetExceeded; errMemberResponseTimeout; errChannelConcurrencyFull].
Definition structured (e : GoErr) : Prop :=
  existsb (errors_Is (Some e)) round_sentinels = true \/ is_some (errors_As as_http e) = true.

Lemma structured_wrap text e : structured e -> structured (errorf_w text e).
Proof.
  unfold structured, round_sentinels. cbn [existsb].
  by rewrite !errors_Is_wrap, errors_As_wrap by done.
Qed.

Lemma infra_wrap text e :
  is_some (errors_As as_http e) = true ->
  isInfrastructureError (Some (errorf_w text e)) = isInfrastructureError (Some e) /\
  (isInfrastructureError (Some e) = false ->
   UpstreamStatusCode (Some (errorf_w text e)) = UpstreamStatusCode (Some e)).
Proof.
  intros Hh. unfold isInfrastructureError, UpstreamStatusCode. rewrite !errors_As_wrap by done.
  destruct (errors_As as_http e) as [[code body]|]; [|discriminate].
  split; [done|]. by intros ->.
Qed.

(** The class of a structured error does not depend on how often, or in
    which words, it has been wrapped on its way, neither for the request nor for
    a round; without a structured value the text decides. *)
Theorem classification_ignores_wrapping texts e parentCtx roundCtx :
  structured e ->
  let wrapped := foldr errorf_w e texts in
  ClassifyError (Some wrapped) = ClassifyError (Some e) /\
  classifyRound (Some wrapped) parentCtx roundCtx = classifyRound (Some e) parentCtx roundCtx.
Proof.
  intros Hs wrapped. subst wrapped. induction texts as [|text texts IH]; [done|]. cbn [foldr].
  set (e' := foldr errorf_w e texts) in *. destruct IH as [<- <-].
  assert (Hs' : structured e').
  { subst e'. clear text. induction texts as [|t ts IH]; [done|]. cbn [foldr].
    by apply structured_wrap. }
  clearbody e'. unfold ClassifyError, classifyRound, classifyUpstreamStatus.
  rewrite !errors_Is_wrap. unfold structured, round_sentinels in Hs'. cbn [existsb] in Hs'.
  destruct Hs' as [Hsent|Hh].
  - repeat match goal with |- context [errors_Is (Some e') ?s] =>
      destruct (errors_Is (Some e') s); cbn [orb] in *; [split; by case_ifs|] end.
    discriminate.
  - destruct (infra_wrap text e' Hh) as [-> Hst].
    destruct (isInfrastructureError (Some e')); [done|]. by rewrite Hst.
Qed.

(** For an error of a round, while both contexts are live, the class of the
    round and the class of the request coincide, as long as no two different
    sentinels are mixed in it. *)
Theorem round_class_is_request_class s e parentCtx roundCtx :
  (forall s', errors_Is (Some e) s' = true -> s' = s) ->
  s ∉ [errRoundsExceeded; errDeadlineExceeded; errAllChannelsBusy; errTitleRequestRejected;
       errRequestTooLarge; errContextWindowExceeded] ->
  ctx_done parentCtx = false -> ctx_done roundCtx = false ->
  classifyRound (Some e) parentCtx roundCtx = ClassifyError (Some e).
Proof.
  intros Hone Hs Hp Hr. unfold classifyRound, ClassifyError. rewrite Hp.
  replace (ctx_cause roundCtx) with (@None GoErr) by (by destruct roundCtx as [[]|]).
  assert (Hno : forall s', s' ∈ [errRoundsExceeded; errDeadlineExceeded; errAllChannelsBusy;
    errTitleRequestRejected; errRequestTooLarge; errContextWindowExceeded] ->
    errors_Is (Some e) s' = false).
  { intros s' Hin. destruct (errors_Is (Some e) s') eqn:Hs'; [|done].
    apply Hone in Hs'. by subst. }
  rewrite (Hno errRoundsExceeded), (Hno errDeadlineExceeded), (Hno errAllChannelsBusy),
    (Hno errTitleRequestRejected), (Hno errRequestTooLarge), (Hno errContextWindowExceeded)
    by set_solver.
  assert (Hnil : forall s', errors_Is None s' = false) by done. rewrite !Hnil, !orb_false_r.
  change (false || false) with false.
  destruct (errors_Is (Some e) errChannelConcurrencyFull) eqn:Hbusy; [|done].
  assert (Hex : forall s', s' ≠ errChannelConcurrencyFull -> errors_Is (Some e) s' = false).
  { intros s' Hne. destruct (errors_Is (Some e) s') eqn:Hs'; [|done].
    by rewrite (Hone _ Hs'), <- (Hone _ Hbusy) in Hne. }
  rewrite (Hex errStreamEarlyEof), (Hex errStreamIdleTimeout), (Hex errStreamBudgetExceeded),
    (Hex errStreamWindowBudgetExceeded), (Hex errMemberResponseTimeout) by done. done.
Qed.

(** The comment of [isInfrastructureError] promises that an error with a status
    "with status NNN" never takes this branch; the keywords come first. *)
Lemma status_text_taken_for_network :
  let e := mkErr "upstream request failed with status 502: read: connection reset by peer" PlainError [] in
  isInfrastructureError (Some e) = true /\ UpstreamStatusCode (Some e) = Some 502 /\
  ClassifyError (Some e) = ErrClassUpstreamNetwork.
Proof. by vm_compute. Qed.
End theorems.

(** ** Witnesses *)

Definition demo_http : GoErr := mkErr "429 Too Many Requests" (HttpError 429 "{}") [].

Lemma classification_ignores_wrapping_witness :
  structured demo_http /\
  ClassifyError (Some (foldr errorf_w demo_http ["socks"; "with status 500"])) = ErrClassUpstream4xx.
Proof.
  split; [by right|].
  exact (proj1 (classification_ignores_wrapping ["socks"; "with status 500"] demo_http None None
                  (or_intror eq_refl))).
Defined.

Lemma round_class_is_request_class_witness :
  classifyRound (Some (mkErr "eof" (SentinelError errStreamEarlyEof) [])) (Some None) (Some None)
    = ErrClassEarlyEof.
Proof.
  refine (round_class_is_request_class errStreamEarlyEof _ (Some None) (Some None) _ _ eq_refl eq_refl).
  - intros s'. by destruct s'.
  - apply (bool_decide_unpack _). vm_compute. exact I.
Defined.
