(* ===== verification/Usage.v ===== *)
(** * Reported token usage

    relay/usage_sanitize.go.  [llm.Usage] and the JSON scanner are libraries:
    the class states the fields the code reads and writes, and the messages the
    scanner finds in a request body. *)

From S2P Require Import Prelude GoStrings.

(** The [content] of one message, by its JSON type. *)
Inductive Content := ContentString (text : string) | ContentParts (texts : list string) | ContentOther.

Class UsageOps (Usage : Type) := {
  zero_usage : Usage;
  PromptTokens : Usage -> Z;
  CompletionTokens : Usage -> Z;
  (** [PromptTokensDetails]: cached, write-cached, and the two timed fields *)
  PromptTokensDetails : Usage -> option (Z * Z * Z * Z);
  (** [fixed.PromptTokens = p; fixed.TotalTokens = t] *)
  set_tokens : Z -> Z -> Usage -> Usage;
  (** [gjson.Get(body, "messages").Array()] *)
  body_messages : string -> list Content;
}.

Definition suspiciousZeroMinBodyBytes : Z := 64.
Definition suspiciousZeroEstimateSlack : Z := 8192.

Section usage.
Context {Usage : Type} `{ops : !UsageOps Usage}.

Definition content_length (c : Content) : Z :=
  match c with
  | ContentString text => slen text
  | ContentParts texts => foldl (fun n text => n + slen text) 0 texts
  | ContentOther => 0
  end.

Definition nonTrivialRequestBody (body : string) : bool :=
  if slen body <? suspiciousZeroMinBodyBytes then false else
  let messages := body_messages body in
  let totalText := foldl (fun n c => n + content_length c) 0 messages in
  (0 <? Z.of_nat (length messages)) && (0 <? totalText).

Definition has_cached (usage : Usage) : bool :=
  match PromptTokensDetails usage with
  | Some (cached, write, write5, write60) => (0 <? cached) || (0 <? write) || (0 <? write5) || (0 <? write60)
  | None => false
  end.

Definition sanitizeUsage (usage : option Usage) (requestBody : string) : option Usage * bool :=
  if from_option (fun u => 0 <? PromptTokens u) false usage then (usage, false)
  else if from_option has_cached false usage then (usage, false)
  else if negb (nonTrivialRequestBody requestBody) then (usage, false)
  else
    let fixed := default zero_usage usage in
    let estimated := Z.max 1 (Z.quot (slen requestBody) 3) in
    let estimated := Z.min estimated (slen requestBody * 2 + suspiciousZeroEstimateSlack) in
    (Some (set_tokens estimated (estimated + CompletionTokens fixed) fixed), true).

(** The upper clamp never changes the estimate. *)
Lemma estimate_exact body :
  Z.min (Z.max 1 (Z.quot (slen body) 3)) (slen body * 2 + suspiciousZeroEstimateSlack)
    = Z.max 1 (Z.quot (slen body) 3).
Proof.
  assert (0 <= slen body) by (unfold slen; lia). unfold suspiciousZeroEstimateSlack.
  rewrite Z.quot_div_nonneg by lia. pose proof (Z.div_le_upper_bound (slen body) 3 (slen body)). lia.
Qed.

(** A usage that reports input is passed on untouched. *)
Lemma sanitize_reported u body : 0 < PromptTokens u -> sanitizeUsage (Some u) body = (Some u, false).
Proof. intros Hu. unfold sanitizeUsage. cbn. by rewrite (proj2 (Z.ltb_lt _ _) Hu). Qed.
End usage.
