(* ===== verification/Requests.v ===== *)
(** * The registry of client requests

    relay/state.go.  [mu] protects the package variables; every function between
    its [Lock] and [Unlock] is one atomic step of the registry.  A [*RequestState]
    is a reference into the store [g_objects], because the handler keeps writing
    to a request that has already left the map [requests]. *)

From coqutil Require Export Datatypes.RecordSetters.
Export RecordSetters.OCamlLikeNotations.
From S2P Require Import Prelude GoStrings Utf8 Hub Errors Usage.

(** ** Data *)

Inductive Status := StatusRunning | StatusCommitted | StatusSuccess | StatusFailed | StatusCanceled.
#[export] Instance Status_eq_dec : EqDecision Status.
Proof. solve_decision. Defined.

(** [OutcomeNone] is the empty string, the outcome of a round in progress. *)
Inductive AttemptOutcome := OutcomeNone | AttemptSuccess | AttemptFailed | AttemptCanceled.
#[export] Instance AttemptOutcome_eq_dec : EqDecision AttemptOutcome.
Proof. solve_decision. Defined.

Record AttemptRecord := mkAttempt {
  at_Seq : Z; at_ChannelID : Z; at_ChannelName : string; at_MemberID : Z; at_Model : string;
  at_KeyLabel : string; at_ProxyAddr : string; at_FirstTokenMS : Z; at_LatencyMS : Z;
  at_Outcome : AttemptOutcome; at_ErrClass : ErrClass; at_ErrBrief : string }.

Record MaskMatch := mkMatch { mm_Label : string; mm_Original : string; mm_Placeholder : string }.

Record RoundTarget := mkTarget {
  rt_MemberID : Z; rt_ChannelID : Z; rt_ChannelName : string; rt_Model : string; rt_KeyLabel : string;
  rt_ThinkingLevel : string; rt_ClientFormat : string; rt_UpstreamType : string;
  rt_Passthrough : bool; rt_ProxyAddr : string }.

(** Times are nanoseconds; [cancel] is the reference of a context, [stopCh] a
    channel of which only the closing matters. *)
Record RequestState {Usage : Type} := mkRequest {
  q_ID : Z; q_Status : Status; q_StartedAt : Z; q_FirstTokenAt : option Z; q_OutputChars : Z;
  q_Duration : Z; q_Model : string; q_ClientIP : string; q_APIKey : string; q_KeyName : string;
  q_Usage : Usage; q_UsageEstimated : bool; q_Round : Z; q_TargetChannel : string;
  q_TargetModel : string; q_KeyLabel : string; q_ThinkingLevel : string; q_ClientFormat : string;
  q_UpstreamType : string; q_RelayMode : string; q_ProxyAddr : string;
  q_MaskMatches : list MaskMatch; q_MaskMatchesTruncated : bool; q_Sending : bool;
  q_Error : string; q_Class : ErrClass; q_Attempts : list AttemptRecord;
  q_body : string; q_responseBody : string; q_cancel : option Z; q_stopRequested : bool;
  q_stopClosed : bool; q_roundStartedAt : option Z; q_lastOutputPublish : Z }.
Arguments RequestState : clear implicits.
Arguments mkRequest {Usage}.

Record FailureSummary := mkFailure {
  fs_ID : Z; fs_FinishedAt : Z; fs_Model : string; fs_TargetChannel : string; fs_TargetModel : string;
  fs_ErrClass : ErrClass; fs_ErrBrief : string }.

(** What [finish] takes with it out of the first critical section. *)
Record Pending {Usage : Type} := mkPending {
  p_body : string; p_responseBody : string; p_status : Status; p_class : ErrClass;
  p_errText : string; p_usage : option Usage }.
Arguments Pending : clear implicits.
Arguments mkPending {Usage}.

(** What a terminal request leaves for the conversation log. *)
Record ConversationRecord := mkConversation {
  cr_RequestID : Z; cr_CreatedAt : Z; cr_Model : string; cr_ChannelName : string;
  cr_TargetModel : string; cr_ClientIP : string; cr_KeyName : string; cr_ClientFormat : string;
  cr_UpstreamType : string; cr_RelayMode : string; cr_Outcome : string; cr_ErrClass : ErrClass;
  cr_ErrBrief : string; cr_RawRequest : string; cr_Response : string; cr_Usage : Z * Z }.

Definition streamBuffer : nat := 16.
Definition maxFinished : Z := 200.
Definition maxAttempts : Z := 200.
Definition maxFailureRecords : Z := 200.
Definition outputCharsPublishInterval : Z := 500000000.

(** The package variables.  [g_cancelled] collects the contexts whose cancel
    function has been called, [g_finishing] the requests between the two phases
    of [finish], [g_panicked] whether a closed channel has been closed again. *)
Record Registry {Usage : Type} := mkRegistry {
  g_idSeq : Z;
  g_objects : gmap Z (RequestState Usage);
  g_requests : gset Z;
  g_finishedQueue : list Z;
  g_watchers : Hub (RequestState Usage);
  g_failureRing : list (option FailureSummary);
  g_failureCount : Z;
  g_failureNext : Z;
  g_cancelled : gset Z;
  g_finishing : gmap Z (Pending Usage);
  g_allStopped : bool;
  g_panicked : bool }.
Arguments Registry : clear implicits.
Arguments mkRegistry {Usage}.

Section registry.
Context {Usage : Type} `{ops : !UsageOps Usage} `{ord : !MapOrder Z} `{ords : !MapOrder string}.
Implicit Types (g : Registry Usage) (r : RequestState Usage).

Definition registry_init : Registry Usage :=
  mkRegistry 0 ∅ ∅ [] hub_empty (replicate (Z.to_nat maxFailureRecords) None) 0 0 ∅ ∅ false false.

(** ** Publication *)

(** The snapshot that leaves the critical section carries no body. *)
Definition outgoing r : RequestState Usage :=
  { r with q_body := EmptyString; q_responseBody := EmptyString }.

Definition publishRequestLocked r g : Registry Usage :=
  { g with g_watchers := publish streamBuffer (outgoing r) (g_watchers g) }.

(** Writing through a [*RequestState]. *)
Definition put_object r g : Registry Usage := { g with g_objects := <[q_ID r := r]> (g_objects g) }.
Definition store_publish r g : Registry Usage := publishRequestLocked r (put_object r g).

(** Most operations read the object of the receiver and write it back. *)
Definition on_request (id : Z) (f : RequestState Usage -> Registry Usage -> Registry Usage) g :=
  match g_objects g !! id with Some r => f r g | None => g end.

(** ** The life of a request *)

Definition newRequestState (now : Z) (model body clientIP apiKeyRaw keyName : string) g
  : Z * Registry Usage :=
  let id := g_idSeq g + 1 in
  let r := mkRequest id StatusRunning now None 0 0 model clientIP (maskAPIKey apiKeyRaw) keyName
             zero_usage false 0 "" "" "" "" "" "" "" "" [] false false "" ErrClassNone []
             body "" None false false None 0 in
  let g := put_object r { g with g_idSeq := id } in
  (id, publishRequestLocked r { g with g_requests := {[id]} ∪ g_requests g }).

Definition applyMaskResult (id : Z) (masked : string) (matches : list MaskMatch) (truncated : bool) g :=
  on_request id (fun r =>
    store_publish { r with q_body := masked; q_MaskMatches := matches;
                           q_MaskMatchesTruncated := truncated }) g.

Definition last_records {A} (n : nat) (l : list A) : list A := drop (length l - n) l.

Definition startRound (now : Z) (id cancel : Z) (t : RoundTarget) g : Registry Usage :=
  on_request id (fun r =>
    let round := q_Round r + 1 in
    let attempts :=
      if maxAttempts <=? Z.of_nat (length (q_Attempts r))
      then last_records (Z.to_nat (maxAttempts - 1)) (q_Attempts r) else q_Attempts r in
    let record := mkAttempt round (rt_ChannelID t) (rt_ChannelName t) (rt_MemberID t) (rt_Model t)
                    (rt_KeyLabel t) (rt_ProxyAddr t) 0 0 OutcomeNone ErrClassNone "" in
    store_publish { r with
      q_Round := round; q_TargetChannel := rt_ChannelName t; q_TargetModel := rt_Model t;
      q_KeyLabel := rt_KeyLabel t; q_ThinkingLevel := rt_ThinkingLevel t;
      q_ClientFormat := rt_ClientFormat t; q_UpstreamType := rt_UpstreamType t;
      q_ProxyAddr := rt_ProxyAddr t;
      q_RelayMode := if rt_Passthrough t then "passthrough" else "converted";
      q_Sending := true; q_Error := ""; q_cancel := Some cancel;
      q_roundStartedAt := Some now; q_Attempts := attempts ++ [record] }) g.

Definition setRelayMode (id : Z) (mode : string) g : Registry Usage :=
  on_request id (fun r g =>
    if bool_decide (q_RelayMode r = mode) then g else store_publish { r with q_RelayMode := mode } g) g.

(** [time.Since(r.roundStartedAt).Milliseconds()]; a zero start counts from the
    zero time, which the model writes as [None]. *)
Definition since_ms (now : Z) (start : option Z) : Z := Z.quot (now - default 0 start) 1000000.

Definition close_record (now : Z) r (outcome : AttemptOutcome) (class : ErrClass) (errText : string)
    (a : AttemptRecord) : AttemptRecord :=
  let a := { a with at_Outcome := outcome; at_LatencyMS := since_ms now (q_roundStartedAt r);
                    at_ErrClass := if negb (bool_decide (class = ErrClassNone)) then class
                                   else if bool_decide (outcome = AttemptFailed) then ErrClassUpstream
                                   else ErrClassNone } in
  if negb (bool_decide (errText = "")) && negb (bool_decide (outcome = AttemptSuccess))
  then { a with at_ErrBrief := truncateErrBrief errText }
  else if bool_decide (outcome = AttemptCanceled) && bool_decide (class = ErrClassAdminAbort)
  then { a with at_ErrBrief := "人工中止" }
  else if bool_decide (outcome = AttemptCanceled) && bool_decide (class = ErrClassClientCancel)
  then { a with at_ErrBrief := "客户端断开" }
  else a.

(** The latest record, when it is that of the current round. *)
Definition on_last_attempt r (f : AttemptRecord -> AttemptRecord) : RequestState Usage :=
  match last (q_Attempts r) with
  | Some a => if at_Seq a =? q_Round r
              then { r with q_Attempts := removelast (q_Attempts r) ++ [f a] } else r
  | None => r
  end.

Definition closeAttemptLocked (now : Z) outcome class errText r : RequestState Usage :=
  on_last_attempt r (close_record now r outcome class errText).

Definition finishRound (now : Z) (id : Z) (outcome : AttemptOutcome) (class : ErrClass)
    (errText : string) g : Registry Usage :=
  on_request id (fun r =>
    store_publish (closeAttemptLocked now outcome class errText
                     { r with q_Sending := false; q_Error := errText })) g.

Definition markCommitted (now : Z) (id : Z) g : Registry Usage :=
  on_request id (fun r =>
    let r := { r with q_FirstTokenAt := Some now; q_Status := StatusCommitted } in
    store_publish
      (match q_roundStartedAt r with
       | Some _ => on_last_attempt r (fun a =>
                     { a with at_FirstTokenMS := since_ms now (q_roundStartedAt r) })
       | None => r
       end)) g.

Definition noteOutputChars (now : Z) (id n : Z) g : Registry Usage :=
  if n <=? 0 then g else
  on_request id (fun r g =>
    let r := { r with q_OutputChars ::= Z.add n } in
    if outputCharsPublishInterval <=? now - q_lastOutputPublish r
    then store_publish { r with q_lastOutputPublish := now } g
    else put_object r g) g.

(** ** Terminal states *)

(** The first critical section of [markSucceeded], [markFailed] and
    [markCanceled]: the state becomes terminal, and [finish] gets a snapshot. *)
Definition mark_terminal (id : Z) (status : Status) (errText : string) (class : option ErrClass)
    (responseBody : string) (usage : option Usage) g : Registry Usage :=
  on_request id (fun r g =>
    let r := { r with q_Status := status; q_Error := errText; q_Class ::= (fun c => default c class);
                      q_responseBody := responseBody; q_Sending := false; q_cancel := None } in
    { put_object r g with g_finishing ::= insert id
        (mkPending (q_body r) responseBody status (q_Class r) errText usage) }) g.

Definition markSucceeded (id : Z) (responseBody : string) (usage : option Usage) g :=
  mark_terminal id StatusSuccess "" None responseBody usage g.

Definition markFailed (id : Z) (err : GoErr) (responseBody : string) (usage : option Usage) g :=
  mark_terminal id StatusFailed (err_Error err) (Some (ClassifyError (Some err))) responseBody usage g.

Definition markCanceled (id : Z) (err : GoErr) (responseBody : string) (usage : option Usage) g :=
  mark_terminal id StatusCanceled (err_Error err) (Some ErrClassClientCancel) responseBody usage g.

(** [wait]: the back-off between two rounds ends with the timer, the context of
    the client or the stop channel. *)
Inductive wake := TimerEnds | ClientGone (err : GoErr) | StopClosed.

Definition wait (id : Z) (event : wake) g : bool * Registry Usage :=
  match event with
  | TimerEnds => (true, g)
  | ClientGone err => (false, markCanceled id err "" None g)
  | StopClosed =>
      (false, markCanceled id (mkErr "管理端已停止请求" (SentinelError errAdminStopped) []) "" None g)
  end.

Definition terminal (s : Status) : bool :=
  match s with StatusRunning | StatusCommitted => false | _ => true end.

(** The check and the call are two critical sections; the status cannot become
    terminal in between, because only the handler of the request sets it. *)
Definition abandonUnfinishedRequest (id : Z) (err : option GoErr) g : Registry Usage :=
  match err with
  | None => g
  | Some err =>
      on_request id (fun r g => if terminal (q_Status r) then g else markFailed id err "" None g) g
  end.

Definition conversationOutcome (s : Status) : string :=
  match s with StatusSuccess => "success" | StatusFailed => "failed" | _ => "canceled" end.

(** The unlocked part of [finish]: the record for the conversation log, and the
    reported usage for the hourly buckets, never an estimated one. *)
Definition finish_capture (now : Z) r (p : Pending Usage) : ConversationRecord * option Usage :=
  let '(usage, estimated) := sanitizeUsage (p_usage p) (p_body p) in
  (mkConversation (q_ID r) now (q_Model r) (q_TargetChannel r) (q_TargetModel r) (q_ClientIP r)
     (q_KeyName r) (q_ClientFormat r) (q_UpstreamType r) (q_RelayMode r)
     (conversationOutcome (p_status p)) (p_class p) (truncateErrBrief (p_errText p)) (p_body p)
     (p_responseBody p)
     (match usage with Some u => (PromptTokens u, CompletionTokens u) | None => (0, 0) end),
   if estimated then None else usage).

(** *** The failure ring *)

Definition appendFailureLocked (summary : FailureSummary) g : Registry Usage :=
  { g with g_failureRing ::= <[Z.to_nat (g_failureNext g) := Some summary]>;
           g_failureNext := (g_failureNext g + 1) mod maxFailureRecords;
           g_failureCount := if g_failureCount g <? maxFailureRecords then g_failureCount g + 1
                             else g_failureCount g }.

(** The loop of [FailureSummaries] from index [i], [n] records long. *)
Fixpoint collect_failures (n : nat) (i limit : Z) (class : ErrClass) (taken : Z) g
  : list FailureSummary :=
  match n with
  | O => []
  | S n =>
      if limit <=? taken then [] else
      let at_ := Z.rem (g_failureNext g - 1 - i + maxFailureRecords) maxFailureRecords in
      match mjoin (g_failureRing g !! Z.to_nat at_) with
      | Some summary =>
          if negb (bool_decide (class = ErrClassNone)) &&
             negb (bool_decide (fs_ErrClass summary = class))
          then collect_failures n (i + 1) limit class taken g
          else summary :: collect_failures n (i + 1) limit class (taken + 1) g
      | None => collect_failures n (i + 1) limit class taken g
      end
  end.

Definition FailureSummaries (limit : Z) (class : ErrClass) g : list FailureSummary :=
  let limit := if (limit <=? 0) || (maxFailureRecords <? limit) then maxFailureRecords else limit in
  collect_failures (Z.to_nat (g_failureCount g)) 0 limit class 0 g.

(** *** The second phase of [finish] *)

(** [trimFinishedRequestsLocked]: the loop pops the oldest ids. *)
Fixpoint trim_finished (queue : list Z) (requests : gset Z) : list Z * gset Z :=
  if maxFinished <? Z.of_nat (length queue) then
    match queue with
    | oldest :: queue => trim_finished queue (requests ∖ {[oldest]})
    | [] => (queue, requests)
    end
  else (queue, requests).

Definition trimFinishedRequestsLocked g : Registry Usage :=
  let '(queue, requests) := trim_finished (g_finishedQueue g) (g_requests g) in
  { g with g_finishedQueue := queue; g_requests := requests }.

Definition finish (now : Z) (id : Z) g : Registry Usage :=
  match g_finishing g !! id with
  | None => g
  | Some p =>
      let g := { g with g_finishing ::= delete id } in
      on_request id (fun r g =>
        let '(usage, estimated) := sanitizeUsage (p_usage p) (p_body p) in
        let r := { r with q_UsageEstimated := estimated;
                          q_Usage ::= (fun u => default u usage);
                          q_body := truncatePreview (p_body p);
                          q_responseBody := truncatePreview (p_responseBody p);
                          q_Duration := now - q_StartedAt r } in
        let g := put_object r g in
        let g := if bool_decide (p_status p = StatusFailed)
                 then appendFailureLocked (mkFailure (q_ID r) now (q_Model r) (q_TargetChannel r)
                        (q_TargetModel r) (p_class p) (truncateErrBrief (p_errText p))) g
                 else g in
        let g := publishRequestLocked r g in
        trimFinishedRequestsLocked { g with g_finishedQueue ::= (fun q => q ++ [q_ID r]) }) g
  end.

(** ** Stopping *)

(** [cancel()]: a context can be cancelled any number of times. *)
Definition cancel_context (c : option Z) g : Registry Usage :=
  match c with Some c => { g with g_cancelled ::= union {[c]} } | None => g end.

(** [close(r.stopCh)]: a second close panics. *)
Definition close_stopCh (id : Z) g : Registry Usage :=
  on_request id (fun r g =>
    if q_stopClosed r then { g with g_panicked := true }
    else put_object { r with q_stopClosed := true } g) g.

(** The flag is set under the lock; the caller that has set it then cancels and
    closes outside of it. *)
Definition stop_flag (id : Z) g : option (option Z) * Registry Usage :=
  match g_objects g !! id with
  | None => (None, g)
  | Some r =>
      if q_stopRequested r then (None, g)
      else (Some (q_cancel r), put_object { r with q_stopRequested := true } g)
  end.

Definition StopRequest (id : Z) g : Registry Usage :=
  match stop_flag id g with
  | (None, g) => g
  | (Some cancel, g) => close_stopCh id (cancel_context cancel g)
  end.

Definition StopRequestByID (id : Z) g : bool * Registry Usage :=
  if decide (id ∈ g_requests g) then (true, StopRequest id g) else (false, g).

Definition is_running g (id : Z) : bool :=
  match g_objects g !! id with Some r => negb (terminal (q_Status r)) | None => false end.

Definition stopAllRunningRequests g : Z * Registry Usage :=
  let snapshot := filter (fun id => is_running g id = true) (elements (g_requests g)) in
  (Z.of_nat (length snapshot), foldl (fun g id => StopRequest id g) g snapshot).

Definition StopAllRequests g : Z * Registry Usage :=
  stopAllRunningRequests { g with g_allStopped := true }.
Definition ClearStopAll g : Registry Usage := { g with g_allStopped := false }.

Definition Interrupt (id round : Z) g : bool * Registry Usage :=
  match g_objects g !! id with
  | Some r =>
      if negb (bool_decide (id ∈ g_requests g)) || negb (q_Round r =? round) then (false, g)
      else match q_cancel r with
           | Some _ => (true, cancel_context (q_cancel r) g)
           | None => (false, g)
           end
  | None => (false, g)
  end.

Definition releaseRoundLifecycle (id : Z) g : Registry Usage :=
  on_request id (fun r g => cancel_context (q_cancel r) (put_object { r with q_cancel := None } g)) g.

Definition Clear g : Registry Usage :=
  { g with g_requests ::= (fun ids => list_to_set (filter (fun id => is_running g id = true) (elements ids)));
           g_failureCount := 0; g_failureNext := 0; g_finishedQueue := [] }.

(** ** Streams and bodies *)

(** The snapshot of [OpenRequestStream], newest request first. *)
Definition snapshot g : list (RequestState Usage) :=
  outgoing <$> omap (fun id => g_objects g !! id)
    (reverse (merge_sort Z.le (elements (g_requests g)))).

Definition OpenRequestStream (stream : Z) g : list (RequestState Usage) * Registry Usage :=
  (snapshot g, { g with g_watchers ::= open_stream stream }).
Definition CloseRequestStream (stream : Z) g : Registry Usage :=
  { g with g_watchers ::= close_stream stream }.

Definition RequestBody (id : Z) g : string :=
  if decide (id ∈ g_requests g) then from_option q_body "" (g_objects g !! id) else "".
Definition ResponseBody (id : Z) g : string :=
  if decide (id ∈ g_requests g) then from_option q_responseBody "" (g_objects g !! id) else "".
End registry.
