(* ===== verification/RequestInv.v ===== *)
(** * Invariants of the request registry

    The steps of the registry, its invariant, and that every step preserves it.
    A request is driven by one goroutine: its handler calls the operations of a
    running request until it marks the request terminal, and then [finish] once.
    The administrator's operations and the streams interleave freely. *)

From S2P Require Import Prelude GoStrings Utf8 Hub Errors Usage Requests.

Section inv.
Context {Usage : Type} `{ops : !UsageOps Usage} `{ord : !MapOrder Z} `{ords : !MapOrder string}.
Implicit Types (g : Registry Usage) (r : RequestState Usage).

(** ** Steps *)

Definition handling g (id : Z) : Prop :=
  exists r, g_objects g !! id = Some r /\ terminal (q_Status r) = false.

Inductive request_step g : Registry Usage -> Prop :=
| rq_new now model body ip key name : request_step g (newRequestState now model body ip key name g).2
| rq_mask id masked matches b : handling g id -> request_step g (applyMaskResult id masked matches b g)
| rq_start now id cancel t : handling g id -> request_step g (startRound now id cancel t g)
| rq_mode id mode : handling g id -> request_step g (setRelayMode id mode g)
| rq_round now id o c e : handling g id -> request_step g (finishRound now id o c e g)
| rq_commit now id : handling g id -> request_step g (markCommitted now id g)
| rq_chars now id n : handling g id -> request_step g (noteOutputChars now id n g)
| rq_succeed id body u : handling g id -> request_step g (markSucceeded id body u g)
| rq_fail id e body u : handling g id -> request_step g (markFailed id e body u g)
| rq_cancel id e body u : handling g id -> request_step g (markCanceled id e body u g)
| rq_wait id ev : handling g id -> request_step g (wait id ev g).2
| rq_abandon id e : request_step g (abandonUnfinishedRequest id e g)
| rq_finish now id : request_step g (finish now id g)
| rq_release id : request_step g (releaseRoundLifecycle id g)
| rq_stop id : request_step g (StopRequestByID id g).2
| rq_stop_all : request_step g (StopAllRequests g).2
| rq_clear_stop : request_step g (ClearStopAll g)
| rq_interrupt id round : request_step g (Interrupt id round g).2
| rq_clear : request_step g (Clear g)
| rq_open ch : hub_chans (g_watchers g) !! ch = None -> request_step g (OpenRequestStream ch g).2
| rq_close ch : request_step g (CloseRequestStream ch g)
| rq_recv ch : request_step g { g with g_watchers ::= (fun h => (recv ch h).2) }.

Definition request_reachable g : Prop := rtc request_step registry_init g.

(** ** The invariant *)

(** The attempts are the last [min Round 200] rounds, in order. *)
Definition trail r : Prop :=
  at_Seq <$> q_Attempts r
    = seqZ (q_Round r - Z.of_nat (length (q_Attempts r)) + 1) (Z.of_nat (length (q_Attempts r))) /\
  0 <= q_Round r /\ Z.of_nat (length (q_Attempts r)) = Z.min (q_Round r) maxAttempts.

(** One request object, with what [finish] still has to do for it. *)
Record object_ok (fin : option (Pending Usage)) r : Prop := {
  oo_trail : trail r;
  oo_stop : q_stopClosed r = q_stopRequested r;
  oo_key : exists raw, q_APIKey r = maskAPIKey raw;
  oo_cancel : terminal (q_Status r) = true -> q_cancel r = None /\ q_Sending r = false;
  oo_bodies : terminal (q_Status r) = true -> fin = None ->
    slen (q_body r) <= maxBodyPreview /\ slen (q_responseBody r) <= maxBodyPreview;
  oo_fin : forall p, fin = Some p -> terminal (q_Status r) = true /\ q_Status r = p_status p;
}.

Definition bodiless (m : RequestState Usage) : Prop := q_body m = "" /\ q_responseBody m = "".

Definition messages_ok (h : Hub (RequestState Usage)) : Prop :=
  forall ch c, hub_chans h !! ch = Some c -> Forall bodiless (ch_buf c).

Record registry_ok g : Prop := {
  go_ids : forall id r, g_objects g !! id = Some r -> q_ID r = id /\ 0 < id <= g_idSeq g;
  go_seq : 0 <= g_idSeq g;
  go_objects : forall id r, g_objects g !! id = Some r -> object_ok (g_finishing g !! id) r;
  go_requests : g_requests g ⊆ dom (g_objects g);
  go_finishing : dom (g_finishing g) ⊆ dom (g_objects g);
  go_queue : Z.of_nat (length (g_finishedQueue g)) <= maxFinished;
  go_queued : forall id r, id ∈ g_requests g -> g_objects g !! id = Some r ->
    terminal (q_Status r) = true -> g_finishing g !! id = None -> id ∈ g_finishedQueue g;
  go_hub : hub_ok streamBuffer (g_watchers g);
  go_messages : messages_ok (g_watchers g);
  go_panic : g_panicked g = false;
}.

(** ** Publications *)

Lemma outgoing_bodiless r : bodiless (outgoing r).
Proof. done. Qed.

Lemma publish_messages cap m h :
  hub_ok cap h -> messages_ok h -> bodiless m -> messages_ok (publish cap m h).
Proof.
  intros Hok Hh Hm ch c. rewrite (publish_lookup _ _ _ _ Hok). case_decide; [|by apply Hh].
  destruct (hub_chans h !! ch) as [c0|] eqn:Hc; [|done]. intros [= <-].
  pose proof (Hh _ _ Hc) as H0. unfold published. case_decide; cbn; [|done].
  apply Forall_app. split; [done|]. constructor; [done|constructor].
Qed.

(** The registry does not depend on the hub otherwise. *)
Lemma publish_registry_ok r g : registry_ok g -> registry_ok (publishRequestLocked r g).
Proof.
  intros []. unfold publishRequestLocked. split; record.simp; try done.
  - by apply publish_ok.
  - by apply publish_messages.
Qed.

(** ** Writing one object *)

Lemma put_object_ok r r0 g :
  registry_ok g -> g_objects g !! q_ID r = Some r0 ->
  object_ok (g_finishing g !! q_ID r) r ->
  (terminal (q_Status r) = true -> terminal (q_Status r0) = true) ->
  registry_ok (put_object r g).
Proof.
  intros [] Hr0 Hok Hterm. unfold put_object. split; record.simp; try done.
  - intros id r1. rewrite lookup_insert. case_decide; [|by apply go_ids0].
    intros [= <-]. subst. split; [done|]. by apply go_ids0 in Hr0 as [_ ?].
  - intros id r1. rewrite lookup_insert. case_decide; [|by apply go_objects0].
    intros [= <-]. by subst.
  - intros id Hid. rewrite dom_insert. apply go_requests0 in Hid. set_solver.
  - rewrite dom_insert. set_solver.
  - intros id r1 Hid. rewrite lookup_insert. case_decide; [|by apply go_queued0].
    intros [= <-] Ht Hf. subst. eapply go_queued0; eauto.
Qed.

Lemma on_request_ok id f g :
  registry_ok g -> (forall r, g_objects g !! id = Some r -> q_ID r = id -> registry_ok (f r g)) ->
  registry_ok (on_request id f g).
Proof.
  intros Hok Hf. unfold on_request. destruct (g_objects g !! id) as [r|] eqn:Hr; [|done].
  apply Hf; [done|]. by apply (go_ids _ Hok).
Qed.

(** A running request stays running, its trail and its flags consistent. *)
Record runs_on r r' : Prop := {
  ro_id : q_ID r' = q_ID r;
  ro_run : terminal (q_Status r') = false;
  ro_trail : trail r';
  ro_stop : q_stopClosed r' = q_stopClosed r /\ q_stopRequested r' = q_stopRequested r;
  ro_key : q_APIKey r' = q_APIKey r;
}.

Lemma runs_on_put r r' g :
  registry_ok g -> g_objects g !! q_ID r = Some r -> terminal (q_Status r) = false ->
  runs_on r r' -> registry_ok (put_object r' g).
Proof.
  intros Hok Hr Hrun [Hid Hrun' Htr [Hs1 Hs2] Hk]. pose proof (go_objects _ Hok _ _ Hr) as Ho.
  apply (put_object_ok _ r); [done|by rewrite Hid| |by rewrite Hrun'].
  split; rewrite ?Hrun', ?Hs1, ?Hs2, ?Hk; try done.
  - apply Ho.
  - apply Ho.
  - intros p Hp. rewrite Hid in Hp. destruct (oo_fin _ _ Ho p Hp). congruence.
Qed.

Lemma runs_on_ok id f g :
  registry_ok g -> handling g id ->
  (forall r, g_objects g !! id = Some r -> q_ID r = id -> terminal (q_Status r) = false ->
    object_ok (g_finishing g !! id) r -> runs_on r (f r)) ->
  registry_ok (on_request id (fun r => store_publish (f r)) g).
Proof.
  intros Hok (r0 & Hr0 & Hrun) Hf. apply on_request_ok; [done|]. intros r Hr Hid. simplify_eq.
  apply publish_registry_ok. apply (runs_on_put r); try done.
  apply Hf; try done. by apply (go_objects _ Hok).
Qed.

(** ** Trails *)

Lemma trail_keep r r' :
  at_Seq <$> q_Attempts r' = at_Seq <$> q_Attempts r -> q_Round r' = q_Round r -> trail r -> trail r'.
Proof.
  intros Hs Hr. unfold trail. assert (length (q_Attempts r') = length (q_Attempts r)) as ->.
  { apply (f_equal length) in Hs. by rewrite !length_fmap in Hs. }
  by rewrite Hs, Hr.
Qed.

Lemma removelast_last {A} (l : list A) (a : A) : last l = Some a -> l = removelast l ++ [a].
Proof.
  intros Hl. destruct l as [|x l] using rev_ind; [done|]. rewrite last_snoc in Hl. simplify_eq.
  by rewrite removelast_last.
Qed.

Lemma trail_on_last r (f : AttemptRecord -> AttemptRecord) :
  (forall a, at_Seq (f a) = at_Seq a) -> trail r -> trail (on_last_attempt r f).
Proof.
  intros Hf. unfold on_last_attempt. destruct (last (q_Attempts r)) as [a|] eqn:Hl; [|done].
  destruct (at_Seq a =? q_Round r); [|done]. apply trail_keep; record.simp; [|done].
  rewrite (removelast_last _ _ Hl) at 2. rewrite !fmap_app. cbn. by rewrite Hf.
Qed.

Lemma seqZ_snoc m n : 0 <= n -> seqZ m (n + 1) = seqZ m n ++ [m + n].
Proof. intros Hn. rewrite seqZ_app by lia. done. Qed.

Lemma trail_start r r' (a : AttemptRecord) :
  trail r -> q_Round r' = q_Round r + 1 -> at_Seq a = q_Round r + 1 ->
  q_Attempts r' = (if maxAttempts <=? Z.of_nat (length (q_Attempts r))
                   then last_records (Z.to_nat (maxAttempts - 1)) (q_Attempts r)
                   else q_Attempts r) ++ [a] ->
  trail r'.
Proof.
  intros (Hseq & H0 & Hlen) Hround Ha Hatt. unfold trail. rewrite Hround, Hatt.
  rewrite fmap_app, length_app. cbn [length fmap list_fmap]. rewrite Ha.
  set (len := length (q_Attempts r)) in *.
  destruct (Z.leb_spec maxAttempts (Z.of_nat len)) as [Hfull|Hfree].
  - unfold last_records. fold len. rewrite length_drop. fold len. rewrite fmap_drop, Hseq.
    assert (Z.of_nat len = maxAttempts) as Hl by lia. unfold maxAttempts in *.
    replace (len - Z.to_nat (200 - 1))%nat with 1%nat by lia.
    rewrite Hl. rewrite (seqZ_cons (_ + 1) 200) by lia. cbn [drop].
    split; [|split; lia]. rewrite Nat2Z.inj_add, Nat2Z.inj_sub by lia. rewrite Hl.
    rewrite seqZ_snoc by lia. apply (f_equal2 app); [apply (f_equal2 seqZ); lia|]. apply (f_equal (fun x => [x])). lia.
  - fold len. rewrite Hseq. split; [|unfold maxAttempts in *; split; lia].
    rewrite Nat2Z.inj_add, seqZ_snoc by lia.
    apply (f_equal2 app); [apply (f_equal2 seqZ); lia|]. apply (f_equal (fun x => [x])). lia.
Qed.

(** ** The handler's operations *)

Lemma runs_on_refl r : terminal (q_Status r) = false -> trail r -> runs_on r r.
Proof. done. Qed.

Lemma new_registry_ok now model body ip key name g :
  registry_ok g -> registry_ok (newRequestState now model body ip key name g).2.
Proof.
  intros Hok. unfold newRequestState. cbn [snd]. apply publish_registry_ok.
  set (id := g_idSeq g + 1). set (r := mkRequest _ _ _ _ _ _ _ _ _ _ _ _ _ _ _ _ _ _ _ _ _ _ _ _ _ _ _ _ _ _ _ _ _ _).
  pose proof (go_seq _ Hok) as Hseq.
  assert (Hfresh : g_objects g !! id = None).
  { destruct (g_objects g !! id) as [r0|] eqn:Hr0; [|done].
    apply (go_ids _ Hok) in Hr0 as [_ ?]. lia. }
  assert (Hfin : g_finishing g !! id = None).
  { apply not_elem_of_dom. intros Hin. apply (go_finishing _ Hok) in Hin.
    by apply elem_of_dom in Hin as [? ?]; simplify_eq. }
  destruct Hok. unfold put_object. split; record.simp; try done; try lia.
  - intros id' r'. rewrite lookup_insert. case_decide.
    + intros [= <-]. subst. cbn. lia.
    + intros Hr'. destruct (go_ids0 _ _ Hr'). lia.
  - intros id' r'. rewrite lookup_insert. case_decide; [|by apply go_objects0].
    intros [= <-]. subst id'. change (q_ID r) with id. rewrite Hfin. split; try done. by exists key.
  - rewrite dom_insert. set_solver.
  - rewrite dom_insert. set_solver.
  - intros id' r' Hid. rewrite lookup_insert. case_decide; [by intros [= <-]|].
    apply go_queued0. change (q_ID r) with id in *. set_solver.
Qed.

Lemma mask_registry_ok id masked matches b g :
  registry_ok g -> handling g id -> registry_ok (applyMaskResult id masked matches b g).
Proof. intros Hok Hh. apply runs_on_ok; [done..|]. intros r _ _ Hrun Ho. split; try done. apply Ho. Qed.

Lemma start_registry_ok now id c t g : registry_ok g -> handling g id -> registry_ok (startRound now id c t g).
Proof.
  intros Hok Hh. apply runs_on_ok; [done..|]. intros r _ _ Hrun Ho. split; try done.
  eapply trail_start; [apply Ho|record.simp; reflexivity| |record.simp; reflexivity]. done.
Qed.

Lemma mode_registry_ok id mode g : registry_ok g -> handling g id -> registry_ok (setRelayMode id mode g).
Proof.
  intros Hok (r0 & Hr0 & Hrun). apply on_request_ok; [done|]. intros r Hr Hid. simplify_eq.
  case_bool_decide; [done|]. apply publish_registry_ok, (runs_on_put r); [done..|].
  split; try done. apply (go_objects _ Hok _ _ Hr).
Qed.

Lemma on_last_same {B} (p : RequestState Usage -> B) r f :
  (forall atts, p { r with q_Attempts := atts } = p r) -> p (on_last_attempt r f) = p r.
Proof. intros Hp. unfold on_last_attempt. by case_ifs. Qed.

Lemma on_last_runs_on r r1 f :
  runs_on r r1 -> (forall a, at_Seq (f a) = at_Seq a) -> runs_on r (on_last_attempt r1 f).
Proof.
  intros [] Hf. split; rewrite ?on_last_same by done; try done. by apply trail_on_last.
Qed.

Lemma close_record_seq now r o c e a : at_Seq (close_record now r o c e a) = at_Seq a.
Proof. unfold close_record. by case_ifs. Qed.

Lemma round_registry_ok now id o c e g : registry_ok g -> handling g id -> registry_ok (finishRound now id o c e g).
Proof.
  intros Hok Hh. apply runs_on_ok; [done..|]. intros r _ _ Hrun Ho. apply on_last_runs_on.
  - split; try done. apply Ho.
  - apply close_record_seq.
Qed.

Lemma commit_registry_ok now id g : registry_ok g -> handling g id -> registry_ok (markCommitted now id g).
Proof.
  intros Hok Hh. apply runs_on_ok; [done..|]. intros r _ _ Hrun Ho.
  assert (runs_on r { r with q_FirstTokenAt := Some now; q_Status := StatusCommitted })
    by (split; try done; apply Ho).
  case_match; [|done]. by apply on_last_runs_on.
Qed.

Lemma chars_registry_ok now id n g : registry_ok g -> handling g id -> registry_ok (noteOutputChars now id n g).
Proof.
  intros Hok (r0 & Hr0 & Hrun). unfold noteOutputChars. destruct (n <=? 0); [done|].
  apply on_request_ok; [done|]. intros r Hr Hid. simplify_eq.
  pose proof (go_objects _ Hok _ _ Hr) as Ho. cbv zeta.
  case_match; [apply publish_registry_ok|]; apply (runs_on_put r); try done; split; try done; apply Ho.
Qed.

(** ** Terminal states *)

Lemma terminal_registry_ok id status err class body u g :
  registry_ok g -> handling g id -> terminal status = true ->
  registry_ok (mark_terminal id status err class body u g).
Proof.
  intros Hok (r0 & Hr0 & Hrun) Hst. apply on_request_ok; [done|]. intros r Hr Hid. simplify_eq.
  pose proof (go_objects _ Hok _ _ Hr) as Ho. cbv zeta.
  set (r1 := { r with q_Status := _; q_Error := _; q_Class ::= _; q_responseBody := _; q_Sending := _;
                      q_cancel := None }).
  destruct Hok. unfold put_object. split; record.simp; try done.
  - intros id' r'. rewrite lookup_insert. case_decide; [|by apply go_ids0].
    intros [= <-]. subst. split; [done|]. by apply go_ids0 in Hr as [_ ?].
  - intros id' r'. rewrite !lookup_insert. change (q_ID r1) with (q_ID r).
    case_decide; [|by apply go_objects0]. intros [= <-]. subst.
    split; try done; [apply Ho|apply Ho|apply Ho|]. intros p [= <-]. split; [done|]. reflexivity.
  - intros id' Hid. rewrite dom_insert. apply go_requests0 in Hid. set_solver.
  - rewrite !dom_insert. change (q_ID r1) with (q_ID r). set_solver.
  - intros id' r' Hid. rewrite !lookup_insert. change (q_ID r1) with (q_ID r).
    case_decide; [by intros|]. by apply go_queued0.
Qed.

Lemma trim_finished_spec queue requests :
  let '(queue', requests') := trim_finished queue requests in
  Z.of_nat (length queue') <= maxFinished /\ requests' ⊆ requests /\
  forall id, id ∈ requests' -> id ∈ queue -> id ∈ queue'.
Proof.
  revert requests. induction queue as [|o queue IH]; intros requests; cbn [trim_finished].
  - destruct (Z.ltb_spec maxFinished (Z.of_nat (length ([] : list Z)))); [done|]. by split.
  - destruct (Z.ltb_spec maxFinished (Z.of_nat (length (o :: queue)))); [|by split; [lia|split]].
    specialize (IH (requests ∖ {[o]})). destruct (trim_finished queue _) as [queue' requests'].
    destruct IH as (Hlen & Hsub & Hin). split; [done|]. split; [set_solver|].
    intros id Hid [->|Hq]%elem_of_cons; [set_solver|by apply Hin].
Qed.

Lemma finish_registry_ok now id g : registry_ok g -> registry_ok (finish now id g).
Proof.
  intros Hok. unfold finish. destruct (g_finishing g !! id) as [p|] eqn:Hp; [|done].
  unfold on_request. record.simp. destruct (g_objects g !! id) as [r|] eqn:Hr.
  2:{ exfalso. apply elem_of_dom_2 in Hp. apply (go_finishing _ Hok) in Hp.
      apply elem_of_dom in Hp as [? ?]. simplify_eq. }
  destruct (go_ids _ Hok _ _ Hr) as [Hid Hrange]. pose proof (go_objects _ Hok _ _ Hr) as Ho.
  rewrite Hp in Ho. destruct (oo_fin _ _ Ho p eq_refl) as [Hterm Hst].
  destruct (sanitizeUsage (p_usage p) (p_body p)) as [usage estimated].
  set (r1 := { r with q_UsageEstimated := _; q_Usage ::= _; q_body := _; q_responseBody := _; q_Duration := _ }).
  set (g1 := put_object r1 { g with g_finishing ::= delete id }).
  set (g2 := if bool_decide _ then _ else _).
  assert (H2 : g_objects g2 = g_objects g1 /\ g_requests g2 = g_requests g /\
    g_finishedQueue g2 = g_finishedQueue g /\ g_finishing g2 = delete id (g_finishing g) /\
    g_watchers g2 = g_watchers g /\ g_panicked g2 = g_panicked g /\ g_idSeq g2 = g_idSeq g).
  { unfold g2. by case_bool_decide. }
  clearbody g2. destruct H2 as (Eo & Er & Eq & Ef & Ew & Ep & Es).
  unfold trimFinishedRequestsLocked, publishRequestLocked. record.simp.
  pose proof (trim_finished_spec (g_finishedQueue g2 ++ [q_ID r1]) (g_requests g2)) as Htrim.
  destruct (trim_finished _ _) as [queue' requests']. destruct Htrim as (Hlen & Hsub & Hin).
  rewrite Eq, Er in *. change (q_ID r1) with (q_ID r) in *. rewrite Hid in *.
  assert (Hobj : g_objects g1 = <[id := r1]> (g_objects g)) by (unfold g1, put_object; record.simp; by rewrite <- Hid).
  rewrite Hobj in Eo. destruct Hok. split; record.simp; rewrite ?Eo, ?Ef, ?Ew, ?Ep, ?Es; try done.
  - intros id' r'. rewrite lookup_insert. case_decide; [|by apply go_ids0]. intros [= <-]. by subst.
  - intros id' r'. rewrite lookup_insert, lookup_delete. case_decide; [|by apply go_objects0].
    intros [= <-]. split; try apply Ho; try done.
    intros _ _. split; apply truncate_length; by unfold maxBodyPreview.
  - rewrite dom_insert. set_solver.
  - rewrite dom_insert, dom_delete. set_solver.
  - intros id' r' Hid'. rewrite lookup_insert, lookup_delete. intros Hr' Ht Hf. apply Hin; [done|].
    case_decide; [subst; set_solver|]. apply elem_of_app. left. eapply go_queued0; eauto.
  - by apply publish_ok.
  - by apply publish_messages.
Qed.

(** ** Stopping and clearing *)

Lemma cancel_registry_ok c g : registry_ok g -> registry_ok (cancel_context c g).
Proof. intros []. destruct c; by split. Qed.

Lemma put_put a b g : q_ID a = q_ID b -> put_object a (put_object b g) = put_object a g.
Proof.
  intros Hab. unfold put_object. destruct g. cbn. unfold constant. f_equal.
  rewrite Hab. apply insert_insert_eq.
Qed.

Lemma put_cancel a c g : put_object a (cancel_context c g) = cancel_context c (put_object a g).
Proof. by destruct c, g. Qed.

Lemma stop_registry_ok id g : registry_ok g -> registry_ok (StopRequest id g).
Proof.
  intros Hok. unfold StopRequest, stop_flag. destruct (g_objects g !! id) as [r|] eqn:Hr; [|done].
  destruct (q_stopRequested r) eqn:Hs; [done|].
  destruct (go_ids _ Hok _ _ Hr) as [Hid _]. pose proof (go_objects _ Hok _ _ Hr) as Ho.
  set (r1 := { r with q_stopRequested := true }). set (r2 := { r1 with q_stopClosed := true }).
  assert (Hclose : close_stopCh id (cancel_context (q_cancel r) (put_object r1 g))
    = cancel_context (q_cancel r) (put_object r2 g)).
  { unfold close_stopCh, on_request.
    assert (g_objects (cancel_context (q_cancel r) (put_object r1 g)) !! id = Some r1) as ->.
    { rewrite <- Hid. by destruct (q_cancel r); apply lookup_insert_eq. }
    assert (q_stopClosed r1 = false) as -> by (by transitivity (q_stopRequested r); [apply Ho|]).
    rewrite put_cancel. by rewrite put_put. }
  rewrite Hclose. apply cancel_registry_ok, (put_object_ok _ r); [done| | |done];
    change (q_ID r2) with (q_ID r); rewrite Hid; [done|]. split; try apply Ho. done.
Qed.

Lemma stop_fold_ok ids g : registry_ok g -> registry_ok (foldl (fun g id => StopRequest id g) g ids).
Proof. revert g. induction ids as [|id ids IH]; intros g Hok; [done|]. cbn. by apply IH, stop_registry_ok. Qed.

Lemma set_allStopped_ok b g : registry_ok g -> registry_ok { g with g_allStopped := b }.
Proof. intros []. by split. Qed.

Lemma release_registry_ok id g : registry_ok g -> registry_ok (releaseRoundLifecycle id g).
Proof.
  intros Hok. apply on_request_ok; [done|]. intros r Hr Hid. apply cancel_registry_ok.
  pose proof (go_objects _ Hok _ _ Hr) as Ho. apply (put_object_ok _ r); [done|by rewrite <- Hid in Hr| |done].
  change (q_ID { r with q_cancel := None }) with (q_ID r). rewrite Hid.
  split; try apply Ho. intros Ht. split; [done|]. by apply (oo_cancel _ _ Ho).
Qed.

Lemma clear_registry_ok g : registry_ok g -> registry_ok (Clear g).
Proof.
  intros []. split; unfold Clear; record.simp; try done.
  - intros id Hid. apply go_requests0. apply elem_of_list_to_set, list_elem_of_filter in Hid as [_ Hid].
    by apply elem_of_elements.
  - intros id r Hid Hr Ht. exfalso. apply elem_of_list_to_set, list_elem_of_filter in Hid as [Hrun _].
    unfold is_running in Hrun. by rewrite Hr, Ht in Hrun.
Qed.

Lemma watchers_ok f g :
  registry_ok g -> (hub_ok streamBuffer (g_watchers g) -> hub_ok streamBuffer (f (g_watchers g))) ->
  (messages_ok (g_watchers g) -> messages_ok (f (g_watchers g))) ->
  registry_ok { g with g_watchers ::= f }.
Proof. intros [] Hh Hm. split; record.simp; auto. Qed.

Lemma messages_store ch c (h h' : Hub (RequestState Usage)) :
  messages_ok h -> Forall bodiless (ch_buf c) -> hub_chans h' = <[ch := c]> (hub_chans h) -> messages_ok h'.
Proof.
  intros Hm Hc Heq ch' c'. rewrite Heq, lookup_insert. case_decide; [by intros [= <-]|apply Hm].
Qed.

Lemma close_stream_messages ch h : messages_ok h -> messages_ok (close_stream ch h).
Proof.
  intros Hm. unfold close_stream. case_decide; [|done]. unfold chan_close, unregister. cbn.
  destruct (hub_chans h !! ch) as [c|] eqn:Hc; [|done]. destruct (ch_closed c); [done|].
  apply (messages_store ch (mkChan (ch_buf c) true) h); [done|exact (Hm _ _ Hc)|reflexivity].
Qed.

Lemma recv_messages ch h : messages_ok h -> messages_ok (recv ch h).2.
Proof.
  intros Hm. unfold recv. destruct (hub_chans h !! ch) as [[[|m buf] cl]|] eqn:Hc; [done| |done].
  apply (messages_store ch (mkChan buf cl) h); [done| |reflexivity].
  apply Hm in Hc. by apply Forall_cons in Hc as [_ ?].
Qed.

(** ** Every step preserves the invariant *)

Lemma request_step_ok g g' : request_step g g' -> registry_ok g -> registry_ok g'.
Proof.
  destruct 1; intros Hok.
  - by apply new_registry_ok.
  - by apply mask_registry_ok.
  - by apply start_registry_ok.
  - by apply mode_registry_ok.
  - by apply round_registry_ok.
  - by apply commit_registry_ok.
  - by apply chars_registry_ok.
  - by apply terminal_registry_ok.
  - by apply terminal_registry_ok.
  - by apply terminal_registry_ok.
  - destruct ev; [done|..]; by apply terminal_registry_ok.
  - unfold abandonUnfinishedRequest. destruct e; [|done]. apply on_request_ok; [done|].
    intros r Hr _. destruct (terminal (q_Status r)) eqn:Ht; [done|].
    apply terminal_registry_ok; [done| |done]. by exists r.
  - by apply finish_registry_ok.
  - by apply release_registry_ok.
  - unfold StopRequestByID. case_decide; [by apply stop_registry_ok|done].
  - unfold StopAllRequests, stopAllRunningRequests. cbn [snd]. by apply stop_fold_ok, set_allStopped_ok.
  - by apply set_allStopped_ok.
  - unfold Interrupt. case_ifs; try done. by apply cancel_registry_ok.
  - by apply clear_registry_ok.
  - apply watchers_ok; [done|by apply open_stream_ok|].
    intros Hm. by apply (messages_store ch (mkChan [] false) (g_watchers g)).
  - apply watchers_ok; [done|apply close_stream_ok|apply close_stream_messages].
  - apply (watchers_ok (fun h => (recv ch h).2)); [done|apply recv_ok|apply recv_messages].
Qed.

Lemma registry_init_ok : registry_ok registry_init.
Proof.
  split; try done; try apply hub_empty_ok; try (by intros ? ? Hr; rewrite lookup_empty in Hr).
Qed.

Lemma request_reachable_ok g : request_reachable g -> registry_ok g.
Proof.
  intros Hr. unfold request_reachable in Hr.
  enough (forall g0 g1, rtc request_step g0 g1 -> registry_ok g0 -> registry_ok g1) as H.
  { by apply (H registry_init); [|apply registry_init_ok]. }
  induction 1; [done|]. intros. by apply IHrtc, (request_step_ok x).
Qed.
End inv.
