(* ===== verification/RequestThms.v ===== *)
(** * Theorems on the request registry

    Memory bounds and freedom from panics in every interleaving, the life cycle
    of a request, the trail of its rounds, and the failure ring against a list. *)

From S2P Require Import Prelude GoStrings Utf8 Hub Errors Usage Requests RequestInv.

Section thms.
Context {Usage : Type} `{ops : !UsageOps Usage} `{ord : !MapOrder Z} `{ords : !MapOrder string}.
Implicit Types (g : Registry Usage) (r : RequestState Usage).

(** ** Bounds *)

(** A registered request that still runs or whose [finish] is under way. *)
Definition unfinished g (id : Z) : Prop :=
  is_running g id = true \/ is_Some (g_finishing g !! id).
#[local] Instance unfinished_dec g id : Decision (unfinished g id).
Proof. unfold unfinished. apply _. Defined.

Lemma size_union_le (X Y : gset Z) : (size (X ∪ Y) <= size X + size Y)%nat.
Proof. rewrite size_union_alt. pose proof (subseteq_size (Y ∖ X) Y ltac:(set_solver)). lia. Qed.

Lemma size_list_to_set_le (l : list Z) : (size (list_to_set l : gset Z) <= length l)%nat.
Proof.
  induction l as [|x l IH]; [done|]. cbn [list_to_set length].
  pose proof (size_union_le {[x]} (list_to_set l)). rewrite size_singleton in *. lia.
Qed.

(** C20: in every interleaving of requests, administration and status streams, no
    channel is closed twice, every open stream stays within its buffer, no
    snapshot sent to a stream contains a body, a finished request keeps at most
    64 KiB of each body, and beyond the requests still under way at most two
    hundred are kept. *)
Theorem registry_safe g :
  request_reachable g ->
  g_panicked g = false /\ hub_ok streamBuffer (g_watchers g) /\ messages_ok (g_watchers g) /\
  (forall id r, g_objects g !! id = Some r -> terminal (q_Status r) = true ->
    g_finishing g !! id = None ->
    slen (q_body r) <= maxBodyPreview /\ slen (q_responseBody r) <= maxBodyPreview) /\
  Z.of_nat (size (g_requests g))
    <= maxFinished + Z.of_nat (size (filter (unfinished g) (g_requests g))).
Proof.
  intros Hok%request_reachable_ok. repeat split; try apply Hok.
  1,2: by apply (oo_bodies _ _ (go_objects _ Hok _ _ H)).
  assert (Hsub : g_requests g ⊆ list_to_set (g_finishedQueue g) ∪ filter (unfinished g) (g_requests g)).
  { intros id Hid. apply elem_of_union. destruct (decide (unfinished g id)) as [Hu|Hu].
    { right. by apply elem_of_filter. }
    left. apply elem_of_list_to_set. pose proof (go_requests _ Hok _ Hid) as [r Hr]%elem_of_dom.
    apply (go_queued _ Hok id r); [done..| |].
    - destruct (terminal (q_Status r)) eqn:Ht; [done|]. exfalso. apply Hu. left.
      unfold is_running. by rewrite Hr, Ht.
    - apply eq_None_not_Some. intros Hf. apply Hu. by right. }
  apply subseteq_size in Hsub. pose proof (size_union_le (list_to_set (g_finishedQueue g))
    (filter (unfinished g) (g_requests g))).
  pose proof (size_list_to_set_le (g_finishedQueue g)). pose proof (go_queue _ Hok). lia.
Qed.

(** ** Life cycle *)

Definition phase (s : Status) : Z :=
  match s with StatusRunning => 0 | StatusCommitted => 1 | _ => 2 end.

(** What may become of a request in one step. *)
Definition moves r r' : Prop :=
  q_ID r' = q_ID r /\ phase (q_Status r) <= phase (q_Status r') /\
  (terminal (q_Status r) = true ->
    q_Status r' = q_Status r /\ q_Error r' = q_Error r /\ q_Class r' = q_Class r /\
    q_Attempts r' = q_Attempts r).

Lemma moves_refl r : moves r r.
Proof. by split; [|split]. Qed.

Lemma moves_running r r' :
  q_ID r' = q_ID r -> terminal (q_Status r) = false -> phase (q_Status r) <= phase (q_Status r') ->
  moves r r'.
Proof. intros Hid Hrun Hp. split; [done|]. split; [done|]. by rewrite Hrun. Qed.

(** All objects move along. *)
Definition all_move g g' : Prop :=
  forall id r, g_objects g !! id = Some r -> exists r', g_objects g' !! id = Some r' /\ moves r r'.

Lemma all_move_same g g' : g_objects g' = g_objects g -> all_move g g'.
Proof. intros Heq id r Hr. rewrite Heq. exists r. split; [done|apply moves_refl]. Qed.

Lemma all_move_trans g1 g2 g3 : all_move g1 g2 -> all_move g2 g3 -> all_move g1 g3.
Proof.
  intros H1 H2 id r Hr. destruct (H1 _ _ Hr) as (r' & Hr' & Hid & Hp & Ht).
  destruct (H2 _ _ Hr') as (r'' & Hr'' & Hid' & Hp' & Ht'). exists r''. split; [done|].
  split; [congruence|]. split; [lia|]. intros Hterm. destruct (Ht Hterm) as (Hs & He & Hc & Ha).
  rewrite <- Hs in Hterm. destruct (Ht' Hterm) as (Hs' & He' & Hc' & Ha'). repeat split; congruence.
Qed.

Lemma all_move_put r0 r1 g :
  g_objects g !! q_ID r0 = Some r0 -> moves r0 r1 -> all_move g (put_object r1 g).
Proof.
  intros Hr0 Hm id r Hr. unfold put_object. record.simp. destruct (Hm) as [Hid _]. rewrite Hid.
  rewrite lookup_insert. case_decide; subst; [|exists r; split; [done|apply moves_refl]].
  exists r1. split; [done|]. by simplify_eq.
Qed.

Lemma all_move_on id f g :
  registry_ok g -> (forall r, g_objects g !! q_ID r = Some r -> q_ID r = id -> all_move g (f r g)) ->
  all_move g (on_request id f g).
Proof.
  intros Hok Hf. unfold on_request. destruct (g_objects g !! id) as [r|] eqn:Hr; [|by apply all_move_same].
  destruct (go_ids _ Hok _ _ Hr) as [Hid _]. apply Hf; [by rewrite Hid|done].
Qed.

Lemma all_move_store r0 r1 g :
  g_objects g !! q_ID r0 = Some r0 -> moves r0 r1 -> all_move g (store_publish r1 g).
Proof.
  intros Hr0 Hm. eapply all_move_trans; [by apply (all_move_put r0 r1)|]. by apply all_move_same.
Qed.

Lemma all_move_handler id f g :
  registry_ok g -> handling g id ->
  (forall r, terminal (q_Status r) = false ->
     q_ID (f r) = q_ID r /\ phase (q_Status r) <= phase (q_Status (f r))) ->
  all_move g (on_request id (fun r => store_publish (f r)) g).
Proof.
  intros Hok (r0 & Hr0 & Hrun) Hf. apply all_move_on; [done|]. intros r Hr Hid. subst. simplify_eq.
  destruct (Hf r0 Hrun). apply (all_move_store r0); [done|]. by apply moves_running.
Qed.

Lemma all_move_terminal id s e c b u g :
  registry_ok g -> handling g id -> terminal s = true -> all_move g (mark_terminal id s e c b u g).
Proof.
  intros Hok (r0 & Hr0 & Hrun) Hs. apply all_move_on; [done|]. intros r Hr Hid. subst. simplify_eq.
  cbv zeta. set (r1 := { r0 with q_Status := _; q_Error := _; q_Class ::= _; q_responseBody := _;
    q_Sending := _; q_cancel := None }).
  apply (all_move_trans _ (put_object r1 g)); [|by apply all_move_same].
  apply (all_move_put r0); [done|]. apply moves_running; [done..|].
  change (q_Status r1) with s. destruct s, (q_Status r0); cbn; done || lia.
Qed.

Lemma all_move_cancel c g : all_move g (cancel_context c g).
Proof. apply all_move_same. by destruct c. Qed.

Lemma all_move_quiet id f g :
  registry_ok g -> (forall r, q_ID (f r) = q_ID r /\ q_Status (f r) = q_Status r /\ q_Error (f r) = q_Error r /\
    q_Class (f r) = q_Class r /\ q_Attempts (f r) = q_Attempts r) ->
  forall r, g_objects g !! id = Some r -> all_move g (put_object (f r) g).
Proof.
  intros Hok Hf r Hr. destruct (go_ids _ Hok _ _ Hr) as [Hid _]. destruct (Hf r) as (H1 & H2 & H3 & H4 & H5).
  apply (all_move_put r); [by rewrite Hid|]. split; [done|]. rewrite H2. split; [done|]. done.
Qed.

Lemma all_move_stop id g : registry_ok g -> all_move g (StopRequest id g).
Proof.
  intros Hok. unfold StopRequest, stop_flag. destruct (g_objects g !! id) as [r|] eqn:Hr; [|by apply all_move_same].
  destruct (q_stopRequested r); [by apply all_move_same|].
  destruct (go_ids _ Hok _ _ Hr) as [Hid _].
  eapply all_move_trans; [by apply (all_move_quiet id (fun r => { r with q_stopRequested := true }) g Hok (fun _ => ltac:(done)) r Hr)|].
  eapply all_move_trans; [apply (all_move_cancel (q_cancel r))|].
  unfold close_stopCh, on_request. set (g1 := cancel_context _ _).
  destruct (g_objects g1 !! id) as [r1|] eqn:Hr1; [|by apply all_move_same].
  destruct (q_stopClosed r1); [by apply all_move_same|].
  assert (r1 = { r with q_stopRequested := true }) as ->.
  { enough (g_objects g1 !! id = Some { r with q_stopRequested := true }) by congruence.
    unfold g1. rewrite <- Hid. destruct (q_cancel r); apply lookup_insert_eq. }
  apply (all_move_put { r with q_stopRequested := true }); [|by split; [|split]].
  change (q_ID { r with q_stopRequested := true }) with (q_ID r). by rewrite Hid.
Qed.

Lemma all_move_stop_fold ids g :
  registry_ok g -> all_move g (foldl (fun g id => StopRequest id g) g ids).
Proof.
  revert g. induction ids as [|id ids IH]; intros g Hok; [by apply all_move_same|]. cbn.
  eapply all_move_trans; [by apply all_move_stop|]. by apply IH, stop_registry_ok.
Qed.

Lemma on_last_moves r0 r1 f : moves r0 r1 -> terminal (q_Status r0) = false -> moves r0 (on_last_attempt r1 f).
Proof.
  intros (Hid & Hp & _) Hrun. apply moves_running; rewrite ?(on_last_same q_ID), ?(on_last_same q_Status); done.
Qed.

Lemma all_move_finish now id g : registry_ok g -> all_move g (finish now id g).
Proof.
  intros Hok. unfold finish. destruct (g_finishing g !! id) as [p|] eqn:Hp; [|by apply all_move_same].
  unfold on_request. record.simp. destruct (g_objects g !! id) as [r|] eqn:Hr; [|by apply all_move_same].
  destruct (sanitizeUsage (p_usage p) (p_body p)) as [usage estimated].
  set (r1 := { r with q_UsageEstimated := _; q_Usage ::= _; q_body := _; q_responseBody := _; q_Duration := _ }).
  apply (all_move_trans _ (put_object r1 g)).
  - destruct (go_ids _ Hok _ _ Hr) as [Hid _]. apply (all_move_put r); [by rewrite Hid|]. by split; [|split].
  - apply all_move_same. unfold trimFinishedRequestsLocked.
    destruct (trim_finished _ _) as [q' rs']. record.simp. by case_bool_decide.
Qed.

Lemma request_step_moves g g' : registry_ok g -> request_step g g' -> all_move g g'.
Proof.
  intros Hok. destruct 1.
  - intros id r Hr. exists r. split; [|apply moves_refl]. cbn [newRequestState snd].
    unfold publishRequestLocked, put_object. record.simp. rewrite lookup_insert_ne; [done|].
    destruct (go_ids _ Hok _ _ Hr). cbn. lia.
  - by apply all_move_handler.
  - by apply all_move_handler.
  - destruct H as (r0 & Hr0 & Hrun). apply all_move_on; [done|]. intros r Hr Hid. subst. simplify_eq.
    case_bool_decide; [by apply all_move_same|]. apply (all_move_store r0); [done|]. by apply moves_running.
  - apply all_move_handler; [done..|]. intros r Hrun. unfold closeAttemptLocked.
    by rewrite (on_last_same q_ID), (on_last_same q_Status).
  - apply all_move_handler; [done..|]. intros r Hrun.
    assert (phase (q_Status r) <= 1) by (by destruct (q_Status r)).
    case_match; rewrite ?(on_last_same q_ID), ?(on_last_same q_Status) by done; by split.
  - destruct H as (r0 & Hr0 & Hrun). unfold noteOutputChars. destruct (n <=? 0); [by apply all_move_same|].
    apply all_move_on; [done|]. intros r Hr Hid. subst. simplify_eq. cbv zeta.
    case_match; [apply (all_move_store r0)|apply (all_move_put r0)]; done || by apply moves_running.
  - by apply all_move_terminal.
  - by apply all_move_terminal.
  - by apply all_move_terminal.
  - destruct ev; [by apply all_move_same|..]; by apply all_move_terminal.
  - unfold abandonUnfinishedRequest. destruct e; [|by apply all_move_same]. apply all_move_on; [done|].
    intros r Hr Hid. destruct (terminal (q_Status r)) eqn:Ht; [by apply all_move_same|].
    apply all_move_terminal; [done| |done]. exists r. by rewrite <- Hid.
  - by apply all_move_finish.
  - apply all_move_on; [done|]. intros r Hr Hid.
    eapply all_move_trans; [|apply all_move_cancel]. by apply (all_move_put r); [|split; [|split]].
  - unfold StopRequestByID. case_decide; [by apply all_move_stop|by apply all_move_same].
  - unfold StopAllRequests, stopAllRunningRequests. cbn [snd].
    apply (all_move_trans _ { g with g_allStopped := true }); [by apply all_move_same|].
    by apply all_move_stop_fold, set_allStopped_ok.
  - by apply all_move_same.
  - unfold Interrupt. case_ifs; cbn [snd]; try (by apply all_move_same).
  - by apply all_move_same.
  - by apply all_move_same.
  - by apply all_move_same.
  - by apply all_move_same.
Qed.

(** C21: the life cycle.  From any reachable state, whatever happens next, a
    request only moves forward from running over committed to one terminal
    state, and its terminal status, error, class and trail are final: neither a
    late stop, an abandoned handler nor a clear can change them. *)
Theorem terminal_is_final g g' id r :
  request_reachable g -> rtc request_step g g' -> g_objects g !! id = Some r ->
  exists r', g_objects g' !! id = Some r' /\ moves r r'.
Proof.
  intros Hok%request_reachable_ok Hsteps. enough (all_move g g') as H by apply H.
  induction Hsteps as [g|g g1 g' Hstep _ IH]; [by apply all_move_same|].
  eapply all_move_trans; [by apply request_step_moves|]. by apply IH, (request_step_ok g).
Qed.

(** ** The trail of rounds *)

Lemma close_record_fields now r o c e a :
  let a' := close_record now r o c e a in
  at_MemberID a' = at_MemberID a /\ at_ChannelID a' = at_ChannelID a /\ at_Outcome a' = o /\
  (c ≠ ErrClassNone -> at_ErrClass a' = c).
Proof.
  unfold close_record. cbv zeta. destruct (bool_decide (c = ErrClassNone)) eqn:Hc; cbn [negb];
    [apply bool_decide_eq_true in Hc|]; by case_ifs.
Qed.

(** A request records its last two hundred rounds, consecutively and up to
    the current one; finishing the round that has just started closes exactly
    its record, with its member, outcome and class. *)
Theorem trail_of_rounds g id r :
  request_reachable g -> g_objects g !! id = Some r ->
  at_Seq <$> q_Attempts r
    = seqZ (q_Round r - Z.min (q_Round r) maxAttempts + 1) (Z.min (q_Round r) maxAttempts) /\
  forall now now' cancel t o c e, exists r' a,
    g_objects (finishRound now' id o c e (startRound now id cancel t g)) !! id = Some r' /\
    q_Round r' = q_Round r + 1 /\ last (q_Attempts r') = Some a /\
    at_Seq a = q_Round r' /\ at_MemberID a = rt_MemberID t /\ at_ChannelID a = rt_ChannelID t /\
    at_Outcome a = o /\ (c ≠ ErrClassNone -> at_ErrClass a = c) /\ q_Error r' = e /\ q_Sending r' = false.
Proof.
  intros Hok%request_reachable_ok Hr. split.
  { destruct (oo_trail _ _ (go_objects _ Hok _ _ Hr)) as (Hs & _ & Hl). by rewrite Hs, Hl. }
  destruct (go_ids _ Hok _ _ Hr) as [Hid _]. intros now now' cancel t o c e.
  unfold startRound, on_request. rewrite Hr. cbv zeta.
  set (r1 := { r with q_Round := _; q_TargetChannel := _; q_TargetModel := _; q_KeyLabel := _;
    q_ThinkingLevel := _; q_ClientFormat := _; q_UpstreamType := _; q_ProxyAddr := _; q_RelayMode := _;
    q_Sending := _; q_Error := _; q_cancel := _; q_roundStartedAt := _; q_Attempts := _ }).
  assert (Hr1 : g_objects (store_publish r1 g) !! id = Some r1).
  { rewrite <- Hid. apply (lookup_insert_eq (g_objects g) (q_ID r1) r1). }
  unfold finishRound, on_request. rewrite Hr1. set (r2 := { r1 with q_Sending := false; q_Error := e }).
  assert (Hlast : exists a0, last (q_Attempts r2) = Some a0 /\ at_Seq a0 = q_Round r2 /\
    at_MemberID a0 = rt_MemberID t /\ at_ChannelID a0 = rt_ChannelID t).
  { eexists. split; [apply last_snoc|]. done. }
  destruct Hlast as (a0 & Hl & Hseq & <- & <-).
  exists (closeAttemptLocked now' o c e r2), (close_record now' r2 o c e a0).
  unfold closeAttemptLocked. rewrite (on_last_same q_Round), (on_last_same q_Error), (on_last_same q_Sending) by done.
  unfold on_last_attempt. rewrite Hl, Hseq, Z.eqb_refl.
  split; [rewrite <- Hid; apply (lookup_insert_eq _ (q_ID r1))|]. split; [done|].
  split; [apply last_snoc|]. destruct (close_record_fields now' r2 o c e a0) as (<- & <- & ? & ?).
  rewrite <- Hseq, (close_record_seq now' r2). by repeat split.
Qed.

(** ** The failure ring *)

(** The ring holds the newest records of the whole history [log], newest first. *)
Record ring_holds (log : list FailureSummary) g : Prop := {
  rh_size : length (g_failureRing g) = 200%nat;
  rh_next : 0 <= g_failureNext g < 200;
  rh_count : g_failureCount g = Z.min 200 (Z.of_nat (length log));
  rh_at : forall i s, Z.of_nat i < 200 -> log !! i = Some s ->
    g_failureRing g !! Z.to_nat ((g_failureNext g - 1 - Z.of_nat i) mod 200) = Some (Some s);
}.

Lemma ring_append log s g : ring_holds log g -> ring_holds (s :: log) (appendFailureLocked s g).
Proof.
  intros [Hsize Hnext Hcount Hat]. unfold appendFailureLocked, maxFailureRecords.
  split; record.simp.
  - by rewrite length_insert.
  - apply Z.mod_pos_bound. lia.
  - rewrite Hcount. cbn [length]. destruct (Z.ltb_spec (Z.min 200 (Z.of_nat (length log))) 200); lia.
  - intros i s' Hi Hs'. destruct i as [|i].
    + cbn in Hs'. simplify_eq. change (Z.of_nat 0) with 0. replace (((g_failureNext g + 1) mod 200 - 1 - 0) mod 200) with (g_failureNext g).
      * apply list_lookup_insert_eq. lia.
      * rewrite Z.sub_0_r, Zminus_mod_idemp_l. rewrite Z.mod_small; lia.
    + cbn in Hs'. replace (((g_failureNext g + 1) mod 200 - 1 - Z.of_nat (S i)) mod 200)
        with ((g_failureNext g - 1 - Z.of_nat i) mod 200).
      2:{ rewrite <- (Z.sub_add_distr (_ mod _)). rewrite (Zminus_mod_idemp_l (g_failureNext g + 1)). f_equal. lia. }
      rewrite list_lookup_insert_ne; [apply Hat; [lia|done]|]. intros Heq.
      apply Z2Nat.inj in Heq; [|lia|apply Z.mod_pos_bound; lia].
      assert ((g_failureNext g - (g_failureNext g - 1 - Z.of_nat i)) mod 200 = 0) as Hz.
      { by rewrite Zminus_mod, <- Heq, (Z.mod_small (g_failureNext g)), Z.sub_diag by lia. }
      rewrite Z.mod_small in Hz; lia.
Qed.

Definition of_class (class : ErrClass) (s : FailureSummary) : bool :=
  bool_decide (class = ErrClassNone) || bool_decide (fs_ErrClass s = class).

Lemma collect_spec log g n i limit class taken :
  ring_holds log g -> (i + n <= length log)%nat -> (i + n <= 200)%nat -> 0 <= taken ->
  collect_failures n (Z.of_nat i) limit class taken g
    = take (Z.to_nat (limit - taken)) (filter (fun s => of_class class s = true) (take n (drop i log))).
Proof.
  intros Hring. revert i taken. induction n as [|n IH]; intros i taken Hlen Hmax Htaken.
  { by rewrite take_0, filter_nil, take_nil. }
  cbn [collect_failures].
  destruct (lookup_lt_is_Some_2 log i ltac:(lia)) as [s Hs]. rewrite (drop_S _ _ _ Hs). cbn [take].
  destruct (Z.leb_spec limit taken) as [Hl|Hl].
  { by replace (Z.to_nat (limit - taken)) with 0%nat by lia. }
  rewrite Z.rem_mod_nonneg by (unfold maxFailureRecords; pose proof (rh_next _ _ Hring); lia).
  replace ((g_failureNext g - 1 - Z.of_nat i + maxFailureRecords) mod maxFailureRecords)
    with ((g_failureNext g - 1 - Z.of_nat i) mod 200).
  2:{ unfold maxFailureRecords. rewrite <- (Z.mod_add _ 1) by lia. by f_equal. }
  rewrite (rh_at _ _ Hring i s) by (done || lia). cbn [mjoin option_join].
  replace (Z.of_nat i + 1) with (Z.of_nat (S i)) by lia. rewrite filter_cons.
  replace (negb _ && negb _) with (negb (of_class class s)) by (unfold of_class; by rewrite negb_orb).
  case_decide as Hoc; [rewrite Hoc|rewrite (not_true_is_false _ Hoc)]; cbn [negb]; rewrite IH by lia; [|done].
  by replace (Z.to_nat (limit - taken)) with (S (Z.to_nat (limit - (taken + 1)))) by lia.
Qed.

Lemma append_all_holds log ss g :
  ring_holds log g -> ring_holds (reverse ss ++ log) (foldl (flip appendFailureLocked) g ss).
Proof.
  revert log g. induction ss as [|s ss IH]; intros log g Hring; [done|]. cbn [foldl flip].
  rewrite reverse_cons, <- app_assoc. by apply IH, ring_append.
Qed.

(** The failure ring is the list of the last two hundred failures: after any
    number of records, a query returns the newest ones first, of the wanted
    class, up to the limit; a clear empties it. *)
Theorem failure_ring_spec g ss limit class :
  length (g_failureRing g) = 200%nat ->
  FailureSummaries limit class (foldl (flip appendFailureLocked) (Clear g) ss)
    = take (Z.to_nat (if (limit <=? 0) || (200 <? limit) then 200 else limit))
        (filter (fun s => of_class class s = true) (take 200 (reverse ss))).
Proof.
  intros Hsize. assert (Hring : ring_holds [] (Clear g)).
  { unfold Clear. split; record.simp; [done|lia|done|]. intros i s _ Hs. done. }
  apply (append_all_holds [] ss) in Hring. rewrite app_nil_r in Hring.
  set (g' := foldl _ _ _) in *. unfold FailureSummaries, maxFailureRecords.
  pose proof (rh_count _ _ Hring) as Hc. 
  etransitivity; [apply (collect_spec (reverse ss) g' _ 0); done || lia|].
  rewrite drop_0, Z.sub_0_r. f_equal. f_equal. rewrite Hc. destruct (Z.le_gt_cases 200 (Z.of_nat (length (reverse ss)))).
  - f_equal. lia.
  - rewrite !take_ge by lia. done.
Qed.
End thms.

(** ** Witnesses *)

(** Usage as a pair of prompt and completion tokens; no message is found. *)
#[local] Instance demo_usage : UsageOps (Z * Z) := {
  zero_usage := (0, 0); PromptTokens := fst; CompletionTokens := snd;
  PromptTokensDetails _ := None; set_tokens p _ u := (p, snd u); body_messages _ := [];
}.

Definition demo_target : RoundTarget := mkTarget 7 3 "c" "m" "" "" "chat" "openai" true "".
Definition demo_requests1 : Registry (Z * Z) :=
  (newRequestState 5 "m" "body" "10.0.0.1" "sk-abcdef" "k" registry_init).2.
Definition demo_requests2 : Registry (Z * Z) := startRound 6 1 100 demo_target demo_requests1.
Definition demo_requests3 : Registry (Z * Z) :=
  finish 9 1 (markFailed 1 (mkErr "upstream responded 502" PlainError []) "" None demo_requests2).

Lemma demo_requests1_reachable : request_reachable demo_requests1.
Proof. eapply rtc_l; [exact (rq_new registry_init 5 "m" "body" "10.0.0.1" "sk-abcdef" "k")|reflexivity]. Qed.

Lemma demo_running (g : Registry (Z * Z)) : is_running g 1 = true -> handling g 1.
Proof.
  unfold is_running, handling. destruct (g_objects g !! 1) as [r|]; [|done].
  intros Hr. exists r. split; [done|]. by apply negb_true_iff.
Qed.

Lemma demo_requests3_steps : rtc request_step demo_requests1 demo_requests3.
Proof.
  eapply rtc_l; [apply (rq_start _ 6 1 100 demo_target), demo_running; by vm_compute|].
  eapply rtc_l; [apply (rq_fail _ 1 (mkErr "upstream responded 502" PlainError []) "" None), demo_running;
    by vm_compute|].
  eapply rtc_l; [apply (rq_finish _ 9 1)|]. reflexivity.
Qed.

Lemma registry_safe_witness :
  request_reachable demo_requests3 /\ g_panicked demo_requests3 = false.
Proof.
  assert (H : request_reachable demo_requests3)
    by (unfold request_reachable; transitivity demo_requests1; [exact demo_requests1_reachable|exact demo_requests3_steps]).
  split; [exact H|]. exact (proj1 (registry_safe demo_requests3 H)).
Defined.

Lemma terminal_is_final_witness :
  exists r', g_objects demo_requests3 !! 1 = Some r' /\ 0 <= phase (q_Status r').
Proof.
  assert (Hr : exists r, g_objects demo_requests1 !! 1 = Some r /\ phase (q_Status r) = 0)
    by (eexists; split; [vm_compute; reflexivity|reflexivity]).
  destruct Hr as (r & Hr & Hp).
  destruct (terminal_is_final demo_requests1 demo_requests3 1 r demo_requests1_reachable
              demo_requests3_steps Hr) as (r' & Hr' & _ & Hle & _).
  exists r'. rewrite Hp in Hle. split; [exact Hr'|exact Hle].
Defined.

Lemma trail_of_rounds_witness : exists r, g_objects demo_requests1 !! 1 = Some r /\ at_Seq <$> q_Attempts r = [].
Proof.
  assert (Hr : exists r, g_objects demo_requests1 !! 1 = Some r /\ q_Round r = 0)
    by (eexists; split; [vm_compute; reflexivity|reflexivity]).
  destruct Hr as (r & Hr & H0). exists r. split; [exact Hr|].
  rewrite (proj1 (trail_of_rounds demo_requests1 1 r demo_requests1_reachable Hr)), H0. reflexivity.
Defined.

Definition demo_failure (id : Z) : FailureSummary := mkFailure id 0 "m" "c" "m" ErrClassUpstream5xx "x".
Lemma failure_ring_spec_witness :
  fs_ID <$> FailureSummaries 2 ErrClassUpstream5xx
    (foldl (flip appendFailureLocked) (Clear (registry_init (Usage := Z * Z)))
       [demo_failure 1; demo_failure 2; demo_failure 3]) = [3; 2].
Proof. rewrite failure_ring_spec; reflexivity. Defined.

(** ** The operations of one handler

    A handler owns its request: each operation it calls is a step of the registry
    that keeps the request running, until it marks the request terminal and
    finishes it. *)

Section run.
Context {Usage : Type} `{ops : !UsageOps Usage} `{ord : !MapOrder Z} `{ords : !MapOrder string}.
Implicit Types (g : Registry Usage) (r : RequestState Usage).

(** [op] is a step of the handler of [id] after which the request still runs. *)
Definition handler_op (id : Z) (op : Registry Usage -> Registry Usage) : Prop :=
  forall g, registry_ok g -> handling g id -> request_step g (op g) /\ handling (op g) id.

Lemma handling_on id f g :
  registry_ok g -> handling g id ->
  (forall r, q_ID r = id -> terminal (q_Status r) = false -> g_objects g !! id = Some r ->
     exists r', g_objects (f r g) !! id = Some r' /\ terminal (q_Status r') = false) ->
  handling (on_request id f g) id.
Proof.
  intros Hok (r & Hr & Ht) Hf. unfold on_request. rewrite Hr. apply Hf; try done. by apply (go_ids _ Hok).
Qed.

Lemma stored r g : g_objects (store_publish r g) !! q_ID r = Some r.
Proof. unfold store_publish, publishRequestLocked, put_object. record.simp. by rewrite lookup_insert_eq. Qed.

Lemma stored_at id r g : q_ID r = id -> g_objects (store_publish r g) !! id = Some r.
Proof. intros <-. apply stored. Qed.
Lemma put_at id r g : q_ID r = id -> g_objects (put_object r g) !! id = Some r.
Proof. intros <-. unfold put_object. record.simp. by rewrite lookup_insert_eq. Qed.

Lemma handling_store id (f : RequestState Usage -> RequestState Usage) g :
  registry_ok g -> handling g id ->
  (forall r, q_ID (f r) = q_ID r) -> (forall r, terminal (q_Status r) = false -> terminal (q_Status (f r)) = false) ->
  handling (on_request id (fun r => store_publish (f r)) g) id.
Proof.
  intros Hok Hh Hid Hst. apply handling_on; [done..|]. intros r Hr Ht _. exists (f r). split; [|by apply Hst].
  rewrite <- Hr at 1. rewrite <- (Hid r). apply stored.
Qed.

Lemma last_attempt_keeps {B} (p : RequestState Usage -> B) r f :
  (forall l, p ({ r with q_Attempts := l }) = p r) -> p (on_last_attempt r f) = p r.
Proof. intros Hp. unfold on_last_attempt. destruct (last _); [|done]. case_ifs; [apply Hp|done]. Qed.

Lemma mask_op id masked matches b : handler_op id (applyMaskResult id masked matches b).
Proof. intros g Hok Hh. split; [by apply rq_mask|]. unfold applyMaskResult, startRound. apply handling_store; [done|done| |]; by intros []. Qed.
Lemma start_op now id cancel t : handler_op id (startRound now id cancel t).
Proof. intros g Hok Hh. split; [by apply rq_start|]. unfold applyMaskResult, startRound. apply handling_store; [done|done| |]; by intros []. Qed.
Lemma round_op now id o c e : handler_op id (finishRound now id o c e).
Proof.
  intros g Hok Hh. split; [by apply rq_round|]. apply handling_store; [done..| |]; intros r; unfold closeAttemptLocked.
  - by rewrite (last_attempt_keeps q_ID).
  - intros Ht. by rewrite (last_attempt_keeps q_Status).
Qed.
Lemma commit_op now id : handler_op id (markCommitted now id).
Proof.
  intros g Hok Hh. split; [by apply rq_commit|]. apply (handling_store id (fun r => _)); [done..| |]; intros r.
  - record.simp. destruct (q_roundStartedAt r); [|done]. by rewrite (last_attempt_keeps q_ID).
  - intros Ht. record.simp. destruct (q_roundStartedAt r); [|done]. by rewrite (last_attempt_keeps q_Status).
Qed.
Lemma mode_op id mode : handler_op id (setRelayMode id mode).
Proof.
  intros g Hok Hh. split; [by apply rq_mode|]. apply handling_on; [done..|]. intros r Hid Ht Hr. case_bool_decide; [by exists r|].
  eexists. split; [by apply stored_at; destruct r|by destruct r].
Qed.
Lemma chars_op now id n : handler_op id (noteOutputChars now id n).
Proof.
  intros g Hok Hh. split; [by apply rq_chars|]. unfold noteOutputChars. case_ifs; [done|].
  apply handling_on; [done..|]. intros r Hid Ht Hr. cbv zeta.
  case_ifs; eexists; (split; [first [apply stored_at|apply put_at]; by destruct r|by destruct r]).
Qed.
Lemma release_op id : handler_op id (releaseRoundLifecycle id).
Proof.
  intros g Hok Hh. split; [by apply rq_release|]. apply handling_on; [done..|]. intros r Hid Ht Hr.
  exists ({ r with q_cancel := None }). split; [|by destruct r].
  assert (Hput : g_objects (put_object { r with q_cancel := None } g) !! id = Some { r with q_cancel := None }).
  { apply put_at. by destruct r. }
  unfold cancel_context. destruct (q_cancel r); [|done]. by destruct (put_object _ _).
Qed.

(** ** The end *)

(** [g'] follows from [g], and request [id] is finished in state [status]. *)
Definition ended (id : Z) (status : Status) g g' : Prop :=
  rtc request_step g g' /\
  exists r, g_objects g' !! id = Some r /\ q_Status r = status /\ g_finishing g' !! id = None /\
            id ∈ g_finishedQueue g'.

Lemma trim_keeps_last q x s q' s' : trim_finished (q ++ [x]) s = (q', s') -> x ∈ q'.
Proof.
  revert s. induction q as [|y q IH]; intros s; cbn [app trim_finished].
  - unfold maxFinished. cbn. intros [= <- <-]. by left.
  - case_ifs; [apply IH|]. intros [= <- <-]. right. apply elem_of_app. right. by left.
Qed.

Lemma finish_ends now id g r p :
  registry_ok g -> g_objects g !! id = Some r -> g_finishing g !! id = Some p ->
  let g' := finish now id g in
  (exists r', g_objects g' !! id = Some r' /\ q_Status r' = q_Status r) /\ g_finishing g' !! id = None /\
  id ∈ g_finishedQueue g'.
Proof.
  intros Hok Hr Hp. cbv zeta. pose proof (finish_registry_ok now id g Hok) as Hok'.
  assert (Hobj : exists r', g_objects (finish now id g) !! id = Some r' /\ q_Status r' = q_Status r).
  { unfold finish. rewrite Hp. unfold on_request. record.simp. rewrite Hr.
    destruct (go_ids _ Hok _ _ Hr) as [Hid _].
    destruct (sanitizeUsage (p_usage p) (p_body p)) as [usage estimated].
    set (r1 := { r with q_UsageEstimated := _; q_Usage ::= _; q_body := _; q_responseBody := _; q_Duration := _ }).
    exists r1. split; [|done]. unfold trimFinishedRequestsLocked, publishRequestLocked. record.simp.
    destruct (trim_finished _ _). record.simp.
    assert (Hlook : g_objects (put_object r1 { g with g_finishing ::= delete id }) !! id = Some r1).
    { unfold put_object. record.simp. rewrite <- Hid at 1. by rewrite lookup_insert_eq. }
    by case_bool_decide. }
  assert (Hfin : g_finishing (finish now id g) !! id = None /\ id ∈ g_finishedQueue (finish now id g)).
  { unfold finish. rewrite Hp. unfold on_request. record.simp. rewrite Hr.
    destruct (go_ids _ Hok _ _ Hr) as [Hid _].
    destruct (sanitizeUsage (p_usage p) (p_body p)) as [usage estimated].
    unfold trimFinishedRequestsLocked, publishRequestLocked. record.simp.
    match goal with |- context [trim_finished ?q ?s] => destruct (trim_finished q s) as [queue reqs] eqn:Htrim end.
    record.simp. split; [by case_bool_decide; unfold put_object, appendFailureLocked; record.simp; rewrite lookup_delete_eq|].
    eapply trim_keeps_last. change (q_ID _) with (q_ID r) in Htrim. rewrite Hid in Htrim. exact Htrim. }
  tauto.
Qed.

Lemma mark_ends now id status err class body usage g mark :
  registry_ok g -> handling g id ->
  mark = mark_terminal id status err class body usage -> terminal status = true ->
  request_step g (mark g) -> ended id status g (finish now id (mark g)).
Proof.
  intros Hok Hh -> Hterm Hstep. pose proof (request_step_ok _ _ Hstep Hok) as Hok1.
  split; [eapply rtc_l; [exact Hstep|]; apply rtc_once, rq_finish|].
  destruct Hh as (r & Hr & Ht). destruct (go_ids _ Hok _ _ Hr) as [Hid _].
  set (g1 := mark_terminal id status err class body usage g) in *.
  assert (Hg1 : exists r1 p, g_objects g1 !! id = Some r1 /\ q_Status r1 = status /\ g_finishing g1 !! id = Some p).
  { unfold g1, mark_terminal, on_request. rewrite Hr. eexists _, _. unfold put_object. record.simp.
    rewrite <- Hid at 1. split; [by rewrite lookup_insert_eq|]. split; [done|]. by rewrite lookup_insert_eq. }
  destruct Hg1 as (r1 & p & Hr1 & Hs1 & Hp). destruct (finish_ends now id g1 r1 p Hok1 Hr1 Hp) as [(r' & Hr' & Hs') [Hf Hq]].
  exists r'. repeat split; try done. congruence.
Qed.

Lemma fail_ends now id err body usage g :
  registry_ok g -> handling g id -> ended id StatusFailed g (finish now id (markFailed id err body usage g)).
Proof. intros Hok Hh. eapply (mark_ends _ _ _ _ _ _ _ _ (markFailed id err body usage)); [done..|]. by apply rq_fail. Qed.
Lemma cancel_ends now id err body usage g :
  registry_ok g -> handling g id -> ended id StatusCanceled g (finish now id (markCanceled id err body usage g)).
Proof. intros Hok Hh. eapply (mark_ends _ _ _ _ _ _ _ _ (markCanceled id err body usage)); [done..|]. by apply rq_cancel. Qed.
Lemma succeed_ends now id body usage g :
  registry_ok g -> handling g id -> ended id StatusSuccess g (finish now id (markSucceeded id body usage g)).
Proof. intros Hok Hh. eapply (mark_ends _ _ _ _ _ _ _ _ (markSucceeded id body usage)); [done..|]. by apply rq_succeed. Qed.
Lemma wait_ends now id ev g :
  registry_ok g -> handling g id -> ev ≠ TimerEnds -> ended id StatusCanceled g (finish now id (wait id ev g).2).
Proof.
  intros Hok Hh Hev. destruct ev; [done| |]; by apply cancel_ends.
Qed.
End run.
