(* ===== verification/MaskText.v ===== *)
(** * Placeholders and their restoration

    relay/mask/placeholder.go, restore.go and stream_restore.go.  A masked value
    is written [{{LABEL_xxxxxx}}]; the restorer replaces the placeholders it
    knows, in a whole text or in a stream of chunks. *)

From Stdlib Require Import Ascii String.
From S2P Require Import Prelude GoStrings.
Local Open Scope list_scope.

(** Text of this package is a list of bytes. *)
Notation bytes := (list ascii).
Definition lit (s : string) : bytes := list_ascii_of_string s.

(** ** The pattern *)

Definition consonants : bytes := lit "bcdfghjklmnpqrstvwxz".
Definition is_consonant (a : ascii) : bool := existsb (Ascii.eqb a) consonants.
Definition is_label_byte (a : ascii) : bool :=
  let b := byte_of a in ((65 <=? b) && (b <=? 90)) || ((48 <=? b) && (b <=? 57)).

(** At most [n] bytes of [l] from the front that satisfy [p]. *)
Fixpoint span (p : ascii -> bool) (n : nat) (l : bytes) : bytes * bytes :=
  match n, l with
  | S n, a :: l' => if p a then let '(x, y) := span p n l' in (a :: x, y) else ([], l)
  | _, _ => ([], l)
  end.

Fixpoint strip (p l : bytes) : option bytes :=
  match p, l with
  | [], _ => Some l
  | a :: p, b :: l => if Ascii.eqb a b then strip p l else None
  | _ :: _, [] => None
  end.

(** The length of the match of [PlaceholderRe] at the front of [l].  The label
    class and the underscore are disjoint, so the greedy label is the only one. *)
Definition match_placeholder (l : bytes) : option nat :=
  l1 ← strip (lit "{{") l;
  let '(label, l2) := span is_label_byte 12 l1 in
  if bool_decide (label = []) then None else
  l3 ← strip (lit "_") l2;
  let '(suffix, l4) := span is_consonant 6 l3 in
  if negb (length suffix =? 6)%nat then None else
  _ ← strip (lit "}}") l4;
  Some (11 + length label)%nat.

(** [PlaceholderRe.MatchString]. *)
Fixpoint IsPlaceholder (l : bytes) : bool :=
  is_some (match_placeholder l) ||
  match l with [] => false | _ :: l => IsPlaceholder l end.

(** [PlaceholderRe.ReplaceAllStringFunc]: leftmost matches, none overlapping. *)
Fixpoint replace_all (fuel : nat) (f : bytes -> bytes) (l : bytes) : bytes :=
  match fuel, l with
  | S fuel, a :: l' =>
      match match_placeholder l with
      | Some n => f (take n l) ++ replace_all fuel f (drop n l)
      | None => a :: replace_all fuel f l'
      end
  | _, _ => l
  end.

(** ** Labels and tokens *)

Definition upper_byte (a : ascii) : ascii :=
  let b := byte_of a in if (97 <=? b) && (b <=? 122) then of_byte (b - 32) else a.

(** The label is upper-cased, stripped to [A-Z0-9] and cut to twelve bytes; an
    empty one becomes TERM.  No rune outside ASCII has an upper case inside it
    except the dotless i and the long s, whose upper cases are I and S. *)
Fixpoint upper_label (l : bytes) : bytes :=
  match l with
  | a :: (b :: l2) as l1 =>
      if (byte_of a =? 0xC4) && (byte_of b =? 0xB1) then lit "I" ++ upper_label l2
      else if (byte_of a =? 0xC5) && (byte_of b =? 0xBF) then lit "S" ++ upper_label l2
      else upper_byte a :: upper_label l1
  | [a] => [upper_byte a]
  | [] => []
  end.

Definition safeLabel (label : bytes) : bytes :=
  let s := take 12 (filter (fun a => is_label_byte a = true) (upper_label label)) in
  if bool_decide (s = []) then lit "TERM" else s.

(** [randConsonant] on a stream of random bytes: bytes from 240 on are rejected,
    the others are reduced modulo 20. *)
Fixpoint randConsonant (random : list Z) : option (ascii * list Z) :=
  match random with
  | b :: rest =>
      if b <? 240 then Some (nth (Z.to_nat (b mod 20)) consonants Ascii.zero, rest)
      else randConsonant rest
  | [] => None
  end.

Fixpoint genSuffix_loop (n : nat) (random : list Z) : option (bytes * list Z) :=
  match n with
  | O => Some ([], random)
  | S n =>
      '(c, random) ← randConsonant random;
      '(s, random) ← genSuffix_loop n random;
      Some (c :: s, random)
  end.
Definition genSuffix (random : list Z) : option (bytes * list Z) := genSuffix_loop 6 random.

Definition token_of (label suffix : bytes) : bytes :=
  lit "{{" ++ safeLabel label ++ lit "_" ++ suffix ++ lit "}}".

Definition NewToken (label : bytes) (random : list Z) : option (bytes * list Z) :=
  '(suffix, random) ← genSuffix random;
  Some (token_of label suffix, random).

(** ** Restoring a whole text *)

(** The reverse map of a session: placeholder to original. *)
Definition restore_token (reverse : gmap bytes bytes) (token : bytes) : bytes :=
  default token (reverse !! token).

Definition restore (reverse : gmap bytes bytes) (body : bytes) : bytes :=
  replace_all (length body) (restore_token reverse) body.

Definition RestoreString (body : bytes) (mapping : option (gmap bytes bytes)) : bytes :=
  match mapping with
  | None => body
  | Some reverse => if bool_decide (body = []) then body else restore reverse body
  end.

(** ** Restoring a stream *)

Definition pendingMax : Z := 64.

(** [bytes.LastIndex(buf, "{{")] and [bytes.Contains]. *)
Fixpoint last_open (l : bytes) : option nat :=
  match l with
  | a :: l' =>
      match last_open l' with
      | Some i => Some (S i)
      | None => if is_some (strip (lit "{{") l) then Some O else None
      end
  | [] => None
  end.

Fixpoint contains (p l : bytes) : bool :=
  is_some (strip p l) || match l with [] => false | _ :: l => contains p l end.

Definition ends_with_brace (l : bytes) : bool :=
  match last l with Some a => Ascii.eqb a "{"%char | None => false end.

(** The confirmed part of the buffer and the part to keep. *)
Definition scan_split (buf : bytes) : bytes * bytes :=
  match last_open buf with
  | None =>
      if ends_with_brace buf then (take (length buf - 1) buf, drop (length buf - 1) buf) else (buf, [])
  | Some idx =>
      if contains (lit "}}") (drop idx buf) then (buf, []) else (take idx buf, drop idx buf)
  end.

Definition scanAndRestore (mapping : option (gmap bytes bytes)) (buf : bytes) : bytes * bytes :=
  let '(confirmed, pending) := scan_split buf in (RestoreString confirmed mapping, pending).

(** [pending] by channel; an absent channel and an empty buffer are the same. *)
Notation StreamRestorer := (gmap string bytes).

Definition PushChannel (mapping : option (gmap bytes bytes)) (channel : string) (chunk : bytes)
    (r : StreamRestorer) : bytes * StreamRestorer :=
  let buf := default [] (r !! channel) ++ chunk in
  let '(out, remain) := scanAndRestore mapping buf in
  if pendingMax <? Z.of_nat (length remain) then (out ++ remain, delete channel r)
  else if bool_decide (remain = []) then (out, delete channel r)
  else (out, <[channel := remain]> r).

Definition FlushChannel (channel : string) (r : StreamRestorer) : bytes * StreamRestorer :=
  (default [] (r !! channel), delete channel r).

(** One stream on one channel: every chunk pushed, then the flush. *)
Fixpoint push_all (mapping : option (gmap bytes bytes)) (channel : string) (chunks : list bytes)
    (r : StreamRestorer) : bytes * StreamRestorer :=
  match chunks with
  | [] => ([], r)
  | chunk :: chunks =>
      let '(out, r) := PushChannel mapping channel chunk r in
      let '(rest, r) := push_all mapping channel chunks r in
      (out ++ rest, r)
  end.

Definition stream_restore (mapping : option (gmap bytes bytes)) (channel : string)
    (chunks : list bytes) (r : StreamRestorer) : bytes :=
  let '(out, r) := push_all mapping channel chunks r in out ++ (FlushChannel channel r).1.

(** What the comments of [scanAndRestore] miss: after a closed placeholder a
    trailing single brace is flushed, so a placeholder cut right there stays. *)
Definition split_reverse : gmap bytes bytes := {[lit "{{PHONE_bcdfgh}}" := lit "13800138000"]}.
Definition split_chunks : list bytes := [lit "{{PHONE_bcdfgh}} {"; lit "{PHONE_bcdfgh}}"].

Lemma split_brace_is_lost :
  stream_restore (Some split_reverse) "default" split_chunks ∅
    = lit "13800138000 {{PHONE_bcdfgh}}" /\
  RestoreString (concat split_chunks) (Some split_reverse) = lit "13800138000 13800138000".
Proof. by vm_compute. Qed.
