(* ===== verification/MaskThms.v ===== *)
(** * Restoration does not depend on the chunks

    The pattern is characterised by the shape of its matches; a text can be cut
    wherever no match straddles the cut, and the stream restorer only cuts at
    such places, except behind a single brace. *)

From Stdlib Require Import Ascii String.
From S2P Require Import Prelude GoStrings MaskText.
Local Open Scope list_scope.

(** ** The shape of a placeholder *)

Record shaped (tok label suffix : bytes) : Prop := {
  sh_eq : tok = lit "{{" ++ label ++ lit "_" ++ suffix ++ lit "}}";
  sh_label : Forall (fun a => is_label_byte a = true) label;
  sh_len : (1 <= length label <= 12)%nat;
  sh_suffix : Forall (fun a => is_consonant a = true) suffix;
  sh_six : length suffix = 6%nat;
}.

Lemma strip_Some p l rest : strip p l = Some rest <-> l = p ++ rest.
Proof.
  revert l. induction p as [|a p IH]; intros l; cbn.
  - split; congruence.
  - destruct l as [|b l]; [done|]. destruct (Ascii.eqb a b) eqn:Hab.
    + apply Ascii.eqb_eq in Hab as ->. rewrite IH. split; congruence.
    + apply Ascii.eqb_neq in Hab. split; [done|]. intros [= ? _]. congruence.
Qed.

Lemma span_spec p n l x y :
  span p n l = (x, y) ->
  l = x ++ y /\ Forall (fun a => p a = true) x /\ (length x <= n)%nat.
Proof.
  revert l x y. induction n as [|n IH]; intros l x y; cbn.
  - intros [= <- <-]. repeat split; [constructor|cbn; lia].
  - destruct l as [|a l]; [intros [= <- <-]; repeat split; [constructor|cbn; lia]|].
    destruct (p a) eqn:Hp; [|intros [= <- <-]; repeat split; [constructor|cbn; lia]].
    destruct (span p n l) as [x' y'] eqn:Hs. intros [= <- <-].
    destruct (IH l x' y' Hs) as (-> & Hall & Hlen). repeat split; [by constructor|cbn; lia].
Qed.

(** The front of [p]-bytes is maximal, so it is found whole when it fits and what
    follows it is not a [p]-byte. *)
Lemma span_exact p n x y :
  Forall (fun a => p a = true) x -> (length x <= n)%nat ->
  (length x = n \/ from_option p false (head y) = false) ->
  span p n (x ++ y) = (x, y).
Proof.
  revert n. induction x as [|a x IH]; intros n Hall Hlen Hend; cbn.
  - destruct n as [|n]; [done|]. destruct Hend as [|Hend]; [done|].
    destruct y as [|b y]; [done|]. cbn in *. by rewrite Hend.
  - apply Forall_cons in Hall as [Ha Hall]. destruct n as [|n]; [cbn in Hlen; lia|].
    cbn in *. rewrite Ha, IH; [done|done|lia|]. destruct Hend; [left; lia|by right].
Qed.

Lemma match_spec l n :
  match_placeholder l = Some n <->
  exists label suffix rest, l = lit "{{" ++ label ++ lit "_" ++ suffix ++ lit "}}" ++ rest /\
    shaped (take n l) label suffix /\ n = (11 + length label)%nat.
Proof.
  unfold match_placeholder. split.
  - destruct (strip (lit "{{") l) as [l1|] eqn:H1; [|done]. apply strip_Some in H1. cbn [mbind option_bind].
    destruct (span is_label_byte 12 l1) as [label l2] eqn:H2. apply span_spec in H2 as (H2 & Hl & Hlen).
    case_bool_decide as Hne; [done|].
    destruct (strip (lit "_") l2) as [l3|] eqn:H3; [|done]. apply strip_Some in H3. cbn [mbind option_bind].
    destruct (span is_consonant 6 l3) as [suffix l4] eqn:H4. apply span_spec in H4 as (H4 & Hs & _).
    destruct (length suffix =? 6)%nat eqn:H6; [|done]. apply Nat.eqb_eq in H6. cbn [negb].
    destruct (strip (lit "}}") l4) as [l5|] eqn:H5; [|done]. apply strip_Some in H5. cbn [mbind option_bind].
    intros [= <-]. subst. exists label, suffix, l5. split; [done|]. split; [|done].
    split; [|done| |done|done].
    + replace (lit "{{" ++ label ++ lit "_" ++ suffix ++ lit "}}" ++ l5)
        with ((lit "{{" ++ label ++ lit "_" ++ suffix ++ lit "}}") ++ l5) by (by rewrite <- !app_assoc).
      apply take_app_length'. rewrite !length_app. cbn. lia.
    + destruct label; [done|]. cbn in *. lia.
  - intros (label & suffix & rest & -> & Hsh & ->). destruct Hsh as [_ Hl Hlen Hs H6].
    rewrite (proj2 (strip_Some (lit "{{") _ _) eq_refl). cbn [mbind option_bind].
    rewrite span_exact by (done || lia || by right). rewrite bool_decide_false by (by destruct label; cbn in *; lia || done).
    rewrite (proj2 (strip_Some (lit "_") _ _) eq_refl). cbn [mbind option_bind].
    rewrite span_exact by (done || lia || by left). rewrite H6. cbn [Nat.eqb negb].
    by rewrite (proj2 (strip_Some (lit "}}") _ _) eq_refl).
Qed.

Lemma shaped_length tok label suffix : shaped tok label suffix -> length tok = (11 + length label)%nat.
Proof. intros [-> _ _ _ H6]. rewrite !length_app. cbn. lia. Qed.

(** Matches are the shaped prefixes. *)
Lemma match_iff l n :
  match_placeholder l = Some n <->
  (n <= length l)%nat /\ exists label suffix, shaped (take n l) label suffix.
Proof.
  rewrite match_spec. split.
  - intros (label & suffix & rest & Hl & Hsh & Hn). pose proof (shaped_length _ _ _ Hsh) as Ht.
    rewrite length_take in Ht. split; [lia|]. by exists label, suffix.
  - intros (Hn & label & suffix & Hsh). exists label, suffix, (drop n l).
    pose proof (shaped_length _ _ _ Hsh) as Ht. rewrite length_take in Ht.
    split; [|split; [done|lia]]. rewrite <- (take_drop n l) at 1. rewrite (sh_eq _ _ _ Hsh) at 1.
    by rewrite <- !app_assoc.
Qed.

Lemma match_bounds l n : match_placeholder l = Some n -> (12 <= n <= 23)%nat /\ (n <= length l)%nat.
Proof.
  intros Hm. pose proof (proj1 (match_iff _ _) Hm) as (Hn & _).
  apply match_spec in Hm as (label & suffix & rest & _ & Hsh & ->). pose proof (sh_len _ _ _ Hsh). lia.
Qed.

Lemma match_app_l s t n : match_placeholder s = Some n -> match_placeholder (s ++ t) = Some n.
Proof.
  rewrite !match_iff. intros (Hn & label & suffix & Hsh). rewrite length_app. split; [lia|].
  exists label, suffix. by rewrite take_app_le.
Qed.

Lemma match_app_r s t n :
  match_placeholder (s ++ t) = Some n -> (n <= length s)%nat -> match_placeholder s = Some n.
Proof.
  rewrite !match_iff. intros (_ & label & suffix & Hsh) Hn. rewrite take_app_le in Hsh by done.
  split; [done|]. by exists label, suffix.
Qed.

(** ** Cutting a text *)

(** No placeholder of [s ++ t] starts in [s] and ends in [t]. *)
Definition clean (s t : bytes) : Prop :=
  forall x u n, s = x ++ u -> u ≠ [] -> match_placeholder (u ++ t) = Some n -> (n <= length u)%nat.

Lemma replace_fuel f fuel fuel' l :
  (length l <= fuel)%nat -> (length l <= fuel')%nat -> replace_all fuel f l = replace_all fuel' f l.
Proof.
  revert fuel' l. induction fuel as [|fuel IH]; intros fuel' l Hl Hl'.
  - destruct l; [|cbn in *; lia]. by destruct fuel'.
  - destruct l as [|a l]; [by destruct fuel'|]. destruct fuel' as [|fuel']; [cbn in *; lia|].
    cbn [replace_all]. destruct (match_placeholder (a :: l)) as [n|] eqn:Hm.
    + apply match_bounds in Hm. f_equal. apply IH; rewrite length_drop; cbn in *; lia.
    + f_equal. apply IH; cbn in *; lia.
Qed.

Lemma replace_app f s t fuel :
  clean s t -> (length (s ++ t) <= fuel)%nat ->
  replace_all fuel f (s ++ t) = replace_all fuel f s ++ replace_all fuel f t.
Proof.
  revert s. induction fuel as [|fuel IH]; intros s Hc Hl; [by destruct s, t; cbn in *; lia || done|].
  destruct s as [|a s]; [done|]. rewrite (replace_fuel f (S fuel) fuel t) by (cbn in Hl; rewrite ?length_app in Hl; lia).
  cbn [app replace_all]. change (a :: s ++ t) with ((a :: s) ++ t).
  assert (Hc' : forall n, clean (drop n (a :: s)) t).
  { intros n x u k Heq. apply (Hc (take n (a :: s) ++ x)). by rewrite <- app_assoc, <- Heq, take_drop. }
  destruct (match_placeholder ((a :: s) ++ t)) as [n|] eqn:Hm.
  - pose proof (Hc [] (a :: s) n eq_refl ltac:(done) Hm) as Hn. pose proof (match_bounds _ _ Hm).
    rewrite (match_app_r _ _ _ Hm Hn), take_app_le, drop_app_le by done. rewrite <- app_assoc. f_equal.
    apply IH; [apply Hc'|]. rewrite length_app, length_drop in *. cbn in *. lia.
  - destruct (match_placeholder (a :: s)) as [n|] eqn:Hm'.
    { apply (match_app_l _ t) in Hm'. congruence. }
    cbn [app]. f_equal. apply IH; [apply (Hc' 1%nat)|cbn in Hl; lia].
Qed.

Lemma restore_app rev s t : clean s t -> restore rev (s ++ t) = restore rev s ++ restore rev t.
Proof.
  intros Hc. unfold restore. rewrite replace_app by done.
  f_equal; apply replace_fuel; rewrite ?length_app; lia.
Qed.

(** A text without a match is left alone. *)
Lemma restore_none rev l :
  (forall x u, l = x ++ u -> match_placeholder u = None) -> restore rev l = l.
Proof.
  unfold restore. generalize (restore_token rev) as f. intros f.
  induction l as [|a l IH]; intros Hn; [done|].
  cbn [replace_all length]. rewrite (Hn [] (a :: l)) by done. f_equal.
  apply IH. intros x u ->. by apply (Hn (a :: x)).
Qed.

(** ** Where the restorer cuts *)

Definition brace : ascii := "{"%char.

Lemma label_not_brace a : is_label_byte a = true -> a ≠ brace /\ a ≠ "}"%char.
Proof. intros Ha. split; intros ->; vm_compute in Ha; discriminate. Qed.

Lemma consonant_not_brace a : is_consonant a = true -> a ≠ brace /\ a ≠ "}"%char.
Proof. intros Ha. split; intros ->; vm_compute in Ha; discriminate. Qed.

(** Inside a placeholder, between the opening and the closing braces. *)
Lemma inner_no_brace tok label suffix i a :
  shaped tok label suffix -> tok !! i = Some a ->
  (i < 2)%nat /\ a = brace \/ a ≠ brace /\ a ≠ "}"%char \/
  (length tok <= i + 2)%nat /\ a = "}"%char.
Proof.
  intros Hsh. pose proof (shaped_length _ _ _ Hsh) as Hlen. destruct Hsh as [-> Hl Hn Hs H6]. rewrite Hlen.
  intros Ha. destruct (decide (i < 2)%nat) as [Hi|Hi].
  { left. split; [done|]. destruct i as [|[|i]]; [..|lia]; by injection Ha as <-. }
  right. rewrite lookup_app_r in Ha by (cbn; lia). set (j := (i - length (lit "{{"))%nat) in *.
  assert (Hj : (j = i - 2)%nat) by done. clearbody j. apply lookup_app_Some in Ha as [Ha|[_ Ha]].
  { left. apply label_not_brace. by apply (Forall_lookup_1 _ _ _ _ Hl Ha). }
  destruct (decide (j - length label = 0)%nat) as [H0|H0].
  { left. rewrite H0 in Ha. injection Ha as <-. split; discriminate. }
  rewrite lookup_app_r in Ha by (cbn; lia). apply lookup_app_Some in Ha as [Ha|[Hj' Ha]].
  { left. apply consonant_not_brace. by apply (Forall_lookup_1 _ _ _ _ Hs Ha). }
  right. rewrite H6 in *. cbn [length lit list_ascii_of_string] in *. split; [lia|].
  destruct (j - length label - 1 - 6)%nat as [|[|k]]; cbn in Ha;
    [congruence|congruence|discriminate].
Qed.

Lemma last_open_spec l :
  match last_open l with
  | Some i => (exists rest, drop i l = lit "{{" ++ rest) /\ last_open (drop (S i) l) = None /\ (i + 2 <= length l)%nat
  | None => forall i rest, drop i l ≠ lit "{{" ++ rest
  end.
Proof.
  induction l as [|a l IH]; cbn [last_open].
  { intros i rest. by rewrite drop_nil. }
  destruct (last_open l) as [i|] eqn:Hl.
  - destruct IH as (Hd & Hn & Hi). cbn [drop length]. by split; [|split; [|lia]].
  - destruct (strip (lit "{{") (a :: l)) as [rest|] eqn:Hs; cbn [is_some].
    + apply strip_Some in Hs. split; [by exists rest|]. cbn [drop]. rewrite drop_0.
      split; [done|]. rewrite Hs, length_app. cbn. lia.
    + intros [|i] rest; cbn [drop]; [|by apply IH]. intros Heq. apply strip_Some in Heq. congruence.
Qed.

Lemma contains_spec p l : contains p l = true <-> exists x y, l = x ++ p ++ y.
Proof.
  induction l as [|a l IH]; cbn [contains].
  - rewrite orb_false_r, is_some_true. split.
    + intros [y Hy]. apply strip_Some in Hy. by exists [], y.
    + intros (x & y & Hl). symmetry in Hl. apply app_eq_nil in Hl as [-> Hl]. exists y. by apply strip_Some.
  - rewrite orb_true_iff, is_some_true, IH. split.
    + intros [[y Hy]|(x & y & ->)]; [apply strip_Some in Hy; by exists [], y|by exists (a :: x), y].
    + intros ([|b x] & y & Hl); [left; exists y; by apply strip_Some|right].
      injection Hl as -> ->. by exists x, y.
Qed.

(** A match that straddles a cut is a proper prefix before the cut. *)
Lemma straddle u t n :
  match_placeholder (u ++ t) = Some n -> (length u < n)%nat ->
  exists tok label suffix, shaped tok label suffix /\ tok = u ++ take (n - length u) t /\
    (length tok = n)%nat /\ (length u + 1 <= n <= length u + length t)%nat.
Proof.
  rewrite match_iff, length_app. intros (Hn & label & suffix & Hsh) Hlt.
  exists (take n (u ++ t)), label, suffix. split; [done|]. split.
  - rewrite take_app, take_ge by lia. done.
  - rewrite length_take, length_app. lia.
Qed.

(** The front of a straddling match, at least one byte long, is a brace, or two
    braces and no closing pair. *)
Lemma straddle_front u t n :
  u ≠ [] -> match_placeholder (u ++ t) = Some n -> (length u < n)%nat ->
  (u = [brace] /\ exists t' a, t = brace :: a :: t' /\ a ≠ brace) \/
  ((exists rest, u = lit "{{" ++ rest) /\ contains (lit "}}") u = false /\ (length u < 23)%nat).
Proof.
  intros Hu Hm Hlt. pose proof (match_bounds _ _ Hm) as [Hb _].
  destruct (straddle _ _ _ Hm Hlt) as (tok & label & suffix & Hsh & Htok & Hlen & Ht).
  pose proof (sh_eq _ _ _ Hsh) as Heq.
  assert (Hcont : contains (lit "}}") u = false).
  { apply not_true_is_false. intros (x & y & Hxy)%contains_spec.
    assert (Hx : tok !! length x = Some "}"%char).
    { rewrite Htok, Hxy, <- !app_assoc. by rewrite lookup_app_r, Nat.sub_diag. }
    destruct (inner_no_brace _ _ _ _ _ Hsh Hx) as [[_ ?]|[[_ ?]|[Hge _]]]; [done|done|].
    apply (f_equal length) in Hxy. rewrite !length_app in Hxy. cbn in Hxy. lia. }
  destruct u as [|a [|b u]]; [done| |].
  - left. change (length [a]) with 1%nat in *. rewrite Htok in Heq. cbn in Heq. injection Heq as Ha Hrest. split; [by rewrite Ha|].
    destruct t as [|b [|c t]]; [cbn in *; lia..|]. exists t, c.
    destruct (n - 1)%nat as [|[|k]] eqn:Hk; [lia..|]. cbn in Hrest.
    injection Hrest as Hb' _. split; [by rewrite Hb'|]. intros ->.
    destruct (inner_no_brace tok label suffix 2 brace Hsh) as [[? _]|[[? _]|[? _]]]; [|lia|done|lia].
    rewrite Htok, ?Hk. by rewrite Hb'.
  - right. split; [|split; [done|lia]]. rewrite Htok in Heq. cbn in Heq. injection Heq as Ha Hb' _. exists u. by rewrite Ha, Hb'.
Qed.

Lemma match_contains u n : match_placeholder u = Some n -> contains (lit "}}") u = true.
Proof.
  intros (label & suffix & rest & -> & _)%match_spec. apply contains_spec.
  exists (lit "{{" ++ label ++ lit "_" ++ suffix), rest. by rewrite <- !app_assoc.
Qed.

Lemma contains_suffix p x u : contains p u = true -> contains p (x ++ u) = true.
Proof.
  intros (y & z & ->)%contains_spec. apply contains_spec. exists (x ++ y), z. by rewrite <- app_assoc.
Qed.

Lemma ends_with_brace_snoc x : ends_with_brace (x ++ [brace]) = true.
Proof. unfold ends_with_brace. by rewrite last_snoc. Qed.

(** A placeholder has no brace behind its opening. *)
Lemma no_straddle_brace u t n :
  (2 <= length u)%nat -> match_placeholder (u ++ brace :: t) = Some n -> (n <= length u)%nat.
Proof.
  intros Hu Hm. destruct (decide (n <= length u)%nat) as [|Hlt]; [done|exfalso].
  destruct (straddle _ _ _ Hm ltac:(lia)) as (tok & label & suffix & Hsh & Htok & Hlen & Ht).
  assert (Hx : tok !! length u = Some brace).
  { rewrite Htok, lookup_app_r, Nat.sub_diag by done. destruct (n - length u)%nat eqn:Hk; [lia|done]. }
  by destruct (inner_no_brace _ _ _ _ _ Hsh Hx) as [[? _]|[[? _]|[_ ?]]]; [lia| |].
Qed.

(** No opening pair behind the last one. *)
Lemma last_open_before buf idx x rest :
  last_open buf = Some idx -> buf = x ++ lit "{{" ++ rest -> (length x <= idx)%nat.
Proof.
  intros Hl Hb. pose proof (last_open_spec buf) as H. rewrite Hl in H. destruct H as (_ & Hn & _).
  destruct (decide (length x <= idx)%nat) as [|Hlt]; [done|exfalso].
  pose proof (last_open_spec (drop (S idx) buf)) as H. rewrite Hn in H.
  apply (H (length x - S idx)%nat rest). rewrite drop_drop.
  replace (S idx + (length x - S idx))%nat with (length x) by lia. subst. apply drop_app_length.
Qed.

(** A text is clean when no match can straddle its end in either of the two ways. *)
Lemma clean_intro s t :
  (forall x t' a, s = x ++ [brace] -> t = brace :: a :: t' -> a ≠ brace -> False) ->
  (forall x rest n, s = x ++ lit "{{" ++ rest -> contains (lit "}}") (lit "{{" ++ rest) = false ->
     (length (lit "{{" ++ rest) < 23)%nat -> match_placeholder ((lit "{{" ++ rest) ++ t) = Some n ->
     (length (lit "{{" ++ rest) < n)%nat -> False) ->
  clean s t.
Proof.
  intros H1 H2 x u n Hs Hu Hm. destruct (decide (n <= length u)%nat) as [|Hlt]; [done|exfalso].
  destruct (straddle_front u t n Hu Hm ltac:(lia)) as [(-> & t' & a & Ht & Ha)|((rest & ->) & Hc & Hl)].
  - by apply (H1 x t' a).
  - apply (H2 x rest n); try done. lia.
Qed.

Record cut_ok (buf conf rem future : bytes) : Prop := {
  cut_app : buf = conf ++ rem;
  cut_closed : rem = [] -> ends_with_brace buf = false -> clean conf future;
  cut_open : rem ≠ [] -> clean conf (rem ++ future);
  cut_quiet : forall x u, rem = x ++ u -> match_placeholder u = None;
  cut_long : (64 < length rem)%nat -> ends_with_brace buf = false -> clean rem future;
}.

Lemma short_no_match u : (length u < 12)%nat -> match_placeholder u = None.
Proof. intros Hu. destruct (match_placeholder u) as [n|] eqn:Hm; [|done]. apply match_bounds in Hm. lia. Qed.

Lemma cut_none buf future : last_open buf = None -> let '(conf, rem) := scan_split buf in cut_ok buf conf rem future.
Proof.
  intros Hl. unfold scan_split. rewrite Hl. pose proof (last_open_spec buf) as Hno. rewrite Hl in Hno.
  assert (Hno' : forall x rest, buf ≠ x ++ lit "{{" ++ rest).
  { intros x rest ->. by apply (Hno (length x) rest), drop_app_length. }
  destruct (ends_with_brace buf) eqn:He.
  - assert (Hbuf : exists b, buf = b ++ [brace]).
    { unfold ends_with_brace in He. destruct (last buf) as [a|] eqn:Ha; [|done].
      apply Ascii.eqb_eq in He as ->. apply last_Some in Ha as [b ->]. by exists b. }
    destruct Hbuf as [b ->]. rewrite length_app. cbn [length]. rewrite Nat.add_sub, take_app_length, drop_app_length.
    split; try done.
    + intros _. apply clean_intro.
      * intros x t' a -> _ _. apply (Hno' x []). by rewrite <- app_assoc.
      * intros x rest n -> _ _ _ _. apply (Hno' x (rest ++ [brace])). by rewrite <- !app_assoc.
    + intros x u Hu. apply short_no_match. apply (f_equal length) in Hu. rewrite length_app in Hu. cbn in *. lia.
    + cbn. lia.
  - split; try done.
    + by rewrite app_nil_r.
    + intros _ _. apply clean_intro.
      * intros x t' a -> _ _. by rewrite ends_with_brace_snoc in He.
      * intros x rest n Hx _ _ _ _. by apply (Hno' x rest).
    + intros x u Hu. symmetry in Hu. by apply app_eq_nil in Hu as [_ ->].
    + cbn. lia.
Qed.

Lemma cut_some buf idx future :
  last_open buf = Some idx -> let '(conf, rem) := scan_split buf in cut_ok buf conf rem future.
Proof.
  intros Hl. unfold scan_split. rewrite Hl. pose proof (last_open_spec buf) as H. rewrite Hl in H.
  destruct H as ((r & Hr) & _ & Hlen). destruct (contains (lit "}}") (drop idx buf)) eqn:Hc.
  - split; try done; [by rewrite app_nil_r| | |cbn; lia].
    + intros _ He. apply clean_intro.
      * intros x t' a -> _ _. by rewrite ends_with_brace_snoc in He.
      * intros x rest n Hx Hcu _ _ _. pose proof (last_open_before _ _ _ _ Hl Hx) as Hle.
        rewrite Hx, drop_app_ge in Hc by done.
        rewrite <- (take_drop (idx - length x) (lit "{{" ++ rest)) in Hcu.
        by rewrite (contains_suffix _ _ _ Hc) in Hcu.
    + intros x u Hu. symmetry in Hu. by apply app_eq_nil in Hu as [_ ->].
  - assert (Hbuf : buf = take idx buf ++ drop idx buf) by (by rewrite take_drop).
    split.
    + done.
    + intros Hrem. by rewrite Hrem in Hr.
    + intros _. rewrite Hr. apply clean_intro.
      * intros x t' a _ [= <- _] Ha. done.
      * intros x rest n _ _ _ Hm Hn.
        pose proof (no_straddle_brace (lit "{{" ++ rest) (lit "{" ++ r ++ future) n ltac:(cbn; lia) Hm). lia.
    + intros x u Hu. destruct (match_placeholder u) as [n|] eqn:Hm; [|done].
      apply match_contains in Hm. by rewrite Hu, (contains_suffix _ _ _ Hm) in Hc.
    + intros Hlong He. apply clean_intro.
      * intros x t' a Hx _ _. rewrite Hbuf, Hx, app_assoc, ends_with_brace_snoc in He. done.
      * intros x rest n Hx _ Hshort _ _. rewrite Hx, app_assoc in Hbuf.
        pose proof (last_open_before _ _ _ _ Hl Hbuf) as Hle.
        rewrite length_app, length_take in Hle. rewrite Hx, length_app in Hlong. lia.
Qed.

Lemma scan_cut buf future : let '(conf, rem) := scan_split buf in cut_ok buf conf rem future.
Proof. destruct (last_open buf) eqn:Hl; [by apply (cut_some _ n)|by apply cut_none]. Qed.

(** ** The stream *)

(** No buffer that is emptied ends with a single brace; [pend] is what the
    channel has kept. *)
Fixpoint braces_kept (pend : bytes) (chunks : list bytes) : bool :=
  match chunks with
  | [] => true
  | chunk :: chunks =>
      let buf := pend ++ chunk in
      let rem := (scan_split buf).2 in
      let rem := if pendingMax <? Z.of_nat (length rem) then [] else rem in
      (negb (ends_with_brace buf) || negb (bool_decide (rem = []))) && braces_kept rem chunks
  end.

Lemma RestoreString_Some rev body : RestoreString body (Some rev) = restore rev body.
Proof. unfold RestoreString. case_bool_decide; [by subst|done]. Qed.

Lemma nil_quiet x u : [] = x ++ u -> match_placeholder u = None.
Proof. intros Hu. symmetry in Hu. by apply app_eq_nil in Hu as [_ ->]. Qed.

(** The channel keeps [rem], an empty one being absent. *)
Lemma push_spec mapping channel chunk r :
  let buf := default [] (r !! channel) ++ chunk in
  let '(conf, rem) := scan_split buf in
  let long := pendingMax <? Z.of_nat (length rem) in
  (PushChannel mapping channel chunk r).1 = RestoreString conf mapping ++ (if long then rem else []) /\
  default [] ((PushChannel mapping channel chunk r).2 !! channel) = (if long then [] else rem).
Proof.
  cbv zeta. unfold PushChannel, scanAndRestore. destruct (scan_split _) as [conf rem].
  destruct (pendingMax <? Z.of_nat (length rem)); cbn [fst snd].
  - by rewrite lookup_delete_eq.
  - rewrite app_nil_r. case_bool_decide; cbn [fst snd].
    + subst. by rewrite lookup_delete_eq.
    + by rewrite lookup_insert_eq.
Qed.

Lemma stream_spec rev channel chunks r :
  let pend := default [] (r !! channel) in
  (forall x u, pend = x ++ u -> match_placeholder u = None) -> braces_kept pend chunks = true ->
  stream_restore (Some rev) channel chunks r = restore rev (pend ++ concat chunks).
Proof.
  cbv zeta. revert r. induction chunks as [|chunk chunks IH]; intros r Hq Hk.
  { cbn. rewrite app_nil_r. by rewrite restore_none. }
  unfold stream_restore. cbn [push_all]. pose proof (push_spec (Some rev) channel chunk r) as Hpush. cbv zeta in Hpush.
  set (buf := default [] (r !! channel) ++ chunk) in *.
  cbn [braces_kept] in Hk. fold buf in Hk. cbn [concat]. rewrite app_assoc. fold buf.
  pose proof (scan_cut buf) as Hcut. destruct (scan_split buf) as [conf rem]. cbn [snd] in Hk.
  destruct (PushChannel (Some rev) channel chunk r) as [out r1]. destruct Hpush as [Hout Hr1].
  cbn [fst snd] in *. specialize (IH r1). rewrite Hr1 in IH. unfold stream_restore in IH.
  destruct (push_all (Some rev) channel chunks r1) as [rest r2]. rewrite <- app_assoc, Hout.
  apply andb_true_iff in Hk as [Hb Hk]. rewrite RestoreString_Some.
  pose proof (cut_app _ _ _ _ (Hcut [])) as Hbuf.
  destruct (Z.ltb_spec pendingMax (Z.of_nat (length rem))) as [Hlong|Hshort].
  - rewrite IH; [|exact nil_quiet|exact Hk].
    cbn in Hb. rewrite orb_false_r, negb_true_iff in Hb. cbn [app].
    assert (Hlen : (64 < length rem)%nat) by (unfold pendingMax in Hlong; lia).
    destruct (Hcut (concat chunks)) as [_ _ Hopen Hquiet Hcl]. rewrite Hbuf, <- !app_assoc.
    rewrite restore_app by (apply Hopen; by intros ->). rewrite (restore_app _ rem) by by apply Hcl.
    by rewrite (restore_none _ rem).
  - rewrite app_nil_r. destruct (Hcut (concat chunks)) as [_ Hclosed Hopen Hquiet _].
    rewrite IH by done. rewrite Hbuf, <- app_assoc. symmetry. apply restore_app.
    destruct (decide (rem = [])) as [->|Hne]; [|by apply Hopen].
    cbn in *. rewrite orb_false_r, negb_true_iff in Hb. by apply Hclosed.
Qed.

Lemma stream_none channel chunks r :
  stream_restore None channel chunks r = default [] (r !! channel) ++ concat chunks.
Proof.
  revert r. induction chunks as [|chunk chunks IH]; intros r.
  { cbn. by rewrite app_nil_r. }
  unfold stream_restore. cbn [push_all concat]. pose proof (push_spec None channel chunk r) as Hpush. cbv zeta in Hpush.
  pose proof (scan_cut (default [] (r !! channel) ++ chunk) []) as Hcut.
  destruct (scan_split _) as [conf rem]. apply cut_app in Hcut.
  destruct (PushChannel None channel chunk r) as [out r1]. destruct Hpush as [Hout Hr1]. cbn [fst snd] in *.
  specialize (IH r1). rewrite Hr1 in IH. unfold stream_restore in IH.
  destruct (push_all None channel chunks r1) as [rest r2].
  rewrite <- app_assoc, IH, Hout, (app_assoc _ chunk), Hcut. unfold RestoreString. rewrite <- !app_assoc.
  by destruct (pendingMax <? _).
Qed.

(** C25: restoring a stream gives what restoring the whole text gives, however
    the text is cut into chunks, as long as no emptied buffer ends in a single
    brace; and without a mapping every byte is passed on, in order, whatever the
    chunks are. *)
Theorem stream_restores_whole rev channel chunks r :
  r !! channel = None ->
  (braces_kept [] chunks = true ->
   stream_restore (Some rev) channel chunks r = RestoreString (concat chunks) (Some rev)) /\
  stream_restore None channel chunks r = concat chunks.
Proof.
  intros Hr. split.
  - intros Hk. rewrite RestoreString_Some, stream_spec; rewrite Hr; try done.
    exact nil_quiet.
  - by rewrite stream_none, Hr.
Qed.

Definition demo_chunks : list bytes := [lit "call {{PHO"; lit "NE_bcd"; lit "fgh}} or {{x}} now"].

Lemma stream_restores_whole_witness :
  stream_restore (Some split_reverse) "default" demo_chunks ∅ = lit "call 13800138000 or {{x}} now".
Proof. rewrite (proj1 (stream_restores_whole split_reverse "default" demo_chunks ∅ (lookup_empty _))); by vm_compute. Defined.
