(* ===== verification/MaskSession.v ===== *)
(** * Session mappings

    relay/mask/session.go.  A conversation keeps one two-way table, so the same
    value is masked the same way in every turn.  Mappings are shared by reference
    between concurrent requests of a session; the store publishes a mapping on
    its first binding. *)

From S2P Require Import Prelude GoStrings MaskText MaskThms.
Local Open Scope list_scope.

(** ** State *)

(** [onBind] is the closure [publish(key, m)], kept as its key. *)
Record Mapping := mkMapping {
  m_forward : gmap bytes bytes; m_reverse : gmap bytes bytes; m_onBind : option bytes }.
Definition newMapping : Mapping := mkMapping ∅ ∅ None.

Record sessionRecord := mkSession { sr_mapping : Z; sr_lastAccess : Z }.
Record inflightSession := mkInflight { in_mapping : Z; in_refs : Z }.

(** [ms_objects] holds every mapping, [ms_next] the next free reference. *)
Record SessionStore := mkStore {
  ms_objects : gmap Z Mapping; ms_next : Z;
  ms_sessions : gmap bytes sessionRecord; ms_inflight : gmap bytes inflightSession }.
Definition NewSessionStore : SessionStore := mkStore ∅ 0 ∅ ∅.

Definition SessionTTL : Z := 30 * 60 * 1000000000.

(** ** Mapping *)

(** The loop that unwraps a placeholder: the real value, or the text that
    [Recall] returns unchanged. *)
Fixpoint unwrap (depth : nat) (reverse : gmap bytes bytes) (original : bytes) : bytes + bytes :=
  if IsPlaceholder original then
    match depth with
    | O => inr original
    | S depth =>
        match reverse !! original with
        | None => inr original
        | Some real => unwrap depth reverse real
        end
    end
  else inl original.

(** At most [n] further tokens until one is free; the last one is taken anyway. *)
Fixpoint fresh_token (n : nat) (reverse : gmap bytes bytes) (label : bytes) (random : list Z)
  : option (bytes * list Z) :=
  '(token, random) ← NewToken label random;
  match n with
  | O => Some (token, random)
  | S n => if is_some (reverse !! token) then fresh_token n reverse label random else Some (token, random)
  end.

(** [Recall]: the token, the mapping, the rest of the random bytes, and whether
    the call has bound a new token.  The read and the write lock are one step:
    the double check makes a binding in between visible. *)
Definition Recall (original label : bytes) (random : list Z) (m : Mapping)
  : option (bytes * Mapping * list Z * bool) :=
  match unwrap 5 (m_reverse m) original with
  | inr token => Some (token, m, random, false)
  | inl original =>
      match m_forward m !! original with
      | Some token => Some (token, m, random, false)
      | None =>
          '(token, random) ← fresh_token 19 (m_reverse m) label random;
          Some (token, mkMapping (<[original := token]> (m_forward m)) (<[token := original]> (m_reverse m))
                         (m_onBind m), random, true)
      end
  end.

Definition Lookup (placeholder : bytes) (m : Mapping) : option bytes := m_reverse m !! placeholder.

(** ** Store *)

Definition GetOrCreate (now : Z) (sessionKey : bytes) (s : SessionStore) : Z * SessionStore :=
  let ref := ms_next s in
  if bool_decide (sessionKey = []) then
    (ref, mkStore (<[ref := newMapping]> (ms_objects s)) (ref + 1) (ms_sessions s) (ms_inflight s))
  else
    match ms_sessions s !! sessionKey with
    | Some rec =>
        (sr_mapping rec, mkStore (ms_objects s) (ms_next s)
           (<[sessionKey := mkSession (sr_mapping rec) now]> (ms_sessions s)) (ms_inflight s))
    | None =>
        match ms_inflight s !! sessionKey with
        | Some inf =>
            (in_mapping inf, mkStore (ms_objects s) (ms_next s) (ms_sessions s)
               (<[sessionKey := mkInflight (in_mapping inf) (in_refs inf + 1)]> (ms_inflight s)))
        | None =>
            (ref, mkStore (<[ref := mkMapping ∅ ∅ (Some sessionKey)]> (ms_objects s)) (ref + 1)
                    (ms_sessions s) (<[sessionKey := mkInflight ref 1]> (ms_inflight s)))
        end
    end.

Definition End_ (now : Z) (sessionKey : bytes) (s : SessionStore) : SessionStore :=
  if bool_decide (sessionKey = []) then s else
  let sessions :=
    match ms_sessions s !! sessionKey with
    | Some rec => <[sessionKey := mkSession (sr_mapping rec) now]> (ms_sessions s)
    | None => ms_sessions s
    end in
  let inflight :=
    match ms_inflight s !! sessionKey with
    | Some inf => if 0 <? in_refs inf - 1
                  then <[sessionKey := mkInflight (in_mapping inf) (in_refs inf - 1)]> (ms_inflight s)
                  else delete sessionKey (ms_inflight s)
    | None => ms_inflight s
    end in
  mkStore (ms_objects s) (ms_next s) sessions inflight.

Definition pruneExpiredLocked (now : Z) (sessions : gmap bytes sessionRecord) : Z * gmap bytes sessionRecord :=
  let kept := filter (fun kr => now - sr_lastAccess kr.2 < SessionTTL) sessions in
  (Z.of_nat (size sessions) - Z.of_nat (size kept), kept).

Section store.
Context `{ord : !MapOrder bytes}.
Variable maxMaskSessions : Z.

(** The scan for the record seen the longest time ago. *)
Definition oldest_session (sessions : gmap bytes sessionRecord) : option (bytes * Z) :=
  foldl (fun best kr =>
    match best with
    | Some (_, oldest) => if sr_lastAccess kr.2 <? oldest then Some (kr.1, sr_lastAccess kr.2) else best
    | None => Some (kr.1, sr_lastAccess kr.2)
    end) None (map_order sessions).

Fixpoint evict_loop (fuel : nat) (sessions : gmap bytes sessionRecord) : gmap bytes sessionRecord :=
  match fuel with
  | O => sessions
  | S fuel =>
      if maxMaskSessions <=? Z.of_nat (size sessions) then
        match oldest_session sessions with
        | Some (key, _) => if bool_decide (key = []) then sessions else evict_loop fuel (delete key sessions)
        | None => sessions
        end
      else sessions
  end.

(** Every turn removes a record, so the size is enough fuel. *)
Definition evictOldestLocked (sessions : gmap bytes sessionRecord) : gmap bytes sessionRecord :=
  if maxMaskSessions <? 1 then sessions else evict_loop (size sessions) sessions.

Definition publish_session (now : Z) (key : bytes) (ref : Z) (s : SessionStore) : SessionStore :=
  let inflight := delete key (ms_inflight s) in
  match ms_sessions s !! key with
  | Some _ => mkStore (ms_objects s) (ms_next s) (ms_sessions s) inflight
  | None =>
      let sessions := evictOldestLocked (pruneExpiredLocked now (ms_sessions s)).2 in
      mkStore (ms_objects s) (ms_next s) (<[key := mkSession ref now]> sessions) inflight
  end.

(** [Recall] on the mapping [ref] of the store: the first binding publishes. *)
Definition recall_in_store (now ref : Z) (original label : bytes) (random : list Z) (s : SessionStore)
  : option (bytes * SessionStore) :=
  m ← ms_objects s !! ref;
  '(token, m', _, bound) ← Recall original label random m;
  if (bound : bool) then
    let s' := mkStore (<[ref := mkMapping (m_forward m') (m_reverse m') None]> (ms_objects s)) (ms_next s)
                (ms_sessions s) (ms_inflight s) in
    Some (token, match m_onBind m with Some key => publish_session now key ref s' | None => s' end)
  else Some (token, s).

Definition Delete (sessionKey : bytes) (s : SessionStore) : SessionStore :=
  if bool_decide (sessionKey = []) then s
  else mkStore (ms_objects s) (ms_next s) (delete sessionKey (ms_sessions s)) (delete sessionKey (ms_inflight s)).

Definition PruneExpired (now : Z) (s : SessionStore) : Z * SessionStore :=
  let '(removed, sessions) := pruneExpiredLocked now (ms_sessions s) in
  (removed, mkStore (ms_objects s) (ms_next s) sessions (ms_inflight s)).
End store.

(** ** Tokens *)

Lemma Forall_nth_consonant i : (i < 20)%nat -> is_consonant (nth i consonants Ascii.zero) = true.
Proof.
  intros Hi. assert (Hall : forallb (fun i => is_consonant (nth i consonants Ascii.zero)) (seq 0 20) = true)
    by by vm_compute.
  rewrite forallb_forall in Hall. apply Hall. rewrite in_seq. lia.
Qed.

Lemma randConsonant_ok random c rest : randConsonant random = Some (c, rest) -> is_consonant c = true.
Proof.
  induction random as [|b random IH]; cbn [randConsonant]; [done|].
  destruct (b <? 240); [|done]. intros [= <- <-].
  pose proof (Z.mod_pos_bound b 20 ltac:(lia)) as Hb.
  apply (Forall_nth_consonant (Z.to_nat (b mod 20))). lia.
Qed.

Lemma genSuffix_ok n random suffix rest :
  genSuffix_loop n random = Some (suffix, rest) ->
  Forall (fun a => is_consonant a = true) suffix /\ length suffix = n.
Proof.
  revert random suffix rest. induction n as [|n IH]; intros random suffix rest; cbn [genSuffix_loop].
  { by intros [= <- <-]. }
  destruct (randConsonant random) as [[c random1]|] eqn:Hc; [|done]. cbn [mbind option_bind].
  destruct (genSuffix_loop n random1) as [[s random2]|] eqn:Hs; [|done]. cbn [mbind option_bind].
  intros [= <- <-]. destruct (IH _ _ _ Hs) as [Hall <-]. split; [|done].
  constructor; [by apply (randConsonant_ok random _ random1)|done].
Qed.

Lemma safeLabel_ok label :
  Forall (fun a => is_label_byte a = true) (safeLabel label) /\ (1 <= length (safeLabel label) <= 12)%nat.
Proof.
  unfold safeLabel. set (s := take 12 _). case_bool_decide as Hs.
  - split; [by repeat constructor|cbn; lia].
  - split; [|split; [destruct s; cbn; [done|lia]|unfold s; rewrite length_take; lia]].
    apply Forall_take, Forall_forall. by intros a [Ha _]%list_elem_of_filter.
Qed.

Lemma NewToken_shaped label random token rest :
  NewToken label random = Some (token, rest) -> exists l s, shaped token l s.
Proof.
  unfold NewToken, genSuffix. destruct (genSuffix_loop 6 random) as [[s random1]|] eqn:Hs; [|done].
  cbn [mbind option_bind]. intros [= <- <-]. apply genSuffix_ok in Hs as [Hc H6].
  destruct (safeLabel_ok label) as [Hl Hn]. exists (safeLabel label), s. by split.
Qed.

Lemma fresh_token_shaped n reverse label random token rest :
  fresh_token n reverse label random = Some (token, rest) -> exists l s, shaped token l s.
Proof.
  revert random. induction n as [|n IH]; intros random; cbn [fresh_token];
    destruct (NewToken label random) as [[t random1]|] eqn:Ht; cbn [mbind option_bind]; try done.
  - intros [= <- <-]. by apply NewToken_shaped in Ht.
  - destruct (is_some (reverse !! t)); [apply IH|]. intros [= <- <-]. by apply NewToken_shaped in Ht.
Qed.

Lemma restore_shaped rev token l s o :
  shaped token l s -> rev !! token = Some o -> restore rev token = o.
Proof.
  intros Hsh Ho. assert (Hm : match_placeholder token = Some (length token)).
  { apply match_iff. split; [done|]. rewrite take_ge by done. by exists l, s. }
  pose proof (match_bounds _ _ Hm). unfold restore. destruct token as [|a t]; [cbn in *; lia|].
  cbn [replace_all length]. cbn [length] in Hm. rewrite Hm, take_ge, drop_ge by (cbn; lia).
  unfold restore_token. rewrite Ho. destruct (length t); apply app_nil_r.
Qed.

(** ** Recall and restore *)

(** The two tables are inverse to each other; originals hold no placeholder and
    tokens are placeholders. *)
Record mapping_ok (m : Mapping) : Prop := {
  mo_inverse : forall o t, m_forward m !! o = Some t <-> m_reverse m !! t = Some o;
  mo_plain : forall o t, m_forward m !! o = Some t -> IsPlaceholder o = false;
  mo_token : forall o t, m_forward m !! o = Some t -> exists l s, shaped t l s;
}.

Lemma newMapping_ok : mapping_ok newMapping.
Proof. split; intros o t; cbn; rewrite ?lookup_empty; done. Qed.

(** C26: masking is a round trip.  [Recall] of a value that holds no placeholder
    returns a placeholder which the restorer turns back into exactly that value;
    every earlier binding of the session is kept, the tables stay inverse, and
    every later [Recall] of the same value, whatever its label, returns the same
    token.  The assumption excludes that twenty random tokens in a row were
    already taken. *)
Theorem recall_round_trip original label random m token m' rest bound :
  mapping_ok m -> IsPlaceholder original = false ->
  Recall original label random m = Some (token, m', rest, bound) ->
  (m_forward m !! original = None -> m_reverse m !! token = None) ->
  mapping_ok m' /\ RestoreString token (Some (m_reverse m')) = original /\
  Lookup token m' = Some original /\
  (forall o t, m_forward m !! o = Some t -> m_forward m' !! o = Some t /\ Lookup t m' = Some o) /\
  (forall label' random', Recall original label' random' m' = Some (token, m', random', false)).
Proof.
  intros Hm Hplain Hrec Hfresh. unfold Recall in Hrec. cbn [unwrap] in Hrec. rewrite Hplain in Hrec.
  assert (Hagain : forall t n', mapping_ok n' -> m_forward n' !! original = Some t ->
    RestoreString t (Some (m_reverse n')) = original /\ Lookup t n' = Some original /\
    forall label' random', Recall original label' random' n' = Some (t, n', random', false)).
  { intros t n' Hn Ht. destruct (mo_token _ Hn _ _ Ht) as (l & s & Hsh). apply (mo_inverse _ Hn) in Ht as Hr.
    rewrite RestoreString_Some, (restore_shaped _ _ _ _ _ Hsh Hr). split; [done|]. split; [done|].
    intros label' random'. unfold Recall. cbn [unwrap]. by rewrite Hplain, Ht. }
  destruct (m_forward m !! original) as [t|] eqn:Hf.
  { injection Hrec as <- <- <- <-. destruct (Hagain t m Hm Hf) as (H1 & H2 & H3).
    split; [done|]. split; [done|]. split; [done|]. split; [|done].
    intros o t' Ho. split; [done|]. by apply (mo_inverse _ Hm). }
  destruct (fresh_token 19 (m_reverse m) label random) as [[t random1]|] eqn:Ht; [|done].
  cbn [mbind option_bind] in Hrec. injection Hrec as <- <- <- <-. specialize (Hfresh eq_refl).
  pose proof (fresh_token_shaped _ _ _ _ _ _ Ht) as Hsh. clear Ht.
  set (m1 := mkMapping _ _ _). assert (Hm1 : mapping_ok m1).
  { split; intros o t'; cbn; rewrite ?lookup_insert.
    - case_decide; subst; case_decide; subst; [by split| | |].
      + split; [congruence|]. intros Hr. apply (mo_inverse _ Hm) in Hr. congruence.
      + split; [|congruence]. intros Ho. apply (mo_inverse _ Hm) in Ho. congruence.
      + apply (mo_inverse _ Hm).
    - case_decide; [by subst|]. apply (mo_plain _ Hm).
    - case_decide; [by intros [= <-]|]. apply (mo_token _ Hm). }
  destruct (Hagain t m1 Hm1 (lookup_insert_eq _ _ _)) as (H1 & H2 & H3).
  split; [done|]. split; [done|]. split; [done|]. split; [|done].
  intros o t' Ho. assert (o ≠ original) by congruence.
  assert (Ho1 : m_forward m1 !! o = Some t') by (cbn; by rewrite lookup_insert_ne by done).
  split; [done|]. by apply (mo_inverse _ Hm1).
Qed.

Definition demo_random : list Z := [250; 0; 1; 2; 3; 4; 5; 6].
Lemma recall_round_trip_witness :
  exists token m' rest bound,
    Recall (lit "13800138000") (lit "phone") demo_random newMapping = Some (token, m', rest, bound) /\
    RestoreString token (Some (m_reverse m')) = lit "13800138000".
Proof.
  assert (H : exists token m' rest bound,
    Recall (lit "13800138000") (lit "phone") demo_random newMapping = Some (token, m', rest, bound))
    by (do 4 eexists; vm_compute; reflexivity).
  destruct H as (token & m' & rest & bound & H). exists token, m', rest, bound. split; [exact H|].
  refine (proj1 (proj2 (recall_round_trip (lit "13800138000") (lit "phone") demo_random newMapping token m' rest bound
    newMapping_ok eq_refl H _))).
  intros _. apply lookup_empty.
Defined.

(** ** The store *)

Section store_facts.
Context `{ord : !MapOrder bytes}.
Variable maxMaskSessions : Z.
Implicit Types (s : SessionStore) (sessions : gmap bytes sessionRecord).

Lemma oldest_fold (l : list (bytes * sessionRecord)) (best : option (bytes * Z)) :
  let result := foldl (fun best kr =>
    match best with
    | Some (_, oldest) => if sr_lastAccess kr.2 <? oldest then Some (kr.1, sr_lastAccess kr.2) else best
    | None => Some (kr.1, sr_lastAccess kr.2)
    end) best l in
  match result with
  | Some (k, v) =>
      (best = Some (k, v) \/ exists rec, (k, rec) ∈ l /\ v = sr_lastAccess rec) /\
      (forall k' v', best = Some (k', v') -> v <= v') /\
      (forall k' rec', (k', rec') ∈ l -> v <= sr_lastAccess rec')
  | None => best = None /\ l = []
  end.
Proof.
  cbv zeta. revert best. induction l as [|[k0 rec0] l IH]; intros best; cbn [foldl fst snd].
  - destruct best as [[k v]|]; [|done]. split; [by left|]. split; [by intros k' v' [= _ <-]|].
    intros k' rec' Hin. by apply elem_of_nil in Hin.
  - set (best1 := match best with Some _ => _ | None => _ end). specialize (IH best1).
    assert (Hb1 : exists k1 v1, best1 = Some (k1, v1) /\ v1 <= sr_lastAccess rec0 /\
      (best = Some (k1, v1) \/ (k1, v1) = (k0, sr_lastAccess rec0)) /\
      (forall k' v', best = Some (k', v') -> v1 <= v')).
    { unfold best1. destruct best as [[kb vb]|].
      - destruct (Z.ltb_spec (sr_lastAccess rec0) vb); eexists _, _; (split; [done|]);
          (split; [lia|]); (split; [by auto|]); intros k' v' [= _ <-]; lia.
      - eexists _, _. split; [done|]. split; [lia|]. split; [by right|done]. }
    destruct Hb1 as (k1 & v1 & Heq & Hle & Hwhich & Hmin). rewrite Heq in *.
    destruct (foldl _ (Some (k1, v1)) l) as [[k v]|]; [|by destruct IH].
    destruct IH as (Hin & Hbest & Hall). specialize (Hbest k1 v1 eq_refl). split; [|split].
    + destruct Hin as [[= <- <-]|(rec & Hrec & Hv)]; [|right; exists rec; split; [by right|done]].
      destruct Hwhich as [->|[= -> ->]]; [by left|]. right. exists rec0. split; [by left|done].
    + intros k' v' Hb. specialize (Hmin k' v' Hb). lia.
    + intros k' rec' [[= -> ->]|Hin']%elem_of_cons; [lia|by apply (Hall k')].
Qed.

Lemma oldest_spec sessions :
  match oldest_session sessions with
  | Some (k, v) => (exists rec, sessions !! k = Some rec /\ v = sr_lastAccess rec) /\
      forall k' rec', sessions !! k' = Some rec' -> v <= sr_lastAccess rec'
  | None => sessions = ∅
  end.
Proof.
  pose proof (oldest_fold (map_order sessions) None) as H. cbv zeta in H. unfold oldest_session.
  destruct (foldl _ None (map_order sessions)) as [[k v]|].
  - destruct H as ([?|(rec & Hin & Hv)] & _ & Hall); [done|]. split.
    + exists rec. by rewrite elem_of_map_order in Hin.
    + intros k' rec' Hk'. apply (Hall k'). by apply elem_of_map_order.
  - destruct H as [_ Hnil]. by apply map_order_nil.
Qed.

(** What is evicted was seen no later than what is kept, and there is room. *)
Lemma evict_loop_spec fuel sessions :
  1 <= maxMaskSessions -> sessions !! [] = None -> (size sessions <= fuel)%nat ->
  let kept := evict_loop maxMaskSessions fuel sessions in
  Z.of_nat (size kept) < maxMaskSessions /\ kept ⊆ sessions /\
  forall k rec k' rec', sessions !! k = Some rec -> kept !! k = None -> kept !! k' = Some rec' ->
    sr_lastAccess rec <= sr_lastAccess rec'.
Proof.
  intros Hmax. revert sessions. induction fuel as [|fuel IH]; intros sessions Hnil Hfuel; cbn [evict_loop].
  { split; [lia|]. split; [done|]. intros. simplify_eq. }
  destruct (Z.leb_spec maxMaskSessions (Z.of_nat (size sessions))) as [Hfull|Hroom].
  2:{ split; [lia|]. split; [done|]. intros. simplify_eq. }
  pose proof (oldest_spec sessions) as Hold. destruct (oldest_session sessions) as [[k v]|].
  2:{ subst. rewrite map_size_empty in Hfull. lia. }
  destruct Hold as ((rec & Hk & ->) & Hmin). rewrite bool_decide_false by (intros ->; congruence).
  assert (Hsize : size sessions = S (size (delete k sessions))).
  { rewrite <- (insert_delete_id sessions k rec) at 1 by done. by rewrite map_size_insert_None by apply lookup_delete_eq. }
  destruct (IH (delete k sessions)) as (Hlt & Hsub & Hold); [by rewrite lookup_delete_None; right|lia|].
  split; [done|]. split; [etrans; [exact Hsub|apply delete_subseteq]|].
  intros k1 rec1 k2 rec2 H1 Hn H2. destruct (decide (k1 = k)) as [->|Hne].
  - simplify_eq. apply (Hmin k2). assert (Hd := lookup_weaken _ _ _ _ H2 Hsub).
    by apply lookup_delete_Some in Hd as [_ ?].
  - apply (Hold k1 rec1 k2 rec2); [by rewrite lookup_delete_ne|done|done].
Qed.

(** Sessions and mappings never use the empty key, and the table is bounded. *)
Record store_ok s : Prop := {
  so_size : Z.of_nat (size (ms_sessions s)) <= maxMaskSessions;
  so_key : ms_sessions s !! [] = None;
  so_bind : forall ref m, ms_objects s !! ref = Some m -> m_onBind m ≠ Some [];
}.

Inductive store_step s : SessionStore -> Prop :=
| st_get now key : store_step s (GetOrCreate now key s).2
| st_end now key : store_step s (End_ now key s)
| st_recall now ref original label random token s' :
    recall_in_store maxMaskSessions now ref original label random s = Some (token, s') -> store_step s s'
| st_delete key : store_step s (Delete key s)
| st_prune now : store_step s (PruneExpired now s).2.

Lemma size_sub sessions sessions' : sessions' ⊆ sessions -> (size sessions' <= size sessions)%nat.
Proof. intros Hsub. rewrite <- !size_dom. by apply subseteq_size, subseteq_dom. Qed.

Lemma prune_sub now sessions : (pruneExpiredLocked now sessions).2 ⊆ sessions.
Proof. apply map_filter_subseteq. Qed.

Lemma sub_none sessions sessions' k : sessions' ⊆ sessions -> sessions !! k = None -> sessions' !! k = None.
Proof. intros Hsub Hk. by apply (lookup_weaken_None _ _ _ Hk). Qed.

Lemma refresh_size key rec0 rec sessions :
  sessions !! key = Some rec0 -> size (<[key := rec]> sessions) = size sessions.
Proof. intros Hk. by apply map_size_insert_Some. Qed.

Lemma publish_ok_store now key ref s :
  1 <= maxMaskSessions -> store_ok s -> key ≠ [] -> store_ok (publish_session maxMaskSessions now key ref s).
Proof.
  intros Hmax [Hs Hk Hb] Hne. unfold publish_session. destruct (ms_sessions s !! key) as [rec|]; [by split|].
  unfold evictOldestLocked. destruct (Z.ltb_spec maxMaskSessions 1); [lia|].
  set (pruned := (pruneExpiredLocked now (ms_sessions s)).2).
  destruct (evict_loop_spec (size pruned) pruned) as (Hlt & Hsub & _);
    [done|by apply (sub_none _ _ _ (prune_sub now (ms_sessions s)))|lia|].
  split; cbn [ms_sessions ms_objects]; [| |done].
  - rewrite map_size_insert. fold pruned. case_match; unfold id; lia.
  - rewrite lookup_insert_ne by done. eapply sub_none; [exact Hsub|]. by apply (sub_none _ _ _ (prune_sub now _)).
Qed.

Lemma store_step_ok s s' : 1 <= maxMaskSessions -> store_step s s' -> store_ok s -> store_ok s'.
Proof.
  intros Hmax Hstep Hok. pose proof Hok as [Hs Hk Hb]. destruct Hstep as [now key|now key|now ref o l rnd tok s' Hr|key|now].
  - unfold GetOrCreate. case_bool_decide as Hkey; cbn [snd].
    { split; cbn; [done|done|]. intros ref m. rewrite lookup_insert. case_decide; [by intros [= <-]|apply Hb]. }
    destruct (ms_sessions s !! key) as [rec|] eqn:Hrec; cbn [snd].
    { split; cbn; [by rewrite (refresh_size _ rec)|by rewrite lookup_insert_ne|done]. }
    destruct (ms_inflight s !! key); cbn [snd]; split; cbn; try done.
    intros ref m. rewrite lookup_insert. case_decide; [|apply Hb]. intros [= <-]. cbn. congruence.
  - unfold End_. case_bool_decide as Hkey; [done|].
    destruct (ms_sessions s !! key) as [rec|] eqn:Hrec; split; cbn; try done;
      [by rewrite (refresh_size _ rec)|by rewrite lookup_insert_ne].
  - unfold recall_in_store in Hr. destruct (ms_objects s !! ref) as [m|] eqn:Hm; [|done]. cbn [mbind option_bind] in Hr.
    destruct (Recall o l rnd m) as [[[[t m'] rest] bound]|]; [|done]. cbn [mbind option_bind] in Hr.
    destruct bound; [|by simplify_eq]. set (s1 := mkStore _ _ _ _) in Hr.
    assert (Hs1 : store_ok s1).
    { split; cbn; [done|done|]. intros r' m1. rewrite lookup_insert. case_decide; [by intros [= <-]|apply Hb]. }
    destruct (m_onBind m) as [key|] eqn:Hon; simplify_eq; [|done]. apply publish_ok_store; [done..|].
    intros ->. by apply (Hb _ _ Hm).
  - unfold Delete. case_bool_decide; [done|]. split; cbn; [|by rewrite lookup_delete_None; right|done].
    pose proof (size_sub _ _ (delete_subseteq (ms_sessions s) key)). lia.
  - unfold PruneExpired. pose proof (prune_sub now (ms_sessions s)) as Hsub.
    destruct (pruneExpiredLocked now (ms_sessions s)) as [n kept]. cbn in *.
    split; cbn; [|by apply (sub_none _ _ _ Hsub)|done]. pose proof (size_sub _ _ Hsub). lia.
Qed.

(** In every interleaving of requests the table of sessions stays within its
    limit, whatever the order in which the map is scanned: publishing a session
    first drops the expired ones and then those seen the longest time ago. *)
Theorem mask_sessions_bounded s :
  1 <= maxMaskSessions -> rtc store_step NewSessionStore s ->
  Z.of_nat (size (ms_sessions s)) <= maxMaskSessions /\
  forall now key ref k rec k' rec',
    let s' := publish_session maxMaskSessions now key ref s in
    ms_sessions s !! key = None -> ms_sessions s !! k = Some rec -> now - sr_lastAccess rec < SessionTTL ->
    ms_sessions s' !! k = None -> k' ≠ key -> ms_sessions s' !! k' = Some rec' ->
    sr_lastAccess rec <= sr_lastAccess rec'.
Proof.
  intros Hmax Hsteps. assert (Hok : store_ok s).
  { enough (forall s0 s1, rtc store_step s0 s1 -> store_ok s0 -> store_ok s1) as H.
    { apply (H _ _ Hsteps). split; cbn; [by rewrite map_size_empty; lia|done|].
      intros ref m Hm. by rewrite lookup_empty in Hm. }
    clear Hsteps. induction 1; [done|]. intros. by apply IHrtc, (store_step_ok x). }
  split; [apply Hok|]. intros now key ref k rec k' rec' s' Hkey Hk Hfresh Hgone Hne Hkept.
  unfold s', publish_session in Hgone, Hkept. rewrite Hkey in Hgone, Hkept. cbn in Hgone, Hkept.
  unfold evictOldestLocked in Hgone, Hkept. destruct (Z.ltb_spec maxMaskSessions 1); [lia|].
  set (pruned := filter _ _) in *. apply lookup_insert_None in Hgone as [Hgone _].
  rewrite lookup_insert_ne in Hkept by done.
  destruct (evict_loop_spec (size pruned) pruned) as (_ & _ & Hold); [done| |lia|].
  - apply (sub_none _ _ _ (prune_sub now _)), Hok.
  - apply (Hold k rec k' rec'); [|done|done]. by apply map_lookup_filter_Some.
Qed.
End store_facts.

(** ** Witnesses *)

Definition demo_store : SessionStore := (GetOrCreate 5 (lit "s") NewSessionStore).2.

Lemma mask_sessions_bounded_witness : Z.of_nat (size (ms_sessions demo_store)) <= 4096.
Proof.
  refine (proj1 (mask_sessions_bounded 4096 demo_store _ _)); [lia|].
  eapply rtc_l; [exact (st_get 4096 NewSessionStore 5 (lit "s"))|reflexivity].
Defined.
