(* ===== verification/Eviction.v ===== *)
(** * Bounded tables of recent clients

    Two tables drop the least recently seen half of their entries when they are
    full: the client addresses of relay/state.go and the rate limiters of
    server/middleware/admin_ratelimit.go.  [sort.Slice] is not stable; the order
    of equal times is that of the unspecified map order. *)

From S2P Require Import Prelude GoStrings.
#[local] Set Default Proof Using "Type*".

Section evict.
Context `{Countable K} `{ord : !MapOrder K} {V : Type} (seen : V -> Z).
Implicit Types m : gmap K V.

Definition seen_before (a b : K * V) : Prop := seen a.2 <= seen b.2.
#[local] Instance seen_before_dec a b : Decision (seen_before a b) := Z_le_dec _ _.
#[local] Instance seen_before_total : Total seen_before.
Proof. intros a b. unfold seen_before. lia. Qed.
#[local] Instance seen_before_trans : Transitive seen_before.
Proof. intros a b c. unfold seen_before. lia. Qed.

Definition by_seen m : list (K * V) := merge_sort seen_before (map_order m).

Definition evict_oldest (n : Z) m : gmap K V :=
  if n <=? 0 then m else
  let entries := by_seen m in
  let n := if Z.of_nat (length entries) <? n then Z.of_nat (length entries) else n in
  foldl (fun m e => delete e.1 m) m (take (Z.to_nat n) entries).

Lemma delete_all_lookup (l : list (K * V)) m k :
  foldl (fun m e => delete e.1 m) m l !! k = if decide (k ∈ l.*1) then None else m !! k.
Proof.
  revert m. induction l as [|[k0 v0] l IH]; intros m; cbn [foldl].
  { case_decide as Hin; [by apply elem_of_nil in Hin|done]. }
  rewrite IH. cbn. case_decide as H1; case_decide as H2; rewrite ?elem_of_cons in *; try tauto.
  - destruct H2 as [->|?]; [|tauto]. apply lookup_delete_eq.
  - apply lookup_delete_ne. intros ->. tauto.
Qed.

Lemma by_seen_perm m : by_seen m ≡ₚ map_to_list m.
Proof. unfold by_seen. by rewrite merge_sort_Permutation, map_order_perm. Qed.

Lemma by_seen_in m k v : (k, v) ∈ by_seen m <-> m !! k = Some v.
Proof. by rewrite by_seen_perm, elem_of_map_to_list. Qed.

Lemma by_seen_keys m : NoDup (by_seen m).*1.
Proof. rewrite by_seen_perm. apply NoDup_fst_map_to_list. Qed.

Lemma by_seen_length m : length (by_seen m) = size m.
Proof. by rewrite by_seen_perm, length_map_to_list. Qed.

(** Everything dropped was seen no later than everything kept; when something has
    to go, exactly [n] entries do. *)
Lemma evict_oldest_spec n m :
  0 <= n <= Z.of_nat (size m) ->
  Z.of_nat (size (evict_oldest n m)) = Z.of_nat (size m) - n /\ evict_oldest n m ⊆ m /\
  forall k v k' v', m !! k = Some v -> evict_oldest n m !! k = None -> evict_oldest n m !! k' = Some v' ->
    seen v <= seen v'.
Proof.
  intros Hn. unfold evict_oldest. destruct (Z.leb_spec n 0).
  { split; [lia|]. split; [done|]. intros. congruence. }
  rewrite by_seen_length. destruct (Z.ltb_spec (Z.of_nat (size m)) n); [lia|].
  set (gone := take (Z.to_nat n) (by_seen m)).
  set (m' := foldl _ m gone). assert (Hlook : forall k, m' !! k = if decide (k ∈ gone.*1) then None else m !! k)
    by (intros k; apply delete_all_lookup). clearbody m'.
  assert (Hdom : dom m' = dom m ∖ list_to_set gone.*1).
  { apply set_eq. intros k. rewrite elem_of_difference, elem_of_list_to_set, !elem_of_dom, Hlook.
    case_decide; split; intros Hx; try tauto; by destruct Hx. }
  assert (Hsub : gone.*1 ⊆ (by_seen m).*1).
  { unfold gone. rewrite <- (take_drop (Z.to_nat n) (by_seen m)) at 2. rewrite fmap_app. set_solver. }
  split; [|split].
  - rewrite <- !size_dom, Hdom, size_difference.
    + rewrite size_list_to_set; [rewrite length_fmap; unfold gone; rewrite length_take, by_seen_length, size_dom; lia|].
      unfold gone. rewrite fmap_take. apply (NoDup_app (take _ _) (drop (Z.to_nat n) (by_seen m).*1)).
      rewrite take_drop. apply by_seen_keys.
    + intros k [[k1 v1] [-> Hk]]%elem_of_list_to_set%Hsub%list_elem_of_fmap. apply by_seen_in in Hk.
      by apply elem_of_dom_2 in Hk.
  - apply map_subseteq_spec. intros k v. rewrite Hlook. by case_decide.
  - intros k v k' v' Hk Hnone Hsome. rewrite Hlook in Hnone, Hsome.
    destruct (decide (k ∈ gone.*1)) as [Hin|]; [|congruence].
    destruct (decide (k' ∈ gone.*1)) as [|Hout]; [done|].
    assert (Hin' : (k, v) ∈ gone).
    { apply list_elem_of_fmap in Hin as ([k1 v1] & -> & Hin1). cbn in *.
      assert (Hk1 : m !! k1 = Some v1) by (apply by_seen_in; by apply elem_of_take in Hin1 as (? & ?%list_elem_of_lookup_2 & _)).
      by simplify_eq. }
    assert (Hrest : (k', v') ∈ drop (Z.to_nat n) (by_seen m)).
    { pose proof (proj2 (by_seen_in m k' v') Hsome) as Hb.
      rewrite <- (take_drop (Z.to_nat n) (by_seen m)), elem_of_app in Hb. destruct Hb as [Hb|]; [|done].
      exfalso. apply Hout. apply list_elem_of_fmap. by exists (k', v'). }
    pose proof (StronglySorted_merge_sort seen_before (map_order m)) as Hsorted. fold (by_seen m) in Hsorted.
    rewrite <- (take_drop (Z.to_nat n) (by_seen m)) in Hsorted.
    by apply (StronglySorted_app_1_elem_of _ _ _ (k, v) (k', v') Hsorted).
Qed.
End evict.

Definition maxClientIPs : Z := 4096.
Definition adminRateLimitMaxKeys : Z := 4096.

Section tables.
Context `{ord : !MapOrder string}.

(** ** relay/state.go: the addresses seen *)

Definition evictOldestClientIPsLocked (n : Z) (ips : gmap string Z) : gmap string Z := evict_oldest id n ips.

Definition trackClientRequest (now : Z) (clientIP : string) (s : Z * gmap string Z) : Z * gmap string Z :=
  let '(total, ips) := s in
  let total := (total + 1) mod 2 ^ 64 in
  if bool_decide (clientIP = "") then (total, ips) else
  let ips := if negb (is_some (ips !! clientIP)) && (maxClientIPs <=? Z.of_nat (size ips))
             then evictOldestClientIPsLocked (Z.quot (Z.of_nat (size ips)) 2) ips else ips in
  (total, <[clientIP := now]> ips).

(** ** server/middleware/admin_ratelimit.go: the limiters

    A limiter belongs to a library; [fresh] is the one the configuration asks
    for. *)
Context {Limiter : Type}.

Definition adminRateKey (ip path : string) : string := ip +:+ "|" +:+ path.

Definition adminRateEvictOldestLocked (n : Z) (m : gmap string (Limiter * Z)) : gmap string (Limiter * Z) :=
  evict_oldest snd n m.

Definition adminRateLimiterFor (now : Z) (ip path : string) (fresh : Limiter)
    (limits : gmap string (Limiter * Z)) : Limiter * gmap string (Limiter * Z) :=
  let key := adminRateKey ip path in
  match limits !! key with
  | Some (l, _) => (l, <[key := (l, now)]> limits)
  | None =>
      let limits := if adminRateLimitMaxKeys <=? Z.of_nat (size limits)
                    then adminRateEvictOldestLocked (Z.quot (Z.of_nat (size limits)) 2) limits else limits in
      (fresh, <[key := (fresh, now)]> limits)
  end.

(** ** Both tables *)

Lemma half_size (n : nat) : 0 <= Z.quot (Z.of_nat n) 2 <= Z.of_nat n.
Proof. rewrite Z.quot_div_nonneg by lia. pose proof (Z.div_le_upper_bound (Z.of_nat n) 2 (Z.of_nat n)).
  pose proof (Z.div_pos (Z.of_nat n) 2). lia. Qed.

Lemma insert_size {V} (k : string) (v : V) (m : gmap string V) : (size (<[k := v]> m) <= S (size m))%nat.
Proof. rewrite map_size_insert. case_match; unfold id; lia. Qed.

Lemma evict_half_room {V} (seen : V -> Z) (m : gmap string V) :
  4096 <= Z.of_nat (size m) <= 4096 ->
  Z.of_nat (size (evict_oldest seen (Z.quot (Z.of_nat (size m)) 2) m)) = 2048.
Proof.
  intros Hm. destruct (evict_oldest_spec seen (Z.quot (Z.of_nat (size m)) 2) m (half_size _)) as (-> & _).
  replace (Z.of_nat (size m)) with 4096 by lia. done.
Qed.

(** Neither table ever exceeds its limit; the client just seen is in the
    table and keeps its own limiter, and when entries are dropped, nothing that
    stays was seen earlier than anything that goes. *)
Theorem recent_clients_kept now ip path (fresh : Limiter) limits total ips :
  Z.of_nat (size limits) <= adminRateLimitMaxKeys -> Z.of_nat (size ips) <= maxClientIPs ->
  let '(l, limits') := adminRateLimiterFor now ip path fresh limits in
  let ips' := (trackClientRequest now ip (total, ips)).2 in
  Z.of_nat (size limits') <= adminRateLimitMaxKeys /\ limits' !! adminRateKey ip path = Some (l, now) /\
  (forall l0 t, limits !! adminRateKey ip path = Some (l0, t) -> l = l0) /\
  (forall k e k' e', limits !! k = Some e -> limits' !! k = None -> k' ≠ adminRateKey ip path ->
     limits' !! k' = Some e' -> e.2 <= e'.2) /\
  Z.of_nat (size ips') <= maxClientIPs /\ (ip ≠ "" -> ips' !! ip = Some now) /\
  (forall k t k' t', ips !! k = Some t -> ips' !! k = None -> k' ≠ ip -> ips' !! k' = Some t' -> t <= t').
Proof.
  intros Hl Hi. unfold adminRateLimiterFor. unfold adminRateLimitMaxKeys, maxClientIPs in *.
  set (key := adminRateKey ip path).
  assert (Hips : let ips' := (trackClientRequest now ip (total, ips)).2 in
    Z.of_nat (size ips') <= 4096 /\ (ip ≠ "" -> ips' !! ip = Some now) /\
    (forall k t k' t', ips !! k = Some t -> ips' !! k = None -> k' ≠ ip -> ips' !! k' = Some t' -> t <= t')).
  { cbv zeta. unfold trackClientRequest. case_bool_decide as Hip; cbn [snd].
    { split; [done|]. split; [done|]. intros. congruence. }
    unfold maxClientIPs, evictOldestClientIPsLocked. set (full := negb _ && _).
    pose proof (evict_oldest_spec (@id Z) (Z.quot (Z.of_nat (size ips)) 2) ips (half_size _)) as (Hsz & Hsub & Hold).
    pose proof (evict_half_room (@id Z) ips) as Hhalf.
    split; [|split; [by intros _; rewrite lookup_insert_eq|]].
    - pose proof (insert_size ip now (if full then evict_oldest id (Z.quot (Z.of_nat (size ips)) 2) ips else ips)) as Hins.
      destruct full eqn:Hfull; [unfold full in Hfull; lia|]. unfold full in Hfull.
      apply andb_false_iff in Hfull as [Hfull|Hfull]; [|lia].
      destruct (ips !! ip) eqn:Hin; [|done]. by rewrite map_size_insert, Hin.
    - intros k t k' t' Hk Hnone Hne. rewrite lookup_insert_ne by done.
      apply lookup_insert_None in Hnone as [Hnone _]. intros Hk'.
      destruct full; [by apply (Hold k t k' t')|congruence]. }
  destruct (limits !! key) as [[l0 t0]|] eqn:Hkey.
  - split; [by rewrite map_size_insert, Hkey|]. split; [by rewrite lookup_insert_eq|].
    split; [by intros l1 t [= -> ->]|]. split; [|exact Hips].
    intros k e k' e' Hk Hnone. apply lookup_insert_None in Hnone as [? _]. congruence.
  - unfold adminRateEvictOldestLocked.
    pose proof (evict_oldest_spec (@snd Limiter Z) (Z.quot (Z.of_nat (size limits)) 2) limits (half_size _)) as (Hsz & _ & Hold).
    pose proof (evict_half_room (@snd Limiter Z) limits) as Hhalf.
    split; [|split; [by rewrite lookup_insert_eq|split; [done|split; [|exact Hips]]]].
    + pose proof (insert_size key (fresh, now) (if 4096 <=? Z.of_nat (size limits)
        then evict_oldest snd (Z.quot (Z.of_nat (size limits)) 2) limits else limits)) as Hins.
      destruct (Z.leb_spec 4096 (Z.of_nat (size limits))); lia.
    + intros k e k' e' Hk Hnone Hne. rewrite lookup_insert_ne by done.
      apply lookup_insert_None in Hnone as [Hnone _]. intros Hk'.
      destruct (4096 <=? Z.of_nat (size limits)); [by apply (Hold k e k' e')|congruence].
Qed.
End tables.

Lemma recent_clients_kept_witness :
  (trackClientRequest 7 "10.0.0.1" (0, ∅)).2 !! "10.0.0.1" = Some 7.
Proof.
  assert (H1 : Z.of_nat (size (∅ : gmap string (unit * Z))) <= adminRateLimitMaxKeys) by discriminate.
  assert (H2 : Z.of_nat (size (∅ : gmap string Z)) <= maxClientIPs) by discriminate.
  pose proof (recent_clients_kept 7 "10.0.0.1" "/api" tt ∅ 0 ∅ H1 H2) as H.
  destruct (adminRateLimiterFor 7 "10.0.0.1" "/api" tt ∅) as [l limits'].
  assert (Hne : "10.0.0.1" ≠ "") by done.
  exact (proj1 (proj2 (proj2 (proj2 (proj2 (proj2 H))))) Hne).
Defined.
