(* ===== verification/Diff.v ===== *)
(** * Multiset difference

    internal/utils/diff/diff.go. *)

From Stdlib Require Import Permutation List.
From S2P Require Import Prelude.
#[local] Set Default Proof Using "Type*".

Section diff.
Context `{Countable T} `{ord : !MapOrder T}.
Implicit Types (old new l : list T) (m : gmap T Z).

(** [for _, v := range old { m[v]++ }]. *)
Definition count_old old : gmap T Z := foldl (fun m v => <[v := m.[v] + 1]> m) ∅ old.

(** The second loop: an element is matched with a counted one or is new. *)
Fixpoint match_new new m : gmap T Z * list T :=
  match new with
  | [] => (m, [])
  | v :: new =>
      if 0 <? m.[v] then match_new new (<[v := m.[v] - 1]> m)
      else let '(m, added) := match_new new m in (m, v :: added)
  end.

Definition DiffSets old new : list T * list T :=
  let '(m, added) := match_new new (count_old old) in
  (map_order m ≫= (fun kc => replicate (Z.to_nat kc.2) kc.1), added).

(** ** Counting *)

Notation occ := (count_occ (decide_rel (@eq T))).

Lemma occ_replicate n (k x : T) : occ (replicate n k) x = if decide (k = x) then n else 0%nat.
Proof.
  induction n as [|n IH]; [by case_decide|]. cbn [replicate]. case_decide as Hk.
  - rewrite count_occ_cons_eq by done. lia.
  - by rewrite count_occ_cons_neq by done.
Qed.

Lemma occ_expand (l : list (T * Z)) x :
  NoDup l.*1 ->
  occ (l ≫= (fun kc => replicate (Z.to_nat kc.2) kc.1)) x
    = Z.to_nat (default 0 (list_to_map (M := gmap T Z) l !! x)).
Proof.
  induction l as [|[k c] l IH]; cbn; intros Hnd; [by rewrite lookup_empty|].
  apply NoDup_cons in Hnd as [Hk Hnd]. rewrite count_occ_app, occ_replicate, (IH Hnd), lookup_insert.
  case_decide; [|done]. subst. cbn. rewrite (not_elem_of_list_to_map_1 _ _ Hk). cbn. lia.
Qed.

Lemma occ_deleted m x : occ (map_order m ≫= (fun kc => replicate (Z.to_nat kc.2) kc.1)) x = Z.to_nat m.[x].
Proof.
  rewrite occ_expand by (rewrite map_order_perm; apply NoDup_fst_map_to_list).
  rewrite (list_to_map_proper _ (map_to_list m)) by
    ((rewrite map_order_perm; apply NoDup_fst_map_to_list) || apply map_order_perm).
  by rewrite list_to_map_to_list.
Qed.

Lemma count_old_spec old m :
  (forall x, 0 <= m.[x]) ->
  forall x, (foldl (fun m v => <[v := m.[v] + 1]> m) m old).[x] = m.[x] + Z.of_nat (occ old x).
Proof.
  revert m. induction old as [|v old IH]; intros m Hm x; [cbn; lia|]. cbn [foldl]. rewrite IH.
  - destruct (decide (v = x)) as [->|Hv]; [rewrite lookup_insert_eq, count_occ_cons_eq by done; cbn; lia|].
    by rewrite lookup_insert_ne, count_occ_cons_neq by done.
  - intros y. rewrite lookup_insert. case_decide; cbn; [specialize (Hm v); lia|apply Hm].
Qed.

(** What is left of every count, and what is added beyond it. *)
Lemma match_new_spec new m x :
  (forall x, 0 <= m.[x]) ->
  let '(m', added) := match_new new m in
  m'.[x] = Z.max 0 (m.[x] - Z.of_nat (occ new x)) /\
  Z.of_nat (occ added x) = Z.max 0 (Z.of_nat (occ new x) - m.[x]).
Proof.
  revert m. induction new as [|v new IH]; intros m Hm; cbn [match_new].
  { cbn. specialize (Hm x). lia. }
  destruct (Z.ltb_spec 0 (m.[v])) as [Hv|Hv].
  - specialize (IH (<[v := m.[v] - 1]> m)). destruct (match_new new _) as [m' added].
    destruct IH as [-> ->].
    { intros y. rewrite lookup_insert. case_decide; cbn; [lia|apply Hm]. }
    destruct (decide (v = x)) as [->|Hne]; [rewrite lookup_insert_eq, count_occ_cons_eq by done; cbn; lia|].
    rewrite lookup_insert_ne, count_occ_cons_neq by done. lia.
  - specialize (IH m Hm). destruct (match_new new m) as [m' added]. destruct IH as [-> Ha].
    specialize (Hm v). destruct (decide (v = x)) as [->|Hne];
      [rewrite !count_occ_cons_eq by done|rewrite !count_occ_cons_neq by done]; lia.
Qed.

(** The difference of two multisets: what is deleted from the old one and
    what is added in the new one account for all elements with their
    multiplicities, and nothing is both deleted and added, in whatever order the
    map is visited. *)
Theorem DiffSets_spec old new :
  let '(deleted, added) := DiffSets old new in
  new ++ deleted ≡ₚ old ++ added /\ (forall x, x ∈ deleted -> x ∉ added).
Proof.
  unfold DiffSets. destruct (match_new new (count_old old)) as [m added] eqn:Hm.
  assert (H0 : forall x : T, 0 <= (∅ : gmap T Z).[x]) by (intros x; by rewrite lookup_empty).
  assert (Hc : forall x, (count_old old).[x] = Z.of_nat (occ old x))
    by (intros x; unfold count_old; rewrite count_old_spec by done; by rewrite lookup_empty).
  assert (Hx : forall x, m.[x] = Z.max 0 (Z.of_nat (occ old x) - Z.of_nat (occ new x)) /\
    Z.of_nat (occ added x) = Z.max 0 (Z.of_nat (occ new x) - Z.of_nat (occ old x))).
  { intros x. pose proof (match_new_spec new (count_old old) x) as H1. rewrite Hm in H1.
    rewrite <- (Hc x). apply H1. intros y. rewrite Hc. lia. }
  split.
  - apply (Permutation_count_occ (decide_rel (@eq T))). intros x. rewrite !count_occ_app, occ_deleted.
    destruct (Hx x) as [-> Ha]. lia.
  - intros x Hdel Hadd. apply list_elem_of_In in Hdel, Hadd.
    apply (count_occ_In (decide_rel (@eq T))) in Hdel, Hadd. rewrite occ_deleted in Hdel.
    destruct (Hx x) as [Hd Ha]. lia.
Qed.
End diff.
