(* ===== verification/GroupOps.v ===== *)
(** * Editing groups

    op/group.go.  The caches [groupCache] and [groupNameIndex] are the maps of
    [GroupStore]; the database transactions are the updates of the rows they
    contain.  A reference from one group to another is checked when a group is
    created or edited, so that resolution at run time never meets a cycle. *)

From S2P Require Import Prelude GoStrings Utf8 Float64 GroupModel.

Inductive group_error :=
| ErrGroupNameRequired | ErrGroupNotFound | ErrGroupRefTargetMissing | ErrGroupReferencedBy
| ErrGroupItemMissingTarget | ErrGroupDuplicateRef | ErrGroupDuplicateMember
| ErrGroupSelfReference | ErrGroupRefDepthExceeded | ErrGroupRefCycle
| PlainError (text : string)               (** [fmt.Errorf] without a sentinel *)
| ErrDatabase.

(** server/handlers/group.go: [writeGroupOpError], the HTTP status. *)
Definition writeGroupOpError (err : group_error) : Z :=
  match err with
  | ErrGroupNotFound => 404
  | ErrGroupRefTargetMissing => 400
  | ErrGroupReferencedBy => 409
  | ErrGroupNameRequired | ErrGroupItemMissingTarget | ErrGroupDuplicateRef | ErrGroupDuplicateMember
  | ErrGroupSelfReference | ErrGroupRefDepthExceeded | ErrGroupRefCycle => 400
  | PlainError _ | ErrDatabase => 500
  end.

Record GroupStore := mkGroups {
  gs_cache : gmap Z Group;                 (** [groupCache] and the table [groups] *)
  gs_names : gmap string Z;                (** [groupNameIndex] *)
  gs_models : gmap Z ChannelModel;         (** the channel models that exist *)
}.

Implicit Types (s : GroupStore) (items : list GroupItem).

(** ** Reading *)

Definition ChannelModelGet s (id : Z) : option ChannelModel := gs_models s !! id.

Definition groupSnapshot s (group : Group) : Group :=
  mkGroup (g_ID group) (g_Name group) (g_Mode group) (g_ActiveItemID group) (g_RelayConfig group)
    ((fun i => mkItem (item_ID i) (item_ChannelModelID i) (item_RefGroupName i)
                 (ChannelModelGet s (item_ChannelModelID i)) (item_Priority i)) <$> g_Items group).

Definition GroupGetByName s (name : string) : option Group :=
  groupID ← gs_names s !! name;
  groupSnapshot s <$> gs_cache s !! groupID.

(** ** Validation *)

Definition trim_item (i : GroupItem) : GroupItem :=
  mkItem (item_ID i) (item_ChannelModelID i) (TrimSpace (item_RefGroupName i)) (item_ChannelModel i)
    (item_Priority i).

(** The items with trimmed names, or the error of the first invalid one. *)
Definition normalizeAndValidateGroupItems s items : list GroupItem + group_error :=
  let items := trim_item <$> items in
  if forallb (fun i => IsGroupRef i ||
       (negb (item_ChannelModelID i =? 0) && is_some (ChannelModelGet s (item_ChannelModelID i)))) items
  then inl items else inr ErrGroupItemMissingTarget.

Fixpoint check_duplicates items (channelModelSeen : gset Z) (refSeen : gset string) : option group_error :=
  match items with
  | [] => None
  | item :: items =>
      if IsGroupRef item then
        if bool_decide (item_RefGroupName item ∈ refSeen) then Some ErrGroupDuplicateRef
        else check_duplicates items channelModelSeen ({[item_RefGroupName item]} ∪ refSeen)
      else if item_ChannelModelID item =? 0 then Some ErrGroupDuplicateMember
      else if bool_decide (item_ChannelModelID item ∈ channelModelSeen) then Some ErrGroupDuplicateMember
      else check_duplicates items ({[item_ChannelModelID item]} ∪ channelModelSeen) refSeen
  end.
Definition validateGroupItemDuplicates items : option group_error := check_duplicates items ∅ ∅.

Fixpoint ref_names items (seen : gset string) : list string :=
  match items with
  | [] => []
  | item :: items =>
      if negb (IsGroupRef item) || bool_decide (item_RefGroupName item = "") then ref_names items seen
      else if bool_decide (item_RefGroupName item ∈ seen) then ref_names items seen
      else item_RefGroupName item :: ref_names items ({[item_RefGroupName item]} ∪ seen)
  end.
Definition groupRefTargetNames items : list string := ref_names items ∅.

(** A loop over names that threads the shared map [visited]. *)
Fixpoint each_name (f : string -> gset Z -> gset Z + group_error) (names : list string) (visited : gset Z)
  : gset Z + group_error :=
  match names with
  | [] => inl visited
  | name :: names =>
      match f name visited with
      | inl visited => each_name f names visited
      | inr err => inr err
      end
  end.

(** [walkGroupRefChain].  The depth check ends the recursion, so the fuel
    [MaxGroupRefDepth + 1] is never used up. *)
Fixpoint walkGroupRefChain (fuel : nat) s (current : Group) (selfID : Z) (selfName : string)
    (visited : gset Z) (depth : Z) : gset Z + group_error :=
  if (g_ID current =? selfID) ||
     ((selfID =? 0) && negb (bool_decide (selfName = "")) && bool_decide (g_Name current = selfName))
  then inr ErrGroupSelfReference
  else if MaxGroupRefDepth <? depth then inr ErrGroupRefDepthExceeded
  else
    match fuel with
    | O => inr ErrGroupRefDepthExceeded
    | S fuel =>
        each_name (fun name visited =>
          match GroupGetByName s name with
          | None => inl visited
          | Some next =>
              if bool_decide (g_ID next ∈ visited) then inr ErrGroupRefCycle
              else walkGroupRefChain fuel s next selfID selfName ({[g_ID next]} ∪ visited) (depth + 1)
          end) (groupRefTargetNames (g_Items current)) visited
    end.

(** Every target is walked with a map of its own. *)
Fixpoint validate_targets s (selfID : Z) (selfName : string) (names : list string) : option group_error :=
  match names with
  | [] => None
  | name :: names =>
      match GroupGetByName s name with
      | None => Some ErrGroupRefTargetMissing
      | Some target =>
          match walkGroupRefChain (S (Z.to_nat MaxGroupRefDepth)) s target selfID selfName {[g_ID target]} 1 with
          | inl _ => validate_targets s selfID selfName names
          | inr err => Some err
          end
      end
  end.

Definition validateGroupReferences s (selfID : Z) (selfName : string) items : option group_error :=
  validate_targets s selfID selfName (groupRefTargetNames items).

Section ops.
Context `{ord : !MapOrder Z}.

(** The first group, in map order, that refers to [groupName]. *)
Definition firstGroupReferrer s (groupName : string) (excludeID : Z) : string :=
  from_option (fun ig => g_Name ig.2) ""
    (find_first (fun ig => negb (g_ID ig.2 =? excludeID) &&
       existsb (fun i => IsGroupRef i && bool_decide (item_RefGroupName i = groupName)) (g_Items ig.2))
       (map_order (gs_cache s))).

(** ** Writing *)

Definition put_group s (group : Group) : GroupStore :=
  mkGroups (<[g_ID group := groupSnapshot s group]> (gs_cache s)) (<[g_Name group := g_ID group]> (gs_names s))
    (gs_models s).

(** New rows get primary keys from the database: [ids]. *)
Definition assign_ids (ids : list Z) items : list GroupItem :=
  zip_with (fun id i => mkItem id (item_ChannelModelID i) (item_RefGroupName i) None (item_Priority i)) ids items.

(** The name column is unique. *)
Definition name_taken s (name : string) (id : Z) : bool :=
  existsb (fun ig => bool_decide (g_Name ig.2 = name) && negb (g_ID ig.2 =? id)) (map_order (gs_cache s)).

(** [groupID] and [ids] are the keys of the inserted rows; [mode] is [None] for
    the empty string. *)
Definition GroupCreate (groupID : Z) (ids : list Z) (name : string) (mode : option GroupMode)
    (config : GroupRelayConfig) items s : GroupStore + group_error :=
  let name := TrimSpace name in
  if bool_decide (name = "") then inr ErrGroupNameRequired else
  match normalizeAndValidateGroupItems s items with
  | inr err => inr err
  | inl items =>
      match validateGroupItemDuplicates items with
      | Some err => inr err
      | None =>
          match validateGroupReferences s 0 name items with
          | Some err => inr err
          | None =>
              if name_taken s name groupID then inr ErrDatabase
              else inl (put_group s (mkGroup groupID name (default GroupModeFailover mode) 0
                     (NormalizeGroupRelayConfig config) (sortGroupItems (assign_ids ids items))))
          end
      end
  end.

Record GroupUpdateRequest := mkUpdate {
  up_Name : option string; up_Mode : option GroupMode; up_RelayConfig : option GroupRelayConfig;
  up_ItemsToAdd : list GroupItem; up_ItemsToUpdate : list (Z * Z); up_ItemsToDelete : list Z }.

(** The rows of the group after the transaction: deleted, re-prioritised, added. *)
Definition update_items (req : GroupUpdateRequest) (ids : list Z) (old newItems : list GroupItem) : list GroupItem :=
  let kept := filter (fun i => item_ID i ∉ up_ItemsToDelete req) old in
  let prio (i : GroupItem) :=
    match find_first (fun ip => ip.1 =? item_ID i) (up_ItemsToUpdate req) with
    | Some (_, p) => mkItem (item_ID i) (item_ChannelModelID i) (item_RefGroupName i) (item_ChannelModel i) p
    | None => i
    end in
  (prio <$> kept) ++ assign_ids ids newItems.

Definition GroupUpdate (id : Z) (req : GroupUpdateRequest) (ids : list Z) s : GroupStore + group_error :=
  match gs_cache s !! id with
  | None => inr (PlainError "group not found")
  | Some oldGroup =>
      let name := TrimSpace <$> up_Name req in
      if bool_decide (name = Some "") then inr (PlainError "group name is required")
      else if match name with
              | Some name => negb (bool_decide (name = g_Name oldGroup)) &&
                             negb (bool_decide (firstGroupReferrer s (g_Name oldGroup) id = ""))
              | None => false
              end then inr (PlainError "group is referenced and cannot be renamed")
      else
        match normalizeAndValidateGroupItems s (up_ItemsToAdd req) with
        | inr err => inr err
        | inl newItems =>
            let effectiveItems := filter (fun i => item_ID i ∉ up_ItemsToDelete req) (g_Items oldGroup) ++ newItems in
            match validateGroupItemDuplicates effectiveItems with
            | Some err => inr err
            | None =>
                match validateGroupReferences s id (g_Name oldGroup) effectiveItems with
                | Some err => inr err
                | None =>
                    let name := default (g_Name oldGroup) name in
                    if name_taken s name id then inr ErrDatabase else
                    let active := if bool_decide (g_ActiveItemID oldGroup ∈ up_ItemsToDelete req) &&
                                     existsb (fun i => item_ID i =? g_ActiveItemID oldGroup) (g_Items oldGroup)
                                  then 0 else g_ActiveItemID oldGroup in
                    let group := mkGroup id name (default (g_Mode oldGroup) (up_Mode req)) active
                      (from_option NormalizeGroupRelayConfig (g_RelayConfig oldGroup) (up_RelayConfig req))
                      (sortGroupItems (update_items req ids (g_Items oldGroup) newItems)) in
                    let s' := put_group s group in
                    inl (if bool_decide (g_Name oldGroup = name) then s'
                         else mkGroups (gs_cache s') (delete (g_Name oldGroup) (gs_names s')) (gs_models s'))
                end
            end
        end
  end.

Definition GroupActiveItemUpdate (groupID : Z) (itemID : option Z) s : GroupStore + group_error :=
  match gs_cache s !! groupID with
  | None => inr (PlainError "group not found")
  | Some group =>
      let itemID := default 0 itemID in
      if negb (itemID =? 0) && negb (existsb (fun i => item_ID i =? itemID) (g_Items group))
      then inr (PlainError "group item not found")
      else inl (mkGroups (<[groupID := groupSnapshot s (mkGroup (g_ID group) (g_Name group) (g_Mode group) itemID
                              (g_RelayConfig group) (g_Items group))]> (gs_cache s)) (gs_names s) (gs_models s))
  end.

Definition GroupDel (id : Z) s : GroupStore + group_error :=
  match gs_cache s !! id with
  | None => inr ErrGroupNotFound
  | Some group =>
      if negb (bool_decide (firstGroupReferrer s (g_Name group) id = "")) then inr ErrGroupReferencedBy
      else inl (mkGroups (delete id (gs_cache s)) (delete (g_Name group) (gs_names s)) (gs_models s))
  end.
End ops.

(** ** References between groups never form a cycle

    The invariant of the group store over every sequence of successful edits. *)

(** ** References as a graph *)

Definition refers items (name : string) : Prop :=
  exists i, i ∈ items /\ IsGroupRef i = true /\ item_RefGroupName i = name.

Definition edge s (a b : Z) : Prop :=
  exists g n, gs_cache s !! a = Some g /\ refers (g_Items g) n /\ gs_names s !! n = Some b.

Record groups_ok s : Prop := {
  gp_id : forall id g, gs_cache s !! id = Some g -> g_ID g = id /\ 0 < id /\ g_Name g ≠ "";
  gp_name : forall n id, gs_names s !! n = Some id <-> exists g, gs_cache s !! id = Some g /\ g_Name g = n;
  gp_closed : forall id g n, gs_cache s !! id = Some g -> refers (g_Items g) n -> is_Some (gs_names s !! n);
  gp_acyclic : forall id, ~ tc (edge s) id id;
}.

Lemma IsGroupRef_name i : IsGroupRef i = true -> item_RefGroupName i ≠ "".
Proof.
  unfold IsGroupRef. intros [_ Hn]%andb_true_iff Heq. by rewrite Heq in Hn.
Qed.

Lemma ref_names_spec items seen n :
  n ∈ ref_names items seen <-> refers items n /\ n ∉ seen.
Proof.
  unfold refers. revert seen. induction items as [|i items IH]; intros seen; cbn [ref_names].
  { split; [intros Hn; by apply elem_of_nil in Hn|]. intros ((j & Hj & _) & _). by apply elem_of_nil in Hj. }
  setoid_rewrite elem_of_cons. destruct (IsGroupRef i) eqn:Hr; cbn [negb orb].
  2:{ rewrite IH. split; intros [(j & Hj & Hjr & Hn) Hs]; (split; [|done]); exists j; naive_solver congruence. }
  rewrite bool_decide_false by by apply IsGroupRef_name. case_bool_decide as Hin.
  - rewrite IH. split; intros [(j & Hj & Hjr & Hn) Hs]; (split; [|done]); exists j; [by auto|].
    destruct Hj as [->|Hj]; [by subst|done].
  - rewrite elem_of_cons, IH. split.
    + intros [->|[(j & Hj & Hjr & Hn) Hs]]; [split; [by exists i; auto|done]|].
      split; [by exists j; auto|set_solver].
    + intros [(j & [->|Hj] & Hjr & Hn) Hs]; [by left|].
      destruct (decide (n = item_RefGroupName i)) as [->|Hne]; [by left|right].
      split; [by exists j|set_solver].
Qed.

Lemma target_names_spec items n : n ∈ groupRefTargetNames items <-> refers items n.
Proof. unfold groupRefTargetNames. rewrite ref_names_spec. set_solver. Qed.

Lemma refers_app l1 l2 n : refers (l1 ++ l2) n <-> refers l1 n \/ refers l2 n.
Proof. unfold refers. setoid_rewrite elem_of_app. naive_solver. Qed.

(** Two lists of items with the same references. *)
Definition same_refs (l1 l2 : list GroupItem) : Prop := forall n, refers l1 n <-> refers l2 n.

Lemma same_refs_map (f : GroupItem -> GroupItem) l :
  (forall i, IsGroupRef (f i) = IsGroupRef i /\ item_RefGroupName (f i) = item_RefGroupName i) ->
  same_refs (f <$> l) l.
Proof.
  intros Hf n. split.
  - intros (j & (i & -> & Hi)%list_elem_of_fmap & Hr & Hn). destruct (Hf i) as [H1 H2]. exists i.
    by rewrite <- H1, <- H2.
  - intros (i & Hi & Hr & Hn). destruct (Hf i) as [H1 H2]. exists (f i).
    rewrite H1, H2. split; [by apply list_elem_of_fmap_2|done].
Qed.

Lemma snapshot_refs s g : same_refs (g_Items (groupSnapshot s g)) (g_Items g).
Proof. by apply same_refs_map. Qed.

Lemma sorted_refs l : same_refs (sortGroupItems l) l.
Proof.
  intros n. unfold refers, sortGroupItems. by setoid_rewrite (merge_sort_Permutation item_le l).
Qed.

Lemma assign_refs ids l : length ids = length l -> same_refs (assign_ids ids l) l.
Proof.
  unfold assign_ids. revert l. induction ids as [|id ids IH]; intros [|i l] Hl n; try done.
  cbn [zip_with]. injection Hl as Hl. specialize (IH l Hl n). unfold refers in *.
  setoid_rewrite elem_of_cons. split.
  - intros (j & [->|Hj] & Hr & Hn); [by exists i; auto|]. destruct (proj1 IH) as (k & Hk); [by exists j|].
    exists k. naive_solver.
  - intros (j & [->|Hj] & Hr & Hn); [eexists; split; [left; reflexivity|by split]|].
    destruct (proj2 IH) as (k & Hk); [by exists j|]. exists k. naive_solver.
Qed.

Lemma GetByName_spec s name g :
  groups_ok s -> GroupGetByName s name = Some g ->
  gs_names s !! name = Some (g_ID g) /\
  exists g0, gs_cache s !! g_ID g = Some g0 /\ same_refs (g_Items g) (g_Items g0).
Proof.
  intros Hok. unfold GroupGetByName. destruct (gs_names s !! name) as [id|]; [|done].
  cbn [mbind option_bind]. destruct (gs_cache s !! id) as [g0|] eqn:Hg; [|done]. intros [= <-].
  destruct (gp_id _ Hok _ _ Hg) as [Hid _]. cbn [groupSnapshot g_ID]. rewrite Hid.
  split; [done|]. exists g0. split; [done|]. apply snapshot_refs.
Qed.

Lemma GetByName_Some s name id :
  groups_ok s -> gs_names s !! name = Some id -> exists g, GroupGetByName s name = Some g /\ g_ID g = id.
Proof.
  intros Hok Hn. unfold GroupGetByName. rewrite Hn. cbn [mbind option_bind].
  destruct (proj1 (gp_name _ Hok name id) Hn) as (g & Hg & _). rewrite Hg.
  exists (groupSnapshot s g). split; [done|]. destruct (gp_id _ Hok id g Hg) as [Hid _]. exact Hid.
Qed.

(** ** The walk *)

Lemma each_name_all f names visited v :
  each_name f names visited = inl v -> forall n, n ∈ names -> exists w w', f n w = inl w'.
Proof.
  revert visited. induction names as [|name names IH]; intros visited; cbn [each_name].
  { intros _ n Hn. by apply elem_of_nil in Hn. }
  destruct (f name visited) as [v1|] eqn:Hf; [|done]. intros He n [->|Hn]%elem_of_cons; [by eauto|].
  by apply (IH v1).
Qed.

(** A walk that succeeds has seen everything reachable, and not the edited group. *)
Lemma walk_avoids s selfID selfName a b :
  groups_ok s -> rtc (edge s) a b ->
  forall fuel current visited depth v,
    g_ID current = a -> (exists g0, gs_cache s !! a = Some g0 /\ same_refs (g_Items current) (g_Items g0)) ->
    walkGroupRefChain fuel s current selfID selfName visited depth = inl v -> b ≠ selfID.
Proof.
  intros Hok Hpath. induction Hpath as [a|a c b Hedge _ IH];
    intros fuel current visited depth v Ha (g0 & Hg0 & Href) Hw.
  - intros ->. destruct fuel; cbn [walkGroupRefChain] in Hw; by rewrite Ha, Z.eqb_refl in Hw.
  - destruct fuel as [|fuel]; cbn [walkGroupRefChain] in Hw;
      destruct (_ || _); try done; destruct (_ <? _); try done.
    destruct Hedge as (g & n & Hg & Hn & Hc). simplify_eq.
    assert (Hin : n ∈ groupRefTargetNames (g_Items current)) by by apply target_names_spec, Href.
    destruct (each_name_all _ _ _ _ Hw n Hin) as (w & w' & Hf).
    destruct (GetByName_Some _ _ _ Hok Hc) as (next & Hnext & Hid). rewrite Hnext in Hf.
    destruct (bool_decide _); [done|]. refine (IH _ _ _ _ _ Hid _ Hf).
    destruct (GetByName_spec _ _ _ Hok Hnext) as (_ & g1 & Hg1 & Hr1). exists g1. by rewrite <- Hid.
Qed.

Lemma validate_avoids s selfID selfName items n :
  groups_ok s -> validateGroupReferences s selfID selfName items = None -> refers items n ->
  exists t, gs_names s !! n = Some t /\ ~ rtc (edge s) t selfID.
Proof.
  intros Hok. unfold validateGroupReferences. rewrite <- target_names_spec.
  induction (groupRefTargetNames items) as [|m names IH]; intros Hv Hn; [by apply elem_of_nil in Hn|].
  cbn [validate_targets] in Hv. destruct (GroupGetByName s m) as [target|] eqn:Ht; [|done].
  destruct (walkGroupRefChain _ _ _ _ _ _ _) as [v|] eqn:Hw; [|done].
  apply elem_of_cons in Hn as [->|Hn]; [|by apply IH].
  destruct (GetByName_spec _ _ _ Hok Ht) as (Hname & Hg0). exists (g_ID target). split; [done|].
  intros Hpath. by apply (walk_avoids _ selfID selfName _ _ Hok Hpath _ target _ _ _ eq_refl Hg0 Hw).
Qed.

(** ** Cycles after an edit *)

(** If only [id] has new edges, and none of them leads back to [id], an acyclic
    graph stays acyclic. *)
Lemma acyclic_edit (R R' : Z -> Z -> Prop) (id : Z) :
  (forall a, ~ tc R a a) -> (forall a b, a ≠ id -> R' a b -> R a b) ->
  (forall b, R' id b -> ~ rtc R b id) -> forall a, ~ tc R' a a.
Proof.
  intros Hacyc Hother Hself. assert (Hback : forall b, rtc R' b id -> rtc R b id).
  { intros b Hb. remember id as z eqn:Hz. induction Hb as [z|b c z Hbc _ IH]; [reflexivity|]. subst z.
    destruct (decide (b = id)) as [->|Hne]; [reflexivity|]. eapply rtc_l; [by apply Hother|by apply IH]. }
  assert (Hid : ~ tc R' id id).
  { intros Ht. inversion Ht as [? ? Hst|? b ? Hb Hrest]; subst.
    - apply (Hself _ Hst). reflexivity.
    - apply (Hself _ Hb). apply Hback. by apply tc_rtc. }
  assert (Hsplit : forall a b, tc R' a b -> tc R a b \/ (rtc R' a id /\ tc R' id b)).
  { intros a b Hab. induction Hab as [a b Hab|a c b Hac Hcb IH].
    - destruct (decide (a = id)) as [->|Hne]; [right; by split; [|constructor]|left; constructor; by apply Hother].
    - destruct (decide (a = id)) as [->|Hne]; [right; split; [reflexivity|by eapply tc_l]|].
      destruct IH as [IH|[H1 H2]]; [left; eapply tc_l; [by apply Hother|done]|right].
      split; [by eapply rtc_l|done]. }
  intros a Ha. destruct (Hsplit a a Ha) as [H|[H1 H2]]; [by apply (Hacyc a)|].
  apply Hid. by eapply tc_rtc_r.
Qed.

(** ** One edited group *)

(** [id] gets the value [group]; the index loses the old name of [id]. *)
Definition renamed s (id : Z) (name : string) (names : gmap string Z) : Prop :=
  forall n, names !! n = if decide (n = name) then Some id
                         else if decide (gs_names s !! n = Some id) then None else gs_names s !! n.

Section edit.
Context (s : GroupStore) (id : Z) (group : Group) (names : gmap string Z) (models : gmap Z ChannelModel).
Context (Hok : groups_ok s) (Hid : g_ID group = id) (Hpos : 0 < id) (Hname : g_Name group ≠ "").
Context (Hfree : forall b g, gs_cache s !! b = Some g -> b ≠ id -> g_Name g ≠ g_Name group).
Context (Hnames : renamed s id (g_Name group) names).
Context (Hunref : forall b g n, gs_cache s !! b = Some g -> b ≠ id -> refers (g_Items g) n ->
                    gs_names s !! n = Some id -> n = g_Name group).
Context (Htargets : forall n, refers (g_Items group) n ->
                      exists t, gs_names s !! n = Some t /\ ~ rtc (edge s) t id).

#[local] Notation s' := (mkGroups (<[id := group]> (gs_cache s)) names models).

#[local] Set Default Proof Using "Type*".

Lemma edited_index n b : names !! n = Some b <-> exists g, <[id := group]> (gs_cache s) !! b = Some g /\ g_Name g = n.
Proof.
  rewrite Hnames. destruct (decide (b = id)) as [->|Hb].
  - setoid_rewrite lookup_insert_eq. destruct (decide (n = _)) as [->|Hn].
    + split; [by exists group|done].
    + split; [|by intros (g & [= <-] & <-)]. case_decide; [done|]. intros H2. by destruct H.
  - setoid_rewrite lookup_insert_ne; [|done]. rewrite <- (gp_name _ Hok).
    destruct (decide (n = _)) as [->|Hn].
    + split; [by intros [= ->]|]. intros (g & Hg & Hgn)%(gp_name _ Hok). by destruct (Hfree _ _ Hg Hb).
    + case_decide as Hd; [|done]. rewrite Hd. split; [done|by intros [= ->]].
Qed.

(** The new index resolves every reference as the old one did. *)
Lemma edited_target a g n :
  <[id := group]> (gs_cache s) !! a = Some g -> refers (g_Items g) n ->
  exists t, gs_names s !! n = Some t /\ names !! n = Some t.
Proof.
  intros Hg Hn. assert (exists t, gs_names s !! n = Some t /\ (t = id -> n = g_Name group)) as (t & Ht & Hself).
  { destruct (decide (a = id)) as [->|Ha].
    - rewrite lookup_insert_eq in Hg. injection Hg as <-. destruct (Htargets n Hn) as (t & Ht & Hno).
      exists t. split; [done|]. intros ->. by destruct Hno.
    - rewrite lookup_insert_ne in Hg by done. destruct (gp_closed _ Hok _ _ _ Hg Hn) as [t Ht].
      exists t. split; [done|]. intros ->. by apply (Hunref a g). }
  exists t. split; [done|]. rewrite Hnames. case_decide as Hd.
  - f_equal. destruct (decide (t = id)) as [->|Hne]; [done|].
    apply (gp_name _ Hok) in Ht as (g2 & Hg2 & Hn2). destruct (Hfree _ _ Hg2 Hne). by rewrite Hn2.
  - rewrite decide_False; [done|]. rewrite Ht. intros [= ->]. by apply Hd, Hself.
Qed.

Lemma edit_ok : groups_ok s'.
Proof.
  split; cbn [gs_cache gs_names].
  - intros b g. destruct (decide (b = id)) as [->|Hb]; [rewrite lookup_insert_eq; by intros [= <-]|].
    rewrite lookup_insert_ne by done. apply (gp_id _ Hok).
  - apply edited_index.
  - intros a g n Hg Hn. destruct (edited_target a g n Hg Hn) as (t & _ & Ht). by exists t.
  - apply (acyclic_edit (edge s) (edge s') id (gp_acyclic _ Hok)).
    + intros a b Ha (g & n & Hg & Hn & Hb). destruct (edited_target a g n Hg Hn) as (t & Ht & Ht').
      exists g, n. cbn [gs_cache gs_names] in *. rewrite lookup_insert_ne in Hg by done.
      rewrite Hb in Ht'. by injection Ht' as ->.
    + intros b (g & n & Hg & Hn & Hb). destruct (edited_target id g n Hg Hn) as (t & Ht & Ht').
      cbn [gs_cache gs_names] in *. rewrite lookup_insert_eq in Hg. injection Hg as <-.
      destruct (Htargets n Hn) as (t2 & Ht2 & Hno). congruence.
Qed.
End edit.

(** ** The operations *)

Section ops.
Context `{ord : !MapOrder Z}.

Lemma no_referrer s name id :
  groups_ok s -> firstGroupReferrer s name id = "" ->
  forall b g, gs_cache s !! b = Some g -> b ≠ id -> ~ refers (g_Items g) name.
Proof.
  intros Hok. unfold firstGroupReferrer. destruct (find_first _ _) as [[b g]|] eqn:Hf.
  - apply find_first_Some in Hf as [Hin%elem_of_map_order _]. cbn. intros Hg.
    by destruct (gp_id _ Hok _ _ Hin) as (_ & _ & []).
  - intros _ b g Hg Hb (i & Hi & Hr & Hn). rewrite find_first_None in Hf.
    specialize (Hf (b, g) ltac:(by apply elem_of_map_order)). cbn in Hf.
    destruct (gp_id _ Hok _ _ Hg) as (Hgid & _ & _). apply andb_false_iff in Hf as [Hf|Hf].
    + apply negb_false_iff in Hf. lia.
    + apply not_true_iff_false in Hf. apply Hf, existsb_exists. exists i.
      rewrite <- list_elem_of_In, Hr. split; [done|]. by apply bool_decide_true.
Qed.

Lemma name_free s name id :
  groups_ok s -> name_taken s name id = false ->
  forall b g, gs_cache s !! b = Some g -> b ≠ id -> g_Name g ≠ name.
Proof.
  intros Hok Ht b g Hg Hb Hn. apply not_true_iff_false in Ht. apply Ht, existsb_exists. exists (b, g).
  rewrite <- list_elem_of_In. split; [by apply elem_of_map_order|]. cbn.
  destruct (gp_id _ Hok _ _ Hg) as (-> & _ & _). rewrite bool_decide_true by done. lia.
Qed.

(** A group that does not exist is not the target of any reference. *)
Lemma fresh_unreachable s id t n :
  groups_ok s -> gs_cache s !! id = None -> gs_names s !! n = Some t -> ~ rtc (edge s) t id.
Proof.
  intros Hok Hid Hn Hpath. destruct Hpath as [t|t c b Hedge Hrest].
  - apply (gp_name _ Hok) in Hn as (g & Hg & _). congruence.
  - assert (Hpre : exists a, edge s a b).
    { clear Hn Hid. revert t Hedge. induction Hrest as [c|c d b Hcd _ IH]; intros t Hedge; [by exists t|].
      by apply (IH c). }
    destruct Hpre as (a & g & m & _ & _ & Hm). apply (gp_name _ Hok) in Hm as (g' & Hg' & _). congruence.
Qed.

Lemma put_group_ok s id group :
  groups_ok s -> g_ID group = id -> 0 < id -> g_Name group ≠ "" ->
  (forall b g, gs_cache s !! b = Some g -> b ≠ id -> g_Name g ≠ g_Name group) ->
  (forall b g n, gs_cache s !! b = Some g -> b ≠ id -> refers (g_Items g) n ->
     gs_names s !! n = Some id -> n = g_Name group) ->
  (forall n, refers (g_Items group) n -> exists t, gs_names s !! n = Some t /\ ~ rtc (edge s) t id) ->
  forall names, renamed s id (g_Name group) names ->
    groups_ok (mkGroups (<[id := groupSnapshot s group]> (gs_cache s)) names (gs_models s)).
Proof.
  intros Hok Hid Hpos Hname Hfree Hunref Htargets names Hnames.
  apply edit_ok; try done. intros n Hn. by apply Htargets, (snapshot_refs s group).
Qed.

Lemma create_ok groupID ids name mode config items s s' :
  groups_ok s -> gs_cache s !! groupID = None -> 0 < groupID -> length ids = length items ->
  GroupCreate groupID ids name mode config items s = inl s' -> groups_ok s'.
Proof.
  intros Hok Hfresh Hpos Hlen. unfold GroupCreate. cbv zeta. case_bool_decide as Hne; [done|].
  unfold normalizeAndValidateGroupItems. cbv zeta. destruct (forallb _ _); [|done].
  destruct (validateGroupItemDuplicates _); [done|].
  destruct (validateGroupReferences _ _ _ _) eqn:Hv; [done|].
  destruct (name_taken _ _ _) eqn:Ht; [done|]. intros [= <-].
  assert (Hno : forall n, gs_names s !! n ≠ Some groupID).
  { intros n Hn. apply (gp_name _ Hok) in Hn as (g & Hg & _). congruence. }
  apply put_group_ok; try done; cbn [g_Name g_ID g_Items].
  - by apply name_free.
  - intros b g n _ _ _ Hn. by destruct (Hno n).
  - intros n Hn. apply sorted_refs, assign_refs in Hn; [|by rewrite length_fmap].
    destruct (validate_avoids _ _ _ _ _ Hok Hv Hn) as (t & Hnt & _). exists t. split; [done|].
    by eapply fresh_unreachable.
  - intros n. destruct (decide (n = _)) as [->|Hn]; [by rewrite lookup_insert_eq|].
    rewrite lookup_insert_ne, decide_False; done.
Qed.

Lemma update_refs req ids old newItems :
  length ids = length newItems ->
  same_refs (sortGroupItems (update_items req ids old newItems))
    (filter (fun i => item_ID i ∉ up_ItemsToDelete req) old ++ newItems).
Proof.
  intros Hlen n. rewrite (sorted_refs _ n). unfold update_items. rewrite !refers_app.
  rewrite (assign_refs ids newItems Hlen n). f_equiv. apply same_refs_map. intros i.
  by destruct (find_first _ _) as [[? ?]|].
Qed.

Lemma update_ok id req ids s s' :
  groups_ok s -> length ids = length (up_ItemsToAdd req) -> GroupUpdate id req ids s = inl s' -> groups_ok s'.
Proof.
  intros Hok Hlen. unfold GroupUpdate. destruct (gs_cache s !! id) as [old|] eqn:Hold; [|done]. cbv zeta.
  case_bool_decide as Hne; [done|]. destruct (match _ with Some _ => _ | None => _ end) eqn:Href; [done|].
  unfold normalizeAndValidateGroupItems. cbv zeta. destruct (forallb _ _); [|done].
  destruct (validateGroupItemDuplicates _); [done|].
  destruct (validateGroupReferences _ _ _ _) eqn:Hv; [done|].
  set (name := default (g_Name old) _). destruct (name_taken _ _ _) eqn:Ht; [done|]. intros [= <-].
  destruct (gp_id _ Hok _ _ Hold) as (Hid & Hpos & Hon).
  assert (Hidx : forall n, gs_names s !! n = Some id <-> n = g_Name old).
  { intros n. rewrite (gp_name _ Hok). split; [intros (g & Hg & <-); congruence|intros ->; by exists old]. }
  set (group := mkGroup id name _ _ _ _).
  assert (Hall : forall names, renamed s id name names ->
    groups_ok (mkGroups (<[id := groupSnapshot s group]> (gs_cache s)) names (gs_models s))).
  { apply (put_group_ok s id group Hok); try done; cbn [group g_Name g_ID g_Items].
    - subst name. destruct (up_Name req); cbn in *; congruence.
    - by apply name_free.
    - intros b g n Hg Hb Hn ->%Hidx. subst name. destruct (up_Name req) as [new|]; [|done]. cbn in Href |- *.
      case_bool_decide as Hsame; [done|]. cbn in Href. apply negb_false_iff, bool_decide_eq_true in Href.
      by destruct (no_referrer _ _ _ Hok Href _ _ Hg Hb).
    - intros n Hn. apply update_refs in Hn; [|by rewrite length_fmap].
      destruct (validate_avoids _ _ _ _ _ Hok Hv Hn) as (t & Hnt & Hno). by exists t. }
  clear Href Hne Hv Ht. destruct (bool_decide (g_Name old = name)) eqn:Hsame;
    [apply bool_decide_eq_true in Hsame|apply bool_decide_eq_false in Hsame];
    apply Hall; intros n; cbn [put_group gs_names group g_Name g_ID].
  - rewrite <- Hsame. destruct (decide (n = _)) as [->|Hn]; [by rewrite lookup_insert_eq|].
    rewrite lookup_insert_ne, decide_False; [done| |done]. by intros ?%Hidx.
  - destruct (decide (n = _)) as [->|Hn]; [by rewrite lookup_delete_ne, lookup_insert_eq|].
    case_decide as Hd; [apply Hidx in Hd as ->; by rewrite lookup_delete_eq|].
    rewrite lookup_delete_ne, lookup_insert_ne; try done. intros <-. by destruct Hd; apply Hidx.
Qed.
Lemma active_ok groupID itemID s s' :
  groups_ok s -> GroupActiveItemUpdate groupID itemID s = inl s' -> groups_ok s'.
Proof.
  intros Hok. unfold GroupActiveItemUpdate. destruct (gs_cache s !! groupID) as [old|] eqn:Hold; [|done].
  cbv zeta. destruct (_ && _); [done|]. intros [= <-]. destruct (gp_id _ Hok _ _ Hold) as (Hid & Hpos & Hon).
  assert (Hidx : forall n, gs_names s !! n = Some groupID <-> n = g_Name old).
  { intros n. rewrite (gp_name _ Hok). split; [intros (g & Hg & <-); congruence|intros ->; by exists old]. }
  apply put_group_ok; try done; cbn [g_Name g_ID g_Items].
  - intros b g Hg Hb Hn. assert (gs_names s !! g_Name old = Some b) by (apply (gp_name _ Hok); by exists g).
    assert (gs_names s !! g_Name old = Some groupID) by by apply Hidx. congruence.
  - by intros b g n _ _ _ ->%Hidx.
  - intros n Hn. destruct (gp_closed _ Hok _ _ _ Hold Hn) as [t Ht]. exists t. split; [done|].
    intros Hback. apply (gp_acyclic _ Hok groupID). eapply tc_rtc_r; [|exact Hback]. constructor. by exists old, n.
  - intros n. destruct (decide (n = _)) as [->|Hn]; [by apply Hidx|].
    rewrite decide_False; [done|]. by intros ?%Hidx.
Qed.

Lemma delete_ok id s s' : groups_ok s -> GroupDel id s = inl s' -> groups_ok s'.
Proof.
  intros Hok. unfold GroupDel. destruct (gs_cache s !! id) as [old|] eqn:Hold; [|done].
  case_bool_decide as Href; [|done]. cbn [negb]. intros [= <-].
  assert (Hidx : forall n, gs_names s !! n = Some id <-> n = g_Name old).
  { intros n. rewrite (gp_name _ Hok). split; [intros (g & Hg & <-); congruence|intros ->; by exists old]. }
  assert (Hsub : forall a b, edge (mkGroups (delete id (gs_cache s)) (delete (g_Name old) (gs_names s)) (gs_models s)) a b ->
    edge s a b).
  { intros a b (g & n & Hg & Hn & Hb). cbn [gs_cache gs_names] in Hg, Hb.
    apply lookup_delete_Some in Hg as [_ Hg], Hb as [_ Hb]. by exists g, n. }
  split; cbn [gs_cache gs_names].
  - intros b g [_ Hg]%lookup_delete_Some. by apply (gp_id _ Hok).
  - intros n b. rewrite lookup_delete_Some. setoid_rewrite lookup_delete_Some. rewrite (gp_name _ Hok).
    split.
    + intros (Hn & g & Hg & Hgn). exists g. split; [split; [|done]|done]. intros ->. congruence.
    + intros (g & [Hb Hg] & <-). split; [|by exists g]. intros Hn. apply Hb.
      assert (gs_names s !! g_Name g = Some b) by (apply (gp_name _ Hok); by exists g).
      assert (gs_names s !! g_Name g = Some id) by by apply Hidx. congruence.
  - intros a g n [Ha Hg]%lookup_delete_Some Hn. destruct (gp_closed _ Hok _ _ _ Hg Hn) as [t Ht].
    exists t. apply lookup_delete_Some. split; [|done]. intros <-.
    by destruct (no_referrer _ _ _ Hok Href _ _ Hg (not_eq_sym Ha)).
  - intros a Hcyc. apply (gp_acyclic _ Hok a). by apply (tc_congruence (fun x : Z => x) (edge s) _ _ Hsub).
Qed.
End ops.

(** ** Every sequence of edits *)

(** One successful edit; a new group gets an unused positive primary key, and
    every new row one of its own.  The channel models may change in between. *)
Inductive group_step `{!MapOrder Z} : GroupStore -> GroupStore -> Prop :=
| step_create s s' groupID ids name mode config items :
    gs_cache s !! groupID = None -> 0 < groupID -> length ids = length items ->
    GroupCreate groupID ids name mode config items s = inl s' -> group_step s s'
| step_update s s' id req ids :
    length ids = length (up_ItemsToAdd req) -> GroupUpdate id req ids s = inl s' -> group_step s s'
| step_active s s' id item : GroupActiveItemUpdate id item s = inl s' -> group_step s s'
| step_delete s s' id : GroupDel id s = inl s' -> group_step s s'
| step_models s models : group_step s (mkGroups (gs_cache s) (gs_names s) models).

Definition no_groups : GroupStore := mkGroups ∅ ∅ ∅.

Lemma group_step_ok `{!MapOrder Z} s s' : groups_ok s -> group_step s s' -> groups_ok s'.
Proof.
  intros Hok Hstep. destruct Hstep; eauto using create_ok, update_ok, active_ok, delete_ok.
  by destruct Hok; split.
Qed.

Lemma no_groups_ok : groups_ok no_groups.
Proof.
  split; cbn [no_groups gs_cache gs_names].
  - intros b g Hg. by rewrite lookup_empty in Hg.
  - intros n b. rewrite lookup_empty. split; [done|]. intros (g & Hg & _). by rewrite lookup_empty in Hg.
  - intros a g n Hg. by rewrite lookup_empty in Hg.
  - intros a Hcyc. destruct Hcyc as [a b (g & n & Hg & _)|a b c (g & n & Hg & _) _];
      cbn in Hg; by rewrite lookup_empty in Hg.
Qed.

Lemma store_safe `{!MapOrder Z} s : rtc group_step no_groups s -> groups_ok s.
Proof.
  intros Hreach. assert (Hok := no_groups_ok). remember no_groups as z eqn:Hz. clear Hz.
  induction Hreach; eauto using group_step_ok.
Qed.


(** ** Concrete stores *)

Definition ref_item (id prio : Z) (name : string) : GroupItem := mkItem id 0 name None prio.
Definition model_item (id prio cm : Z) : GroupItem := mkItem id cm "" None prio.

Definition step_or (r : GroupStore + group_error) : GroupStore := match r with inl s => s | inr _ => no_groups end.

(** Two groups, the second refers to the first. *)
Definition two_groups : GroupStore :=
  step_or (GroupCreate 2 [2] "outer" None DefaultGroupRelayConfig [ref_item 0 1 " inner "]
    (step_or (GroupCreate 1 [] "inner" None DefaultGroupRelayConfig [] no_groups))).


(** A diamond is not a cycle, but the walk reports it as one: it never expands
    a group twice, and answers [ErrGroupRefCycle] instead of skipping it. *)
Definition diamond_groups : GroupStore :=
  fold_left (fun s f => step_or (f s))
    [GroupCreate 1 [] "base" None DefaultGroupRelayConfig [];
     GroupCreate 2 [2] "left" None DefaultGroupRelayConfig [ref_item 0 1 "base"];
     GroupCreate 3 [3] "right" None DefaultGroupRelayConfig [ref_item 0 1 "base"];
     GroupCreate 4 [4; 5] "top" None DefaultGroupRelayConfig [ref_item 0 1 "left"; ref_item 0 2 "right"]] no_groups.

Lemma diamond_rejected :
  (forall id, id ∈ [1; 2; 3; 4] -> is_Some (gs_cache diamond_groups !! id)) /\
  GroupCreate 5 [6] "outer" None DefaultGroupRelayConfig [ref_item 0 1 "top"] diamond_groups = inr ErrGroupRefCycle.
Proof.
  split; [|by vm_compute]. intros id Hid. repeat (apply elem_of_cons in Hid as [->|Hid]; [by vm_compute; eexists|]).
  by apply elem_of_nil in Hid.
Qed.

(** Deleting a referenced group is a conflict; renaming it is a server error. *)
Lemma rename_refusal_is_500 :
  (exists err, GroupDel 1 two_groups = inr err /\ writeGroupOpError err = 409) /\
  (exists err, GroupUpdate 1 (mkUpdate (Some "new") None None [] [] []) [] two_groups = inr err /\
               writeGroupOpError err = 500).
Proof. split; eexists; split; vm_compute; reflexivity. Qed.
