(* ===== verification/StreamEvents.v ===== *)
(** * Events of a client stream

    relay/protocol.go.  Every event of a server-sent stream is decoded once and
    judged: does it end the stream, does it carry an error, an abnormal finish
    reason, content.  Decoding is package json and the protocol types of the
    axonhub library: the class [Decoder] gives the decoded fields. *)

From S2P Require Import Prelude GoStrings Utf8 Float64 GroupModel Protocol Errors.

(** ** Events *)

Record StreamEvent := mkEvent { ev_LastEventID : string; ev_Type : string; ev_Data : string }.
#[export] Instance StreamEvent_eq_dec : EqDecision StreamEvent.
Proof. solve_decision. Defined.

Record ErrorDetail := mkDetail { ed_Code : string; ed_Message : string; ed_Type : string; ed_RequestID : string }.
Definition no_detail : ErrorDetail := mkDetail "" "" "" "".

(** A [json.RawMessage]: the bytes of a value, empty when the field is absent. *)
Notation RawMessage := string (only parsing).

Record chatStreamEventProbe := mkProbe { cp_Error : option ErrorDetail; cp_Choices : RawMessage }.
Record chatStreamChoiceProbe := mkChoice {
  cc_FinishReason : RawMessage; cc_Content : RawMessage; cc_ReasoningContent : RawMessage; cc_ToolCalls : RawMessage }.
Record AnthropicEvent := mkAnthropic { an_Type : string; an_StopReason : option string }.
Record ResponsesEvent := mkResponses {
  re_Type : string; re_Response : bool;           (** whether [response] is present *)
  re_Status : option string; re_Error : option ErrorDetail; re_Reason : option string;
  re_Code : string; re_Message : string }.

(** [json.Unmarshal] into the types above: [None] is a decoding error. *)
Class Decoder := {
  decode_chat : string -> option chatStreamEventProbe;
  decode_choices : RawMessage -> list RawMessage;      (** empty when it is no array *)
  decode_choice : RawMessage -> option chatStreamChoiceProbe;
  decode_string : RawMessage -> option string;
  decode_anthropic : string -> option AnthropicEvent;
  decode_anthropic_error : string -> option ErrorDetail;
  decode_responses : string -> option ResponsesEvent;
  (** the event names of the library *)
  StreamEventTypeResponseCompleted : string;
  StreamEventTypeResponseFailed : string;
  StreamEventTypeResponseIncomplete : string;
  StreamEventTypeResponseCancelled : string;
  StreamEventTypeError : string;
}.

(** ** Errors of a stream *)

Definition sentinel (text : string) (s : Sentinel) : GoErr := mkErr text (SentinelError s) [].
Definition err_AbnormalFinish := sentinel "upstream reported abnormal finish reason" errAbnormalFinish.
Definition err_StreamEarlyEof :=
  sentinel "upstream stream ended before any content or terminal event" errStreamEarlyEof.
Definition err_StreamEarlyClose := sentinel "upstream stream closed before the terminal event" errStreamEarlyClose.
Definition err_NoAnswerStop :=
  sentinel "upstream finished with reasoning only and no answer content" errNoAnswerStop.
Definition err_StreamIdleTimeout := sentinel "upstream stream idle timeout exceeded" errStreamIdleTimeout.
Definition err_ZeroOutput := sentinel "upstream reported zero output tokens" errZeroOutput.

(** [fmt.Errorf("%w: ...", base)]. *)
Definition wrap (base : GoErr) (detail : string) : GoErr := errorf_w (err_Error base +:+ ": " +:+ detail) base.
Definition plain (text : string) : GoErr := mkErr text PlainError [].
Definition response_error (d : ErrorDetail) : GoErr := mkErr (ed_Message d) (ResponseError 0) [].

(** ** Finish reasons *)

Definition one_of (reasons : list string) (reason : string) : bool :=
  existsb (fun r => bool_decide (reason = r)) reasons.
Definition validChatFinishReason : string -> bool :=
  one_of [""; "stop"; "length"; "tool_calls"; "function_call"; "other"].
Definition validAnthropicStopReason : string -> bool :=
  one_of [""; "end_turn"; "max_tokens"; "stop_sequence"; "tool_use"; "pause_turn"; "refusal"].
Definition validUnifiedFinishReason := validChatFinishReason.
Definition validEmptyOutputTerminal : string -> bool :=
  one_of ["length"; "tool_calls"; "function_call"; "max_tokens"; "tool_use"].

Definition isChatFormat (format : APIFormat) : bool :=
  match format with
  | APIFormatOpenAIChatCompletion | APIFormatOpenAIResponse | APIFormatAnthropicMessage => true
  | _ => false
  end.

Definition formatToProtocol (format : APIFormat) : string :=
  match format with
  | APIFormatOpenAIResponse => UpstreamProtocolResponses
  | APIFormatAnthropicMessage => UpstreamProtocolAnthropic
  | _ => UpstreamProtocolChat
  end.

Definition upstreamPath (format : APIFormat) : string :=
  match format with
  | APIFormatOpenAIResponse => "/responses"
  | APIFormatAnthropicMessage => "/messages"
  | APIFormatOpenAIImageGeneration => "/images/generations"
  | APIFormatOpenAIImageEdit => "/images/edits"
  | APIFormatOpenAIImageVariation => "/images/variations"
  | APIFormatOpenAIVideo => "/video/generations"
  | APIFormatOpenAISpeech => "/audio/speech"
  | APIFormatOpenAITranscription => "/audio/transcriptions"
  | APIFormatOpenAITranslation => "/audio/translations"
  | APIFormatOpenAIEmbedding => "/embeddings"
  | _ => "/chat/completions"
  end.

(** ** Verdicts *)

Record streamEventVerdict := mkVerdict {
  v_terminal : bool; v_inspectErr : option GoErr; v_abnormalErr : option GoErr;
  v_hasContent : bool; v_hasAnswer : bool; v_hasReasoning : bool;
  v_stopFinish : bool; v_finishSeen : bool }.

Definition no_verdict : streamEventVerdict := mkVerdict false None None false false false false false.
Definition ends_with_error (err : GoErr) (abnormal : option GoErr) : streamEventVerdict :=
  mkVerdict true (Some err) abnormal false false false false false.
Definition ends_stream : streamEventVerdict := mkVerdict true None None false false false false false.

Section analyze.
Context `{dec : Decoder}.

Definition rawToolCallsPresent (raw : RawMessage) : bool :=
  (0 <? slen raw) && negb (bool_decide (raw = "null")).

Definition starts_with (c : ascii) (s : string) : bool :=
  match s with String.String a _ => Ascii.eqb a c | EmptyString => false end.
Definition quote_byte : ascii := of_byte 34.

Definition rawStringBytes (raw : RawMessage) : bool := (2 <? slen raw) && starts_with quote_byte raw.

Definition rawFinishReason (raw : RawMessage) : option string :=
  if (slen raw =? 0) || bool_decide (raw = "null") then None
  else if (2 <=? slen raw) && starts_with quote_byte raw then Some (default raw (decode_string raw))
  else Some raw.

(** One choice of a chat event. *)
Definition judge_choice (v : streamEventVerdict) (raw : RawMessage) : streamEventVerdict :=
  match decode_choice raw with
  | None => v
  | Some choice =>
      let reason := rawFinishReason (cc_FinishReason choice) in
      let answer := rawStringBytes (cc_Content choice) || rawToolCallsPresent (cc_ToolCalls choice) in
      let reasoning := rawStringBytes (cc_ReasoningContent choice) in
      let abnormal := match reason with Some r => negb (validChatFinishReason r) | None => false end in
      mkVerdict (v_terminal v) (v_inspectErr v)
        (match v_abnormalErr v with
         | Some e => Some e
         | None => if abnormal then Some (wrap err_AbnormalFinish ("finish_reason " +:+ default "" reason)) else None
         end)
        (v_hasContent v || (answer || reasoning)) (v_hasAnswer v || answer) (v_hasReasoning v || reasoning)
        (v_stopFinish v || bool_decide (reason = Some "stop"))
        (v_finishSeen v || match reason with
                           | Some r => negb (bool_decide (r = "")) && validChatFinishReason r
                           | None => false
                           end)
  end.

Definition analyzeChatStreamEvent (event : StreamEvent) : streamEventVerdict :=
  if bool_decide (ev_Data event = "[DONE]") then ends_stream
  else
    match decode_chat (ev_Data event) with
    | None => ends_with_error (plain "decode openai stream event") None
    | Some probe =>
        let failed := match cp_Error probe with
                      | Some d => negb (bool_decide (ed_Message d = "")) || negb (bool_decide (ed_Type d = ""))
                                  || negb (bool_decide (ed_Code d = ""))
                      | None => false
                      end in
        if bool_decide (ev_Type event = "error") || failed then
          let d := default no_detail (cp_Error probe) in
          let d := if bool_decide (ed_Message d = "")
                   then mkDetail (ed_Code d) "openai stream error" (ed_Type d) (ed_RequestID d) else d in
          ends_with_error (response_error d) None
        else
          let choices := if 0 <? slen (cp_Choices probe) then decode_choices (cp_Choices probe) else [] in
          foldl judge_choice no_verdict choices
    end.

Definition analyzeAnthropicEvent (event : StreamEvent) : streamEventVerdict :=
  match decode_anthropic (ev_Data event) with
  | None => ends_with_error (plain "decode anthropic stream event") None
  | Some parsed =>
      if bool_decide (an_Type parsed = "") then ends_with_error (plain "anthropic stream event type is empty") None
      else if negb (bool_decide (ev_Type event = "")) && negb (bool_decide (ev_Type event = an_Type parsed))
      then ends_with_error (plain "anthropic stream event type mismatch") None
      else if bool_decide (an_Type parsed = "message_stop") then ends_stream
      else if bool_decide (an_Type parsed = "error") then
        match decode_anthropic_error (ev_Data event) with
        | None => ends_with_error (plain "decode anthropic stream error") None
        | Some d =>
            let message := if bool_decide (ed_Message d = "") then "anthropic stream error" else ed_Message d in
            ends_with_error (response_error (mkDetail "" message (ed_Type d) (ed_RequestID d))) None
        end
      else
        let content := one_of ["content_block_start"; "content_block_delta"] (an_Type parsed) in
        match (if bool_decide (an_Type parsed = "message_delta") then an_StopReason parsed else None) with
        | Some reason =>
            if negb (validAnthropicStopReason reason)
            then mkVerdict false None (Some (wrap err_AbnormalFinish ("stop_reason " +:+ reason)))
                   content false false false false
            else mkVerdict false None None content false false false (negb (bool_decide (reason = "")))
        | None => mkVerdict false None None content false false false false
        end
  end.

(** The abnormal ends of the Responses protocol carry both errors. *)
Definition responses_failure (parsed : ResponsesEvent) (abnormal : string) (inspect : ErrorDetail)
  : streamEventVerdict :=
  ends_with_error (response_error inspect) (Some (wrap err_AbnormalFinish abnormal)).

Definition analyzeResponsesEvent (event : StreamEvent) : streamEventVerdict :=
  match decode_responses (ev_Data event) with
  | None => ends_with_error (plain "decode responses stream event") None
  | Some parsed =>
      let event_error := "responses event " +:+ re_Type parsed in
      if bool_decide (re_Type parsed = StreamEventTypeResponseCompleted) then
        match (if re_Response parsed then re_Status parsed else None) with
        | None => ends_stream
        | Some status =>
            if one_of [""; "completed"] status then ends_stream
            else responses_failure parsed ("response status " +:+ status)
                   (match re_Error parsed with
                    | Some d => d
                    | None => mkDetail "" ("response " +:+ status) ("response_" +:+ status) ""
                    end)
        end
      else if bool_decide (re_Type parsed = StreamEventTypeResponseFailed) then
        responses_failure parsed event_error
          (match (if re_Response parsed then re_Error parsed else None) with
           | Some d => d
           | None => mkDetail "" "response failed" "response_failed" ""
           end)
      else if bool_decide (re_Type parsed = StreamEventTypeResponseIncomplete) then
        let message := match (if re_Response parsed then re_Reason parsed else None) with
                       | Some reason => if bool_decide (reason = "") then "response incomplete"
                                        else "response incomplete: " +:+ reason
                       | None => "response incomplete"
                       end in
        responses_failure parsed event_error (mkDetail "" message "response_incomplete" "")
      else if bool_decide (re_Type parsed = StreamEventTypeResponseCancelled) then
        responses_failure parsed event_error (mkDetail "" "response cancelled" "response_cancelled" "")
      else if bool_decide (re_Type parsed = StreamEventTypeError) then
        let message := if bool_decide (re_Message parsed = "") then "responses stream error" else re_Message parsed in
        responses_failure parsed event_error (mkDetail (re_Code parsed) message "stream_error" "")
      else
        let content := HasSuffix (re_Type parsed) ".delta"
                       || one_of ["output_item.added"; "output_item.done"] (re_Type parsed) in
        mkVerdict false None None content false false false false
  end.

Definition analyzeStreamEvent (format : APIFormat) (event : option StreamEvent) : streamEventVerdict :=
  match event with
  | None => no_verdict
  | Some event =>
      if slen (ev_Data event) =? 0 then no_verdict
      else match format with
           | APIFormatOpenAIChatCompletion => analyzeChatStreamEvent event
           | APIFormatAnthropicMessage => analyzeAnthropicEvent event
           | APIFormatOpenAIResponse => analyzeResponsesEvent event
           | _ => no_verdict
           end
  end.
End analyze.
