(* ===== verification/StreamWindow.v ===== *)
(** * Before the first byte

    relay/protocol.go and relay/upstream.go: what is checked while a round can
    still be given to another member.  A complete response is validated as a
    whole; of a stream, [readStreamWindow] reads ahead until content, the end of
    the stream or a fixed budget. *)

From stdpp Require Import pretty.
From S2P Require Import Prelude GoStrings Utf8 Float64 GroupModel Protocol Errors Usage StreamEvents.

(** The JSON text of the sources, written with single quotes. *)
Fixpoint quoted (s : string) : string :=
  match s with
  | String.String a s => String.String (if Ascii.eqb a (of_byte 39) then quote_byte else a) (quoted s)
  | EmptyString => EmptyString
  end.

(** [terminalStreamFrames]: [now] is the clock in seconds; json.Marshal sorts the
    keys of a map. *)
Definition terminalStreamFrames (now : Z) (format : APIFormat) : list StreamEvent :=
  match format with
  | APIFormatOpenAIChatCompletion =>
      [mkEvent "" "" (quoted "{'choices':[{'delta':{},'finish_reason':'stop','index':0}],'created':" +:+ pretty now +:+
                      quoted ",'id':'chatcmpl-novaveil-recovery','model':'','object':'chat.completion.chunk'}");
       mkEvent "" "" "[DONE]"]
  | APIFormatAnthropicMessage =>
      [mkEvent "" "message_delta" (quoted "{'delta':{'stop_reason':'end_turn','stop_sequence':null},'type':'message_delta','usage':{'output_tokens':0}}");
       mkEvent "" "message_stop" (quoted "{'type':'message_stop'}")]
  | APIFormatOpenAIResponse =>
      [mkEvent "" "response.completed"
         (quoted "{'response':{'created_at':" +:+ pretty now +:+
          quoted ",'id':'resp_novaveil_recovery','object':'response','output':[],'status':'completed'},'type':'response.completed'}")]
  | _ => []
  end.

Definition streamWindowMaxEvents : Z := 4096.
Definition streamWindowMaxBytes : Z := 8 * 1024 * 1024.
Definition errBodySnippetLimit : Z := 8 * 1024.
Definition errBodySnippet (data : string) : string := truncateUTF8Bytes data errBodySnippetLimit.

(** What the library makes of the events of a whole response: its body and usage,
    or an error; and the finish reason of the first choice of a body. *)
Class Aggregator (Usage : Type) := {
  AggregateStreamChunks : list StreamEvent -> (string * option Usage) + GoErr;
  body_finish_reason : string -> string;
}.

Section window.
Context {Usage : Type} `{ops : !UsageOps Usage} `{agg : !Aggregator Usage} `{dec : Decoder}.

(** ** Complete responses *)

(** The unified response: the finish reason of each choice, and the usage. *)
Record Response := mkResponse { rs_Choices : list (option string); rs_Usage : option Usage }.

Definition unifiedFinishReason (response : option Response) : string :=
  match response with
  | Some r => match rs_Choices r with Some reason :: _ => reason | _ => "" end
  | None => ""
  end.

Definition validateRoundUsage (usage : option Usage) (reason : string) : option GoErr :=
  match usage with
  | None => None
  | Some u =>
      if negb (CompletionTokens u =? 0) then None
      else if validEmptyOutputTerminal reason then None
      else Some (wrap err_ZeroOutput "output tokens reported as 0")
  end.

Definition validateResponse (format : APIFormat) (response : option Response) : option GoErr :=
  match response with
  | None => Some (plain "upstream response is empty")
  | Some r =>
      match rs_Choices r with
      | [] => match rs_Usage r with
              | None => Some (plain "upstream 200 response has neither choices nor usage")
              | Some _ => None
              end
      | None :: _ => None
      | Some reason :: _ =>
          let failure := fun message kind => Some (response_error (mkDetail "" message kind "")) in
          let special :=
            if bool_decide (format = APIFormatOpenAIResponse) then
              if bool_decide (reason = "error") then failure "response failed" "response_failed"
              else if bool_decide (reason = "length") then failure "response incomplete" "response_incomplete"
              else if bool_decide (reason = "cancelled") then failure "response cancelled" "response_cancelled"
              else None
            else None in
          match special with
          | Some e => Some e
          | None => if negb (validUnifiedFinishReason reason) then Some (wrap err_AbnormalFinish reason) else None
          end
      end
  end.

(** *** An answer, not only reasoning *)

Record Message := mkMessage {
  mg_Content : Content;                        (** [content] *)
  mg_Reasoning : option string;                (** [reasoning_content], when a string *)
  mg_ToolCalls : nat }.                        (** the length of the array [tool_calls] *)

Definition chatMessageHasAnswer (m : Message) : bool :=
  match mg_Content m with
  | ContentString text => negb (bool_decide (text = ""))
  | ContentParts texts => existsb (fun t => negb (bool_decide (t = ""))) texts
  | ContentOther => false
  end || (0 <? Z.of_nat (mg_ToolCalls m)).

(** [reason] and [message] are [choices.0.finish_reason] and [choices.0.message]
    of the body. *)
Definition validateRoundAnswer (format : APIFormat) (reason : string) (message : option Message) : option GoErr :=
  if negb (bool_decide (format = APIFormatOpenAIChatCompletion)) then None
  else if negb (bool_decide (reason = "stop")) then None
  else match message with
       | None => None
       | Some m =>
           if chatMessageHasAnswer m then None
           else match mg_Reasoning m with
                | None => None
                | Some text => if bool_decide (text = "") then None
                               else Some (wrap err_NoAnswerStop "finish_reason stop with reasoning_content only")
                end
       end.

(** ** The window of a stream *)

Definition rejectZeroOutput (window : list StreamEvent) : option GoErr :=
  match last window with
  | None => Some (plain "upstream stream ended without events")
  | Some event =>
      match AggregateStreamChunks window with
      | inr _ => None
      | inl (body, usage) =>
          (fun e => wrap e (errBodySnippet (ev_Data event))) <$> validateRoundUsage usage (body_finish_reason body)
      end
  end.

Definition window_budget : GoErr :=
  sentinel "upstream stream window budget exceeded" errStreamWindowBudgetExceeded.

Inductive WindowResult :=
| WindowFailed (err : GoErr)
| WindowOpen (window : list StreamEvent) (ended terminated : bool) (rest : list (option StreamEvent)).

(** [readStreamWindow] on the events still to come, [final] being [events.Err()]
    once they are used up; the result keeps the events it has not read. *)
Fixpoint read_window (format : APIFormat) (final : option GoErr) (window : list StreamEvent) (bytes : Z)
    (sawContent sawFinishSeen : bool) (events : list (option StreamEvent)) : WindowResult :=
  match events with
  | [] =>
      match final with
      | Some err => WindowFailed err
      | None => WindowFailed (wrap err_StreamEarlyEof (default "" (errBodySnippet ∘ ev_Data <$> last window)))
      end
  | None :: events => read_window format final window bytes sawContent sawFinishSeen events
  | Some event :: events =>
      if slen (ev_Data event) =? 0 then read_window format final window bytes sawContent sawFinishSeen events
      else
        let bytes := bytes + slen (ev_Data event) in
        if (streamWindowMaxEvents <? Z.of_nat (length window) + 1) || (streamWindowMaxBytes <? bytes)
        then WindowFailed (wrap window_budget (pretty bytes))
        else
          let verdict := analyzeStreamEvent format (Some event) in
          let snippet := errBodySnippet (ev_Data event) in
          match v_inspectErr verdict, v_abnormalErr verdict with
          | Some err, _ => WindowFailed (wrap err snippet)
          | None, Some err => WindowFailed (wrap err snippet)
          | None, None =>
              let window := window ++ [event] in
              let sawContent := sawContent || v_hasContent verdict in
              let sawFinishSeen := sawFinishSeen || v_finishSeen verdict in
              if v_terminal verdict then
                match rejectZeroOutput window with
                | Some err => WindowFailed err
                | None => if negb sawContent && negb sawFinishSeen
                          then WindowFailed (wrap err_StreamEarlyEof snippet)
                          else WindowOpen window true true events
                end
              else if v_hasContent verdict then WindowOpen window false false events
              else read_window format final window bytes sawContent sawFinishSeen events
          end
  end.

Definition readStreamWindow (format : APIFormat) (final : option GoErr) (events : list (option StreamEvent)) :=
  read_window format final [] 0 false false events.
End window.
Arguments Response : clear implicits.
