(* ===== verification/StreamForward.v ===== *)
(** * Forwarding a stream

    relay/handler.go, the second half of [Forward]: once a round has produced a
    window of events the response is committed, and every further event is
    judged, restored and written to the client as it arrives.  Nothing can be
    retried any more: a stream that fails is cut without a terminal event. *)

From coqutil Require Export Datatypes.RecordSetters.
Export RecordSetters.OCamlLikeNotations.
From S2P Require Import Prelude GoStrings Utf8 Float64 GroupModel Protocol Errors Usage StreamEvents StreamWindow.

(** What the loop needs from the other side of the client connection: the encoder
    of the sse library, and the rewriting of event data (mask_integration.go and
    the model echo), over the state [R] of the restorer. *)
Class ClientSide (R : Type) := {
  sse_encode : StreamEvent -> option string;
  restoreStreamEvent : APIFormat -> R -> string -> R * string;
  flushStreamRestorer : APIFormat -> R -> list string;
  echoStreamResponseModel : APIFormat -> string -> string -> string;
}.

(** What the loop leaves for the request state, in order. *)
Inductive StreamEffect := Committed | OutputChars (n : Z).

Section forward.
Context {Usage R : Type} `{ops : !UsageOps Usage} `{agg : !Aggregator Usage} `{dec : Decoder} `{cli : !ClientSide R}.

(** The fixed inputs of one forwarding; [in_write n] is the outcome of the n-th
    write to the client, a short write included. *)
Record StreamInput := mkInput {
  in_format : APIFormat; in_model : string; in_config : GroupRelayConfig;
  in_window : list StreamEvent; in_terminated : bool; in_rest : list (option StreamEvent);
  in_final : option GoErr;                   (** [events.Err()] at the end *)
  in_cause : option GoErr;                   (** the cause of the round context once it is done *)
  in_write : nat -> option GoErr; in_restorer : option R;
  in_now : Z }.

Definition streamIdleSeconds (config : GroupRelayConfig) : Z :=
  if 0 <? MemberStreamIdleTimeoutSeconds config then MemberStreamIdleTimeoutSeconds config
  else if MemberStreamIdleTimeoutSeconds config =? 0 then 0
  else MemberStreamIdleTimeoutSeconds DefaultGroupRelayConfig.
Definition streamMaxBytes (config : GroupRelayConfig) : Z :=
  if 0 <=? MemberStreamMaxBytes config then MemberStreamMaxBytes config
  else MemberStreamMaxBytes DefaultGroupRelayConfig.
Definition streamMaxEvents (config : GroupRelayConfig) : Z :=
  if 0 <=? MemberStreamMaxEvents config then MemberStreamMaxEvents config
  else MemberStreamMaxEvents DefaultGroupRelayConfig.

(** The local variables of the loop; [polluted] is whether [f_polluteErr] is set. *)
Record Forwarding := mkForwarding {
  f_committed : bool; f_terminalSeen : bool; f_clientGone : bool; f_polluteErr : option GoErr;
  f_noAnswerStop : bool; f_roundAnswered : bool; f_roundReasoned : bool; f_roundFinished : bool;
  f_last : bool; f_firstErr : option GoErr; f_totalBytes : Z; f_totalEvents : Z;
  f_chunks : list StreamEvent;
  f_written : list StreamEvent;              (** what reached the client, before encoding *)
  f_writes : nat; f_effects : list StreamEffect; f_restorer : option R }.

Implicit Types (inp : StreamInput) (st : Forwarding).

Definition forwarding_init inp : Forwarding :=
  mkForwarding false (in_terminated inp) false None false false false false false None 0 0 [] [] 0 [] (in_restorer inp).

(** [if firstErr == nil { firstErr = err }]. *)
Definition first_error (old new : option GoErr) : option GoErr :=
  match old with Some e => Some e | None => new end.

(** Updates of the loop. *)
Definition with_error (e : GoErr) st : Forwarding := { st with f_firstErr ::= (fun old => first_error old (Some e)) }.
Definition counted (event : StreamEvent) st : Forwarding :=
  { st with f_totalBytes ::= Z.add (slen (ev_Data event)); f_totalEvents ::= Z.add 1 }.
Definition keep_chunk (event : StreamEvent) st : Forwarding := { st with f_chunks ::= (fun l => l ++ [event]) }.
Definition judged (v : streamEventVerdict) st : Forwarding :=
  let ends := is_some (v_inspectErr v) || v_terminal v in
  { st with f_roundAnswered ::= orb (v_hasAnswer v); f_roundReasoned ::= orb (v_hasReasoning v);
            f_roundFinished ::= orb (v_finishSeen v);
            f_last ::= orb ends; f_terminalSeen ::= orb ends;
            f_firstErr ::= (fun old => if ends then first_error old (v_inspectErr v) else old) }.
Definition commit_response st : Forwarding :=
  if f_committed st then st
  else { st with f_committed := true; f_effects ::= (fun l => l ++ [Committed]) }.
(** A write: the client has the event when it did not fail. *)
Definition wrote inp (event : StreamEvent) st : Forwarding :=
  { st with f_written ::= (fun l => match in_write inp (f_writes st) with None => l ++ [event] | Some _ => l end);
            f_writes ::= S }.

(** ** One event *)

Definition over_budget inp st : bool :=
  ((0 <? streamMaxBytes (in_config inp)) && (streamMaxBytes (in_config inp) <? f_totalBytes st))
  || ((0 <? streamMaxEvents (in_config inp)) && (streamMaxEvents (in_config inp) <? f_totalEvents st)).
Definition err_StreamBudgetExceeded : GoErr := sentinel "upstream stream budget exceeded" errStreamBudgetExceeded.

(** Restoring the masked values, then echoing the model of the client. *)
Definition rewrite_event inp (event : StreamEvent) st : StreamEvent * Forwarding :=
  let '(data, st) :=
    match f_restorer st with
    | Some r => let '(r, data) := restoreStreamEvent (in_format inp) r (ev_Data event) in
                (data, { st with f_restorer := Some r })
    | None => (ev_Data event, st)
    end in
  let data := if EchoResponseModel (in_config inp)
              then echoStreamResponseModel (in_format inp) (in_model inp) data else data in
  (mkEvent (ev_LastEventID event) (ev_Type event) data, st).

(** Writing an event that may reach the client; [true] ends the loop. *)
Definition deliver inp (event : StreamEvent) st : bool * Forwarding :=
  let '(event, st) := rewrite_event inp event st in
  let st := keep_chunk event st in
  match sse_encode event with
  | None => (true, with_error (plain "encode") st)
  | Some _ =>
      let st := commit_response st in
      let outcome := in_write inp (f_writes st) in
      let st := wrote inp event st in
      match outcome with
      | Some err => (true, { with_error err st with f_clientGone := true })
      | None => (f_last st, { st with f_effects ::= (fun l => l ++ [OutputChars (Z.of_nat (length (to_runes (ev_Data event))))]) })
      end
  end.

Definition forward_event inp (event : StreamEvent) st : bool * Forwarding :=
  let st := counted event st in
  if over_budget inp st then (true, with_error (wrap err_StreamBudgetExceeded "") st)
  else if is_some (f_polluteErr st) then (false, keep_chunk event st)
  else
    let verdict := analyzeStreamEvent (in_format inp) (Some event) in
    let st := judged verdict st in
    match v_abnormalErr verdict with
    | Some err => (false, keep_chunk event { st with f_polluteErr := Some err })
    | None =>
        let st := if v_stopFinish verdict && f_roundReasoned st && negb (f_roundAnswered st)
                  then { st with f_noAnswerStop := true } else st in
        if f_noAnswerStop st then (f_last st, keep_chunk event st)
        else deliver inp event st
    end.

(** ** The loop *)

(** The events of the window come first, whatever [last] says. *)
Fixpoint forward_window inp (events : list StreamEvent) st : bool * Forwarding :=
  match events with
  | [] => (false, st)
  | event :: events =>
      let '(stop, st) := forward_event inp event st in
      if stop then (true, st) else forward_window inp events st
  end.

Fixpoint forward_rest inp (events : list (option StreamEvent)) st : Forwarding :=
  if f_last st then st
  else
    match events with
    | [] => st
    | None :: events => forward_rest inp events st
    | Some event :: events =>
        let '(stop, st) := forward_event inp event st in
        if stop then st else forward_rest inp events st
    end.

Definition forward_loop inp : Forwarding :=
  let '(stop, st) := forward_window inp (in_window inp) (forwarding_init inp) in
  if stop then st else forward_rest inp (in_rest inp) st.

(** ** After the loop *)

(** What the restorer has kept back, as events of its own. *)
Definition flush_frame inp st (data : string) : Forwarding :=
  if slen data =? 0 then st
  else
    let event := mkEvent "" "" data in
    match sse_encode event with Some _ => wrote inp event st | None => st end.
Definition flush_restorer inp st : Forwarding :=
  match f_restorer st with
  | None => st
  | Some r => foldl (flush_frame inp) st (flushStreamRestorer (in_format inp) r)
  end.

(** The first error, once the idle timer and the reader have been asked. *)
Definition settle_error inp st : option GoErr :=
  let idle := match in_cause inp with
              | Some cause => if errors_Is (Some cause) errStreamIdleTimeout then Some err_StreamIdleTimeout else None
              | None => None
              end in
  first_error (first_error (f_firstErr st) idle) (in_final inp).

Definition aggregate_failure (e : GoErr) : GoErr := errorf_w ("aggregate stream chunks: " +:+ err_Error e) e.

(** [frameFailure], from the first error and the result of the aggregation. *)
Definition frame_failure st (firstErr aggregateErr : option GoErr) : option GoErr :=
  let failure :=
    if is_some (f_polluteErr st) then None
    else if f_noAnswerStop st && negb (is_some firstErr) then Some err_NoAnswerStop
    else if negb (is_some firstErr) && negb (f_terminalSeen st)
    then if f_roundFinished st then None else Some err_StreamEarlyClose
    else firstErr in
  match failure with
  | Some e => Some e
  | None => if negb (is_some (f_polluteErr st)) && negb (f_noAnswerStop st)
            then aggregate_failure <$> aggregateErr else None
  end.

(** The synthetic end of a complete stream that lacks its sentinel. *)
Fixpoint write_frames inp (frames : list StreamEvent) st : Forwarding :=
  match frames with
  | [] => st
  | frame :: frames =>
      match sse_encode frame with
      | None => st
      | Some _ =>
          let outcome := in_write inp (f_writes st) in
          let st := wrote inp frame st in
          match outcome with Some _ => st | None => write_frames inp frames st end
      end
  end.

(** The end of a forwarding: the final state, the failure the request ends with,
    if any, and the aggregated body and usage.  [ctxErr] is the context of the
    client once the stream has been read. *)
Record StreamOutcome := mkStreamOutcome {
  so_state : Forwarding; so_failure : option GoErr; so_body : string; so_usage : option Usage;
  so_synthetic : bool }.

Definition stream_finish inp (ctxErr : option GoErr) st : StreamOutcome :=
  let st := flush_restorer inp st in
  let firstErr := settle_error inp st in
  let aggregated := AggregateStreamChunks (f_chunks st) in
  let '(body, usage, aggregateErr) :=
    match aggregated with
    | inl (body, usage) => (body, usage, None)
    | inr e => ("", None, Some e)
    end in
  let failure := frame_failure st firstErr aggregateErr in
  let synthetic := f_committed st && negb (f_clientGone st) && negb (is_some ctxErr)
                   && negb (is_some (f_polluteErr st)) && negb (is_some failure) && negb (f_terminalSeen st) in
  let st := if synthetic then write_frames inp (terminalStreamFrames (in_now inp) (in_format inp)) st else st in
  mkStreamOutcome st (first_error firstErr (first_error (f_polluteErr st) failure)) body usage synthetic.

Definition forward_stream inp (ctxErr : option GoErr) : StreamOutcome :=
  stream_finish inp ctxErr (forward_loop inp).
End forward.
Arguments StreamInput : clear implicits.
Arguments Forwarding : clear implicits.
Arguments StreamOutcome : clear implicits.
