(* ===== verification/StreamThms.v ===== *)
(** * What the client of a stream sees

    Theorems on StreamWindow and StreamForward: which rounds may be committed,
    what is delivered of them, and that a stream that fails is cut without an
    end the client could mistake for success. *)

From S2P Require Import Prelude GoStrings Utf8 Float64 GroupModel Protocol Errors Usage StreamEvents StreamWindow.
From S2P Require Import StreamForward.

#[local] Arguments Z.add : simpl never.

Section thms.
Context {Usage R : Type} `{ops : !UsageOps Usage} `{agg : !Aggregator Usage} `{dec : Decoder} `{cli : !ClientSide R}.
Implicit Types (inp : StreamInput R) (st : Forwarding R) (event : StreamEvent).

(** ** The window *)

(** An event that may stand in a window: decoded, without error. *)
Definition admissible (format : APIFormat) event : Prop :=
  ev_Data event ≠ "" /\ v_inspectErr (analyzeStreamEvent format (Some event)) = None /\
  v_abnormalErr (analyzeStreamEvent format (Some event)) = None.

Definition has (p : streamEventVerdict -> bool) (format : APIFormat) (events : list StreamEvent) : bool :=
  existsb (fun e => p (analyzeStreamEvent format (Some e))) events.

Definition data_length (events : list StreamEvent) : Z := foldr (fun e n => slen (ev_Data e) + n) 0 events.

Lemma data_length_snoc events e : data_length (events ++ [e]) = data_length events + slen (ev_Data e).
Proof. induction events as [|x l IH]; cbn [app data_length foldr]; [lia|]. fold (data_length (l ++ [e])). rewrite IH. fold (data_length l). lia. Qed.

Lemma has_snoc p format events e : has p format (events ++ [e]) = has p format events || p (analyzeStreamEvent format (Some e)).
Proof. unfold has. rewrite existsb_app. cbn [existsb]. by rewrite orb_false_r. Qed.

(** The events that carry data, which is all the window keeps. *)
Definition nonempty (events : list (option StreamEvent)) : list StreamEvent :=
  filter (fun e => ev_Data e ≠ "") (omap (fun e => e) events).

Lemma slen_zero s : (slen s =? 0) = true <-> s = "".
Proof. rewrite Z.eqb_eq. unfold slen. destruct s; cbn; split; (done || lia). Qed.

Lemma read_window_open format final events w bytes c f window ended terminated rest :
  read_window format final w bytes c f events = WindowOpen window ended terminated rest ->
  bytes = data_length w -> c = has v_hasContent format w -> f = has v_finishSeen format w ->
  Forall (admissible format) w ->
  Forall (admissible format) window /\ w ++ nonempty events = window ++ nonempty rest /\
  Z.of_nat (length window) <= streamWindowMaxEvents /\ data_length window <= streamWindowMaxBytes /\
  (exists init e, window = init ++ [e] /\
     (if terminated then ended = true /\ v_terminal (analyzeStreamEvent format (Some e)) = true /\
                         (has v_hasContent format window || has v_finishSeen format window = true)
      else ended = false /\ v_hasContent (analyzeStreamEvent format (Some e)) = true)).
Proof.
  revert w bytes c f. induction events as [|[event|] events IH]; intros w bytes c f; cbn [read_window].
  { destruct final; intros Hr; cbn in Hr; discriminate. }
  2:{ intros Hr Hb Hc Hf Hw. apply (IH _ _ _ _ Hr Hb Hc Hf Hw). }
  destruct (slen (ev_Data event) =? 0) eqn:Hz.
  { apply slen_zero in Hz. intros Hr Hb Hc Hf Hw. specialize (IH _ _ _ _ Hr Hb Hc Hf Hw).
    unfold nonempty in *. cbn [omap list_omap]. rewrite filter_cons_False; [exact IH|]. intros Hne. by apply Hne. }
  assert (Hne : ev_Data event ≠ "") by (intros He; apply slen_zero in He; congruence).
  assert (Hall : forall l, w ++ nonempty (Some event :: l) = (w ++ [event]) ++ nonempty l).
  { intros l. unfold nonempty. cbn [omap list_omap]. rewrite filter_cons_True by done. by rewrite <- app_assoc. }
  cbv zeta. destruct ((streamWindowMaxEvents <? _) || _) eqn:Hbudget; [done|]. apply orb_false_iff in Hbudget as [Hn Hm].
  destruct (v_inspectErr _) eqn:Hi; [done|]. destruct (v_abnormalErr _) eqn:Ha; [done|].
  intros Hr Hb Hc0 Hf Hw. subst bytes c f. rewrite Hall. rewrite <- !has_snoc in Hr.
  assert (Hw' : Forall (admissible format) (w ++ [event])).
  { apply Forall_app. split; [done|]. apply Forall_singleton. done. }
  assert (Hlen : Z.of_nat (length (w ++ [event])) <= streamWindowMaxEvents) by (rewrite length_app; cbn; lia).
  assert (Hdata : data_length (w ++ [event]) <= streamWindowMaxBytes) by (rewrite data_length_snoc; lia).
  destruct (v_terminal (analyzeStreamEvent format (Some event))) eqn:Ht.
  - destruct (rejectZeroOutput _); [done|]. destruct (negb _ && negb _) eqn:Hc; [done|].
    injection Hr as <- <- <- <-. do 4 (split; [done|]). exists w, event. split; [done|]. do 2 (split; [done|]).
    destruct (has v_hasContent _ _), (has v_finishSeen _ _); done.
  - destruct (v_hasContent (analyzeStreamEvent format (Some event))) eqn:Hc.
    + injection Hr as <- <- <- <-. do 4 (split; [done|]). by exists w, event.
    + apply (IH _ _ _ _ Hr); try done. by rewrite data_length_snoc.
Qed.

(** A stream is committed only after a window that ends in content, or in the
    end of the protocol after content or a valid finish reason: an empty stream,
    an error, an abnormal finish or a flood of empty events is left to another
    member.  The window is within its budget and nothing of the stream is lost
    or reordered. *)
Theorem window_opens_on_content format final events window ended terminated rest :
  readStreamWindow format final events = WindowOpen window ended terminated rest ->
  Forall (admissible format) window /\ nonempty events = window ++ nonempty rest /\
  Z.of_nat (length window) <= streamWindowMaxEvents /\ data_length window <= streamWindowMaxBytes /\
  ended = terminated /\
  (exists init e, window = init ++ [e] /\
     if terminated then v_terminal (analyzeStreamEvent format (Some e)) = true /\
                        (has v_hasContent format window || has v_finishSeen format window = true)
     else v_hasContent (analyzeStreamEvent format (Some e)) = true).
Proof.
  intros Hr. destruct (read_window_open _ _ _ _ _ _ _ _ _ _ _ Hr) as (Hadm & Heq & Hn & Hb & init & e & Hw & Ht);
    try done. do 4 (split; [done|]). split; [by destruct terminated; destruct Ht|]. exists init, e. split; [done|].
  destruct terminated; naive_solver.
Qed.
(** ** The forwarding loop *)

Notation verdict inp e := (analyzeStreamEvent (in_format inp) (Some e)).

(** A frame written for an event: its data may have been restored or echoed. *)
Definition frame_of (e frame : StreamEvent) : Prop :=
  ev_Type frame = ev_Type e /\ ev_LastEventID frame = ev_LastEventID e.

(** The loop has taken the events [seen] and delivered [src] of them. *)
Record forwarded inp (seen src : list StreamEvent) st : Prop := {
  fw_sub : sublist src seen;
  fw_frames : Forall2 frame_of src (f_written st);
  fw_normal : Forall (fun e => v_abnormalErr (verdict inp e) = None) src;
  fw_events : f_totalEvents st = Z.of_nat (length seen);
  fw_bytes : f_totalBytes st = data_length seen;
  fw_max_events : 0 < streamMaxEvents (in_config inp) -> Z.of_nat (length src) <= streamMaxEvents (in_config inp);
  fw_max_bytes : 0 < streamMaxBytes (in_config inp) -> data_length src <= streamMaxBytes (in_config inp);
}.

Definition unended inp (src : list StreamEvent) : Prop :=
  Forall (fun e => v_terminal (verdict inp e) = false) src.

(** A stream that the client must not take for complete. *)
Definition spoiled st : bool := is_some (f_polluteErr st) || f_noAnswerStop st.

Lemma sublist_data (l1 l2 : list StreamEvent) : sublist l1 l2 -> data_length l1 <= data_length l2.
Proof.
  intros Hs. assert (Hpos : forall e, 0 <= slen (ev_Data e)) by (intros e; apply slen_nonneg).
  induction Hs as [|e l1 l2 _ IH|e l1 l2 _ IH]; cbn [data_length foldr]; [lia| |]; fold (data_length l2);
    try fold (data_length l1); specialize (Hpos e); lia.
Qed.

Lemma forwarded_same inp seen src st st' :
  forwarded inp seen src st -> f_written st' = f_written st -> f_totalEvents st' = f_totalEvents st ->
  f_totalBytes st' = f_totalBytes st -> forwarded inp seen src st'.
Proof. intros [] H1 H2 H3. split; try done; by rewrite ?H1, ?H2, ?H3. Qed.

Lemma forwarded_counted inp seen src st event :
  forwarded inp seen src st -> forwarded inp (seen ++ [event]) src (counted event st).
Proof.
  destruct st; intros []; cbn in *. split; try done; cbn.
  - by apply sublist_inserts_r.
  - rewrite length_app; cbn; lia.
  - rewrite data_length_snoc. lia.
Qed.

Lemma rewrite_event_frame inp event st :
  let '(frame, st') := rewrite_event inp event st in
  frame_of event frame /\ exists r, st' = { st with f_restorer := r }.
Proof.
  unfold rewrite_event. destruct (f_restorer st) as [r|] eqn:Hr.
  - destruct (restoreStreamEvent _ _ _) as [r' data]. split; [done|]. by eexists.
  - split; [done|]. exists None. destruct st. cbn in *. by rewrite Hr.
Qed.

Lemma deliver_spec inp event st stop st' :
  deliver inp event st = (stop, st') ->
  f_polluteErr st' = f_polluteErr st /\ f_noAnswerStop st' = f_noAnswerStop st /\ f_last st' = f_last st /\
  f_totalEvents st' = f_totalEvents st /\ f_totalBytes st' = f_totalBytes st /\
  (f_written st' = f_written st \/ exists frame, frame_of event frame /\ f_written st' = f_written st ++ [frame]) /\
  (stop = false -> f_last st = false).
Proof.
  unfold deliver. pose proof (rewrite_event_frame inp event st) as Hf.
  destruct (rewrite_event inp event st) as [frame st1]. destruct Hf as [Hframe (r & ->)].
  destruct st as [c ts cg pe na ra rr rf la fe tb te ch wr n ef re]; unfold keep_chunk, commit_response, wrote, with_error; cbn in *.
  destruct (sse_encode frame) as [data|]; [|intros [= <- <-]; cbn; do 5 (split; [done|]); split; [by left|done]].
  destruct c; cbn.
  all: destruct (in_write inp n) as [err|] eqn:Hw; intros [= <- <-]; cbn; rewrite ?Hw; do 5 (split; [done|]).
  all: (split; [by left|done]) || (split; [right; by exists frame|done]).
Qed.

Lemma spoiled_chunk event st : spoiled (keep_chunk event st) = spoiled st.
Proof. by destruct st. Qed.
Lemma spoiled_noAnswer st : f_noAnswerStop st = true -> spoiled st = true.
Proof. unfold spoiled. intros ->. by rewrite orb_true_r. Qed.

Lemma forward_event_spec inp seen src st event stop st' :
  forwarded inp seen src st -> unended inp src -> (f_last st = true -> spoiled st = true) ->
  forward_event inp event st = (stop, st') ->
  exists src', forwarded inp (seen ++ [event]) src' st' /\ (spoiled st' = true -> unended inp src') /\
    (stop = false -> unended inp src' /\ (f_last st' = true -> spoiled st' = true)).
Proof.
  intros Hfw Hun Hlast. apply (forwarded_counted _ _ _ _ event) in Hfw as Hc. unfold forward_event. cbv zeta.
  destruct (over_budget _ _) eqn:Hb.
  { intros [= <- <-]. exists src. split; [by apply (forwarded_same _ _ _ _ _ Hc)|]. done. }
  destruct (is_some (f_polluteErr (counted event st))) eqn:Hp.
  { intros [= <- <-]. exists src. split; [by apply (forwarded_same _ _ _ _ _ Hc)|]. split; [done|].
    intros _. split; [done|]. rewrite spoiled_chunk. unfold spoiled. by rewrite Hp. }
  destruct (v_abnormalErr (verdict inp event)) as [err|] eqn:Ha.
  { intros [= <- <-]. exists src. split; [by apply (forwarded_same _ _ _ _ _ Hc)|]. done. }
  set (v := verdict inp event) in *. set (st1 := judged v (counted event st)).
  set (st2 := if v_stopFinish v && _ && _ then _ else st1).
  assert (H2 : forwarded inp (seen ++ [event]) src st2).
  { apply (forwarded_same _ _ _ _ _ Hc); subst st2; by destruct (_ && _). }
  assert (Hpoll : f_polluteErr st2 = None).
  { subst st2. cbn in Hp. apply is_some_false in Hp. by destruct (_ && _). }
  destruct (f_noAnswerStop st2) eqn:Hna.
  { intros [= <- <-]. exists src. split; [by apply (forwarded_same _ _ _ _ _ H2)|]. split; [done|].
    intros _. split; [done|]. rewrite spoiled_chunk. by rewrite spoiled_noAnswer. }
  intros Hd. apply deliver_spec in Hd as (H3 & H4 & H5 & H6 & H7 & Hw & Hstop).
  assert (Hsp : spoiled st' = false) by (unfold spoiled; rewrite H3, H4, Hpoll, Hna; done).
  assert (Hend : stop = false -> v_terminal v = false).
  { intros Hs. specialize (Hstop Hs). subst st2. destruct (_ && _) in Hstop; cbn in Hstop.
    all: apply orb_false_iff in Hstop as [[_ Ht]%orb_false_iff _]; done. }
  rewrite Hsp. destruct Hw as [Hw|(frame & Hframe & Hw)].
  - exists src. split; [by apply (forwarded_same _ _ _ _ _ H2)|]. split; [done|].
    intros Hs. split; [done|]. rewrite H5, (Hstop Hs). done.
  - exists (src ++ [event]). split; [|split; [done|]].
    + destruct H2 as [Hsub Hfr Hno He Hby Hme Hmb]. assert (Hsub' : sublist (src ++ [event]) (seen ++ [event])).
      { apply sublist_app; [|done]. by apply (fw_sub _ _ _ _ Hfw). }
      assert (Hlen := sublist_length _ _ Hsub'). assert (Hdat := sublist_data _ _ Hsub').
      unfold over_budget in Hb. cbn in Hb. apply orb_false_iff in Hb as [Hb1 Hb2].
      destruct (forwarded_counted _ _ _ _ event Hfw) as [_ _ _ Hce Hcb _ _]. cbn in Hce, Hcb.
      split; try done; try congruence.
      * rewrite Hw. apply Forall2_app; [|by constructor]. done.
      * apply Forall_app. split; [done|]. by apply Forall_singleton.
      * intros Hpos. apply andb_false_iff in Hb2 as [?|?]; lia.
      * intros Hpos. apply andb_false_iff in Hb1 as [?|?]; lia.
    + intros Hs. split; [|rewrite H5, (Hstop Hs); done].
      apply Forall_app. split; [done|]. apply Forall_singleton. by apply Hend.
Qed.
Lemma forward_window_spec inp events seen src st stop st' :
  forwarded inp seen src st -> unended inp src -> (f_last st = true -> spoiled st = true) ->
  forward_window inp events st = (stop, st') ->
  exists taken src', taken `prefix_of` events /\ forwarded inp (seen ++ taken) src' st' /\
    (spoiled st' = true -> unended inp src') /\
    (stop = false -> taken = events /\ unended inp src' /\ (f_last st' = true -> spoiled st' = true)).
Proof.
  revert seen src st. induction events as [|event events IH]; intros seen src st Hfw Hun Hlast; cbn [forward_window].
  { intros [= <- <-]. exists [], src. rewrite app_nil_r. split; [done|]. by split. }
  destruct (forward_event inp event st) as [b st1] eqn:He.
  destruct (forward_event_spec _ _ _ _ _ _ _ Hfw Hun Hlast He) as (src1 & Hfw1 & Hsp & Hgo).
  destruct b.
  - intros [= <- <-]. exists [event], src1. split; [by apply prefix_cons, prefix_nil|]. by split.
  - destruct (Hgo eq_refl) as [Hun1 Hlast1]. intros Hw.
    destruct (IH _ _ _ Hfw1 Hun1 Hlast1 Hw) as (taken & src' & Hpre & Hfw' & Hrest).
    exists (event :: taken), src'. split; [by apply prefix_cons|]. rewrite <- app_assoc in Hfw'.
    destruct Hrest as (Hfw'' & Hrest). split; [done|]. split; [done|]. intros Hs. by destruct (Hrest Hs) as [-> ?].
Qed.

Notation events_of l := (omap (fun e : option StreamEvent => e) l).

Lemma forward_rest_spec inp events seen src st :
  forwarded inp seen src st -> unended inp src -> (f_last st = true -> spoiled st = true) ->
  exists taken src', taken `prefix_of` events_of events /\ forwarded inp (seen ++ taken) src' (forward_rest inp events st) /\
    (spoiled (forward_rest inp events st) = true -> unended inp src').
Proof.
  revert seen src st. induction events as [|[event|] events IH]; intros seen src st Hfw Hun Hlast; cbn [forward_rest].
  - exists [], src. rewrite app_nil_r. split; [by apply prefix_nil|]. by destruct (f_last st).
  - destruct (f_last st) eqn:Hl; [exists [], src; rewrite app_nil_r; split; [by apply prefix_nil|]; by split|].
    rewrite <- Hl in Hlast. destruct (forward_event inp event st) as [b st1] eqn:He.
    destruct (forward_event_spec _ _ _ _ _ _ _ Hfw Hun Hlast He) as (src1 & Hfw1 & Hsp & Hgo). cbn [omap list_omap].
    destruct b; [exists [event], src1; split; [by apply prefix_cons, prefix_nil|]; by split|].
    destruct (Hgo eq_refl) as [Hun1 Hlast1]. destruct (IH _ _ _ Hfw1 Hun1 Hlast1) as (taken & src' & Hpre & Hfw' & Hs).
    exists (event :: taken), src'. split; [by apply prefix_cons|]. by rewrite <- app_assoc in Hfw'.
  - destruct (f_last st) eqn:Hl; [exists [], src; rewrite app_nil_r; split; [by apply prefix_nil|]; by split|].
    rewrite <- Hl in Hlast. cbn [omap list_omap]. by apply (IH _ _ _ Hfw Hun Hlast).
Qed.

Lemma forward_loop_spec inp :
  exists seen src, seen `prefix_of` (in_window inp ++ events_of (in_rest inp)) /\
    forwarded inp seen src (forward_loop inp) /\ (spoiled (forward_loop inp) = true -> unended inp src).
Proof.
  unfold forward_loop. destruct (forward_window _ _ _) as [stop st] eqn:Hw.
  assert (Hinit : forwarded inp [] [] (forwarding_init inp)) by (split; cbn; (done || constructor || lia)).
  destruct (forward_window_spec _ _ [] [] _ _ _ Hinit (Forall_nil_2 _) ltac:(done) Hw)
    as (taken & src & Hpre & Hfw & Hsp & Hgo). cbn [app] in Hfw.
  destruct stop; [exists taken, src; split; [by apply prefix_app_r|done]|].
  destruct (Hgo eq_refl) as (-> & Hun & Hlast).
  destruct (forward_rest_spec _ (in_rest inp) _ _ _ Hfw Hun Hlast) as (t2 & src2 & Hpre2 & Hfw2 & Hsp2).
  exists (in_window inp ++ t2), src2. split; [by apply stdpp.list_relations.list.prefix_app|done].
Qed.
(** *** The end *)

Lemma write_frames_same inp frames st :
  f_polluteErr (write_frames inp frames st) = f_polluteErr st /\
  exists tail, f_written (write_frames inp frames st) = f_written st ++ tail /\ tail `prefix_of` frames.
Proof.
  revert st. induction frames as [|frame frames IH]; intros st; cbn [write_frames].
  { split; [done|]. exists []. by rewrite app_nil_r. }
  destruct (sse_encode frame); [|split; [done|]; exists []; rewrite app_nil_r; split; [done|apply prefix_nil]].
  assert (Hw : f_polluteErr (wrote inp frame st) = f_polluteErr st /\
    f_written (wrote inp frame st) = f_written st ++ match in_write inp (f_writes st) with None => [frame] | _ => [] end).
  { destruct st as [c ts cg pe na ra rr rf la fe tb te ch wr n ef re]. cbn. split; [done|].
    destruct (in_write inp n); by rewrite ?app_nil_r. }
  destruct Hw as [Hp Hw]. destruct (in_write inp (f_writes st)) eqn:Hio; cbv zeta.
  - split; [done|]. exists []. split; [done|apply prefix_nil].
  - destruct (IH (wrote inp frame st)) as (IHp & tail & Ht & Hpre). split; [congruence|].
    exists (frame :: tail). split; [rewrite Ht, Hw; by rewrite <- app_assoc|by apply prefix_cons].
Qed.

Lemma flush_restorer_same inp st :
  spoiled (flush_restorer inp st) = spoiled st /\ f_firstErr (flush_restorer inp st) = f_firstErr st /\
  f_terminalSeen (flush_restorer inp st) = f_terminalSeen st /\
  exists tail, f_written (flush_restorer inp st) = f_written st ++ tail /\ (f_restorer st = None -> tail = []).
Proof.
  unfold flush_restorer. destruct (f_restorer st) as [r|] eqn:Hr.
  2:{ do 3 (split; [done|]). exists []. by rewrite app_nil_r. }
  assert (Hall : forall l st0, spoiled (foldl (flush_frame inp) st0 l) = spoiled st0 /\
    f_firstErr (foldl (flush_frame inp) st0 l) = f_firstErr st0 /\
    f_terminalSeen (foldl (flush_frame inp) st0 l) = f_terminalSeen st0 /\
    exists tail, f_written (foldl (flush_frame inp) st0 l) = f_written st0 ++ tail).
  { induction l as [|data l IH]; intros st0; [do 3 (split; [done|]); exists []; by rewrite app_nil_r|].
    cbn [foldl]. destruct (IH (flush_frame inp st0 data)) as (H1 & H2 & H3 & tail & Ht). rewrite H1, H2, H3, Ht.
    assert (Hf : spoiled (flush_frame inp st0 data) = spoiled st0 /\ f_firstErr (flush_frame inp st0 data) = f_firstErr st0 /\
      f_terminalSeen (flush_frame inp st0 data) = f_terminalSeen st0 /\
      exists t0, f_written (flush_frame inp st0 data) = f_written st0 ++ t0).
    { unfold flush_frame. destruct (slen data =? 0); [do 3 (split; [done|]); exists []; by rewrite app_nil_r|]. cbv zeta.
      destruct (sse_encode _); [|do 3 (split; [done|]); exists []; by rewrite app_nil_r].
      destruct st0 as [c ts cg pe na ra rr rf la fe tb te ch wr n ef re]. cbn. do 3 (split; [done|]).
      destruct (in_write inp n); [exists []; by rewrite app_nil_r|by eexists]. }
    destruct Hf as (-> & -> & -> & t0 & ->). do 3 (split; [done|]). exists (t0 ++ tail). by rewrite app_assoc. }
  destruct (Hall (flushStreamRestorer (in_format inp) r) st) as (H1 & H2 & H3 & tail & Ht).
  do 3 (split; [done|]). by exists tail.
Qed.

Lemma frame_failure_spoiled st firstErr agg_err :
  spoiled st = true -> f_polluteErr st = None -> is_some (first_error firstErr (frame_failure st firstErr agg_err)) = true.
Proof.
  unfold spoiled, frame_failure. intros Hs Hp. rewrite Hp in *. cbn in Hs. rewrite Hs. cbn. by destruct firstErr.
Qed.

(** A synthetic end is written only for a stream without any failure. *)
Lemma synthetic_is_success inp ctxErr st :
  so_synthetic (stream_finish inp ctxErr st) = true -> so_failure (stream_finish inp ctxErr st) = None.
Proof.
  unfold stream_finish. cbv zeta. set (st1 := flush_restorer inp st).
  destruct (match AggregateStreamChunks _ with inl _ => _ | inr _ => _ end) as [[body usage] aerr].
  cbn [so_synthetic so_failure]. set (ff := frame_failure _ _ _).
  destruct (f_polluteErr st1) as [|] eqn:Hp; [rewrite !andb_false_r; cbn; by rewrite ?andb_false_r|].
  destruct ff as [|] eqn:Hf; [cbn; by rewrite ?andb_false_r, ?andb_false_l|]. intros Hsyn. rewrite Hsyn.
  destruct (write_frames_same inp (terminalStreamFrames (in_now inp) (in_format inp)) st1) as [Hpw _].
  rewrite Hpw, Hp. cbn. destruct (settle_error inp st1) eqn:Hse; [|done]. subst ff. unfold frame_failure in Hf.
  rewrite Hp in Hf. cbn in Hf. rewrite andb_false_r in Hf. done.
Qed.
Lemma finish_spoiled inp ctxErr st : spoiled st = true -> so_failure (stream_finish inp ctxErr st) ≠ None.
Proof.
  intros Hs. unfold stream_finish. cbv zeta. destruct (flush_restorer_same inp st) as (Hsp & _).
  set (st1 := flush_restorer inp st) in *. rewrite Hs in Hsp.
  destruct (match AggregateStreamChunks _ with inl _ => _ | inr _ => _ end) as [[body usage] aerr].
  cbn [so_failure]. match goal with |- context [if ?b then write_frames _ _ _ else _] => set (syn := b) end.
  assert (Hpe : f_polluteErr (if syn then write_frames inp (terminalStreamFrames (in_now inp) (in_format inp)) st1 else st1)
    = f_polluteErr st1).
  { destruct syn; [|done]. by destruct (write_frames_same inp (terminalStreamFrames (in_now inp) (in_format inp)) st1). }
  rewrite Hpe. destruct (f_polluteErr st1) as [e|] eqn:Hp; [by destruct (settle_error inp st1)|]. cbn [first_error].
  pose proof (frame_failure_spoiled st1 (settle_error inp st1) aerr Hsp Hp) as Hf. intros Hn. by rewrite Hn in Hf.
Qed.

Lemma finish_written inp ctxErr st :
  exists tail, f_written (so_state (stream_finish inp ctxErr st)) = f_written st ++ tail /\
    (f_restorer st = None -> so_synthetic (stream_finish inp ctxErr st) = false -> tail = []).
Proof.
  unfold stream_finish. cbv zeta. destruct (flush_restorer_same inp st) as (_ & _ & _ & t1 & Ht1 & Hnone).
  destruct (match AggregateStreamChunks _ with inl _ => _ | inr _ => _ end) as [[body usage] aerr].
  cbn [so_state so_synthetic]. match goal with |- context [if ?b then _ else _] => destruct b end.
  - destruct (write_frames_same inp (terminalStreamFrames (in_now inp) (in_format inp)) (flush_restorer inp st))
      as (_ & t2 & Ht2 & _). exists (t1 ++ t2). split; [by rewrite Ht2, Ht1, app_assoc|done].
  - exists t1. split; [by rewrite Ht1|]. intros Hr _. by apply Hnone.
Qed.


(** With a positive limit on the events or bytes of a stream, no more than
    that reaches the client. *)
Theorem stream_budget inp :
  exists seen src,
    seen `prefix_of` (in_window inp ++ events_of (in_rest inp)) /\ sublist src seen /\
    length (f_written (forward_loop inp)) = length src /\
    (0 < streamMaxEvents (in_config inp) -> Z.of_nat (length src) <= streamMaxEvents (in_config inp)) /\
    (0 < streamMaxBytes (in_config inp) -> data_length src <= streamMaxBytes (in_config inp)).
Proof.
  destruct (forward_loop_spec inp) as (seen & src & Hpre & [] & _). exists seen, src.
  do 2 (split; [done|]). split; [|done]. symmetry. by eapply Forall2_length.
Qed.
(** ** Complete delivery *)

(** A client that takes every frame, and a relay that neither rewrites nor limits. *)
Record healthy inp : Prop := {
  he_write : forall n, in_write inp n = None;
  he_encode : forall e, is_some (sse_encode e) = true;
  he_restorer : in_restorer inp = None;
  he_echo : EchoResponseModel (in_config inp) = false;
  he_bytes : streamMaxBytes (in_config inp) = 0;
  he_events : streamMaxEvents (in_config inp) = 0;
  he_final : in_final inp = None;
  he_cause : in_cause inp = None;
}.

(** The events up to the first one that ends the stream. *)
Definition ends_here (format : APIFormat) event : bool :=
  let v := analyzeStreamEvent format (Some event) in is_some (v_inspectErr v) || v_terminal v.
Fixpoint until_end (format : APIFormat) (events : list StreamEvent) : list StreamEvent :=
  match events with
  | [] => []
  | e :: events => e :: if ends_here format e then [] else until_end format events
  end.

(** A [stop] after reasoning and before any answer. *)
Fixpoint answerless (format : APIFormat) (answered reasoned : bool) (events : list StreamEvent) : bool :=
  match events with
  | [] => false
  | e :: events =>
      let v := analyzeStreamEvent format (Some e) in
      let answered := answered || v_hasAnswer v in
      let reasoned := reasoned || v_hasReasoning v in
      (v_stopFinish v && reasoned && negb answered) || answerless format answered reasoned events
  end.

Definition normal (format : APIFormat) event : Prop :=
  v_inspectErr (analyzeStreamEvent format (Some event)) = None /\
  v_abnormalErr (analyzeStreamEvent format (Some event)) = None.

(** The state after the events [seen], all delivered. *)
Record delivered inp (seen : list StreamEvent) st : Prop := {
  de_written : f_written st = seen;
  de_chunks : f_chunks st = seen;
  de_committed : f_committed st = negb (bool_decide (seen = []));
  de_clean : f_polluteErr st = None /\ f_noAnswerStop st = false /\ f_firstErr st = None /\
             f_clientGone st = false /\ f_restorer st = None;
  de_answered : f_roundAnswered st = has v_hasAnswer (in_format inp) seen;
  de_reasoned : f_roundReasoned st = has v_hasReasoning (in_format inp) seen;
  de_finished : f_roundFinished st = has v_finishSeen (in_format inp) seen;
  de_terminal : f_terminalSeen st = in_terminated inp || has v_terminal (in_format inp) seen;
  de_last : f_last st = has v_terminal (in_format inp) seen;
}.

Lemma delivered_step inp seen st event :
  healthy inp -> delivered inp seen st -> normal (in_format inp) event ->
  v_stopFinish (verdict inp event) && (has v_hasReasoning (in_format inp) seen || v_hasReasoning (verdict inp event)) &&
    negb (has v_hasAnswer (in_format inp) seen || v_hasAnswer (verdict inp event)) = false ->
  exists st', forward_event inp event st = (has v_terminal (in_format inp) (seen ++ [event]), st') /\
    delivered inp (seen ++ [event]) st'.
Proof.
  intros [Hw He Hr Hecho Hb Hev Hfin Hcause] [Dw Dc Dco (Dp & Dn & Df & Dg & Dr) Da Dre Dfi Dt Dl] [Hi Ha] Hans.
  destruct st as [c ts cg pe na ra rr rf la fe tb te ch wr n ef re]. cbn in Dw, Dc, Dco, Dp, Dn, Df, Dg, Dr, Da, Dre, Dfi, Dt, Dl.
  subst c ts cg pe na ra rr rf la fe ch wr re. rewrite has_snoc. unfold forward_event, over_budget. rewrite Hb, Hev.
  assert (Hsnoc := fun p => has_snoc p (in_format inp) seen event). remember (verdict inp event) as v eqn:Hv. clear Hv.
  cbn [counted f_polluteErr is_some Z.ltb Z.compare andb orb]. rewrite Ha. unfold judged. rewrite Hi. cbn.
  rewrite (orb_comm (v_hasReasoning _)), (orb_comm (v_hasAnswer _)), Hans. cbn.
  unfold deliver, rewrite_event. cbn. rewrite Hecho. specialize (He (mkEvent (ev_LastEventID event) (ev_Type event) (ev_Data event))).
  destruct (sse_encode _) as [data|]; [|done]. unfold commit_response, wrote. cbn. rewrite Hw.
  assert (Heta : mkEvent (ev_LastEventID event) (ev_Type event) (ev_Data event) = event) by by destruct event.
  rewrite Heta. assert (Hnil : negb (bool_decide (seen ++ [event] = [])) = true) by by destruct seen.
  assert (Hfe : (if v_terminal v then None else None) = @None GoErr) by by destruct (v_terminal v).
  destruct (bool_decide (seen = [])); cbn; rewrite ?Hw; eexists;
    (split; [apply pair_equal_spec; split; [apply orb_comm|reflexivity]|]); split; cbn; rewrite ?Hsnoc, ?Hnil; try done; try by rewrite orb_comm.
  all: by rewrite (orb_comm (v_terminal _)), orb_assoc.
Qed.
Lemma delivered_init inp : healthy inp -> delivered inp [] (forwarding_init inp).
Proof. intros H. split; cbn; try done; [by rewrite (he_restorer _ H)|by rewrite orb_false_r]. Qed.

(** One healthy step, in the terms of the loops. *)
Lemma delivered_cons inp seen st event events :
  healthy inp -> delivered inp seen st -> has v_terminal (in_format inp) seen = false ->
  normal (in_format inp) event ->
  answerless (in_format inp) (has v_hasAnswer (in_format inp) seen) (has v_hasReasoning (in_format inp) seen)
    (event :: events) = false ->
  exists st', forward_event inp event st = (ends_here (in_format inp) event, st') /\ delivered inp (seen ++ [event]) st' /\
    has v_terminal (in_format inp) (seen ++ [event]) = ends_here (in_format inp) event /\
    answerless (in_format inp) (has v_hasAnswer (in_format inp) (seen ++ [event]))
      (has v_hasReasoning (in_format inp) (seen ++ [event])) events = false.
Proof.
  intros Hh Hd Ht Hn Ha. cbn [answerless] in Ha. apply orb_false_iff in Ha as [Ha1 Ha2].
  destruct (delivered_step inp seen st event Hh Hd Hn) as (st' & Hf & Hd'); [done|]. exists st'.
  assert (Hends : has v_terminal (in_format inp) (seen ++ [event]) = ends_here (in_format inp) event).
  { rewrite has_snoc, Ht. unfold ends_here. destruct Hn as [-> _]. done. }
  rewrite <- Hends at 1. split; [done|]. split; [done|]. split; [done|]. by rewrite !has_snoc.
Qed.

Notation scan inp seen events :=
  (answerless (in_format inp) (has v_hasAnswer (in_format inp) seen) (has v_hasReasoning (in_format inp) seen) events).

Lemma delivered_window inp events more seen st :
  healthy inp -> delivered inp seen st -> has v_terminal (in_format inp) seen = false ->
  let evs := until_end (in_format inp) (events ++ more) in
  Forall (normal (in_format inp)) evs -> scan inp seen evs = false ->
  exists stop st', forward_window inp events st = (stop, st') /\
    if stop then delivered inp (seen ++ evs) st'
    else delivered inp (seen ++ events) st' /\ evs = events ++ until_end (in_format inp) more /\
         has v_terminal (in_format inp) (seen ++ events) = false /\
         scan inp (seen ++ events) (until_end (in_format inp) more) = false.
Proof.
  intros Hh. revert seen st. induction events as [|e events IH]; intros seen st Hd Ht; cbn [app until_end forward_window].
  { intros _ Ha. exists false, st. rewrite app_nil_r. done. }
  cbv zeta. intros [Hn Hall]%Forall_cons Ha.
  destruct (delivered_cons _ _ _ _ _ Hh Hd Ht Hn Ha) as (st1 & -> & Hd1 & Ht1 & Ha1).
  destruct (ends_here (in_format inp) e).
  - by exists true, st1.
  - destruct (IH _ _ Hd1 Ht1 Hall Ha1) as (stop & st' & -> & Hst). exists stop, st'. split; [done|].
    rewrite <- !app_assoc in Hst. cbn [app] in Hst. destruct stop; [done|]. destruct Hst as (? & -> & Hrest). done.
Qed.

Lemma delivered_rest inp events seen st :
  healthy inp -> delivered inp seen st -> has v_terminal (in_format inp) seen = false ->
  let evs := until_end (in_format inp) (events_of events) in
  Forall (normal (in_format inp)) evs -> scan inp seen evs = false ->
  delivered inp (seen ++ evs) (forward_rest inp events st).
Proof.
  intros Hh. revert seen st. induction events as [|[e|] events IH]; intros seen st Hd Ht; cbn [omap list_omap until_end forward_rest];
    rewrite (de_last _ _ _ Hd), Ht; cbv zeta.
  - by rewrite app_nil_r.
  - intros [Hn Hall]%Forall_cons Ha.
    destruct (delivered_cons _ _ _ _ _ Hh Hd Ht Hn Ha) as (st1 & -> & Hd1 & Ht1 & Ha1).
    destruct (ends_here (in_format inp) e); [done|]. specialize (IH _ _ Hd1 Ht1 Hall Ha1).
    by rewrite <- app_assoc in IH.
  - by apply IH.
Qed.

Lemma delivered_loop inp :
  healthy inp ->
  let evs := until_end (in_format inp) (in_window inp ++ events_of (in_rest inp)) in
  Forall (normal (in_format inp)) evs -> answerless (in_format inp) false false evs = false ->
  delivered inp evs (forward_loop inp).
Proof.
  intros Hh. cbv zeta. intros Hn Ha. unfold forward_loop.
  destruct (delivered_window inp (in_window inp) (events_of (in_rest inp)) [] _ Hh (delivered_init _ Hh) eq_refl Hn Ha)
    as (stop & st & -> & Hst). cbn [app] in Hst. destruct stop; [done|]. destruct Hst as (Hd & Hevs & Ht & Hscan).
  rewrite Hevs in Hn |- *. apply Forall_app in Hn as [_ Hn]. by apply delivered_rest.
Qed.

Lemma write_frames_healthy inp frames st :
  healthy inp -> f_written (write_frames inp frames st) = f_written st ++ frames.
Proof.
  intros Hh. revert st. induction frames as [|frame frames IH]; intros st; cbn [write_frames]; [by rewrite app_nil_r|].
  pose proof (he_encode _ Hh frame) as He. destruct (sse_encode frame); [|done]. rewrite (he_write _ Hh). cbv zeta.
  rewrite IH. destruct st as [c ts cg pe na ra rr rf la fe tb te ch wr n ef re]. cbn. rewrite (he_write _ Hh).
  by rewrite <- app_assoc.
Qed.

End thms.

(** ** Concrete streams *)

(** A decoder of one-letter events: content, reasoning, a stop, another finish. *)
#[export] Instance letter_decoder : Decoder := {
  decode_chat data := Some (mkProbe None data);
  decode_choices raw := [raw];
  decode_choice raw :=
    if bool_decide (raw = "C") then Some (mkChoice "" (quoted "'hi'") "" "")
    else if bool_decide (raw = "R") then Some (mkChoice "" "" (quoted "'hm'") "")
    else if bool_decide (raw = "S") then Some (mkChoice (quoted "'stop'") "" "" "")
    else if bool_decide (raw = "X") then Some (mkChoice (quoted "'network_error'") "" "" "")
    else Some (mkChoice "" "" "" "");
  decode_string raw := if bool_decide (raw = quoted "'stop'") then Some "stop" else None;
  decode_anthropic _ := None; decode_anthropic_error _ := None; decode_responses _ := None;
  StreamEventTypeResponseCompleted := "response.completed"; StreamEventTypeResponseFailed := "response.failed";
  StreamEventTypeResponseIncomplete := "response.incomplete"; StreamEventTypeResponseCancelled := "response.cancelled";
  StreamEventTypeError := "error";
}.
#[export] Instance pair_usage : UsageOps (Z * Z) := {
  zero_usage := (0, 0); PromptTokens := fst; CompletionTokens := snd; PromptTokensDetails _ := None;
  set_tokens p _ u := (p, u.2); body_messages _ := [];
}.
#[export] Instance joining_aggregator : Aggregator (Z * Z) := {
  AggregateStreamChunks chunks := inl (foldr (fun e s => ev_Data e +:+ s) "" chunks, Some (1, 1));
  body_finish_reason _ := "";
}.
(** The restorer is the text it keeps back. *)
#[export] Instance text_client : ClientSide string := {
  sse_encode e := Some (ev_Data e);
  restoreStreamEvent _ r data := (r, data);
  flushStreamRestorer _ r := [r];
  echoStreamResponseModel _ _ data := data;
}.

Definition letter (data : string) : StreamEvent := mkEvent "" "" data.
Definition chat_input (restorer : option string) (window : list StreamEvent) (rest : list string) : StreamInput string :=
  mkInput APIFormatOpenAIChatCompletion "m" DefaultGroupRelayConfig window false
    (Some ∘ letter <$> rest) None None (fun _ => None) restorer 0.

Lemma window_opens_on_content_witness :
  exists window rest, readStreamWindow APIFormatOpenAIChatCompletion None [Some (letter "N"); None; Some (letter "C"); Some (letter "S")]
    = WindowOpen window false false rest /\ Forall (admissible APIFormatOpenAIChatCompletion) window /\ length window = 2%nat.
Proof.
  eexists _, _. split; [vm_compute; reflexivity|]. split; [|done].
  by eapply (window_opens_on_content APIFormatOpenAIChatCompletion None
          [Some (letter "N"); None; Some (letter "C"); Some (letter "S")] _ false false); vm_compute.
Defined.


(** A polluted stream and one without an answer are cut. *)
Example cut_streams :
  f_written (so_state (forward_stream (chat_input None [letter "C"] ["X"; "[DONE]"]) None)) = [letter "C"] /\
  f_written (so_state (forward_stream (chat_input None [letter "R"] ["S"; "[DONE]"]) None)) = [letter "R"].
Proof. by vm_compute. Qed.

(** What a restorer keeps back is flushed behind the event that ends the stream,
    where a client no longer reads. *)
Lemma flush_follows_the_end :
  f_written (so_state (forward_stream (chat_input (Some "{") [letter "C"] ["[DONE]"]) None))
  = [letter "C"; letter "[DONE]"; letter "{"].
Proof. by vm_compute. Qed.
