(* ===== verification/ContextFit.v ===== *)
(** * Context windows

    relay/context_fit.go, the limits of relay/channel.go and the arithmetic of
    relay/context_probe.go: how many tokens a request is estimated at, which
    members of a group can hold it, and what a probe of a context window
    concludes. *)

From S2P Require Import Prelude GoStrings Utf8 Hub Float64 GroupModel Protocol Backoff Route Sticky Errors.

(** ** Estimating a request *)

(** Non-ASCII runes count one, ASCII runes a quarter. *)
Definition count_runes (acc : Z * Z) (r : Z) : Z * Z :=
  let '(narrow, wide) := acc in if 0x80 <=? r then (narrow, wide + 1) else (narrow + 1, wide).
Definition estimateRequestTokens (body : string) : Z :=
  let '(narrow, wide) := foldl count_runes (0, 0) (to_runes body) in wide + Z.quot narrow 4.

(** The constant [4.0 / 7.1]. *)
Definition defaultTokenDensity : f64 := f64_quot (FFin 40 0) (FFin 71 0).
Definition f64_quarter : f64 := FFin 1 (-2).
Definition f64_sixteen : f64 := FFin 16 0.

Definition tokenDensityKey (baseURL modelName : string) : string :=
  TrimRight baseURL "/" +:+ ":" +:+ modelName.

Definition clampTokenDensity (d : f64) : f64 :=
  if f64_ltb d f64_quarter then f64_quarter else if f64_ltb f64_sixteen d then f64_sixteen else d.

(** [tokenDensityCache]: the measured densities. *)
Notation Densities := (gmap string f64).

Definition modelTokenDensity (cache : Densities) (baseURL modelName : string) : f64 :=
  match cache !! tokenDensityKey baseURL modelName with
  | Some density => if f64_ltb f64_zero density then density else defaultTokenDensity
  | None => defaultTokenDensity
  end.

(** [int(x)] where Go defines it. *)
Definition int_of (x : f64) : Z := default 0 (f64_to_int64 x).

Definition scaleBaseTokens (base : Z) (density : f64) : Z :=
  if base <=? 0 then 0 else Z.max 1 (int_of (f64_mul (f64_of_int base) density)).

Definition estimateModelTokensFromBase (cache : Densities) (base : Z) (baseURL modelName : string) : Z :=
  scaleBaseTokens base (modelTokenDensity cache baseURL modelName).
Definition estimateModelTokens (cache : Densities) (body baseURL modelName : string) : Z :=
  estimateModelTokensFromBase cache (estimateRequestTokens body) baseURL modelName.
Definition estimateDefaultTokens (base : Z) : Z := scaleBaseTokens base defaultTokenDensity.

Definition contextFitsWindow (cache : Densities) (body : string) (contextWindow : Z)
    (baseURL modelName : string) : bool :=
  (contextWindow <=? 0) || (estimateModelTokens cache body baseURL modelName <=? contextWindow).

(** ** The window of a member

    [strings.EqualFold] compares runes; outside ASCII it follows the folding
    orbits of package unicode. *)
Class CaseFolding := { folds_together : Z -> Z -> bool }.

Section fit.
Context `{dir : Directory} `{fold : !CaseFolding} `{ords : !MapOrder string}.
Implicit Types (group ref : Group) (item : GroupItem) (w : World) (visiting : gset Z).

Definition fold_ascii (r : Z) : Z := if (65 <=? r) && (r <=? 90) then r + 32 else r.
Definition rune_fold (a b : Z) : bool :=
  (a =? b) || (if (a <? 0x80) && (b <? 0x80) then fold_ascii a =? fold_ascii b else folds_together a b).
Fixpoint fold_runes (a b : list Z) : bool :=
  match a, b with
  | [], [] => true
  | x :: a, y :: b => rune_fold x y && fold_runes a b
  | _, _ => false
  end.
Definition EqualFold (s t : string) : bool := fold_runes (to_runes s) (to_runes t).

Definition lookupModelLimit (limits : gmap string ChannelModelLimit) (modelName : string)
  : option ChannelModelLimit :=
  if bool_decide (limits = ∅) || bool_decide (modelName = "") then None
  else
    match limits !! modelName with
    | Some limit => Some limit
    | None => snd <$> find_first (fun kv => EqualFold kv.1 modelName) (map_order limits)
    end.

Definition effectiveContextWindow (limits : gmap string ChannelModelLimit) (channelModel : option ChannelModel) : Z :=
  match channelModel with
  | None => 0
  | Some m =>
      match lookupModelLimit limits (cm_Name m) ≫= ml_ContextWindow with
      | Some window => if 0 <? window then window else 0
      | None => 0
      end
  end.

(** ** The scan

    [scanGroup] follows references to a depth of [MaxGroupRefDepth]; [rem] is
    what is left of it.  The visited groups are those of the current path, since
    each call removes its own on return. *)
Record contextFitScan := mkScan {
  sc_candidates : Z; sc_fitting : Z; sc_maxWindow : Z; sc_skipped : gset Z; sc_blockedRefs : gset Z }.
Definition empty_scan : contextFitScan := mkScan 0 0 0 ∅ ∅.

Definition scan_fits s : contextFitScan :=
  mkScan (sc_candidates s + 1) (sc_fitting s + 1) (sc_maxWindow s) (sc_skipped s) (sc_blockedRefs s).

(** One leaf. *)
Definition scan_leaf (cache : Densities) (base : Z) group item (s : contextFitScan) w : contextFitScan * World :=
  match item_ChannelModel item with
  | None => (scan_fits s, w)
  | Some m =>
      match channelLookup (cm_ChannelID m) with
      | None => (scan_fits s, w)
      | Some channel =>
          if negb (ch_Enabled channel) then (s, w)
          else
            let window := effectiveContextWindow (ch_ModelLimits channel) (Some m) in
            let s := mkScan (sc_candidates s) (sc_fitting s)
                       (if sc_maxWindow s <? window then window else sc_maxWindow s)
                       (sc_skipped s) (sc_blockedRefs s) in
            if (window <=? 0)
               || (estimateModelTokensFromBase cache base (ch_BaseURL channel) (cm_Name m) <=? window)
            then (scan_fits s, w)
            else
              (mkScan (sc_candidates s + 1) (sc_fitting s) (sc_maxWindow s)
                 ({[item_ID item]} ∪ sc_skipped s) (sc_blockedRefs s),
               clearSessionStickyByItem (g_ID group) (item_ID item) w)
      end
  end.

(** One member; [descend] scans a referenced group, unless the depth is spent. *)
Definition scan_member (cache : Densities) (base : Z)
    (descend : option (Group -> contextFitScan * World -> contextFitScan * World))
    group (acc : contextFitScan * World) item : contextFitScan * World :=
  let '(s, w) := acc in
  if bool_decide (g_Mode group = GroupModeManual) && negb (item_ID item =? g_ActiveItemID group) then (s, w)
  else if IsGroupRef item then
    match descend, groupLookup (item_RefGroupName item) with
    | Some descend, Some ref =>
        let '(s', w) := descend ref (s, w) in
        if (sc_candidates s <? sc_candidates s') && (sc_fitting s' =? sc_fitting s)
        then (mkScan (sc_candidates s') (sc_fitting s') (sc_maxWindow s') (sc_skipped s')
                ({[item_ID item]} ∪ sc_blockedRefs s'),
              clearSessionStickyByItem (g_ID group) (item_ID item) w)
        else (s', w)
    | _, _ => (s, w)
    end
  else scan_leaf cache base group item s w.

Fixpoint scanGroup (rem : nat) (cache : Densities) (base : Z) visiting group
    (acc : contextFitScan * World) : contextFitScan * World :=
  if bool_decide (g_ID group ∈ visiting) then acc
  else
    let visiting := {[g_ID group]} ∪ visiting in
    let descend := match rem with
                   | O => None
                   | S rem => Some (scanGroup rem cache base visiting)
                   end in
    foldl (scan_member cache base descend group) acc (g_Items group).

Definition scanContextFit (cache : Densities) group (body : string) w : contextFitScan * World :=
  scanGroup (Z.to_nat MaxGroupRefDepth) cache (estimateRequestTokens body) ∅ group (empty_scan, w).
End fit.

(** ** Probing a window

    context_probe.go.  [once n tokens] is the outcome of the [n]-th [probeOnce]
    of a request constructed for [tokens] tokens: its exchange is HTTP. *)

Definition contextProbeMaxTokens : Z := 1000000.

Record ContextProbeResult := mkProbeResult {
  pr_Tokens : Z; pr_Accepted : bool; pr_Status : Z; pr_Detail : string; pr_ActualTokens : Z }.

Definition probeTargetTokens (tokens : Z) : Z :=
  let margin := if 1000000 <=? tokens then Z.quot tokens 50 else 1000 in Z.max 1 (tokens - margin).
Definition probeTolerance (nominal : Z) : Z := Z.max 1 (Z.quot nominal 10).
Definition probeRetryTarget (nominal : Z) : Z := Z.max 1 (nominal - probeTolerance nominal).
Definition probeConstructedTokens (target : Z) (ratio : f64) : Z :=
  if f64_ltb f64_zero ratio then Z.max 1 (int_of (f64_quot (f64_of_int target) ratio)) else target.

Definition recordProbeDensity (baseURL modelName : string) (actual constructed : Z) (cache : Densities)
  : f64 * Densities :=
  if constructed <=? 0 then (defaultTokenDensity, cache)
  else
    let density := clampTokenDensity (f64_quot (f64_of_int actual) (f64_of_int constructed)) in
    (density, <[tokenDensityKey baseURL modelName := density]> cache).

(** What a status and the body tell: [inl] is [Accepted], [inr] the class of error. *)
Inductive ProbeFault := NotOverflow | RefusedOrDown | OddStatus.
Definition probe_verdict (status : Z) (detail : string) : bool + ProbeFault :=
  if (200 <=? status) && (status <? 300) then inl true
  else if (status =? 400) || (status =? 413) || (status =? 422)
  then if looksLikeContextOverflow detail then inl false else inr NotOverflow
  else if (status =? 401) || (status =? 403) || (status =? 429) || (500 <=? status)
  then inr RefusedOrDown else inr OddStatus.

Definition with_nominal (nominal : Z) (r : ContextProbeResult) : ContextProbeResult :=
  mkProbeResult nominal (pr_Accepted r) (pr_Status r) (pr_Detail r) (pr_ActualTokens r).

Section probe.
Variable once : nat -> Z -> option ContextProbeResult.

Definition probeRecalibrate (baseURL modelName : string) (nominal : Z) (measured : f64)
    (first : ContextProbeResult) (cache : Densities) : ContextProbeResult * Densities :=
  let constructed := probeConstructedTokens (probeRetryTarget nominal) measured in
  match once 1 constructed with
  | None => (first, cache)
  | Some retry =>
      (with_nominal nominal retry,
       if 0 <? pr_ActualTokens retry
       then (recordProbeDensity baseURL modelName (pr_ActualTokens retry) constructed cache).2 else cache)
  end.

(** The comparison of floats is exact: a count the floats round is far outside
    of the tolerance, which is at most 100000. *)
Definition ProbeContextWindow (channel : option Channel) (modelName : string) (tokens : Z) (cache : Densities)
  : option ContextProbeResult * Densities :=
  if bool_decide (TrimSpace modelName = "") then (None, cache)
  else if (tokens <=? 0) || (contextProbeMaxTokens <? tokens) then (None, cache)
  else
    match channel with
    | None => (None, cache)
    | Some channel =>
        let baseURL := ch_BaseURL channel in
        let constructed := probeConstructedTokens (probeTargetTokens tokens)
                             (modelTokenDensity cache baseURL modelName) in
        match once 0 constructed with
        | None => (None, cache)
        | Some result =>
            let result := with_nominal tokens result in
            if 0 <? pr_ActualTokens result then
              let '(measured, cache) :=
                recordProbeDensity baseURL modelName (pr_ActualTokens result) constructed cache in
              if probeTolerance tokens <? Z.abs (pr_ActualTokens result - tokens) then
                let '(result, cache) := probeRecalibrate baseURL modelName tokens measured result cache in
                (Some result, cache)
              else (Some result, cache)
            else (Some result, cache)
        end
    end.
End probe.

(** ** Densities stay in range *)

Definition density_ok (d : f64) : Prop := f64_ltb d f64_quarter = false /\ f64_ltb f64_sixteen d = false.

Lemma clamp_ok d : density_ok (clampTokenDensity d).
Proof.
  unfold clampTokenDensity, density_ok. destruct (f64_ltb d f64_quarter) eqn:H1; [by vm_compute|].
  destruct (f64_ltb f64_sixteen d) eqn:H2; [by vm_compute|done].
Qed.

Lemma record_density_ok baseURL modelName actual constructed cache :
  map_Forall (fun _ => density_ok) cache ->
  let '(measured, cache') := recordProbeDensity baseURL modelName actual constructed cache in
  density_ok measured /\ map_Forall (fun _ => density_ok) cache'.
Proof.
  intros Hc. unfold recordProbeDensity. destruct (constructed <=? 0); [split; [by vm_compute|done]|].
  pose proof (clamp_ok (f64_quot (f64_of_int actual) (f64_of_int constructed))) as Hd.
  split; [done|]. by apply map_Forall_insert_2.
Qed.

(** Whatever an upstream reports about a probe, the measured densities stay
    between a quarter and sixteen, so does the density the scan uses, every
    request is constructed for at least one token, and a result names the window
    that was asked for. *)
Theorem probe_density_bounded once channel modelName tokens cache :
  map_Forall (fun _ => density_ok) cache ->
  let '(result, cache') := ProbeContextWindow once channel modelName tokens cache in
  map_Forall (fun _ => density_ok) cache' /\
  (forall baseURL, density_ok (modelTokenDensity cache' baseURL modelName)) /\
  (forall target ratio, 1 <= target -> 1 <= probeConstructedTokens target ratio) /\
  (forall r, result = Some r -> pr_Tokens r = tokens /\ 0 < tokens <= contextProbeMaxTokens).
Proof.
  intros Hc.
  assert (Hm : forall c baseURL, map_Forall (fun _ => density_ok) c -> density_ok (modelTokenDensity c baseURL modelName)).
  { intros c baseURL Hok. unfold modelTokenDensity. destruct (c !! _) as [d|] eqn:Hd; [|by vm_compute].
    destruct (f64_ltb f64_zero d); [by apply (Hok _ _ Hd)|by vm_compute]. }
  assert (Ht : forall target ratio, 1 <= target -> 1 <= probeConstructedTokens target ratio).
  { intros target ratio H1. unfold probeConstructedTokens. destruct (f64_ltb f64_zero ratio); lia. }
  cut (let '(result, cache') := ProbeContextWindow once channel modelName tokens cache in
       map_Forall (fun _ => density_ok) cache' /\
       (forall r, result = Some r -> pr_Tokens r = tokens /\ 0 < tokens <= contextProbeMaxTokens)).
  { destruct (ProbeContextWindow _ _ _ _ _) as [result cache']. intros [H1 H2]. auto. }
  unfold ProbeContextWindow. case_bool_decide; [done|].
  destruct ((tokens <=? 0) || (contextProbeMaxTokens <? tokens)) eqn:Hr; [done|].
  assert (0 < tokens <= contextProbeMaxTokens) by lia. destruct channel as [channel|]; [|done].
  set (constructed := probeConstructedTokens _ _). destruct (once 0%nat constructed) as [result|]; [|done].
  destruct (0 <? pr_ActualTokens (with_nominal tokens result)); [|split; [done|]; by intros r [= <-]].
  pose proof (record_density_ok (ch_BaseURL channel) modelName (pr_ActualTokens (with_nominal tokens result)) constructed cache Hc) as Hd.
  destruct (recordProbeDensity _ _ _ _ cache) as [measured cache1]. destruct Hd as [_ Hc1].
  destruct (probeTolerance tokens <? _); [|split; [done|]; by intros r [= <-]].
  unfold probeRecalibrate. set (again := probeConstructedTokens _ measured).
  destruct (once 1%nat again) as [retry|]; [|split; [done|]; by intros r [= <-]].
  pose proof (record_density_ok (ch_BaseURL channel) modelName (pr_ActualTokens retry) again cache1 Hc1) as Hd.
  destruct (0 <? pr_ActualTokens retry); [|split; [done|]; by intros r [= <-]].
  destruct (recordProbeDensity _ _ _ _ cache1) as [m2 cache2]. split; [apply Hd|]. by intros r [= <-].
Qed.

(** ** What the scan finds *)

Section scan_spec.
Context `{dir : Directory} `{fold : !CaseFolding} `{ords : !MapOrder string}.
Context (cache : Densities) (base : Z).
Implicit Types (group ref : Group) (item : GroupItem) (w : World) (visiting : gset Z) (s : contextFitScan).

(** A member the group may use: in manual mode only the active one. *)
Definition usable group item : Prop :=
  item ∈ g_Items group /\ (g_Mode group = GroupModeManual -> item_ID item = g_ActiveItemID group).

(** A leaf counts unless its channel is known to be disabled. *)
Definition counts item : bool :=
  match item_ChannelModel item with
  | Some m => match channelLookup (cm_ChannelID m) with Some c => ch_Enabled c | None => true end
  | None => true
  end.

(** A leaf is too small when its channel declares a window below the estimate. *)
Definition too_small item : bool :=
  match item_ChannelModel item with
  | Some m =>
      match channelLookup (cm_ChannelID m) with
      | Some c =>
          let window := effectiveContextWindow (ch_ModelLimits c) (Some m) in
          ch_Enabled c && (0 <? window)
          && (window <? estimateModelTokensFromBase cache base (ch_BaseURL c) (cm_Name m))
      | None => false
      end
  | None => false
  end.

(** [leaf_of rem visiting group item]: the scan of [group] reaches leaf [item]. *)
Inductive leaf_of : nat -> gset Z -> Group -> GroupItem -> Prop :=
| leaf_here rem visiting group item :
    g_ID group ∉ visiting -> usable group item -> IsGroupRef item = false -> counts item = true ->
    leaf_of rem visiting group item
| leaf_below rem visiting group item ref leaf :
    g_ID group ∉ visiting -> usable group item -> IsGroupRef item = true ->
    groupLookup (item_RefGroupName item) = Some ref ->
    leaf_of rem ({[g_ID group]} ∪ visiting) ref leaf ->
    leaf_of (S rem) visiting group leaf.

(** A member that refers to a group with leaves, none of which is large enough. *)
Definition dead_reference (id : Z) : Prop :=
  exists rem visiting group item ref,
    usable group item /\ IsGroupRef item = true /\ item_ID item = id /\
    groupLookup (item_RefGroupName item) = Some ref /\ (exists leaf, leaf_of rem visiting ref leaf) /\
    forall leaf, leaf_of rem visiting ref leaf -> too_small leaf = true.

(** What scanning a collection [P] of leaves does to the counters. *)
Record scanned (P : GroupItem -> Prop) s s' : Prop := {
  sd_order : sc_fitting s <= sc_fitting s' /\ sc_fitting s' - sc_fitting s <= sc_candidates s' - sc_candidates s;
  sd_some : sc_candidates s < sc_candidates s' <-> exists item, P item;
  sd_fits : sc_fitting s < sc_fitting s' <-> exists item, P item /\ too_small item = false;
  sd_skipped : forall id, id ∈ sc_skipped s' <-> id ∈ sc_skipped s \/
                 exists item, P item /\ too_small item = true /\ item_ID item = id;
  sd_blocked : (forall id, id ∈ sc_blockedRefs s -> dead_reference id) ->
               forall id, id ∈ sc_blockedRefs s' -> dead_reference id;
}.

Lemma scanned_none (P : GroupItem -> Prop) s : (forall item, ~ P item) -> scanned P s s.
Proof. intros HP. split; [lia|split; [lia|by intros [? ?%HP]]|split; [lia|by intros (? & ?%HP & ?)]| |done].
  intros id. split; [by left|]. intros [|(? & ?%HP & ?)]; done. Qed.

Lemma scanned_or (P Q R : GroupItem -> Prop) s1 s2 s3 :
  scanned P s1 s2 -> scanned Q s2 s3 -> (forall item, R item <-> P item \/ Q item) -> scanned R s1 s3.
Proof.
  intros [[P1 P1'] P2 P3 P4 P5] [[Q1 Q1'] Q2 Q3 Q4 Q5] HR.
  assert (sc_candidates s1 <= sc_candidates s2 /\ sc_candidates s2 <= sc_candidates s3) by lia. split.
  - lia.
  - transitivity (sc_candidates s1 < sc_candidates s2 \/ sc_candidates s2 < sc_candidates s3); [lia|].
    rewrite P2, Q2. setoid_rewrite HR. split; [intros [[x ?]|[x ?]]|intros (x & [?|?])]; eauto.
  - transitivity (sc_fitting s1 < sc_fitting s2 \/ sc_fitting s2 < sc_fitting s3); [lia|].
    rewrite P3, Q3. setoid_rewrite HR. split; [intros [(x & ? & ?)|(x & ? & ?)]|intros (x & [?|?] & ?)]; eauto.
  - intros id. rewrite Q4, P4. setoid_rewrite HR.
    split; [intros [[?|(x & ? & ?)]|(x & ? & ?)]|intros [?|(x & [?|?] & ?)]]; eauto 7.
  - auto.
Qed.

Lemma scanned_iff (P Q : GroupItem -> Prop) s s' :
  scanned P s s' -> (forall item, Q item <-> P item) -> scanned Q s s'.
Proof.
  intros HP HQ. eapply scanned_or; [exact HP|apply (scanned_none (fun _ => False)); intros ? []|].
  intros item. rewrite HQ. tauto.
Qed.

Lemma scan_leaf_cases group item s w :
  let s' := (scan_leaf cache base group item s w).1 in
  if counts item then
    exists m, s' = if too_small item
      then mkScan (sc_candidates s + 1) (sc_fitting s) m ({[item_ID item]} ∪ sc_skipped s) (sc_blockedRefs s)
      else mkScan (sc_candidates s + 1) (sc_fitting s + 1) m (sc_skipped s) (sc_blockedRefs s)
  else s' = s.
Proof.
  unfold scan_leaf, counts, too_small. destruct (item_ChannelModel item) as [m|]; [|by eexists].
  destruct (channelLookup (cm_ChannelID m)) as [c|]; [|by eexists].
  destruct (ch_Enabled c); cbn [negb andb]; [|done].
  set (win := effectiveContextWindow _ _). set (est := estimateModelTokensFromBase _ _ _ _).
  destruct ((win <=? 0) || (est <=? win)) eqn:Hw; cbn [fst].
  - replace ((0 <? win) && (win <? est)) with false by lia. by eexists.
  - replace ((0 <? win) && (win <? est)) with true by lia. by eexists.
Qed.

Lemma scan_leaf_spec group item s w :
  scanned (fun leaf => leaf = item /\ counts item = true) s (scan_leaf cache base group item s w).1.
Proof.
  pose proof (scan_leaf_cases group item s w) as Hs. cbv zeta in Hs.
  destruct (counts item); [|rewrite Hs; apply scanned_none; by intros ? [_ ?]]. destruct Hs as [m ->].
  destruct (too_small item) eqn:Hts; split; cbn; try lia; try done.
  - split; [by exists item|lia].
  - split; [lia|]. intros (? & [-> _] & ?). congruence.
  - intros id. rewrite elem_of_union, elem_of_singleton. naive_solver.
  - split; [by exists item|lia].
  - split; [by exists item|lia].
  - intros id. split; [by left|]. intros [|(? & [-> _] & ? & _)]; congruence.
Qed.

(** The members of a group, one after the other. *)
Lemma scan_members_spec descend group (P : GroupItem -> GroupItem -> Prop) items s w :
  (forall item s w, item ∈ items -> scanned (P item) s (scan_member cache base descend group (s, w) item).1) ->
  scanned (fun leaf => exists item, item ∈ items /\ P item leaf) s
    (foldl (scan_member cache base descend group) (s, w) items).1.
Proof.
  revert s w. induction items as [|item items IH]; intros s w Hone; cbn [foldl].
  { apply scanned_none. intros leaf (item & Hin & _). by apply elem_of_nil in Hin. }
  pose proof (Hone item s w ltac:(by left)) as Hhead.
  destruct (scan_member cache base descend group (s, w) item) as [s1 w1].
  eapply scanned_or; [exact Hhead|apply IH; intros; apply Hone; by right|].
  intros leaf. split.
  - intros (x & Hin & HP). apply elem_of_cons in Hin as [->|Hin]; [by left|right; eauto].
  - intros [HP|(x & Hin & HP)]; eexists; (split; [|exact HP]); by constructor.
Qed.

Lemma usable_dec group item :
  item ∈ g_Items group ->
  if bool_decide (g_Mode group = GroupModeManual) && negb (item_ID item =? g_ActiveItemID group)
  then ~ usable group item else usable group item.
Proof.
  intros Hin. unfold usable. case_bool_decide as Hm; cbn [andb]; [|split; [done|]; intros ?; by exfalso].
  destruct (item_ID item =? g_ActiveItemID group) eqn:Ha; cbn [negb].
  - split; [done|]. intros _. lia.
  - intros [_ H]. specialize (H Hm). lia.
Qed.

Lemma scan_group_spec rem visiting group s w :
  scanned (leaf_of rem visiting group) s (scanGroup rem cache base visiting group (s, w)).1.
Proof.
  revert visiting group s w. induction rem as [|rem IH]; intros visiting group s w; cbn [scanGroup];
    (case_bool_decide as Hv; [apply scanned_none; intros ? Hl; by inversion Hl|]).
  - eapply scanned_iff; [apply (scan_members_spec _ _ (fun item leaf => usable group item /\
      IsGroupRef item = false /\ leaf = item /\ counts item = true))|].
    + intros item s' w' Hin. unfold scan_member. pose proof (usable_dec _ _ Hin) as Hu.
      destruct (bool_decide _ && _); [apply scanned_none; tauto|].
      destruct (IsGroupRef item) eqn:Hr; [apply scanned_none; naive_solver|].
      eapply scanned_iff; [apply scan_leaf_spec|]. tauto.
    + intros leaf. split; [inversion 1 as [? ? ? ? ? Hu ? ?|]; subst; exists leaf; destruct Hu; by repeat split|].
      intros (item & _ & Hu & Hr & -> & Hc). by constructor.
  - eapply scanned_iff; [apply (scan_members_spec _ _ (fun item leaf => usable group item /\
      ((IsGroupRef item = false /\ leaf = item /\ counts item = true) \/
       (IsGroupRef item = true /\ exists ref, groupLookup (item_RefGroupName item) = Some ref /\
          leaf_of rem ({[g_ID group]} ∪ visiting) ref leaf))))|].
    + intros item s' w' Hin. unfold scan_member. pose proof (usable_dec _ _ Hin) as Hu.
      destruct (bool_decide _ && _); [apply scanned_none; tauto|].
      destruct (IsGroupRef item) eqn:Hr.
      2:{ eapply scanned_iff; [apply scan_leaf_spec|]. intros leaf. split; [naive_solver|tauto]. }
      destruct (groupLookup (item_RefGroupName item)) as [ref|] eqn:Hl; [|apply scanned_none; naive_solver].
      eapply (scanned_iff (leaf_of rem ({[g_ID group]} ∪ visiting) ref)).
      2:{ intros leaf. split; [|intros; split; [done|]; right; eauto]. intros (_ & [(? & _)|(_ & ? & ? & ?)]); congruence. }
      pose proof (IH ({[g_ID group]} ∪ visiting) ref s' w') as Hs.
      destruct (scanGroup rem cache base _ ref (s', w')) as [s2 w2]. cbn [fst] in *.
      destruct ((sc_candidates s' <? sc_candidates s2) && (sc_fitting s2 =? sc_fitting s')) eqn:Hb; [|done].
      destruct Hs as [H1 H2 H3 H4 H5]. split; try done. cbn. intros Hd id.
      rewrite elem_of_union, elem_of_singleton. intros [->|Hid]; [|by apply H5].
      exists rem, ({[g_ID group]} ∪ visiting), group, item, ref.
      refine (conj Hu (conj Hr (conj eq_refl (conj Hl (conj _ _))))); [apply H2; lia|]. intros leaf Hleaf.
      destruct (too_small leaf) eqn:Hts; [done|]. assert (sc_fitting s' < sc_fitting s2) by (apply H3; eauto). lia.
    + intros leaf. split.
      * inversion 1; subst; (match goal with Hu : usable group ?x |- _ => exists x; split; [exact (proj1 Hu)|split; [exact Hu|]] end); [left|right]; eauto.
      * intros (item & _ & Hu & [(Hr & -> & Hc)|(Hr & ref & Hl & Hb)]); [by constructor|]. by eapply leaf_below.
Qed.

(** The scan only forgets sticky sessions. *)
Definition forgets_stickies w w' : Prop := exists st, w' = set_w_stickies st w.

Lemma forgets_refl w : forgets_stickies w w.
Proof. exists (w_stickies w). by destruct w. Qed.

Lemma forgets_trans w1 w2 w3 : forgets_stickies w1 w2 -> forgets_stickies w2 w3 -> forgets_stickies w1 w3.
Proof. intros [a ->] [b ->]. by exists b. Qed.

Lemma forgets_clear gid id w : forgets_stickies w (clearSessionStickyByItem gid id w).
Proof. unfold clearSessionStickyByItem. destruct (w_stickies w !! gid); [by eexists|apply forgets_refl]. Qed.

Lemma scan_members_forget descend group items s w :
  (forall f ref s w, descend = Some f -> forgets_stickies w (f ref (s, w)).2) ->
  forgets_stickies w (foldl (scan_member cache base descend group) (s, w) items).2.
Proof.
  intros Hd. revert s w. induction items as [|item items IH]; intros s w; cbn [foldl]; [apply forgets_refl|].
  destruct (scan_member cache base descend group (s, w) item) as [s1 w1] eqn:Hm.
  eapply forgets_trans; [|apply IH]. change w1 with (s1, w1).2. rewrite <- Hm. unfold scan_member, scan_leaf.
  destruct (bool_decide _ && _); [apply forgets_refl|]. destruct (IsGroupRef item).
  - destruct descend as [f|]; [|apply forgets_refl]. destruct (groupLookup _) as [ref|]; [|apply forgets_refl].
    specialize (Hd f ref s w eq_refl). destruct (f ref (s, w)) as [s2 w2].
    destruct (_ && _); [|done]. eapply forgets_trans; [exact Hd|apply forgets_clear].
  - destruct (item_ChannelModel item); [|apply forgets_refl]. destruct (channelLookup _); [|apply forgets_refl].
    destruct (negb _); [apply forgets_refl|]. destruct (_ || _); [apply forgets_refl|apply forgets_clear].
Qed.

Lemma scan_group_forgets rem visiting group s w :
  forgets_stickies w (scanGroup rem cache base visiting group (s, w)).2.
Proof.
  revert visiting group s w. induction rem as [|rem IH]; intros visiting group s w; cbn [scanGroup];
    (case_bool_decide; [apply forgets_refl|]); apply scan_members_forget.
  - done.
  - by intros f ref s' w' [= <-].
Qed.
End scan_spec.

Section scan_theorem.
Context `{dir : Directory} `{fold : !CaseFolding} `{ords : !MapOrder string}.

(** C24: on every directory, cyclic ones included, the scan of a group skips
    exactly the reachable leaves whose declared window is below the estimate of
    the request; it finds no fitting member only when every reachable leaf is
    too small; a reference is blocked only when it leads to leaves that are all
    too small; and no breaker is touched. *)
Theorem context_scan_exact cache group body w :
  let est := estimateRequestTokens body in
  let reachable := leaf_of (Z.to_nat MaxGroupRefDepth) ∅ group in
  let '(s, w') := scanContextFit cache group body w in
  (forall id, id ∈ sc_skipped s <->
     exists leaf, reachable leaf /\ too_small cache est leaf = true /\ item_ID leaf = id) /\
  (0 < sc_candidates s /\ sc_fitting s = 0 <->
     (exists leaf, reachable leaf) /\ forall leaf, reachable leaf -> too_small cache est leaf = true) /\
  (forall id, id ∈ sc_blockedRefs s -> dead_reference cache est id) /\
  w_routes w' = w_routes w.
Proof.
  cbv zeta. unfold scanContextFit.
  pose proof (scan_group_spec cache (estimateRequestTokens body) (Z.to_nat MaxGroupRefDepth) ∅ group empty_scan w) as [H1 H2 H3 H4 H5].
  destruct (scan_group_forgets cache (estimateRequestTokens body) (Z.to_nat MaxGroupRefDepth) ∅ group empty_scan w) as [st Hw].
  destruct (scanGroup _ _ _ _ _ _) as [s w']. cbn [fst snd sc_candidates sc_fitting sc_skipped sc_blockedRefs empty_scan] in *.
  split; [|split; [|split]].
  - intros id. rewrite H4, elem_of_empty. tauto.
  - split.
    + intros [Hc Hf]. split; [by apply H2|]. intros leaf Hl. destruct (too_small _ _ leaf) eqn:Hts; [done|].
      assert (0 < sc_fitting s) by (apply H3; eauto). lia.
    + intros [Hex Hall]. split; [by apply H2|]. destruct (decide (0 < sc_fitting s)) as [Hpos|]; [|lia].
      apply H3 in Hpos as (leaf & Hl & Hts). by rewrite (Hall _ Hl) in Hts.
  - apply H5. intros id Hid. by apply elem_of_empty in Hid.
  - by rewrite Hw.
Qed.
End scan_theorem.

(** ** Concrete inputs *)

#[local] Instance ascii_folding : CaseFolding := { folds_together _ _ := false }.

Definition demo_probe := ProbeContextWindow (fun n _ => Some (mkProbeResult 0 (Nat.eqb n 1) 200 "" 65000))
  (Some (mkChannel 1 ChannelProviderOpenAI true "k" [] None false false 0 0 "c" "https://up/" false false "" ∅)) "m" 100000 ∅.

(** 65000 tokens were counted where 99000 were meant: the probe is repeated. *)
Lemma probe_density_bounded_witness :
  demo_probe.1 = Some (mkProbeResult 100000 true 200 "" 65000) /\
  map_Forall (fun _ => density_ok) demo_probe.2.
Proof.
  split; [by vm_compute|].
  pose proof (probe_density_bounded (fun n _ => Some (mkProbeResult 0 (Nat.eqb n 1) 200 "" 65000))
    (Some (mkChannel 1 ChannelProviderOpenAI true "k" [] None false false 0 0 "c" "https://up/" false false "" ∅))
    "m" 100000 ∅ (map_Forall_empty _)) as H.
  unfold demo_probe. destruct (ProbeContextWindow _ _ _ _ _) as [r c]. exact (proj1 H).
Defined.
