(* ===== verification/Headers.v ===== *)
(** * Headers of an upstream response

    relay/handler.go, [copyUpstreamHeaders]: which headers of an upstream reach
    the client, with [http.CanonicalHeaderKey] of net/textproto. *)

From S2P Require Import Prelude GoStrings Utf8.

(** [http.Header]. *)
Notation Header := (gmap string (list string)).

(** ** Canonical keys *)

Definition token_byte (a : ascii) : bool :=
  let b := byte_of a in
  is_digit a || ((65 <=? b) && (b <=? 90)) || ((97 <=? b) && (b <=? 122))
  || existsb (Z.eqb b) [33; 35; 36; 37; 38; 39; 42; 43; 45; 46; 94; 95; 96; 124; 126].

Definition upper_byte (a : ascii) : ascii :=
  let b := byte_of a in if (97 <=? b) && (b <=? 122) then of_byte (b - 32) else a.

Fixpoint all_tokens (s : string) : bool :=
  match s with EmptyString => true | String.String a s => token_byte a && all_tokens s end.
Fixpoint canonical (upper : bool) (s : string) : string :=
  match s with
  | EmptyString => EmptyString
  | String.String a s =>
      String.String (if upper then upper_byte a else lower_byte a) (canonical (byte_of a =? 45) s)
  end.

(** A key with a byte outside of the token alphabet is left as it is. *)
Definition CanonicalHeaderKey (s : string) : string := if all_tokens s then canonical true s else s.

(** [strings.Split(s, ",")]. *)
Fixpoint split_comma (cur s : string) : list string :=
  match s with
  | EmptyString => [cur]
  | String.String a s =>
      if byte_of a =? 44 then cur :: split_comma "" s else split_comma (cur +:+ String.String a "") s
  end.

(** ** Copying *)

Definition droppedUpstreamHeaders : list string :=
  ["Set-Cookie"; "Set-Cookie2"; "Location"; "Www-Authenticate"; "Proxy-Authenticate"; "Connection";
   "Keep-Alive"; "Proxy-Authorization"; "Te"; "Trailer"; "Transfer-Encoding"; "Upgrade";
   "X-Accel-Redirect"; "X-Accel-Buffering"; "X-Sendfile"].

Definition connectionHeaderTokens (src : Header) : list string :=
  filter (.≠ "")
    (raw ← default [] (src !! "Connection"); part ← split_comma "" raw; [CanonicalHeaderKey (TrimSpace part)]).

(** Whether the header [key] of the upstream is passed on. *)
Definition passes (src : Header) (streaming : bool) (key : string) : bool :=
  let canon := CanonicalHeaderKey key in
  negb (bool_decide (canon ∈ droppedUpstreamHeaders) || bool_decide (canon ∈ connectionHeaderTokens src))
  && negb (streaming && bool_decide (canon = "Content-Length")).

Definition copyUpstreamHeaders (dst src : Header) (streaming : bool) : Header :=
  filter (fun kv => passes src streaming kv.1 = true) src ∪ dst.

(** ** Properties *)

Lemma lower_canonical_byte a : lower_byte (upper_byte a) = lower_byte a /\ lower_byte (lower_byte a) = lower_byte a.
Proof. destruct a as [[] [] [] [] [] [] [] []]; by vm_compute. Qed.
Lemma upper_canonical_byte a : upper_byte (upper_byte a) = upper_byte a /\ upper_byte (lower_byte a) = upper_byte a.
Proof. destruct a as [[] [] [] [] [] [] [] []]; by vm_compute. Qed.
Lemma case_keeps_token a : token_byte (upper_byte a) = token_byte a /\ token_byte (lower_byte a) = token_byte a.
Proof. destruct a as [[] [] [] [] [] [] [] []]; by vm_compute. Qed.
Lemma case_keeps_dash a : (byte_of (upper_byte a) =? 45) = (byte_of a =? 45) /\ (byte_of (lower_byte a) =? 45) = (byte_of a =? 45).
Proof. destruct a as [[] [] [] [] [] [] [] []]; by vm_compute. Qed.

(** The bytes of a header name, letters in lower case. *)
Fixpoint lowered (s : string) : string :=
  match s with EmptyString => EmptyString | String.String a s => String.String (lower_byte a) (lowered s) end.

Lemma lowered_tokens s t : lowered s = lowered t -> all_tokens s = all_tokens t.
Proof.
  revert t. induction s as [|a s IH]; intros [|b t]; cbn; try done. intros [= Hab Hst].
  rewrite (IH _ Hst), <- (proj2 (case_keeps_token a)), Hab, (proj2 (case_keeps_token b)). done.
Qed.

Lemma lowered_canonical u s t : lowered s = lowered t -> canonical u s = canonical u t.
Proof.
  revert u t. induction s as [|a s IH]; intros u [|b t]; cbn; try done. intros [= Hab Hst].
  assert (Hd : (byte_of a =? 45) = (byte_of b =? 45)).
  { by rewrite <- (proj2 (case_keeps_dash a)), Hab, (proj2 (case_keeps_dash b)). }
  rewrite Hd, (IH _ _ Hst). f_equal. destruct u; [|done].
  by rewrite <- (proj2 (upper_canonical_byte a)), Hab, (proj2 (upper_canonical_byte b)).
Qed.

(** Names that differ in case are one header. *)
Lemma canonical_case s t : all_tokens s = true -> lowered s = lowered t -> CanonicalHeaderKey s = CanonicalHeaderKey t.
Proof.
  intros Hs Hst. unfold CanonicalHeaderKey. rewrite <- (lowered_tokens _ _ Hst), Hs. by apply lowered_canonical.
Qed.

(** No spelling of a dangerous or hop-by-hop header, nor of a header the
    upstream's Connection field names, comes from the upstream, nor a
    Content-Length in a stream; every other header of the upstream is copied,
    and the headers the relay has set are kept otherwise. *)
Theorem upstream_headers_filtered dst src streaming key :
  let out := copyUpstreamHeaders dst src streaming in
  (forall name, all_tokens name = true -> lowered key = lowered name ->
     (name ∈ droppedUpstreamHeaders \/
      (exists raw part, raw ∈ default [] (src !! "Connection") /\ part ∈ split_comma "" raw /\
                        name = TrimSpace part /\ name ≠ "") \/
      (streaming = true /\ name = "Content-Length")) ->
     out !! key = dst !! key) /\
  (passes src streaming key = true -> out !! key = union (src !! key) (dst !! key)).
Proof.
  cbv zeta. split.
  - intros name Htok Hlow Hname. unfold copyUpstreamHeaders.
    rewrite lookup_union_r; [done|]. apply map_lookup_filter_None. right. intros values _. cbn. unfold passes.
    rewrite <- (canonical_case name key Htok (eq_sym Hlow)). destruct Hname as [Hd|[(raw & part & Hraw & Hpart & -> & Hne)|[-> ->]]].
    + rewrite (bool_decide_true (CanonicalHeaderKey name ∈ _)); [done|].
      assert (Hid : CanonicalHeaderKey name = name).
      { unfold droppedUpstreamHeaders in Hd. repeat (apply elem_of_cons in Hd as [->|Hd]; [by vm_compute|]).
        by apply elem_of_nil in Hd. }
      by rewrite Hid.
    + rewrite (bool_decide_true (_ ∈ connectionHeaderTokens src)); [by rewrite orb_true_r|].
      unfold connectionHeaderTokens. apply list_elem_of_filter. split.
      * unfold CanonicalHeaderKey. rewrite Htok. by destruct (TrimSpace part).
      * apply list_elem_of_bind. exists raw. split; [|done]. apply list_elem_of_bind. exists part. split; [by left|done].
    + by rewrite andb_false_r.
  - intros Hp. unfold copyUpstreamHeaders. rewrite lookup_union.
    destruct (src !! key) as [v|] eqn:Hs.
    + rewrite (proj2 (map_lookup_filter_Some _ _ _ v)) by done. done.
    + rewrite (proj2 (map_lookup_filter_None _ _ _)) by (by left). done.
Qed.
