(* ===== verification/Forward.v ===== *)
(** * The attempt loop

    relay/handler.go, [Forward] from the registration of a request to its end.
    Each turn of the loop reads the group, masks the body once, selects a member,
    resolves references, prepares the body, picks a key, calls the upstream and
    either delivers the answer, gives up, or tries again.

    A turn is a computation over the handler's thread, which is the state of the
    process and the local variables of the function, that ends in one of three
    ways: it goes on, it starts the next turn ([continue]), or it returns. *)

From coqutil Require Export Datatypes.RecordSetters.
Export RecordSetters.OCamlLikeNotations.
From stdpp Require Import pretty.
From S2P Require Import Prelude GoStrings Utf8 Hub Float64 GroupModel Protocol Backoff Route Sticky RefChain.
From S2P Require Import Window ChannelLimit KeySelect Errors Usage Requests StreamEvents StreamWindow StreamForward.
From S2P Require Import ContextFit Headers.

(** ** Settings of a round *)

Definition routeRecheckIntervalSeconds (config : GroupRelayConfig) : f64 :=
  if f64_ltb f64_zero (MemberRetryIntervalSeconds config) then MemberRetryIntervalSeconds config
  else MemberRetryIntervalSeconds DefaultGroupRelayConfig.

Definition maxRequestRounds (config : GroupRelayConfig) : Z :=
  if 0 <? MaxRequestRounds config then MaxRequestRounds config else MaxRequestRounds DefaultGroupRelayConfig.

(** [elapsed] is [time.Since(startedAt)] in nanoseconds. *)
Definition requestDeadlineExceeded (config : GroupRelayConfig) (elapsed : Z) : bool :=
  let seconds := MaxRequestSeconds config in
  if seconds =? 0 then false
  else
    let seconds := if seconds <? 0 then MaxRequestSeconds DefaultGroupRelayConfig else seconds in
    seconds * 1000000000 <=? elapsed.

Definition memberTimeoutSeconds (config : GroupRelayConfig) (streaming : bool) : Z :=
  if streaming then
    if 0 <? MemberStreamFirstEventTimeoutSeconds config then MemberStreamFirstEventTimeoutSeconds config
    else MemberStreamFirstEventTimeoutSeconds DefaultGroupRelayConfig
  else
    if 0 <? MemberNonStreamResponseTimeoutSeconds config then MemberNonStreamResponseTimeoutSeconds config
    else MemberNonStreamResponseTimeoutSeconds DefaultGroupRelayConfig.

Definition memberTimeoutError (streaming : bool) (seconds : Z) : GoErr :=
  plain ((if streaming then "等待成员流式首个事件超时(" else "等待成员非流式完整响应超时(")
         +:+ pretty seconds +:+ " 秒)").

(** ** Errors of the loop *)

Definition err_AdminStopped := sentinel "管理端已停止请求" errAdminStopped.
Definition err_AllRequestsStopped := sentinel "服务器过载，请稍候" errAllRequestsStopped.
Definition err_RoundsExceeded := sentinel "请求尝试轮次超限" errRoundsExceeded.
Definition err_DeadlineExceeded := sentinel "请求总时长超限" errDeadlineExceeded.
Definition err_NoAvailableChannels := sentinel "暂无可用渠道" errNoAvailableChannels.
Definition err_AllChannelsBusy := sentinel "渠道并发已满，请稍候重试" errAllChannelsBusy.
Definition err_WarpProxyInvalid := sentinel "WARP 代理地址无效" errWarpProxyInvalid.
Definition err_WarpProxyTemplateInvalid := sentinel "WARP 代理模板必须把 {account} 放在用户名" errWarpProxyTemplateInvalid.
Definition err_ShortWrite := sentinel "short write" errShortWrite.

Definition context_detail (tokens window : Z) : GoErr :=
  plain ("没有候选模型的手动上下文窗口能容纳当前请求（请求约 " +:+ pretty tokens
         +:+ " token，手动窗口最大值 " +:+ pretty window +:+ " token）").

(** relay/warp_penalize.go. *)
Definition isWarpProxyRejection (err : GoErr) : bool :=
  let text := ToLower (err_Error err) in
  existsb (str_contains text) ["407"; "proxy authentication required"; "connection not allowed"; "proxyconnect"]
  || (str_contains text "503" && (str_contains text "proxy" || str_contains text "tunnel")).
Definition isWarpSlotUnavailable (err : GoErr) : bool :=
  str_contains (ToLower (err_Error err)) "service unavailable".

(** ** Labels *)

(** relay/keyselect.go and relay/channel.go. *)
Definition channelKeyLabel (index : Z) (key : ChannelKey) : string :=
  if bool_decide (key_ID key = "") && bool_decide (key_Remark key = "") then ""
  else "#" +:+ pretty (index + 1) +:+ "("
       +:+ (if bool_decide (key_Remark key = "") then key_ID key else key_Remark key) +:+ ")".

Definition provider_name (p : ChannelProvider) : string :=
  match p with
  | ChannelProviderOpenAI => "openai" | ChannelProviderOpenAIResponses => "openai_responses"
  | ChannelProviderAnthropic => "anthropic" | ChannelProviderCustom => "custom" | ChannelProviderOther s => s
  end.
Definition upstreamTypeLabel (channel : Channel) (m : option ChannelModel) : string :=
  match outboundProvider channel m with
  | ChannelProviderOpenAI => "openai_chat"
  | ChannelProviderCustom => "自定义固定回复"
  | p => provider_name p
  end.

(** ** The error log

    [recordErrorLog] hands a failed request to the queue of op/error_log.go. *)

Record ErrorLogEntry := mkErrorLog {
  le_Model : string; le_ChannelName : string; le_TargetModel : string; le_ErrClass : ErrClass;
  le_ErrDetail : string; le_RequestBody : string; le_MaskMatches : list MaskMatch }.

Record ErrorLog := mkLog {
  lg_total : Z;                          (** [totalErrorCount] *)
  lg_complete : list (ErrClass * Z);     (** [errCompleteLogCount] *)
  lg_queue : list ErrorLogEntry }.

Definition completeLogQuota : Z := 3.

Definition class_count (class : ErrClass) (counts : list (ErrClass * Z)) : Z :=
  default 0 (snd <$> find_first (fun kv => bool_decide (kv.1 = class)) counts).
Definition set_class_count (class : ErrClass) (n : Z) (counts : list (ErrClass * Z)) : list (ErrClass * Z) :=
  (class, n) :: filter (fun kv => kv.1 ≠ class) counts.

Definition recordErrorLog {Usage} (request : RequestState Usage) (log : ErrorLog) : ErrorLog :=
  let log := { log with lg_total ::= Z.add 1 } in
  if bool_decide (q_Class request = ErrClassRoundsExhausted) then log
  else
    let seq := class_count (q_Class request) (lg_complete log) + 1 in
    let complete := seq <=? completeLogQuota in
    { log with lg_complete ::= set_class_count (q_Class request) seq;
               lg_queue ::= (fun q => q ++ [mkErrorLog (q_Model request) (q_TargetChannel request)
                  (q_TargetModel request) (q_Class request) (q_Error request)
                  (if complete then q_body request else "") (if complete then q_MaskMatches request else [])]) }.

(** relay/mask_integration.go: the matches shown in the log are cut. *)
Definition maxMaskMatchesPerRequest : Z := 128.
Definition maxMaskMatchOriginalBytes : Z := 256.
Definition maxMaskMatchPlaceholderBytes : Z := 64.
Definition maxMaskMatchLabelBytes : Z := 32.
Definition maxMaskMatchesTotalBytes : Z := 32 * 1024.

Definition cut_match (m : MaskMatch) : MaskMatch :=
  mkMatch (truncateUTF8Bytes (mm_Label m) maxMaskMatchLabelBytes)
    (truncateUTF8Bytes (mm_Original m) maxMaskMatchOriginalBytes)
    (truncateUTF8Bytes (mm_Placeholder m) maxMaskMatchPlaceholderBytes).
Definition match_bytes (m : MaskMatch) : Z := slen (mm_Label m) + slen (mm_Original m) + slen (mm_Placeholder m).

Fixpoint take_matches (taken total : Z) (matches : list MaskMatch) : list MaskMatch * bool :=
  match matches with
  | [] => ([], false)
  | m :: matches =>
      if maxMaskMatchesPerRequest <=? taken then ([], true)
      else
        let m := cut_match m in
        if maxMaskMatchesTotalBytes <? total + match_bytes m then ([], true)
        else let '(result, truncated) := take_matches (taken + 1) (total + match_bytes m) matches in
             (m :: result, truncated)
  end.
Definition truncateMaskMatches (matches : list MaskMatch) : list MaskMatch * bool := take_matches 0 0 matches.

(** ** What the loop uses from elsewhere

    [sjson] edits bodies, [net/url] takes proxy addresses apart; the replay of
    reasoning (reasoning.go), the repair of a refused body and the rewriting of
    answers work on JSON through [gjson]. *)
Class Outside (R : Type) := {
  ResolveProxyTemplate : string -> string -> option string;
  proxy_user : string -> option string;
  AccountAliasFor : Z -> string -> string;
  OpenCodeTier : string -> string;
  roundProxyLabel : Channel -> Channel -> string;
  set_model : string -> string -> string + GoErr;
  set_include_usage : string -> string + GoErr;
  injectMissingReasonings : APIFormat -> ChannelProvider -> string -> string;
  sanitizeRequestBody : string -> bool * string;
  restoreNonStream : R -> string -> string;
  echoNonStreamResponseModel : APIFormat -> string -> string -> string;
}.

Section forward_loop.
Context {Usage R : Type} `{ops : !UsageOps Usage} `{agg : !Aggregator Usage} `{dec : Decoder} `{cli : !ClientSide R}.
Context `{out : !Outside R} `{fold : !CaseFolding} `{ord : !MapOrder Z} `{ords : !MapOrder string}.

(** ** State *)

(** The parts of the process a request works on. *)
Record System := mkSystem {
  s_world : World; s_densities : Densities; s_keys : KeyHealth; s_limits : ChannelLimits;
  s_registry : Registry Usage; s_log : ErrorLog }.

(** What the handler reports to the account pools and WARP slots, and how long it waits. *)
Inductive Effect :=
| Waited (seconds : f64)
| AccountSucceeded (channelID : Z) (keyID account : string)
| AccountRateLimited (channelID : Z) (keyID account session : string)
| AccountRejected (channelID : Z) (keyID account : string)
| AccountFailed (channelID : Z) (keyID account : string)
| SlotSucceeded (account : string) | SlotRateLimited (account : string)
| SlotUnavailable (account : string) | SlotNetworkFailure (account : string)
| WarpPenalized (channelID : Z).

(** The local variables of [Forward] that survive a turn. *)
Record Locals := mkLocals {
  l_body : string; l_restorer : option R; l_maskDone : bool; l_sessionBinding : string;
  l_failureCounts : gmap Z memberFailureCounts; l_exclude : Z; l_refSkips : Z;
  l_nonRetryable : gset Z; l_infeasible : gmap Z Z; l_hint : bool; l_contextSkipped : gset Z;
  l_maxWindow : Z; l_busyRejected : gset Z; l_rounds : Z; l_config : GroupRelayConfig;
  l_earlyEof : gset Z; l_sanitize : gset Z; l_accountRetries : gmap Z Z; l_clears : Z;
  l_effects : list Effect }.

Definition locals_init (body : string) : Locals :=
  mkLocals body None false "" ∅ 0 0 ∅ ∅ false ∅ 0 ∅ 0 DefaultGroupRelayConfig ∅ ∅ ∅ 0 [].

Record Thread := mkThread { t_sys : System; t_loc : Locals }.

(** What the client gets: nothing, an error in the format of its protocol with
    the status of [rejectRequest], a body, or a stream. *)
Inductive Reply :=
| NoReply
| Rejected (err : GoErr)
| Delivered (headers : Header) (body : string)
| Streamed (headers : Header) (outcome : StreamOutcome Usage R).

(** The parameters of a request. *)
Record Request := mkRequestInfo {
  rq_id : Z; rq_model : string; rq_format : APIFormat; rq_streaming : bool; rq_scopeKey : string;
  rq_session : bool -> string    (** the derived OpenCode session, for the v1 lane or not *) }.

Inductive MaskOutcome := MaskFailed (err : GoErr) | Masked (body : string) (mapping : option R) (matches : list MaskMatch).
Inductive WarpPick := WarpLease (account : string) | WarpBusy | WarpPickFailed (err : GoErr).

(** A usable answer of an upstream; a stream comes with its window. *)
Record UpstreamResponse := mkUpstream {
  up_header : Header; up_body : string; up_usage : option Usage;
  up_window : list StreamEvent; up_terminated : bool }.

(** One turn of the loop meets the world through: the directory as it reads it,
    the context of the client at each check, what other goroutines do between its
    steps, the clocks, the ends of its waits, and the answers of the mask engine,
    the pools and the upstream. *)
Record RoundEnv := mkEnv {
  re_dir : Directory;
  re_ctx : nat -> option GoErr;
  re_others : nat -> System -> System;
  re_elapsed : Z;
  re_ms : nat -> Z; re_ns : nat -> Z;
  re_pick : PickEnv; re_hops : nat -> PickEnv; re_fuel : nat;
  re_wake : wake;
  re_mask : string -> MaskOutcome;
  re_keyclock : nat -> Z;
  re_rpm : list rpm_event;
  re_account : string;
  re_warp : WarpPick;
  re_cancel : Z;
  re_build : option GoErr;
  re_upstream : UpstreamResponse + GoErr;
  re_roundCtx : Ctx;
  re_rest : list (option StreamEvent); re_final : option GoErr; re_cause : option GoErr;
  re_write : nat -> option GoErr; re_now : Z }.

(** ** Control *)

Inductive Outcome (A : Type) :=
| Next (a : A) (t : Thread)
| Continue (t : Thread)
| Return (reply : Reply) (t : Thread).
Arguments Next {A}.
Arguments Continue {A}.
Arguments Return {A}.

Definition M (A : Type) := Thread -> Outcome A.

#[export] Instance handler_ret : MRet M := fun A a t => Next a t.
#[export] Instance handler_bind : MBind M := fun A B f m t =>
  match m t with
  | Next a t => f a t
  | Continue t => Continue t
  | Return reply t => Return reply t
  end.

Definition get {A} (f : Thread -> A) : M A := fun t => Next (f t) t.
Definition upd_loc (f : Locals -> Locals) : M () := fun t => Next () (mkThread (t_sys t) (f (t_loc t))).
Definition upd_sys (f : System -> System) : M () := fun t => Next () (mkThread (f (t_sys t)) (t_loc t)).
Definition continue_ {A} : M A := Continue.
Definition return_ {A} (reply : Reply) : M A := Return reply.

Definition on_world (f : World -> World) : M () := upd_sys (fun s => { s with s_world ::= f }).
Definition world_op {A} (f : World -> A * World) : M A := fun t =>
  let '(a, w) := f (s_world (t_sys t)) in Next a (mkThread ({ t_sys t with s_world := w }) (t_loc t)).
Definition keys_op {A} (f : KeyHealth -> A * KeyHealth) : M A := fun t =>
  let '(a, keys) := f (s_keys (t_sys t)) in Next a (mkThread ({ t_sys t with s_keys := keys }) (t_loc t)).
Definition limits_op {A} (f : ChannelLimits -> A * ChannelLimits) : M A := fun t =>
  let '(a, limits) := f (s_limits (t_sys t)) in Next a (mkThread ({ t_sys t with s_limits := limits }) (t_loc t)).
Definition on_registry (f : Registry Usage -> Registry Usage) : M () :=
  upd_sys (fun s => { s with s_registry ::= f }).
Definition effect (e : Effect) : M () := upd_loc (fun l => { l with l_effects ::= (fun es => es ++ [e]) }).

Implicit Types (env : RoundEnv) (rq : Request) (group : Group) (item : GroupItem).

(** ** Ends of a request *)

Definition on_log rq : M () := upd_sys (fun s =>
  match g_objects (s_registry s) !! rq_id rq with
  | Some request => { s with s_log := recordErrorLog request (s_log s) }
  | None => s
  end).

(** [markFailed] and [markCanceled] with the [finish] they end in. *)
Definition mark_failed env rq (err : GoErr) (body : string) (usage : option Usage) : M () :=
  on_registry (finish (re_ns env 9) (rq_id rq) ∘ markFailed (rq_id rq) err body usage).
Definition mark_canceled env rq (err : GoErr) (body : string) (usage : option Usage) : M () :=
  on_registry (finish (re_ns env 9) (rq_id rq) ∘ markCanceled (rq_id rq) err body usage).
Definition mark_succeeded env rq (body : string) (usage : option Usage) : M () :=
  on_registry (finish (re_ns env 9) (rq_id rq) ∘ markSucceeded (rq_id rq) body usage).

Definition cancel {A} env rq (err : GoErr) : M A := mark_canceled env rq err "" None;; return_ NoReply.
(** [markFailed], [recordErrorLog], [rejectRequest]. *)
Definition refuse {A} env rq (err shown : GoErr) : M A :=
  mark_failed env rq err "" None;; on_log rq;; return_ (Rejected shown).

Definition stop_requested rq : M bool := get (fun t =>
  match g_objects (s_registry (t_sys t)) !! rq_id rq with Some r => q_stopRequested r | None => false end).
Definition others env (point : nat) : M () := upd_sys (re_others env point).

(** [request.wait]: the timer starts the next turn. *)
Definition wait_then_continue {A} env rq (seconds : f64) : M A :=
  effect (Waited seconds);;
  match re_wake env with
  | TimerEnds => continue_
  | ev => on_registry (fun g => finish (re_ns env 9) (rq_id rq) (wait (rq_id rq) ev g).2);; return_ NoReply
  end.

(** ** The head of a turn *)

Definition round_head env rq : M () :=
  match re_ctx env 0 with
  | Some err => cancel env rq err
  | None =>
      stopped ← stop_requested rq;
      if (stopped : bool) then cancel env rq err_AdminStopped else
      all ← get (fun t => g_allStopped (s_registry (t_sys t)));
      if (all : bool) then refuse env rq err_AllRequestsStopped err_AllRequestsStopped else
      upd_loc (fun l => { l with l_rounds ::= Z.add 1 });;
      l ← get t_loc;
      if maxRequestRounds (l_config l) <? l_rounds l then refuse env rq err_RoundsExceeded err_NoAvailableChannels
      else if requestDeadlineExceeded (l_config l) (re_elapsed env)
      then refuse env rq err_DeadlineExceeded err_NoAvailableChannels
      else mret ()
  end.

Definition read_group env rq : M Group :=
  match @groupLookup (re_dir env) (rq_model rq) with
  | None => wait_then_continue env rq (MemberRetryIntervalSeconds DefaultGroupRelayConfig)
  | Some group => upd_loc (fun l => { l with l_config := g_RelayConfig group });; mret group
  end.

Definition mask_failure (err : GoErr) : GoErr := errorf_w ("脱敏失败, 拒绝放行明文: " +:+ err_Error err) err.

Definition mask_once env rq : M () :=
  l ← get t_loc;
  if l_maskDone l then mret () else
  match re_mask env (l_body l) with
  | MaskFailed err => refuse env rq (mask_failure err) (mask_failure err)
  | Masked body mapping matches =>
      let '(trimmed, truncated) := truncateMaskMatches matches in
      upd_loc (fun l => { l with l_body := body; l_restorer := mapping });;
      on_registry (applyMaskResult (rq_id rq) body trimmed truncated);;
      upd_loc (fun l => { l with l_maskDone := true })
  end.

(** ** Selection *)

(** The members to skip, and whether no candidate can hold the request. *)
Definition fit_scan env group : M (gset Z * bool) :=
  l ← get t_loc;
  densities ← get (s_densities ∘ t_sys);
  '(blocked, allSkipped) ←
    (if ContextFitEnabled (l_config l) then
       scan ← world_op (@scanContextFit (re_dir env) fold ords densities group (l_body l));
       upd_loc (fun l => { l with l_contextSkipped ::= union (sc_skipped scan);
                                  l_maxWindow ::= Z.max (sc_maxWindow scan) });;
       mret (sc_blockedRefs scan, (0 <? sc_candidates scan) && (sc_fitting scan =? 0))
     else mret (∅, false));
  l ← get t_loc;
  mret (l_contextSkipped l ∪ blocked ∪ dom (l_infeasible l), allSkipped).

Definition select_member env rq group (skipped : gset Z) : M GroupItem :=
  l ← get t_loc;
  item ← (if sessionStickyEnabled group (rq_scopeKey rq)
          then world_op (@pickSessionStickyLocked (re_dir env) (re_ms env 0) group (rq_scopeKey rq) (l_exclude l) skipped)
          else mret zero_item);
  if item_ID item =? 0
  then world_op (@pickGroupItemSkipping (re_dir env) ord (re_pick env) group (l_exclude l) skipped (Some (rq_format rq)))
  else mret item.

Definition candidate_count env group : Z := default 0 (@routableCandidateCount (re_dir env) (re_fuel env) group).

Definition context_refusal {A} env rq : M A :=
  l ← get t_loc;
  let err := context_detail (estimateDefaultTokens (estimateRequestTokens (l_body l))) (l_maxWindow l) in
  refuse env rq err err.

(** No member can be selected. *)
Definition none_selected {A} env rq group (allSkipped : bool) : M A :=
  l ← get t_loc;
  let count := candidate_count env group in
  if allSkipped || ((0 <? count) && (count <=? Z.of_nat (size (l_contextSkipped l)))) then context_refusal env rq
  else
    cooling ← get (fun t => @allMembersInCooldown (re_dir env) (re_ms env 1) group (s_world (t_sys t)));
    let base := AllCooldownRetryBaseSeconds (g_RelayConfig group) in
    if (0 <? base) && (cooling : bool) then
      upd_loc (fun l => { l with l_clears ::= Z.add 1 });;
      on_world (fun w => (ResetGroupCooldown (g_ID group) w).2);;
      l ← get t_loc;
      let interval := base * l_clears l in
      let max := AllCooldownRetryMaxSeconds (g_RelayConfig group) in
      wait_then_continue env rq (f64_of_int (if (0 <? max) && (max <? interval) then max else interval))
    else
      upd_loc (fun l => { l with l_exclude := 0 });;
      wait_then_continue env rq (routeRecheckIntervalSeconds (g_RelayConfig group)).

(** ** References *)

Definition release_chain (hops : list refHop) : M () := on_world (releaseRefChainHops hops).
Definition release_ancestors (hops : list refHop) : M () := on_world (releaseRefChainHops (removelast hops)).
Definition clear_sticky group item : M () := on_world (clearSessionStickyByItem (g_ID group) (item_ID item)).

(** Ten turns are enough for any chain (RefChain.v). *)
Definition resolve_fuel : nat := 10.

Definition resolve_hops env rq group item (skipped : gset Z) : M (list refHop * Z) :=
  l ← get t_loc;
  world_op (fun w =>
    match @resolveGroupRefChainSkipping (re_dir env) ord resolve_fuel (re_hops env) group item (rq_scopeKey rq)
            (l_exclude l) skipped (Some (rq_format rq)) w with
    | Some (hops, failed, w) => (hops, failed, w)
    | None => ([mkHop group item], 0, w)
    end).

(** A reference that leads nowhere is excluded without a penalty. *)
Definition broken_reference {A} env rq group item (hops : list refHop) (failed : Z) : M A :=
  upd_loc (fun l => { l with l_refSkips ::= Z.add 1 });;
  l ← get t_loc;
  if Z.of_nat (length (g_Items group)) <? l_refSkips l then
    upd_loc (fun l => { l with l_refSkips := 0; l_exclude := 0 });;
    release_chain hops;;
    wait_then_continue env rq (routeRecheckIntervalSeconds (g_RelayConfig group))
  else
    let broken := default (mkHop group item) (hops !! Z.to_nat failed) in
    release_chain hops;;
    clear_sticky (hop_group broken) (hop_item broken);;
    (if item_ID (hop_item broken) =? item_ID item then mret () else clear_sticky group item);;
    upd_loc (fun l => { l with l_exclude := item_ID item });;
    continue_.

Definition resolve_member env rq group item (skipped : gset Z) : M (list refHop) :=
  '(hops, failed) ← resolve_hops env rq group item skipped;
  if 0 <=? failed then broken_reference env rq group item hops failed
  else upd_loc (fun l => { l with l_refSkips := 0 });; mret hops.

(** The leaf of a chain. *)
Definition leaf_hop group item (hops : list refHop) : refHop := default (mkHop group item) (last hops).

(** ** The leaf *)

(** From here on [group] and [item] are those of the leaf and [top] is the group
    the request named. *)
Definition missing {A} env rq group item (hops : list refHop) : M A :=
  release_chain hops;;
  clear_sticky group item;;
  upd_loc (fun l => { l with l_exclude := 0 });;
  wait_then_continue env rq (routeRecheckIntervalSeconds (g_RelayConfig group)).

Definition leaf_channel env rq group item (hops : list refHop) : M (ChannelModel * Channel) :=
  match item_ChannelModel item with
  | None => missing env rq group item hops
  | Some m =>
      match @channelLookup (re_dir env) (cm_ChannelID m) with
      | None => missing env rq group item hops
      | Some channel => if ch_Enabled channel then mret (m, channel) else missing env rq group item hops
      end
  end.

Definition set_body env rq (hops : list refHop) (result : string + GoErr) : M () :=
  match result with
  | inl body => upd_loc (fun l => { l with l_body := body })
  | inr err => release_chain hops;; refuse env rq err err
  end.

Definition relay_mode (mode : RelayMode) : string := match mode with RelayPassthrough => "passthrough" | RelayConverted => "converted" end.

Definition prepare_body env rq (m : ChannelModel) (channel : Channel) (hops : list refHop) : M () :=
  l ← get t_loc;
  set_body env rq hops (set_model (cm_Name m) (l_body l));;
  l ← get t_loc;
  (if rq_streaming rq && bool_decide (rq_format rq = APIFormatOpenAIChatCompletion)
   then set_body env rq hops (set_include_usage (l_body l)) else mret ());;
  upd_loc (fun l => { l with l_body ::= injectMissingReasonings (rq_format rq) (ch_Type channel) });;
  on_registry (setRelayMode (rq_id rq) (relay_mode (relayModeFor channel (Some m) (rq_format rq)))).

(** A member whose window is too small is skipped, not failed. *)
Definition fit_leaf env rq (top : Group) group item (m : ChannelModel) (channel : Channel) (hops : list refHop) : M () :=
  l ← get t_loc;
  densities ← get (s_densities ∘ t_sys);
  let window := effectiveContextWindow (ch_ModelLimits channel) (Some m) in
  if ContextFitEnabled (l_config l)
     && negb (contextFitsWindow densities (l_body l) window (ch_BaseURL channel) (cm_Name m))
  then
    upd_loc (fun l => { l with l_contextSkipped ::= union {[item_ID item]}; l_maxWindow ::= Z.max window });;
    release_chain hops;;
    clear_sticky group item;;
    l ← get t_loc;
    if candidate_count env top <=? Z.of_nat (size (l_contextSkipped l)) then context_refusal env rq
    else upd_loc (fun l => { l with l_exclude := item_ID item });; continue_
  else mret ().

(** ** The key and the outbound account *)

Record Dispatch := mkDispatch {
  d_index : Z; d_key : ChannelKey; d_effective : Channel; d_account : string; d_err : option GoErr }.

Definition key_failure (e : key_error) : GoErr :=
  match e with
  | ErrAllChannelKeysCooling => sentinel "all keys cooling" errAllChannelKeysCooling
  | ErrProxyTemplateInvalid => plain "proxy template invalid"
  | ErrChannelDisabled => plain "channel disabled"
  | ErrWarpProbeUnsupported => plain "warp proxy probe unsupported"
  end.

Definition set_proxy (addr : string) (c : Channel) : Channel := with_key c (ch_Key c) (Some addr).

Definition isOpencodeV1Lane (channel : Channel) : bool :=
  if bool_decide (ch_OpencodeLane channel = "v1") then true
  else if bool_decide (ch_OpencodeLane channel = "v2") then false
  else bool_decide (OpenCodeTier (ch_BaseURL channel) = "zen") && str_contains (ToLower (ch_BaseURL channel)) "/zen".
Definition isOpencodeFreeLane (channel : Channel) : bool :=
  ch_OpencodeCompat channel && bool_decide (OpenCodeTier (ch_BaseURL channel) = "zen").
Definition proxyNeedsOpencodeAccount (channel : Channel) : bool :=
  isOpencodeFreeLane channel && match ch_ChannelProxy channel with
                                | None => false
                                | Some proxy => HasAccountPlaceholder proxy
                                end.

(** The account pool answers with [re_account]; a template that does not resolve
    leaves the channel as it is. *)
Definition outbound_account env (channel effective : Channel) : Channel * string * option GoErr :=
  if negb (isWarpProxy channel) && proxyNeedsOpencodeAccount channel then
    if bool_decide (re_account env = "") then (effective, "", Some (plain "免费渠道无可用代理账号"))
    else
      match ResolveProxyTemplate (default "" (ch_ChannelProxy channel)) (re_account env) with
      | Some addr => (set_proxy addr effective, re_account env, None)
      | None => (effective, "", None)
      end
  else (effective, "", None).

(** The session binding is derived once per request. *)
Definition choose_key env rq (channel : Channel) : M Dispatch :=
  selected ← keys_op (selectChannelKey (re_keyclock env) channel);
  (if ch_OpencodeCompat channel || isWarpProxy channel then
     upd_loc (fun l => if bool_decide (l_sessionBinding l = "")
                       then { l with l_sessionBinding := rq_session rq (isOpencodeV1Lane channel) } else l)
   else mret ());;
  match selected with
  | None => mret (mkDispatch 0 (mkKey "" "" "") channel "" (Some (key_failure ErrAllChannelKeysCooling)))
  | Some (index, key) =>
      match effectiveChannelForKey ResolveProxyTemplate AccountAliasFor channel key with
      | inr e => mret (mkDispatch index key channel "" (Some (key_failure e)))
      | inl effective =>
          let '(effective, account, err) := outbound_account env channel effective in
          mret (mkDispatch index key effective account err)
      end
  end.

Definition round_target rq item (m : ChannelModel) (channel : Channel) (d : Dispatch) (thinking : string) : RoundTarget :=
  mkTarget (item_ID item) (ch_ID channel) (ch_Name channel) (cm_Name m) (channelKeyLabel (d_index d) (d_key d)) thinking
    (clientFormatLabel (rq_format rq)) (upstreamTypeLabel channel (Some m))
    (supportsNativeFormat channel (Some m) (rq_format rq)) (roundProxyLabel channel (d_effective d)).

(** [classifyRound] and [finishRound] against a live client context. *)
Definition finish_round env rq (outcome : AttemptOutcome) (class : ErrClass) (brief : string) : M () :=
  on_registry (finishRound (re_ns env 4) (rq_id rq) outcome class brief).
Definition release_lifecycle rq : M () := on_registry (releaseRoundLifecycle (rq_id rq)).

(** The verdict of [recordRouteFailureIfReal] on the leaf. *)
Definition record_failure env group item (err : GoErr) : M bool := fun t =>
  let l := t_loc t in
  let '(again, counts, w) :=
    recordRouteFailureIfReal (re_ms env 5) group (item_ID item) (l_failureCounts l)
      (isInfrastructureError (Some err)) (s_world (t_sys t)) in
  Next again (mkThread ({ t_sys t with s_world := w }) ({ l with l_failureCounts := counts })).

(** The end of a failed round: the ancestors are released, the leaf is charged. *)
Definition charge_leaf {A} env rq group item (hops : list refHop) (err : GoErr) : M A :=
  release_ancestors hops;;
  again ← record_failure env group item err;
  if (again : bool) then
    clear_sticky group item;;
    upd_loc (fun l => { l with l_exclude := item_ID item });;
    continue_
  else
    upd_loc (fun l => { l with l_exclude := 0 });;
    wait_then_continue env rq (MemberRetryIntervalSeconds (g_RelayConfig group)).

(** A round that fails before it reaches the upstream. *)
Definition dispatch_failed {A} env rq group item (m : ChannelModel) (channel : Channel) (hops : list refHop)
    (d : Dispatch) (err : GoErr) : M A :=
  match re_ctx env 1 with
  | Some ctxErr => release_chain hops;; cancel env rq ctxErr
  | None =>
      on_registry (startRound (re_ns env 1) (rq_id rq) (re_cancel env)
                     (round_target rq item m channel d ""));;
      finish_round env rq AttemptFailed (classifyRound (Some err) (Some None) (Some None)) (err_Error err);;
      release_lifecycle rq;;
      charge_leaf env rq group item hops err
  end.

(** The rate gate of the key. [re_rpm] lists what ends the wait. *)
Definition rpm_gate env rq (channel : Channel) (hops : list refHop) (d : Dispatch) : M () :=
  outcome ← limits_op (waitChannelRPM (re_rpm env) (re_ns env 2) (ch_ID channel) (key_ID (d_key d))
                         (ch_RateLimitRPM (d_effective d)));
  match outcome with
  | RpmAdmitted => mret ()
  | _ =>
    release_chain hops;;
    stopped ← stop_requested rq;
    cancel env rq (if (stopped : bool) then err_AdminStopped
                   else default (sentinel "context canceled" contextCanceled) (re_ctx env 2))
  end.

(** A WARP slot: the channel for this round and the account of the lease. *)
Definition lease_slot env rq group (channel : Channel) (hops : list refHop) (d : Dispatch) : M (Dispatch * option string) :=
  match ch_ChannelProxy channel with
  | Some proxy =>
      if isWarpProxy channel && HasAccountPlaceholder proxy then
        match re_warp env with
        | WarpBusy =>
            release_chain hops;; wait_then_continue env rq (routeRecheckIntervalSeconds (g_RelayConfig group))
        | WarpPickFailed err => release_chain hops;; refuse env rq err err
        | WarpLease account =>
            match ResolveProxyTemplate proxy account with
            | None => release_chain hops;; refuse env rq err_WarpProxyInvalid err_WarpProxyInvalid
            | Some addr =>
                if negb (bool_decide (proxy_user addr = Some account)) || HasAccountPlaceholder addr
                then release_chain hops;; refuse env rq err_WarpProxyTemplateInvalid err_WarpProxyTemplateInvalid
                else mret (mkDispatch (d_index d) (d_key d) (set_proxy addr (d_effective d)) account None, Some account)
            end
        end
      else mret (d, None)
  | None => mret (d, None)
  end.

(** ** The upstream call *)

Definition thinking_level (channel : Channel) (m : ChannelModel) : string :=
  default "" (ml_ThinkingLevel <$> lookupModelLimit (ch_ModelLimits channel) (cm_Name m)).

Definition is_timeout (c : Ctx) : bool := errors_Is (ctx_cause c) errMemberResponseTimeout.

(** What the call yields: an error of [buildOutbound], or the outcome of
    [sendPassthrough] and [sendConverted]; a stream whose round has been timed out
    at the same moment is closed and counts as timed out. *)
Definition upstream_outcome env rq group : UpstreamResponse + GoErr :=
  match re_build env with
  | Some err => inr err
  | None =>
      match re_upstream env with
      | inl response =>
          if rq_streaming rq && ctx_done (re_roundCtx env)
          then inr (memberTimeoutError true (memberTimeoutSeconds (g_RelayConfig group) true))
          else inl response
      | inr err => inr err
      end
  end.

Definition slot_feedback (account : string) (attempted : bool) (err : option GoErr) : list Effect * bool :=
  match err with
  | None => ([SlotSucceeded account], false)
  | Some e =>
      if negb attempted then ([], false)
      else
        match UpstreamStatusCode err with
        | Some code =>
            if code =? 403 then ([], true)
            else if code =? 429 then ([SlotRateLimited account], true)
            else if isWarpProxyRejection e then ([SlotUnavailable account], true) else ([], false)
        | None =>
            if isWarpProxyRejection e || isWarpSlotUnavailable e then ([SlotUnavailable account], true)
            else if errors_Is err contextCanceled then ([], false)
            else ([SlotNetworkFailure account], false)
        end
  end.

Definition account_feedback (channelID : Z) (keyID account session : string) (err : option GoErr) : list Effect * bool :=
  match err with
  | None => ([AccountSucceeded channelID keyID account], false)
  | Some _ =>
      let '(marks, rejected) :=
        match UpstreamStatusCode err with
        | Some code => if code =? 429 then ([AccountRateLimited channelID keyID account session], true)
                       else if code =? 403 then ([AccountRejected channelID keyID account], true)
                       else ([], false)
        | None => ([], false)
        end in
      (marks ++ if errors_Is err contextCanceled then [] else [AccountFailed channelID keyID account], rejected)
  end.

(** The last result: whether the exit, not the member, was refused. *)
Definition feedback (channel : Channel) (d : Dispatch) (lease : option string) (session : string)
    (attempted : bool) (err : option GoErr) : list Effect * bool :=
  match lease with
  | Some account => slot_feedback account attempted err
  | None =>
      if negb (bool_decide (d_account d = ""))
      then account_feedback (ch_ID channel) (if ch_Keyed channel then key_ID (d_key d) else "") (d_account d) session err
      else if isWarpProxy channel
      then match UpstreamStatusCode err with
           | Some code => if code =? 403 then ([], true)
                          else if code =? 429 then ([WarpPenalized (ch_ID channel)], true) else ([], false)
           | None => ([], false)
           end
      else ([], false)
  end.

(** ** A round that failed *)

Definition ocProxyMaxRetries : Z := 3.

(** The chain goes back without a verdict and the next turn starts. *)
Definition retry {A} rq (hops : list refHop) : M A := release_lifecycle rq;; release_chain hops;; continue_.

(** A member the request does not suit, with the status that said so. *)
Definition infeasible {A} env rq (top : Group) group item (hops : list refHop) : M A :=
  release_chain hops;;
  clear_sticky group item;;
  l ← get t_loc;
  if candidate_count env top <=? Z.of_nat (size (l_infeasible l)) then
    let err := default err_NoAvailableChannels (requestInfeasibleError (l_infeasible l) (l_hint l)) in
    refuse env rq err err
  else upd_loc (fun l => { l with l_exclude := item_ID item });; continue_.

Definition deterministic (key : ChannelKey) (status : option Z) : bool :=
  match status with
  | Some code => (code =? 400) || (code =? 404) || (code =? 422)
                 || (bool_decide (key_Key key = "") && ((code =? 401) || (code =? 403)))
  | None => false
  end.

(** The member is charged and never tried again by this request. *)
Definition non_retryable {A} env rq (top : Group) group item (hops : list refHop) (err : GoErr) : M A :=
  release_ancestors hops;;
  _ ← record_failure env group item err;
  clear_sticky group item;;
  upd_loc (fun l => { l with l_nonRetryable ::= union {[item_ID item]} });;
  l ← get t_loc;
  if candidate_count env top <=? Z.of_nat (size (l_nonRetryable l)) + Z.of_nat (size (l_infeasible l)) then
    let infeasibleErr := requestInfeasibleError (l_infeasible l) (l_hint l) in
    refuse env rq (default err infeasibleErr) (default err_NoAvailableChannels infeasibleErr)
  else upd_loc (fun l => { l with l_exclude := item_ID item });; continue_.

(** The verdicts that are left once the round has been recorded. *)
Definition judge_failure {A} env rq (top : Group) group item (hops : list refHop) (d : Dispatch) (rejected : bool)
    (err : GoErr) : M A :=
  l ← get t_loc;
  let status := UpstreamStatusCode (Some err) in
  let id := item_ID item in
  if rejected && ((l_accountRetries l).[id] <? ocProxyMaxRetries) then
    upd_loc (fun l => { l with l_accountRetries ::= (fun m => <[id := m.[id] + 1]> m) });; retry rq hops
  else if errors_Is (Some err) errStreamEarlyEof && negb (bool_decide (id ∈ l_earlyEof l)) then
    upd_loc (fun l => { l with l_earlyEof ::= union {[id]} });; retry rq hops
  else if bool_decide (status = Some 413) then
    upd_loc (fun l => { l with l_infeasible ::= insert id 413;
                               l_hint ::= orb (isContextOverflowRejection (Some err)) });;
    release_lifecycle rq;;
    infeasible env rq top group item hops
  else if errors_Is (Some err) errChannelConcurrencyFull then
    upd_loc (fun l => { l with l_busyRejected ::= union {[id]} });;
    release_lifecycle rq;;
    release_chain hops;;
    l ← get t_loc;
    if candidate_count env top <=? Z.of_nat (size (l_busyRejected l))
    then refuse env rq err_AllChannelsBusy err_AllChannelsBusy
    else upd_loc (fun l => { l with l_exclude := id });; continue_
  else
    again ← (if bool_decide (status = Some 400) && negb (bool_decide (id ∈ l_sanitize l)) then
               upd_loc (fun l => { l with l_sanitize ::= union {[id]} });;
               let '(changed, body) := sanitizeRequestBody (l_body l) in
               (if (changed : bool) then upd_loc (fun l => { l with l_body := body }) else mret ());;
               mret (changed || negb (isDeterministicRequestRejection (Some err)))
             else mret false);
    if (again : bool) then retry rq hops
    else
      release_lifecycle rq;;
      if deterministic (d_key d) status then
        if isContextOverflowRejection (Some err) then
          upd_loc (fun l => { l with l_infeasible ::= insert id (default 0 status) });;
          infeasible env rq top group item hops
        else non_retryable env rq top group item hops err
      else charge_leaf env rq group item hops err.

(** Recording a failed round; [re_ctx env 3] is the client context by then. *)
Definition handle_failure {A} env rq (top : Group) group item (hops : list refHop) (channel : Channel)
    (d : Dispatch) (rejected : bool) (err : GoErr) : M A :=
  let err := if is_timeout (re_roundCtx env)
             then memberTimeoutError (rq_streaming rq) (memberTimeoutSeconds (g_RelayConfig group) (rq_streaming rq))
             else err in
  let aborted := ctx_done (re_roundCtx env) && negb (is_timeout (re_roundCtx env)) in
  let outcome := if is_some (re_ctx env 3) || aborted then AttemptCanceled else AttemptFailed in
  let brief := if bool_decide (outcome = AttemptFailed) then err_Error err else "" in
  if bool_decide (outcome = AttemptFailed) && negb rejected && (1 <? Z.of_nat (length (ch_Keys channel)))
     && (isAuthRejectionError (Some err) || isKeyRateLimitError (Some err))
  then
    keys_op (fun keys => ((), markChannelKeyCooldown (re_ms env 4) (ch_ID channel) (key_ID (d_key d))
                                (MemberCooldownSeconds (g_RelayConfig group)) keys));;
    finish_round env rq AttemptFailed (classifyUpstreamStatus (Some err)) brief;;
    retry rq hops
  else
    finish_round env rq outcome (classifyRound (Some err) (Some (re_ctx env 3)) (re_roundCtx env)) brief;;
    stopped ← stop_requested rq;
    if (stopped : bool) then release_lifecycle rq;; release_chain hops;; cancel env rq err_AdminStopped
    else
      match re_ctx env 3 with
      | Some ctxErr => release_lifecycle rq;; release_chain hops;; cancel env rq ctxErr
      | None => if aborted then retry rq hops else judge_failure env rq top group item hops d rejected err
      end.

(** ** A round that succeeded *)

Definition commitRouteOutcome env rq (hops : list refHop) : M () :=
  on_world (fun w => foldl (fun w hop => recordRouteSuccess (re_ms env 6) (hop_group hop) (item_ID (hop_item hop)) w) w hops);;
  on_world (fun w => foldl (fun w hop =>
    if sessionStickyEnabled (hop_group hop) (rq_scopeKey rq)
    then bindSessionSticky (re_ms env 7) (re_ms env 7) (re_ms env 7) (hop_group hop) (rq_scopeKey rq) (item_ID (hop_item hop)) w
    else w) w hops).

Definition restored_body (l : Locals) rq (body : string) : string :=
  let body := match l_restorer l with Some r => restoreNonStream r body | None => body end in
  if EchoResponseModel (l_config l) then echoNonStreamResponseModel (rq_format rq) body (rq_model rq) else body.

(** A Content-Length that no longer holds is dropped. *)
Definition fix_length (headers : Header) (body : string) : Header :=
  match headers !! "Content-Length" with
  | Some (got :: _) => if negb (bool_decide (got = "")) && negb (bool_decide (got = pretty (slen body)))
                       then delete "Content-Length" headers else headers
  | _ => headers
  end.
Definition default_type (type : string) (headers : Header) : Header :=
  match headers !! "Content-Type" with
  | Some (v :: _) => if bool_decide (v = "") then <["Content-Type" := [type]]> headers else headers
  | _ => <["Content-Type" := [type]]> headers
  end.

Definition deliver_body env rq (response : UpstreamResponse) (headers : Header) : M Empty_set :=
  release_lifecycle rq;;
  on_registry (markCommitted (re_ns env 6) (rq_id rq));;
  l ← get t_loc;
  let body := restored_body l rq (up_body response) in
  match re_write env 0%nat with
  | Some err =>
      match re_ctx env 4 with
      | Some ctxErr => mark_canceled env rq ctxErr body (up_usage response)
      | None => mark_failed env rq err body (up_usage response);; on_log rq
      end;;
      return_ NoReply
  | None =>
      mark_succeeded env rq body (up_usage response);;
      return_ (Delivered (fix_length (default_type "application/json" headers) body) body)
  end.

Definition stream_effect env rq (e : StreamEffect) (g : Registry Usage) : Registry Usage :=
  match e with
  | Committed => markCommitted (re_ns env 6) (rq_id rq) g
  | OutputChars n => noteOutputChars (re_ns env 7) (rq_id rq) n g
  end.

Definition first_some {A} (a b : option A) : option A := match a with Some _ => a | None => b end.

Definition deliver_stream env rq group item (hops : list refHop) (response : UpstreamResponse) (headers : Header) : M Empty_set :=
  l ← get t_loc;
  let inp := mkInput (rq_format rq) (rq_model rq) (l_config l) (up_window response) (up_terminated response)
               (re_rest env) (re_final env) (re_cause env) (re_write env) (l_restorer l) (re_now env) in
  let o := forward_stream inp (re_ctx env 5) in
  let usage := first_some (so_usage o) (up_usage response) in
  let reply := Streamed (default_type "text/event-stream" headers) o in
  on_registry (fun g => foldl (fun g e => stream_effect env rq e g) g (f_effects (so_state o)));;
  release_lifecycle rq;;
  others env 4;;
  match so_failure o with
  | Some err =>
      stopped ← stop_requested rq;
      if (stopped : bool) then
        release_chain hops;; mark_canceled env rq err_AdminStopped (so_body o) usage;; return_ reply
      else
        (if is_some (re_ctx env 6) || f_clientGone (so_state o) then mret ()
         else
           cooled ← world_op (recordPostCommitFailure (re_ms env 8) group (item_ID item));
           if (cooled : bool) then clear_sticky group item else mret ());;
        match re_ctx env 6 with
        | Some ctxErr => mark_canceled env rq ctxErr (so_body o) usage
        | None => mark_failed env rq err (so_body o) usage;; on_log rq
        end;;
        release_chain hops;;
        return_ reply
  | None =>
      commitRouteOutcome env rq hops;;
      mark_succeeded env rq (so_body o) usage;;
      return_ reply
  end.

(** ** One turn, and the loop *)

Definition attempt env rq (top : Group) group item (m : ChannelModel) (channel : Channel) (hops : list refHop)
    (d : Dispatch) (lease : option string) : M Empty_set :=
  on_registry (startRound (re_ns env 3) (rq_id rq) (re_cancel env)
                 (round_target rq item m channel d (thinking_level channel m)));;
  others env 3;;
  l ← get t_loc;
  let outcome := upstream_outcome env rq group in
  let err := match outcome with inl _ => None | inr err => Some err end in
  let '(effects, rejected) := feedback channel d lease (l_sessionBinding l) (negb (is_some (re_build env))) err in
  upd_loc (fun l => { l with l_effects ::= (fun es => es ++ effects) });;
  match outcome with
  | inr err => handle_failure env rq top group item hops channel d rejected err
  | inl response =>
      finish_round env rq AttemptSuccess ErrClassNone "";;
      let headers := copyUpstreamHeaders ∅ (up_header response) (rq_streaming rq) in
      if rq_streaming rq then deliver_stream env rq group item hops response headers
      else commitRouteOutcome env rq hops;; deliver_body env rq response headers
  end.

(** The part of a turn behind the selection of a leaf. *)
Definition serve env rq (top : Group) (hops : list refHop) group item : M Empty_set :=
  '(m, channel) ← leaf_channel env rq group item hops;
  prepare_body env rq m channel hops;;
  fit_leaf env rq top group item m channel hops;;
  d ← choose_key env rq channel;
  match d_err d with
  | Some err => dispatch_failed env rq group item m channel hops d err
  | None =>
      others env 2;;
      rpm_gate env rq channel hops d;;
      '(d, lease) ← lease_slot env rq group channel hops d;
      attempt env rq top group item m channel hops d lease
  end.

Definition forward_round env rq : M Empty_set :=
  others env 0;;
  round_head env rq;;
  top ← read_group env rq;
  mask_once env rq;;
  '(skipped, allSkipped) ← fit_scan env top;
  first ← select_member env rq top skipped;
  others env 1;;
  if item_ID first =? 0 then none_selected env rq top allSkipped
  else
    hops ← resolve_member env rq top first skipped;
    let leaf := leaf_hop top first hops in
    serve env rq top hops (hop_group leaf) (hop_item leaf).

(** [fuel] turns from turn [n] on; [None] when the request is still running. *)
Fixpoint request_loop (fuel : nat) (envs : nat -> RoundEnv) (n : nat) rq (t : Thread) : option (Reply * Thread) :=
  match fuel with
  | O => None
  | S fuel =>
      match forward_round (envs n) rq t with
      | Next e _ => match e with end
      | Continue t => request_loop fuel envs (S n) rq t
      | Return reply t => Some (reply, t)
      end
  end.
End forward_loop.
Arguments Next {Usage R A}.
Arguments Continue {Usage R A}.
Arguments Return {Usage R A}.
