(* ===== verification/ForwardLogic.v ===== *)
(** * Reasoning about a turn of the attempt loop

    A triple states what holds of the thread when a computation goes on, starts
    the next turn or returns.  [keeps I F m] is the common case: [I] holds as long
    as the request runs, [F] when it returns. *)

From S2P Require Import Prelude GoStrings Utf8 Hub Float64 GroupModel Protocol Backoff Route Sticky RefChain.
From S2P Require Import Window ChannelLimit KeySelect Errors Usage Requests StreamEvents StreamWindow StreamForward.
From S2P Require Import ContextFit Headers Forward.

Create HintDb forward.

Section logic.
Context {Usage R : Type} `{ops : !UsageOps Usage} `{agg : !Aggregator Usage} `{dec : Decoder} `{cli : !ClientSide R}.
Context `{out : !Outside R} `{fold : !CaseFolding} `{ord : !MapOrder Z} `{ords : !MapOrder string}.
Notation Thread := (@Thread Usage R).
Notation M := (@M Usage R).
Implicit Types (P I C : Thread -> Prop) (t : Thread).

Definition triple {A} P (m : M A) (Q : A -> Thread -> Prop) C (F : Reply -> Thread -> Prop) : Prop :=
  forall t, P t -> match m t with Next a t' => Q a t' | Continue t' => C t' | Return reply t' => F reply t' end.

Lemma triple_bind {A B} P (m : M A) (f : A -> M B) Q (Q' : B -> Thread -> Prop) C F :
  triple P m Q C F -> (forall a, triple (Q a) (f a) Q' C F) -> triple P (m ≫= f) Q' C F.
Proof.
  intros Hm Hf t Ht. unfold mbind, handler_bind. specialize (Hm t Ht). destruct (m t) as [a t'|t'|reply t']; try done.
  by apply Hf.
Qed.

Lemma triple_ret {A} P (a : A) (Q : A -> Thread -> Prop) C F : (forall t, P t -> Q a t) -> triple P (mret a) Q C F.
Proof. intros H t Ht. by apply H. Qed.

Lemma triple_weaken {A} P P' (m : M A) (Q Q' : A -> Thread -> Prop) C C' F F' :
  triple P' m Q' C' F' -> (forall t, P t -> P' t) -> (forall a t, Q' a t -> Q a t) -> (forall t, C' t -> C t) ->
  (forall reply t, F' reply t -> F reply t) -> triple P m Q C F.
Proof. intros Hm HP HQ HC HF t Ht. specialize (Hm t (HP t Ht)). destruct (m t); auto. Qed.

Lemma triple_get {A} P (f : Thread -> A) (Q : A -> Thread -> Prop) C F :
  (forall t, P t -> Q (f t) t) -> triple P (get f) Q C F.
Proof. intros H t Ht. by apply H. Qed.

Lemma triple_continue {A} P (Q : A -> Thread -> Prop) C F : (forall t, P t -> C t) -> triple P continue_ Q C F.
Proof. intros H t Ht. by apply H. Qed.

Lemma triple_return {A} P reply (Q : A -> Thread -> Prop) C (F : Reply -> Thread -> Prop) :
  (forall t, P t -> F reply t) -> triple P (return_ reply) Q C F.
Proof. intros H t Ht. by apply H. Qed.

(** ** Invariants *)

Definition keeps {A} I F (m : M A) : Prop := triple I m (fun _ => I) I F.

Lemma keeps_bind {A B} I F (m : M A) (f : A -> M B) :
  keeps I F m -> (forall a, keeps I F (f a)) -> keeps I F (m ≫= f).
Proof. intros Hm Hf. by apply (triple_bind _ _ _ (fun _ => I)). Qed.

Lemma keeps_ret {A} I F (a : A) : keeps I F (mret a).
Proof. by apply triple_ret. Qed.
Lemma keeps_get {A} I F (f : Thread -> A) : keeps I F (get f).
Proof. by apply triple_get. Qed.
Lemma keeps_continue {A} I F : keeps I F (continue_ : M A).
Proof. by apply triple_continue. Qed.

(** The ways to write a part of the thread. *)
Lemma keeps_loc I F f : (forall t, I t -> I (mkThread (t_sys t) (f (t_loc t)))) -> keeps I F (upd_loc f).
Proof. intros H t Ht. by apply H. Qed.
Lemma keeps_sys I F f : (forall t, I t -> I (mkThread (f (t_sys t)) (t_loc t))) -> keeps I F (upd_sys f).
Proof. intros H t Ht. by apply H. Qed.

Lemma triple_pure {A} (phi : Prop) P (m : M A) Q C F :
  (phi -> triple P m Q C F) -> triple (fun t => P t /\ phi) m Q C F.
Proof. intros H t [Ht Hphi]. by apply H. Qed.

(** Reading a part of the thread that the precondition knows. *)
Lemma triple_read {A B} P (f : Thread -> A) (a : A) (k : A -> M B) Q C F :
  (forall t, P t -> f t = a) -> triple P (k a) Q C F -> triple P (get f ≫= k) Q C F.
Proof. intros Hf Hk t Ht. unfold mbind, handler_bind, get. rewrite (Hf t Ht). by apply Hk. Qed.

Lemma triple_exists {A X} (p : X -> Prop) (P : X -> Thread -> Prop) (m : M A) Q C F :
  (forall x, p x -> triple (P x) m Q C F) -> triple (fun t => exists x, p x /\ P x t) m Q C F.
Proof. intros H t (x & Hx & Ht). by apply (H x Hx). Qed.

Lemma triple_after {A B} I (m : M A) (f : A -> M B) (Q : B -> Thread -> Prop) C F :
  keeps I F m -> (forall t, I t -> C t) -> (forall a, triple I (f a) Q C F) -> triple I (m ≫= f) Q C F.
Proof. intros Hm HC Hf. apply (triple_bind _ _ _ (fun _ => I)); [|done]. by eapply triple_weaken. Qed.

Lemma keeps_return {A} I F reply : (forall t, I t -> F reply t) -> keeps I F (return_ reply : M A).
Proof. by apply triple_return. Qed.
Lemma keeps_world {A} I F (f : World -> A * World) :
  (forall s l w, I (mkThread s l) -> I (mkThread ({ s with s_world := w }) l)) -> keeps I F (world_op f).
Proof. intros H [s l] Ht. unfold world_op. cbn. destruct (f (s_world s)) as [a w]. by apply (H s l w). Qed.
Lemma keeps_keys {A} I F (f : KeyHealth -> A * KeyHealth) :
  (forall s l k, I (mkThread s l) -> I (mkThread ({ s with s_keys := k }) l)) -> keeps I F (keys_op f).
Proof. intros H [s l] Ht. unfold keys_op. cbn. destruct (f (s_keys s)) as [a k]. by apply (H s l k). Qed.
Lemma keeps_limits {A} I F (f : ChannelLimits -> A * ChannelLimits) :
  (forall s l k, I (mkThread s l) -> I (mkThread ({ s with s_limits := k }) l)) -> keeps I F (limits_op f).
Proof. intros H [s l] Ht. unfold limits_op. cbn. destruct (f (s_limits s)) as [a k]. by apply (H s l k). Qed.
Lemma keeps_record I F (env : @RoundEnv Usage R) group item err :
  (forall s l w c, I (mkThread s l) -> I (mkThread ({ s with s_world := w }) ({ l with l_failureCounts := c }))) ->
  keeps I F (record_failure env group item err).
Proof.
  intros H [s l] Ht. unfold record_failure. cbn. destruct (recordRouteFailureIfReal _ _ _ _ _ _) as [[a c] w].
  by apply (H s l w c).
Qed.
End logic.

#[export] Hint Resolve keeps_ret keeps_get keeps_continue : forward.

(** The operations of Forward.v are unfolded down to the primitives. *)
#[export] Hint Unfold cancel refuse mark_failed mark_canceled mark_succeeded on_log stop_requested others
  wait_then_continue effect on_world on_registry release_chain release_ancestors clear_sticky
  release_lifecycle finish_round retry : forward.

(** One step of the walk over a computation. *)
Ltac walk_step :=
  match goal with
  | |- forall _, _ => intros ?
  | |- keeps _ _ (_ ≫= _) => apply keeps_bind
  | |- keeps _ _ (mret _) => apply keeps_ret
  | |- keeps _ _ (get _) => apply keeps_get
  | |- keeps _ _ continue_ => apply keeps_continue
  | |- keeps _ _ (match ?x with _ => _ end) => destruct x
  | |- keeps _ _ (let _ := _ in _) => cbv zeta
  end.

Ltac head_of t := match t with ?f _ => head_of f | _ => t end.
Ltac unfold_step :=
  match goal with |- keeps _ _ ?m => let h := head_of m in unfold h end.

(** Walks a whole computation; [prim] settles the primitive operations. *)
Ltac walk prim :=
  repeat first [ walk_step | solve [prim] | unfold_step ].

(** ** The attempt loop terminates

    Every turn counts, and the head of a turn ends the request behind the limit. *)

Section rounds.
Context {Usage R : Type} `{ops : !UsageOps Usage} `{agg : !Aggregator Usage} `{dec : Decoder} `{cli : !ClientSide R}.
Context `{out : !Outside R} `{fold : !CaseFolding} `{ord : !MapOrder Z} `{ords : !MapOrder string}.
Notation Thread := (@Thread Usage R).
Implicit Types (env : @RoundEnv Usage R) (rq : Request) (t : Thread).

#[local] Arguments Z.add : simpl never.
#[local] Arguments Z.ltb : simpl never.
#[local] Arguments maxRequestRounds : simpl never.

(** ** Termination *)

(** The turns taken so far, and the limit that holds. *)
Definition at_round (limit n : Z) t : Prop :=
  l_rounds (t_loc t) = n /\ maxRequestRounds (l_config (t_loc t)) <= limit.
Definition anything {A B : Type} (_ : A) (_ : B) : Prop := True.

Ltac rounds_prim := idtac;
  lazymatch goal with
  | |- keeps _ _ (return_ _) => apply keeps_return; done
  | |- keeps _ _ (world_op _) => apply keeps_world; intros ? ? ? []; done
  | |- keeps _ _ (keys_op _) => apply keeps_keys; intros ? ? ? []; done
  | |- keeps _ _ (limits_op _) => apply keeps_limits; intros ? ? ? []; done
  | |- keeps _ _ (record_failure _ _ _ _) => apply keeps_record; intros ? ? ? ? []; done
  | |- keeps _ _ (upd_sys _) => apply keeps_sys; intros [? []] []; done
  | |- keeps _ _ (upd_loc _) => apply keeps_loc; intros [? []] []; cbn; repeat case_match; done
  end.

Lemma serve_rounds limit n env rq top hops group item :
  keeps (at_round limit n) anything (serve env rq top hops group item).
Proof. walk rounds_prim. Qed.

Lemma resolve_rounds limit n env rq top first skipped :
  keeps (at_round limit n) anything (resolve_member env rq top first skipped).
Proof. walk rounds_prim. Qed.

Lemma select_rounds limit n env rq top (allSkipped : bool) skipped :
  keeps (at_round limit n) anything (
    first ← select_member env rq top skipped;
    others env 1;;
    if item_ID first =? 0 then none_selected env rq top allSkipped
    else
      hops ← resolve_member env rq top first skipped;
      let leaf := leaf_hop top first hops in
      serve env rq top hops (hop_group leaf) (hop_item leaf)).
Proof.
  apply keeps_bind; [by walk rounds_prim|]. intros first. apply keeps_bind; [by walk rounds_prim|]. intros _.
  destruct (item_ID first =? 0); [by walk rounds_prim|].
  apply keeps_bind; [apply resolve_rounds|]. intros hops. apply serve_rounds.
Qed.

(** The limit of every configuration the request may meet. *)
Definition rounds_limited (limit : Z) (envs : nat -> @RoundEnv Usage R) rq : Prop :=
  maxRequestRounds DefaultGroupRelayConfig <= limit /\
  forall n group, @groupLookup (re_dir (envs n)) (rq_model rq) = Some group ->
    maxRequestRounds (g_RelayConfig group) <= limit.

Lemma read_group_rounds limit n env rq :
  (forall group, @groupLookup (re_dir env) (rq_model rq) = Some group -> maxRequestRounds (g_RelayConfig group) <= limit) ->
  keeps (at_round limit n) anything (read_group env rq).
Proof.
  intros Hg. unfold read_group. destruct (groupLookup _) as [group|] eqn:Hl; [|by walk rounds_prim].
  apply keeps_bind; [|intros []; apply keeps_ret]. apply keeps_loc. intros [s []] []. split; [done|]. cbn. by apply Hg.
Qed.

(** The head counts one turn, and ends the request behind the limit. *)
Lemma round_head_rounds limit n env rq :
  triple (at_round limit n) (round_head env rq) (fun _ t => at_round limit (n + 1) t /\ n < limit)
    (fun _ => False) anything.
Proof.
  unfold round_head. destruct (re_ctx env 0); [done|].
  apply (triple_bind _ _ _ (fun _ => at_round limit n)); [by intros ? ?|]. intros []; [done|].
  apply (triple_bind _ _ _ (fun _ => at_round limit n)); [by intros ? ?|]. intros []; [done|].
  apply (triple_bind _ _ _ (fun _ => at_round limit (n + 1))).
  { intros [s []] [Hn Hc]. split; [|done]. cbn in *. lia. }
  intros []. apply (triple_bind _ _ _ (fun l t => at_round limit (n + 1) t /\ l = t_loc t)); [by intros ? ?|].
  intros l. destruct (_ <? _) eqn:Hr; [done|]. destruct (requestDeadlineExceeded _ _); [done|].
  intros t [Ht ->]. split; [done|]. destruct Ht. lia.
Qed.

Lemma forward_round_rounds limit n env rq :
  (forall group, @groupLookup (re_dir env) (rq_model rq) = Some group -> maxRequestRounds (g_RelayConfig group) <= limit) ->
  triple (at_round limit n) (forward_round env rq) (fun _ _ => False)
    (fun t => at_round limit (n + 1) t /\ n < limit) anything.
Proof.
  intros Hg. unfold forward_round. eapply (triple_bind _ _ _ (fun _ => at_round limit n)).
  { intros [s l] Ht. exact Ht. }
  intros []. eapply triple_bind; [eapply triple_weaken; [apply round_head_rounds|done| |done|done]; by intros ? ?|].
  intros [] t [Ht Hn].
  assert (Hk : keeps (at_round limit (n + 1)) anything
    (top ← read_group env rq; mask_once env rq;; '(skipped, allSkipped) ← fit_scan env top;
     first ← select_member env rq top skipped; others env 1;;
     if item_ID first =? 0 then none_selected env rq top allSkipped
     else hops ← resolve_member env rq top first skipped;
       let leaf := leaf_hop top first hops in serve env rq top hops (hop_group leaf) (hop_item leaf))).
  { apply keeps_bind; [by apply read_group_rounds|]. intros top. apply keeps_bind; [by walk rounds_prim|]. intros [].
    apply keeps_bind; [by walk rounds_prim|]. intros [skipped allSkipped]. apply select_rounds. }
  exact (triple_weaken _ _ _ _ _ _ _ _ _ Hk (fun _ H => H) (fun e _ => match e with end) (fun _ H => conj H Hn) (fun _ _ H => H) t Ht).
Qed.

(** C4: a request always ends.  Whatever the groups, the channels, the upstreams,
    the clocks and the other goroutines do, the loop returns within one turn more
    than the largest configured number of rounds, which normalisation makes
    positive. *)
Theorem forward_terminates limit envs rq t :
  rounds_limited limit envs rq -> l_rounds (t_loc t) = 0 -> l_config (t_loc t) = DefaultGroupRelayConfig ->
  is_some (request_loop (Z.to_nat (limit + 1)) envs 0 rq t).
Proof.
  intros [Hd Hg] H0 Hc.
  assert (Hgen : forall fuel i k t, at_round limit k t -> limit - k < Z.of_nat fuel -> k <= limit ->
            is_some (request_loop fuel envs i rq t)).
  { clear t H0 Hc. induction fuel as [|fuel IH]; intros i k t Ht Hf Hk; cbn [request_loop]; [lia|].
    pose proof (forward_round_rounds limit k (envs i) rq (Hg i) t Ht) as Hr.
    destruct (forward_round (envs i) rq t) as [[]|t'|reply t']; [|done].
    destruct Hr as [Hr Hlt]. eapply IH; [exact Hr|lia|lia]. }
  eapply (Hgen _ _ 0); [split; [done|by rewrite Hc]|lia|].
  vm_compute in Hd. destruct limit; try done; lia.
Qed.
End rounds.
