(* ===== verification/GoInts.v ===== *)
(** * Go integers

    An [int] and a [time.Duration] are 64-bit two's complement numbers. *)

From S2P Require Import Prelude GoStrings.

Definition minInt64 : Z := - 2 ^ 63.
Definition maxInt64 : Z := 2 ^ 63 - 1.

(** The value of a result as it is stored. *)
Definition wrap64 (z : Z) : Z := (z + 2 ^ 63) mod 2 ^ 64 - 2 ^ 63.

Lemma wrap64_range z : minInt64 <= wrap64 z <= maxInt64.
Proof. unfold wrap64, minInt64, maxInt64. pose proof (Z.mod_pos_bound (z + 2 ^ 63) (2 ^ 64)). lia. Qed.
Lemma wrap64_id z : minInt64 <= z <= maxInt64 -> wrap64 z = z.
Proof. unfold wrap64, minInt64, maxInt64. intros Hz. rewrite Z.mod_small; lia. Qed.

(** [strconv.Atoi]: an optional sign and decimal digits, in range. *)
Fixpoint parse_digits (acc : Z) (s : string) : option Z :=
  match s with
  | EmptyString => Some acc
  | String.String a s => if is_digit a then parse_digits (10 * acc + digit_of a) s else None
  end.
Definition in_int64 (z : Z) : option Z := if (minInt64 <=? z) && (z <=? maxInt64) then Some z else None.
Definition Atoi (s : string) : option Z :=
  match s with
  | EmptyString => None
  | String.String a digits =>
      let unsigned s := if bool_decide (s = "") then None else parse_digits 0 s in
      if byte_of a =? 45 then unsigned digits ≫= (in_int64 ∘ Z.opp)
      else if byte_of a =? 43 then unsigned digits ≫= in_int64
      else unsigned s ≫= in_int64
  end.

Example atoi_plain : Atoi "120" = Some 120. Proof. reflexivity. Qed.
Example atoi_sign : Atoi "-7" = Some (-7). Proof. reflexivity. Qed.
Example atoi_bad : Atoi "1.5" = None. Proof. reflexivity. Qed.
Example atoi_large : Atoi "9223372036854775808" = None. Proof. reflexivity. Qed.

Lemma Atoi_range s n : Atoi s = Some n -> minInt64 <= n <= maxInt64.
Proof.
  assert (Hr : forall (o : option Z) (f : Z -> Z), o ≫= (in_int64 ∘ f) = Some n -> minInt64 <= n <= maxInt64).
  { intros o f (z & -> & Hz)%bind_Some. unfold in_int64, compose in Hz. case_match; [|done]. injection Hz as <-. lia. }
  destruct s as [|a digits]; [done|]. cbn [Atoi]. intros Ha.
  destruct (byte_of a =? 45); [by eapply Hr|]. destruct (byte_of a =? 43); by eapply (Hr _ id).
Qed.
