(* ===== verification/BodyBudget.v ===== *)
(** * The memory budget of request bodies

    internal/relay/bodylimit.go: all requests of the process read their bodies
    against one budget of bytes.  A request charges what it reads chunk by chunk,
    waits when the budget is full, and decompresses under a limit of its own.
    Requests are processes; every critical section is one step. *)

From S2P Require Import Prelude GoStrings Utf8.

(** ** The budget *)

Definition maxRelayCompressedBodyBytes : Z := 16 * 1024 * 1024.
Definition maxRelayDecompressedBodyBytes : Z := 64 * 1024 * 1024.
Definition defaultRelayBodyBudgetBytes : Z := 128 * 1024 * 1024.

(** [bb_notify] counts the channels closed so far. *)
Record Budget := mkBudget { bb_used : Z; bb_limit : Z; bb_notify : Z }.
Definition newRelayBodyBudget (limit : Z) : Budget := mkBudget 0 limit 0.

Inductive Acquired := BudgetGranted | BudgetTooLarge | BudgetWait (notify : Z).

(** One pass of [acquireRelayBodyBudget] through its critical section, [0 < n]. *)
Definition acquireRelayBodyBudget (n : Z) (b : Budget) : Acquired * Budget :=
  if bb_limit b <? n then (BudgetTooLarge, b)
  else if bb_limit b <? bb_used b + n then (BudgetWait (bb_notify b), b)
  else (BudgetGranted, mkBudget (bb_used b + n) (bb_limit b) (bb_notify b)).

Definition tryAcquireRelayBodyBudget (n : Z) (b : Budget) : bool * Budget :=
  if n <=? 0 then (true, b)
  else if bb_limit b <? bb_used b + n then (false, b)
  else (true, mkBudget (bb_used b + n) (bb_limit b) (bb_notify b)).

Definition releaseRelayBodyBudget (n : Z) (b : Budget) : Budget :=
  if n <=? 0 then b else mkBudget (Z.max 0 (bb_used b - n)) (bb_limit b) (bb_notify b + 1).

(** ** One request *)

Inductive BodyError := BodyTooLarge | BodyCancelled | BodyReadFailed | BodyDecoderFailed | BodyEncodingUnsupported.

(** How a read of the underlying reader ends. *)
Inductive ReadEnd := More | AtEOF | ReadError.

(** Which buffer is being filled; the decompressed one grows while the compressed
    one is still held. *)
Inductive Stage := Compressed | Decompressed (compressed : Z).

(** [buf.Len()] is the charge.  [Parked] waits for the channel it has seen;
    [Unwinding] still owes the listed releases. *)
Inductive Phase :=
| Reading (stage : Stage) (charged : Z)
| Parked (stage : Stage) (charged n : Z) (how : ReadEnd) (notify : Z)
| Decoding (compressed : Z)
| Dropping (compressed decoded : Z)
| BodyRead (held : Z)
| Serving (held copy : Z)
| Unwinding (due : list Z) (result : option BodyError)
| Finished (result : option BodyError).

Definition stage_limit (stage : Stage) : Z :=
  match stage with Compressed => maxRelayCompressedBodyBytes | Decompressed _ => maxRelayDecompressedBodyBytes end.

(** [readBudget] gives back its charge, then [readLimitedHTTPRequest] the one of
    the compressed buffer. *)
Definition fail (stage : Stage) (charged : Z) (e : BodyError) : Phase :=
  Unwinding (match stage with Compressed => [charged] | Decompressed compressed => [charged; compressed] end) (Some e).

(** The decoder the header asks for. *)
Inductive Encoding := Identity | Gzip | Deflate | Zstd | UnknownEncoding.
Definition content_encoding (value : string) : Encoding :=
  let encoding := ToLower (TrimSpace value) in
  if bool_decide (encoding = "") || bool_decide (encoding = "identity") then Identity
  else if bool_decide (encoding = "gzip") || bool_decide (encoding = "x-gzip") then Gzip
  else if bool_decide (encoding = "deflate") then Deflate
  else if bool_decide (encoding = "zstd") then Zstd
  else UnknownEncoding.

(** The end of [readBudget]: an empty body is not decoded. *)
Definition body_complete (stage : Stage) (charged : Z) : Phase :=
  match stage with
  | Compressed => if charged =? 0 then BodyRead 0 else Decoding charged
  | Decompressed compressed => Dropping compressed charged
  end.

(** What follows the charge of a chunk. *)
Definition after_chunk (stage : Stage) (charged : Z) (how : ReadEnd) : Phase :=
  match how with
  | More => Reading stage charged
  | AtEOF => body_complete stage charged
  | ReadError => fail stage charged BodyReadFailed
  end.

(** Charging a chunk, at once or after a wake-up. *)
Definition charge_chunk (stage : Stage) (charged n : Z) (how : ReadEnd) (b : Budget) : Phase * Budget :=
  match acquireRelayBodyBudget n b with
  | (BudgetGranted, b) => (after_chunk stage (charged + n) how, b)
  | (BudgetTooLarge, b) => (fail stage charged BodyTooLarge, b)
  | (BudgetWait notify, b) => (Parked stage charged n how notify, b)
  end.

(** [readBudget] behind [reader.Read]: [n] bytes came and the read ended [how]. *)
Definition read_chunk (stage : Stage) (charged n : Z) (how : ReadEnd) (b : Budget) : Phase * Budget :=
  if 0 <? n then
    if stage_limit stage <? charged + n then (fail stage charged BodyTooLarge, b)
    else charge_chunk stage charged n how b
  else (after_chunk stage charged how, b).

(** [decodeLimitedBodyBudget] up to the first read of the decoder.
    [opens] tells whether the decoder accepts the beginning of the body. *)
Definition start_decoding (encoding : Encoding) (opens : bool) (compressed : Z) : Phase :=
  match encoding with
  | Identity => if maxRelayDecompressedBodyBytes <? compressed then Unwinding [compressed] (Some BodyTooLarge)
                else BodyRead compressed
  | Deflate => Reading (Decompressed compressed) 0
  | Gzip | Zstd => if opens then Reading (Decompressed compressed) 0
                   else Unwinding [compressed] (Some BodyDecoderFailed)
  | UnknownEncoding => Unwinding [compressed] (Some BodyEncodingUnsupported)
  end.

(** What happens to a request next. *)
Inductive BodyEvent :=
| Chunk (n : Z) (how : ReadEnd)
| ContextDone
| Woken
| Decode (encoding : Encoding) (opens : bool)
| Proceed
| Done.

(** One step of a request; [None] where the event cannot happen.  A reader sees
    the cancellation before each read and while it is parked. *)
Definition body_step (e : BodyEvent) (p : Phase) (b : Budget) : option (Phase * Budget) :=
  match p, e with
  | Reading stage charged, Chunk n how =>
      if (0 <=? n) && (n <=? 32 * 1024) then Some (read_chunk stage charged n how b) else None
  | Reading stage charged, ContextDone => Some (fail stage charged BodyCancelled, b)
  | Parked stage charged n how notify, Woken =>
      if notify =? bb_notify b then None else Some (charge_chunk stage charged n how b)
  | Parked stage charged _ _ _, ContextDone => Some (fail stage charged BodyCancelled, b)
  | Decoding compressed, Decode encoding opens => Some (start_decoding encoding opens compressed, b)
  | Dropping compressed decoded, Proceed => Some (BodyRead decoded, releaseRelayBodyBudget compressed b)
  | BodyRead held, Proceed =>
      Some (match tryAcquireRelayBodyBudget held b with
            | (true, b) => (Serving held held, b)
            | (false, b) => (Unwinding [held] (Some BodyTooLarge), b)
            end)
  | Serving held copy, Done => Some (Unwinding [copy; held] None, b)
  | Unwinding (n :: due) result, Proceed => Some (Unwinding due result, releaseRelayBodyBudget n b)
  | Unwinding [] result, Proceed => Some (Finished result, b)
  | _, _ => None
  end.

(** ** The process *)

Record Bodies := mkBodies { bs_budget : Budget; bs_requests : gmap Z Phase }.
Definition bodies_init (limit : Z) : Bodies := mkBodies (newRelayBodyBudget limit) ∅.

Definition at_request (id : Z) (e : BodyEvent) (s : Bodies) : option Bodies :=
  p ← bs_requests s !! id;
  '(p, b) ← body_step e p (bs_budget s);
  Some (mkBodies b (<[id := p]> (bs_requests s))).

Definition enter (id : Z) (s : Bodies) : option Bodies :=
  match bs_requests s !! id with
  | None => Some (mkBodies (bs_budget s) (<[id := Reading Compressed 0]> (bs_requests s)))
  | Some _ => None
  end.

Inductive bodies_step s : Bodies -> Prop :=
| body_enters id s' : enter id s = Some s' -> bodies_step s s'
| body_moves id e s' : at_request id e s = Some s' -> bodies_step s s'.

(** ** What the requests hold *)

Definition stage_holds (stage : Stage) : Z := match stage with Compressed => 0 | Decompressed compressed => compressed end.
Definition zsum (l : list Z) : Z := foldr Z.add 0 l.
Definition holds (p : Phase) : Z :=
  match p with
  | Reading stage charged | Parked stage charged _ _ _ => stage_holds stage + charged
  | Decoding compressed => compressed
  | Dropping compressed decoded => compressed + decoded
  | BodyRead held => held
  | Serving held copy => held + copy
  | Unwinding due _ => zsum due
  | Finished _ => 0
  end.
Definition total_held (s : Bodies) : Z := map_sum (holds <$> bs_requests s).

(** The amounts of a phase are those its limits allow. *)
Definition stage_ok (stage : Stage) : Prop :=
  match stage with Compressed => True | Decompressed compressed => 0 < compressed <= maxRelayCompressedBodyBytes end.
Definition body_ok (n : Z) : Prop := 0 <= n <= maxRelayDecompressedBodyBytes.
Definition phase_ok (b : Budget) (p : Phase) : Prop :=
  match p with
  | Reading stage charged => stage_ok stage /\ 0 <= charged <= stage_limit stage
  | Parked stage charged n how notify =>
      stage_ok stage /\ 0 <= charged /\ 0 < n /\ charged + n <= stage_limit stage /\ n <= bb_limit b /\
      notify <= bb_notify b /\ (notify = bb_notify b -> bb_limit b < bb_used b + n)
  | Decoding compressed => stage_ok (Decompressed compressed)
  | Dropping compressed decoded => stage_ok (Decompressed compressed) /\ body_ok decoded
  | BodyRead held => body_ok held
  | Serving held copy => body_ok held /\ copy = held
  | Unwinding due _ => Forall (fun n => 0 <= n) due
  | Finished _ => True
  end.

Record bodies_ok (s : Bodies) : Prop := {
  bo_limit : 0 <= bb_limit (bs_budget s);
  bo_used : bb_used (bs_budget s) = total_held s;
  bo_full : total_held s <= bb_limit (bs_budget s);
  bo_phases : forall id p, bs_requests s !! id = Some p -> phase_ok (bs_budget s) p;
}.

Lemma zsum_nonneg due : Forall (fun n => 0 <= n) due -> 0 <= zsum due.
Proof. unfold zsum. induction 1; cbn [foldr] in *; lia. Qed.
Lemma holds_nonneg b p : phase_ok b p -> 0 <= holds p.
Proof.
  destruct p as [stage ?|stage ? ? ? ?|?|? ?|?|? ?|due ?|?]; cbn; unfold body_ok; try lia.
  - destruct stage; cbn; lia.
  - destruct stage; cbn; lia.
  - intros; by apply zsum_nonneg.
Qed.

Lemma total_nonneg s : bodies_ok s -> 0 <= total_held s.
Proof.
  intros Hs. apply map_sum_nonneg. intros id n (p & <- & Hp)%lookup_fmap_Some. eapply holds_nonneg, bo_phases; eauto.
Qed.

Lemma held_within s id p : bodies_ok s -> bs_requests s !! id = Some p -> 0 <= holds p <= total_held s.
Proof.
  intros Hs Hp. split; [eapply holds_nonneg, bo_phases; eauto|]. unfold total_held.
  rewrite (map_sum_delete _ id), lookup_fmap, Hp. cbn.
  enough (0 <= map_sum (delete id (holds <$> bs_requests s))) by lia.
  apply map_sum_nonneg. intros i n [_ Hi]%lookup_delete_Some. apply lookup_fmap_Some in Hi as (q & <- & Hq).
  eapply holds_nonneg, bo_phases; eauto.
Qed.

(** ** One step keeps the account *)

(** How a critical section moves the budget for everybody else. *)
Record budget_moves (delta : Z) (b b' : Budget) : Prop := {
  bm_limit : bb_limit b' = bb_limit b;
  bm_used : bb_used b' = bb_used b + delta;
  bm_full : bb_used b' <= bb_limit b;
  bm_notify : bb_notify b <= bb_notify b';
  bm_wakes : bb_notify b' = bb_notify b -> bb_used b <= bb_used b';
}.

Lemma budget_stays b : bb_used b <= bb_limit b -> budget_moves 0 b b.
Proof. split; lia. Qed.
#[local] Hint Resolve budget_stays : nova.

Lemma acquire_spec n b :
  0 < n -> bb_used b <= bb_limit b ->
  match acquireRelayBodyBudget n b with
  | (BudgetGranted, b') => n <= bb_limit b /\ budget_moves n b b'
  | (BudgetTooLarge, b') => b' = b
  | (BudgetWait notify, b') => b' = b /\ notify = bb_notify b /\ n <= bb_limit b < bb_used b + n
  end.
Proof.
  intros Hn Hb. unfold acquireRelayBodyBudget. destruct (_ <? _) eqn:Hl; [done|]. destruct (bb_limit b <? bb_used b + n) eqn:Hf; [repeat split; lia|].
  split; [lia|]. split; cbn; lia.
Qed.

Lemma release_spec n b : 0 <= n <= bb_used b -> bb_used b <= bb_limit b -> budget_moves (- n) b (releaseRelayBodyBudget n b).
Proof.
  intros Hn Hb. unfold releaseRelayBodyBudget. case_ifs; [replace (- n) with 0 by lia; auto with nova|].
  split; cbn; lia.
Qed.

Lemma stage_limit_ok stage charged : stage_ok stage -> 0 <= charged <= stage_limit stage ->
  stage_limit stage <= maxRelayDecompressedBodyBytes /\
  match stage with Compressed => charged = 0 \/ stage_ok (Decompressed charged) | _ => True end.
Proof. destruct stage; cbn [stage_limit stage_ok]; unfold maxRelayCompressedBodyBytes, maxRelayDecompressedBodyBytes; lia. Qed.

Lemma fail_ok b stage charged e :
  stage_ok stage -> 0 <= charged -> phase_ok b (fail stage charged e) /\ holds (fail stage charged e) = stage_holds stage + charged.
Proof. intros Hs Hc. destruct stage; cbn in *; split; repeat constructor; lia. Qed.

Lemma after_chunk_ok b stage charged how :
  stage_ok stage -> 0 <= charged <= stage_limit stage ->
  phase_ok b (after_chunk stage charged how) /\ holds (after_chunk stage charged how) = stage_holds stage + charged.
Proof.
  intros Hs Hc. destruct how; cbn [after_chunk]; [by split| |by apply fail_ok; [|lia]].
  pose proof (stage_limit_ok stage charged Hs Hc). unfold body_complete. destruct stage; case_ifs; cbn in *; unfold body_ok; lia.
Qed.

Lemma unwind_one_ok b n e : 0 <= n -> phase_ok b (Unwinding [n] e) /\ holds (Unwinding [n] e) = n.
Proof. intros Hn. cbn. split; [by repeat constructor|lia]. Qed.

Lemma decoding_ok b encoding opens compressed : stage_ok (Decompressed compressed) ->
  phase_ok b (start_decoding encoding opens compressed) /\ holds (start_decoding encoding opens compressed) = compressed.
Proof.
  intros Hs. pose proof Hs as Hc. cbn in Hc.
  assert (Hd : phase_ok b (Reading (Decompressed compressed) 0) /\ holds (Reading (Decompressed compressed) 0) = compressed).
  { split; [|cbn; lia]. split; [done|]. by cbn. }
  unfold start_decoding. destruct encoding; [destruct (_ <? _) eqn:Hl|destruct opens|exact Hd|destruct opens|];
    try exact Hd; try (apply unwind_one_ok; lia).
  cbn. unfold body_ok. lia.
Qed.

(** The step of a request, as everybody else sees it. *)
Definition step_sound (p : Phase) (b : Budget) (r : Phase * Budget) : Prop :=
  phase_ok r.2 r.1 /\ budget_moves (holds r.1 - holds p) b r.2.

Lemma stays_sound p p' b : bb_used b <= bb_limit b -> phase_ok b p' /\ holds p' = holds p -> step_sound p b (p', b).
Proof. intros Hb [Hp Hh]. split; [done|]. cbn. rewrite Hh, Z.sub_diag. auto with nova. Qed.

Lemma acquire_sound p b stage charged n how :
  bb_used b <= bb_limit b -> stage_ok stage -> 0 <= charged -> 0 < n -> charged + n <= stage_limit stage ->
  holds p = stage_holds stage + charged ->
  step_sound p b (charge_chunk stage charged n how b).
Proof.
  intros Hb Hs Hc Hn Hl Hp. unfold charge_chunk. pose proof (acquire_spec n b Hn Hb) as Ha.
  destruct (acquireRelayBodyBudget n b) as [[] b']; [destruct Ha as [_ Hm]|subst|destruct Ha as (-> & -> & ?)].
  - destruct (after_chunk_ok b' stage (charged + n) how Hs) as [Hok Hh]; [lia|]. split; [done|]. cbn.
    rewrite Hh, Hp. by replace (_ - _) with n by lia.
  - apply stays_sound; [done|]. rewrite Hp. by apply fail_ok.
  - apply stays_sound; [done|]. split; [|done]. cbn. repeat split; try done; lia.
Qed.

Lemma body_step_sound e p b r :
  0 <= holds p <= bb_used b -> bb_used b <= bb_limit b -> phase_ok b p -> body_step e p b = Some r -> step_sound p b r.
Proof.
  intros Hh Hb Hok Hstep.
  destruct p as [stage charged|stage charged n how notify|compressed|compressed decoded|held|held copy|[|n due] result|result];
    destruct e; try done; cbn in Hstep.
  - case_ifs; [|done]. injection Hstep as <-. destruct Hok as [Hs Hc]. unfold read_chunk.
    destruct (0 <? n) eqn:Hn; [destruct (stage_limit stage <? charged + n) eqn:Hl|].
    + apply stays_sound; [done|]. by apply fail_ok; [|lia].
    + apply acquire_sound; try done; lia.
    + apply stays_sound; [done|]. by apply after_chunk_ok.
  - injection Hstep as <-. destruct Hok as [Hs Hc]. apply stays_sound; [done|]. by apply fail_ok; [|lia].
  - injection Hstep as <-. destruct Hok as (Hs & Hc & _). apply stays_sound; [done|]. by apply fail_ok.
  - case_ifs; [done|]. injection Hstep as <-. destruct Hok as (Hs & Hc & Hn & Hl & _). by apply acquire_sound.
  - injection Hstep as <-. apply stays_sound; [done|]. by apply decoding_ok.
  - injection Hstep as <-. destruct Hok as [[Hc _] Hd]. split; [done|]. cbn in *.
    replace (_ - _) with (- compressed) by lia. unfold body_ok in *. apply release_spec; lia.
  - injection Hstep as <-. cbn in *. unfold tryAcquireRelayBodyBudget, body_ok in *.
    destruct (held <=? 0) eqn:Hz; [|destruct (_ <? _) eqn:Hf].
    + apply stays_sound; [done|]. split; [done|]. change (held + held = held). lia.
    + apply stays_sound; [done|]. apply unwind_one_ok. cbn. lia.
    + split; [done|]. split; cbn; lia.
  - injection Hstep as <-. destruct Hok as [Hd ->]. apply stays_sound; [done|]. cbn. unfold body_ok in *.
    split; [repeat constructor; lia|lia].
  - injection Hstep as <-. by apply stays_sound.
  - injection Hstep as <-. apply Forall_cons in Hok as [Hn Hd]. pose proof (zsum_nonneg _ Hd). split; [done|].
    change (0 <= n + zsum due <= bb_used b) in Hh. change (budget_moves (zsum due - (n + zsum due)) b (releaseRelayBodyBudget n b)).
    replace (_ - _) with (- n) by lia. apply release_spec; lia.
Qed.

Lemma phase_ok_moves delta b b' p : budget_moves delta b b' -> phase_ok b p -> phase_ok b' p.
Proof.
  intros [Hl Hu Hf Hn Hw]. destruct p; try done. cbn. intros (? & ? & ? & ? & ? & ? & ?).
  repeat split; try done; lia.
Qed.

Lemma bodies_step_ok s s' : bodies_step s s' -> bodies_ok s -> bodies_ok s'.
Proof.
  intros Hstep Hs. destruct Hstep as [id s' He|id e s' Ha].
  - unfold enter in He. destruct (bs_requests s !! id) eqn:Hid; [done|]. injection He as <-.
    destruct Hs as [Hl Hu Hf Hp].
    assert (Ht : total_held (mkBodies (bs_budget s) (<[id := Reading Compressed 0]> (bs_requests s))) = total_held s).
    { unfold total_held. cbn. rewrite fmap_insert, map_sum_insert_fresh; [done|]. by rewrite lookup_fmap, Hid. }
    split; try done; rewrite ?Ht; try done. intros i p. cbn. rewrite lookup_insert. case_decide; [|apply Hp].
    intros [= <-]. done.
  - unfold at_request in Ha. destruct (bs_requests s !! id) as [p|] eqn:Hid; [|done]. cbn in Ha.
    destruct (body_step e p (bs_budget s)) as [[p' b']|] eqn:Hp'; [|done]. injection Ha as <-.
    pose proof (held_within s id p Hs Hid) as Hw. destruct Hs as [Hl Hu Hf Hp].
    destruct (body_step_sound e p (bs_budget s) (p', b')) as [Hok Hm]; [lia|lia|by eapply Hp|done|]. cbn in Hok, Hm.
    assert (Ht : total_held (mkBodies b' (<[id := p']> (bs_requests s))) = total_held s + (holds p' - holds p)).
    { unfold total_held. cbn. rewrite fmap_insert, map_sum_insert, lookup_fmap, Hid. cbn. lia. }
    destruct Hm as [Hml Hmu Hmf Hmn Hmw] eqn:Hm'. split; cbn; rewrite ?Ht; try lia.
    intros i q. rewrite lookup_insert. case_decide; [by intros [= <-]|]. intros Hq. eapply phase_ok_moves; [exact Hm|eauto].
Qed.

Definition bodies_reachable (limit : Z) (s : Bodies) : Prop := rtc bodies_step (bodies_init limit) s.

Lemma bodies_reachable_ok limit s : 0 <= limit -> bodies_reachable limit s -> bodies_ok s.
Proof.
  intros Hl Hr. assert (Hi : bodies_ok (bodies_init limit)).
  { split; cbn; try done. }
  unfold bodies_reachable in Hr. induction Hr; [done|]. eauto using bodies_step_ok.
Qed.

(** ** Properties *)

(** C14: the budget of request bodies is kept exactly.  However requests read,
    wait, decompress, fail, are cancelled and end, the bytes charged are the bytes
    they hold, never more than the limit; a request that has ended holds nothing,
    and one that is read holds its body once, and twice while it is served. *)
Theorem body_budget_conserved limit s :
  0 <= limit -> bodies_reachable limit s ->
  bb_used (bs_budget s) = total_held s /\ 0 <= bb_used (bs_budget s) <= bb_limit (bs_budget s) /\
  ((forall id p, bs_requests s !! id = Some p -> exists result, p = Finished result) -> bb_used (bs_budget s) = 0) /\
  forall id p, bs_requests s !! id = Some p ->
    match p with
    | Reading stage _ | Parked stage _ _ _ _ => holds p <= maxRelayCompressedBodyBytes + maxRelayDecompressedBodyBytes
    | BodyRead held => holds p <= maxRelayDecompressedBodyBytes
    | Serving held copy => copy = held /\ holds p = 2 * held
    | _ => True
    end.
Proof.
  intros Hl Hr. pose proof (bodies_reachable_ok limit s Hl Hr) as Hs. pose proof (total_nonneg s Hs).
  pose proof (bo_used s Hs). pose proof (bo_full s Hs). split; [done|]. split; [lia|]. split.
  - intros Hall. enough (total_held s = 0) by lia.
    assert (Hz : map_Forall (fun (_ : Z) n => n = 0) (holds <$> bs_requests s)).
    { intros id n (p & <- & Hp)%lookup_fmap_Some. by destruct (Hall id p Hp) as [? ->]. }
    unfold total_held. revert Hz. generalize (holds <$> bs_requests s).
    intros m. induction m as [|k v m Hk IH] using map_ind; intros Hz; [apply map_sum_empty|].
    apply map_Forall_insert in Hz as [-> Hz]; [|done]. rewrite map_sum_insert_fresh by done. rewrite IH; done.
  - intros id p Hp. pose proof (bo_phases s Hs id p Hp) as Hok. destruct p as [stage ?|stage ? ? ? ?| | | | | | ]; try done.
    + destruct Hok as [Hst Hc]. destruct stage; cbn in *; unfold maxRelayCompressedBodyBytes, maxRelayDecompressedBodyBytes in *; lia.
    + destruct Hok as (Hst & Hc & Hn & Hb & _). destruct stage; cbn in *; unfold maxRelayCompressedBodyBytes, maxRelayDecompressedBodyBytes in *; lia.
    + apply Hok.
    + destruct Hok as [_ ->]. split; [done|]. cbn. lia.
Qed.

(** A reader that waits can go on as soon as there is room: either its channel is
    already closed, or its chunk does not fit. *)
Lemma no_missed_release limit s id stage charged n how notify :
  0 <= limit -> bodies_reachable limit s -> bs_requests s !! id = Some (Parked stage charged n how notify) ->
  (exists s', at_request id Woken s = Some s') \/ bb_limit (bs_budget s) < bb_used (bs_budget s) + n.
Proof.
  intros Hl Hr Hp. pose proof (bo_phases s (bodies_reachable_ok limit s Hl Hr) id _ Hp) as (_ & _ & _ & _ & _ & _ & Hfull).
  destruct (notify =? bb_notify (bs_budget s)) eqn:Hn; [right; apply Hfull; lia|left].
  unfold at_request. rewrite Hp. cbn. rewrite Hn. cbn. destruct (charge_chunk _ _ _ _ _). eauto.
Qed.

(** ** Readers can block each other

    A reader keeps its charge while it waits, so readers that together fill the
    budget wait for each other until a client gives up. *)

Fixpoint run_bodies (script : list (Z * option BodyEvent)) (s : Bodies) : option Bodies :=
  match script with
  | [] => Some s
  | (id, None) :: script => s ← enter id s; run_bodies script s
  | (id, Some e) :: script => s ← at_request id e s; run_bodies script s
  end.

Lemma run_bodies_reachable script limit s s' :
  bodies_reachable limit s -> run_bodies script s = Some s' -> bodies_reachable limit s'.
Proof.
  revert s. induction script as [|[id [e|]] script IH]; intros s Hr Hrun; cbn in Hrun; [by injection Hrun as <-|..].
  - destruct (at_request id e s) as [s1|] eqn:He; [|done]. eapply IH; [|exact Hrun].
    eapply rtc_r; [exact Hr|]. by eapply body_moves.
  - destruct (enter id s) as [s1|] eqn:He; [|done]. eapply IH; [|exact Hrun].
    eapply rtc_r; [exact Hr|]. by eapply body_enters.
Qed.

Definition stuck (b : Budget) (p : Phase) : bool :=
  match p with Parked _ _ _ _ notify => notify =? bb_notify b | _ => false end.

Lemma stuck_waits s id e s' :
  map_Forall (fun (_ : Z) p => stuck (bs_budget s) p = true) (bs_requests s) -> at_request id e s = Some s' -> e = ContextDone.
Proof.
  intros Hall Ha. unfold at_request in Ha. destruct (bs_requests s !! id) as [p|] eqn:Hp; [|done].
  specialize (Hall id p Hp). cbn in Ha. destruct p; try done. destruct e; try done. cbn in Hall, Ha. by rewrite Hall in Ha.
Qed.

(** Nine clients send bodies of less than 16 MiB at the same pace. *)
Definition nine_readers : list (Z * option BodyEvent) :=
  let ids := seqZ 0 9 in
  let chunk id := (id, Some (Chunk (32 * 1024) More)) in
  ((., None) <$> ids) ++ mjoin (replicate 455 (chunk <$> ids)) ++ [chunk 0] ++ (chunk <$> ids).

Lemma readers_block_each_other :
  exists s, bodies_reachable defaultRelayBodyBudgetBytes s /\ size (bs_requests s) = 9%nat /\
    forall id e s', at_request id e s = Some s' -> e = ContextDone.
Proof.
  destruct (run_bodies nine_readers (bodies_init defaultRelayBodyBudgetBytes)) as [s|] eqn:Hrun.
  - assert (Hc : (fun s => forallb (fun kv => stuck (bs_budget s) kv.2) (map_to_list (bs_requests s)) &&
                          (size (bs_requests s) =? 9)%nat) <$>
                 run_bodies nine_readers (bodies_init defaultRelayBodyBudgetBytes) = Some true).
    { vm_compute. reflexivity. }
    rewrite Hrun in Hc. injection Hc as [Hs Hn]%andb_true_iff. exists s.
    split; [|split].
    + eapply run_bodies_reachable; [|exact Hrun]. apply rtc_refl.
    + by apply Nat.eqb_eq.
    + intros id e s'. apply stuck_waits. intros i p Hp%elem_of_map_to_list.
      rewrite forallb_forall in Hs. by apply (Hs (i, p)), list_elem_of_In.
  - exfalso. assert (Hc : is_some (run_bodies nine_readers (bodies_init defaultRelayBodyBudgetBytes)) = true)
      by (vm_compute; reflexivity).
    by rewrite Hrun in Hc.
Qed.

Definition demo_body : list (Z * option BodyEvent) :=
  [(1, None); (1, Some (Chunk 100 More)); (1, Some (Chunk 20 AtEOF)); (1, Some (Decode (content_encoding " GZIP ") true));
   (1, Some (Chunk 500 AtEOF)); (1, Some Proceed); (1, Some Proceed)].
Example demo_body_served :
  (fun s => (bb_used (bs_budget s), bs_requests s !! 1)) <$> run_bodies demo_body (bodies_init 4096)
  = Some (1000, Some (Serving 500 500)).
Proof. reflexivity. Qed.

Lemma body_budget_conserved_witness :
  exists s, run_bodies demo_body (bodies_init 4096) = Some s /\ bb_used (bs_budget s) = total_held s.
Proof.
  eexists. split; [vm_compute; reflexivity|].
  apply (body_budget_conserved 4096); [lia|].
  eapply (run_bodies_reachable demo_body _ (bodies_init 4096)); [apply rtc_refl|vm_compute; reflexivity].
Defined.
