(* ===== verification/ForwardRecord.v ===== *)
(** * What the loop leaves in the registry

    However a request ends, its record is closed exactly once, in the state the
    client's reply tells, and everything the handler did to the registry is a
    sequence of its steps, interleaved with those of other goroutines. *)

From S2P Require Import Prelude GoStrings Utf8 Hub Float64 GroupModel Protocol Backoff Route Sticky RefChain.
From S2P Require Import Window ChannelLimit KeySelect Errors Usage Requests RequestInv RequestThms StreamEvents StreamWindow StreamForward.
From S2P Require Import ContextFit Headers Forward ForwardLogic.

Section record.
Context {Usage R : Type} `{ops : !UsageOps Usage} `{agg : !Aggregator Usage} `{dec : Decoder} `{cli : !ClientSide R}.
Context `{out : !Outside R} `{fold : !CaseFolding} `{ord : !MapOrder Z} `{ords : !MapOrder string}.
Notation Thread := (@Thread Usage R).
Notation Reply := (@Reply Usage R).
Implicit Types (env : @RoundEnv Usage R) (rq : Request) (t : Thread) (reply : Reply).
Context (g0 : Registry Usage).

Notation registry_of t := (s_registry (t_sys t)).

(** The request runs. *)
Definition live (id : Z) t : Prop :=
  registry_ok (registry_of t) /\ rtc request_step g0 (registry_of t) /\ handling (registry_of t) id.

(** The request is finished. *)
Definition closed (id : Z) (status : Status) t : Prop :=
  rtc request_step g0 (registry_of t) /\
  exists r, g_objects (registry_of t) !! id = Some r /\ q_Status r = status /\
            g_finishing (registry_of t) !! id = None /\ id ∈ g_finishedQueue (registry_of t).

(** A reply and the state of the record. *)
Definition agrees reply (status : Status) : Prop :=
  match reply with
  | NoReply => status = StatusCanceled \/ status = StatusFailed
  | Rejected _ => status = StatusFailed
  | Delivered _ _ => status = StatusSuccess
  | Streamed _ o => match so_failure o with
                    | None => status = StatusSuccess
                    | Some _ => status = StatusCanceled \/ status = StatusFailed
                    end
  end.

Definition recorded (id : Z) reply t : Prop := exists status, agrees reply status /\ closed id status t.

(** What other goroutines do is a sequence of steps of the registry that leaves
    a running request to its handler. *)
Definition others_fair (env : @RoundEnv Usage R) (id : Z) : Prop :=
  forall point s, registry_ok (s_registry s) -> handling (s_registry s) id ->
    rtc request_step (s_registry s) (s_registry (re_others env point s)) /\
    handling (s_registry (re_others env point s)) id.

Lemma rtc_registry_ok g g' : rtc request_step g g' -> registry_ok g -> registry_ok g'.
Proof. induction 1; [done|]. intros Hok. by eauto using request_step_ok. Qed.

Lemma live_op id op F : handler_op id op -> keeps (live id) F (on_registry op : @M Usage R ()).
Proof.
  intros Hop [s l] (Hok & Hr & Hh). destruct (Hop _ Hok Hh) as [Hs Hh']. destruct s. cbn in *.
  split; [by eapply request_step_ok|]. split; [|done]. eapply rtc_r; [exact Hr|exact Hs].
Qed.

Lemma live_others env id point F : others_fair env id -> keeps (live id) F (others env point).
Proof.
  intros Hf [s l] (Hok & Hr & Hh). destruct (Hf point s Hok Hh) as [Hs Hh']. cbn in *.
  split; [by eapply rtc_registry_ok|]. split; [|done]. by etrans.
Qed.

Lemma live_ends id status C F (op : Registry Usage -> Registry Usage) :
  (forall g, registry_ok g -> handling g id -> ended id status g (op g)) ->
  triple (live id) (on_registry op : @M Usage R ()) (fun _ => closed id status) C F.
Proof.
  intros Hop [s l] (Hok & Hr & Hh). destruct (Hop _ Hok Hh) as [Hs He]. destruct s. cbn in *.
  split; [by etrans|done].
Qed.

Lemma fail_live env rq err body usage C F :
  triple (live (rq_id rq)) (mark_failed env rq err body usage) (fun _ => closed (rq_id rq) StatusFailed) C F.
Proof. apply live_ends. intros g Hok Hh. by apply fail_ends. Qed.
Lemma cancel_live env rq err body usage C F :
  triple (live (rq_id rq)) (mark_canceled env rq err body usage) (fun _ => closed (rq_id rq) StatusCanceled) C F.
Proof. apply live_ends. intros g Hok Hh. by apply cancel_ends. Qed.
Lemma succeed_live env rq body usage C F :
  triple (live (rq_id rq)) (mark_succeeded env rq body usage) (fun _ => closed (rq_id rq) StatusSuccess) C F.
Proof. apply live_ends. intros g Hok Hh. by apply succeed_ends. Qed.

(** Neither the log nor the rest of the process reads or writes the registry. *)
Lemma closed_log rq id status C F : triple (closed id status) (on_log rq : @M Usage R ()) (fun _ => closed id status) C F.
Proof. intros [[] l] Hc. cbn. by destruct (_ !! _). Qed.

Lemma closed_world id status f C F :
  triple (closed id status) (on_world f : @M Usage R ()) (fun _ => closed id status) C F.
Proof. intros [[] l] Hc. exact Hc. Qed.

Lemma closed_return {A} id status reply (Q : A -> Thread -> Prop) C :
  agrees reply status -> triple (closed id status) (return_ reply) Q C (recorded id).
Proof. intros Ha. apply triple_return. intros t Hc. by exists status. Qed.

Lemma cancel_recorded {A} env rq err : keeps (live (rq_id rq)) (recorded (rq_id rq)) (cancel env rq err : M A).
Proof.
  unfold cancel. eapply triple_bind; [apply cancel_live|]. intros []. apply closed_return. by left.
Qed.
Lemma refuse_recorded {A} env rq err shown : keeps (live (rq_id rq)) (recorded (rq_id rq)) (refuse env rq err shown : M A).
Proof.
  unfold refuse. eapply triple_bind; [apply fail_live|]. intros [].
  eapply triple_bind; [apply closed_log|]. intros []. by apply closed_return.
Qed.
Lemma wait_recorded {A} env rq seconds :
  keeps (live (rq_id rq)) (recorded (rq_id rq)) (wait_then_continue env rq seconds : M A).
Proof.
  unfold wait_then_continue. apply keeps_bind; [by intros [? []] ?|]. intros [].
  destruct (re_wake env) as [|err|] eqn:Hw; [apply keeps_continue|..].
  all: eapply triple_bind; [apply (live_ends _ StatusCanceled); intros g Hok Hh; by apply wait_ends|].
  all: intros []; apply closed_return; by left.
Qed.

Ltac handler_prim :=
  lazymatch goal with
  | |- handler_op _ (applyMaskResult _ _ _ _) => apply mask_op
  | |- handler_op _ (startRound _ _ _ _) => apply start_op
  | |- handler_op _ (finishRound _ _ _ _ _) => apply round_op
  | |- handler_op _ (setRelayMode _ _) => apply mode_op
  | |- handler_op _ (releaseRoundLifecycle _) => apply release_op
  | |- handler_op _ (markCommitted _ _) => apply commit_op
  end.
Ltac live_prim := idtac;
  lazymatch goal with
  | |- keeps _ _ (cancel _ _ _) => apply cancel_recorded
  | |- keeps _ _ (refuse _ _ _ _) => apply refuse_recorded
  | |- keeps _ _ (wait_then_continue _ _ _) => apply wait_recorded
  | |- keeps _ _ (others _ _) => apply live_others; assumption
  | |- keeps _ _ (on_registry _) =>
      apply live_op; handler_prim
  | |- keeps _ _ (world_op _) => apply keeps_world; intros [] ? ? ?; assumption
  | |- keeps _ _ (keys_op _) => apply keeps_keys; intros [] ? ? ?; assumption
  | |- keeps _ _ (limits_op _) => apply keeps_limits; intros [] ? ? ?; assumption
  | |- keeps _ _ (record_failure _ _ _ _) => apply keeps_record; intros [] ? ? ? ?; assumption
  | |- keeps _ _ (upd_loc _) => apply keeps_loc; intros [] ?; assumption
  | |- keeps _ _ (upd_sys _) => apply keeps_sys; intros [[] ?] ?; assumption
  end.

(** ** Phases *)

Section phases.
#[local] Set Default Proof Using "Type*".
Context (env : @RoundEnv Usage R) (rq : Request) (Hfair : others_fair env (rq_id rq)).
Notation kept m := (keeps (live (rq_id rq)) (recorded (rq_id rq)) m).

Lemma head_recorded : kept (round_head env rq).
Proof. walk live_prim. Qed.
Lemma group_recorded : kept (read_group env rq).
Proof. walk live_prim. Qed.
Lemma mask_recorded : kept (mask_once env rq).
Proof. walk live_prim. Qed.
Lemma scan_recorded group : kept (fit_scan env group).
Proof. walk live_prim. Qed.
Lemma select_recorded group skipped : kept (select_member env rq group skipped).
Proof. walk live_prim. Qed.
Lemma none_recorded {A} group allSkipped : kept (none_selected env rq group allSkipped : M A).
Proof. walk live_prim. Qed.
Lemma resolve_recorded group item skipped : kept (resolve_member env rq group item skipped).
Proof. walk live_prim. Qed.
Lemma leaf_recorded group item hops : kept (leaf_channel env rq group item hops).
Proof. walk live_prim. Qed.
Lemma prepare_recorded m channel hops : kept (prepare_body env rq m channel hops).
Proof. walk live_prim. Qed.
Lemma fit_recorded top group item m channel hops : kept (fit_leaf env rq top group item m channel hops).
Proof. walk live_prim. Qed.
Lemma key_recorded channel : kept (choose_key env rq channel).
Proof. walk live_prim. Qed.
Lemma dispatch_recorded {A} group item m channel hops d err :
  kept (dispatch_failed env rq group item m channel hops d err : M A).
Proof. walk live_prim. Qed.
Lemma rpm_recorded channel hops d : kept (rpm_gate env rq channel hops d).
Proof. walk live_prim. Qed.
Lemma lease_recorded group channel hops d : kept (lease_slot env rq group channel hops d).
Proof. walk live_prim. Qed.
Lemma retry_recorded {A} hops : kept (retry rq hops : M A).
Proof. walk live_prim. Qed.
Lemma charge_recorded {A} group item hops err : kept (charge_leaf env rq group item hops err : M A).
Proof. walk live_prim. Qed.
Lemma infeasible_recorded {A} top group item hops : kept (infeasible env rq top group item hops : M A).
Proof. walk live_prim. Qed.
Lemma non_retryable_recorded {A} top group item hops err :
  kept (non_retryable env rq top group item hops err : M A).
Proof. walk live_prim. Qed.

Ltac verdict_prim := idtac;
  lazymatch goal with
  | |- keeps _ _ (retry _ _) => apply retry_recorded
  | |- keeps _ _ (charge_leaf _ _ _ _ _ _) => apply charge_recorded
  | |- keeps _ _ (infeasible _ _ _ _ _ _) => apply infeasible_recorded
  | |- keeps _ _ (non_retryable _ _ _ _ _ _ _) => apply non_retryable_recorded
  | _ => live_prim
  end.

Lemma judge_recorded {A} top group item hops d rejected err :
  kept (judge_failure env rq top group item hops d rejected err : M A).
Proof. walk verdict_prim. Qed.
Lemma failure_recorded {A} top group item hops channel d rejected err :
  kept (handle_failure env rq top group item hops channel d rejected err : M A).
Proof.
  unfold handle_failure. cbv zeta. 
  match goal with |- context [if is_timeout ?c then ?a else err] => generalize (if is_timeout c then a else err) end.
  intros err'.
  destruct (_ && _ && _ && _); [by walk verdict_prim|].
  apply keeps_bind; [by walk verdict_prim|]. intros []. apply keeps_bind; [by walk verdict_prim|]. intros stopped.
  destruct stopped; [by walk verdict_prim|]. destruct (re_ctx env 3); [by walk verdict_prim|].
  destruct (_ && _); [apply retry_recorded|apply judge_recorded].
Qed.
Lemma commit_recorded hops : kept (commitRouteOutcome env rq hops).
Proof. walk live_prim. Qed.

(** Both deliveries finish the request before they reply. *)
Lemma deliver_body_recorded response headers : kept (deliver_body env rq response headers).
Proof.
  unfold deliver_body. apply keeps_bind; [by walk live_prim|]. intros []. apply keeps_bind; [by walk live_prim|]. intros [].
  apply keeps_bind; [by walk live_prim|]. intros l. cbv zeta. destruct (re_write env 0%nat) as [err|].
  - destruct (re_ctx env 4) as [ctxErr|]; eapply triple_bind.
    + apply cancel_live.
    + intros []. apply closed_return. by left.
    + eapply triple_bind; [apply fail_live|]. intros []. apply closed_log.
    + intros []. apply closed_return. by right.
  - eapply triple_bind; [apply succeed_live|]. intros []. by apply closed_return.
Qed.

Lemma effects_live effects F :
  keeps (live (rq_id rq)) F
    (on_registry (fun g => foldl (fun g e => stream_effect env rq e g) g effects) : @M Usage R ()).
Proof.
  intros [s l]. revert s. induction effects as [|e effects IH]; intros s Hl; [by destruct s|].
  assert (He : live (rq_id rq) (mkThread ({ s with s_registry ::= stream_effect env rq e }) l)).
  { destruct e as [|n]; [by apply (live_op _ _ (fun _ _ => True) (commit_op _ _) (mkThread s l))|].
    by apply (live_op _ _ (fun _ _ => True) (chars_op _ _ _) (mkThread s l)). }
  specialize (IH _ He). destruct s. exact IH.
Qed.

Lemma deliver_stream_recorded group item hops response headers :
  kept (deliver_stream env rq group item hops response headers).
Proof.
  unfold deliver_stream. apply keeps_bind; [by walk live_prim|]. intros l. cbv zeta.
  match goal with |- context [forward_stream ?i ?c] => set (o := forward_stream i c) end.
  apply keeps_bind; [apply effects_live|]. intros []. apply keeps_bind; [by walk live_prim|]. intros [].
  apply keeps_bind; [by walk live_prim|]. intros [].
  destruct (so_failure o) as [err|] eqn:Ho.
  - apply keeps_bind; [by walk live_prim|]. intros stopped. destruct stopped.
    + apply keeps_bind; [by walk live_prim|]. intros []. eapply triple_bind; [apply cancel_live|]. intros [].
      apply closed_return. cbn. rewrite Ho. by left.
    + apply keeps_bind; [by walk live_prim|]. intros [].
      apply (triple_bind _ _ _ (fun _ t => exists st, (st = StatusCanceled \/ st = StatusFailed) /\ closed (rq_id rq) st t)).
      { destruct (re_ctx env 6).
        - eapply triple_weaken; [apply cancel_live|done| |done|done]. intros [] t Hc. exists StatusCanceled. auto.
        - eapply triple_bind; [apply fail_live|]. intros [].
          eapply triple_weaken; [apply closed_log|done| |done|done]. intros [] t Hc. exists StatusFailed. auto. }
      intros []. apply triple_exists. intros st Hst.
      eapply triple_bind; [apply closed_world|]. intros [].
      apply closed_return. cbn. by rewrite Ho.
  - apply keeps_bind; [apply commit_recorded|]. intros []. eapply triple_bind; [apply succeed_live|]. intros [].
    apply closed_return. cbn. by rewrite Ho.
Qed.

Lemma attempt_recorded top group item m channel hops d lease :
  kept (attempt env rq top group item m channel hops d lease).
Proof.
  unfold attempt. apply keeps_bind; [by walk live_prim|]. intros []. apply keeps_bind; [by walk live_prim|]. intros [].
  apply keeps_bind; [by walk live_prim|]. intros l. cbv zeta. destruct (feedback _ _ _ _ _ _) as [effects rejected].
  apply keeps_bind; [by walk live_prim|]. intros []. destruct (upstream_outcome env rq group) as [response|err].
  - apply keeps_bind; [by walk live_prim|]. intros []. destruct (rq_streaming rq); [apply deliver_stream_recorded|].
    apply keeps_bind; [apply commit_recorded|]. intros []. apply deliver_body_recorded.
  - apply failure_recorded.
Qed.

Lemma serve_recorded top hops group item : kept (serve env rq top hops group item).
Proof.
  unfold serve. apply keeps_bind; [apply leaf_recorded|]. intros [m channel]. apply keeps_bind; [apply prepare_recorded|].
  intros []. apply keeps_bind; [apply fit_recorded|]. intros []. apply keeps_bind; [apply key_recorded|]. intros d.
  destruct (d_err d); [apply dispatch_recorded|]. apply keeps_bind; [by walk live_prim|]. intros [].
  apply keeps_bind; [apply rpm_recorded|]. intros []. apply keeps_bind; [apply lease_recorded|]. intros [d' lease].
  apply attempt_recorded.
Qed.

Lemma round_recorded : kept (forward_round env rq).
Proof.
  unfold forward_round. apply keeps_bind; [by walk live_prim|]. intros []. apply keeps_bind; [apply head_recorded|].
  intros []. apply keeps_bind; [apply group_recorded|]. intros top. apply keeps_bind; [apply mask_recorded|].
  intros []. apply keeps_bind; [apply scan_recorded|]. intros [skipped allSkipped].
  apply keeps_bind; [apply select_recorded|]. intros first. apply keeps_bind; [by walk live_prim|]. intros [].
  destruct (item_ID first =? 0); [apply none_recorded|]. apply keeps_bind; [apply resolve_recorded|]. intros hops.
  apply serve_recorded.
Qed.
End phases.

Lemma loop_recorded fuel envs n rq t reply t' :
  (forall i, others_fair (envs i) (rq_id rq)) -> live (rq_id rq) t ->
  request_loop fuel envs n rq t = Some (reply, t') -> recorded (rq_id rq) reply t'.
Proof.
  intros Hf. revert n t. induction fuel as [|fuel IH]; intros n t Ht; cbn [request_loop]; [done|].
  pose proof (round_recorded (envs n) rq (Hf n) t Ht) as Hr.
  destruct (forward_round (envs n) rq t) as [[]|t1|reply1 t1]; [by apply IH|]. by intros [= -> ->].
Qed.
End record.

Section theorem.
Context {Usage R : Type} `{ops : !UsageOps Usage} `{agg : !Aggregator Usage} `{dec : Decoder} `{cli : !ClientSide R}.
Context `{out : !Outside R} `{fold : !CaseFolding} `{ord : !MapOrder Z} `{ords : !MapOrder string}.

(** However a request ends - served, refused, cut, cancelled by the client or
    the administrator, out of rounds or of time - its record is finished exactly
    in the state that its reply tells, after a run of the registry's own steps;
    so every invariant of the registry holds, and no exit of the loop leaves a
    request running. *)
Theorem every_exit_is_recorded (envs : nat -> @RoundEnv Usage R) rq fuel n t reply t' :
  request_reachable (s_registry (t_sys t)) -> handling (s_registry (t_sys t)) (rq_id rq) ->
  (forall i, others_fair (envs i) (rq_id rq)) ->
  request_loop fuel envs n rq t = Some (reply, t') ->
  request_reachable (s_registry (t_sys t')) /\
  exists r, g_objects (s_registry (t_sys t')) !! rq_id rq = Some r /\ agrees reply (q_Status r) /\
            terminal (q_Status r) = true /\ g_finishing (s_registry (t_sys t')) !! rq_id rq = None /\
            rq_id rq ∈ g_finishedQueue (s_registry (t_sys t')).
Proof.
  intros Hreach Hh Hf Hl. pose proof (request_reachable_ok _ Hreach) as Hok.
  destruct (loop_recorded (s_registry (t_sys t)) fuel envs n rq t reply t' Hf (conj Hok (conj (rtc_refl _ _) Hh)) Hl)
    as (status & Ha & Hr & r & Hlook & <- & Hfin & Hq).
  split; [unfold request_reachable in *; by etrans|]. exists r. repeat split; try done.
  destruct reply; cbn in Ha; [destruct Ha as [->| ->]|rewrite Ha|rewrite Ha|]; try done.
  destruct (so_failure outcome); [destruct Ha as [->| ->]|rewrite Ha]; done.
Qed.
End theorem.
