(* ===== verification/ForwardPenalty.v ===== *)
(** * Who pays for a failed round

    Most reasons for which a round fails say nothing about the member: the client
    has gone, the administrator has stopped it, the body is too large, all slots
    are taken, the exit or the key was refused.  Only the others are charged to
    the breaker of the leaf, once. *)

From S2P Require Import Prelude GoStrings Utf8 Hub Float64 GroupModel Protocol Backoff Route RouteInv RouteProps Sticky RefChain.
From S2P Require Import Window ChannelLimit KeySelect Errors Usage Requests StreamEvents StreamWindow StreamForward.
From S2P Require Import ContextFit Headers Forward ForwardLogic.

(** ** The memory of the breakers *)

(** What the breakers of a group remember of its members. *)
Definition health (w : World) (gid : Z) : option (gmap Z Z * gmap Z Z * gmap Z Z * gmap Z Z) :=
  (fun r => (r_Cooldowns r, r_Levels r, r_PostCommitStrikes r, r_emergencyBlocks r)) <$> w_routes w !! gid.
Definition same_health (w w' : World) : Prop := forall gid, health w' gid = health w gid.

#[export] Instance same_health_preorder : PreOrder same_health.
Proof. split; [by intros ? ?|]. intros w1 w2 w3 H12 H23 gid. by rewrite H23. Qed.

Section health.
Context `{ord : !MapOrder Z}.

Lemma commit_health changed gid r r' w :
  w_routes w !! gid = Some r ->
  (r_Cooldowns r', r_Levels r', r_PostCommitStrikes r', r_emergencyBlocks r')
    = (r_Cooldowns r, r_Levels r, r_PostCommitStrikes r, r_emergencyBlocks r) ->
  same_health w (commit_if changed gid r' w).
Proof.
  intros Hr Heq gid'. unfold health.
  assert (Hl : w_routes (commit_if changed gid r' w) = <[gid:=r']> (w_routes w)) by by destruct changed.
  rewrite Hl, lookup_insert. case_decide; [|done]. subst. rewrite Hr. cbn. by rewrite Heq.
Qed.

Lemma release_emergency_health r id :
  let r' := (releaseEmergencyLocked r id).2 in
  (r_Cooldowns r', r_Levels r', r_PostCommitStrikes r', r_emergencyBlocks r')
    = (r_Cooldowns r, r_Levels r, r_PostCommitStrikes r, r_emergencyBlocks r).
Proof.
  cbv zeta. unfold releaseEmergencyLocked. destruct (_ <=? 0); [done|]. cbn [snd].
  match goal with |- context [syncEmergencySummaryLocked ?x] => destruct (sync_frame x) as (-> & _ & -> & -> & _ & -> & _) end.
  done.
Qed.

Lemma release_probe_health group id w : same_health w (releaseRouteProbe group id w).
Proof.
  unfold releaseRouteProbe. destruct (w_routes w !! g_ID group) as [r|] eqn:Hr; [|done].
  destruct ((r_ProbeItemID r =? id) || (0 <? (r_HalfOpens r).[id])); cbn zeta.
  - match goal with |- context [releaseEmergencyLocked ?x id] => set (r1 := x) end. pose proof (release_emergency_health r1 id) as Hh.
    destruct (releaseEmergencyLocked r1 id) as [released r2]. cbn [snd] in Hh.
    eapply commit_health; [done|]. rewrite Hh. unfold r1. by destruct (_ =? _).
  - pose proof (release_emergency_health r id) as Hh. destruct (releaseEmergencyLocked r id) as [released r2].
    by eapply commit_health.
Qed.

Lemma release_chain_health hops w : same_health w (releaseRefChainHops hops w).
Proof.
  unfold releaseRefChainHops. revert w. induction hops as [|hop hops IH]; intros w; cbn; [done|].
  etrans; [apply release_probe_health|apply IH].
Qed.

Lemma clear_sticky_routes gid id w : w_routes (clearSessionStickyByItem gid id w) = w_routes w.
Proof. unfold clearSessionStickyByItem. by destruct (w_stickies w !! gid). Qed.

Lemma clear_sticky_health gid id w : same_health w (clearSessionStickyByItem gid id w).
Proof. intros gid'. unfold health. by rewrite clear_sticky_routes. Qed.

End health.

(** ** The verdict on a failed round *)

Section verdict.
Context {Usage R : Type} `{ops : !UsageOps Usage} `{agg : !Aggregator Usage} `{dec : Decoder} `{cli : !ClientSide R}.
Context `{out : !Outside R} `{fold : !CaseFolding} `{ord : !MapOrder Z} `{ords : !MapOrder string}.
Notation Thread := (@Thread Usage R).
Implicit Types (env : @RoundEnv Usage R) (rq : Request) (t : Thread) (w : World).

(** The error a round ends with: a round the timer has ended counts as timed out. *)
Definition round_error env rq group (err : GoErr) : GoErr :=
  if is_timeout (re_roundCtx env)
  then memberTimeoutError (rq_streaming rq) (memberTimeoutSeconds (g_RelayConfig group) (rq_streaming rq))
  else err.
Definition aborted env : bool := ctx_done (re_roundCtx env) && negb (is_timeout (re_roundCtx env)).

(** The reasons that leave the member alone.  The first ones: the client, the
    operator, or a key of several. *)
Definition excused env (stopped : bool) (channel : Channel) (rejected : bool) (err : GoErr) : bool :=
  is_some (re_ctx env 3) || aborted env || stopped
  || (negb rejected && (1 <? Z.of_nat (length (ch_Keys channel)))
      && (isAuthRejectionError (Some err) || isKeyRateLimitError (Some err))).

(** The others: the exit was refused, the stream ended early for the first time,
    the body is too large, the slots are taken, the body could be repaired, or its
    context is too long. *)
Definition forgiven (l : @Locals R) item (d : Dispatch) (rejected : bool) (err : GoErr) : bool :=
  let e := Some err in
  let id := item_ID item in
  (rejected && ((l_accountRetries l).[id] <? ocProxyMaxRetries))
  || (errors_Is e errStreamEarlyEof && negb (bool_decide (id ∈ l_earlyEof l)))
  || bool_decide (UpstreamStatusCode e = Some 413)
  || errors_Is e errChannelConcurrencyFull
  || (bool_decide (UpstreamStatusCode e = Some 400) && negb (bool_decide (id ∈ l_sanitize l))
      && ((sanitizeRequestBody (l_body l)).1 || negb (isDeterministicRequestRejection e)))
  || (deterministic (d_key d) (UpstreamStatusCode e) && isContextOverflowRejection e).

Definition innocent env (l : @Locals R) (stopped : bool) item (channel : Channel) (d : Dispatch) (rejected : bool)
    (err : GoErr) : bool :=
  excused env stopped channel rejected err || forgiven l item d rejected err.

(** The world once the ancestors are released and the leaf is charged. *)
Definition charged env group item (hops : list refHop) (l : @Locals R) (err : GoErr) w w' : Prop :=
  w_routes w' = w_routes
    (recordRouteFailureIfReal (re_ms env 5) group (item_ID item) (l_failureCounts l)
       (isInfrastructureError (Some err)) (releaseRefChainHops (removelast hops) w)).2.

(** The world of a thread. *)
Definition with_health (w : World) t : Prop := same_health w (s_world (t_sys t)).

Ltac health_prim := idtac;
  lazymatch goal with
  | |- keeps _ _ (return_ _) => apply keeps_return; by intros ? ?
  | |- keeps _ _ (keys_op _) => apply keeps_keys; by intros [] ? ? ?
  | |- keeps _ _ (limits_op _) => apply keeps_limits; by intros [] ? ? ?
  | |- keeps _ _ (release_chain _) => apply keeps_sys; intros [[] ?] Hh; unfold with_health in *; cbn in *; etrans; [exact Hh|apply release_chain_health]
  | |- keeps _ _ (clear_sticky _ _) => apply keeps_sys; intros [[] ?] Hh; unfold with_health in *; cbn in *; etrans; [exact Hh|apply clear_sticky_health]
  | |- keeps _ _ (on_log _) => apply keeps_sys; intros [[] ?] ?; cbn; by destruct (_ !! _)
  | |- keeps _ _ (on_registry _) => apply keeps_sys; by intros [[] ?] ?
  | |- keeps _ _ (upd_loc _) => apply keeps_loc; by intros [] ?
  end.

Definition ends_healthy {B : Type} (w : World) (_ : B) t : Prop := with_health w t.

Lemma retry_health {A} w rq hops : keeps (with_health w) (ends_healthy w) (retry rq hops : M A).
Proof. walk health_prim. Qed.
Lemma cancel_health {A} w env rq err : keeps (with_health w) (ends_healthy w) (cancel env rq err : M A).
Proof. walk health_prim. Qed.
Lemma infeasible_health {A} w env rq top group item hops :
  keeps (with_health w) (ends_healthy w) (infeasible env rq top group item hops : M A).
Proof. walk health_prim. Qed.

(** ** The charge *)

(** The routes of a thread, resp. its world and failure counts. *)
Definition has_routes (m : gmap Z RouteState) t : Prop := w_routes (s_world (t_sys t)) = m.
Definition ends_routes {B : Type} m (_ : B) t : Prop := has_routes m t.
Definition uncharged w (l : @Locals R) t : Prop :=
  s_world (t_sys t) = w /\ l_failureCounts (t_loc t) = l_failureCounts l.

Ltac routes_prim := idtac;
  lazymatch goal with
  | |- keeps _ _ (return_ _) => apply keeps_return; by intros ? ?
  | |- keeps _ _ (clear_sticky _ _) =>
      apply keeps_sys; intros [[] ?] Hr; unfold has_routes in *; cbn in *; by rewrite clear_sticky_routes
  | |- keeps _ _ (on_log _) => apply keeps_sys; intros [[] ?] ?; cbn; by destruct (_ !! _)
  | |- keeps _ _ (on_registry _) => apply keeps_sys; by intros [[] ?] ?
  | |- keeps _ _ (upd_loc _) => apply keeps_loc; by intros [] ?
  end.

Section charge.
Context env rq (top group : Group) (item : GroupItem) (hops : list refHop) (err : GoErr) (w : World) (l : @Locals R).
Notation after := (charged env group item hops l err w).
Definition paid t : Prop := after (s_world (t_sys t)).

Lemma release_ancestors_uncharged C F :
  triple (uncharged w l) (release_ancestors hops : @M Usage R ())
    (fun _ => uncharged (releaseRefChainHops (removelast hops) w) l) C F.
Proof. intros [[] ?] [Hw Hl]. cbn in *. by rewrite <- Hw. Qed.

Lemma record_failure_charges C F :
  triple (uncharged (releaseRefChainHops (removelast hops) w) l) (record_failure env group item err)
    (fun _ => paid) C F.
Proof.
  intros [[] l'] [Hw Hl]. unfold record_failure, paid, charged. cbn in *. rewrite Hw, Hl.
  by destruct (recordRouteFailureIfReal _ _ _ _ _ _) as [[again counts] w1].
Qed.

Lemma paid_keeps {A} (m : M A) :
  (forall m0, keeps (has_routes m0) (ends_routes m0) m) -> triple paid m (fun _ => paid) paid (fun _ => paid).
Proof. intros Hm t Ht. specialize (Hm _ t eq_refl). unfold paid, charged in *. destruct (m t); by rewrite Hm. Qed.

Lemma charge_leaf_charges {A} : triple (uncharged w l) (charge_leaf env rq group item hops err : M A)
    (fun _ => paid) paid (fun _ => paid).
Proof.
  unfold charge_leaf. eapply triple_bind; [apply release_ancestors_uncharged|]. intros [].
  eapply triple_bind; [apply record_failure_charges|]. intros again.
  apply paid_keeps. intros m0. destruct again; walk routes_prim.
Qed.

Lemma non_retryable_charges {A} :
  triple (uncharged w l) (non_retryable env rq top group item hops err : M A)
    (fun _ => paid) paid (fun _ => paid).
Proof.
  unfold non_retryable. eapply triple_bind; [apply release_ancestors_uncharged|]. intros [].
  eapply triple_bind; [apply record_failure_charges|]. intros again.
  apply paid_keeps. intros m0. walk routes_prim.
Qed.
End charge.

(** ** The verdict *)

Section handle.
Context env rq (top group : Group) (item : GroupItem) (hops : list refHop) (channel : Channel) (d : Dispatch).
Context (rejected : bool) (err : GoErr) (w : World) (l : @Locals R) (stopped : bool).
#[local] Notation err' := (round_error env rq group err).
#[local] Notation spared := (innocent env l stopped item channel d rejected err').

Definition settled t : Prop :=
  if spared then same_health w (s_world (t_sys t)) else charged env group item hops l err' w (s_world (t_sys t)).

(** The thread when the round has failed. *)
Definition failing t : Prop := s_world (t_sys t) = w /\ t_loc t = l.

Lemma spared_settles {A} (P : Thread -> Prop) (m : M A) :
  spared = true -> (forall t, P t -> s_world (t_sys t) = w) -> keeps (with_health w) (ends_healthy w) m ->
  triple P m (fun _ => settled) settled (fun _ => settled).
Proof.
  intros Hs HP Hm. unfold settled. rewrite Hs. eapply triple_weaken; [exact Hm| |done..].
  intros t Ht gid. by rewrite (HP t Ht).
Qed.

Lemma guilty_settles {A} (P : Thread -> Prop) (m : M A) :
  spared = false -> (forall t, P t -> uncharged w l t) ->
  triple (uncharged w l) m (fun _ => paid env group item hops err' w l) (paid env group item hops err' w l)
    (fun _ => paid env group item hops err' w l) ->
  triple P m (fun _ => settled) settled (fun _ => settled).
Proof.
  intros Hs HP Hm. unfold settled. rewrite Hs. by eapply triple_weaken; [exact Hm|..].
Qed.

(** The verdicts behind the first ones. *)
Lemma judge_settles {A} :
  excused env stopped channel rejected err' = false ->
  triple failing (judge_failure env rq top group item hops d rejected err' : M A) (fun _ => settled) settled (fun _ => settled).
Proof.
  intros H0. assert (Hs : spared = forgiven l item d rejected err') by (unfold innocent; by rewrite H0).
  unfold judge_failure. apply (triple_read _ _ l); [by intros t [_ ?]|]. cbv zeta.
  pose proof (fun t (Ht : failing t) => proj1 Ht) as Hfw. unfold forgiven in Hs. cbv zeta in Hs.
  destruct (rejected && _).
  { apply spared_settles; [by rewrite Hs|done|by walk health_prim]. }
  destruct (errors_Is (Some err') errStreamEarlyEof && _).
  { apply spared_settles; [by rewrite Hs|done|by walk health_prim]. }
  destruct (bool_decide (_ = Some 413)).
  { apply spared_settles; [by rewrite Hs|done|by walk health_prim]. }
  destruct (errors_Is (Some err') errChannelConcurrencyFull).
  { apply spared_settles; [by rewrite Hs|done|by walk health_prim]. }
  cbn [orb] in Hs.
  set (repair := bool_decide (UpstreamStatusCode (Some err') = Some 400) && negb (bool_decide (item_ID item ∈ l_sanitize l))) in *.
  apply (triple_bind _ _ _ (fun again t => uncharged w l t /\ again = repair &&
    ((sanitizeRequestBody (l_body l)).1 || negb (isDeterministicRequestRejection (Some err'))))).
  { destruct repair; [|by intros t [<- <-]]. intros [s l'] [Hw Hl]. cbn in Hw, Hl. subst l'.
    unfold mbind, handler_bind, upd_loc. cbn [t_loc t_sys]. destruct (sanitizeRequestBody (l_body l)) as [changed body].
    destruct changed, l; by repeat split. }
  intros again. apply triple_pure. intros ->.
  destruct (repair && _); [apply spared_settles; [by rewrite Hs|by intros t [? _]|by walk health_prim]|].
  cbn [orb] in Hs. eapply (triple_bind _ _ _ (fun _ => uncharged w l)); [intros [[] ?] [? ?]; by split|]. intros [].
  destruct (deterministic (d_key d) _).
  - destruct (isContextOverflowRejection (Some err')).
    + apply spared_settles; [by rewrite Hs|by intros t [? _]|by walk health_prim].
    + apply guilty_settles; [by rewrite Hs|done|apply non_retryable_charges].
  - apply guilty_settles; [by rewrite Hs|done|apply charge_leaf_charges].
Qed.

Definition stop_raised t : bool :=
  match g_objects (s_registry (t_sys t)) !! rq_id rq with Some r => q_stopRequested r | None => false end.

(** Recording a round does not raise the stop flag. *)
Lemma finish_round_flag outcome class brief C F :
  triple (fun t => failing t /\ stop_raised t = stopped) (finish_round env rq outcome class brief)
    (fun _ t => failing t /\ stop_raised t = stopped) C F.
Proof.
  intros [[] l'] [[Hw Hl] Hs]. unfold finish_round, on_registry, upd_sys, failing, stop_raised in *. cbn in *.
  split; [done|]. rewrite <- Hs. unfold finishRound, on_request.
  destruct (g_objects s_registry !! rq_id rq) as [r|] eqn:Hr; [|by rewrite Hr].
  unfold store_publish, publishRequestLocked, put_object. record.simp. rewrite lookup_insert. case_decide; [|by rewrite Hr].
  unfold closeAttemptLocked, on_last_attempt. destruct r. cbn. destruct (last _); [|done]. by case_ifs.
Qed.

Lemma failure_settles {A} :
  triple (fun t => failing t /\ stop_raised t = stopped)
    (handle_failure env rq top group item hops channel d rejected err : M A) (fun _ => settled) settled (fun _ => settled).
Proof.
  unfold handle_failure. cbv zeta. fold (round_error env rq group err). fold (aborted env).
  assert (Hw : forall t, failing t /\ stop_raised t = stopped -> s_world (t_sys t) = w) by by intros t [[? _] _].
  destruct (bool_decide _ && _ && _ && _) eqn:Hkey.
  { apply spared_settles; [|done|by walk health_prim]. unfold innocent, excused.
    destruct (negb rejected && _ && _) eqn:Hk; [by rewrite orb_true_r|]. exfalso.
    apply andb_true_iff in Hkey as [[[_ H1]%andb_true_iff H2]%andb_true_iff H3]. by rewrite H1, H2, H3 in Hk. }
  eapply triple_bind; [apply finish_round_flag|]. intros [].
  apply (triple_read _ _ stopped); [by intros t [_ ?]|]. destruct stopped eqn:Hst.
  { apply spared_settles; [unfold innocent, excused; by rewrite Hst, !orb_true_r|done|by walk health_prim]. }
  destruct (re_ctx env 3) as [ctxErr|] eqn:Hctx.
  { apply spared_settles; [unfold innocent, excused; by rewrite Hctx|done|by walk health_prim]. }
  destruct (aborted env) eqn:Hab.
  { apply spared_settles; [unfold innocent, excused; by rewrite Hab, !orb_true_r|done|by walk health_prim]. }
  eapply triple_weaken; [apply judge_settles|by intros t [? _]|done..].
  unfold excused. rewrite Hctx, Hab, Hst in *. rewrite bool_decide_true in Hkey by done. exact Hkey.
Qed.
End handle.

(** C3: a failed round is charged to the breaker of its leaf exactly when none of
    the innocent reasons holds - the client has gone, the round was aborted or the
    request stopped; one key of several, the exit or the slot was refused; the
    stream ended early for the first time; the body is too large, too long, or
    could be repaired; the slots are taken.  Then it is charged once, by the
    report of the routing layer, with the other members untouched; otherwise no
    cooldown, level or strike of any group changes. *)
Theorem penalty_iff_guilty {A} env rq top group item hops channel d rejected err (t : Thread) :
  let w := s_world (t_sys t) in
  let e := round_error env rq group err in
  let spared := innocent env (t_loc t) (stop_raised rq t) item channel d rejected e in
  match (handle_failure env rq top group item hops channel d rejected err : M A) t with
  | Next _ t' | Continue t' | Return _ t' =>
      if spared then same_health w (s_world (t_sys t'))
      else charged env group item hops (t_loc t) e w (s_world (t_sys t'))
  end.
Proof.
  cbv zeta. apply (failure_settles env rq top group item hops channel d rejected err (s_world (t_sys t)) (t_loc t) (stop_raised rq t)).
  done.
Qed.
End verdict.
