(* ===== verification/Entry.v ===== *)
(** * The entry of a request

    handler.go before and around the attempt loop: what is refused before it is
    admitted, the registration of what is, and the handler of panics. *)

From coqutil Require Export Datatypes.RecordSetters.
Export RecordSetters.OCamlLikeNotations.
From S2P Require Import Prelude GoStrings Utf8 Hub Float64 GroupModel Protocol Backoff Route Sticky RefChain.
From S2P Require Import Window ChannelLimit KeySelect Errors Usage Requests RequestInv RequestThms StreamEvents StreamWindow StreamForward.
From S2P Require Import ContextFit Headers BodyBudget Forward ForwardLogic ForwardRecord.

(** The reads of the body through gjson; the field of a multipart form; the test
    for requests that only ask for a title. *)
Class BodyQuery := {
  gjson_exists : string -> string -> bool;
  gjson_string : string -> string -> string;
  gjson_bool : string -> string -> bool;
  multipartFormField : string -> string -> string;
  isTitleGenerationRequest : string -> bool;
}.

(** A request as the HTTP server hands it over.  The body comes from
    [readLimitedHTTPRequest] (BodyBudget.v), or its error; [er_copied] is whether
    the second copy fits the budget. *)
Record Incoming := mkIncoming {
  er_body : string + BodyError; er_copied : bool; er_contentType : string;
  er_allowed : string; er_clientIP : string; er_apiKey : string; er_keyName : string;
  er_now : Z; er_scopeKey : string; er_session : bool -> string }.

(** How a request ends: refused with an error or for the size of its body before
    it is registered, or handled. *)
Inductive Answer {Usage R : Type} := TooLarge | Turned (err : GoErr) | Handled (id : Z) (reply : @Reply Usage R).
Arguments Answer : clear implicits.

Section entry.
Context {Usage R : Type} `{ops : !UsageOps Usage} `{agg : !Aggregator Usage} `{dec : Decoder} `{cli : !ClientSide R}.
Context `{out : !Outside R} `{fold : !CaseFolding} `{ord : !MapOrder Z} `{ords : !MapOrder string} `{query : BodyQuery}.
Notation Thread := (@Thread Usage R).
Implicit Types (inc : Incoming) (sys : @System Usage) (t : Thread).

Definition looksLikeAnthropicMessages (body : string) : bool :=
  gjson_exists body "system" || gjson_exists body "tools.0.input_schema".

Definition body_error (e : BodyError) : GoErr :=
  match e with
  | BodyCancelled => sentinel "context canceled" contextCanceled
  | BodyReadFailed => plain "read error"
  | BodyDecoderFailed => plain "failed to create reader"
  | BodyEncodingUnsupported => plain "unsupported content encoding"
  | BodyTooLarge => plain "request body too large"
  end.

(** A Chat request that carries an Anthropic body is served as one. *)
Definition detected_format (format : APIFormat) (body : string) : APIFormat :=
  if bool_decide (format = APIFormatOpenAIChatCompletion) && looksLikeAnthropicMessages body
  then APIFormatAnthropicMessage else format.

Definition requested_model inc (body : string) : string :=
  let model := gjson_string body "model" in
  if bool_decide (model = "") then multipartFormField (er_contentType inc) body else model.

Definition model_allowed inc (model : string) : bool :=
  bool_decide (er_allowed inc = "") || bool_decide (model ∈ split_comma "" (er_allowed inc)).

(** The request once it is registered. *)
Definition registered inc (format : APIFormat) (model body : string) (id : Z) : Request :=
  mkRequestInfo id model format (gjson_bool body "stream") (er_scopeKey inc) (er_session inc).

Definition err_TitleRejected : GoErr := sentinel "title request rejected" errTitleRequestRejected.

(** Everything from the first check to the answer; [None] when the loop has not
    returned within [fuel] turns. *)
Definition handle_request inc (format : APIFormat) (dir : Directory) fuel (envs : nat -> @RoundEnv Usage R) sys
    : option (Answer Usage R * @System Usage) :=
  if g_allStopped (s_registry sys) then Some (Turned err_AllRequestsStopped, sys)
  else
    match er_body inc with
    | inr BodyTooLarge => Some (TooLarge, sys)
    | inr e => Some (Turned (body_error e), sys)
    | inl body =>
        if negb (er_copied inc) then Some (TooLarge, sys)
        else
          let format := detected_format format body in
          let model := requested_model inc body in
          if negb (model_allowed inc model) then Some (Turned (plain "model not supported by this api key"), sys)
          else
            match @groupLookup dir model with
            | None => Some (Turned (plain "model not found"), sys)
            | Some group =>
                let '(id, g) := newRequestState (er_now inc) model body (er_clientIP inc) (er_apiKey inc) (er_keyName inc) (s_registry sys) in
                let sys := { sys with s_registry := g } in
                if RejectTitleRequests (g_RelayConfig group) && isTitleGenerationRequest body then
                  Some (Handled id (Rejected err_TitleRejected),
                        { sys with s_registry ::= (finish (er_now inc) id ∘ markFailed id err_TitleRejected "" None) })
                else
                  '(reply, t) ← request_loop fuel envs 0 (registered inc format model body id) (mkThread sys (locals_init body));
                  Some (Handled id reply, t_sys t)
            end
    end.

(** The deferred handler of a panic: what the interrupted round holds is given
    back, the request is closed unless it is already. *)
Definition on_panic (now id : Z) (hops : list refHop) (err : GoErr) sys : @System Usage :=
  { sys with s_world ::= releaseRefChainProbeHolds hops;
             s_registry ::= (finish now id ∘ abandonUnfinishedRequest id (Some err)) }.

(** ** Properties *)

Lemma new_request_runs now model body ip key name g :
  let '(id, g') := newRequestState now model body ip key name g in request_step g g' /\ handling g' id.
Proof.
  pose proof (rq_new g now model body ip key name) as Hstep. destruct (newRequestState _ _ _ _ _ _ g) as [id g'] eqn:Hn.
  split; [exact Hstep|]. unfold newRequestState in Hn. injection Hn as <- <-.
  destruct g. unfold handling, publishRequestLocked, put_object. cbn.
  eexists. split; [apply lookup_insert_eq|done].
Qed.

(** What the answer says about the registry. *)
Definition answered (answer : Answer Usage R) (g g' : Registry Usage) : Prop :=
  match answer with
  | TooLarge | Turned _ => g' = g
  | Handled id reply =>
      rtc request_step g g' /\
      exists r, g_objects g' !! id = Some r /\ agrees reply (q_Status r) /\ terminal (q_Status r) = true /\
                g_finishing g' !! id = None /\ id ∈ g_finishedQueue g'
  end.

Lemma agrees_terminal (reply : @Reply Usage R) status : agrees reply status -> terminal status = true.
Proof.
  destruct reply; cbn; [intros [->| ->]| intros -> | intros -> |]; try done. destruct (so_failure _); [intros [->| ->]|intros ->]; done.
Qed.

(** C2: a request is either turned away before it is registered, and then leaves
    no trace, or it is registered and, however it ends - served, refused, cut,
    cancelled, out of rounds or of time - closed exactly once in the state that its
    answer tells, by steps of the registry alone. *)
Theorem every_request_is_answered inc format dir fuel envs sys answer sys' :
  request_reachable (s_registry sys) ->
  (forall i, others_fair (envs i) (g_idSeq (s_registry sys) + 1)) ->
  handle_request inc format dir fuel envs sys = Some (answer, sys') ->
  answered answer (s_registry sys) (s_registry sys').
Proof.
  intros Hreach Hf. unfold handle_request. destruct (g_allStopped _); [by intros [= <- <-]|].
  destruct (er_body inc) as [body|[]]; [|by intros [= <- <-]..].
  destruct (negb (er_copied inc)); [by intros [= <- <-]|]. cbv zeta. destruct (negb _); [by intros [= <- <-]|].
  destruct (groupLookup _) as [group|]; [|by intros [= <- <-]].
  pose proof (new_request_runs (er_now inc) (requested_model inc body) body (er_clientIP inc) (er_apiKey inc) (er_keyName inc) (s_registry sys)) as Hnew.
  assert (Hid : (newRequestState (er_now inc) (requested_model inc body) body (er_clientIP inc) (er_apiKey inc) (er_keyName inc) (s_registry sys)).1
                = g_idSeq (s_registry sys) + 1) by done.
  destruct (newRequestState _ _ _ _ _ _ _) as [id g]. cbn [fst] in Hid. destruct Hnew as [Hstep Hh].
  pose proof (request_step_ok _ _ Hstep (request_reachable_ok _ Hreach)) as Hok. destruct (_ && _).
  - intros [= <- <-]. destruct (fail_ends (er_now inc) id err_TitleRejected "" None g Hok Hh) as (Hr & r & Hlook & Hs & Hfin & Hq).
    destruct sys. cbn in *. split; [by eapply rtc_l|]. exists r. rewrite Hs. by repeat split.
  - destruct (request_loop _ _ _ _ _) as [[reply t]|] eqn:Hl; [|done]. intros [= <- <-].
    assert (Hlive : live (s_registry sys) id (mkThread ({ sys with s_registry := g }) (locals_init body) : Thread)).
    { destruct sys. cbn. split; [done|]. split; [by apply rtc_once|done]. }
    rewrite <- Hid in Hf. set (rq := registered _ _ _ _ _) in *.
    destruct (loop_recorded (s_registry sys) fuel envs 0 rq _ reply t Hf Hlive Hl)
      as (status & Ha & Hr & r & Hlook & <- & Hfin & Hq).
    split; [exact Hr|]. exists r. split; [done|]. split; [done|]. split; [by eapply agrees_terminal|done].
Qed.

(** ** Panics *)

(** Half-open marks carry the time they were set. *)
Definition half_positive (w : World) : Prop :=
  forall gid r, w_routes w !! gid = Some r -> map_Forall (fun (_ n : Z) => 0 < n) (r_HalfOpens r).

Lemma hold_released hop w :
  half_positive w -> item_ID (hop_item hop) ≠ 0 ->
  half_positive (release_probe_hold hop w) /\
  ~ world_held (release_probe_hold hop w) (g_ID (hop_group hop)) (item_ID (hop_item hop)) /\
  (forall gid id, id ≠ 0 -> world_held (release_probe_hold hop w) gid id -> world_held w gid id).
Proof.
  intros Hw Hid. unfold release_probe_hold. set (gid := g_ID (hop_group hop)). set (id := item_ID (hop_item hop)) in *.
  destruct (w_routes w !! gid) as [r|] eqn:Hr; [|by split; [done|split; [intros (r & Hr' & _); congruence|]]].
  pose proof (Hw gid r Hr) as Hpos. destruct (_ && _) eqn:Hskip.
  { split; [done|]. split; [|done]. apply andb_true_iff in Hskip as [Hp Hh]. intros (r' & Hr' & [Hx|Hx]).
    - assert (r' = r) as -> by congruence. rewrite Hx, Z.eqb_refl in Hp. done.
    - assert (r' = r) as -> by congruence. destruct (r_HalfOpens r !! id) as [n|] eqn:Hn; [|done].
      pose proof (Hpos id n Hn) as Hn0. cbn in Hh, Hn0. lia. }
  match goal with |- context [commit gid ?x w] => set (r1 := x) end.
  assert (Hr1 : r_HalfOpens r1 = delete id (r_HalfOpens r) /\ (r_ProbeItemID r1 = if r_ProbeItemID r =? id then 0 else r_ProbeItemID r)).
  { unfold r1. cbn. by destruct (_ =? _). }
  destruct Hr1 as [Hh Hp]. clearbody r1.
  assert (Hlook : forall g, w_routes (commit gid r1 w) !! g = if decide (gid = g) then Some r1 else w_routes w !! g).
  { intros g. cbn. apply lookup_insert. }
  split; [|split].
  - intros g r'. rewrite Hlook. case_decide; [|apply Hw]. intros [= <-]. rewrite Hh. intros k n Hk. apply lookup_delete_Some in Hk as [_ Hk].
    by apply (Hpos k n).
  - intros (r' & Hr' & Hx). rewrite Hlook, decide_True in Hr' by done. injection Hr' as <-. destruct Hx as [Hx|Hx].
    + rewrite Hp in Hx. destruct (Z.eqb_spec (r_ProbeItemID r) id); congruence.
    + rewrite Hh, lookup_delete_eq in Hx. done.
  - intros g k Hk (r' & Hr' & Hx). rewrite Hlook in Hr'. case_decide as Hg; [|by exists r'].
    injection Hr' as <-. subst g. exists r. split; [done|]. destruct Hx as [Hx|Hx].
    + left. rewrite Hp in Hx. destruct (_ =? _); congruence.
    + right. rewrite Hh, lookup_delete in Hx. by case_decide.
Qed.

Lemma holds_released hops w :
  half_positive w -> Forall (fun hop => item_ID (hop_item hop) ≠ 0) hops ->
  (forall hop, hop ∈ hops -> ~ world_held (releaseRefChainProbeHolds hops w) (g_ID (hop_group hop)) (item_ID (hop_item hop))) /\
  (forall gid id, id ≠ 0 -> world_held (releaseRefChainProbeHolds hops w) gid id -> world_held w gid id).
Proof.
  unfold releaseRefChainProbeHolds. revert w. induction hops as [|h hops IH]; intros w Hw Hids; cbn [foldl].
  { split; [by intros hop Hin%elem_of_nil|done]. }
  apply Forall_cons in Hids as [Hh Hids]. destruct (hold_released h w Hw Hh) as (H1 & H2 & H3). destruct (IH _ H1 Hids) as [A B].
  split; [|by auto]. intros hop [->|Hin]%elem_of_cons; [intros Hheld; by apply H2, B|by apply A].
Qed.

End entry.
