(* ===== verification/ForwardDemo.v ===== *)
(** * A request from beginning to end

    One group with one member, a channel without limits and an upstream that
    answers, or does not: the inputs on which the theorems on the attempt loop
    are instantiated. *)

From S2P Require Import Prelude GoStrings Utf8 Hub Float64 GroupModel Protocol Backoff Route Demo Sticky RefChain.
From S2P Require Import Window ChannelLimit KeySelect Errors Usage Requests RequestInv RequestThms StreamEvents StreamWindow StreamForward StreamThms.
From S2P Require Import ContextFit Headers BodyBudget Forward ForwardLogic ForwardRecord Entry.

#[export] Instance no_folding : CaseFolding := { folds_together _ _ := false }.

(** Bodies are opaque; a template resolves to itself. *)
#[export] Instance opaque_outside : Outside string := {
  ResolveProxyTemplate template _ := Some template;
  proxy_user _ := None;
  AccountAliasFor _ key := key;
  OpenCodeTier _ := "";
  roundProxyLabel _ _ := "";
  set_model _ body := inl body;
  set_include_usage body := inl body;
  injectMissingReasonings _ _ body := body;
  sanitizeRequestBody body := (false, body);
  restoreNonStream _ body := body;
  echoNonStreamResponseModel _ body _ := body;
}.

Definition demo_top : Group := mkGroup 1 "m" GroupModeFailover 0 DefaultGroupRelayConfig [demo_item 11 1 1; demo_item 12 2 2].
Definition demo_groups : Directory := {|
  channelLookup := @channelLookup demo_directory;
  groupLookup name := if bool_decide (name = "m") then Some demo_top else None;
  warpBlocked _ := false |}.

Definition demo_pick : PickEnv := mkPickEnv 1000 1000 1000 (fun _ => []) false.

(** A turn in which nothing waits and the upstream answers [result]. *)
Definition demo_round (result : @UpstreamResponse (Z * Z) + GoErr) : @RoundEnv (Z * Z) string :=
  mkEnv demo_groups (fun _ => None) (fun _ s => s) 0 (fun _ => 1000) (fun _ => 1000) demo_pick (fun _ => demo_pick) 9
    TimerEnds (fun body => Masked body None []) (fun _ => 0) [] "" WarpBusy 77 None result (Some None)
    (Some ∘ letter <$> ["C"; "S"]) None None (fun _ => None) 0.
Definition demo_answer : @UpstreamResponse (Z * Z) :=
  mkUpstream {[ "Set-Cookie" := ["x"]; "Content-Type" := ["text/plain"] ]} "hello" (Some (3, 4)) [letter "C"] false.
Definition demo_down : GoErr := mkErr "502 Bad Gateway" (HttpError 502 "") [].

Definition demo_request (streaming : bool) : Request :=
  mkRequestInfo 1 "m" APIFormatOpenAIChatCompletion streaming "" (fun _ => "").
Definition demo_registry : Registry (Z * Z) := (newRequestState 0 "m" "{}" "ip" "sk-0123456789" "k" registry_init).2.
Definition demo_thread : @Thread (Z * Z) string :=
  mkThread (mkSystem world_init ∅ health_init cl_init demo_registry (mkLog 0 [] [])) (locals_init "{}").

Definition reply_of {A B} (o : option (A * B)) : option A := fst <$> o.

(** An upstream that answers, one that is down, and both for a streaming client. *)
Example demo_answered :
  (fun o => '(reply, t) ← o; Some (reply, q_Status <$> g_objects (s_registry (t_sys t)) !! 1))
    (request_loop 2 (fun _ => demo_round (inl demo_answer)) 0 (demo_request false) demo_thread)
  = Some (Delivered {[ "Content-Type" := ["text/plain"] ]} "hello", Some StatusSuccess).
Proof. vm_compute. reflexivity. Qed.


(** ** Failing over

    Turns against an upstream that is down: the first member cools after its third
    failure, then the second, then both are forgiven after a wait. *)
Fixpoint turns (n : nat) (env : @RoundEnv (Z * Z) string) (t : @Thread (Z * Z) string) : @Thread (Z * Z) string :=
  match n with
  | O => t
  | S n' => match forward_round env (demo_request false) t with Continue t' => turns n' env t' | _ => t end
  end.
Definition demo_cooling (n : nat) : option (Z * list Z) :=
  (fun r => (r_CurrentItemID r, (map_to_list (r_Cooldowns r)).*1)) <$>
    w_routes (s_world (t_sys (turns n (demo_round (inr demo_down)) demo_thread))) !! 1.
Example demo_fails_over :
  demo_cooling <$> [1; 3; 4; 6; 7]%nat = [Some (11, []); Some (0, [11]); Some (12, [11]); Some (0, [11; 12]); Some (0, [])].
Proof. vm_compute. reflexivity. Qed.

(** ** Witnesses *)

Definition demo_envs (n : nat) : @RoundEnv (Z * Z) string := demo_round (inr demo_down).

Lemma forward_terminates_witness :
  rounds_limited 600 demo_envs (demo_request false) /\
  is_some (request_loop (Z.to_nat (600 + 1)) demo_envs 0 (demo_request false) demo_thread).
Proof.
  assert (Hl : rounds_limited 600 demo_envs (demo_request false)).
  { split; [by vm_compute|]. intros n group Hg. vm_compute in Hg. injection Hg as <-. by vm_compute. }
  split; [exact Hl|]. apply (forward_terminates 600 demo_envs (demo_request false) demo_thread Hl); reflexivity.
Defined.


(** ** From the entry *)

#[export] Instance demo_query : BodyQuery := {
  gjson_exists _ path := bool_decide (path = "system");
  gjson_string body _ := body;
  gjson_bool _ _ := false;
  multipartFormField _ _ := "";
  isTitleGenerationRequest _ := false;
}.
Definition demo_incoming (model : string) : Incoming :=
  mkIncoming (inl model) true "" "m,n" "ip" "sk-0123456789" "k" 0 "" (fun _ => "").
Definition demo_system : @System (Z * Z) := mkSystem world_init ∅ health_init cl_init registry_init (mkLog 0 [] []).
Definition demo_handle (model : string) : option (Answer (Z * Z) string * @System (Z * Z)) :=
  handle_request (demo_incoming model) APIFormatOpenAIChatCompletion demo_groups 2 (fun _ => demo_round (inl demo_answer)) demo_system.

Example demo_handled :
  (fun '(answer, sys) => (answer, q_Status <$> g_objects (s_registry sys) !! 1)) <$> demo_handle "m"
  = Some (Handled 1 (Delivered {[ "Content-Type" := ["text/plain"] ]} "hello"), Some StatusSuccess).
Proof. vm_compute. reflexivity. Qed.
Example demo_not_allowed : fst <$> demo_handle "x" = Some (Turned (plain "model not supported by this api key")).
Proof. vm_compute. reflexivity. Qed.
Example demo_unknown : fst <$> demo_handle "n" = Some (Turned (plain "model not found")).
Proof. vm_compute. reflexivity. Qed.

Lemma every_request_is_answered_witness :
  exists answer sys', demo_handle "m" = Some (answer, sys') /\ answered answer registry_init (s_registry sys').
Proof.
  destruct (demo_handle "m") as [[answer sys']|] eqn:Hrun.
  - exists answer, sys'. split; [reflexivity|].
    refine (every_request_is_answered (demo_incoming "m") APIFormatOpenAIChatCompletion demo_groups 2
      (fun _ => demo_round (inl demo_answer)) demo_system answer sys' _ _ Hrun).
    + apply rtc_refl.
    + intros i point s _ Hs. split; [apply rtc_refl|exact Hs].
  - vm_compute in Hrun. discriminate Hrun.
Defined.

Definition demo_hop : refHop := mkHop demo_top (demo_item 11 1 1).
