(* ===== verification/OcPool.v ===== *)
(** * The pool of proxy accounts

    internal/relay/opencode_proxy_pool.go: one pool of outbound accounts per
    channel, or per key of a channel.  A session keeps its account, an account
    serves one session at a time, and refusals of the upstream cool an account or
    take it away from a session.  Times are nanoseconds. *)

From coqutil Require Export Datatypes.RecordSetters.
Export RecordSetters.OCamlLikeNotations.
From S2P Require Import Prelude GoStrings GoInts Utf8.

Definition second : Z := 1000000000.
Definition day : Z := 24 * 3600 * second.

Definition ocProxyPerAccountLimit : Z := 5.
Definition ocProxyPerAccountSessions : Z := 1.
Definition ocProxySuccessTTL : Z := 7 * day.
Definition ocProxyRejectedCooldown : Z := day.
Definition ocProxyMaxAccounts : Z := 30000.
Definition ocPruneInterval : Z := 600 * second.
Definition ocProxySessionTTL : Z := day.
Definition ocProxy429VoteWindow : Z := day.
Definition ocProxy429Quorum : Z := 2.
Definition ocProxyFailureWindow : Z := day.
Definition ocProxyFailureWindowLimit : Z := 6.

(** [time.Time{}], the first of January of the year 1. *)
Definition zero_time : Z := - 62135596800 * second.

Record ocProxyAccount := mkAccount {
  oa_lastSuccessAt : Z; oa_cooldownUntil : Z; oa_active : Z; oa_sessions : gmap string Z; oa_verified : bool;
  oa_consecutiveFailures : Z; oa_failureWindowStart : Z; oa_failureWindowCount : Z }.
Definition new_account : ocProxyAccount := mkAccount zero_time zero_time 0 ∅ false 0 zero_time 0.

Record ocProxyPool := mkPool {
  op_loaded : bool; op_lastPruneAt : Z; op_accounts : gmap string ocProxyAccount;
  op_sessionBound : gmap string (string * Z); op_sessionBanned : gmap string (gmap string Z);
  op_rateLimited : gmap string Z }.
Definition newOpencodeProxyPool : ocProxyPool := mkPool false zero_time ∅ ∅ ∅ ∅.

(** A row of the table, as [LoadOpencodeProxyAccountsForKey] returns it. *)
Record AccountRow := mkRow {
  ar_Account : string; ar_LastSuccessAt : Z; ar_CooldownUntil : Z; ar_FailureWindowStart : Z; ar_FailureWindowCount : Z }.

Definition loaded_account (now : Z) (row : AccountRow) : ocProxyAccount :=
  let restored := negb (now <? ar_CooldownUntil row) in
  mkAccount (ar_LastSuccessAt row) (ar_CooldownUntil row) 0 ∅ (negb (ar_LastSuccessAt row =? zero_time)) 0
    (if restored then ar_FailureWindowStart row else zero_time) (if restored then ar_FailureWindowCount row else 0).

(** The rows, or [None] when the database fails. *)
Definition loadOpencodeProxyPoolForKey (now : Z) (rows : option (list AccountRow)) (p : ocProxyPool) : ocProxyPool :=
  if op_loaded p then p
  else
    let p := { p with op_loaded := true } in
    match rows with
    | None => p
    | Some rows => { p with op_accounts ::= (fun accounts =>
        foldl (fun accounts row => <[ar_Account row := loaded_account now row]> accounts) accounts rows) }
    end.

(** ** Expiry *)

Definition younger (ttl now : Z) {A} (kv : A * Z) : Prop := now - kv.2 < ttl.
#[export] Instance younger_dec ttl now {A} (kv : A * Z) : Decision (younger ttl now kv) := Z_lt_dec _ _.
Definition pruneLocked (now : Z) (p : ocProxyPool) : ocProxyPool :=
  { p with op_sessionBound ::= filter (fun kv => younger ocProxySessionTTL now kv.2);
           op_sessionBanned ::= omap (fun accounts =>
             let accounts := filter (younger ocProxySessionTTL now) accounts in
             if decide (accounts = ∅) then None else Some accounts);
           op_rateLimited ::= filter (younger ocProxy429VoteWindow now) }.

(** ** Which accounts qualify *)

Definition ocProxyUsable (a : ocProxyAccount) (now : Z) : bool :=
  if ocProxyPerAccountLimit <=? oa_active a then false
  else if now <? oa_cooldownUntil a then false
  else if oa_verified a && (ocProxySuccessTTL <? now - oa_lastSuccessAt a) then false
  else true.

Definition ocProxySessionAvailable (a : ocProxyAccount) (session : string) : bool :=
  let n := Z.of_nat (size (oa_sessions a)) in
  if bool_decide (session = "") then true
  else if ocProxyPerAccountSessions <? n then false
  else if 0 <? (oa_sessions a).[session] then true
  else n <? ocProxyPerAccountSessions.

Definition ocProxyCandidateBetter (a b : ocProxyAccount) : bool :=
  if negb (oa_consecutiveFailures a =? oa_consecutiveFailures b)
  then oa_consecutiveFailures a <? oa_consecutiveFailures b
  else if negb (Bool.eqb (oa_verified a) (oa_verified b)) then oa_verified a
  else oa_verified a && (oa_lastSuccessAt b <? oa_lastSuccessAt a).

(** ** Eviction *)

Definition ocProxyRecency (a : ocProxyAccount) : Z :=
  if oa_lastSuccessAt a <? oa_cooldownUntil a then oa_cooldownUntil a else oa_lastSuccessAt a.
Definition ocProxyEvictFirst (a b : ocProxyAccount) : bool :=
  if negb (Bool.eqb (oa_verified a) (oa_verified b)) then negb (oa_verified a)
  else ocProxyRecency a <? ocProxyRecency b.

Section pool.
Context `{ord : !MapOrder string}.
Implicit Types (p : ocProxyPool) (a : ocProxyAccount) (session account : string) (now : Z).

Fixpoint trim_loop (fuel : nat) (keep : string) p : ocProxyPool :=
  match fuel with
  | O => p
  | S fuel =>
      if Z.of_nat (size (op_accounts p)) <=? ocProxyMaxAccounts then p
      else
        match keep_best (fun kv => negb (bool_decide (kv.1 = keep))) ocProxyEvictFirst (map_order (op_accounts p)) with
        | None => p
        | Some (oldest, _) =>
            trim_loop fuel keep
              ({ p with op_accounts ::= delete oldest; op_sessionBound ::= filter (fun kv => kv.2.1 ≠ oldest) })
        end
  end.
(** Every turn deletes an account. *)
Definition trimLocked (keep : string) p : ocProxyPool := trim_loop (size (op_accounts p)) keep p.

Definition needsPrune (now : Z) p : bool * ocProxyPool :=
  if (Z.of_nat (size (op_accounts p)) <? ocProxyMaxAccounts) || (now - op_lastPruneAt p <=? ocPruneInterval)
  then (false, p) else (true, { p with op_lastPruneAt := now }).

(** ** Selection *)

Definition banned_for session p : gmap string Z := default ∅ (op_sessionBanned p !! session).
Definition bind_session (now : Z) session account p : ocProxyPool :=
  if bool_decide (session = "") then p
  else { p with op_sessionBound ::= insert session (account, now) }.

(** The account the session is bound to, when it can still be used. *)
Definition bound_account session p : string :=
  if bool_decide (session = "") then "" else default "" (fst <$> op_sessionBound p !! session).
Definition bound_usable (now : Z) session p : option string :=
  if bool_decide (session = "") then None else
  match op_sessionBound p !! session with
  | None => None
  | Some (bound, _) =>
      if is_some (banned_for session p !! bound) then None
      else match op_accounts p !! bound with
           | Some a => if ocProxyUsable a now && ocProxySessionAvailable a session then Some bound else None
           | None => None
           end
  end.

Definition candidate (now : Z) session p (kv : string * ocProxyAccount) : bool :=
  ocProxyUsable kv.2 now && ocProxySessionAvailable kv.2 session
  && negb (is_some (banned_for session p !! kv.1))
  && negb (negb (bool_decide (bound_account session p = "")) && bool_decide (kv.1 = bound_account session p)).

(** [fresh] is what [newOpencodeProxyAccount] would draw. *)
Definition pickLocked (now : Z) session (fresh : string) p : string * ocProxyPool :=
  let p := pruneLocked now p in
  match bound_usable now session p with
  | Some bound => (bound, bind_session now session bound p)
  | None =>
      match keep_best (candidate now session p) ocProxyCandidateBetter (map_order (op_accounts p)) with
      | Some (account, _) => (account, bind_session now session account p)
      | None =>
          let p := trimLocked fresh ({ p with op_accounts ::= insert fresh new_account }) in
          (fresh, bind_session now session fresh p)
      end
  end.

Definition pickFixedLocked (now : Z) session account p : option string * ocProxyPool :=
  let p := pruneLocked now p in
  let state := default new_account (op_accounts p !! account) in
  let p := { p with op_accounts ::= insert account state } in
  if negb (ocProxyUsable state now) || negb (ocProxySessionAvailable state session) then (None, p)
  else if is_some (banned_for session p !! account) then (None, p)
  else (Some account, bind_session now session account p).

Definition occupy session a : ocProxyAccount :=
  let a := { a with oa_active ::= Z.add 1 } in
  if bool_decide (session = "") then a
  else { a with oa_sessions ::= (fun m => <[session := m.[session] + 1]> m) }.

(** The critical section of [pickOpencodeProxyAccountForKey]; [load_now] is the
    clock of the first load. *)
Definition pickOpencodeProxyAccountForKey (load_now now : Z) (rows : option (list AccountRow)) (keyID session fresh : string) p
    : option string * ocProxyPool :=
  let p := loadOpencodeProxyPoolForKey load_now rows p in
  let '(picked, p) := if bool_decide (keyID = "") then let '(account, p) := pickLocked now session fresh p in (Some account, p)
                      else pickFixedLocked now session keyID p in
  match picked with
  | None => (None, p)
  | Some account => (Some account, { p with op_accounts ::= alter (occupy session) account })
  end.

Definition vacate session a : ocProxyAccount :=
  let a := if 0 <? oa_active a then { a with oa_active ::= Z.pred } else a in
  if bool_decide (session = "") then a
  else if 1 <? (oa_sessions a).[session] then { a with oa_sessions ::= (fun m => <[session := m.[session] - 1]> m) }
  else { a with oa_sessions ::= delete session }.
Definition releaseOpencodeProxyAccountForKey account session p : ocProxyPool :=
  { p with op_accounts ::= alter (vacate session) account }.

(** ** Verdicts

    Some of these are two critical sections in a row; the second one does not
    depend on what the first one left. *)

(** The account, created when it is unknown. *)
Definition ensure_account account p : ocProxyPool :=
  match op_accounts p !! account with
  | Some _ => p
  | None => trimLocked account ({ p with op_accounts ::= insert account new_account })
  end.
Definition on_account account (f : ocProxyAccount -> ocProxyAccount) p : ocProxyPool :=
  { p with op_accounts ::= alter f account }.

(** The writes to the database that follow an update. *)
Inductive Save :=
| SaveSuccess (account : string) (now : Z) (probe prune : bool)
| SaveRealFailure (account : string)
| SaveCooldown (account : string) (until : Z) (prune : bool).

Definition succeeded (now : Z) a : ocProxyAccount :=
  { a with oa_verified := true; oa_lastSuccessAt := now; oa_cooldownUntil := zero_time; oa_consecutiveFailures := 0 }.
Definition markOpencodeProxySuccessForKey (load_now now prune_now : Z) (rows : option (list AccountRow)) account (probe : bool) p
    : ocProxyPool * list Save :=
  let p := ensure_account account (loadOpencodeProxyPoolForKey load_now rows p) in
  let p := on_account account (succeeded now) p in
  let '(prune, p) := needsPrune prune_now p in
  (p, [SaveSuccess account now probe prune]).

(** [time.Duration(seconds) * time.Second] is a 64-bit product. *)
Definition opencodeRejectCooldown (retryAfter : string) (now : Z) : Z :=
  let midnight := now - now mod day + day in
  let fallback := if (0 <? midnight - now) && (midnight - now <? ocProxyRejectedCooldown) then midnight - now
                  else ocProxyRejectedCooldown in
  match Atoi (TrimSpace retryAfter) with
  | Some seconds =>
      if 0 <? seconds then
        let cooldown := wrap64 (seconds * second) in
        if cooldown <? ocProxyRejectedCooldown then cooldown else ocProxyRejectedCooldown
      else fallback
  | None => fallback
  end.

Definition cooled (until : Z) a : ocProxyAccount :=
  { a with oa_cooldownUntil := until; oa_consecutiveFailures := 0; oa_failureWindowStart := zero_time; oa_failureWindowCount := 0 }.
Definition markOpencodeProxyCooldownForKey (load_now now prune_now : Z) (rows : option (list AccountRow)) account (cooldown : Z) p
    : ocProxyPool * list Save :=
  let p := ensure_account account (loadOpencodeProxyPoolForKey load_now rows p) in
  let until := now + cooldown in
  let p := on_account account (cooled until) p in
  let '(prune, p) := needsPrune prune_now p in
  (p, [SaveCooldown account until prune]).

Definition count_failure (now : Z) a : ocProxyAccount :=
  let a := { a with oa_consecutiveFailures ::= Z.add 1 } in
  if (oa_failureWindowStart a =? zero_time) || (ocProxyFailureWindow <? now - oa_failureWindowStart a)
  then { a with oa_failureWindowStart := now; oa_failureWindowCount := 1 }
  else { a with oa_failureWindowCount ::= Z.add 1 }.

(** The account after a real failure, and the cooldown it earned. *)
Definition real_failure (now : Z) a : Z * ocProxyAccount :=
  if now <? oa_cooldownUntil a then (0, a)
  else
    let a := count_failure now a in
    if ocProxyFailureWindowLimit <=? oa_failureWindowCount a then
      let cooldown := opencodeRejectCooldown "" now in
      (cooldown, cooled (now + cooldown) a)
    else (0, a).
Definition markOpencodeProxyRealFailureForKey (load_now now later prune_now : Z) (rows : option (list AccountRow)) account p
    : ocProxyPool * list Save :=
  let p := ensure_account account (loadOpencodeProxyPoolForKey load_now rows p) in
  let cooldown := default 0 (fst ∘ real_failure now <$> op_accounts p !! account) in
  let p := on_account account (snd ∘ real_failure now) p in
  if 0 <? cooldown then
    let '(p, saves) := markOpencodeProxyCooldownForKey load_now later prune_now rows account cooldown p in
    (p, SaveRealFailure account :: saves)
  else (p, [SaveRealFailure account]).

Definition banOpencodeProxyAccountForKey (load_now now : Z) (rows : option (list AccountRow)) session account p : ocProxyPool :=
  let p := loadOpencodeProxyPoolForKey load_now rows p in
  let p := { p with op_sessionBanned ::= insert session (<[account := now]> (banned_for session p)) } in
  match op_sessionBound p !! session with
  | Some (bound, _) => if bool_decide (bound = account) then { p with op_sessionBound ::= delete session } else p
  | None => p
  end.

Definition markOpencodeProxyRejectedForKey (load_now now later prune_now : Z) (rows : option (list AccountRow)) account
    (retryAfter : string) p : ocProxyPool * list Save :=
  markOpencodeProxyCooldownForKey load_now later prune_now rows account (opencodeRejectCooldown retryAfter now) p.

Definition recordRateLimitedLocked session (now : Z) p : bool * ocProxyPool :=
  let p := pruneLocked now p in
  let p := { p with op_rateLimited ::= insert session now } in
  if Z.of_nat (size (op_rateLimited p)) <? ocProxy429Quorum then (false, p)
  else (true, { p with op_rateLimited := ∅ }).

Definition markOpencodeProxyRateLimitedForKey (load_now now later prune_now : Z) (rows : option (list AccountRow))
    account session (retryAfter : string) p : ocProxyPool * list Save :=
  let cool := markOpencodeProxyCooldownForKey load_now later prune_now rows account (opencodeRejectCooldown retryAfter now) in
  if bool_decide (session = "") then cool p
  else
    let p := loadOpencodeProxyPoolForKey load_now rows p in
    let '(quorum, p) := recordRateLimitedLocked session now p in
    if (quorum : bool) then cool p else (p, []).
End pool.

(** ** The account pool: properties

    An account serves one session at a time, the choice of an account is the best
    one the session may use, and a cooldown ends where the quota is renewed. *)

From coqutil Require Export Datatypes.RecordSetters.

(** ** Cooldowns *)

Lemma day_pos : 0 < day. Proof. done. Qed.

Definition next_midnight (now : Z) : Z := now - now mod day + day.

Lemma next_midnight_spec now : now < next_midnight now <= now + day /\ next_midnight now mod day = 0.
Proof.
  unfold next_midnight. pose proof (Z.mod_pos_bound now day day_pos). split; [lia|].
  rewrite (Z.div_mod now day) at 1 by done.
  replace (_ - _ + _) with ((now / day + 1) * day) by lia. by apply Z.mod_mul.
Qed.

(** The cooldown of a refused account.  Without a usable Retry-After it ends at
    the next midnight UTC, when the quota of the free tier is renewed; with one of
    at most 9223372036 seconds it lasts as long as the upstream asks, and a day at
    most.  It is never empty. *)
Theorem reject_cooldown_bounded retryAfter now :
  let cooldown := opencodeRejectCooldown retryAfter now in
  match Atoi (TrimSpace retryAfter) with
  | Some seconds =>
      if 0 <? seconds then seconds <= 9223372036 -> cooldown = Z.min (seconds * second) day /\ 0 < cooldown <= day
      else now + cooldown = next_midnight now /\ 0 < cooldown <= day
  | None => now + cooldown = next_midnight now /\ 0 < cooldown <= day
  end.
Proof.
  cbv zeta. unfold opencodeRejectCooldown. fold (next_midnight now). pose proof (next_midnight_spec now) as [Hm _].
  set (fallback := if (0 <? next_midnight now - now) && _ then _ else _).
  assert (Hf : now + fallback = next_midnight now /\ 0 < fallback <= day).
  { unfold fallback, ocProxyRejectedCooldown. case_ifs; lia. }
  clearbody fallback. destruct (Atoi _) as [seconds|]; [|done]. destruct (0 <? seconds) eqn:Hs; [|done]. intros Hle.
  rewrite wrap64_id by (unfold minInt64, maxInt64, second; lia). unfold ocProxyRejectedCooldown.
  destruct (seconds * second <? day) eqn:Hc; unfold day, second in *; lia.
Qed.

(** Beyond that the product overflows, and the account is not cooled at all. *)
Lemma huge_retry_after now : opencodeRejectCooldown "9223372037" now < 0.
Proof. by vm_compute. Qed.

(** ** Choosing the best *)

Lemma candidate_irrefl a : ocProxyCandidateBetter a a = false.
Proof. unfold ocProxyCandidateBetter. rewrite Z.eqb_refl, eqb_reflx. cbn. destruct (oa_verified a); [cbn; lia|done]. Qed.
Lemma candidate_trans x b c :
  ocProxyCandidateBetter x b = true -> ocProxyCandidateBetter c b = false -> ocProxyCandidateBetter c x = false.
Proof.
  unfold ocProxyCandidateBetter.
  destruct (oa_verified x), (oa_verified b), (oa_verified c); cbn; case_ifs; cbn; intros; lia.
Qed.

Section pool.
Context `{ord : !MapOrder string}.
Implicit Types (p : ocProxyPool) (a : ocProxyAccount) (session account : string) (now : Z).

(** The members of a pool after each small step. *)
Lemma prune_accounts now p : op_accounts (pruneLocked now p) = op_accounts p. Proof. by destruct p. Qed.
Lemma bind_accounts now session account p : op_accounts (bind_session now session account p) = op_accounts p.
Proof. unfold bind_session. case_ifs; by destruct p. Qed.

Definition room p : Prop := Z.of_nat (size (op_accounts p)) <= ocProxyMaxAccounts.

Lemma trim_room keep p : room p -> trimLocked keep p = p.
Proof.
  intros Hr. unfold trimLocked. destruct (size _) eqn:Hn; [done|]. cbn [trim_loop]. unfold room in Hr.
  destruct (_ <=? _) eqn:Hl; [done|lia].
Qed.

(** Which account a session gets.  It keeps its account while that one is
    usable, free of other sessions and not taken from it; otherwise it gets an
    account that is, and none of those is better; only when there is none, a new
    one.  The session is bound to what it got. *)
Theorem pick_best_account now session fresh p :
  let q := pruneLocked now p in
  let '(account, p') := pickLocked now session fresh p in
  (session ≠ "" -> op_sessionBound p' !! session = Some (account, now)) /\
  match bound_usable now session q with
  | Some bound => account = bound
  | None =>
      (exists a, op_accounts p !! account = Some a /\ candidate now session q (account, a) = true /\
        forall other b, op_accounts p !! other = Some b -> candidate now session q (other, b) = true ->
          ocProxyCandidateBetter b a = false) \/
      (account = fresh /\ forall other b, op_accounts p !! other = Some b -> candidate now session q (other, b) = false)
  end.
Proof.
  cbv zeta. unfold pickLocked.
  assert (Hbind : forall account p, session ≠ "" -> op_sessionBound (bind_session now session account p) !! session = Some (account, now)).
  { intros account [] Hs. unfold bind_session. rewrite bool_decide_false by done. cbn. apply lookup_insert_eq. }
  destruct (bound_usable now session (pruneLocked now p)) as [bound|]; [by split; [apply Hbind|]|].
  pose proof (keep_best_spec (candidate now session (pruneLocked now p)) ocProxyCandidateBetter
    (map_order (op_accounts (pruneLocked now p))) candidate_irrefl candidate_trans) as Hk. rewrite !prune_accounts in *.
  destruct (keep_best _ _ _) as [[account a]|].
  - split; [apply Hbind|]. left. destruct Hk as (Hin & He & Hall). rewrite elem_of_map_order in Hin. exists a. split; [done|].
    split; [done|]. intros other b Ho Hb. apply (Hall (other, b)); [by rewrite elem_of_map_order|done].
  - split; [apply Hbind|]. right. split; [done|]. intros other b Ho. apply Hk. by rewrite elem_of_map_order.
Qed.

(** ** Leases

    A lease is an account handed out for a session until the context of the
    request ends.  [Lease] lists those that have not been given back. *)

Definition Lease : Type := string * string.
Definition held_for session account (l : Lease) : bool := bool_decide (l.1 = account) && bool_decide (l.2 = session).
Definition account_leases (leases : list Lease) account : Z :=
  Z.of_nat (length (filter (fun l : Lease => l.1 = account) leases)).
Definition session_leases (leases : list Lease) account session : Z :=
  Z.of_nat (length (filter (fun l : Lease => l = (account, session)) leases)).

(** The counters of one account against the leases on it. *)
Record account_ok (leases : list Lease) account a : Prop := {
  ao_active : oa_active a = account_leases leases account;
  ao_limit : oa_active a <= ocProxyPerAccountLimit;
  ao_sessions : forall session, oa_sessions a !! session =
    if decide (session = "" \/ session_leases leases account session = 0) then None
    else Some (session_leases leases account session);
  ao_one : Z.of_nat (size (oa_sessions a)) <= ocProxyPerAccountSessions;
}.

Record pool_ok p (leases : list Lease) : Prop := {
  po_fresh : op_loaded p = false -> op_accounts p = ∅ /\ leases = [];
  po_accounts : forall account a, op_accounts p !! account = Some a -> account_ok leases account a;
  po_leases : forall l, l ∈ leases -> is_Some (op_accounts p !! l.1);
}.

Inductive pool_step : ocProxyPool * list Lease -> ocProxyPool * list Lease -> Prop :=
| ps_pick load_now now rows keyID session fresh p leases picked p' :
    Z.of_nat (size (op_accounts (loadOpencodeProxyPoolForKey load_now rows p))) < ocProxyMaxAccounts ->
    op_accounts (loadOpencodeProxyPoolForKey load_now rows p) !! fresh = None ->
    pickOpencodeProxyAccountForKey load_now now rows keyID session fresh p = (picked, p') ->
    pool_step (p, leases) (p', match picked with Some account => (account, session) :: leases | None => leases end)
| ps_release account session p leases before after :
    leases = before ++ (account, session) :: after ->
    pool_step (p, leases) (releaseOpencodeProxyAccountForKey account session p, before ++ after)
| ps_success load_now now prune_now rows account probe p leases :
    Z.of_nat (size (op_accounts (loadOpencodeProxyPoolForKey load_now rows p))) < ocProxyMaxAccounts ->
    pool_step (p, leases) ((markOpencodeProxySuccessForKey load_now now prune_now rows account probe p).1, leases)
| ps_failure load_now now later prune_now rows account p leases :
    Z.of_nat (size (op_accounts (loadOpencodeProxyPoolForKey load_now rows p))) < ocProxyMaxAccounts ->
    pool_step (p, leases) ((markOpencodeProxyRealFailureForKey load_now now later prune_now rows account p).1, leases)
| ps_cooldown load_now now prune_now rows account cooldown p leases :
    Z.of_nat (size (op_accounts (loadOpencodeProxyPoolForKey load_now rows p))) < ocProxyMaxAccounts ->
    pool_step (p, leases) ((markOpencodeProxyCooldownForKey load_now now prune_now rows account cooldown p).1, leases)
| ps_limited load_now now later prune_now rows account session retryAfter p leases :
    Z.of_nat (size (op_accounts (loadOpencodeProxyPoolForKey load_now rows p))) < ocProxyMaxAccounts ->
    pool_step (p, leases)
      ((markOpencodeProxyRateLimitedForKey load_now now later prune_now rows account session retryAfter p).1, leases)
| ps_ban load_now now rows session account p leases :
    pool_step (p, leases) (banOpencodeProxyAccountForKey load_now now rows session account p, leases).

(** *** Counting *)

Lemma account_leases_cons l leases account :
  account_leases (l :: leases) account = account_leases leases account + (if decide (l.1 = account) then 1 else 0).
Proof. unfold account_leases. rewrite filter_cons. case_decide; cbn [length]; lia. Qed.
Lemma session_leases_cons l leases account session :
  session_leases (l :: leases) account session = session_leases leases account session + (if decide (l = (account, session)) then 1 else 0).
Proof. unfold session_leases. rewrite filter_cons. case_decide; cbn [length]; lia. Qed.
Lemma account_leases_perm leases leases' account : leases ≡ₚ leases' -> account_leases leases account = account_leases leases' account.
Proof. intros Hp. unfold account_leases. by rewrite Hp. Qed.
Lemma session_leases_perm leases leases' account session :
  leases ≡ₚ leases' -> session_leases leases account session = session_leases leases' account session.
Proof. intros Hp. unfold session_leases. by rewrite Hp. Qed.
Lemma session_leases_nonneg leases account session : 0 <= session_leases leases account session.
Proof. unfold session_leases. lia. Qed.
Lemma session_leases_in leases account session : (account, session) ∈ leases -> 0 < session_leases leases account session.
Proof.
  intros (before & after & ->)%list_elem_of_split. rewrite (session_leases_perm _ ((account, session) :: before ++ after)) by solve_Permutation.
  rewrite session_leases_cons, decide_True by done. pose proof (session_leases_nonneg (before ++ after) account session). lia.
Qed.

Lemma account_ok_perm leases leases' account a : leases ≡ₚ leases' -> account_ok leases account a -> account_ok leases' account a.
Proof.
  intros Hp [Ha Hl Hs Ho]. split; [by rewrite <- (account_leases_perm leases)|done| |done].
  intros session. rewrite Hs. by rewrite (session_leases_perm _ _ _ _ Hp).
Qed.

Lemma filter_none {A} (P : A -> Prop) `{!forall x, Decision (P x)} l : (forall x, x ∈ l -> ~ P x) -> filter P l = [].
Proof.
  induction l as [|x l IH]; intros Hn; [done|]. rewrite filter_cons, decide_False by (apply Hn; left).
  apply IH. intros y Hy. apply Hn. by right.
Qed.

Lemma account_ok_none leases account : (forall l, l ∈ leases -> l.1 ≠ account) -> account_ok leases account new_account.
Proof.
  intros Hn. assert (Ha : account_leases leases account = 0).
  { unfold account_leases. by rewrite filter_none. }
  assert (Hs : forall session, session_leases leases account session = 0).
  { intros session. unfold session_leases. rewrite filter_none; [done|].
    intros l Hl ->. by apply (Hn _ Hl). }
  split; cbn; [done|done| |done]. intros session. by rewrite decide_True by auto.
Qed.

(** Everything but the counters may change. *)
Definition same_counters a a' : Prop := oa_active a' = oa_active a /\ oa_sessions a' = oa_sessions a.
Lemma account_ok_same leases account a a' : same_counters a a' -> account_ok leases account a -> account_ok leases account a'.
Proof. intros [Ha Hs] [H1 H2 H3 H4]. split; rewrite ?Ha, ?Hs; done. Qed.

(** *** Every operation keeps the account *)

Lemma pool_ok_same p p' leases :
  op_accounts p' = op_accounts p -> op_loaded p' = op_loaded p -> pool_ok p leases -> pool_ok p' leases.
Proof. intros Ha Hl [H1 H2 H3]. split; rewrite ?Ha, ?Hl; done. Qed.

Lemma load_loaded now rows p : op_loaded (loadOpencodeProxyPoolForKey now rows p) = true.
Proof. unfold loadOpencodeProxyPoolForKey. destruct p as [[] ? ? ? ? ?]; [done|]. by destruct rows. Qed.

Lemma load_ok now rows p leases : pool_ok p leases -> pool_ok (loadOpencodeProxyPoolForKey now rows p) leases.
Proof.
  intros [Hf Ha Hl]. unfold loadOpencodeProxyPoolForKey. destruct p as [loaded last accounts bound banned limited]. cbn in *.
  destruct loaded; [by split|]. destruct (Hf eq_refl) as [-> ->]. clear.
  assert (Hs : forall (rows : list AccountRow) (accounts : gmap string ocProxyAccount), (forall account a, accounts !! account = Some a -> account_ok [] account a) ->
            forall account a, foldl (fun accounts row => <[ar_Account row := loaded_account now row]> accounts) accounts rows !! account = Some a ->
            account_ok [] account a).
  { clear. induction rows as [|row rows IH]; intros accounts Hacc; [done|]. cbn [foldl]. apply IH. intros account a.
    rewrite lookup_insert. case_decide; [|apply Hacc]. intros [= <-]. eapply account_ok_same; [|apply account_ok_none].
    - done.
    - by intros l Hl%elem_of_nil. }
  destruct rows as [rows|]; split; cbn; try done; try (by intros l Hl%elem_of_nil).
  intros account a. by apply Hs.
Qed.

Lemma on_account_ok account f p leases :
  (forall a, same_counters a (f a)) -> pool_ok p leases -> pool_ok (on_account account f p) leases.
Proof.
  intros Hf [H1 H2 H3]. destruct p as [loaded last accounts bound banned limited]. cbn in *. split; cbn.
  - intros Hl. destruct (H1 Hl) as [-> ->]. split; [|done]. apply alter_empty.
  - intros other a. destruct (decide (account = other)) as [->|]; [|rewrite lookup_alter_ne by done; apply H2].
    rewrite lookup_alter_eq. intros (a0 & Ha & ->)%fmap_Some. eapply account_ok_same; [apply Hf|]. by apply H2.
  - intros l Hl. rewrite lookup_alter_is_Some. by apply H3.
Qed.

Lemma add_account_ok account p leases :
  op_loaded p = true -> op_accounts p !! account = None -> pool_ok p leases ->
  pool_ok ({ p with op_accounts ::= insert account new_account }) leases.
Proof.
  intros Hl Hn [H1 H2 H3]. destruct p as [loaded last accounts bound banned limited]. cbn in *. split; cbn; [congruence| |].
  - intros other a. rewrite lookup_insert. case_decide as Hd; [|apply H2]. intros [= <-]. subst other. apply account_ok_none.
    intros l Hin Heq. destruct (H3 l Hin) as [a Ha]. rewrite Heq, Hn in Ha. done.
  - intros l Hin. rewrite lookup_insert_is_Some'. right. by apply H3.
Qed.

Lemma room_insert account p : Z.of_nat (size (op_accounts p)) < ocProxyMaxAccounts ->
  room ({ p with op_accounts ::= insert account new_account }).
Proof.
  intros Hr. unfold room. destruct p as [loaded last accounts bound banned limited]. cbn in *.
  destruct (decide (is_Some (accounts !! account))) as [Hs|Hs].
  - rewrite map_size_insert_Some by done. lia.
  - rewrite map_size_insert_None by (by apply eq_None_not_Some). lia.
Qed.

(** Nothing has to be evicted for the account. *)
Definition roomy account p : Prop :=
  Z.of_nat (size (op_accounts p)) < ocProxyMaxAccounts \/ is_Some (op_accounts p !! account).

Lemma ensure_ok account p leases :
  op_loaded p = true -> roomy account p -> pool_ok p leases -> pool_ok (ensure_account account p) leases.
Proof.
  intros Hl Hr Hok. unfold ensure_account. destruct (op_accounts p !! account) eqn:Ha; [done|].
  destruct Hr as [Hr|[? ?]]; [|congruence]. rewrite trim_room by (by apply room_insert). by apply add_account_ok.
Qed.

Lemma needs_prune_ok now p leases : pool_ok p leases -> pool_ok (needsPrune now p).2 leases.
Proof. intros Hok. unfold needsPrune. case_ifs; [done|]. eapply pool_ok_same; [..|exact Hok]; by destruct p. Qed.

Lemma succeeded_same now a : same_counters a (succeeded now a). Proof. by destruct a. Qed.
Lemma cooled_same until a : same_counters a (cooled until a). Proof. by destruct a. Qed.
Lemma failure_same now a : same_counters a (real_failure now a).2.
Proof. unfold real_failure, count_failure, cooled. destruct a. cbn. case_ifs; done. Qed.

Lemma cooldown_ok load_now now prune_now rows account cooldown p leases :
  roomy account (loadOpencodeProxyPoolForKey load_now rows p) -> pool_ok p leases ->
  pool_ok (markOpencodeProxyCooldownForKey load_now now prune_now rows account cooldown p).1 leases.
Proof.
  intros Hr Hok. unfold markOpencodeProxyCooldownForKey. cbv zeta.
  match goal with |- context [needsPrune ?n ?q] => pose proof (needs_prune_ok n q leases) as Hp; destruct (needsPrune n q) end.
  apply Hp, on_account_ok; [intros; apply cooled_same|]. apply ensure_ok; [apply load_loaded|done|]. by apply load_ok.
Qed.

Lemma load_id now rows p : op_loaded p = true -> loadOpencodeProxyPoolForKey now rows p = p.
Proof. unfold loadOpencodeProxyPoolForKey. by intros ->. Qed.

Lemma ensure_known account p :
  Z.of_nat (size (op_accounts p)) < ocProxyMaxAccounts -> is_Some (op_accounts (ensure_account account p) !! account).
Proof.
  intros Hr. unfold ensure_account. destruct (op_accounts p !! account) eqn:Ha; [by rewrite Ha; eauto|].
  rewrite trim_room by (by apply room_insert). destruct p. cbn in *. rewrite lookup_insert_eq. eauto.
Qed.
Lemma ensure_loaded account p :
  Z.of_nat (size (op_accounts p)) < ocProxyMaxAccounts -> op_loaded (ensure_account account p) = op_loaded p.
Proof.
  intros Hr. unfold ensure_account. destruct (op_accounts p !! account) eqn:Ha; [done|].
  rewrite trim_room by (by apply room_insert). by destruct p.
Qed.

Lemma account_success_ok load_now now prune_now rows account probe p leases :
  Z.of_nat (size (op_accounts (loadOpencodeProxyPoolForKey load_now rows p))) < ocProxyMaxAccounts -> pool_ok p leases ->
  pool_ok (markOpencodeProxySuccessForKey load_now now prune_now rows account probe p).1 leases.
Proof.
  intros Hr Hok. unfold markOpencodeProxySuccessForKey. cbv zeta.
  match goal with |- context [needsPrune ?n ?q] => pose proof (needs_prune_ok n q leases) as Hp; destruct (needsPrune n q) end.
  apply Hp, on_account_ok; [intros; apply succeeded_same|]. apply ensure_ok; [apply load_loaded|by left|]. by apply load_ok.
Qed.

Lemma real_failure_ok load_now now later prune_now rows account p leases :
  Z.of_nat (size (op_accounts (loadOpencodeProxyPoolForKey load_now rows p))) < ocProxyMaxAccounts -> pool_ok p leases ->
  pool_ok (markOpencodeProxyRealFailureForKey load_now now later prune_now rows account p).1 leases.
Proof.
  intros Hr Hok. unfold markOpencodeProxyRealFailureForKey. cbv zeta.
  set (q := ensure_account account _). assert (Hq : pool_ok q leases).
  { apply ensure_ok; [apply load_loaded|by left|]. by apply load_ok. }
  assert (Hk : is_Some (op_accounts q !! account)) by (by apply ensure_known).
  assert (Hl : op_loaded q = true) by (unfold q; rewrite ensure_loaded by done; apply load_loaded).
  pose proof (on_account_ok account (snd ∘ real_failure now) q leases (failure_same now) Hq) as Hf.
  case_match; [|done].
  match goal with |- context [markOpencodeProxyCooldownForKey ?a ?b ?c ?d ?e ?f ?g] =>
    pose proof (cooldown_ok a b c d e f g leases) as Hp; destruct (markOpencodeProxyCooldownForKey a b c d e f g) end.
  apply Hp; [|done]. rewrite load_id by (by destruct q). right. destruct q. cbn in *. rewrite lookup_alter_eq. by apply fmap_is_Some.
Qed.

Lemma limited_ok load_now now later prune_now rows account session retryAfter p leases :
  Z.of_nat (size (op_accounts (loadOpencodeProxyPoolForKey load_now rows p))) < ocProxyMaxAccounts -> pool_ok p leases ->
  pool_ok (markOpencodeProxyRateLimitedForKey load_now now later prune_now rows account session retryAfter p).1 leases.
Proof.
  intros Hr Hok. unfold markOpencodeProxyRateLimitedForKey. cbv zeta. case_bool_decide; [apply cooldown_ok; [by left|done]|].
  assert (Hrec : forall q, op_accounts (recordRateLimitedLocked session now q).2 = op_accounts q /\
                           op_loaded (recordRateLimitedLocked session now q).2 = op_loaded q).
  { intros []. unfold recordRateLimitedLocked. cbn. by case_ifs. }
  destruct (Hrec (loadOpencodeProxyPoolForKey load_now rows p)) as [Ha Hl].
  destruct (recordRateLimitedLocked _ _ _) as [quorum q]. cbn in Ha, Hl.
  assert (Hq : pool_ok q leases) by (eapply pool_ok_same; [exact Ha|exact Hl|by apply load_ok]).
  destruct quorum; [|done]. apply cooldown_ok; [|done]. left. rewrite load_id by (by rewrite Hl, load_loaded). by rewrite Ha.
Qed.

Lemma ban_ok load_now now rows session account p leases :
  pool_ok p leases -> pool_ok (banOpencodeProxyAccountForKey load_now now rows session account p) leases.
Proof.
  intros Hok%(load_ok load_now rows). unfold banOpencodeProxyAccountForKey. cbv zeta.
  eapply pool_ok_same; [..|exact Hok]; destruct (loadOpencodeProxyPoolForKey load_now rows p); cbn; by case_ifs.
Qed.

(** *** Handing out and giving back *)

Lemma account_ok_other l leases account a : l.1 ≠ account -> account_ok (l :: leases) account a <-> account_ok leases account a.
Proof.
  intros Hn. assert (Ha : account_leases (l :: leases) account = account_leases leases account).
  { rewrite account_leases_cons, decide_False by done. lia. }
  assert (Hs : forall session, session_leases (l :: leases) account session = session_leases leases account session).
  { intros session. rewrite session_leases_cons, decide_False; [lia|]. by intros ->. }
  split; intros [H1 H2 H3 H4]; split; try done; try (by rewrite ?Ha in *; rewrite H1, ?Ha).
  - intros session. by rewrite <- Hs.
  - intros session. by rewrite Hs.
Qed.

Lemma sessions_one (m : gmap string Z) (s t : string) (u v : Z) : Z.of_nat (size m) <= 1 -> m !! s = Some u -> m !! t = Some v -> s = t.
Proof.
  intros Hm Hs Ht. destruct (decide (s = t)) as [|Hn]; [done|]. exfalso.
  rewrite <- (insert_delete_id m s u), map_size_insert_None in Hm by (done || apply lookup_delete_eq).
  assert (Hd : delete s m !! t = Some v) by (by rewrite lookup_delete_ne).
  destruct (size (delete s m)) eqn:Hz; [|lia]. apply map_size_empty_inv in Hz. by rewrite Hz in Hd.
Qed.

(** What a pick asks of an account, as far as leases are concerned. *)
Definition can_take session a : Prop := oa_active a < ocProxyPerAccountLimit /\ ocProxySessionAvailable a session = true.
Lemma usable_takes now session a : ocProxyUsable a now && ocProxySessionAvailable a session = true -> can_take session a.
Proof. intros [Hu Hs]%andb_true_iff. split; [|done]. unfold ocProxyUsable in Hu. case_ifs; lia. Qed.
Lemma new_takes session : can_take session new_account.
Proof. split; [done|]. unfold ocProxySessionAvailable. cbn. by case_bool_decide. Qed.

Lemma occupy_ok leases account session a :
  account_ok leases account a -> can_take session a ->
  account_ok ((account, session) :: leases) account (occupy session a).
Proof.
  intros [Ha Hlim Hs Ho] [Hroom Hav]. 
  unfold occupy. destruct a as [last until active sessions verified fails wstart wcount]. cbn in *.
  assert (Hact : 1 + active = account_leases ((account, session) :: leases) account).
  { rewrite account_leases_cons, decide_True by done. lia. }
  unfold ocProxySessionAvailable in Hav. cbn in Hav. case_bool_decide as Hsess; cbn.
  - split; cbn; [done|lia| |done]. intros t. rewrite Hs, session_leases_cons.
    destruct (decide (t = "")) as [->|Ht]; [by rewrite !decide_True by auto|].
    rewrite (decide_False (P := _ = _)) by (intros [= <-]; done). by rewrite Z.add_0_r.
  - assert (Hdef : sessions.[session] = session_leases leases account session).
    { rewrite Hs. case_decide as Hd; [|done]. destruct Hd as [?|Hd]; [done|]. by rewrite Hd. }
    split; cbn; [done|lia| |].
    + intros t. rewrite lookup_insert, session_leases_cons. case_decide as Ht.
      * subst t. rewrite (decide_True (P := _ = _)) by done. rewrite Hdef. pose proof (session_leases_nonneg leases account session).
        rewrite decide_False; [done|]. intros [?|?]; [done|lia].
      * rewrite (decide_False (P := _ = _)) by (by intros [= ->]). by rewrite Z.add_0_r, Hs.
    + unfold ocProxyPerAccountSessions in *. destruct (_ <? _) eqn:H1 in Hav; [done|].
      destruct (0 <? sessions.[session]) eqn:H2 in Hav.
      * rewrite map_size_insert_Some; [lia|]. destruct (sessions !! session); [eauto|cbn in H2; lia].
      * rewrite map_size_insert. destruct (sessions !! session); cbn; lia.
Qed.

Lemma vacate_ok leases account session a :
  account_ok ((account, session) :: leases) account a -> account_ok leases account (vacate session a).
Proof.
  intros [Ha Hlim Hs Ho]. unfold vacate. destruct a as [last until active sessions verified fails wstart wcount]. cbn in *.
  assert (Hact : active = account_leases leases account + 1) by (rewrite Ha, account_leases_cons, decide_True by done; lia).
  assert (Hnn : 0 <= account_leases leases account) by (unfold account_leases; lia).
  rewrite (proj2 (Z.ltb_lt 0 active)) by lia.
  assert (Hsl : forall t, session_leases ((account, session) :: leases) account t
                          = session_leases leases account t + (if decide (session = t) then 1 else 0)).
  { intros t. rewrite session_leases_cons. f_equal. case_decide as H1; case_decide as H2; try done; [by injection H1 as ->|by subst]. }
  pose proof (session_leases_nonneg leases account session) as Hn. case_bool_decide as Hsess; cbn.
  - split; cbn; [lia|lia| |done]. intros t. rewrite Hs, Hsl.
    destruct (decide (session = t)) as [<-|Ht]; [by rewrite !decide_True by auto|by rewrite Z.add_0_r].
  - assert (Hc : sessions !! session = Some (session_leases leases account session + 1)).
    { rewrite Hs, Hsl, (decide_True (P := session = session)) by done. rewrite decide_False; [done|]. intros [?|?]; [done|lia]. }
    rewrite Hc. cbn [from_option]. unfold id. destruct (1 <? _) eqn:H1; split; cbn; try lia.
    + intros t. rewrite lookup_insert. case_decide as Ht.
      * subst t. rewrite decide_False; [f_equal; rewrite ?Hc; cbn; unfold id; lia|]. intros [?|?]; [done|lia].
      * rewrite Hs, Hsl, (decide_False (P := session = t)) by done. by rewrite Z.add_0_r.
    + rewrite map_size_insert_Some by eauto. done.
    + intros t. rewrite lookup_delete. case_decide as Ht.
      * subst t. rewrite decide_True by (right; lia). done.
      * rewrite Hs, Hsl, (decide_False (P := session = t)) by done. by rewrite Z.add_0_r.
    + pose proof (map_size_delete session sessions). rewrite Hc in *. cbn in *. lia.
Qed.

(** The accounts other than the one a lease is on do not notice it. *)
Lemma lease_ok account f l leases leases' p :
  l.1 = account -> (leases' = l :: leases \/ leases = l :: leases') ->
  op_loaded p = true -> is_Some (op_accounts p !! account) ->
  (forall a, op_accounts p !! account = Some a -> account_ok leases account a -> account_ok leases' account (f a)) ->
  pool_ok p leases -> pool_ok (on_account account f p) leases'.
Proof.
  intros Hl Hls Hload Hk Hf [H1 H2 H3]. destruct p as [loaded last accounts bound banned limited]. cbn in *. split; cbn; [congruence| |].
  - intros other a. destruct (decide (account = other)) as [<-|Hne].
    + rewrite lookup_alter_eq. intros (a0 & Ha & ->)%fmap_Some. auto.
    + rewrite lookup_alter_ne by done. intros Ha. specialize (H2 other a Ha).
      destruct Hls as [->|Hls]; [apply account_ok_other; [congruence|done]|].
      rewrite Hls in H2. apply account_ok_other in H2; [done|congruence].
  - intros l' Hin. rewrite lookup_alter_is_Some. destruct Hls as [->|Hls].
    + apply elem_of_cons in Hin as [->|Hin]; [by rewrite Hl|by apply H3].
    + apply H3. rewrite Hls. by right.
Qed.

Lemma pool_ok_perm p leases leases' : leases ≡ₚ leases' -> pool_ok p leases -> pool_ok p leases'.
Proof.
  intros Hp [H1 H2 H3]. split.
  - intros Hl. destruct (H1 Hl) as [Ha ->]. split; [done|]. by apply Permutation_nil.
  - intros account a Ha. eapply account_ok_perm; eauto.
  - intros l Hl. apply H3. by rewrite Hp.
Qed.

Lemma account_release_ok account session p leases :
  pool_ok p ((account, session) :: leases) -> pool_ok (releaseOpencodeProxyAccountForKey account session p) leases.
Proof.
  intros Hok. apply (lease_ok account (vacate session) (account, session) ((account, session) :: leases)); try done.
  - by right.
  - destruct (op_loaded p) eqn:Hl; [done|]. by destruct (po_fresh _ _ Hok Hl) as [_ [=]].
  - apply (po_leases _ _ Hok (account, session)). left.
  - intros a _. apply vacate_ok.
Qed.

(** What a selection leaves: the account it names can take the session. *)
Definition selected session account p leases : Prop :=
  pool_ok p leases /\ op_loaded p = true /\ exists a, op_accounts p !! account = Some a /\ can_take session a.

Lemma selected_same session account a p p' leases :
  pool_ok p leases -> op_loaded p = true -> op_accounts p !! account = Some a -> can_take session a ->
  op_accounts p' = op_accounts p -> op_loaded p' = op_loaded p -> selected session account p' leases.
Proof. intros Hok Hl Ha Ht Hacc Hl'. split; [by eapply pool_ok_same|]. split; [congruence|]. exists a. by rewrite Hacc. Qed.

Lemma prune_loaded now p : op_loaded (pruneLocked now p) = op_loaded p. Proof. by destruct p. Qed.
Lemma bind_loaded now session account p : op_loaded (bind_session now session account p) = op_loaded p.
Proof. unfold bind_session. case_ifs; by destruct p. Qed.

Lemma pick_selects now session fresh p leases :
  pool_ok p leases -> op_loaded p = true -> Z.of_nat (size (op_accounts p)) < ocProxyMaxAccounts -> op_accounts p !! fresh = None ->
  let '(account, p') := pickLocked now session fresh p in selected session account p' leases.
Proof.
  intros Hok Hl Hr Hn. unfold pickLocked. rewrite prune_accounts. destruct (bound_usable _ _ _) as [bound|] eqn:Hb.
  - unfold bound_usable in Hb. rewrite prune_accounts in Hb. case_bool_decide; [done|].
    destruct (op_sessionBound _ !! session) as [[b at_]|]; [|done]. destruct (is_some _); [done|].
    destruct (op_accounts p !! b) as [a|] eqn:Ha; [|done]. destruct (_ && _) eqn:Hu; [|done]. injection Hb as <-.
    eapply (selected_same _ _ a p); eauto using usable_takes; [by rewrite bind_accounts, prune_accounts|by rewrite bind_loaded, prune_loaded].
  - pose proof (keep_best_spec (candidate now session (pruneLocked now p)) ocProxyCandidateBetter
      (map_order (op_accounts p)) candidate_irrefl candidate_trans) as Hk. destruct (keep_best _ _ _) as [[account a]|].
    + destruct Hk as (Hin & He & _). rewrite elem_of_map_order in Hin. unfold candidate in He. cbn in He.
      do 2 apply andb_true_iff in He as [He _].
      eapply (selected_same _ _ a p); eauto using usable_takes; [by rewrite bind_accounts, prune_accounts|by rewrite bind_loaded, prune_loaded].
    + rewrite trim_room by (apply room_insert; by rewrite prune_accounts).
      pose proof (add_account_ok fresh (pruneLocked now p) leases) as Hadd. rewrite prune_loaded, prune_accounts in Hadd.
      specialize (Hadd Hl Hn). eapply (selected_same _ _ new_account); [apply Hadd; eapply pool_ok_same; [..|exact Hok]; by destruct p|..].
      * by destruct p.
      * destruct p. cbn. by rewrite lookup_insert_eq.
      * apply new_takes.
      * by rewrite bind_accounts.
      * by rewrite bind_loaded.
Qed.

Lemma fixed_selects now session account p leases :
  pool_ok p leases -> op_loaded p = true ->
  let '(picked, p') := pickFixedLocked now session account p in
  match picked with Some account' => selected session account' p' leases | None => pool_ok p' leases end.
Proof.
  intros Hok Hl. unfold pickFixedLocked. cbv zeta. rewrite prune_accounts.
  set (state := default new_account (op_accounts p !! account)).
  match goal with |- context [banned_for session ?r] => set (q := r) end.
  assert (Hq : pool_ok q leases /\ op_loaded q = true /\ op_accounts q !! account = Some state).
  { destruct (op_accounts p !! account) as [a|] eqn:Ha.
    - unfold q, state. destruct p as [? ? accounts ? ? ?]. cbn in *. split; [|split; [done|apply lookup_insert_eq]].
      eapply pool_ok_same; [..|exact Hok]; [cbn; by rewrite insert_id|done].
    - pose proof (add_account_ok account (pruneLocked now p) leases) as Hadd. rewrite prune_loaded, prune_accounts in Hadd.
      split; [apply Hadd; try done; eapply pool_ok_same; [..|exact Hok]; by destruct p|].
      unfold q, state. destruct p. cbn. by rewrite lookup_insert_eq. }
  clearbody q. destruct Hq as (Hq & Hlq & Hs).
  destruct (negb _ || negb _) eqn:Hu; [done|]. apply orb_false_iff in Hu as [Hu%negb_false_iff Hv%negb_false_iff].
  destruct (is_some _); [done|]. eapply (selected_same _ _ state q); try done.
  - eapply usable_takes. by rewrite Hu, Hv.
  - by rewrite bind_accounts.
  - by rewrite bind_loaded.
Qed.

Lemma occupy_selected session account p leases :
  selected session account p leases -> pool_ok (on_account account (occupy session) p) ((account, session) :: leases).
Proof.
  intros (Hok & Hl & a & Ha & Ht). apply (lease_ok account (occupy session) (account, session) leases); eauto.
  intros a' Ha' Hok'. apply occupy_ok; [done|congruence].
Qed.

Lemma account_pick_ok load_now now rows keyID session fresh p leases picked p' :
  Z.of_nat (size (op_accounts (loadOpencodeProxyPoolForKey load_now rows p))) < ocProxyMaxAccounts ->
  op_accounts (loadOpencodeProxyPoolForKey load_now rows p) !! fresh = None ->
  pickOpencodeProxyAccountForKey load_now now rows keyID session fresh p = (picked, p') -> pool_ok p leases ->
  pool_ok p' (match picked with Some account => (account, session) :: leases | None => leases end).
Proof.
  intros Hr Hn Hpick Hok%(load_ok load_now rows). unfold pickOpencodeProxyAccountForKey in Hpick.
  pose proof (load_loaded load_now rows p) as Hl. set (q := loadOpencodeProxyPoolForKey load_now rows p) in *. clearbody q.
  case_bool_decide.
  - pose proof (pick_selects now session fresh q leases Hok Hl Hr Hn) as Hs. destruct (pickLocked _ _ _ _) as [account r].
    injection Hpick as <- <-. by apply occupy_selected.
  - pose proof (fixed_selects now session keyID q leases Hok Hl) as Hs. destruct (pickFixedLocked _ _ _ _) as [[account|] r];
      injection Hpick as <- <-; [by apply occupy_selected|done].
Qed.

Lemma pool_step_ok s s' : pool_step s s' -> pool_ok s.1 s.2 -> pool_ok s'.1 s'.2.
Proof.
  intros Hstep Hok. destruct Hstep; cbn in *.
  - by eapply account_pick_ok.
  - apply account_release_ok. eapply pool_ok_perm; [|exact Hok]. subst leases. solve_Permutation.
  - by apply account_success_ok.
  - by apply real_failure_ok.
  - apply cooldown_ok; [by left|done].
  - by apply limited_ok.
  - by apply ban_ok.
Qed.

Definition pool_reachable s : Prop := rtc pool_step (newOpencodeProxyPool, []) s.

Lemma pool_reachable_ok s : pool_reachable s -> pool_ok s.1 s.2.
Proof.
  assert (Hi : pool_ok newOpencodeProxyPool []).
  { split; [done| |]; [intros account a Ha; done|by intros l Hl%elem_of_nil]. }
  intros Hr. unfold pool_reachable in Hr. revert Hi. change newOpencodeProxyPool with (newOpencodeProxyPool, @nil Lease).1 at 1.
  change (@nil Lease) with (newOpencodeProxyPool, @nil Lease).2 at 2.
  induction Hr as [|x y z Hxy Hyz IH]; [done|]. intros Hi. apply IH. by eapply pool_step_ok.
Qed.

End pool.

(** ** Examples and witnesses *)

(** Two requests of one session share its account. *)
Definition demo_leased : ocProxyPool * list Lease :=
  let '(first, p) := pickOpencodeProxyAccountForKey 0 1 (Some []) "" "s" "opencode01" newOpencodeProxyPool in
  let '(second_, p) := pickOpencodeProxyAccountForKey 0 2 None "" "s" "opencode02" p in
  (p, [(default "" second_, "s"); (default "" first, "s")]).

Lemma eq_rtc {A} (R : relation A) x y : x = y -> rtc R x y.
Proof. by intros ->. Qed.

Lemma demo_leased_reachable : pool_reachable demo_leased.
Proof.
  eapply rtc_l.
  { eapply (ps_pick 0 1 (Some []) "" "s" "opencode01"); [vm_compute; reflexivity|vm_compute; reflexivity|].
    apply surjective_pairing. }
  eapply rtc_l.
  { eapply (ps_pick 0 2 None "" "s" "opencode02"); [vm_compute; reflexivity|vm_compute; reflexivity|].
    apply surjective_pairing. }
  apply eq_rtc. vm_compute. reflexivity.
Qed.


(** The votes that cool an account are counted per pool: a session that met a 429
    on one account and another one that met it on a second cool the second. *)
Lemma votes_are_pooled :
  let '(p, _) := markOpencodeProxyRateLimitedForKey 0 1 1 1 (Some []) "A" "s1" "" newOpencodeProxyPool in
  let '(p, saves) := markOpencodeProxyRateLimitedForKey 0 2 2 2 None "B" "s2" "" p in
  saves = [SaveCooldown "B" (next_midnight 2) false].
Proof. vm_compute. reflexivity. Qed.

(** An account in use may be the first to be evicted. *)
Lemma busy_account_is_evicted :
  let busy := mkAccount zero_time zero_time 1 {[ "s" := 1 ]} false 0 zero_time 0 in
  let idle := mkAccount 5 zero_time 0 ∅ true 0 zero_time 0 in
  fst <$> keep_best (fun kv => negb (bool_decide (kv.1 = "new"))) ocProxyEvictFirst [("busy", busy); ("idle", idle)] = Some "busy".
Proof. reflexivity. Qed.
