(* ===== verification/WarpSlots.v ===== *)
(** * WARP slots

    internal/relay/warp_slots.go: the slots of a WARP container, each with one
    outbound address.  A round leases an idle slot; the first refusals suspend it,
    and the address is given up when the slot falls idle without a success.  Also
    the daily block of a channel, warp_block.go.  Times are nanoseconds. *)

From coqutil Require Export Datatypes.RecordSetters.
Export RecordSetters.OCamlLikeNotations.
From stdpp Require Import pretty.
From S2P Require Import Prelude GoStrings OcPool.

Definition warpSlotsCacheTTL : Z := second.
Definition warpSlotRateLimitWindow : Z := 10 * second.
Definition warpSlotProxySuspect : Z := 2 * second.
Definition warpSlotNetworkSuspect : Z := 5 * second.
Definition warpSlotsRetryCap : Z := 60 * second.
Definition warpSlotSessionTTL : Z := day.

Record warpSlotInfo := mkSlot {
  ws_Slot : Z; ws_Account : string; ws_Egress : string; ws_State : string; ws_InFlight : Z;
  ws_CoolingUntil : string; ws_Generation : Z }.
Record warpSlotsSnapshot := mkSnapshot { wn_Size : Z; wn_Slots : list warpSlotInfo }.
Record warpSlotPending := mkPending {
  wp_channelID : Z; wp_egress : string; wp_generation : Z; wp_succeeded : bool }.

Record warpSlotPool := mkWarpPool {
  wl_fetchedAt : Z; wl_snapshot : warpSlotsSnapshot; wl_reserved : gmap Z Z; wl_suspect : gmap Z Z;
  wl_pending : gmap Z warpSlotPending; wl_next : Z; wl_sessionUsed : gmap string (gmap Z Z) }.
Definition warp_pool_init : warpSlotPool := mkWarpPool zero_time (mkSnapshot 0 []) ∅ ∅ ∅ 0 ∅.

Record warpSlotLease := mkLease {
  le_channelID : Z; le_slot : Z; le_account : string; le_egress : string; le_generation : Z }.

Section slots.
Implicit Types (p : warpSlotPool) (slot : warpSlotInfo) (l : warpSlotLease) (now : Z) (session : string).

(** ** Snapshots *)

(** The numbers of a snapshot must be [0 .. size-1], each once. *)
Fixpoint check_slots (size : Z) (seen : gset Z) (slots : list warpSlotInfo) : bool :=
  match slots with
  | [] => true
  | slot :: slots =>
      negb ((ws_Slot slot <? 0) || (size <=? ws_Slot slot) || bool_decide (ws_Slot slot ∈ seen))
      && bool_decide (ws_Account slot = "warp-" +:+ pretty (ws_Slot slot))
      && check_slots size ({[ws_Slot slot]} ∪ seen) slots
  end.
Definition snapshot_valid (s : warpSlotsSnapshot) : bool :=
  negb ((wn_Size s <=? 0) || negb (Z.of_nat (length (wn_Slots s)) =? wn_Size s)) && check_slots (wn_Size s) ∅ (wn_Slots s).

Definition fresh_at (now : Z) p : bool :=
  negb (wl_fetchedAt p =? zero_time) && (now - wl_fetchedAt p <? warpSlotsCacheTTL).

(** A slot whose address or generation changed is no longer suspect. *)
Definition slot_changed (previous : gmap Z warpSlotInfo) slot : bool :=
  match previous !! ws_Slot slot with
  | Some old => negb (ws_Generation old =? ws_Generation slot) || negb (bool_decide (ws_Egress old = ws_Egress slot))
  | None => false
  end.
Definition install (now : Z) (s : warpSlotsSnapshot) p : warpSlotPool :=
  let previous := foldl (fun m slot => <[ws_Slot slot := slot]> m) ∅ (wn_Slots (wl_snapshot p)) in
  { p with wl_suspect ::= (fun m => foldl (fun m slot => if slot_changed previous slot then delete (ws_Slot slot) m else m) m (wn_Slots s));
           wl_snapshot := s; wl_fetchedAt := now }.

(** [fetched] is the answer of the control API, when it is asked. *)
Definition refresh (check_now now : Z) (fetched : option warpSlotsSnapshot) p : bool * warpSlotPool :=
  if fresh_at check_now p then (true, p)
  else match fetched with
       | Some s => if snapshot_valid s then (true, install now s p) else (false, p)
       | None => (false, p)
       end.
Definition invalidate p : warpSlotPool := { p with wl_fetchedAt := zero_time }.

(** ** Choosing a slot *)

Definition pruneSessionsLocked (now : Z) p : warpSlotPool :=
  { p with wl_sessionUsed ::= omap (fun used : gmap Z Z =>
      let used := filter (younger warpSlotSessionTTL now) used in
      if decide (used = ∅) then None else Some used) }.

Definition load_of p slot : Z := ws_InFlight slot + (wl_reserved p).[ws_Slot slot].
Definition used_slots session p : gmap Z Z := default ∅ (wl_sessionUsed p !! session).

Definition slot_available (now : Z) session p slot : bool :=
  bool_decide (ws_State slot = "active") && negb (bool_decide (ws_Account slot = "")) && negb (bool_decide (ws_Egress slot = ""))
  && negb (0 <? load_of p slot)
  && negb (match wl_suspect p !! ws_Slot slot with Some until => now <? until | None => false end)
  && negb (negb (bool_decide (session = "")) && is_some (used_slots session p !! ws_Slot slot)).

(** The slots with their indices, from [next] on; the first of the least loaded is
    taken. *)
Definition round_trip p : list (nat * warpSlotInfo) :=
  let slots := wn_Slots (wl_snapshot p) in
  let count := Z.of_nat (length slots) in
  offset ← seqZ 0 count;
  let index := Z.to_nat ((wl_next p + offset) mod count) in
  option_list (pair index <$> slots !! index).
Definition best_slot (now : Z) session p : option (nat * warpSlotInfo) :=
  keep_best (fun kv => slot_available now session p kv.2) (fun a b => load_of p a <? load_of p b) (round_trip p).

Definition pickAvailableLocked (now : Z) session p : option warpSlotLease * warpSlotPool :=
  match best_slot now session p with
  | None => (None, p)
  | Some (best, slot) =>
      let count := Z.of_nat (length (wn_Slots (wl_snapshot p))) in
      let p := { p with wl_reserved ::= (fun m => <[ws_Slot slot := m.[ws_Slot slot] + 1]> m);
                        wl_next := (Z.of_nat best + 1) mod count } in
      let p := if bool_decide (session = "") then p
               else { p with wl_sessionUsed ::= insert session (<[ws_Slot slot := now]> (used_slots session p)) } in
      (Some (mkLease 0 (ws_Slot slot) (ws_Account slot) (ws_Egress slot) (ws_Generation slot)), p)
  end.

Section parse.
Context (parse_rfc3339 : string -> option Z).    (** [time.Parse], in nanoseconds *)

Definition deadlines p : list Z :=
  (map_to_list (wl_suspect p)).*2 ++
  (slot ← wn_Slots (wl_snapshot p);
   if bool_decide (ws_State slot = "cooling") && negb (bool_decide (ws_CoolingUntil slot = ""))
   then option_list (parse_rfc3339 (ws_CoolingUntil slot)) else []).

(** [0] means that no deadline lies ahead. *)
Definition consider (now : Z) (retry until : Z) : Z :=
  if now <? until then (if (retry =? 0) || (until - now <? retry) then until - now else retry) else retry.
Definition retryAfterLocked (now : Z) p : Z :=
  let retry := foldl (consider now) 0 (deadlines p) in
  let retry := if retry =? 0 then second else retry in
  let retry := if retry <? second then second else retry in
  if warpSlotsRetryCap <? retry then warpSlotsRetryCap else retry.

(** A lease, or the time after which to try again.  A session that has used every
    slot may use them again. *)
Definition pick (now : Z) session p : (warpSlotLease + Z) * warpSlotPool :=
  let p := pruneSessionsLocked now p in
  match pickAvailableLocked now session p with
  | (Some l, p) => (inl l, p)
  | (None, p) =>
      if bool_decide (session = "") || bool_decide (used_slots session p = ∅) then (inr (retryAfterLocked now p), p)
      else
        let p := { p with wl_sessionUsed ::= delete session } in
        match pickAvailableLocked now session p with
        | (Some l, p) => (inl l, p)
        | (None, p) => (inr (retryAfterLocked now p), p)
        end
  end.
End parse.

(** ** Giving a slot back *)

Definition release_slot (slot : Z) p : warpSlotPool :=
  if (wl_reserved p).[slot] <=? 1 then { p with wl_reserved ::= delete slot }
  else { p with wl_reserved ::= (fun m => <[slot := m.[slot] - 1]> m) }.

(** The calls of [warpPenalizeEgress]. *)
Record Penalty := mkPenalty { pn_egress : string; pn_reason : string; pn_channelID : Z }.

Definition finishPending (slot : Z) p : list Penalty * warpSlotPool :=
  match wl_pending p !! slot with
  | None => ([], p)
  | Some pending =>
      if 0 <? (wl_reserved p).[slot] then ([], p)
      else
        let p := { p with wl_pending ::= delete slot } in
        if wp_succeeded pending then ([], p)
        else ([mkPenalty (wp_egress pending) "429" (wp_channelID pending)], invalidate p)
  end.

(** The body of [sync.Once] in [Release]. *)
Definition Release l p : list Penalty * warpSlotPool := finishPending (le_slot l) (release_slot (le_slot l) p).

(** ** What a round reports *)

Definition MarkSuccess l p : warpSlotPool :=
  let p := { p with wl_suspect ::= delete (le_slot l) } in
  match wl_pending p !! le_slot l with
  | Some pending =>
      if wp_generation pending =? le_generation l
      then { p with wl_pending ::= insert (le_slot l) (mkPending (wp_channelID pending) (wp_egress pending) (wp_generation pending) true) }
      else p
  | None => p
  end.
Definition MarkRateLimited (now : Z) l p : list Penalty * warpSlotPool :=
  finishPending (le_slot l)
    ({ p with wl_suspect ::= insert (le_slot l) (now + warpSlotRateLimitWindow);
              wl_pending ::= insert (le_slot l) (mkPending (le_channelID l) (le_egress l) (le_generation l) false) }).
Definition MarkProxyUnavailable (now : Z) l p : warpSlotPool :=
  invalidate ({ p with wl_suspect ::= insert (le_slot l) (now + warpSlotProxySuspect) }).
Definition MarkNetworkFailure (now : Z) (reason : string) l p : list Penalty * warpSlotPool :=
  ([mkPenalty (le_egress l) reason (le_channelID l)],
   invalidate ({ p with wl_suspect ::= insert (le_slot l) (now + warpSlotNetworkSuspect) })).

(** [pickWarpSlot] behind the derivation of the control address. *)
Definition pickWarpSlot (parse : string -> option Z) (check_now fetch_now now : Z) (fetched : option warpSlotsSnapshot)
    (channelID : Z) session p : (warpSlotLease + Z) * warpSlotPool :=
  let '(refreshed, p) := refresh check_now fetch_now fetched p in
  if (refreshed : bool) then
    let '(result, p) := pick parse now session p in
    (match result with
     | inl l => inl (mkLease channelID (le_slot l) (le_account l) (le_egress l) (le_generation l))
     | inr retry => inr retry
     end, p)
  else (inr second, p).

(** ** The daily block of a channel *)

Definition blockWarpChannelUntilUTC (now channelID : Z) (blocks : gmap Z Z) : gmap Z Z :=
  if channelID <=? 0 then blocks
  else
    let until := now - now mod day + day in
    match blocks !! channelID with
    | Some current => if current <? until then <[channelID := until]> blocks else blocks
    | None => <[channelID := until]> blocks
    end.
Definition warpChannelBlocked (now channelID : Z) (blocks : gmap Z Z) : bool * gmap Z Z :=
  if channelID <=? 0 then (false, blocks)
  else match blocks !! channelID with
       | None => (false, blocks)
       | Some until => if until <=? now then (false, delete channelID blocks) else (true, blocks)
       end.

End slots.

(** ** WARP slots: properties

    A slot is leased once, the choice is the first idle slot the session may use,
    and an address that was rate limited is given up once its slot falls idle. *)

From coqutil Require Export Datatypes.RecordSetters.
From stdpp Require Import pretty.
From S2P Require Import Prelude GoStrings OcPool.

(** ** The choice *)

Section choice.
Implicit Types (p : warpSlotPool) (slot : warpSlotInfo) (now : Z) (session : string).

Lemma elem_of_option {A} (o : option A) x : x ∈ option_list o <-> o = Some x.
Proof. destruct o; cbn; [rewrite list_elem_of_singleton|rewrite elem_of_nil]; naive_solver. Qed.

(** Going round visits every slot. *)
Lemma round_trip_slots p kv : kv ∈ round_trip p <-> wn_Slots (wl_snapshot p) !! kv.1 = Some kv.2.
Proof.
  unfold round_trip. rewrite list_elem_of_bind. split.
  - intros (offset & Hin & _). apply elem_of_option in Hin. destruct kv as [i slot].
    destruct (_ !! Z.to_nat _) eqn:Hl; [|done]. injection Hin as <- <-. exact Hl.
  - destruct kv as [i slot]. cbn. intros Hl. pose proof (lookup_lt_Some _ _ _ Hl) as Hi.
    set (count := Z.of_nat (length (wn_Slots (wl_snapshot p)))) in *.
    exists ((Z.of_nat i - wl_next p) mod count).
    assert (Hm : (wl_next p + (Z.of_nat i - wl_next p) mod count) mod count = Z.of_nat i).
    { rewrite Zplus_mod_idemp_r. replace (_ + _) with (Z.of_nat i) by lia. apply Z.mod_small. lia. }
    rewrite Hm, Nat2Z.id, Hl. split; [by apply elem_of_option|]. apply elem_of_seqZ. pose proof (Z.mod_pos_bound (Z.of_nat i - wl_next p) count). lia.
Qed.

Lemma best_slot_spec now session p :
  match best_slot now session p with
  | Some (i, slot) => wn_Slots (wl_snapshot p) !! i = Some slot /\ slot_available now session p slot = true /\
      forall other, other ∈ wn_Slots (wl_snapshot p) -> slot_available now session p other = true -> load_of p slot <= load_of p other
  | None => forall slot, slot ∈ wn_Slots (wl_snapshot p) -> slot_available now session p slot = false
  end.
Proof.
  pose proof (keep_best_spec (fun kv : nat * warpSlotInfo => slot_available now session p kv.2)
    (fun a b => load_of p a <? load_of p b) (round_trip p) ltac:(intros; cbv beta in *; lia) ltac:(intros; cbv beta in *; lia)) as Hk.
  unfold best_slot. destruct (keep_best _ _ _) as [[i slot]|].
  - destruct Hk as (Hin & Hav & Hall). rewrite round_trip_slots in Hin. split; [done|]. split; [done|].
    intros other [j Hj]%list_elem_of_lookup Ho. specialize (Hall (j, other)). rewrite round_trip_slots in Hall. cbn in *.
    specialize (Hall Hj Ho). lia.
  - intros slot [j Hj]%list_elem_of_lookup. apply (Hk (j, slot)). by rewrite round_trip_slots.
Qed.

Lemma retry_after_bounds parse now p : second <= retryAfterLocked parse now p <= warpSlotsRetryCap.
Proof. unfold retryAfterLocked, warpSlotsRetryCap. cbv zeta. case_ifs; unfold second in *; lia. Qed.

(** The wait that [consider] leaves is the shortest one ahead. *)
Definition shortest now (l : list Z) (retry : Z) : Prop :=
  (retry = 0 /\ forall until, until ∈ l -> until <= now) \/
  (0 < retry /\ now + retry ∈ l /\ forall until, until ∈ l -> now < until -> now + retry <= until).
Lemma consider_shortest now l : shortest now l (foldl (consider now) 0 l).
Proof.
  induction l as [|until l IH] using rev_ind; [left; split; [done|]; by intros ? ?%elem_of_nil|].
  rewrite foldl_app. cbn [foldl]. set (retry := foldl _ 0 l) in *. clearbody retry. unfold consider, shortest in *.
  destruct (now <? until) eqn:Hu.
  - destruct IH as [[-> Hall]|(Hp & Hin & Hall)].
    + cbn. right. split; [lia|]. split; [replace (now + (until - now)) with until by lia; set_solver|].
      intros u [Hin| ->]%elem_of_snoc Hlt; [|lia]. specialize (Hall u Hin). lia.
    + rewrite (proj2 (Z.eqb_neq retry 0)) by lia. cbn [orb]. right. destruct (until - now <? retry) eqn:Hlt.
      * split; [lia|]. split; [replace (now + (until - now)) with until by lia; set_solver|].
        intros u [Hu'| ->]%elem_of_snoc Hn; [|lia]. specialize (Hall u Hu' Hn). lia.
      * split; [done|]. split; [set_solver|]. intros u [Hu'| ->]%elem_of_snoc Hn; [by apply Hall|lia].
  - destruct IH as [[-> Hall]|(Hp & Hin & Hall)].
    + left. split; [done|]. intros u [Hin| ->]%elem_of_snoc; [by apply Hall|lia].
    + right. split; [done|]. split; [set_solver|]. intros u [Hu'| ->]%elem_of_snoc Hn; [by apply Hall|lia].
Qed.

(** The memory the choice goes by: what is left of it today, or none when the
    session has used all there is. *)
Definition forgotten session p : warpSlotPool := { p with wl_sessionUsed ::= delete session }.

(** Which slot a round gets.  The pool hands out a slot that is active, has an
    account and an address, carries no request, is not suspended, and that the
    session has not used in the last day - unless it has used all there are, in
    which case its memory is dropped; no other such slot is less loaded.  It refuses
    only when no slot is left even so, and then names a wait between a second and a
    minute that otherwise is the time to the next deadline ahead. *)
Theorem warp_pick_spec parse now session p :
  let q := pruneSessionsLocked now p in
  let available q slot := slot ∈ wn_Slots (wl_snapshot p) /\ slot_available now session q slot = true in
  let leased q l := exists slot, available q slot /\ l = mkLease 0 (ws_Slot slot) (ws_Account slot) (ws_Egress slot) (ws_Generation slot) /\
                                 forall other, available q other -> load_of q slot <= load_of q other in
  match (pick parse now session p).1 with
  | inl l => leased q l \/ ((forall slot, ~ available q slot) /\ leased (forgotten session q) l)
  | inr retry => (forall slot, ~ available q slot) /\ (session ≠ "" -> forall slot, ~ available (forgotten session q) slot) /\
      second <= retry <= warpSlotsRetryCap /\
      exists wait, shortest now (deadlines parse q) wait /\
        retry = (if wait =? 0 then second else Z.min (Z.max second wait) warpSlotsRetryCap)
  end.
Proof.
  cbv zeta. unfold pick. set (q := pruneSessionsLocked now p).
  assert (Hq : wn_Slots (wl_snapshot p) = wn_Slots (wl_snapshot q)) by (by destruct p). rewrite Hq. clearbody q. clear p Hq.
  assert (Hav : forall q, match pickAvailableLocked now session q with
    | (Some l, _) => exists slot, (slot ∈ wn_Slots (wl_snapshot q) /\ slot_available now session q slot = true) /\
        l = mkLease 0 (ws_Slot slot) (ws_Account slot) (ws_Egress slot) (ws_Generation slot) /\
        forall other, other ∈ wn_Slots (wl_snapshot q) /\ slot_available now session q other = true -> load_of q slot <= load_of q other
    | (None, q') => q' = q /\ forall slot, slot ∈ wn_Slots (wl_snapshot q) -> slot_available now session q slot = false end).
  { intros r. unfold pickAvailableLocked. pose proof (best_slot_spec now session r) as Hb. destruct (best_slot _ _ _) as [[i slot]|]; [|done].
    destruct Hb as (Hl & Ha & Hall). exists slot. split; [split; [by eapply list_elem_of_lookup_2|done]|]. split; [done|].
    intros other [Ho Hao]. by apply Hall. }
  pose proof (Hav q) as Hq. destruct (pickAvailableLocked now session q) as [[l|] q']; [by left|]. destruct Hq as [-> Hnone].
  assert (Hn : forall slot, ~ (slot ∈ wn_Slots (wl_snapshot q) /\ slot_available now session q slot = true)).
  { intros slot [Hin Ha]. by rewrite Hnone in Ha. }
  assert (Hwait : exists wait, shortest now (deadlines parse q) wait /\
    retryAfterLocked parse now q = (if wait =? 0 then second else Z.min (Z.max second wait) warpSlotsRetryCap)).
  { exists (foldl (consider now) 0 (deadlines parse q)). split; [apply consider_shortest|]. unfold retryAfterLocked, warpSlotsRetryCap. cbv zeta.
    set (r := foldl _ 0 _). clearbody r. unfold second. case_ifs; lia. }
  destruct (_ || _) eqn:Hs; cbn [fst].
  - split; [done|]. split; [|split; [apply retry_after_bounds|done]].
    intros Hse slot [Hin Ha]. apply (Hn slot). split; [by destruct q|]. apply orb_true_iff in Hs as [Hs%bool_decide_eq_true|Hs%bool_decide_eq_true]; [done|].
    unfold slot_available, load_of, used_slots in *. destruct q. cbn in *. rewrite Hs. rewrite lookup_delete_eq in Ha. exact Ha.
  - pose proof (Hav (forgotten session q)) as Hf. unfold forgotten in *.
    destruct (pickAvailableLocked now session _) as [[l|] q'']; cbn [fst].
    + right. split; [done|]. destruct q. exact Hf.
    + destruct Hf as [-> Hnone']. split; [done|]. split.
      * intros _ slot [Hin Ha]. rewrite Hnone' in Ha; [done|]. by destruct q.
      * replace (retryAfterLocked parse now _) with (retryAfterLocked parse now q) by (by destruct q).
        split; [apply retry_after_bounds|done].
Qed.
End choice.

(** ** Leases *)

Section leases.
Context (parse : string -> option Z).
Implicit Types (p : warpSlotPool) (l : warpSlotLease) (leases : list warpSlotLease) (slot now : Z).

(** The steps of a pool and the leases not yet given back; the label is the slot
    of the lease that acts.  The controller counts requests in flight from zero. *)
Inductive warp_step : option Z -> warpSlotPool * list warpSlotLease -> warpSlotPool * list warpSlotLease -> Prop :=
| wq_refresh check_now now fetched p leases :
    (forall s info, fetched = Some s -> info ∈ wn_Slots s -> 0 <= ws_InFlight info) ->
    warp_step None (p, leases) ((refresh check_now now fetched p).2, leases)
| wq_pick now session p leases :
    warp_step None (p, leases)
      ((pick parse now session p).2, match (pick parse now session p).1 with inl l => l :: leases | inr _ => leases end)
| wq_release l p before after :
    warp_step (Some (le_slot l)) (p, before ++ l :: after) ((Release l p).2, before ++ after)
| wq_success l p leases : l ∈ leases -> warp_step (Some (le_slot l)) (p, leases) (MarkSuccess l p, leases)
| wq_limited now l p leases : l ∈ leases -> warp_step (Some (le_slot l)) (p, leases) ((MarkRateLimited now l p).2, leases)
| wq_refused now l p leases : l ∈ leases -> warp_step (Some (le_slot l)) (p, leases) (MarkProxyUnavailable now l p, leases)
| wq_broken now reason l p leases :
    l ∈ leases -> warp_step (Some (le_slot l)) (p, leases) ((MarkNetworkFailure now reason l p).2, leases).

Record warp_ok p leases : Prop := {
  wo_flight : forall info, info ∈ wn_Slots (wl_snapshot p) -> 0 <= ws_InFlight info;
  wo_reserved : forall slot, wl_reserved p !! slot = if decide (slot ∈ le_slot <$> leases) then Some 1 else None;
  wo_once : NoDup (le_slot <$> leases);
}.

Lemma warp_ok_same p p' leases :
  wl_snapshot p' = wl_snapshot p -> wl_reserved p' = wl_reserved p -> warp_ok p leases -> warp_ok p' leases.
Proof. intros Hs Hr [H1 H2 H3]. split; [by rewrite Hs|intros slot; by rewrite Hr|done]. Qed.

Lemma finish_same slot p : wl_snapshot (finishPending slot p).2 = wl_snapshot p /\ wl_reserved (finishPending slot p).2 = wl_reserved p.
Proof. unfold finishPending, invalidate. destruct p. cbn. by case_ifs. Qed.

Lemma pick_available_ok now session p leases :
  warp_ok p leases ->
  match pickAvailableLocked now session p with
  | (Some l, p') => warp_ok p' (l :: leases) /\ le_slot l ∉ le_slot <$> leases
  | (None, p') => p' = p
  end.
Proof.
  intros Hok. unfold pickAvailableLocked. pose proof (best_slot_spec now session p) as Hb.
  destruct (best_slot now session p) as [[i info]|]; [|done]. destruct Hb as (Hl & Ha & _).
  pose proof (wo_flight _ _ Hok info (list_elem_of_lookup_2 _ _ _ Hl)) as Hf.
  pose proof (wo_reserved _ _ Hok (ws_Slot info)) as Hr.
  assert (Hn : ws_Slot info ∉ le_slot <$> leases).
  { intros Hin. rewrite decide_True in Hr by done. unfold slot_available, load_of in Ha. rewrite Hr in Ha. cbn in Ha.
    assert (0 <? ws_InFlight info + 1 = true) as Hbusy by lia. rewrite Hbusy in Ha. by rewrite !andb_false_r in Ha. }
  rewrite decide_False in Hr by done. split; [|done]. destruct Hok as [H1 H2 H3].
  assert (Hok' : forall q, wl_snapshot q = wl_snapshot p -> wl_reserved q = <[ws_Slot info := 1]> (wl_reserved p) ->
            warp_ok q (mkLease 0 (ws_Slot info) (ws_Account info) (ws_Egress info) (ws_Generation info) :: leases)).
  { intros q Hs Hq. split; [by rewrite Hs| |cbn; by constructor].
    intros slot. rewrite Hq, lookup_insert. cbn. case_decide as H5.
    - subst slot. by rewrite decide_True by left.
    - rewrite H2. case_decide as H6; case_decide as H7; try done; [destruct H7; by right|].
      apply elem_of_cons in H7 as [->|]; done. }
  destruct p. cbn in *. rewrite Hr in *. apply Hok'; by case_bool_decide.
Qed.

Lemma warp_step_ok who s s' : warp_step who s s' -> warp_ok s.1 s.2 -> warp_ok s'.1 s'.2.
Proof.
  intros Hstep Hok. destruct Hstep; cbn in *.
  - unfold refresh. destruct (fresh_at _ _); [done|]. destruct fetched as [s|]; [|done]. destruct (snapshot_valid s); [|done].
    destruct Hok as [H1 H2 H3]. destruct p. cbn. split; cbn; eauto.
  - unfold pick. cbv zeta. set (q := pruneSessionsLocked now p).
    assert (Hq : warp_ok q leases) by (eapply warp_ok_same; [..|exact Hok]; by destruct p). clearbody q.
    pose proof (pick_available_ok now session q leases Hq) as Hp. destruct (pickAvailableLocked now session q) as [[l|] q'].
    + by destruct Hp.
    + subst q'. destruct (_ || _); [done|].
      assert (Hf : warp_ok (forgotten session q) leases) by (eapply warp_ok_same; [..|exact Hq]; by destruct q).
      pose proof (pick_available_ok now session (forgotten session q) leases Hf) as Hp. unfold forgotten in *.
      destruct (pickAvailableLocked now session _) as [[l|] q'']; [by destruct Hp|]. cbn. by rewrite Hp.
  - unfold Release. destruct (finish_same (le_slot l) (release_slot (le_slot l) p)) as [Hs Hr].
    eapply warp_ok_same; [exact Hs|exact Hr|]. destruct Hok as [H1 H2 H3]. rewrite fmap_app, fmap_cons in H3.
    apply NoDup_app in H3 as (H4 & H5 & [H6 H7]%NoDup_cons).
    assert (Hl : wl_reserved p !! le_slot l = Some 1) by (rewrite H2; rewrite decide_True; [done|rewrite fmap_app; set_solver]).
    unfold release_slot. rewrite Hl. cbn. destruct p. cbn in *. split; cbn; [done| |].
    + intros slot. rewrite lookup_delete. rewrite fmap_app in *. case_decide as Heq.
      * subst slot. rewrite decide_False; [done|]. rewrite elem_of_app. intros [Hin|Hin]; [|done]. apply (H5 _ Hin). left.
      * rewrite H2. apply decide_ext. rewrite fmap_cons. set_solver.
    + rewrite fmap_app. apply NoDup_app. split; [done|]. split; [|done]. intros x Hx Hx'. apply (H5 x Hx). by right.
  - eapply warp_ok_same; [..|exact Hok]; unfold MarkSuccess; destruct p; cbn; by case_ifs.
  - unfold MarkRateLimited. match goal with |- context [finishPending ?a ?b] => destruct (finish_same a b) as [Hs Hr] end.
    eapply warp_ok_same; [rewrite Hs|rewrite Hr|exact Hok]; by destruct p.
  - eapply warp_ok_same; [..|exact Hok]; by destruct p.
  - eapply warp_ok_same; [..|exact Hok]; by destruct p.
Qed.

Definition warp_reachable s : Prop := rtc (fun s s' => exists who, warp_step who s s') (warp_pool_init, []) s.

Lemma warp_run_ok s s' : rtc (fun s s' => exists who, warp_step who s s') s s' -> warp_ok s.1 s.2 -> warp_ok s'.1 s'.2.
Proof. induction 1 as [|x y z [who Hxy] _ IH]; [done|]. intros Hx. apply IH. by eapply warp_step_ok. Qed.

Lemma warp_reachable_ok s : warp_reachable s -> warp_ok s.1 s.2.
Proof.
  intros Hr. apply (warp_run_ok _ _ Hr). split; cbn; [by intros info Hi%elem_of_nil| |constructor].
  intros slot. rewrite decide_False; [done|]. by intros ?%elem_of_nil.
Qed.

(** A step of somebody else leaves a lease and what is pending on its slot alone. *)
Lemma others_keep_pending who p leases p' leases' l :
  warp_step who (p, leases) (p', leases') -> warp_ok p leases -> who ≠ Some (le_slot l) -> l ∈ leases ->
  l ∈ leases' /\ wl_pending p' !! le_slot l = wl_pending p !! le_slot l.
Proof.
  intros Hstep Hok Hwho Hl.
  assert (Hfin : forall slot q, slot ≠ le_slot l -> wl_pending (finishPending slot q).2 !! le_slot l = wl_pending q !! le_slot l).
  { intros slot q Hne. unfold finishPending, invalidate. destruct q. cbn. case_ifs; cbn; try done; by rewrite lookup_delete_ne. }
  inversion Hstep; subst; (split; [try done|]).
  - unfold refresh. destruct (fresh_at _ _); [done|]. destruct fetched as [s|]; [|done]. destruct (snapshot_valid s); [|done]. by destruct p.
  - destruct (pick _ _ _ _).1; [by right|done].
  - assert (Hpick : forall q, wl_pending (pickAvailableLocked now session q).2 = wl_pending q).
    { intros q. unfold pickAvailableLocked. destruct (best_slot _ _ _) as [[i info]|]; [|done]. destruct q. cbn. by case_bool_decide. }
    unfold pick. cbv zeta. set (q := pruneSessionsLocked now p).
    assert (Hq : wl_pending q = wl_pending p) by (by destruct p). clearbody q. pose proof (Hpick q) as H1.
    destruct (pickAvailableLocked now session q) as [[l1|] q']; cbn in *; [congruence|].
    destruct (_ || _); cbn; [by rewrite H1, Hq|]. match goal with |- context [pickAvailableLocked now session ?r] => pose proof (Hpick r) as H2 end.
    destruct (pickAvailableLocked now session _) as [[l2|] q'']; cbn in *; destruct q'; cbn in *; by rewrite H2, H1, Hq.
  - apply elem_of_app in Hl as [Hl|[->|Hl]%elem_of_cons]; [by apply elem_of_app; left|done|by apply elem_of_app; right].
  - unfold Release. rewrite Hfin by congruence. unfold release_slot. destruct p. cbn. by case_ifs.
  - unfold MarkSuccess. destruct p. cbn. case_ifs; cbn; try done; rewrite lookup_insert_ne; congruence.
  - unfold MarkRateLimited. rewrite Hfin by congruence. destruct p. cbn. rewrite lookup_insert_ne; congruence.
  - by destruct p.
  - by destruct p.
Qed.

(** A WARP slot carries one request of this process: leases not yet given back
    are on different slots, and the pool marks exactly their slots as taken. *)
Theorem warp_slot_leased_once p leases :
  warp_reachable (p, leases) -> NoDup (le_slot <$> leases) /\ forall slot, (wl_reserved p).[slot] = 1 <-> slot ∈ le_slot <$> leases.
Proof.
  intros Hr%warp_reachable_ok. destruct Hr as [_ Hres Honce]. cbn in *. split; [done|]. intros slot. rewrite Hres. by case_decide.
Qed.

(** A rate limited address is given up exactly once.  Nothing happens while its
    request is still running, whatever the others do meanwhile; when the request
    gives the slot back, the controller is told once to give up the address, the
    snapshot is asked for again, and nothing is left pending. *)
Theorem limited_address_retired_once p leases l now p' leases' :
  warp_reachable (p, leases) -> l ∈ leases ->
  let '(early, p1) := MarkRateLimited now l p in
  rtc (fun s s' => exists who, who ≠ Some (le_slot l) /\ warp_step who s s') (p1, leases) (p', leases') ->
  early = [] /\ l ∈ leases' /\
  let '(penalties, p2) := Release l p' in
  penalties = [mkPenalty (le_egress l) "429" (le_channelID l)] /\ wl_fetchedAt p2 = zero_time /\
  wl_pending p2 !! le_slot l = None /\ wl_reserved p2 !! le_slot l = None.
Proof.
  intros Hr%warp_reachable_ok Hl. cbn in Hr.
  assert (Hres : wl_reserved p !! le_slot l = Some 1).
  { rewrite (wo_reserved _ _ Hr), decide_True; [done|]. by apply list_elem_of_fmap_2. }
  pose proof (warp_step_ok _ _ _ (wq_limited now l p leases Hl) Hr) as Hok1.
  assert (Hp1 : (MarkRateLimited now l p).1 = [] /\
    wl_pending (MarkRateLimited now l p).2 !! le_slot l = Some (mkPending (le_channelID l) (le_egress l) (le_generation l) false)).
  { unfold MarkRateLimited, finishPending. destruct p. cbn in *. rewrite lookup_insert_eq, Hres. cbn. by rewrite lookup_insert_eq. }
  destruct (MarkRateLimited now l p) as [early p1]. cbn in *. destruct Hp1 as [-> Hpend]. intros Hrun. split; [done|].
  assert (Hinv : forall s s', rtc (fun s s' => exists who, who ≠ Some (le_slot l) /\ warp_step who s s') s s' ->
    warp_ok s.1 s.2 -> l ∈ s.2 -> warp_ok s'.1 s'.2 /\ l ∈ s'.2 /\ wl_pending s'.1 !! le_slot l = wl_pending s.1 !! le_slot l).
  { clear. induction 1 as [|[q1 l1] [q2 l2] [q3 l3] (who & Hne & Hstep) _ IH]; [done|]. cbn in *. intros Hok Hin.
    destruct (others_keep_pending _ _ _ _ _ l Hstep Hok Hne Hin) as [Hin2 Hp2].
    destruct IH as (H1 & H2 & H3); [by eapply (warp_step_ok _ _ _ Hstep)|done|]. by rewrite H3. }
  destruct (Hinv _ _ Hrun Hok1 Hl) as (Hok' & Hl' & Hp'). cbn in *. split; [done|].
  assert (Hres' : wl_reserved p' !! le_slot l = Some 1).
  { rewrite (wo_reserved _ _ Hok'), decide_True; [done|]. by apply list_elem_of_fmap_2. }
  rewrite Hpend in Hp'. unfold Release, release_slot, finishPending. rewrite Hres'. destruct p'. cbn in *.
  rewrite Hp', lookup_delete_eq. cbn. split; [done|]. split; [done|]. split; apply lookup_delete_eq.
Qed.
End leases.

(** ** Witnesses *)

Definition no_times (s : string) : option Z := None.
Definition demo_slot (n : Z) : warpSlotInfo := mkSlot n ("warp-" +:+ pretty n) "1.2.3.4" "active" 0 "" 1.
Definition demo_snapshot : warpSlotsSnapshot := mkSnapshot 2 [demo_slot 0; demo_slot 1].
Definition demo_fetched : warpSlotPool := (refresh 5 5 (Some demo_snapshot) warp_pool_init).2.
Definition demo_lease : warpSlotLease := mkLease 0 0 "warp-0" "1.2.3.4" 1.
Definition demo_taken : warpSlotPool := (pick no_times 6 "s" demo_fetched).2.

Example demo_picks : (pick no_times 6 "s" demo_fetched).1 = inl demo_lease.
Proof. vm_compute. reflexivity. Qed.
Example demo_next : (pick no_times 7 "s" demo_taken).1 = inl (mkLease 0 1 "warp-1" "1.2.3.4" 1).
Proof. vm_compute. reflexivity. Qed.

Lemma demo_taken_reachable : warp_reachable no_times (demo_taken, [demo_lease]).
Proof.
  eapply rtc_l.
  { exists None. apply (wq_refresh no_times 5 5 (Some demo_snapshot) warp_pool_init []).
    intros s info [= <-] Hin. unfold demo_snapshot in Hin. cbn in Hin.
    apply elem_of_cons in Hin as [->|[->|Hin%elem_of_nil]%elem_of_cons]; [| |done]; unfold demo_slot; cbn; lia. }
  eapply rtc_l.
  { exists None. exact (wq_pick no_times 6 "s" demo_fetched []). }
  rewrite demo_picks. apply rtc_refl.
Qed.

Lemma warp_slot_leased_once_witness :
  NoDup (le_slot <$> [demo_lease]) /\ forall slot, (wl_reserved demo_taken).[slot] = 1 <-> slot ∈ le_slot <$> [demo_lease].
Proof. apply (warp_slot_leased_once no_times). exact demo_taken_reachable. Defined.

Lemma limited_address_retired_once_witness :
  (Release demo_lease (MarkRateLimited 7 demo_lease demo_taken).2).1 = [mkPenalty "1.2.3.4" "429" 0].
Proof.
  pose proof (limited_address_retired_once no_times demo_taken [demo_lease] demo_lease 7
    (MarkRateLimited 7 demo_lease demo_taken).2 [demo_lease] demo_taken_reachable ltac:(left)) as H.
  destruct (MarkRateLimited 7 demo_lease demo_taken) as [early p1]. destruct (H (rtc_refl _ _)) as (_ & _ & Hrel).
  cbn [snd] in *. destruct (Release demo_lease p1) as [penalties p2]. exact (proj1 Hrel).
Defined.
