(* ===== verification/Reasoning.v ===== *)
(** * The cache of reasoning texts

    internal/relay/reasoning.go: the reasoning of a tool call is remembered for two
    hours, at most 2048 of them, the least recently used one goes first.  The code
    keeps a map of list elements beside a doubly linked list; here the elements
    are cells of a store, the map and the list hold their addresses.  The
    specification is one list, most recently used first. *)

From coqutil Require Export Datatypes.RecordSetters.
Export RecordSetters.OCamlLikeNotations.
From S2P Require Import Prelude GoStrings OcPool.

Definition reasoningCacheCapacity : Z := 2048.
Definition reasoningCacheTTL : Z := 7200 * second.

Record reasoningEntry := mkEntry { rn_key : string; rn_value : string; rn_expiresAt : Z }.
Record reasoningCache := mkCache {
  rc_ttl : Z; rc_capacity : Z; rc_cells : gmap Z reasoningEntry; rc_entries : gmap string Z; rc_order : list Z; rc_fresh : Z }.
Definition newReasoningCache (capacity ttl : Z) : reasoningCache := mkCache ttl capacity ∅ ∅ [] 0.

Implicit Types (c : reasoningCache) (key value : string) (now : Z).

(** [order.Remove] with [delete(entries, key)], [order.MoveToFront]. *)
Definition remove_element (id : Z) key c : reasoningCache :=
  { c with rc_order ::= filter (.≠ id); rc_entries ::= delete key }.
Definition move_to_front (id : Z) c : reasoningCache :=
  { c with rc_order ::= (fun order => id :: filter (.≠ id) order) }.

Definition Get now key c : option string * reasoningCache :=
  match rc_entries c !! key with
  | None => (None, c)
  | Some id =>
      match rc_cells c !! id with
      | None => (None, c)
      | Some entry => if rn_expiresAt entry <=? now then (None, remove_element id key c)
                      else (Some (rn_value entry), move_to_front id c)
      end
  end.

Definition sweep_one now c (id : Z) : reasoningCache :=
  match rc_cells c !! id with
  | Some entry => if rn_expiresAt entry <=? now then remove_element id (rn_key entry) c else c
  | None => c
  end.

(** The sweep over the whole list. *)
Definition sweep now c : reasoningCache := foldl (sweep_one now) c (rc_order c).

(** The loop over the back of the list; every turn removes an element. *)
Fixpoint shrink (fuel : nat) c : reasoningCache :=
  match fuel with
  | O => c
  | S fuel =>
      if Z.of_nat (length (rc_order c)) <=? rc_capacity c then c
      else match last (rc_order c) with
           | None => c
           | Some id => shrink fuel (remove_element id (default "" (rn_key <$> rc_cells c !! id)) c)
           end
  end.

Definition place (key value : string) (expiry : Z) c : reasoningCache :=
  match rc_entries c !! key with
  | Some id => move_to_front id ({ c with rc_cells ::= insert id (mkEntry key value expiry) })
  | None => { c with rc_cells ::= insert (rc_fresh c) (mkEntry key value expiry);
                     rc_entries ::= insert key (rc_fresh c);
                     rc_order ::= cons (rc_fresh c); rc_fresh ::= Z.add 1 }
  end.
Definition Set_ now key value c : reasoningCache :=
  let c := sweep now (place key value (now + rc_ttl c) c) in
  shrink (length (rc_order c)) c.

Definition getReasoningFor now (toolCallID : string) c : option string * reasoningCache :=
  if bool_decide (toolCallID = "") then (None, c) else Get now toolCallID c.
(** The order in which the extracted map is ranged over; one clock per entry. *)
Definition setReasonings (values : list (string * string * Z)) c : reasoningCache :=
  foldl (fun c '(id, text, now) => if bool_decide (id = "") then c else Set_ now id text c) c values.

(** ** The specification *)

Definition alive now (e : reasoningEntry) : Prop := now < rn_expiresAt e.
#[export] Instance alive_dec now e : Decision (alive now e) := Z_lt_dec _ _.
Definition other_key key (e : reasoningEntry) : Prop := rn_key e ≠ key.
#[export] Instance other_key_dec key e : Decision (other_key key e) := decide (_ ≠ _).

Definition lru_find key (l : list reasoningEntry) : option reasoningEntry := find_first (fun e => bool_decide (rn_key e = key)) l.
Definition lru_get now key (l : list reasoningEntry) : option string * list reasoningEntry :=
  match lru_find key l with
  | None => (None, l)
  | Some e => if decide (alive now e) then (Some (rn_value e), e :: filter (other_key key) l) else (None, filter (other_key key) l)
  end.
Definition lru_set (capacity ttl now : Z) key value (l : list reasoningEntry) : list reasoningEntry :=
  take (Z.to_nat capacity) (filter (alive now) (mkEntry key value (now + ttl) :: filter (other_key key) l)).

(** ** The invariant *)

(** The list as the specification sees it. *)
Definition contents c : list reasoningEntry := omap (fun id => rc_cells c !! id) (rc_order c).

Record cache_ok c : Prop := {
  co_order : NoDup (rc_order c);
  co_cells : forall id, id ∈ rc_order c -> exists e, rc_cells c !! id = Some e /\ rc_entries c !! rn_key e = Some id;
  co_entries : forall key id, rc_entries c !! key = Some id -> id ∈ rc_order c /\ rn_key <$> rc_cells c !! id = Some key;
  co_fresh : forall id e, rc_cells c !! id = Some e -> id < rc_fresh c;
}.

(** ** Removing and moving *)

Lemma omap_cons_eq {A B} (f : A -> option B) x l :
  omap f (x :: l) = match f x with Some y => y :: omap f l | None => omap f l end.
Proof. reflexivity. Qed.

Lemma omap_filter (cells : gmap Z reasoningEntry) (id : Z) key (l : list Z) :
  (forall i, i ∈ l -> exists e, cells !! i = Some e /\ (rn_key e = key <-> i = id)) ->
  omap (fun i => cells !! i) (filter (.≠ id) l) = filter (other_key key) (omap (fun i => cells !! i) l).
Proof.
  induction l as [|i l IH]; intros Hl; [done|].
  destruct (Hl i ltac:(left)) as (e & He & Hk). assert (IH' := IH ltac:(intros; apply Hl; by right)).
  rewrite filter_cons, (omap_cons_eq _ i l), He, filter_cons. unfold other_key at 1.
  case_decide as H1; case_decide as H2; [by rewrite omap_cons_eq, He, IH'|tauto|tauto|done].
Qed.

Lemma keys_unique c id e : cache_ok c -> rc_cells c !! id = Some e -> rc_entries c !! rn_key e = Some id ->
  forall i, i ∈ rc_order c -> exists e', rc_cells c !! i = Some e' /\ (rn_key e' = rn_key e <-> i = id).
Proof.
  intros Hok He Hid i Hi. destruct (co_cells _ Hok i Hi) as (e' & He' & Hi'). exists e'. split; [done|].
  split; [intros Hk; rewrite Hk in Hi'; congruence|intros ->; congruence].
Qed.

Lemma remove_contents c id e : cache_ok c -> rc_cells c !! id = Some e -> rc_entries c !! rn_key e = Some id ->
  contents (remove_element id (rn_key e) c) = filter (other_key (rn_key e)) (contents c).
Proof.
  intros Hok He Hid. pose proof (keys_unique c id e Hok He Hid) as Hu. destruct c. cbn in *. unfold contents. cbn. by apply omap_filter.
Qed.

Lemma remove_ok c id e : cache_ok c -> rc_cells c !! id = Some e -> rc_entries c !! rn_key e = Some id ->
  cache_ok (remove_element id (rn_key e) c).
Proof.
  intros Hok He Hid. pose proof (keys_unique c id e Hok He Hid) as Hu. destruct Hok as [H1 H2 H3 H4]. destruct c. cbn in *. split; cbn.
  - by apply NoDup_filter.
  - intros i [Hne Hi]%list_elem_of_filter. destruct (H2 i Hi) as (e' & He' & Hi'). exists e'. split; [done|].
    rewrite lookup_delete_ne; [done|]. intros Heq. destruct (Hu i Hi) as (e2 & He2 & Hk). rewrite He2 in He'. injection He' as ->. apply Hne, Hk. done.
  - intros key i [Hne Hi]%lookup_delete_Some. destruct (H3 key i Hi) as [Ho Hk]. split; [|done].
    apply list_elem_of_filter. split; [|done]. intros ->. rewrite He in Hk. injection Hk as ?. done.
  - done.
Qed.

Lemma front_contents c id e : cache_ok c -> rc_cells c !! id = Some e -> rc_entries c !! rn_key e = Some id ->
  contents (move_to_front id c) = e :: filter (other_key (rn_key e)) (contents c).
Proof.
  intros Hok He Hid. pose proof (keys_unique c id e Hok He Hid) as Hu. destruct c. cbn in *. unfold contents. cbn. rewrite He. cbn. f_equal. by apply omap_filter.
Qed.

Lemma front_ok c id : cache_ok c -> id ∈ rc_order c -> cache_ok (move_to_front id c).
Proof.
  intros [H1 H2 H3 H4] Hid. assert (Hin : forall (order : list Z) (i : Z), id ∈ order -> i ∈ id :: filter (.≠ id) order <-> i ∈ order).
  { intros order i Ho. rewrite elem_of_cons, list_elem_of_filter. destruct (decide (i = id)) as [->|]; tauto. }
  destruct c. cbn in *. split; cbn; [|intros i Hi; apply H2; by apply Hin|intros key i Hi; rewrite Hin by done; by apply H3|done].
  constructor; [|by apply NoDup_filter]. intros [? _]%list_elem_of_filter. done.
Qed.

Lemma find_contents c key : cache_ok c ->
  match rc_entries c !! key with
  | None => lru_find key (contents c) = None
  | Some id => exists e, rc_cells c !! id = Some e /\ rn_key e = key /\ id ∈ rc_order c /\ lru_find key (contents c) = Some e
  end.
Proof.
  intros Hok. unfold lru_find, contents. destruct (rc_entries c !! key) as [id|] eqn:Hid.
  - destruct (co_entries _ Hok key id Hid) as [Hin (e & He & Hk)%fmap_Some]. subst key. exists e. repeat (split; [done|]).
    pose proof (keys_unique c id e Hok He Hid) as Hu. clear Hok. induction (rc_order c) as [|i l IH]; [by apply elem_of_nil in Hin|].
    cbn. destruct (Hu i ltac:(left)) as (e' & He' & Hk). rewrite He'. cbn. case_bool_decide as Hd.
    + apply Hk in Hd as ->. congruence.
    + apply IH; [apply elem_of_cons in Hin as [->|]; [tauto|done]|]. intros j Hj. apply Hu. by right.
  - apply find_first_None. intros e (i & Hi & He)%list_elem_of_omap. apply bool_decide_eq_false. intros <-.
    destruct (co_cells _ Hok i Hi) as (e' & He' & Hk). congruence.
Qed.

(** ** Sweeping and shrinking *)

Lemma filter_absent (id : Z) (l : list Z) : id ∉ l -> filter (.≠ id) l = l.
Proof.
  induction l as [|i l IH]; intros Hn; [done|]. rewrite filter_cons. apply not_elem_of_cons in Hn as [H1 H2].
  rewrite decide_True by done. by rewrite IH.
Qed.

Lemma sweep_contents now (l done : list Z) c :
  rc_order c = done ++ l -> cache_ok c ->
  let c' := foldl (sweep_one now) c l in
  cache_ok c' /\ rc_cells c' = rc_cells c /\ rc_capacity c' = rc_capacity c /\
  contents c' = omap (fun i => rc_cells c !! i) done ++ filter (alive now) (omap (fun i => rc_cells c !! i) l).
Proof.
  revert done c. induction l as [|i l IH]; intros done c Ho Hok; cbn [foldl].
  { cbn. split; [done|]. split; [done|]. split; [done|]. unfold contents. rewrite Ho, !app_nil_r. done. }
  destruct (co_cells _ Hok i) as (e & He & Hi); [rewrite Ho; apply elem_of_app; right; left|].
  assert (Hcons : omap (fun i => rc_cells c !! i) (i :: l) = e :: omap (fun i => rc_cells c !! i) l) by (cbn; by rewrite He).
  rewrite Hcons, filter_cons. unfold sweep_one at 2 4 6 8. rewrite He. destruct (rn_expiresAt e <=? now) eqn:Hd.
  - rewrite decide_False by (unfold alive; lia).
    pose proof (co_order _ Hok) as Hnd. rewrite Ho in Hnd. apply NoDup_app in Hnd as (H1 & H2 & [H3 H4]%NoDup_cons).
    assert (Hc : rc_order (remove_element i (rn_key e) c) = done ++ l /\ rc_cells (remove_element i (rn_key e) c) = rc_cells c /\
                 rc_capacity (remove_element i (rn_key e) c) = rc_capacity c).
    { destruct c. cbn in *. rewrite Ho, filter_app, filter_cons, decide_False by tauto. rewrite !filter_absent; [done|done|].
      intros Hin. apply (H2 i Hin). left. }
    destruct Hc as (Ho' & Hc & Hcap). pose proof (remove_ok c i e Hok He Hi) as Hok'.
    destruct (IH done (remove_element i (rn_key e) c) Ho' Hok') as (A & B & C & D). rewrite Hc in *. rewrite Hcap in C. done.
  - rewrite decide_True by (unfold alive; lia). destruct (IH (done ++ [i]) c) as (A & B & C & D); [by rewrite Ho, <- app_assoc|done|].
    split; [done|]. split; [done|]. split; [done|]. rewrite D, omap_app. cbn. rewrite He. cbn. by rewrite <- app_assoc.
Qed.

Lemma shrink_contents fuel c :
  (length (rc_order c) <= fuel)%nat -> cache_ok c ->
  cache_ok (shrink fuel c) /\ contents (shrink fuel c) = take (Z.to_nat (rc_capacity c)) (contents c).
Proof.
  assert (Hlen : forall c, cache_ok c -> length (contents c) = length (rc_order c)).
  { clear. intros c Hok. unfold contents. pose proof (co_cells _ Hok) as Hc. clear Hok.
    induction (rc_order c) as [|i l IH]; [done|]. cbn. destruct (Hc i ltac:(left)) as (e & -> & _). cbn. f_equal. apply IH.
    intros j Hj. apply Hc. by right. }
  revert c. induction fuel as [|fuel IH]; intros c Hl Hok; cbn [shrink].
  { split; [done|]. rewrite take_ge; [done|]. rewrite Hlen by done. lia. }
  destruct (_ <=? _) eqn:Hc; [split; [done|]; rewrite take_ge; [done|rewrite Hlen by done; lia]|].
  destruct (last (rc_order c)) as [id|] eqn:Hlast; [|apply last_None in Hlast; rewrite Hlast in *; split; [done|]; rewrite take_ge; [done|rewrite Hlen, Hlast by done; cbn; lia]].
  apply last_Some in Hlast as [l Ho]. destruct (co_cells _ Hok id) as (e & He & Hi); [rewrite Ho; apply elem_of_app; right; left|].
  rewrite He. change (default "" (rn_key <$> Some e)) with (rn_key e). pose proof (remove_ok c id e Hok He Hi) as Hok'.
  pose proof (co_order _ Hok) as Hnd. rewrite Ho in Hnd. apply NoDup_app in Hnd as (H1 & H2 & _).
  assert (Hr : rc_order (remove_element id (rn_key e) c) = l /\ rc_cells (remove_element id (rn_key e) c) = rc_cells c /\
               rc_capacity (remove_element id (rn_key e) c) = rc_capacity c).
  { destruct c. cbn in *. rewrite Ho, filter_app, filter_cons, decide_False, filter_nil, app_nil_r by tauto. rewrite filter_absent; [done|].
    intros Hin. apply (H2 id Hin). left. }
  destruct Hr as (Hro & Hrc & Hrcap). destruct (IH (remove_element id (rn_key e) c)) as [A B]; [rewrite Hro, Ho in *; rewrite length_app in Hl; cbn in Hl; lia|done|].
  split; [exact A|]. etrans; [exact B|]. rewrite Hrcap. unfold contents at 1 2. rewrite Hro, Hrc, Ho, omap_app.
  symmetry. apply take_app_le. pose proof (Hlen _ Hok') as Hll. unfold contents in Hll. rewrite Hro, Hrc in Hll. rewrite Hll.
  rewrite Ho, length_app in Hc. cbn [length] in Hc. apply Z.leb_gt in Hc. lia.
Qed.

(** ** Refinement *)

Lemma place_spec key value expiry c :
  cache_ok c -> cache_ok (place key value expiry c) /\
  contents (place key value expiry c) = mkEntry key value expiry :: filter (other_key key) (contents c).
Proof.
  intros Hok. pose proof (find_contents c key Hok) as Hf. unfold place. destruct (rc_entries c !! key) as [id|] eqn:Hid.
  - destruct Hf as (e & He & <- & Hin & _). pose proof (keys_unique c id e Hok He Hid) as Hu.
    set (new := mkEntry (rn_key e) value expiry).
    assert (Hok1 : cache_ok ({ c with rc_cells ::= insert id new })).
    { destruct Hok as [H1 H2 H3 H4]. destruct c. cbn in *. split; cbn; [done| | |].
      - intros i Hi. rewrite lookup_insert. case_decide as Hd; [subst i; by exists new|by apply H2].
      - intros k i Hk. destruct (H3 k i Hk) as [Ho Hk']. split; [done|]. rewrite lookup_insert. case_decide as Hd; [|done].
        subst i. by rewrite He in Hk'.
      - intros i e'. rewrite lookup_insert. case_decide as Hd; [intros _; subst i; by eapply H4|by apply H4]. }
    split; [apply front_ok; [done|by destruct c]|].
    rewrite (front_contents _ id new) by (done || (destruct c; cbn in *; by rewrite lookup_insert_eq)). f_equal.
    pose proof (co_cells _ Hok) as Hc. destruct c as [? ? cells entries order ?]. unfold contents. cbn in *. clear -He Hu.
    induction order as [|i l IH]; [done|]. rewrite !omap_cons_eq. destruct (Hu i ltac:(left)) as (e' & He' & Hk).
    rewrite lookup_insert, He'. assert (IH' := IH ltac:(intros j Hj; apply Hu; by right)). unfold new in *.
    case_decide as Hd; rewrite !filter_cons.
    + subst i. rewrite !decide_False; [done|unfold other_key; tauto|unfold other_key; cbn; tauto].
    + rewrite !decide_True by (unfold other_key; intros Heq; apply Hd; symmetry; by apply Hk). f_equal. exact IH'.
  - assert (Hfresh : forall id, id ∈ rc_order c -> id ≠ rc_fresh c).
    { intros id Hi ->. destruct (co_cells _ Hok _ Hi) as (e & He & _). pose proof (co_fresh _ Hok _ _ He). lia. }
    assert (Hnone : filter (other_key key) (contents c) = contents c).
    { unfold contents. pose proof (co_cells _ Hok) as Hc. clear -Hc Hid. induction (rc_order c) as [|i l IH]; [done|].
      rewrite omap_cons_eq. destruct (Hc i ltac:(left)) as (e & He & Hi). rewrite He, filter_cons, decide_True by (unfold other_key; congruence).
      f_equal. apply IH. intros j Hj. apply Hc. by right. }
    rewrite Hnone. destruct Hok as [H1 H2 H3 H4]. destruct c as [ttl cap cells entries order fresh]. cbn in *. split.
    + split; cbn.
      * constructor; [intros Hi; by apply (Hfresh _ Hi)|done].
      * intros i [->|Hi]%elem_of_cons; [exists (mkEntry key value expiry); by rewrite !lookup_insert_eq|].
        destruct (H2 i Hi) as (e & He & Hk). exists e. rewrite !lookup_insert_ne; [done|intros Hq; subst key; congruence|by apply not_eq_sym, Hfresh].
      * intros k i. rewrite lookup_insert. case_decide as Hd.
        -- intros [= <-]. subst k. split; [left|]. by rewrite lookup_insert_eq.
        -- intros Hk. destruct (H3 k i Hk) as [Ho Hk']. split; [by right|]. rewrite lookup_insert_ne; [done|by apply not_eq_sym, Hfresh].
      * intros i e. rewrite lookup_insert. case_decide as Hd; [intros _; lia|]. intros He. pose proof (H4 i e He). lia.
    + set (new := mkEntry key value expiry).
      change (omap (fun i => <[fresh := new]> cells !! i) (fresh :: order) = new :: omap (fun i => cells !! i) order).
      rewrite omap_cons_eq, lookup_insert_eq. f_equal.
      clear -Hfresh. induction order as [|i l IH]; [done|]. rewrite !omap_cons_eq, lookup_insert_ne by (apply not_eq_sym, Hfresh; left).
      rewrite IH; [done|]. intros j Hj. apply Hfresh. by right.
Qed.

Lemma Get_spec now key c :
  cache_ok c -> cache_ok (Get now key c).2 /\ ((Get now key c).1, contents (Get now key c).2) = lru_get now key (contents c).
Proof.
  intros Hok. pose proof (find_contents c key Hok) as Hf. unfold Get, lru_get. destruct (rc_entries c !! key) as [id|] eqn:Hid; [|by rewrite Hf].
  destruct Hf as (e & He & <- & Hin & ->). rewrite He. destruct (rn_expiresAt e <=? now) eqn:Hd; cbn [fst snd].
  - rewrite decide_False by (unfold alive; lia). split; [by apply remove_ok|]. by rewrite (remove_contents c id e).
  - rewrite decide_True by (unfold alive; lia). split; [by apply front_ok|]. by rewrite (front_contents c id e).
Qed.

Lemma place_capacity key value expiry c : rc_capacity (place key value expiry c) = rc_capacity c /\ rc_ttl (place key value expiry c) = rc_ttl c.
Proof. unfold place, move_to_front. destruct c. cbn. by case_match. Qed.

Lemma Set_spec now key value c :
  cache_ok c -> cache_ok (Set_ now key value c) /\
  contents (Set_ now key value c) = lru_set (rc_capacity c) (rc_ttl c) now key value (contents c).
Proof.
  intros Hok. unfold Set_, lru_set. destruct (place_spec key value (now + rc_ttl c) c Hok) as [Hp Hc].
  destruct (place_capacity key value (now + rc_ttl c) c) as [Hcap _].
  destruct (sweep_contents now (rc_order (place key value (now + rc_ttl c) c)) [] _ eq_refl Hp) as (Hs & _ & Hsc & Hsweep).
  fold (sweep now (place key value (now + rc_ttl c) c)) in *. fold (contents (place key value (now + rc_ttl c) c)) in Hsweep. cbn [omap list_omap app] in Hsweep.
  destruct (shrink_contents (length (rc_order (sweep now (place key value (now + rc_ttl c) c)))) _ ltac:(done) Hs) as [A B].
  split; [exact A|]. rewrite B, Hsweep, Hc, Hsc, Hcap. done.
Qed.

(** Capacity and lifetime never change. *)
Definition same_params c c' : Prop := rc_capacity c' = rc_capacity c /\ rc_ttl c' = rc_ttl c.
Lemma remove_params id key c : same_params c (remove_element id key c). Proof. by destruct c. Qed.
Lemma get_params now key c : same_params c (Get now key c).2.
Proof. unfold Get, same_params, remove_element, move_to_front. destruct c. cbn. by case_ifs. Qed.
Lemma sweep_params now l c : same_params c (foldl (sweep_one now) c l).
Proof.
  revert c. induction l as [|i l IH]; intros c; [done|]. cbn [foldl]. destruct (IH (sweep_one now c i)) as [H1 H2].
  unfold same_params. rewrite H1, H2. unfold sweep_one. destruct (rc_cells c !! i); [|done]. case_match; [apply remove_params|done].
Qed.
Lemma shrink_params fuel c : same_params c (shrink fuel c).
Proof.
  revert c. induction fuel as [|fuel IH]; intros c; [done|]. cbn [shrink]. case_match; [done|]. destruct (last _); [|done].
  match goal with |- context [shrink fuel ?x] => destruct (IH x) as [H1 H2] end. unfold same_params. rewrite H1, H2. apply remove_params.
Qed.
Lemma set_params now key value c : same_params c (Set_ now key value c).
Proof.
  unfold Set_. destruct (place_capacity key value (now + rc_ttl c) c) as [H1 H2]. set (d := place _ _ _ _) in *. clearbody d.
  destruct (sweep_params now (rc_order d) d) as [H3 H4]. fold (sweep now d) in *.
  destruct (shrink_params (length (rc_order (sweep now d))) (sweep now d)) as [H5 H6]. split; congruence.
Qed.

(** The operations in sequence: a read, or a write with the time it is made. *)
Inductive cache_op := OpGet (now : Z) (key : string) | OpSet (now : Z) (key value : string).
Fixpoint run_cache (ops : list cache_op) c : list (option string) * reasoningCache :=
  match ops with
  | [] => ([], c)
  | OpGet now key :: ops =>
      let '(found, c) := getReasoningFor now key c in let '(rest, c) := run_cache ops c in (found :: rest, c)
  | OpSet now key value :: ops => run_cache ops (setReasonings [(key, value, now)] c)
  end.
Fixpoint run_lru (capacity ttl : Z) (ops : list cache_op) (l : list reasoningEntry) : list (option string) * list reasoningEntry :=
  match ops with
  | [] => ([], l)
  | OpGet now key :: ops =>
      let '(found, l) := if bool_decide (key = "") then (None, l) else lru_get now key l in
      let '(rest, l) := run_lru capacity ttl ops l in (found :: rest, l)
  | OpSet now key value :: ops =>
      run_lru capacity ttl ops (if bool_decide (key = "") then l else lru_set capacity ttl now key value l)
  end.

Lemma run_cache_spec ops c capacity ttl :
  cache_ok c -> rc_capacity c = capacity -> rc_ttl c = ttl ->
  cache_ok (run_cache ops c).2 /\
  ((run_cache ops c).1, contents (run_cache ops c).2) = run_lru capacity ttl ops (contents c).
Proof.
  revert c. induction ops as [|[now key|now key value] ops IH]; intros c Hok Hcap Httl; cbn [run_cache run_lru]; [done|..].
  - unfold getReasoningFor. case_bool_decide.
    + destruct (IH c Hok Hcap Httl) as [A B]. destruct (run_cache ops c) as [rest c'], (run_lru _ _ _ _) as [rest' l']. cbn in *. split; [done|]. by injection B as -> ->.
    + destruct (Get_spec now key c Hok) as [A B].
      assert (Hc : same_params c (Get now key c).2) by apply get_params. unfold same_params in Hc. rewrite Hcap, Httl in Hc.
      destruct (Get now key c) as [found c'], (lru_get now key (contents c)) as [found' l']. cbn in A, B, Hc. injection B as -> <-.
      destruct (IH c' A (proj1 Hc) (proj2 Hc)) as [A' B']. destruct (run_cache ops c') as [rest c''], (run_lru _ _ ops _) as [rest' l''].
      cbn in *. split; [done|]. by injection B' as -> ->.
  - unfold setReasonings. cbn [foldl]. case_bool_decide; [by apply IH|]. destruct (Set_spec now key value c Hok) as [A B].
    pose proof (set_params now key value c) as Hc.
    rewrite <- Hcap, <- Httl, <- B in *. destruct Hc as [H1 H2]. by apply IH.
Qed.

Lemma filter_shorter key (l : list reasoningEntry) : (length (filter (other_key key) l) <= length l)%nat.
Proof. apply length_filter. Qed.
Lemma found_shorter key l e : lru_find key l = Some e -> (S (length (filter (other_key key) l)) <= length l)%nat.
Proof.
  intros [Hin Hk%bool_decide_eq_true]%find_first_Some. apply list_elem_of_split in Hin as (l1 & l2 & ->).
  rewrite filter_app, filter_cons, decide_False by (by unfold other_key; intros []). rewrite !length_app. cbn.
  pose proof (filter_shorter key l1). pose proof (filter_shorter key l2). lia.
Qed.
Lemma run_lru_bounded capacity ttl ops l :
  Z.of_nat (length l) <= capacity -> Z.of_nat (length (run_lru capacity ttl ops l).2) <= capacity.
Proof.
  revert l. induction ops as [|[now key|now key value] ops IH]; intros l Hl; cbn [run_lru]; [done|..].
  - case_bool_decide; [specialize (IH l Hl); by destruct (run_lru _ _ _ _)|].
    assert (Hg : Z.of_nat (length (lru_get now key l).2) <= capacity).
    { unfold lru_get. pose proof (found_shorter key l) as H1. destruct (lru_find key l) as [e|]; [|done]. specialize (H1 e eq_refl).
      pose proof (filter_shorter key l). case_decide; cbn [snd length]; lia. }
    destruct (lru_get now key l) as [f l']. specialize (IH l' Hg). by destruct (run_lru _ _ _ _).
  - case_bool_decide; [by apply IH|]. apply IH. unfold lru_set. rewrite length_take. lia.
Qed.

(** C16: the cache of reasoning texts is a list, most recently used first.  Whatever
    is looked up and stored in whatever order, map and linked list stay consistent
    and answer as the list does: an entry is found until it expires or more than
    the capacity have been used since; at most that many are kept. *)
Theorem reasoning_cache_refines_lru capacity ttl ops :
  let '(found, c) := run_cache ops (newReasoningCache capacity ttl) in
  cache_ok c /\ (found, contents c) = run_lru capacity ttl ops [] /\ (0 <= capacity -> Z.of_nat (length (contents c)) <= capacity).
Proof.
  assert (Hi : cache_ok (newReasoningCache capacity ttl)).
  { split; cbn; [constructor|by intros id Hi%elem_of_nil|done|done]. }
  destruct (run_cache_spec ops _ capacity ttl Hi eq_refl eq_refl) as [A B]. destruct (run_cache ops _) as [found c]. cbn [fst snd] in *.
  change (contents (newReasoningCache capacity ttl)) with (@nil reasoningEntry) in B.
  split; [done|]. split; [done|]. intros Hcap. pose proof (run_lru_bounded capacity ttl ops [] Hcap) as Hl. by rewrite <- B in Hl.
Qed.

Example demo_lru :
  (run_cache [OpSet 0 "a" "A"; OpSet 1 "b" "B"; OpGet 2 "a"; OpSet 3 "c" "C"; OpGet 4 "b"; OpGet 5 "a"; OpGet 103 "c"]
     (newReasoningCache 2 100)).1 = [Some "A"; None; Some "A"; None].
Proof. vm_compute. reflexivity. Qed.
