(* ===== verification/UsageBuckets.v ===== *)
(** * Hourly token usage

    internal/op/usage_bucket.go.  Every finished request adds its usage to the
    row of its hour and model; the dashboard reads sums over time windows.  The
    table [usage_buckets] is a map from the columns of its unique index to the
    rest of a row, and one UPSERT is one update of it.  Times are nanoseconds
    since the epoch, in UTC.  The query language and the float arithmetic of the
    cost column are the database's. *)

From S2P Require Import Prelude GoStrings GoInts.

(** The sum of a column. *)
Definition sum_by {A} (f : A -> Z) (l : list A) : Z := foldr (fun x acc => f x + acc) 0 l.

Lemma sum_by_app {A} (f : A -> Z) l1 l2 : sum_by f (l1 ++ l2) = sum_by f l1 + sum_by f l2.
Proof. induction l1 as [|x l IH]; [done|]. cbn. fold (sum_by f (l ++ l2)). fold (sum_by f l). rewrite IH. lia. Qed.

Lemma sum_by_perm {A} (f : A -> Z) l1 l2 : l1 ≡ₚ l2 -> sum_by f l1 = sum_by f l2.
Proof. induction 1; cbn; repeat match goal with |- context [foldr ?g 0 ?l] => fold (sum_by f l) end; lia. Qed.

Definition hour : Z := 3600 * 10 ^ 9.

(** [t.Truncate(d)] and [t.UnixMilli()]. *)
Definition truncate (t d : Z) : Z := t - t mod d.
Definition unix_milli (t : Z) : Z := t / 10 ^ 6.

#[local] Set Default Proof Using "Type*".

Section usage.
Context {Cost : Type} (cost_zero : Cost) (cost_add : Cost -> Cost -> Cost) (cost_negative : Cost -> bool).
Context `{ord : !MapOrder (Z * string)}.

Record UsageBucket := {
  InputTokens : Z; OutputTokens : Z; ReasoningTokens : Z; CachedTokens : Z;
  bucket_cost : Cost; DurationMs : Z; RequestCount : Z; ErrorCount : Z;
}.

Notation Table := (gmap (Z * string) UsageBucket).
Implicit Types (t : Table) (now : Z).

(** ** Recording *)

(** One call of [RecordUsageBucket]. *)
Record Report := {
  rp_model : string; rp_input : Z; rp_output : Z; rp_reasoning : Z; rp_cached : Z;
  rp_cost : Cost; rp_duration : Z;
}.

Definition non_negative (n : Z) : Z := if n <? 0 then 0 else n.

Definition reported (rp : Report) : bool :=
  negb (rp_model rp =? "")%string && negb ((rp_input rp <=? 0) && (rp_output rp <=? 0)).

Definition usage_row (rp : Report) : UsageBucket := {|
  InputTokens := non_negative (rp_input rp); OutputTokens := non_negative (rp_output rp);
  ReasoningTokens := non_negative (rp_reasoning rp); CachedTokens := non_negative (rp_cached rp);
  bucket_cost := if cost_negative (rp_cost rp) then cost_zero else rp_cost rp;
  DurationMs := non_negative (rp_duration rp); RequestCount := 1; ErrorCount := 0 |}.

(** The assignments of ON CONFLICT DO UPDATE: the error count stays. *)
Definition accumulate (row b : UsageBucket) : UsageBucket := {|
  InputTokens := InputTokens b + InputTokens row; OutputTokens := OutputTokens b + OutputTokens row;
  ReasoningTokens := ReasoningTokens b + ReasoningTokens row; CachedTokens := CachedTokens b + CachedTokens row;
  bucket_cost := cost_add (bucket_cost b) (bucket_cost row); DurationMs := DurationMs b + DurationMs row;
  RequestCount := RequestCount b + 1; ErrorCount := ErrorCount b |}.

(** [gormDB] is nil before the database is opened; [written] tells whether the
    statement succeeded, a failure is only logged. *)
Definition RecordUsageBucket now (written : bool) (rp : Report) (db : option Table) : option Table :=
  match db with
  | None => None
  | Some t =>
      if negb (reported rp) then Some t
      else if negb written then Some t
      else
        let key := (truncate now hour, rp_model rp) in
        Some (<[key := match t !! key with
                       | None => usage_row rp
                       | Some b => accumulate (usage_row rp) b
                       end]> t)
  end.

Definition error_row : UsageBucket := {|
  InputTokens := 0; OutputTokens := 0; ReasoningTokens := 0; CachedTokens := 0; bucket_cost := cost_zero;
  DurationMs := 0; RequestCount := 0; ErrorCount := 1 |}.

Definition count_error (b : UsageBucket) : UsageBucket := {|
  InputTokens := InputTokens b; OutputTokens := OutputTokens b; ReasoningTokens := ReasoningTokens b;
  CachedTokens := CachedTokens b; bucket_cost := bucket_cost b; DurationMs := DurationMs b;
  RequestCount := RequestCount b; ErrorCount := ErrorCount b + 1 |}.

Definition RecordErrorBucket now (written : bool) (model : string) (db : option Table) : option Table :=
  match db with
  | None => None
  | Some t =>
      if (model =? "")%string then Some t
      else if negb written then Some t
      else
        let key := (truncate now hour, model) in
        Some (<[key := match t !! key with None => error_row | Some b => count_error b end]> t)
  end.

(** ** Windows *)

Record UsageWindow := { span : Z; step : Z; count : Z }.

Definition usageWindows (key : string) : option UsageWindow :=
  if (key =? "24h")%string then Some {| span := 24 * hour; step := hour; count := 24 |}
  else if (key =? "7d")%string then Some {| span := 7 * 24 * hour; step := 6 * hour; count := 28 |}
  else if (key =? "30d")%string then Some {| span := 30 * 24 * hour; step := 24 * hour; count := 30 |}
  else if (key =? "1y")%string then Some {| span := 365 * 24 * hour; step := 7 * 24 * hour; count := 53 |}
  else if (key =? "3y")%string then Some {| span := 3 * 365 * 24 * hour; step := 30 * 24 * hour; count := 37 |}
  else if (key =? "forever")%string then Some {| span := 10 * 365 * 24 * hour; step := 30 * 24 * hour; count := 121 |}
  else None.

Definition ValidUsageRange (key : string) : bool := is_some (usageWindows key).

Definition window_or (fallback key : string) : UsageWindow :=
  match usageWindows key with
  | Some w => w
  | None => default {| span := 0; step := 1; count := 0 |} (usageWindows fallback)
  end.

Record UsageTrendPoint := { T : Z; In_ : Z; Out_ : Z }.

Definition window_start now (w : UsageWindow) : Z := truncate now hour - span w + hour.

Definition empty_points (start : Z) (w : UsageWindow) : list UsageTrendPoint :=
  (fun i => {| T := unix_milli (start + i * step w); In_ := 0; Out_ := 0 |}) <$> seqZ 0 (count w).

Definition add_to_point (b : UsageBucket) (p : UsageTrendPoint) : UsageTrendPoint :=
  {| T := T p; In_ := wrap64 (In_ p + InputTokens b); Out_ := wrap64 (Out_ p + OutputTokens b) |}.

(** The body of the loop over the rows that were read. *)
Definition place_bucket (start : Z) (w : UsageWindow) (row : (Z * string) * UsageBucket)
    (sums : list UsageTrendPoint) : list UsageTrendPoint :=
  let idx := Z.quot (row.1.1 - start) (step w) in
  if (idx <? 0) || (count w <=? idx) then sums else alter (add_to_point row.2) (Z.to_nat idx) sums.

(** The rows of a query whose condition bounds the column bucket_at. *)
Definition rows_where (p : Z -> bool) t : list ((Z * string) * UsageBucket) :=
  filter (fun row => p row.1.1) (map_order t).

(** The rows a query returns; none before the database is opened or when the
    query fails, and the sums are then zero. *)
Definition rows_read (read : bool) (p : Z -> bool) (db : option Table) : list ((Z * string) * UsageBucket) :=
  match db with Some t => if read then rows_where p t else [] | None => [] end.

(** [read] tells whether the query succeeded; the points are there in any case. *)
Definition UsageTrendPoints now (read : bool) (key : string) (db : option Table) : list UsageTrendPoint * bool :=
  let w := window_or "7d" key in
  let start := window_start now w in
  match db with
  | None => (empty_points start w, true)
  | Some t =>
      let upper := truncate now hour + hour in
      let buckets := rows_read read (fun at_ => (start <=? at_) && (at_ <? upper)) db in
      (foldl (fun sums row => place_bucket start w row sums) (empty_points start w) buckets, read)
  end.

(** ** Sums *)

(** [days] is the retention setting: [None] when it is missing or no number. *)
Definition usageRetentionDays (days : option Z) : Z :=
  match days with None => 0 | Some d => if d <? 0 then 0 else d end.

(** The zero time is [None]: no lower bound. *)
Definition usageRetentionCutoff now (days : option Z) : option Z :=
  let d := usageRetentionDays days in if d <=? 0 then None else Some (now - d * (24 * hour)).

Definition from_cutoff (cutoff : option Z) (at_ : Z) : bool :=
  match cutoff with None => true | Some c => c <=? at_ end.

Definition UsageTotals now (read : bool) (days : option Z) (db : option Table) : Z * Z :=
  let rows := rows_read read (from_cutoff (usageRetentionCutoff now days)) db in
  (sum_by (fun row => InputTokens row.2) rows, sum_by (fun row => OutputTokens row.2) rows).

Definition UsageWindowSince now (key : string) : option Z :=
  match usageWindows key with
  | None => None
  | Some w => if (key =? "forever")%string then None else Some (truncate now hour - span w)
  end.

(** The lower bound of the KPI queries. *)
Definition kpi_bound now (days : option Z) (key : string) : option Z :=
  let key := match usageWindows key with None => "forever" | Some _ => key end in
  if negb (key =? "forever")%string then Some (truncate now hour - span (window_or "forever" key))
  else usageRetentionCutoff now days.

Definition UsageKPIsByRange now (read : bool) (days : option Z) (key : string) (db : option Table) : Z * Z * Z :=
  let rows := rows_read read (from_cutoff (kpi_bound now days key)) db in
  (sum_by (fun row => InputTokens row.2) rows, sum_by (fun row => OutputTokens row.2) rows,
   sum_by (fun row => RequestCount row.2) rows).

Definition UsageErrorCountByRange now (read : bool) (days : option Z) (key : string) (db : option Table) : Z :=
  sum_by (fun row => ErrorCount row.2) (rows_read read (from_cutoff (kpi_bound now days key)) db).

(** The number of rows deleted, and what is left. *)
Definition UsageBucketCleanExpired now (days : option Z) t : Z * Table :=
  let d := usageRetentionDays days in
  if d <=? 0 then (0, t)
  else
    let cutoff := now - d * (24 * hour) in
    let kept := filter (fun row => cutoff <= row.1.1) t in
    (Z.of_nat (size t) - Z.of_nat (size kept), kept).

(** ** What a row holds *)

Definition Call := (Z * bool * Report)%type.

Definition record_all (calls : list Call) (db : option Table) : option Table :=
  foldl (fun db c => RecordUsageBucket c.1.1 c.1.2 c.2 db) db calls.

(** The calls that count for one hour and one model. *)
Definition counted (key : Z * string) (c : Call) : bool :=
  c.1.2 && reported c.2 && bool_decide ((truncate c.1.1 hour, rp_model c.2) = key).

(** [b] is the sum of the rows of [calls]. *)
Definition totals_of (calls : list Call) (b : UsageBucket) : Prop :=
  InputTokens b = sum_by (fun c => non_negative (rp_input c.2)) calls /\
  OutputTokens b = sum_by (fun c => non_negative (rp_output c.2)) calls /\
  ReasoningTokens b = sum_by (fun c => non_negative (rp_reasoning c.2)) calls /\
  CachedTokens b = sum_by (fun c => non_negative (rp_cached c.2)) calls /\
  DurationMs b = sum_by (fun c => non_negative (rp_duration c.2)) calls /\
  RequestCount b = Z.of_nat (length calls) /\ ErrorCount b = 0.

Lemma totals_first c : totals_of [c] (usage_row c.2).
Proof. unfold totals_of. cbn. repeat split; lia. Qed.

Lemma totals_snoc calls c b : totals_of calls b -> totals_of (calls ++ [c]) (accumulate (usage_row c.2) b).
Proof.
  unfold totals_of. intros (H1 & H2 & H3 & H4 & H5 & H6 & H7).
  rewrite !sum_by_app, length_app. cbn [accumulate InputTokens OutputTokens ReasoningTokens CachedTokens
    DurationMs RequestCount ErrorCount usage_row sum_by foldr length].
  repeat split; lia.
Qed.

Lemma record_lookup c t key :
  exists t', RecordUsageBucket c.1.1 c.1.2 c.2 (Some t) = Some t' /\
    t' !! key = if counted key c
                then Some (match t !! key with None => usage_row c.2 | Some b => accumulate (usage_row c.2) b end)
                else t !! key.
Proof.
  unfold RecordUsageBucket, counted. destruct (reported c.2), c.1.2; cbn [negb andb]; eauto.
  eexists. split; [done|]. cbn [andb]. case_bool_decide as Hk.
  - subst key. cbv zeta. by rewrite lookup_insert_eq.
  - cbv zeta. by rewrite lookup_insert_ne.
Qed.

(** After any calls, the row of an hour and a model holds the sum of the
    usage reported for them, negative counts read as zero, and there is no row
    when nothing was reported. *)
Theorem usage_rows_are_sums calls :
  exists t, record_all calls (Some ∅) = Some t /\
    forall key, match t !! key with
                | None => filter (counted key) calls = []
                | Some b => filter (counted key) calls <> [] /\ totals_of (filter (counted key) calls) b
                end.
Proof.
  induction calls as [|c calls (t & Ht & IH)] using rev_ind.
  { exists ∅. split; [done|]. intros key. by rewrite lookup_empty. }
  unfold record_all in *. rewrite foldl_app, Ht. cbn [foldl].
  destruct (record_lookup c t (0, ""%string)) as (t' & Ht' & _). exists t'. split; [done|].
  intros key. destruct (record_lookup c t key) as (t'' & Ht'' & Hkey). rewrite Ht'' in Ht'. simplify_eq.
  rewrite Hkey, filter_app, filter_cons, filter_nil. specialize (IH key).
  destruct (counted key c); cbn [decide]; [destruct (decide (Is_true true)) as [_|[]]; [|done]|].
  - destruct (t !! key) as [b|].
    + destruct IH as [Hne Hb]. split; [|by apply totals_snoc]. by destruct (filter _ calls).
    + rewrite IH. split; [done|apply totals_first].
  - destruct (decide (Is_true false)) as [[]|_]. rewrite app_nil_r. exact IH.
Qed.

(** ** What the points of a trend hold *)

Lemma wrap64_add a b : wrap64 (wrap64 a + b) = wrap64 (a + b).
Proof.
  unfold wrap64. f_equal.
  replace ((a + 2 ^ 63) mod 2 ^ 64 - 2 ^ 63 + b + 2 ^ 63) with ((a + 2 ^ 63) mod 2 ^ 64 + b) by lia.
  rewrite Z.add_mod_idemp_l by lia. f_equal. lia.
Qed.

(** The instant lies in the [i]-th interval of the window. *)
Definition in_point (start : Z) (w : UsageWindow) (i at_ : Z) : bool :=
  (start + i * step w <=? at_) && (at_ <? start + (i + 1) * step w).

Definition point_sum (start : Z) (w : UsageWindow) (i : Z) (rows : list ((Z * string) * UsageBucket)) : UsageTrendPoint :=
  let inside := filter (fun row => in_point start w i row.1.1) rows in
  {| T := unix_milli (start + i * step w);
     In_ := wrap64 (sum_by (fun row => InputTokens row.2) inside);
     Out_ := wrap64 (sum_by (fun row => OutputTokens row.2) inside) |}.

Lemma point_index start w at_ i :
  0 < step w -> start <= at_ -> in_point start w i at_ = true <-> Z.quot (at_ - start) (step w) = i.
Proof.
  intros Hs Hat. unfold in_point. rewrite andb_true_iff, Z.leb_le, Z.ltb_lt.
  rewrite Z.quot_div_nonneg by lia. split.
  - intros [H1 H2]. symmetry. apply (Z.div_unique_pos _ _ _ (at_ - start - i * step w)); lia.
  - intros <-. pose proof (Z.div_mod (at_ - start) (step w) ltac:(lia)).
    pose proof (Z.mod_pos_bound (at_ - start) (step w) ltac:(lia)). lia.
Qed.

Lemma place_points start w row rows :
  0 < step w -> start <= row.1.1 ->
  place_bucket start w row ((fun i => point_sum start w i rows) <$> seqZ 0 (count w)) =
    (fun i => point_sum start w i (rows ++ [row])) <$> seqZ 0 (count w).
Proof.
  intros Hs Hat. unfold place_bucket. set (idx := Z.quot _ _).
  assert (Hidx : forall i, in_point start w i row.1.1 = bool_decide (idx = i)).
  { intros i. pose proof (point_index start w row.1.1 i Hs Hat). case_bool_decide as Hi; [tauto|].
    destruct (in_point start w i row.1.1); [tauto|done]. }
  assert (Hsum : forall i, point_sum start w i (rows ++ [row]) =
            if bool_decide (idx = i) then add_to_point row.2 (point_sum start w i rows) else point_sum start w i rows).
  { intros i. unfold point_sum, add_to_point. rewrite filter_app, filter_cons, filter_nil, Hidx.
    case_bool_decide; cbn [T In_ Out_].
    - destruct (decide _) as [_|[]]; [|done]. rewrite !sum_by_app, !wrap64_add. cbn. by rewrite !Z.add_0_r.
    - destruct (decide _) as [[]|_]. by rewrite app_nil_r. }
  apply list_eq. intros k. rewrite !list_lookup_fmap.
  destruct ((idx <? 0) || (count w <=? idx)) eqn:Hout.
  - rewrite list_lookup_fmap. destruct (seqZ 0 (count w) !! k) as [i|] eqn:Hk; cbn; [|done].
    apply lookup_seqZ in Hk as [-> Hlt]. rewrite Hsum. case_bool_decide as Hi; [|done].
    apply orb_true_iff in Hout as [?%Z.ltb_lt|?%Z.leb_le]; lia.
  - apply orb_false_iff in Hout as [H1%Z.ltb_ge H2%Z.leb_gt].
    destruct (decide (Z.to_nat idx = k)) as [<-|Hne].
    + rewrite list_lookup_alter_eq, list_lookup_fmap.
      rewrite (proj2 (lookup_seqZ 0 (count w) (Z.to_nat idx) idx)) by lia. cbn.
      rewrite Hsum. by rewrite bool_decide_true.
    + rewrite list_lookup_alter_ne by done. rewrite list_lookup_fmap.
      destruct (seqZ 0 (count w) !! k) as [i|] eqn:Hk; cbn; [|done].
      apply lookup_seqZ in Hk as [-> Hlt]. rewrite Hsum, bool_decide_false; [done|]. lia.
Qed.

Lemma place_all start w rows :
  0 < step w -> (forall row, row ∈ rows -> start <= row.1.1) ->
  foldl (fun sums row => place_bucket start w row sums) (empty_points start w) rows =
    (fun i => point_sum start w i rows) <$> seqZ 0 (count w).
Proof.
  intros Hs. induction rows as [|row rows IH] using rev_ind; intros Hin; [done|].
  rewrite foldl_app. cbn [foldl]. rewrite IH by set_solver. apply place_points; [done|]. apply Hin. set_solver.
Qed.

Lemma rows_where_spec p t row : row ∈ rows_where p t <-> t !! row.1 = Some row.2 /\ p row.1.1 = true.
Proof.
  unfold rows_where. rewrite list_elem_of_filter. destruct row as [key b]. rewrite elem_of_map_order, Is_true_true.
  tauto.
Qed.

(** Every window but the last covers its span. *)
Definition covers (w : UsageWindow) : bool := (0 <? step w) && (span w <=? count w * step w).

Lemma windows_cover key w : usageWindows key = Some w -> 0 < step w /\ (key <> "forever"%string -> span w <= count w * step w).
Proof.
  unfold usageWindows. intros Hw. repeat (case_match; [simplify_eq; split; [by vm_compute|intros; by vm_compute]|]).
  case_match; [|done]. simplify_eq. split; [by vm_compute|]. intros []. by apply String.eqb_eq.
Qed.

(** The points of a trend are the sums over consecutive intervals of the
    window; in every range but [forever] each row of the window is in exactly one
    of them. *)
Theorem trend_points_exact now key w t :
  usageWindows key = Some w ->
  let start := window_start now w in
  let rows := rows_where (fun at_ => (start <=? at_) && (at_ <? truncate now hour + hour)) t in
  UsageTrendPoints now true key (Some t) = ((fun i => point_sum start w i rows) <$> seqZ 0 (count w), true) /\
  (key <> "forever"%string -> forall row, row ∈ rows ->
    exists i, 0 <= i < count w /\ forall j, in_point start w j row.1.1 = true <-> j = i).
Proof.
  intros Hw start rows. destruct (windows_cover key w Hw) as [Hs Hcov].
  assert (Hrows : forall row, row ∈ rows -> start <= row.1.1 < truncate now hour + hour).
  { intros row [_ Hp]%rows_where_spec. apply andb_true_iff in Hp as [?%Z.leb_le ?%Z.ltb_lt]. lia. }
  split.
  - unfold UsageTrendPoints, window_or, rows_read. rewrite Hw. cbv zeta. fold start. fold rows.
    f_equal. apply place_all; [done|]. intros row Hin. by apply Hrows.
  - intros Hkey row Hin. specialize (Hcov Hkey). specialize (Hrows row Hin).
    set (i := Z.quot (row.1.1 - start) (step w)). exists i.
    assert (Hi : forall j, in_point start w j row.1.1 = true <-> j = i).
    { intros j. rewrite point_index by lia. unfold i. split; congruence. }
    split; [|done]. assert (Hii : in_point start w i row.1.1 = true) by by apply Hi.
    unfold in_point in Hii. apply andb_true_iff in Hii as [H1%Z.leb_le H2%Z.ltb_lt].
    unfold window_start in *. split; nia.
Qed.

(** Cleaning up removes exactly the rows before the retention bound, and the
    totals shown at that instant do not change. *)
Theorem cleanup_keeps_totals now read days t :
  let '(removed, t') := UsageBucketCleanExpired now days t in
  UsageTotals now read days (Some t') = UsageTotals now read days (Some t) /\
  t' ⊆ t /\ removed = Z.of_nat (size t) - Z.of_nat (size t') /\
  forall key b, t !! key = Some b ->
    t' !! key = Some b <-> from_cutoff (usageRetentionCutoff now days) key.1 = true.
Proof.
  unfold UsageBucketCleanExpired. unfold UsageTotals, usageRetentionCutoff. set (d := usageRetentionDays days).
  destruct (d <=? 0) eqn:Hd; [split; [done|]; split; [done|]; split; [lia|]; cbn; tauto|].
  set (cutoff := now - _). cbn [from_cutoff].
  assert (Hrows : rows_read read (Z.leb cutoff) (Some (filter (fun row => cutoff <= row.1.1) t)) ≡ₚ
                  rows_read read (Z.leb cutoff) (Some t)).
  { unfold rows_read. destruct read; [|done].
    apply NoDup_Permutation; [apply NoDup_filter; rewrite map_order_perm; apply NoDup_map_to_list..|].
    intros [k b]. rewrite !rows_where_spec, map_lookup_filter_Some, Z.leb_le. cbn. tauto. }
  split; [by rewrite !(sum_by_perm _ _ _ Hrows)|]. split; [apply map_filter_subseteq|]. split; [done|].
  intros key b Hk. rewrite map_lookup_filter_Some, Z.leb_le. cbn. tauto.
Qed.
End usage.

(** The range [forever] has 121 points of 30 days, 3630 days, for a span of 3650:
    usage of the last twenty days, the current hour included, is in none of them. *)
Theorem forever_drops_latest now at_ w i :
  usageWindows "forever" = Some w -> truncate now hour - 19 * 24 * hour <= at_ -> 0 <= i < count w ->
  in_point (window_start now w) w i at_ = false.
Proof.
  intros Hw Hat Hi. vm_compute in Hw. simplify_eq. unfold in_point, window_start, hour in *.
  cbn [step span count] in *. apply andb_false_iff. right. apply Z.ltb_ge. lia.
Qed.

(** One report, now. *)
Definition demo_usage : gmap (Z * string) (UsageBucket (Cost := Z)) :=
  default ∅ (record_all 0 Z.add (fun c => c <? 0)
    [(10 ^ 18, true, {| rp_model := "m"; rp_input := 5; rp_output := -1; rp_reasoning := 0; rp_cached := 0;
                        rp_cost := 0; rp_duration := 7 |})] (Some ∅)).

Example demo_trends :
  (fun key => sum_by In_ (UsageTrendPoints (10 ^ 18) true key (Some demo_usage)).1) <$> ["24h"; "7d"; "30d"; "1y"; "3y"; "forever"]%string
  = [5; 5; 5; 5; 5; 0] /\
  UsageTotals (10 ^ 18) true (Some 30) (Some demo_usage) = (5, 0).
Proof. split; vm_compute; reflexivity. Qed.

Lemma forever_drops_latest_witness :
  in_point (window_start (10 ^ 18) {| span := 10 * 365 * 24 * hour; step := 30 * 24 * hour; count := 121 |})
    {| span := 10 * 365 * 24 * hour; step := 30 * 24 * hour; count := 121 |} 120 (10 ^ 18) = false.
Proof. apply forever_drops_latest; [reflexivity|by vm_compute|cbn; lia]. Defined.

Lemma trend_points_exact_witness :
  let w := {| span := 24 * hour; step := hour; count := 24 |} in
  let start := window_start (10 ^ 18) w in
  let rows := rows_where (fun at_ => (start <=? at_) && (at_ <? truncate (10 ^ 18) hour + hour)) demo_usage in
  UsageTrendPoints (10 ^ 18) true "24h" (Some demo_usage) = ((fun i => point_sum start w i rows) <$> seqZ 0 24, true).
Proof.
  intros w start rows.
  apply (proj1 (trend_points_exact 0 Z.add (fun c => c <? 0) (10 ^ 18) "24h" w demo_usage eq_refl)).
Defined.
