(* ===== verification/LoginLimit.v ===== *)
(** * The login limiter

    internal/server/handlers/loginratelimit.go and the three handlers of user.go
    that verify a password.  A failed verification is a row of [login_attempts];
    a client with five rows in the last quarter of an hour is refused.  The lock
    of a client is held from the check to the record, requests of other clients
    interleave.  Times are nanoseconds; whether a statement succeeds is an
    argument. *)

From S2P Require Import Prelude GoStrings.

Record LoginAttempt := { IP : string; CreatedAt : Z }.

(** The fields [window] and [maxFails] are set once; [lastSweep] is [None] for the
    zero time; [attempts] is the table. *)
Record loginRateLimiter := {
  window : Z; maxFails : Z; lastSweep : option Z; attempts : list LoginAttempt;
}.

Definition loginFailWindow : Z := 15 * 60 * 10 ^ 9.
Definition loginMaxFailures : Z := 5.

Definition newLoginRateLimiter (w m : Z) : loginRateLimiter :=
  {| window := w; maxFails := m; lastSweep := None; attempts := [] |}.

Definition sweepIfNeeded (now : Z) (swept : bool) (l : loginRateLimiter) : loginRateLimiter :=
  let due := match lastSweep l with None => true | Some at_ => Z.quot (window l) 4 <=? now - at_ end in
  if due then
    {| window := window l; maxFails := maxFails l; lastSweep := Some now;
       attempts := if swept then filter (fun a => now - window l < CreatedAt a) (attempts l) else attempts l |}
  else l.

Definition created_before (a b : LoginAttempt) : Prop := CreatedAt a <= CreatedAt b.
#[export] Instance created_before_dec a b : Decision (created_before a b) := Z_le_dec _ _.
#[export] Instance created_before_total : Total created_before.
Proof. intros a b. unfold created_before. lia. Qed.
#[export] Instance created_before_trans : Transitive created_before.
Proof. intros a b c. unfold created_before. lia. Qed.

(** The rows of the query: WHERE, ORDER BY, LIMIT. *)
Definition recent_attempts (now : Z) (ip : string) (l : loginRateLimiter) : list LoginAttempt :=
  filter (fun a => IP a = ip /\ now - window l < CreatedAt a) (attempts l).

Definition first_attempts (now : Z) (ip : string) (l : loginRateLimiter) : list LoginAttempt :=
  take (Z.to_nat (maxFails l)) (merge_sort created_before (recent_attempts now ip l)).

(** The verdict and the advised wait; [maxFails] is positive, so a full list has a
    first row. *)
Definition check (now : Z) (swept read : bool) (ip : string) (l : loginRateLimiter) : (bool * Z) * loginRateLimiter :=
  let l := sweepIfNeeded now swept l in
  if negb read then ((false, 0), l)
  else
    let rows := first_attempts now ip l in
    if maxFails l <=? Z.of_nat (length rows) then
      let retryAfter := from_option CreatedAt 0 (head rows) + window l - now in
      ((false, if retryAfter <? 0 then 0 else retryAfter), l)
    else ((true, 0), l).

Definition recordFailure (now : Z) (swept written : bool) (ip : string) (l : loginRateLimiter) : loginRateLimiter :=
  let l := sweepIfNeeded now swept l in
  if written then
    {| window := window l; maxFails := maxFails l; lastSweep := lastSweep l;
       attempts := attempts l ++ [{| IP := ip; CreatedAt := now |}] |}
  else l.

Definition reset (deleted : bool) (ip : string) (l : loginRateLimiter) : loginRateLimiter :=
  if deleted then
    {| window := window l; maxFails := maxFails l; lastSweep := lastSweep l;
       attempts := filter (fun a => IP a <> ip) (attempts l) |}
  else l.

(** [rejectRateLimited]: the header Retry-After, in whole seconds. *)
Definition retry_after_header (retryAfter : Z) : Z :=
  let seconds := (retryAfter + (10 ^ 9 - 1)) / 10 ^ 9 in if seconds <? 1 then 1 else seconds.

(** ** The handlers *)

(** What follows the check: the body is no JSON or the new name or password is
    refused, the password is wrong, it is right (even when a later step of the
    handler fails and the counter is reset), or the database failed. *)
Inductive Verdict := Refused | WrongPassword | RightPassword | StoreFailed.

Inductive Answer := TooMany (seconds : Z) | BadRequest | Unauthorized | Success | InternalError.

Record Attempted := {
  at_check : Z; at_record : Z; at_swept : bool; at_read : bool; at_swept' : bool; at_written : bool;
}.

(** What a handler does to the counters once the password has been judged. *)
Definition settle (key : string) (w : Attempted) (v : Verdict) (l : loginRateLimiter) : loginRateLimiter :=
  match v with
  | WrongPassword => recordFailure (at_record w) (at_swept' w) (at_written w) key l
  | RightPassword => reset (at_written w) key l
  | Refused | StoreFailed => l
  end.

Definition guarded (key : string) (wrong : Answer) (w : Attempted) (v : Verdict) (l : loginRateLimiter) : Answer * loginRateLimiter :=
  let '((allowed, retryAfter), l) := check (at_check w) (at_swept w) (at_read w) key l in
  if negb allowed then (TooMany (retry_after_header retryAfter), l)
  else (match v with
        | Refused => BadRequest | WrongPassword => wrong | RightPassword => Success | StoreFailed => InternalError
        end, settle key w v l).

(** A failure to sign the token comes after the counter is reset. *)
Definition login (ip : string) (signed : bool) (w : Attempted) (v : Verdict) (l : loginRateLimiter) : Answer * loginRateLimiter :=
  let '(answer, l) := guarded ip Unauthorized w v l in
  (match answer with Success => if signed then Success else InternalError | _ => answer end, l).

Definition credentialVerifyLimitKey (ip : string) : string := ("credential-verify:" ++ ip)%string.

Definition changePassword (ip : string) (w : Attempted) (v : Verdict) (l : loginRateLimiter) : Answer * loginRateLimiter :=
  guarded (credentialVerifyLimitKey ip) BadRequest w v l.

(** The name is trimmed and measured before the password is looked at. *)
Definition name_length_ok (runes : Z) : bool := negb ((runes <? 2) || (64 <? runes)).

Definition changeUsername (ip : string) (runes : Z) (unchanged : bool) (w : Attempted) (v : Verdict) (l : loginRateLimiter) : Answer * loginRateLimiter :=
  let v := if negb (name_length_ok runes) then match v with Refused => v | _ => Refused end
           else match v with RightPassword => if unchanged then Refused else v | _ => v end in
  guarded (credentialVerifyLimitKey ip) BadRequest w v l.

(** ** Interleavings

    [held] has the clients whose lock is held behind a check that allowed them,
    with the instant of that check; [recorded] the failures that were written
    since the last success of their client. *)
Record Logins := { lg_limiter : loginRateLimiter; lg_held : gmap string Z; lg_clock : Z; lg_recorded : list LoginAttempt }.

Definition logins_init (w m : Z) : Logins :=
  {| lg_limiter := newLoginRateLimiter w m; lg_held := ∅; lg_clock := 0; lg_recorded := [] |}.

Inductive login_step : Logins -> Logins -> Prop :=
  | step_check s now swept read key allowed retry l :
      lg_clock s <= now -> lg_held s !! key = None ->
      check now swept read key (lg_limiter s) = ((allowed, retry), l) ->
      login_step s {| lg_limiter := l; lg_held := if allowed : bool then <[key := now]> (lg_held s) else lg_held s;
                      lg_clock := now; lg_recorded := lg_recorded s |}
  | step_settle s now swept written key checked v :
      lg_clock s <= now -> lg_held s !! key = Some checked ->
      login_step s {| lg_limiter := settle key {| at_check := checked; at_record := now; at_swept := true; at_read := true;
                                                  at_swept' := swept; at_written := written |} v (lg_limiter s);
                      lg_held := delete key (lg_held s); lg_clock := now;
                      lg_recorded := match v, written with
                                     | WrongPassword, true => lg_recorded s ++ [{| IP := key; CreatedAt := now |}]
                                     | RightPassword, true => filter (fun a => IP a <> key) (lg_recorded s)
                                     | _, _ => lg_recorded s
                                     end |}.

(** ** Invariant *)

Lemma filter_agree {A} (P Q : A -> Prop) `{forall x, Decision (P x), forall x, Decision (Q x)} (l : list A) :
  (forall a, a ∈ l -> P a <-> Q a) -> filter P l = filter Q l.
Proof.
  induction l as [|a l IH]; intros Heq; [done|]. rewrite !filter_cons, IH by set_solver.
  specialize (Heq a ltac:(left)). repeat case_decide; tauto.
Qed.

Lemma filter_keeps {A} (P : A -> Prop) `{forall x, Decision (P x)} (l : list A) :
  (forall a, a ∈ l -> P a) -> filter P l = l.
Proof.
  induction l as [|a l IH]; intros Hall; [done|]. rewrite filter_cons, IH by set_solver.
  by rewrite decide_True by (apply Hall; left).
Qed.

Definition recent (t : Z) (key : string) (rows : list LoginAttempt) : list LoginAttempt :=
  filter (fun a => IP a = key /\ t < CreatedAt a) rows.

(** The failures of a client in the window that ends at [t]. *)
Definition failures_in (w t : Z) (key : string) (rows : list LoginAttempt) : Z :=
  Z.of_nat (length (filter (fun a => IP a = key /\ t - w < CreatedAt a <= t) rows)).

Record logins_ok (w m : Z) (s : Logins) : Prop := {
  lo_limits : window (lg_limiter s) = w /\ maxFails (lg_limiter s) = m;
  lo_clock : forall a, a ∈ lg_recorded s -> CreatedAt a <= lg_clock s;
  lo_rows : forall key t, lg_clock s - w <= t -> recent t key (attempts (lg_limiter s)) = recent t key (lg_recorded s);
  lo_held : forall key c, lg_held s !! key = Some c ->
    c <= lg_clock s /\ Z.of_nat (length (recent (c - w) key (lg_recorded s))) < m;
  lo_bound : forall key t, failures_in w t key (lg_recorded s) <= m;
}.

Lemma recent_filter t u key rows : u <= t -> recent t key (filter (fun a => u < CreatedAt a) rows) = recent t key rows.
Proof.
  intros Hu. unfold recent. rewrite list_filter_filter. apply list_filter_iff. intros a. split; intros; intuition lia.
Qed.

Lemma recent_recent t u key rows : u <= t -> recent t key (recent u key rows) = recent t key rows.
Proof.
  intros Hu. unfold recent. rewrite list_filter_filter. apply list_filter_iff. intros a. split; intros; intuition lia.
Qed.

Lemma recent_snoc t key rows a :
  recent t key (rows ++ [a]) = recent t key rows ++ (if decide (IP a = key /\ t < CreatedAt a) then [a] else []).
Proof. unfold recent. by rewrite filter_app, filter_cons, filter_nil. Qed.

Lemma recent_reset t key ip rows :
  recent t key (filter (fun a => IP a <> ip) rows) = if decide (key = ip) then [] else recent t key rows.
Proof.
  unfold recent. rewrite list_filter_filter. case_decide as Hk.
  - subst. induction rows as [|a rows IH]; [done|]. rewrite filter_cons, decide_False by tauto. done.
  - apply list_filter_iff. intros a. split; intros; intuition congruence.
Qed.

Lemma failures_recent w t key rows : failures_in w t key rows <= Z.of_nat (length (recent (t - w) key rows)).
Proof.
  unfold failures_in. apply inj_le. rewrite <- (length_filter (fun a => CreatedAt a <= t) (recent (t - w) key rows)).
  unfold recent. rewrite list_filter_filter. apply Nat.eq_le_incl. f_equal. apply list_filter_iff. intros a. intuition lia.
Qed.

Lemma failures_snoc w t key rows a :
  failures_in w t key (rows ++ [a]) =
    failures_in w t key rows + (if decide (IP a = key /\ t - w < CreatedAt a <= t) then 1 else 0).
Proof.
  unfold failures_in. rewrite filter_app, filter_cons, filter_nil, length_app. case_decide; cbn [length]; lia.
Qed.

Lemma failures_reset w t key ip rows : failures_in w t key (filter (fun a => IP a <> ip) rows) <= failures_in w t key rows.
Proof.
  unfold failures_in. apply inj_le. rewrite list_filter_filter.
  rewrite <- (length_filter (fun a => IP a <> ip) (filter (fun a => IP a = key /\ t - w < CreatedAt a <= t) rows)).
  rewrite list_filter_filter. apply Nat.eq_le_incl. f_equal. apply list_filter_iff. intros a. tauto.
Qed.

Lemma sweep_rows now swept l key t :
  now - window l <= t -> recent t key (attempts (sweepIfNeeded now swept l)) = recent t key (attempts l).
Proof.
  intros Ht. unfold sweepIfNeeded. case_match; [|done]. cbn [attempts]. destruct swept; [|done]. by apply recent_filter.
Qed.

Lemma sweep_limits now swept l :
  window (sweepIfNeeded now swept l) = window l /\ maxFails (sweepIfNeeded now swept l) = maxFails l.
Proof. unfold sweepIfNeeded. by case_match. Qed.

Lemma first_attempts_length now ip l :
  0 < maxFails l ->
  (maxFails l <=? Z.of_nat (length (first_attempts now ip l))) =
  (maxFails l <=? Z.of_nat (length (recent (now - window l) ip (attempts l)))).
Proof.
  intros Hm. unfold first_attempts. rewrite length_take, merge_sort_Permutation.
  change (recent_attempts now ip l) with (recent (now - window l) ip (attempts l)).
  apply eq_true_iff_eq. rewrite !Z.leb_le. lia.
Qed.

(** What a check that could read answers. *)
Lemma check_spec now swept read key l allowed retry l' :
  0 < maxFails l -> check now swept read key l = ((allowed, retry), l') ->
  l' = sweepIfNeeded now swept l /\
  (allowed = true <-> read = true /\ Z.of_nat (length (recent (now - window l) key (attempts l))) < maxFails l).
Proof.
  intros Hm. unfold check. destruct (sweep_limits now swept l) as [Hw Hmax].
  destruct read; cbn [negb]; [|intros Heq; simplify_eq; naive_solver].
  rewrite first_attempts_length, Hw, Hmax, sweep_rows by (rewrite ?Hmax; lia).
  destruct (Z.leb_spec (maxFails l) (Z.of_nat (length (recent (now - window l) key (attempts l))))) as [Hle|Hgt];
    intros Heq; simplify_eq; (split; [done|]); split; (done || (intros; intuition lia)).
Qed.

Lemma check_step_ok w m s now swept read key allowed retry l :
  0 < m -> logins_ok w m s -> lg_clock s <= now -> lg_held s !! key = None ->
  check now swept read key (lg_limiter s) = ((allowed, retry), l) ->
  logins_ok w m {| lg_limiter := l; lg_held := if allowed : bool then <[key := now]> (lg_held s) else lg_held s;
                   lg_clock := now; lg_recorded := lg_recorded s |}.
Proof.
  intros Hm [[Hw Hmax] Hc Hr Hh Hb] Hnow Hfree Hcheck.
  apply check_spec in Hcheck as [-> Hallowed]; [|by rewrite Hmax].
  destruct (sweep_limits now swept (lg_limiter s)) as [Hw' Hmax'].
  split; cbn [lg_limiter lg_held lg_clock lg_recorded].
  - by rewrite Hw', Hmax'.
  - intros a Ha. specialize (Hc a Ha). lia.
  - intros k t Ht. rewrite sweep_rows by lia. apply Hr. lia.
  - intros k c Hk. destruct allowed.
    + destruct (decide (k = key)) as [->|Hne].
      * rewrite lookup_insert_eq in Hk. injection Hk as <-. split; [lia|].
        rewrite <- Hr by lia. rewrite <- Hw, <- Hmax. by apply Hallowed.
      * rewrite lookup_insert_ne in Hk by done. destruct (Hh k c Hk). split; [lia|done].
    + destruct (Hh k c Hk). split; [lia|done].
  - done.
Qed.

Lemma failure_recorded_ok w m s now swept key c :
  0 < m -> logins_ok w m s -> lg_clock s <= now -> lg_held s !! key = Some c ->
  logins_ok w m {| lg_limiter := recordFailure now swept true key (lg_limiter s); lg_held := delete key (lg_held s);
                   lg_clock := now; lg_recorded := lg_recorded s ++ [{| IP := key; CreatedAt := now |}] |}.
Proof.
  intros Hm [[Hw Hmax] Hc Hr Hh Hb] Hnow Hheld. destruct (Hh key c Hheld) as [Hcc Hlt].
  destruct (sweep_limits now swept (lg_limiter s)) as [Hw' Hmax'].
  split; cbn [lg_limiter lg_held lg_clock lg_recorded recordFailure window maxFails attempts].
  - by rewrite Hw', Hmax'.
  - intros a [Ha| ->]%elem_of_snoc; [|cbn; lia]. specialize (Hc a Ha). lia.
  - intros k t Ht. rewrite !recent_snoc, sweep_rows by lia. f_equal. apply Hr. lia.
  - intros k c' [Hne Hk]%lookup_delete_Some. destruct (Hh k c' Hk) as [? Hlt']. split; [lia|].
    rewrite recent_snoc, decide_False by (cbn; intuition congruence). by rewrite app_nil_r.
  - intros k t. rewrite failures_snoc. cbn [IP CreatedAt]. case_decide as Hin; [|specialize (Hb k t); lia].
    destruct Hin as [<- Hin]. pose proof (failures_recent w t key (lg_recorded s)).
    enough (Z.of_nat (length (recent (t - w) key (lg_recorded s))) <= Z.of_nat (length (recent (c - w) key (lg_recorded s)))) by lia.
    apply inj_le. rewrite <- (recent_recent (t - w) (c - w)) by lia. apply length_filter.
Qed.

Lemma success_ok' w m s now key :
  logins_ok w m s -> lg_clock s <= now ->
  logins_ok w m {| lg_limiter := reset true key (lg_limiter s); lg_held := delete key (lg_held s);
                   lg_clock := now; lg_recorded := filter (fun a => IP a <> key) (lg_recorded s) |}.
Proof.
  intros [[Hw Hmax] Hc Hr Hh Hb] Hnow.
  split; cbn [lg_limiter lg_held lg_clock lg_recorded reset window maxFails attempts].
  - done.
  - intros a [_ Ha]%list_elem_of_filter. specialize (Hc a Ha). lia.
  - intros k t Ht. rewrite !recent_reset. case_decide; [done|]. apply Hr. lia.
  - intros k c' [Hne Hk]%lookup_delete_Some. destruct (Hh k c' Hk) as [? Hlt']. split; [lia|].
    rewrite recent_reset, decide_False by congruence. done.
  - intros k t. etransitivity; [apply failures_reset|apply Hb].
Qed.

Lemma released_ok w m s now swept l key :
  logins_ok w m s -> lg_clock s <= now -> l = lg_limiter s \/ l = sweepIfNeeded now swept (lg_limiter s) ->
  logins_ok w m {| lg_limiter := l; lg_held := delete key (lg_held s); lg_clock := now; lg_recorded := lg_recorded s |}.
Proof.
  intros [[Hw Hmax] Hc Hr Hh Hb] Hnow Hl. destruct (sweep_limits now swept (lg_limiter s)) as [Hw' Hmax'].
  split; cbn [lg_limiter lg_held lg_clock lg_recorded].
  - destruct Hl as [->| ->]; [done|]. by rewrite Hw', Hmax'.
  - intros a Ha. specialize (Hc a Ha). lia.
  - intros k t Ht. destruct Hl as [->| ->]; [|rewrite sweep_rows by lia]; apply Hr; lia.
  - intros k c' [Hne Hk]%lookup_delete_Some. destruct (Hh k c' Hk). split; [lia|done].
  - done.
Qed.

Lemma login_step_ok w m s s' : 0 < m -> login_step s s' -> logins_ok w m s -> logins_ok w m s'.
Proof.
  intros Hm [s0 now swept read key allowed retry l Hnow Hfree Hcheck|s0 now swept written key c v Hnow Hheld] Hok.
  - by eapply check_step_ok.
  - destruct v, written; cbn [settle at_record at_swept' at_written];
      try (apply (released_ok w m s0 now swept); [done..|by left]).
    + by eapply failure_recorded_ok.
    + apply (released_ok w m s0 now swept); [done..|]. right. done.
    + by apply success_ok'.
Qed.

Lemma logins_init_ok w m : 0 < m -> logins_ok w m (logins_init w m).
Proof.
  intros Hm. split; cbn; try done; [by intros a ?%elem_of_nil|]. intros key t. unfold failures_in. cbn. lia.
Qed.

Lemma logins_reachable_ok w m s : 0 < m -> rtc login_step (logins_init w m) s -> logins_ok w m s.
Proof.
  intros Hm. apply (rtc_ind_r (logins_ok w m)); [by apply logins_init_ok|]. intros x y _ Hstep Hx.
  by eapply login_step_ok.
Qed.


Lemma first_attempt_oldest now ip l first :
  head (first_attempts now ip l) = Some first ->
  first ∈ recent (now - window l) ip (attempts l) /\
  forall a, a ∈ recent (now - window l) ip (attempts l) -> CreatedAt first <= CreatedAt a.
Proof.
  unfold first_attempts. change (recent_attempts now ip l) with (recent (now - window l) ip (attempts l)).
  set (rows := recent _ _ _). pose proof (merge_sort_Permutation created_before rows) as Hperm.
  pose proof (StronglySorted_merge_sort created_before rows) as Hsorted.
  destruct (merge_sort created_before rows) as [|x xs]; destruct (Z.to_nat (maxFails l)); cbn; try done.
  intros Heq. simplify_eq. apply StronglySorted_inv in Hsorted as [_ Hall].
  split; [rewrite <- Hperm; left|]. intros a Ha. rewrite <- Hperm in Ha. apply elem_of_cons in Ha as [->|Ha]; [lia|].
  rewrite Forall_forall in Hall. by apply Hall.
Qed.

(** A refusal: the window is exactly full, and the wait is that of its oldest row. *)
Lemma refusal_spec w m s key now swept l retry :
  0 < m -> logins_ok w m s -> lg_clock s <= now ->
  check now swept true key (lg_limiter s) = ((false, retry), l) ->
  let R := recent (now - w) key (lg_recorded s) in
  window l = w /\ maxFails l = m /\ recent (now - w) key (attempts l) = R /\ length R = Z.to_nat m /\
  exists first, first ∈ R /\ (forall a, a ∈ R -> CreatedAt first <= CreatedAt a) /\
    retry = CreatedAt first + w - now /\ now - w < CreatedAt first <= now.
Proof.
  intros Hm [[Hw Hmax] Hc Hr Hh Hb] Hnow Hcheck R. destruct (sweep_limits now swept (lg_limiter s)) as [Hw' Hmax'].
  assert (Hl : l = sweepIfNeeded now swept (lg_limiter s)) by (apply check_spec in Hcheck; [tauto|lia]).
  assert (Hrows : recent (now - w) key (attempts l) = R) by (rewrite Hl, sweep_rows by lia; apply Hr; lia).
  assert (Hlw : window l = w) by (by rewrite Hl, Hw'). assert (Hlm : maxFails l = m) by (by rewrite Hl, Hmax').
  assert (Hle : Z.of_nat (length R) <= m).
  { etransitivity; [|apply (Hb key now)]. apply inj_le. apply Nat.eq_le_incl. f_equal. apply filter_agree.
    intros a Ha. specialize (Hc a Ha). intuition lia. }
  unfold check in Hcheck. cbn [negb] in Hcheck. rewrite <- Hl in Hcheck.
  destruct (maxFails l <=? Z.of_nat (length (first_attempts now key l))) eqn:Hfull; [|done].
  split; [done|]. split; [done|]. split; [done|]. split.
  { rewrite first_attempts_length, Hlw, Hrows, Hlm in Hfull by lia. apply Z.leb_le in Hfull. lia. }
  destruct (head (first_attempts now key l)) as [first|] eqn:Hhead.
  2:{ apply Z.leb_le in Hfull. destruct (first_attempts now key l); cbn in *; [lia|done]. }
  apply first_attempt_oldest in Hhead as [Hin Hmin]. rewrite Hlw, Hrows in Hin, Hmin. cbn [from_option] in Hcheck.
  assert (Hfirst : now - w < CreatedAt first <= now).
  { unfold R, recent in Hin. apply list_elem_of_filter in Hin as [? Hin]. specialize (Hc _ Hin). lia. }
  exists first. split; [done|]. split; [done|]. split; [|done]. rewrite Hlw in Hcheck.
  destruct (CreatedAt first + w - now <? 0) eqn:Hneg; [lia|]. by injection Hcheck.
Qed.

(** A client that is refused is told the exact time after which it may try
    again, if the limiter could be read. *)
Theorem login_retry_exact w m s key now swept l retry :
  0 < m -> rtc login_step (logins_init w m) s -> lg_clock s <= now ->
  check now swept true key (lg_limiter s) = ((false, retry), l) ->
  0 < retry <= w /\
  forall now' swept', now <= now' -> (check now' swept' true key l).1.1 = true <-> now + retry <= now'.
Proof.
  intros Hm Hs Hnow Hcheck. pose proof (logins_reachable_ok w m s Hm Hs) as Hok.
  destruct (refusal_spec w m s key now swept l retry Hm Hok Hnow Hcheck)
    as (Hlw & Hlm & Hrows & HR & first & Hin & Hmin & -> & Hfirst).
  set (R := recent (now - w) key (lg_recorded s)) in *. split; [lia|].
  intros now' swept' Hnow'. destruct (check now' swept' true key l) as [[allowed r] l'] eqn:Hc'.
  apply check_spec in Hc' as [_ Ha]; [|lia]. cbn [fst]. rewrite Ha, Hlw, Hlm. clear Ha.
  rewrite <- (recent_recent (now' - w) (now - w)) by lia. rewrite Hrows. split.
  - intros [_ Hlt]. destruct (Z.le_gt_cases (CreatedAt first + w) now'); [lia|]. exfalso.
    assert (Hall : recent (now' - w) key R = R); [|rewrite Hall in Hlt; lia].
    apply filter_keeps. intros a Ha'. pose proof (Hmin a Ha'). unfold R, recent in Ha'.
    apply list_elem_of_filter in Ha' as [[? _] _]. split; [done|lia].
  - intros Hge. split; [done|]. enough (length (recent (now' - w) key R) < length R)%nat by lia.
    apply (length_filter_lt _ R first Hin). lia.
Qed.

(** ** A run *)

Fixpoint guess (n : nat) (now : Z) (l : loginRateLimiter) : list Answer * loginRateLimiter :=
  match n with
  | O => ([], l)
  | S n =>
      let '(a, l) := login "ip" true {| at_check := now; at_record := now + 1; at_swept := true; at_read := true;
                                        at_swept' := true; at_written := true |} WrongPassword l in
      let '(rest, l) := guess n (now + 10 ^ 9) l in (a :: rest, l)
  end.

(** The sixth guess is refused for as long as the first one counts. *)
Example demo_guesses :
  (guess 6 0 (newLoginRateLimiter loginFailWindow loginMaxFailures)).1 =
    [Unauthorized; Unauthorized; Unauthorized; Unauthorized; Unauthorized; TooMany 896].
Proof. vm_compute. reflexivity. Qed.

Definition demo_login_one : Logins :=
  {| lg_limiter := recordFailure 1 true true "ip" (check 0 true true "ip" (newLoginRateLimiter 10 1)).2;
     lg_held := delete "ip"%string {["ip"%string := 0]}; lg_clock := 1; lg_recorded := [{| IP := "ip"; CreatedAt := 1 |}] |}.

Lemma demo_login_reachable : rtc login_step (logins_init 10 1) demo_login_one.
Proof.
  eapply rtc_l; [apply (step_check (logins_init 10 1) 0 true true "ip" true 0); [cbn; lia|done|vm_compute; reflexivity]|].
  eapply rtc_l; [|apply rtc_refl].
  refine (step_settle _ 1 true true "ip" 0 WrongPassword _ _); [cbn; lia|reflexivity].
Qed.


Lemma login_retry_exact_witness :
  (check 11 true true "ip" (check 5 true true "ip" (lg_limiter demo_login_one)).2).1.1 = true <-> 5 + 6 <= 11.
Proof.
  apply (login_retry_exact 10 1 demo_login_one "ip" 5 true (check 5 true true "ip" (lg_limiter demo_login_one)).2 6);
    [lia|exact demo_login_reachable|cbn; lia|vm_compute; reflexivity|lia].
Defined.
