(* ===== verification/OrderedRows.v ===== *)
(** * Rows in the order of a column

    The queries of internal/op end in ORDER BY position ASC, id ASC: the rows of a
    table that satisfy a condition, sorted by a column and then by their id. *)

From S2P Require Import Prelude.
#[local] Set Default Proof Using "Type*".

Section rows.
Context {V : Type} (pos : V -> Z) `{ord : !MapOrder Z}.
Implicit Types (m : gmap Z V) (p : V -> bool).

Definition row_before (a b : Z * V) : Prop := pos a.2 < pos b.2 \/ (pos a.2 = pos b.2 /\ a.1 <= b.1).
#[export] Instance row_before_dec a b : Decision (row_before a b).
Proof. unfold row_before. apply _. Defined.
#[export] Instance row_before_total : Total row_before.
Proof. intros a b. unfold row_before. lia. Qed.
#[export] Instance row_before_trans : Transitive row_before.
Proof. intros a b c. unfold row_before. lia. Qed.

Definition rows_by p m : list (Z * V) := merge_sort row_before (filter (fun kv => p kv.2) (map_order m)).

Lemma rows_by_spec p m id v : (id, v) ∈ rows_by p m <-> m !! id = Some v /\ p v = true.
Proof.
  unfold rows_by. rewrite merge_sort_Permutation, list_elem_of_filter, elem_of_map_order. cbn. rewrite Is_true_true. tauto.
Qed.

Lemma rows_by_keys p m : NoDup (rows_by p m).*1.
Proof.
  unfold rows_by. rewrite merge_sort_Permutation.
  eapply (sublist_NoDup _ (map_order m).*1); [rewrite map_order_perm; apply NoDup_fst_map_to_list|].
  apply fmap_sublist. apply sublist_filter.
Qed.

Lemma rows_by_sorted p m : StronglySorted row_before (rows_by p m).
Proof. apply StronglySorted_merge_sort; apply _. Qed.

(** A sorted listing of the rows is the order. *)
Lemma rows_by_unique p m l :
  NoDup l.*1 -> (forall id v, (id, v) ∈ l <-> m !! id = Some v /\ p v = true) -> StronglySorted row_before l -> l = rows_by p m.
Proof.
  intros Hnd Hin Hs. symmetry.
  apply (StronglySorted_unique_strong row_before); [|apply rows_by_sorted|done|].
  - intros [i a] [j b] Ha Hb Hab Hba. unfold row_before in *. cbn in *. assert (i = j) as -> by lia.
    rewrite rows_by_spec in Ha. rewrite Hin in Hb. naive_solver.
  - apply NoDup_Permutation; [by eapply NoDup_fmap_1, rows_by_keys|by eapply NoDup_fmap_1|].
    intros [i a]. by rewrite rows_by_spec, Hin.
Qed.
End rows.
