(* ===== verification/EvalQueue.v ===== *)
(** * The queue of model evaluations

    internal/op/model_eval_queue.go: the table of tasks that the administrator
    fills and the schedulers of internal/eval empty (EvalScheduler.v).  A row is
    found by its id; a transaction is one function on the table, and a function
    that reads first and updates conditionally later takes both tables.  Lookups
    in the channel caches are arguments. *)

From S2P Require Import Prelude GoStrings OrderedRows.

Inductive QueueTaskStatus := QueueTaskQueued | QueueTaskRunning | QueueTaskDone | QueueTaskStopped.
#[export] Instance status_eq_dec : EqDecision QueueTaskStatus.
Proof. solve_decision. Defined.

(** The snapshot of a channel and a model that a task carries. *)
Record Target := { ChannelID : Z; ChannelModelID : Z; ChannelName : string; ChannelType : string; ModelName : string }.

(** The zero time is [None]. *)
Record ModelEvalQueueTask := {
  target : Target; Status : QueueTaskStatus; Error : string; EvalID : Z; Position : Z;
  CreatedAt : Z; StartedAt : option Z; CompletedAt : option Z;
}.

(** The table with its autoincrement counter. *)
Record Queue := { tasks : gmap Z ModelEvalQueueTask; next_id : Z }.

Inductive QueueError :=
  | ErrEvalQueueModelUnavailable | ErrEvalQueueTaskNotFound | ErrEvalQueueTaskConflict | ErrEvalQueueMoveBounds.

Definition evalQueueRunningLease : Z := 15 * 60 * 10 ^ 9.

Definition with_status (s : QueueTaskStatus) (started : option Z) (t : ModelEvalQueueTask) : ModelEvalQueueTask :=
  {| target := target t; Status := s; Error := Error t; EvalID := EvalID t; Position := Position t;
     CreatedAt := CreatedAt t; StartedAt := started; CompletedAt := CompletedAt t |}.

Definition with_position (p : Z) (t : ModelEvalQueueTask) : ModelEvalQueueTask :=
  {| target := target t; Status := Status t; Error := Error t; EvalID := EvalID t; Position := p;
     CreatedAt := CreatedAt t; StartedAt := StartedAt t; CompletedAt := CompletedAt t |}.

Definition put_tasks (m : gmap Z ModelEvalQueueTask) (q : Queue) : Queue := {| tasks := m; next_id := next_id q |}.

Definition is_queued (t : ModelEvalQueueTask) : bool := bool_decide (Status t = QueueTaskQueued).
Definition task_running (t : ModelEvalQueueTask) : bool := bool_decide (Status t = QueueTaskRunning).

(** WHERE status IN (queued, running). *)
Definition is_active (t : ModelEvalQueueTask) : bool := is_queued t || task_running t.

(** The key of the deduplication. *)
Definition task_key (t : Target) : Z * string := (ChannelID t, ModelName t).

Section queue.
Context `{ord : !MapOrder Z}.
Implicit Types q : Queue.

(** ** Enqueuing *)

Record ModelRow := { cm_ID : Z; cm_ChannelID : Z; cm_Name : string }.
Record ChannelRow := { ch_ID : Z; ch_Name : string; ch_Type : string; ch_Enabled : bool }.

Fixpoint candidates (ChannelModelGet : Z -> option ModelRow) (ChannelGetCore : Z -> option ChannelRow)
    (ids : list Z) (seen : gset (Z * string)) : QueueError + list Target :=
  match ids with
  | [] => inr []
  | cmID :: ids =>
      match ChannelModelGet cmID with
      | None => inl ErrEvalQueueModelUnavailable
      | Some cm =>
          match ChannelGetCore (cm_ChannelID cm) with
          | None => inl ErrEvalQueueModelUnavailable
          | Some channel =>
              if negb (ch_Enabled channel) then inl ErrEvalQueueModelUnavailable
              else
                let key := (ch_ID channel, cm_Name cm) in
                if decide (key ∈ seen) then candidates ChannelModelGet ChannelGetCore ids seen
                else
                  match candidates ChannelModelGet ChannelGetCore ids ({[key]} ∪ seen) with
                  | inl e => inl e
                  | inr rest =>
                      inr ({| ChannelID := ch_ID channel; ChannelModelID := cm_ID cm; ChannelName := ch_Name channel;
                              ChannelType := ch_Type channel; ModelName := cm_Name cm |} :: rest)
                  end
          end
      end
  end.

(** The keys of the active rows, and COALESCE(MAX(position), -1). *)
Definition active_keys q : gset (Z * string) :=
  list_to_set ((fun kv => task_key (target kv.2)) <$> filter (fun kv => is_active kv.2) (map_order (tasks q))).

Definition max_position q : Z := foldr (fun kv acc => Z.max (Position kv.2) acc) (-1) (map_order (tasks q)).

Fixpoint assign_positions (now : Z) (cands : list Target) (dup : gset (Z * string)) (maxPos : Z) : list ModelEvalQueueTask :=
  match cands with
  | [] => []
  | c :: cands =>
      if decide (task_key c ∈ dup) then assign_positions now cands dup maxPos
      else
        {| target := c; Status := QueueTaskQueued; Error := ""; EvalID := 0; Position := maxPos + 1;
           CreatedAt := now; StartedAt := None; CompletedAt := None |}
          :: assign_positions now cands ({[task_key c]} ∪ dup) (maxPos + 1)
  end.

Definition insert_task q (t : ModelEvalQueueTask) : Queue :=
  {| tasks := <[next_id q := t]> (tasks q); next_id := next_id q + 1 |}.

(** [locked] tells whether the enqueue lock was obtained and the transaction
    committed. *)
Definition ModelEvalQueueEnqueue (ChannelModelGet : Z -> option ModelRow) (ChannelGetCore : Z -> option ChannelRow)
    (now : Z) (locked : bool) (ids : list Z) q : option (QueueError + list ModelEvalQueueTask) * Queue :=
  match candidates ChannelModelGet ChannelGetCore ids ∅ with
  | inl e => (Some (inl e), q)
  | inr [] => (Some (inr []), q)
  | inr cands =>
      if negb locked then (None, q)
      else
        let created := assign_positions now cands (active_keys q) (max_position q) in
        (Some (inr created), foldl insert_task q created)
  end.

(** ** Reading *)

Notation ordered := (rows_by Position).

Definition ModelEvalQueueList q : list (Z * ModelEvalQueueTask) := ordered is_active (tasks q).

(** ** Dispatching *)

(** The conditional UPDATE of one row: whether it hit, and the table. *)
Definition update_if (p : ModelEvalQueueTask -> bool) (f : ModelEvalQueueTask -> ModelEvalQueueTask) (id : Z)
    (m : gmap Z ModelEvalQueueTask) : bool * gmap Z ModelEvalQueueTask :=
  match m !! id with
  | Some t => if p t then (true, <[id := f t]> m) else (false, m)
  | None => (false, m)
  end.

Fixpoint take_rows (now : Z) (rows : list (Z * ModelEvalQueueTask)) (m : gmap Z ModelEvalQueueTask)
    : list (Z * ModelEvalQueueTask) * gmap Z ModelEvalQueueTask :=
  match rows with
  | [] => ([], m)
  | (id, t) :: rows =>
      let '(hit, m) := update_if is_queued (with_status QueueTaskRunning (Some now)) id m in
      let '(kept, m) := take_rows now rows m in
      (if hit then (id, with_status QueueTaskRunning (Some now) t) :: kept else kept, m)
  end.

(** The rows are selected from [seen]; other instances may have taken some of them
    when the updates run. *)
Definition ModelEvalQueuePopNext (now limit : Z) (seen : gmap Z ModelEvalQueueTask) q
    : list (Z * ModelEvalQueueTask) * Queue :=
  let limit := if limit <=? 0 then 1 else limit in
  let rows := take (Z.to_nat limit) (ordered is_queued seen) in
  let '(kept, m) := take_rows now rows (tasks q) in (kept, put_tasks m q).

(** ** Returning running tasks *)

(** UPDATE of all rows that satisfy a condition. *)
Definition update_where (p : Z -> ModelEvalQueueTask -> bool) (f : ModelEvalQueueTask -> ModelEvalQueueTask) q : Queue :=
  put_tasks (map_imap (fun id t => Some (if p id t then f t else t)) (tasks q)) q.

Definition lease_expired (now : Z) (t : ModelEvalQueueTask) : bool :=
  match StartedAt t with None => true | Some s => s <? now - evalQueueRunningLease end.

Definition ModelEvalQueueResetRunning (now : Z) q : Queue :=
  update_where (fun _ t => task_running t && lease_expired now t) (fun t => with_status QueueTaskQueued (StartedAt t) t) q.

Definition ModelEvalQueueResetRunningOnStart (multi : bool) (now : Z) q : Queue :=
  if multi then ModelEvalQueueResetRunning now q
  else update_where (fun _ t => task_running t) (with_status QueueTaskQueued None) q.

Definition ModelEvalQueueRequeueRunning (ids : gset Z) q : Queue :=
  if decide (ids = ∅) then q
  else update_where (fun id t => bool_decide (id ∈ ids) && task_running t) (with_status QueueTaskQueued None) q.

(** ** The administrator's operations *)

(** The read: the target and its queued predecessor. *)
Definition move_up_read (id : Z) (m : gmap Z ModelEvalQueueTask) : QueueError + (Z * Z) * (Z * Z) :=
  match m !! id with
  | None => inl ErrEvalQueueTaskNotFound
  | Some t =>
      if negb (is_queued t) then inl ErrEvalQueueTaskConflict
      else
        let queued := ordered is_queued m in
        match list_find (fun kv => kv.1 = id) queued with
        | Some (S i, _) =>
            match queued !! i with
            | Some neighbor => inr ((id, Position t), (neighbor.1, Position neighbor.2))
            | None => inl ErrEvalQueueMoveBounds
            end
        | _ => inl ErrEvalQueueMoveBounds
        end
  end.

(** The transaction: both rows must still be queued. *)
Definition move_up_write (moved neighbor : Z * Z) q : option QueueError * Queue :=
  let '(hit, m) := update_if is_queued (with_position neighbor.2) moved.1 (tasks q) in
  if negb hit then (Some ErrEvalQueueTaskConflict, q)
  else
    let '(hit, m) := update_if is_queued (with_position moved.2) neighbor.1 m in
    if negb hit then (Some ErrEvalQueueTaskConflict, q) else (None, put_tasks m q).

Definition ModelEvalQueueMoveUp (id : Z) (seen : gmap Z ModelEvalQueueTask) q : option QueueError * Queue :=
  match move_up_read id seen with
  | inl e => (Some e, q)
  | inr (moved, neighbor) => move_up_write moved neighbor q
  end.

Definition stopped_at (now : Z) (t : ModelEvalQueueTask) : ModelEvalQueueTask :=
  {| target := target t; Status := QueueTaskStopped; Error := Error t; EvalID := EvalID t; Position := Position t;
     CreatedAt := CreatedAt t; StartedAt := StartedAt t; CompletedAt := Some now |}.

Definition ModelEvalQueueStop (now id : Z) (seen : gmap Z ModelEvalQueueTask) q : option QueueError * Queue :=
  match seen !! id with
  | None => (Some ErrEvalQueueTaskNotFound, q)
  | Some t =>
      if negb (is_queued t) then (Some ErrEvalQueueTaskConflict, q)
      else
        let '(hit, m) := update_if is_queued (stopped_at now) id (tasks q) in
        if negb hit then (Some ErrEvalQueueTaskConflict, q) else (None, put_tasks m q)
  end.

Definition ModelEvalQueueClear q : Z * Queue :=
  let kept := filter (fun kv => negb (is_queued kv.2)) (tasks q) in
  (Z.of_nat (size (tasks q)) - Z.of_nat (size kept), put_tasks kept q).

(** [clean] redacts and truncates the message; there is no condition on the
    status. *)
Definition ModelEvalQueueMarkDone (clean : string -> string) (now id evalID : Z) (errMsg : string) q : Queue :=
  put_tasks (alter (fun t =>
    {| target := target t; Status := QueueTaskDone; Error := clean errMsg; EvalID := evalID; Position := Position t;
       CreatedAt := CreatedAt t; StartedAt := StartedAt t; CompletedAt := Some now |}) id (tasks q)) q.

(** ** What every operation preserves *)

Definition distinct_targets q : Prop :=
  forall i j ti tj, tasks q !! i = Some ti -> tasks q !! j = Some tj -> is_active ti = true -> is_active tj = true ->
    task_key (target ti) = task_key (target tj) -> i = j.

Definition queue_ok q : Prop := (forall id t, tasks q !! id = Some t -> id < next_id q) /\ distinct_targets q.

(** Every row comes from one of the same target that was active if it is. *)
Definition rows_move (m m' : gmap Z ModelEvalQueueTask) : Prop :=
  forall id t', m' !! id = Some t' ->
    exists t, m !! id = Some t /\ target t' = target t /\ (is_active t' = true -> is_active t = true).

#[export] Instance rows_move_refl : Reflexive rows_move.
Proof. intros m id t Ht. eauto. Qed.
#[export] Instance rows_move_trans : Transitive rows_move.
Proof. intros m1 m2 m3 H1 H2 id t Ht. destruct (H2 id t Ht) as (t2 & Ht2 & ? & ?). destruct (H1 id t2 Ht2) as (t1 & ? & ? & ?). exists t1. naive_solver congruence. Qed.

Lemma rows_move_ok q m : rows_move (tasks q) m -> queue_ok q -> queue_ok (put_tasks m q).
Proof.
  intros Hm [Hid Hd]. split; cbn.
  - intros id t Ht. destruct (Hm id t Ht) as (t0 & Ht0 & _). by eapply Hid.
  - intros i j ti tj Hi Hj Hai Haj Hk. destruct (Hm i ti Hi) as (ti0 & Hi0 & Hti & Hai0).
    destruct (Hm j tj Hj) as (tj0 & Hj0 & Htj & Haj0). rewrite Hti, Htj in Hk. by apply (Hd i j ti0 tj0); auto.
Qed.

Lemma update_if_moves p f id m hit m' :
  (forall t, m !! id = Some t -> p t = true -> target (f t) = target t /\ (is_active (f t) = true -> is_active t = true)) ->
  update_if p f id m = (hit, m') -> rows_move m m'.
Proof.
  intros Hf. unfold update_if. destruct (m !! id) as [t|] eqn:Ht; [destruct (p t) eqn:Hp|]; intros Heq; simplify_eq; try done.
  intros k t'. rewrite lookup_insert_Some. intros [[-> <-]|[? ?]]; [|eauto]. exists t. destruct (Hf t eq_refl Hp). done.
Qed.

Lemma update_where_moves p f q :
  (forall id t, p id t = true -> target (f t) = target t /\ (is_active (f t) = true -> is_active t = true)) ->
  rows_move (tasks q) (tasks (update_where p f q)).
Proof.
  intros Hf id t'. cbn. rewrite map_lookup_imap. destruct (tasks q !! id) as [t|] eqn:Ht; cbn; [|done].
  intros Heq. simplify_eq. exists t. split; [done|]. destruct (p id t) eqn:Hp; [|done]. by apply (Hf id).
Qed.

Lemma queued_active t : is_queued t = true -> is_active t = true.
Proof. unfold is_active. by intros ->. Qed.

Lemma running_active t : task_running t = true -> is_active t = true.
Proof. unfold is_active. intros ->. apply orb_true_r. Qed.

Lemma take_rows_moves now rows m kept m' : take_rows now rows m = (kept, m') -> rows_move m m'.
Proof.
  revert m kept m'. induction rows as [|[id t] rows IH]; intros m kept m'; cbn; [intros; by simplify_eq|].
  destruct (update_if _ _ id m) as [hit m1] eqn:Hu. destruct (take_rows now rows m1) as [kept1 m2] eqn:Hr.
  intros Heq. simplify_eq. transitivity m1; [|by eapply IH].
  eapply update_if_moves; [|exact Hu]. intros t0 _ Hq. split; [done|]. intros _. by apply queued_active.
Qed.

Lemma pop_moves now limit seen q : rows_move (tasks q) (tasks (ModelEvalQueuePopNext now limit seen q).2).
Proof.
  unfold ModelEvalQueuePopNext. destruct (take_rows _ _ _) as [kept m] eqn:Hr. cbn. by eapply take_rows_moves.
Qed.

Lemma reset_moves now q : rows_move (tasks q) (tasks (ModelEvalQueueResetRunning now q)).
Proof. apply update_where_moves. intros _ t [Hr _]%andb_true_iff. split; [done|]. intros _. by apply running_active. Qed.

Lemma on_start_moves multi now q : rows_move (tasks q) (tasks (ModelEvalQueueResetRunningOnStart multi now q)).
Proof.
  destruct multi; [apply reset_moves|]. apply update_where_moves. intros _ t Hr. split; [done|]. intros _. by apply running_active.
Qed.

Lemma requeue_moves ids q : rows_move (tasks q) (tasks (ModelEvalQueueRequeueRunning ids q)).
Proof.
  unfold ModelEvalQueueRequeueRunning. case_decide; [done|]. apply update_where_moves.
  intros _ t [_ Hr]%andb_true_iff. split; [done|]. intros _. by apply running_active.
Qed.

Lemma move_up_moves id seen q : rows_move (tasks q) (tasks (ModelEvalQueueMoveUp id seen q).2).
Proof.
  unfold ModelEvalQueueMoveUp. destruct (move_up_read id seen) as [|[moved neighbor]]; [done|]. unfold move_up_write.
  destruct (update_if _ _ moved.1 _) as [hit m1] eqn:H1. destruct hit; cbn [negb]; [|done].
  destruct (update_if _ _ neighbor.1 m1) as [hit m2] eqn:H2. destruct hit; cbn [negb]; [|done].
  transitivity m1; [eapply update_if_moves; [|exact H1]|eapply update_if_moves; [|exact H2]]; intros t0 _ _; by split.
Qed.

Lemma stop_moves now id seen q : rows_move (tasks q) (tasks (ModelEvalQueueStop now id seen q).2).
Proof.
  unfold ModelEvalQueueStop. destruct (seen !! id) as [t|]; [|done]. destruct (is_queued t); cbn [negb]; [|done].
  destruct (update_if _ _ id _) as [hit m1] eqn:H1. destruct hit; cbn [negb]; [|done].
  eapply update_if_moves; [|exact H1]. intros t0 _ _. by split.
Qed.

Lemma clear_moves q : rows_move (tasks q) (tasks (ModelEvalQueueClear q).2).
Proof. intros id t. cbn. rewrite map_lookup_filter_Some. intros [Ht _]. eauto. Qed.

Lemma done_moves clean now id e msg q : rows_move (tasks q) (tasks (ModelEvalQueueMarkDone clean now id e msg q)).
Proof.
  intros k t'. cbn. rewrite lookup_alter_Some. intros [(-> & t & Ht & ->)|[_ Ht]]; [|eauto]. exists t. done.
Qed.

(** ** Enqueuing keeps the targets distinct *)

Lemma active_keys_spec q k : k ∈ active_keys q <-> exists id t, tasks q !! id = Some t /\ is_active t = true /\ task_key (target t) = k.
Proof.
  unfold active_keys. rewrite elem_of_list_to_set, list_elem_of_fmap. split.
  - intros ([id t] & -> & [Ha Hin]%list_elem_of_filter). rewrite elem_of_map_order in Hin. exists id, t. cbn in Ha.
    by rewrite Is_true_true in Ha.
  - intros (id & t & Ht & Ha & <-). exists (id, t). split; [done|]. rewrite list_elem_of_filter, elem_of_map_order.
    cbn. by rewrite Is_true_true.
Qed.

Lemma insert_task_ok q t :
  queue_ok q -> task_key (target t) ∉ active_keys q -> queue_ok (insert_task q t).
Proof.
  intros [Hid Hd] Hk. split; cbn.
  - intros id t'. rewrite lookup_insert_Some. intros [[<- _]|[_ Ht]]; [lia|]. specialize (Hid id t' Ht). lia.
  - intros i j ti tj. cbn. rewrite !lookup_insert_Some.
    intros [[<- <-]|[Hi Hti]] [[<- <-]|[Hj Htj]] Hai Haj Heq; try done.
    + destruct Hk. apply active_keys_spec. eauto.
    + destruct Hk. apply active_keys_spec. exists i, ti. eauto.
    + by apply (Hd i j ti tj).
Qed.

Lemma insert_active_keys q t :
  (forall id t, tasks q !! id = Some t -> id < next_id q) -> is_active t = true ->
  active_keys (insert_task q t) = {[task_key (target t)]} ∪ active_keys q.
Proof.
  intros Hid Ha. apply set_eq. intros k. rewrite elem_of_union, elem_of_singleton, !active_keys_spec. cbn.
  split.
  - intros (id & t' & Ht' & Ha' & <-). apply lookup_insert_Some in Ht' as [[<- <-]|[? ?]]; [by left|right; eauto].
  - intros [->|(id & t' & Ht' & ? & ?)].
    + exists (next_id q), t. by rewrite lookup_insert_eq.
    + exists id, t'. rewrite lookup_insert_ne; [done|]. specialize (Hid id t' Ht'). lia.
Qed.

Lemma assigned_ok now cands maxPos q :
  queue_ok q -> queue_ok (foldl insert_task q (assign_positions now cands (active_keys q) maxPos)).
Proof.
  revert maxPos q. induction cands as [|c cands IH]; intros maxPos q Hok; cbn; [done|].
  case_decide as Hin; [by apply IH|]. cbn [foldl]. destruct Hok as [Hid Hd].
  set (t := {| target := c; Status := _ |}). change (task_key c) with (task_key (target t)).
  rewrite <- (insert_active_keys q t) by done. apply IH. apply insert_task_ok; [by split|done].
Qed.

Lemma insert_keeps l q id t : 
  (forall id t, tasks q !! id = Some t -> id < next_id q) -> tasks q !! id = Some t ->
  tasks (foldl insert_task q l) !! id = Some t.
Proof.
  revert q. induction l as [|x l IH]; intros q Hid Ht; cbn; [done|]. apply IH.
  - intros id' t'. cbn. rewrite lookup_insert_Some. intros [[<- _]|[_ Ht']]; [lia|]. specialize (Hid id' t' Ht'). lia.
  - cbn. rewrite lookup_insert_ne; [done|]. specialize (Hid id t Ht). lia.
Qed.

Lemma enqueue_ok models channels now locked ids q :
  queue_ok q -> queue_ok (ModelEvalQueueEnqueue models channels now locked ids q).2.
Proof.
  intros Hok. unfold ModelEvalQueueEnqueue. destruct (candidates _ _ _ _) as [|[|cand cands]]; [done..|].
  destruct locked; cbn [negb snd]; [|done]. by apply assigned_ok.
Qed.

(** ** Moving up *)

Definition positions_distinct q : Prop :=
  forall i j ti tj, tasks q !! i = Some ti -> tasks q !! j = Some tj -> is_queued ti = true -> is_queued tj = true ->
    Position ti = Position tj -> i = j.

Section swap.
#[local] Set Default Proof Using "Type*".
Context (m : gmap Z ModelEvalQueueTask) (l1 l2 : list (Z * ModelEvalQueueTask)) (n id : Z) (tn t : ModelEvalQueueTask).
Hypothesis Hsplit : ordered is_queued m = l1 ++ (n, tn) :: (id, t) :: l2.
Hypothesis Hdistinct : forall i j ti tj, m !! i = Some ti -> m !! j = Some tj -> is_queued ti = true ->
  is_queued tj = true -> Position ti = Position tj -> i = j.

Definition swapped : list (Z * ModelEvalQueueTask) :=
  l1 ++ (id, with_position (Position tn) t) :: (n, with_position (Position t) tn) :: l2.

Lemma swap_keys : NoDup (l1.*1 ++ n :: id :: l2.*1).
Proof using Type* Hsplit. pose proof (rows_by_keys Position is_queued m) as Hk. by rewrite Hsplit, fmap_app in Hk. Qed.

Lemma swap_in a : a ∈ l1 ++ (n, tn) :: (id, t) :: l2 -> m !! a.1 = Some a.2 /\ is_queued a.2 = true.
Proof using Type* Hsplit. rewrite <- Hsplit. destruct a as [i x]. apply rows_by_spec. Qed.

Lemma swap_before a b :
  a ∈ l1 ++ (n, tn) :: (id, t) :: l2 -> b ∈ l1 ++ (n, tn) :: (id, t) :: l2 -> a.1 <> b.1 -> (row_before Position) a b ->
  Position a.2 < Position b.2.
Proof using Type* Hsplit Hdistinct.
  intros [Ha Hqa]%swap_in [Hb Hqb]%swap_in Hne. unfold row_before. intros [?|[Hpos _]]; [done|].
  destruct Hne. by apply (Hdistinct a.1 b.1 a.2 b.2).
Qed.

Lemma swap_sorted : StronglySorted (row_before Position) swapped.
Proof using Type* Hsplit Hdistinct.
  assert (Hs : StronglySorted (row_before Position) (l1 ++ (n, tn) :: (id, t) :: l2)).
  { rewrite <- Hsplit. apply rows_by_sorted. }
  pose proof swap_keys as Hk. apply NoDup_app in Hk as (_ & Hk1 & Hk2).
  apply NoDup_cons in Hk2 as [Hn Hk2]. apply NoDup_cons in Hk2 as [Hid _].
  apply StronglySorted_app in Hs as (Hcross & Hs1 & Hs2).
  apply StronglySorted_inv in Hs2 as [Hs2 Hfn]. apply StronglySorted_inv in Hs2 as [Hs2 Hft].
  rewrite Forall_forall in Hfn, Hft.
  assert (Hnid : Position tn < Position t).
  { apply (swap_before (n, tn) (id, t)); [set_solver..|]. apply Hfn. set_solver. }
  assert (Hl2 : forall b, b ∈ l2 -> Position t < Position b.2).
  { intros b Hb. apply (swap_before (id, t) b); [set_solver|set_solver| |by apply Hft].
    cbn. intros ->. apply Hid. apply list_elem_of_fmap. eauto. }
  assert (Hl1 : forall a, a ∈ l1 -> Position a.2 < Position tn).
  { intros a Ha. apply (swap_before a (n, tn)); [set_solver|set_solver| |apply Hcross; set_solver].
    cbn. intros Heq. apply (Hk1 a.1); [apply list_elem_of_fmap; eauto|rewrite Heq; left]. }
  unfold swapped. apply StronglySorted_app_2; [|done|].
  - intros a b Ha Hb. specialize (Hl1 a Ha). left. rewrite !elem_of_cons in Hb.
    destruct Hb as [->|[->|Hb]]; cbn; [lia..|]. specialize (Hl2 b Hb). lia.
  - rewrite !StronglySorted_cons, Forall_cons, !Forall_forall. split; [split|split; [|done]].
    + left. cbn. lia.
    + intros b Hb. specialize (Hl2 b Hb). left. cbn. lia.
    + intros b Hb. specialize (Hl2 b Hb). left. cbn. lia.
Qed.

Lemma swap_order :
  ordered is_queued (<[n := with_position (Position t) tn]> (<[id := with_position (Position tn) t]> m)) = swapped.
Proof using Type* Hsplit Hdistinct.
  pose proof swap_keys as Hk. symmetry. apply rows_by_unique; [|intros i x|exact swap_sorted].
  - unfold swapped. rewrite fmap_app. cbn. by rewrite (Permutation_swap n id).
  - pose proof (rows_by_spec Position is_queued m i x) as Hix. rewrite Hsplit in Hix.
    apply NoDup_app in Hk as (_ & Hk1 & Hk2). apply NoDup_cons in Hk2 as [Hn Hk2]. apply NoDup_cons in Hk2 as [Hid _].
    assert (Hqn : is_queued tn = true) by (apply (swap_in (n, tn)); set_solver).
    assert (Hqt : is_queued t = true) by (apply (swap_in (id, t)); set_solver).
    assert (Hout : forall k y, (k, y) ∈ l1 \/ (k, y) ∈ l2 -> k <> n /\ k <> id).
    { intros k y Hy. assert (k ∈ l1.*1 \/ k ∈ l2.*1) as Hky by (destruct Hy; [left|right]; apply list_elem_of_fmap; by exists (k, y)).
      split; intros ->; set_solver. }
    unfold swapped. rewrite elem_of_app, !elem_of_cons in Hix |- *. rewrite !lookup_insert_Some.
    specialize (Hout i x). split.
    + intros [Hin|[Heq|[Heq|Hin]]]; simplify_eq.
      * destruct (Hout (or_introl Hin)), (proj1 Hix (or_introl Hin)). eauto 7.
      * split; [|done]. right. split; [set_solver|by left].
      * by split; [left|].
      * destruct (Hout (or_intror Hin)), (proj1 Hix (or_intror (or_intror (or_intror Hin)))). eauto 7.
    + intros [[[-> <-]|[Hni [[-> <-]|[Hidi Hm]]]] Hq]; [by do 2 right; left|by right; left|].
      destruct (proj2 Hix (conj Hm Hq)) as [?|[?|[?|?]]]; simplify_eq; [by left|by do 3 right].
Qed.
End swap.

(** Moving a task up swaps it with the one before it in the queue and leaves
    every other task where it is; a task that is not queued, or is first, is
    refused. *)
Theorem move_up_spec id q :
  positions_distinct q ->
  match ModelEvalQueueMoveUp id (tasks q) q with
  | (None, q') => exists l1 n l2, (ordered is_queued (tasks q)).*1 = l1 ++ n :: id :: l2 /\
                    (ordered is_queued (tasks q')).*1 = l1 ++ id :: n :: l2 /\
                    forall i, i <> id -> i <> n -> tasks q' !! i = tasks q !! i
  | (Some e, q') => q' = q /\
      match e with
      | ErrEvalQueueTaskNotFound => tasks q !! id = None
      | ErrEvalQueueTaskConflict => exists t, tasks q !! id = Some t /\ is_queued t = false
      | ErrEvalQueueMoveBounds => exists t rest, ordered is_queued (tasks q) = (id, t) :: rest
      | ErrEvalQueueModelUnavailable => False
      end
  end.
Proof.
  intros Hd. unfold ModelEvalQueueMoveUp, move_up_read. destruct (tasks q !! id) as [t|] eqn:Ht; [|done].
  destruct (is_queued t) eqn:Hq; cbn [negb]; [|eauto].
  destruct (list_find (fun kv => kv.1 = id) (ordered is_queued (tasks q))) as [[i [id' t']]|] eqn:Hf.
  2:{ apply list_find_None in Hf. rewrite Forall_forall in Hf. destruct (Hf (id, t)); [by apply rows_by_spec|done]. }
  apply list_find_Some in Hf as (Hi & Heq & _). cbn in Heq. subst id'.
  assert (t' = t) as ->. { apply list_elem_of_lookup_2 in Hi. apply rows_by_spec in Hi as [Hi _]. congruence. }
  destruct i as [|i].
  { split; [done|]. destruct (ordered is_queued (tasks q)) as [|x rest]; cbn in Hi; simplify_eq. eauto. }
  destruct (ordered is_queued (tasks q) !! i) as [[n tn]|] eqn:Hn.
  2:{ apply lookup_ge_None in Hn. apply lookup_lt_Some in Hi. lia. }
  set (l1 := take i (ordered is_queued (tasks q))). set (l2 := drop (S (S i)) (ordered is_queued (tasks q))).
  assert (Hsplit : ordered is_queued (tasks q) = l1 ++ (n, tn) :: (id, t) :: l2).
  { rewrite <- (take_drop_middle _ i (n, tn)) at 1 by done. f_equal. f_equal. by rewrite (drop_S _ (id, t)). }
  clearbody l1 l2. pose proof (swap_keys _ _ _ _ _ _ _ Hsplit Hd) as Hk. apply NoDup_app in Hk as (_ & _ & Hk2).
  assert (Hne : n <> id) by (intros ->; apply NoDup_cons in Hk2 as [Hin _]; set_solver).
  apply list_elem_of_lookup_2, rows_by_spec in Hn as [Hn Hqn].
  unfold move_up_write, update_if. cbn [fst snd]. rewrite Ht, Hq. cbn [negb].
  rewrite lookup_insert_ne, Hn, Hqn by done. cbn [negb]. exists l1.*1, n, l2.*1. split; [by rewrite Hsplit, fmap_app|].
  split; [|intros j ? ?; cbn; by rewrite !lookup_insert_ne].
  cbn [tasks put_tasks]. rewrite (swap_order _ l1 l2) by done. unfold swapped. by rewrite fmap_app.
Qed.
End queue.

Notation ordered := (rows_by Position).

(** Two administrators move two tasks up at the same time: both read the same
    queue, each transaction finds its rows queued, and two tasks end with one
    position. *)
Definition demo_task (p : Z) : ModelEvalQueueTask :=
  {| target := {| ChannelID := 1; ChannelModelID := p; ChannelName := "c"; ChannelType := "openai"; ModelName := "m" |};
     Status := QueueTaskQueued; Error := ""; EvalID := 0; Position := p; CreatedAt := 0; StartedAt := None; CompletedAt := None |}.

Definition demo_queue : Queue := {| tasks := list_to_map [(1, demo_task 1); (2, demo_task 2); (3, demo_task 3)]; next_id := 4 |}.

Lemma concurrent_moves_collide :
  let q := (ModelEvalQueueMoveUp 2 (tasks demo_queue) demo_queue).2 in
  let '(err, q') := ModelEvalQueueMoveUp 3 (tasks demo_queue) q in
  err = None /\ (Position <$> tasks q' !! 1) = Some 2 /\ (Position <$> tasks q' !! 3) = Some 2.
Proof. vm_compute. split; [|split]; reflexivity. Qed.

Lemma move_up_spec_witness :
  let q' := (ModelEvalQueueMoveUp 3 (tasks demo_queue) demo_queue).2 in
  (exists l1 n l2, (ordered is_queued (tasks demo_queue)).*1 = l1 ++ n :: 3 :: l2 /\
     (ordered is_queued (tasks q')).*1 = l1 ++ 3 :: n :: l2 /\
     forall i, i <> 3 -> i <> n -> tasks q' !! i = tasks demo_queue !! i).
Proof.
  pose proof (move_up_spec 3 demo_queue) as Hspec. 
  destruct (ModelEvalQueueMoveUp 3 (tasks demo_queue) demo_queue) as [[e|] q'] eqn:Hm.
  - exfalso. vm_compute in Hm. congruence.
  - apply Hspec. intros i j ti tj Hi Hj _ _ Hp.
    apply (elem_of_list_to_map_2 [(1, demo_task 1); (2, demo_task 2); (3, demo_task 3)]) in Hi, Hj.
    rewrite !elem_of_cons, elem_of_nil in Hi, Hj. naive_solver.
Defined.
