(* ===== verification/EvalScheduler.v ===== *)
(** * The evaluation scheduler

    internal/eval/scheduler.go.  A scheduler takes queued tasks while it has a free
    slot, runs each in a goroutine and writes the outcome back.  [inflight] has the
    tasks a process took and has not settled; a stop gives back those that are
    still running.  On MySQL and Postgres several processes share the table
    ([multi]); on SQLite there is one. *)

From S2P Require Import Prelude GoStrings EvalQueue.

Definition EvalConcurrency : Z := 4.

(** What [relay.TestChannelKeyFailover] returns to a worker. *)
Inductive TestResult := TestCancelled | TestDeadline | TestFailed (msg : string) | TestDone.

(** A goroutine of [runWorker]: its process, task, and the instant of the update
    that gave it the task. *)
Record Worker := { w_inst : Z; w_task : Z; w_start : Z }.
#[export] Instance worker_eq_dec : EqDecision Worker.
Proof. solve_decision. Defined.

Record Cluster := {
  c_queue : Queue; c_clock : Z; c_workers : list Worker; c_inflight : gmap Z (gset Z);
}.

Section scheduler.
Context `{ord : !MapOrder Z} (clean : string -> string) (redact : string -> string).
Implicit Types (c : Cluster) (q : Queue).

Definition tracked (i : Z) c : gset Z := default ∅ (c_inflight c !! i).

(** The counter [running] of a scheduler. *)
Definition running_of (i : Z) (ws : list Worker) : Z := Z.of_nat (length (filter (fun w => w_inst w = i) ws)).

(** [dispatch], up to the start of the goroutines, which first track their task. *)
Definition dispatch (i now : Z) (seen : gmap Z ModelEvalQueueTask) c : Cluster :=
  let need := EvalConcurrency - running_of i (c_workers c) in
  if need <=? 0 then c
  else
    let '(taken, q) := ModelEvalQueuePopNext now need seen (c_queue c) in
    {| c_queue := q; c_clock := now;
       c_workers := c_workers c ++ ((fun kv => {| w_inst := i; w_task := kv.1; w_start := now |}) <$> taken);
       c_inflight := <[i := tracked i c ∪ list_to_set taken.*1]> (c_inflight c) |}.

Definition record_error (result : TestResult) : string :=
  match result with
  | TestDeadline => redact "评估超时（最长等待 10 分钟）"
  | TestFailed msg => redact msg
  | TestCancelled | TestDone => ""
  end.

(** [executeTask]: [saved] is the id of the history row if it was written, [marked]
    whether MarkDone succeeded.  The result tells whether the row stays running. *)
Definition executeTask (stopping : bool) (result : TestResult) (saved : option Z) (marked : bool) (now id : Z) q : bool * Queue :=
  if stopping then (true, q)
  else
    match result with
    | TestCancelled => (true, q)
    | _ =>
        if negb marked then (true, q)
        else (false, ModelEvalQueueMarkDone clean now id (default 0 saved) (record_error result) q)
    end.

(** The recovery of a panic in [executeTask]. *)
Definition worker_panicked (msg : string) (marked : bool) (now id : Z) q : bool * Queue :=
  if marked then (false, ModelEvalQueueMarkDone clean now id 0 msg q) else (true, q).

(** The end of [runWorker]: an abandoned task stays in [inflight]. *)
Definition runWorker_end (w : Worker) (now : Z) (outcome : bool * Queue) c : Cluster :=
  {| c_queue := outcome.2; c_clock := now; c_workers := filter (fun w' => w' <> w) (c_workers c);
     c_inflight := if outcome.1 then c_inflight c
                   else <[w_inst w := tracked (w_inst w) c ∖ {[w_task w]}]> (c_inflight c) |}.

Definition reapExpiredRunning (now : Z) c : Cluster :=
  {| c_queue := ModelEvalQueueResetRunning now (c_queue c); c_clock := now;
     c_workers := c_workers c; c_inflight := c_inflight c |}.

(** [Stop] behind the two waits: no goroutine of the process is left. *)
Definition requeueInflight (i : Z) c : Cluster :=
  {| c_queue := ModelEvalQueueRequeueRunning (tracked i c) (c_queue c); c_clock := c_clock c;
     c_workers := c_workers c; c_inflight := <[i := ∅]> (c_inflight c) |}.

(** The process ends, with or without [Stop], and [Start] runs in a new one. *)
Definition restarted (multi : bool) (i now : Z) c : Cluster :=
  {| c_queue := ModelEvalQueueResetRunningOnStart multi now (c_queue c); c_clock := now;
     c_workers := filter (fun w => w_inst w <> i) (c_workers c); c_inflight := <[i := ∅]> (c_inflight c) |}.

Definition with_queue q c : Cluster :=
  {| c_queue := q; c_clock := c_clock c; c_workers := c_workers c; c_inflight := c_inflight c |}.

Inductive admin_step : Queue -> Queue -> Prop :=
  | admin_enqueue models channels now locked ids q :
      admin_step q (ModelEvalQueueEnqueue models channels now locked ids q).2
  | admin_move id seen q : admin_step q (ModelEvalQueueMoveUp id seen q).2
  | admin_stop now id seen q : admin_step q (ModelEvalQueueStop now id seen q).2
  | admin_clear q : admin_step q (ModelEvalQueueClear q).2.

(** Time passes, and every goroutine ends within the lease of its task: the code
    gives it ten minutes and ten seconds of the fifteen. *)
Definition in_time (now : Z) c : Prop :=
  c_clock c <= now /\ forall w, w ∈ c_workers c -> now <= w_start w + evalQueueRunningLease.

Definition instance_of (multi : bool) (i : Z) : Prop := multi = true \/ i = 0.

Inductive sched_step (multi : bool) : Cluster -> Cluster -> Prop :=
  | step_admin c q : admin_step (c_queue c) q -> sched_step multi c (with_queue q c)
  | step_dispatch c i now seen : instance_of multi i -> in_time now c -> sched_step multi c (dispatch i now seen c)
  | step_execute c w now stopping result saved marked :
      w ∈ c_workers c -> in_time now c ->
      sched_step multi c (runWorker_end w now (executeTask stopping result saved marked now (w_task w) (c_queue c)) c)
  | step_panic c w now msg marked :
      w ∈ c_workers c -> in_time now c ->
      sched_step multi c (runWorker_end w now (worker_panicked msg marked now (w_task w) (c_queue c)) c)
  | step_reap c now : in_time now c -> sched_step multi c (reapExpiredRunning now c)
  | step_stop c i : instance_of multi i -> (forall w, w ∈ c_workers c -> w_inst w <> i) ->
      sched_step multi c (requeueInflight i c)
  | step_restart c i now : instance_of multi i -> in_time now c -> sched_step multi c (restarted multi i now c).

Definition cluster_init (now : Z) q : Cluster := {| c_queue := q; c_clock := now; c_workers := []; c_inflight := ∅ |}.

(** ** A finished task is not run again *)

Lemma execute_moves stopping result saved marked now id q :
  rows_move (tasks q) (tasks (executeTask stopping result saved marked now id q).2).
Proof.
  unfold executeTask. destruct stopping; [done|]. destruct result, marked; cbn [negb snd]; first [apply done_moves|done].
Qed.

Lemma panic_moves msg marked now id q : rows_move (tasks q) (tasks (worker_panicked msg marked now id q).2).
Proof. destruct marked; [apply done_moves|done]. Qed.

(** Every step but an enqueue only moves rows. *)
Lemma sched_moves multi c c' :
  sched_step multi c c' ->
  rows_move (tasks (c_queue c)) (tasks (c_queue c')) /\ next_id (c_queue c') = next_id (c_queue c) \/
  exists models channels now locked ids, c_queue c' = (ModelEvalQueueEnqueue models channels now locked ids (c_queue c)).2.
Proof.
  intros [c0 q Hadmin|c0 i now seen _ _|c0 w now st r sv mk _ _|c0 w now msg mk _ _|c0 now _|c0 i _ _|c0 i now _ _]; cbn.
  - inversion Hadmin; subst; cbn; [right; eauto 10|left..].
    + split; [apply move_up_moves|]. unfold ModelEvalQueueMoveUp, move_up_write. by case_ifs.
    + split; [apply stop_moves|]. unfold ModelEvalQueueStop. by case_ifs.
    + split; [apply clear_moves|done].
  - left. unfold dispatch. destruct (_ <=? 0); [done|].
    pose proof (pop_moves now (EvalConcurrency - running_of i (c_workers c0)) seen (c_queue c0)) as Hm.
    unfold ModelEvalQueuePopNext in *. destruct (take_rows _ _ _). done.
  - left. split; [apply execute_moves|]. unfold executeTask. by destruct st, r, mk.
  - left. split; [apply panic_moves|]. by destruct mk.
  - left. split; [apply reset_moves|done].
  - left. split; [apply requeue_moves|]. unfold ModelEvalQueueRequeueRunning. by case_decide.
  - left. split; [apply on_start_moves|]. by destruct multi.
Qed.

Lemma sched_queue_ok multi c c' : sched_step multi c c' -> queue_ok (c_queue c) -> queue_ok (c_queue c').
Proof.
  intros [[Hm Hn]|(? & ? & ? & ? & ? & ->)]%sched_moves Hok; [|by apply enqueue_ok].
  pose proof (rows_move_ok (c_queue c) _ Hm Hok) as Hok'. unfold put_tasks in Hok'. rewrite <- Hn in Hok'.
  by destruct (c_queue c').
Qed.

Definition finished (id : Z) q : Prop := exists t, tasks q !! id = Some t /\ is_active t = false.

Lemma inserted_frame (l : list ModelEvalQueueTask) q :
  next_id q <= next_id (foldl insert_task q l) /\
  forall id t, tasks (foldl insert_task q l) !! id = Some t -> tasks q !! id = Some t \/ next_id q <= id.
Proof.
  revert q. induction l as [|x l IH]; intros q; cbn; [split; [lia|by left]|].
  destruct (IH (insert_task q x)) as [Hn Hrows]. cbn in *. split; [lia|]. intros id t Ht.
  destruct (Hrows id t Ht) as [[[<- _]|[_ ?]]%lookup_insert_Some|?]; [right; lia|by left|right; lia].
Qed.

(** Rows only appear behind the counter. *)
Lemma sched_frame multi c c' :
  sched_step multi c c' ->
  next_id (c_queue c) <= next_id (c_queue c') /\
  forall id t', id < next_id (c_queue c) -> tasks (c_queue c') !! id = Some t' ->
    exists t, tasks (c_queue c) !! id = Some t /\ (is_active t' = true -> is_active t = true).
Proof.
  intros [[Hm Hn]|(models & channels & now & locked & ids & ->)]%sched_moves.
  - split; [lia|]. intros id t' _ Ht. destruct (Hm id t' Ht) as (t & ? & _ & ?). eauto.
  - unfold ModelEvalQueueEnqueue. destruct (candidates _ _ _ _) as [|[|cand cands]]; [by split; [|eauto]..|].
    destruct locked; [|by split; [|eauto]].
    cbn [negb snd]. destruct (inserted_frame (assign_positions now (cand :: cands) (active_keys (c_queue c)) (max_position (c_queue c)))
      (c_queue c)) as [Hn Hrows].
    split; [done|]. intros id t' Hid Ht. destruct (Hrows id t' Ht); [eauto|lia].
Qed.

(** C19: Whatever schedulers, administrators and crashes do, a task that is done or
    stopped never becomes queued or running again, and no two tasks of one channel
    and model are waiting or running. *)
Theorem finished_never_reruns multi now q c c' :
  queue_ok q -> rtc (sched_step multi) (cluster_init now q) c -> rtc (sched_step multi) c c' ->
  distinct_targets (c_queue c') /\
  forall id, finished id (c_queue c) -> forall t, tasks (c_queue c') !! id = Some t -> is_active t = false.
Proof.
  intros Hq Hc Hc'.
  assert (Hok : queue_ok (c_queue c)).
  { revert Hc. apply (rtc_ind_r (fun c => queue_ok (c_queue c))); [done|]. intros x y _ Hstep. by apply (sched_queue_ok multi). }
  enough (Hall : queue_ok (c_queue c') /\ next_id (c_queue c) <= next_id (c_queue c') /\ forall id t, finished id (c_queue c) -> tasks (c_queue c') !! id = Some t -> is_active t = false).
  { destruct Hall as ([_ Hd] & _ & Hf). split; [done|]. intros id Hid t Ht. by apply (Hf id). }
  revert Hc'. apply (rtc_ind_r (fun c' => queue_ok (c_queue c') /\ next_id (c_queue c) <= next_id (c_queue c') /\
    forall id t, finished id (c_queue c) -> tasks (c_queue c') !! id = Some t -> is_active t = false)).
  { split; [done|]. split; [done|]. intros id t (t0 & Ht0 & Ha) Ht. congruence. }
  intros x y _ Hstep (Hx & Hn & Hfin). split; [by apply (sched_queue_ok multi x)|].
  destruct (sched_frame _ _ _ Hstep) as [Hn' Hrows]. split; [lia|]. intros id t Hid Ht.
  assert (Hlt : id < next_id (c_queue x)) by (destruct Hid as (t0 & Ht0 & _); apply Hok in Ht0; lia).
  destruct (Hrows id t Hlt Ht) as (t0 & Ht0 & Ha). rewrite (Hfin id t0 Hid Ht0) in Ha. destruct (is_active t); [by rewrite Ha|done].
Qed.

(** ** One worker per task *)

Lemma take_rows_spec now rows m kept m' :
  take_rows now rows m = (kept, m') ->
  NoDup kept.*1 /\ (length kept <= length rows)%nat /\
  (forall id, id ∈ kept.*1 -> exists t, m !! id = Some t /\ is_queued t = true /\
     m' !! id = Some (with_status QueueTaskRunning (Some now) t)) /\
  (forall id, id ∉ kept.*1 -> m' !! id = m !! id).
Proof.
  revert m kept m'. induction rows as [|[k x] rows IH]; intros m kept m'; cbn.
  { intros Heq. simplify_eq. split; [constructor|]. split; [done|]. split; [by intros ? ?%elem_of_nil|done]. }
  destruct (update_if _ _ k m) as [hit m1] eqn:Hu. destruct (take_rows now rows m1) as [kept1 m2] eqn:Hr.
  destruct (IH m1 kept1 m2 Hr) as (Hnd & Hlen & Hin & Hout). intros Heq. simplify_eq.
  unfold update_if in Hu. destruct (m !! k) as [t|] eqn:Hk; [destruct (is_queued t) eqn:Hq|]; simplify_eq;
    [|by split; [|split; [lia|]]..].
  assert (Hfresh : k ∉ kept1.*1).
  { intros Hk1. destruct (Hin k Hk1) as (t' & Ht' & Hq' & _). rewrite lookup_insert_eq in Ht'. by simplify_eq. }
  split; [by constructor|]. split; [cbn; lia|]. cbn. split.
  - intros id [->|Hid]%elem_of_cons.
    + exists t. rewrite (Hout k Hfresh), lookup_insert_eq. done.
    + destruct (Hin id Hid) as (t' & Ht' & ? & ?). rewrite lookup_insert_ne in Ht' by (intros ->; done). eauto.
  - intros id [Hne Hid]%not_elem_of_cons. rewrite (Hout id Hid). by rewrite lookup_insert_ne.
Qed.

(** A worker's task is running since the worker took it. *)
Definition works (q : Queue) (w : Worker) : Prop :=
  exists t, tasks q !! w_task w = Some t /\ task_running t = true /\ StartedAt t = Some (w_start w).

Record single_ok c : Prop := {
  so_queue : queue_ok (c_queue c);
  so_tasks : NoDup (w_task <$> c_workers c);
  so_slots : Z.of_nat (length (c_workers c)) <= EvalConcurrency;
  so_works : forall w, w ∈ c_workers c -> w_inst w = 0 /\ works (c_queue c) w;
}.

Lemma update_if_keeps p f id m hit m' k t :
  update_if p f id m = (hit, m') -> m !! k = Some t -> p t = false -> m' !! k = Some t.
Proof.
  unfold update_if. intros Heq Hk Hp. case_ifs; simplify_eq; try done.
  rewrite lookup_insert_ne; [done|]. intros ->. simplify_eq. congruence.
Qed.

Lemma running_not_queued t : task_running t = true -> is_queued t = false.
Proof. unfold task_running, is_queued. intros Hr%bool_decide_eq_true. by rewrite Hr. Qed.

(** The administrator does not touch a running task. *)
Lemma admin_works q q' w : queue_ok q -> admin_step q q' -> works q w -> works q' w.
Proof.
  intros [Hid _] Hadmin (t & Ht & Hr & Hs). exists t. split; [|done]. pose proof (running_not_queued t Hr) as Hq.
  destruct Hadmin as [models channels now locked ids q|id seen q|now id seen q|q].
  - unfold ModelEvalQueueEnqueue. destruct (candidates _ _ _ _) as [|[|cand cands]]; [done..|].
    destruct locked; [|done]. by apply insert_keeps.
  - unfold ModelEvalQueueMoveUp. destruct (move_up_read id seen) as [|[moved nb]]; [done|]. unfold move_up_write.
    destruct (update_if _ _ moved.1 _) as [hit m1] eqn:H1. destruct hit; [|done]. cbn [negb].
    destruct (update_if _ _ nb.1 m1) as [hit m2] eqn:H2. destruct hit; [|done]. cbn.
    eapply update_if_keeps; [exact H2| |done]. by eapply update_if_keeps.
  - unfold ModelEvalQueueStop. destruct (seen !! id) as [t'|]; [|done]. destruct (is_queued t'); [|done]. cbn [negb].
    destruct (update_if _ _ id _) as [hit m1] eqn:H1. destruct hit; [|done]. cbn. by eapply update_if_keeps.
  - cbn. rewrite map_lookup_filter_Some. cbn. by rewrite Hq.
Qed.

Lemma dispatch_ok now seen c : single_ok c -> single_ok (dispatch 0 now seen c).
Proof.
  intros [Hok Hnd Hslots Hworks]. assert (Hstep : forall q', rows_move (tasks (c_queue c)) (tasks q') ->
    next_id q' = next_id (c_queue c) -> queue_ok q').
  { intros q' Hm Hn. pose proof (rows_move_ok _ _ Hm Hok) as H'. unfold put_tasks in H'. rewrite <- Hn in H'. by destruct q'. }
  unfold dispatch. destruct (_ <=? 0) eqn:Hneed; [by split|]. set (need := EvalConcurrency - _) in *.
  assert (Hrun : running_of 0 (c_workers c) = Z.of_nat (length (c_workers c))).
  { unfold running_of. do 2 f_equal. clear -Hworks. induction (c_workers c) as [|w ws IH]; [done|].
    rewrite filter_cons, decide_True by (apply Hworks; left). f_equal. apply IH. intros w' Hw'. apply Hworks. by right. }
  unfold ModelEvalQueuePopNext. destruct (take_rows _ _ _) as [taken m] eqn:Ht.
  pose proof (take_rows_moves _ _ _ _ _ Ht) as Hm. apply take_rows_spec in Ht as (Hnd' & Hlen & Hin & Hout).
  apply Z.leb_gt in Hneed. rewrite (proj2 (Z.leb_gt need 0)) in Hlen by done. rewrite length_take in Hlen.
  split; cbn.
  - by apply Hstep.
  - rewrite fmap_app, <- list_fmap_compose. apply NoDup_app. split; [done|]. split; [|exact Hnd'].
    intros id (w & -> & Hw)%list_elem_of_fmap Hid. destruct (Hin (w_task w) Hid) as (t & Ht & Hq & _).
    destruct (Hworks w Hw) as (_ & t' & Ht' & Hr & _). rewrite Ht in Ht'. simplify_eq.
    by rewrite (running_not_queued _ Hr) in Hq.
  - rewrite length_app, length_fmap. unfold need in *. lia.
  - intros w [Hw|(kv & -> & Hkv)%list_elem_of_fmap]%elem_of_app.
    + destruct (Hworks w Hw) as (? & t & Ht & Hr & Hs). split; [done|]. exists t. cbn. split; [|done].
      rewrite Hout; [done|]. intros Hid. destruct (Hin _ Hid) as (t' & Ht' & Hq & _). rewrite Ht in Ht'. simplify_eq.
      by rewrite (running_not_queued _ Hr) in Hq.
    + split; [done|]. destruct (Hin kv.1) as (t & _ & _ & Ht'); [by apply list_elem_of_fmap_2|].
      eexists. cbn. split; [exact Ht'|]. done.
Qed.

(** A step that keeps the workers, or drops some, and moves rows without touching
    those of the workers that are left. *)
Lemma single_frame c c' :
  single_ok c -> queue_ok (c_queue c') -> sublist (c_workers c') (c_workers c) ->
  (forall w, w ∈ c_workers c' -> works (c_queue c) w -> works (c_queue c') w) -> single_ok c'.
Proof.
  intros [Hok Hnd Hslots Hworks] Hq Hsub Hkeep. split; [done|..].
  - eapply sublist_NoDup; [exact Hnd|]. by apply fmap_sublist.
  - apply sublist_length in Hsub. lia.
  - intros w Hw. assert (Hin : w ∈ c_workers c) by (eapply sublist_subseteq; eauto).
    destruct (Hworks w Hin) as [? ?]. auto.
Qed.

(** The end of another task. *)
Lemma settled_works w w' now q outcome :
  w_task w <> w_task w' ->
  (exists stopping result saved marked, outcome = executeTask stopping result saved marked now (w_task w) q) \/
  (exists msg marked, outcome = worker_panicked msg marked now (w_task w) q) ->
  works q w' -> works outcome.2 w'.
Proof.
  intros Hne Hout (t & Ht & Hr). exists t. split; [|done].
  assert (Hdone : forall e msg, tasks (ModelEvalQueueMarkDone clean now (w_task w) e msg q) !! w_task w' = Some t)
    by (intros; cbn; by rewrite lookup_alter_ne).
  destruct Hout as [(st & r & sv & mk & ->)|(msg & mk & ->)].
  - unfold executeTask. destruct st; [done|]. destruct r, mk; first [apply Hdone|done].
  - destruct mk; [apply Hdone|done].
Qed.

Lemma distinct_tasks c w w' :
  NoDup (w_task <$> c_workers c) -> w ∈ c_workers c -> w' ∈ c_workers c -> w' <> w -> w_task w <> w_task w'.
Proof.
  intros Hnd [i Hi]%list_elem_of_lookup [j Hj]%list_elem_of_lookup Hne Heq. apply Hne.
  assert (i = j) as ->; [|congruence].
  apply (NoDup_lookup _ i j (w_task w) Hnd); rewrite list_lookup_fmap; [by rewrite Hi|by rewrite Hj, Heq].
Qed.

Lemma settle_ok c w now outcome :
  single_ok c -> w ∈ c_workers c -> rows_move (tasks (c_queue c)) (tasks outcome.2) -> next_id outcome.2 = next_id (c_queue c) ->
  (forall w', w_task w <> w_task w' -> works (c_queue c) w' -> works outcome.2 w') ->
  single_ok (runWorker_end w now outcome c).
Proof.
  intros Hok Hw Hm Hn Hkeep. eapply single_frame; [exact Hok|..]; cbn.
  - pose proof (rows_move_ok _ _ Hm (so_queue _ Hok)) as H'. unfold put_tasks in H'. rewrite <- Hn in H'. by destruct (outcome.2).
  - apply sublist_filter.
  - intros w' [Hne Hw']%list_elem_of_filter. apply Hkeep. by apply (distinct_tasks c); [apply so_tasks|..].
Qed.

Lemma reset_works now q w : now <= w_start w + evalQueueRunningLease -> works q w -> works (ModelEvalQueueResetRunning now q) w.
Proof.
  intros Hlease (t & Ht & Hr & Hs). exists t. split; [|done]. cbn. rewrite map_lookup_imap, Ht. cbn.
  unfold lease_expired. rewrite Hs. rewrite (proj2 (Z.ltb_ge _ _)) by lia. by rewrite andb_false_r.
Qed.

Lemma single_step_ok c c' : sched_step false c c' -> single_ok c -> single_ok c'.
Proof.
  intros Hstep Hok. pose proof (sched_queue_ok _ _ _ Hstep (so_queue _ Hok)) as Hq.
  destruct Hstep as [c q Hadmin|c i now seen Hi _|c w now st r sv mk Hw _|c w now msg mk Hw _|c now Htime|c i Hi Hnone|c i now Hi _].
  - apply (single_frame c); [done|done|done|]. intros w _. by apply admin_works; [apply so_queue|].
  - destruct Hi as [| ->]; [done|]. by apply dispatch_ok.
  - apply settle_ok; [done|done|apply execute_moves|unfold executeTask; by destruct st, r, mk|].
    intros w' Hne. apply (settled_works w w' now); [done|]. left. eauto.
  - apply settle_ok; [done|done|apply panic_moves|by destruct mk|].
    intros w' Hne. apply (settled_works w w' now); [done|]. right. eauto.
  - apply (single_frame c); [done|done|done|]. intros w Hw. apply reset_works. by apply Htime.
  - destruct Hi as [| ->]; [done|]. apply (single_frame c); [done|done|done|]. intros w Hw.
    destruct (Hnone w Hw). by apply Hok.
  - destruct Hi as [| ->]; [done|]. apply (single_frame c); [done|done|apply sublist_filter|].
    intros w [Hne Hw]%list_elem_of_filter. destruct Hne. by apply Hok.
Qed.

End scheduler.

(** ** Runs *)

Definition one_task : Queue := {| tasks := {[1 := demo_task 1]}; next_id := 2 |}.

Lemma one_task_ok : queue_ok one_task.
Proof.
  split; cbn.
  - intros id t [<- _]%lookup_singleton_Some. lia.
  - intros i j ti tj. cbn. intros [<- _]%lookup_singleton_Some [<- _]%lookup_singleton_Some. done.
Qed.

(** One process takes the task. *)
Definition demo_taken (i now : Z) (c : Cluster) : Cluster := dispatch i now (tasks (c_queue c)) c.

Lemma demo_worker_reachable :
  rtc (sched_step id id false) (cluster_init 0 one_task) (demo_taken 0 5 (cluster_init 0 one_task)).
Proof.
  eapply rtc_l; [|apply rtc_refl]. apply step_dispatch; [by right|].
  split; [cbn; lia|]. by intros w ?%elem_of_nil.
Qed.


Lemma finished_never_reruns_witness :
  distinct_targets (c_queue (demo_taken 0 5 (cluster_init 0 one_task))).
Proof.
  apply (finished_never_reruns id id false 0 one_task (cluster_init 0 one_task));
    [exact one_task_ok|apply rtc_refl|exact demo_worker_reachable].
Defined.

(** Two processes: the first fails to write an outcome and keeps the task in
    [inflight]; the lease runs out and the second takes the task; when the first
    stops it gives the task back although the second still works on it. *)
Definition shared1 := demo_taken 0 0 (cluster_init 0 one_task).
Definition shared2 := runWorker_end {| w_inst := 0; w_task := 1; w_start := 0 |} 10
                        (executeTask id id false TestDone (Some 7) false 10 1 (c_queue shared1)) shared1.
Definition shared3 := reapExpiredRunning (evalQueueRunningLease + 1) shared2.
Definition shared4 := demo_taken 1 (evalQueueRunningLease + 1) shared3.
Definition shared5 := requeueInflight 0 shared4.
Definition shared6 := demo_taken 1 (evalQueueRunningLease + 2) shared5.

Lemma workers_in (c : Cluster) ws P :
  c_workers c = ws -> Forall P ws -> forall w, w ∈ c_workers c -> P w.
Proof. intros ->. by rewrite Forall_forall. Qed.

Lemma stop_takes_a_foreign_task :
  rtc (sched_step id id true) (cluster_init 0 one_task) shared6 /\
  w_task <$> c_workers shared6 = [1; 1].
Proof.
  split; [|vm_compute; reflexivity].
  apply (rtc_l _ _ shared1). { apply step_dispatch; [by left|]. split; [done|]. by intros w ?%elem_of_nil. }
  apply (rtc_l _ _ shared2).
  { apply step_execute; [rewrite list_elem_of_In; vm_compute; by left|]. split; [by vm_compute|].
    eapply workers_in; [vm_compute; reflexivity|]. repeat constructor. by vm_compute. }
  apply (rtc_l _ _ shared3). { apply step_reap. split; [by vm_compute|]. eapply workers_in; [vm_compute; reflexivity|]. constructor. }
  apply (rtc_l _ _ shared4).
  { apply step_dispatch; [by left|]. split; [by vm_compute|]. eapply workers_in; [vm_compute; reflexivity|]. constructor. }
  apply (rtc_l _ _ shared5).
  { apply step_stop; [by left|]. eapply workers_in; [vm_compute; reflexivity|]. by repeat constructor. }
  apply (rtc_l _ _ shared6); [|apply rtc_refl].
  apply step_dispatch; [by left|]. split; [by vm_compute|]. eapply workers_in; [vm_compute; reflexivity|].
  repeat constructor. by vm_compute.
Qed.
