(* ===== verification/EvalRank.v ===== *)
(** * The ranking of evaluated models

    internal/op/model_eval_rank.go: the administrator's ranking of the models whose
    evaluation succeeded.  [modelEvalRankMu] makes every writing operation one step
    of the table.  Lookups in the channel caches and the history are arguments. *)

From S2P Require Import Prelude GoStrings OrderedRows EvalQueue.

Inductive ModelEvalOutcome := ModelEvalOK | ModelEvalViolation | ModelEvalManual | ModelEvalError.

Inductive RankError :=
  | ErrEvalRankNotFound | ErrEvalRankMoveBounds | ErrEvalRankInvalidPosition | ErrEvalRankMoveErrorOutcome
  | ErrEvalRankModelUnavailable | ErrEvalRankErrorOutcome.

Definition isRankableOutcome (o : ModelEvalOutcome) : bool :=
  match o with ModelEvalOK | ModelEvalViolation | ModelEvalManual => true | ModelEvalError => false end.

(** The snapshot of an evaluation. *)
Record Snapshot := {
  sn_Outcome : ModelEvalOutcome; sn_Error : string; sn_Content : string; sn_ContentTruncated : bool;
  sn_PromptTokens : Z; sn_CompletionTokens : Z; sn_LatencyMS : Z; sn_SourceEvalID : Z;
}.

Record ModelEvalRank := { rk_target : Target; rk_snapshot : Snapshot; rk_Position : Z }.
Record Ranks := { ranks : gmap Z ModelEvalRank; next_rank : Z }.

Definition rankable (r : ModelEvalRank) : bool := isRankableOutcome (sn_Outcome (rk_snapshot r)).
Definition at_position (p : Z) (r : ModelEvalRank) : ModelEvalRank :=
  {| rk_target := rk_target r; rk_snapshot := rk_snapshot r; rk_Position := p |}.

Section rank.
Context `{ord : !MapOrder Z}.
Context (clean : string -> string) (cut : string -> option string).
Implicit Types s : Ranks.

Notation ranked := (rows_by rk_Position rankable).

Definition ModelEvalRankList s : list (Z * ModelEvalRank) := ranked (ranks s).

(** COALESCE(MAX(position), -1) over the rankable rows with a position. *)
Definition max_rank s : Z :=
  foldr (fun kv acc => if rankable kv.2 && (0 <=? rk_Position kv.2) then Z.max (rk_Position kv.2) acc else acc) (-1)
    (map_order (ranks s)).

Definition nextRankablePosition s : Z := max_rank s + 1.

(** Content above the limit is cut ([cut] gives [None] below it), the error is
    redacted and cut. *)
Definition bounded_snapshot (sn : Snapshot) : Snapshot :=
  {| sn_Outcome := sn_Outcome sn; sn_Error := clean (sn_Error sn);
     sn_Content := default (sn_Content sn) (cut (sn_Content sn));
     sn_ContentTruncated := if cut (sn_Content sn) then true else sn_ContentTruncated sn;
     sn_PromptTokens := sn_PromptTokens sn; sn_CompletionTokens := sn_CompletionTokens sn;
     sn_LatencyMS := sn_LatencyMS sn; sn_SourceEvalID := sn_SourceEvalID sn |}.

(** The first row of a channel and a model; [First] orders by id. *)
Definition same_target (t : Target) (r : ModelEvalRank) : bool := bool_decide (task_key (rk_target r) = task_key t).
Definition find_rank (t : Target) s : option (Z * ModelEvalRank) :=
  head (rows_by (fun _ => 0) (same_target t) (ranks s)).

Definition ModelEvalRankUpsert (t : Target) (sn : Snapshot) s : Ranks :=
  if negb (isRankableOutcome (sn_Outcome sn)) then s
  else
    let sn := bounded_snapshot sn in
    match find_rank t s with
    | Some (id, old) =>
        let p := if rankable old && (0 <=? rk_Position old) then rk_Position old else nextRankablePosition s in
        let t := {| ChannelID := ChannelID (rk_target old); ChannelModelID := ChannelModelID t; ChannelName := ChannelName t;
                    ChannelType := ChannelType t; ModelName := ModelName (rk_target old) |} in
        {| ranks := <[id := {| rk_target := t; rk_snapshot := sn; rk_Position := p |}]> (ranks s); next_rank := next_rank s |}
    | None =>
        {| ranks := <[next_rank s := {| rk_target := t; rk_snapshot := sn; rk_Position := nextRankablePosition s |}]> (ranks s);
           next_rank := next_rank s + 1 |}
    end.

(** ** Reordering *)

(** The two [copy] calls and the assignment behind them. *)
Definition move_to {A} (idx next : nat) (moving : A) (l : list A) : list A :=
  let l := if (next <? idx)%nat then
             take (S next) l ++ take (idx - next) (drop next l) ++ drop (S idx) l
           else if (idx <? next)%nat then
             take idx l ++ take (next - idx) (drop (S idx) l) ++ drop next l
           else l in
  <[next := moving]> l.

(** The loop that writes the new positions. *)
Fixpoint write_positions (i : Z) (rows : list (Z * ModelEvalRank)) (m : gmap Z ModelEvalRank) : gmap Z ModelEvalRank :=
  match rows with
  | [] => m
  | (id, r) :: rows =>
      write_positions (i + 1) rows (if rk_Position r =? i then m else alter (at_position i) id m)
  end.

Definition modelEvalRankReorder (id direction position : Z) s : option RankError * Ranks :=
  match ranks s !! id with
  | None => (Some ErrEvalRankNotFound, s)
  | Some target =>
      if negb (rankable target) then (Some ErrEvalRankMoveErrorOutcome, s)
      else
        let rows := ranked (ranks s) in
        match list_find (fun kv => kv.1 = id) rows with
        | None => (Some ErrEvalRankNotFound, s)
        | Some (idx, moving) =>
            let n := Z.of_nat (length rows) in
            let next := if 0 <? position then Z.min position n - 1 else Z.of_nat idx + direction in
            if (next <? 0) || (n <=? next) then (Some ErrEvalRankMoveBounds, s)
            else
              let rows := move_to idx (Z.to_nat next) moving rows in
              (None, {| ranks := write_positions 0 rows (ranks s); next_rank := next_rank s |})
        end
  end.

Definition ModelEvalRankMove (id direction : Z) s : option RankError * Ranks :=
  if negb (direction =? -1) && negb (direction =? 1) then (Some ErrEvalRankMoveBounds, s)
  else modelEvalRankReorder id direction 0 s.

Definition ModelEvalRankSetPosition (id position : Z) s : option RankError * Ranks :=
  if position <? 1 then (Some ErrEvalRankInvalidPosition, s) else modelEvalRankReorder id 0 position s.

Definition ModelEvalRankRemove (id : Z) s : Ranks := {| ranks := delete id (ranks s); next_rank := next_rank s |}.

(** ** Adding *)

Record History := { hi_target : Target; hi_snapshot : Snapshot; hi_ID : Z }.

Definition ModelEvalRankFromHistory (ModelEvalGet : Z -> option History) (ChannelModelGet : Z -> option ModelRow)
    (ChannelGetCore : Z -> option ChannelRow) (evalID : Z) s : option RankError * Ranks :=
  match ModelEvalGet evalID with
  | None => (Some ErrEvalRankNotFound, s)
  | Some h =>
      if negb (isRankableOutcome (sn_Outcome (hi_snapshot h))) then (Some ErrEvalRankErrorOutcome, s)
      else if negb (is_some (ChannelModelGet (ChannelModelID (hi_target h)))) then (Some ErrEvalRankModelUnavailable, s)
      else
        match ChannelGetCore (ChannelID (hi_target h)) with
        | None => (Some ErrEvalRankModelUnavailable, s)
        | Some channel =>
            if negb (ch_Enabled channel) then (Some ErrEvalRankModelUnavailable, s)
            else (None, ModelEvalRankUpsert (hi_target h) (hi_snapshot h) s)
        end
  end.

Definition manual_snapshot : Snapshot :=
  {| sn_Outcome := ModelEvalManual; sn_Error := ""; sn_Content := ""; sn_ContentTruncated := false;
     sn_PromptTokens := 0; sn_CompletionTokens := 0; sn_LatencyMS := 0; sn_SourceEvalID := 0 |}.

(** Unlike in the queue, the rows created do not count as existing: the candidates
    are already distinct. *)
Fixpoint append_manual (cands : list Target) (existing : gset (Z * string)) (nextPos : Z) s : Ranks :=
  match cands with
  | [] => s
  | c :: cands =>
      if decide (task_key c ∈ existing) then append_manual cands existing nextPos s
      else append_manual cands existing (nextPos + 1)
             {| ranks := <[next_rank s := {| rk_target := c; rk_snapshot := manual_snapshot; rk_Position := nextPos + 1 |}]> (ranks s);
                next_rank := next_rank s + 1 |}
  end.

Definition rank_keys s : gset (Z * string) :=
  list_to_set ((fun kv => task_key (rk_target kv.2)) <$> map_order (ranks s)).

Definition ModelEvalRankManualAdd (ChannelModelGet : Z -> option ModelRow) (ChannelGetCore : Z -> option ChannelRow)
    (ids : list Z) s : option RankError * Ranks :=
  match candidates ChannelModelGet ChannelGetCore ids ∅ with
  | inl _ => (Some ErrEvalRankModelUnavailable, s)
  | inr cands => (None, append_manual cands (rank_keys s) (max_rank s) s)
  end.

(** ** What a reordering does *)

Definition without {A} (idx : nat) (l : list A) : list A := take idx l ++ drop (S idx) l.
Definition insert_at {A} (k : nat) (x : A) (l : list A) : list A := take k l ++ x :: drop k l.

Lemma move_earlier {A} (a b l2 : list A) x :
  b <> [] -> move_to (length a + length b) (length a) x (a ++ b ++ x :: l2) = a ++ x :: b ++ l2.
Proof.
  intros Hb. unfold move_to. destruct b as [|b0 b]; [done|]. cbn [length].
  rewrite (proj2 (Nat.ltb_lt _ _)) by lia. replace (S (length a)) with (length a + 1)%nat at 1 by lia.
  rewrite take_app_add, drop_app_length. replace (length a + S (length b) - length a)%nat with (length (b0 :: b)) by (cbn; lia).
  rewrite take_app_length. replace (S (length a + S (length b))) with (length a + (length (b0 :: b) + 1))%nat by (cbn; lia).
  rewrite drop_app_add, drop_app_add. cbn [take drop app]. rewrite <- app_assoc. cbn [app].
  replace (length a) with (length a + 0)%nat by lia. by rewrite insert_app_r.
Qed.

Lemma move_later {A} (l1 c d : list A) x y :
  move_to (length l1) (length l1 + S (length c)) x (l1 ++ x :: c ++ y :: d) = (l1 ++ c ++ [y]) ++ x :: d.
Proof.
  unfold move_to. rewrite (proj2 (Nat.ltb_ge _ _)), (proj2 (Nat.ltb_lt _ _)) by lia.
  rewrite take_app_length, drop_app_add. replace (S (length l1)) with (length l1 + 1)%nat by lia. rewrite drop_app_add.
  cbn [drop]. rewrite drop_app_length. replace (length l1 + S (length c) - length l1)%nat with (length c + 1)%nat by lia.
  rewrite drop_0, take_app_add. rewrite firstn_cons, take_0, (app_assoc l1).
  rewrite insert_app_r_alt; rewrite !length_app; cbn [length]; [|lia].
  by replace (length l1 + S (length c) - (length l1 + (length c + 1)))%nat with 0%nat by lia.
Qed.

Lemma move_to_spec {A} idx next (x : A) l :
  l !! idx = Some x -> (next < length l)%nat -> move_to idx next x l = insert_at next x (without idx l).
Proof.
  intros Hx Hn. apply list_elem_of_split_length in Hx as (l1 & l2 & -> & ->).
  rewrite length_app in Hn. cbn in Hn. unfold without. rewrite take_app_length.
  replace (S (length l1)) with (length l1 + 1)%nat by lia. rewrite drop_app_add. cbn [drop]. unfold insert_at.
  destruct (Nat.lt_trichotomy next (length l1)) as [Hlt|[->|Hgt]].
  - set (a := take next l1). set (b := drop next l1).
    assert (Ha : length a = next) by (unfold a; rewrite length_take; lia).
    assert (Hl : l1 = a ++ b) by (symmetry; apply take_drop).
    assert (Hb : b <> []) by (intros Hb; apply (f_equal length) in Hl; rewrite length_app, Hb in Hl; cbn in Hl; lia).
    clearbody a b. subst l1 next. rewrite length_app, <- !app_assoc, take_app_length, drop_app_length.
    by apply move_earlier.
  - rewrite take_app_length, drop_app_length. unfold move_to. rewrite !Nat.ltb_irrefl.
    rewrite insert_app_r_alt by lia. by rewrite Nat.sub_diag.
  - set (k := (next - length l1 - 1)%nat). destruct (lookup_lt_is_Some_2 l2 k) as [y Hy]; [lia|].
    apply list_elem_of_split_length in Hy as (c & d & -> & Hk). rewrite length_app in Hn. cbn in Hn.
    replace next with (length l1 + S (length c))%nat by lia. rewrite move_later, take_app_add, drop_app_add.
    rewrite drop_0. replace (S (length c)) with (length c + 1)%nat by lia.
    rewrite take_app_add, drop_app_add, firstn_cons, take_0. cbn [drop]. by rewrite drop_0.
Qed.

(** The rows with their new positions. *)
Fixpoint renumber (i : Z) (rows : list (Z * ModelEvalRank)) : list (Z * ModelEvalRank) :=
  match rows with
  | [] => []
  | (id, r) :: rows => (id, at_position i r) :: renumber (i + 1) rows
  end.

Lemma renumber_keys i rows : (renumber i rows).*1 = rows.*1.
Proof. revert i. induction rows as [|[id r] rows IH]; intros i; cbn; [done|]. by rewrite IH. Qed.

Lemma renumber_positions i rows :
  (fun kv => rk_Position kv.2) <$> renumber i rows = seqZ i (Z.of_nat (length rows)).
Proof.
  revert i. induction rows as [|[id r] rows IH]; intros i; cbn [renumber fmap list_fmap length]; [done|].
  rewrite seqZ_cons by lia. cbn [snd at_position rk_Position]. f_equal. rewrite IH. f_equal; lia.
Qed.

Lemma renumber_in i rows kv : kv ∈ renumber i rows -> exists j r, (kv.1, r) ∈ rows /\ kv.2 = at_position j r /\ i <= j.
Proof.
  revert i. induction rows as [|[id r] rows IH]; intros i; cbn; [by intros ?%elem_of_nil|].
  intros [->|Hin]%elem_of_cons; [exists i, r; split; [left|done]|].
  destruct (IH _ Hin) as (j & r' & ? & ? & ?). exists j, r'. split; [by right|]. split; [done|lia].
Qed.

Lemma renumber_sorted i rows : StronglySorted (row_before rk_Position) (renumber i rows).
Proof.
  revert i. induction rows as [|[id r] rows IH]; intros i; cbn; constructor; [apply IH|].
  apply Forall_forall. intros kv (j & r' & _ & Heq & Hj)%renumber_in. left. rewrite Heq. cbn. lia.
Qed.

Lemma write_spec i rows m :
  NoDup rows.*1 -> (forall id r, (id, r) ∈ rows -> m !! id = Some r) ->
  (forall id r, (id, r) ∈ renumber i rows -> write_positions i rows m !! id = Some r) /\
  (forall id, id ∉ rows.*1 -> write_positions i rows m !! id = m !! id).
Proof.
  revert i m. induction rows as [|[k x] rows IH]; intros i m; cbn [fmap list_fmap fst write_positions renumber].
  { intros _ _. split; [by intros id r ?%elem_of_nil|done]. }
  intros [Hk Hnd]%NoDup_cons Hin.
  set (m1 := if rk_Position x =? i then m else alter (at_position i) k m).
  assert (Hm1 : forall id, id <> k -> m1 !! id = m !! id).
  { intros id Hne. unfold m1. destruct (_ =? i); [done|]. by rewrite lookup_alter_ne. }
  assert (Hk1 : m1 !! k = Some (at_position i x)).
  { pose proof (Hin k x ltac:(left)) as Hx. unfold m1. destruct (Z.eqb_spec (rk_Position x) i) as [<-|_].
    - rewrite Hx. by destruct x.
    - by rewrite lookup_alter_eq, Hx. }
  destruct (IH (i + 1) m1 Hnd) as [Hren Hout].
  { intros id r Hr. rewrite Hm1; [apply Hin; by right|]. intros ->. apply Hk. apply list_elem_of_fmap. by exists (k, r). }
  split.
  - intros id r [Heq|Hr]%elem_of_cons; [|by apply Hren]. simplify_eq. rewrite Hout; [done|exact Hk].
  - intros id [Hne Hid]%not_elem_of_cons. rewrite Hout by done. by apply Hm1.
Qed.

Lemma insert_at_perm {A} k (x : A) l : insert_at k x l ≡ₚ x :: l.
Proof. unfold insert_at. rewrite <- Permutation_middle. by rewrite take_drop. Qed.

Lemma fmap_insert_at {A B} (f : A -> B) k x l : f <$> insert_at k x l = insert_at k (f x) (f <$> l).
Proof. unfold insert_at. by rewrite fmap_app, fmap_take, fmap_cons, fmap_drop. Qed.

(** The order after the positions of a permutation of the rows were written. *)
Lemma written_order rows (m : gmap Z ModelEvalRank) :
  rows ≡ₚ ranked m -> ranked (write_positions 0 rows m) = renumber 0 rows.
Proof.
  intros Hperm. symmetry.
  assert (Hnd : NoDup rows.*1) by (rewrite Hperm; apply rows_by_keys).
  destruct (write_spec 0 rows m Hnd) as [Hin Hout].
  { intros id r Hr. rewrite Hperm in Hr. by apply rows_by_spec in Hr as [? _]. }
  apply rows_by_unique; [by rewrite renumber_keys| |apply renumber_sorted].
  intros id r. split.
  - intros Hr. split; [by apply Hin|]. apply renumber_in in Hr as (j & r0 & Hr0 & Heq & _). cbn in *. subst r.
    rewrite Hperm in Hr0. by apply rows_by_spec in Hr0 as [_ ?].
  - intros [Hm Hr]. destruct (decide (id ∈ rows.*1)) as [Hid|Hid].
    + rewrite <- (renumber_keys 0) in Hid. apply list_elem_of_fmap in Hid as ([id' r'] & -> & Hr'). cbn in *.
      rewrite (Hin _ _ Hr') in Hm. by simplify_eq.
    + rewrite Hout in Hm by done. destruct Hid. apply list_elem_of_fmap. exists (id, r). split; [done|].
      rewrite Hperm. by apply rows_by_spec.
Qed.

(** A reordering moves one row to its new place and keeps the order of the
    others, leaves no gap and no tie in the positions, and changes nothing when it
    is refused. *)
Theorem reorder_spec id direction position s :
  match modelEvalRankReorder id direction position s with
  | (None, s') => exists l1 l2, (ranked (ranks s)).*1 = l1 ++ id :: l2 /\
      let n := Z.of_nat (S (length l1 + length l2)) in
      let next := if 0 <? position then Z.min position n - 1 else Z.of_nat (length l1) + direction in
      0 <= next < n /\ (ranked (ranks s')).*1 = insert_at (Z.to_nat next) id (l1 ++ l2) /\
      (fun kv => rk_Position kv.2) <$> ranked (ranks s') = seqZ 0 n
  | (Some _, s') => s' = s
  end.
Proof.
  unfold modelEvalRankReorder. destruct (ranks s !! id) as [target|]; [|done]. destruct (rankable target); [|done].
  cbn [negb]. destruct (list_find _ (ranked (ranks s))) as [[idx [id' moving]]|] eqn:Hf; [|done].
  apply list_find_Some in Hf as (Hidx & Heq & _). cbn in Heq. subst id'.
  set (next := if 0 <? position then _ else _). destruct ((next <? 0) || _) eqn:Hb; [done|].
  apply orb_false_iff in Hb as [Hlo%Z.ltb_ge Hhi%Z.leb_gt].
  pose proof (move_to_spec idx (Z.to_nat next) (id, moving) _ Hidx ltac:(lia)) as Hmove.
  pose proof Hidx as Hsplit. apply list_elem_of_split_length in Hsplit as (l1 & l2 & Hrows & Hlen).
  assert (Hw : without idx (ranked (ranks s)) = l1 ++ l2).
  { unfold without. rewrite Hrows, Hlen, take_app_length. replace (S (length l1)) with (length l1 + 1)%nat by lia.
    by rewrite drop_app_add. }
  rewrite Hw in Hmove. assert (Hperm : insert_at (Z.to_nat next) (id, moving) (l1 ++ l2) ≡ₚ ranked (ranks s)).
  { rewrite Hrows, insert_at_perm. by rewrite Permutation_middle. }
  assert (Hn : length (ranked (ranks s)) = S (length l1 + length l2)) by (rewrite Hrows, length_app; cbn; lia).
  exists l1.*1, l2.*1. cbn [ranks]. rewrite Hmove, written_order, renumber_keys, fmap_insert_at, renumber_positions by done.
  rewrite !length_fmap. split; [by rewrite Hrows, fmap_app|]. cbv zeta. rewrite <- Hn.
  replace (Z.of_nat (length l1)) with (Z.of_nat idx) by lia. fold next.
  split; [lia|]. split; [by rewrite fmap_app|]. f_equal. by rewrite Hperm.
Qed.
End rank.

(** Three rows with gaps and a tie; the last one is moved to the first place. *)
Definition demo_rank (model : Z) (p : Z) : ModelEvalRank :=
  {| rk_target := {| ChannelID := 1; ChannelModelID := model; ChannelName := "c"; ChannelType := "openai"; ModelName := "m" |};
     rk_snapshot := manual_snapshot; rk_Position := p |}.

Definition demo_ranks : Ranks := {| ranks := list_to_map [(1, demo_rank 1 4); (2, demo_rank 2 4); (3, demo_rank 3 9)]; next_rank := 4 |}.

Example demo_reorder :
  let '(err, s) := ModelEvalRankSetPosition 3 1 demo_ranks in
  err = None /\ (fun kv => (kv.1, rk_Position kv.2)) <$> ModelEvalRankList s = [(3, 0); (1, 1); (2, 2)] /\
  (ModelEvalRankMove 3 1 s).1 = None /\ (ModelEvalRankMove 3 (-1) s).1 = Some ErrEvalRankMoveBounds.
Proof. vm_compute. repeat split; reflexivity. Qed.
