(* ===== verification/Runes.v ===== *)
(** * Runes and their bytes

    What [DecodeRune] reads is what [AppendRune] writes: a rune that is decoded
    without an error stands at the front of the text as its encoding. *)

From Stdlib Require Import Ascii String.
From S2P Require Import Prelude GoStrings Utf8.
Local Open Scope list_scope.

(** Quotients and remainders by constants are left to [lia]. *)
#[local] Ltac Zify.zify_post_hook ::= Z.to_euclidean_division_equations.

(** ** Bits *)

Lemma lor_shiftl a n x : 0 <= n -> 0 <= x < 2 ^ n -> Z.lor (Z.shiftl a n) x = a * 2 ^ n + x.
Proof.
  intros Hn Hx. rewrite <- Z.shiftl_mul_pow2 by done.
  assert (Hand : Z.land (Z.shiftl a n) x = 0).
  { apply Z.bits_inj'. intros m Hm. rewrite Z.land_spec, Z.bits_0.
    destruct (Z.lt_ge_cases m n) as [Hlt|Hge].
    - by rewrite Z.shiftl_spec_low.
    - rewrite <- (Z.mod_small x (2 ^ n)) by done. rewrite Z.mod_pow2_bits_high by lia. apply andb_false_r. }
  rewrite <- Z.lxor_lor by done. by rewrite Z.add_nocarry_lxor.
Qed.

Lemma land_ones_mod a k n : k = Z.ones n -> 0 <= n -> Z.land a k = a mod 2 ^ n.
Proof. intros -> Hn. by apply Z.land_ones. Qed.

Lemma byte_range a : 0 <= byte_of a < 256.
Proof. unfold byte_of. pose proof (Ascii.N_ascii_bounded a). lia. Qed.

Lemma of_byte_of a : of_byte (byte_of a) = a.
Proof. unfold of_byte, byte_of. by rewrite N2Z.id, Ascii.ascii_N_embedding. Qed.

(** ** Encodings *)

Lemma encode_1 r : 0 <= r < 128 -> encode_rune r = [r].
Proof.
  intros Hr. unfold encode_rune, encode_valid.
  rewrite (proj2 (Z.ltb_ge r 0)), (proj2 (Z.ltb_ge 0x10FFFF r)), (proj2 (Z.ltb_lt r 0x80)) by lia.
  by rewrite (proj2 (Z.leb_gt 0xD800 r)) by lia.
Qed.

Lemma encode_2 r x y : 2 <= x < 32 -> 0 <= y < 64 -> r = x * 64 + y -> encode_rune r = [192 + x; 128 + y].
Proof.
  intros Hx Hy Hrd. unfold encode_rune, encode_valid.
  assert (Hr : 128 <= r < 0x800) by lia.
  rewrite (proj2 (Z.ltb_ge r 0)), (proj2 (Z.ltb_ge 0x10FFFF r)), (proj2 (Z.ltb_ge r 0x80)), (proj2 (Z.ltb_lt r 0x800)),
    (proj2 (Z.leb_gt 0xD800 r)) by lia. cbn [orb andb].
  rewrite (land_ones_mod r 0x3F 6), Z.shiftr_div_pow2 by done. change (2 ^ 6) with 64.
  replace (r / 64) with x by lia. replace (r mod 64) with y by lia.
  change 0xC0 with (Z.shiftl 3 6). change 0x80 with (Z.shiftl 1 7).
  rewrite !lor_shiftl by lia. done.
Qed.

Lemma encode_3 r x y z : 0 <= x < 16 -> 0 <= y < 64 -> 0 <= z < 64 ->
  r = x * 4096 + y * 64 + z -> 0x800 <= r -> (0xD800 <=? r) && (r <=? 0xDFFF) = false ->
  encode_rune r = [224 + x; 128 + y; 128 + z].
Proof.
  intros Hx Hy Hz Hrd Hr Hs. unfold encode_rune, encode_valid. rewrite Hs.
  assert (Hr' : r < 0x10000) by lia.
  rewrite (proj2 (Z.ltb_ge r 0)), (proj2 (Z.ltb_ge 0x10FFFF r)), (proj2 (Z.ltb_ge r 0x80)), (proj2 (Z.ltb_ge r 0x800)),
    (proj2 (Z.ltb_lt r 0x10000)) by lia. cbn [orb].
  rewrite !(land_ones_mod _ 0x3F 6), !Z.shiftr_div_pow2 by done. change (2 ^ 6) with 64. change (2 ^ 12) with 4096.
  replace (r / 4096) with x by lia. replace (r / 64 mod 64) with y by lia.
  replace (r mod 64) with z by lia.
  change 0xE0 with (Z.shiftl 7 5). change 0x80 with (Z.shiftl 1 7).
  rewrite !lor_shiftl by lia. done.
Qed.

Lemma encode_4 r w x y z : 0 <= w < 8 -> 0 <= x < 64 -> 0 <= y < 64 -> 0 <= z < 64 ->
  r = w * 262144 + x * 4096 + y * 64 + z -> 0x10000 <= r <= 0x10FFFF ->
  encode_rune r = [240 + w; 128 + x; 128 + y; 128 + z].
Proof.
  intros Hw Hx Hy Hz Hrd Hr. unfold encode_rune, encode_valid.
  rewrite (proj2 (Z.ltb_ge r 0)), (proj2 (Z.ltb_ge 0x10FFFF r)), (proj2 (Z.ltb_ge r 0x80)), (proj2 (Z.ltb_ge r 0x800)),
    (proj2 (Z.ltb_ge r 0x10000)), (proj2 (Z.leb_gt r 0xDFFF)), andb_false_r by lia. cbn [orb].
  rewrite !(land_ones_mod _ 0x3F 6), !Z.shiftr_div_pow2 by done.
  change (2 ^ 6) with 64. change (2 ^ 12) with 4096. change (2 ^ 18) with 262144.
  replace (r / 262144) with w by lia. replace (r / 4096 mod 64) with x by lia.
  replace (r / 64 mod 64) with y by lia. replace (r mod 64) with z by lia.
  change 0xF0 with (Z.shiftl 15 4). change 0x80 with (Z.shiftl 1 7).
  rewrite !lor_shiftl by lia. done.
Qed.

(** ** Decoding *)

Lemma str_at_Some i s b : str_at i s = Some b -> 0 <= b < 256.
Proof. unfold str_at. destruct (str_drop _ s); [done|]. intros [= <-]. apply byte_range. Qed.

Lemma continues_spec o lo hi x : 0x80 <= lo -> hi <= 0xBF -> continues o lo hi = Some x ->
  exists b, o = Some b /\ lo <= b <= hi /\ x = b - 128 /\ 0 <= x < 64.
Proof.
  intros Hlo Hhi. unfold continues. destruct o as [b|]; [|done].
  destruct ((lo <=? b) && (b <=? hi)) eqn:Hb; [|done]. apply andb_prop in Hb as [H1%Z.leb_le H2%Z.leb_le].
  intros [= <-]. exists b. rewrite (land_ones_mod _ 0x3F 6) by done. change (2 ^ 6) with 64.
  replace (b mod 64) with (b - 128) by lia. split; [done|]. lia.
Qed.

(** The bytes at the front of [s] by their places. *)
Lemma str_front (bs : list Z) s : (forall i b, bs !! i = Some b -> str_at (Z.of_nat i) s = Some b) ->
  exists rest, s = of_bytes bs +:+ rest.
Proof.
  revert s. induction bs as [|b bs IH]; intros s Hall; [by exists s|].
  pose proof (Hall 0%nat b eq_refl) as H0. destruct s as [|a s]; [done|]. cbn in H0. injection H0 as Hb.
  destruct (IH s) as [rest ->].
  { intros i b' Hi. pose proof (Hall (S i) b' Hi) as H. unfold str_at in *. rewrite Nat2Z.id in *. exact H. }
  exists rest. cbn. by rewrite <- Hb, of_byte_of.
Qed.

(** What [AppendRune] writes as it is. *)
Definition scalar (r : Z) : Prop := 0 <= r <= 0x10FFFF /\ ~ (0xD800 <= r <= 0xDFFF).

(** A decoded rune other than a one-byte error stands in front as its encoding. *)
Lemma DecodeRune_bytes s r size : DecodeRune s = (r, size) ->
  s = EmptyString \/ (r = RuneError /\ size = 1) \/
  size = Z.of_nat (length (encode_rune r)) /\ scalar r /\ exists rest, s = of_bytes (encode_rune r) +:+ rest.
Proof.
  destruct s as [|a s0]; [by left|]. intros Hd. right.
  set (s := String.String a s0) in *. unfold DecodeRune in Hd.
  destruct (str_at 0 s) as [b|] eqn:H0; [|done]. pose proof (str_at_Some _ _ _ H0) as Hb.
  destruct (first_byte b) as [[[n lo] hi]|] eqn:Hf; [|by left; injection Hd as <- <-].
  assert (Hcase : n = 1 /\ b < 0x80 \/ n = 2 /\ 0xC2 <= b < 0xE0 /\ lo = 0x80 /\ hi = 0xBF \/
    n = 3 /\ 0xE0 <= b < 0xF0 /\ 0x80 <= lo /\ hi <= 0xBF /\ (b = 0xE0 -> 0xA0 <= lo) /\ (b = 0xED -> hi <= 0x9F) \/
    n = 4 /\ 0xF0 <= b <= 0xF4 /\ 0x80 <= lo /\ hi <= 0xBF /\ (b = 0xF0 -> 0x90 <= lo) /\ (b = 0xF4 -> hi <= 0x8F)).
  { unfold first_byte in Hf. repeat (case_match; simplify_eq; try lia). }
  destruct Hcase as [[-> Hb1]|Hcase].
  { cbn [Z.eqb Pos.eqb] in Hd. injection Hd as <- <-. right. rewrite encode_1 by lia. split; [done|]. split; [unfold scalar; lia|].
    apply str_front. intros [|i] b' Hi; [|done]. injection Hi as <-. done. }
  assert (Hn1 : (n =? 1) = false) by (apply Z.eqb_neq; lia). rewrite Hn1 in Hd.
  destruct (continues (str_at 1 s) lo hi) as [x1|] eqn:H1; [|by left; injection Hd as <- <-].
  apply continues_spec in H1 as (b1 & H1 & Hb1 & -> & Hx1); [|lia|lia].
  destruct (n =? 2) eqn:Hn2.
  { apply Z.eqb_eq in Hn2 as ->. injection Hd as <- <-. right.
    rewrite (land_ones_mod b 0x1F 5), lor_shiftl by (done || lia).
    assert (He : encode_rune (b mod 2 ^ 5 * 2 ^ 6 + (b1 - 128)) = [b; b1]).
    { rewrite (encode_2 _ (b - 192) (b1 - 128)) by lia. repeat f_equal; lia. }
    rewrite He. split; [done|]. split; [unfold scalar; lia|]. apply str_front.
    intros [|[|i]] b' Hi; [injection Hi as <-; done|injection Hi as <-; done|done]. }
  destruct (continues (str_at 2 s) 0x80 0xBF) as [x2|] eqn:H2; [|by left; injection Hd as <- <-].
  apply continues_spec in H2 as (b2 & H2 & Hb2 & -> & Hx2); [|lia|lia].
  destruct (n =? 3) eqn:Hn3.
  { apply Z.eqb_eq in Hn3 as ->. injection Hd as <- <-. right.
    rewrite (land_ones_mod b 0x0F 4), (lor_shiftl (b1 - 128) 6), (lor_shiftl _ 12) by (done || lia).
    assert (Hr : b mod 2 ^ 4 * 2 ^ 12 + ((b1 - 128) * 2 ^ 6 + (b2 - 128)) = (b - 224) * 4096 + (b1 - 128) * 64 + (b2 - 128)) by lia.
    rewrite Hr. assert (He : encode_rune ((b - 224) * 4096 + (b1 - 128) * 64 + (b2 - 128)) = [b; b1; b2]).
    { rewrite (encode_3 _ (b - 224) (b1 - 128) (b2 - 128)); [repeat f_equal; lia|lia|lia|lia|done|lia|].
      apply andb_false_iff. rewrite !Z.leb_gt. lia. }
    rewrite He. split; [done|]. split; [unfold scalar; lia|]. apply str_front.
    intros [|[|[|i]]] b' Hi; [injection Hi as <-; done..|done]. }
  destruct (continues (str_at 3 s) 0x80 0xBF) as [x3|] eqn:H3; [|by left; injection Hd as <- <-].
  apply continues_spec in H3 as (b3 & H3 & Hb3 & -> & Hx3); [|lia|lia].
  injection Hd as <- <-. right. rewrite (land_ones_mod b 0x07 3), (lor_shiftl (b2 - 128) 6), (lor_shiftl (b1 - 128) 12), (lor_shiftl _ 18) by (done || lia).
  assert (Hr : b mod 2 ^ 3 * 2 ^ 18 + ((b1 - 128) * 2 ^ 12 + ((b2 - 128) * 2 ^ 6 + (b3 - 128)))
    = (b - 240) * 262144 + (b1 - 128) * 4096 + (b2 - 128) * 64 + (b3 - 128)) by lia.
  rewrite Hr. assert (He : encode_rune ((b - 240) * 262144 + (b1 - 128) * 4096 + (b2 - 128) * 64 + (b3 - 128)) = [b; b1; b2; b3]).
  { rewrite (encode_4 _ (b - 240) (b1 - 128) (b2 - 128) (b3 - 128)); [repeat f_equal; lia|lia..|]. lia. }
  rewrite He. split; [done|]. split; [unfold scalar; lia|]. apply str_front.
  intros [|[|[|[|i]]]] b' Hi; [injection Hi as <-; done..|done].
Qed.

Lemma first_byte_2 x : 2 <= x < 32 -> first_byte (192 + x) = Some (2, 0x80, 0xBF).
Proof. intros Hx. unfold first_byte. repeat (case_match; try lia). done. Qed.
Lemma first_byte_3 x : 0 <= x < 16 ->
  first_byte (224 + x) = Some (3, if x =? 0 then 0xA0 else 0x80, if x =? 13 then 0x9F else 0xBF).
Proof. intros Hx. unfold first_byte. repeat (case_match; try lia); done. Qed.
Lemma first_byte_4 x : 0 <= x < 5 ->
  first_byte (240 + x) = Some (4, if x =? 0 then 0x90 else 0x80, if x =? 4 then 0x8F else 0xBF).
Proof. intros Hx. unfold first_byte. repeat (case_match; try lia); done. Qed.

Lemma continues_in y lo hi : 0 <= y < 64 -> lo <= 128 + y <= hi -> continues (Some (128 + y)) lo hi = Some y.
Proof.
  intros Hy Hb. unfold continues. rewrite (proj2 (Z.leb_le _ _)), (proj2 (Z.leb_le (128 + y) hi)) by lia. cbn [andb].
  rewrite (land_ones_mod _ 0x3F 6) by done. f_equal. lia.
Qed.

Lemma str_at_bytes bs rest i b : bs !! i = Some b -> 0 <= b < 256 -> str_at (Z.of_nat i) (of_bytes bs +:+ rest) = Some b.
Proof.
  intros Hi Hb. unfold str_at. rewrite Nat2Z.id. revert i Hi. induction bs as [|c bs IH]; intros i Hi; [done|].
  destruct i as [|i]; [|by apply IH]. injection Hi as ->. cbn. f_equal.
  unfold byte_of, of_byte. rewrite Ascii.N_ascii_embedding; lia.
Qed.

(** A rune that was written is read back. *)
Lemma DecodeRune_encode r rest : scalar r ->
  DecodeRune (of_bytes (encode_rune r) +:+ rest) = (r, Z.of_nat (length (encode_rune r))).
Proof.
  intros [Hr Hs]. destruct (Z.lt_ge_cases r 128) as [H1|H1].
  { rewrite encode_1 by lia. set (s := of_bytes _ +:+ rest). unfold DecodeRune.
    rewrite (str_at_bytes [r] rest 0 r : _ -> _ -> str_at 0 s = _) by (done || lia).
    unfold first_byte. by rewrite (proj2 (Z.ltb_lt r 0x80)) by lia. }
  destruct (Z.lt_ge_cases r 0x800) as [H2|H2].
  { rewrite (encode_2 r (r / 64) (r mod 64)) by lia. set (s := of_bytes _ +:+ rest). unfold DecodeRune.
    rewrite (str_at_bytes _ rest 0 (192 + r / 64) : _ -> _ -> str_at 0 s = _) by (done || lia).
    rewrite first_byte_2 by lia. cbn [Z.eqb Pos.eqb].
    rewrite (str_at_bytes _ rest 1 (128 + r mod 64) : _ -> _ -> str_at 1 s = _) by (done || lia).
    rewrite continues_in by lia. rewrite (land_ones_mod _ 0x1F 5), lor_shiftl by (done || lia).
    cbn [length Z.of_nat Pos.of_succ_nat Pos.succ]. f_equal. lia. }
  destruct (Z.lt_ge_cases r 0x10000) as [H3|H3].
  { rewrite (encode_3 r (r / 4096) (r / 64 mod 64) (r mod 64)) by (lia || (apply andb_false_iff; rewrite !Z.leb_gt; lia)).
    set (s := of_bytes _ +:+ rest). unfold DecodeRune.
    rewrite (str_at_bytes _ rest 0 (224 + r / 4096) : _ -> _ -> str_at 0 s = _) by (done || lia).
    rewrite first_byte_3 by lia. cbn [Z.eqb Pos.eqb].
    rewrite (str_at_bytes _ rest 1 (128 + r / 64 mod 64) : _ -> _ -> str_at 1 s = _) by (done || lia).
    rewrite continues_in by (repeat case_match; lia).
    rewrite (str_at_bytes _ rest 2 (128 + r mod 64) : _ -> _ -> str_at 2 s = _) by (done || lia).
    rewrite continues_in by lia.
    rewrite (land_ones_mod _ 0x0F 4), (lor_shiftl (r / 64 mod 64) 6), (lor_shiftl _ 12) by (done || lia).
    cbn [length Z.of_nat Pos.of_succ_nat Pos.succ]. f_equal. lia. }
  rewrite (encode_4 r (r / 262144) (r / 4096 mod 64) (r / 64 mod 64) (r mod 64)) by lia.
  set (s := of_bytes _ +:+ rest). unfold DecodeRune.
  rewrite (str_at_bytes _ rest 0 (240 + r / 262144) : _ -> _ -> str_at 0 s = _) by (done || lia).
  rewrite first_byte_4 by lia. cbn [Z.eqb Pos.eqb].
  rewrite (str_at_bytes _ rest 1 (128 + r / 4096 mod 64) : _ -> _ -> str_at 1 s = _) by (done || lia).
  rewrite continues_in by (repeat case_match; lia).
  rewrite (str_at_bytes _ rest 2 (128 + r / 64 mod 64) : _ -> _ -> str_at 2 s = _) by (done || lia).
  rewrite continues_in by lia.
  rewrite (str_at_bytes _ rest 3 (128 + r mod 64) : _ -> _ -> str_at 3 s = _) by (done || lia).
  rewrite continues_in by lia.
  rewrite (land_ones_mod _ 0x07 3), (lor_shiftl (r / 64 mod 64) 6), (lor_shiftl (r / 4096 mod 64) 12), (lor_shiftl _ 18) by (done || lia).
  cbn [length Z.of_nat Pos.of_succ_nat Pos.succ]. f_equal. lia.
Qed.
