(* ===== verification/GoRegexp.v ===== *)
(** * Regular expressions

    Package regexp as far as the masking rules use it: the patterns as a
    datatype, the leftmost-first matcher with its captures, and
    [FindAllStringSubmatchIndex].  The matcher backtracks with a continuation;
    [matches] is the language of a pattern at a place of the text, and the two
    agree.  Patterns read runes and texts are bytes, as in Go. *)

From Stdlib Require Import Ascii String.
From S2P Require Import Prelude GoStrings Utf8 MaskText.
Local Open Scope list_scope.

(** ** Patterns *)

(** A class is a list of ranges of runes, possibly complemented. *)
Record class := mkClass { c_neg : bool; c_ranges : list (Z * Z) }.

Definition in_ranges (r : Z) (rs : list (Z * Z)) : bool :=
  existsb (fun lohi => (lohi.1 <=? r) && (r <=? lohi.2)) rs.
Definition in_class (r : Z) (c : class) : bool := xorb (c_neg c) (in_ranges r (c_ranges c)).

Inductive regex :=
| REmpty
| RClass (c : class)
| RCat (a b : regex)
| RAlt (a b : regex)
| RStar (greedy : bool) (a : regex)
| RGroup (n : nat) (a : regex)
| RWordB.

(** ** Matching *)

(** The rune at the front of [l] and its size; [None] at the end. *)
Definition rune_at (l : bytes) : option (Z * nat) :=
  match l with
  | [] => None
  | _ :: _ =>
      let '(r, size) := DecodeRune (string_of_list_ascii (take 4 l)) in Some (r, Z.to_nat size)
  end.

(** [syntax.IsWordChar]; a byte of a longer rune is none. *)
Definition is_word_byte (a : ascii) : bool :=
  let b := byte_of a in
  ((48 <=? b) && (b <=? 57)) || ((65 <=? b) && (b <=? 90)) || ((97 <=? b) && (b <=? 122)) || (b =? 95).

Definition word_at (s : bytes) (i : nat) : bool := from_option is_word_byte false (s !! i).
Definition word_before (s : bytes) (i : nat) : bool :=
  match i with O => false | S i => word_at s i end.
Definition word_boundary (s : bytes) (i : nat) : bool := xorb (word_before s i) (word_at s i).

(** The groups that took part, by their numbers. *)
Notation caps := (list (nat * (nat * nat))).

Section matcher.
Context {A : Type}.
Variable s : bytes.
Implicit Types (k : nat -> caps -> option A).

(** The iterations of a star whose body is [body].  One must consume something. *)
Fixpoint star_loop (greedy : bool) (body : nat -> caps -> (nat -> caps -> option A) -> option A) k
    (n i : nat) (c : caps) : option A :=
  match n with
  | O => k i c
  | S n =>
      if greedy then
        match body i c (fun j c => if (i <? j)%nat then star_loop greedy body k n j c else None) with
        | Some x => Some x
        | None => k i c
        end
      else
        match k i c with
        | Some x => Some x
        | None => body i c (fun j c => if (i <? j)%nat then star_loop greedy body k n j c else None)
        end
  end.

(** The first way, in the order of preference, in which [r] matches at [i] and
    the continuation accepts.  The length of the text bounds the iterations. *)
Fixpoint rmatch (r : regex) (i : nat) (c : caps) k {struct r} : option A :=
  match r with
  | REmpty => k i c
  | RClass cl =>
      match rune_at (drop i s) with
      | Some (rune, size) => if in_class rune cl then k (i + size)%nat c else None
      | None => None
      end
  | RCat a b => rmatch a i c (fun j c => rmatch b j c k)
  | RAlt a b => match rmatch a i c k with Some x => Some x | None => rmatch b i c k end
  | RStar greedy a => star_loop greedy (rmatch a) k (length s - i) i c
  | RGroup n a => rmatch a i c (fun j c => k j ((n, (i, j)) :: c))
  | RWordB => if word_boundary s i then k i c else None
  end.
End matcher.

(** The preferred match at [i]: its end and its groups. *)
Definition match_here (s : bytes) (r : regex) (i : nat) : option (nat * caps) :=
  rmatch s r i [] (fun j c => Some (j, c)).

(** The leftmost match from [i] on.  The search goes on rune by rune, so the
    length of the text bounds the steps. *)
Fixpoint find_from (s : bytes) (r : regex) (fuel i : nat) : option (nat * nat * caps) :=
  match match_here s r i with
  | Some (j, c) => Some (i, j, c)
  | None =>
      match fuel, rune_at (drop i s) with
      | S fuel, Some (_, size) => find_from s r fuel (i + size)%nat
      | _, _ => None
      end
  end.

(** A match as the source sees it: its bounds and those of its groups. *)
Record loc := mkLoc { loc_start : nat; loc_end : nat; loc_caps : caps }.

(** The bounds of group [n], the whole match being group 0; [None] for a group
    that took no part. *)
Definition group_bounds (n : nat) (l : loc) : option (nat * nat) :=
  match n with
  | O => Some (loc_start l, loc_end l)
  | S _ => (fun ig => ig.2.2) <$> list_find (fun g => g.1 = n) (loc_caps l)
  end.

(** [FindAllStringSubmatchIndex(s, -1)]: an empty match right behind the one
    before is dropped.  [prev] is the end of the match before. *)
Fixpoint find_all (s : bytes) (r : regex) (fuel pos : nat) (prev : option nat) : list loc :=
  match fuel with
  | O => []
  | S fuel =>
      match find_from s r (length s) pos with
      | None => []
      | Some (i, j, c) =>
          if (j =? pos)%nat then
            let rest :=
              match rune_at (drop pos s) with
              | Some (_, size) => find_all s r fuel (pos + size)%nat (Some j)
              | None => []
              end in
            if bool_decide (prev = Some i) then rest else mkLoc i j c :: rest
          else mkLoc i j c :: find_all s r fuel j (Some j)
      end
  end.

(** Every turn moves [pos] on. *)
Definition FindAllSubmatchIndex (r : regex) (s : bytes) : list loc := find_all s r (S (length s)) 0 None.
Definition MatchString (r : regex) (s : bytes) : bool := is_some (find_from s r (length s) 0).

(** ** Notation of patterns *)

Definition chr (a : ascii) : Z := byte_of a.
Definition rng (a b : ascii) : Z * Z := (byte_of a, byte_of b).
Definition one (a : ascii) : Z * Z := rng a a.
Definition ones (s : string) : list (Z * Z) := one <$> lit s.
Definition cls (rs : list (Z * Z)) : regex := RClass (mkClass false rs).
Definition ncls (rs : list (Z * Z)) : regex := RClass (mkClass true rs).
Definition any_rune : regex := ncls [].

(** [syntax.Parse] under [(?i)] adds to a range what folds into it. *)
Definition fold_range (lohi : Z * Z) : list (Z * Z) :=
  let '(lo, hi) := lohi in
  let up := (Z.max lo 97 - 32, Z.min hi 122 - 32) in
  let low := (Z.max lo 65 + 32, Z.min hi 90 + 32) in
  let has a := ((lo <=? a) && (a <=? hi)) || ((lo <=? a - 32) && (a - 32 <=? hi)) in
  [(lo, hi); up; low]
    ++ (if has 107 then [(0x212A, 0x212A)] else []) ++ (if has 115 then [(0x17F, 0x17F)] else []).

Definition cat (rs : list regex) : regex := foldr RCat REmpty rs.
Fixpoint alt (rs : list regex) : regex :=
  match rs with [] => cls [] | [r] => r | r :: rs => RAlt r (alt rs) end.
Definition opt (r : regex) : regex := RAlt r REmpty.
Definition star (r : regex) : regex := RStar true r.
Fixpoint times (n : nat) (r : regex) : regex :=
  match n with O => REmpty | S n => RCat r (times n r) end.
Fixpoint upto (n : nat) (r : regex) : regex :=
  match n with O => REmpty | S n => opt (RCat r (upto n r)) end.
Definition at_least (n : nat) (r : regex) : regex := RCat (times n r) (star r).
Definition plus (r : regex) : regex := at_least 1 r.
Definition between (n m : nat) (r : regex) : regex := RCat (times n r) (upto (m - n) r).

(** A literal, byte by byte below 0x80 and rune by rune above. *)
Definition runes_re (rs : list Z) : regex := cat ((fun r => cls [(r, r)]) <$> rs).
Definition word (s : string) : regex := runes_re (to_runes s).
Definition iword (s : string) : regex := cat ((fun r => cls (fold_range (r, r))) <$> to_runes s).

(** ** Regular expressions: the matcher against the language

    What the backtracking matcher of [GoRegexp] finds is a match of the pattern's
    language, and it finds one wherever there is one; the matches of a text are in
    its bounds, in order and disjoint. *)

Local Open Scope list_scope.

(** ** The language *)

(** [r] matches [s] from [i] to [j]. *)
Inductive matches (s : bytes) : regex -> nat -> nat -> Prop :=
| ma_empty i : matches s REmpty i i
| ma_class c i rune size :
    rune_at (drop i s) = Some (rune, size) -> in_class rune c = true ->
    matches s (RClass c) i (i + size)
| ma_cat a b i j k : matches s a i j -> matches s b j k -> matches s (RCat a b) i k
| ma_alt_l a b i j : matches s a i j -> matches s (RAlt a b) i j
| ma_alt_r a b i j : matches s b i j -> matches s (RAlt a b) i j
| ma_star_nil g a i : matches s (RStar g a) i i
| ma_star_cons g a i j k :
    (i < j)%nat -> matches s a i j -> matches s (RStar g a) j k -> matches s (RStar g a) i k
| ma_group n a i j : matches s a i j -> matches s (RGroup n a) i j
| ma_word i : word_boundary s i = true -> matches s RWordB i i.

Lemma DecodeRune_size s : s ≠ EmptyString -> 1 <= (DecodeRune s).2 <= slen s.
Proof.
  intros Hs. destruct s as [|a s]; [done|]. unfold DecodeRune.
  change (str_at 0 (String.String a s)) with (Some (byte_of a)). cbv iota beta.
  assert (Hlen : forall i, 0 <= i -> str_at i (String.String a s) <> None -> i + 1 <= slen (String.String a s)).
  { intros i Hi. unfold str_at, slen. generalize (String.String a s) as t. intros t.
    assert (H : forall n t, match str_drop n t with String.String b _ => Some (byte_of b) | EmptyString => None end <> None
      -> (n < String.length t)%nat).
    { clear. induction n as [|n IH]; intros [|b t]; cbn; try done; [lia|]. intros H%IH. lia. }
    intros Hn%H. lia. }
  pose proof (Hlen 1) as H1. pose proof (Hlen 2) as H2. pose proof (Hlen 3) as H3. pose proof (Hlen 0) as H0.
  assert (Hs1 : 1 <= slen (String.String a s)) by (unfold slen; cbn [String.length]; lia).
  clear Hlen H0 Hs.
  destruct (first_byte (byte_of a)) as [[[size lo] hi]|] eqn:Hf; [|cbn [snd]; lia].
  assert (Hsize : size = 1 \/ size = 2 \/ size = 3 \/ size = 4).
  { unfold first_byte in Hf. repeat (case_match; simplify_eq; try lia). }
  assert (Hc : forall i lo hi b, 0 <= i -> (0 <= i -> str_at i (String.String a s) <> None -> i + 1 <= slen (String.String a s)) ->
    continues (str_at i (String.String a s)) lo hi = Some b -> i + 1 <= slen (String.String a s)).
  { intros i lo' hi' b' Hi H. unfold continues. destruct (str_at i _); [|done]. intros _. by apply H. }
  repeat match goal with
  | |- context [if ?b then _ else _] => destruct b; cbn [snd]; [lia|]
  | |- context [continues ?o ?l ?h] => let E := fresh "E" in
      destruct (continues o l h) eqn:E; cbn [snd]; [apply Hc in E; [|lia|assumption]|lia]
  end. cbn [snd]. lia.
Qed.

Lemma length_soa l : String.length (string_of_list_ascii l) = length l.
Proof. induction l as [|a l IH]; cbn; congruence. Qed.

Lemma rune_at_size l rune size : rune_at l = Some (rune, size) -> (1 <= size <= length l)%nat.
Proof.
  unfold rune_at. destruct l as [|a l]; [done|].
  pose proof (DecodeRune_size (string_of_list_ascii (take 4 (a :: l))) ltac:(done)) as H.
  destruct (DecodeRune _) as [r n]. intros [= <- <-]. cbn [snd] in H. unfold slen in H.
  rewrite length_soa, length_firstn in H. lia.
Qed.

Lemma rune_at_some l : l ≠ [] -> exists rune size, rune_at l = Some (rune, size).
Proof. intros Hl. destruct l as [|a l]; [done|]. unfold rune_at. destruct (DecodeRune _). eauto. Qed.

Lemma matches_bounds s r i j : matches s r i j -> (i <= length s)%nat -> (i <= j <= length s)%nat.
Proof.
  induction 1 as [| c i rune size Hr _ | | | | | | |]; intros Hi; try lia.
  - apply rune_at_size in Hr. rewrite length_drop in Hr. lia.
Qed.

(** The captures made between [i] and [j]. *)
Definition caps_in (i j : nat) (c : caps) : Prop := Forall (fun g => (i <= g.2.1 /\ g.2.1 <= g.2.2 /\ g.2.2 <= j)%nat) c.

Lemma caps_in_mono i j i' j' c : (i' <= i)%nat -> (j <= j')%nat -> caps_in i j c -> caps_in i' j' c.
Proof. intros Hi Hj Hc. apply (Forall_impl _ _ _ Hc). intros [? [? ?]]; cbn. lia. Qed.

(** ** Soundness and completeness *)

Section facts.
Context {A : Type}.
Variable s : bytes.
Implicit Types (k : nat -> caps -> option A).

(** What [rmatch_sound] says of [r], to be used for the body of a star. *)
Definition sound (r : regex) : Prop := forall i c k x,
  (i <= length s)%nat -> rmatch s r i c k = Some x ->
  exists j new, matches s r i j /\ caps_in i j new /\ k j (new ++ c) = Some x.

Lemma sound_stop r i c k x : matches s r i i -> k i c = Some x ->
  exists j new, matches s r i j /\ caps_in i j new /\ k j (new ++ c) = Some x.
Proof. intros Hr Hk. exists i, []. split; [done|]. split; [constructor|done]. Qed.

Lemma sound_then r i j c new k x : (i <= j <= length s)%nat -> caps_in i j new ->
  (exists j2 new2, matches s r j j2 /\ caps_in j j2 new2 /\ k j2 (new2 ++ new ++ c) = Some x) ->
  exists j2 new2, matches s r j j2 /\ caps_in i j2 new2 /\ k j2 (new2 ++ c) = Some x.
Proof.
  intros Hij Hn (j2 & new2 & Hm & Hn2 & Hk). pose proof (matches_bounds _ _ _ _ Hm ltac:(lia)).
  exists j2, (new2 ++ new). split; [done|]. rewrite <- app_assoc. split; [|done].
  apply Forall_app. split; [apply (caps_in_mono j j2)|apply (caps_in_mono i j)]; lia || done.
Qed.

Lemma star_sound g a : sound a -> forall fuel i c k x,
  (i <= length s)%nat -> star_loop g (rmatch s a) k fuel i c = Some x ->
  exists j new, matches s (RStar g a) i j /\ caps_in i j new /\ k j (new ++ c) = Some x.
Proof.
  intros IHa. induction fuel as [|fuel IH]; intros i c k x Hi Hm; cbn [star_loop] in Hm.
  { apply sound_stop; [constructor|done]. }
  set (k' := fun j c => _) in Hm.
  assert (Hgo : rmatch s a i c k' = Some x ->
    exists j new, matches s (RStar g a) i j /\ caps_in i j new /\ k j (new ++ c) = Some x).
  { intros Hr. destruct (IHa _ _ _ _ Hi Hr) as (j & new & Ha & Hn & Hb). unfold k' in Hb.
    pose proof (matches_bounds _ _ _ _ Ha Hi). destruct (Nat.ltb_spec i j) as [Hij|]; [|done].
    destruct (sound_then _ i j c new k x ltac:(lia) Hn (IH j _ _ _ ltac:(lia) Hb)) as (j2 & new2 & ? & ? & ?).
    exists j2, new2. split; [by apply (ma_star_cons s g a i j)|done]. }
  destruct g.
  - destruct (rmatch s a i c k') eqn:Hr; [apply Hgo; congruence|]. apply sound_stop; [constructor|done].
  - destruct (k i c) eqn:Hk; [|by apply Hgo]. apply sound_stop; [constructor|congruence].
Qed.

Lemma rmatch_sound r : sound r.
Proof.
  induction r as [|cl|a IHa b IHb|a IHa b IHb|g a IHa|n a IHa|]; intros i c k x Hi Hm; cbn [rmatch] in Hm.
  - apply sound_stop; [constructor|done].
  - destruct (rune_at (drop i s)) as [[rune size]|] eqn:Hr; [|done]. destruct (in_class rune cl) eqn:Hc; [|done].
    exists (i + size)%nat, []. split; [by econstructor|]. split; [constructor|done].
  - destruct (IHa _ _ _ _ Hi Hm) as (j & new & Ha & Hn & Hb). pose proof (matches_bounds _ _ _ _ Ha Hi).
    destruct (sound_then b i j c new k x ltac:(lia) Hn (IHb j _ _ _ ltac:(lia) Hb)) as (j2 & new2 & ? & ? & ?).
    exists j2, new2. split; [by apply (ma_cat s a b i j)|done].
  - destruct (rmatch s a i c k) eqn:Ha.
    + simplify_eq. destruct (IHa _ _ _ _ Hi Ha) as (j & new & ? & ? & ?). exists j, new. split; [by constructor|done].
    + destruct (IHb _ _ _ _ Hi Hm) as (j & new & ? & ? & ?). exists j, new. split; [by apply ma_alt_r|done].
  - by apply (star_sound g a IHa) in Hm.
  - destruct (IHa _ _ _ _ Hi Hm) as (j & new & Ha & Hn & Hk). pose proof (matches_bounds _ _ _ _ Ha Hi).
    exists j, ((n, (i, j)) :: new). split; [by constructor|]. split; [|done]. constructor; [cbn; lia|done].
  - destruct (word_boundary s i) eqn:Hw; [|done]. apply sound_stop; [by constructor|done].
Qed.

(** A match of the language that the continuation accepts is not missed. *)
Definition complete (r : regex) : Prop := forall i j c k,
  matches s r i j -> (i <= length s)%nat -> (forall c, k j c <> None) -> rmatch s r i c k <> None.

Lemma star_complete g a : complete a -> forall i j, matches s (RStar g a) i j -> (i <= length s)%nat ->
  forall fuel c k, (length s - i <= fuel)%nat -> (forall c, k j c <> None) ->
  star_loop g (rmatch s a) k fuel i c <> None.
Proof.
  intros IHa i j Hm. remember (RStar g a) as r eqn:Hr. revert Hr.
  induction Hm as [| | | | |g0 a0 i|g0 a0 i j l Hij Ha _ Hs IH| |]; intros Hr; try discriminate Hr;
    injection Hr as -> ->; intros Hi fuel c k Hf Hk.
  - destruct fuel; cbn [star_loop]; [apply Hk|]. destruct g; [case_match; [done|apply Hk]|].
    specialize (Hk c). by destruct (k i c).
  - pose proof (matches_bounds _ _ _ _ Ha Hi) as Hj. destruct fuel as [|fuel]; [lia|]. cbn [star_loop].
    assert (Hgo : rmatch s a i c (fun j c0 => if (i <? j)%nat then star_loop g (rmatch s a) k fuel j c0 else None) <> None).
    { apply (IHa i j); [done|done|]. intros c'. destruct (Nat.ltb_spec i j); [|lia].
      apply IH; [done|lia|lia|done]. }
    destruct g; [by destruct (rmatch s a i c _)|]. by destruct (k i c).
Qed.

Lemma rmatch_complete r : complete r.
Proof.
  induction r as [|cl|a IHa b IHb|a IHa b IHb|g a IHa|n a IHa|]; intros i j c k Hm Hi Hk; cbn [rmatch].
  - inversion Hm; subst. apply Hk.
  - inversion Hm as [|? ? rune size Hr Hc| | | | | | |]; subst. rewrite Hr, Hc. apply Hk.
  - inversion Hm as [| |? ? ? l ? Ha Hb| | | | | |]; subst. pose proof (matches_bounds _ _ _ _ Ha Hi).
    apply (IHa i l); [done|done|]. intros c'. apply (IHb l j); [done|lia|done].
  - inversion Hm as [| | |? ? ? ? Ha|? ? ? ? Hb| | | |]; subst.
    + specialize (IHa i j c k Ha Hi Hk). by destruct (rmatch s a i c k).
    + specialize (IHb i j c k Hb Hi Hk). by destruct (rmatch s a i c k).
  - by apply (star_complete g a IHa i j).
  - inversion Hm; subst. by apply (IHa i j).
  - inversion Hm as [| | | | | | | |? Hw]; subst. rewrite Hw. apply Hk.
Qed.
End facts.

Lemma match_here_sound s r i j c :
  (i <= length s)%nat -> match_here s r i = Some (j, c) -> matches s r i j /\ caps_in i j c.
Proof.
  intros Hi Hm. destruct (rmatch_sound s r i [] _ _ Hi Hm) as (j' & new & Ha & Hn & Hk).
  rewrite app_nil_r in Hk. by simplify_eq.
Qed.

Lemma match_here_none s r i j : (i <= length s)%nat -> match_here s r i = None -> ~ matches s r i j.
Proof. intros Hi Hn Hm. by apply (rmatch_complete s r i j [] (fun j c => Some (j, c)) Hm Hi). Qed.

(** ** Searching *)

(** The places at which the search tries the pattern. *)
Inductive rune_start (s : bytes) : nat -> nat -> Prop :=
| rs_here i : rune_start s i i
| rs_next i j rune size : rune_at (drop i s) = Some (rune, size) -> rune_start s (i + size) j -> rune_start s i j.

Lemma rune_start_le s i j : rune_start s i j -> (i <= length s)%nat -> (i <= j <= length s)%nat.
Proof.
  induction 1 as [i|i j rune size Hr _ IH]; intros Hi; [lia|].
  apply rune_at_size in Hr. rewrite length_drop in Hr. lia.
Qed.

(** The search finds the first place with a match, and misses none. *)
Lemma find_from_spec s r fuel i :
  (i <= length s)%nat -> (length s - i <= fuel)%nat ->
  match find_from s r fuel i with
  | Some (a, b, c) =>
      (i <= a <= b)%nat /\ (b <= length s)%nat /\ rune_start s i a /\ match_here s r a = Some (b, c) /\
      (forall a' b', rune_start s i a' -> (a' < a)%nat -> ~ matches s r a' b')
  | None => forall a' b', rune_start s i a' -> ~ matches s r a' b'
  end.
Proof.
  revert i. induction fuel as [|fuel IH]; intros i Hi Hf; cbn [find_from];
    destruct (match_here s r i) as [[b c]|] eqn:Hm.
  1, 3: destruct (match_here_sound _ _ _ _ _ Hi Hm) as [Ha _]; pose proof (matches_bounds _ _ _ _ Ha Hi);
    repeat split; try lia; try done; [constructor|]; intros a' b' Hr%rune_start_le Hlt; lia.
  - intros a' b' Hr. pose proof (rune_start_le _ _ _ Hr Hi). replace a' with i by lia. by apply match_here_none.
  - destruct (rune_at (drop i s)) as [[rune size]|] eqn:Hr.
    + pose proof (rune_at_size _ _ _ Hr) as Hs. rewrite length_drop in Hs. specialize (IH (i + size)%nat ltac:(lia) ltac:(lia)).
      assert (Hstep : forall a', rune_start s i a' -> a' = i \/ rune_start s (i + size) a').
      { intros a' Ha. inversion Ha; subst; [by left|]. right. by simplify_eq. }
      destruct (find_from s r fuel (i + size)) as [[[a b] c]|].
      * destruct IH as (Hab & Hb & Hra & Hma & Hfirst). repeat split; try lia; try done; [by econstructor|].
        intros a' b' [->|Ha]%Hstep Hlt; [by apply match_here_none|by apply Hfirst].
      * intros a' b' [->|Ha]%Hstep; [by apply match_here_none|by apply IH].
    + intros a' b' Ha. inversion Ha; subst; [by apply match_here_none|congruence].
Qed.

(** The matches of [find_all] lie behind [pos], in order, disjoint, in the text,
    and each is one of the pattern. *)
Fixpoint locs_ok (s : bytes) (r : regex) (pos : nat) (ls : list loc) : Prop :=
  match ls with
  | [] => True
  | l :: ls =>
      (pos <= loc_start l <= loc_end l)%nat /\ (loc_end l <= length s)%nat /\
      match_here s r (loc_start l) = Some (loc_end l, loc_caps l) /\ locs_ok s r (loc_end l) ls
  end.

Lemma locs_ok_mono s r pos pos' ls : (pos' <= pos)%nat -> locs_ok s r pos ls -> locs_ok s r pos' ls.
Proof. intros Hp. destruct ls as [|l ls]; cbn; [done|]. intros (? & ? & ?). split; [lia|done]. Qed.

Lemma find_all_ok s r fuel pos prev :
  (pos <= length s)%nat -> locs_ok s r pos (find_all s r fuel pos prev).
Proof.
  revert pos prev. induction fuel as [|fuel IH]; intros pos prev Hp; cbn [find_all]; [done|].
  pose proof (find_from_spec s r (length s) pos Hp ltac:(lia)) as Hf.
  destruct (find_from s r (length s) pos) as [[[a b] c]|]; [|done].
  destruct Hf as (Hab & Hb & _ & Hm & _). destruct (Nat.eqb_spec b pos) as [->|Hne].
  - assert (Hrest : locs_ok s r pos match rune_at (drop pos s) with
      | Some (_, size) => find_all s r fuel (pos + size)%nat (Some pos) | None => [] end).
    { destruct (rune_at (drop pos s)) as [[rune size]|] eqn:Hr; [|done].
      apply rune_at_size in Hr. rewrite length_drop in Hr.
      apply (locs_ok_mono _ _ (pos + size)); [lia|]. apply IH. lia. }
    case_bool_decide; [done|]. cbn. by repeat split; try lia.
  - cbn. repeat split; try lia; [done|]. apply IH. lia.
Qed.

Lemma FindAll_ok r s : locs_ok s r 0 (FindAllSubmatchIndex r s).
Proof. apply find_all_ok. lia. Qed.

Lemma locs_ok_elem s r pos ls l : locs_ok s r pos ls -> l ∈ ls ->
  (pos <= loc_start l <= loc_end l)%nat /\ (loc_end l <= length s)%nat /\
  match_here s r (loc_start l) = Some (loc_end l, loc_caps l).
Proof.
  revert pos. induction ls as [|l' ls IH]; intros pos; [by intros _ ?%elem_of_nil|].
  cbn. intros (Hs & He & Hm & Hrest) [->|Hin]%elem_of_cons; [done|].
  destruct (IH _ Hrest Hin) as (? & ? & ?). split; [lia|done].
Qed.

(** Every match found is one of the language, with its groups inside. *)
Lemma FindAll_sound r s l : l ∈ FindAllSubmatchIndex r s ->
  (loc_start l <= loc_end l <= length s)%nat /\ matches s r (loc_start l) (loc_end l) /\
  caps_in (loc_start l) (loc_end l) (loc_caps l).
Proof.
  intros Hl. destruct (locs_ok_elem _ _ _ _ _ (FindAll_ok r s) Hl) as (? & ? & Hm).
  split; [lia|]. apply match_here_sound in Hm; [done|lia].
Qed.

Lemma group_bounds_in n l i j :
  (loc_start l <= loc_end l)%nat -> caps_in (loc_start l) (loc_end l) (loc_caps l) -> group_bounds n l = Some (i, j) ->
  (loc_start l <= i <= j)%nat /\ (j <= loc_end l)%nat.
Proof.
  intros Hl Hc Hg. destruct n as [|n]; cbn in Hg; [simplify_eq; lia|].
  destruct (list_find _ (loc_caps l)) as [[m [n' [a b]]]|] eqn:Hf; [|done]. cbn in Hg. simplify_eq.
  apply list_find_Some in Hf as (Hin & _). apply list_elem_of_lookup_2 in Hin.
  unfold caps_in in Hc. rewrite Forall_forall in Hc. apply Hc in Hin. cbn in Hin. lia.
Qed.
