(* ===== verification/GoJson.v ===== *)
(** * JSON

    Package encoding/json as far as the masking engine uses it: [json.Valid], the
    decoded value with numbers kept as they are written, the token stream of
    [json.Decoder], and [json.Marshal] of a string. *)

From Stdlib Require Import Ascii String.
From S2P Require Import Prelude GoStrings Utf8 MaskText GoRegexp.
Local Open Scope list_scope.

Unset Elimination Schemes.
Inductive json :=
| JNull
| JBool (b : bool)
| JNum (literal : bytes)
| JStr (s : bytes)
| JArr (l : list json)
| JObj (l : list (bytes * json)).
Set Elimination Schemes.

Definition json_ind (P : json -> Prop) (Hnull : P JNull) (Hbool : forall b, P (JBool b))
    (Hnum : forall l, P (JNum l)) (Hstr : forall s, P (JStr s))
    (Harr : forall l, Forall P l -> P (JArr l)) (Hobj : forall l, Forall (fun kv => P kv.2) l -> P (JObj l)) :
  forall v, P v :=
  fix rec v :=
    match v with
    | JNull => Hnull
    | JBool b => Hbool b
    | JNum l => Hnum l
    | JStr s => Hstr s
    | JArr l => Harr l ((fix go l : Forall P l :=
        match l with [] => Forall_nil_2 P | v :: l => Forall_cons_2 P v l (rec v) (go l) end) l)
    | JObj l => Hobj l ((fix go l : Forall (fun kv => P kv.2) l :=
        match l with [] => Forall_nil_2 _ | kv :: l => Forall_cons_2 _ kv l (rec kv.2) (go l) end) l)
    end.

(** ** Strings *)

Definition enc (r : Z) : bytes := of_byte <$> encode_rune r.
Definition dq : ascii := of_byte 34.
Definition bs : ascii := of_byte 92.

Definition hex_value (a : ascii) : option Z :=
  let b := byte_of a in
  if (48 <=? b) && (b <=? 57) then Some (b - 48)
  else if (97 <=? b) && (b <=? 102) then Some (b - 87)
  else if (65 <=? b) && (b <=? 70) then Some (b - 55)
  else None.

(** Four hex digits in front. *)
Definition hex4 (l : bytes) : option (Z * bytes) :=
  match l with
  | a :: b :: c :: d :: l =>
      va ← hex_value a; vb ← hex_value b; vc ← hex_value c; vd ← hex_value d;
      Some (va * 4096 + vb * 256 + vc * 16 + vd, l)
  | _ => None
  end.

Definition is_surrogate (r : Z) : bool := (0xD800 <=? r) && (r <? 0xE000).
(** [utf16.DecodeRune]; [None] for [unicode.ReplacementChar]. *)
Definition utf16_pair (r1 r2 : Z) : option Z :=
  if (0xD800 <=? r1) && (r1 <? 0xDC00) && (0xDC00 <=? r2) && (r2 <? 0xE000)
  then Some ((r1 - 0xD800) * 1024 + (r2 - 0xDC00) + 0x10000) else None.

(** What follows [\u]: the rune written, and the rest. *)
Definition unicode_escape (l : bytes) : option (Z * bytes) :=
  '(r, l) ← hex4 l;
  if is_surrogate r then
    match l with
    | a :: b :: l' =>
        if Ascii.eqb a bs && Ascii.eqb b "u" then
          match hex4 l' with
          | Some (r2, l'') =>
              match utf16_pair r r2 with
              | Some r => Some (r, l'')
              | None => Some (RuneError, l)
              end
          | None => Some (RuneError, l)
          end
        else Some (RuneError, l)
    | _ => Some (RuneError, l)
    end
  else Some (r, l).

Definition simple_escape (a : ascii) : option ascii :=
  let b := byte_of a in
  if (b =? 34) || (b =? 92) || (b =? 47) then Some a
  else if b =? 98 then Some (of_byte 8) else if b =? 102 then Some (of_byte 12)
  else if b =? 110 then Some (of_byte 10) else if b =? 114 then Some (of_byte 13)
  else if b =? 116 then Some (of_byte 9) else None.

(** A string behind its opening quote: the decoded value and what follows the
    closing one. *)
Fixpoint string_body (fuel : nat) (l : bytes) : option (bytes * bytes) :=
  match fuel, l with
  | S fuel, a :: l' =>
      let b := byte_of a in
      if b =? 34 then Some ([], l')
      else if b <? 32 then None
      else if b =? 92 then
        match l' with
        | e :: l'' =>
            if byte_of e =? 117 then
              '(r, l3) ← unicode_escape l''; '(s, rest) ← string_body fuel l3; Some (enc r ++ s, rest)
            else
              c ← simple_escape e; '(s, rest) ← string_body fuel l''; Some (c :: s, rest)
        | [] => None
        end
      else
        '(r, size) ← rune_at l;
        '(s, rest) ← string_body fuel (drop size l); Some (enc r ++ s, rest)
  | _, _ => None
  end.

(** ** Numbers *)

Definition take_digits (l : bytes) : bytes * bytes := span is_digit (length l) l.

Definition number_frac (l : bytes) : option (bytes * bytes) :=
  match l with
  | a :: l' =>
      if Ascii.eqb a "." then
        let '(ds, rest) := take_digits l' in if bool_decide (ds = []) then None else Some (a :: ds, rest)
      else Some ([], l)
  | [] => Some ([], [])
  end.

Definition number_sign (l : bytes) : bytes * bytes :=
  match l with
  | a :: l' => if Ascii.eqb a "+" || Ascii.eqb a "-" then ([a], l') else ([], l)
  | [] => ([], [])
  end.

Definition number_exp (l : bytes) : option (bytes * bytes) :=
  match l with
  | a :: l' =>
      if Ascii.eqb a "e" || Ascii.eqb a "E" then
        let '(sign, l2) := number_sign l' in
        let '(ds, rest) := take_digits l2 in
        if bool_decide (ds = []) then None else Some (a :: sign ++ ds, rest)
      else Some ([], l)
  | [] => Some ([], [])
  end.

Definition number_int (l : bytes) : option (bytes * bytes) :=
  match l with
  | a :: l' =>
      if Ascii.eqb a "0" then Some ([a], l')
      else let '(ds, rest) := take_digits l in if bool_decide (ds = []) then None else Some (ds, rest)
  | [] => None
  end.

(** The literal of a number in front, without its sign. *)
Definition number_body (l : bytes) : option (bytes * bytes) :=
  '(i, l) ← number_int l; '(f, l) ← number_frac l; '(e, l) ← number_exp l; Some (i ++ f ++ e, l).
Definition number (l : bytes) : option (bytes * bytes) :=
  match l with
  | a :: l' => if Ascii.eqb a "-" then '(n, rest) ← number_body l'; Some (a :: n, rest) else number_body l
  | [] => None
  end.

(** ** Values *)

Definition is_ws (a : ascii) : bool := existsb (Z.eqb (byte_of a)) [9; 10; 13; 32].
Fixpoint skip_ws (l : bytes) : bytes :=
  match l with a :: l' => if is_ws a then skip_ws l' else l | [] => [] end.

Definition maxNestingDepth : nat := 10000.

Section parser.
(** The parser of a value, one level of fuel below. *)
Variable value : nat -> bytes -> option (json * bytes).

(** The values or members behind the opening bracket, separated by commas and closed. *)
Fixpoint array_body (fuel depth : nat) (l : bytes) : option (list json * bytes) :=
  match fuel with
  | O => None
  | S fuel =>
      '(v, l) ← value depth (skip_ws l);
      match skip_ws l with
      | a :: l =>
          if Ascii.eqb a "," then '(vs, rest) ← array_body fuel depth l; Some (v :: vs, rest)
          else if Ascii.eqb a "]" then Some ([v], l) else None
      | [] => None
      end
  end.

Fixpoint object_body (fuel depth : nat) (l : bytes) : option (list (bytes * json) * bytes) :=
  match fuel with
  | O => None
  | S fuel =>
      match skip_ws l with
      | q :: l =>
          if negb (Ascii.eqb q dq) then None else
          '(k, l) ← string_body (length l) l;
          match skip_ws l with
          | c :: l =>
              if negb (Ascii.eqb c ":") then None else
              '(v, l) ← value depth (skip_ws l);
              match skip_ws l with
              | a :: l =>
                  if Ascii.eqb a "," then '(kvs, rest) ← object_body fuel depth l; Some ((k, v) :: kvs, rest)
                  else if Ascii.eqb a "}" then Some ([(k, v)], l) else None
              | [] => None
              end
          | [] => None
          end
      | [] => None
      end
  end.
End parser.

(** A value in front of [l], with [depth] levels of nesting left. *)
Fixpoint value (fuel depth : nat) (l : bytes) : option (json * bytes) :=
  match fuel, l with
  | S fuel, a :: l' =>
      if Ascii.eqb a "{" then
        match depth with
        | O => None
        | S depth =>
            match skip_ws l' with
            | c :: rest =>
                if Ascii.eqb c "}" then Some (JObj [], rest)
                else '(kvs, rest) ← object_body (value fuel) (length l) depth l'; Some (JObj kvs, rest)
            | [] => None
            end
        end
      else if Ascii.eqb a "[" then
        match depth with
        | O => None
        | S depth =>
            match skip_ws l' with
            | c :: rest =>
                if Ascii.eqb c "]" then Some (JArr [], rest)
                else '(vs, rest) ← array_body (value fuel) (length l) depth l'; Some (JArr vs, rest)
            | [] => None
            end
        end
      else if Ascii.eqb a dq then '(s, rest) ← string_body (length l') l'; Some (JStr s, rest)
      else
        match strip (lit "true") l, strip (lit "false") l, strip (lit "null") l with
        | Some rest, _, _ => Some (JBool true, rest)
        | _, Some rest, _ => Some (JBool false, rest)
        | _, _, Some rest => Some (JNull, rest)
        | _, _, _ => '(n, rest) ← number l; Some (JNum n, rest)
        end
  | _, _ => None
  end.

(** The value of a whole text; every level of nesting takes a byte. *)
Definition json_parse (body : bytes) : option json :=
  '(v, rest) ← value (length body) maxNestingDepth (skip_ws body);
  if bool_decide (skip_ws rest = []) then Some v else None.
Definition json_Valid (body : bytes) : bool := is_some (json_parse body).

(** ** Marshalling a string *)

Definition hex_digit (n : Z) : ascii := if n <? 10 then of_byte (48 + n) else of_byte (87 + n).

(** A byte below 0x80; [<], [>] and [&] are escaped for HTML. *)
Definition marshal_byte (a : ascii) : bytes :=
  let b := byte_of a in
  if (b =? 34) || (b =? 92) then [bs; a]
  else if b =? 8 then lit "\b" else if b =? 12 then lit "\f" else if b =? 10 then lit "\n"
  else if b =? 13 then lit "\r" else if b =? 9 then lit "\t"
  else if (b <? 32) || (b =? 60) || (b =? 62) || (b =? 38)
  then lit "\u00" ++ [hex_digit (b / 16); hex_digit (b mod 16)]
  else [a].

Fixpoint marshal_body (fuel : nat) (s : bytes) : bytes :=
  match fuel, s with
  | S fuel, a :: s' =>
      if byte_of a <? 128 then marshal_byte a ++ marshal_body fuel s'
      else
        match rune_at s with
        | Some (r, size) =>
            (if (r =? RuneError) && (size =? 1)%nat then lit "\ufffd"
             else if r =? 0x2028 then lit "\u2028" else if r =? 0x2029 then lit "\u2029"
             else take size s) ++ marshal_body fuel (drop size s)
        | None => []
        end
  | _, _ => []
  end.
Definition json_Marshal_string (s : bytes) : bytes := dq :: marshal_body (length s) s ++ [dq].

(** ** The token stream *)

Inductive token := TDelim (d : ascii) | TString (s : bytes) | TNumber (literal : bytes) | TBool (b : bool) | TNull.

(** The tokens that [json.Decoder] yields for a value, keys as strings. *)
Fixpoint tokens (v : json) : list token :=
  match v with
  | JNull => [TNull]
  | JBool b => [TBool b]
  | JNum n => [TNumber n]
  | JStr s => [TString s]
  | JArr l => TDelim "[" :: concat (tokens <$> l) ++ [TDelim "]"]
  | JObj l => TDelim "{" :: concat ((fun kv => TString kv.1 :: tokens kv.2) <$> l) ++ [TDelim "}"]
  end.

(** [Decoder.More]: there is a token and it closes nothing. *)
Definition More (ts : list token) : bool :=
  match ts with
  | [] => false
  | TDelim d :: _ => negb (Ascii.eqb d "]" || Ascii.eqb d "}")
  | _ :: _ => true
  end.
