(* ===== verification/RuneBytes.v ===== *)
(** * Runes in lists of bytes

    The runes of texts that are lists of bytes: [rune_at] reads what [enc] writes,
    and the texts made of whole runes. *)

From Stdlib Require Import Ascii String.
From S2P Require Import Prelude GoStrings Utf8 MaskText MaskThms GoRegexp GoJson Runes.
From stdpp Require Import list.
Local Open Scope Z_scope.
Local Open Scope list_scope.

Lemma soa_of_bytes bs rest : list_ascii_of_string (of_bytes bs +:+ rest) = (of_byte <$> bs) ++ list_ascii_of_string rest.
Proof. induction bs as [|b bs IH]; [done|]. exact (f_equal (cons (of_byte b)) IH). Qed.

Lemma rune_front l r rest : l ≠ [] -> scalar r -> string_of_list_ascii (take 4 l) = of_bytes (encode_rune r) +:+ rest ->
  scalar r /\ Z.to_nat (Z.of_nat (length (encode_rune r))) = length (enc r) /\
  take (Z.to_nat (Z.of_nat (length (encode_rune r)))) l = enc r.
Proof.
  intros Hl Hpos Hs. unfold enc. rewrite length_fmap, Nat2Z.id. split; [done|]. split; [done|].
  apply (f_equal list_ascii_of_string) in Hs.
  rewrite list_ascii_of_string_of_list_ascii, soa_of_bytes in Hs.
  rewrite <- (length_fmap of_byte (encode_rune r)). fold (enc r) in *.
  assert (Hle : (length (enc r) <= 4)%nat).
  { apply (f_equal length) in Hs. rewrite length_take, length_app in Hs. lia. }
  replace (length (enc r)) with (length (enc r) `min` 4)%nat by lia. rewrite <- take_take, Hs. apply take_app_length.
Qed.

Lemma rune_at_bytes l r size : rune_at l = Some (r, size) -> r <> RuneError ->
  scalar r /\ size = length (enc r) /\ take size l = enc r.
Proof.
  unfold rune_at. destruct l as [|a l]; [done|]. set (s := string_of_list_ascii _).
  destruct (DecodeRune s) as [r' n] eqn:Hd. intros [= -> <-] Hr.
  destruct (DecodeRune_bytes _ _ _ Hd) as [Hs|[[? _]|(-> & Hpos & rest & Hs)]]; [done|done|].
  by apply (rune_front (a :: l) r rest).
Qed.

Lemma enc_ascii r : 0 <= r < 128 -> enc r = [of_byte r].
Proof. intros Hr. unfold enc. by rewrite encode_1. Qed.

Lemma byte_of_byte b : 0 <= b < 256 -> byte_of (of_byte b) = b.
Proof. intros Hb. unfold byte_of, of_byte. rewrite Ascii.N_ascii_embedding; lia. Qed.


Lemma enc_length r : scalar r -> (1 <= length (enc r) <= 4)%nat.
Proof.
  intros Hr. pose proof (DecodeRune_encode r EmptyString Hr) as Hd. unfold enc. rewrite length_fmap.
  unfold encode_rune, encode_valid. repeat case_match; cbn; lia.
Qed.

Lemma soa_app x y : string_of_list_ascii (x ++ y) = string_of_list_ascii x +:+ string_of_list_ascii y.
Proof. induction x as [|a x IH]; [done|]. exact (f_equal (String.String a) IH). Qed.

Lemma soa_enc l : string_of_list_ascii (of_byte <$> l) = of_bytes l.
Proof. induction l as [|b l IH]; [done|]. exact (f_equal (String.String (of_byte b)) IH). Qed.

(** A rune that stands in front as its encoding is read. *)
Lemma rune_at_enc r rest : scalar r -> rune_at (enc r ++ rest) = Some (r, length (enc r)).
Proof.
  intros Hr. pose proof (enc_length r Hr) as Hlen. unfold rune_at.
  destruct (enc r ++ rest) as [|a l] eqn:He; [apply (f_equal length) in He; rewrite length_app in He; cbn in He; lia|].
  rewrite <- He. rewrite take_app_ge by lia. rewrite soa_app. unfold enc at 1. rewrite soa_enc.
  rewrite DecodeRune_encode by done. unfold enc. by rewrite length_fmap, Nat2Z.id.
Qed.

(** What stands in front of [l] as a rune: one that is whole, or a stray byte. *)
Lemma rune_at_cases l r size : rune_at l = Some (r, size) ->
  (r = RuneError /\ size = 1%nat) \/ (scalar r /\ size = length (enc r) /\ l = enc r ++ drop size l).
Proof.
  intros Hr. destruct (decide (r = RuneError /\ size = 1%nat)) as [|Hne]; [by left|]. right.
  assert (H : scalar r /\ size = length (enc r) /\ take size l = enc r).
  { unfold rune_at in Hr. destruct l as [|a l]; [done|]. set (s := string_of_list_ascii _) in Hr.
    destruct (DecodeRune s) as [r' n] eqn:Hd. injection Hr as -> <-.
    destruct (DecodeRune_bytes _ _ _ Hd) as [Hs|[[-> ->]|(-> & Hsc & rest & Hs)]]; [done|by destruct Hne|].
    by apply (rune_front (a :: l) r rest). }
  destruct H as (Hsc & Hsize & Ht). split; [done|]. split; [done|]. rewrite <- Ht. by rewrite take_drop.
Qed.

(** Texts made of whole runes. *)
Inductive utf8_ok : bytes -> Prop :=
| u8_nil : utf8_ok []
| u8_cons r s : scalar r -> utf8_ok s -> utf8_ok (enc r ++ s).

(** Every stray byte becomes [RuneError]. *)
Fixpoint valid_of (fuel : nat) (s : bytes) : bytes :=
  match fuel, rune_at s with
  | S fuel, Some (r, size) => enc r ++ valid_of fuel (drop size s)
  | _, _ => []
  end.
Definition to_valid (s : bytes) : bytes := valid_of (length s) s.
