(* ===== verification/GoJsonThms.v ===== *)
(** * JSON: what is printed is read back

    A compact value parses to itself; the parser yields whole runes, valid
    literals and bounded nesting; and marshalling a string loses nothing but stray
    bytes, which become U+FFFD. *)

From Stdlib Require Import Ascii String.
From S2P Require Import Prelude GoStrings Utf8 MaskText MaskThms GoRegexp GoJson Runes RuneBytes.
From stdpp Require Import list.
Local Open Scope Z_scope.
Local Open Scope list_scope.

(** ** Whole runes *)

Lemma scalar_error : scalar RuneError.
Proof. unfold scalar, RuneError. lia. Qed.

Lemma rune_at_scalar l r size : rune_at l = Some (r, size) -> scalar r.
Proof. intros [[-> _]|[? _]]%rune_at_cases; [apply scalar_error|done]. Qed.

Lemma utf8_app x y : utf8_ok x -> utf8_ok y -> utf8_ok (x ++ y).
Proof. intros Hx Hy. induction Hx as [|r s Hr _ IH]; [done|]. rewrite <- app_assoc. by constructor. Qed.

Lemma utf8_enc r : scalar r -> utf8_ok (enc r).
Proof. intros Hr. rewrite <- (app_nil_r (enc r)). by constructor; [|constructor]. Qed.

Lemma valid_of_ok fuel s : utf8_ok (valid_of fuel s).
Proof.
  revert s. induction fuel as [|fuel IH]; intros s; cbn [valid_of]; [constructor|].
  destruct (rune_at s) as [[r size]|] eqn:Hr; [|constructor]. constructor; [by apply rune_at_scalar in Hr|apply IH].
Qed.

Lemma valid_of_id s : utf8_ok s -> forall fuel, (length s <= fuel)%nat -> valid_of fuel s = s.
Proof.
  induction 1 as [|r s Hr Hs IH]; intros fuel Hf; [by destruct fuel|].
  rewrite length_app in Hf. pose proof (enc_length r Hr). destruct fuel as [|fuel]; [lia|]. cbn [valid_of].
  rewrite rune_at_enc by done. rewrite drop_app_length, IH by lia. done.
Qed.

Lemma to_valid_id s : utf8_ok s -> to_valid s = s.
Proof. intros Hs. by apply valid_of_id. Qed.

Lemma enc_byte b : 0 <= b < 128 -> [of_byte b] = enc b /\ scalar b.
Proof. intros Hb. split; [by rewrite enc_ascii|]. unfold scalar. lia. Qed.

(** ** Strings *)

Lemma hex_value_range a v : hex_value a = Some v -> 0 <= v < 16.
Proof. unfold hex_value. pose proof (byte_range a). repeat case_match; intros ?; simplify_eq; lia. Qed.

Lemma hex4_range l r rest : hex4 l = Some (r, rest) -> 0 <= r < 0x10000.
Proof.
  unfold hex4. destruct l as [|a [|b [|c [|d l]]]]; try done.
  destruct (hex_value a) as [va|] eqn:Ha; [|done]. destruct (hex_value b) as [vb|] eqn:Hb; [|done].
  destruct (hex_value c) as [vc|] eqn:Hc; [|done]. destruct (hex_value d) as [vd|] eqn:Hd; [|done].
  cbn. intros [= <- _]. apply hex_value_range in Ha, Hb, Hc, Hd. lia.
Qed.

Lemma unicode_escape_scalar l r rest : unicode_escape l = Some (r, rest) -> scalar r.
Proof.
  unfold unicode_escape. destruct (hex4 l) as [[r1 l1]|] eqn:H1; [|done]. cbn [mbind option_bind].
  apply hex4_range in H1. assert (He : forall rest', Some (RuneError, l1) = Some (r, rest') -> scalar r).
  { intros rest' [= <- _]. apply scalar_error. }
  destruct (is_surrogate r1) eqn:Hs.
  - destruct l1 as [|a [|b l2]]; try apply He. destruct (_ && _); [|apply He].
    destruct (hex4 l2) as [[r2 l3]|] eqn:H2; [|apply He]. apply hex4_range in H2.
    unfold utf16_pair. destruct (_ && _ && _ && _) eqn:Hp; [|apply He].
    intros [= <- _]. unfold scalar. lia.
  - intros [= <- _]. unfold is_surrogate in Hs. unfold scalar. lia.
Qed.

Lemma simple_escape_ascii e c : simple_escape e = Some c -> exists b, c = of_byte b /\ 0 <= b < 128.
Proof.
  unfold simple_escape. pose proof (byte_range e). destruct ((byte_of e =? 34) || (byte_of e =? 92) || (byte_of e =? 47)) eqn:H1.
  - intros [= <-]. exists (byte_of e). rewrite of_byte_of. split; [done|]. lia.
  - repeat (case_match; [intros [= <-]; eexists; split; [reflexivity|lia]|]). done.
Qed.

(** A decoded string is made of whole runes. *)
Lemma string_body_ok fuel l s rest : string_body fuel l = Some (s, rest) -> utf8_ok s.
Proof.
  revert l s. induction fuel as [|fuel IH]; intros l s; [done|]. destruct l as [|a l]; [done|]. cbn [string_body].
  destruct (byte_of a =? 34); [intros [= <- _]; constructor|]. destruct (byte_of a <? 32); [done|].
  destruct (byte_of a =? 92).
  - destruct l as [|e l]; [done|]. destruct (byte_of e =? 117).
    + destruct (unicode_escape l) as [[r l3]|] eqn:Hu; [|done]. cbn [mbind option_bind].
      destruct (string_body fuel l3) as [[s' rest']|] eqn:Hs; [|done]. cbn [mbind option_bind]. intros [= <- <-].
      constructor; [by apply unicode_escape_scalar in Hu|by apply (IH l3)].
    + destruct (simple_escape e) as [c|] eqn:Hc; [|done]. cbn [mbind option_bind].
      destruct (string_body fuel l) as [[s' rest']|] eqn:Hs; [|done]. cbn [mbind option_bind]. intros [= <- <-].
      apply simple_escape_ascii in Hc as (b & -> & Hb). destruct (enc_byte b Hb) as [Heq Hsc].
      change (of_byte b :: s') with ([of_byte b] ++ s'). rewrite Heq. constructor; [done|by apply (IH l)].
  - destruct (rune_at (a :: l)) as [[r size]|] eqn:Hr; [|done]. cbn [mbind option_bind].
    destruct (string_body fuel _) as [[s' rest']|] eqn:Hs; [|done]. cbn [mbind option_bind]. intros [= <- <-].
    constructor; [by apply rune_at_scalar in Hr|by eapply IH].
Qed.

(** What a step of the marshaller writes is read as one step. *)
Lemma body_mono fuel fuel' l x : string_body fuel l = Some x -> (fuel <= fuel')%nat -> string_body fuel' l = Some x.
Proof.
  revert fuel' l x. induction fuel as [|fuel IH]; intros fuel' l x; [done|]. destruct fuel' as [|fuel']; [lia|].
  intros Hs Hf. destruct l as [|a l]; [done|]. cbn [string_body] in *.
  destruct (byte_of a =? 34); [done|]. destruct (byte_of a <? 32); [done|]. destruct (byte_of a =? 92).
  - destruct l as [|e l]; [done|]. destruct (byte_of e =? 117).
    + destruct (unicode_escape l) as [[r l3]|]; [|done]. cbn [mbind option_bind] in *.
      destruct (string_body fuel l3) as [[s' rest']|] eqn:Hb; [|done]. by rewrite (IH fuel' _ _ Hb) by lia.
    + destruct (simple_escape e) as [c|]; [|done]. cbn [mbind option_bind] in *.
      destruct (string_body fuel l) as [[s' rest']|] eqn:Hb; [|done]. by rewrite (IH fuel' _ _ Hb) by lia.
  - destruct (rune_at (a :: l)) as [[r size]|]; [|done]. cbn [mbind option_bind] in *.
    destruct (string_body fuel _) as [[s' rest']|] eqn:Hb; [|done]. by rewrite (IH fuel' _ _ Hb) by lia.
Qed.

Lemma body_ascii a s rest t fuel : 32 <= byte_of a < 128 -> byte_of a <> 34 -> byte_of a <> 92 ->
  string_body fuel s = Some (t, rest) -> string_body (S fuel) (a :: s) = Some (a :: t, rest).
Proof.
  intros Ha H1 H2 Hs. cbn [string_body].
  rewrite (proj2 (Z.eqb_neq _ _) H1), (proj2 (Z.ltb_ge _ _)), (proj2 (Z.eqb_neq _ _) H2) by lia.
  pose proof (rune_at_enc (byte_of a) s) as Hr. destruct (enc_byte (byte_of a)) as [He Hsc]; [lia|].
  specialize (Hr Hsc). rewrite <- He, of_byte_of in Hr. cbn [app length] in Hr. rewrite Hr. cbn [mbind option_bind drop].
  rewrite drop_0. rewrite Hs. cbn [mbind option_bind]. by rewrite <- He, of_byte_of.
Qed.

Definition all_bytes : list Z := Z.of_nat <$> seq 0 128.
(** How the parser reads what [marshal_byte] writes of a byte below 0x80, when it
    is an escape. *)
Definition escape_back (a : ascii) : bool :=
  match marshal_byte a with
  | [b] => Ascii.eqb a b && (32 <=? byte_of a) && negb (byte_of a =? 34) && negb (byte_of a =? 92)
  | [b; e] => (byte_of b =? 92) && negb (byte_of e =? 117) &&
      match simple_escape e with Some c => Ascii.eqb c a | None => false end
  | [b; u; w; x; y; z] => (byte_of b =? 92) && (byte_of u =? 117) &&
      match hex4 [w; x; y; z] with Some (r, _) => (r =? byte_of a) && (r <? 128) | None => false end
  | _ => false
  end.
Lemma escape_back_all : forallb (fun b => escape_back (of_byte b)) all_bytes = true.
Proof. vm_compute. reflexivity. Qed.

Lemma hex4_app w x y z r rest l : hex4 [w; x; y; z] = Some (r, rest) -> hex4 (w :: x :: y :: z :: l) = Some (r, l).
Proof.
  unfold hex4. destruct (hex_value w); [|done]. destruct (hex_value x); [|done].
  destruct (hex_value y); [|done]. destruct (hex_value z); [|done]. cbn. by intros [= <- _].
Qed.

Lemma marshal_byte_back a s rest t fuel : byte_of a < 128 -> string_body fuel s = Some (t, rest) ->
  string_body (fuel + 6) (marshal_byte a ++ s) = Some (a :: t, rest).
Proof.
  intros Ha Hs. pose proof (byte_range a) as Hr. assert (Hb : escape_back a = true).
  { pose proof escape_back_all as H. rewrite forallb_forall in H. specialize (H (byte_of a)).
    rewrite of_byte_of in H. apply H. apply list_elem_of_In, list_elem_of_fmap. exists (Z.to_nat (byte_of a)).
    split; [lia|]. apply elem_of_seq. lia. }
  unfold escape_back in Hb. destruct (marshal_byte a) as [|b [|e [|w [|x [|y [|z [|]]]]]]]; try done.
  - apply andb_prop in Hb as [[[Heq%Ascii.eqb_eq ?]%andb_prop ?]%andb_prop ?]. subst b. cbn [app].
    eapply body_mono; [apply (body_ascii a s rest t fuel)|]; lia || done.
  - apply andb_prop in Hb as [[H1 H2]%andb_prop H3]. destruct (simple_escape e) as [c|] eqn:Hc; [|done].
    apply Ascii.eqb_eq in H3 as ->. replace (fuel + 6)%nat with (S (fuel + 5)) by lia. cbn [app string_body].
    apply Z.eqb_eq in H1. rewrite H1. cbn [Z.eqb Pos.eqb Z.ltb Z.compare Pos.compare Pos.compare_cont].
    apply negb_true_iff in H2. rewrite H2, Hc. cbn [mbind option_bind].
    by rewrite (body_mono fuel (fuel + 5) s (t, rest)) by (done || lia).
  - apply andb_prop in Hb as [[H1 H2]%andb_prop H3]. destruct (hex4 [w; x; y; z]) as [[r l]|] eqn:Hh; [|done].
    apply andb_prop in H3 as [H3%Z.eqb_eq H4]. subst r. replace (fuel + 6)%nat with (S (fuel + 5)) by lia. cbn [app string_body].
    apply Z.eqb_eq in H1. rewrite H1, H2. cbn [Z.eqb Pos.eqb Z.ltb Z.compare Pos.compare Pos.compare_cont].
    unfold unicode_escape. rewrite (hex4_app _ _ _ _ _ _ s Hh). cbn [mbind option_bind].
    assert (Hns : is_surrogate (byte_of a) = false) by (unfold is_surrogate; lia). rewrite Hns. cbn [mbind option_bind].
    rewrite (body_mono fuel (fuel + 5) s (t, rest)) by (done || lia). cbn [mbind option_bind].
    destruct (enc_byte (byte_of a)) as [He _]; [lia|]. by rewrite <- He, of_byte_of.
Qed.

Lemma hex4_length l r rest : hex4 l = Some (r, rest) -> (length rest < length l)%nat.
Proof.
  unfold hex4. destruct l as [|a [|b [|c [|d l]]]]; try done.
  destruct (hex_value a); [|done]. destruct (hex_value b); [|done]. destruct (hex_value c); [|done].
  destruct (hex_value d); [|done]. cbn. intros [= _ <-]. lia.
Qed.

Lemma unicode_escape_length l r rest : unicode_escape l = Some (r, rest) -> (length rest < length l)%nat.
Proof.
  unfold unicode_escape. destruct (hex4 l) as [[r1 l1]|] eqn:H1; [|done]. cbn [mbind option_bind].
  apply hex4_length in H1. destruct (is_surrogate r1); [|by intros [= _ <-]].
  destruct l1 as [|a [|b l2]]; [by intros [= _ <-]|by intros [= _ <-]|].
  destruct (_ && _); [|by intros [= _ <-]]. destruct (hex4 l2) as [[r2 l3]|] eqn:H2; [|by intros [= _ <-]].
  apply hex4_length in H2. cbn [length] in *. destruct (utf16_pair r1 r2); intros [= _ <-]; cbn [length]; lia.
Qed.

(** The length of the text is enough fuel. *)
Lemma body_enough fuel l : (length l <= fuel)%nat -> string_body fuel l = string_body (length l) l.
Proof.
  revert l. induction fuel as [fuel IH] using lt_wf_ind. intros l Hf. destruct l as [|a l].
  { by destruct fuel. }
  destruct fuel as [|fuel]; [cbn in Hf; lia|]. cbn [length] in *. cbn [string_body].
  assert (Hstep : forall l', (length l' <= length l)%nat -> string_body fuel l' = string_body (length l) l').
  { intros l' Hl. rewrite (IH fuel ltac:(lia) l') by lia. symmetry. apply IH; lia. }
  destruct (byte_of a =? 34); [done|]. destruct (byte_of a <? 32); [done|]. destruct (byte_of a =? 92).
  - destruct l as [|e l]; [done|]. cbn [length] in *. destruct (byte_of e =? 117).
    + destruct (unicode_escape l) as [[r l3]|] eqn:Hu; [|done]. apply unicode_escape_length in Hu.
      cbn [mbind option_bind]. by rewrite Hstep by lia.
    + destruct (simple_escape e); [|done]. cbn [mbind option_bind]. by rewrite Hstep by lia.
  - destruct (rune_at (a :: l)) as [[r size]|] eqn:Hr; [|done]. cbn [mbind option_bind].
    apply rune_at_size in Hr. rewrite Hstep; [done|]. rewrite length_drop. cbn [length]. lia.
Qed.

Lemma body_any fuel l x : string_body fuel l = Some x -> string_body (length l) l = Some x.
Proof.
  intros Hs. rewrite <- (body_enough (fuel + length l)) by lia. by apply (body_mono fuel); [|lia].
Qed.

(** A whole rune from 0x80 on is read as one step. *)
Lemma body_rune r s t rest fuel : scalar r -> 128 <= r -> string_body fuel s = Some (t, rest) ->
  string_body (S fuel) (enc r ++ s) = Some (enc r ++ t, rest).
Proof.
  intros Hsc Hr Hs. pose proof (enc_length r Hsc) as Hlen.
  destruct (enc r) as [|a l] eqn:He; [cbn in Hlen; lia|]. pose proof (rune_at_enc r s Hsc) as Hat. rewrite He in Hat.
  assert (Ha : 128 <= byte_of a).
  { destruct (Z.lt_ge_cases (byte_of a) 128) as [Hlt|]; [exfalso|done]. pose proof (byte_range a).
    destruct (enc_byte (byte_of a)) as [Ha Hsa]; [lia|]. rewrite of_byte_of in Ha.
    pose proof (rune_at_enc (byte_of a) (l ++ s) Hsa) as Hat'. rewrite <- Ha in Hat'. cbn [app] in *. simplify_eq. lia. }
  cbn [app string_body].
  rewrite (proj2 (Z.eqb_neq (byte_of a) 34)), (proj2 (Z.ltb_ge (byte_of a) 32)), (proj2 (Z.eqb_neq (byte_of a) 92)) by lia.
  cbn [app] in Hat. rewrite Hat. cbn [mbind option_bind length drop]. rewrite drop_app_length, Hs. cbn [mbind option_bind].
  by rewrite He.
Qed.

Lemma hex4_escape l r s t rest' fuel : hex4 l = Some (r, []) -> is_surrogate r = false ->
  string_body fuel s = Some (t, rest') -> string_body (S fuel) (lit "\u" ++ l ++ s) = Some (enc r ++ t, rest').
Proof.
  intros Hh Hns Hs. destruct l as [|w [|x [|y [|z l]]]]; try done. assert (l = []) as ->.
  { unfold hex4 in Hh. destruct (hex_value w); [|done]. destruct (hex_value x); [|done].
    destruct (hex_value y); [|done]. destruct (hex_value z); [|done]. cbn in Hh. congruence. }
  cbn [app lit list_ascii_of_string string_body]. change (byte_of "\") with 92. change (byte_of "u") with 117.
  cbn [Z.eqb Pos.eqb Z.ltb Z.compare Pos.compare Pos.compare_cont]. unfold unicode_escape.
  rewrite (hex4_app _ _ _ _ _ _ s Hh). cbn [mbind option_bind]. rewrite Hns. cbn [mbind option_bind].
  by rewrite Hs.
Qed.

(** Marshalling and reading back. *)
Lemma marshal_body_back fuel s rest : (length s <= fuel)%nat ->
  exists fuel', string_body fuel' (marshal_body fuel s ++ dq :: rest) = Some (valid_of fuel s, rest).
Proof.
  revert s. induction fuel as [|fuel IH]; intros s Hs.
  { destruct s; [|cbn in Hs; lia]. by exists 1%nat. }
  destruct s as [|a s]; [by exists 1%nat|]. cbn [marshal_body valid_of].
  destruct (rune_at_some (a :: s) ltac:(done)) as (r & size & Hr). rewrite Hr.
  pose proof (rune_at_size _ _ _ Hr) as Hsize. cbn [length] in *.
  destruct (byte_of a <? 128) eqn:Ha.
  - apply Z.ltb_lt in Ha. pose proof (byte_range a). destruct (enc_byte (byte_of a)) as [He Hsc]; [lia|].
    pose proof (rune_at_enc (byte_of a) s Hsc) as Hat. rewrite <- He, of_byte_of in Hat. cbn [app length] in Hat.
    rewrite Hr in Hat. injection Hat as -> ->. rewrite <- He, of_byte_of. cbn [drop app]. rewrite drop_0.
    destruct (IH s ltac:(lia)) as [fuel' Hf]. exists (fuel' + 6)%nat. rewrite <- app_assoc.
    by apply marshal_byte_back.
  - destruct (IH (drop size (a :: s))) as [fuel' Hf]; [rewrite length_drop; cbn; lia|]. exists (S fuel').
    rewrite <- app_assoc. destruct (rune_at_cases _ _ _ Hr) as [[-> ->]|(Hsc & Hsz & Hl)].
    + cbn [Z.eqb Pos.eqb Nat.eqb andb RuneError]. exact (hex4_escape (lit "fffd") RuneError _ _ _ _ eq_refl eq_refl Hf).
    + assert (Hr128 : 128 <= r).
      { destruct (Z.lt_ge_cases r 128) as [Hlt|]; [exfalso|done]. destruct Hsc as [Hsc _].
        rewrite enc_ascii in Hl by lia. cbn [app] in Hl. injection Hl as Ha' _. subst a.
        rewrite byte_of_byte in Ha by lia. lia. }
      destruct ((r =? RuneError) && (size =? 1)%nat) eqn:Hbad.
      { apply andb_prop in Hbad as [->%Z.eqb_eq ->%Nat.eqb_eq]. discriminate Hsz. }
      destruct (r =? 0x2028) eqn:H28; [apply Z.eqb_eq in H28 as ->; exact (hex4_escape (lit "2028") 0x2028 _ _ _ _ eq_refl eq_refl Hf)|].
      destruct (r =? 0x2029) eqn:H29; [apply Z.eqb_eq in H29 as ->; exact (hex4_escape (lit "2029") 0x2029 _ _ _ _ eq_refl eq_refl Hf)|].
      assert (Ht : take size (a :: s) = enc r) by (rewrite Hl, Hsz; apply take_app_length).
      rewrite Ht. by apply body_rune.
Qed.

Lemma marshal_back s rest :
  string_body (length (marshal_body (length s) s ++ dq :: rest)) (marshal_body (length s) s ++ dq :: rest)
    = Some (to_valid s, rest).
Proof. destruct (marshal_body_back (length s) s rest ltac:(lia)) as [fuel Hf]. by apply body_any in Hf. Qed.

(** ** JSON: a compact value parses to itself

    [render] is the compact text of a value.  The parser gives it back, whatever
    follows, with its strings made of whole runes. *)

Local Open Scope Z_scope.
Local Open Scope list_scope.

(** ** Numbers *)

Definition no_digit (l : bytes) : Prop := from_option is_digit false (head l) = false.
Definition no_head (p : ascii -> bool) (l : bytes) : Prop := from_option p false (head l) = false.
Definition is_dot (a : ascii) : bool := Ascii.eqb a ".".
Definition is_e (a : ascii) : bool := Ascii.eqb a "e" || Ascii.eqb a "E".

(** What may follow a number. *)
Definition stops (rest : bytes) : Prop := no_digit rest /\ no_head is_dot rest /\ no_head is_e rest.

Lemma span_end p n x l y : span p n l = (x, y) -> (length l <= n)%nat -> no_head p y.
Proof.
  revert n x. induction l as [|a l IH]; intros n x; destruct n as [|n]; cbn [span length]; try lia.
  - by intros [= _ <-].
  - by intros [= _ <-].
  - destruct (p a) eqn:Hp.
    + destruct (span p n l) as [x' y'] eqn:Hs. intros [= _ <-] Hl. apply (IH n x' Hs). lia.
    + intros [= _ <-] _. exact Hp.
Qed.

Lemma take_digits_spec l ds y : take_digits l = (ds, y) ->
  l = ds ++ y /\ Forall (fun a => is_digit a = true) ds /\ no_digit y.
Proof.
  intros Ht. destruct (span_spec _ _ _ _ _ Ht) as (-> & Hall & _). split; [done|]. split; [done|].
  by apply (span_end _ _ _ _ _ Ht).
Qed.

Lemma take_digits_app ds y : Forall (fun a => is_digit a = true) ds -> no_digit y -> take_digits (ds ++ y) = (ds, y).
Proof. intros Hall Hy. apply span_exact; [done|rewrite length_app; lia|by right]. Qed.

Lemma no_head_app p x y : no_head p x -> no_head p y -> no_head p (x ++ y).
Proof. destruct x; cbn; done. Qed.

Lemma number_int_cut l i l' : number_int l = Some (i, l') ->
  (exists a i', i = a :: i' /\ is_digit a = true) /\ forall y, no_digit y -> number_int (i ++ y) = Some (i, y).
Proof.
  unfold number_int at 1. destruct l as [|a l]; [done|]. destruct (Ascii.eqb_spec a "0") as [->|Hne].
  { intros [= <- <-]. split; [by exists "0"%char, []|]. done. }
  destruct (take_digits (a :: l)) as [ds rest] eqn:Ht. destruct (take_digits_spec _ _ _ Ht) as (Hl & Hall & _).
  case_bool_decide as Hds; [done|]. intros [= <- <-]. destruct ds as [|b ds]; [done|].
  cbn in Hl. injection Hl as <- Hl. apply Forall_cons in Hall as Hall'. destruct Hall' as [Hd _].
  split; [by exists a, ds|]. intros y Hy. unfold number_int. cbn [app].
  destruct (Ascii.eqb_spec a "0"); [done|]. change (a :: ds ++ y) with ((a :: ds) ++ y).
  rewrite take_digits_app by done. by rewrite bool_decide_false by done.
Qed.

Lemma number_frac_cut l f l' : number_frac l = Some (f, l') ->
  (f = [] \/ exists f', f = "."%char :: f') /\
  forall y, no_digit y -> (f = [] -> no_head is_dot y) -> number_frac (f ++ y) = Some (f, y).
Proof.
  assert (Hnil : forall y, no_head is_dot y -> number_frac y = Some ([], y)).
  { intros [|b y] Hy; [done|]. unfold no_head, is_dot in Hy. cbn in Hy. unfold number_frac. by rewrite Hy. }
  unfold number_frac at 1. destruct l as [|a l].
  { intros [= <- <-]. split; [by left|]. intros y _ Hy. by apply Hnil, Hy. }
  destruct (Ascii.eqb_spec a ".") as [->|Hne].
  - destruct (take_digits l) as [ds rest] eqn:Ht. destruct (take_digits_spec _ _ _ Ht) as (_ & Hall & _).
    case_bool_decide as Hds; [done|]. intros [= <- <-]. split; [right; by exists ds|]. intros y Hy _.
    unfold number_frac. cbn [app]. change (Ascii.eqb "." ".") with true. cbv iota. rewrite take_digits_app by done.
    by rewrite bool_decide_false by done.
  - intros [= <- <-]. split; [by left|]. intros y _ Hy. by apply Hnil, Hy.
Qed.

Lemma number_sign_cut l s l' ds rest : number_sign l = (s, l') -> take_digits l' = (ds, rest) -> ds <> [] ->
  forall y, no_digit y -> number_sign ((s ++ ds) ++ y) = (s, ds ++ y).
Proof.
  intros Hs Ht Hds y Hy. destruct (take_digits_spec _ _ _ Ht) as (Hl & Hall & _).
  destruct ds as [|d ds]; [done|]. unfold number_sign in Hs. destruct l as [|a l]; [by simplify_eq|].
  destruct (Ascii.eqb a "+" || Ascii.eqb a "-") eqn:Ha; injection Hs as <- <-; cbn [app number_sign].
  - by rewrite Ha.
  - rewrite Hl in *. cbn in Hl. injection Hl as -> _. cbn [app number_sign]. by rewrite Ha.
Qed.

Lemma number_exp_cut l e l' : number_exp l = Some (e, l') ->
  (e = [] \/ exists a e', e = a :: e' /\ is_e a = true) /\
  forall y, no_digit y -> (e = [] -> no_head is_e y) -> number_exp (e ++ y) = Some (e, y).
Proof.
  assert (Hnil : forall y, no_head is_e y -> number_exp y = Some ([], y)).
  { intros [|b y] Hy; [done|]. unfold no_head, is_e in Hy. cbn in Hy. unfold number_exp. by rewrite Hy. }
  unfold number_exp at 1. destruct l as [|a l].
  { intros [= <- <-]. split; [by left|]. intros y _ Hy. by apply Hnil, Hy. }
  destruct (Ascii.eqb a "e" || Ascii.eqb a "E") eqn:Ha.
  - destruct (number_sign l) as [s l2] eqn:Hs. destruct (take_digits l2) as [ds rest] eqn:Ht.
    destruct (take_digits_spec _ _ _ Ht) as (_ & Hall & _).
    case_bool_decide as Hds; [done|]. intros [= <- <-]. split; [right; by exists a, (s ++ ds)|]. intros y Hy _.
    unfold number_exp. cbn [app]. rewrite Ha, (number_sign_cut l s l2 ds rest) by done.
    rewrite take_digits_app by done. by rewrite bool_decide_false by done.
  - intros [= <- <-]. split; [by left|]. intros y _ Hy. by apply Hnil, Hy.
Qed.

Lemma number_body_cut l n l' : number_body l = Some (n, l') ->
  (exists a n', n = a :: n' /\ is_digit a = true) /\ forall y, stops y -> number_body (n ++ y) = Some (n, y).
Proof.
  unfold number_body at 1. destruct (number_int l) as [[i l1]|] eqn:Hi; [|done]. cbn [mbind option_bind].
  destruct (number_frac l1) as [[f l2]|] eqn:Hf; [|done]. cbn [mbind option_bind].
  destruct (number_exp l2) as [[e l3]|] eqn:He; [|done]. cbn [mbind option_bind]. intros [= <- <-].
  destruct (number_int_cut _ _ _ Hi) as ((a & i' & -> & Ha) & Hci).
  destruct (number_frac_cut _ _ _ Hf) as [Hhf Hcf]. destruct (number_exp_cut _ _ _ He) as [Hhe Hce].
  split; [by exists a, (i' ++ f ++ e)|]. intros y (Hy1 & Hy2 & Hy3). unfold number_body. rewrite <- !app_assoc.
  assert (Hed : no_digit (e ++ y)).
  { destruct Hhe as [->|(b & e' & -> & Hb)]; [done|]. unfold no_digit. cbn. unfold is_e in Hb.
    apply orb_true_iff in Hb as [->%Ascii.eqb_eq| ->%Ascii.eqb_eq]; done. }
  assert (Hfd : no_digit (f ++ e ++ y)) by (destruct Hhf as [->|(f' & ->)]; done).
  rewrite Hci by done. cbn [mbind option_bind]. rewrite Hcf; [|done|].
  - cbn [mbind option_bind]. rewrite Hce by done. cbn [mbind option_bind]. done.
  - intros _. destruct Hhe as [->|(b & e' & -> & Hb)]; [done|]. unfold no_head. cbn. unfold is_e in Hb.
    apply orb_true_iff in Hb as [->%Ascii.eqb_eq| ->%Ascii.eqb_eq]; done.
Qed.

(** A literal that the parser yields is read again, whatever stops it. *)
Definition number_ok (n : bytes) : Prop :=
  (exists a n', n = a :: n' /\ (is_digit a || Ascii.eqb a "-") = true) /\
  forall y, stops y -> number (n ++ y) = Some (n, y).

Lemma number_cut l n l' : number l = Some (n, l') -> number_ok n.
Proof.
  unfold number at 1. destruct l as [|a l]; [done|]. destruct (Ascii.eqb_spec a "-") as [->|Hne].
  - destruct (number_body l) as [[m rest]|] eqn:Hm; [|done]. cbn [mbind option_bind]. intros [= <- <-].
    destruct (number_body_cut _ _ _ Hm) as [_ Hc]. split; [by exists "-"%char, m|]. intros y Hy.
    unfold number. cbn [app]. change (Ascii.eqb "-" "-") with true. cbv iota. by rewrite Hc.
  - intros Hm. destruct (number_body_cut _ _ _ Hm) as [(b & n' & -> & Hb) Hc].
    split; [exists b, n'; by rewrite Hb|]. intros y Hy. unfold number. cbn [app].
    destruct (Ascii.eqb_spec b "-") as [->|]; [done|]. by apply (Hc y).
Qed.

(** ** Values *)

Fixpoint join_comma (ls : list bytes) : bytes :=
  match ls with [] => [] | [l] => l | l :: ls => l ++ lit "," ++ join_comma ls end.

(** The compact text of a value. *)
Fixpoint render (v : json) : bytes :=
  match v with
  | JNull => lit "null"
  | JBool true => lit "true"
  | JBool false => lit "false"
  | JNum n => n
  | JStr s => json_Marshal_string s
  | JArr l => lit "[" ++ join_comma (render <$> l) ++ lit "]"
  | JObj l => lit "{" ++ join_comma ((fun kv => json_Marshal_string kv.1 ++ lit ":" ++ render kv.2) <$> l) ++ lit "}"
  end.

(** The value with the strings that it has after one trip. *)
Fixpoint cleaned (v : json) : json :=
  match v with
  | JStr s => JStr (to_valid s)
  | JArr l => JArr (cleaned <$> l)
  | JObj l => JObj ((fun kv => (to_valid kv.1, cleaned kv.2)) <$> l)
  | _ => v
  end.

(** Literals of numbers, and at most [d] levels of nesting. *)
Fixpoint well_formed (d : nat) (v : json) {struct v} : Prop :=
  match v with
  | JNum n => number_ok n
  | JArr l => match d with O => False | S d => foldr (fun v P => well_formed d v /\ P) True l end
  | JObj l => match d with O => False | S d => foldr (fun kv P => well_formed d kv.2 /\ P) True l end
  | _ => True
  end.

Fixpoint height (v : json) : nat :=
  match v with
  | JArr l => S (max_list (height <$> l))
  | JObj l => S (max_list ((fun kv => height kv.2) <$> l))
  | _ => 1
  end.

Lemma wf_arr d l : foldr (fun v P => well_formed d v /\ P) True l <-> Forall (well_formed d) l.
Proof. induction l as [|v l IH]; cbn; [by split|]. by rewrite IH, Forall_cons. Qed.
Lemma wf_obj d (l : list (bytes * json)) :
  foldr (fun kv P => well_formed d kv.2 /\ P) True l <-> Forall (fun kv => well_formed d kv.2) l.
Proof. induction l as [|v l IH]; cbn; [by split|]. by rewrite IH, Forall_cons. Qed.

(** What the text of a value begins with. *)
Definition starts_value (l : bytes) : Prop :=
  exists a t, l = a :: t /\ is_ws a = false /\ Ascii.eqb a "]" = false /\ Ascii.eqb a "}" = false /\ Ascii.eqb a "," = false.

Lemma digit_range a : is_digit a = true -> 48 <= byte_of a <= 57.
Proof. unfold is_digit. lia. Qed.

Lemma render_starts d v : well_formed d v -> starts_value (render v).
Proof.
  intros Hw. unfold starts_value. destruct v as [|[]|n|s|l|l]; cbn [render]; try by (eexists _, _; repeat split).
  cbn [well_formed] in Hw. destruct Hw as [(a & n' & -> & Ha) _]. exists a, n'. split; [done|].
  assert (Hb : a = "-"%char \/ 48 <= byte_of a <= 57).
  { apply orb_true_iff in Ha as [Ha|Ha]; [right; by apply digit_range|left; by apply Ascii.eqb_eq]. }
  assert (Hne : forall b, (byte_of b =? 45) || is_digit b = false -> Ascii.eqb a b = false).
  { intros b H1. apply Ascii.eqb_neq. intros ->. destruct Hb as [->|]; [done|]. unfold is_digit in H1. lia. }
  split; [|split; [|split]]; [|by apply Hne..].
  unfold is_ws. cbn [existsb]. destruct Hb as [->|Hb]; [done|].
  rewrite !(proj2 (Z.eqb_neq _ _)) by lia. done.
Qed.

Lemma skip_ws_id l rest : starts_value l -> skip_ws (l ++ rest) = l ++ rest.
Proof. intros (a & t & -> & Ha & _). cbn [app skip_ws]. by rewrite Ha. Qed.

Lemma stops_comma rest : stops (lit "," ++ rest). Proof. done. Qed.
Lemma stops_bracket rest : stops (lit "]" ++ rest). Proof. done. Qed.
Lemma stops_brace rest : stops (lit "}" ++ rest). Proof. done. Qed.
#[local] Hint Resolve stops_comma stops_bracket stops_brace : core.

Section lists.
Variables (value : nat -> bytes -> option (json * bytes)) (d : nat).
Definition reads (v : json) : Prop := starts_value (render v) /\
  forall rest, stops rest -> value d (render v ++ rest) = Some (cleaned v, rest).

Lemma array_render fuel vs rest : Forall reads vs -> vs <> [] -> (length vs <= fuel)%nat ->
  array_body value fuel d (join_comma (render <$> vs) ++ lit "]" ++ rest) = Some (cleaned <$> vs, rest).
Proof.
  intros Hall. revert fuel. induction Hall as [|v vs [Hst Hv] Hall IH]; intros fuel Hne Hf; [done|].
  destruct fuel as [|fuel]; [cbn in Hf; lia|]. cbn [array_body]. destruct vs as [|v' vs].
  - cbn [fmap list_fmap join_comma]. rewrite skip_ws_id, Hv by done. done.
  - change (join_comma (render <$> v :: v' :: vs)) with (render v ++ lit "," ++ join_comma (render <$> v' :: vs)).
    rewrite <- !app_assoc. rewrite skip_ws_id, Hv by done. cbn [mbind option_bind].
    specialize (IH fuel ltac:(done) ltac:(cbn in *; lia)).
    change (skip_ws (lit "," ++ join_comma (render <$> v' :: vs) ++ lit "]" ++ rest)) with
      ("," :: join_comma (render <$> v' :: vs) ++ lit "]" ++ rest)%char. cbv beta iota.
    change (Ascii.eqb "," ",") with true. cbv iota. by rewrite IH.
Qed.

Definition member_text (kv : bytes * json) : bytes := json_Marshal_string kv.1 ++ lit ":" ++ render kv.2.

Lemma object_step fuel k v rest : reads v -> forall a rest', rest = a :: rest' -> is_ws a = false -> stops rest ->
  object_body value (S fuel) d (member_text (k, v) ++ rest) =
    if Ascii.eqb a "," then '(kvs, r) ← object_body value fuel d rest'; Some ((to_valid k, cleaned v) :: kvs, r)
    else if Ascii.eqb a "}" then Some ([(to_valid k, cleaned v)], rest') else None.
Proof.
  intros [Hst Hv] a rest' -> Ha Hs. unfold member_text. cbn [fst snd]. unfold json_Marshal_string.
  cbn [object_body app].
  rewrite <- !app_assoc. cbn [app skip_ws]. change (is_ws dq) with false. cbv iota. change (Ascii.eqb dq dq) with true.
  cbn [negb]. change ([dq] ++ lit ":" ++ render v ++ a :: rest') with (dq :: lit ":" ++ render v ++ a :: rest').
  rewrite marshal_back. cbn [mbind option_bind].
  change (skip_ws (lit ":" ++ render v ++ a :: rest')) with (":" :: render v ++ a :: rest')%char. cbv beta iota.
  change (Ascii.eqb ":" ":") with true. cbn [negb]. rewrite skip_ws_id, Hv by done. cbn [mbind option_bind skip_ws].
  by rewrite Ha.
Qed.

Lemma object_render fuel kvs rest : Forall (fun kv => reads kv.2) kvs -> kvs <> [] -> (length kvs <= fuel)%nat ->
  object_body value fuel d (join_comma (member_text <$> kvs) ++ lit "}" ++ rest)
    = Some ((fun kv => (to_valid kv.1, cleaned kv.2)) <$> kvs, rest).
Proof.
  intros Hall. revert fuel. induction Hall as [|[k v] kvs Hv Hall IH]; intros fuel Hne Hf; [done|].
  destruct fuel as [|fuel]; [cbn in Hf; lia|]. destruct kvs as [|kv' kvs].
  - cbn [fmap list_fmap join_comma]. by rewrite (object_step fuel k v _ Hv "}"%char rest).
  - change (join_comma (member_text <$> (k, v) :: kv' :: kvs)) with
      (member_text (k, v) ++ lit "," ++ join_comma (member_text <$> kv' :: kvs)).
    rewrite <- !app_assoc.
    rewrite (object_step fuel k v _ Hv ","%char (join_comma (member_text <$> kv' :: kvs) ++ lit "}" ++ rest)) by done.
    change (Ascii.eqb "," ",") with true. cbv iota.
    by rewrite (IH fuel ltac:(done) ltac:(cbn in *; lia)).
Qed.
End lists.

Lemma max_list_in n l : n ∈ l -> (n <= max_list l)%nat.
Proof. induction 1 as [|m l Hin IH]; cbn; lia. Qed.

Lemma max_list_bound n l : (forall m, m ∈ l -> (m <= n)%nat) -> (max_list l <= n)%nat.
Proof.
  induction l as [|m l IH]; intros Hall; cbn; [lia|]. specialize (Hall m ltac:(left)) as Hm.
  enough (max_list l <= n)%nat by lia. apply IH. intros m' Hin. apply Hall. by right.
Qed.

Lemma join_length_in l ls : l ∈ ls -> (length l <= length (join_comma ls))%nat.
Proof.
  induction 1 as [l ls|l l' ls Hin IH].
  - destruct ls; cbn [join_comma]; rewrite ?length_app; lia.
  - destruct ls as [|l2 ls]; [by apply elem_of_nil in Hin|].
    change (join_comma (l' :: l2 :: ls)) with (l' ++ lit "," ++ join_comma (l2 :: ls)). rewrite !length_app. lia.
Qed.

Lemma join_length_many ls : (forall l, l ∈ ls -> (1 <= length l)%nat) -> (length ls <= length (join_comma ls))%nat.
Proof.
  induction ls as [|l ls IH]; intros Hall; cbn [length]; [lia|]. pose proof (Hall l ltac:(left)).
  destruct ls as [|l2 ls]; [done|].
  change (join_comma (l :: l2 :: ls)) with (l ++ lit "," ++ join_comma (l2 :: ls)). rewrite !length_app.
  assert (forall l, l ∈ l2 :: ls -> (1 <= length l)%nat) as Hall' by (intros; apply Hall; by right).
  specialize (IH Hall'). cbn [lit list_ascii_of_string length] in *. lia.
Qed.

Lemma starts_length l : starts_value l -> (1 <= length l)%nat.
Proof. intros (a & t & -> & _). cbn. lia. Qed.

Lemma height_render d v : well_formed d v -> (height v <= length (render v))%nat.
Proof.
  revert d. induction v as [|b|n|s|l IH|l IH] using json_ind; intros d Hw; cbn [height render].
  - cbn. lia.
  - destruct b; cbn; lia.
  - apply starts_length. by apply (render_starts d (JNum n)).
  - by apply starts_length, (render_starts d (JStr s)).
  - destruct d as [|d]; [done|]. cbn [well_formed] in Hw. apply wf_arr in Hw.
    assert (Hm : (max_list (height <$> l) <= length (join_comma (render <$> l)))%nat).
    { apply max_list_bound. intros n (v & -> & Hv)%list_elem_of_fmap.
      rewrite Forall_forall in IH, Hw. etrans; [by apply (IH v Hv d), Hw|]. by apply join_length_in, list_elem_of_fmap_2. }
    rewrite !length_app. cbn. lia.
  - destruct d as [|d]; [done|]. cbn [well_formed] in Hw. apply wf_obj in Hw.
    assert (Hm : (max_list ((fun kv => height kv.2) <$> l) <= length (join_comma (member_text <$> l)))%nat).
    { apply max_list_bound. intros n (v & -> & Hv)%list_elem_of_fmap.
      rewrite Forall_forall in IH, Hw. etrans; [by apply (IH v Hv d), Hw|].
      etrans; [|by apply join_length_in, list_elem_of_fmap_2]. unfold member_text. rewrite !length_app. lia. }
    rewrite !length_app. change (fun kv => json_Marshal_string kv.1 ++ lit ":" ++ render kv.2) with member_text. cbn. lia.
Qed.

(** A text that begins like a number is read as one. *)
Lemma value_number n : number_ok n -> forall d fuel rest, stops rest ->
  value (S fuel) d (n ++ rest) = Some (JNum n, rest).
Proof.
  intros [(a & n' & -> & Ha) Hc] d fuel rest Hs. cbn [app value].
  assert (Hb : a = "-"%char \/ 48 <= byte_of a <= 57).
  { apply orb_true_iff in Ha as [Ha|Ha]; [right; by apply digit_range|left; by apply Ascii.eqb_eq]. }
  assert (Hne : forall b, (byte_of b =? 45) || is_digit b = false -> Ascii.eqb a b = false /\ Ascii.eqb b a = false).
  { intros b H1. rewrite (Ascii.eqb_sym b a), !Ascii.eqb_neq. cut (a <> b); [done|]. intros ->.
    destruct Hb as [->|]; [done|]. unfold is_digit in H1. lia. }
  rewrite (proj1 (Hne "{"%char eq_refl)), (proj1 (Hne "["%char eq_refl)), (proj1 (Hne dq eq_refl)).
  cbn [lit list_ascii_of_string strip].
  rewrite (proj2 (Hne "t"%char eq_refl)), (proj2 (Hne "f"%char eq_refl)), (proj2 (Hne "n"%char eq_refl)).
  change (a :: n' ++ rest) with ((a :: n') ++ rest). by rewrite Hc.
Qed.

(** An array whose elements are read is read. *)
Lemma value_array vs d fuel rest : Forall (reads (value fuel) d) vs ->
  value (S fuel) (S d) (render (JArr vs) ++ rest) = Some (JArr (cleaned <$> vs), rest).
Proof.
  intros Hall. cbn [render]. rewrite <- !app_assoc. cbn [lit list_ascii_of_string app value].
  change (Ascii.eqb "[" "{") with false. change (Ascii.eqb "[" "[") with true. cbv iota.
  destruct vs as [|v vs]; [done|]. set (text := join_comma _ ++ _).
  assert (Hlen : (length (v :: vs) <= length ("["%char :: text))%nat).
  { subst text. cbn [length]. rewrite length_app. pose proof (join_length_many (render <$> v :: vs)) as Hjl.
    rewrite length_fmap in Hjl. specialize (Hjl ltac:(intros x (w & -> & Hx)%list_elem_of_fmap;
      rewrite Forall_forall in Hall; by apply starts_length, Hall)). cbn [length] in *. lia. }
  pose proof (array_render (value fuel) d (length ("["%char :: text)) (v :: vs) rest Hall ltac:(done) Hlen) as Hread.
  change (join_comma (render <$> v :: vs) ++ lit "]" ++ rest) with text in Hread.
  assert (Hst : starts_value text).
  { pose proof Hall as [[(a & t & Heq & Hst) _] _]%Forall_cons. subst text. destruct vs; cbn [fmap list_fmap join_comma];
      rewrite Heq; eexists a, _; (split; [reflexivity|done]). }
  destruct Hst as (a & t & Heq & Hws & Hb & _). rewrite Heq at 1. cbn [skip_ws]. rewrite Hws, Hb.
  by rewrite Hread.
Qed.

Lemma value_object kvs d fuel rest : Forall (fun kv => reads (value fuel) d kv.2) kvs ->
  value (S fuel) (S d) (render (JObj kvs) ++ rest)
    = Some (JObj ((fun kv => (to_valid kv.1, cleaned kv.2)) <$> kvs), rest).
Proof.
  intros Hall. cbn [render]. rewrite <- !app_assoc. cbn [lit list_ascii_of_string app value].
  change (Ascii.eqb "{" "{") with true. cbv iota.
  change (fun kv => json_Marshal_string kv.1 ++ ":"%char :: render kv.2) with member_text.
  destruct kvs as [|kv kvs]; [done|]. set (text := join_comma _ ++ _).
  assert (Hlen : (length (kv :: kvs) <= length ("{"%char :: text))%nat).
  { subst text. cbn [length]. rewrite length_app. pose proof (join_length_many (member_text <$> kv :: kvs)) as Hjl.
    rewrite length_fmap in Hjl. specialize (Hjl ltac:(intros x (w & -> & Hx)%list_elem_of_fmap;
      unfold member_text, json_Marshal_string; cbn; lia)). cbn [length] in *. lia. }
  pose proof (object_render (value fuel) d (length ("{"%char :: text)) (kv :: kvs) rest Hall ltac:(done) Hlen) as Hread.
  change (join_comma (member_text <$> kv :: kvs) ++ lit "}" ++ rest) with text in Hread.
  assert (Hst : exists t, text = dq :: t).
  { subst text. destruct kvs; cbn [fmap list_fmap join_comma]; unfold member_text at 1, json_Marshal_string; eexists; reflexivity. }
  destruct Hst as (t & Heq). rewrite Heq at 1. cbn [skip_ws]. change (is_ws dq) with false. cbv iota.
  change (Ascii.eqb dq "}") with false. cbv iota. by rewrite Hread.
Qed.

(** The compact text of a value is read as the value. *)
Lemma value_render v : forall d fuel rest, well_formed d v -> (height v <= fuel)%nat -> stops rest ->
  value fuel d (render v ++ rest) = Some (cleaned v, rest).
Proof.
  induction v as [|b|n|s|l IH|l IH] using json_ind; intros d fuel rest Hw Hf Hs; (destruct fuel as [|fuel]; [cbn in Hf; lia|]).
  - done.
  - by destruct b.
  - by apply value_number.
  - cbn [render value]. unfold json_Marshal_string. cbn [app].
    change (Ascii.eqb dq "{") with false. change (Ascii.eqb dq "[") with false. change (Ascii.eqb dq dq) with true.
    cbv iota. rewrite <- app_assoc. cbn [app]. by rewrite marshal_back.
  - destruct d as [|d]; [done|]. cbn [well_formed] in Hw. apply wf_arr in Hw. apply value_array.
    apply Forall_forall. intros w Hw'. rewrite Forall_forall in IH, Hw. split; [by apply (render_starts d), Hw|].
    intros rest' Hs'. apply IH; [done|by apply Hw| |done]. cbn [height] in Hf.
    pose proof (max_list_in (height w) (height <$> l) ltac:(by apply list_elem_of_fmap_2)). lia.
  - destruct d as [|d]; [done|]. cbn [well_formed] in Hw. apply wf_obj in Hw. apply value_object.
    apply Forall_forall. intros w Hw'. rewrite Forall_forall in IH, Hw. split; [by apply (render_starts d), Hw|].
    intros rest' Hs'. apply IH; [done|by apply Hw| |done]. cbn [height] in Hf.
    pose proof (max_list_in (height w.2) ((fun kv => height kv.2) <$> l)
      ltac:(by apply (list_elem_of_fmap_2 (fun kv => height kv.2)))). lia.
Qed.

(** ** What the parser yields *)

(** Keys and strings made of whole runes. *)
Fixpoint whole (v : json) : Prop :=
  match v with
  | JStr s => utf8_ok s
  | JArr l => foldr (fun v P => whole v /\ P) True l
  | JObj l => foldr (fun kv P => (utf8_ok kv.1 /\ whole kv.2) /\ P) True l
  | _ => True
  end.

Lemma whole_arr l : foldr (fun v P => whole v /\ P) True l <-> Forall whole l.
Proof. induction l as [|v l IH]; cbn; [by split|]. by rewrite IH, Forall_cons. Qed.
Lemma whole_obj (l : list (bytes * json)) :
  foldr (fun kv P => (utf8_ok kv.1 /\ whole kv.2) /\ P) True l <-> Forall (fun kv => utf8_ok kv.1 /\ whole kv.2) l.
Proof. induction l as [|v l IH]; cbn; [by split|]. by rewrite IH, Forall_cons. Qed.

Section yields.
Variables (value : nat -> bytes -> option (json * bytes)) (d : nat).
Hypothesis value_ok : forall l v rest, value d l = Some (v, rest) -> well_formed d v /\ whole v.
#[local] Set Default Proof Using "Type*".

Lemma array_body_ok fuel l vs rest : array_body value fuel d l = Some (vs, rest) ->
  Forall (well_formed d) vs /\ Forall whole vs.
Proof.
  revert l vs. induction fuel as [|fuel IH]; intros l vs; cbn [array_body]; [done|].
  destruct (value d (skip_ws l)) as [[v l1]|] eqn:Hv; [|done]. cbn [mbind option_bind].
  apply value_ok in Hv as [Hw Hu]. destruct (skip_ws l1) as [|a l2]; [done|]. destruct (Ascii.eqb a ",").
  - destruct (array_body value fuel d l2) as [[vs' r]|] eqn:Hr; [|done]. cbn [mbind option_bind]. intros [= <- <-].
    destruct (IH _ _ Hr). split; by constructor.
  - destruct (Ascii.eqb a "]"); [|done]. intros [= <- <-]. split; by repeat constructor.
Qed.

Lemma object_body_ok fuel l kvs rest : object_body value fuel d l = Some (kvs, rest) ->
  Forall (fun kv => well_formed d kv.2) kvs /\ Forall (fun kv => utf8_ok kv.1 /\ whole kv.2) kvs.
Proof.
  revert l kvs. induction fuel as [|fuel IH]; intros l kvs; cbn [object_body]; [done|].
  destruct (skip_ws l) as [|q l1]; [done|]. destruct (negb (Ascii.eqb q dq)); [done|].
  destruct (string_body (length l1) l1) as [[k l2]|] eqn:Hk; [|done]. cbn [mbind option_bind]. apply string_body_ok in Hk.
  destruct (skip_ws l2) as [|c l3]; [done|]. destruct (negb (Ascii.eqb c ":")); [done|].
  destruct (value d (skip_ws l3)) as [[v l4]|] eqn:Hv; [|done]. cbn [mbind option_bind].
  apply value_ok in Hv as [Hw Hu]. destruct (skip_ws l4) as [|a l5]; [done|]. destruct (Ascii.eqb a ",").
  - destruct (object_body value fuel d l5) as [[kvs' r]|] eqn:Hr; [|done]. cbn [mbind option_bind]. intros [= <- <-].
    destruct (IH _ _ Hr). split; by constructor.
  - destruct (Ascii.eqb a "}"); [|done]. intros [= <- <-]. split; by repeat constructor.
Qed.
End yields.

Lemma value_yields fuel : forall d l v rest, value fuel d l = Some (v, rest) -> well_formed d v /\ whole v.
Proof.
  induction fuel as [|fuel IH]; intros d l v rest; cbn [value]; [done|]. destruct l as [|a l]; [done|].
  destruct (Ascii.eqb a "{").
  { destruct d as [|d]; [done|]. destruct (skip_ws l) as [|c r]; [done|].
    destruct (Ascii.eqb c "}"); [intros [= <- <-]; done|].
    destruct (object_body _ _ d l) as [[kvs r']|] eqn:Hk; [|done]. cbn [mbind option_bind]. intros [= <- <-].
    apply object_body_ok in Hk as [? ?]; [|by intros; eapply IH]. cbn [well_formed whole].
    split; [by apply wf_obj|by apply whole_obj]. }
  destruct (Ascii.eqb a "[").
  { destruct d as [|d]; [done|]. destruct (skip_ws l) as [|c r]; [done|].
    destruct (Ascii.eqb c "]"); [intros [= <- <-]; done|].
    destruct (array_body _ _ d l) as [[vs r']|] eqn:Hk; [|done]. cbn [mbind option_bind]. intros [= <- <-].
    apply array_body_ok in Hk as [? ?]; [|by intros; eapply IH]. cbn [well_formed whole].
    split; [by apply wf_arr|by apply whole_arr]. }
  destruct (Ascii.eqb a dq).
  { destruct (string_body (length l) l) as [[s r]|] eqn:Hs; [|done]. cbn [mbind option_bind]. intros [= <- <-].
    split; [done|by apply string_body_ok in Hs]. }
  destruct (strip (lit "true") (a :: l)); [by intros [= <- <-]|].
  destruct (strip (lit "false") (a :: l)); [by intros [= <- <-]|].
  destruct (strip (lit "null") (a :: l)); [by intros [= <- <-]|].
  destruct (number (a :: l)) as [[n r]|] eqn:Hn; [|done]. cbn [mbind option_bind]. intros [= <- <-].
  split; [by apply number_cut in Hn|done].
Qed.

Lemma json_parse_yields body v : json_parse body = Some v -> well_formed maxNestingDepth v /\ whole v.
Proof.
  unfold json_parse. destruct (value (length body) maxNestingDepth (skip_ws body)) as [[w rest]|] eqn:Hv; [|done].
  cbn [mbind option_bind]. case_bool_decide; [|done]. intros [= <-]. by apply value_yields in Hv.
Qed.

Lemma json_parse_render v : well_formed maxNestingDepth v -> json_parse (render v) = Some (cleaned v).
Proof.
  intros Hw. unfold json_parse. pose proof (render_starts _ _ Hw) as Hst.
  rewrite <- (app_nil_r (render v)), (skip_ws_id _ [] Hst).
  rewrite value_render; [done|done| |done]. rewrite app_nil_r. by apply (height_render maxNestingDepth).
Qed.

(** A value made of whole runes is its own. *)
Lemma cleaned_id v : whole v -> cleaned v = v.
Proof.
  induction v as [|b|n|s|l IH|l IH] using json_ind; intros Hw; cbn [cleaned]; try done.
  - by rewrite to_valid_id.
  - f_equal. cbn [whole] in Hw. apply whole_arr in Hw. rewrite <- (list_fmap_id l) at 2.
    apply list_fmap_ext. intros i w Hi%list_elem_of_lookup_2. rewrite Forall_forall in IH, Hw. by apply IH, Hw.
  - f_equal. cbn [whole] in Hw. apply whole_obj in Hw. rewrite <- (list_fmap_id l) at 2.
    apply list_fmap_ext. intros i [k w] Hi%list_elem_of_lookup_2. rewrite Forall_forall in IH, Hw.
    specialize (Hw _ Hi) as [Hk Hv]. cbn [fst snd] in *. rewrite to_valid_id by done. pose proof (IH (k, w) Hi Hv) as Hc. cbn [snd] in Hc. by rewrite Hc.
Qed.
