(* ===== verification/Boundaries.v ===== *)
(** * Boundaries between runes

    Stretches of a text, and where one may be cut so that both parts are UTF-8: the
    matcher of [GoRegexp] moves from rune to rune, so its matches and groups begin
    and end at such places, and [truncateUTF8Bytes] cuts there. *)

From Stdlib Require Import Ascii String.
From S2P Require Import Prelude GoStrings Utf8 MaskText GoRegexp GoJson Runes RuneBytes GoJsonThms.
From stdpp Require Import list.
Local Open Scope Z_scope.
Local Open Scope list_scope.

#[local] Ltac Zify.zify_post_hook ::= Z.to_euclidean_division_equations.

(** The bytes of [s] from [i] up to [j]. *)
Definition slice (i j : nat) (s : bytes) : bytes := take (j - i) (drop i s).

Lemma length_slice i j s : (j <= length s)%nat -> length (slice i j s) = (j - i)%nat.
Proof. intros Hj. unfold slice. rewrite length_firstn, length_drop. lia. Qed.

Lemma slice_slice a b i j s : (i <= j <= b - a)%nat -> slice i j (slice a b s) = slice (a + i) (a + j) s.
Proof.
  intros Hij. unfold slice. rewrite skipn_firstn_comm, drop_drop, take_take. f_equal. lia.
Qed.

Lemma drop_slice i j text : (i <= j)%nat -> drop i text = slice i j text ++ drop j text.
Proof.
  intros Hij. unfold slice. rewrite <- (take_drop (j - i) (drop i text)) at 1. rewrite drop_drop.
  by replace (i + (j - i))%nat with j by lia.
Qed.

(** ** Cancellation *)

Lemma utf8_inv l : utf8_ok l -> l = [] \/ exists r s, l = enc r ++ s /\ scalar r /\ utf8_ok s.
Proof. intros [|r s Hr Hs]; [by left|]. right. by exists r, s. Qed.

Lemma enc_front r r' s s' : scalar r -> scalar r' -> enc r ++ s = enc r' ++ s' -> r = r' /\ s = s'.
Proof.
  intros Hr Hr' Heq. pose proof (rune_at_enc r s Hr) as H1. rewrite Heq, (rune_at_enc r' s' Hr') in H1.
  injection H1 as -> _. split; [done|]. by apply app_inv_head in Heq.
Qed.

Lemma utf8_cancel x y : utf8_ok x -> utf8_ok (x ++ y) -> utf8_ok y.
Proof.
  induction 1 as [|r s Hr Hs IH]; [done|]. rewrite <- app_assoc. intros Hall.
  destruct (utf8_inv _ Hall) as [Hnil|(r' & s' & Heq & Hr' & Hs')].
  - apply app_eq_nil in Hnil as [Hn _]. pose proof (enc_length r Hr). rewrite Hn in *. cbn in *. lia.
  - apply enc_front in Heq as [_ <-]; [|done..]. by apply IH.
Qed.

(** ** Places between runes *)

Definition boundary (s : bytes) (i : nat) : Prop := (i <= length s)%nat /\ utf8_ok (take i s) /\ utf8_ok (drop i s).

Lemma boundary_0 s : utf8_ok s -> boundary s 0.
Proof. intros Hs. split; [lia|]. rewrite take_0, drop_0. by split; [constructor|]. Qed.
Lemma boundary_end s : utf8_ok s -> boundary s (length s).
Proof. intros Hs. split; [lia|]. rewrite take_ge, drop_ge by done. by split; [|constructor]. Qed.

Lemma boundary_step s i r size : boundary s i -> rune_at (drop i s) = Some (r, size) -> boundary s (i + size).
Proof.
  intros (Hi & Ht & Hd) Hr. pose proof (rune_at_size _ _ _ Hr) as Hsz. rewrite length_drop in Hsz.
  destruct (utf8_inv _ Hd) as [Hnil|(r' & s' & Heq & Hr' & Hs')]; [rewrite Hnil in Hr; done|].
  rewrite Heq, rune_at_enc in Hr by done. injection Hr as -> <-.
  split; [lia|]. rewrite <- drop_drop, Heq, drop_app_length. split; [|done].
  rewrite <- (take_drop i s), take_app_ge by (rewrite length_take; lia).
  rewrite length_take, Nat.min_l by lia. replace (i + length (enc r) - i)%nat with (length (enc r)) by lia.
  rewrite Heq, take_app_length. apply utf8_app; [done|by apply utf8_enc].
Qed.

Lemma take_slice i j (s : bytes) : (i <= j)%nat -> take i s ++ slice i j s = take j s.
Proof.
  intros Hij. unfold slice. rewrite <- (take_drop i (take j s)), take_take.
  replace (i `min` j)%nat with i by lia. f_equal. by rewrite skipn_firstn_comm.
Qed.

Lemma slice_drop i j (s : bytes) : (i <= j)%nat -> slice i j s ++ drop j s = drop i s.
Proof. intros Hij. symmetry. by apply drop_slice. Qed.

Lemma take_of_slice a b i (s : bytes) : (i <= b - a)%nat -> take i (slice a b s) = slice a (a + i) s.
Proof. intros Hi. unfold slice. rewrite take_take. f_equal. lia. Qed.

Lemma drop_of_slice a b i (s : bytes) : drop i (slice a b s) = slice (a + i) b s.
Proof. unfold slice. rewrite skipn_firstn_comm, drop_drop. f_equal. lia. Qed.

Lemma boundary_slice s i j : boundary s i -> boundary s j -> (i <= j)%nat -> utf8_ok (slice i j s).
Proof.
  intros (Hi & Hti & _) (Hj & Htj & _) Hij. apply (utf8_cancel (take i s)); [done|].
  by rewrite take_slice.
Qed.

(** A boundary of a stretch between two boundaries. *)
Lemma boundary_within s a b i : boundary s a -> boundary s b -> (a <= b)%nat -> boundary (slice a b s) i -> boundary s (a + i).
Proof.
  intros Ha Hb Hab (Hi & Ht & Hd). pose proof (length_slice a b s ltac:(apply Hb)) as Hlen. rewrite Hlen in Hi.
  destruct Ha as (Hal & Hta & _). destruct Hb as (Hbl & _ & Hdb). split; [lia|]. split.
  - rewrite take_of_slice in Ht by lia. rewrite <- (take_slice a (a + i)) by lia. by apply utf8_app.
  - rewrite drop_of_slice in Hd. rewrite <- (slice_drop (a + i) b) by lia. by apply utf8_app.
Qed.

(** ** ASCII bytes stand alone *)

Lemma enc_high r : scalar r -> 128 <= r -> Forall (fun a => 128 <= byte_of a) (enc r).
Proof.
  intros [Hr Hs] H1. assert (Hb : forall bs, Forall (fun b => 128 <= b < 256) bs -> Forall (fun a => 128 <= byte_of a) (of_byte <$> bs)).
  { intros bs0 Hall. apply Forall_fmap, (Forall_impl _ _ _ Hall). intros b Hb. cbn. rewrite byte_of_byte; lia. }
  apply Hb. destruct (Z.lt_ge_cases r 0x800) as [H2|H2].
  { rewrite (encode_2 r (r / 64) (r mod 64)) by lia. repeat constructor; lia. }
  destruct (Z.lt_ge_cases r 0x10000) as [H3|H3].
  { rewrite (encode_3 r (r / 4096) (r / 64 mod 64) (r mod 64)) by (lia || (apply andb_false_iff; rewrite !Z.leb_gt; lia)).
    repeat constructor; lia. }
  rewrite (encode_4 r (r / 262144) (r / 4096 mod 64) (r / 64 mod 64) (r mod 64)) by lia. repeat constructor; lia.
Qed.

Lemma ascii_boundary s p a : utf8_ok s -> s !! p = Some a -> byte_of a < 128 -> boundary s p /\ boundary s (S p).
Proof.
  intros Hs. revert p. induction Hs as [|r s Hr Hs IH]; intros p Hp Ha; [done|].
  assert (Hok : utf8_ok (enc r ++ s)) by by constructor.
  destruct (decide (p < length (enc r))%nat) as [Hlt|Hge].
  - rewrite lookup_app_l in Hp by done. destruct (Z.lt_ge_cases r 128) as [Hlo|Hhi].
    + rewrite enc_ascii in * by (destruct Hr; lia). cbn [length] in Hlt. assert (p = 0%nat) as -> by lia.
      split; [by apply boundary_0|]. pose proof (boundary_step _ 0 r 1 (boundary_0 _ Hok)) as Hb. apply Hb.
      rewrite drop_0. rewrite <- (enc_ascii r) by (destruct Hr; lia). rewrite rune_at_enc by done.
      by rewrite enc_ascii by (destruct Hr; lia).
    + pose proof (enc_high r Hr Hhi) as Hall. rewrite Forall_forall in Hall.
      specialize (Hall a ltac:(by eapply list_elem_of_lookup_2)). cbn in Hall. lia.
  - rewrite lookup_app_r in Hp by lia.
    assert (Hshift : forall q, boundary s q -> boundary (enc r ++ s) (length (enc r) + q)).
    { intros q (Hq & Ht & Hd). split; [rewrite length_app; lia|]. rewrite take_app_add, drop_app_add. split; [by constructor|done]. }
    destruct (IH _ Hp Ha) as [Hb1 Hb2]. apply Hshift in Hb1, Hb2.
    replace p with (length (enc r) + (p - length (enc r)))%nat by lia. split; [done|].
    replace (S (length (enc r) + (p - length (enc r)))) with (length (enc r) + S (p - length (enc r)))%nat by lia. done.
Qed.

Lemma ascii_utf8 l : Forall (fun a => byte_of a < 128) l -> utf8_ok l.
Proof.
  induction 1 as [|a l Ha _ IH]; [constructor|]. pose proof (byte_range a). destruct (enc_byte (byte_of a)) as [He Hsc]; [lia|].
  change (a :: l) with ([a] ++ l). rewrite <- (of_byte_of a), He. by constructor.
Qed.

(** ** The matcher stays between runes *)

Section positions.
Context {A : Type}.
Variables (s : bytes) (B : nat -> Prop).
Hypothesis B_step : forall i r size, B i -> rune_at (drop i s) = Some (r, size) -> B (i + size)%nat.
#[local] Set Default Proof Using "Type*".
Implicit Types k : nat -> caps -> option A.

Definition caps_at (c : caps) : Prop := Forall (fun g => B g.2.1 /\ B g.2.2) c.

Definition stays (r : regex) : Prop := forall i c k x, B i -> caps_at c -> rmatch s r i c k = Some x ->
  exists j c', B j /\ caps_at c' /\ k j c' = Some x.

Lemma star_stays g a : stays a -> forall fuel i c k x, B i -> caps_at c ->
  star_loop g (rmatch s a) k fuel i c = Some x -> exists j c', B j /\ caps_at c' /\ k j c' = Some x.
Proof.
  intros Ha. induction fuel as [|fuel IH]; intros i c k x Hi Hc Hm; cbn [star_loop] in Hm; [by exists i, c|].
  set (k' := fun j c => _) in Hm.
  assert (Hgo : rmatch s a i c k' = Some x -> exists j c', B j /\ caps_at c' /\ k j c' = Some x).
  { intros Hr. destruct (Ha _ _ _ _ Hi Hc Hr) as (j & c' & Hj & Hc' & Hk). unfold k' in Hk.
    destruct (i <? j)%nat; [|done]. by apply (IH j c'). }
  destruct g.
  - destruct (rmatch s a i c k') eqn:Hr; [apply Hgo; congruence|by exists i, c].
  - destruct (k i c) eqn:Hk; [exists i, c; by rewrite Hk|by apply Hgo].
Qed.

Lemma rmatch_stays r : stays r.
Proof.
  induction r as [|cl|a IHa b IHb|a IHa b IHb|g a IHa|n a IHa|]; intros i c k x Hi Hc Hm; cbn [rmatch] in Hm.
  - by exists i, c.
  - destruct (rune_at (drop i s)) as [[r size]|] eqn:Hr; [|done]. destruct (in_class r cl); [|done].
    exists (i + size)%nat, c. split; [by eapply B_step|done].
  - destruct (IHa _ _ _ _ Hi Hc Hm) as (j & c' & Hj & Hc' & Hb). by apply (IHb j c').
  - destruct (rmatch s a i c k) eqn:Ha; [simplify_eq; by apply (IHa i c)|by apply (IHb i c)].
  - by apply (star_stays g a IHa) in Hm.
  - destruct (IHa _ _ _ _ Hi Hc Hm) as (j & c' & Hj & Hc' & Hk). exists j, ((n, (i, j)) :: c').
    split; [done|]. split; [|done]. by constructor.
  - destruct (word_boundary s i); [|done]. by exists i, c.
Qed.
End positions.

Definition loc_at (s : bytes) (l : loc) : Prop :=
  boundary s (loc_start l) /\ boundary s (loc_end l) /\ caps_at (boundary s) (loc_caps l).

Lemma match_here_at s r i j c : boundary s i -> match_here s r i = Some (j, c) -> boundary s j /\ caps_at (boundary s) c.
Proof.
  intros Hi Hm. destruct (rmatch_stays s (boundary s) (boundary_step s) r i [] _ _ Hi ltac:(constructor) Hm) as (j' & c' & Hj & Hc & Hk).
  by simplify_eq.
Qed.

Lemma find_from_at s r fuel i a b c : boundary s i -> find_from s r fuel i = Some (a, b, c) ->
  boundary s a /\ boundary s b /\ caps_at (boundary s) c.
Proof.
  revert i. induction fuel as [|fuel IH]; intros i Hi; cbn [find_from];
    (destruct (match_here s r i) as [[j c']|] eqn:Hm; [intros ?; simplify_eq; split; [done|]; by eapply match_here_at|]); [done|].
  destruct (rune_at (drop i s)) as [[rn size]|] eqn:Hr; [|done]. apply IH. by eapply boundary_step.
Qed.

Lemma find_all_at s r fuel pos prev : boundary s pos -> Forall (loc_at s) (find_all s r fuel pos prev).
Proof.
  revert pos prev. induction fuel as [|fuel IH]; intros pos prev Hp; cbn [find_all]; [constructor|].
  destruct (find_from s r (length s) pos) as [[[a b] c]|] eqn:Hf; [|constructor].
  destruct (find_from_at _ _ _ _ _ _ _ Hp Hf) as (Ha & Hb & Hc). destruct (b =? pos)%nat.
  - assert (Hrest : Forall (loc_at s) match rune_at (drop pos s) with
      | Some (_, size) => find_all s r fuel (pos + size)%nat (Some b) | None => [] end).
    { destruct (rune_at (drop pos s)) as [[rn size]|] eqn:Hr; [|constructor]. apply IH. by eapply boundary_step. }
    case_bool_decide; [done|]. by constructor.
  - constructor; [done|by apply IH].
Qed.

Lemma group_at s n l i j : loc_at s l -> group_bounds n l = Some (i, j) -> boundary s i /\ boundary s j.
Proof.
  intros (Hs & He & Hc) Hg. destruct n as [|n]; cbn in Hg; [by simplify_eq|].
  destruct (list_find _ (loc_caps l)) as [[m g]|] eqn:Hf; [|done]. cbn in Hg. simplify_eq.
  apply list_find_Some in Hf as (Hin & _). apply list_elem_of_lookup_2 in Hin.
  unfold caps_at in Hc. rewrite Forall_forall in Hc. specialize (Hc _ Hin). by rewrite Hg in Hc.
Qed.

(** ** A text is cut between runes *)

(** A byte that begins a rune. *)
Definition lead (a : ascii) : Prop := byte_of a < 128 \/ 192 <= byte_of a.

(** The first byte of an encoding is a lead byte and the others are not. *)
Lemma enc_shape r : scalar r ->
  exists a t, enc r = a :: t /\ lead a /\ Forall (fun a => 128 <= byte_of a < 192) t.
Proof.
  intros [Hr Hs]. unfold lead, enc. destruct (Z.lt_ge_cases r 128) as [H1|H1].
  { rewrite encode_1 by lia. eexists _, []. split; [done|]. rewrite byte_of_byte by lia. split; [by left|constructor]. }
  assert (Hgo : forall b bs, 192 <= b < 256 -> Forall (fun b => 128 <= b < 192) bs ->
    exists a t, of_byte <$> (b :: bs) = a :: t /\ (byte_of a < 128 \/ 192 <= byte_of a) /\ Forall (fun a => 128 <= byte_of a < 192) t).
  { intros b bs Hb Hall. eexists _, _. split; [done|]. rewrite byte_of_byte by lia. split; [lia|].
    apply Forall_fmap, (Forall_impl _ _ _ Hall). intros c Hc. cbn. by rewrite byte_of_byte by lia. }
  destruct (Z.lt_ge_cases r 0x800) as [H2|H2].
  { rewrite (encode_2 r (r / 64) (r mod 64)) by lia. apply Hgo; [lia|]. repeat constructor; lia. }
  destruct (Z.lt_ge_cases r 0x10000) as [H3|H3].
  { rewrite (encode_3 r (r / 4096) (r / 64 mod 64) (r mod 64)) by (lia || (apply andb_false_iff; rewrite !Z.leb_gt; lia)).
    apply Hgo; [lia|]. repeat constructor; lia. }
  rewrite (encode_4 r (r / 262144) (r / 4096 mod 64) (r / 64 mod 64) (r mod 64)) by lia. apply Hgo; [lia|]. repeat constructor; lia.
Qed.

Lemma lead_boundary s p a : utf8_ok s -> s !! p = Some a -> lead a -> boundary s p.
Proof.
  intros Hs. revert p. induction Hs as [|r s Hr Hs IH]; intros p Hp Ha; [done|].
  assert (Hok : utf8_ok (enc r ++ s)) by by constructor.
  destruct (decide (p < length (enc r))%nat) as [Hlt|Hge].
  - rewrite lookup_app_l in Hp by done. destruct (enc_shape r Hr) as (b & t & He & _ & Hall).
    destruct p as [|p]; [by apply boundary_0|]. rewrite He in Hp. cbn in Hp. rewrite Forall_forall in Hall.
    specialize (Hall a ltac:(by eapply list_elem_of_lookup_2)). unfold lead in Ha. cbn in Hall. lia.
  - rewrite lookup_app_r in Hp by lia. destruct (IH _ Hp Ha) as (Hq & Ht & Hd).
    replace p with (length (enc r) + (p - length (enc r)))%nat by lia.
    split; [rewrite length_app; lia|]. rewrite take_app_add, drop_app_add. split; [by constructor|done].
Qed.

(** Where an encoding stands in a text of whole runes, it is a rune of it. *)
Lemma enc_boundary s p r t : utf8_ok s -> (p <= length s)%nat -> scalar r -> drop p s = enc r ++ t ->
  boundary s (p + length (enc r)).
Proof.
  intros Hs Hp Hr Hd. apply (boundary_step s p r); [|by rewrite Hd, rune_at_enc].
  destruct (enc_shape r Hr) as (a & u & He & Ha & _). apply (lead_boundary s p a); [done| |done].
  rewrite <- (Nat.add_0_r p), <- lookup_drop, Hd, He. done.
Qed.

Lemma list_str_take n s : list_ascii_of_string (str_take n s) = take n (list_ascii_of_string s).
Proof. revert s. induction n as [|n IH]; intros [|a s]; cbn; try done. by rewrite IH. Qed.
Lemma list_str_drop n s : list_ascii_of_string (str_drop n s) = drop n (list_ascii_of_string s).
Proof. revert s. induction n as [|n IH]; intros [|a s]; cbn; try done. Qed.
Lemma length_las s : length (list_ascii_of_string s) = String.length s.
Proof. induction s as [|a s IH]; cbn; congruence. Qed.

Lemma str_at_list i s b : str_at i s = Some b -> exists a, list_ascii_of_string s !! Z.to_nat i = Some a /\ b = byte_of a.
Proof.
  unfold str_at. intros Hb. destruct (str_drop (Z.to_nat i) s) as [|a t] eqn:Hd; [done|]. injection Hb as <-.
  exists a. split; [|done]. apply (f_equal list_ascii_of_string) in Hd. rewrite list_str_drop in Hd.
  rewrite <- (Nat.add_0_r (Z.to_nat i)), <- lookup_drop, Hd. done.
Qed.

(** What [DecodeLastRune] takes for a rune ends a text in its encoding. *)
Lemma DecodeLastRune_end s r size : DecodeLastRune s = (r, size) -> negb (r =? RuneError) || (1 <? size) = true ->
  (exists a, last (list_ascii_of_string s) = Some a /\ byte_of a < 128) \/
  (exists p, (p <= String.length s)%nat /\ scalar r /\ drop p (list_ascii_of_string s) = enc r).
Proof.
  unfold DecodeLastRune. destruct (str_at (slen s - 1) s) as [b|] eqn:Hb; [|by intros [= <- <-]].
  apply str_at_list in Hb as (a & Ha & ->). assert (Hlen : (0 < String.length s)%nat).
  { rewrite <- length_las. apply lookup_lt_Some in Ha. lia. }
  destruct (Z.ltb_spec (byte_of a) 128) as [Hlo|Hhi].
  { intros _ _. left. exists a. split; [|done]. rewrite last_lookup, length_las, <- Ha. f_equal. unfold slen. lia. }
  set (start := Z.max 0 _). destruct (DecodeRune (str_drop (Z.to_nat start) s)) as [r' n] eqn:Hd.
  destruct (Z.eqb_spec (start + n) (slen s)) as [Hend|]; cbn [negb]; [|by intros [= <- <-]].
  intros [= -> ->] Hok. right. pose proof (DecodeRune_bytes _ _ _ Hd) as [He|[[-> ->]|(-> & Hsc & rest & Hs)]]; [|done|].
  { rewrite He in Hd. unfold DecodeRune in Hd. cbn in Hd. injection Hd as <- <-. done. }
  exists (Z.to_nat start). pose proof (slen_nonneg s). split; [unfold slen in *; lia|]. split; [done|].
  apply (f_equal list_ascii_of_string) in Hs. rewrite list_str_drop, soa_of_bytes in Hs. fold (enc r) in Hs.
  pose proof (f_equal length Hs) as Hl. rewrite length_drop, length_app, length_las in Hl. unfold enc in Hl at 1.
  rewrite length_fmap in Hl. unfold slen in Hend. rewrite Hs. assert (list_ascii_of_string rest = []) as ->; [|by rewrite app_nil_r].
  apply nil_length_inv. lia.
Qed.

Lemma cut_rune_ok n text : utf8_ok (list_ascii_of_string text) -> utf8_ok (list_ascii_of_string (cut_rune n text)).
Proof.
  intros Hu. induction n as [|n IH]; cbn [cut_rune]; [constructor|].
  destruct (decide (String.length text <= S n)%nat) as [Hle|Hlt].
  { assert (Ht : list_ascii_of_string (str_take (S n) text) = list_ascii_of_string text).
    { rewrite list_str_take. apply take_ge. by rewrite length_las. }
    destruct (DecodeLastRune _). by destruct (_ || _); [rewrite Ht|]. }
  destruct (DecodeLastRune _) as [r size] eqn:Hd. destruct (_ || _) eqn:Hok; [|done].
  rewrite list_str_take. remember (list_ascii_of_string text) as s eqn:Hs.
  assert (Hn : (S n < length s)%nat) by (rewrite Hs, length_las; lia).
  enough (boundary s (S n)) as (_ & ? & _) by done.
  apply (DecodeLastRune_end _ _ _ Hd) in Hok as [(a & Ha & Hlo)|(p & Hp & Hr & He)]; rewrite list_str_take, <- Hs in *.
  - rewrite last_lookup, length_take_le in Ha by lia. cbn [pred] in Ha. rewrite lookup_take_lt in Ha by lia.
    by apply (ascii_boundary s n a).
  - assert (Hp' : (p <= S n)%nat) by (pose proof (Utf8.length_take (S n) text); lia).
    replace (S n) with (p + length (enc r))%nat; [apply (enc_boundary s p r (drop (S n) s)); [done|lia|done|]|].
    + rewrite <- (take_drop (S n) s) at 1. by rewrite drop_app_le, He by (rewrite length_take_le; lia).
    + rewrite <- He, length_drop, length_take_le by lia. lia.
Qed.

Lemma cut_rune_prefix n text : list_ascii_of_string (cut_rune n text) `prefix_of` list_ascii_of_string text.
Proof.
  induction n as [|n IH]; cbn [cut_rune]; [apply prefix_nil|]. destruct (DecodeLastRune _). destruct (_ || _); [|done].
  rewrite list_str_take. apply prefix_take.
Qed.
