(* ===== verification/MaskRules.v ===== *)
(** * Masking rules

    relay/mask/rules.go and the pre-check of relay/mask/engine.go: the built-in
    rules with their patterns, and the functions that tell a real number or
    credential from a look-alike. *)

From Stdlib Require Import Ascii String.
From S2P Require Import Prelude GoStrings Utf8 MaskText GoRegexp.
Local Open Scope list_scope.

(** [Rule] without the description, which is only shown. *)
Record Rule := mkRule { Label : bytes; Pattern : regex; Group : nat }.

(** ** Patterns *)

Definition digit : regex := cls [rng "0" "9"].
Definition alnum : list (Z * Z) := [rng "A" "Z"; rng "a" "z"; rng "0" "9"].
Definition spaces : list (Z * Z) := [(9, 10); (12, 13); (32, 32)].
Definition dquote : Z * Z := (34, 34).
Definition squote : Z * Z := (39, 39).
Definition backslash : Z * Z := (92, 92).
(** The quotation marks U+201C, U+201D and the corner brackets U+300C, U+300D. *)
Definition cjk_quotes : list (Z * Z) := [(0x201C, 0x201D); (0x300C, 0x300D)].

(** A class under [(?i)]. *)
Definition icls (rs : list (Z * Z)) : regex := cls (rs ≫= fold_range).

Definition private_key_re : regex :=
  cat [word "-----BEGIN "; opt (alt [word "RSA "; word "EC "; word "DSA "; word "OPENSSH "; word "PGP "]);
       word "PRIVATE KEY-----"; RCat (times 20 any_rune) (RStar false any_rune); word "-----END";
       star (ncls [one "-"]); word "PRIVATE KEY-----"].

Definition api_key_re : regex :=
  RCat RWordB (alt
    [RCat (cat [word "gh"; cls (ones "pousr"); word "_"]) (at_least 20 (cls (one "_" :: alnum)));
     RCat (word "github_pat_") (at_least 50 (cls (one "_" :: alnum)));
     RCat (word "AIza") (at_least 20 (cls (one "_" :: one "-" :: alnum)));
     RCat (cat [word "xox"; cls (ones "baprs"); word "-"]) (at_least 10 (cls (one "-" :: alnum)));
     RCat (word "sk-") (at_least 20 (cls (one "_" :: one "-" :: alnum)));
     RCat (cat [cls (ones "sr"); word "k_"; alt [word "live"; word "test"]; word "_"]) (at_least 20 (cls alnum));
     RCat (word "cli-") (at_least 10 (cls (one "_" :: one "-" :: alnum)));
     RCat (word "ding-") (at_least 10 (cls (one "_" :: one "-" :: alnum)))]).

Definition connstr_re : regex :=
  cat [RWordB; icls [rng "a" "z"]; star (icls (rng "a" "z" :: rng "0" "9" :: ones "+.-")); word "://";
       plus (ncls (spaces ++ ones ":@/")); word ":";
       RGroup 1 (at_least 4 (ncls (spaces ++ ones "@/"))); word "@"].

Definition dash_or_space : regex := opt (cls (one "-" :: spaces)).
Definition phone_re : regex :=
  cat [RAlt (RCat (word "+86") dash_or_space) (RCat RWordB (opt (RCat (word "86") dash_or_space)));
       word "1"; cls [rng "3" "9"]; digit; dash_or_space; times 4 digit; dash_or_space; times 4 digit; RWordB].

Definition email_re : regex :=
  cat [plus (cls (alnum ++ ones "._%+-")); word "@"; plus (cls (alnum ++ ones ".-")); word ".";
       at_least 2 (cls [rng "A" "Z"; rng "a" "z"])].

Definition idcard_re : regex :=
  cat [RWordB; cls [rng "1" "9"]; times 16 digit; cls (rng "0" "9" :: ones "Xx"); RWordB].

Definition card_re : regex := cat [RWordB; between 13 19 digit; RWordB].

Definition secret_words : list regex :=
  [iword "password"; iword "passwd"; iword "pwd"; iword "secret"; iword "token";
   cat [iword "api"; opt (cls (ones "_-")); iword "key"];
   cat [iword "access"; opt (cls (ones "_-")); iword "key"];
   cat [iword "private"; opt (cls (ones "_-")); iword "key"]].
Definition secret_words_cn : list string :=
  ["密码"; "口令"; "令牌"; "密钥"; "秘钥"; "密匙"; "凭据"; "凭证"; "私钥"; "授权码"; "访问密钥"; "接口密钥"].

(** Between quotes [q], with escapes; a dot matches no newline. *)
Definition quoted (q : Z * Z) : regex :=
  cat [cls [q]; star (alt [RCat (cls [backslash]) (ncls [(10, 10)]); ncls [q; backslash]]); cls [q]].
Definition cjk_quoted (o c : Z) : regex := cat [cls [(o, o)]; star (ncls [(c, c)]); cls [(c, c)]].

Definition secret_re : regex :=
  cat [alt (secret_words ++ (word <$> secret_words_cn));
       opt (cls (dquote :: squote :: cjk_quotes)); star (cls spaces);
       cls (one ":" :: one "=" :: [(0xFF1A, 0xFF1A); (0xFF1D, 0xFF1D)]); star (cls spaces);
       RGroup 1 (alt [quoted dquote; quoted squote; cjk_quoted 0x201C 0x201D; cjk_quoted 0x300C 0x300D;
         plus (ncls (dquote :: squote :: spaces ++ cjk_quotes ++ ones ",;{}[]"))])].

Definition base64url : list (Z * Z) := one "_" :: one "-" :: alnum.
Definition jwt_re : regex :=
  cat [word "eyJ"; at_least 10 (cls base64url); word "."; at_least 10 (cls base64url); word ".";
       at_least 6 (cls base64url)].

Definition bearer_bytes : list (Z * Z) := alnum ++ ones "._~+/-".
Definition token_re : regex :=
  cat [RWordB; iword "Bearer"; plus (cls spaces);
       RGroup 1 (cat [star (icls bearer_bytes); icls (rng "0" "9" :: ones "._~+/-"); star (icls bearer_bytes);
                      star (cls [one "="])])].

Definition hex : regex := cls [rng "0" "9"; rng "A" "F"; rng "a" "f"].
Definition mac_re : regex :=
  cat [RWordB;
       alt [RCat (times 2 hex) (at_least 5 (RCat (word ":") (times 2 hex)));
            RCat (times 2 hex) (times 5 (RCat (word "-") (times 2 hex)));
            RCat (times 4 hex) (times 2 (RCat (word ".") (times 4 hex)))];
       RWordB].

Definition uscc_class : list (Z * Z) :=
  [rng "0" "9"; rng "A" "H"; rng "J" "N"; rng "P" "R"] ++ ones "TUWXY".
Definition uscc_re : regex := cat [RWordB; times 18 (cls uscc_class); RWordB].

Definition BuiltinRules : list Rule :=
  [mkRule (lit "PRIVATE_KEY") private_key_re 0; mkRule (lit "API_KEY") api_key_re 0;
   mkRule (lit "CONNSTR") connstr_re 1; mkRule (lit "PHONE") phone_re 0; mkRule (lit "EMAIL") email_re 0;
   mkRule (lit "IDCARD") idcard_re 0; mkRule (lit "CARD") card_re 0; mkRule (lit "SECRET") secret_re 1;
   mkRule (lit "JWT") jwt_re 0; mkRule (lit "TOKEN") token_re 1; mkRule (lit "MAC") mac_re 0;
   mkRule (lit "USCC") uscc_re 0].

(** [BuiltinRuleMeta]: label and default, without the text shown. *)
Definition BuiltinRuleMeta : list (bytes * bool) :=
  [(lit "PRIVATE_KEY", false); (lit "API_KEY", false); (lit "CONNSTR", false); (lit "PHONE", false);
   (lit "EMAIL", false); (lit "IDCARD", false); (lit "CARD", false); (lit "SECRET", false);
   (lit "JWT", false); (lit "TOKEN", false); (lit "MAC", false); (lit "USCC", false)].

(** ** Validators *)

Definition is_digit_byte (a : ascii) : bool := (48 <=? byte_of a) && (byte_of a <=? 57).
Definition digits_of (s : bytes) : list Z := (fun a => byte_of a - 48) <$> filter (fun a => is_digit_byte a = true) s.

(** The sum of [luhnOK] over the digits from the last to the first. *)
Fixpoint luhn_sum (dbl : bool) (ds : list Z) : Z :=
  match ds with
  | [] => 0
  | d :: ds =>
      (if dbl then if 9 <? d * 2 then d * 2 - 9 else d * 2 else d) + luhn_sum (negb dbl) ds
  end.
Definition luhnOK (num : bytes) : bool :=
  let digits := digits_of num in
  if (length digits <? 12)%nat then false
  else luhn_sum false (rev digits) mod 10 =? 0.

Definition idcardW : list Z := [7; 9; 10; 5; 8; 4; 2; 1; 6; 3; 7; 9; 10; 5; 8; 4; 2].
Definition idcardCode : bytes := lit "10X98765432".
Definition idcardProvinces : list Z :=
  [11; 12; 13; 14; 15; 21; 22; 23; 31; 32; 33; 34; 35; 36; 37; 41; 42; 43; 44; 45; 46; 50; 51; 52; 53;
   54; 61; 62; 63; 64; 65; 71; 81; 82].

(** [strconv.Atoi] of digits. *)
Definition number_of (ds : list Z) : Z := foldl (fun n d => n * 10 + d) 0 ds.

(** The last day of a month of the proleptic Gregorian calendar. *)
Definition leap (y : Z) : bool := ((y mod 4 =? 0) && negb (y mod 100 =? 0)) || (y mod 400 =? 0).
Definition month_days (y m : Z) : Z :=
  if m =? 2 then if leap y then 29 else 28
  else if existsb (Z.eqb m) [4; 6; 9; 11] then 30 else 31.
(** [time.Date(y, m, d, ...)] keeps its arguments exactly when they are a day of
    the calendar; it carries over otherwise. *)
Definition real_date (y m d : Z) : bool := (1 <=? m) && (m <=? 12) && (1 <=? d) && (d <=? month_days y m).

(** The sum of the products with the weights. *)
Fixpoint weighted (ws ds : list Z) : Z :=
  match ws, ds with
  | w :: ws, d :: ds => d * w + weighted ws ds
  | _, _ => 0
  end.

(** The last character, a letter in upper case. *)
Definition idcard_last (a : ascii) : ascii :=
  if (97 <=? byte_of a) && (byte_of a <=? 122) then of_byte (byte_of a - 32) else a.

(** [now_year] is [time.Now().Year()]. *)
Definition idcard18OK (now_year : Z) (num : bytes) : bool :=
  if negb (length num =? 18)%nat then false else
  let body := take 17 num in
  if negb (forallb is_digit_byte body) then false else
  let ds := (fun a => byte_of a - 48) <$> body in
  if negb (existsb (Z.eqb (number_of (take 2 ds))) idcardProvinces) then false else
  let y := number_of (take 4 (drop 6 ds)) in
  let m := number_of (take 2 (drop 10 ds)) in
  let d := number_of (take 2 (drop 12 ds)) in
  if negb (real_date y m d) then false else
  if (y <? 1880) || (now_year <? y) then false else
  let total := weighted idcardW ds in
  bool_decide (idcardCode !! Z.to_nat (total mod 11) = idcard_last <$> num !! 17%nat).

Definition phoneOK (numStr : bytes) : bool :=
  let digits := digits_of numStr in
  let digits :=
    if (length digits =? 13)%nat && bool_decide (take 2 digits = [8; 6]) then drop 2 digits else digits in
  match digits with
  | d0 :: d1 :: _ =>
      if negb (length digits =? 11)%nat then false
      else if negb (d0 =? 1) || (d1 <? 3) || (9 <? d1) then false
      else negb (forallb (Z.eqb d0) (drop 1 digits))
  | _ => false
  end.

Definition trim_space (s : bytes) : bytes := list_ascii_of_string (TrimSpace (string_of_list_ascii s)).

(** What stands before and behind the last [a] of [l]. *)
Fixpoint split_last (a : ascii) (l : bytes) : option (bytes * bytes) :=
  match l with
  | [] => None
  | b :: l =>
      match split_last a l with
      | Some (x, y) => Some (b :: x, y)
      | None => if Ascii.eqb a b then Some ([], l) else None
      end
  end.
Definition first_is (a : ascii) (l : bytes) : bool := from_option (Ascii.eqb a) false (head l).
Definition last_is (a : ascii) (l : bytes) : bool := from_option (Ascii.eqb a) false (last l).

Definition emailOK (s : bytes) : bool :=
  let s := trim_space s in
  match split_last "@" s with
  | None => false
  | Some (local, domain) =>
      if first_is "@" s || last_is "@" s then false else
      if (length local <? 1)%nat || (length domain <? 3)%nat || negb (contains (lit ".") domain) then false else
      if first_is "." local || contains (lit "..") local || contains (lit "..") domain then false else
      if first_is "." domain || last_is "." domain then false else
      match split_last "." domain with
      | Some (_, tld) => (2 <=? length tld)%nat
      | None => false
      end
  end.

(** [base64.URLEncoding.DecodeString], from the padded text. *)
Definition base64_value (a : ascii) : option Z :=
  let b := byte_of a in
  if (65 <=? b) && (b <=? 90) then Some (b - 65)
  else if (97 <=? b) && (b <=? 122) then Some (b - 71)
  else if (48 <=? b) && (b <=? 57) then Some (b + 4)
  else if b =? 45 then Some 62 else if b =? 95 then Some 63 else None.

Fixpoint base64_decode (l : bytes) : option bytes :=
  match l with
  | [] => Some []
  | a :: b :: c :: d :: l =>
      va ← base64_value a; vb ← base64_value b;
      let b1 := of_byte (Z.lor (Z.shiftl va 2) (Z.shiftr vb 4)) in
      if Ascii.eqb c "=" then
        if Ascii.eqb d "=" && bool_decide (l = []) then Some [b1] else None
      else
        vc ← base64_value c;
        let b2 := of_byte (Z.land (Z.lor (Z.shiftl vb 4) (Z.shiftr vc 2)) 255) in
        if Ascii.eqb d "=" then if bool_decide (l = []) then Some [b1; b2] else None
        else
          vd ← base64_value d;
          let b3 := of_byte (Z.land (Z.lor (Z.shiftl vc 6) vd) 255) in
          rest ← base64_decode l; Some (b1 :: b2 :: b3 :: rest)
  | _ => None
  end.

(** Line breaks are skipped by the decoder. *)
Definition URLEncoding_Decode (l : bytes) : option bytes :=
  base64_decode (filter (fun a => negb ((byte_of a =? 10) || (byte_of a =? 13)) = true) l).

Fixpoint before_byte (a : ascii) (l : bytes) : option bytes :=
  match l with
  | [] => None
  | b :: l => if Ascii.eqb a b then Some [] else cons b <$> before_byte a l
  end.

Definition jwtOK (token : bytes) : bool :=
  match before_byte "." token with
  | None => false
  | Some head =>
      let pad := ((4 - length head mod 4) mod 4)%nat in
      match URLEncoding_Decode (head ++ repeat "="%char pad) with
      | None => false
      | Some decoded => contains ([of_byte 34] ++ lit "alg" ++ [of_byte 34]) decoded
      end
  end.

Definition is_letter (a : ascii) : bool :=
  let b := byte_of a in ((65 <=? b) && (b <=? 90)) || ((97 <=? b) && (b <=? 122)).
Definition secretOK (s : bytes) : bool := existsb (fun a => negb (is_letter a)) s.

Definition count_byte (a : ascii) (s : bytes) : nat := length (filter (fun b => Ascii.eqb a b = true) s).
Definition macOK (s : bytes) : bool :=
  if contains (lit ":") s then (count_byte ":" s =? 5)%nat else true.

Definition usccWeight : list Z := [1; 3; 9; 27; 19; 26; 16; 17; 20; 29; 25; 13; 8; 24; 10; 30; 28].
Definition usccVal (c : ascii) : Z :=
  let b := byte_of c in
  if (48 <=? b) && (b <=? 57) then b - 48
  else if (65 <=? b) && (b <=? 72) then b - 65 + 10
  else if (74 <=? b) && (b <=? 78) then b - 74 + 18
  else if (80 <=? b) && (b <=? 82) then b - 80 + 23
  else if (b =? 84) || (b =? 85) then b - 84 + 26
  else if b =? 87 then 28 else if b =? 88 then 29 else if b =? 89 then 30 else -1.

Definition usccOK (s : bytes) : bool :=
  if negb (length s =? 18)%nat then false else
  let vs := usccVal <$> take 17 s in
  if existsb (fun v => v <? 0) vs then false else
  let check := from_option usccVal (-1) (s !! 17%nat) in
  if check <? 0 then false
  else check =? (31 - weighted usccWeight vs mod 31) mod 31.

(** [builtinValidators]. *)
Definition builtinValidators (now_year : Z) (label : bytes) : option (bytes -> bool) :=
  snd <$> find (fun lv => bool_decide (lv.1 = label))
    [(lit "CARD", luhnOK); (lit "IDCARD", idcard18OK now_year); (lit "PHONE", phoneOK); (lit "EMAIL", emailOK);
     (lit "JWT", jwtOK); (lit "MAC", macOK); (lit "SECRET", secretOK); (lit "USCC", usccOK)].
