(* ===== verification/MaskEngine.v ===== *)
(** * The masking engine

    relay/mask/engine.go on one text: the pre-check of a rule, the candidates of
    all rules outside placeholders, their order, and the one pass that replaces
    those that do not overlap.  [maskCandidates] asks a [Recaller] for the tokens:
    the promise of a mapping of relay/mask/session.go, for which a mapping alone
    and a mapping inside the store are instances. *)

From Stdlib Require Import Ascii String.
From S2P Require Import Prelude GoStrings Utf8 MaskText MaskSession GoRegexp Boundaries MaskRules.
Local Open Scope list_scope.

(** ** Custom terms *)

(** [CustomTerm] without its category, which is only shown. *)
Notation CustomTerm := bytes (only parsing).

Definition is_ascii_word_byte (c : ascii) : bool :=
  let b := byte_of c in
  ((65 <=? b) && (b <=? 90)) || ((97 <=? b) && (b <=? 122)) || ((48 <=? b) && (b <=? 57)) || (b =? 95).
Definition isASCIIWord (s : bytes) : bool := forallb is_ascii_word_byte s.

(** The runes of [l]; [None] when it is not UTF-8. *)
Fixpoint utf8_runes (fuel : nat) (l : bytes) : option (list Z) :=
  match fuel, l with
  | _, [] => Some []
  | O, _ :: _ => None
  | S fuel, _ :: _ =>
      '(r, size) ← rune_at l;
      if (r =? RuneError) && (size =? 1)%nat then None
      else rs ← utf8_runes fuel (drop size l); Some (r :: rs)
  end.
Definition valid_runes (l : bytes) : option (list Z) := utf8_runes (length l) l.

(** [regexp.QuoteMeta] makes the value a literal; [MustCompile] panics, here
    [None], on a pattern that is not UTF-8. *)
Definition compileCustomTerm (value : bytes) : option regex :=
  rs ← valid_runes value;
  Some (if isASCIIWord value then cat [RWordB; runes_re rs; RWordB] else runes_re rs).

(** The cached table of compiled terms. *)
Notation TermTable := (gmap bytes regex).

Fixpoint table_hits (current : TermTable) (terms : list CustomTerm) : option Z :=
  match terms with
  | [] => Some 0
  | t :: terms =>
      if bool_decide (t = []) then table_hits current terms
      else match current !! t with
           | None => None
           | Some _ => (fun n => n + 1) <$> table_hits current terms
           end
  end.
Definition customTermTableHits (current : TermTable) (terms : list CustomTerm) : bool :=
  match table_hits current terms with
  | Some count => Z.of_nat (size current) =? count
  | None => false
  end.

Fixpoint compile_terms (current next : TermTable) (terms : list CustomTerm) : option TermTable :=
  match terms with
  | [] => Some next
  | t :: terms =>
      if bool_decide (t = []) then compile_terms current next terms else
      rx ← match current !! t with Some rx => Some rx | None => compileCustomTerm t end;
      compile_terms current (<[t := rx]> next) terms
  end.

(** The table for [terms], and the table left in the cache. *)
Definition customTermTable (current : TermTable) (terms : list CustomTerm) : option (TermTable * TermTable) :=
  if customTermTableHits current terms then Some (current, current)
  else next ← compile_terms current ∅ terms; Some (next, next).

(** ** The pre-check *)

Definition apiPrefixes : list bytes :=
  lit <$> ["ghp_"; "gho_"; "ghu_"; "ghs_"; "ghr_"; "github_pat_"; "AIza"; "xoxb-"; "xoxa-"; "xoxp-"; "xoxr-"; "xoxs-";
   "sk-"; "sk_live_"; "sk_test_"; "rk_live_"; "rk_test_"; "cli-"; "ding-"].
Definition secretKeywordsLower : list bytes :=
  lit <$> ["password"; "passwd"; "pwd"; "secret"; "token"; "api_key"; "api-key"; "apikey"; "access_key"; "access-key";
   "accesskey"; "private_key"; "private-key"; "privatekey"].
Definition secretKeywordsCN : list bytes :=
  lit <$> ["密码"; "口令"; "令牌"; "密钥"; "秘钥"; "密匙"; "凭据"; "凭证"; "私钥"; "授权码"; "访问密钥"; "接口密钥"].

Fixpoint count_reaches (p : ascii -> bool) (run : bool) (n cnt : nat) (text : bytes) : bool :=
  match text with
  | [] => false
  | c :: text =>
      if p c then (n <=? S cnt)%nat || count_reaches p run n (S cnt) text
      else count_reaches p run n (if run then O else cnt) text
  end.

(** Digits anywhere; letters and digits in a row. *)
Definition hasNDigits (text : bytes) (n : nat) : bool := count_reaches is_digit_byte false n 0 text.
Definition is_alnum_byte (c : ascii) : bool :=
  let b := byte_of c in
  ((48 <=? b) && (b <=? 57)) || ((65 <=? b) && (b <=? 90)) || ((97 <=? b) && (b <=? 122)).
Definition hasNAlnum (text : bytes) (n : nat) : bool := count_reaches is_alnum_byte true n 0 text.

Definition lower (text : bytes) : bytes := list_ascii_of_string (ToLower (string_of_list_ascii text)).
Definition contains_any (ws : list bytes) (text : bytes) : bool := existsb (fun w => contains w text) ws.

Definition ruleMayHit (text label : bytes) : bool :=
  if bool_decide (label = lit "PRIVATE_KEY") then contains (lit "PRIVATE KEY") text
  else if bool_decide (label = lit "API_KEY") then contains_any apiPrefixes text
  else if bool_decide (label = lit "CONNSTR") then contains (lit "://") text && contains (lit "@") text
  else if bool_decide (label = lit "EMAIL") then contains (lit "@") text
  else if bool_decide (label = lit "PHONE") then hasNDigits text 11
  else if bool_decide (label = lit "IDCARD") then hasNDigits text 17
  else if bool_decide (label = lit "CARD") then hasNDigits text 13
  else if bool_decide (label = lit "SECRET") then
    contains_any secretKeywordsLower (lower text) || contains_any secretKeywordsCN text
  else if bool_decide (label = lit "JWT") then contains (lit "eyJ") text
  else if bool_decide (label = lit "TOKEN") then contains (lit "bearer") (lower text)
  else if bool_decide (label = lit "MAC") then contains_any [lit ":"; lit "-"; lit "."] text
  else if bool_decide (label = lit "USCC") then hasNAlnum text 18
  else true.

(** ** Candidates *)

(** [PlaceholderRe.FindAllStringIndex]; [pos] is the place of [l] in the text. *)
Fixpoint placeholder_locs (fuel pos : nat) (l : bytes) : list (nat * nat) :=
  match fuel, l with
  | S fuel, _ :: l' =>
      match match_placeholder l with
      | Some n => (pos, (pos + n)%nat) :: placeholder_locs fuel (pos + n) (drop n l)
      | None => placeholder_locs fuel (S pos) l'
      end
  | _, _ => []
  end.

Fixpoint gaps (lastEnd stop : nat) (locs : list (nat * nat)) : list (nat * nat) :=
  match locs with
  | [] => if (lastEnd <? stop)%nat then [(lastEnd, stop)] else []
  | (a, b) :: locs => (if (lastEnd <? a)%nat then [(lastEnd, a)] else []) ++ gaps b stop locs
  end.

Definition nonPlaceholderRanges (text : bytes) : list (nat * nat) :=
  match placeholder_locs (length text) 0 text with
  | [] => [(0%nat, length text)]
  | locs => gaps 0 (length text) locs
  end.

Record cand := mkCand {
  origStart : nat; origEnd : nat; isTerm : bool; ruleIdx : nat; orig : bytes; rule_label : bytes }.

Section engine.
Variable now_year : Z.

(** One match of a rule in the segment that starts at [off]. *)
Definition candidate (off : nat) (seg : bytes) (i : nat) (rule : Rule) (l : loc) : option cand :=
  '(gs, ge) ← group_bounds (Group rule) l;
  let o := slice gs ge seg in
  if bool_decide (o = []) then None else
  if match builtinValidators now_year (Label rule) with Some ok => negb (ok o) | None => false end then None
  else Some (mkCand (off + gs) (off + ge) (bool_decide (Label rule = lit "TERM")) i o (Label rule)).

Definition rule_cands (off : nat) (seg : bytes) (i : nat) (rule : Rule) : list cand :=
  if ruleMayHit seg (Label rule)
  then omap (candidate off seg i rule) (FindAllSubmatchIndex (Pattern rule) seg)
  else [].

Definition range_cands (text : bytes) (rules : list Rule) (sr : nat * nat) : list cand :=
  concat (imap (rule_cands sr.1 (slice sr.1 sr.2 text)) rules).
Definition collect (text : bytes) (rules : list Rule) : list cand :=
  nonPlaceholderRanges text ≫= range_cands text rules.

(** The order of the replacement. *)
Definition cand_less (a b : cand) : bool :=
  if negb (origStart a =? origStart b)%nat then (origStart a <? origStart b)%nat
  else if xorb (isTerm a) (isTerm b) then isTerm a
  else if negb (origEnd a =? origEnd b)%nat then (origEnd b <? origEnd a)%nat
  else (ruleIdx a <? ruleIdx b)%nat.

(** [sort.SliceStable]. *)
Fixpoint insert_cand (c : cand) (cs : list cand) : list cand :=
  match cs with
  | [] => [c]
  | d :: cs' => if cand_less d c then d :: insert_cand c cs' else c :: cs
  end.
Definition sort_cands (cs : list cand) : list cand := foldr insert_cand [] cs.

(** The candidates that the loop does not skip. *)
Fixpoint select (lastEnd : nat) (cs : list cand) : list cand :=
  match cs with
  | [] => []
  | c :: cs => if (origStart c <? lastEnd)%nat then select lastEnd cs else c :: select (origEnd c) cs
  end.
End engine.

(** ** Replacement *)

Record Match := mkMatch { mt_label : bytes; mt_original : bytes; mt_placeholder : bytes }.

(** [recall o label] gives the token of a value, or panics ([None]), and the new
    state.  The laws say it is [Recall] on the mapping inside the state. *)
Class Recaller (St : Type) := {
  recall : bytes -> bytes -> St -> option bytes * St;
  mapping_of : St -> Mapping;
  recall_some : forall o label st token st', recall o label st = (Some token, st') ->
    exists random m' rest bound, Recall o label random (mapping_of st) = Some (token, m', rest, bound) /\
      m_forward (mapping_of st') = m_forward m' /\ m_reverse (mapping_of st') = m_reverse m';
  recall_panic : forall o label st st', recall o label st = (None, st') -> mapping_of st' = mapping_of st;
}.

Section replace.
Context `{Recaller St}.

(** The loop's own state: the matches reported and the values seen. *)
Record Report := mkReport { matches_of : list Match; seen : gset bytes }.

Definition note (label o token : bytes) (rep : Report) : Report :=
  if decide (o ∈ seen rep) then rep
  else mkReport (matches_of rep ++ [mkMatch label o token]) ({[o]} ∪ seen rep).

(** The loop over the sorted candidates: [prev] is where the copied text ends,
    which is also [lastEnd] once a candidate was replaced.  A panic loses the text. *)
Fixpoint replace_cands (text : bytes) (cs : list cand) (prev : nat) (rep : Report) (st : St)
  : option bytes * Report * St :=
  match cs with
  | [] => (Some (drop prev text), rep, st)
  | c :: cs =>
      if (origStart c <? prev)%nat then replace_cands text cs prev rep st else
      match recall (orig c) (rule_label c) st with
      | (None, st) => (None, rep, st)
      | (Some token, st) =>
          let '(rest, rep, st) :=
            replace_cands text cs (origEnd c) (note (rule_label c) (orig c) token rep) st in
          (app (slice prev (origStart c) text ++ token) <$> rest, rep, st)
      end
  end.

Definition maskCandidates (now_year : Z) (rules : list Rule) (text : bytes) (rep : Report) (st : St)
  : option bytes * Report * St :=
  if bool_decide (text = []) || bool_decide (rules = []) then (Some text, rep, st) else
  match collect now_year text rules with
  | [] => (Some text, rep, st)
  | cands => replace_cands text (sort_cands cands) 0 rep st
  end.
End replace.

(** ** Mappings that hand out tokens *)

(** A mapping on its own, with the random bytes that each call will read. *)
Definition recall_alone (o label : bytes) (st : Mapping * list (list Z)) : option bytes * (Mapping * list (list Z)) :=
  match st.2 with
  | [] => (None, st)
  | random :: rest =>
      match Recall o label random st.1 with
      | Some (token, m, _, _) => (Some token, (m, rest))
      | None => (None, (st.1, rest))
      end
  end.

Lemma recall_alone_some o label st token st' : recall_alone o label st = (Some token, st') ->
  exists random m' rest bound, Recall o label random st.1 = Some (token, m', rest, bound) /\
    m_forward st'.1 = m_forward m' /\ m_reverse st'.1 = m_reverse m'.
Proof.
  unfold recall_alone. destruct st as [m [|random rs]]; cbn; [done|].
  destruct (Recall o label random m) as [[[[t m'] rest] bound]|] eqn:Hr; [|done]. intros [= <- <-]. eauto 10.
Qed.

Lemma recall_alone_panic o label st st' : recall_alone o label st = (None, st') -> st'.1 = st.1.
Proof.
  unfold recall_alone. destruct st as [m [|random rs]]; cbn; [by intros [= <-]|].
  destruct (Recall o label random m) as [[[[t m'] rest] bound]|]; [done|]. by intros [= <-].
Qed.

#[export] Instance mapping_recaller : Recaller (Mapping * list (list Z)) :=
  { recall := recall_alone; mapping_of := fst;
    recall_some := recall_alone_some; recall_panic := recall_alone_panic }.
