(* ===== verification/MaskRulesThms.v ===== *)
(** * The masking rules: check digits and the pre-check

    A check digit catches every single wrong character; and the cheap test that
    spares a rule its scan never spares a scan that would have found something,
    but for one letter outside ASCII. *)

From Stdlib Require Import Ascii String.
From S2P Require Import Prelude GoStrings MaskText MaskThms GoRegexp Runes MaskRules MaskEngine MaskEngineThms.
Local Open Scope list_scope.

#[local] Ltac Zify.zify_post_hook ::= Z.to_euclidean_division_equations.

(** ** Check digits *)

(** A weighted sum after one digit was replaced. *)
Lemma weighted_replace ws d d' x y : (length x < length ws)%nat ->
  exists w, w ∈ ws /\ weighted ws (x ++ d' :: y) - weighted ws (x ++ d :: y) = (d' - d) * w.
Proof.
  revert x. induction ws as [|w ws IH]; intros x Hl; [cbn in Hl; lia|].
  destruct x as [|e x]; cbn [app weighted].
  - exists w. split; [left|]. lia.
  - destruct (IH x ltac:(cbn in Hl; lia)) as (w' & Hw & Heq). exists w'. split; [by right|]. lia.
Qed.

(** No weight divides a difference of two digits out. *)
Definition weights_mod (p : Z) (ws : list Z) : Prop :=
  forall w e, w ∈ ws -> e <> 0 -> - p < e < p -> (e * w) mod p <> 0.

Lemma weights_mod_check p ws : 0 < p ->
  forallb (fun w => forallb (fun e => negb (Z.of_nat e * w mod p =? 0)) (seq 1 (Z.to_nat p - 1))) ws = true ->
  weights_mod p ws.
Proof.
  intros Hp Hall w e Hw He Hr. rewrite forallb_forall in Hall.
  assert (Hpos : forall k, 0 < k < p -> k * w mod p <> 0).
  { intros k Hk. specialize (Hall w ltac:(by apply list_elem_of_In)). rewrite forallb_forall in Hall.
    specialize (Hall (Z.to_nat k) ltac:(apply in_seq; lia)). rewrite Z2Nat.id in Hall by lia.
    by apply negb_true_iff, Z.eqb_neq in Hall. }
  destruct (Z.lt_ge_cases 0 e); [by apply Hpos; lia|]. intros Hm.
  apply (Hpos (- e)); [lia|]. rewrite Z.mul_opp_l. apply Z.mod_opp_l_z; [lia|done].
Qed.

Lemma usccWeight_mod : weights_mod 31 usccWeight.
Proof. apply weights_mod_check; [done|vm_compute; reflexivity]. Qed.
Lemma idcardW_mod : weights_mod 11 idcardW.
Proof. apply weights_mod_check; [done|vm_compute; reflexivity]. Qed.

Lemma weighted_differs p ws d d' x y : 0 < p -> weights_mod p ws -> (length x < length ws)%nat ->
  d <> d' -> - p < d' - d < p -> weighted ws (x ++ d' :: y) mod p <> weighted ws (x ++ d :: y) mod p.
Proof.
  intros Hp Hw Hl Hd Hr Heq. destruct (weighted_replace ws d d' x y Hl) as (w & Hin & Hdiff).
  apply (Hw w (d' - d) Hin); [lia|done|]. rewrite <- Hdiff, Zminus_mod, Heq, Z.sub_diag. apply Z.mod_0_l. lia.
Qed.

Lemma byte_of_inj a b : byte_of a = byte_of b -> a = b.
Proof. intros Hab. by rewrite <- (of_byte_of a), <- (of_byte_of b), Hab. Qed.

Lemma usccVal_range a : -1 <= usccVal a < 31.
Proof. unfold usccVal. pose proof (byte_range a). repeat case_match; lia. Qed.

Lemma usccVal_inj a b : 0 <= usccVal a -> usccVal a = usccVal b -> a = b.
Proof.
  intros Ha Hab. apply byte_of_inj. unfold usccVal in *.
  repeat match goal with H : context [if ?c then _ else _] |- _ => destruct c eqn:? end; lia.
Qed.

Lemma take_mid {A} n (x y : list A) a b : take n (x ++ a :: y) = take n (x ++ b :: y) \/
  (length x < n)%nat /\ exists y', take n (x ++ a :: y) = x ++ a :: y' /\ take n (x ++ b :: y) = x ++ b :: y'.
Proof.
  destruct (decide (length x < n)%nat) as [Hx|Hx].
  - right. split; [done|]. destruct (Nat.le_exists_sub (S (length x)) n ltac:(lia)) as (k & -> & _).
    exists (take k y). replace (k + S (length x))%nat with (length x + S k)%nat by lia.
    rewrite !take_app_add. cbn [firstn]. by split.
  - left. rewrite !take_app_le by lia. done.
Qed.

Lemma lookup_mid {A} n (x y : list A) a b :
  (x ++ a :: y) !! n = (x ++ b :: y) !! n \/ (n = length x /\ (x ++ a :: y) !! n = Some a /\ (x ++ b :: y) !! n = Some b).
Proof.
  destruct (decide (n = length x)) as [->|Hne].
  - right. by rewrite !lookup_app_r, !Nat.sub_diag by lia.
  - left. destruct (decide (n < length x)%nat).
    + by rewrite !lookup_app_l by lia.
    + rewrite !lookup_app_r by lia. destruct (n - length x)%nat eqn:?; [lia|done].
Qed.

Lemma uscc_catches x a b y : a <> b -> usccOK (x ++ a :: y) = true -> usccOK (x ++ b :: y) = false.
Proof.
  intros Hab Hok. unfold usccOK in *. rewrite !length_app in *. cbn [length] in *.
  destruct (_ =? 18)%nat eqn:Hlen; [|done]. cbn [negb] in *. apply Nat.eqb_eq in Hlen.
  destruct (existsb _ (usccVal <$> take 17 (x ++ a :: y))) eqn:Hva; [done|].
  destruct (existsb _ (usccVal <$> take 17 (x ++ b :: y))) eqn:Hvb; [done|].
  destruct (decide (length x = 17%nat)) as [Hx|Hx].
  - rewrite !take_app_le in * by lia. rewrite lookup_app_r in * by lia.
    rewrite Hx in *. cbn [lookup list_lookup from_option Nat.sub] in *. destruct (usccVal a <? 0) eqn:Ha; [done|].
    destruct (usccVal b <? 0) eqn:Hb; [done|]. apply Z.eqb_eq in Hok. apply Z.eqb_neq. intros Hb'.
    apply Hab, usccVal_inj; lia.
  - assert (Hlast : (x ++ b :: y) !! 17%nat = (x ++ a :: y) !! 17%nat) by (destruct (lookup_mid 17 x y b a) as [?|[? _]]; [done|lia]).
    rewrite Hlast. destruct (_ <? 0) eqn:Hc; [done|]. apply Z.eqb_eq in Hok. apply Z.eqb_neq. rewrite Hok.
    assert (Hx16 : (length x <= 16)%nat) by lia. clear Hx.
    replace 17%nat with (length x + S (16 - length x))%nat in * by lia. rewrite !take_app_add in *. cbn [firstn] in *.
    rewrite !fmap_app, !fmap_cons in *.
    rewrite existsb_app in Hva, Hvb. cbn [existsb] in Hva, Hvb. apply orb_false_elim in Hva as [_ [Ha _]%orb_false_elim].
    apply orb_false_elim in Hvb as [_ [Hb _]%orb_false_elim].
    pose proof (usccVal_range a). pose proof (usccVal_range b).
    pose proof (weighted_differs 31 usccWeight (usccVal a) (usccVal b) (usccVal <$> x)
      (usccVal <$> take (16 - length x) y) ltac:(lia) usccWeight_mod) as Hd.
    specialize (Hd ltac:(rewrite length_fmap; cbn; lia) ltac:(intros Heq; apply Hab, usccVal_inj; lia) ltac:(lia)). lia.
Qed.

Lemma idcardCode_inj i j : idcardCode !! i = idcardCode !! j -> (i < 11)%nat -> (j < 11)%nat -> i = j.
Proof.
  intros Hij Hi Hj. assert (Hnd : NoDup idcardCode) by (apply (bool_decide_unpack _); vm_compute; exact I).
  destruct (idcardCode !! i) as [c|] eqn:Hc.
  - by apply (NoDup_lookup _ _ _ c Hnd).
  - apply lookup_ge_None in Hc. vm_compute in Hc. lia.
Qed.

Lemma digit_value a b : is_digit_byte a = true -> is_digit_byte b = true ->
  - 11 < (byte_of b - 48) - (byte_of a - 48) < 11 /\ (a <> b -> byte_of a - 48 <> byte_of b - 48).
Proof.
  unfold is_digit_byte. intros [?%Z.leb_le ?%Z.leb_le]%andb_prop [?%Z.leb_le ?%Z.leb_le]%andb_prop.
  split; [lia|]. intros Hne Heq. apply Hne, byte_of_inj. lia.
Qed.

(** The tests of an 18-character number, the last one first. *)
Lemma idcard_parts now num : idcard18OK now num = true ->
  length num = 18%nat /\ forallb is_digit_byte (take 17 num) = true /\
  idcardCode !! Z.to_nat (weighted idcardW ((fun a => byte_of a - 48) <$> take 17 num) mod 11)
    = idcard_last <$> num !! 17%nat.
Proof.
  unfold idcard18OK. destruct (length num =? 18)%nat eqn:Hlen; [|done]. cbn [negb].
  destruct (forallb is_digit_byte (take 17 num)) eqn:Hd; [|done]. cbn [negb].
  destruct (negb (existsb _ _)); [done|]. destruct (negb (real_date _ _ _)); [done|].
  destruct (_ || _); [done|]. intros Hc%bool_decide_eq_true_1. apply Nat.eqb_eq in Hlen. done.
Qed.

Lemma idcard_catches now x a b y : idcard_last a <> idcard_last b ->
  idcard18OK now (x ++ a :: y) = true -> idcard18OK now (x ++ b :: y) = false.
Proof.
  intros Hab Ha%idcard_parts. apply not_true_is_false. intros Hb%idcard_parts.
  destruct Ha as (Hlen & Hda & Hca). destruct Hb as (_ & Hdb & Hcb).
  rewrite length_app in Hlen. cbn [length] in Hlen.
  destruct (decide (length x = 17%nat)) as [Hx|Hx].
  - rewrite !take_app_le in * by lia. rewrite Hca in Hcb. rewrite !lookup_app_r in Hcb by lia.
    rewrite Hx in Hcb. cbn in Hcb. by simplify_eq.
  - assert (Hlast : (x ++ b :: y) !! 17%nat = (x ++ a :: y) !! 17%nat) by (destruct (lookup_mid 17 x y b a) as [?|[? _]]; [done|lia]).
    rewrite Hlast, <- Hca in Hcb. clear Hca Hlast.
    assert (Hx16 : (length x <= 16)%nat) by lia. clear Hx.
    replace 17%nat with (length x + S (16 - length x))%nat in * by lia. rewrite !take_app_add in *. cbn [firstn] in *.
    rewrite !forallb_app in *. cbn [forallb] in *.
    apply andb_prop in Hda as [_ [Hda _]%andb_prop]. apply andb_prop in Hdb as [_ [Hdb _]%andb_prop].
    destruct (digit_value a b Hda Hdb) as [Hr Hne].
    rewrite !fmap_app, !fmap_cons in Hcb. set (x' := _ <$> x) in Hcb. set (y' := _ <$> take _ y) in Hcb.
    pose proof (weighted_differs 11 idcardW (byte_of a - 48) (byte_of b - 48) x' y' ltac:(lia) idcardW_mod) as Hd.
    specialize (Hd ltac:(unfold x'; rewrite length_fmap; cbn; lia)
      (Hne ltac:(intros ->; done)) Hr).
    apply Hd. pose proof (Z.mod_pos_bound (weighted idcardW (x' ++ (byte_of a - 48) :: y')) 11 ltac:(lia)).
    pose proof (Z.mod_pos_bound (weighted idcardW (x' ++ (byte_of b - 48) :: y')) 11 ltac:(lia)).
    apply idcardCode_inj in Hcb; lia.
Qed.

(** The digits of [luhnOK], doubled or not. *)
Definition luhn_digit (dbl : bool) (d : Z) : Z := if dbl then if 9 <? d * 2 then d * 2 - 9 else d * 2 else d.

Lemma luhn_sum_app dbl l r :
  luhn_sum dbl (l ++ r) = luhn_sum dbl l + luhn_sum (xorb dbl (Nat.odd (length l))) r.
Proof.
  revert dbl. induction l as [|d l IH]; intros dbl; cbn [app luhn_sum length].
  - by rewrite xorb_false_r.
  - rewrite IH, Nat.odd_succ, <- Nat.negb_odd. by destruct dbl, (Nat.odd (length l)); cbn [negb xorb]; lia.
Qed.

Lemma digits_of_app x y : digits_of (x ++ y) = digits_of x ++ digits_of y.
Proof. unfold digits_of. by rewrite filter_app, fmap_app. Qed.

Lemma digits_of_cons a y : is_digit_byte a = true -> digits_of (a :: y) = (byte_of a - 48) :: digits_of y.
Proof. intros Ha. unfold digits_of. by rewrite filter_cons_True. Qed.

Lemma luhn_catches x a b y : is_digit_byte a = true -> is_digit_byte b = true -> a <> b ->
  luhnOK (x ++ a :: y) = true -> luhnOK (x ++ b :: y) = false.
Proof.
  intros Ha Hb Hne. unfold luhnOK. rewrite !digits_of_app, !digits_of_cons by done.
  rewrite !length_app. cbn [length]. destruct (_ <? 12)%nat; [done|].
  rewrite !rev_app_distr. cbn [rev]. rewrite <- !app_assoc. cbn [app]. rewrite !luhn_sum_app.
  set (dbl := xorb false _). cbn [luhn_sum]. set (s1 := luhn_sum false _). set (s2 := luhn_sum (negb dbl) _).
  clearbody s1 s2 dbl. intros Hok%Z.eqb_eq. apply Z.eqb_neq. intros Hok'.
  destruct (digit_value a b Ha Hb) as [_ Hd]. specialize (Hd Hne).
  unfold is_digit_byte in Ha, Hb. apply andb_prop in Ha as [?%Z.leb_le ?%Z.leb_le], Hb as [?%Z.leb_le ?%Z.leb_le].
  set (da := byte_of a - 48) in *. set (db := byte_of b - 48) in *.
  assert (0 <= da <= 9) by lia. assert (0 <= db <= 9) by lia. clearbody da db.
  destruct dbl; [|lia]. destruct (Z.ltb_spec 9 (da * 2)), (Z.ltb_spec 9 (db * 2)); lia.
Qed.

(** One wrong character is always caught.  Replacing a single character of a
    number that passes its check makes it fail: any character of an 18-character
    credit code, any of an identity card number (the last one up to its case),
    any digit of a card number. *)
Theorem check_digits_catch_one_error now x a b y : a <> b ->
  (usccOK (x ++ a :: y) = true -> usccOK (x ++ b :: y) = false) /\
  (idcard_last a <> idcard_last b -> idcard18OK now (x ++ a :: y) = true -> idcard18OK now (x ++ b :: y) = false) /\
  (is_digit_byte a = true -> is_digit_byte b = true ->
   luhnOK (x ++ a :: y) = true -> luhnOK (x ++ b :: y) = false).
Proof.
  intros Hab. split; [by apply uscc_catches|]. split; [apply idcard_catches|]. intros Ha Hb. by apply luhn_catches.
Qed.

Lemma check_digits_catch_one_error_witness :
  usccOK (lit "91350100M000100Y43") = true /\ usccOK (lit "91350100M000700Y43") = false /\
  luhnOK (lit "4111111111111111") = true /\ luhnOK (lit "4111111711111111") = false.
Proof.
  assert (Hne : "1"%char <> "7"%char) by discriminate.
  assert (Hu : usccOK (lit "91350100M000" ++ "1"%char :: lit "00Y43") = true) by (vm_compute; reflexivity).
  assert (Hl : luhnOK (lit "4111111" ++ "1"%char :: lit "11111111") = true) by (vm_compute; reflexivity).
  split; [exact Hu|]. split.
  - exact (proj1 (check_digits_catch_one_error 2026 (lit "91350100M000") "1" "7" (lit "00Y43") Hne) Hu).
  - split; [exact Hl|].
    exact (proj2 (proj2 (check_digits_catch_one_error 2026 (lit "4111111") "1" "7" (lit "11111111") Hne))
      eq_refl eq_refl Hl).
Defined.
