(* ===== verification/MaskPrecheck.v ===== *)
(** * The masking rules: the pre-check

    [ruleMayHit] spares a rule the scan of a text that lacks what every match of
    the rule holds.  Here that is proved of every built-in pattern, by analyses of
    patterns that are sound for their language: a lower bound on the digits of a
    match, and the strings of a finite part. *)

From Stdlib Require Import Ascii String.
From S2P Require Import Prelude GoStrings Utf8 MaskText MaskThms GoRegexp GoJson Runes RuneBytes Boundaries MaskRules MaskEngine MaskEngineThms.
From stdpp Require Import list.
Local Open Scope Z_scope.
Local Open Scope list_scope.

(** ** Lower bounds on the bytes of a kind *)

(** Every rune of the class is an ASCII character of [rs]. *)
Definition class_in (rs : list (Z * Z)) (c : class) : bool :=
  negb (c_neg c) &&
  forallb (fun lohi => existsb (fun r => (r.1 <=? lohi.1) && (lohi.2 <=? r.2)) rs && (0 <=? lohi.1) && (lohi.2 <? 128)) (c_ranges c).

Lemma class_in_spec rs c r : class_in rs c = true -> in_class r c = true -> in_ranges r rs = true /\ 0 <= r < 128.
Proof.
  unfold class_in, in_class, in_ranges. destruct (c_neg c); [done|]. cbn [negb andb].
  rewrite forallb_forall. intros Hall Hx.
  destruct (existsb _ (c_ranges c)) eqn:Hr0; [|done]. clear Hx.
  apply existsb_exists in Hr0 as (lohi & Hin & Hr).
  specialize (Hall lohi Hin). apply andb_prop in Hall as [[Hall ?]%andb_prop ?].
  apply existsb_exists in Hall as (r0 & Hr0 & Hsub). apply andb_prop in Hr as [? ?], Hsub as [? ?].
  split; [|lia]. apply existsb_exists. exists r0. split; [done|]. lia.
Qed.

Fixpoint min_count (rs : list (Z * Z)) (r : regex) : nat :=
  match r with
  | RClass c => if class_in rs c then 1 else 0
  | RCat a b => min_count rs a + min_count rs b
  | RAlt a b => min_count rs a `min` min_count rs b
  | RGroup _ a => min_count rs a
  | REmpty | RStar _ _ | RWordB => 0
  end%nat.

Definition count_of (rs : list (Z * Z)) (l : bytes) : nat := length (filter (fun a => in_ranges (byte_of a) rs = true) l).

Lemma count_of_app rs x y : count_of rs (x ++ y) = (count_of rs x + count_of rs y)%nat.
Proof. unfold count_of. by rewrite filter_app, length_app. Qed.

Lemma slice_cut i j k s : (i <= j <= k)%nat -> slice i k s = slice i j s ++ slice j k s.
Proof.
  intros Hij. unfold slice. rewrite <- (take_drop (j - i) (take (k - i) (drop i s))).
  rewrite take_take, skipn_firstn_comm, drop_drop.
  replace ((j - i) `min` (k - i))%nat with (j - i)%nat by lia.
  replace (k - i - (j - i))%nat with (k - j)%nat by lia. by replace (i + (j - i))%nat with j by lia.
Qed.

Lemma slice_front i size s : slice i (i + size) s = take size (drop i s).
Proof. unfold slice. f_equal. lia. Qed.

Lemma min_count_sound rs s r i j : matches s r i j -> (i <= length s)%nat ->
  (min_count rs r <= count_of rs (slice i j s))%nat.
Proof.
  induction 1 as [i|c i rune size Hr Hc|a b i j k Ha IHa Hb IHb|a b i j Ha IHa|a b i j Hb IHb| |
    g a i j k Hij Ha IHa Hs IHs|n a i j Ha IHa|]; intros Hi; cbn [min_count]; try lia.
  - destruct (class_in rs c) eqn:Hci; [|lia]. destruct (class_in_spec _ _ _ Hci Hc) as [Hin Hascii].
    rewrite slice_front. destruct (rune_at_bytes _ _ _ Hr) as (_ & _ & ->); [unfold RuneError; lia|].
    rewrite enc_ascii by done. unfold count_of. rewrite filter_cons_True; [cbn; lia|]. by rewrite byte_of_byte by lia.
  - pose proof (matches_bounds _ _ _ _ Ha Hi). pose proof (matches_bounds _ _ _ _ Hb ltac:(lia)).
    rewrite (slice_cut i j k), count_of_app by lia. specialize (IHa Hi). specialize (IHb ltac:(lia)). lia.
Qed.

(** The digits of the text are at least those of a match. *)
Lemma slice_split i j s : (i <= j <= length s)%nat -> s = take i s ++ slice i j s ++ drop j s.
Proof. intros Hij. rewrite <- drop_slice by lia. symmetry. apply take_drop. Qed.

Definition ascii_digits : list (Z * Z) := [(48, 57)].
Lemma count_reaches_digits n cnt text : (cnt < n)%nat ->
  (n <= cnt + count_of ascii_digits text)%nat -> count_reaches is_digit_byte false n cnt text = true.
Proof.
  revert cnt. induction text as [|c text IH]; intros cnt Hc Hn.
  { unfold count_of in Hn. cbn in Hn. lia. }
  cbn [count_reaches]. assert (Hd : in_ranges (byte_of c) ascii_digits = is_digit_byte c).
  { unfold in_ranges, is_digit_byte, ascii_digits. cbn [existsb fst snd]. by rewrite orb_false_r. }
  unfold count_of in Hn. destruct (is_digit_byte c) eqn:Hdc.
  - rewrite filter_cons_True in Hn by done. cbn [length] in Hn. fold (count_of ascii_digits text) in Hn.
    destruct (n <=? S cnt)%nat eqn:Hle; [done|]. apply Nat.leb_gt in Hle. cbn [orb]. apply IH; lia.
  - rewrite filter_cons_False in Hn by congruence. by apply IH.
Qed.

Lemma digits_sound r s i j n : matches s r i j -> (i <= length s)%nat -> (0 < n <= min_count ascii_digits r)%nat ->
  hasNDigits s n = true.
Proof.
  intros Hm Hi Hn. apply count_reaches_digits; [lia|]. pose proof (matches_bounds _ _ _ _ Hm Hi).
  pose proof (min_count_sound ascii_digits _ _ _ _ Hm Hi).
  rewrite (slice_split i j s), !count_of_app by lia. lia.
Qed.

(** ** Finite parts *)

Definition range_runes (lohi : Z * Z) : list Z := (fun n => lohi.1 + Z.of_nat n) <$> seq 0 (Z.to_nat (lohi.2 - lohi.1 + 1)).

(** The runes of a small class. *)
Definition class_runes (c : class) : option (list Z) :=
  if c_neg c || existsb (fun lohi => 8 <? lohi.2 - lohi.1) (c_ranges c) || in_ranges RuneError (c_ranges c) then None
  else Some (c_ranges c ≫= range_runes).

Lemma class_runes_spec c rs r : class_runes c = Some rs -> in_class r c = true -> r ∈ rs /\ r <> RuneError.
Proof.
  unfold class_runes, in_class. destruct (c_neg c); [done|]. cbn [orb].
  destruct (existsb _ _); [done|]. cbn [orb]. destruct (in_ranges RuneError _) eqn:He; [done|].
  intros [= <-] Hr. destruct (in_ranges r (c_ranges c)) eqn:Hin; [|done]. split; [|by intros ->; congruence].
  apply existsb_exists in Hin as (lohi & Hin & Hb). apply andb_prop in Hb as [? ?].
  apply list_elem_of_bind. exists lohi. split; [|by apply list_elem_of_In].
  apply list_elem_of_fmap. exists (Z.to_nat (r - lohi.1)). split; [lia|]. apply elem_of_seq. lia.
Qed.

(** The strings of a finite pattern. *)
Fixpoint exact (r : regex) : option (list bytes) :=
  match r with
  | REmpty | RWordB => Some [[]]
  | RClass c => rs ← class_runes c; Some (fmap (M := list) enc rs)
  | RCat a b => la ← exact a; lb ← exact b; Some (mbind (M := list) (fun x => app x <$> lb) la)
  | RAlt a b => la ← exact a; lb ← exact b; Some (la ++ lb)
  | RGroup _ a => exact a
  | RStar _ _ => None
  end.

Lemma slice_nil i s : slice i i s = [].
Proof. unfold slice. by rewrite Nat.sub_diag. Qed.

Lemma exact_sound s r i j : matches s r i j -> (i <= length s)%nat -> forall l, exact r = Some l -> slice i j s ∈ l.
Proof.
  induction 1 as [i|c i rune size Hr Hc|a b i j k Ha IHa Hb IHb|a b i j Ha IHa|a b i j Hb IHb| |
    g a i j k Hij Ha IHa Hs IHs|n a i j Ha IHa|]; intros Hi l Hl; cbn [exact] in Hl; try done.
  - simplify_eq. rewrite slice_nil. left.
  - destruct (class_runes c) as [rs|] eqn:Hrs; [|done]. cbn in Hl. simplify_eq.
    destruct (class_runes_spec _ _ _ Hrs Hc) as [Hin Hne]. rewrite slice_front.
    destruct (rune_at_bytes _ _ _ Hr Hne) as (_ & _ & ->). by apply list_elem_of_fmap_2.
  - destruct (exact a) as [la|]; [|done]. destruct (exact b) as [lb|]; [|done]. cbn in Hl. simplify_eq.
    pose proof (matches_bounds _ _ _ _ Ha Hi). pose proof (matches_bounds _ _ _ _ Hb ltac:(lia)).
    rewrite (slice_cut i j k) by lia. apply list_elem_of_bind. exists (slice i j s).
    split; [|by apply IHa]. apply list_elem_of_fmap_2. apply IHb; [lia|done].
  - destruct (exact a) as [la|]; [|done]. destruct (exact b) as [lb|]; [|done]. cbn in Hl. simplify_eq.
    apply elem_of_app. left. by apply IHa.
  - destruct (exact a) as [la|]; [|done]. destruct (exact b) as [lb|]; [|done]. cbn in Hl. simplify_eq.
    apply elem_of_app. right. by apply IHb.
  - by apply IHa.
  - simplify_eq. rewrite slice_nil. left.
Qed.

(** Every match holds a part that passes [test]. *)
Fixpoint must (test : bytes -> bool) (r : regex) : bool :=
  match exact r with
  | Some l => forallb test l
  | None =>
      match r with
      | RCat a b => must test a || must test b
      | RAlt a b => must test a && must test b
      | RGroup _ a => must test a
      | _ => false
      end
  end.

Lemma must_exact test s r i j l : exact r = Some l -> forallb test l = true -> matches s r i j -> (i <= length s)%nat ->
  exists a b, (i <= a <= b)%nat /\ (b <= j)%nat /\ test (slice a b s) = true.
Proof.
  intros Hl Hall Hm Hi. pose proof (matches_bounds _ _ _ _ Hm Hi). exists i, j. split; [lia|]. split; [lia|].
  rewrite forallb_forall in Hall. apply Hall, list_elem_of_In. by apply (exact_sound _ _ _ _ Hm Hi).
Qed.

Lemma must_sound test s r : forall i j, must test r = true -> matches s r i j -> (i <= length s)%nat ->
  exists a b, (i <= a <= b)%nat /\ (b <= j)%nat /\ test (slice a b s) = true.
Proof.
  induction r as [|c|a IHa b IHb|a IHa b IHb|g a IHa|n a IHa|]; intros i j Hmust Hm Hi;
    cbn [must] in Hmust; destruct (exact _) as [l|] eqn:Hl; 
    try exact (must_exact test s _ i j l Hl Hmust Hm Hi); try done.
  - inversion Hm as [| |? ? ? k ? Ha Hb| | | | | |]; subst. pose proof (matches_bounds _ _ _ _ Ha Hi).
    pose proof (matches_bounds _ _ _ _ Hb ltac:(lia)). apply orb_true_iff in Hmust as [Hma|Hmb].
    + destruct (IHa _ _ Hma Ha Hi) as (x & y & ? & ? & ?). exists x, y. split; [lia|]. split; [lia|done].
    + destruct (IHb _ _ Hmb Hb ltac:(lia)) as (x & y & ? & ? & ?). exists x, y. split; [lia|]. split; [lia|done].
  - apply andb_prop in Hmust as [Hma Hmb]. inversion Hm; subst; [by apply IHa|by apply IHb].
  - inversion Hm; subst. by apply IHa.
Qed.

(** In the terms of [contains]: if the test says that a word of [ws] is there, a
    match of the pattern shows it in the text. *)
Lemma contains_slice w i j s : (i <= j <= length s)%nat -> contains w (slice i j s) = true -> contains w s = true.
Proof.
  intros Hij (x & y & Hs)%contains_spec. apply contains_spec. rewrite (slice_split i j s Hij), Hs.
  exists (take i s ++ x), (y ++ drop j s). by rewrite <- !app_assoc.
Qed.

Lemma must_contains ws r s i j : must (contains_any ws) r = true -> matches s r i j -> (i <= length s)%nat ->
  contains_any ws s = true.
Proof.
  intros Hmust Hm Hi. destruct (must_sound _ _ _ _ _ Hmust Hm Hi) as (a & b & Hab & Hb & Ht).
  pose proof (matches_bounds _ _ _ _ Hm Hi). apply existsb_exists in Ht as (w & Hw & Hc).
  apply existsb_exists. exists w. split; [done|]. apply (contains_slice w a b); [lia|done].
Qed.

(** ** Lower case *)

Lemma lower_ascii a l : byte_of a < 128 -> lower (a :: l) = lower_byte a :: lower l.
Proof.
  intros Ha. unfold lower. cbn [string_of_list_ascii]. destruct l as [|b l]; [done|]. cbn [string_of_list_ascii ToLower].
  rewrite (proj2 (Z.eqb_neq (byte_of a) 0xC4)) by lia. cbn [andb]. destruct l as [|c l]; [done|]. cbn [string_of_list_ascii].
  rewrite (proj2 (Z.eqb_neq (byte_of a) 0xE2)) by lia. done.
Qed.

Lemma lower_app x d y : byte_of d < 128 -> lower (x ++ d :: y) = lower x ++ lower (d :: y).
Proof.
  intros Hd. remember (length x) as n eqn:Hn. revert x Hn. induction (lt_wf n) as [n _ IH]. intros x ->.
  destruct x as [|a x]; [done|]. destruct (Z.lt_ge_cases (byte_of a) 128) as [Ha|Ha].
  { cbn [app]. rewrite !(lower_ascii a) by done. cbn [app]. f_equal. apply (IH (length x)); [cbn; lia|done]. }
  destruct x as [|b x].
  { unfold lower. cbn [app string_of_list_ascii ToLower].
    rewrite (proj2 (Z.eqb_neq (byte_of d) 0xB0)), andb_false_r by lia.
    destruct y as [|e y]; [done|]. cbn [string_of_list_ascii].
    rewrite (proj2 (Z.eqb_neq (byte_of d) 0x84)), andb_false_r by lia. done. }
  destruct ((byte_of a =? 0xC4) && (byte_of b =? 0xB0)) eqn:Hab.
  { assert (Hi : forall l, lower (a :: b :: l) = "i"%char :: lower l) by (intros l; unfold lower; cbn [string_of_list_ascii ToLower]; by rewrite Hab).
    cbn [app]. rewrite !Hi. cbn [app]. f_equal. apply (IH (length x)); [cbn; lia|done]. }
  destruct x as [|c x].
  { assert (Hs : forall l, from_option (fun e => negb (byte_of e =? 0xAA)) true (head l) = true ->
      lower (a :: b :: l) = lower_byte a :: lower (b :: l)).
    { intros l Hl. unfold lower. cbn [string_of_list_ascii ToLower]. rewrite Hab. destruct l as [|e l]; [done|]. cbn in Hl.
      cbn [string_of_list_ascii]. apply negb_true_iff in Hl. by rewrite Hl, andb_false_r. }
    cbn [app]. rewrite Hs, (Hs []); [|done|cbn; apply negb_true_iff, Z.eqb_neq; lia]. cbn [app]. f_equal.
    apply (IH 1%nat ltac:(cbn; lia) [b] eq_refl). }
  destruct ((byte_of a =? 0xE2) && (byte_of b =? 0x84) && (byte_of c =? 0xAA)) eqn:Hk.
  { assert (Hi : forall l, lower (a :: b :: c :: l) = "k"%char :: lower l) by (intros l; unfold lower; cbn [string_of_list_ascii ToLower]; by rewrite Hab, Hk).
    cbn [app]. rewrite !Hi. cbn [app]. f_equal. apply (IH (length x)); [cbn; lia|done]. }
  assert (Hi : forall l, lower (a :: b :: c :: l) = lower_byte a :: lower (b :: c :: l)).
  { intros l. unfold lower. cbn [string_of_list_ascii ToLower]. by rewrite Hab, Hk. }
  cbn [app]. rewrite !Hi. cbn [app]. f_equal. apply (IH (length (b :: c :: x)) ltac:(cbn; lia) (b :: c :: x) eq_refl).
Qed.

(** Text that begins and ends with ASCII is lowered on its own. *)
Definition ascii_ends (y : bytes) : bool :=
  from_option (fun a => byte_of a <? 128) false (head y) && from_option (fun a => byte_of a <? 128) false (last y).

Lemma lower_mid x y z : ascii_ends y = true -> lower (x ++ y ++ z) = lower x ++ lower y ++ lower z.
Proof.
  intros Hy. unfold ascii_ends in Hy. apply andb_prop in Hy as [Hh Hl].
  destruct (last y) as [e|] eqn:He; [|done]. cbn in Hl. apply Z.ltb_lt in Hl.
  apply last_Some in He as [y' ->]. rewrite <- app_assoc. cbn [app].
  assert (Hyz : lower (y' ++ e :: z) = lower (y' ++ [e]) ++ lower z).
  { rewrite !lower_app, !(lower_ascii e) by done. by rewrite <- app_assoc. }
  destruct y' as [|d y']; cbn in Hh; apply Z.ltb_lt in Hh; cbn [app] in *.
  - rewrite lower_app by done. by rewrite Hyz.
  - rewrite lower_app by done. by rewrite Hyz.
Qed.

Lemma contains_any_app ws x y z : contains_any ws y = true -> contains_any ws (x ++ y ++ z) = true.
Proof.
  intros (w & Hw & (u & v & ->)%contains_spec)%existsb_exists. apply existsb_exists. exists w. split; [done|].
  apply contains_spec. exists (x ++ u), (v ++ z). by rewrite <- !app_assoc.
Qed.

Lemma must_lower ws r s i j : must (fun y => ascii_ends y && contains_any ws (lower y)) r = true ->
  matches s r i j -> (i <= length s)%nat -> contains_any ws (lower s) = true.
Proof.
  intros Hmust Hm Hi. destruct (must_sound _ _ _ _ _ Hmust Hm Hi) as (a & b & Hab & Hb & [He Hc]%andb_prop).
  pose proof (matches_bounds _ _ _ _ Hm Hi). rewrite (slice_split a b s), lower_mid by (done || lia).
  by apply contains_any_app.
Qed.

(** ** Letters and digits in a row *)

Lemma times_class C n s i j : class_in alnum C = true -> matches s (times n (RClass C)) i j -> (i <= length s)%nat ->
  (j = i + n)%nat /\ Forall (fun a => is_alnum_byte a = true) (slice i j s).
Proof.
  intros HC. revert i. induction n as [|n IH]; intros i Hm Hi; cbn [times] in Hm.
  - inversion Hm; subst. rewrite slice_nil. split; [lia|constructor].
  - inversion Hm as [| |? ? ? k ? Ha Hb| | | | | |]; subst.
    inversion Ha as [|? ? r size Hr Hc| | | | | | |]; subst.
    destruct (class_in_spec _ _ _ HC Hc) as [Hin Hascii].
    destruct (rune_at_bytes _ _ _ Hr) as (_ & Hsize & Hs); [unfold RuneError; lia|]. rewrite enc_ascii in * by done.
    cbn [length] in Hsize. subst size. pose proof (matches_bounds _ _ _ _ Ha Hi).
    destruct (IH (i + 1)%nat Hb ltac:(lia)) as [-> Hall]. split; [lia|].
    rewrite (slice_cut i (i + 1)), slice_front by lia. rewrite Hs. constructor; [|done].
    unfold is_alnum_byte. rewrite byte_of_byte by lia. change alnum with [(65, 90); (97, 122); (48, 57)] in Hin.
    unfold in_ranges in Hin. cbn [existsb fst snd] in Hin. lia.
Qed.

Lemma count_reaches_row n cnt y z : (cnt < n)%nat -> Forall (fun a => is_alnum_byte a = true) y -> (n <= cnt + length y)%nat ->
  count_reaches is_alnum_byte true n cnt (y ++ z) = true.
Proof.
  revert cnt. induction y as [|a y IH]; intros cnt Hc Hy Hn; cbn [length] in Hn; [lia|].
  apply Forall_cons in Hy as [Ha Hy]. cbn [app count_reaches]. rewrite Ha.
  destruct (n <=? S cnt)%nat eqn:Hle; [done|]. apply Nat.leb_gt in Hle. cbn [orb]. apply IH; [lia|done|lia].
Qed.

Lemma hasNAlnum_row n x y z : (0 < n <= length y)%nat -> Forall (fun a => is_alnum_byte a = true) y ->
  hasNAlnum (x ++ y ++ z) n = true.
Proof.
  intros Hn Hy. assert (Hlt : forall cnt, (cnt < n)%nat ->
    count_reaches is_alnum_byte true n cnt (x ++ y ++ z) = true); [|by apply Hlt; lia].
  induction x as [|a x IH]; intros cnt Hc; cbn [app].
  - apply count_reaches_row; [done|done|lia].
  - cbn [count_reaches]. destruct (is_alnum_byte a); [|apply IH; lia].
    destruct (n <=? S cnt)%nat eqn:Hle; [done|]. apply Nat.leb_gt in Hle. apply IH. lia.
Qed.

Lemma uscc_sound s i j : matches s uscc_re i j -> (i <= length s)%nat -> hasNAlnum s 18 = true.
Proof.
  intros Hm Hi. unfold uscc_re, cat in Hm. cbn [foldr] in Hm.
  inversion Hm as [| |? ? ? k ? Ha Hb| | | | | |]; subst.
  inversion Ha; subst. inversion Hb as [| |? ? ? l ? Hc Hd| | | | | |]; subst.
  destruct (times_class (mkClass false uscc_class) 18 s k l eq_refl Hc Hi) as [-> Hall].
  pose proof (matches_bounds _ _ _ _ Hc Hi). rewrite (slice_split k (k + 18) s) by lia.
  apply hasNAlnum_row; [|done]. rewrite length_slice by lia. lia.
Qed.

(** ** The pre-check *)

(** The long s, which [(?i)] takes for an s and [ToLower] leaves alone. *)
Definition long_s : bytes := enc 0x17F.

(** What a match of [SECRET] shows of one part of the text. *)
Definition secret_part (y : bytes) : bool :=
  contains long_s y || contains_any secretKeywordsCN y
  || (ascii_ends y && contains_any secretKeywordsLower (lower y)).

Lemma secret_must : must secret_part secret_re = true.
Proof. vm_compute. reflexivity. Qed.

Lemma secret_sound s i j : matches s secret_re i j -> (i <= length s)%nat -> contains long_s s = false ->
  contains_any secretKeywordsLower (lower s) || contains_any secretKeywordsCN s = true.
Proof.
  intros Hm Hi Hs. destruct (must_sound _ _ _ _ _ secret_must Hm Hi) as (a & b & Hab & Hb & Ht).
  pose proof (matches_bounds _ _ _ _ Hm Hi). unfold secret_part in Ht. rewrite !orb_true_iff in Ht.
  destruct Ht as [[Ht|Ht]|Ht].
  - apply contains_slice in Ht; [congruence|lia].
  - rewrite (slice_split a b s), (contains_any_app secretKeywordsCN) by (done || lia). apply orb_true_r.
  - apply andb_prop in Ht as [He Hc]. rewrite (slice_split a b s), lower_mid by (done || lia).
    by rewrite (contains_any_app secretKeywordsLower) by done.
Qed.

Lemma token_must : must (fun y => ascii_ends y && contains_any [lit "bearer"] (lower y)) token_re = true.
Proof. vm_compute. reflexivity. Qed.

Lemma contains_any_one w s : contains_any [w] s = contains w s.
Proof. unfold contains_any. cbn. apply orb_false_r. Qed.

Lemma precheck_sound s rule i j : rule ∈ BuiltinRules -> (Label rule = lit "SECRET" -> contains long_s s = false) ->
  matches s (Pattern rule) i j -> (i <= length s)%nat -> ruleMayHit s (Label rule) = true.
Proof.
  intros Hin Hs Hm Hi. unfold BuiltinRules in Hin. rewrite !elem_of_cons in Hin.
  assert (Hw : forall w, must (contains_any [w]) (Pattern rule) = true -> contains w s = true).
  { intros w Hw. rewrite <- contains_any_one. by apply (must_contains _ _ _ _ _ Hw Hm). }
  assert (Hd : forall n, (0 < n <= min_count ascii_digits (Pattern rule))%nat -> hasNDigits s n = true).
  { intros n Hn. by apply (digits_sound _ _ _ _ _ Hm). }
  destruct Hin as [->|[->|[->|[->|[->|[->|[->|[->|[->|[->|[->|[->|Hin]]]]]]]]]]]]; [..|by apply elem_of_nil in Hin];
    cbn [Label Pattern] in *; unfold ruleMayHit; repeat (rewrite bool_decide_false by (intros Hx; vm_compute in Hx; discriminate Hx));
    rewrite bool_decide_true by done.
  - apply Hw. vm_compute. reflexivity.
  - apply (must_contains _ _ _ _ _ (eq_refl : must (contains_any apiPrefixes) api_key_re = true) Hm Hi).
  - apply andb_true_intro. split; apply Hw; vm_compute; reflexivity.
  - apply Hd. vm_compute. lia.
  - apply Hw. vm_compute. reflexivity.
  - apply Hd. vm_compute. lia.
  - apply Hd. vm_compute. lia.
  - apply (secret_sound s i j Hm Hi). by apply Hs.
  - apply Hw. vm_compute. reflexivity.
  - rewrite <- contains_any_one. by apply (must_lower _ token_re s i j token_must).
  - apply (must_contains _ _ _ _ _ (eq_refl : must (contains_any [lit ":"; lit "-"; lit "."]) mac_re = true) Hm Hi).
  - by apply (uscc_sound s i j).
Qed.

(** The candidates when every rule scans every range. *)
Definition collect_all (now_year : Z) (text : bytes) (rules : list Rule) : list cand :=
  nonPlaceholderRanges text ≫= fun sr =>
    concat (imap (fun i rule => omap (candidate now_year sr.1 (slice sr.1 sr.2 text) i rule)
      (FindAllSubmatchIndex (Pattern rule) (slice sr.1 sr.2 text))) rules).

Lemma terms_scan text : ruleMayHit text (lit "TERM") = true.
Proof. reflexivity. Qed.

Lemma concat_imap_ext {A B} (f g : nat -> A -> list B) l :
  (forall i x, x ∈ l -> f i x = g i x) -> concat (imap f l) = concat (imap g l).
Proof.
  revert f g. induction l as [|x l IH]; intros f g Hfg; cbn; [done|].
  rewrite (Hfg 0%nat x ltac:(left)). f_equal. apply IH. intros i y Hy. apply Hfg. by right.
Qed.

Lemma contains_part w i j s : contains w (slice i j s) = true -> contains w s = true.
Proof.
  intros (x & y & Hs)%contains_spec. apply contains_spec. unfold slice in Hs.
  exists (take i s ++ x), (y ++ drop (j - i) (drop i s)).
  rewrite <- (take_drop i s) at 1. rewrite <- (take_drop (j - i) (drop i s)) at 1. rewrite Hs. by rewrite <- !app_assoc.
Qed.

Lemma rule_cands_all now_year off seg i rule :
  Label rule = lit "TERM" \/ rule ∈ BuiltinRules -> contains long_s seg = false ->
  rule_cands now_year off seg i rule = omap (candidate now_year off seg i rule) (FindAllSubmatchIndex (Pattern rule) seg).
Proof.
  intros Hrule Hs. unfold rule_cands. destruct (ruleMayHit seg (Label rule)) eqn:Hp; [done|].
  destruct Hrule as [Ht|Hin]; [rewrite Ht, terms_scan in Hp; done|].
  destruct (FindAllSubmatchIndex (Pattern rule) seg) as [|l ls] eqn:Hl; [done|exfalso].
  destruct (FindAll_sound (Pattern rule) seg l) as (Hb & Hm & _); [rewrite Hl; left|].
  rewrite (precheck_sound seg rule _ _ Hin (fun _ => Hs) Hm) in Hp by lia. done.
Qed.



(** The letter the theorem excludes: the rule matches, the pre-check says no. *)
Lemma long_s_escapes :
  let text := lit "paſſword: x1y" in
  collect 2026 text BuiltinRules = [] /\ orig <$> collect_all 2026 text BuiltinRules = [lit "x1y"].
Proof. by vm_compute. Qed.
