(* ===== verification/MaskUtf8.v ===== *)
(** * Masking whole runes

    The matcher moves from rune to rune, placeholders are ASCII, so every cut that
    the masking makes lies between two runes: a masked UTF-8 text is UTF-8. *)

From Stdlib Require Import Ascii String.
From S2P Require Import Prelude GoStrings Utf8 MaskText MaskThms MaskSession GoRegexp Boundaries GoJson Runes RuneBytes GoJsonThms MaskRules MaskEngine MaskEngineThms.
From stdpp Require Import list.
Local Open Scope Z_scope.
Local Open Scope list_scope.

#[local] Ltac Zify.zify_post_hook ::= Z.to_euclidean_division_equations.

(** ** The ranges between placeholders *)

Lemma locs_match text fuel pos p e : (p, e) ∈ placeholder_locs fuel pos (drop pos text) ->
  exists n, e = (p + n)%nat /\ match_placeholder (drop p text) = Some n.
Proof.
  revert pos. induction fuel as [|fuel IH]; intros pos; cbn [placeholder_locs]; [by intros ?%elem_of_nil|].
  destruct (drop pos text) as [|a l] eqn:Hd; [by intros ?%elem_of_nil|]. rewrite <- Hd.
  destruct (match_placeholder (drop pos text)) as [n|] eqn:Hm.
  - rewrite drop_drop. intros [[= -> ->]|Hin]%elem_of_cons; [by exists n|by apply (IH (pos + n)%nat)].
  - assert (Hl : l = drop (S pos) text).
    { replace (S pos) with (pos + 1)%nat by lia. by rewrite <- drop_drop, Hd. }
    rewrite Hl. apply IH.
Qed.

Lemma match_boundaries text p n : utf8_ok text -> match_placeholder (drop p text) = Some n ->
  boundary text p /\ boundary text (p + n).
Proof.
  intros Hu Hm. pose proof (match_bounds _ _ Hm) as [Hn Hle]. rewrite length_drop in Hle.
  apply match_iff in Hm as (_ & label & suffix & Hsh). pose proof (shaped_length _ _ _ Hsh) as Hlen.
  rewrite length_take, length_drop in Hlen.
  assert (Hat : forall i, (i < n)%nat -> text !! (p + i)%nat = take n (drop p text) !! i).
  { intros i Hi. by rewrite lookup_take_lt, lookup_drop. }
  split.
  - apply (ascii_boundary text p brace); [done| |done].
    rewrite <- (Nat.add_0_r p), Hat by lia. destruct Hsh as [-> _ _ _ _]. done.
  - replace (p + n)%nat with (S (p + (n - 1))) by lia. apply (ascii_boundary text (p + (n - 1)) "}"%char); [done| |done].
    rewrite Hat by lia. destruct Hsh as [Heq _ _ _ H6]. rewrite Heq.
    rewrite !app_assoc, lookup_app_r by (rewrite !length_app; cbn; lia).
    rewrite !length_app, H6. cbn [lit list_ascii_of_string length].
    by replace (n - 1 - (2 + length label + 1 + 6))%nat with 1%nat by lia.
Qed.

Lemma gaps_at text locs lastEnd : utf8_ok text -> boundary text lastEnd ->
  (forall p e, (p, e) ∈ locs -> boundary text p /\ boundary text e) ->
  forall r, r ∈ gaps lastEnd (length text) locs -> boundary text r.1 /\ boundary text r.2.
Proof.
  intros Hu. revert lastEnd. induction locs as [|[a b] locs IH]; intros lastEnd Hl Hlocs r; cbn [gaps].
  - case_match; [|by intros ?%elem_of_nil]. intros ->%list_elem_of_singleton. split; [done|by apply boundary_end].
  - destruct (Hlocs a b ltac:(left)) as [Ha Hb]. intros [Hr|Hr]%elem_of_app.
    + case_match; [|by apply elem_of_nil in Hr]. by apply list_elem_of_singleton in Hr as ->.
    + apply (IH b); [done|intros; apply Hlocs; by right|done].
Qed.

Lemma ranges_at text r : utf8_ok text -> r ∈ nonPlaceholderRanges text -> boundary text r.1 /\ boundary text r.2.
Proof.
  intros Hu Hr. unfold nonPlaceholderRanges in Hr.
  assert (Hlocs : forall p e, (p, e) ∈ placeholder_locs (length text) 0 text -> boundary text p /\ boundary text e).
  { intros p e Hin. rewrite <- (drop_0 text) in Hin at 2. apply locs_match in Hin as (n & -> & Hm). by apply match_boundaries. }
  destruct (placeholder_locs (length text) 0 text) as [|l locs].
  - apply list_elem_of_singleton in Hr as ->. split; [by apply boundary_0|by apply boundary_end].
  - by apply (gaps_at text (l :: locs) 0 Hu (boundary_0 _ Hu) Hlocs).
Qed.

(** ** Masked text *)

Lemma collect_at now text rules c : utf8_ok text -> c ∈ collect now text rules ->
  boundary text (origStart c) /\ boundary text (origEnd c).
Proof.
  intros Hu. unfold collect. intros (sr & Hc & Hsr)%list_elem_of_bind. unfold range_cands in Hc.
  apply list_elem_of_In, in_concat in Hc as (cs & Hcs & Hc). apply list_elem_of_In in Hcs, Hc.
  apply elem_of_lookup_imap in Hcs as (i & rule & -> & _). unfold rule_cands in Hc.
  case_match; [|by apply elem_of_nil in Hc]. apply list_elem_of_omap in Hc as (l & Hl & Hc).
  destruct (ranges_plain _ _ Hsr) as [Hr _]. destruct (ranges_at _ _ Hu Hsr) as [Ha Hb].
  pose proof (boundary_slice _ _ _ Ha Hb ltac:(lia)) as Hseg.
  pose proof (find_all_at (slice sr.1 sr.2 text) (Pattern rule) (S (length (slice sr.1 sr.2 text))) 0 None (boundary_0 _ Hseg)) as Hall.
  rewrite Forall_forall in Hall. specialize (Hall l Hl). unfold candidate in Hc.
  destruct (group_bounds (Group rule) l) as [[gs ge]|] eqn:Hg; [|done]. cbn [mbind option_bind] in Hc.
  destruct (group_at _ _ _ _ _ Hall Hg) as [Hgs Hge]. repeat (case_match; [done|]). simplify_eq. cbn.
  split; by apply (boundary_within text sr.1 sr.2); [..|lia|].
Qed.

Lemma shaped_utf8 token label suffix : shaped token label suffix -> utf8_ok token.
Proof.
  intros [-> Hl _ Hs _]. apply ascii_utf8. repeat (apply Forall_app; split); try (by repeat constructor).
  - apply (Forall_impl _ _ _ Hl). intros a. unfold is_label_byte. lia.
  - apply (Forall_impl _ _ _ Hs). intros a Ha. apply existsb_exists in Ha as (c & Hc & ->%Ascii.eqb_eq).
    assert (Hall : forallb (fun c => byte_of c <? 128) consonants = true) by (vm_compute; reflexivity).
    rewrite forallb_forall in Hall. specialize (Hall c Hc). by apply Z.ltb_lt.
Qed.

Lemma splice_utf8 text cts : forall prev, boundary text prev -> apart prev cts.*1 ->
  (forall ct, ct ∈ cts -> cand_ok text ct.1 /\ boundary text (origStart ct.1) /\ boundary text (origEnd ct.1) /\ utf8_ok ct.2) ->
  utf8_ok (splice text prev cts).
Proof.
  induction cts as [|[c token] cts IH]; intros prev Hp Hap Hall; cbn [splice]; [apply Hp|].
  destruct (Hall (c, token) ltac:(left)) as (Hc & Hs & He & Ht). cbn [fst snd] in *. cbn [fmap list_fmap fst apart] in Hap.
  destruct Hap as [Hle Hap]. apply utf8_app; [by apply boundary_slice|]. apply utf8_app; [done|].
  apply IH; [done|done|]. intros ct Hct. apply Hall. by right.
Qed.

Section masked.
Context `{Recaller St}.
Implicit Types (st : St) (rep : Report).

Lemma mask_utf8 now rules text rep st masked rep' st' :
  tables_ok (mapping_of st) -> utf8_ok text ->
  maskCandidates now rules text rep st = (Some masked, rep', st') -> utf8_ok masked.
Proof.
  intros Hm Hu Hmask. destruct (mask_spec _ _ _ _ _ _ _ _ Hm Hmask) as (Hm' & _ & cts & Hsel & -> & Hall).
  apply splice_utf8; [by apply boundary_0|rewrite Hsel; apply select_apart|].
  intros ct Hct. rewrite Forall_forall in Hall.
  assert (Hc : ct.1 ∈ cts.*1) by by apply list_elem_of_fmap_2. rewrite Hsel in Hc. apply select_sub in Hc.
  rewrite sort_cands_perm in Hc. case_match; [by apply elem_of_nil in Hc|].
  split; [by eapply collect_ok|]. destruct (collect_at _ _ _ _ Hu Hc). split; [done|]. split; [done|].
  destruct (to_token _ Hm' _ _ (Hall ct Hct)) as (l & s & Hsh). by apply shaped_utf8 in Hsh.
Qed.
End masked.
