(* ===== verification/MaskJson.v ===== *)
(** * Masking JSON bodies

    The JSON walk of relay/mask/engine.go: a body is read as a stream of tokens and
    written again in compact form; only string values go through the mask, which is
    any stateful function here. *)

From Stdlib Require Import Ascii String.
From S2P Require Import Prelude GoStrings MaskText GoRegexp GoJson RuneBytes GoJsonThms.
From stdpp Require Import list.
Local Open Scope Z_scope.
Local Open Scope list_scope.

(** What a walk has written, and the tokens left; or a decoding error; or a panic
    of the mask. *)
Inductive walk := Wrote (out : bytes) (rest : list token) | WalkError | WalkPanic.

Definition wrote_behind (front : bytes) (w : walk) : walk :=
  match w with Wrote out rest => Wrote (front ++ out) rest | _ => w end.

(** From the elements on the left to those on the right. *)
Lemma forall2_right {A B} (R : A -> B -> Prop) (P : B -> Prop) l m :
  Forall2 R l m -> (forall x y, x ∈ l -> R x y -> P y) -> Forall P m.
Proof.
  induction 1 as [|x y l m Hxy _ IH]; intros Hall; [constructor|].
  constructor; [by apply (Hall x y ltac:(left))|]. apply IH. intros x' y' Hin. apply Hall. by right.
Qed.

Lemma Forall2_impl_elem {A B} (R Q : A -> B -> Prop) l m :
  Forall2 R l m -> (forall x y, x ∈ l -> R x y -> Q x y) -> Forall2 Q l m.
Proof.
  induction 1 as [|x y l m Hxy _ IH]; intros Hall; [constructor|].
  constructor; [by apply (Hall x y ltac:(left))|]. apply IH. intros x' y' Hin. apply Hall. by right.
Qed.

Section walk.
Context {St : Type}.
Variable mask : bytes -> St -> option bytes * St.

(** [writeJSONString] is [json_Marshal_string], which never fails. *)
Definition writeJSONScalar (tok : token) (st : St) : option bytes * St :=
  match tok with
  | TString s => let '(o, st) := mask s st in (json_Marshal_string <$> o, st)
  | TNumber n => (Some n, st)
  | TBool b => (Some (if b then lit "true" else lit "false"), st)
  | TNull => (Some (lit "null"), st)
  | TDelim _ => (Some [], st)
  end.

Section loops.
Variable stream : list token -> St -> walk * St.

(** The loop of [maskJSONObject]; the number of tokens bounds the turns. *)
Fixpoint maskJSONObject_loop (fuel : nat) (first : bool) (ts : list token) (st : St) : walk * St :=
  match fuel with
  | O => (WalkError, st)
  | S fuel =>
      if More ts then
        match ts with
        | [] => (WalkError, st)
        | tok :: ts =>
            let key := match tok with TString k => k | _ => [] end in
            match stream ts st with
            | (Wrote out ts, st) =>
                let '(w, st) := maskJSONObject_loop fuel false ts st in
                (wrote_behind ((if first then [] else lit ",") ++ json_Marshal_string key ++ lit ":" ++ out) w, st)
            | r => r
            end
        end
      else match ts with [] => (WalkError, st) | _ :: ts => (Wrote (lit "}") ts, st) end
  end.

Fixpoint maskJSONArray_loop (fuel : nat) (first : bool) (ts : list token) (st : St) : walk * St :=
  match fuel with
  | O => (WalkError, st)
  | S fuel =>
      if More ts then
        match stream ts st with
        | (Wrote out ts, st) =>
            let '(w, st) := maskJSONArray_loop fuel false ts st in
            (wrote_behind ((if first then [] else lit ",") ++ out) w, st)
        | r => r
        end
      else match ts with [] => (WalkError, st) | _ :: ts => (Wrote (lit "]") ts, st) end
  end.
End loops.

(** [maskJSONStream], with [maskJSONObject] and [maskJSONArray]; the number of
    tokens bounds the nesting, hence the fuel. *)
Fixpoint maskJSONStream (fuel : nat) (ts : list token) (st : St) : walk * St :=
  match fuel, ts with
  | S fuel, TDelim d :: ts =>
      if Ascii.eqb d "{" then
        let '(w, st) := maskJSONObject_loop (maskJSONStream fuel) (S (length ts)) true ts st in
        (wrote_behind (lit "{") w, st)
      else if Ascii.eqb d "[" then
        let '(w, st) := maskJSONArray_loop (maskJSONStream fuel) (S (length ts)) true ts st in
        (wrote_behind (lit "[") w, st)
      else (WalkError, st)
  | S _, tok :: ts =>
      let '(o, st) := writeJSONScalar tok st in
      (match o with Some out => Wrote out ts | None => WalkPanic end, st)
  | _, _ => (WalkError, st)
  end.

(** A decoding error, and tokens behind the value, send the whole body to the
    mask.  The decoder yields the tokens of the parsed value; it is called for
    valid bodies only. *)
Definition mapJSONStringValues (body : bytes) (st : St) : option bytes * St :=
  match json_parse body with
  | None => mask body st
  | Some v =>
      match maskJSONStream (length (tokens v)) (tokens v) st with
      | (Wrote out rest, st) => if More rest then mask body st else (Some out, st)
      | (WalkError, st) => mask body st
      | (WalkPanic, st) => (None, st)
      end
  end.

(** ** What it means *)

Fixpoint map_list {A} (f : A -> St -> option A * St) (l : list A) (st : St) : option (list A) * St :=
  match l with
  | [] => (Some [], st)
  | x :: l =>
      match f x st with
      | (Some y, st) => let '(o, st) := map_list f l st in (cons y <$> o, st)
      | (None, st) => (None, st)
      end
  end.

(** The string values masked in the order of the text, and nothing else. *)
Fixpoint map_strings (v : json) (st : St) : option json * St :=
  match v with
  | JStr s => let '(o, st) := mask s st in (JStr <$> o, st)
  | JArr l => let '(o, st) := map_list map_strings l st in (JArr <$> o, st)
  | JObj l =>
      let '(o, st) := map_list (fun kv st => let '(o, st) := map_strings kv.2 st in (pair kv.1 <$> o, st)) l st in
      (JObj <$> o, st)
  | _ => (Some v, st)
  end.

(** The outcome of a walk that should write [render v']. *)
Definition walked (text : json -> bytes) (r : option json * St) (rest : list token) : walk * St :=
  match r with
  | (Some v, st) => (Wrote (text v) rest, st)
  | (None, st) => (WalkPanic, st)
  end.

Definition streams (fuel : nat) (v : json) : Prop := forall rest st,
  maskJSONStream fuel (tokens v ++ rest) st = walked render (map_strings v st) rest.

(** Texts behind the first one follow a comma. *)
Definition comma_text (first : bool) (texts : list bytes) : bytes :=
  match texts with [] => [] | _ => (if first then [] else lit ",") ++ join_comma texts end.

Lemma comma_text_cons first t ts : comma_text first (t :: ts) = (if first then [] else lit ",") ++ t ++ comma_text false ts.
Proof. by destruct ts; cbn; rewrite ?app_nil_r. Qed.

Lemma tokens_more v rest : More (tokens v ++ rest) = true.
Proof. by destruct v. Qed.

Lemma concat_length_in {A} (l : list A) ls : l ∈ ls -> (length l <= length (concat ls))%nat.
Proof. induction 1 as [l ls|l l' ls _ IH]; cbn; rewrite length_app; lia. Qed.

Lemma tokens_length (l : list json) : (length l <= length (concat (tokens <$> l)))%nat.
Proof.
  induction l as [|v l IH]; cbn; [lia|]. rewrite length_app. destruct v; cbn in *; lia.
Qed.

Lemma array_loop_spec fuel vs : Forall (streams fuel) vs -> forall n first rest st, (length vs < n)%nat ->
  maskJSONArray_loop (maskJSONStream fuel) n first (concat (tokens <$> vs) ++ TDelim "]" :: rest) st
    = match map_list map_strings vs st with
      | (Some vs', st) => (Wrote (comma_text first (render <$> vs') ++ lit "]") rest, st)
      | (None, st) => (WalkPanic, st)
      end.
Proof.
  induction 1 as [|v vs Hv _ IH]; intros n first rest st Hn; (destruct n as [|n]; [lia|]); [done|].
  cbn [fmap list_fmap concat maskJSONArray_loop map_list length] in *. rewrite <- app_assoc, tokens_more, Hv.
  destruct (map_strings v st) as [[v'|] st1]; cbn [walked]; [|done].
  rewrite IH by lia. destruct (map_list map_strings vs st1) as [[vs'|] st2]; cbn [fmap option_fmap option_map]; [|done].
  cbn [list_fmap wrote_behind]. change (list_fmap _ _ render vs') with (render <$> vs').
  rewrite comma_text_cons. by rewrite <- !app_assoc.
Qed.

Definition member (kv : bytes * json) (st : St) : option (bytes * json) * St :=
  let '(o, st) := map_strings kv.2 st in (pair kv.1 <$> o, st).

Lemma object_loop_spec fuel kvs : Forall (fun kv => streams fuel kv.2) kvs -> forall n first rest st, (length kvs < n)%nat ->
  maskJSONObject_loop (maskJSONStream fuel) n first
      (concat ((fun kv => TString kv.1 :: tokens kv.2) <$> kvs) ++ TDelim "}" :: rest) st
    = match map_list member kvs st with
      | (Some kvs', st) => (Wrote (comma_text first (member_text <$> kvs') ++ lit "}") rest, st)
      | (None, st) => (WalkPanic, st)
      end.
Proof.
  induction 1 as [|[k v] kvs Hv _ IH]; intros n first rest st Hn; (destruct n as [|n]; [lia|]); [done|].
  cbn [fmap list_fmap concat maskJSONObject_loop map_list length fst snd app More] in *. rewrite <- app_assoc, Hv.
  unfold member at 1. cbn [fst snd]. destruct (map_strings v st) as [[v'|] st1]; cbn [walked]; [|done].
  rewrite IH by lia. cbn [fmap option_fmap option_map].
  destruct (map_list member kvs st1) as [[kvs'|] st2]; cbn [fmap option_fmap option_map]; [|done].
  cbn [list_fmap wrote_behind]. change (list_fmap _ _ member_text kvs') with (member_text <$> kvs').
  rewrite comma_text_cons. change (member_text (k, v')) with (json_Marshal_string k ++ lit ":" ++ render v').
  by rewrite <- !app_assoc.
Qed.

(** The stream of a value is written as the value with its strings masked. *)
Lemma walk_streams v : forall fuel, (height v <= fuel)%nat -> streams fuel v.
Proof.
  induction v as [|b|n|s|l IH|l IH] using json_ind; intros fuel Hf; (destruct fuel as [|fuel]; [cbn in Hf; lia|]);
    intros rest st.
  - done.
  - by destruct b.
  - done.
  - cbn. by destruct (mask s st) as [[s'|] st'].
  - cbn [tokens]. rewrite <- app_comm_cons, <- app_assoc. cbn [maskJSONStream app].
    change (Ascii.eqb "[" "{") with false. change (Ascii.eqb "[" "[") with true. cbv iota.
    assert (Hall : Forall (streams fuel) l).
    { apply Forall_forall. intros v Hv. rewrite Forall_forall in IH. apply IH; [done|]. cbn [height] in Hf.
      pose proof (max_list_in (height v) (height <$> l) ltac:(by apply list_elem_of_fmap_2)). lia. }
    rewrite (array_loop_spec fuel l Hall).
    + cbn [map_strings]. destruct (map_list map_strings l st) as [[vs|] st']; cbn [fmap option_fmap option_map walked]; [|done].
      cbn [wrote_behind render]. by destruct vs.
    + rewrite length_app. cbn [length]. enough (length l <= length (concat (tokens <$> l)))%nat by lia. apply tokens_length.
  - cbn [tokens]. rewrite <- app_comm_cons, <- app_assoc. cbn [maskJSONStream app].
    change (Ascii.eqb "{" "{") with true. cbv iota.
    assert (Hall : Forall (fun kv => streams fuel kv.2) l).
    { apply Forall_forall. intros v Hv. rewrite Forall_forall in IH. apply IH; [done|]. cbn [height] in Hf.
      pose proof (max_list_in (height v.2) ((fun kv => height kv.2) <$> l)
        ltac:(by apply (list_elem_of_fmap_2 (fun kv => height kv.2)))). lia. }
    rewrite (object_loop_spec fuel l Hall).
    + cbn [map_strings]. change (map_list (fun kv st => _) l st) with (map_list member l st).
      destruct (map_list member l st) as [[vs|] st']; cbn [fmap option_fmap option_map walked]; [|done].
      cbn [wrote_behind render]. change (fun kv => json_Marshal_string kv.1 ++ ":"%char :: render kv.2) with member_text. by destruct vs.
    + rewrite length_app. cbn [length]. enough (length l <= length (concat ((fun kv => TString kv.1 :: tokens kv.2) <$> l)))%nat by lia.
      clear. induction l; cbn; [lia|]. rewrite length_app. cbn in *. lia.
Qed.

(** ** Shape *)

(** Two values that differ in their string values only, which are related. *)
Inductive alike (R : bytes -> bytes -> Prop) : json -> json -> Prop :=
| al_null : alike R JNull JNull
| al_bool b : alike R (JBool b) (JBool b)
| al_num n : alike R (JNum n) (JNum n)
| al_str s t : R s t -> alike R (JStr s) (JStr t)
| al_arr l m : Forall2 (alike R) l m -> alike R (JArr l) (JArr m)
| al_obj l m : Forall2 (fun kv kw => kv.1 = kw.1 /\ alike R kv.2 kw.2) l m -> alike R (JObj l) (JObj m).

Lemma alike_wf R v : forall w d, alike R v w -> well_formed d v -> well_formed d w.
Proof.
  induction v as [|b|n|s|l IH|l IH] using json_ind; intros w d Ha Hw; inversion Ha; subst; try done;
    (destruct d as [|d]; [done|]); cbn [well_formed] in *; rewrite Forall_forall in IH.
  - apply wf_arr. apply wf_arr in Hw. rewrite Forall_forall in Hw.
    eapply forall2_right; [eassumption|]. intros x y Hx Hxy. by apply (IH x Hx), Hw.
  - apply wf_obj. apply wf_obj in Hw. rewrite Forall_forall in Hw.
    eapply forall2_right; [eassumption|]. intros x y Hx [_ Hxy]. by apply (IH x Hx), Hw.
Qed.

(** After one trip through the text, from whole runes. *)
Lemma alike_whole R Q v : forall w, alike R v w -> whole v ->
  (forall s o, utf8_ok s -> R s o -> Q s (to_valid o)) -> alike Q v (cleaned w).
Proof.
  induction v as [|b|n|s|l IH|l IH] using json_ind; intros w Ha Hu HRQ; inversion Ha as [| | | |? m Hm|? m Hm]; subst;
    cbn [cleaned]; try by (constructor; eauto).
  - constructor. apply Forall2_fmap_r. cbn [whole] in Hu. apply whole_arr in Hu. rewrite Forall_forall in IH, Hu.
    eapply Forall2_impl_elem; [exact Hm|]. intros x y Hx Hxy. apply (IH x Hx); [done|by apply Hu|done].
  - constructor. apply Forall2_fmap_r. cbn [whole] in Hu. apply whole_obj in Hu. rewrite Forall_forall in IH, Hu.
    eapply Forall2_impl_elem; [exact Hm|]. intros x y Hx [Hk Hxy]. destruct (Hu x Hx) as [Huk Huv]. cbn [fst snd].
    split; [rewrite <- Hk; by rewrite to_valid_id|]. by apply (IH x Hx).
Qed.

(** ** States

    [le] is what every mask does to the state, and [ok] what it keeps. *)

Section tracked.
Variables (ok : St -> Prop) (le : St -> St -> Prop).
Context `{!PreOrder le}.
Hypothesis mask_ok : forall s st o st', ok st -> mask s st = (Some o, st') -> ok st' /\ le st st'.
#[local] Set Default Proof Using "Type*".

(** What the mask makes of [s] in a good state before [final]. *)
Definition masked_before (final : St) (s o : bytes) : Prop :=
  exists st st', ok st /\ mask s st = (Some o, st') /\ le st' final.

Lemma map_list_tracked {A} (R : St -> A -> A -> Prop) (f : A -> St -> option A * St) l :
  (forall x st y st', x ∈ l -> ok st -> f x st = (Some y, st') ->
     ok st' /\ le st st' /\ forall final, le st' final -> R final x y) ->
  forall st l' st', ok st -> map_list f l st = (Some l', st') ->
  ok st' /\ le st st' /\ forall final, le st' final -> Forall2 (R final) l l'.
Proof.
  induction l as [|x l IH]; intros Hf st l' st' Hst Hm; cbn [map_list] in Hm.
  { simplify_eq. split; [done|]. split; [done|]. constructor. }
  destruct (f x st) as [[y|] st1] eqn:Hx; [|done].
  destruct (map_list f l st1) as [[ys|] st2] eqn:Hl; cbn in Hm; [|done]. simplify_eq.
  destruct (Hf x st y st1 ltac:(left) Hst Hx) as (Hst1 & Hle1 & Hy).
  destruct (IH ltac:(intros; eapply Hf; [by right|done..]) st1 ys st' Hst1 Hl) as (Hst2 & Hle2 & Hys).
  split; [done|]. split; [by etrans|]. intros final Hfin. constructor; [apply Hy; by etrans|by apply Hys].
Qed.

Lemma map_strings_tracked v : forall st v' st', ok st -> map_strings v st = (Some v', st') ->
  ok st' /\ le st st' /\ forall final, le st' final -> alike (masked_before final) v v'.
Proof.
  induction v as [|b|n|s|l IH|l IH] using json_ind; intros st v' st' Hst Hm; cbn [map_strings] in Hm.
  1-3: simplify_eq; split; [done|]; split; [done|]; constructor.
  - destruct (mask s st) as [[o|] st1] eqn:Ho; cbn in Hm; [|done]. simplify_eq.
    destruct (mask_ok _ _ _ _ Hst Ho). split; [done|]. split; [done|]. intros final Hf. constructor. by exists st, st'.
  - destruct (map_list map_strings l st) as [[l'|] st1] eqn:Hl; cbn in Hm; [|done]. simplify_eq. rewrite Forall_forall in IH.
    destruct (map_list_tracked (fun final => alike (masked_before final)) map_strings l ltac:(intros x; intros; by apply (IH x)) st l' st' Hst Hl)
      as (? & ? & Hall).
    split; [done|]. split; [done|]. intros final Hf. constructor. by apply Hall.
  - change (map_list (fun kv st => _) l st) with (map_list member l st) in Hm.
    destruct (map_list member l st) as [[l'|] st1] eqn:Hl; cbn in Hm; [|done]. simplify_eq. rewrite Forall_forall in IH.
    destruct (map_list_tracked (fun final kv kw => kv.1 = kw.1 /\ alike (masked_before final) kv.2 kw.2) member l) with (st := st) (l' := l') (st' := st')
      as (? & ? & Hall); [|done|done|].
    { intros [k x] st2 [k' y] st3 Hx Hst2 Hf. unfold member in Hf. cbn [fst snd] in *.
      destruct (map_strings x st2) as [[w|] st4] eqn:Hw; cbn in Hf; [|done]. simplify_eq.
      destruct (IH (k', x) Hx st2 y st3 Hst2 Hw) as (? & ? & Ha). split; [done|]. split; [done|].
      intros final Hfin. split; [done|]. by apply Ha. }
    split; [done|]. split; [done|]. intros final Hf. constructor. by apply Hall.
Qed.
End tracked.

Lemma map_list_none {A} (f : A -> St -> option A * St) l : forall st st',
  map_list f l st = (None, st') -> exists x st, x ∈ l /\ f x st = (None, st').
Proof.
  induction l as [|x l IH]; intros st st' Hm; cbn [map_list] in Hm; [done|].
  destruct (f x st) as [[y|] st1] eqn:Hx.
  - destruct (map_list f l st1) as [[l'|] st2] eqn:Hl; cbn in Hm; [done|]. simplify_eq.
    destruct (IH _ _ Hl) as (x' & st3 & Hin & Hf). exists x', st3. split; [by right|done].
  - simplify_eq. exists x, st. split; [left|done].
Qed.

Lemma map_strings_panic v : forall st st', map_strings v st = (None, st') -> exists s st0, mask s st0 = (None, st').
Proof.
  induction v as [|b|n|s|l IH|l IH] using json_ind; intros st st' Hm; cbn [map_strings] in Hm; try done.
  - destruct (mask s st) as [[o|] st1] eqn:Ho; cbn in Hm; [done|]. simplify_eq. eauto.
  - destruct (map_list map_strings l st) as [[l'|] st1] eqn:Hl; cbn in Hm; [done|].
    simplify_eq. destruct (map_list_none _ _ _ _ Hl) as (x & st2 & Hx & Hf). rewrite Forall_forall in IH. by apply (IH x Hx st2).
  - change (map_list (fun kv st => _) l st) with (map_list member l st) in Hm.
    destruct (map_list member l st) as [[l'|] st1] eqn:Hl; cbn in Hm; [done|].
    simplify_eq. destruct (map_list_none _ _ _ _ Hl) as (x & st2 & Hx & Hf). rewrite Forall_forall in IH. unfold member in Hf.
    destruct (map_strings x.2 st2) as [[w|] st4] eqn:Hw; cbn in Hf; [done|]. simplify_eq. by apply (IH x Hx st2).
Qed.

Lemma height_tokens v : (height v <= length (tokens v))%nat.
Proof.
  induction v as [|b|n|s|l IH|l IH] using json_ind; cbn [height tokens length]; try lia; rewrite length_app;
    rewrite Forall_forall in IH.
  - enough (max_list (height <$> l) <= length (concat (tokens <$> l)))%nat by lia.
    apply max_list_bound. intros m (v & -> & Hv)%list_elem_of_fmap. etrans; [by apply IH|]. by apply concat_length_in, list_elem_of_fmap_2.
  - enough (max_list ((fun kv => height kv.2) <$> l) <= length (concat ((fun kv => TString kv.1 :: tokens kv.2) <$> l)))%nat by lia.
    apply max_list_bound. intros m (v & -> & Hv)%list_elem_of_fmap. etrans; [by apply IH|].
    etrans; [|by apply concat_length_in, list_elem_of_fmap_2]. cbn. lia.
Qed.

(** The walk over a valid body never falls back. *)
Lemma json_walk body v st : json_parse body = Some v ->
  mapJSONStringValues body st = (render <$> (map_strings v st).1, (map_strings v st).2).
Proof.
  intros Hp. unfold mapJSONStringValues. rewrite Hp.
  pose proof (walk_streams v (length (tokens v)) (height_tokens v) [] st) as Hs. rewrite app_nil_r in Hs. rewrite Hs.
  by destruct (map_strings v st) as [[v'|] st'].
Qed.

(** [t] is what the mask makes of [s] in some state, stray bytes replaced. *)
Definition masked_to (s t : bytes) : Prop := exists st o st', mask s st = (Some o, st') /\ t = to_valid o.

(** C29: masking a JSON body keeps the body.  The walk over the tokens never meets
    a decoding error, so the fallbacks on the raw text are not taken: the result
    is the compact text of the value with its strings masked in order.  Read
    again, it differs from the value of the body in the string values only: keys,
    numbers as they were written, literals, order and nesting stay, and each
    string is what the mask makes of the decoded one.  Without a result, the mask
    itself has panicked on a string. *)
Theorem masked_json body v st : json_parse body = Some v ->
  mapJSONStringValues body st = (render <$> (map_strings v st).1, (map_strings v st).2) /\
  match map_strings v st with
  | (Some v', _) => exists w, json_parse (render v') = Some w /\ alike masked_to v w
  | (None, st') => exists s st0, mask s st0 = (None, st')
  end.
Proof.
  intros Hp. destruct (json_parse_yields _ _ Hp) as [Hw Hu]. split; [by apply json_walk|].
  destruct (map_strings v st) as [[v'|] st'] eqn:Hm; [|by apply (map_strings_panic v st)].
  assert (Hpre : PreOrder (fun _ _ : St => True)) by by split.
  destruct (map_strings_tracked (fun _ => True) (fun _ _ => True) (fun _ _ _ _ _ _ => conj I I) v st v' st' I Hm)
    as (_ & _ & Ha). specialize (Ha st I). exists (cleaned v').
  split; [by apply json_parse_render, (alike_wf _ _ _ _ Ha)|].
  apply (alike_whole _ _ _ _ Ha Hu). intros s o _ (st0 & st1 & _ & Ho & _). by exists st0, o, st1.
Qed.
End walk.

(** A mask that marks strings, with a counter as its state. *)
Definition mark (s : bytes) (n : nat) : option bytes * nat := (Some (lit "<" ++ s ++ lit ">"), S n).
Definition q (s : string) : bytes := dq :: lit s ++ [dq].
Definition json_demo : bytes := lit "{ " ++ q "n" ++ lit ": 1.50e3, " ++ q "s" ++ lit " : [" ++ q "a" ++ lit ",null]}".

Lemma masked_json_witness :
  mapJSONStringValues mark json_demo 0%nat
    = (Some (lit "{" ++ q "n" ++ lit ":1.50e3," ++ q "s" ++ lit ":[" ++ q "\u003ca\u003e" ++ lit ",null]}"), 1%nat).
Proof.
  assert (Hp : json_parse json_demo = Some (JObj [(lit "n", JNum (lit "1.50e3")); (lit "s", JArr [JStr (lit "a"); JNull])]))
    by (vm_compute; reflexivity).
  rewrite (proj1 (masked_json mark json_demo _ 0%nat Hp)). vm_compute. reflexivity.
Defined.

(** Strings are written anew even when the mask leaves them: the comment of
    [mapJSONStringValues] promises the bytes of every string that is not masked. *)
Lemma untouched_strings_are_escaped :
  mapJSONStringValues (fun s st => (Some s, st)) (q "a<b & c/d") tt = (Some (q "a\u003cb \u0026 c/d"), tt).
Proof. by vm_compute. Qed.
