(* ===== verification/MaskApply.v ===== *)
(** * Applying the mask to a request body

    [Apply] of relay/mask/engine.go: the session's mapping is fetched, the rules
    are put together from the custom terms and the enabled built-in rules, the body
    is masked as JSON or as plain text, and the session is ended.  Any panic on the
    way becomes an error without a text. *)

From Stdlib Require Import Ascii String.
From S2P Require Import Prelude GoStrings MaskText MaskThms MaskSession GoRegexp GoJson RuneBytes GoJsonThms MaskRules MaskEngine MaskEngineThms MaskUtf8 MaskJson.
Local Open Scope list_scope.

(** The store, the random bytes each [Recall] will read, and the table of compiled
    terms ([customTermRegexCache]). *)
Record Engine := mkEngine { e_store : SessionStore; e_randoms : list (list Z); e_table : TermTable }.

(** [mr_Mapping] refers to the mapping in the store. *)
Record MaskResult := mkResult { mr_Masked : bytes; mr_Mapping : Z; mr_Matches : list Match }.

Section apply.
Context `{ord : !MapOrder bytes}.
Variables (maxMaskSessions now now_year : Z).

(** ** The mapping inside the store *)

Notation Store := (SessionStore * list (list Z))%type.

Definition recall_in (ref : Z) (o label : bytes) (st : Store) : option bytes * Store :=
  match st.2 with
  | [] => (None, st)
  | random :: rest =>
      match recall_in_store maxMaskSessions now ref o label random st.1 with
      | Some (token, s) => (Some token, (s, rest))
      | None => (None, (st.1, rest))
      end
  end.

Definition mapping_in (ref : Z) (st : Store) : Mapping := default newMapping (ms_objects st.1 !! ref).

Lemma publish_objects key ref s : ms_objects (publish_session maxMaskSessions now key ref s) = ms_objects s.
Proof. unfold publish_session. by case_match. Qed.

Lemma recall_in_some ref o label st token st' : recall_in ref o label st = (Some token, st') ->
  exists random m' rest bound, Recall o label random (mapping_in ref st) = Some (token, m', rest, bound) /\
    m_forward (mapping_in ref st') = m_forward m' /\ m_reverse (mapping_in ref st') = m_reverse m'.
Proof.
  destruct st as [s [|random rs]]; cbn; [done|]. unfold recall_in_store, mapping_in. cbn [fst snd].
  destruct (ms_objects s !! ref) as [m|] eqn:Hm; [|done]. cbn [mbind option_bind default].
  destruct (Recall o label random m) as [[[[t m'] rest] bound]|] eqn:Hr; [|done]. cbn [mbind option_bind].
  destruct bound; intros [= <- <-].
  - exists random, m', rest, true. split; [exact Hr|]. cbn [fst].
    destruct (m_onBind m); rewrite ?publish_objects; cbn; by rewrite lookup_insert_eq.
  - exists random, m', rest, false. split; [exact Hr|]. cbn [fst]. rewrite Hm. cbn. unfold Recall in Hr. destruct (unwrap 5 (m_reverse m) o) as [o'|tok]; [|by simplify_eq].
    destruct (m_forward m !! o'); [by simplify_eq|]. destruct (fresh_token _ _ _ _) as [[]|]; cbn in Hr; simplify_eq.
Qed.

Lemma recall_in_panic ref o label st st' : recall_in ref o label st = (None, st') -> mapping_in ref st' = mapping_in ref st.
Proof.
  destruct st as [s [|random rs]]; cbn; [by intros [= <-]|].
  destruct (recall_in_store _ _ _ _ _ _ _) as [[]|]; [done|]. by intros [= <-].
Qed.

Definition store_recaller (ref : Z) : Recaller Store :=
  {| recall := recall_in ref; mapping_of := mapping_in ref;
     recall_some := recall_in_some ref; recall_panic := recall_in_panic ref |}.

(** ** Apply *)

(** The rules of the terms, in the order of the terms; every one is in the table. *)
Definition term_rules (table : TermTable) (terms : list CustomTerm) : list Rule :=
  omap (fun t => if bool_decide (t = []) then None else (fun rx => mkRule (lit "TERM") rx 0) <$> table !! t) terms.

(** The rules of a call and the table left; [None] when compiling a term panics. *)
Definition rules_of (enabledRules : bytes -> bool) (terms : list CustomTerm) (table : TermTable)
  : option (list Rule * TermTable) :=
  let builtin := filter (fun r => enabledRules (Label r) = true) BuiltinRules in
  if bool_decide (terms = []) then Some (builtin, table)
  else '(next, cached) ← customTermTable table terms; Some (term_rules next terms ++ builtin, cached).

(** The closure [maskText]: the matches and the seen values are shared by all
    strings of a body. *)
Definition maskText (ref : Z) (rules : list Rule) (text : bytes) (st : Report * Store) : option bytes * (Report * Store) :=
  let '(o, rep, s) := maskCandidates (H := store_recaller ref) now_year rules text st.1 st.2 in (o, (rep, s)).

(** The body is walked as JSON when it starts like an object, an array or a string
    and is valid. *)
Definition json_body (body : bytes) : bool :=
  match trim_space body with
  | a :: _ => (Ascii.eqb a "{" || Ascii.eqb a "[" || Ascii.eqb a dq) && json_Valid body
  | [] => false
  end.

Definition Apply (body sessionKey : bytes) (enabledRules : bytes -> bool) (terms : list CustomTerm) (e : Engine)
  : option MaskResult * Engine :=
  let '(ref, s) := GetOrCreate now sessionKey (e_store e) in
  let ended s := End_ now sessionKey s in
  if bool_decide (body = []) then (Some (mkResult [] ref []), mkEngine (ended s) (e_randoms e) (e_table e)) else
  match rules_of enabledRules terms (e_table e) with
  | None => (None, mkEngine (ended s) (e_randoms e) (e_table e))
  | Some (rules, table) =>
      if bool_decide (rules = []) then (Some (mkResult body ref []), mkEngine (ended s) (e_randoms e) table) else
      let start := (mkReport [] ∅, (s, e_randoms e)) in
      let '(o, (rep, (s, randoms))) :=
        if json_body body then mapJSONStringValues (maskText ref rules) body start else maskText ref rules body start in
      ((fun masked => mkResult masked ref (matches_of rep)) <$> o, mkEngine (ended s) randoms table)
  end.

(** The mapping that a result refers to. *)
Definition mapping_at (ref : Z) (e : Engine) : Mapping := default newMapping (ms_objects (e_store e) !! ref).
End apply.

(** ** Applying the mask: what goes out can be restored

    The tables of all sessions stay sound through every call, and a body that was
    masked is restored from the mapping of the result: a plain text as a whole, a
    JSON body string by string. *)

From stdpp Require Import list.
Local Open Scope Z_scope.
Local Open Scope list_scope.

(** ** Recall of any value *)

Lemma unwrap_plain depth reverse o o' : unwrap depth reverse o = inl o' -> IsPlaceholder o' = false.
Proof.
  revert o. induction depth as [|depth IH]; intros o; cbn [unwrap]; destruct (IsPlaceholder o) eqn:Ho; try done.
  - by intros [= <-].
  - destruct (reverse !! o); [apply IH|done].
  - by intros [= <-].
Qed.

Lemma Recall_keeps o label random m token m' rest bound :
  tables_ok m -> Recall o label random m = Some (token, m', rest, bound) -> tables_ok m'.
Proof.
  intros Hm Hr. destruct (unwrap 5 (m_reverse m) o) as [o'|t] eqn:Hu.
  - pose proof (unwrap_plain _ _ _ _ Hu) as Hp. apply (Recall_tables o' label random m token m' rest bound Hm Hp).
    unfold Recall in *. rewrite Hu in Hr. cbn [unwrap]. by rewrite Hp.
  - unfold Recall in Hr. rewrite Hu in Hr. by simplify_eq.
Qed.

(** ** What every mask does to the state *)

Section replaced.
Context `{Recaller St}.
Variable le : St -> St -> Prop.
Context `{!PreOrder le}.
Hypothesis recall_le : forall o label st, le st (recall o label st).2.
#[local] Set Default Proof Using "Type*".

Lemma replace_le text cs : forall prev rep st, le st (replace_cands text cs prev rep st).2.
Proof.
  induction cs as [|c cs IH]; intros prev rep st; cbn [replace_cands]; [done|].
  destruct (origStart c <? prev)%nat; [apply IH|]. pose proof (recall_le (orig c) (rule_label c) st) as Hr.
  destruct (recall (orig c) (rule_label c) st) as [[token|] st1]; [|done]. cbn [snd] in Hr.
  pose proof (IH (origEnd c) (note (rule_label c) (orig c) token rep) st1) as Hc.
  destruct (replace_cands text cs (origEnd c) _ st1) as [[rest rep2] st2]. cbn [snd] in *. by etrans.
Qed.

Lemma mask_le now rules text rep st : le st (maskCandidates now rules text rep st).2.
Proof.
  unfold maskCandidates. destruct (_ || _); [done|]. destruct (collect now text rules); [done|]. apply replace_le.
Qed.
End replaced.

Section mapped.
Context {St : Type}.
Variables (mask : bytes -> St -> option bytes * St) (le : St -> St -> Prop).
Context `{!PreOrder le}.
Hypothesis mask_le_st : forall s st, le st (mask s st).2.
#[local] Set Default Proof Using "Type*".

Lemma map_list_le {A} (f : A -> St -> option A * St) l : (forall x st, x ∈ l -> le st (f x st).2) ->
  forall st, le st (map_list f l st).2.
Proof.
  induction l as [|x l IH]; intros Hf st; cbn [map_list]; [done|]. pose proof (Hf x st ltac:(left)) as Hx.
  destruct (f x st) as [[y|] st1]; [|done]. cbn [snd] in Hx.
  pose proof (IH ltac:(intros; apply Hf; by right) st1) as Hl. destruct (map_list f l st1) as [o st2]. cbn [snd] in *. by etrans.
Qed.

Lemma map_strings_le v : forall st, le st (map_strings mask v st).2.
Proof.
  induction v as [|b|n|s|l IH|l IH] using json_ind; intros st; cbn [map_strings]; try done.
  - pose proof (mask_le_st s st). by destruct (mask s st).
  - rewrite Forall_forall in IH. pose proof (map_list_le (map_strings mask) l ltac:(intros; by apply IH) st).
    by destruct (map_list _ l st).
  - rewrite Forall_forall in IH. change (map_list _ l st) with (map_list (member mask) l st).
    assert (Hle : le st (map_list (member mask) l st).2); [|by destruct (map_list _ l st)].
    apply map_list_le. intros kv st' Hkv. unfold member. pose proof (IH kv Hkv st'). by destruct (map_strings mask kv.2 st').
Qed.
End mapped.

(** ** The engine *)

(** The tables of every session are sound. *)
Definition engine_ok (e : Engine) : Prop := forall ref m, ms_objects (e_store e) !! ref = Some m -> tables_ok m.

Section engine.
Context `{ord : !MapOrder bytes}.
Variables (maxMaskSessions now now_year : Z).
Notation Store := (SessionStore * list (list Z))%type.

Definition store_tables (st : Store) : Prop := forall ref m, ms_objects st.1 !! ref = Some m -> tables_ok m.

Lemma tables_new : tables_ok newMapping.
Proof. apply mapping_tables, newMapping_ok. Qed.

Lemma mapping_in_ok ref st : store_tables st -> tables_ok (mapping_in ref st).
Proof.
  intros Hst. unfold mapping_in. destruct (ms_objects st.1 !! ref) as [m|] eqn:Hm; [by apply (Hst ref)|apply tables_new].
Qed.

(** Soundness of all tables, and the bindings of the mapping, are kept. *)
Definition keeps (ref : Z) (st st' : Store) : Prop := store_tables st ->
  store_tables st' /\
  forall o t, m_forward (mapping_in ref st) !! o = Some t -> m_forward (mapping_in ref st') !! o = Some t.

#[local] Instance keeps_preorder ref : PreOrder (keeps ref).
Proof.
  split; [by intros st Hst|]. intros x y z Hxy Hyz Hx. destruct (Hxy Hx) as [Hy H1]. destruct (Hyz Hy) as [Hz H2].
  split; [done|]. intros o t Ho. by apply H2, H1.
Qed.

Lemma Recall_forward o label random m token m' rest bound o' t :
  Recall o label random m = Some (token, m', rest, bound) -> m_forward m !! o' = Some t -> m_forward m' !! o' = Some t.
Proof.
  unfold Recall. destruct (unwrap 5 (m_reverse m) o) as [x|x]; [|by intros ?; simplify_eq].
  destruct (m_forward m !! x) eqn:Hx; [by intros ?; simplify_eq|].
  destruct (fresh_token _ _ _ _) as [[]|]; cbn; [|done]. intros ? Ho; simplify_eq. cbn.
  rewrite lookup_insert_ne; [done|]. intros ->. congruence.
Qed.

Lemma recall_keeps ref o label st : keeps ref st (recall_in maxMaskSessions now ref o label st).2.
Proof.
  intros Hst. unfold recall_in. destruct st as [s [|random rs]]; cbn [fst snd]; [done|].
  destruct (recall_in_store maxMaskSessions now ref o label random s) as [[token s']|] eqn:Hr; [|done].
  cbn [snd]. unfold recall_in_store in Hr. destruct (ms_objects s !! ref) as [m|] eqn:Hm; [|done]. cbn [mbind option_bind] in Hr.
  destruct (Recall o label random m) as [[[[t m'] rest] bound]|] eqn:Hrec; [|done]. cbn [mbind option_bind] in Hr.
  destruct bound; simplify_eq; [|done].
  assert (Hobj : forall x, ms_objects (match m_onBind m with
      | Some key => publish_session maxMaskSessions now key ref (mkStore (<[ref:=mkMapping (m_forward m') (m_reverse m') None]> (ms_objects s))
          (ms_next s) (ms_sessions s) (ms_inflight s))
      | None => mkStore (<[ref:=mkMapping (m_forward m') (m_reverse m') None]> (ms_objects s))
          (ms_next s) (ms_sessions s) (ms_inflight s) end) !! x = <[ref:=mkMapping (m_forward m') (m_reverse m') None]> (ms_objects s) !! x).
  { intros x. destruct (m_onBind m); [by rewrite publish_objects|done]. }
  split.
  - intros ref' m1. cbn [fst]. rewrite Hobj. destruct (decide (ref' = ref)) as [->|Hne].
    + rewrite lookup_insert_eq. intros [= <-]. pose proof (Recall_keeps _ _ _ _ _ _ _ _ (Hst _ _ Hm) Hrec) as Hok.
      by apply (tables_same m').
    + rewrite lookup_insert_ne by done. apply Hst.
  - intros o' t'. unfold mapping_in. cbn [fst]. rewrite Hm, Hobj, lookup_insert_eq. cbn. by apply (Recall_forward _ _ _ _ _ _ _ _ _ _ Hrec).
Qed.

Lemma maskText_keeps ref rules text st : keeps ref st.2 (maskText maxMaskSessions now now_year ref rules text st).2.2.
Proof.
  unfold maskText. pose proof (@mask_le _ (store_recaller maxMaskSessions now ref) (keeps ref) _
    (recall_keeps ref) now_year rules text st.1 st.2) as Hm.
  by destruct (maskCandidates now_year rules text st.1 st.2) as [[o rep] s].
Qed.

Lemma json_keeps ref rules body st : json_body body = true ->
  keeps ref st.2 (mapJSONStringValues (maskText maxMaskSessions now now_year ref rules) body st).2.2.
Proof.
  unfold json_body. destruct (trim_space body) as [|a l]; [done|]. intros [_ Hv]%andb_prop. unfold json_Valid in Hv.
  apply is_some_true in Hv as [v Hv]. rewrite (json_walk _ body v st Hv). cbn [snd].
  assert (Hpre : PreOrder (fun st st' : Report * Store => keeps ref st.2 st'.2)).
  { split; [by intros ?|]. intros x y z. apply transitivity. }
  apply (map_strings_le (maskText maxMaskSessions now now_year ref rules) (fun st st' => keeps ref st.2 st'.2)).
  intros s st'. apply maskText_keeps.
Qed.

Lemma get_objects key e ref m : engine_ok e ->
  ms_objects (GetOrCreate now key (e_store e)).2 !! ref = Some m -> tables_ok m.
Proof.
  intros He. pose proof (He ref) as Href. unfold GetOrCreate.
  assert (Hnew : forall k, tables_ok (mkMapping ∅ ∅ k)).
  { intros k. by apply (tables_same newMapping); [..|apply tables_new]. }
  repeat case_match; cbn; try apply Href; intros Hm; apply lookup_insert_Some in Hm as [[_ <-]|[_ Hm]];
    try apply Hnew; try (by apply Href); apply tables_new.
Qed.

Lemma end_objects key s : ms_objects (End_ now key s) = ms_objects s.
Proof. unfold End_. by case_match. Qed.

Lemma RestoreString_plain s rev : IsPlaceholder s = false -> RestoreString s (Some rev) = s.
Proof. intros Hs. rewrite RestoreString_Some. apply restore_none. by apply IsPlaceholder_false. Qed.

Lemma alike_refl (R : bytes -> bytes -> Prop) v : (forall s, R s s) -> alike R v v.
Proof.
  intros HR. induction v as [|b|n|s|l IH|l IH] using json_ind; constructor; [done|..].
  - apply Forall_Forall2_diag. exact IH.
  - apply Forall_Forall2_diag. apply (Forall_impl _ _ _ IH). by intros [k w].
Qed.

(** One text: restored from any later state of the same mapping. *)
Lemma maskText_restores ref rules text st masked st' final :
  store_tables st.2 -> maskText maxMaskSessions now now_year ref rules text st = (Some masked, st') ->
  keeps ref st'.2 final -> no_collision (mapping_in ref final) -> IsPlaceholder text = false ->
  RestoreString masked (Some (m_reverse (mapping_in ref final))) = text /\ (utf8_ok text -> utf8_ok masked).
Proof.
  intros Hst Hmask Hfin Hn Hp. pose proof (maskText_keeps ref rules text st Hst) as [Hst' _]. rewrite Hmask in Hst'. cbn [snd] in Hst'.
  unfold maskText in Hmask.
  destruct (maskCandidates now_year rules text st.1 st.2) as [[o rep] s] eqn:Hm. simplify_eq. cbn [snd] in *.
  pose proof (mapping_in_ok ref st.2 Hst) as Hok. destruct (Hfin Hst') as [Hstf Hkeep].
  split; [|intros Hu; exact (mask_utf8 (H := store_recaller maxMaskSessions now ref) _ _ _ _ _ _ _ _ Hok Hu Hm)].
  destruct (mask_spec (H := store_recaller maxMaskSessions now ref) _ _ _ _ _ _ _ _ Hok Hm) as (_ & _ & cts & Hsel & -> & Hall).
  pose proof (tables_mapping _ (mapping_in_ok ref final Hstf) Hn) as Hmf.
  rewrite RestoreString_Some, (restore_splice _ text Hmf cts 0), drop_0; [| lia | |rewrite Hsel; apply select_again].
  - apply restore_none. by apply IsPlaceholder_false.
  - intros ct Hct. rewrite Forall_forall in Hall. split; [|by apply Hkeep, Hall].
    assert (Hc : ct.1 ∈ cts.*1) by by apply list_elem_of_fmap_2. rewrite Hsel in Hc. apply select_sub in Hc.
    rewrite sort_cands_perm in Hc. case_match; [by apply elem_of_nil in Hc|]. by eapply collect_ok.
Qed.

(** What restoring does to the strings of a body. *)
Definition restores_to (m : Mapping) (s t : bytes) : Prop :=
  IsPlaceholder s = false -> RestoreString t (Some (m_reverse m)) = s.

Lemma json_restores ref rules body v st out st' :
  json_parse body = Some v -> store_tables st.2 ->
  mapJSONStringValues (maskText maxMaskSessions now now_year ref rules) body st = (Some out, st') ->
  no_collision (mapping_in ref st'.2) ->
  exists w, json_parse out = Some w /\ alike (restores_to (mapping_in ref st'.2)) v w.
Proof.
  intros Hp Hst Hm Hn. destruct (json_parse_yields _ _ Hp) as [Hw Hu].
  set (mask := maskText maxMaskSessions now now_year ref rules) in *.
  rewrite (json_walk mask body v st Hp) in Hm.
  destruct (map_strings mask v st) as [[v'|] st1] eqn:Hv; cbn in Hm; [|done]. simplify_eq.
  assert (Hpre : PreOrder (fun st st' : Report * Store => keeps ref st.2 st'.2)).
  { split; [by intros ?|]. intros x y z. apply transitivity. }
  destruct (map_strings_tracked mask (fun st => store_tables st.2) (fun st st' => keeps ref st.2 st'.2)) with (v := v) (st := st) (v' := v') (st' := st')
    as (Hst' & _ & Ha); [|done|done|].
  { intros s st0 o st2 Hst0 Ho. pose proof (maskText_keeps ref rules s st0) as Hk. fold mask in Hk. rewrite Ho in Hk. cbn [snd] in Hk.
    split; [by apply Hk|done]. }
  specialize (Ha st' ltac:(by intros ?)). exists (cleaned v').
  split; [by apply json_parse_render, (alike_wf _ _ _ _ Ha)|].
  apply (alike_whole _ _ _ _ Ha Hu). intros s o Hs (st0 & st2 & Hst0 & Ho & Hle) Hplain.
  destruct (maskText_restores ref rules s st0 o st2 st'.2 Hst0 Ho Hle Hn Hplain) as [Hr Hutf]. by rewrite to_valid_id by by apply Hutf.
Qed.

(** The end of [Apply], from what the masking gives. *)
Lemma finish_spec key ref table (st : Store) (out : option bytes * (Report * Store)) res e' :
  store_tables st -> keeps ref st out.2.2 ->
  (let '(o, (rep, (s, randoms))) := out in
   ((fun masked => mkResult masked ref (matches_of rep)) <$> o, mkEngine (End_ now key s) randoms table)) = (Some res, e') ->
  engine_ok e' /\ mr_Mapping res = ref /\ out = (Some (mr_Masked res), out.2) /\ mapping_at ref e' = mapping_in ref out.2.2.
Proof.
  destruct out as [o [rep [s randoms]]]. intros Hst Hk Heq. destruct o as [masked|]; cbn in Heq; [|done]. simplify_eq. cbn in *.
  destruct (Hk Hst) as [Hst' _]. split; [intros x m; cbn; rewrite end_objects; apply Hst'|].
  split; [done|]. split; [done|]. unfold mapping_at, mapping_in. cbn. by rewrite end_objects.
Qed.

(** C27: what a request sends can be restored.  After [Apply] succeeds, the tables of
    every session are sound again, and the mapping of the result undoes the mask: a
    plain body without placeholders is restored as a whole; a JSON body is JSON of
    the same shape, with its keys and numbers, and every string value that holds no
    placeholder is restored to the string it was.  The assumption is that no two
    values of the session share a token. *)
Theorem apply_restores body key enabled terms e res e' :
  engine_ok e -> Apply maxMaskSessions now now_year body key enabled terms e = (Some res, e') ->
  no_collision (mapping_at (mr_Mapping res) e') ->
  engine_ok e' /\
  (json_body body = false -> IsPlaceholder body = false ->
   RestoreString (mr_Masked res) (Some (m_reverse (mapping_at (mr_Mapping res) e'))) = body) /\
  (forall v, json_body body = true -> json_parse body = Some v ->
   exists w, json_parse (mr_Masked res) = Some w /\ alike (restores_to (mapping_at (mr_Mapping res) e')) v w).
Proof.
  intros He Happ Hn. unfold Apply in Happ. pose proof (get_objects key e) as Hget.
  destruct (GetOrCreate now key (e_store e)) as [ref s] eqn:Hg. cbn [snd] in Hget.
  assert (Hst : store_tables (s, e_randoms e)) by (intros r m; by apply Hget).
  assert (Hsame : forall r, engine_ok (mkEngine (End_ now key s) (e_randoms e) r)).
  { intros r x m. cbn. rewrite end_objects. by apply Hget. }
  assert (Hid : forall m v, alike (restores_to m) v v).
  { intros m v. apply alike_refl. intros x Hx. by apply RestoreString_plain. }
  case_bool_decide as Hbody.
  { simplify_eq. split; [done|]. split; [by intros; apply RestoreString_plain|done]. }
  destruct (rules_of enabled terms (e_table e)) as [[rules table]|]; [|done]. case_bool_decide as Hrules.
  { simplify_eq. split; [done|]. split; [by intros; apply RestoreString_plain|]. intros v _ Hv. by exists v. }
  set (start := (mkReport [] ∅, (s, e_randoms e))) in *.
  destruct (json_body body) eqn:Hjson.
  - destruct (finish_spec key ref table start.2 _ res e' Hst ltac:(by apply json_keeps) Happ) as (Hok & Href & Hout & Hmap).
    split; [done|]. split; [done|]. intros v _ Hv. rewrite Href, Hmap in *.
    by apply (json_restores ref rules body v start _ _ Hv Hst Hout).
  - destruct (finish_spec key ref table start.2 _ res e' Hst ltac:(apply maskText_keeps) Happ) as (Hok & Href & Hout & Hmap).
    split; [done|]. split; [|done]. intros _ Hp. rewrite Href, Hmap in *.
    apply (maskText_restores ref rules body start _ _ _ Hst Hout); [by intros ?|done|done].
Qed.

(** ** Failing closed *)

Lemma replace_panic `{Recaller St} text cs : forall prev rep (st : St) rep' st',
  replace_cands text cs prev rep st = (None, rep', st') -> exists o label st0 st1, recall o label st0 = (None, st1).
Proof.
  induction cs as [|c cs IH]; intros prev rep st rep' st' Hr; cbn [replace_cands] in Hr; [done|].
  destruct (origStart c <? prev)%nat; [by apply IH in Hr|].
  destruct (recall (orig c) (rule_label c) st) as [[token|] st1] eqn:Hrec; [|by eexists _, _, _, _].
  destruct (replace_cands text cs (origEnd c) _ st1) as [[[rest|] rep2] st2] eqn:Hrest; cbn in Hr; [done|].
  by apply IH in Hrest.
Qed.

Lemma mask_panic `{Recaller St} rules text rep (st : St) rep' st' :
  maskCandidates now_year rules text rep st = (None, rep', st') -> exists o label st0 st1, recall o label st0 = (None, st1).
Proof.
  unfold maskCandidates. destruct (_ || _); [done|]. destruct (collect now_year text rules); [done|]. apply replace_panic.
Qed.

Lemma maskText_panic ref rules text st st' : maskText maxMaskSessions now now_year ref rules text st = (None, st') ->
  exists o label st0 st1, recall_in maxMaskSessions now ref o label st0 = (None, st1).
Proof.
  unfold maskText. destruct (maskCandidates now_year rules text st.1 st.2) as [[o rep] s] eqn:Hm. intros ?. simplify_eq.
  by apply (mask_panic (H := store_recaller maxMaskSessions now ref)) in Hm.
Qed.

(** A term that does not compile. *)
Lemma compile_panic current next terms : compile_terms current next terms = None ->
  exists t, t ∈ terms /\ compileCustomTerm t = None.
Proof.
  revert next. induction terms as [|t terms IH]; intros next; cbn [compile_terms]; [done|].
  case_bool_decide as Ht.
  - intros Hn. destruct (IH _ Hn) as (t' & Hin & Hc). exists t'. split; [by right|done].
  - destruct (current !! t) as [rx|] eqn:Hcur; cbn [mbind option_bind].
    + intros Hn. destruct (IH _ Hn) as (t' & Hin & Hc). exists t'. split; [by right|done].
    + destruct (compileCustomTerm t) as [rx|] eqn:Hc; cbn [mbind option_bind].
      * intros Hn. destruct (IH _ Hn) as (t' & Hin & Hc'). exists t'. split; [by right|done].
      * intros _. exists t. split; [left|done].
Qed.

(** Masking fails only when it must, and then lets no text out.  [Apply] returns
    an error only if a custom term is not UTF-8, so that its pattern does not
    compile, or if a token could not be drawn from the random source; an error
    carries no text, and the tables of the sessions stay sound. *)
Theorem apply_fails_closed body key enabled terms e e' :
  engine_ok e -> Apply maxMaskSessions now now_year body key enabled terms e = (None, e') ->
  engine_ok e' /\
  ((exists t, t ∈ terms /\ compileCustomTerm t = None) \/
   (exists ref o label st st', recall_in maxMaskSessions now ref o label st = (None, st'))).
Proof.
  intros He Happ. unfold Apply in Happ. pose proof (get_objects key e) as Hget.
  destruct (GetOrCreate now key (e_store e)) as [ref s] eqn:Hg. cbn [snd] in Hget.
  assert (Hst : store_tables (s, e_randoms e)) by (intros r m; by apply Hget).
  case_bool_decide; [done|].
  destruct (rules_of enabled terms (e_table e)) as [[rules table]|] eqn:Hrules.
  2:{ simplify_eq. split; [intros x m; cbn; rewrite end_objects; by apply Hget|]. left.
      unfold rules_of in Hrules. case_bool_decide; [done|]. unfold customTermTable in Hrules.
      destruct (customTermTableHits _ _); [done|].
      destruct (compile_terms (e_table e) ∅ terms) eqn:Hc; [done|]. by apply compile_panic in Hc. }
  case_bool_decide; [done|]. set (start := (mkReport [] ∅, (s, e_randoms e))) in *.
  assert (Hout : exists out : option bytes * (Report * Store), keeps ref start.2 out.2.2 /\
    (out.1 = None -> exists o label st st', recall_in maxMaskSessions now ref o label st = (None, st')) /\
    (let '(o, (rep, (s, randoms))) := out in
     ((fun masked => mkResult masked ref (matches_of rep)) <$> o, mkEngine (End_ now key s) randoms table)) = (None, e')).
  { destruct (json_body body) eqn:Hjson; eexists; split; [by apply json_keeps| |apply maskText_keeps|]; (split; [|exact Happ]).
    - intros Hn. pose proof Hjson as Hv. unfold json_body in Hv. destruct (trim_space body); [done|]. apply andb_prop in Hv as [_ Hv].
      apply is_some_true in Hv as [v Hv]. rewrite (json_walk _ body v start Hv) in Hn.
      destruct (map_strings _ v start) as [[v'|] st1] eqn:Hms; [done|]. destruct (map_strings_panic _ _ _ _ Hms) as (x & st0 & Hx). by apply maskText_panic in Hx.
    - intros Hn. destruct (maskText _ _ _ ref rules body start) as [o st1] eqn:Hm. cbn in Hn. subst o. by apply maskText_panic in Hm. }
  destruct Hout as ([o [rep [s' randoms]]] & Hk & Hp & Heq). destruct o as [masked|]; cbn in Heq; [done|]. simplify_eq.
  destruct (Hk Hst) as [Hst' _]. split; [intros x m; cbn; rewrite end_objects; apply Hst'|].
  right. exists ref. by apply Hp.
Qed.
End engine.

(** ** A body *)

Definition apply_engine : Engine := mkEngine NewSessionStore demo_randoms ∅.
Definition apply_body : bytes := lit "{" ++ q "phone" ++ lit ": " ++ q "call 13800138000" ++ lit ", " ++ q "n" ++ lit ": 13800138000}".
Definition apply_out : bytes := lit "{" ++ q "phone" ++ lit ":" ++ q "call {{PHONE_bcdfgh}}" ++ lit "," ++ q "n" ++ lit ":13800138000}".
Definition apply_run := Apply 4096 0 2026 apply_body (lit "chat") (fun _ => true) [] apply_engine.
Definition apply_result : MaskResult := mkResult apply_out 0 [mkMatch (lit "PHONE") (lit "13800138000") (lit "{{PHONE_bcdfgh}}")].

Lemma apply_engine_ok : engine_ok apply_engine.
Proof. intros ref m Hm. assert (Hn : (∅ : gmap Z Mapping) !! ref = Some m) by exact Hm. by rewrite lookup_empty in Hn. Qed.

Lemma apply_run_result :
  Apply 4096 0 2026 apply_body (lit "chat") (fun _ => true) [] apply_engine = (Some apply_result, apply_run.2).
Proof.
  assert (Hr : apply_run.1 = Some apply_result) by (vm_compute; reflexivity).
  rewrite <- Hr. unfold apply_run. apply surjective_pairing.
Qed.

Lemma apply_no_collision : no_collision (mapping_at (mr_Mapping apply_result) apply_run.2).
Proof. apply no_collision_check. vm_compute. reflexivity. Qed.

Lemma apply_restores_witness :
  exists w, json_parse apply_out = Some w /\
    alike (restores_to (mapping_at 0 apply_run.2))
      (JObj [(lit "phone", JStr (lit "call 13800138000")); (lit "n", JNum (lit "13800138000"))]) w.
Proof.
  exact (proj2 (proj2 (apply_restores 4096 0 2026 apply_body (lit "chat") (fun _ => true) [] apply_engine apply_result apply_run.2
    apply_engine_ok apply_run_result apply_no_collision)) _ eq_refl eq_refl).
Defined.

(** A term that is not UTF-8. *)
Definition bad_term : bytes := [of_byte 0xFF].
Lemma apply_fails_closed_witness :
  (exists t, t ∈ [bad_term] /\ compileCustomTerm t = None) \/
  (exists ref o label st st', recall_in 4096 0 ref o label st = (None, st')).
Proof.
  exact (proj2 (apply_fails_closed 4096 0 2026 (lit "x") (lit "chat") (fun _ => true) [bad_term] apply_engine
    (Apply 4096 0 2026 (lit "x") (lit "chat") (fun _ => true) [bad_term] apply_engine).2
    apply_engine_ok eq_refl)).
Defined.

(** ** The cache of compiled terms *)

Definition cache_ok (table : TermTable) : Prop := forall t rx, table !! t = Some rx -> compileCustomTerm t = Some rx.

Lemma compile_terms_spec current terms : cache_ok current -> forall next table,
  cache_ok next -> compile_terms current next terms = Some table ->
  cache_ok table /\ (forall t, t ∈ terms -> t <> [] -> is_Some (table !! t)) /\
  (forall t, is_Some (next !! t) -> is_Some (table !! t)).
Proof.
  intros Hcur. induction terms as [|t terms IH]; intros next table Hnext Hc; cbn [compile_terms] in Hc.
  { simplify_eq. split; [done|]. split; [by intros ? ?%elem_of_nil|done]. }
  case_bool_decide as Ht.
  { destruct (IH _ _ Hnext Hc) as (Hok & Hin & Hold). split; [done|]. split; [|done].
    intros t' [->|Hin']%elem_of_cons Hne; [done|by apply Hin]. }
  destruct (match current !! t with Some rx => Some rx | None => compileCustomTerm t end) as [rx|] eqn:Hrx; [|done].
  cbn [mbind option_bind] in Hc. assert (Hnext' : cache_ok (<[t := rx]> next)).
  { intros t' rx' Hl. apply lookup_insert_Some in Hl as [[<- <-]|[_ Hl]]; [|by apply Hnext].
    destruct (current !! t) as [rx'|] eqn:Hl; [|done]. simplify_eq. by apply Hcur. }
  destruct (IH _ _ Hnext' Hc) as (Hok & Hin & Hold). split; [done|]. split.
  - intros t' [->|Hin']%elem_of_cons Hne; [|by apply Hin]. apply Hold. rewrite lookup_insert_eq. eauto.
  - intros t' [rx' Hl]. apply Hold. destruct (decide (t' = t)) as [->|]; [rewrite lookup_insert_eq; eauto|].
    rewrite lookup_insert_ne by done. eauto.
Qed.

Lemma table_hits_in current terms n : table_hits current terms = Some n ->
  forall t, t ∈ terms -> t <> [] -> is_Some (current !! t).
Proof.
  revert n. induction terms as [|t terms IH]; intros n; cbn [table_hits]; [by intros _ ? ?%elem_of_nil|].
  case_bool_decide as Ht.
  - intros Hh t' [->|Hin]%elem_of_cons Hne; [done|by apply (IH n)].
  - destruct (current !! t) as [rx|] eqn:Hc; [|done]. destruct (table_hits current terms) as [m|] eqn:Hm; [|done].
    intros _ t' [->|Hin]%elem_of_cons Hne; [rewrite Hc; eauto|by apply (IH m)].
Qed.

(** The cache never changes what a term compiles to: whatever it held, every
    non-empty term is found with its own pattern, and the table left is as good. *)
Lemma term_table_exact table terms next cached :
  cache_ok table -> customTermTable table terms = Some (next, cached) ->
  cache_ok cached /\ forall t, t ∈ terms -> t <> [] -> next !! t = compileCustomTerm t /\ is_Some (next !! t).
Proof.
  intros Hok Hc. assert (Hfound : cache_ok next /\ (forall t, t ∈ terms -> t <> [] -> is_Some (next !! t)) /\ cached = next).
  { unfold customTermTable in Hc. destruct (customTermTableHits table terms) eqn:Hh.
    - simplify_eq. split; [done|]. split; [|done]. unfold customTermTableHits in Hh.
      destruct (table_hits cached terms) as [n|] eqn:Hn; [|done]. by eapply table_hits_in.
    - destruct (compile_terms table ∅ terms) as [t|] eqn:Ht; [|done]. cbn in Hc. simplify_eq.
      destruct (compile_terms_spec table terms Hok ∅ cached) as (? & ? & _); [|done|done].
      intros t rx Hl. by rewrite lookup_empty in Hl. }
  destruct Hfound as (Hn & Hin & ->). split; [done|]. intros t Ht Hne. destruct (Hin t Ht Hne) as [rx Hrx].
  split; [|by exists rx]. rewrite Hrx. symmetry. by apply Hn.
Qed.

(** A dropped term can stay compiled when another one is listed twice. *)
Lemma dropped_term_stays :
  let a := lit "a" in let b := lit "b" in
  match customTermTable ∅ [a; b] with
  | Some (_, cached) => (fun nc => is_some (nc.2 !! b)) <$> customTermTable cached [a; a] = Some true
  | None => False
  end.
Proof. by vm_compute. Qed.
