(* ===== verification/Gjson.v ===== *)
(** * gjson and sjson

    The two packages with which the relay reads and edits JSON text.  They are not
    part of the repository: the class [Gjson] names the functions that the sources
    use and the documented behaviour they rely on, over the values of [GoJson].
    A path is a list of keys and indices. *)

From Stdlib Require Import Ascii String.
From stdpp Require Import pretty.
From S2P Require Import Prelude GoStrings GoInts Utf8 MaskText GoJson RuneBytes GoJsonThms.
Local Open Scope Z_scope.
Local Open Scope list_scope.

(** ** Paths *)

Inductive seg := Key (k : bytes) | Idx (i : nat).
#[export] Instance seg_eq_dec : EqDecision seg.
Proof. solve_decision. Defined.
Notation path := (list seg).
Definition key (s : string) : seg := Key (lit s).

(** The text of a segment: the key it selects in an object. *)
Definition seg_key (s : seg) : bytes := match s with Key k => k | Idx i => lit (pretty (N.of_nat i)) end.

Fixpoint field (k : bytes) (kvs : list (bytes * json)) : option json :=
  match kvs with
  | [] => None
  | (k', v) :: kvs => if bool_decide (k = k') then Some v else field k kvs
  end.
Definition child (s : seg) (v : json) : option json :=
  match v, s with
  | JObj kvs, _ => field (seg_key s) kvs
  | JArr l, Idx i => l !! i
  | _, _ => None
  end.

(** [gjson.Get]: the value at a path, the first one of repeated keys. *)
Fixpoint get (p : path) (v : json) : option json :=
  match p with
  | [] => Some v
  | s :: p => child s v ≫= get p
  end.

Fixpoint set_field (k : bytes) (f : option json -> option json) (kvs : list (bytes * json)) : option (list (bytes * json)) :=
  match kvs with
  | [] => v ← f None; Some [(k, v)]
  | (k', v) :: kvs =>
      if bool_decide (k = k') then w ← f (Some v); Some ((k', w) :: kvs)
      else kvs ← set_field k f kvs; Some ((k', v) :: kvs)
  end.

(** [sjson.Set] where the place exists, or is a new key of an object, which goes to
    its end.  [None]: a case the sources do not rely on. *)
Fixpoint set_at (p : path) (w : json) (v : json) : option json :=
  match p with
  | [] => Some w
  | s :: p =>
      match v, s with
      | JObj kvs, _ =>
          JObj <$> set_field (seg_key s)
            (fun o => match o with Some v => set_at p w v | None => if bool_decide (p = []) then Some w else None end) kvs
      | JArr l, Idx i => v ← l !! i; u ← set_at p w v; Some (JArr (<[i := u]> l))
      | _, _ => None
      end
  end.

(** ** Results *)

(** A [gjson.Result] is the value found, or none. *)
Notation Result := (option json).

Definition IsString (r : Result) : bool := match r with Some (JStr _) => true | _ => false end.
Definition IsNumber (r : Result) : bool := match r with Some (JNum _) => true | _ => false end.
Definition IsObject (r : Result) : bool := match r with Some (JObj _) => true | _ => false end.
Definition IsArray (r : Result) : bool := match r with Some (JArr _) => true | _ => false end.
Definition IsNull (r : Result) : bool := match r with Some JNull | None => true | _ => false end.
Definition Exists (r : Result) : bool := is_some r.
(** [Result.Array]: a value that is no array stands for itself. *)
Definition Array (r : Result) : list json :=
  match r with None | Some JNull => [] | Some (JArr l) => l | Some v => [v] end.
Definition Get (r : Result) (p : path) : Result := v ← r; get p v.

(** Values that sjson writes for the sources: strings and numbers. *)
Definition scalar_value (w : json) : Prop :=
  match w with JStr _ | JBool _ => True | JNum n => number_ok n | _ => False end.

(** Keys are text. *)
Definition path_ok (p : path) : Prop := Forall (fun s => utf8_ok (seg_key s)) p.

(** The literal of a number that sjson and encoding/json write. *)
Definition number_text (z : Z) : bytes := lit (pretty z).

(** Text as sjson and the sources pass it around, and as bytes. *)
Notation soa := string_of_list_ascii.
Notation aos := list_ascii_of_string.

(** Arrays and objects inside one another. *)
Fixpoint nesting (v : json) : nat :=
  match v with
  | JArr l => S (max_list (nesting <$> l))
  | JObj l => S (max_list ((fun kv => nesting kv.2) <$> l))
  | _ => 0
  end.

(** [json.Marshal] of a map; it checks each [json.RawMessage] in it, which may not
    be nested deeper than the decoder allows. *)
Definition json_Marshal (kvs : list (bytes * json)) : option string :=
  if forallb (fun kv => (nesting kv.2 <=? maxNestingDepth)%nat) kvs then Some (soa (render (JObj kvs))) else None.

Class Gjson := {
  ValidBytes : string -> bool;
  ParseBytes : string -> json;
  Text : json -> bytes;        (** [Result.String] of numbers, objects and arrays *)
  Int : json -> Z;             (** [Result.Int] *)
  Bool : json -> bool;         (** [Result.Bool] *)
  SetBytes : string -> path -> json -> option string;
  SetRawBytes : string -> path -> json -> option string;   (** the text of a value, as it is *)
  (** an edit of a valid document changes that place only; invalid UTF-8 is replaced *)
  SetBytes_ok : forall body p w v, ValidBytes body = true -> scalar_value w -> path_ok p ->
    set_at p (cleaned w) (ParseBytes body) = Some v ->
    exists body', SetBytes body p w = Some body' /\ ValidBytes body' = true /\ ParseBytes body' = v;
  SetRawBytes_ok : forall body p w v d, ValidBytes body = true -> well_formed d w -> whole w -> path_ok p ->
    set_at p w (ParseBytes body) = Some v ->
    exists body', SetRawBytes body p w = Some body' /\ ValidBytes body' = true /\ ParseBytes body' = v;
  ValidBytes_empty : ValidBytes "" = false;
  ParseBytes_ok : forall body, ValidBytes body = true -> exists d, well_formed d (ParseBytes body);
  (** what encoding/json writes reads as the same value *)
  ParseBytes_render : forall v d, well_formed d v ->
    ValidBytes (soa (render v)) = true /\ ParseBytes (soa (render v)) = cleaned v;
  (** the type of a value is read off its first character *)
  ParseBytes_list : forall body, TrimSpace body = "[DONE]"%string -> exists l, ParseBytes body = JArr l;
  Int_range : forall v, minInt64 <= Int v <= maxInt64;
  Int_text : forall z, minInt64 <= z <= maxInt64 -> Int (JNum (number_text z)) = z;
}.

Section results.
Context `{Gjson}.

Definition GetBytes (body : string) (p : path) : Result := get p (ParseBytes body).
(** [Result.String]. *)
Definition Str (r : Result) : bytes :=
  match r with
  | None | Some JNull => []
  | Some (JStr s) => s
  | Some (JBool b) => lit (if b then "true" else "false")
  | Some v => Text v
  end.
Definition IntOf (r : Result) : Z := from_option Int 0 r.
Definition BoolOf (r : Result) : bool := from_option Bool false r.
Definition StrIs (r : Result) (s : string) : bool := bool_decide (Str r = lit s).
End results.

(** ** Reading behind an edit

    What [get] finds after [set_at], and [Gjson] on the JSON values of
    encoding/json: the promises of the class can be kept. *)

From S2P Require Import Runes GoRegexp Boundaries.
From stdpp Require Import list pretty.
Local Open Scope Z_scope.
Local Open Scope list_scope.

Lemma get_app p q v : get (p ++ q) v = get p v ≫= get q.
Proof. revert v. induction p as [|s p IH]; intros v; cbn [app get]; [done|]. destruct (child s v); cbn; [apply IH|done]. Qed.

(** ** One step *)

Lemma field_set k f kvs kvs' : set_field k f kvs = Some kvs' ->
  exists w, f (field k kvs) = Some w /\ field k kvs' = Some w.
Proof.
  revert kvs'. induction kvs as [|[k' v] kvs IH]; intros kvs'; cbn [set_field field].
  - destruct (f None) as [w|]; [|done]. cbn. intros [= <-]. exists w. cbn. by rewrite bool_decide_true.
  - case_bool_decide as Hk.
    + destruct (f (Some v)) as [w|]; [|done]. cbn. intros [= <-]. exists w. cbn. by rewrite bool_decide_true.
    + destruct (set_field k f kvs) as [l|]; [|done]. cbn. intros [= <-]. destruct (IH l eq_refl) as (w & Hw & Hl).
      exists w. cbn. by rewrite bool_decide_false.
Qed.

Lemma field_set_other k j f kvs kvs' : set_field k f kvs = Some kvs' -> j ≠ k -> field j kvs' = field j kvs.
Proof.
  intros Hset Hj. revert kvs' Hset. induction kvs as [|[k' v] kvs IH]; intros kvs'; cbn [set_field field].
  - destruct (f None) as [w|]; [|done]. cbn. intros [= <-]. cbn. by rewrite bool_decide_false.
  - case_bool_decide as Hk.
    + destruct (f (Some v)) as [w|]; [|done]. cbn. intros [= <-]. cbn. subst k'. by rewrite !bool_decide_false.
    + destruct (set_field k f kvs) as [l|]; [|done]. cbn. intros [= <-]. cbn. case_bool_decide; [done|by apply IH].
Qed.

Lemma set_field_some k f kvs : is_Some (f (field k kvs)) -> is_Some (set_field k f kvs).
Proof.
  induction kvs as [|[k' u] kvs IH]; cbn [set_field field]; [intros [w ->]; by eexists|]. case_bool_decide as Hk.
  - intros [w ->]. by eexists.
  - intros Hs. destruct (IH Hs) as [l ->]. by eexists.
Qed.
Lemma fmap_set_field {A} (g : list (bytes * json) -> A) k f kvs : is_Some (f (field k kvs)) -> is_Some (g <$> set_field k f kvs).
Proof. intros [l ->]%set_field_some. by eexists. Qed.

Lemma set_field_ext k f g kvs : f (field k kvs) = g (field k kvs) -> set_field k f kvs = set_field k g kvs.
Proof.
  induction kvs as [|[k' v] kvs IH]; cbn [set_field field]; [by intros ->|]. case_bool_decide; [by intros ->|].
  intros Hfg. by rewrite IH.
Qed.

Lemma set_field_get k f kvs v : field k kvs = Some v -> f (Some v) = Some v -> set_field k f kvs = Some kvs.
Proof.
  induction kvs as [|[k' u] kvs IH]; cbn [set_field field]; [done|]. case_bool_decide as Hk.
  - intros [= ->] ->. done.
  - intros Hf Hs. by rewrite IH.
Qed.

Lemma set_field_twice k f g kvs l : set_field k f kvs = Some l ->
  set_field k g l = set_field k (fun o => f o ≫= g ∘ Some) kvs.
Proof.
  revert l. induction kvs as [|[k' v] kvs IH]; intros l; cbn [set_field].
  - destruct (f None) as [w|]; [|done]. cbn. intros [= <-]. cbn. by rewrite bool_decide_true.
  - case_bool_decide as Hk.
    + destruct (f (Some v)) as [w|]; [|done]. cbn. intros [= <-]. cbn. by rewrite bool_decide_true.
    + destruct (set_field k f kvs) as [r|]; [|done]. cbn. intros [= <-]. cbn. rewrite bool_decide_false by done.
      by rewrite (IH r).
Qed.

Lemma set_field_commute j k f g kvs l m : j ≠ k -> is_some (field j kvs) = true -> is_some (field k kvs) = true ->
  set_field j f kvs = Some l -> set_field k g l = Some m ->
  exists l', set_field k g kvs = Some l' /\ set_field j f l' = Some m.
Proof.
  intros Hjk. revert l m. induction kvs as [|[k' v] kvs IH]; intros l m; cbn [set_field field]; [done|].
  case_bool_decide as Hj; case_bool_decide as Hk.
  - congruence.
  - intros _ Hk1. destruct (f (Some v)) as [w|] eqn:Hf; [|done]. cbn. intros [= <-]. cbn. rewrite bool_decide_false by done.
    destruct (set_field k g kvs) as [r|]; [|done]. cbn. intros [= <-]. eexists. split; [done|]. cbn.
    by rewrite bool_decide_true, Hf.
  - intros Hj1 _. destruct (set_field j f kvs) as [r|] eqn:Hf; [|done]. cbn. intros [= <-]. cbn. rewrite bool_decide_true by done.
    destruct (g (Some v)) as [w|]; [|done]. cbn. intros [= <-]. eexists. split; [done|]. cbn.
    by rewrite bool_decide_false, Hf.
  - intros Hj1 Hk1. destruct (set_field j f kvs) as [r|] eqn:Hf; [|done]. cbn. intros [= <-]. cbn. rewrite bool_decide_false by done.
    destruct (set_field k g r) as [r'|] eqn:Hg; [|done]. cbn. intros [= <-].
    destruct (IH _ _ Hj1 Hk1 eq_refl Hg) as (l' & -> & Hl'). eexists. split; [done|]. cbn. by rewrite bool_decide_false, Hl'.
Qed.

(** ** Paths that part *)

Inductive diverge : path -> path -> Prop :=
| diverge_here s s' p q : seg_key s ≠ seg_key s' -> diverge (s :: p) (s' :: q)
| diverge_later s p q : diverge p q -> diverge (s :: p) (s :: q).

Lemma diverge_sym p q : diverge p q -> diverge q p.
Proof. induction 1; [by apply diverge_here|by apply diverge_later]. Qed.
Lemma diverge_app r p q : diverge p q -> diverge (r ++ p) (r ++ q).
Proof. induction r as [|s r IH]; [done|]. intros Hd. by apply diverge_later, IH. Qed.
Lemma diverge_more p q p' q' : diverge p q -> diverge (p ++ p') (q ++ q').
Proof. induction 1; cbn [app]; [by apply diverge_here|by apply diverge_later]. Qed.
Lemma idx_key (a b : nat) : a ≠ b -> seg_key (Idx a) ≠ seg_key (Idx b).
Proof.
  intros Hne Heq. apply Hne. cbn in Heq. apply (f_equal soa) in Heq. unfold lit in Heq.
  rewrite !string_of_list_ascii_of_string in Heq. by apply (inj pretty), Nat2N.inj in Heq.
Qed.

Lemma set_at_spec p w : forall v v', set_at p w v = Some v' -> get p v' = Some w.
Proof.
  induction p as [|s p IH]; intros v v'; cbn [set_at get]; [congruence|].
  destruct v as [| | | |l|kvs]; try done.
  - destruct s as [|i]; [done|]. destruct (l !! i) as [u|] eqn:Hu; [|done]. cbn [mbind option_bind].
    destruct (set_at p w u) as [u'|] eqn:Hs; [|done]. cbn [mbind option_bind]. intros [= <-]. cbn [child].
    rewrite list_lookup_insert_eq by (by eapply lookup_lt_Some). by apply (IH u).
  - destruct (set_field (seg_key s) _ kvs) as [kvs'|] eqn:Hf; [|done]. cbn. intros [= <-]. cbn [child].
    apply field_set in Hf as (u & Hu & Hk). rewrite Hk. cbn. destruct (field (seg_key s) kvs) as [x|]; [by apply (IH x)|].
    case_bool_decide as Hp; [|done]. subst p. cbn [get]. congruence.
Qed.

Lemma set_at_other p q w : diverge p q -> forall v v', set_at p w v = Some v' -> get q v' = get q v.
Proof.
  induction 1 as [s s' p q Hne|s p q Hd IH]; intros v v'; cbn [set_at get]; destruct v as [| | | |l|kvs]; try done.
  - destruct s as [|i]; [done|]. destruct (l !! i) as [u|]; [|done]. cbn [mbind option_bind].
    destruct (set_at p w u) as [u'|]; [|done]. cbn [mbind option_bind]. intros [= <-]. destruct s' as [|j]; [done|]. cbn [child].
    rewrite list_lookup_insert_ne; [done|]. by intros ->.
  - destruct (set_field (seg_key s) _ kvs) as [kvs'|] eqn:Hf; [|done]. cbn. intros [= <-]. cbn [child].
    by rewrite (field_set_other _ _ _ _ _ Hf).
  - destruct s as [|i]; [done|]. destruct (l !! i) as [u|] eqn:Hu; [|done]. cbn [mbind option_bind].
    destruct (set_at p w u) as [u'|] eqn:Hs; [|done]. cbn [mbind option_bind]. intros [= <-]. cbn [child].
    rewrite list_lookup_insert_eq by (by eapply lookup_lt_Some). rewrite Hu. cbn. by apply IH.
  - destruct (set_field (seg_key s) _ kvs) as [kvs'|] eqn:Hf; [|done]. cbn. intros [= <-]. cbn [child].
    apply field_set in Hf as (u & Hu & Hk). rewrite Hk. destruct (field (seg_key s) kvs) as [x|]; cbn; [by apply IH|].
    case_bool_decide as Hp; [|done]. subst p. by inversion Hd.
Qed.

Lemma set_at_some p w : forall v u, get p v = Some u -> is_Some (set_at p w v).
Proof.
  induction p as [|s p IH]; intros v u; cbn [set_at get]; [by eexists|].
  destruct v as [| | | |l|kvs]; try done; cbn [child].
  - destruct s as [|i]; [done|]. destruct (l !! i) as [x|]; [|done]. cbn [mbind option_bind]. intros Hg.
    destruct (IH x u Hg) as [x' ->]. by eexists.
  - intros Hg. apply fmap_set_field. destruct (field (seg_key s) kvs) as [x|] eqn:Hf; [|done]. by apply (IH x u).
Qed.

(** A new key of an object that is there. *)
Lemma set_at_new p k w : forall v kvs, get p v = Some (JObj kvs) -> field k kvs = None ->
  is_Some (set_at (p ++ [Key k]) w v).
Proof.
  induction p as [|s p IH]; intros v kvs; cbn [set_at get app].
  - intros [= ->] Hn. apply fmap_set_field. cbn [seg_key]. rewrite Hn. by eexists.
  - destruct v as [| | | |l|kvs']; try done; cbn [child].
    + destruct s as [|i]; [done|]. destruct (l !! i) as [x|]; [|done]. cbn [mbind option_bind]. intros Hg Hn.
      destruct (IH x kvs Hg Hn) as [x' ->]. by eexists.
    + intros Hg Hn. apply fmap_set_field. destruct (field (seg_key s) kvs') as [x|] eqn:Hf; [|done]. by apply (IH x kvs).
Qed.

Lemma set_at_get p : forall v w, get p v = Some w -> set_at p w v = Some v.
Proof.
  induction p as [|s p IH]; intros v w; cbn [set_at get]; [congruence|]. destruct v as [| | | |l|kvs]; try done; cbn [child].
  - destruct s as [|i]; [done|]. destruct (l !! i) as [x|] eqn:Hx; [|done]. cbn [mbind option_bind]. intros Hg.
    rewrite (IH x w Hg). cbn [mbind option_bind]. by rewrite list_insert_id.
  - destruct (field (seg_key s) kvs) as [x|] eqn:Hf; [|done]. cbn [mbind option_bind]. intros Hg.
    rewrite (set_field_get _ _ _ x); [done|done|by apply IH].
Qed.

Lemma set_at_twice p w u : forall v v', set_at p w v = Some v' -> set_at p u v' = set_at p u v.
Proof.
  induction p as [|s p IH]; intros v v'; cbn [set_at]; [done|]. destruct v as [| | | |l|kvs]; try done.
  - destruct s as [|i]; [done|]. destruct (l !! i) as [x|] eqn:Hx; [|done]. cbn [mbind option_bind].
    destruct (set_at p w x) as [x'|] eqn:Hs; [|done]. cbn [mbind option_bind]. intros [= <-]. cbn [set_at].
    rewrite list_lookup_insert_eq by (by eapply lookup_lt_Some). cbn [mbind option_bind]. rewrite (IH _ _ Hs).
    destruct (set_at p u x); [|done]. cbn. by rewrite list_insert_insert_eq.
  - destruct (set_field (seg_key s) _ kvs) as [kvs'|] eqn:Hf; [|done]. cbn [fmap option_fmap option_map]. intros [= <-]. cbn [set_at].
    f_equal. rewrite (set_field_twice _ _ _ _ _ Hf). apply set_field_ext. apply field_set in Hf as (x & Hx & _).
    destruct (field (seg_key s) kvs) as [y|]; [rewrite Hx; by apply IH|].
    case_bool_decide; [|done]. subst p. done.
Qed.

Lemma set_at_commute p q a b : diverge p q -> forall v v1 v2,
  is_Some (get p v) -> is_Some (get q v) -> set_at p a v = Some v1 -> set_at q b v1 = Some v2 ->
  exists v', set_at q b v = Some v' /\ set_at p a v' = Some v2.
Proof.
  induction 1 as [s s' p q Hne|s p q Hd IH]; intros v v1 v2; cbn [set_at get]; destruct v as [| | | |l|kvs];
    try (by intros [? ?]); cbn [child]; intros Hp Hq.
  - destruct s as [|i], s' as [|j]; try (by destruct Hp); try (by destruct Hq).
    assert (Hij : i ≠ j) by (by intros ->). destruct (l !! i) as [x|] eqn:Hx; [|done]. cbn [mbind option_bind].
    destruct (set_at p a x) as [x'|] eqn:Hs; [|done]. cbn [mbind option_bind]. intros [= <-]. cbv iota.
    rewrite list_lookup_insert_ne by done. destruct (l !! j) as [y|] eqn:Hy; [|done]. cbn [mbind option_bind].
    destruct (set_at q b y) as [y'|]; [|done]. cbn [mbind option_bind]. intros [= <-]. eexists. split; [done|]. cbv iota.
    rewrite list_lookup_insert_ne by done. rewrite Hx. cbn [mbind option_bind]. rewrite Hs. cbn [mbind option_bind].
    by rewrite list_insert_insert_ne.
  - destruct (set_field (seg_key s) _ kvs) as [k1|] eqn:H1; [|done]. cbn [fmap option_fmap option_map]. intros [= <-].
    cbn [set_at]. destruct (set_field (seg_key s') _ k1) as [k2|] eqn:H2; [|done]. cbn [fmap option_fmap option_map]. intros [= <-].
    eapply set_field_commute in H2 as (k' & -> & Hk'); [|exact Hne| | |exact H1].
    + eexists. split; [done|]. cbn [set_at]. by rewrite Hk'.
    + destruct (field (seg_key s) kvs); [done|by destruct Hp].
    + destruct (field (seg_key s') kvs); [done|by destruct Hq].
  - destruct s as [|i]; [by destruct Hp|]. destruct (l !! i) as [x|] eqn:Hx; [|by destruct Hp].
    cbn [mbind option_bind] in *. destruct (set_at p a x) as [x1|] eqn:H1; [|done]. cbn [mbind option_bind]. intros [= <-]. cbv iota.
    rewrite list_lookup_insert_eq by (by eapply lookup_lt_Some). cbn [mbind option_bind].
    destruct (set_at q b x1) as [x2|] eqn:H2; [|done]. cbn [mbind option_bind]. intros [= <-].
    destruct (IH _ _ _ Hp Hq H1 H2) as (x' & -> & Hx'). cbn [mbind option_bind]. eexists. split; [done|]. cbv iota.
    rewrite list_lookup_insert_eq by (by eapply lookup_lt_Some). cbn [mbind option_bind]. rewrite Hx'. cbn.
    by rewrite !list_insert_insert_eq.
  - destruct (field (seg_key s) kvs) as [x|] eqn:Hf; [|by destruct Hp]. cbn [mbind option_bind] in *.
    destruct (set_field (seg_key s) _ kvs) as [k1|] eqn:H1; [|done]. cbn [fmap option_fmap option_map]. intros [= <-].
    cbn [set_at]. destruct (set_field (seg_key s) _ k1) as [k2|] eqn:H2; [|done]. cbn [fmap option_fmap option_map]. intros [= <-].
    apply field_set in H1 as H1'. destruct H1' as (x1 & Hx1 & Hk1). rewrite Hf in Hx1.
    apply field_set in H2 as H2'. destruct H2' as (x2 & Hx2 & Hk2). rewrite Hk1 in Hx2.
    destruct (IH _ _ _ Hp Hq Hx1 Hx2) as (x' & Hq' & Hp').
    destruct (set_field (seg_key s) _ kvs) as [k'|] eqn:Hk' at 1.
    2:{ apply eq_None_not_Some in Hk'. destruct Hk'. apply set_field_some. rewrite Hf. by rewrite Hq'. }
    eexists. split; [done|]. cbn [set_at].
    rewrite (set_field_twice _ _ _ _ _ Hk'). rewrite (set_field_twice _ _ _ _ _ H1) in H2.
    erewrite set_field_ext; [by rewrite H2|]. cbn. rewrite Hf. cbn. rewrite Hq', Hx1. cbn. congruence.
Qed.

(** ** Several edits *)

Fixpoint edits_at (es : list (path * json)) (v : json) : option json :=
  match es with [] => Some v | (p, w) :: es => set_at p w v ≫= edits_at es end.

(** Places that hold a value, of which none lies inside another. *)
Definition places (ps : list path) (v : json) : Prop :=
  ForallOrdPairs diverge ps /\ Forall (fun p => is_Some (get p v)) ps.

Lemma places_cons p ps v : places (p :: ps) v <-> Forall (diverge p) ps /\ is_Some (get p v) /\ places ps v.
Proof.
  unfold places. rewrite Forall_cons. split; [intros [Ho [Hp Hs]]; inversion Ho; subst; done|].
  intros (Hd & Hp & Ho & Hs). split; [by constructor|done].
Qed.

Lemma places_set p w ps v v' : Forall (diverge p) ps -> set_at p w v = Some v' -> places ps v -> places ps v'.
Proof.
  intros Hd Hs [Ho Hp]. split; [done|]. rewrite Forall_forall in Hd, Hp |- *. intros q Hq.
  rewrite (set_at_other p q w (Hd q Hq) _ _ Hs). by apply Hp.
Qed.

Lemma edits_some es v : places es.*1 v -> is_Some (edits_at es v).
Proof.
  revert v. induction es as [|[p w] es IH]; intros v; cbn [edits_at fmap list_fmap fst]; [by eexists|].
  intros (Hd & [u Hu] & Hp)%places_cons. destruct (set_at_some p w v u Hu) as [v' Hs]. rewrite Hs. cbn.
  apply IH. by eapply places_set.
Qed.

Lemma edits_other es q v v' : Forall (fun p => diverge p q) es.*1 -> edits_at es v = Some v' -> get q v' = get q v.
Proof.
  revert v. induction es as [|[p w] es IH]; intros v; cbn [edits_at fmap list_fmap fst]; [by intros _ [= ->]|].
  intros [Hd Hf]%Forall_cons. destruct (set_at p w v) as [u|] eqn:Hs; [|done]. cbn. intros He.
  rewrite (IH u Hf He). by apply (set_at_other p q w).
Qed.

Lemma edits_get es v v' p w : places es.*1 v -> edits_at es v = Some v' -> (p, w) ∈ es -> get p v' = Some w.
Proof.
  revert v. induction es as [|[p' w'] es IH]; intros v; cbn [edits_at fmap list_fmap fst]; [by intros _ _ ?%elem_of_nil|].
  intros (Hd & _ & Hp)%places_cons. destruct (set_at p' w' v) as [u|] eqn:Hs; [|done]. cbn.
  intros He [[= -> ->]|Hin]%elem_of_cons.
  - rewrite (edits_other es p' u v'); [by eapply set_at_spec| |done]. eapply Forall_impl; [exact Hd|apply diverge_sym].
  - apply (IH u); [by eapply places_set|done|done].
Qed.

Lemma edits_commute es p s v u : places (p :: es.*1) v -> set_at p s v = Some u ->
  edits_at es u = edits_at es v ≫= set_at p s.
Proof.
  revert v u. induction es as [|[q w] es IH]; intros v u; cbn [edits_at fmap list_fmap fst]; [by intros _ Hu|].
  intros (Hd & Hp & (Hq & Hqv & Hps)%places_cons)%places_cons Hu. apply Forall_cons in Hd as [Hpq Hpes].
  destruct Hqv as [x Hx]. destruct (set_at_some q w u x) as [u1 Hu1]; [by rewrite (set_at_other _ _ _ Hpq _ _ Hu)|].
  destruct (set_at_commute p q s w Hpq v u u1 Hp ltac:(by eexists) Hu Hu1) as (v1 & Hv1 & Hback).
  rewrite Hu1, Hv1. cbn. apply IH; [|done]. apply places_cons. split; [done|]. split.
  - rewrite (set_at_other q p w (diverge_sym _ _ Hpq) _ _ Hv1). done.
  - by eapply places_set.
Qed.

Lemma filter_keep {A} (P : A -> Prop) `{!forall x, Decision (P x)} l : Forall P l -> filter P l = l.
Proof. induction 1 as [|x l Hx Hl IH]; [done|]. by rewrite filter_cons_True, IH. Qed.
Lemma diverge_irrefl p : ~ diverge p p.
Proof. induction p; intros Hd; inversion Hd; subst; tauto. Qed.

(** Writing the old value back at one place undoes the edit of this place. *)
Lemma edits_undo es p s v v' : places es.*1 v -> p ∈ es.*1 \/ Forall (fun q => diverge q p) es.*1 -> get p v = Some s ->
  edits_at es v = Some v' ->
  exists u, set_at p s v' = Some u /\ edits_at (filter (fun e => e.1 ≠ p) es) v = Some u.
Proof.
  revert v. induction es as [|[q w] es IH]; intros v.
  { intros _ _ Hp [= <-]. exists v. split; [by apply set_at_get|done]. }
  rewrite fmap_cons. cbn [fst]. intros (Hd & Hq & Hps)%places_cons Hin Hp. cbn [edits_at].
  destruct (set_at q w v) as [v1|] eqn:Hs; [|done]. cbn [mbind option_bind]. intros He.
  assert (Hps1 : places es.*1 v1) by (by eapply places_set).
  destruct (decide (q = p)) as [->|Hne].
  - rewrite filter_cons_False by (cbn; tauto).
    assert (Hsame : filter (fun e => e.1 ≠ p) es = es).
    { apply filter_keep. apply Forall_forall. rewrite Forall_forall in Hd. intros [r x] Hr. cbn. intros ->.
      apply (diverge_irrefl p), Hd, list_elem_of_fmap. by exists (p, x). }
    rewrite Hsame. destruct (set_at_some p s v1 w) as [u1 Hu1]; [by eapply set_at_spec|].
    assert (Hback : u1 = v). { rewrite (set_at_twice _ _ _ _ _ Hs), (set_at_get _ _ _ Hp) in Hu1. by simplify_eq. }
    subst u1. pose proof (edits_commute es p s v1 v) as Hc. rewrite He in Hc. cbn in Hc.
    destruct (edits_some es v Hps) as [u Hu]. exists u. split; [|done]. rewrite <- Hc; [done| |done].
    apply places_cons. split; [done|]. split; [|done]. exists w. by eapply set_at_spec.
  - rewrite filter_cons_True by done. cbn [edits_at]. rewrite Hs. cbn [mbind option_bind].
    assert (Hqp : diverge q p).
    { destruct Hin as [Hin|Hall]; [|by inversion Hall]. apply elem_of_cons in Hin as [->|Hin]; [done|].
      rewrite Forall_forall in Hd. by apply Hd. }
    apply IH; [done| | |done].
    + destruct Hin as [Hin|Hall]; [left|right; by inversion Hall]. by apply elem_of_cons in Hin as [->|Hin].
    + by rewrite (set_at_other q p w Hqp _ _ Hs).
Qed.

Lemma places_sub ps ps' v : sublist ps' ps -> places ps v -> places ps' v.
Proof.
  intros Hsub. induction Hsub as [|e es1 es2 Hsub IH|e es1 es2 Hsub IH]; [done| |].
  - rewrite !places_cons. intros (Hd & Hp & Hps). split; [|split; [done|by apply IH]].
    apply Forall_forall. rewrite Forall_forall in Hd. intros q Hq. apply Hd.
    eapply elem_of_submseteq; [exact Hq|]. by apply sublist_submseteq.
  - rewrite places_cons. intros (_ & _ & Hps). by apply IH.
Qed.

(** Writing all the old values back gives the old document. *)
Lemma edits_restore rs : forall es v v', places es.*1 v -> ForallOrdPairs diverge rs.*1 ->
  Forall (fun r => get r.1 v = Some r.2) rs -> (forall p, p ∈ es.*1 -> p ∈ rs.*1) ->
  edits_at es v = Some v' -> edits_at rs v' = Some v.
Proof.
  induction rs as [|[p s] rs IH]; intros es v v' Hps Hrs Hold Hin He.
  - destruct es as [|[q w] es]; [by injection He as ->|]. exfalso. apply (elem_of_nil q), Hin. left.
  - rewrite fmap_cons in Hrs. inversion Hrs as [|? ? Hd Hrs']; subst. apply Forall_cons in Hold as [Hp Hold].
    cbn [fst snd] in *. destruct (edits_undo es p s v v' Hps) as (u & Hu & Hf); [|done..|].
    + destruct (decide (p ∈ es.*1)) as [|Hno]; [by left|right]. apply Forall_forall. rewrite Forall_forall in Hd. intros q Hq.
      apply diverge_sym, Hd. apply Hin in Hq as Hq'. apply elem_of_cons in Hq' as [->|]; [done|done].
    + cbn [edits_at]. rewrite Hu. cbn [mbind option_bind].
      apply (IH (filter (fun e => e.1 ≠ p) es)); [|done..| |done].
      * eapply places_sub; [|exact Hps]. apply fmap_sublist, sublist_filter.
      * intros q (e & -> & [Hne He']%list_elem_of_filter)%list_elem_of_fmap.
        assert (Hq : e.1 ∈ (p, s).1 :: rs.*1) by (apply Hin, list_elem_of_fmap; by exists e).
        by apply elem_of_cons in Hq as [|].
Qed.

(** ** Paths into arrays *)

Lemma ordpairs_app {A} (R : A -> A -> Prop) l l' : ForallOrdPairs R l -> ForallOrdPairs R l' ->
  (forall x y, x ∈ l -> y ∈ l' -> R x y) -> ForallOrdPairs R (l ++ l').
Proof.
  induction 1 as [|x l Hx Hl IH]; intros Hl' Hxy; [done|]. cbn. constructor.
  - apply Forall_app. split; [done|]. apply Forall_forall. intros y Hy. apply Hxy; [left|done].
  - apply IH; [done|]. intros y z Hy. apply Hxy. by right.
Qed.

Lemma elem_of_concat_imap {A B} (f : nat -> A -> list B) l x : x ∈ concat (imap f l) ->
  exists i a, l !! i = Some a /\ x ∈ f i a.
Proof.
  revert f. induction l as [|a l IH]; intros f; cbn; [by intros ?%elem_of_nil|].
  intros [Hx|Hx]%elem_of_app; [by exists 0%nat, a|]. destruct (IH _ Hx) as (i & b & Hb & Hi). by exists (S i), b.
Qed.

Lemma fmap_concat_imap {A B C} (h : B -> C) (g : nat -> A -> list B) l :
  h <$> concat (imap g l) = concat (imap (fun i x => h <$> g i x) l).
Proof. revert g. induction l as [|x l IH]; intros g; cbn; [done|]. by rewrite fmap_app, IH. Qed.

Ltac ordpairs := repeat first [apply FOP_nil | apply FOP_cons | apply Forall_cons_2 | apply Forall_nil_2].

Lemma imap_diverge {A} (f : nat -> A -> list path) (base : path) l :
  (forall i x, ForallOrdPairs diverge (f i x)) -> (forall i x p, p ∈ f i x -> exists r, p = base ++ Idx i :: r) ->
  ForallOrdPairs diverge (concat (imap f l)).
Proof.
  intros Hf Hb. assert (Hk : forall k, ForallOrdPairs diverge (concat (imap (fun i => f (k + i)%nat) l))); [|apply (Hk 0%nat)].
  induction l as [|a l IH]; intros k; cbn; [constructor|]. apply ordpairs_app; [apply Hf| |].
  - assert (Heq : imap ((fun i => f (k + i)%nat) ∘ S) l = imap (fun i => f (S k + i)%nat) l).
    { apply imap_ext. intros i x _. cbn. by rewrite Nat.add_succ_r. }
    rewrite Heq. apply IH.
  - intros p q Hp (i & x & _ & Hq)%elem_of_concat_imap. cbn in Hq. apply Hb in Hp as [r ->], Hq as [r' ->].
    apply diverge_app, diverge_here, idx_key. lia.
Qed.

(** ** Keys *)

Lemma pretty_digits x s : Forall (fun a => is_digit a = true) (lit s) -> Forall (fun a => is_digit a = true) (lit (pretty_N_go x s)).
Proof.
  revert s. induction (N.lt_wf_0 x) as [x _ IH]; intros s Hs. destruct (decide (0 < x)%N) as [Hx|Hx].
  - rewrite pretty_N_go_step by done. apply IH; [by apply N.div_lt|]. cbn. constructor; [|done].
    unfold pretty_N_char. by repeat case_match.
  - replace x with 0%N by lia. by rewrite pretty_N_go_0.
Qed.
Lemma pretty_N_digits (n : N) : Forall (fun a => is_digit a = true) (lit (pretty n)).
Proof. unfold pretty, pretty_N. case_decide; [by repeat constructor|]. apply pretty_digits. constructor. Qed.

Lemma path_ok_app p q : path_ok (p ++ q) <-> path_ok p /\ path_ok q.
Proof. apply Forall_app. Qed.
Lemma idx_ok i p : path_ok (Idx i :: p) <-> path_ok p.
Proof.
  unfold path_ok. rewrite Forall_cons. split; [tauto|]. split; [|done]. cbn [seg_key]. apply ascii_utf8.
  eapply Forall_impl; [apply pretty_N_digits|]. intros a Ha. unfold is_digit in Ha. lia.
Qed.
Definition ascii_key (s : string) : bool := forallb (fun a => byte_of a <? 128) (lit s).
Lemma key_ok s p : ascii_key s = true -> path_ok (key s :: p) <-> path_ok p.
Proof.
  intros Hs. unfold path_ok. rewrite Forall_cons. split; [tauto|]. split; [|done]. cbn [seg_key key]. apply ascii_utf8.
  unfold ascii_key in Hs. rewrite forallb_forall in Hs. apply Forall_forall. intros a Ha%list_elem_of_In%Hs. lia.
Qed.
(** Paths that the sources write are text. *)
Ltac path_ok_tac :=
  repeat first [rewrite path_ok_app | rewrite idx_ok | rewrite key_ok by reflexivity | split]; try apply Forall_nil_2; try done.

(** ** Numbers *)

Lemma pretty_N_go_head x s : (0 < x)%N -> exists c r, pretty_N_go x s = String.String c r /\ Ascii.eqb c "0" = false.
Proof.
  revert s. induction (N.lt_wf_0 x) as [x _ IH]; intros s Hx. rewrite pretty_N_go_step by done.
  destruct (decide (0 < x `div` 10)%N) as [Hq|Hq]; [by apply IH; [apply N.div_lt|]|].
  assert (Hz : (x `div` 10)%N = 0%N) by (destruct (x `div` 10)%N; [done|exfalso; apply Hq; done]).
  assert (Hlt : (x < 10)%N) by (by apply N.div_small_iff). rewrite Hz, pretty_N_go_0, N.mod_small by done.
  eexists _, _. split; [done|].
  assert (Hc : (x = 1 \/ x = 2 \/ x = 3 \/ x = 4 \/ x = 5 \/ x = 6 \/ x = 7 \/ x = 8 \/ x = 9)%N) by lia.
  by repeat destruct Hc as [->|Hc]; [..|subst x].
Qed.

Lemma digits_number ds : Forall (fun a => is_digit a = true) ds -> ds ≠ [] ->
  ds = lit "0" \/ (exists c r, ds = c :: r /\ Ascii.eqb c "0" = false) -> number_body ds = Some (ds, []).
Proof.
  intros Hd Hne [->|(c & r & -> & Hc)]; [done|]. unfold number_body, number_int. rewrite Hc.
  pose proof (take_digits_app (c :: r) [] Hd ltac:(done)) as Ht. rewrite app_nil_r in Ht. rewrite Ht.
  rewrite bool_decide_false by done. cbn. by rewrite app_nil_r.
Qed.

Lemma pretty_N_body (n : N) : number_body (lit (pretty n)) = Some (lit (pretty n), []).
Proof.
  apply digits_number; [apply pretty_N_digits| |].
  - unfold pretty, pretty_N. case_decide; [done|]. destruct (pretty_N_go_head n "" ltac:(lia)) as (c & r & -> & _). done.
  - unfold pretty, pretty_N. case_decide; [by left|]. right.
    destruct (pretty_N_go_head n "" ltac:(lia)) as (c & r & -> & Hc). by exists c, (lit r).
Qed.

Lemma number_text_ok z : number_ok (number_text z).
Proof.
  apply (number_cut (number_text z) _ []). destruct z as [|p|p]; [done| |].
  - change (number_text (Z.pos p)) with (lit (pretty (N.pos p))). pose proof (pretty_N_body (N.pos p)) as Hb. pose proof (pretty_N_digits (N.pos p)) as Hd.
    destruct (lit (pretty (N.pos p))) as [|a l] eqn:Hl; [done|]. unfold number. apply Forall_cons in Hd as [Ha _].
    destruct (Ascii.eqb_spec a "-") as [->|]; [done|]. exact Hb.
  - change (number_text (Z.neg p)) with ("-"%char :: lit (pretty (N.pos p))). unfold number.
    change (Ascii.eqb "-" "-") with true. cbv iota. by rewrite pretty_N_body.
Qed.

(** ** Well-formed values *)

Lemma wf_mono v : forall d d', (d <= d')%nat -> well_formed d v -> well_formed d' v.
Proof.
  induction v as [|b|n|s|l IH|l IH] using json_ind; intros d d' Hd; cbn [well_formed]; try done.
  - destruct d as [|d]; [done|]. destruct d' as [|d']; [lia|]. rewrite !wf_arr, !Forall_forall in *.
    intros Hw x Hx. apply (IH x Hx d); [lia|by apply Hw].
  - destruct d as [|d]; [done|]. destruct d' as [|d']; [lia|]. rewrite !wf_obj, !Forall_forall in *.
    intros Hw x Hx. apply (IH x Hx d); [lia|by apply Hw].
Qed.

Lemma wf_get p : forall v w d, well_formed d v -> get p v = Some w -> well_formed d w.
Proof.
  induction p as [|s p IH]; intros v w d Hv; cbn [get]; [by intros [= <-]|].
  destruct (child s v) as [u|] eqn:Hc; [|done]. cbn [mbind option_bind]. apply IH. clear -Hv Hc.
  destruct v as [| | | |l|kvs]; try done; destruct d as [|d]; try done; cbn [child] in Hc; apply (wf_mono _ d); try lia.
  - destruct s as [|i]; [done|]. cbn [well_formed] in Hv. apply wf_arr in Hv. by eapply Forall_lookup_1.
  - cbn [well_formed] in Hv. apply wf_obj in Hv. induction Hv as [|[k x] kvs Hx _ IH]; cbn [field] in Hc; [done|].
    case_bool_decide; [injection Hc as <-; exact Hx|by apply IH].
Qed.

Lemma set_field_Forall (P Q : bytes * json -> Prop) k f kvs kvs' : Forall P kvs -> set_field k f kvs = Some kvs' ->
  (forall x, P x -> Q x) -> (forall v w, P (k, v) -> f (Some v) = Some w -> Q (k, w)) -> (forall w, f None = Some w -> Q (k, w)) ->
  Forall Q kvs'.
Proof.
  intros Hkvs Hs Hmono Hold Hnew. revert kvs' Hs. induction Hkvs as [|[k' v] kvs Hv Hkvs IH]; intros kvs'; cbn [set_field].
  - destruct (f None) as [w|] eqn:Hf; [|done]. cbn. intros [= <-]. constructor; [by apply Hnew|done].
  - case_bool_decide as Hk; [subst k'|].
    + destruct (f (Some v)) as [w|] eqn:Hf; [|done]. cbn. intros [= <-].
      constructor; [by apply (Hold v)|by eapply Forall_impl].
    + destruct (set_field k f kvs) as [r|] eqn:Hr; [|done]. cbn. intros [= <-]. constructor; [by apply Hmono|by apply IH].
Qed.

(** Setting a value keeps what holds of every part of a document. *)
Lemma whole_set p w : whole w -> path_ok p -> forall v v', whole v -> set_at p w v = Some v' -> whole v'.
Proof.
  intros Hw. induction p as [|g p IH]; intros Hp v v' Hv; cbn [set_at]; [by intros [= <-]|].
  apply Forall_cons in Hp as [Hg Hp]. specialize (IH Hp). destruct v as [| | | |l|kvs]; try done.
  - destruct g as [|i]; [done|]. destruct (l !! i) as [u|] eqn:Hu; [|done]. cbn [mbind option_bind].
    destruct (set_at p w u) as [u'|] eqn:Hs; [|done]. cbn [mbind option_bind]. intros [= <-].
    cbn [whole] in *. rewrite whole_arr in *. apply Forall_insert; [done|]. eapply IH; [|exact Hs]. by eapply Forall_lookup_1.
  - destruct (set_field (seg_key g) _ kvs) as [kvs'|] eqn:Hs; [|done]. cbn. intros [= <-].
    cbn [whole] in *. rewrite whole_obj in *. eapply set_field_Forall; [done|exact Hs|done|cbn..].
    + intros x y [Hk Hx] Hy. split; [done|]. by eapply IH.
    + intros y Hy. case_bool_decide; [|done]. injection Hy as <-. done.
Qed.

Lemma wf_set p w e : well_formed e w -> forall v v' d, well_formed d v -> set_at p w v = Some v' -> well_formed (d + e) v'.
Proof.
  intros Hw. induction p as [|g p IH]; intros v v' d Hv; cbn [set_at]; [intros [= <-]; eapply wf_mono; [|exact Hw]; lia|].
  destruct v as [| | | |l|kvs]; try done; (destruct d as [|d]; [done|]); cbn [well_formed] in Hv; cbn [Nat.add].
  - destruct g as [|i]; [done|]. destruct (l !! i) as [u|] eqn:Hu; [|done]. cbn [mbind option_bind].
    destruct (set_at p w u) as [u'|] eqn:Hs; [|done]. cbn [mbind option_bind]. intros [= <-].
    cbn [well_formed]. rewrite wf_arr in *. apply Forall_insert; [|eapply IH; [|exact Hs]; by eapply Forall_lookup_1].
    eapply Forall_impl; [exact Hv|]. intros x. apply wf_mono. lia.
  - destruct (set_field (seg_key g) _ kvs) as [kvs'|] eqn:Hs; [|done]. cbn. intros [= <-].
    cbn [well_formed]. rewrite wf_obj in *. eapply (set_field_Forall (fun kv => well_formed d kv.2)); [exact Hv|exact Hs|cbn..].
    + intros x. apply wf_mono. lia.
    + intros x y Hx Hy. by eapply IH.
    + intros y Hy. case_bool_decide; [|done]. injection Hy as <-. eapply wf_mono; [|exact Hw]. lia.
Qed.

(** Where the strings are does not depend on what they say. *)
Lemma set_strings p t : forall v v' s q, get p v = Some (JStr s) -> set_at p (JStr t) v = Some v' ->
  IsString (get q v') = IsString (get q v).
Proof.
  induction p as [|g p IH]; intros v v' s q; cbn [get set_at].
  { intros [= ->] [= <-]. by destruct q as [|[]]. }
  destruct v as [| | | |l|kvs]; try done; cbn [child].
  - destruct g as [|i]; [done|]. destruct (l !! i) as [u|] eqn:Hu; [|done]. cbn [mbind option_bind]. intros Hg.
    destruct (set_at p (JStr t) u) as [u'|] eqn:Hs; [|done]. cbn [mbind option_bind]. intros [= <-].
    destruct q as [|[k|j] q]; [done|done|]. cbn [get child]. destruct (decide (i = j)) as [<-|Hne].
    + rewrite list_lookup_insert_eq by (by eapply lookup_lt_Some). rewrite Hu. by apply (IH u u' s).
    + by rewrite list_lookup_insert_ne.
  - destruct (field (seg_key g) kvs) as [u|] eqn:Hu; [|done]. cbn [mbind option_bind]. intros Hg.
    destruct (set_field (seg_key g) _ kvs) as [kvs'|] eqn:Hs; [|done]. cbn. intros [= <-].
    destruct q as [|g' q]; [done|]. cbn [get child]. destruct (decide (seg_key g' = seg_key g)) as [->|Hne].
    + apply field_set in Hs as (u' & Hu' & ->). rewrite Hu in Hu' |- *. by apply (IH u u' s).
    + by rewrite (field_set_other _ _ _ _ _ Hs).
Qed.

Lemma lit_inj a b : lit a = lit b -> a = b.
Proof. intros Heq%(f_equal soa). unfold lit in Heq. by rewrite !string_of_list_ascii_of_string in Heq. Qed.

Lemma set_key_some s w kvs : is_Some (set_at [key s] w (JObj kvs)).
Proof.
  cbn [set_at]. destruct (set_field _ _ kvs) eqn:Hset; [by eexists|]. apply eq_None_not_Some in Hset. destruct Hset.
  apply set_field_some. destruct (field _ kvs); by eexists.
Qed.

(** ** Forgetting texts *)

(** Two documents that differ in texts under certain keys only have the same
    [erase]. *)
Section erase.
Variables text_key walk_key : bytes -> bool.

(** [free]: the value is the text under one of the keys [text_key]; [walk_key] are
    the keys on the way to a text. *)
Fixpoint erase (free : bool) (v : json) : json :=
  match v with
  | JStr s => if free then JStr [] else v
  | JArr l => JArr (erase free <$> l)
  | JObj kvs =>
      JObj ((fun kv => (kv.1, if text_key kv.1 then erase true kv.2
                              else if walk_key kv.1 then erase false kv.2 else kv.2)) <$> kvs)
  | _ => v
  end.
Definition erase_at (k : bytes) (v : json) : json :=
  if text_key k then erase true v else if walk_key k then erase false v else v.

Lemma field_erase k kvs : field k ((fun kv => (kv.1, erase_at kv.1 kv.2)) <$> kvs) = erase_at k <$> field k kvs.
Proof. induction kvs as [|[k' v] kvs IH]; cbn; [done|]. case_bool_decide as Hk; [by subst|done]. Qed.

Lemma child_erase_key s b v : child (key s) (erase b v) = erase_at (lit s) <$> child (key s) v.
Proof. destruct v as [| | | s'| |kvs]; try done; cbn; [by destruct b|]. apply field_erase. Qed.

Lemma IsString_erase b r : IsString (erase b <$> r) = IsString r.
Proof. destruct r as [[]|]; try done. by destruct b. Qed.
Lemma Array_erase b r : Array (erase b <$> r) = erase b <$> Array r.
Proof. destruct r as [[]|]; try done. cbn. by destruct b. Qed.

(** Keys that are kept, and keys of texts. *)
Definition kept (s : string) : bool := negb (text_key (lit s)) && negb (walk_key (lit s)).
Lemma get_kept s b v : kept s = true -> get [key s] (erase b v) = get [key s] v.
Proof.
  intros [Ht Hw]%andb_true_iff. cbn [get]. rewrite child_erase_key. unfold erase_at.
  apply negb_true_iff in Ht, Hw. rewrite Ht, Hw. destruct (child (key s) v); done.
Qed.
Lemma get_text s b v p : text_key (lit s) = true -> get (key s :: p) (erase b v) = child (key s) v ≫= (get p ∘ erase true).
Proof.
  intros Ht. cbn [get]. rewrite child_erase_key. unfold erase_at. rewrite Ht. by destruct (child (key s) v).
Qed.
Lemma get_walk s b v p : text_key (lit s) = false -> walk_key (lit s) = true ->
  get (key s :: p) (erase b v) = child (key s) v ≫= (get p ∘ erase false).
Proof.
  intros Ht Hw. cbn [get]. rewrite child_erase_key. unfold erase_at. rewrite Ht, Hw. by destruct (child (key s) v).
Qed.

(** A text that is replaced does not show. *)
Definition last_text (p : path) : Prop := exists q s, p = q ++ [key s] /\ text_key (lit s) = true.
Definition way_ok (p : path) : Prop :=
  Forall (fun s => match s with Key k => text_key k || walk_key k = true | Idx _ => True end) p.

Lemma erase_set_field k f kvs kvs' b : set_field k f kvs = Some kvs' ->
  (forall v w, field k kvs = Some v -> f (Some v) = Some w -> erase_at k w = erase_at k v) -> is_Some (field k kvs) ->
  erase b (JObj kvs') = erase b (JObj kvs).
Proof.
  intros Hs Hf [u Hu]. cbn [erase]. f_equal. fold (erase_at). revert kvs' Hs.
  induction kvs as [|[k' v] kvs IH]; intros kvs'; cbn [set_field field] in *; [done|]. case_bool_decide as Hk.
  - destruct (f (Some v)) as [w|] eqn:Hw; [|done]. cbn. intros [= <-]. cbn. f_equal. f_equal. subst k'. by apply (Hf v w).
  - destruct (set_field k f kvs) as [r|] eqn:Hr; [|done]. cbn. intros [= <-]. cbn. f_equal. by apply IH.
Qed.

Hypothesis walk_digits : forall k, forallb is_digit k = true -> walk_key k = true.

Lemma digits_walk n : walk_key (lit (pretty (A := N) n)) = true.
Proof using walk_digits.
  apply walk_digits, forallb_forall. intros a Ha%list_elem_of_In.
  pose proof (pretty_N_digits n) as Hd. rewrite Forall_forall in Hd. by apply Hd.
Qed.

Lemma erase_set p t : way_ok p -> last_text p -> forall v v' s b, get p v = Some (JStr s) ->
  set_at p (JStr t) v = Some v' -> erase b v' = erase b v.
Proof using walk_digits.
  intros Hway (q & k & -> & Hk). induction q as [|g q IH]; intros v v' s b; cbn [app get set_at].
  - destruct v as [| | | | |kvs]; try done; cbn [child]. destruct (set_field _ _ kvs) as [kvs'|] eqn:Hs; [|done].
    intros (x & Hx & Hg)%bind_Some [= <-]. cbn [seg_key key] in *. injection Hg as ->.
    eapply erase_set_field; [exact Hs| |by eexists].
    intros u w Hu [= <-]. assert (u = JStr s) as -> by congruence. unfold erase_at. by rewrite Hk.
  - cbn [app] in Hway. apply Forall_cons in Hway as [Hg Hway]. specialize (IH Hway).
    destruct v as [| | | |l|kvs]; try done; cbn [child].
    + destruct g as [|i]; [done|]. destruct (l !! i) as [u|] eqn:Hu; [|done]. cbn [mbind option_bind].
      intros Hget. destruct (set_at _ _ u) as [u'|] eqn:Hs; [|done]. cbn [mbind option_bind]. intros [= <-].
      cbn [erase]. f_equal. rewrite list_fmap_insert, (IH _ _ _ b Hget Hs). apply list_insert_id.
      by rewrite list_lookup_fmap, Hu.
    + destruct (field (seg_key g) kvs) as [u|] eqn:Hu; [|done]. cbn [mbind option_bind]. intros Hget.
      destruct (set_field _ _ kvs) as [kvs'|] eqn:Hs; [|done]. cbn. intros [= <-].
      eapply erase_set_field; [exact Hs| |by rewrite Hu]. intros x w Hx Hw. cbn in Hw. simplify_eq.
      pose proof (IH _ _ _ true Hget Hw). pose proof (IH _ _ _ false Hget Hw).
      assert (Hwalk : text_key (seg_key g) || walk_key (seg_key g) = true) by (destruct g; [done|cbn [seg_key]; by rewrite digits_walk, orb_true_r]).
      unfold erase_at. destruct (text_key (seg_key g)); [done|]. cbn [orb] in Hwalk. by rewrite Hwalk.
Qed.
End erase.
Arguments child_erase_key {text_key walk_key}.
Arguments IsString_erase {text_key walk_key}.
Arguments Array_erase {text_key walk_key}.
Arguments get_kept {text_key walk_key}.
Arguments get_text {text_key walk_key}.
Arguments get_walk {text_key walk_key}.
Arguments erase_set {text_key walk_key}.

(** ** A model of gjson

    One implementation of the class [Gjson]: the parser and the writer of [GoJson],
    with as many levels of nesting as the text has bytes.  The theorems over the
    class are applied to it at concrete documents. *)

Local Open Scope Z_scope.
Local Open Scope list_scope.

(** ** Parsing *)

Definition deep_parse (body : string) : option json :=
  '(v, rest) ← value (length (aos body)) (length (aos body)) (skip_ws (aos body));
  if bool_decide (skip_ws rest = []) then Some v else None.
(** Text that is no JSON: the type of the value is read off its first character. *)
Definition loose_parse (body : string) : json :=
  match deep_parse body with
  | Some v => v
  | None => if bool_decide (TrimSpace body = "[DONE]"%string) then JArr [] else JNull
  end.

Lemma wf_height v d : well_formed d v -> well_formed (height v) v.
Proof.
  revert d. induction v as [|b|n|s|l IH|l IH] using json_ind; intros d; cbn [well_formed height]; try done.
  - destruct d as [|d]; [done|]. rewrite !wf_arr, !Forall_forall in *. intros Hw x Hx.
    eapply (wf_mono _ (height x)); [by apply max_list_in, list_elem_of_fmap_2|]. by eapply IH, Hw.
  - destruct d as [|d]; [done|]. rewrite !wf_obj, !Forall_forall in *. intros Hw x Hx.
    eapply (wf_mono _ (height x.2)); [by apply max_list_in, (list_elem_of_fmap_2 (fun kv => height kv.2))|]. by eapply IH, Hw.
Qed.

Lemma deep_parse_render v d : well_formed d v -> deep_parse (soa (render v)) = Some (cleaned v).
Proof.
  intros Hw. unfold deep_parse. rewrite list_ascii_of_string_of_list_ascii. pose proof (render_starts _ _ Hw) as Hst.
  pose proof (height_render _ _ Hw) as Hh. set (n := length (render v)) in *.
  rewrite <- (app_nil_r (render v)), (skip_ws_id _ [] Hst), value_render; [done| |done|done].
  eapply wf_mono; [exact Hh|by eapply wf_height].
Qed.

Lemma deep_parse_yields body v : deep_parse body = Some v -> (exists d, well_formed d v) /\ whole v.
Proof.
  unfold deep_parse. destruct (value _ _ _) as [[w rest]|] eqn:Hv; [|done].
  cbn [mbind option_bind]. case_bool_decide; [|done]. intros [= <-]. apply value_yields in Hv as [Hw Hu]. split; [by eexists|done].
Qed.

(** ** The first character *)

Definition starter (a : ascii) : bool := existsb (Ascii.eqb a) (dq :: lit "{[tfn-0123456789").

Lemma value_starts fuel d a l r : value fuel d (a :: l) = Some r -> starter a = true.
Proof.
  destruct fuel as [|fuel]; [done|].
  destruct a as [[] [] [] [] [] [] [] []]; first [by intros _|by intros Hv; discriminate Hv].
Qed.

Lemma trim_left_starter n a s : starter a = true -> trim_left n (String.String a s) = String.String a s.
Proof.
  intros (b & Hb & Heq)%existsb_exists. apply Ascii.eqb_eq in Heq as <-. destruct n as [|n]; [done|].
  repeat (destruct Hb as [<-|Hb]; [reflexivity|]). done.
Qed.

Lemma trim_left_ws n a s : is_ws a = true -> trim_left (S n) (String.String a s) = trim_left n s.
Proof. destruct a as [[] [] [] [] [] [] [] []]; first [done|by intros Hv; discriminate Hv]. Qed.

(** JSON in front of which the spaces are dropped begins with its value. *)
Lemma trim_left_value s : forall n a l, (String.length s <= n)%nat -> skip_ws (aos s) = a :: l -> starter a = true ->
  trim_left n s = soa (a :: l).
Proof.
  induction s as [|c s IH]; intros n a l Hn; [done|]. cbn [list_ascii_of_string skip_ws]. destruct (is_ws c) eqn:Hc.
  - destruct n as [|n]; [cbn in Hn; lia|]. rewrite trim_left_ws by done. apply IH. cbn in Hn. lia.
  - intros [= -> <-] Ha. rewrite trim_left_starter by done. cbn. by rewrite string_of_list_ascii_of_string.
Qed.

Lemma str_take_head n s a x : str_take n s = String.String a x -> exists y, s = String.String a y.
Proof. destruct n, s as [|c s]; try done. intros [= -> _]. by eexists. Qed.

Lemma trim_right_head n : forall s a x, trim_right n s = String.String a x -> exists y, s = String.String a y.
Proof.
  induction n as [|n IH]; intros s a x; cbn [trim_right]; [intros Heq; by exists x|].
  destruct s as [|c s]; [done|]. destruct (DecodeLastRune _) as [r size].
  destruct (IsSpace r); [|intros Heq; by exists x]. intros [y Hy]%IH. by eapply str_take_head.
Qed.

(** The mark of the end is no object. *)
Lemma deep_parse_done body v : TrimSpace body = "[DONE]"%string -> deep_parse body = Some v -> exists l, v = JArr l.
Proof.
  intros Hdone. unfold deep_parse. destruct (skip_ws (aos body)) as [|a l] eqn:Hws; [by destruct (length (aos body))|].
  destruct (value _ _ _) as [[w rest]|] eqn:Hv; [|done]. pose proof (value_starts _ _ _ _ _ Hv) as Hst.
  unfold TrimSpace in Hdone. cbv zeta in Hdone. rewrite (trim_left_value body _ a l) in Hdone by done.
  apply trim_right_head in Hdone as [y Hy]. cbn in Hy. injection Hy as -> _.
  cbn [mbind option_bind]. case_bool_decide; [|done]. intros [= <-]. clear -Hv.
  destruct (length (aos body)) as [|n]; [done|]. cbn [value] in Hv. change (Ascii.eqb "[" "{") with false in Hv.
  change (Ascii.eqb "[" "[") with true in Hv. cbv iota in Hv. destruct (skip_ws l) as [|c r]; [done|].
  destruct (Ascii.eqb c "]"); [injection Hv as <- _; by eexists|]. destruct (array_body _ _ _ _) as [[vs r']|]; [|done].
  cbn in Hv. injection Hv as <- _. by eexists.
Qed.

(** ** Numbers *)

Definition model_Int (v : json) : Z := match v with JNum n => default 0 (Atoi (soa n)) | _ => 0 end.

Lemma digit_char x : (x < 10)%N -> is_digit (pretty_N_char x) = true /\ digit_of (pretty_N_char x) = Z.of_N x.
Proof.
  intros Hx. assert (Hall : x ∈ [0; 1; 2; 3; 4; 5; 6; 7; 8; 9]%N).
  { rewrite !elem_of_cons. lia. }
  repeat (apply elem_of_cons in Hall as [->|Hall]; [done|]). by apply elem_of_nil in Hall.
Qed.

Lemma parse_pretty x s : parse_digits 0 (pretty_N_go x s) = parse_digits (Z.of_N x) s.
Proof.
  revert s. induction (N.lt_wf_0 x) as [x _ IH]; intros s. destruct (decide (0 < x)%N) as [Hx|Hx].
  - rewrite pretty_N_go_step, IH by (done || by apply N.div_lt). cbn [parse_digits].
    destruct (digit_char (x `mod` 10)) as [-> ->]; [by apply N.mod_lt|]. f_equal.
    rewrite N2Z.inj_div, N2Z.inj_mod. pose proof (Z.div_mod (Z.of_N x) 10). lia.
  - replace x with 0%N by lia. by rewrite pretty_N_go_0.
Qed.

Lemma parse_pretty_N (n : N) : parse_digits 0 (pretty n) = Some (Z.of_N n).
Proof. unfold pretty, pretty_N. case_decide as Hn; [by rewrite Hn|]. by rewrite parse_pretty. Qed.

Lemma pretty_N_start (n : N) : exists a s, pretty n = String.String a s /\ is_digit a = true.
Proof.
  pose proof (pretty_N_digits n) as Hd. destruct (pretty n) as [|a s] eqn:Hp.
  - unfold pretty, pretty_N in Hp. case_decide; [done|]. by destruct (pretty_N_go_head n "" ltac:(lia)) as (c & r & Heq & _); rewrite Heq in Hp.
  - exists a, s. split; [done|]. cbn in Hd. by apply Forall_cons in Hd as [? _].
Qed.

Lemma Atoi_pretty z : minInt64 <= z <= maxInt64 -> Atoi (pretty z) = Some z.
Proof.
  intros Hz. assert (Hin : in_int64 z = Some z) by (unfold in_int64; by replace ((minInt64 <=? z) && (z <=? maxInt64)) with true by lia).
  destruct (decide (0 <= z)) as [Hpos|Hneg].
  - assert (Hp : pretty z = pretty (Z.to_N z)) by (by destruct z). rewrite Hp.
    destruct (pretty_N_start (Z.to_N z)) as (a & s & Heq & Ha). pose proof (parse_pretty_N (Z.to_N z)) as Hd. rewrite Heq in Hd |- *.
    unfold Atoi. unfold is_digit in Ha. replace (byte_of a =? 45) with false by lia. replace (byte_of a =? 43) with false by lia.
    rewrite bool_decide_false, Hd by done. cbn. by rewrite Z2N.id.
  - destruct z as [|p|p]; [lia|lia|]. change (pretty (Z.neg p)) with (String.String "-" (pretty (N.pos p))).
    unfold Atoi. change (byte_of "-" =? 45) with true. cbv iota.
    destruct (pretty_N_start (N.pos p)) as (a & s & Heq & _). pose proof (parse_pretty_N (N.pos p)) as Hd. rewrite Heq in Hd |- *.
    rewrite bool_decide_false, Hd by done. done.
Qed.

Lemma model_Int_range v : minInt64 <= model_Int v <= maxInt64.
Proof. destruct v; cbn; try done. destruct (Atoi _) as [z|] eqn:Hz; [by apply Atoi_range in Hz|done]. Qed.

(** ** The instance *)

Definition model_Bool (v : json) : bool := match v with JBool b => b | _ => false end.
Definition model_SetBytes (body : string) (p : path) (w : json) : option string :=
  v ← set_at p (cleaned w) (loose_parse body); Some (soa (render v)).

Lemma loose_parse_valid body : is_some (deep_parse body) = true -> deep_parse body = Some (loose_parse body).
Proof. unfold loose_parse. by destruct (deep_parse body). Qed.

Lemma scalar_ok w : scalar_value w -> (forall d, well_formed d (cleaned w)) /\ whole (cleaned w).
Proof. destruct w; cbn; try done. intros _. split; [done|]. apply valid_of_ok. Qed.

#[local] Obligation Tactic := idtac.
#[export, program] Instance gjson_model : Gjson := {
  ValidBytes body := is_some (deep_parse body);
  ParseBytes := loose_parse;
  Text := render;
  Int := model_Int;
  Bool := model_Bool;
  SetBytes := model_SetBytes;
  SetRawBytes body p w := v ← set_at p w (loose_parse body); Some (soa (render v)) }.
Next Obligation.
  intros body p w v Hv Hw Hp Hs. apply loose_parse_valid in Hv. destruct (deep_parse_yields _ _ Hv) as [[d Hd] Hu].
  destruct (scalar_ok w Hw) as [Hwf Hwh]. unfold model_SetBytes. rewrite Hs. cbn [mbind option_bind].
  assert (Hback : deep_parse (soa (render v)) = Some v).
  { rewrite (deep_parse_render v (d + 0)%nat (wf_set p (cleaned w) 0%nat (Hwf 0%nat) _ v d Hd Hs)). by rewrite (cleaned_id v (whole_set p (cleaned w) Hwh Hp _ v Hu Hs)). }
  eexists. split; [done|]. unfold loose_parse. by rewrite Hback.
Qed.
Next Obligation.
  intros body p w v e Hv Hwf Hwh Hp Hs. apply loose_parse_valid in Hv. destruct (deep_parse_yields _ _ Hv) as [[d Hd] Hu].
  rewrite Hs. cbn [mbind option_bind].
  assert (Hback : deep_parse (soa (render v)) = Some v).
  { rewrite (deep_parse_render v (d + e)%nat (wf_set p w e Hwf _ v d Hd Hs)). by rewrite (cleaned_id v (whole_set p w Hwh Hp _ v Hu Hs)). }
  eexists. split; [done|]. unfold loose_parse. by rewrite Hback.
Qed.
Next Obligation. done. Qed.
Next Obligation. intros body Hv%loose_parse_valid. by apply deep_parse_yields in Hv as [? _]. Qed.
Next Obligation. intros v d Hd. unfold loose_parse. by rewrite (deep_parse_render v d). Qed.
Next Obligation.
  intros body Hdone. unfold loose_parse. destruct (deep_parse body) as [v|] eqn:Hv; [by eapply deep_parse_done|].
  rewrite bool_decide_true by done. by eexists.
Qed.
Next Obligation. apply model_Int_range. Qed.
Next Obligation. intros z Hz. unfold model_Int, number_text. rewrite string_of_list_ascii_of_string, Atoi_pretty; done. Qed.
