(* ===== verification/OcReplacer.v ===== *)
(** * Replacing names by aliases

    [strings.Replacer] and the aliases of relay/opencode_alias.go: a prefix and 32
    hexadecimal digits.  Two such aliases never overlap, so that the text of a
    request can be given back, and a stream can be restored piece by piece. *)

From Stdlib Require Import Ascii String.
From S2P Require Import Prelude GoStrings MaskText GoJson.
Local Open Scope list_scope.

(** ** strings.NewReplacer *)

Notation Pairs := (list (bytes * bytes)).

(** The first pair, in the order of the arguments, whose old text is in front. *)
Fixpoint find_old (pairs : Pairs) (s : bytes) : option (bytes * bytes) :=
  match pairs with
  | [] => None
  | (old, new) :: pairs =>
      match strip old s with Some rest => Some (new, rest) | None => find_old pairs s end
  end.

Fixpoint Replace_loop (fuel : nat) (pairs : Pairs) (s : bytes) : bytes :=
  match fuel, s with
  | S fuel, c :: s' =>
      match find_old pairs s with
      | Some (new, rest) => new ++ Replace_loop fuel pairs rest
      | None => c :: Replace_loop fuel pairs s'
      end
  | _, _ => []
  end.
(** The old texts are not empty: each turn consumes a byte. *)
Definition Replace (pairs : Pairs) (s : bytes) : bytes := Replace_loop (length s) pairs s.

(** ** Aliases *)

Definition opencodeAliasPrefix : bytes := lit "opencode_".
(** [hex.EncodeToString]. *)
Definition hex_encode (bs : bytes) : bytes := bs ≫= (fun b => [hex_digit (byte_of b / 16); hex_digit (byte_of b mod 16)]).
Definition is_hex (a : ascii) : bool :=
  let b := byte_of a in ((48 <=? b) && (b <=? 57)) || ((97 <=? b) && (b <=? 102)).

Definition alias_shaped (a : bytes) : Prop :=
  exists h, a = opencodeAliasPrefix ++ h /\ length h = 32%nat /\ Forall (fun c => is_hex c = true) h.

(** ** The replacer on pieces of a text *)

Lemma strip_app_iff p l rest : strip p l = Some rest <-> l = p ++ rest.
Proof.
  revert l. induction p as [|a p IH]; intros l; cbn [strip app]; [naive_solver|].
  destruct l as [|b l]; [naive_solver|]. destruct (Ascii.eqb_spec a b) as [->|Hne]; [rewrite IH|]; naive_solver.
Qed.

Definition olds_filled (pairs : Pairs) : Prop := Forall (fun p => p.1 ≠ []) pairs.

Lemma find_old_some pairs s new rest : find_old pairs s = Some (new, rest) ->
  exists old, (old, new) ∈ pairs /\ s = old ++ rest.
Proof.
  induction pairs as [|[old n] pairs IH]; cbn [find_old]; [done|].
  destruct (strip old s) as [r|] eqn:Hs; [intros [= -> ->]|intros Hf].
  - apply strip_app_iff in Hs. exists old. split; [left|done].
  - destruct (IH Hf) as (o & Ho & ->). exists o. split; [by right|done].
Qed.

Lemma find_old_none pairs s : find_old pairs s = None <-> forall old new rest, (old, new) ∈ pairs -> s <> old ++ rest.
Proof.
  induction pairs as [|[old n] pairs IH]; cbn [find_old]; [split; [intros _ ??? Hin; by apply elem_of_nil in Hin|done]|].
  destruct (strip old s) as [r|] eqn:Hs.
  - apply strip_app_iff in Hs. split; [done|]. intros Hall. by destruct (Hall old n r); [left|].
  - rewrite IH. split.
    + intros Hall o n' r [[= -> ->]|Hin]%elem_of_cons; [|by apply (Hall o n')].
      intros Heq%strip_app_iff. congruence.
    + intros Hall o n' r Hin. apply (Hall o n'). by right.
Qed.

Lemma Replace_fuel pairs fuel s : olds_filled pairs -> (length s <= fuel)%nat ->
  Replace_loop fuel pairs s = Replace pairs s.
Proof.
  intros Hp. unfold Replace. revert s. induction fuel as [fuel IH] using lt_wf_ind. intros s Hf.
  destruct s as [|c s]; [by destruct fuel|]. destruct fuel as [|fuel]; [cbn in Hf; lia|]. cbn [Replace_loop length].
  destruct (find_old pairs (c :: s)) as [[new rest]|] eqn:Hfind.
  - apply find_old_some in Hfind as (old & Hin & Heq). unfold olds_filled in Hp. rewrite Forall_forall in Hp.
    specialize (Hp _ Hin). cbn [fst] in Hp. assert (Hl : (length rest <= length s)%nat).
    { apply (f_equal length) in Heq. rewrite length_app in Heq. destruct old; [done|]. cbn in Heq. lia. }
    cbn [length] in Hf. f_equal. rewrite (IH fuel) by lia. symmetry. destruct (decide (length s = fuel)) as [->|]; [by rewrite IH by lia|].
    by rewrite (IH (length s)) by lia.
  - cbn [length] in Hf. f_equal. apply IH; lia.
Qed.

Lemma Replace_cons pairs c s : olds_filled pairs ->
  Replace pairs (c :: s) =
  match find_old pairs (c :: s) with
  | Some (new, rest) => new ++ Replace pairs rest
  | None => c :: Replace pairs s
  end.
Proof.
  intros Hp. unfold Replace at 1. cbn [length Replace_loop].
  destruct (find_old pairs (c :: s)) as [[new rest]|] eqn:Hf; [|by rewrite Replace_fuel].
  f_equal. apply Replace_fuel; [done|]. apply find_old_some in Hf as (old & Hin & Heq).
  unfold olds_filled in Hp. rewrite Forall_forall in Hp. specialize (Hp _ Hin). apply (f_equal length) in Heq.
  rewrite length_app in Heq. destruct old; [done|]. cbn in Heq. lia.
Qed.

(** An old text lies across the end of [x] when [y] follows. *)
Definition straddles (pairs : Pairs) (x y : bytes) : Prop :=
  exists old new u v a z, (old, new) ∈ pairs /\ old = u ++ v /\ u ≠ [] /\ v ≠ [] /\ x = a ++ u /\ y = v ++ z.

Lemma find_old_app pairs x y : olds_filled pairs -> x ≠ [] -> ~ straddles pairs x y ->
  find_old pairs (x ++ y) = (fun '(new, rest) => (new, rest ++ y)) <$> find_old pairs x.
Proof.
  intros Hp Hx. induction pairs as [|[old new] pairs IH]; intros Hs; [done|]. cbn [find_old].
  destruct (strip old x) as [r|] eqn:Hold.
  - apply strip_app_iff in Hold as ->. by rewrite <- app_assoc, (proj2 (strip_app_iff old _ (r ++ y))).
  - destruct (strip old (x ++ y)) as [r|] eqn:Hover.
    + exfalso. apply strip_app_iff, app_eq_inv in Hover as [(k & -> & ->)|(k & -> & ->)].
      * by rewrite (proj2 (strip_app_iff old _ k)) in Hold.
      * apply Hs. exists (x ++ k), new, x, k, [], r. split; [left|]. split; [done|]. split; [done|]. split; [|done].
        intros ->. rewrite app_nil_r in Hold. by rewrite (proj2 (strip_app_iff x x [])) in Hold; [|rewrite app_nil_r].
    + apply IH; [by inversion Hp|]. intros (o & n & u & v & a & z & Hin & Hrest). apply Hs.
      exists o, n, u, v, a, z. split; [by right|done].
Qed.

Lemma Replace_app pairs x y : olds_filled pairs -> ~ straddles pairs x y ->
  Replace pairs (x ++ y) = Replace pairs x ++ Replace pairs y.
Proof.
  intros Hp. remember (length x) as n eqn:Hn. revert x Hn. induction n as [n IH] using lt_wf_ind. intros x -> Hs.
  destruct x as [|c x]; [done|]. cbn [app]. rewrite !Replace_cons by done. change (c :: x ++ y) with ((c :: x) ++ y).
  rewrite find_old_app by done. destruct (find_old pairs (c :: x)) as [[new rest]|] eqn:Hf; cbn [fmap option_fmap option_map].
  - apply find_old_some in Hf as (old & Hin & Heq). rewrite (IH (length rest)), app_assoc; [done| |done|].
    + unfold olds_filled in Hp. rewrite Forall_forall in Hp. specialize (Hp _ Hin).
      apply (f_equal length) in Heq. rewrite length_app in Heq. destruct old; [done|]. cbn in Heq |- *. lia.
    + intros (o & n & u & v & a & z & Hin' & Ho & Hu & Hv & -> & ->). apply Hs.
      exists o, n, u, v, (old ++ a), z. rewrite Heq, app_assoc. done.
  - cbn [app]. f_equal. apply (IH (length x)); [cbn; lia|done|].
    intros (o & n & u & v & a & z & Hin' & Ho & Hu & Hv & -> & ->). apply Hs. by exists o, n, u, v, (c :: a), z.
Qed.

(** A text in which no old text lies is kept. *)
Lemma Replace_none pairs s : olds_filled pairs -> (forall old new a z, (old, new) ∈ pairs -> s <> a ++ old ++ z) ->
  Replace pairs s = s.
Proof.
  intros Hp. induction s as [|c s IH]; intros Hall; [done|]. rewrite Replace_cons by done.
  rewrite (proj2 (find_old_none pairs (c :: s))).
  - f_equal. apply IH. intros o n a z Hin ->. by apply (Hall o n (c :: a) z).
  - intros o n r Hin. by apply (Hall o n [] r).
Qed.

(** ** Aliases do not overlap *)

Lemma is_hex_not_o : is_hex "o" = false.
Proof. by vm_compute. Qed.

Lemma alias_length a : alias_shaped a -> length a = 41%nat.
Proof. intros (h & -> & Hh & _). rewrite length_app, Hh. done. Qed.

Lemma alias_apart a b x v y : alias_shaped a -> alias_shaped b -> a = x ++ v -> b = v ++ y -> x ≠ [] -> v = [].
Proof.
  intros Ha Hb Hxv Hvy Hx. destruct v as [|c v]; [done|]. exfalso.
  assert (Hat : forall i, (i < length (c :: v))%nat -> a !! (length x + i)%nat = b !! i).
  { intros i Hi. rewrite Hxv, Hvy, lookup_app_r, lookup_app_l by lia. f_equal. lia. }
  pose proof (alias_length _ Ha) as Hl. rewrite Hxv, length_app in Hl. set (k := length x) in *.
  assert (Hk : (0 < k)%nat) by (destruct x; [done|cbn in k; subst k; lia]).
  destruct Ha as (h & -> & Hh & Hhex), Hb as (h' & -> & _).
  pose proof (Hat 0%nat ltac:(cbn; lia)) as H0. destruct (decide (9 <= k)%nat) as [Hge|Hlt].
  - rewrite lookup_app_r in H0 by (cbn; lia). cbn in H0. apply list_elem_of_lookup_2 in H0.
    rewrite Forall_forall in Hhex. apply Hhex in H0. by rewrite is_hex_not_o in H0.
  - pose proof (Hat 1%nat ltac:(lia)) as H1. clearbody k. clear -H0 H1 Hk Hlt.
    do 9 (destruct k as [|k]; [first [lia|by cbn in H0|by cbn in H1]|]). lia.
Qed.

Definition alias_pairs (pairs : Pairs) : Prop := forall old new, (old, new) ∈ pairs -> alias_shaped old.

Section aliases.
Variable pairs : Pairs.
Hypothesis shaped : alias_pairs pairs.
#[local] Set Default Proof Using "Type*".

Lemma aliases_filled : olds_filled pairs.
Proof.
  apply Forall_forall. intros [old new] Hin. cbn. intros ->. apply shaped, alias_length in Hin. done.
Qed.

(** No alias lies across the start, or the end, of another one. *)
Lemma alias_start x a z : alias_shaped a -> ~ straddles pairs x (a ++ z).
Proof.
  intros Ha (old & new & u & v & b & z' & Hin & Ho & Hu & Hv & _ & Hz). apply shaped in Hin as Hold.
  apply Hv. apply app_eq_inv in Hz as [(k & -> & ->)|(k & -> & ->)].
  - by eapply (alias_apart old (v ++ k) u).
  - exfalso. apply alias_length in Ha, Hold. rewrite Ho, !length_app in Hold. destruct u; [done|cbn in Hold; lia].
Qed.

Lemma alias_end x a z : alias_shaped a -> ~ straddles pairs (x ++ a) z.
Proof.
  intros Ha (old & new & u & v & b & z' & Hin & Ho & Hu & Hv & Hx & _). apply shaped in Hin as Hold.
  assert (Hlong : (length a <= length u)%nat -> False).
  { intros Hl. apply alias_length in Ha, Hold. rewrite Ho, length_app in Hold. destruct v; [done|cbn in Hold; lia]. }
  apply app_eq_inv in Hx as [(k & -> & ->)|(k & -> & ->)]; [rewrite length_app in Hlong; lia|].
  destruct (decide (k = [])) as [->|Hk]; [cbn in Hlong; lia|]. apply Hu. by eapply (alias_apart (k ++ u) old k u v).
Qed.

(** An alias in the table is replaced by its name. *)
Lemma Replace_alias a name : (a, name) ∈ pairs -> NoDup pairs.*1 -> Replace pairs a = name.
Proof.
  intros Hin Hnd. apply shaped in Hin as Ha. apply alias_length in Ha as Hl. destruct a as [|c a]; [done|].
  rewrite Replace_cons by apply aliases_filled. destruct (find_old pairs (c :: a)) as [[new rest]|] eqn:Hf.
  - apply find_old_some in Hf as (old & Hold & Heq). pose proof (alias_length _ (shaped _ _ Hold)) as Hol.
    rewrite Heq, length_app in Hl. destruct rest; [|cbn in Hl; lia]. rewrite app_nil_r in Heq. subst old.
    rewrite app_nil_r. clear -Hin Hold Hnd. induction pairs as [|[o n] ps IH]; [by apply elem_of_nil in Hin|].
    cbn in Hnd. apply NoDup_cons in Hnd as [Ho Hnd].
    apply elem_of_cons in Hin as [Hin|Hin], Hold as [Hold|Hold].
    + congruence.
    + exfalso. apply Ho, list_elem_of_fmap. exists (c :: a, new). split; [cbn; congruence|done].
    + exfalso. apply Ho, list_elem_of_fmap. exists (c :: a, name). split; [cbn; congruence|done].
    + by apply IH.
  - exfalso. apply (proj1 (find_old_none _ _) Hf _ _ [] Hin). by rewrite app_nil_r.
Qed.

(** ** Texts with names behind aliases *)

(** [t'] is [t] with some occurrences of names written as their aliases. *)
Inductive aliased (m : gmap bytes bytes) : bytes -> bytes -> Prop :=
| aliased_rest t : aliased m t t
| aliased_name s name a t t' : m !! a = Some name -> aliased m t t' -> aliased m (s ++ name ++ t) (s ++ a ++ t').

Lemma Replace_aliased m t t' : NoDup pairs.*1 -> (forall a name, m !! a = Some name -> (a, name) ∈ pairs) ->
  aliased m t t' -> (forall old new x y, (old, new) ∈ pairs -> t <> x ++ old ++ y) -> Replace pairs t' = t.
Proof.
  intros Hnd Hm Ht. induction Ht as [t|s name a t t' Ha Ht IH]; intros Hfree.
  - apply Replace_none; [apply aliases_filled|done].
  - apply Hm in Ha as Hin. pose proof (shaped _ _ Hin) as Hsh.
    rewrite Replace_app, Replace_app; [|apply aliases_filled| |apply aliases_filled|by apply alias_start].
    + rewrite (Replace_alias a name), IH, Replace_none; [done|apply aliases_filled| | |done|done].
      * intros old new x y Hold ->. apply (Hfree old new x (y ++ name ++ t) Hold). by rewrite <- !app_assoc.
      * intros old new x y Hold ->. apply (Hfree old new (s ++ name ++ x) y Hold). by rewrite <- !app_assoc.
    + by apply (alias_end []).
Qed.
End aliases.

Lemma aliased_mono m m' t t' : m ⊆ m' -> aliased m t t' -> aliased m' t t'.
Proof.
  intros Hm. induction 1 as [t|s name a t t' Ha Ht IH]; [apply aliased_rest|].
  apply aliased_name; [by eapply lookup_weaken|done].
Qed.

(** ** Pieces of a stream *)

(** The longest end of [text], of at most [n] bytes, that an alias begins with. *)
Fixpoint hold_back (prefixes : gset bytes) (n : nat) (text : bytes) : nat :=
  match n with
  | O => 0
  | S n' => if decide (drop (length text - n) text ∈ prefixes) then n else hold_back prefixes n' text
  end.

(** What the next piece of a text does: the part that can be restored, and the
    part that waits. *)
Definition keep_of (prefixes : gset bytes) (maxAliasBytes : nat) (ending : bool) (text : bytes) : nat :=
  if ending then O else hold_back prefixes (Nat.min (length text) (maxAliasBytes - 1)) text.

Section pieces.
Variables (pairs : Pairs) (prefixes : gset bytes) (maxAliasBytes : nat).
Hypothesis shaped : alias_pairs pairs.
Hypothesis begins : forall p, p ∈ prefixes <-> exists old new r, (old, new) ∈ pairs /\ old = p ++ r /\ p ≠ [] /\ r ≠ [].
Hypothesis longest : forall old new, (old, new) ∈ pairs -> (length old <= maxAliasBytes)%nat.
#[local] Set Default Proof Using "Type*".

Lemma hold_back_le n text : (hold_back prefixes n text <= n)%nat.
Proof using Type. induction n as [|n IH]; cbn; [done|]. case_decide; [done|lia]. Qed.

Lemma hold_back_in n text : (0 < hold_back prefixes n text)%nat ->
  drop (length text - hold_back prefixes n text) text ∈ prefixes.
Proof using Type. induction n as [|n IH]; cbn; [lia|]. case_decide; [done|]. apply IH. Qed.

Lemma hold_back_longest n text k : (hold_back prefixes n text < k <= n)%nat -> drop (length text - k) text ∉ prefixes.
Proof using Type.
  induction n as [|n IH]; cbn; [lia|]. case_decide as Hd; [lia|]. intros Hk.
  destruct (decide (k = S n)) as [->|]; [done|]. apply IH. lia.
Qed.

Lemma keep_le ending text : (keep_of prefixes maxAliasBytes ending text <= length text)%nat.
Proof using Type. unfold keep_of. destruct ending; [lia|]. pose proof (hold_back_le (Nat.min (length text) (maxAliasBytes - 1)) text). lia. Qed.

(** The part that waits holds no alias. *)
Lemma waiting_plain ending text : let rest := drop (length text - keep_of prefixes maxAliasBytes ending text) text in
  Replace pairs rest = rest.
Proof.
  intros rest. apply Replace_none; [by apply aliases_filled|]. intros old new a z Hin Heq.
  destruct (decide (keep_of prefixes maxAliasBytes ending text = 0)%nat) as [H0|H0].
  - subst rest. rewrite H0, Nat.sub_0_r, drop_all in Heq. apply shaped, alias_length in Hin.
    apply (f_equal length) in Heq. rewrite !length_app in Heq. cbn in Heq. lia.
  - unfold keep_of in *. destruct ending; [done|].
    pose proof (hold_back_in (Nat.min (length text) (maxAliasBytes - 1)) text ltac:(lia)) as Hp. fold rest in Hp.
    apply begins in Hp as (o & n & r & Ho & -> & _ & Hr). apply shaped, alias_length in Hin, Ho.
    rewrite Heq, !length_app in Ho. destruct r; [done|cbn in Ho; lia].
Qed.

(** What follows does not touch the part that is let go. *)
Lemma release_apart text more : let keep := keep_of prefixes maxAliasBytes false text in
  ~ straddles pairs (take (length text - keep) text) (drop (length text - keep) text ++ more).
Proof.
  intros keep (old & new & u & v & b & z & Hin & Ho & Hu & Hv & Hx & Hz).
  set (rest := drop (length text - keep) text) in *. pose proof (keep_le false text) as Hle. fold keep in Hle.
  assert (Hrest : length rest = keep) by (subst rest; rewrite length_drop; lia).
  pose proof (alias_length _ (shaped _ _ Hin)) as Hl. rewrite Ho, length_app in Hl. apply longest in Hin as Hmax.
  rewrite Ho, length_app in Hmax. assert (Hu1 : (0 < length u)%nat) by (destruct u; [done|cbn; lia]).
  assert (Hv1 : (0 < length v)%nat) by (destruct v; [done|cbn; lia]).
  apply app_eq_inv in Hz as [(k & Hk & ->)|(k & Hk & ->)].
  - (* the alias ends inside the part that waits *)
    assert (Hp : rest ∈ prefixes).
    { apply hold_back_in. fold (keep_of prefixes maxAliasBytes false text). change (0 < keep)%nat.
      rewrite <- Hrest, Hk, length_app. lia. }
    apply begins in Hp as (o & n & r & Hino & Heq & _). apply Hv.
    eapply (alias_apart old o u v (k ++ r)); [by eapply shaped|by eapply shaped|done| |done].
    by rewrite Heq, Hk, <- app_assoc.
  - (* it goes on behind it: a longer part would have waited *)
    assert (Htext : text = b ++ u ++ rest).
    { rewrite <- (take_drop (length text - keep) text). fold rest. by rewrite Hx, <- app_assoc. }
    destruct (decide (k = [])) as [->|Hk0].
    + (* the text ends with an alias *)
      rewrite app_nil_r in Hk. subst v. destruct (decide (rest = [])) as [|Hne]; [done|].
      assert (Hp : rest ∈ prefixes).
      { apply hold_back_in. fold (keep_of prefixes maxAliasBytes false text). change (0 < keep)%nat. lia. }
      apply begins in Hp as (o & n & r & Hino & Heq & _). apply Hv.
      by eapply (alias_apart old o u rest r); [eapply shaped|eapply shaped|..].
    + apply (hold_back_longest (Nat.min (length text) (maxAliasBytes - 1)) text (length u + keep)%nat).
      * fold (keep_of prefixes maxAliasBytes false text). change (keep < length u + keep <= Nat.min (length text) (maxAliasBytes - 1))%nat.
        rewrite Hk, length_app in Hmax. assert (0 < length k)%nat by (destruct k; [done|cbn; lia]).
        rewrite Htext at 1. rewrite !length_app. lia.
      * replace (drop (length text - (length u + keep)) text) with (u ++ rest).
        { apply begins. exists old, new, k. split; [done|]. split; [by rewrite Ho, Hk, app_assoc|].
          split; [by destruct u|done]. }
        replace (length text - (length u + keep))%nat with (length b) by (rewrite Htext, !length_app; lia).
        by rewrite Htext, drop_app_length.
Qed.

(** Releasing a piece now or later makes no difference. *)
Lemma hold_release_spec text more : let keep := keep_of prefixes maxAliasBytes false text in
  Replace pairs (text ++ more) =
  Replace pairs (take (length text - keep) text) ++ Replace pairs (drop (length text - keep) text ++ more).
Proof.
  intros keep. rewrite <- Replace_app; [|by apply aliases_filled|apply release_apart].
  by rewrite app_assoc, take_drop.
Qed.
End pieces.
