(* ===== verification/OcAlias.v ===== *)
(** * Names of other clients

    relay/opencode_alias.go: before a request goes to OpenCode, the names of other
    clients in its prompts become opaque aliases, and the aliases in the answer
    become the names again.  The stream of an answer is in [OcAliasStream]. *)

From Stdlib Require Import Ascii String.
From S2P Require Import Prelude GoStrings Utf8 MaskText GoRegexp GoJson Gjson Protocol Errors StreamEvents OcReplacer.
Local Open Scope list_scope.

(** ** The names *)

Definition opencodeAliasPattern : regex :=
  alt (iword <$> ["deepseek HARNESS"; "opencode"; "grok build"; "liveagent"; "novaveilagent"; "workbuddy"; "zcode"]).

Definition opencodeAliasCollisionTries : nat := 128.
Definition opencodeAliasMaxChannels : nat := 256.
Definition opencodeAliasMaxTemplateBytes : Z := 16 * 1024.

Record opencodeAliasState := mkAliasState {
  aliases : gmap bytes bytes;          (** alias to name *)
  replacer : Pairs;
  prefixes : gset bytes;               (** what an alias may begin with *)
  maxAliasBytes : nat }.

Definition opencodeAliasFormat (format : APIFormat) : bool :=
  match format with
  | APIFormatOpenAIChatCompletion | APIFormatAnthropicMessage | APIFormatOpenAIResponse => true
  | _ => false
  end.

(** The text is not cut out of a longer word. *)
Definition opencodeNameBoundary (text : bytes) (start stop : nat) : bool :=
  negb (word_before text start) && negb (word_at text stop).

Section alias.
Context `{Gjson}.
(** SHA-256. *)
Variable Sum256 : bytes -> bytes.

Fixpoint opencodeJSONContains (alias : bytes) (v : json) : bool :=
  match v with
  | JStr s => contains alias s
  | JArr l => existsb (opencodeJSONContains alias) l
  | JObj kvs => existsb (fun kv => contains alias kv.1 || opencodeJSONContains alias kv.2) kvs
  | _ => false
  end.

Definition alias_of (original : bytes) (probe : nat) : bytes :=
  let nul := [of_byte 0] in
  opencodeAliasPrefix ++
  hex_encode (take 16 (Sum256 (lit "opencode-identity" ++ nul ++ original ++ nul ++ number_text (Z.of_nat probe)))).

Fixpoint probe_alias (tries probe : nat) (body : string) (original : bytes) (taken : gmap bytes bytes) : option bytes :=
  match tries with
  | O => None
  | S tries =>
      let alias := alias_of original probe in
      if is_some (taken !! alias) then probe_alias tries (S probe) body original taken
      else if contains alias (aos body) || opencodeJSONContains alias (ParseBytes body)
      then probe_alias tries (S probe) body original taken
      else Some alias
  end.
Definition opencodeIdentityAlias (body : string) (original : bytes) (taken : gmap bytes bytes) : bytes + GoErr :=
  match probe_alias opencodeAliasCollisionTries 0 body original taken with
  | Some alias => inl alias
  | None => inr (plain "opencode identity alias collision limit exceeded")
  end.

(** ** Where the texts are *)

(** A text, or the text blocks of an array. *)
Definition opencodeTextPaths (body : string) (p : path) (kinds : list string) : list path :=
  let value := GetBytes body p in
  if IsString value then [p] else
  concat (imap (fun i block =>
    if existsb (StrIs (get [key "type"] block)) kinds && IsString (get [key "text"] block)
    then [p ++ [Idx i; key "text"]] else []) (Array value)).

Definition is_prompt_role (message : json) : bool :=
  existsb (StrIs (get [key "role"] message)) ["system"; "developer"].

Definition opencodePromptPaths (body : string) (format : APIFormat) : list path :=
  match format with
  | APIFormatOpenAIChatCompletion =>
      concat (imap (fun i message =>
        if is_prompt_role message
        then opencodeTextPaths body [key "messages"; Idx i; key "content"] ["text"; "input_text"] else [])
        (Array (GetBytes body [key "messages"])))
  | APIFormatAnthropicMessage => opencodeTextPaths body [key "system"] ["text"]
  | APIFormatOpenAIResponse =>
      opencodeTextPaths body [key "instructions"] ["text"; "input_text"] ++
      concat (imap (fun i message =>
        let kind := get [key "type"] message in
        if negb (StrIs kind "") && negb (StrIs kind "message") then [] else
        if is_prompt_role message
        then opencodeTextPaths body [key "input"; Idx i; key "content"] ["text"; "input_text"] else [])
        (Array (GetBytes body [key "input"])))
  | _ => []
  end.

(** ** Naming *)

Record naming := mkNaming { originals : gmap bytes bytes; named : gmap bytes bytes }.

Definition name_alias (body : string) (nm : naming) (original : bytes) : (bytes * naming) + GoErr :=
  match originals nm !! original with
  | Some alias => inl (alias, nm)
  | None =>
      match opencodeIdentityAlias body original (named nm) with
      | inl alias => inl (alias, mkNaming (<[original := alias]> (originals nm)) (<[alias := original]> (named nm)))
      | inr err => inr err
      end
  end.

(** The loop over the matches of one text: what was written, and where the rest of
    the text begins. *)
Fixpoint alias_matches (body : string) (text : bytes) (ms : list loc) (start : nat) (out : bytes) (nm : naming)
  : (bytes * nat * naming) + GoErr :=
  match ms with
  | [] => inl (out, start, nm)
  | m :: ms =>
      if negb (opencodeNameBoundary text (loc_start m) (loc_end m)) then alias_matches body text ms start out nm else
      let original := take (loc_end m - loc_start m) (drop (loc_start m) text) in
      match name_alias body nm original with
      | inr err => inr err
      | inl (alias, nm) =>
          alias_matches body text ms (loc_end m)
            (out ++ take (loc_start m - start) (drop start text) ++ alias) nm
      end
  end.

Record opencodeAliasEdit := mkEdit { ed_path : path; ed_text : bytes }.

Fixpoint alias_paths (body : string) (ps : list path) (edits : list opencodeAliasEdit) (nm : naming)
  : (list opencodeAliasEdit * naming) + GoErr :=
  match ps with
  | [] => inl (edits, nm)
  | p :: ps =>
      let text := Str (GetBytes body p) in
      match alias_matches body text (FindAllSubmatchIndex opencodeAliasPattern text) 0 [] nm with
      | inr err => inr err
      | inl (out, start, nm) =>
          alias_paths body ps
            (if (start =? 0)%nat then edits else edits ++ [mkEdit p (out ++ drop start text)]) nm
      end
  end.

Fixpoint opencodeApplyEdits (body : string) (edits : list opencodeAliasEdit) : string + GoErr :=
  match edits with
  | [] => inl body
  | e :: edits =>
      if bool_decide (Str (GetBytes body (ed_path e)) = ed_text e) then opencodeApplyEdits body edits else
      match SetBytes body (ed_path e) (JStr (ed_text e)) with
      | Some body => opencodeApplyEdits body edits
      | None => inr (plain "opencode identity field")
      end
  end.

(** [sort.Strings]: the order of the bytes. *)
Definition bytes_le (a b : bytes) : Prop := String.leb (soa a) (soa b) = true.
#[export] Instance bytes_le_dec a b : Decision (bytes_le a b) := decide (String.leb (soa a) (soa b) = true).
Definition sort_bytes (l : list bytes) : list bytes := merge_sort bytes_le l.

Definition proper_prefixes (alias : bytes) : list bytes := (fun n => take n alias) <$> seq 1 (length alias - 1).

Definition alias_state (m : gmap bytes bytes) : opencodeAliasState :=
  let names := sort_bytes (map_to_list m).*1 in
  mkAliasState m ((fun alias => (alias, default [] (m !! alias))) <$> names)
    (list_to_set (names ≫= proper_prefixes)) (max_list (length <$> names)).

(** [None] as state: there was nothing to hide. *)
Definition applyOpencodeAlias (body : string) (format : APIFormat) : (string * option opencodeAliasState) + GoErr :=
  if negb (opencodeAliasFormat format) then inl (body, None) else
  if negb (ValidBytes body) || negb (IsObject (Some (ParseBytes body)))
  then inr (plain "opencode identity request must be a JSON object") else
  match alias_paths body (opencodePromptPaths body format) [] (mkNaming ∅ ∅) with
  | inr err => inr err
  | inl ([], _) => inl (body, None)
  | inl (edits, nm) =>
      match opencodeApplyEdits body edits with
      | inr err => inr err
      | inl out => inl (out, Some (alias_state (named nm)))
      end
  end.

(** ** The answer as a whole *)

Definition opencodeRestorePaths (body : string) (ps : list path) (state : opencodeAliasState) : string + GoErr :=
  opencodeApplyEdits body
    (omap (fun p => match GetBytes body p with
                    | Some (JStr s) => Some (mkEdit p (Replace (replacer state) s))
                    | _ => None
                    end) ps).

Definition opencodeResponseItemPaths (body : string) (base : path) : list path :=
  let kind := GetBytes body (base ++ [key "type"]) in
  if StrIs kind "message" then opencodeTextPaths body (base ++ [key "content"]) ["output_text"; "text"]
  else if StrIs kind "reasoning" then
    opencodeTextPaths body (base ++ [key "summary"]) ["summary_text"] ++
    opencodeTextPaths body (base ++ [key "content"]) ["reasoning_text"; "text"]
  else [].

Definition opencodeResponsePaths (body : string) (format : APIFormat) (prefix : path) : list path :=
  match format with
  | APIFormatOpenAIChatCompletion =>
      concat (imap (fun i _ =>
        let base := prefix ++ [key "choices"; Idx i; key "message"] in
        opencodeTextPaths body (base ++ [key "content"]) ["text"; "output_text"] ++
        [base ++ [key "reasoning_content"]; base ++ [key "reasoning"]])
        (Array (GetBytes body (prefix ++ [key "choices"]))))
  | APIFormatAnthropicMessage =>
      concat (imap (fun i block =>
        let base := prefix ++ [key "content"; Idx i] in
        let kind := get [key "type"] block in
        if StrIs kind "text" then [base ++ [key "text"]]
        else if StrIs kind "thinking" then [base ++ [key "thinking"]] else [])
        (Array (GetBytes body (prefix ++ [key "content"]))))
  | APIFormatOpenAIResponse =>
      (prefix ++ [key "output_text"]) ::
      concat (imap (fun i _ => opencodeResponseItemPaths body (prefix ++ [key "output"; Idx i]))
        (Array (GetBytes body (prefix ++ [key "output"]))))
  | _ => []
  end.

Definition restoreOpencodeAliasNonStream (body : string) (format : APIFormat) (state : option opencodeAliasState)
  : string + GoErr :=
  match state with
  | None => inl body
  | Some state =>
      if negb (opencodeAliasFormat format) then inl body else
      if negb (ValidBytes body) || negb (IsObject (Some (ParseBytes body)))
      then inr (plain "opencode identity response must be a JSON object")
      else opencodeRestorePaths body (opencodeResponsePaths body format []) state
  end.
End alias.

(** ** Names of other clients in a stream

    The second half of relay/opencode_alias.go.  An alias can be cut by the events
    of a stream, so [opencodeIdentityStream] keeps back, for each text of the
    answer, the end that may begin an alias, and releases it with the next piece,
    or in an event of its own when the text ends. *)

From S2P Require Import GoInts.
Local Open Scope list_scope.

(** [errors.Join]: nil errors are left out. *)
Definition Join (errs : list (option GoErr)) : option GoErr :=
  match omap id errs with
  | [] => None
  | es => Some (mkErr (String.concat (String.String (of_byte 10) "") (err_Error <$> es)) PlainError es)
  end.

(** Where a text of the answer is in an event, and how an event that carries the
    rest of it is made. *)
Record opencodeIdentityField := mkField {
  if_key : bytes; if_path : path; if_templatePath : path; if_kind : bytes; if_index : Z; if_block : Z }.
Record opencodeIdentityPending := mkPending { pd_text : bytes; pd_template : StreamEvent; pd_path : path }.
Notation PendingMap := (gmap bytes opencodeIdentityPending).

Definition int_key (z : Z) : bytes := number_text z.

Section stream.
Context `{Gjson} `{dec : Decoder}.
Variable format : APIFormat.
Variable state : opencodeAliasState.

(** ** The texts of an event

    [data] is the parsed event, in which gjson looks up the paths. *)

Definition opencodeIdentityIndex (value : Result) (fallback : nat) : Z :=
  if IsNumber value then IntOf value else wrap64 (Z.of_nat fallback).

(** [strings.TrimSuffix]. *)
Definition trim_suffix (suffix s : bytes) : bytes :=
  match strip (rev suffix) (rev s) with Some rest => rev rest | None => s end.

Definition opencodeResponsesChannel (data : json) (kind : bytes) : bytes :=
  let part := if contains (lit "reasoning_summary") kind then get [key "summary_index"] data
              else get [key "content_index"] data in
  lit "responses:" ++ int_key (IntOf (get [key "output_index"] data)) ++ lit ":" ++
  trim_suffix (lit ".done") (trim_suffix (lit ".delta") kind) ++ lit ":" ++ int_key (IntOf part) ++ lit ":".

Definition chat_choice_fields (i : nat) (choice : json) : list opencodeIdentityField :=
  let index := opencodeIdentityIndex (get [key "index"] choice) i in
  let base := [key "choices"; Idx i; key "delta"] in
  let first := [key "choices"; Idx 0; key "delta"] in
  let name := lit "chat:" ++ int_key index ++ lit ":" in
  let content := get [key "delta"; key "content"] choice in
  (if IsString content
   then [mkField (name ++ lit "content") (base ++ [key "content"]) (first ++ [key "content"]) (lit "content") index 0] else []) ++
  concat (imap (fun j block =>
    let kind := get [key "type"] block in
    if negb (StrIs kind "text") && negb (StrIs kind "output_text") then [] else
    let b := opencodeIdentityIndex (get [key "index"] block) j in
    [mkField (name ++ lit "content:" ++ int_key b) (base ++ [key "content"; Idx j; key "text"])
       (first ++ [key "content"; Idx 0; key "text"]) (Str kind) index b]) (Array content)) ++
  ((fun f => mkField (name ++ lit f) (base ++ [key f]) (first ++ [key f]) (lit f) index 0)
     <$> ["reasoning_content"; "reasoning"]).

Definition anthropic_fields (data : json) : list opencodeIdentityField :=
  let index := IntOf (get [key "index"] data) in
  let event := get [key "type"] data in
  let named (base : string) (kind : Result) :=
    let at_ (f : string) :=
      [mkField (lit "anthropic:" ++ int_key index ++ lit ":" ++ lit f) [key base; key f] [key "delta"; key f] (lit f) index 0] in
    if StrIs kind "text" || StrIs kind "text_delta" then at_ "text"
    else if StrIs kind "thinking" || StrIs kind "thinking_delta" then at_ "thinking" else [] in
  if StrIs event "content_block_start" then named "content_block" (get [key "content_block"; key "type"] data)
  else if StrIs event "content_block_delta" then named "delta" (get [key "delta"; key "type"] data)
  else [].

Definition is_responses_delta (kind : bytes) : bool :=
  existsb (fun s => bool_decide (kind = lit s))
    ["response.output_text.delta"; "response.reasoning_text.delta"; "response.reasoning_summary_text.delta"].

Definition fields (data : json) : list opencodeIdentityField :=
  match format with
  | APIFormatOpenAIChatCompletion => concat (imap chat_choice_fields (Array (get [key "choices"] data)))
  | APIFormatAnthropicMessage => anthropic_fields data
  | APIFormatOpenAIResponse =>
      let kind := Str (get [key "type"] data) in
      if is_responses_delta kind
      then [mkField (opencodeResponsesChannel data kind) [key "delta"] [key "delta"] kind 0 0] else []
  | _ => []
  end.

(** ** What ends *)

Definition closingChannels (data : json) : list bytes :=
  match format with
  | APIFormatOpenAIChatCompletion =>
      concat (imap (fun i choice =>
        let finish := get [key "finish_reason"] choice in
        if IsString finish && negb (StrIs finish "")
        then [lit "chat:" ++ int_key (opencodeIdentityIndex (get [key "index"] choice) i) ++ lit ":"] else [])
        (Array (get [key "choices"] data)))
  | APIFormatAnthropicMessage =>
      let event := get [key "type"] data in
      if StrIs event "content_block_stop"
      then [lit "anthropic:" ++ int_key (IntOf (get [key "index"] data)) ++ lit ":"]
      else if StrIs event "message_delta" && IsString (get [key "delta"; key "stop_reason"] data)
      then [lit "anthropic:"] else []
  | APIFormatOpenAIResponse =>
      let kind := Str (get [key "type"] data) in
      let kind_is (s : string) := bool_decide (kind = lit s) in
      if kind_is "response.output_text.done" || kind_is "response.reasoning_text.done" || kind_is "response.reasoning_summary_text.done"
      then [opencodeResponsesChannel data kind]
      else if kind_is "response.content_part.done" || kind_is "response.reasoning_summary_part.done" then
        let part := get [key "part"; key "type"] data in
        if StrIs part "output_text" then [opencodeResponsesChannel data (lit "response.output_text.delta")]
        else if StrIs part "reasoning_text" then [opencodeResponsesChannel data (lit "response.reasoning_text.delta")]
        else if StrIs part "summary_text" then [opencodeResponsesChannel data (lit "response.reasoning_summary_text.delta")]
        else []
      else if kind_is "response.output_item.done"
      then [lit "responses:" ++ int_key (IntOf (get [key "output_index"] data)) ++ lit ":"]
      else []
  | _ => []
  end.

(** Texts that an event repeats as a whole. *)
Definition snapshotPaths (data : string) : list path :=
  match format with
  | APIFormatAnthropicMessage =>
      if StrIs (GetBytes data [key "type"]) "message_start" then opencodeResponsePaths data format [key "message"] else []
  | APIFormatOpenAIResponse =>
      let kind_is (s : string) := StrIs (GetBytes data [key "type"]) s in
      if kind_is "response.output_text.done" || kind_is "response.reasoning_text.done" || kind_is "response.reasoning_summary_text.done"
      then [[key "text"]]
      else if kind_is "response.output_item.added" || kind_is "response.output_item.done"
      then opencodeResponseItemPaths data [key "item"]
      else if kind_is "response.content_part.added" || kind_is "response.content_part.done"
           || kind_is "response.reasoning_summary_part.added" || kind_is "response.reasoning_summary_part.done" then
        let part := GetBytes data [key "part"; key "type"] in
        if StrIs part "output_text" || StrIs part "reasoning_text" || StrIs part "summary_text"
        then [[key "part"; key "text"]] else []
      else if kind_is "response.created" || kind_is "response.in_progress" || kind_is "response.completed"
           || kind_is "response.failed" || kind_is "response.incomplete" || kind_is "response.cancelled"
      then opencodeResponsePaths data format [key "response"]
      else []
  | _ => []
  end.

(** ** Events of our own *)

Definition number_json (z : Z) : json := JNum (number_text z).
(** The fields of [data] that are there, as they are. *)
Definition copied (data : string) (names : list string) : list (bytes * json) :=
  omap (fun n => (fun v => (lit n, v)) <$> GetBytes data [key n]) names.

(** The keys of a map are written in order. *)
Definition template_root (data : string) (f : opencodeIdentityField) : bytes * list (bytes * json) :=
  match format with
  | APIFormatOpenAIChatCompletion =>
      let delta :=
        if bool_decide (if_kind f = lit "text") || bool_decide (if_kind f = lit "output_text")
        then [(lit "content", JArr [JObj [(lit "index", number_json (if_block f)); (lit "text", JStr []);
                                          (lit "type", JStr (if_kind f))]])] else [] in
      (* the type of the event is kept *)
      ([], (lit "choices", JArr [JObj [(lit "delta", JObj delta); (lit "index", number_json (if_index f))]]) ::
                 copied data ["created"; "id"; "model"; "object"; "service_tier"; "system_fingerprint"])
  | APIFormatAnthropicMessage =>
      (lit "content_block_delta",
       [(lit "delta", JObj [(lit "type", JStr (if_kind f ++ lit "_delta"))]);
             (lit "index", number_json (if_index f)); (lit "type", JStr (lit "content_block_delta"))])
  | APIFormatOpenAIResponse =>
      (if_kind f,
       copied data ["content_index"; "item_id"; "output_index"; "summary_index"] ++ [(lit "type", JStr (if_kind f))])
  | _ => ([], [])
  end.

Definition template (event : StreamEvent) (f : opencodeIdentityField) : StreamEvent + GoErr :=
  let '(kind, root) := template_root (ev_Data event) f in
  let typeName := if bool_decide (format = APIFormatOpenAIChatCompletion) then ev_Type event
                  else if opencodeAliasFormat format then soa kind else ev_Type event in
  match json_Marshal root with
  | None => inr (plain "opencode identity delta template")
  | Some data =>
      if opencodeAliasMaxTemplateBytes <? slen data + slen typeName + slen (ev_LastEventID event)
      then inr (plain "opencode identity delta template limit exceeded")
      else inl (mkEvent (ev_LastEventID event) typeName data)
  end.

(** ** The stream *)

Record opencodeIdentityStream := mkStream {
  is_inner : option (list (option StreamEvent) * option GoErr);   (** what the inner stream will yield, and its error *)
  pending : PendingMap;
  queue : list (option StreamEvent);
  current : option StreamEvent;
  ended : bool;
  is_err : option GoErr;
  sequenceChecked : bool; sequenceEnabled : bool; nextSequence : Z;
  closed : option (option GoErr) }.                               (** the result of closing, once *)

Definition upd_pending (p : PendingMap) (s : opencodeIdentityStream) : opencodeIdentityStream :=
  mkStream (is_inner s) p (queue s) (current s) (ended s) (is_err s)
    (sequenceChecked s) (sequenceEnabled s) (nextSequence s) (closed s).
Definition upd_queue (q : list (option StreamEvent)) (s : opencodeIdentityStream) : opencodeIdentityStream :=
  mkStream (is_inner s) (pending s) q (current s) (ended s) (is_err s)
    (sequenceChecked s) (sequenceEnabled s) (nextSequence s) (closed s).
Definition upd_err (e : option GoErr) (s : opencodeIdentityStream) : opencodeIdentityStream :=
  mkStream (is_inner s) (pending s) (queue s) (current s) (ended s) e
    (sequenceChecked s) (sequenceEnabled s) (nextSequence s) (closed s).
Definition set_ended (s : opencodeIdentityStream) : opencodeIdentityStream :=
  mkStream (is_inner s) (pending s) (queue s) (current s) true (is_err s)
    (sequenceChecked s) (sequenceEnabled s) (nextSequence s) (closed s).
Definition upd_sequence (on : bool) (n : Z) (s : opencodeIdentityStream) : opencodeIdentityStream :=
  mkStream (is_inner s) (pending s) (queue s) (current s) (ended s) (is_err s) true on n (closed s).

(** [flush]: the events for the pending texts of some channels, in the order of
    their keys, and what stays pending. *)
Fixpoint flush_keys (keys : list bytes) (p : PendingMap) : (list (option StreamEvent) + GoErr) * PendingMap :=
  match keys with
  | [] => (inl [], p)
  | k :: keys =>
      match p !! k with
      | None => flush_keys keys p
      | Some pd =>
          match SetBytes (ev_Data (pd_template pd)) (pd_path pd) (JStr (pd_text pd)) with
          | None => (inr (plain "opencode identity flush"), p)
          | Some data =>
              let event := mkEvent (ev_LastEventID (pd_template pd)) (ev_Type (pd_template pd)) data in
              let '(out, p) := flush_keys keys (delete k p) in
              (match out with inl out => inl (Some event :: out) | inr e => inr e end, p)
          end
      end
  end.
Definition flush (matches : bytes -> bool) (p : PendingMap) : (list (option StreamEvent) + GoErr) * PendingMap :=
  flush_keys (sort_bytes (filter (fun k => matches k = true) (map_to_list p).*1)) p.
Definition flush_all : PendingMap -> (list (option StreamEvent) + GoErr) * PendingMap := flush (fun _ => true).

(** One text of an event: its part that can be restored goes out, the rest waits. *)
Definition field_step (isClosing : bytes -> bool) (event : StreamEvent) (f : opencodeIdentityField)
    (data : string) (p : PendingMap) : (string + GoErr) * PendingMap :=
  match GetBytes data (if_path f) with
  | Some (JStr value) =>
      let text := from_option pd_text [] (p !! if_key f) ++ value in
      let keep := keep_of (prefixes state) (maxAliasBytes state) (isClosing (if_key f)) text in
      let cut := (length text - keep)%nat in
      match opencodeApplyEdits data [mkEdit (if_path f) (Replace (replacer state) (take cut text))] with
      | inr e => (inr e, p)
      | inl updated =>
          if (keep =? 0)%nat then (inl updated, delete (if_key f) p)
          else if negb (is_some (p !! if_key f)) && (opencodeAliasMaxChannels <=? size p)%nat
          then (inr (plain "opencode identity pending channel limit exceeded"), p)
          else match template event f with
               | inr e => (inr e, p)
               | inl t => (inl updated, <[if_key f := mkPending (drop cut text) t (if_templatePath f)]> p)
               end
      end
  | _ => (inl data, p)
  end.

Fixpoint fields_loop (isClosing : bytes -> bool) (event : StreamEvent) (fs : list opencodeIdentityField)
    (data : string) (p : PendingMap) : (string + GoErr) * PendingMap :=
  match fs with
  | [] => (inl data, p)
  | f :: fs =>
      match field_step isClosing event f data p with
      | (inl data, p) => fields_loop isClosing event fs data p
      | r => r
      end
  end.

(** The number of the first event of a response stream. *)
Definition check_sequence (data : string) (s : opencodeIdentityStream) : option GoErr * opencodeIdentityStream :=
  if negb (bool_decide (format = APIFormatOpenAIResponse)) || sequenceChecked s then (None, s) else
  match GetBytes data [key "sequence_number"] with
  | None => (None, upd_sequence (sequenceEnabled s) (nextSequence s) s)
  | Some v =>
      let s' := upd_sequence (sequenceEnabled s) (nextSequence s) s in
      match v with
      | JNum raw =>
          match Atoi (soa raw) with
          | None => (Some (plain "opencode identity response sequence_number"), s')
          | Some number =>
              if number <? 0 then (Some (plain "opencode identity invalid response sequence_number"), s')
              else (None, upd_sequence true number s)
          end
      | JNull => (Some (plain "opencode identity invalid response sequence_number"), s')
      | _ => (Some (plain "opencode identity response sequence_number"), s')
      end
  end.

Definition starts_any (ps : list bytes) (k : bytes) : bool := existsb (fun p => is_some (strip p k)) ps.

(** What an event closes: everything when it ends the stream or reports a failure. *)
Definition closes (event : StreamEvent) (k : bytes) : bool :=
  let verdict := analyzeStreamEvent format (Some event) in
  v_terminal verdict || is_some (v_inspectErr verdict) || is_some (v_abnormalErr verdict)
  || starts_any (closingChannels (ParseBytes (ev_Data event))) k.

Definition note_verdict (event : StreamEvent) (s : opencodeIdentityStream) : opencodeIdentityStream :=
  let verdict := analyzeStreamEvent format (Some event) in
  let s := if is_some (is_err s) then s else upd_err (Join [v_inspectErr verdict; v_abnormalErr verdict]) s in
  if v_terminal verdict then set_ended s else s.

Definition malformed (data : string) : bool :=
  negb (bool_decide (TrimSpace data = "[DONE]"%string))
  && (negb (ValidBytes data) || negb (IsObject (Some (ParseBytes data)))).
Definition reports_error (data : string) : bool := negb (IsNull (GetBytes data [key "error"])).

Definition transform (event : option StreamEvent) (s : opencodeIdentityStream)
  : (list (option StreamEvent) + GoErr) * opencodeIdentityStream :=
  match event with
  | None => (inl [event], s)
  | Some ev =>
      if slen (ev_Data ev) =? 0 then (inl [event], s)
      else if malformed (ev_Data ev) then (inr (plain "opencode identity stream event must be a JSON object"), s)
      else if reports_error (ev_Data ev) then (inr (plain "opencode identity upstream error event"), s)
      else
        match check_sequence (ev_Data ev) s with
        | (Some e, s) => (inr e, s)
        | (None, s) =>
            let s := note_verdict ev s in
            let '(r, p) := fields_loop (closes ev) ev (fields (ParseBytes (ev_Data ev))) (ev_Data ev) (pending s) in
            let s := upd_pending p s in
            match r with
            | inr e => (inr e, s)
            | inl data =>
                match opencodeRestorePaths data (snapshotPaths data) state with
                | inr e => (inr e, s)
                | inl data =>
                    let '(out, p) := flush (closes ev) (pending s) in
                    let s := upd_pending p s in
                    (match out with
                     | inr e => inr e
                     | inl out => inl (out ++ [Some (mkEvent (ev_LastEventID ev) (ev_Type ev) data)])
                     end, s)
                end
            end
        end
  end.

(** [renumber]: from the first number on, without gaps. *)
Fixpoint renumber_loop (n : Z) (events : list (option StreamEvent)) : (list (option StreamEvent) + GoErr) * Z :=
  match events with
  | [] => (inl [], n)
  | event :: events =>
      match event with
      | Some ev =>
          if slen (ev_Data ev) =? 0 then
            let '(r, n) := renumber_loop n events in (match r with inl out => inl (event :: out) | e => e end, n)
          else if maxInt64 <? n then (inr (plain "opencode identity response sequence_number overflow"), n)
          else match SetBytes (ev_Data ev) [key "sequence_number"] (number_json n) with
               | None => (inr (plain "opencode identity response sequence_number"), n)
               | Some data =>
                   let '(r, n) := renumber_loop (n + 1) events in
                   (match r with
                    | inl out => inl (Some (mkEvent (ev_LastEventID ev) (ev_Type ev) data) :: out)
                    | e => e
                    end, n)
               end
      | None => let '(r, n) := renumber_loop n events in (match r with inl out => inl (event :: out) | e => e end, n)
      end
  end.
Definition renumber (events : list (option StreamEvent)) (s : opencodeIdentityStream)
  : (list (option StreamEvent) + GoErr) * opencodeIdentityStream :=
  if negb (sequenceEnabled s) then (inl events, s) else
  let '(r, n) := renumber_loop (nextSequence s) events in (r, upd_sequence true n s).

(** ** Reading *)

(** The inner stream yields its next event, or ends. *)
Definition inner_next (s : opencodeIdentityStream) : option (option StreamEvent) * opencodeIdentityStream :=
  match is_inner s with
  | Some (e :: es, err) =>
      (Some e, mkStream (Some (es, err)) (pending s) (queue s) (current s) (ended s) (is_err s)
                 (sequenceChecked s) (sequenceEnabled s) (nextSequence s) (closed s))
  | _ => (None, s)
  end.

Definition flush_rest (s : opencodeIdentityStream) : opencodeIdentityStream :=
  let '(out, p) := flush_all (pending s) in
  let s := upd_pending p s in
  match out with
  | inl out => upd_queue (queue s ++ out) (upd_err (Join [is_err s; None]) s)
  | inr e => upd_err (Join [is_err s; Some e]) s
  end.

Definition refill (s : opencodeIdentityStream) : opencodeIdentityStream :=
  let '(next, s) := inner_next s in
  let s :=
    match next with
    | None => set_ended s
    | Some event =>
        match transform event s with
        | (inl out, s) => upd_queue out s
        | (inr e, s) => upd_queue [] (set_ended (upd_err (Join [is_err s; Some e]) s))
        end
    end in
  let s := if ended s then flush_rest s else s in
  match renumber (queue s) s with
  | (inl out, s) => upd_queue out s
  | (inr e, s) => upd_queue [] (set_ended (upd_err (Join [is_err s; Some e]) s))
  end.

Definition set_current (c : option StreamEvent) (q : list (option StreamEvent)) (s : opencodeIdentityStream) : opencodeIdentityStream :=
  mkStream (is_inner s) (pending s) q c (ended s) (is_err s)
    (sequenceChecked s) (sequenceEnabled s) (nextSequence s) (closed s).

(** [Next]: whether there is an event, which [Current] then gives. *)
Definition Next (s : opencodeIdentityStream) : bool * opencodeIdentityStream :=
  let s := match queue s with [] => if ended s then s else refill s | _ => s end in
  match queue s with
  | [] => (false, set_current None [] s)
  | e :: q => (true, set_current e q s)
  end.

Definition inner_err (s : opencodeIdentityStream) : option GoErr :=
  match is_inner s with Some ([], err) => err | _ => None end.
Definition Err (s : opencodeIdentityStream) : option GoErr :=
  Join [is_err s; inner_err s; from_option id None (closed s)].

(** [Close]: the inner stream is closed once; [result] is what it answers. *)
Definition Close (result : option GoErr) (s : opencodeIdentityStream) : option GoErr * opencodeIdentityStream :=
  match closed s with
  | Some e => (e, s)
  | None =>
      let result := if is_some (is_inner s) then result else None in
      (result, mkStream (is_inner s) (pending s) (queue s) (current s) (ended s) (is_err s)
                 (sequenceChecked s) (sequenceEnabled s) (nextSequence s) (Some result))
  end.

(** ** The answer of a round *)

(** The fields of [upstreamResponse] that are used: the events read ahead, those
    still to come, and whether the stream has ended within the window. *)
Record answer := mkAnswer {
  an_body : string; an_window : list (option StreamEvent);
  an_events : option (list (option StreamEvent) * option GoErr); an_last : bool }.
(** Without events the body is the answer; otherwise they are read through the
    restorer. *)
Inductive restored := Unchanged | RestoredBody (body : string) | RestoredStream (window : list (option StreamEvent)) (events : opencodeIdentityStream).

Definition new_stream (inner : option (list (option StreamEvent) * option GoErr)) (last : bool) : opencodeIdentityStream :=
  mkStream inner ∅ [] None last None false false 0 None.

Fixpoint restore_window (events : list (option StreamEvent)) (s : opencodeIdentityStream)
  : (list (option StreamEvent) + GoErr) * opencodeIdentityStream :=
  match events with
  | [] => (inl [], s)
  | event :: events =>
      match transform event s with
      | (inr e, s) => (inr e, s)
      | (inl out, s) =>
          match renumber out s with
          | (inr e, s) => (inr e, s)
          | (inl out, s) =>
              let '(rest, s) := restore_window events s in
              (match rest with inl rest => inl (out ++ rest) | e => e end, s)
          end
      end
  end.

Definition restore_stream (resp : answer) : restored + GoErr :=
  let '(window, s) := restore_window (an_window resp) (new_stream (an_events resp) (an_last resp)) in
  match window with
  | inr e => inr e
  | inl window =>
      if negb (an_last resp) && is_some (an_events resp) then inl (RestoredStream window s) else
      let '(out, p) := flush_all (pending s) in
      let s := upd_pending p s in
      match out with
      | inr e => inr e
      | inl out =>
          match renumber out s with
          | (inr e, _) => inr e
          | (inl out, s) => inl (RestoredStream (window ++ out) (set_ended s))
          end
      end
  end.
End stream.

Section restore.
Context `{Gjson} `{dec : Decoder}.

Definition applyOpencodeIdentityRestore (resp : answer) (format : APIFormat) (state : option opencodeAliasState)
  : restored + GoErr :=
  match state with
  | None => inl Unchanged
  | Some st =>
      if negb (opencodeAliasFormat format) then inl Unchanged else
      if negb (is_some (an_events resp)) && bool_decide (an_window resp = []) then
        match restoreOpencodeAliasNonStream (an_body resp) format state with
        | inl body => inl (RestoredBody body)
        | inr e => inr e
        end
      else restore_stream format st resp
  end.
End restore.
