(* ===== verification/OcAliasThms.v ===== *)
(** * Naming and restoring

    What [applyOpencodeAlias] hides, [opencodeRestorePaths] gives back: the aliases
    are new to the request and of one shape, so the replacer finds exactly the
    places where a name was. *)

From Stdlib Require Import Ascii String.
From S2P Require Import Prelude GoStrings GoInts Utf8 Runes MaskText MaskThms GoRegexp GoJson RuneBytes GoJsonThms Boundaries Gjson Protocol Errors StreamEvents OcReplacer OcAlias.
From stdpp Require Import list.
Local Open Scope Z_scope.
Local Open Scope list_scope.

Section thms.
Context `{Gjson}.

(** ** Edits *)

Definition edit_of (e : opencodeAliasEdit) : path * json := (ed_path e, JStr (ed_text e)).

Lemma apply_edits_ok es : forall body, ValidBytes body = true -> Forall (fun e => path_ok (ed_path e)) es ->
  Forall (fun e => utf8_ok (ed_text e)) es -> places (edit_of <$> es).*1 (ParseBytes body) ->
  Forall (fun e => IsString (GetBytes body (ed_path e)) = true) es ->
  exists body', opencodeApplyEdits body es = inl body' /\ ValidBytes body' = true /\
    edits_at (edit_of <$> es) (ParseBytes body) = Some (ParseBytes body').
Proof.
  induction es as [|e es IH]; intros body Hv Hpo Htx Hps Hst; [by exists body|]. cbn [opencodeApplyEdits].
  rewrite !fmap_cons in *. cbn [fst edit_of edits_at] in *. inversion Hpo; inversion Htx; inversion Hst; subst.
  apply places_cons in Hps as (Hd & [u Hu] & Hps). unfold GetBytes in *. case_bool_decide as Hsame.
  - rewrite (set_at_get (ed_path e) _ (JStr (ed_text e))); [by apply IH|].
    destruct (get (ed_path e) (ParseBytes body)) as [[]|]; try done. cbn in Hsame. by subst.
  - destruct (set_at_some (ed_path e) (JStr (ed_text e)) _ _ Hu) as [v' Hv'].
    destruct (SetBytes_ok body (ed_path e) (JStr (ed_text e)) v') as (b1 & Hset & Hb1 & Hp1); [done..| |].
    { cbn [cleaned]. by rewrite to_valid_id. }
    rewrite Hset, Hv'. cbn [mbind option_bind]. rewrite <- Hp1. apply IH; [done..| |].
    + rewrite Hp1. by eapply places_set.
    + rewrite Hp1. apply Forall_forall. intros e' He'. rewrite (set_at_other (ed_path e) (ed_path e') _) with (2 := Hv').
      * by eapply Forall_forall in He'; [|done].
      * rewrite Forall_forall in Hd. apply Hd. apply list_elem_of_fmap. exists (edit_of e'). split; [done|].
        by apply list_elem_of_fmap_2.
Qed.
(** Edits at any texts; other places stay. *)
Lemma apply_edits_any es : forall body, ValidBytes body = true -> Forall (fun e => path_ok (ed_path e)) es ->
  Forall (fun e => IsString (GetBytes body (ed_path e)) = true) es ->
  exists body', opencodeApplyEdits body es = inl body' /\ ValidBytes body' = true /\
    (IsObject (Some (ParseBytes body)) = true -> IsObject (Some (ParseBytes body')) = true) /\
    forall q, Forall (fun e => diverge (ed_path e) q) es -> GetBytes body' q = GetBytes body q.
Proof.
  induction es as [|e es IH]; intros body Hv Hpo Hst; [by exists body|]. cbn [opencodeApplyEdits].
  apply Forall_cons in Hpo as [Hpe Hpo], Hst as [Hse Hst]. unfold GetBytes in *. case_bool_decide as Hsame.
  - destruct (IH body Hv Hpo Hst) as (b & Hb & Hvb & Ho & Hq). exists b. split; [done|]. split; [done|]. split; [done|].
    intros q [_ Hd]%Forall_cons. by apply Hq.
  - destruct (get (ed_path e) (ParseBytes body)) as [[| | |s| |]|] eqn:Hg; try done.
    destruct (set_at_some (ed_path e) (cleaned (JStr (ed_text e))) _ _ Hg) as [v' Hv'].
    destruct (SetBytes_ok body (ed_path e) (JStr (ed_text e)) v') as (b1 & Hset & Hb1 & Hp1); [done..|].
    rewrite Hset. destruct (IH b1) as (b & Hb & Hvb & Ho & Hq); [done|done| |].
    { eapply Forall_impl; [exact Hst|]. intros e'. rewrite Hp1. by rewrite (set_strings _ _ _ _ _ _ Hg Hv'). }
    exists b. split; [done|]. split; [done|]. split.
    + intros Hob. apply Ho. rewrite Hp1. clear -Hg Hv' Hob. destruct (ParseBytes body) as [| | | | |kvs]; try done.
      destruct (ed_path e) as [|g p]; [done|]. cbn [set_at] in Hv'. destruct (set_field _ _ kvs); [|done]. by injection Hv' as <-.
    + intros q [Hd Hds]%Forall_cons. rewrite (Hq q Hds), Hp1. by eapply set_at_other.
Qed.

(** ** Where the prompts are *)

Lemma text_paths_in body base kinds p : p ∈ opencodeTextPaths body base kinds ->
  p = base \/ exists i, p = base ++ [Idx i; key "text"].
Proof.
  unfold opencodeTextPaths. destruct (IsString _); [intros ?%list_elem_of_singleton; by left|].
  intros (i & b & _ & Hp)%elem_of_concat_imap. right. exists i. destruct (_ && _); [|by apply elem_of_nil in Hp].
  by apply list_elem_of_singleton in Hp.
Qed.

Lemma text_paths_diverge body base kinds : ForallOrdPairs diverge (opencodeTextPaths body base kinds).
Proof.
  unfold opencodeTextPaths. destruct (IsString _); [by repeat constructor|]. apply (imap_diverge _ base).
  - intros i b. destruct (_ && _); by repeat constructor.
  - intros i b p. destruct (_ && _); [|by intros ?%elem_of_nil]. intros ->%list_elem_of_singleton. by eexists.
Qed.

Lemma text_paths_ok body base kinds : path_ok base -> Forall path_ok (opencodeTextPaths body base kinds).
Proof.
  intros Hb. apply Forall_forall. intros p [->|[i ->]]%text_paths_in; [done|]. by path_ok_tac.
Qed.

(** A path below an array of messages. *)
Lemma below_message body base i rest kinds p : p ∈ opencodeTextPaths body (base ++ Idx i :: rest) kinds ->
  exists r, p = base ++ Idx i :: r.
Proof. intros [->|[j ->]]%text_paths_in; [by eexists|]. exists (rest ++ [Idx j; key "text"]). by rewrite <- app_assoc. Qed.

Lemma prompt_paths_diverge body format : ForallOrdPairs diverge (opencodePromptPaths body format).
Proof.
  unfold opencodePromptPaths. destruct format; try constructor; [| |apply text_paths_diverge].
  - apply (imap_diverge _ [key "messages"]).
    + intros i m. destruct (is_prompt_role m); [apply text_paths_diverge|constructor].
    + intros i m p. destruct (is_prompt_role m); [|by intros ?%elem_of_nil]. by apply (below_message body [key "messages"]).
  - apply ordpairs_app; [apply text_paths_diverge| |].
    + apply (imap_diverge _ [key "input"]).
      * intros i m. destruct (_ && _); [constructor|]. destruct (is_prompt_role m); [apply text_paths_diverge|constructor].
      * intros i m p. destruct (_ && _); [by intros ?%elem_of_nil|]. destruct (is_prompt_role m); [|by intros ?%elem_of_nil].
        by apply (below_message body [key "input"]).
    + intros p q Hp (i & m & _ & Hq)%elem_of_concat_imap. destruct (_ && _); [by apply elem_of_nil in Hq|].
      destruct (is_prompt_role m); [|by apply elem_of_nil in Hq]. apply (below_message body [key "input"]) in Hq as [r ->].
      apply text_paths_in in Hp as [->|[j ->]]; by apply diverge_here.
Qed.

Lemma prompt_paths_ok body format : Forall path_ok (opencodePromptPaths body format).
Proof.
  unfold opencodePromptPaths. destruct format; try constructor.
  - apply Forall_forall. intros p (i & m & _ & Hp)%elem_of_concat_imap. destruct (is_prompt_role m); [|by apply elem_of_nil in Hp].
    eapply Forall_forall in Hp; [exact Hp|]. apply text_paths_ok. by path_ok_tac.
  - apply Forall_app. split; [apply text_paths_ok; by path_ok_tac|].
    apply Forall_forall. intros p (i & m & _ & Hp)%elem_of_concat_imap. destruct (_ && _); [by apply elem_of_nil in Hp|].
    destruct (is_prompt_role m); [|by apply elem_of_nil in Hp].
    eapply Forall_forall in Hp; [exact Hp|]. apply text_paths_ok. by path_ok_tac.
  - apply text_paths_ok. by path_ok_tac.
Qed.
End thms.

(** ** Aliases *)

Lemma hex_digit_hex n : 0 <= n < 16 -> is_hex (hex_digit n) = true.
Proof.
  intros Hn. unfold is_hex, hex_digit. destruct (Z.ltb_spec n 10); rewrite byte_of_byte by lia; lia.
Qed.
Lemma hex_encode_spec bs : length (hex_encode bs) = (2 * length bs)%nat /\ Forall (fun c => is_hex c = true) (hex_encode bs).
Proof.
  unfold hex_encode. induction bs as [|b bs [IHl IHf]]; [done|]. cbn [mbind list_bind app length]. split; [lia|].
  pose proof (byte_range b). repeat constructor; [| |done]; apply hex_digit_hex.
  - split; [apply Z.div_pos; lia|apply Z.div_lt_upper_bound; lia].
  - apply Z.mod_pos_bound. lia.
Qed.
Lemma alias_ascii a : alias_shaped a -> Forall (fun c => byte_of c < 128) a.
Proof.
  intros (h & -> & _ & Hh). apply Forall_app. split; [by repeat constructor|].
  eapply Forall_impl; [exact Hh|]. intros c Hc. unfold is_hex in Hc. lia.
Qed.
Lemma alias_utf8 a : alias_shaped a -> utf8_ok a.
Proof. intros Ha. by apply ascii_utf8, alias_ascii. Qed.

(** The state of a request: what the replacer and the prefixes are made of. *)
Lemma state_pairs m a name : (a, name) ∈ replacer (alias_state m) <-> m !! a = Some name.
Proof.
  cbn. rewrite list_elem_of_fmap. unfold sort_bytes. setoid_rewrite merge_sort_Permutation.
  setoid_rewrite list_elem_of_fmap. split.
  - intros (x & [= -> ->] & [k v] & -> & Hkv%elem_of_map_to_list). cbn. by rewrite Hkv.
  - intros Hm. exists a. rewrite Hm. split; [done|]. exists (a, name). by rewrite elem_of_map_to_list.
Qed.

Lemma state_nodup m : NoDup (replacer (alias_state m)).*1.
Proof.
  cbn. set (l := sort_bytes _). assert (Hl : ((fun a => (a, default [] (m !! a))) <$> l).*1 = l).
  { induction l as [|a l IH]; [done|]. cbn. by rewrite IH. }
  rewrite Hl. subst l. unfold sort_bytes. rewrite merge_sort_Permutation. apply NoDup_fst_map_to_list.
Qed.

Lemma state_longest m old new : (old, new) ∈ replacer (alias_state m) -> (length old <= maxAliasBytes (alias_state m))%nat.
Proof.
  intros Hin. apply max_list_in, list_elem_of_fmap_2. apply state_pairs in Hin. unfold sort_bytes.
  rewrite merge_sort_Permutation. apply list_elem_of_fmap. exists (old, new). by rewrite elem_of_map_to_list.
Qed.

Lemma state_prefixes m p : p ∈ prefixes (alias_state m) <->
  exists old n, is_Some (m !! old) /\ p = take n old /\ (1 <= n < length old)%nat.
Proof.
  unfold alias_state. cbn [prefixes]. rewrite elem_of_list_to_set, list_elem_of_bind. unfold proper_prefixes, sort_bytes.
  setoid_rewrite merge_sort_Permutation. setoid_rewrite list_elem_of_fmap. setoid_rewrite elem_of_seq. split.
  - intros (old & (n & -> & Hn) & [k v] & -> & Hkv). cbn [fst] in *. apply elem_of_map_to_list in Hkv.
    exists k, n. split; [by eexists|]. split; [done|lia].
  - intros (old & n & [v Hv] & -> & Hn). exists old. split; [exists n; split; [done|lia]|].
    exists (old, v). by rewrite elem_of_map_to_list.
Qed.

Lemma state_begins m p : p ∈ prefixes (alias_state m) <->
  exists old new r, (old, new) ∈ replacer (alias_state m) /\ old = p ++ r /\ p ≠ [] /\ r ≠ [].
Proof.
  rewrite state_prefixes. split.
  - intros (k & n & [v Hv] & -> & Hn). exists k, v, (drop n k). split; [by apply state_pairs|].
    split; [by rewrite take_drop|].
    split; intros Heq%(f_equal length); rewrite ?length_firstn, ?length_drop in Heq; cbn in Heq; lia.
  - intros (old & new & r & Hin%state_pairs & -> & Hp & Hr). exists (p ++ r), (length p). split; [by eexists|].
    rewrite take_app_length. split; [done|]. rewrite length_app. destruct p, r; try done. cbn. lia.
Qed.

Section naming.
Context `{Gjson}.
Variable Sum256 : bytes -> bytes.
Hypothesis Sum256_length : forall x, length (Sum256 x) = 32%nat.
#[local] Set Default Proof Using "Type*".

Lemma alias_of_shaped original probe : alias_shaped (alias_of Sum256 original probe).
Proof.
  unfold alias_of, alias_shaped. eexists. split; [reflexivity|]. set (d := take 16 _).
  destruct (hex_encode_spec d) as [Hl Hf]. split; [|done]. subst d. rewrite Hl, length_firstn, Sum256_length. done.
Qed.

Lemma probe_spec tries : forall probe body original taken a,
  probe_alias Sum256 tries probe body original taken = Some a ->
  alias_shaped a /\ taken !! a = None /\ opencodeJSONContains a (ParseBytes body) = false.
Proof.
  induction tries as [|tries IH]; intros probe body original taken a; cbn [probe_alias]; [done|].
  destruct (taken !! alias_of Sum256 original probe) as [n|] eqn:Ht; cbn [is_some]; [apply IH|].
  destruct (contains _ _ || opencodeJSONContains _ _) eqn:Hc; [apply IH|]. intros [= <-].
  apply orb_false_iff in Hc as [_ Hc]. split; [apply alias_of_shaped|done].
Qed.

(** The tables while a request is named. *)
Record naming_ok (body : string) (nm : naming) : Prop := {
  no_aliases : forall a name, named nm !! a = Some name ->
    alias_shaped a /\ opencodeJSONContains a (ParseBytes body) = false /\ utf8_ok name;
  no_originals : forall name a, originals nm !! name = Some a -> named nm !! a = Some name }.

Lemma naming_start body : naming_ok body (mkNaming ∅ ∅).
Proof. split; cbn; intros ? ? Hx; by rewrite lookup_empty in Hx. Qed.

Lemma name_alias_spec body nm name a nm' : naming_ok body nm -> utf8_ok name ->
  name_alias Sum256 body nm name = inl (a, nm') ->
  naming_ok body nm' /\ named nm ⊆ named nm' /\ named nm' !! a = Some name.
Proof.
  intros [Ha Ho] Hn. unfold name_alias. destruct (originals nm !! name) as [b|] eqn:Hb.
  - intros [= <- <-]. split; [by split|]. split; [done|by apply Ho].
  - unfold opencodeIdentityAlias. destruct (probe_alias _ _ _ _ _ _) as [b|] eqn:Hp; [|done]. intros [= <- <-].
    apply probe_spec in Hp as (Hs & Hf & Hc). split; [split; cbn|split; [by apply insert_subseteq|apply lookup_insert_eq]].
    + intros x n [[<- <-]|[_ Hx]]%lookup_insert_Some; [done|by apply Ha].
    + intros n x [[<- <-]|[Hne Hx]]%lookup_insert_Some; [apply lookup_insert_eq|].
      apply Ho in Hx. rewrite lookup_insert_ne; [done|]. congruence.
Qed.

(** The loop over the matches of one text. *)
Lemma alias_matches_spec body text : utf8_ok text -> forall ms start out nm out' start' nm',
  naming_ok body nm -> boundary text start -> locs_ok text opencodeAliasPattern start ms -> Forall (loc_at text) ms ->
  alias_matches Sum256 body text ms start out nm = inl (out', start', nm') ->
  naming_ok body nm' /\ named nm ⊆ named nm' /\ boundary text start' /\
  exists mid, out' = out ++ mid /\ utf8_ok mid /\ aliased (named nm') (drop start text) (mid ++ drop start' text).
Proof.
  intros Ht. induction ms as [|m ms IH]; intros start out nm out' start' nm' Hnm Hst Hls Hat; cbn [alias_matches].
  { intros [= <- <- <-]. split; [done|]. split; [done|]. split; [done|]. exists []. rewrite app_nil_r.
    split; [done|]. split; [constructor|apply aliased_rest]. }
  cbn [locs_ok] in Hls. destruct Hls as (Hs & He & _ & Hls). apply Forall_cons in Hat as [(Hb1 & Hb2 & _) Hat].
  destruct (negb _).
  { apply IH; [done|done| |done]. by eapply locs_ok_mono; [|exact Hls]; lia. }
  change (take _ (drop (loc_start m) text)) with (slice (loc_start m) (loc_end m) text).
  change (take _ (drop start text)) with (slice start (loc_start m) text).
  destruct (name_alias _ _ _ _) as [[a nm1]|] eqn:Hna; [|done].
  apply name_alias_spec in Hna as (Hnm1 & Hsub & Hla); [|done|by apply boundary_slice; try lia].
  intros Hrun. apply IH in Hrun as (Hnm' & Hsub' & Hb' & mid & -> & Hu & Hal); [|done..]. split; [done|]. split; [by etrans|].
  split; [done|]. exists (slice start (loc_start m) text ++ a ++ mid). rewrite <- !app_assoc. split; [done|].
  split. { apply utf8_app; [by apply boundary_slice; try lia|]. apply utf8_app; [|done]. eapply alias_utf8, no_aliases; [exact Hnm1|done]. }
  rewrite (drop_slice start (loc_start m)), (drop_slice (loc_start m) (loc_end m)) by lia.
  apply aliased_name; [by eapply lookup_weaken|done].
Qed.

Lemma alias_paths_spec body ps : Forall (fun p => exists s, get p (ParseBytes body) = Some (JStr s) /\ utf8_ok s) ps ->
  forall edits nm edits' nm', naming_ok body nm ->
  alias_paths Sum256 body ps edits nm = inl (edits', nm') ->
  naming_ok body nm' /\ named nm ⊆ named nm' /\
  exists new, edits' = edits ++ new /\ sublist (ed_path <$> new) ps /\
    Forall (fun e => utf8_ok (ed_text e) /\
      exists s, get (ed_path e) (ParseBytes body) = Some (JStr s) /\ aliased (named nm') s (ed_text e)) new.
Proof.
  induction 1 as [|p ps (s & Hs & Hu) Hps IH]; intros edits nm edits' nm' Hnm; cbn [alias_paths].
  { intros [= <- <-]. split; [done|]. split; [done|]. exists []. by rewrite app_nil_r. }
  unfold GetBytes. rewrite Hs. cbn [Str].
  destruct (alias_matches _ _ _ _ _ _ _) as [[[out start] nm1]|] eqn:Hm; [|done].
  apply alias_matches_spec in Hm as (Hnm1 & Hsub1 & Hb & mid & -> & Hmid & Hal);
    [|done|done|by apply boundary_0|apply FindAll_ok|by apply find_all_at, boundary_0].
  intros (Hnm' & Hsub & new & -> & Hnew & Hall)%IH; [|done]. split; [done|]. split; [by etrans|].
  cbn [app]. destruct (start =? 0)%nat.
  - exists new. split; [done|]. split; [by apply sublist_cons|done].
  - exists (mkEdit p (mid ++ drop start s) :: new). rewrite <- app_assoc. split; [done|].
    split; [by apply sublist_skip|]. constructor; [|done]. cbn. split; [apply utf8_app; [done|apply Hb]|].
    exists s. split; [done|]. rewrite drop_0 in Hal. by eapply aliased_mono.
Qed.


Lemma whole_get p : forall v w, whole v -> get p v = Some w -> whole w.
Proof.
  induction p as [|s p IH]; intros v w Hv; cbn [get]; [by intros [= <-]|].
  destruct (child s v) as [u|] eqn:Hc; [|done]. cbn [mbind option_bind]. apply IH. clear -Hv Hc.
  destruct v as [| | | |l|kvs], s as [k|i]; try done; cbn [child whole] in *.
  - apply whole_arr in Hv. by eapply Forall_lookup_1.
  - apply whole_obj in Hv. induction Hv as [|[k' x] kvs [_ Hx] _ IH]; cbn [field] in *; [done|]. case_bool_decide; [injection Hc as <-; exact Hx|by apply IH].
  - apply whole_obj in Hv. induction Hv as [|[k' x] kvs [_ Hx] _ IH]; cbn [field] in *; [done|]. case_bool_decide; [injection Hc as <-; exact Hx|by apply IH].
Qed.

Lemma contains_get a p : forall v s, opencodeJSONContains a v = false -> get p v = Some (JStr s) -> contains a s = false.
Proof.
  induction p as [|g p IH]; intros v s Hv; cbn [get]; [by intros [= ->]|].
  destruct (child g v) as [u|] eqn:Hc; [|done]. cbn [mbind option_bind]. apply IH. clear -Hv Hc.
  destruct v as [| | | |l|kvs], g as [k|i]; try done; cbn [child opencodeJSONContains] in *.
  - apply list_elem_of_lookup_2, list_elem_of_In in Hc. apply not_true_iff_false. intros Hu. apply not_true_iff_false in Hv.
    apply Hv, existsb_exists. by exists u.
  - induction kvs as [|[k' x] kvs IH]; cbn [field existsb fst snd] in *; [done|]. apply orb_false_iff in Hv as [[_ Hx]%orb_false_iff Hv].
    case_bool_decide; [injection Hc as <-; exact Hx|by apply IH].
  - induction kvs as [|[k' x] kvs IH]; cbn [field existsb fst snd] in *; [done|]. apply orb_false_iff in Hv as [[_ Hx]%orb_false_iff Hv].
    case_bool_decide; [injection Hc as <-; exact Hx|by apply IH].
Qed.

Definition holds_text (v : json) (p : path) : Prop := exists s, get p v = Some (JStr s) /\ utf8_ok s.

(** Some texts of [ps] were edited, each into an [aliased] one. *)
Lemma edited_texts (es : list opencodeAliasEdit) ps v w m : ForallOrdPairs diverge ps -> Forall (holds_text v) ps ->
  sublist (ed_path <$> es) ps ->
  Forall (fun e => exists s, get (ed_path e) v = Some (JStr s) /\ aliased m s (ed_text e)) es ->
  edits_at (edit_of <$> es) v = Some w -> places (edit_of <$> es).*1 v ->
  (forall p, p ∈ ps -> exists s t, get p v = Some (JStr s) /\ get p w = Some (JStr t) /\ aliased m s t) /\
  (forall q, (forall p, p ∈ ps -> diverge p q) -> get q w = get q v).
Proof.
  intros Hd Hps Hsub Hes He Hpl.
  assert (Hpaths : forall e, e ∈ es -> ed_path e ∈ ps).
  { intros e Hin. eapply elem_of_submseteq; [by apply list_elem_of_fmap_2|by apply sublist_submseteq]. }
  rewrite Forall_forall in Hps. rewrite Forall_forall in Hes. split.
  - intros p Hp. destruct (decide (p ∈ ed_path <$> es)) as [(e & -> & Hin)%list_elem_of_fmap|Hno].
    + destruct (Hes e Hin) as (s & Hs & Ha). exists s, (ed_text e). split; [done|]. split; [|done].
      eapply (edits_get (edit_of <$> es)); [done..|]. by apply (list_elem_of_fmap_2 edit_of).
    + destruct (Hps p Hp) as (s & Hs & _). exists s, s. split; [done|]. split; [|apply aliased_rest].
      rewrite (edits_other (edit_of <$> es) p v w); [done| |done]. apply Forall_forall.
      intros q (x & -> & (e & -> & Hin)%list_elem_of_fmap)%list_elem_of_fmap. cbn [edit_of fst].
      pose proof (Hpaths e Hin) as Hep. clear -Hd Hp Hep Hin Hno.
      induction Hd as [|r ps Hr Hd IH]; [by apply elem_of_nil in Hp|]. rewrite Forall_forall in Hr.
      apply elem_of_cons in Hp as [->|Hp], Hep as [Heq|Hep].
      * destruct Hno. rewrite <- Heq. by apply list_elem_of_fmap_2.
      * by apply diverge_sym, Hr.
      * rewrite Heq. by apply Hr.
      * by apply IH.
  - intros q Hq. apply (edits_other (edit_of <$> es)); [|done]. apply Forall_forall.
    intros r (x & -> & (e & -> & Hin)%list_elem_of_fmap)%list_elem_of_fmap. by apply Hq, Hpaths.
Qed.

(** Restoring texts at which aliases stand for names. *)
Lemma restore_texts out ps st (v : json) es : ValidBytes out = true -> Forall path_ok ps -> ForallOrdPairs diverge ps ->
  Forall (holds_text v) ps -> alias_pairs (replacer st) ->
  (forall p, p ∈ ps -> exists s t, get p v = Some (JStr s) /\ get p (ParseBytes out) = Some (JStr t) /\
     Replace (replacer st) t = s) ->
  sublist (ed_path <$> es) ps -> edits_at (edit_of <$> es) v = Some (ParseBytes out) -> places (edit_of <$> es).*1 v ->
  exists back, opencodeRestorePaths out ps st = inl back /\ ParseBytes back = v.
Proof.
  intros Hv Hok Hd Hps Hsh Htx Hsub He Hpl. unfold opencodeRestorePaths.
  set (old := fun p => match get p v with Some (JStr s) => s | _ => [] end).
  assert (Hedits : omap (fun p => match GetBytes out p with Some (JStr s) => Some (mkEdit p (Replace (replacer st) s)) | _ => None end) ps
    = (fun p => mkEdit p (old p)) <$> ps).
  { clear -Htx. induction ps as [|p ps IH]; [done|]. cbn [omap list_omap fmap list_fmap].
    destruct (Htx p ltac:(left)) as (s & t & Hs & Ht & Hr). unfold GetBytes at 1. rewrite Ht, Hr. unfold old at 1. rewrite Hs.
    f_equal. apply IH. intros q Hq. apply Htx. by right. }
  rewrite Hedits. assert (Hpaths : (edit_of <$> ((fun p => mkEdit p (old p)) <$> ps)).*1 = ps).
  { rewrite <- !list_fmap_compose. by rewrite (list_fmap_ext _ id), list_fmap_id by done. }
  rewrite Forall_forall in Hps. destruct (apply_edits_ok ((fun p => mkEdit p (old p)) <$> ps) out Hv) as (back & Hback & _ & Hbe).
  - by apply Forall_fmap.
  - apply Forall_fmap, Forall_forall. intros p Hp. cbn. unfold old. by destruct (Hps p Hp) as (s & -> & Hu).
  - rewrite Hpaths. split; [done|]. apply Forall_forall. intros p Hp. destruct (Htx p Hp) as (s & t & _ & -> & _). by eexists.
  - apply Forall_fmap, Forall_forall. intros p Hp. cbn. unfold GetBytes. by destruct (Htx p Hp) as (s & t & _ & -> & _).
  - exists back. split; [done|]. assert (Hre : edits_at (edit_of <$> ((fun p => mkEdit p (old p)) <$> ps)) (ParseBytes out) = Some v).
    { eapply (edits_restore _ (edit_of <$> es)); [done|by rewrite Hpaths| | |done].
      - apply Forall_fmap, Forall_fmap, Forall_forall. intros p Hp. cbn. unfold old. by destruct (Hps p Hp) as (s & -> & _).
      - intros p (x & -> & (e & -> & Hin)%list_elem_of_fmap)%list_elem_of_fmap. rewrite Hpaths.
        cbn [edit_of fst]. eapply elem_of_submseteq; [by apply (list_elem_of_fmap_2 ed_path)|by apply sublist_submseteq]. }
    congruence.
Qed.

(** C32: what is hidden can be given back.  The aliases of a request are new to it:
    no key and no string of the body contains one.  In the body that is sent, every
    prompt has some of its names behind their aliases and nothing else is changed;
    restoring the prompts gives the body back, value for value.  The prompts are
    taken to be texts, and the body to be UTF-8. *)
Theorem alias_round_trip body format out st :
  ValidBytes body = true -> whole (ParseBytes body) ->
  (forall p, p ∈ opencodePromptPaths body format -> IsString (GetBytes body p) = true) ->
  applyOpencodeAlias Sum256 body format = inl (out, Some st) ->
  (forall a name, aliases st !! a = Some name ->
     alias_shaped a /\ opencodeJSONContains a (ParseBytes body) = false) /\
  (forall p, p ∈ opencodePromptPaths body format -> exists s t, GetBytes body p = Some (JStr s) /\
     GetBytes out p = Some (JStr t) /\ aliased (aliases st) s t) /\
  (forall q, (forall p, p ∈ opencodePromptPaths body format -> diverge p q) -> GetBytes out q = GetBytes body q) /\
  exists back, opencodeRestorePaths out (opencodePromptPaths body format) st = inl back /\
    ParseBytes back = ParseBytes body.
Proof.
  intros Hv Hw Hprompts. unfold applyOpencodeAlias. destruct (negb _); [done|]. destruct (_ || _); [done|].
  assert (Hps : Forall (holds_text (ParseBytes body)) (opencodePromptPaths body format)).
  { apply Forall_forall. intros p Hp. apply Hprompts in Hp. unfold GetBytes in Hp.
    destruct (get p (ParseBytes body)) as [[]|] eqn:Hg; try done. eexists. split; [done|]. by apply (whole_get _ _ _ Hw) in Hg. }
  destruct (alias_paths _ _ _ _ _) as [[es nm]|] eqn:Hal; [|done].
  apply alias_paths_spec in Hal as (Hnm & _ & new & Hes & Hsub & Hnew); [|done|apply naming_start]. cbn [app] in Hes. subst es.
  pose proof (prompt_paths_diverge body format) as Hd. pose proof (prompt_paths_ok body format) as Hok.
  assert (Hpl : places (edit_of <$> new).*1 (ParseBytes body)).
  { rewrite <- list_fmap_compose. eapply places_sub; [exact Hsub|]. split; [done|].
    eapply Forall_impl; [exact Hps|]. intros p (s & -> & _). by eexists. }
  assert (Hin : forall e, e ∈ new -> ed_path e ∈ opencodePromptPaths body format).
  { intros e He. eapply elem_of_submseteq; [by apply list_elem_of_fmap_2|by apply sublist_submseteq]. }
  destruct new as [|e0 es0]; [done|]. set (new := e0 :: es0) in *. clearbody new. clear e0 es0.
  destruct (apply_edits_ok new body Hv) as (b & Hb & Hvb & He).
  { rewrite Forall_forall in Hok. apply Forall_forall. intros e He. by apply Hok, Hin. }
  { eapply Forall_impl; [exact Hnew|]. by intros e [Hu _]. }
  { done. }
  { apply Forall_forall. intros e He. by apply Hprompts, Hin. }
  rewrite Hb. intros [= <- <-]. cbn [aliases alias_state].
  destruct (edited_texts new _ _ (ParseBytes b) (named nm) Hd Hps Hsub) as [Htx Hq]; [|done|done|].
  { eapply Forall_impl; [exact Hnew|]. by intros e [_ He']. }
  split; [intros a name Ha; by apply (no_aliases _ _ Hnm) in Ha as (? & ? & _)|]. split; [done|]. split; [done|].
  assert (Hsh : alias_pairs (replacer (alias_state (named nm)))).
  { intros old n Hold%state_pairs. by apply (no_aliases _ _ Hnm) in Hold as (? & _). }
  apply (restore_texts b _ _ (ParseBytes body) new); try done.
  intros p Hp. destruct (Htx p Hp) as (s & u & Hs & Hu & Ha). exists s, u. split; [done|]. split; [done|].
  eapply Replace_aliased; [done|by apply state_nodup| |exact Ha|]; [by intros; apply state_pairs|].
  intros old n x y Hold%state_pairs Heq. apply (no_aliases _ _ Hnm) in Hold as (_ & Hc & _).
  pose proof (contains_get old p _ _ Hc Hs) as Hfree. apply not_true_iff_false in Hfree. apply Hfree, contains_spec.
  by exists x, y.
Qed.
End naming.

(** ** At a document *)

Lemma valid_whole body : ValidBytes (Gjson := gjson_model) body = true -> whole (ParseBytes (Gjson := gjson_model) body).
Proof. intros Hv%loose_parse_valid. by apply deep_parse_yields in Hv as [_ ?]. Qed.

Definition constant_sum (x : bytes) : bytes := repeat (of_byte 171) 32.
Definition quoted (s : string) : string := String.String dq (s ++ String.String dq ""). 
Definition prompt_body : string :=
  String.concat "" ["{"; quoted "messages"; ":[{"; quoted "role"; ":"; quoted "system"; ","; quoted "content"; ":";
    quoted "I am OpenCode."; "}]}"].

Definition sent_body : string :=
  match applyOpencodeAlias constant_sum prompt_body APIFormatOpenAIChatCompletion with inl (out, Some _) => out | _ => "" end.

Lemma alias_round_trip_witness : exists st back,
  applyOpencodeAlias constant_sum prompt_body APIFormatOpenAIChatCompletion = inl (sent_body, Some st) /\
  Str (GetBytes sent_body [key "messages"; Idx 0; key "content"]) = lit "I am opencode_abababababababababababababababab." /\
  opencodeRestorePaths sent_body (opencodePromptPaths prompt_body APIFormatOpenAIChatCompletion) st = inl back /\
  ParseBytes back = ParseBytes prompt_body.
Proof.
  assert (Hsent : Str (GetBytes sent_body [key "messages"; Idx 0; key "content"]) = lit "I am opencode_abababababababababababababababab.")
    by by vm_compute.
  unfold sent_body in *.
  destruct (applyOpencodeAlias constant_sum prompt_body APIFormatOpenAIChatCompletion) as [[out [st|]]|] eqn:Ha; [|done..].
  destruct (alias_round_trip constant_sum (fun _ => eq_refl) prompt_body APIFormatOpenAIChatCompletion out st) as (_ & _ & _ & back & Hb & Hp).
  - by vm_compute.
  - apply valid_whole. by vm_compute.
  - assert (Hps : opencodePromptPaths prompt_body APIFormatOpenAIChatCompletion = [[key "messages"; Idx 0; key "content"]]) by by vm_compute.
    rewrite Hps. intros p ->%list_elem_of_singleton. by vm_compute.
  - exact Ha.
  - exists st, back. split; [done|]. split; [exact Hsent|]. split; [exact Hb|exact Hp].
Defined.
