(* ===== verification/OcShape.v ===== *)
(** * The shape of an event

    Where the texts of an event are does not depend on the texts: [erase] forgets
    them, and [fields] gives the same answer.  Hence an event with its texts
    restored is still read as before, and an event made from a template is read as
    the one text it was made for. *)

From Stdlib Require Import Ascii String.
From S2P Require Import Prelude GoStrings GoInts Utf8 Runes MaskText MaskThms GoJson RuneBytes GoJsonThms Gjson Protocol Errors StreamEvents OcReplacer OcAlias OcAliasThms.
From stdpp Require Import list pretty.
Local Open Scope Z_scope.
Local Open Scope list_scope.

(** ** The texts of an answer *)

Definition text_key (k : bytes) : bool :=
  existsb (fun s => bool_decide (k = lit s)) ["content"; "text"; "reasoning_content"; "reasoning"; "thinking"; "delta"].
(** An index can select a key of an object. *)
Definition walk_key (k : bytes) : bool :=
  existsb (fun s => bool_decide (k = lit s)) ["choices"; "content_block"] || forallb is_digit k.
Notation erase := (Gjson.erase text_key walk_key).
Notation erase_at := (Gjson.erase_at text_key walk_key).
Notation kept := (Gjson.kept text_key walk_key).
Notation last_text := (Gjson.last_text text_key).
Notation way_ok := (Gjson.way_ok text_key walk_key).
Lemma walk_digits k : forallb is_digit k = true -> walk_key k = true.
Proof. intros Hk. unfold walk_key. by rewrite Hk, orb_true_r. Qed.

(** ** Fields do not depend on texts *)

Section fields.
Context `{Gjson}.

Lemma get_two s1 s2 b v : text_key (lit s1) || walk_key (lit s1) = true -> kept s2 = true ->
  get [key s1; key s2] (erase b v) = get [key s1; key s2] v.
Proof.
  intros Hw Hk. change [key s1; key s2] with ([key s1] ++ [key s2]). rewrite !get_app. cbn [get]. rewrite child_erase_key.
  destruct (child (key s1) v) as [u|]; [|done]. cbn. unfold erase_at.
  pose proof (get_kept s2 true u Hk) as H1. pose proof (get_kept s2 false u Hk) as H2. cbn [get] in H1, H2.
  destruct (text_key _); [by rewrite H1|]. cbn in Hw. rewrite Hw. by rewrite H2.
Qed.

Lemma chat_fields_erase i c : chat_choice_fields i (erase false c) = chat_choice_fields i c.
Proof.
  unfold chat_choice_fields. rewrite get_kept by done.
  assert (Hc : get [key "delta"; key "content"] (erase false c) = erase true <$> get [key "delta"; key "content"] c).
  { rewrite get_text by done. cbn [get]. destruct (child (key "delta") c) as [d|]; [|done]. cbn. rewrite child_erase_key.
    change (erase_at (lit "content")) with (erase true). by destruct (child (key "content") d). }
  rewrite Hc, IsString_erase, Array_erase, imap_fmap. f_equal. f_equal. f_equal. apply imap_ext.
  intros j b _. unfold compose. by rewrite !get_kept.
Qed.

Lemma fields_erase format v : fields format (erase false v) = fields format v.
Proof.
  unfold fields. destruct format; try done.
  - assert (Hc : get [key "choices"] (erase false v) = erase false <$> get [key "choices"] v).
    { cbn [get]. rewrite child_erase_key. change (erase_at (lit "choices")) with (erase false). by destruct (child (key "choices") v). }
    rewrite Hc, Array_erase, imap_fmap. f_equal. apply imap_ext. intros i c _. apply chat_fields_erase.
  - unfold opencodeResponsesChannel. by rewrite !get_kept.
  - unfold anthropic_fields. by rewrite !get_kept, !get_two.
Qed.

(** ** Where fields are *)

Lemma chat_fields_in i c f : f ∈ chat_choice_fields i c ->
  exists rest, if_path f = [key "choices"; Idx i; key "delta"] ++ rest /\
    ((exists s, rest = [key s] /\ s ∈ ["content"; "reasoning_content"; "reasoning"]) \/
     exists j, rest = [key "content"; Idx j; key "text"]).
Proof.
  unfold chat_choice_fields. rewrite !elem_of_app. intros [Hf|[Hf|Hf]].
  - destruct (IsString _); [|by apply elem_of_nil in Hf]. apply list_elem_of_singleton in Hf as ->. cbn [if_path].
    eexists. split; [reflexivity|]. left. exists "content"%string. split; [done|]. set_solver.
  - apply elem_of_concat_imap in Hf as (j & b & _ & Hf). destruct (_ && _); [by apply elem_of_nil in Hf|].
    apply list_elem_of_singleton in Hf as ->. cbn [if_path]. eexists. split; [reflexivity|]. right. by exists j.
  - apply list_elem_of_fmap in Hf as (s & -> & Hs). cbn [if_path]. eexists. split; [reflexivity|]. left. exists s.
    split; [done|]. set_solver.
Qed.

Lemma chat_fields_diverge i c : ForallOrdPairs diverge (if_path <$> chat_choice_fields i c).
Proof.
  unfold chat_choice_fields. set (base := [key "choices"; Idx i; key "delta"]). rewrite !fmap_app.
  set (content := get [key "delta"; key "content"] c). destruct (IsString content) eqn:Hs.
  - destruct content as [[]|]; try done. cbn. ordpairs; apply (diverge_app [key "choices"; Idx i; key "delta"]), diverge_here; done.
  - cbn [app fmap list_fmap]. apply ordpairs_app.
    + rewrite fmap_concat_imap. apply (imap_diverge _ (base ++ [key "content"])).
      * intros j b. destruct (_ && _); by ordpairs.
      * intros j b p. destruct (_ && _); [by intros ?%elem_of_nil|]. intros ->%list_elem_of_singleton. cbn [if_path].
        by eexists.
    + cbn. ordpairs. by apply (diverge_app base), diverge_here.
    + intros p q (f & -> & (j & b & _ & Hf)%elem_of_concat_imap)%list_elem_of_fmap Hq.
      destruct (_ && _); [by apply elem_of_nil in Hf|]. apply list_elem_of_singleton in Hf as ->. cbn [if_path].
      cbn in Hq. apply elem_of_cons in Hq as [->| ->%list_elem_of_singleton]; by apply (diverge_app base), diverge_here.
Qed.

Lemma fields_diverge format v : ForallOrdPairs diverge (if_path <$> fields format v).
Proof.
  unfold fields. destruct format; try by constructor.
  - rewrite fmap_concat_imap. apply (imap_diverge _ [key "choices"]); [apply chat_fields_diverge|].
    intros i c p (f & -> & Hf)%list_elem_of_fmap. apply chat_fields_in in Hf as (rest & -> & _). by eexists.
  - destruct (is_responses_delta _); by ordpairs.
  - unfold anthropic_fields. repeat case_match; by ordpairs.
Qed.

Lemma fields_paths format v f : f ∈ fields format v -> way_ok (if_path f) /\ last_text (if_path f) /\ path_ok (if_path f).
Proof.
  unfold fields. destruct format; try by intros ?%elem_of_nil.
  - intros (i & c & _ & Hf)%elem_of_concat_imap. apply chat_fields_in in Hf as (rest & -> & [(s & -> & Hs)|[j ->]]).
    + repeat (apply elem_of_cons in Hs as [->|Hs]; [split; [by repeat constructor|split; [by eexists [_; _; _], _|by path_ok_tac]]|]).
      by apply elem_of_nil in Hs.
    + split; [by repeat constructor|]. split; [by eexists [_; _; _; _; _], _|by path_ok_tac].
  - destruct (is_responses_delta _); [|by intros ?%elem_of_nil]. intros ->%list_elem_of_singleton. cbn [if_path].
    split; [by repeat constructor|]. split; [by eexists [], _|by path_ok_tac].
  - unfold anthropic_fields. repeat case_match; try (by intros ?%elem_of_nil); intros ->%list_elem_of_singleton; cbn [if_path];
      (split; [by repeat constructor|]; split; [by eexists [_], _|by path_ok_tac]).
Qed.
End fields.

(** ** Events made for a text

    The template of [opencode_alias.go]: whatever text is put into it later, the
    event is read as one piece of exactly the channel it was made for. *)

From S2P Require Import Boundaries.
Local Open Scope Z_scope.
Local Open Scope list_scope.

Section template.
Context `{Gjson}.
Variable format : APIFormat.

(** ** The texts of a channel *)

Definition text_at (v : json) (p : path) : option bytes :=
  match get p v with Some (JStr s) => Some s | _ => None end.
Definition texts_in (fs : list opencodeIdentityField) (v : json) (k : bytes) : bytes :=
  concat ((fun f => if bool_decide (if_key f = k) then default [] (text_at v (if_path f)) else []) <$> fs).
(** What an event gives to the channel [k]. *)
Definition texts (v : json) (k : bytes) : bytes := texts_in (fields format v) v k.

(** ** The kinds of fields *)

Lemma index_range r i : minInt64 <= opencodeIdentityIndex r i <= maxInt64.
Proof.
  unfold opencodeIdentityIndex. destruct (IsNumber r) eqn:Hr; [|apply wrap64_range].
  destruct r as [v|]; [|done]. apply Int_range.
Qed.

Notation chat_name z := (lit "chat:" ++ int_key z ++ lit ":").
Notation chat_first := [key "choices"; Idx 0; key "delta"].

Inductive chat_field : opencodeIdentityField -> Prop :=
| chat_simple z s p : minInt64 <= z <= maxInt64 -> s ∈ ["content"; "reasoning_content"; "reasoning"] ->
    chat_field (mkField (chat_name z ++ lit s) p (chat_first ++ [key s]) (lit s) z 0)
| chat_block z b kind p : minInt64 <= z <= maxInt64 -> minInt64 <= b <= maxInt64 -> kind ∈ ["text"; "output_text"] ->
    chat_field (mkField (chat_name z ++ lit "content:" ++ int_key b) p
      (chat_first ++ [key "content"; Idx 0; key "text"]) (lit kind) z b).

Lemma chat_fields_kinds i c f : f ∈ chat_choice_fields i c -> chat_field f.
Proof.
  unfold chat_choice_fields. pose proof (index_range (get [key "index"] c) i) as Hz. rewrite !elem_of_app. intros [Hf|[Hf|Hf]].
  - destruct (IsString _); [|by apply elem_of_nil in Hf]. apply list_elem_of_singleton in Hf as ->.
    apply (chat_simple _ "content"); [done|set_solver].
  - apply elem_of_concat_imap in Hf as (j & b & _ & Hf). destruct (_ && _) eqn:Hk; [by apply elem_of_nil in Hf|].
    apply list_elem_of_singleton in Hf as ->. apply andb_false_iff in Hk.
    assert (Hs : exists s, Str (get [key "type"] b) = lit s /\ s ∈ ["text"; "output_text"]).
    { unfold StrIs in Hk. rewrite !negb_false_iff, !bool_decide_eq_true in Hk. destruct Hk as [Hk|Hk]; eexists; (split; [exact Hk|set_solver]). }
    destruct Hs as (s & -> & Hs). apply chat_block; [done|apply index_range|done].
  - apply list_elem_of_fmap in Hf as (s & -> & Hs). apply (chat_simple _ s); [done|set_solver].
Qed.

Inductive anthropic_field : opencodeIdentityField -> Prop :=
| anthropic_one z s p : minInt64 <= z <= maxInt64 -> s ∈ ["text"; "thinking"] ->
    anthropic_field (mkField (lit "anthropic:" ++ int_key z ++ lit ":" ++ lit s) p [key "delta"; key s] (lit s) z 0).

Lemma IntOf_range r : minInt64 <= IntOf r <= maxInt64.
Proof. destruct r as [v|]; [apply Int_range|unfold minInt64, maxInt64; cbn; lia]. Qed.

Lemma anthropic_fields_kinds v f : f ∈ anthropic_fields v -> anthropic_field f.
Proof.
  unfold anthropic_fields. pose proof (IntOf_range (get [key "index"] v)).
  repeat case_match; try (by intros ?%elem_of_nil); intros ->%list_elem_of_singleton; apply anthropic_one; try done; set_solver.
Qed.

(** ** The event of a template *)

Lemma bool_decide_app (p a b : bytes) : bool_decide (p ++ a = p ++ b) = bool_decide (a = b).
Proof. apply bool_decide_ext. split; [apply app_inv_head|by intros ->]. Qed.

Definition carries (v : json) (k text : bytes) : Prop := forall k', texts v k' = if bool_decide (k = k') then text else [].

Lemma texts_in_cons f fs v k : texts_in (f :: fs) v k =
  (if bool_decide (if_key f = k) then default [] (text_at v (if_path f)) else []) ++ texts_in fs v k.
Proof. done. Qed.

Lemma texts_in_none f fs v k : text_at v (if_path f) = None -> texts_in (f :: fs) v k = texts_in fs v k.
Proof. intros Hn. rewrite texts_in_cons, Hn. by case_bool_decide. Qed.

Lemma texts_in_one f v k text : text_at v (if_path f) = Some text ->
  texts_in [f] v k = if bool_decide (if_key f = k) then text else [].
Proof. intros Ht. rewrite texts_in_cons, Ht. cbn. by rewrite app_nil_r. Qed.

Lemma chat_simple_carries z s rest text : format = APIFormatOpenAIChatCompletion -> minInt64 <= z <= maxInt64 ->
  s ∈ ["content"; "reasoning_content"; "reasoning"] ->
  carries (JObj ((lit "choices", JArr [JObj [(lit "delta", JObj [(lit s, JStr text)]); (lit "index", number_json z)]]) :: rest))
    (chat_name z ++ lit s) text.
Proof.
  intros Hfmt Hz Hs k'. unfold texts, fields. rewrite Hfmt. cbv iota. set (c := JObj [(lit "delta", _); _]). set (v := JObj _).
  assert (Hi : opencodeIdentityIndex (Some (number_json z)) 0 = z) by (cbn; by apply Int_text).
  change (get [key "choices"] v) with (Some (JArr [c])). cbn [Array]. change (concat (imap chat_choice_fields [c])) with (chat_choice_fields 0 c ++ []).
  rewrite app_nil_r.
  assert (Hc : forall (i : Z) fs, chat_choice_fields 0 c = fs (opencodeIdentityIndex (Some (number_json z)) 0) -> chat_choice_fields 0 c = fs z) by (intros; congruence).
  repeat (apply elem_of_cons in Hs as [->|Hs]); [| | |by apply elem_of_nil in Hs].
  - rewrite (Hc 0 (fun i => [mkField (chat_name i ++ lit "content") [key "choices"; Idx 0; key "delta"; key "content"] _ (lit "content") i 0;
      mkField (chat_name i ++ lit "reasoning_content") [key "choices"; Idx 0; key "delta"; key "reasoning_content"] _ (lit "reasoning_content") i 0;
      mkField (chat_name i ++ lit "reasoning") [key "choices"; Idx 0; key "delta"; key "reasoning"] _ (lit "reasoning") i 0]) eq_refl). cbv beta.
    rewrite texts_in_cons, !texts_in_none by done. cbn [if_key texts_in]. cbn. by rewrite app_nil_r.
  - rewrite (Hc 0 (fun i => [
      mkField (chat_name i ++ lit "reasoning_content") [key "choices"; Idx 0; key "delta"; key "reasoning_content"] _ (lit "reasoning_content") i 0;
      mkField (chat_name i ++ lit "reasoning") [key "choices"; Idx 0; key "delta"; key "reasoning"] _ (lit "reasoning") i 0]) eq_refl). cbv beta.
    rewrite texts_in_cons, !texts_in_none by done. cbn. by rewrite app_nil_r.
  - rewrite (Hc 0 (fun i => [
      mkField (chat_name i ++ lit "reasoning_content") [key "choices"; Idx 0; key "delta"; key "reasoning_content"] _ (lit "reasoning_content") i 0;
      mkField (chat_name i ++ lit "reasoning") [key "choices"; Idx 0; key "delta"; key "reasoning"] _ (lit "reasoning") i 0]) eq_refl). cbv beta.
    rewrite texts_in_none by done. by apply texts_in_one.
Qed.

Lemma chat_block_carries z b kind rest text : format = APIFormatOpenAIChatCompletion ->
  minInt64 <= z <= maxInt64 -> minInt64 <= b <= maxInt64 -> kind ∈ ["text"; "output_text"] ->
  carries (JObj ((lit "choices", JArr [JObj [(lit "delta", JObj [(lit "content",
      JArr [JObj [(lit "index", number_json b); (lit "text", JStr text); (lit "type", JStr (lit kind))]])]);
      (lit "index", number_json z)]]) :: rest))
    (chat_name z ++ lit "content:" ++ int_key b) text.
Proof.
  intros Hfmt Hz Hb Hk k'. unfold texts, fields. rewrite Hfmt. cbv iota. set (c := JObj [(lit "delta", _); _]). set (v := JObj _).
  assert (Hi : forall n, minInt64 <= n <= maxInt64 -> opencodeIdentityIndex (Some (number_json n)) 0 = n) by (intros n Hn; cbn; by apply Int_text).
  change (get [key "choices"] v) with (Some (JArr [c])). cbn [Array].
  change (concat (imap chat_choice_fields [c])) with (chat_choice_fields 0 c ++ []). rewrite app_nil_r.
  assert (Hc : forall fs : Z -> Z -> list opencodeIdentityField,
    chat_choice_fields 0 c = fs (opencodeIdentityIndex (Some (number_json z)) 0) (opencodeIdentityIndex (Some (number_json b)) 0) ->
    chat_choice_fields 0 c = fs z b) by (intros fs ->; by rewrite !Hi).
  rewrite (Hc (fun i j => [
    mkField (chat_name i ++ lit "content:" ++ int_key j) [key "choices"; Idx 0; key "delta"; key "content"; Idx 0; key "text"]
      [key "choices"; Idx 0; key "delta"; key "content"; Idx 0; key "text"] (lit kind) i j;
    mkField (chat_name i ++ lit "reasoning_content") [key "choices"; Idx 0; key "delta"; key "reasoning_content"] (chat_first ++ [key "reasoning_content"]) (lit "reasoning_content") i 0;
    mkField (chat_name i ++ lit "reasoning") [key "choices"; Idx 0; key "delta"; key "reasoning"] (chat_first ++ [key "reasoning"]) (lit "reasoning") i 0])).
  2: { repeat (apply elem_of_cons in Hk as [->|Hk]); [reflexivity..|by apply elem_of_nil in Hk]. }
  cbv beta. rewrite texts_in_cons, !texts_in_none by done. cbn. by rewrite app_nil_r.
Qed.

Lemma anthropic_carries z s text : format = APIFormatAnthropicMessage -> minInt64 <= z <= maxInt64 -> s ∈ ["text"; "thinking"] ->
  carries (JObj [(lit "delta", JObj [(lit "type", JStr (lit s ++ lit "_delta")); (lit s, JStr text)]);
                 (lit "index", number_json z); (lit "type", JStr (lit "content_block_delta"))])
    (lit "anthropic:" ++ int_key z ++ lit ":" ++ lit s) text.
Proof.
  intros Hfmt Hz Hs k'. unfold texts, fields. rewrite Hfmt. cbv iota. set (v := JObj _).
  assert (Hi : IntOf (Some (number_json z)) = z) by (cbn; by apply Int_text).
  assert (Hf : anthropic_fields v = [mkField (lit "anthropic:" ++ int_key (IntOf (Some (number_json z))) ++ lit ":" ++ lit s)
    [key "delta"; key s] [key "delta"; key s] (lit s) (IntOf (Some (number_json z))) 0]).
  { repeat (apply elem_of_cons in Hs as [->|Hs]); [reflexivity..|by apply elem_of_nil in Hs]. }
  rewrite Hf, Hi. apply texts_in_one.
  repeat (apply elem_of_cons in Hs as [->|Hs]); [reflexivity..|by apply elem_of_nil in Hs].
Qed.

(** Copied fields are found as they were. *)
Lemma field_app k a b : field k (a ++ b) = match field k a with Some v => Some v | None => field k b end.
Proof. induction a as [|[k' v] a IH]; cbn; [done|]. by case_bool_decide. Qed.

Lemma copied_cons data n names : copied data (n :: names) =
  match GetBytes data [key n] with Some v => (lit n, v) :: copied data names | None => copied data names end.
Proof. unfold copied. cbn [omap list_omap]. by destruct (GetBytes data [key n]). Qed.

Lemma field_not_copied data names k : Forall (fun n => k ≠ lit n) names -> field k (copied data names) = None.
Proof.
  induction 1 as [|n names Hn _ IH]; [done|]. rewrite copied_cons.
  destruct (GetBytes data [key n]); [|done]. cbn [field]. by rewrite bool_decide_false.
Qed.

Lemma field_copied data names n : n ∈ names -> field (lit n) (copied data names) = GetBytes data [key n].
Proof.
  intros Hin. destruct (GetBytes data [key n]) as [v|] eqn:Hg.
  - induction names as [|n' names IH]; [by apply elem_of_nil in Hin|]. rewrite copied_cons.
    destruct (decide (n = n')) as [<-|Hne]; [rewrite Hg; cbn [field]; by rewrite bool_decide_true|].
    apply elem_of_cons in Hin as [|Hin]; [done|]. destruct (GetBytes data [key n']); [|by apply IH].
    cbn [field]. rewrite bool_decide_false; [by apply IH|]. by intros ?%lit_inj.
  - clear Hin. induction names as [|n' names IH]; [done|]. rewrite copied_cons.
    destruct (GetBytes data [key n']) as [v|] eqn:Hn; [|done]. cbn [field]. rewrite bool_decide_false; [done|].
    intros ->%lit_inj. congruence.
Qed.

Definition responses_copied : list string := ["content_index"; "item_id"; "output_index"; "summary_index"].

Lemma responses_carries data kind text : format = APIFormatOpenAIResponse -> is_responses_delta kind = true ->
  carries (JObj (copied data responses_copied ++ [(lit "type", JStr kind); (lit "delta", JStr text)]))
    (opencodeResponsesChannel (ParseBytes data) kind) text.
Proof.
  intros Hfmt Hk k'. unfold texts, fields. rewrite Hfmt. cbv iota. set (v := JObj _).
  assert (Hcopy : forall n, n ∈ responses_copied -> get [key n] v = get [key n] (ParseBytes data)).
  { intros n Hn. subst v. cbn [get child seg_key key]. rewrite field_app, field_copied by done. unfold GetBytes. cbn [get child].
    destruct (child (key n) (ParseBytes data)); [done|]. cbn.
    repeat (apply elem_of_cons in Hn as [->|Hn]); [reflexivity..|by apply elem_of_nil in Hn]. }
  assert (Hnew : forall n, Forall (fun n' => lit n ≠ lit n') responses_copied ->
    get [key n] v = field (lit n) [(lit "type", JStr kind); (lit "delta", JStr text)] ≫= get []).
  { intros n Hn. subst v. cbn [get child seg_key key]. by rewrite field_app, field_not_copied. }
  assert (Ht : get [key "type"] v = Some (JStr kind)) by (rewrite Hnew; [done|by repeat constructor]).
  assert (Hd : get [key "delta"] v = Some (JStr text)) by (rewrite Hnew; [done|by repeat constructor]).
  rewrite Ht. cbn [Str]. rewrite Hk. unfold opencodeResponsesChannel. rewrite !Hcopy by set_solver.
  apply texts_in_one. unfold text_at. cbn [if_path]. by rewrite Hd.
Qed.

(** ** Templates *)

(** What [json.Marshal] writes of [kvs] is read as [kvs]. *)
Definition readable (kvs : list (bytes * json)) : Prop := whole (JObj kvs) /\ exists d, well_formed d (JObj kvs).

Lemma Marshal_read kvs data : readable kvs -> json_Marshal kvs = Some data -> ValidBytes data = true /\ ParseBytes data = JObj kvs.
Proof.
  intros [Hw [d Hd]]. unfold json_Marshal. destruct (forallb _ _); [|done]. intros Heq.
  assert (data = soa (render (JObj kvs))) as -> by congruence.
  destruct (ParseBytes_render (JObj kvs) d Hd) as [Hv Hp]. by rewrite Hp, cleaned_id.
Qed.

Lemma lit_ok s : ascii_key s = true -> utf8_ok (lit s).
Proof.
  intros Hs. apply ascii_utf8. unfold ascii_key in Hs. rewrite forallb_forall in Hs.
  apply Forall_forall. intros a Ha%list_elem_of_In%Hs. lia.
Qed.

(** A copied field is part of the document. *)
Lemma copied_ok data names d : whole (ParseBytes data) -> well_formed d (ParseBytes data) -> Forall (fun n => ascii_key n = true) names ->
  Forall (fun kv => (utf8_ok kv.1 /\ whole kv.2) /\ well_formed d kv.2) (copied data names).
Proof.
  intros Hw Hd. induction 1 as [|n names Hn _ IH]; [done|]. rewrite copied_cons.
  destruct (GetBytes data [key n]) as [v|] eqn:Hg; [|done]. constructor; [|done]. cbn. unfold GetBytes in Hg.
  split; [split; [by apply lit_ok|by eapply whole_get]|by eapply wf_get].
Qed.

Lemma readable_app a kvs d : Forall (fun kv => utf8_ok kv.1 /\ whole kv.2 /\ well_formed 8 kv.2) a ->
  Forall (fun kv => (utf8_ok kv.1 /\ whole kv.2) /\ well_formed d kv.2) kvs -> readable (a ++ kvs) /\ readable (kvs ++ a).
Proof.
  intros Ha Hk.
  assert (Hall : forall l, (forall kv, kv ∈ l -> kv ∈ a \/ kv ∈ kvs) -> readable l).
  { intros l Hl. rewrite Forall_forall in Ha. rewrite Forall_forall in Hk. split; [|exists (S (8 + d))].
    - cbn [whole]. apply whole_obj, Forall_forall. intros kv Hkv. destruct (Hl kv Hkv) as [Hin|Hin].
      + destruct (Ha kv Hin) as (? & ? & _). done.
      + by destruct (Hk kv Hin).
    - cbn [well_formed]. apply wf_obj, Forall_forall. intros kv Hkv. destruct (Hl kv Hkv) as [Hin|Hin].
      + destruct (Ha kv Hin) as (_ & _ & Hw). eapply wf_mono; [|exact Hw]. lia.
      + destruct (Hk kv Hin) as [_ Hw]. eapply wf_mono; [|exact Hw]. lia. }
  split; apply Hall; intros kv; rewrite elem_of_app; tauto.
Qed.

Lemma responses_kind_ok kind : is_responses_delta kind = true -> utf8_ok kind.
Proof.
  unfold is_responses_delta. cbn [existsb]. rewrite !orb_true_iff, !bool_decide_eq_true.
  intros [->|[->|[->|]]]; [by apply lit_ok..|done].
Qed.

Lemma set_field_fresh k w kvs : field k kvs = None ->
  set_field k (fun o => match o with Some v => Some w | None => if bool_decide (@nil seg = []) then Some w else None end) kvs
  = Some (kvs ++ [(k, w)]).
Proof.
  induction kvs as [|[k' v] kvs IH]; cbn [field set_field app]; [done|]. destruct (bool_decide (k = k')); [done|]. intros Hf. by rewrite (IH Hf).
Qed.

Record template_ok (f : opencodeIdentityField) (t : StreamEvent) : Prop := {
  tmpl_valid : ValidBytes (ev_Data t) = true;
  tmpl_path : path_ok (if_templatePath f);
  tmpl_carries : forall text, exists kvs,
    set_at (if_templatePath f) (JStr text) (ParseBytes (ev_Data t)) = Some (JObj kvs) /\ carries (JObj kvs) (if_key f) text }.

Lemma template_spec event f t : ValidBytes (ev_Data event) = true -> whole (ParseBytes (ev_Data event)) ->
  f ∈ fields format (ParseBytes (ev_Data event)) -> template format event f = inl t -> template_ok f t.
Proof.
  intros Hv Hw Hf. unfold template. destruct (template_root format (ev_Data event) f) as [kind root] eqn:Hroot.
  destruct (json_Marshal root) as [data|] eqn:Hm; [|done]. destruct (_ <? _); [done|]. intros [= <-]. cbn [ev_Data].
  destruct (ParseBytes_ok _ Hv) as [d Hd].
  enough (Hr : readable root /\ path_ok (if_templatePath f) /\ forall text, exists kvs,
    set_at (if_templatePath f) (JStr text) (JObj root) = Some (JObj kvs) /\ carries (JObj kvs) (if_key f) text).
  { destruct Hr as (Hr & Hp & Hc). destruct (Marshal_read _ _ Hr Hm) as [Hvd Hpd]. split; [done|done|]. cbn. by rewrite Hpd. }
  clear Hm. unfold template_root in Hroot. unfold fields in Hf. destruct format eqn:Hfmt; try by apply elem_of_nil in Hf.
  - apply (f_equal snd) in Hroot. cbn [snd] in Hroot. subst root. apply elem_of_concat_imap in Hf as (i & c & _ & Hf). apply chat_fields_kinds in Hf.
    set (copies := copied _ _).
    assert (Hcp : Forall (fun kv => (utf8_ok kv.1 /\ whole kv.2) /\ well_formed d kv.2) copies) by (by apply copied_ok; [..|repeat constructor]).
    destruct Hf as [z s p Hz Hs|z b k p Hz Hb Hk]; cbn [if_kind if_block if_index if_templatePath if_key].
    + rewrite !bool_decide_false by (repeat (apply elem_of_cons in Hs as [->|Hs]); [done..|by apply elem_of_nil in Hs]). cbn [orb].
      split; [|split].
      * apply (readable_app [_] copies d); [|done]. repeat constructor; try apply number_text_ok; by apply lit_ok.
      * repeat (apply elem_of_cons in Hs as [->|Hs]); [by path_ok_tac..|by apply elem_of_nil in Hs].
      * intros text. eexists. split; [reflexivity|]. by apply chat_simple_carries.
    + assert (Hkind : bool_decide (lit k = lit "text") || bool_decide (lit k = lit "output_text") = true).
      { repeat (apply elem_of_cons in Hk as [->|Hk]); [done..|by apply elem_of_nil in Hk]. }
      rewrite Hkind. split; [|split].
      * apply (readable_app [_] copies d); [|done]. repeat constructor; try apply number_text_ok; try (by apply lit_ok).
        repeat (apply elem_of_cons in Hk as [->|Hk]); [by apply lit_ok..|by apply elem_of_nil in Hk].
      * by path_ok_tac.
      * intros text. eexists. split; [reflexivity|]. by apply chat_block_carries.
  - destruct (is_responses_delta _) eqn:Hk; [|by apply elem_of_nil in Hf]. apply list_elem_of_singleton in Hf as ->.
    apply (f_equal snd) in Hroot. cbn [snd if_kind] in Hroot. subst root. cbn [if_templatePath if_key].
    set (kd := Str _) in *. fold responses_copied.
    assert (Hcp : Forall (fun kv => (utf8_ok kv.1 /\ whole kv.2) /\ well_formed d kv.2) (copied (ev_Data event) responses_copied))
      by (by apply copied_ok; [..|repeat constructor]).
    split; [|split; [by path_ok_tac|]].
    + apply (readable_app [_] _ d); [|done]. repeat constructor; try (by apply lit_ok). by apply responses_kind_ok.
    + intros text. eexists (copied (ev_Data event) responses_copied ++ [(lit "type", JStr kd); (lit "delta", JStr text)]).
      split; [|by apply responses_carries]. cbn [set_at seg_key key]. rewrite set_field_fresh; [by rewrite <- app_assoc|].
      by rewrite field_app, field_not_copied by by repeat constructor.
  - apply anthropic_fields_kinds in Hf. destruct Hf as [z s p Hz Hs].
    apply (f_equal snd) in Hroot. cbn [snd if_kind if_index] in Hroot. subst root. cbn [if_templatePath if_key].
    split; [|split].
    + apply (readable_app _ [] d); [|done]. repeat constructor; try apply number_text_ok; try (by apply lit_ok).
      repeat (apply elem_of_cons in Hs as [->|Hs]); [by apply utf8_app; apply lit_ok..|by apply elem_of_nil in Hs].
    + repeat (apply elem_of_cons in Hs as [->|Hs]); [by path_ok_tac..|by apply elem_of_nil in Hs].
    + intros text. eexists. split; [|by apply anthropic_carries].
      repeat (apply elem_of_cons in Hs as [->|Hs]); [reflexivity..|by apply elem_of_nil in Hs].
Qed.
End template.
