(* ===== verification/OcStreamThms.v ===== *)
(** * Restoring a stream

    [opencodeIdentityStream] gives every text of an answer as [strings.Replacer]
    would on the whole text, however the events cut it, and releases what it keeps
    back no later than the text ends. *)

From Stdlib Require Import Ascii String.
From S2P Require Import Prelude GoStrings GoInts Utf8 Runes MaskText MaskThms GoRegexp GoJson RuneBytes GoJsonThms Boundaries Gjson Protocol Errors StreamEvents OcReplacer OcAlias OcAliasThms OcShape.
From stdpp Require Import list pretty.
Local Open Scope Z_scope.
Local Open Scope list_scope.

(** ** One text *)

(** A text comes in pieces; it may end, and another one follow under its key. *)
Inductive move := Piece (s : bytes) | Ends.

(** What a client should get: each text restored as a whole. *)
Fixpoint restored_text (pairs : Pairs) (seen : bytes) (ms : list move) : bytes :=
  match ms with
  | [] => Replace pairs seen
  | Piece s :: ms => restored_text pairs (seen ++ s) ms
  | Ends :: ms => Replace pairs seen ++ restored_text pairs [] ms
  end.

Section text.
Variable m : gmap bytes bytes.
Let st := alias_state m.
Let pairs := replacer st.
Hypothesis shaped : alias_pairs pairs.
#[local] Set Default Proof Using "Type*".

Lemma release_text text ms : let keep := keep_of (prefixes st) (maxAliasBytes st) false text in
  restored_text pairs text ms =
  Replace pairs (take (length text - keep) text) ++ restored_text pairs (drop (length text - keep) text) ms.
Proof.
  intros keep. pose proof (hold_release_spec pairs (prefixes st) (maxAliasBytes st) shaped (state_begins m) (state_longest m) text) as Hr.
  fold keep in Hr. cbv zeta in Hr. set (x := take _ text) in *. set (y := drop _ text) in *.
  assert (Hgen : forall more, restored_text pairs (text ++ more) ms = Replace pairs x ++ restored_text pairs (y ++ more) ms).
  { induction ms as [|[s|] ms IH]; intros more; cbn [restored_text]; [apply Hr| |].
    - by rewrite <- !app_assoc.
    - by rewrite Hr, app_assoc. }
  specialize (Hgen []). by rewrite !app_nil_r in Hgen.
Qed.
End text.

(** ** Whole runes *)

Section runes.
Variable pairs : Pairs.
Hypothesis shaped : alias_pairs pairs.
Hypothesis names_ok : forall old new, (old, new) ∈ pairs -> utf8_ok new.
#[local] Set Default Proof Using "Type*".

Lemma Replace_utf8 s : utf8_ok s -> utf8_ok (Replace pairs s).
Proof.
  remember (length s) as n eqn:Hn. revert s Hn. induction n as [n IH] using lt_wf_ind. intros s -> Hs.
  pose proof (aliases_filled pairs shaped) as Hfill. destruct (utf8_inv s Hs) as [->|(r & s' & -> & Hr & Hs')]; [constructor|].
  pose proof (enc_length r Hr) as Hlen. destruct (decide (r < 128)) as [Hlow|Hhigh].
  - assert (Hr0 : 0 <= r) by (unfold scalar in Hr; lia). rewrite enc_ascii in * by lia. cbn [app]. rewrite Replace_cons by done.
    destruct (find_old pairs (of_byte r :: s')) as [[new rest]|] eqn:Hf.
    + apply find_old_some in Hf as (old & Hin & Heq). apply utf8_app; [by eapply names_ok|].
      apply (IH (length rest)); [|done|].
      * cbn [app]. rewrite Heq, length_app. apply shaped, alias_length in Hin. lia.
      * apply (utf8_cancel old); [by eapply alias_utf8, shaped|]. by rewrite <- Heq.
    + change (of_byte r :: Replace pairs s') with ([of_byte r] ++ Replace pairs s'). apply utf8_app.
      * rewrite <- enc_ascii by lia. by apply utf8_enc.
      * by apply (IH (length s')); [cbn; lia|..].
  - assert (Hno : forall a u v old new, (old, new) ∈ pairs -> old = u ++ v -> u ≠ [] -> a ++ u <> enc r).
    { intros a u v old new Hin -> Hu Heq. apply shaped, alias_ascii in Hin. destruct u as [|c u]; [done|].
      pose proof (enc_high r Hr ltac:(lia)) as Hh. rewrite <- Heq in Hh. apply Forall_app in Hh as [_ Hh].
      apply Forall_cons in Hh as [Hc _]. cbn in Hin. apply Forall_cons in Hin as [Hc' _]. lia. }
    rewrite Replace_app; [|done|].
    + rewrite Replace_none; [|done|].
      * apply utf8_app; [by apply utf8_enc|]. apply (IH (length s')); [rewrite length_app; lia|done|done].
      * intros old new a z Hin Heq. destruct old as [|c old]; [by apply shaped, alias_length in Hin|].
        pose proof (enc_high r Hr ltac:(lia)) as Hh. rewrite Heq, !Forall_app in Hh. destruct Hh as (_ & Hh & _).
        apply shaped, alias_ascii in Hin. apply Forall_cons in Hh as [Hc _]. apply Forall_cons in Hin as [Hc' _]. lia.
    + intros (old & new & u & v & a & z & Hin & Ho & Hu & _ & Heq & _). by apply (Hno a u v old new).
Qed.
End runes.

Lemma cut_boundary m ending text : alias_pairs (replacer (alias_state m)) -> utf8_ok text ->
  boundary text (length text - keep_of (prefixes (alias_state m)) (maxAliasBytes (alias_state m)) ending text)%nat.
Proof.
  intros Hsh Ht. set (keep := keep_of _ _ _ _). destruct (decide (keep = 0)%nat) as [->|Hk].
  { rewrite Nat.sub_0_r. by apply boundary_end. }
  assert (Hin : drop (length text - keep) text ∈ prefixes (alias_state m)).
  { subst keep. unfold keep_of in *. destruct ending; [done|]. apply hold_back_in. lia. }
  apply state_begins in Hin as (old & new & r & Hold & Heq & Hne & _).
  destruct (drop (length text - keep) text) as [|c rest] eqn:Hd; [done|].
  assert (Hc : text !! (length text - keep)%nat = Some c).
  { rewrite <- (Nat.add_0_r (length text - keep)), <- lookup_drop, Hd. done. }
  apply (ascii_boundary _ _ c Ht Hc). apply Hsh, alias_ascii in Hold. rewrite Heq in Hold. by apply Forall_cons in Hold as [? _].
Qed.

(** ** The texts of one event *)

Section event.
Context `{Gjson} `{dec : Decoder}.
Variable format : APIFormat.
Variable m : gmap bytes bytes.
Notation st := (alias_state m).
Notation pairs := (replacer st).
Hypothesis shaped : alias_pairs pairs.
Hypothesis names_ok : forall old new, (old, new) ∈ pairs -> utf8_ok new.
#[local] Set Default Proof Using "Type*".

(** What waits under a key: a plain text, and an event that will carry it. *)
Definition waits (k : bytes) (pd : opencodeIdentityPending) : Prop :=
  exists f, if_key f = k /\ if_templatePath f = pd_path pd /\ template_ok format f (pd_template pd) /\
    Replace pairs (pd_text pd) = pd_text pd /\ utf8_ok (pd_text pd).
Definition pending_ok (p : PendingMap) : Prop := map_Forall waits p.
Definition waiting (p : PendingMap) (k : bytes) : bytes := from_option pd_text [] (p !! k).

(** The moves of channel [k] that fields make. *)
Definition field_moves (closing : bytes -> bool) (v : json) (k : bytes) (f : opencodeIdentityField) : list move :=
  if bool_decide (if_key f = k)
  then match text_at v (if_path f) with Some s => Piece s :: (if closing k then [Ends] else []) | None => [] end
  else [].
Definition moves_in (closing : bytes -> bool) (fs : list opencodeIdentityField) (v : json) (k : bytes) : list move :=
  concat (field_moves closing v k <$> fs).

(** [out] is what channel [k] gets while its waiting text goes from [p] to [p']. *)
Definition delivers (p p' : PendingMap) (out : bytes -> bytes) (ms : bytes -> list move) : Prop :=
  forall k rest, out k ++ restored_text pairs (waiting p' k) rest = restored_text pairs (waiting p k) (ms k ++ rest).

Lemma delivers_nothing p : delivers p p (fun _ => []) (fun _ => []).
Proof. by intros k rest. Qed.
Lemma delivers_trans p p1 p2 o1 o2 m1 m2 : delivers p p1 o1 m1 -> delivers p1 p2 o2 m2 ->
  delivers p p2 (fun k => o1 k ++ o2 k) (fun k => m1 k ++ m2 k).
Proof. intros H1 H2 k rest. by rewrite <- !app_assoc, H2, H1. Qed.
Lemma delivers_ext p p' o1 o2 m1 m2 : (forall k, o1 k = o2 k) -> (forall k, m1 k = m2 k) ->
  delivers p p' o1 m1 -> delivers p p' o2 m2.
Proof. intros Ho Hm Hd k rest. by rewrite <- Ho, <- Hm. Qed.

(** The document of an event while its texts are replaced. *)
Record doc_at (v0 : json) (data : string) : Prop := {
  doc_valid : ValidBytes data = true;
  doc_whole : whole (ParseBytes data);
  doc_shape : erase false (ParseBytes data) = erase false v0 }.

(** One text is replaced in the document. *)
Lemma edit_doc v0 data p s t : doc_at v0 data -> way_ok p -> last_text p -> path_ok p -> utf8_ok t ->
  text_at (ParseBytes data) p = Some s ->
  exists data', opencodeApplyEdits data [mkEdit p t] = inl data' /\ doc_at v0 data' /\
    text_at (ParseBytes data') p = Some t /\
    forall q, diverge p q -> text_at (ParseBytes data') q = text_at (ParseBytes data) q.
Proof.
  intros [Hv Hw He] Hway Hlast Hok Ht Hs. unfold text_at in Hs. destruct (get p (ParseBytes data)) as [[]|] eqn:Hg; try done.
  destruct (set_at_some p (JStr t) _ _ Hg) as [v' Hv'].
  destruct (apply_edits_ok [mkEdit p t] data) as (data' & Hd & Hvd & Hed); [done|by repeat constructor|by repeat constructor|..].
  { apply places_cons. split; [done|]. split; [by eexists|]. split; by constructor. }
  { constructor; [|done]. unfold GetBytes. cbn. by rewrite Hg. }
  cbn in Hed. rewrite Hv' in Hed. cbn in Hed. assert (Hp : v' = ParseBytes data') by congruence. subst v'. exists data'.
  split; [done|]. split; [split; [done|eapply (whole_set p (JStr t)); [|done|exact Hw|exact Hv']; done|by rewrite (erase_set walk_digits p t Hway Hlast _ _ _ false Hg Hv')]|].
  unfold text_at. split; [by rewrite (set_at_spec _ _ _ _ Hv')|]. intros q Hq. by rewrite (set_at_other _ _ _ Hq _ _ Hv').
Qed.

(** When a text ends nothing of it waits, unless the event has no piece of it. *)
Definition ends_clean (closing : bytes -> bool) (p p' : PendingMap) (out : bytes -> bytes) : Prop :=
  forall k, closing k = true -> out k = [] /\ waiting p' k = waiting p k \/ waiting p' k = [].
Lemma ends_clean_trans closing p p1 p2 o1 o2 : ends_clean closing p p1 o1 -> ends_clean closing p1 p2 o2 ->
  ends_clean closing p p2 (fun k => o1 k ++ o2 k).
Proof using Type.
  intros H1 H2 k Hk. destruct (H2 k Hk) as [[-> ->]|Hn]; [|by right]. rewrite app_nil_r. by apply H1.
Qed.

Lemma field_step_spec closing event f v0 data p data' p' :
  doc_at v0 data -> pending_ok p -> way_ok (if_path f) -> last_text (if_path f) -> path_ok (if_path f) ->
  (forall t, template format event f = inl t -> template_ok format f t) ->
  field_step format st closing event f data p = (inl data', p') ->
  doc_at v0 data' /\ pending_ok p' /\
  (forall q, diverge (if_path f) q -> text_at (ParseBytes data') q = text_at (ParseBytes data) q) /\
  delivers p p' (fun k => if bool_decide (if_key f = k) then default [] (text_at (ParseBytes data') (if_path f)) else [])
    (fun k => field_moves closing (ParseBytes data) k f) /\
  ends_clean closing p p' (fun k => if bool_decide (if_key f = k) then default [] (text_at (ParseBytes data') (if_path f)) else []).
Proof.
  intros Hdoc Hpend Hway Hlast Hok Htmpl. unfold field_step, field_moves. destruct (text_at (ParseBytes data) (if_path f)) as [s|] eqn:Hs.
  2: { unfold text_at, GetBytes in *. destruct (get _ _) as [[]|] eqn:Hg; try done; intros [= <- <-];
       (split; [done|]; split; [done|]; split; [done|]; split; intros k; [intros rest|intros _; left]; rewrite Hg; by case_bool_decide). }
  assert (Hget : GetBytes data (if_path f) = Some (JStr s)).
  { unfold text_at in Hs. unfold GetBytes. destruct (get _ _) as [[]|]; try done. by injection Hs as ->. }
  rewrite Hget. fold (waiting p (if_key f)). set (text := waiting p (if_key f) ++ s).
  assert (Htext : utf8_ok text).
  { apply utf8_app.
    - unfold waiting. destruct (p !! if_key f) as [pd|] eqn:Hpd; [|constructor]. by destruct (Hpend _ _ Hpd) as (? & _ & _ & _ & _ & ?).
    - unfold GetBytes in Hget. by apply (whole_get _ _ _ (doc_whole _ _ Hdoc)) in Hget. }
  set (keep := keep_of _ _ _ text). set (cut := (length text - keep)%nat).
  pose proof (cut_boundary m (closing (if_key f)) text shaped Htext) as (_ & Htake & Hdrop). fold keep cut in Htake, Hdrop.
  destruct (edit_doc v0 data (if_path f) s (Replace pairs (take cut text))) as (updated & -> & Hdoc' & Hnew & Hother);
    [done..|by apply Replace_utf8|done|].
  assert (Hstep : forall p1, waiting p1 (if_key f) = drop cut text -> (forall k, if_key f ≠ k -> waiting p1 k = waiting p k) ->
    delivers p p1 (fun k => if bool_decide (if_key f = k) then default [] (text_at (ParseBytes updated) (if_path f)) else [])
      (fun k => if bool_decide (if_key f = k) then Piece s :: (if closing k then [Ends] else []) else [])).
  { intros p1 Hat Hoth k rest. case_bool_decide as Hk; [subst k|by rewrite Hoth]. rewrite Hnew, Hat. cbn [default from_option app restored_text].
    fold text. destruct (closing (if_key f)) eqn:Hcl.
    - assert (Hc : cut = length text) by (subst cut keep; unfold keep_of; lia). rewrite Hc, firstn_all, drop_all. done.
    - symmetry. apply (release_text m shaped text rest). }
  destruct (keep =? 0)%nat eqn:Hk0.
  - intros [= <- <-]. split; [done|]. split; [by apply map_Forall_delete|]. split; [done|]. split; [apply Hstep|].
    + unfold waiting. rewrite lookup_delete_eq. cbn. apply Nat.eqb_eq in Hk0. symmetry. apply drop_ge. lia.
    + intros k Hne. unfold waiting. by rewrite lookup_delete_ne.
    + intros k _. unfold waiting. destruct (decide (if_key f = k)) as [<-|Hne]; [right; by rewrite lookup_delete_eq|].
      left. by rewrite bool_decide_false, lookup_delete_ne.
  - destruct (negb _ && _); [done|]. destruct (template format event f) as [t|] eqn:Ht; [|done]. intros [= <- <-].
    split; [done|]. split.
    { apply map_Forall_insert_2; [|done]. exists f. split; [done|]. split; [done|]. split; [by apply Htmpl|]. cbn [pd_text].
      split; [|done]. apply (waiting_plain pairs _ _ shaped (state_begins m) (state_longest m)). }
    split; [done|]. split; [apply Hstep|].
    + unfold waiting. by rewrite lookup_insert_eq.
    + intros k Hne. unfold waiting. by rewrite lookup_insert_ne.
    + intros k Hk. destruct (decide (if_key f = k)) as [<-|Hne]; [subst keep; unfold keep_of in Hk0; by rewrite Hk in Hk0|].
      left. unfold waiting. by rewrite bool_decide_false, lookup_insert_ne.
Qed.

(** The fields of [fs] can be restored in place, and kept back. *)
Definition field_ok (event : StreamEvent) (f : opencodeIdentityField) : Prop :=
  way_ok (if_path f) /\ last_text (if_path f) /\ path_ok (if_path f) /\
  forall t, template format event f = inl t -> template_ok format f t.

Lemma texts_in_ext fs v v' k : Forall (fun f => text_at v (if_path f) = text_at v' (if_path f)) fs ->
  texts_in fs v k = texts_in fs v' k.
Proof using Type. induction 1 as [|f fs Hf _ IH]; [done|]. by rewrite !texts_in_cons, Hf, IH. Qed.
Lemma moves_in_ext closing fs v v' k : Forall (fun f => text_at v (if_path f) = text_at v' (if_path f)) fs ->
  moves_in closing fs v k = moves_in closing fs v' k.
Proof using Type.
  unfold moves_in. induction 1 as [|f fs Hf _ IH]; [done|]. cbn [fmap list_fmap concat]. unfold field_moves at 1 3. by rewrite Hf, IH.
Qed.

Lemma fields_loop_spec closing event v0 fs : ForallOrdPairs diverge (if_path <$> fs) -> Forall (field_ok event) fs ->
  forall data p data' p', doc_at v0 data -> pending_ok p -> fields_loop format st closing event fs data p = (inl data', p') ->
  doc_at v0 data' /\ pending_ok p' /\
  (forall q, Forall (fun f => diverge (if_path f) q) fs -> text_at (ParseBytes data') q = text_at (ParseBytes data) q) /\
  delivers p p' (texts_in fs (ParseBytes data')) (moves_in closing fs (ParseBytes data)) /\
  ends_clean closing p p' (texts_in fs (ParseBytes data')).
Proof.
  induction fs as [|f fs IH]; intros Hdiv Hfs data p data' p' Hdoc Hp; cbn [fields_loop].
  { intros [= <- <-]. split; [done|]. split; [done|]. split; [done|]. split; [by intros k rest|]. intros k _. by left. }
  rewrite fmap_cons in Hdiv. inversion Hdiv as [|? ? Hd Hdiv']; subst. apply Forall_cons in Hfs as [(Hway & Hlast & Hok & Ht) Hfs].
  destruct (field_step _ _ _ _ _ _ _) as [[mid|e] p1] eqn:Hstep; [|done]. intros Hloop.
  destruct (field_step_spec closing event f v0 data p mid p1) as (Hdoc1 & Hp1 & Hoth & Hdel & Hend); [done..|].
  destruct (IH Hdiv' Hfs mid p1 data' p') as (Hdoc' & Hp' & Hoth' & Hdel' & Hend'); [done..|].
  split; [done|]. split; [done|]. rewrite Forall_fmap in Hd. split.
  { intros q [Hq Hqs]%Forall_cons. by rewrite Hoth', Hoth. }
  assert (Hout : forall k, texts_in (f :: fs) (ParseBytes data') k =
    (if bool_decide (if_key f = k) then default [] (text_at (ParseBytes mid) (if_path f)) else []) ++ texts_in fs (ParseBytes data') k).
  { intros k. rewrite texts_in_cons, (Hoth' (if_path f)); [done|]. eapply Forall_impl; [exact Hd|]. intros g. apply diverge_sym. }
  split; [|intros k Hk; rewrite Hout; by apply (ends_clean_trans _ _ _ _ _ _ Hend Hend')].
  eapply delivers_ext; [| |exact (delivers_trans _ _ _ _ _ _ _ Hdel Hdel')]; intros k; cbv beta; [done|].
  unfold moves_in at 2. cbn [fmap list_fmap concat]. f_equal. apply moves_in_ext.
  eapply Forall_impl; [exact Hd|]. intros g Hg. by apply Hoth.
Qed.
End event.

(** ** Texts that end *)

Section flush.
Context `{Gjson} `{dec : Decoder}.
Variable format : APIFormat.
Variable m : gmap bytes bytes.
Notation st := (alias_state m).
Notation pairs := (replacer st).

(** What events give to the channel [k]; an event without data gives nothing. *)
Definition ev_texts (k : bytes) (e : option StreamEvent) : bytes :=
  match e with
  | Some ev => if slen (ev_Data ev) =? 0 then [] else texts format (ParseBytes (ev_Data ev)) k
  | None => []
  end.
Definition given (es : list (option StreamEvent)) (k : bytes) : bytes := concat (ev_texts k <$> es).

Lemma given_app a b k : given (a ++ b) k = given a k ++ given b k.
Proof. unfold given. by rewrite fmap_app, concat_app. Qed.
Lemma given_cons e es k : given (e :: es) k = ev_texts k e ++ given es k.
Proof. done. Qed.

(** An event with a document can be numbered. *)
Definition event_doc (e : option StreamEvent) : Prop :=
  match e with
  | Some ev => ev_Data ev = ""%string \/ ValidBytes (ev_Data ev) = true /\ IsObject (Some (ParseBytes (ev_Data ev))) = true
  | None => True
  end.

Lemma valid_filled data : ValidBytes data = true -> slen data =? 0 = false.
Proof.
  intros Hv. apply Z.eqb_neq. intros Hl. destruct data as [|c data]; [by rewrite ValidBytes_empty in Hv|].
  unfold slen in Hl. cbn in Hl. lia.
Qed.

(** A waiting text goes out in an event of its own. *)
Lemma release_event p k pd : pending_ok format m p -> p !! k = Some pd -> exists data,
  SetBytes (ev_Data (pd_template pd)) (pd_path pd) (JStr (pd_text pd)) = Some data /\
  ValidBytes data = true /\ IsObject (Some (ParseBytes data)) = true /\ carries format (ParseBytes data) k (pd_text pd).
Proof.
  intros Hp Hk. destruct (Hp _ _ Hk) as (f & <- & <- & Ht & _ & Hu). destruct (tmpl_carries _ _ _ Ht (pd_text pd)) as (kvs & Hset & Hc).
  destruct (SetBytes_ok (ev_Data (pd_template pd)) (if_templatePath f) (JStr (pd_text pd)) (JObj kvs)) as (data & Hd & Hv & Hw);
    [apply Ht|done|apply Ht|by cbn [cleaned]; rewrite to_valid_id|].
  exists data. rewrite Hw. done.
Qed.

Lemma flush_keys_spec keys : NoDup keys -> forall p out p', pending_ok format m p -> flush_keys keys p = (inl out, p') ->
  pending_ok format m p' /\ Forall event_doc out /\
  (forall k, p' !! k = if decide (k ∈ keys) then None else p !! k) /\
  (forall k, given out k = if decide (k ∈ keys) then waiting p k else []).
Proof.
  induction 1 as [|key keys Hk Hnd IH]; intros p out p' Hp; cbn [flush_keys].
  { intros [= <- <-]. by repeat (split; [done|]). }
  destruct (p !! key) as [pd|] eqn:Hpd.
  - destruct (release_event _ _ _ Hp Hpd) as (data & -> & Hv & Ho & Hc).
    destruct (flush_keys keys (delete key p)) as [[rest|] p1] eqn:Hrest; [|done]. intros [= <- <-].
    destruct (IH _ _ _ (map_Forall_delete _ _ _ Hp) Hrest) as (Hp1 & Hdoc & Hlk & Hgv).
    split; [done|]. split; [constructor; [by right|done]|]. split; intros k.
    + rewrite Hlk. destruct (decide (key = k)) as [<-|Hne].
      * rewrite lookup_delete_eq. rewrite (decide_True (P := key ∈ key :: keys)) by left. by case_decide.
      * rewrite lookup_delete_ne by done. by rewrite (decide_ext (k ∈ key :: keys) (k ∈ keys)) by (rewrite elem_of_cons; naive_solver).
    + rewrite given_cons, Hgv. cbn [ev_texts ev_Data]. rewrite valid_filled, Hc by done. unfold waiting.
      destruct (decide (key = k)) as [<-|Hne].
      * rewrite bool_decide_true, Hpd, lookup_delete_eq by done. rewrite (decide_False (P := key ∈ keys)), (decide_True (P := key ∈ key :: keys)) by (done || left). by rewrite app_nil_r.
      * rewrite bool_decide_false, lookup_delete_ne by done. cbn [app].
        by rewrite (decide_ext (k ∈ key :: keys) (k ∈ keys)) by (rewrite elem_of_cons; naive_solver).
  - intros Hrest. destruct (IH _ _ _ Hp Hrest) as (Hp1 & Hdoc & Hlk & Hgv). split; [done|]. split; [done|].
    split; intros k; [rewrite Hlk|rewrite Hgv]; unfold waiting; (destruct (decide (key = k)) as [<-|Hne];
      [rewrite Hpd, (decide_True (P := key ∈ key :: keys)) by left; by case_decide
      |by rewrite (decide_ext (k ∈ key :: keys) (k ∈ keys)) by (rewrite elem_of_cons; naive_solver)]).
Qed.

(** [flush] ends the texts of the channels that match. *)
Lemma flush_spec matches p out p' : pending_ok format m p -> flush matches p = (inl out, p') ->
  pending_ok format m p' /\ Forall event_doc out /\
  (forall k, given out k = if matches k then waiting p k else []) /\
  delivers m p p' (given out) (fun k => if matches k then [Ends] else []).
Proof.
  intros Hp Hf. unfold flush in Hf. set (keys := sort_bytes _) in Hf.
  assert (Hkeys : forall k, k ∈ keys <-> matches k = true /\ is_Some (p !! k)).
  { intros k. subst keys. unfold sort_bytes. rewrite merge_sort_Permutation, list_elem_of_filter, list_elem_of_fmap.
    split; [intros [Hm ([k' pd] & -> & Hin%elem_of_map_to_list)]; by split; [|eexists]|].
    intros [Hm [pd Hin]]. split; [done|]. exists (k, pd). by rewrite elem_of_map_to_list. }
  apply flush_keys_spec in Hf as (Hp' & Hdoc & Hlk & Hgv); [|subst keys; unfold sort_bytes; rewrite merge_sort_Permutation;
    apply NoDup_filter, NoDup_fst_map_to_list|done].
  split; [done|]. split; [done|]. split.
  { intros k. rewrite Hgv. unfold waiting. destruct (decide (k ∈ keys)) as [[-> _]%Hkeys|Hno]; [done|].
    destruct (matches k) eqn:Hm; [|done]. destruct (p !! k) as [pd|] eqn:Hpd; [|done]. destruct Hno. apply Hkeys. by split; [|eexists]. }
  intros k rest. rewrite Hgv. unfold waiting. rewrite Hlk.
  destruct (decide (k ∈ keys)) as [[-> [pd Hpd]]%Hkeys|Hno].
  - rewrite Hpd. cbn [from_option app restored_text]. destruct (Hp _ _ Hpd) as (f & _ & _ & _ & -> & _). done.
  - cbn [app]. destruct (matches k) eqn:Hm; [|done]. destruct (p !! k) as [pd|] eqn:Hpd.
    + destruct Hno. apply Hkeys. by split; [|eexists].
    + done.
Qed.

(** ** Texts repeated as a whole *)

Lemma item_paths_in body base p : p ∈ opencodeResponseItemPaths body base -> path_ok base ->
  path_ok p /\ exists r, p = base ++ r.
Proof.
  assert (Hsub : forall s kinds, ascii_key s = true -> path_ok base -> p ∈ opencodeTextPaths body (base ++ [key s]) kinds ->
    path_ok p /\ exists r, p = base ++ r).
  { intros s kinds Hs Hb Hp. split.
    - eapply Forall_forall in Hp; [exact Hp|]. apply text_paths_ok, path_ok_app. split; [done|]. apply key_ok; [done|constructor].
    - apply text_paths_in in Hp as [->|[i ->]]; [by eexists|]. rewrite <- app_assoc. by eexists. }
  intros Hp Hb. unfold opencodeResponseItemPaths in Hp. destruct (StrIs _ _); [by eapply Hsub in Hp|].
  destruct (StrIs _ _); [|by apply elem_of_nil in Hp]. apply elem_of_app in Hp as [Hp|Hp]; by eapply Hsub in Hp.
Qed.

Lemma snapshot_paths_ok data p : p ∈ snapshotPaths format data -> path_ok p /\ diverge p [key "type"].
Proof.
  assert (Hcons : forall s r, ascii_key s = true -> key s ≠ key "type" -> path_ok r -> path_ok (key s :: r) /\ diverge (key s :: r) [key "type"]).
  { intros s r Hs Hne Hr. split; [by apply key_ok|]. apply diverge_here. intros Heq. apply Hne. unfold key. by f_equal. }
  unfold snapshotPaths. destruct format; try by intros ?%elem_of_nil.
  - repeat case_match; try (by intros ?%elem_of_nil); try (intros ->%list_elem_of_singleton; apply Hcons; [done|done|by path_ok_tac]).
    + intros Hp. apply item_paths_in in Hp as [Hok [r ->]]; [|by path_ok_tac]. split; [done|]. by apply diverge_here.
    + unfold opencodeResponsePaths. intros [->|Hp]%elem_of_cons; [by apply Hcons; [done|done|by path_ok_tac]|].
      apply elem_of_concat_imap in Hp as (i & x & _ & Hp). apply item_paths_in in Hp as [Hok [r ->]]; [|by path_ok_tac].
      split; [done|]. by apply diverge_here.
  - destruct (StrIs _ _); [|by intros ?%elem_of_nil]. unfold opencodeResponsePaths.
    intros (i & x & _ & Hp)%elem_of_concat_imap. repeat case_match; try (by apply elem_of_nil in Hp);
      apply list_elem_of_singleton in Hp as ->; split; [by path_ok_tac|by apply diverge_here|by path_ok_tac|by apply diverge_here].
Qed.

(** Such events have no pieces of texts. *)
Lemma snapshot_no_fields data v : snapshotPaths format data ≠ [] -> get [key "type"] v = GetBytes data [key "type"] ->
  fields format v = [].
Proof.
  intros Hs Ht. unfold snapshotPaths in Hs. unfold fields. destruct format; try done.
  - destruct (is_responses_delta _) eqn:Hd; [|done]. destruct Hs. unfold is_responses_delta in Hd. cbn [existsb] in Hd.
    rewrite Ht, !orb_true_iff, !bool_decide_eq_true in Hd. unfold StrIs.
    destruct Hd as [-> |[-> |[-> |]]]; [| | |done]; reflexivity.
  - unfold anthropic_fields. rewrite Ht. unfold StrIs in *. case_bool_decide as Hk; [|done]. rewrite Hk. done.
Qed.

(** Restoring them changes no piece of a text. *)
Lemma restore_snapshot data data' : ValidBytes data = true -> opencodeRestorePaths data (snapshotPaths format data) st = inl data' ->
  ValidBytes data' = true /\ (IsObject (Some (ParseBytes data)) = true -> IsObject (Some (ParseBytes data')) = true) /\
  forall k, texts format (ParseBytes data') k = texts format (ParseBytes data) k.
Proof.
  intros Hv Hr. destruct (decide (snapshotPaths format data = [])) as [Hnil|Hsome].
  { rewrite Hnil in Hr. cbn in Hr. injection Hr as <-. done. }
  unfold opencodeRestorePaths in Hr. set (es := omap _ _) in Hr.
  assert (Hes : forall e, e ∈ es -> ed_path e ∈ snapshotPaths format data /\ IsString (GetBytes data (ed_path e)) = true).
  { intros e (p & Hp & He)%list_elem_of_omap. destruct (GetBytes data p) as [[]|] eqn:Hg; try done. injection He as <-.
    cbn [ed_path]. by rewrite Hg. }
  destruct (apply_edits_any es data Hv) as (body & Hb & Hvb & Ho & Hq).
  - apply Forall_forall. intros e He. by apply snapshot_paths_ok with data, Hes.
  - apply Forall_forall. intros e He. by apply Hes.
  - assert (data' = body) as -> by congruence. split; [done|]. split; [done|]. intros k.
    assert (Ht : GetBytes body [key "type"] = GetBytes data [key "type"]).
    { apply Hq, Forall_forall. intros e He. by apply snapshot_paths_ok with data, Hes. }
    unfold texts. rewrite !(snapshot_no_fields data); done.
Qed.
End flush.

(** ** What a client reads

    The events of [opencodeIdentityStream], read to the end, give every text of the
    answer as the replacer would on the whole text: [restored_text].  The proof
    follows the stream through an invariant, one operation at a time. *)

From S2P Require Import StreamThms.
From stdpp Require Import list.
Local Open Scope Z_scope.
Local Open Scope list_scope.

Section restored.
Context `{Gjson} `{dec : Decoder}.
Variable format : APIFormat.
Variable m : gmap bytes bytes.
Notation st := (alias_state m).
Notation pairs := (replacer st).
Notation given := (given format).
Notation transform := (transform format st).
Notation delivers := (delivers m).
Hypothesis shaped : alias_pairs pairs.
Hypothesis names_ok : forall old new, (old, new) ∈ pairs -> utf8_ok new.
#[local] Set Default Proof Using "Type*".

(** ** The texts of the events *)

(** Data that is JSON is UTF-8; a stream of responses has no other end than its
    last event. *)
Definition event_in (e : option StreamEvent) : Prop :=
  match e with
  | Some ev => (ValidBytes (ev_Data ev) = true -> whole (ParseBytes (ev_Data ev))) /\
               (TrimSpace (ev_Data ev) = "[DONE]"%string -> format ≠ APIFormatOpenAIResponse)
  | None => True
  end.

(** What an event says of the channel [k]: its pieces, and whether the text ends. *)
Definition event_moves (k : bytes) (e : option StreamEvent) : list move :=
  match e with
  | Some ev =>
      if slen (ev_Data ev) =? 0 then [] else
      moves_in (closes format ev) (fields format (ParseBytes (ev_Data ev))) (ParseBytes (ev_Data ev)) k ++
      (if closes format ev k then [Ends] else [])
  | None => []
  end.
Definition moves (es : list (option StreamEvent)) (k : bytes) : list move := concat (event_moves k <$> es).
Definition terminal (e : option StreamEvent) : bool :=
  match e with
  | Some ev => negb (slen (ev_Data ev) =? 0) && v_terminal (analyzeStreamEvent format (Some ev))
  | None => false
  end.

(** The document of an event, or the mark of the end. *)
Lemma list_no_fields l v : v = JArr l -> fields format v = [].
Proof. intros ->. unfold fields. by destruct format. Qed.

Lemma list_no_snapshot data l : ParseBytes data = JArr l -> snapshotPaths format data = [].
Proof. intros Hl. unfold snapshotPaths, GetBytes. rewrite Hl. by destruct format. Qed.

Lemma restore_event ev data' p p' : negb (malformed (ev_Data ev)) = true -> event_in (Some ev) -> pending_ok format m p ->
  fields_loop format st (closes format ev) ev (fields format (ParseBytes (ev_Data ev))) (ev_Data ev) p = (inl data', p') ->
  pending_ok format m p' /\ (TrimSpace (ev_Data ev) = "[DONE]"%string /\ data' = ev_Data ev \/ ValidBytes data' = true /\ IsObject (Some (ParseBytes data')) = true) /\
  delivers p p' (texts format (ParseBytes data'))
    (moves_in (closes format ev) (fields format (ParseBytes (ev_Data ev))) (ParseBytes (ev_Data ev))) /\
  ends_clean (closes format ev) p p' (texts format (ParseBytes data')).
Proof.
  unfold malformed. rewrite negb_andb, !negb_involutive. intros Hdoc [Hwhole _] Hp.
  destruct (bool_decide (TrimSpace (ev_Data ev) = _)) eqn:Hdone.
  { apply bool_decide_eq_true in Hdone. destruct (ParseBytes_list _ Hdone) as [l Hl]. rewrite (list_no_fields l _ Hl). cbn [fields_loop].
    intros [= <- <-]. split; [done|]. split; [by left|]. unfold texts. rewrite (list_no_fields l _ Hl). split; [by intros k rest|]. intros k _. by left. }
  cbn [orb] in Hdoc. rewrite negb_orb, !negb_involutive in Hdoc. apply andb_true_iff in Hdoc as [Hv Ho]. intros Hloop.
  eapply (fields_loop_spec format m shaped names_ok _ _ (ParseBytes (ev_Data ev))) in Hloop as (Hdoc & Hp' & _ & Hd & Hend).
  - split; [done|]. split; [right; split; [apply Hdoc|]|].
    + pose proof (doc_shape _ _ Hdoc) as He. destruct (ParseBytes (ev_Data ev)) as [| | | | |kvs]; try done.
      by destruct (ParseBytes data').
    + unfold texts. by rewrite <- (fields_erase format (ParseBytes data')), (doc_shape _ _ Hdoc), fields_erase.
  - apply fields_diverge.
  - apply Forall_forall. intros f Hf. destruct (fields_paths _ _ _ Hf) as (? & ? & ?). repeat (split; [done|]).
    intros t. apply template_spec; [done|by apply Hwhole|done].
  - split; [done|by apply Hwhole|done].
  - done.
Qed.

(** ** One event *)

Definition numbering (s : opencodeIdentityStream) : Prop := sequenceEnabled s = true -> format = APIFormatOpenAIResponse.
(** The state is the same but for what an event may change. *)
Record stays (s s' : opencodeIdentityStream) : Prop := {
  stays_inner : is_inner s' = is_inner s;
  stays_err : is_err s' = None -> is_err s = None;
  stays_numbering : numbering s -> numbering s' }.
Lemma stays_refl s : stays s s.
Proof using Type. by split. Qed.
Lemma stays_trans s1 s2 s3 : stays s1 s2 -> stays s2 s3 -> stays s1 s3.
Proof using Type. intros [i1 e1 n1] [i2 e2 n2]. split; [congruence|auto|auto]. Qed.

Lemma check_sequence_stays data s e s' : check_sequence format data s = (e, s') ->
  stays s s' /\ pending s' = pending s /\ ended s' = ended s /\ queue s' = queue s.
Proof using Type.
  unfold check_sequence. destruct (negb _ || _) eqn:Hf; [intros [= <- <-]; split; [apply stays_refl|done]|].
  apply orb_false_iff in Hf as [Hf%negb_false_iff%bool_decide_eq_true _].
  repeat case_match; intros [= <- <-]; (split; [split; [done|done|intros Hn; first [exact Hn|by intros _]]|done]).
Qed.

Lemma note_verdict_stays ev s : stays s (note_verdict format ev s) /\ pending (note_verdict format ev s) = pending s /\
  ended (note_verdict format ev s) = ended s || v_terminal (analyzeStreamEvent format (Some ev)) /\
  queue (note_verdict format ev s) = queue s.
Proof using Type.
  unfold note_verdict. destruct (is_err s) as [e|] eqn:He, (v_terminal _) eqn:Ht; cbn; rewrite ?orb_true_r, ?orb_false_r;
    (split; [split; cbn; rewrite ?He; done|done]).
Qed.

Lemma transform_spec e s out s' : pending_ok format m (pending s) -> event_in e -> transform e s = (inl out, s') ->
  pending_ok format m (pending s') /\ stays s s' /\ ended s' = ended s || terminal e /\
  (format = APIFormatOpenAIResponse -> Forall event_doc out) /\ out ≠ [] /\
  delivers (pending s) (pending s') (given out) (fun k => event_moves k e).
Proof.
  intros Hp Hin. unfold OcAlias.transform. destruct e as [ev|].
  2: { intros [= <- <-]. split; [done|]. split; [apply stays_refl|]. split; [by rewrite orb_false_r|].
       split; [by repeat constructor|]. split; [done|]. by intros k rest. }
  cbn [terminal event_moves]. destruct (slen (ev_Data ev) =? 0) eqn:Hlen.
  { intros [= <- <-]. split; [done|]. split; [apply stays_refl|]. split; [by rewrite orb_false_r|].
    split; [|split; [done|intros k rest; cbn; by rewrite Hlen]]. intros _. constructor; [left|done]. destruct (ev_Data ev); [done|].
    apply Z.eqb_eq in Hlen. unfold slen in Hlen. cbn in Hlen. lia. }
  destruct (malformed _) eqn:Hmal; [done|]. destruct (reports_error _); [done|].
  destruct (check_sequence _ _ _) as [[err|] s1] eqn:Hseq; [done|]. apply check_sequence_stays in Hseq as (Hst1 & Hp1 & He1 & _).
  destruct (note_verdict_stays ev s1) as (Hst2 & Hp2 & He2 & _). set (s2 := note_verdict format ev s1) in *.
  destruct (fields_loop _ _ _ _ _ _ _) as [[data'|err] p3] eqn:Hloop; [|done].
  rewrite Hp2, Hp1 in Hloop. apply restore_event in Hloop as (Hp3 & Hdata & Hdel & Hclean); [|by rewrite Hmal|done|done].
  destruct (opencodeRestorePaths _ _ _) as [data|err] eqn:Hsnap; [|done]. cbn [pending upd_pending].
  destruct (flush _ p3) as [[flushed|err] p4] eqn:Hflush; [|done]. intros [= <- <-].
  apply (flush_spec format m) in Hflush as (Hp4 & Hdocs & Hflushed & Hends); [|done..]. split; [done|]. split.
  { eapply stays_trans; [exact Hst1|]. eapply stays_trans; [exact Hst2|]. by split. }
  split; [cbn; by rewrite He2, He1|].
  assert (Hlast : (forall k, ev_texts format k (Some (mkEvent (ev_LastEventID ev) (ev_Type ev) data)) = texts format (ParseBytes data') k) /\
    (format = APIFormatOpenAIResponse -> event_doc (Some (mkEvent (ev_LastEventID ev) (ev_Type ev) data)))).
  { cbn [ev_texts ev_Data event_doc]. destruct Hdata as [[Hdone ->]|[Hv Ho]].
    - destruct (ParseBytes_list _ Hdone) as [l Hl]. rewrite (list_no_snapshot _ l Hl) in Hsnap. injection Hsnap as <-.
      split; [intros k; by rewrite Hlen|]. intros Hf. by destruct (proj2 Hin Hdone).
    - destruct (restore_snapshot format m data' data Hv Hsnap) as (Hvd & Hod & Htx).
      split; [intros k; by rewrite valid_filled|]. intros _. right. split; [done|by apply Hod]. }
  destruct Hlast as [Htexts Hdoc]. split.
  { intros Hf. apply Forall_app. split; [done|]. constructor; [by apply Hdoc|done]. }
  split; [by destruct flushed|]. intros k rest. rewrite given_app, given_cons, Htexts. cbn [OcStreamThms.given fmap list_fmap concat]. rewrite app_nil_r.
  assert (Hswap : given flushed k ++ texts format (ParseBytes data') k = texts format (ParseBytes data') k ++ given flushed k).
  { rewrite Hflushed. destruct (closes format ev k) eqn:Hk; [|by rewrite app_nil_r].
    destruct (Hclean k Hk) as [[-> _]| ->]; by rewrite app_nil_r. }
  rewrite Hswap, <- !app_assoc. specialize (Hends k rest). cbn [pending upd_pending] in *. by rewrite Hends, Hdel, app_assoc.
Qed.

(** ** Numbers *)

Lemma responses_texts v v' k : format = APIFormatOpenAIResponse ->
  (forall q, diverge [key "sequence_number"] q -> get q v' = get q v) -> texts format v' k = texts format v k.
Proof using Type.
  intros Hf Hq. assert (Hkeys : forall s, lit s ≠ lit "sequence_number" -> get [key s] v' = get [key s] v).
  { intros s Hs. apply Hq, diverge_here. cbn [seg_key key]. congruence. }
  unfold texts. assert (Hfields : fields format v' = fields format v).
  { rewrite Hf. unfold fields, opencodeResponsesChannel. by rewrite !Hkeys. }
  rewrite Hfields. apply texts_in_ext, Forall_forall. intros f Hin. rewrite Hf in Hin. unfold fields in Hin.
  destruct (is_responses_delta _); [|by apply elem_of_nil in Hin]. apply list_elem_of_singleton in Hin as ->.
  unfold text_at. cbn [if_path]. by rewrite Hkeys.
Qed.

Lemma number_event data n : ValidBytes data = true -> IsObject (Some (ParseBytes data)) = true ->
  exists data', SetBytes data [key "sequence_number"] (number_json n) = Some data' /\ ValidBytes data' = true /\
    forall q, diverge [key "sequence_number"] q -> get q (ParseBytes data') = get q (ParseBytes data).
Proof using Type.
  intros Hv Ho. destruct (ParseBytes data) as [| | | | |kvs] eqn:Hd; try done.
  destruct (set_key_some "sequence_number" (number_json n) kvs) as [v Hs].
  destruct (SetBytes_ok data [key "sequence_number"] (number_json n) v) as (data' & Hset & Hv' & Hp);
    [done|apply number_text_ok|by path_ok_tac|by rewrite Hd|].
  exists data'. split; [done|]. split; [done|]. intros q Hq. rewrite Hp. by eapply set_at_other.
Qed.

Lemma renumber_loop_spec es : format = APIFormatOpenAIResponse -> Forall event_doc es -> forall n out n', renumber_loop n es = (inl out, n') ->
  length out = length es /\ forall k, given out k = given es k.
Proof using Type.
  intros Hf. induction 1 as [|e es He _ IH]; intros n out n'; cbn [renumber_loop]; [by intros [= <- <-]|].
  destruct e as [ev|].
  - destruct (slen (ev_Data ev) =? 0) eqn:Hlen.
    + destruct (renumber_loop n es) as [[r|] n1] eqn:Hr; [|done]. intros [= <- <-]. apply IH in Hr as [Hl Hg].
      split; [cbn; by rewrite Hl|]. intros k. by rewrite !given_cons, Hg.
    + destruct (_ <? n); [done|]. destruct He as [He|[Hv Ho]]; [by rewrite He in Hlen|].
      destruct (number_event _ n Hv Ho) as (data & -> & Hvd & Hq).
      destruct (renumber_loop (n + 1) es) as [[r|] n1] eqn:Hr; [|done]. intros [= <- <-]. apply IH in Hr as [Hl Hg].
      split; [cbn; by rewrite Hl|]. intros k. rewrite !given_cons, Hg. cbn [ev_texts ev_Data].
      by rewrite Hlen, valid_filled, (responses_texts _ _ k Hf Hq).
  - destruct (renumber_loop n es) as [[r|] n1] eqn:Hr; [|done]. intros [= <- <-]. apply IH in Hr as [Hl Hg].
    split; [cbn; by rewrite Hl|]. intros k. by rewrite !given_cons, Hg.
Qed.

Lemma renumber_spec es s out s' : numbering s -> (format = APIFormatOpenAIResponse -> Forall event_doc es) ->
  renumber es s = (inl out, s') ->
  stays s s' /\ pending s' = pending s /\ ended s' = ended s /\ length out = length es /\ forall k, given out k = given es k.
Proof using Type.
  intros Hn Hd. unfold renumber. destruct (sequenceEnabled s) eqn:Hon; cbn [negb].
  - destruct (renumber_loop _ es) as [r n] eqn:Hr. intros Heq. assert (r = inl out /\ s' = upd_sequence true n s) as [-> ->] by (by split; congruence).
    apply renumber_loop_spec in Hr as [Hl Hg]; [|by apply Hn|by apply Hd, Hn].
    split; [split; [done|done|intros _ _; by apply Hn]|done].
  - intros [= <- <-]. split; [apply stays_refl|done].
Qed.

(** ** The whole stream *)

Definition left_over (s : opencodeIdentityStream) : list (option StreamEvent) :=
  match is_inner s with Some (es, _) => es | None => [] end.
(** The events up to the one that ends the stream. *)
Fixpoint heard (es : list (option StreamEvent)) : list (option StreamEvent) :=
  match es with [] => [] | e :: es => e :: if terminal e then [] else heard es end.
(** What the channel [k] is still to get. *)
Definition owed (s : opencodeIdentityStream) (k : bytes) : bytes :=
  given (queue s) k ++
  if ended s then [] else restored_text pairs (waiting (pending s) k) (moves (heard (left_over s)) k).

Record sound (s : opencodeIdentityStream) : Prop := {
  sound_pending : pending_ok format m (pending s);
  sound_numbering : numbering s;
  sound_events : Forall event_in (left_over s) }.

Lemma Join_some a e : OcAlias.Join [a; Some e] ≠ None.
Proof using Type. by destruct a. Qed.
Lemma Join_none a : OcAlias.Join [a; None] = None -> a = None.
Proof using Type. by destruct a. Qed.

(** After the last event the rest goes out. *)
Lemma flush_rest_stays s : stays s (flush_rest s) /\ ended (flush_rest s) = ended s.
Proof using Type.
  unfold flush_rest. destruct (flush_all _) as [[out|e] p]; (split; [split; [done| |done]|done]); [apply Join_none|].
  by intros He%Join_some.
Qed.

Lemma flush_all_spec p out p' : pending_ok format m p -> flush_all p = (inl out, p') ->
  pending_ok format m p' /\ Forall event_doc out /\ forall k, given out k = restored_text pairs (waiting p k) [].
Proof.
  intros Hp Hf. apply (flush_spec format m) in Hf as (Hp' & Hd & Hg & _); [|done]. split; [done|]. split; [done|].
  intros k. rewrite Hg. cbn [restored_text]. unfold waiting.
  destruct (p !! k) as [pd|] eqn:Hk; [|done]. destruct (Hp _ _ Hk) as (f & _ & _ & _ & Hr & _). symmetry. exact Hr.
Qed.

Lemma flush_rest_spec s : pending_ok format m (pending s) -> is_err (flush_rest s) = None ->
  pending_ok format m (pending (flush_rest s)) /\
  exists out, queue (flush_rest s) = queue s ++ out /\ Forall event_doc out /\
    forall k, given out k = restored_text pairs (waiting (pending s) k) [].
Proof.
  intros Hp. unfold flush_rest. destruct (flush_all (pending s)) as [[out|e] p] eqn:Hf; cbn [is_err upd_queue upd_pending upd_err].
  - intros _. apply flush_all_spec in Hf as (Hp' & Hd & Hg); [|done]. split; [done|]. by exists out.
  - intros He. by apply Join_some in He.
Qed.

(** The stream before its events are numbered. *)
Definition step (s : opencodeIdentityStream) : opencodeIdentityStream :=
  let '(next, s) := inner_next s in
  let s :=
    match next with
    | None => set_ended s
    | Some event =>
        match transform event s with
        | (inl out, s) => upd_queue out s
        | (inr e, s) => upd_queue [] (set_ended (upd_err (OcAlias.Join [is_err s; Some e]) s))
        end
    end in
  if ended s then flush_rest s else s.
Lemma refill_step s : refill format st s =
  match renumber (queue (step s)) (step s) with
  | (inl out, s) => upd_queue out s
  | (inr e, s) => upd_queue [] (set_ended (upd_err (OcAlias.Join [is_err s; Some e]) s))
  end.
Proof using Type. unfold refill, step. by destruct (inner_next s) as [[e|] s1]. Qed.

Lemma inner_next_spec s : match inner_next s with
  | (Some e, s') => left_over s = e :: left_over s'
  | (None, s') => s' = s /\ left_over s = []
  end /\ forall e s', inner_next s = (e, s') -> pending s' = pending s /\ queue s' = queue s /\ ended s' = ended s /\
    is_err s' = is_err s /\ sequenceEnabled s' = sequenceEnabled s.
Proof using Type.
  unfold inner_next, left_over. destruct (is_inner s) as [[[|e es] err]|]; (split; [done|]); by intros ? ? [= <- <-].
Qed.

Lemma moves_cons e es k : moves (e :: es) k = event_moves k e ++ moves es k.
Proof using Type. done. Qed.

(** The state in which an event leaves the stream, the last one or not. *)
Lemma settle s : pending_ok format m (pending s) -> Forall event_in (left_over s) -> numbering s ->
  (format = APIFormatOpenAIResponse -> Forall event_doc (queue s)) -> (queue s = [] -> ended s = true) ->
  let s' := if ended s then flush_rest s else s in
  is_err s' = None ->
  is_err s = None /\ sound s' /\ (format = APIFormatOpenAIResponse -> Forall event_doc (queue s')) /\
  (queue s' = [] -> ended s' = true) /\
  forall k, owed s' k = given (queue s) k ++
    restored_text pairs (waiting (pending s) k) (if ended s then [] else moves (heard (left_over s)) k).
Proof.
  intros Hp Hin Hn Hd Hne s' He. subst s'. destruct (ended s) eqn:Hend.
  - destruct (flush_rest_stays s) as [[Hi Herr Hnum] He']. destruct (flush_rest_spec s Hp He) as (Hp' & fl & Hql & Hdl & Hg).
    split; [by apply Herr|]. split. { split; [done|by apply Hnum|]. unfold left_over in *. by rewrite Hi. }
    rewrite Hql. split. { intros Hf. apply Forall_app. split; [by apply Hd|done]. }
    split; [by rewrite He', Hend|]. intros k. unfold owed. by rewrite He', Hend, app_nil_r, Hql, given_app, Hg.
  - split; [done|]. split; [by split|]. split; [done|]. split; [by rewrite Hend|]. intros k. unfold owed. by rewrite Hend.
Qed.

Lemma step_spec s : sound s -> queue s = [] -> ended s = false -> is_err (step s) = None ->
  is_err s = None /\ sound (step s) /\ (format = APIFormatOpenAIResponse -> Forall event_doc (queue (step s))) /\
  (queue (step s) = [] -> ended (step s) = true) /\ forall k, owed (step s) k = owed s k.
Proof.
  intros [Hp Hn Hin] Hq He. unfold step. destruct (inner_next_spec s) as [Hnext Hkeep].
  destruct (inner_next s) as [[e|] s1] eqn:Hs1; specialize (Hkeep _ _ eq_refl) as (Hp1 & Hq1 & He1 & Herr1 & Hsq1).
  - rewrite Hnext in Hin. apply Forall_cons in Hin as [Hev Hin].
    destruct (transform e s1) as [[out|err] s2] eqn:Ht.
    2: { cbn [ended upd_queue set_ended]. intros Herr. apply flush_rest_stays in Herr. by apply Join_some in Herr. }
    rewrite <- Hp1 in Hp. apply transform_spec in Ht as (Hp2 & [Hi2 Herr2 Hn2] & He2 & Hdoc & Hne & Hdel); [|done..].
    assert (Hleft : left_over s2 = left_over s1) by (unfold left_over; by rewrite Hi2).
    intros Herr. destruct (settle (upd_queue out s2)) as (Herr' & Hsound & Hdocs & Hempty & Howed); try done.
    + unfold left_over in *. cbn. by rewrite Hi2.
    + cbn. unfold numbering in *. rewrite Hsq1 in *. auto.
    + rewrite <- Herr1. split; [by apply Herr2|]. split; [done|]. split; [done|]. split; [done|]. intros k. rewrite Howed.
      unfold owed. rewrite Hq, He, Hnext. cbn [queue upd_queue ended pending heard]. change (left_over (upd_queue out s2)) with (left_over s2).
      rewrite moves_cons, He2, He1, He, Hleft, <- Hp1. cbn [orb]. rewrite <- Hdel. destruct (terminal e); done.
  - destruct Hnext as [-> Hnext]. cbn [ended set_ended]. intros Herr.
    destruct (settle (set_ended s)) as (Herr' & Hsound & Hdocs & Hempty & Howed); try done.
    + by intros _; cbn; rewrite Hq; constructor.
    + split; [done|]. split; [done|]. split; [done|]. split; [done|]. intros k. rewrite Howed. unfold owed.
      cbn [queue set_ended ended pending]. by rewrite Hq, He, Hnext.
Qed.

Lemma refill_spec s : sound s -> queue s = [] -> ended s = false -> is_err (refill format st s) = None ->
  is_err s = None /\ sound (refill format st s) /\ (queue (refill format st s) = [] -> ended (refill format st s) = true) /\
  forall k, owed (refill format st s) k = owed s k.
Proof.
  intros Hs Hq He. rewrite refill_step. destruct (renumber (queue (step s)) (step s)) as [[out|e] s'] eqn:Hr.
  2: { cbn. intros Herr. by apply Join_some in Herr. }
  intros Herr. cbn [is_err upd_queue] in Herr.
  assert (Hstep : is_err (step s) = None).
  { unfold renumber in Hr. destruct (negb _); [congruence|]. destruct (renumber_loop _ _) as [r n]. assert (s' = upd_sequence true n (step s)) as -> by congruence. done. }
  destruct (step_spec s Hs Hq He Hstep) as (Herr' & [Hp Hn Hin] & Hdoc & Hne & Howed).
  apply renumber_spec in Hr as ([Hi _ Hnum] & Hp' & He' & Hl & Hg); [|done..]. split; [done|]. split.
  { split; [by cbn; rewrite Hp'|by apply Hnum|]. unfold left_over in *. cbn. by rewrite Hi. }
  cbn [queue upd_queue ended]. split.
  { intros ->. rewrite He'. apply Hne. by destruct (queue (step s)). }
  intros k. rewrite <- Howed. unfold owed, left_over. cbn [queue upd_queue ended pending is_inner]. by rewrite Hg, He', Hp', Hi.
Qed.

(** Whatever [Next] does, what is still to come stays the same. *)
Lemma Next_spec s b s' : sound s -> Next format st s = (b, s') -> is_err s' = None ->
  is_err s = None /\ sound s' /\ forall k, owed s k = if b then ev_texts format k (current s') ++ owed s' k else [].
Proof.
  intros Hs. unfold Next. set (t := match queue s with [] => if ended s then s else refill format st s | _ => s end).
  intros Hn Herr. assert (Ht : is_err s = None /\ sound t /\ (queue t = [] -> ended t = true) /\ forall k, owed t k = owed s k).
  { assert (Herrt : is_err t = None) by (destruct (queue t); injection Hn as _ <-; exact Herr). subst t.
    destruct (queue s) eqn:Hq; [|by rewrite Hq]. destruct (ended s) eqn:He; [done|]. by apply refill_spec. }
  destruct Ht as (Herrs & [Hp Hnum Hin] & Hend & Howed). split; [done|].
  destruct (queue t) as [|e q] eqn:Hq; injection Hn as <- <-.
  - split; [by split|]. intros k. rewrite <- Howed. unfold owed. by rewrite Hq, Hend.
  - split; [by split|]. intros k. rewrite <- Howed. unfold owed. cbn [queue set_current current ended pending].
    rewrite Hq, given_cons, <- app_assoc. done.
Qed.

(** An error stays. *)
Lemma transform_err e s out s' : transform e s = (inl out, s') -> is_err s' = None -> is_err s = None.
Proof using Type.
  unfold OcAlias.transform. destruct e as [ev|]; [|by intros [= _ <-]].
  destruct (_ =? 0); [by intros [= _ <-]|]. destruct (malformed _); [done|]. destruct (reports_error _); [done|].
  destruct (check_sequence _ _ _) as [[err|] s1] eqn:Hseq; [done|]. apply check_sequence_stays in Hseq as [Hst1 _].
  destruct (note_verdict_stays ev s1) as [Hst2 _]. destruct (fields_loop _ _ _ _ _ _ _) as [[data|err] p]; [|done].
  destruct (opencodeRestorePaths _ _ _); [|done]. destruct (flush _ _) as [[fl|err] p']; [|done].
  intros [= _ <-]. cbn [is_err upd_pending]. intros He. by apply Hst1, Hst2.
Qed.

Lemma renumber_err es s r s' : renumber es s = (r, s') -> is_err s' = is_err s.
Proof using Type. unfold renumber. destruct (negb _); [by intros [= _ <-]|]. destruct (renumber_loop _ _). by intros [= _ <-]. Qed.

Lemma Next_err s b s' : Next format st s = (b, s') -> is_err s' = None -> is_err s = None.
Proof using Type.
  assert (Hrefill : is_err (refill format st s) = None -> is_err s = None).
  { rewrite refill_step. destruct (renumber _ _) as [[out|e] t] eqn:Hr; cbn; [|by intros ?%Join_some].
    apply renumber_err in Hr as ->. unfold step. destruct (inner_next_spec s) as [_ Hkeep].
    destruct (inner_next s) as [[e|] s1] eqn:Hs1; specialize (Hkeep _ _ eq_refl) as (_ & _ & _ & He1 & _); rewrite <- He1.
    - destruct (transform e s1) as [[o|err] s2] eqn:Ht.
      + intros He. apply (transform_err _ _ _ _ Ht). destruct (ended (upd_queue o s2)); [by apply flush_rest_stays in He|done].
      + cbn [ended upd_queue set_ended]. intros He%flush_rest_stays. by apply Join_some in He.
    - cbn [ended set_ended]. by intros He%flush_rest_stays. }
  unfold Next. set (t := match queue s with [] => _ | _ => _ end). intros Hn He.
  assert (Ht : is_err t = None) by (destruct (queue t); injection Hn as _ <-; exact He). subst t.
  destruct (queue s); [|done]. destruct (ended s); [done|]. by apply Hrefill.
Qed.

(** ** Reading to the end *)

Fixpoint read_all (fuel : nat) (s : opencodeIdentityStream) : option (list (option StreamEvent) * opencodeIdentityStream) :=
  match fuel with
  | O => None
  | S fuel =>
      match Next format st s with
      | (false, s) => Some ([], s)
      | (true, s) => '(es, s') ← read_all fuel s; Some (current s :: es, s')
      end
  end.

Lemma read_all_texts fuel : forall s out s', sound s -> read_all fuel s = Some (out, s') -> is_err s' = None ->
  is_err s = None /\ forall k, given out k = owed s k.
Proof.
  induction fuel as [|fuel IH]; intros s out s' Hs; cbn [read_all]; [done|].
  destruct (Next format st s) as [[] s1] eqn:Hn.
  - destruct (read_all fuel s1) as [[es s2]|] eqn:Hr; [|done]. cbn [mbind option_bind]. intros [= <- <-] Herr.
    assert (Herr1 : is_err s1 = None).
    { clear -Hr Herr. revert s1 es Hr. induction fuel as [|fuel IH]; intros s1 es; cbn [read_all]; [done|].
      destruct (Next format st s1) as [[] t] eqn:Hn; [|by intros [= _ <-]; eapply Next_err].
      destruct (read_all fuel t) as [[es' t']|] eqn:Hr; [|done]. intros [= _ <-]. eapply Next_err; [exact Hn|by eapply IH]. }
    destruct (Next_spec _ _ _ Hs Hn Herr1) as (He & Hs1 & Ho). split; [done|]. intros k.
    destruct (IH s1 es s2 Hs1 Hr Herr) as [_ Hg]. by rewrite given_cons, Hg, Ho.
  - intros [= <- <-] Herr. destruct (Next_spec _ _ _ Hs Hn Herr) as (He & _ & Ho). split; [done|]. intros k. by rewrite Ho.
Qed.

(** The stream ends: each refill takes an event or ends it. *)
Lemma transform_inner e s : is_inner (transform e s).2 = is_inner s /\ queue (transform e s).2 = queue s.
Proof using Type.
  unfold OcAlias.transform. destruct e as [ev|]; [|done]. destruct (_ =? 0); [done|].
  destruct (malformed _); [done|]. destruct (reports_error _); [done|].
  destruct (check_sequence _ _ _) as [c s1] eqn:Hseq. apply check_sequence_stays in Hseq as ([Hi _ _] & _ & _ & Hq). destruct c; [done|].
  destruct (note_verdict_stays ev s1) as ([Hi2 _ _] & _ & _ & Hq2). rewrite <- Hi, <- Hi2, <- Hq, <- Hq2.
  destruct (fields_loop _ _ _ _ _ _ _) as [[data|err] p]; [|done].
  destruct (opencodeRestorePaths _ _ _); [|done]. by destruct (flush _ _) as [[fl|err] p'].
Qed.

Definition remaining (s : opencodeIdentityStream) : nat := if ended s then 0 else S (length (left_over s)).

Lemma refill_remaining s : ended s = false -> (remaining (refill format st s) < remaining s)%nat.
Proof using Type.
  intros He. unfold remaining at 2. rewrite He.
  assert (Hren : forall es t, (remaining match renumber es t with (inl out, t) => upd_queue out t
    | (inr e, t) => upd_queue [] (set_ended (upd_err (OcAlias.Join [is_err t; Some e]) t)) end <= remaining t)%nat).
  { intros es t. unfold renumber. destruct (negb _); [done|]. destruct (renumber_loop _ _) as [[out|e] n]; [done|]. unfold remaining. cbn. lia. }
  rewrite refill_step. eapply Nat.le_lt_trans; [apply Hren|]. unfold step. destruct (inner_next_spec s) as [Hnext _].
  destruct (inner_next s) as [[e|] s1].
  - pose proof (transform_inner e s1) as [Hi _]. destruct (transform e s1) as [[out|err] s2]; cbn [snd] in Hi.
    + assert (Hl : left_over s2 = left_over s1) by (unfold left_over; by rewrite Hi).
      destruct (ended (upd_queue out s2)) eqn:Hs2; unfold remaining.
      * destruct (flush_rest_stays (upd_queue out s2)) as [_ ->]. rewrite Hs2. lia.
      * rewrite Hs2. change (left_over (upd_queue out s2)) with (left_over s2). rewrite Hl, Hnext. cbn. lia.
    + cbn [ended upd_queue set_ended]. unfold remaining. destruct (flush_rest_stays (upd_queue [] (set_ended (upd_err (OcAlias.Join [is_err s2; Some err]) s2)))) as [_ ->].
      cbn. lia.
  - cbn [ended set_ended]. unfold remaining. destruct (flush_rest_stays (set_ended s1)) as [_ ->]. cbn. lia.
Qed.

Lemma read_all_ends s : exists fuel, is_Some (read_all fuel s).
Proof using Type.
  remember (remaining s) as n eqn:Hn. revert s Hn. induction n as [n IH] using lt_wf_ind. intros s Hn.
  remember (queue s) as q eqn:Hq. revert s Hn Hq. induction q as [|e q IHq]; intros s Hn Hq.
  - destruct (ended s) eqn:He.
    { exists 1%nat. cbn [read_all]. unfold Next. rewrite <- Hq, He, <- Hq. by eexists. }
    pose proof (refill_remaining s He) as Hlt. destruct (queue (refill format st s)) as [|e q] eqn:Hr.
    { exists 1%nat. cbn [read_all]. unfold Next. rewrite <- Hq, He, Hr. by eexists. }
    destruct (IH (remaining (refill format st s)) ltac:(lia) (set_current e q (refill format st s)) eq_refl) as [fuel [[es u] Hf]].
    exists (S fuel). cbn [read_all]. unfold Next. rewrite <- Hq, He, Hr, Hf. by eexists.
  - destruct (IHq (set_current e q s)) as [fuel [[es u] Hf]]; [done|done|].
    exists (S fuel). cbn [read_all]. unfold Next. rewrite <- Hq, <- Hq, Hf. by eexists.
Qed.

(** ** The window *)

Lemma restore_window_spec es : Forall event_in es -> forall s out s', pending_ok format m (pending s) -> numbering s ->
  restore_window format st es s = (inl out, s') ->
  pending_ok format m (pending s') /\ stays s s' /\ ended s' = ended s || existsb terminal es /\
  delivers (pending s) (pending s') (given out) (moves es).
Proof.
  induction 1 as [|e es He _ IH]; intros s out s' Hp Hn; cbn [restore_window].
  { intros [= <- <-]. split; [done|]. split; [apply stays_refl|]. split; [by rewrite orb_false_r|]. by intros k rest. }
  destruct (transform e s) as [[out1|err] s1] eqn:Ht; [|done].
  destruct (transform_spec _ _ _ _ Hp He Ht) as (Hp1 & Hst1 & He1 & Hdoc & _ & Hdel).
  destruct (renumber out1 s1) as [[out2|err] s2] eqn:Hr; [|done].
  destruct (renumber_spec _ _ _ _ (stays_numbering _ _ Hst1 Hn) Hdoc Hr) as (Hst2 & Hp2 & He2 & _ & Hg).
  destruct (restore_window _ _ es s2) as [[rest|err] s3] eqn:Hw; [|done]. intros [= <- <-].
  apply IH in Hw as (Hp3 & Hst3 & He3 & Hdel3); [|by rewrite Hp2|by apply Hst2, Hst1].
  split; [done|]. split; [by eapply stays_trans; [exact Hst1|eapply stays_trans]|].
  split; [cbn [existsb]; by rewrite He3, He2, He1, orb_assoc|].
  intros k more. rewrite given_app, Hg, moves_cons, <- !app_assoc, Hdel3, Hp2. apply Hdel.
Qed.

Lemma renumber_queue es s : queue (renumber es s).2 = queue s.
Proof using Type. unfold renumber. destruct (negb _); [done|]. by destruct (renumber_loop _ _). Qed.

Lemma restore_window_queue es : forall s out s', restore_window format st es s = (inl out, s') -> queue s' = queue s.
Proof using Type.
  induction es as [|e es IH]; intros s out s'; cbn [restore_window]; [by intros [= _ <-]|].
  pose proof (transform_inner e s) as [_ Hq]. destruct (transform e s) as [[out1|err] s1]; [|done]. cbn [snd] in Hq.
  pose proof (renumber_queue out1 s1) as Hren. destruct (renumber out1 s1) as [[out2|err] s2]; [|done]. cbn [snd] in Hren.
  destruct (restore_window _ _ es s2) as [[rest|err] s3] eqn:Hw; [|done]. intros [= _ <-]. by rewrite (IH _ _ _ Hw), Hren.
Qed.

(** What the client hears of an answer: the window, and the stream up to the event
    that ends it. *)
Definition heard_of (resp : answer) : list (option StreamEvent) :=
  an_window resp ++ if an_last resp then [] else match an_events resp with Some (es, _) => heard es | None => [] end.

(** C31: however the events cut the texts of an answer, the client gets each text
    as [strings.Replacer] would have written the whole of it, every channel at its
    own place, and the stream ends.  [moves] says what the events of the upstream
    say of a channel; [given] what the events sent to the client say. *)
Theorem restored_stream_texts resp window s : opencodeAliasFormat format = true ->
  Forall event_in (an_window resp) -> Forall event_in (match an_events resp with Some (es, _) => es | None => [] end) ->
  (an_last resp = false -> existsb terminal (an_window resp) = false) ->
  applyOpencodeIdentityRestore resp format (Some st) = inl (RestoredStream window s) ->
  exists fuel out s', read_all fuel s = Some (out, s') /\
    (is_err s' = None -> forall k, given (window ++ out) k = restored_text pairs [] (moves (heard_of resp) k)).
Proof.
  intros Hfmt Hw Hin Hlast. unfold applyOpencodeIdentityRestore. rewrite Hfmt. cbn [negb].
  destruct (negb _ && _). { by destruct (restoreOpencodeAliasNonStream _ _ _). }
  unfold restore_stream. set (s0 := new_stream _ _).
  destruct (restore_window _ _ _ s0) as [[win|err] s1] eqn:Hwin; [|done].
  pose proof (restore_window_queue _ _ _ _ Hwin) as Hq1.
  apply restore_window_spec in Hwin as (Hp1 & Hst1 & He1 & Hdel1); [|done|apply map_Forall_empty|done].
  assert (Hn1 : numbering s1) by by apply Hst1. unfold heard_of.
  assert (Hmoves : forall es k, moves (an_window resp ++ es) k = moves (an_window resp) k ++ moves es k).
  { intros es k. unfold moves. by rewrite fmap_app, concat_app. }
  destruct (negb (an_last resp) && is_some (an_events resp)) eqn:Hmore.
  - apply andb_true_iff in Hmore as [Hl%negb_true_iff Hev]. intros [= <- <-]. destruct (read_all_ends s1) as [fuel [[out s'] Hr]].
    exists fuel, out, s'. split; [done|]. intros Herr k.
    assert (Hs1 : sound s1). { split; [done|done|]. unfold left_over. rewrite (stays_inner _ _ Hst1). cbn. done. }
    destruct (read_all_texts fuel s1 out s' Hs1 Hr Herr) as [_ Hg]. rewrite given_app, Hg. unfold owed.
    cbn [ended new_stream s0] in He1. rewrite Hq1, He1, Hl, Hlast, Hmoves by done. cbn [orb]. change (given (queue s0) k) with (@nil ascii). cbn [app].
    unfold left_over. rewrite (stays_inner _ _ Hst1). cbn [is_inner new_stream s0]. rewrite Hdel1.
    unfold waiting. cbn [pending new_stream s0]. rewrite lookup_empty. cbn [from_option]. destruct (an_events resp) as [[]|]; done.
  - destruct (flush_all (pending s1)) as [[out|err] p] eqn:Hf; [|done].
    destruct (renumber out _) as [[out2|err] s2] eqn:Hr; [|done]. intros [= <- <-].
    apply flush_all_spec in Hf as (_ & Hdocs & Hg); [|done].
    pose proof (renumber_queue out (upd_pending p s1)) as Hq2. rewrite Hr in Hq2. cbn [snd queue upd_pending] in Hq2.
    apply renumber_spec in Hr as (_ & _ & _ & _ & Hg2); [|done|done].
    exists 1%nat, [], (set_current None [] (set_ended s2)). split.
    { cbn [read_all]. unfold Next. cbn [queue set_ended ended]. rewrite Hq2, Hq1. cbn [queue new_stream s0 set_ended].
      by rewrite Hq2, Hq1. }
    intros _ k. rewrite app_nil_r, given_app, Hg2, Hmoves.
    assert (Hnone : moves (if an_last resp then [] else match an_events resp with Some (es, _) => heard es | None => [] end) k = []).
    { destruct (an_last resp); [done|]. by destruct (an_events resp) as [[]|]. }
    rewrite Hnone, Hg, Hdel1. unfold waiting. cbn [pending new_stream s0]. by rewrite lookup_empty.
Qed.
End restored.

(** ** A stream that cuts an alias *)

Definition some_alias : bytes := lit "opencode_abababababababababababababababab".
Definition one_name : gmap bytes bytes := {[ some_alias := lit "OpenCode" ]}.

Definition chat_piece (text : string) : option StreamEvent :=
  Some (mkEvent "" "" (String.concat ""
    ["{"; quoted "choices"; ":[{"; quoted "index"; ":0,"; quoted "delta"; ":{"; quoted "content"; ":"; quoted text; "}}]}"])).
Definition cut_answer : answer :=
  mkAnswer "" [chat_piece "I am opencode_ababab"]
    (Some ([chat_piece "ababababababababababababab"; chat_piece ", hi open"; Some (mkEvent "" "" "[DONE]")], None)) false.

Definition shown (es : list (option StreamEvent)) : bytes := given APIFormatOpenAIChatCompletion es (lit "chat:0:content").
Lemma one_name_shaped : alias_pairs (replacer (alias_state one_name)).
Proof.
  intros old new Hin%state_pairs. unfold one_name in Hin. apply lookup_singleton_Some in Hin as [<- _].
  exists (lit "abababababababababababababababab"). split; [done|]. split; [done|]. by repeat constructor.
Qed.
Lemma one_name_utf8 old new : (old, new) ∈ replacer (alias_state one_name) -> utf8_ok new.
Proof. intros Hin%state_pairs. unfold one_name in Hin. apply lookup_singleton_Some in Hin as [_ <-]. by apply lit_ok. Qed.

Lemma piece_in text : ValidBytes (ev_Data (default (mkEvent "" "" "") (chat_piece text))) = true ->
  event_in APIFormatOpenAIChatCompletion (chat_piece text).
Proof. intros Hv. split; [by intros ?; apply valid_whole|done]. Qed.

(** What is kept back is released when the stream ends. *)
Lemma restored_stream_texts_witness : exists window s fuel out s',
  applyOpencodeIdentityRestore cut_answer APIFormatOpenAIChatCompletion (Some (alias_state one_name)) = inl (RestoredStream window s) /\
  shown window = lit "I am " /\
  read_all APIFormatOpenAIChatCompletion one_name fuel s = Some (out, s') /\
  (is_err s' = None -> shown (window ++ out) = lit "I am OpenCode, hi open").
Proof.
  assert (Hwin : match applyOpencodeIdentityRestore cut_answer APIFormatOpenAIChatCompletion (Some (alias_state one_name)) with
    inl (RestoredStream window _) => bool_decide (shown window = lit "I am ") | _ => false end = true) by by vm_compute.
  destruct (applyOpencodeIdentityRestore cut_answer APIFormatOpenAIChatCompletion (Some (alias_state one_name))) as [[| |window s]|] eqn:Ha; [done..| |done].
  destruct (restored_stream_texts APIFormatOpenAIChatCompletion one_name one_name_shaped one_name_utf8 cut_answer window s)
    as (fuel & out & s' & Hr & Ht).
  - done.
  - constructor; [|done]. apply piece_in. by vm_compute.
  - constructor; [apply piece_in; by vm_compute|]. constructor; [apply piece_in; by vm_compute|]. constructor; [|done].
    split; [|done]. intros Hv. vm_compute in Hv. discriminate.
  - intros _. by vm_compute.
  - exact Ha.
  - exists window, s, fuel, out, s'. split; [done|]. split; [by apply bool_decide_eq_true in Hwin|]. split; [exact Hr|].
    intros He. unfold shown. rewrite (Ht He). by vm_compute.
Defined.
