(* ===== verification/OcTools.v ===== *)
(** * Tools under other names

    relay/opencode_tool_alias.go: the tools of a client are sent under opaque names,
    behind the definitions of the official client, and calls come back under the
    names the client knows; calls of official tools are turned into calls of the
    tools the client declared. *)

From Stdlib Require Import Ascii String.
From S2P Require Import Prelude GoStrings GoInts Utf8 MaskText GoJson RuneBytes GoJsonThms Boundaries OcReplacer Gjson OcAlias OcAliasThms.
Local Open Scope Z_scope.
Local Open Scope list_scope.

(** ** Equality of definitions *)

#[export] Instance json_eq_dec : EqDecision json.
Proof.
  refine (fix go (v w : json) : Decision (v = w) :=
    match v, w with
    | JNull, JNull => left eq_refl
    | JBool a, JBool b => cast_if (decide (a = b))
    | JNum a, JNum b => cast_if (decide (a = b))
    | JStr a, JStr b => cast_if (decide (a = b))
    | JArr a, JArr b => cast_if (@list_eq_dec _ go a b)
    | JObj a, JObj b => cast_if (@list_eq_dec _ (@prod_eq_dec _ _ _ go) a b)
    | _, _ => right _
    end); clear go; congruence.
Defined.

(** What [json.Decoder] makes of a value, with the members of an object by key: of
    repeated keys the last one counts. *)
Definition members (kvs : list (bytes * json)) : list (bytes * json) :=
  map_to_list (list_to_map (M := gmap bytes json) (rev kvs)).
Fixpoint decoded (v : json) : json :=
  match v with
  | JStr s => JStr (to_valid s)
  | JArr l => JArr (decoded <$> l)
  | JObj kvs => JObj (members ((fun kv => (to_valid kv.1, decoded kv.2)) <$> kvs))
  | _ => v
  end.
Definition ocToolDefinitionsEqual (left right : json) : bool :=
  (nesting left <=? maxNestingDepth)%nat && (nesting right <=? maxNestingDepth)%nat &&
  bool_decide (decoded left = decoded right).

(** ** Names *)

Definition ocToolAliasPrefix : bytes := lit "clint_".
Definition ocToolDigestLen : nat := 12.

Definition ocToolAliasWhitelist : list string :=
  ["pwsh"; "read_image"; "subagent"; "subagent_fork"; "send_message"; "list_agents"; "interrupt_agent"; "todo_write";
   "web_fetch"; "web_search"; "ask_user_question"; "exit_plan_mode"; "working_directory";
   "Image"; "Write"; "Edit"; "Delete"; "List"; "Glob"; "Grep"; "Bash"; "ProcessWait"; "ProcessStop"; "ManagedProcess";
   "SendMessage"; "TaskCreate"; "TaskUpdate"; "TaskList"; "AskUserQuestion"; "Agent";
   "exec_command"; "write_stdin"; "request_user_input"; "view_image"; "multi_agent_v1__close_agent";
   "multi_agent_v1__resume_agent"; "multi_agent_v1__send_input"; "multi_agent_v1__spawn_agent"; "multi_agent_v1__wait_agent";
   "EnterPlanMode"; "ExitPlanMode"; "EnterWorktree"; "ExitWorktree"; "ListAgents"; "NotebookEdit"; "TaskStop"; "WebFetch";
   "WebSearch"; "Workflow"; "Skill";
   "bash"; "find"; "ls"; "todo"; "plan_mode_question"; "plan_mode_complete"; "source_check"; "fetch_content"; "get_search_content"].
Definition whitelisted (name : bytes) : bool := existsb (fun s => bool_decide (name = lit s)) ocToolAliasWhitelist.

Definition ocToolIsWireName (name : bytes) : bool :=
  match strip ocToolAliasPrefix name with
  | Some digest =>
      (ocToolDigestLen <=? length digest)%nat && forallb (Ascii.eqb "_") (drop ocToolDigestLen digest) &&
      forallb is_hex (take ocToolDigestLen digest)
  | None => false
  end.

(** The loop that appends underscores until the name is free. *)
Fixpoint unused (fuel : nat) (taken : gset bytes) (name : bytes) : bytes :=
  match fuel with
  | O => name
  | S fuel => if decide (name ∈ taken) then unused fuel taken (name ++ lit "_") else name
  end.

Section tools.
Context `{Gjson}.
Variable Sum256 : bytes -> bytes.

Definition ocToolWireName (name : bytes) : bytes := ocToolAliasPrefix ++ take ocToolDigestLen (hex_encode (Sum256 name)).

Definition tool_name (tool : json) : bytes := Str (get [key "function"; key "name"] tool).

Definition ocToolRename (tool : json) (taken : gset bytes) (aliases : gmap bytes bytes) : option (json * gset bytes * gmap bytes bytes) :=
  let name := tool_name tool in
  let renamed := unused (S (size taken)) taken (ocToolWireName name) in
  next ← set_at [key "function"; key "name"] (JStr renamed) tool;
  Some (next, {[renamed]} ∪ taken, <[renamed := name]> aliases).

(** ** References to tools *)

Definition rewriteToolNameAt (names : gmap bytes bytes) (body : string) (p : path) : string :=
  match GetBytes body p with
  | Some (JStr name) =>
      match names !! name with
      | Some replacement =>
          if bool_decide (replacement = name) then body else default body (SetBytes body p (JStr replacement))
      | None => body
      end
  | _ => body
  end.
Definition rewrite_all (names : gmap bytes bytes) (ps : list path) (body : string) : string :=
  foldl (rewriteToolNameAt names) body ps.

(** Of the names under which a tool is sent, the first one in the order of strings. *)
Definition reverse_names (aliases : gmap bytes bytes) : gmap bytes bytes :=
  map_fold (fun outbound client reverse =>
    match reverse !! client with
    | Some prior => if String.ltb (soa outbound) (soa prior) then <[client := outbound]> reverse else reverse
    | None => <[client := outbound]> reverse
    end) ∅ aliases.

Definition kind_is (v : json) (kinds : list string) : bool := existsb (StrIs (get [key "type"] v)) kinds.
Definition isOpencodeToolCall (item : json) : bool := kind_is item ["function_call"; "custom_tool_call"].

Definition choice_references (choice : Result) : list path :=
  let kind (s : string) := StrIs (Get choice [key "type"]) s in
  if kind "function" || kind "custom" || kind "tool" then [[key "tool_choice"; key "name"]]
  else if kind "allowed_tools" then
    concat (imap (fun i tool => if kind_is tool ["function"; "custom"] then [[key "tool_choice"; key "tools"; Idx i; key "name"]] else [])
      (Array (Get choice [key "tools"]))) ++
    concat (imap (fun i tool => if kind_is tool ["function"]
                                then [[key "tool_choice"; key "allowed_tools"; key "tools"; Idx i; key "function"; key "name"]] else [])
      (Array (Get choice [key "allowed_tools"; key "tools"])))
  else [].
Definition message_references (i : nat) (msg : json) : list path :=
  imap (fun j _ => [key "messages"; Idx i; key "tool_calls"; Idx j; key "function"; key "name"]) (Array (get [key "tool_calls"] msg)) ++
  concat (imap (fun j block => if kind_is block ["tool_use"] then [[key "messages"; Idx i; key "content"; Idx j; key "name"]] else [])
    (Array (get [key "content"] msg))) ++
  (let role := get [key "role"] msg in
   if StrIs role "tool" || StrIs role "function" then [[key "messages"; Idx i; key "name"]] else []).
(** The calls among the items of an array. *)
Definition item_calls (base : path) (items : Result) : list path :=
  concat (imap (fun i item => if isOpencodeToolCall item then [base ++ [Idx i; key "name"]] else []) (Array items)).

(** The calls of the choices of an answer, or of a piece of it. *)
Definition choice_calls (part : string) (choices : Result) : list path :=
  concat (imap (fun i choice =>
    imap (fun j _ => [key "choices"; Idx i; key part; key "tool_calls"; Idx j; key "function"; key "name"])
      (Array (get [key part; key "tool_calls"] choice))) (Array choices)).
Definition content_calls (content : Result) : list path :=
  concat (imap (fun i block => if kind_is block ["tool_use"] then [[key "content"; Idx i; key "name"]] else []) (Array content)).

Definition rewriteToolReferences (body : string) (aliases : gmap bytes bytes) : string :=
  if bool_decide (aliases = ∅) then body else
  let names := reverse_names aliases in
  let out := rewriteToolNameAt names body [key "tool_choice"; key "function"; key "name"] in
  let out := rewrite_all names (choice_references (GetBytes out [key "tool_choice"])) out in
  let out := rewrite_all names (concat (imap message_references (Array (GetBytes out [key "messages"])))) out in
  rewrite_all names (item_calls [key "input"] (GetBytes out [key "input"])) out.

(** ** The tools of a request *)

Record sorted_tools := mkSorted { st_present : gset bytes; st_duplicate : bool; st_whitelisted : list json; st_rest : list json }.

Definition sort_tool (officialTools : gmap bytes json) (st : sorted_tools) (tool : json) : sorted_tools :=
  let name := tool_name tool in
  match officialTools !! name with
  | Some exact =>
      if ocToolDefinitionsEqual tool exact
      then mkSorted ({[name]} ∪ st_present st) (st_duplicate st || bool_decide (name ∈ st_present st)) (st_whitelisted st) (st_rest st)
      else if whitelisted name
           then mkSorted (st_present st) (st_duplicate st) (st_whitelisted st ++ [tool]) (st_rest st)
           else mkSorted (st_present st) (st_duplicate st) (st_whitelisted st) (st_rest st ++ [tool])
  | None =>
      if whitelisted name
      then mkSorted (st_present st) (st_duplicate st) (st_whitelisted st ++ [tool]) (st_rest st)
      else mkSorted (st_present st) (st_duplicate st) (st_whitelisted st) (st_rest st ++ [tool])
  end.

(** A tool that keeps its name: no function, without a name, or under an opaque one. *)
Definition keeps_name (tool : json) : bool :=
  let name := get [key "function"; key "name"] tool in
  negb (StrIs (get [key "type"] tool) "function") || negb (IsString name) || StrIs name "" || ocToolIsWireName (Str name).

Fixpoint rename_tools (tools : list json) (taken : gset bytes) (aliases : gmap bytes bytes) : option (list json * gmap bytes bytes) :=
  match tools with
  | [] => Some ([], aliases)
  | tool :: tools =>
      if keeps_name tool then '(items, aliases) ← rename_tools tools taken aliases; Some (tool :: items, aliases)
      else
        '(item, taken, aliases) ← ocToolRename tool taken aliases;
        '(items, aliases) ← rename_tools tools taken aliases;
        Some (item :: items, aliases)
  end.

(** [official]: the tools of the template of the lane, if it can be read. *)
Definition ensureOfficialToolset (official : option (list json)) (body : string) : string * gmap bytes bytes :=
  match official with
  | None => (body, ∅)
  | Some official =>
      let officialTools := foldl (fun m tool => <[tool_name tool := tool]> m) (∅ : gmap bytes json) official in
      let tools := GetBytes body [key "tools"] in
      if Exists tools && negb (IsArray tools) then (body, ∅) else
      let taken : gset bytes := list_to_set (tool_name <$> official) ∪ list_to_set (filter (.≠ []) (tool_name <$> Array tools)) in
      let st := foldl (sort_tool officialTools) (mkSorted ∅ false [] []) (Array tools) in
      match rename_tools (st_whitelisted st ++ st_rest st) taken ∅ with
      | None => (body, ∅)
      | Some (clientItems, aliases) =>
          if bool_decide (aliases = ∅) && (size (st_present st) =? size officialTools)%nat && negb (st_duplicate st) then (body, ∅) else
          match SetRawBytes body [key "tools"] (JArr (official ++ clientItems)) with
          | None => (body, ∅)
          | Some out => (rewriteToolReferences out aliases, aliases)
          end
      end
  end.

(** ** Calls that come back *)

Definition restoreToolAliasesInBody (body : string) (aliases : gmap bytes bytes) : string :=
  if bool_decide (aliases = ∅) then body else
  let out := rewrite_all aliases (choice_calls "message" (GetBytes body [key "choices"])) body in
  let out := rewrite_all aliases (content_calls (GetBytes out [key "content"])) out in
  rewrite_all aliases (item_calls [key "output"] (GetBytes out [key "output"])) out.

Definition restoreToolAliasesInEvent (data : string) (aliases : gmap bytes bytes) : string :=
  if bool_decide (aliases = ∅) || bool_decide (data = ""%string) then data else
  let out := restoreToolAliasesInBody data aliases in
  let out := rewrite_all aliases (choice_calls "delta" (GetBytes out [key "choices"])) out in
  let out := if StrIs (GetBytes out [key "content_block"; key "type"]) "tool_use"
             then rewriteToolNameAt aliases out [key "content_block"; key "name"] else out in
  let out := if from_option isOpencodeToolCall false (GetBytes out [key "item"])
             then rewriteToolNameAt aliases out [key "item"; key "name"] else out in
  rewrite_all aliases (item_calls [key "response"; key "output"] (GetBytes out [key "response"; key "output"])) out.
End tools.

(** ** Free names *)

Lemma unused_form fuel taken name : exists k, unused fuel taken name = name ++ repeat "_"%char k.
Proof.
  revert name. induction fuel as [|fuel IH]; intros name; cbn [unused]; [exists 0%nat; by rewrite app_nil_r|].
  case_decide; [|exists 0%nat; by rewrite app_nil_r]. destruct (IH (name ++ lit "_")) as [k ->]. exists (S k). by rewrite <- app_assoc.
Qed.

Lemma unused_hits fuel taken name : unused fuel taken name ∈ taken -> forall k, (k <= fuel)%nat -> name ++ repeat "_"%char k ∈ taken.
Proof.
  revert name. induction fuel as [|fuel IH]; intros name; cbn [unused].
  { intros Hn k Hk. replace k with 0%nat by lia. by rewrite app_nil_r. }
  case_decide as Hn; [|done]. intros Hu [|k] Hk; [by rewrite app_nil_r|].
  specialize (IH _ Hu k ltac:(lia)). by rewrite <- app_assoc in IH.
Qed.

(** One more try than there are names is enough. *)
Lemma unused_fresh taken name : unused (S (size taken)) taken name ∉ taken.
Proof.
  intros Hu. pose proof (unused_hits _ _ _ Hu) as Hall.
  set (l := (fun k => name ++ repeat "_"%char k) <$> seq 0 (S (S (size taken)))).
  assert (Hl : NoDup l).
  { apply NoDup_fmap_2; [|apply NoDup_ListNoDup, seq_NoDup]. intros i j Heq%app_inv_head.
    apply (f_equal length) in Heq. by rewrite !repeat_length in Heq. }
  assert (Hsub : list_to_set (C := gset bytes) l ⊆ taken).
  { intros x (k & -> & Hk%elem_of_seq)%elem_of_list_to_set%list_elem_of_fmap. apply Hall. lia. }
  apply subseteq_size in Hsub. rewrite size_list_to_set in Hsub by done. unfold l in Hsub. rewrite length_fmap, length_seq in Hsub. lia.
Qed.

Section thms.
Context `{Gjson}.
Variable Sum256 : bytes -> bytes.
Hypothesis Sum256_length : forall x, length (Sum256 x) = 32%nat.

Lemma wire_name_opaque name k : ocToolIsWireName (ocToolWireName Sum256 name ++ repeat "_"%char k) = true.
Proof using Sum256_length.
  unfold ocToolWireName, ocToolIsWireName. rewrite <- app_assoc. rewrite (proj2 (strip_app_iff _ _ _) eq_refl).
  destruct (hex_encode_spec (Sum256 name)) as [Hl Hf]. rewrite Sum256_length in Hl.
  set (d := take ocToolDigestLen (hex_encode (Sum256 name))).
  assert (Hd : length d = ocToolDigestLen) by (unfold d; rewrite length_firstn, Hl; done).
  rewrite <- Hd, take_app_length, drop_app_length. rewrite !andb_true_iff. split; [split|].
  - apply Nat.leb_le. rewrite length_app. lia.
  - apply forallb_forall. intros x Hx%repeat_spec. by subst.
  - apply forallb_forall. intros x Hx%list_elem_of_In. rewrite Forall_forall in Hf. apply Hf. unfold d in Hx.
    eapply subseteq_take. exact Hx.
Qed.

End thms.

Section rewriting.
Context `{Gjson}.

(** ** Rewriting names *)

(** Names are the texts under this key; the others lead to them. *)
Definition name_key (k : bytes) : bool := bool_decide (k = lit "name").
Definition way_key (k : bytes) : bool :=
  existsb (fun s => bool_decide (k = lit s))
    ["choices"; "message"; "messages"; "delta"; "tool_calls"; "function"; "content"; "content_block"; "item"; "response"; "output";
     "input"; "tool_choice"; "tools"; "allowed_tools"] || forallb is_digit k.
Notation nameless := (erase name_key way_key false).
Notation name_path p := (path_ok p /\ way_ok name_key way_key p /\ last_text name_key p).
Lemma way_digits k : forallb is_digit k = true -> way_key k = true.
Proof using Type. intros Hk. unfold way_key. by rewrite Hk, orb_true_r. Qed.

Definition renamed (names : gmap bytes bytes) (r : Result) : Result :=
  match r with Some (JStr n) => Some (JStr (default n (names !! n))) | _ => r end.
Definition names_whole (names : gmap bytes bytes) : Prop := map_Forall (fun _ w => utf8_ok w) names.
(** [out] is [body] with the names at [ps] replaced. *)
Record rewritten (names : gmap bytes bytes) (ps : list path) (body out : string) : Prop := {
  rw_valid : ValidBytes out = true;
  rw_shape : nameless (ParseBytes out) = nameless (ParseBytes body);
  rw_names : forall p, p ∈ ps -> GetBytes out p = renamed names (GetBytes body p);
  rw_rest : forall q, Forall (fun p => diverge p q) ps -> GetBytes out q = GetBytes body q }.

Lemma rewritten_nothing names body : ValidBytes body = true -> rewritten names [] body body.
Proof using Type. intros Hv. split; [done|done| |done]. by intros p ?%elem_of_nil. Qed.

Lemma rewrite_at_spec names body p : names_whole names -> ValidBytes body = true -> name_path p ->
  rewritten names [p] body (rewriteToolNameAt names body p).
Proof using Type.
  intros Hn Hv (Hp & Hway & Hlast). unfold rewriteToolNameAt. destruct (GetBytes body p) as [[| | |name| |]|] eqn:Hg;
    try (split; [done|done| |done]; intros q ->%list_elem_of_singleton; by rewrite Hg).
  destruct (names !! name) as [w|] eqn:Hw.
  2: { split; [done|done| |done]. intros q ->%list_elem_of_singleton. rewrite Hg. cbn. by rewrite Hw. }
  case_bool_decide as Hsame.
  { split; [done|done| |done]. intros q ->%list_elem_of_singleton. rewrite Hg. cbn. by rewrite Hw, Hsame. }
  pose proof (Hn _ _ Hw) as Hu. cbn in Hu. unfold GetBytes in Hg. destruct (set_at_some p (JStr w) _ _ Hg) as [v Hs].
  destruct (SetBytes_ok body p (JStr w) v) as (out & -> & Hvo & Hpo); [done|done|done|by cbn [cleaned]; rewrite to_valid_id|].
  change (default body (Some out)) with out. split; [done| | |].
  - rewrite Hpo. by eapply (erase_set way_digits).
  - intros q ->%list_elem_of_singleton. unfold GetBytes. rewrite Hpo, Hg, (set_at_spec _ _ _ _ Hs). cbn. by rewrite Hw.
  - intros q [Hd _]%Forall_cons. unfold GetBytes. rewrite Hpo. by eapply set_at_other.
Qed.

Lemma rewritten_app names ps qs body mid out : rewritten names ps body mid -> rewritten names qs mid out ->
  (forall p q, p ∈ ps -> q ∈ qs -> diverge p q) -> rewritten names (ps ++ qs) body out.
Proof using Type.
  intros [Hv1 Ho1 Hn1 Hr1] [Hv2 Ho2 Hn2 Hr2] Hd. split; [done|by rewrite Ho2| |].
  - intros p [Hp|Hp]%elem_of_app.
    + rewrite <- Hn1 by done. apply Hr2, Forall_forall. intros q Hq. apply diverge_sym. by apply Hd.
    + rewrite Hn2 by done. f_equal. apply Hr1, Forall_forall. intros q Hq. by apply Hd.
  - intros q [Hp Hq]%Forall_app. by rewrite Hr2, Hr1.
Qed.

Lemma rewrite_all_spec names ps : names_whole names -> Forall (fun p => name_path p) ps -> ForallOrdPairs diverge ps ->
  forall body, ValidBytes body = true -> rewritten names ps body (rewrite_all names ps body).
Proof using Type.
  intros Hn Hps Hd. induction Hd as [|p ps Hp Hd IH]; intros body Hv; [by apply rewritten_nothing|].
  apply Forall_cons in Hps as [Hpok Hps]. cbn [rewrite_all foldl]. pose proof (rewrite_at_spec names body p Hn Hv Hpok) as H1.
  apply (rewritten_app names [p] ps _ _ _ H1); [apply IH; [done|apply H1]|].
  intros x q ->%list_elem_of_singleton Hq. by eapply Forall_forall in Hp.
Qed.

(** ** Where the names are *)

Lemma kind_nameless v kinds : kind_is (nameless v) kinds = kind_is v kinds.
Proof using Type. unfold kind_is. by rewrite get_kept. Qed.

Lemma get_way ps v : Forall (fun s => name_key (lit s) = false /\ way_key (lit s) = true) ps ->
  get (key <$> ps) (nameless v) = (fun w => nameless w) <$> get (key <$> ps) v.
Proof using Type.
  intros Hps. revert v. induction Hps as [|s ps [Hn Hw] _ IH]; intros v; [done|]. cbn [fmap list_fmap].
  rewrite get_walk by done. cbn [get]. destruct (child (key s) v) as [u|]; [|done]. cbn. apply IH.
Qed.

Lemma calls_nameless base v (Hb : Forall (fun s => name_key (lit s) = false /\ way_key (lit s) = true) base) :
  item_calls (key <$> base) (get (key <$> base) (nameless v)) = item_calls (key <$> base) (get (key <$> base) v).
Proof using Type.
  unfold item_calls. rewrite get_way, Array_erase, imap_fmap by done. f_equal. apply imap_ext. intros i x _.
  unfold compose, isOpencodeToolCall. by rewrite kind_nameless.
Qed.

Lemma item_calls_in base r p : p ∈ item_calls base r -> exists i, p = base ++ [Idx i; key "name"].
Proof using Type.
  intros (i & x & _ & Hp)%elem_of_concat_imap. destruct (isOpencodeToolCall x); [|by apply elem_of_nil in Hp].
  apply list_elem_of_singleton in Hp as ->. by eexists.
Qed.

Lemma item_calls_paths base r : path_ok base -> way_ok name_key way_key base ->
  Forall (fun p => name_path p) (item_calls base r) /\ ForallOrdPairs diverge (item_calls base r).
Proof using Type.
  intros Hb Hw. split.
  - apply Forall_forall. intros p (i & ->)%item_calls_in. split; [by path_ok_tac|].
    split; [apply Forall_app; split; [done|by repeat constructor]|]. by exists (base ++ [Idx i]), "name"%string; rewrite <- app_assoc.
  - apply (imap_diverge _ base).
    + intros i x. destruct (isOpencodeToolCall x); by repeat constructor.
    + intros i x p. destruct (isOpencodeToolCall x); [|by intros ?%elem_of_nil]. intros ->%list_elem_of_singleton. by eexists.
Qed.

(** Places that depend on the shape of a document only. *)
Record places_of (F : json -> list path) : Prop := {
  po_shape : forall v, F (nameless v) = F v;
  po_paths : forall v, Forall (fun p => name_path p) (F v);
  po_apart : forall v, ForallOrdPairs diverge (F v) }.

Lemma rewrite_stage names F ps body mid : names_whole names -> places_of F -> rewritten names ps body mid ->
  (forall p q, p ∈ ps -> q ∈ F (ParseBytes body) -> diverge p q) ->
  rewritten names (ps ++ F (ParseBytes body)) body (rewrite_all names (F (ParseBytes mid)) mid).
Proof using Type.
  intros Hn [Hs Hp Ha] Hmid Hd. assert (HF : F (ParseBytes mid) = F (ParseBytes body)) by by rewrite <- Hs, (rw_shape _ _ _ _ Hmid), Hs.
  rewrite HF. eapply rewritten_app; [exact Hmid| |done]. apply rewrite_all_spec; [done..|apply Hmid].
Qed.

Lemma imap_singles {A B} (g : nat -> A -> B) l : imap g l = concat (imap (fun i x => [g i x]) l).
Proof using Type. revert g. induction l as [|x l IH]; intros g; cbn; [done|]. by rewrite IH. Qed.

Lemma choice_calls_in part r p : p ∈ choice_calls part r ->
  exists i j, p = [key "choices"; Idx i; key part; key "tool_calls"; Idx j; key "function"; key "name"].
Proof using Type.
  intros (i & c & _ & Hp)%elem_of_concat_imap. apply elem_of_lookup_imap in Hp as (j & x & -> & _). by eexists _, _.
Qed.

Lemma choice_calls_places part : part = "message"%string \/ part = "delta"%string -> places_of (fun v => choice_calls part (get [key "choices"] v)).
Proof using Type.
  intros Hpart. assert (Hk : name_key (lit part) = false /\ way_key (lit part) = true) by by destruct Hpart as [->| ->].
  split; intros v.
  - unfold choice_calls. rewrite (get_way ["choices"%string]), Array_erase, imap_fmap by by repeat constructor. f_equal.
    apply imap_ext. intros i c _. unfold compose. rewrite (get_way [part; "tool_calls"%string]), Array_erase, imap_fmap by (constructor; [exact Hk|by repeat constructor]).
    done.
  - apply Forall_forall. intros p (i & j & ->)%choice_calls_in. destruct Hpart as [->| ->];
      (split; [by path_ok_tac|split; [by repeat constructor|by eexists [_; _; _; _; _; _], _]]).
  - apply (imap_diverge _ [key "choices"]).
    + intros i c. rewrite imap_singles. apply (imap_diverge _ [key "choices"; Idx i; key part; key "tool_calls"]).
      * intros j x. by repeat constructor.
      * intros j x p ->%list_elem_of_singleton. by eexists.
    + intros i c p (j & x & -> & _)%elem_of_lookup_imap. by eexists.
Qed.

Lemma content_calls_in r p : p ∈ content_calls r -> exists i, p = [key "content"; Idx i; key "name"].
Proof using Type.
  intros (i & b & _ & Hp)%elem_of_concat_imap. destruct (kind_is b _); [|by apply elem_of_nil in Hp].
  apply list_elem_of_singleton in Hp as ->. by eexists.
Qed.
Lemma content_calls_places : places_of (fun v => content_calls (get [key "content"] v)).
Proof using Type.
  split; intros v.
  - unfold content_calls. rewrite (get_way ["content"%string]), Array_erase, imap_fmap by by repeat constructor. f_equal.
    apply imap_ext. intros i b _. unfold compose. by rewrite kind_nameless.
  - apply Forall_forall. intros p (i & ->)%content_calls_in. split; [by path_ok_tac|split; [by repeat constructor|by eexists [_; _], _]].
  - apply (imap_diverge _ [key "content"]).
    + intros i b. destruct (kind_is b _); by repeat constructor.
    + intros i b p. destruct (kind_is b _); [|by intros ?%elem_of_nil]. intros ->%list_elem_of_singleton. by eexists.
Qed.

Lemma item_calls_places base : path_ok (key <$> base) -> Forall (fun s => name_key (lit s) = false /\ way_key (lit s) = true) base ->
  places_of (fun v => item_calls (key <$> base) (get (key <$> base) v)).
Proof using Type.
  intros Hok Hb. assert (Hway : way_ok name_key way_key (key <$> base)).
  { apply Forall_fmap. eapply Forall_impl; [exact Hb|]. intros s [_ Hs]. cbn. by rewrite Hs, orb_true_r. }
  split; intros v; [by apply calls_nameless|by apply item_calls_paths..].
Qed.

Lemma message_references_in i msg p : p ∈ message_references i msg -> exists q, p = [key "messages"; Idx i] ++ q /\
  (q = [key "name"] \/ exists j, q = [key "tool_calls"; Idx j; key "function"; key "name"] \/ q = [key "content"; Idx j; key "name"]).
Proof using Type.
  unfold message_references. rewrite !elem_of_app. intros [Hp|[Hp|Hp]].
  - apply elem_of_lookup_imap in Hp as (j & x & -> & _). eexists. split; [reflexivity|]. right. exists j. by left.
  - apply elem_of_concat_imap in Hp as (j & b & _ & Hp). destruct (kind_is b _); [|by apply elem_of_nil in Hp].
    apply list_elem_of_singleton in Hp as ->. eexists. split; [reflexivity|]. right. exists j. by right.
  - destruct (_ || _); [|by apply elem_of_nil in Hp]. apply list_elem_of_singleton in Hp as ->. eexists. split; [reflexivity|by left].
Qed.

Lemma message_apart i msg : ForallOrdPairs diverge (message_references i msg).
Proof using Type.
  unfold message_references. set (base := [key "messages"; Idx i]). apply ordpairs_app.
  - rewrite imap_singles. apply (imap_diverge _ (base ++ [key "tool_calls"])).
    + intros j x. by repeat constructor.
    + intros j x p ->%list_elem_of_singleton. by eexists.
  - apply ordpairs_app.
    + apply (imap_diverge _ (base ++ [key "content"])).
      * intros j b. destruct (kind_is b _); by repeat constructor.
      * intros j b p. destruct (kind_is b _); [|by intros ?%elem_of_nil]. intros ->%list_elem_of_singleton. by eexists.
    + destruct (_ || _); by repeat constructor.
    + intros p q (j & b & _ & Hp)%elem_of_concat_imap Hq. destruct (kind_is b _); [|by apply elem_of_nil in Hp].
      apply list_elem_of_singleton in Hp as ->. destruct (_ || _); [|by apply elem_of_nil in Hq].
      apply list_elem_of_singleton in Hq as ->. by apply (diverge_app base), diverge_here.
  - intros p q (j & x & -> & _)%elem_of_lookup_imap [Hq|Hq]%elem_of_app.
    + apply elem_of_concat_imap in Hq as (k & b & _ & Hq). destruct (kind_is b _); [|by apply elem_of_nil in Hq].
      apply list_elem_of_singleton in Hq as ->. by apply (diverge_app base), diverge_here.
    + destruct (_ || _); [|by apply elem_of_nil in Hq]. apply list_elem_of_singleton in Hq as ->. by apply (diverge_app base), diverge_here.
Qed.

Definition messages_references (v : json) : list path := concat (imap message_references (Array (get [key "messages"] v))).
Lemma messages_places : places_of messages_references.
Proof using Type.
  split; intros v.
  - unfold messages_references. rewrite (get_way ["messages"%string]), Array_erase, imap_fmap by by repeat constructor. f_equal.
    apply imap_ext. intros i msg _. unfold compose, message_references.
    rewrite (get_way ["tool_calls"%string]), (get_way ["content"%string]), !Array_erase, !imap_fmap, get_kept by by repeat constructor.
    f_equal. f_equal. f_equal. apply imap_ext. intros j b _. unfold compose. by rewrite kind_nameless.
  - apply Forall_forall. intros p (i & msg & _ & (q & -> & Hq)%message_references_in)%elem_of_concat_imap.
    destruct Hq as [->|[j [->| ->]]].
    + split; [by path_ok_tac|split; [by repeat constructor|by eexists [_; _], _]].
    + split; [by path_ok_tac|split; [by repeat constructor|by eexists [_; _; _; _; _], _]].
    + split; [by path_ok_tac|split; [by repeat constructor|by eexists [_; _; _; _], _]].
  - apply (imap_diverge _ [key "messages"]); [intros; apply message_apart|].
    intros i msg p (q & -> & _)%message_references_in. by eexists.
Qed.

(** The references of [tool_choice]. *)
Lemma choice_references_in r p : p ∈ choice_references r -> exists q, p = key "tool_choice" :: q /\
  (q = [key "name"] \/ exists i, q = [key "tools"; Idx i; key "name"] \/ q = [key "allowed_tools"; key "tools"; Idx i; key "function"; key "name"]).
Proof using Type.
  unfold choice_references. destruct (_ || _ || _).
  { intros ->%list_elem_of_singleton. eexists. split; [reflexivity|by left]. }
  destruct (StrIs _ _); [|by intros ?%elem_of_nil]. intros [(i & x & _ & Hp)%elem_of_concat_imap|(i & x & _ & Hp)%elem_of_concat_imap]%elem_of_app;
    (destruct (kind_is x _); [|by apply elem_of_nil in Hp]); apply list_elem_of_singleton in Hp as ->;
    (eexists; split; [reflexivity|right; exists i; by auto]).
Qed.

Definition tool_choice_references (v : json) : list path := choice_references (get [key "tool_choice"] v).
Lemma tool_choice_places : places_of tool_choice_references.
Proof using Type.
  split; intros v.
  - unfold tool_choice_references.
    pose proof (get_way ["tool_choice"%string] v ltac:(by repeat constructor)) as Hget. cbn [fmap list_fmap] in Hget. rewrite Hget. clear Hget.
    destruct (get [key "tool_choice"] v) as [c|]; [|done]. cbn [fmap option_fmap option_map].
    unfold choice_references. cbn [Get mbind option_bind]. rewrite get_kept by done. destruct (_ || _ || _); [done|].
    destruct (StrIs _ _); [|done].
    rewrite (get_way ["tools"%string]), (get_way ["allowed_tools"; "tools"]%string), !Array_erase, !imap_fmap by by repeat constructor.
    f_equal; f_equal; apply imap_ext; intros i x _; unfold compose; by rewrite kind_nameless.
  - apply Forall_forall. intros p (q & -> & [->|[i [->| ->]]])%choice_references_in.
    + split; [by path_ok_tac|split; [by repeat constructor|by eexists [_], _]].
    + split; [by path_ok_tac|split; [by repeat constructor|by eexists [_; _; _], _]].
    + split; [by path_ok_tac|split; [by repeat constructor|by eexists [_; _; _; _; _], _]].
  - unfold tool_choice_references, choice_references. destruct (_ || _ || _); [by repeat constructor|].
    destruct (StrIs _ _); [|constructor]. apply ordpairs_app.
    + apply (imap_diverge _ [key "tool_choice"; key "tools"]).
      * intros i x. destruct (kind_is x _); by repeat constructor.
      * intros i x p. destruct (kind_is x _); [|by intros ?%elem_of_nil]. intros ->%list_elem_of_singleton. by eexists.
    + apply (imap_diverge _ [key "tool_choice"; key "allowed_tools"; key "tools"]).
      * intros i x. destruct (kind_is x _); by repeat constructor.
      * intros i x p. destruct (kind_is x _); [|by intros ?%elem_of_nil]. intros ->%list_elem_of_singleton. by eexists.
    + intros p q (i & x & _ & Hp)%elem_of_concat_imap (j & y & _ & Hq)%elem_of_concat_imap.
      destruct (kind_is x _); [|by apply elem_of_nil in Hp]. destruct (kind_is y _); [|by apply elem_of_nil in Hq].
      apply list_elem_of_singleton in Hp as ->. apply list_elem_of_singleton in Hq as ->.
      by apply (diverge_app [key "tool_choice"]), diverge_here.
Qed.

(** ** The three rewritings *)

Definition request_references (v : json) : list path :=
  [key "tool_choice"; key "function"; key "name"] :: tool_choice_references v ++ messages_references v ++
  item_calls [key "input"] (get [key "input"] v).
Definition answer_calls (v : json) : list path :=
  choice_calls "message" (get [key "choices"] v) ++ content_calls (get [key "content"] v) ++
  item_calls [key "output"] (get [key "output"] v).
Definition event_calls (v : json) : list path :=
  answer_calls v ++ choice_calls "delta" (get [key "choices"] v) ++
  (if StrIs (get [key "content_block"; key "type"] v) "tool_use" then [[key "content_block"; key "name"]] else []) ++
  (if from_option isOpencodeToolCall false (get [key "item"] v) then [[key "item"; key "name"]] else []) ++
  item_calls [key "response"; key "output"] (get [key "response"; key "output"] v).

Lemma renamed_none r : renamed ∅ r = r.
Proof using Type. by destruct r as [[| | |n| |]|]; cbn. Qed.
Lemma rewritten_none ps body : ValidBytes body = true -> rewritten ∅ ps body body.
Proof using Type. intros Hv. split; [done|done| |done]. intros p _. by rewrite renamed_none. Qed.
Lemma reverse_none : reverse_names ∅ = ∅.
Proof using Type. unfold reverse_names. apply map_fold_empty. Qed.

(** The first keys of two paths differ. *)
Lemma first_apart s s' p q : s ≠ s' -> diverge (key s :: p) (key s' :: q).
Proof using Type. intros Hne. apply diverge_here. cbn. by intros ?%lit_inj. Qed.

Lemma request_rewritten body aliases : ValidBytes body = true -> names_whole (reverse_names aliases) ->
  rewritten (reverse_names aliases) (request_references (ParseBytes body)) body (rewriteToolReferences body aliases).
Proof using Type.
  intros Hv Hn. unfold rewriteToolReferences. case_bool_decide as Ha.
  { subst aliases. rewrite reverse_none. by apply rewritten_none. }
  unfold request_references. set (names := reverse_names aliases) in *. set (first := [key "tool_choice"; key "function"; key "name"]).
  assert (H1 : rewritten names [first] body (rewriteToolNameAt names body first)).
  { apply rewrite_at_spec; [done|done|]. unfold first. split; [by path_ok_tac|split; [by repeat constructor|by eexists [_; _], _]]. }
  set (b1 := rewriteToolNameAt names body first) in *.
  assert (H2 := rewrite_stage names _ _ _ _ Hn tool_choice_places H1).
  assert (H2' : rewritten names ([first] ++ tool_choice_references (ParseBytes body)) body
    (rewrite_all names (choice_references (GetBytes b1 [key "tool_choice"])) b1)).
  { apply H2. intros p q ->%list_elem_of_singleton (r & -> & Hr)%choice_references_in. apply (diverge_app [key "tool_choice"]).
    destruct Hr as [->|[i [->| ->]]]; by apply diverge_here. }
  clear H2. set (b2 := rewrite_all names _ b1) in *.
  assert (H3 : rewritten names (([first] ++ tool_choice_references (ParseBytes body)) ++ messages_references (ParseBytes body)) body
    (rewrite_all names (messages_references (ParseBytes b2)) b2)).
  { apply rewrite_stage; [done|apply messages_places|done|].
    intros p q Hp (i & msg & _ & (r & -> & _)%message_references_in)%elem_of_concat_imap.
    apply elem_of_app in Hp as [->%list_elem_of_singleton|(r' & -> & _)%choice_references_in]; by apply first_apart. }
  set (b3 := rewrite_all names _ b2) in *.
  assert (H4 := rewrite_stage names _ _ _ _ Hn (item_calls_places ["input"%string] ltac:(cbn [fmap list_fmap]; by path_ok_tac) ltac:(by repeat constructor)) H3).
  rewrite <- !app_assoc in H4. apply H4. intros p q Hp (i & ->)%item_calls_in. cbn [fmap list_fmap app].
  rewrite !elem_of_app in Hp. destruct Hp as [->%list_elem_of_singleton|[(r' & -> & _)%choice_references_in|Hp]]; [by apply first_apart..|].
  apply elem_of_concat_imap in Hp as (j & msg & _ & (r' & -> & _)%message_references_in). by apply first_apart.
Qed.

Lemma answer_rewritten body aliases : ValidBytes body = true -> names_whole aliases ->
  rewritten aliases (answer_calls (ParseBytes body)) body (restoreToolAliasesInBody body aliases).
Proof using Type.
  intros Hv Hn. unfold restoreToolAliasesInBody. case_bool_decide as Ha; [subst; by apply rewritten_none|].
  assert (H1 := rewrite_stage aliases _ [] body body Hn (choice_calls_places "message" ltac:(by left)) (rewritten_nothing _ _ Hv)
    ltac:(by intros p q ?%elem_of_nil)). cbn [app] in H1. set (b1 := rewrite_all _ _ body) in H1.
  assert (H2 := rewrite_stage aliases _ _ _ _ Hn content_calls_places H1
    ltac:(intros p q (i & j & ->)%choice_calls_in (k & ->)%content_calls_in; by apply first_apart)).
  set (b2 := rewrite_all _ _ b1) in H2.
  assert (H3 := rewrite_stage aliases _ _ _ _ Hn (item_calls_places ["output"%string] ltac:(cbn [fmap list_fmap]; by path_ok_tac) ltac:(by repeat constructor)) H2).
  rewrite <- !app_assoc in H3. apply H3. intros p q Hp (i & ->)%item_calls_in. cbn [fmap list_fmap app].
  rewrite elem_of_app in Hp. destruct Hp as [(k & j & ->)%choice_calls_in|(k & ->)%content_calls_in]; by apply first_apart.
Qed.

Lemma block_places : places_of (fun v => if StrIs (get [key "content_block"; key "type"] v) "tool_use" then [[key "content_block"; key "name"]] else []).
Proof using Type.
  split; intros v.
  - change [key "content_block"; key "type"] with ([key "content_block"] ++ [key "type"]). rewrite !get_app.
    pose proof (get_way ["content_block"%string] v ltac:(by repeat constructor)) as Hget. cbn [fmap list_fmap] in Hget. rewrite Hget. clear Hget.
    destruct (get [key "content_block"] v) as [u|]; [|done]. cbn [fmap option_fmap option_map mbind option_bind]. by rewrite get_kept.
  - destruct (StrIs _ _); [|done]. constructor; [|done]. split; [by path_ok_tac|split; [by repeat constructor|by eexists [_], _]].
  - destruct (StrIs _ _); by repeat constructor.
Qed.
Lemma item_places : places_of (fun v => if from_option isOpencodeToolCall false (get [key "item"] v) then [[key "item"; key "name"]] else []).
Proof using Type.
  split; intros v.
  - pose proof (get_way ["item"%string] v ltac:(by repeat constructor)) as Hget. cbn [fmap list_fmap] in Hget. rewrite Hget. clear Hget.
    destruct (get [key "item"] v) as [u|]; [|done]. cbn [fmap option_fmap option_map from_option].
    unfold isOpencodeToolCall. by rewrite kind_nameless.
  - destruct (from_option _ _ _); [|done]. constructor; [|done]. split; [by path_ok_tac|split; [by repeat constructor|by eexists [_], _]].
  - destruct (from_option _ _ _); by repeat constructor.
Qed.

Lemma answer_calls_in v p : p ∈ answer_calls v -> (exists i j, p = [key "choices"; Idx i; key "message"; key "tool_calls"; Idx j; key "function"; key "name"]) \/
  (exists i, p = [key "content"; Idx i; key "name"]) \/ exists i, p = [key "output"; Idx i; key "name"].
Proof using Type.
  unfold answer_calls. rewrite !elem_of_app. intros [Hp%choice_calls_in|[Hp%content_calls_in|Hp%item_calls_in]]; auto.
Qed.

(** The paths [ps] lead from some of the keys [ss]. *)
Definition from_roots (ss : list string) (ps : list path) : Prop := forall p, p ∈ ps -> exists s r, p = key s :: r /\ s ∈ ss.
Lemma rewrite_root names (F : json -> list path) s ss ps body mid : names_whole names -> places_of F ->
  from_roots [s] (F (ParseBytes body)) -> s ∉ ss -> from_roots ss ps -> rewritten names ps body mid ->
  rewritten names (ps ++ F (ParseBytes body)) body (rewrite_all names (F (ParseBytes mid)) mid) /\
  from_roots (s :: ss) (ps ++ F (ParseBytes body)).
Proof using Type.
  intros Hn HF Hs Hno Hps Hmid. split.
  - apply rewrite_stage; [done..|]. intros p q (s1 & r1 & -> & H1)%Hps (s2 & r2 & -> & ->%list_elem_of_singleton)%Hs.
    apply first_apart. by intros ->.
  - intros p [(s1 & r1 & -> & H1)%Hps|(s2 & r2 & -> & ->%list_elem_of_singleton)%Hs]%elem_of_app; eexists _, _;
      (split; [reflexivity|]); [by right|by left].
Qed.

Lemma rewrite_if names (c : bool) body p : (if c then rewriteToolNameAt names body p else body) = rewrite_all names (if c then [p] else []) body.
Proof using Type. by destruct c. Qed.

Lemma event_rewritten data aliases : ValidBytes data = true -> names_whole aliases ->
  rewritten aliases (event_calls (ParseBytes data)) data (restoreToolAliasesInEvent data aliases).
Proof using Type.
  intros Hv Hn. unfold restoreToolAliasesInEvent. destruct (bool_decide (aliases = ∅)) eqn:Ha.
  { apply bool_decide_eq_true in Ha as ->. by apply rewritten_none. }
  destruct (bool_decide (data = ""%string)) eqn:He; [apply bool_decide_eq_true in He; by rewrite He, ValidBytes_empty in Hv|]. cbn [orb]. cbv zeta. rewrite !rewrite_if.
  assert (H1 := answer_rewritten data aliases Hv Hn). set (b1 := restoreToolAliasesInBody data aliases) in *.
  assert (H2 := rewrite_stage aliases _ _ _ _ Hn (choice_calls_places "delta" ltac:(by right)) H1). 
  assert (Hap : forall p q, p ∈ answer_calls (ParseBytes data) -> q ∈ choice_calls "delta" (get [key "choices"] (ParseBytes data)) -> diverge p q).
  { intros p q [(i & j & ->)|[(i & ->)|(i & ->)]]%answer_calls_in (k & l & ->)%choice_calls_in; [|by apply first_apart..].
    apply (diverge_app [key "choices"]). destruct (decide (i = k)) as [->|Hne]; [|by apply diverge_here, idx_key].
    apply (diverge_app [Idx k]). by apply first_apart. }
  specialize (H2 Hap). set (b2 := rewrite_all _ _ b1) in H2.
  assert (R2 : from_roots ["choices"; "content"; "output"]%string (answer_calls (ParseBytes data) ++ choice_calls "delta" (get [key "choices"] (ParseBytes data)))).
  { intros p [[(i & j & ->)|[(i & ->)|(i & ->)]]%answer_calls_in|(i & j & ->)%choice_calls_in]%elem_of_app; (eexists _, _; split; [reflexivity|set_solver]). }
  assert (S3 := fun Hs Hno => rewrite_root aliases _ "content_block" _ _ _ _ Hn block_places Hs Hno R2 H2).
  destruct S3 as [H3 R3]; [intros p; destruct (StrIs _ _); [|by intros ?%elem_of_nil]; intros ->%list_elem_of_singleton; eexists _, _; by split; [|left]|set_solver|].
  assert (S4 := fun Hs Hno => rewrite_root aliases _ "item" _ _ _ _ Hn item_places Hs Hno R3 H3).
  destruct S4 as [H4 R4]; [intros p; destruct (from_option _ _ _); [|by intros ?%elem_of_nil]; intros ->%list_elem_of_singleton; eexists _, _; by split; [|left]|set_solver|].
  assert (S5 := fun Hs Hno => rewrite_root aliases _ "response" _ _ _ _ Hn
    (item_calls_places ["response"; "output"]%string ltac:(cbn [fmap list_fmap]; by path_ok_tac) ltac:(by repeat constructor)) Hs Hno R4 H4).
  destruct S5 as [H5 _]; [intros p (i & ->)%item_calls_in; eexists _, _; by split; [|left]|set_solver|].
  rewrite <- !app_assoc in H5. unfold event_calls. exact H5.
Qed.
End rewriting.

(** ** Names there and back *)

Lemma reverse_spec aliases :
  (forall n w, reverse_names aliases !! n = Some w -> aliases !! w = Some n) /\
  (forall w n, aliases !! w = Some n -> is_Some (reverse_names aliases !! n)).
Proof.
  unfold reverse_names. apply (map_fold_weak_ind (fun r m => (forall n w, r !! n = Some w -> m !! w = Some n) /\
    (forall w n, m !! w = Some n -> is_Some (r !! n)))); [split; intros ? ? Hx; by rewrite lookup_empty in Hx|].
  intros w0 n0 m r Hnew [Hs Ht].
  assert (Hmono : forall n w, r !! n = Some w -> <[w0:=n0]> m !! w = Some n).
  { intros n w Hr%Hs. rewrite lookup_insert_ne; [done|]. by intros ->; rewrite Hnew in Hr. }
  assert (Hput : (forall n w, <[n0:=w0]> r !! n = Some w -> <[w0:=n0]> m !! w = Some n) /\
    (forall w n, <[w0:=n0]> m !! w = Some n -> is_Some (<[n0:=w0]> r !! n))).
  { split.
    - intros n w [[<- <-]|[Hne Hr]]%lookup_insert_Some; [by rewrite lookup_insert_eq|by apply Hmono].
    - intros w n [[<- <-]|[Hne Hm]]%lookup_insert_Some; [by rewrite lookup_insert_eq|].
      destruct (decide (n0 = n)) as [<-|]; [by rewrite lookup_insert_eq|]. rewrite lookup_insert_ne by done. by eapply Ht. }
  destruct (r !! n0) as [prior|] eqn:Hr; [|done]. destruct (String.ltb _ _); [done|]. split; [done|].
  intros w n [[<- <-]|[Hne Hm]]%lookup_insert_Some; [by rewrite Hr|by eapply Ht].
Qed.

(** ** The tools of a request *)

Section toolset.
Context `{Gjson}.
Variable Sum256 : bytes -> bytes.
Hypothesis Sum256_length : forall x, length (Sum256 x) = 32%nat.
#[local] Set Default Proof Using "Type*".
Notation names_of tools := (tool_name <$> tools).

(** What becomes of a tool of the client. *)
Definition sent_as (aliases : gmap bytes bytes) (tool item : json) : Prop :=
  if keeps_name tool then item = tool
  else exists w, aliases !! w = Some (tool_name tool) /\ ocToolIsWireName w = true /\
       set_at [key "function"; key "name"] (JStr w) tool = Some item.

Lemma sent_as_mono aliases aliases' tool item : aliases ⊆ aliases' -> sent_as aliases tool item -> sent_as aliases' tool item.
Proof using Type.
  intros Hsub. unfold sent_as. destruct (keeps_name tool); [done|]. intros (w & Hw & Hx). exists w. split; [by eapply lookup_weaken|done].
Qed.

Lemma renamed_has_name tool : keeps_name tool = false -> get [key "function"; key "name"] tool = Some (JStr (tool_name tool)).
Proof using Type.
  unfold keeps_name, tool_name. intros Hk. apply orb_false_iff in Hk as [[[_ Hs]%orb_false_iff _]%orb_false_iff _].
  apply negb_false_iff in Hs. by destruct (get _ tool) as [[]|].
Qed.

Lemma rename_tools_spec tools : forall taken aliases, dom aliases ⊆ taken ->
  exists items aliases', rename_tools Sum256 tools taken aliases = Some (items, aliases') /\ aliases ⊆ aliases' /\
    (forall w n, aliases' !! w = Some n -> aliases !! w = Some n \/
       w ∉ taken /\ ocToolIsWireName w = true /\ exists tool, tool ∈ tools /\ tool_name tool = n /\ keeps_name tool = false) /\
    Forall2 (sent_as aliases') tools items.
Proof.
  induction tools as [|tool tools IH]; intros taken aliases Hdom; cbn [rename_tools].
  { exists [], aliases. split; [done|]. split; [done|]. split; [by intros w n Hw; left|done]. }
  destruct (keeps_name tool) eqn:Hk.
  - destruct (IH taken aliases Hdom) as (items & aliases' & -> & Hsub & Hnew & Hf). exists (tool :: items), aliases'.
    split; [done|]. split; [done|]. split.
    + intros w n Hw. destruct (Hnew w n Hw) as [?|(? & ? & u & ? & ?)]; [by left|]. right. split; [done|]. split; [done|].
      exists u. split; [by right|done].
    + constructor; [|done]. unfold sent_as. by rewrite Hk.
  - pose proof (renamed_has_name tool Hk) as Hname. unfold ocToolRename. set (w0 := unused _ _ _).
    destruct (set_at_some _ (JStr w0) _ _ Hname) as [item Hitem]. rewrite Hitem. cbn [mbind option_bind].
    assert (Hfresh : w0 ∉ taken) by apply unused_fresh.
    assert (Hwire : ocToolIsWireName w0 = true).
    { unfold w0. destruct (unused_form (S (size taken)) taken (ocToolWireName Sum256 (tool_name tool))) as [k ->].
      by apply wire_name_opaque. }
    assert (Hins : aliases ⊆ <[w0 := tool_name tool]> aliases).
    { apply insert_subseteq, not_elem_of_dom. set_solver. }
    destruct (IH ({[w0]} ∪ taken) (<[w0 := tool_name tool]> aliases)) as (items & aliases' & -> & Hsub & Hnew & Hf); [set_solver|].
    exists (item :: items), aliases'. split; [done|]. split; [by etrans|]. split.
    + intros w n Hw. destruct (Hnew w n Hw) as [[[<- <-]|[_ Ha]]%lookup_insert_Some|(Hout & Hwi & u & Hu & Hx)].
      * right. split; [done|]. split; [done|]. exists tool. split; [by left|done].
      * by left.
      * right. split; [set_solver|]. split; [done|]. exists u. split; [by right|done].
    + constructor; [|done]. unfold sent_as. rewrite Hk. exists w0. split; [|done].
      eapply lookup_weaken; [|exact Hsub]. by rewrite lookup_insert_eq.
Qed.

(** A tool that the template defines in the same way. *)
Definition defined_by (m : gmap bytes json) (tool : json) : bool :=
  from_option (ocToolDefinitionsEqual tool) false (m !! tool_name tool).

Lemma sort_tools_spec m tools : forall st, let st' := foldl (sort_tool m) st tools in
  forall tool, tool ∈ st_whitelisted st' ++ st_rest st' <->
    tool ∈ st_whitelisted st ++ st_rest st \/ tool ∈ tools /\ defined_by m tool = false.
Proof using Type.
  induction tools as [|t tools IH]; intros st st' tool; subst st'; cbn [foldl].
  { rewrite elem_of_nil. tauto. }
  rewrite IH. rewrite elem_of_cons. unfold sort_tool. destruct (m !! tool_name t) as [exact|] eqn:Hm.
  - destruct (ocToolDefinitionsEqual t exact) eqn:He; cbn [st_whitelisted st_rest].
    + assert (Hdef : tool = t -> defined_by m tool = true) by (intros ->; unfold defined_by; by rewrite Hm).
      split; [intros [?|[? ?]]; auto|]. intros [?|[[Heq|?] Hd]]; [by left| |by right]. by rewrite (Hdef Heq) in Hd.
    + assert (Hdef : tool = t -> defined_by m tool = false) by (intros ->; unfold defined_by; by rewrite Hm).
      destruct (whitelisted (tool_name t)); cbn [st_whitelisted st_rest]; rewrite !elem_of_app, list_elem_of_singleton; tauto.
  - assert (Hdef : tool = t -> defined_by m tool = false) by (intros ->; unfold defined_by; by rewrite Hm).
    destruct (whitelisted (tool_name t)); cbn [st_whitelisted st_rest]; rewrite !elem_of_app, list_elem_of_singleton; tauto.
Qed.

Lemma official_table (official : list json) : forall (m : gmap bytes json) name tool,
  foldl (fun (m : gmap bytes json) tool => <[tool_name tool := tool]> m) m official !! name = Some tool ->
  m !! name = Some tool \/ tool ∈ official /\ tool_name tool = name.
Proof using Type.
  induction official as [|o official IH]; intros m name tool; cbn [foldl]; [by left|]. intros [Hm|[Hin Hn]]%IH.
  - apply lookup_insert_Some in Hm as [[<- <-]|[_ Hm]]; [right; split; [by left|done]|by left].
  - right. split; [by right|done].
Qed.

(** The definition of an official tool. *)
Definition authentic (official : list json) (tool : json) : Prop :=
  tool ∈ official \/ exists o, o ∈ official /\ tool_name o = tool_name tool /\ ocToolDefinitionsEqual tool o = true.
(** What the upstream may see: an official tool, or one that is no function, has no
    name, or an opaque one. *)
Definition anonymous (official : list json) (tool : json) : Prop := authentic official tool \/ keeps_name tool = true.

Lemma sent_anonymous official aliases tool item : sent_as aliases tool item -> anonymous official item.
Proof using Type.
  unfold sent_as. destruct (keeps_name tool) eqn:Hk; [intros ->; by right|]. intros (w & _ & Hw & Hs). right.
  unfold keeps_name. rewrite (set_at_spec _ _ _ _ Hs). cbn [Str]. rewrite Hw. by rewrite !orb_true_r.
Qed.

Notation table_of official := (foldl (fun (m : gmap bytes json) tool => <[tool_name tool := tool]> m) ∅ official).

Lemma defined_authentic official tool : defined_by (table_of official) tool = true -> authentic official tool.
Proof using Type.
  unfold defined_by. destruct (_ !! tool_name tool) as [o|] eqn:Hm; [|done]. cbn. intros He. right. exists o.
  apply official_table in Hm as [Hm|[? ?]]; [by rewrite lookup_empty in Hm|done].
Qed.

Lemma table_has official o : forall m : gmap bytes json, o ∈ official \/ is_Some (m !! tool_name o) ->
  is_Some (foldl (fun (m : gmap bytes json) tool => <[tool_name tool := tool]> m) m official !! tool_name o).
Proof using Type.
  induction official as [|t official IH]; intros m; cbn [foldl]; [by intros [?%elem_of_nil|?]|].
  rewrite elem_of_cons. intros [[->|Hin]|[u Hm]]; apply IH; [right|by left|right]; rewrite ?lookup_insert_eq; [by eexists|].
  destruct (decide (tool_name t = tool_name o)) as [->|]; [rewrite lookup_insert_eq|rewrite lookup_insert_ne by done]; by eexists.
Qed.

(** The names counted as present are those of tools that the template defines. *)
Lemma sort_present m tools : forall st, let st' := foldl (sort_tool m) st tools in
  forall name, name ∈ st_present st' ->
    name ∈ st_present st \/ is_Some (m !! name) /\ exists tool, tool ∈ tools /\ tool_name tool = name /\ defined_by m tool = true.
Proof using Type.
  induction tools as [|t tools IH]; intros st st' name; subst st'; cbn [foldl]; [by left|].
  intros [Hn|(Hm & tool & Hin & Hx)]%IH; [|right; split; [done|]; exists tool; split; [by right|done]].
  unfold sort_tool in Hn. destruct (m !! tool_name t) as [exact|] eqn:Hm.
  - destruct (ocToolDefinitionsEqual t exact) eqn:He; [|destruct (whitelisted _); by left]. cbn [st_present] in Hn.
    apply elem_of_union in Hn as [->%elem_of_singleton|Hn]; [|by left]. right. split; [by eexists|]. exists t. split; [by left|].
    split; [done|]. unfold defined_by. by rewrite Hm.
  - destruct (whitelisted _); by left.
Qed.

Lemma wire_ascii w : ocToolIsWireName w = true -> utf8_ok w.
Proof using Type.
  unfold ocToolIsWireName. destruct (strip ocToolAliasPrefix w) as [d|] eqn:Hs; [|done].
  apply strip_app_iff in Hs as ->. rewrite !andb_true_iff. intros [[_ Hd] Ht]. apply ascii_utf8, Forall_app. split; [by repeat constructor|].
  rewrite <- (take_drop ocToolDigestLen d). apply Forall_app. rewrite forallb_forall in Hd. rewrite forallb_forall in Ht. split.
  - apply Forall_forall. intros c Hc%list_elem_of_In%Ht. unfold is_hex in Hc. lia.
  - apply Forall_forall. intros c Hc%list_elem_of_In%Hd. by apply Ascii.eqb_eq in Hc as <-.
Qed.

(** Tools as they are sent are values that can be written, like the client's. *)
Lemma sent_ok aliases d tools items : Forall2 (sent_as aliases) tools items ->
  Forall (fun v => well_formed d v /\ whole v) tools -> Forall (fun v => well_formed d v /\ whole v) items.
Proof using Type.
  intros Hf. induction Hf as [|tool item tools items Hsent _ IH]; [done|]. intros [[Hwf Hw] Hrest]%Forall_cons.
  constructor; [|by apply IH]. unfold sent_as in Hsent. destruct (keeps_name tool); [by subst|].
  destruct Hsent as (w & _ & Hwire & Hs). split.
  - replace d with (d + 0)%nat by lia. by eapply (wf_set _ (JStr w) 0); [|exact Hwf|].
  - assert (Hp : path_ok [key "function"; key "name"]) by by path_ok_tac.
    assert (Hu : whole (JStr w)) by exact (wire_ascii _ Hwire).
    exact (whole_set _ _ Hu Hp _ _ Hw Hs).
Qed.

Lemma array_ok d v : well_formed d v -> whole v -> Forall (fun v => well_formed d v /\ whole v) (Array (Some v)).
Proof using Type.
  intros Hwf Hw. destruct v as [| | | |l|]; cbn [Array]; try (by constructor); try (by constructor; [split|]).
  destruct d as [|d]; [done|]. cbn [well_formed whole] in *. rewrite wf_arr in Hwf. rewrite whole_arr in Hw.
  rewrite Forall_forall in Hwf. rewrite Forall_forall in Hw. apply Forall_forall. intros x Hx.
  split; [apply (wf_mono _ d); [lia|]; by apply Hwf|by apply Hw].
Qed.

Lemma request_references_of v w : get [key "tool_choice"] v = get [key "tool_choice"] w ->
  get [key "messages"] v = get [key "messages"] w -> get [key "input"] v = get [key "input"] w ->
  request_references v = request_references w.
Proof using Type.
  intros H1 H2 H3. unfold request_references, tool_choice_references, messages_references. by rewrite H1, H2, H3.
Qed.

(** The table of a request. *)
Record aliases_ok (official tools : list json) (aliases : gmap bytes bytes) : Prop := {
  ao_wire : forall w n, aliases !! w = Some n -> ocToolIsWireName w = true;
  ao_new : forall w n, aliases !! w = Some n -> w ∉ tool_name <$> official ++ tools;
  ao_client : forall w n, aliases !! w = Some n -> exists tool, tool ∈ tools /\ keeps_name tool = false /\ tool_name tool = n }.

Lemma aliases_whole official tools aliases d : Forall (fun v => well_formed d v /\ whole v) tools ->
  aliases_ok official tools aliases -> names_whole aliases /\ names_whole (reverse_names aliases).
Proof using Type.
  intros Ht [Hwire _ Hclient]. split.
  - intros w n (tool & Hin & Hk & <-)%Hclient. apply renamed_has_name in Hk. rewrite Forall_forall in Ht.
    apply Ht in Hin as [_ Hw]. by apply (whole_get _ _ _ Hw) in Hk.
  - intros n w Hr. apply (proj1 (reverse_spec aliases)) in Hr. exact (wire_ascii _ (Hwire _ _ Hr)).
Qed.

Lemma wire_not_empty w : ocToolIsWireName w = true -> w ≠ [].
Proof using Type. by intros Hw ->. Qed.

Lemma client_tools official tools items aliases :
  let st := foldl (sort_tool (table_of official)) (mkSorted ∅ false [] []) tools in
  rename_tools Sum256 (st_whitelisted st ++ st_rest st)
    (list_to_set (tool_name <$> official) ∪ list_to_set (filter (.≠ []) (tool_name <$> tools))) ∅ = Some (items, aliases) ->
  aliases_ok official tools aliases /\ Forall2 (sent_as aliases) (st_whitelisted st ++ st_rest st) items.
Proof.
  intros st Hr. edestruct (rename_tools_spec (st_whitelisted st ++ st_rest st)) as (items' & aliases' & Hr' & _ & Hnew & Hf);
    [by rewrite dom_empty_L; apply empty_subseteq|]. rewrite Hr in Hr'. injection Hr' as <- <-. split; [|done].
  assert (Hn : forall w n, aliases !! w = Some n -> w ∉ (list_to_set (tool_name <$> official) ∪ list_to_set (filter (.≠ []) (tool_name <$> tools)) : gset bytes) /\
    ocToolIsWireName w = true /\ exists tool, tool ∈ st_whitelisted st ++ st_rest st /\ tool_name tool = n /\ keeps_name tool = false).
  { intros w n [Hx|Hx]%Hnew; [by rewrite lookup_empty in Hx|exact Hx]. }
  clear Hnew. split.
  - intros w n (_ & Hw & _)%Hn. done.
  - intros w n (Hno & Hw & _)%Hn. rewrite fmap_app, elem_of_app. rewrite not_elem_of_union, !elem_of_list_to_set, list_elem_of_filter in Hno.
    destruct Hno as [H1 H2]. intros [?|Hin]; [done|]. apply H2. split; [by apply wire_not_empty|done].
  - intros w n (_ & _ & tool & Hin & Hx & Hk)%Hn. exists tool. split; [|done].
    apply sort_tools_spec in Hin as [Hin|[Hin _]]; [by apply elem_of_nil in Hin|done].
Qed.

(** References are not among the tools. *)
Lemma references_apart v p : p ∈ request_references v -> diverge [key "tools"] p.
Proof using Type.
  unfold request_references. rewrite elem_of_cons, !elem_of_app.
  intros [->|[(q & -> & _)%choice_references_in|[(i & msg & _ & (q & -> & _)%message_references_in)%elem_of_concat_imap|(i & ->)%item_calls_in]]];
    cbn [app]; by apply first_apart.
Qed.

(** The body once its tools are replaced, and the references once they follow. *)
Lemma tools_replaced body kvs d items aliases b : ValidBytes body = true -> ParseBytes body = JObj kvs ->
  Forall (fun v => well_formed d v /\ whole v) items -> names_whole (reverse_names aliases) ->
  SetRawBytes body [key "tools"] (JArr items) = b ->
  exists b1, b = Some b1 /\ let out := rewriteToolReferences b1 aliases in
    ValidBytes out = true /\ GetBytes out [key "tools"] = Some (JArr items) /\
    (forall p, p ∈ request_references (ParseBytes body) -> GetBytes out p = renamed (reverse_names aliases) (GetBytes body p)) /\
    (forall q, Forall (fun p => diverge p q) ([key "tools"] :: request_references (ParseBytes body)) -> GetBytes out q = GetBytes body q).
Proof using Type.
  intros Hv Hobj Hit Hn Hb. destruct (set_key_some "tools" (JArr items) kvs) as [v Hs]. rewrite <- Hobj in Hs.
  assert (Hp : path_ok [key "tools"]) by by path_ok_tac.
  assert (Hwf : well_formed (S d) (JArr items) /\ whole (JArr items)).
  { cbn [well_formed whole]. rewrite wf_arr, whole_arr. split; (eapply Forall_impl; [exact Hit|]); by intros x [? ?]. }
  destruct (SetRawBytes_ok body [key "tools"] (JArr items) v (S d) Hv (proj1 Hwf) (proj2 Hwf) Hp Hs) as (b1 & Hb1 & Hv1 & Hp1).
  exists b1. split; [congruence|]. intros out. assert (Hout := request_rewritten b1 aliases Hv1 Hn). fold out in Hout.
  assert (Hsame : forall q, diverge [key "tools"] q -> GetBytes b1 q = GetBytes body q).
  { intros q Hq. unfold GetBytes. rewrite Hp1. by eapply set_at_other. }
  assert (Hrefs : request_references (ParseBytes b1) = request_references (ParseBytes body)).
  { apply request_references_of; [apply (Hsame [key "tool_choice"])|apply (Hsame [key "messages"])|apply (Hsame [key "input"])];
      by apply first_apart. }
  rewrite Hrefs in Hout. destruct Hout as [Hvo _ Hno Hro]. split; [done|]. split; [|split].
  - rewrite Hro; [unfold GetBytes; rewrite Hp1; by eapply set_at_spec|].
    apply Forall_forall. intros p Hp'%references_apart. by apply diverge_sym.
  - intros p Hp'. rewrite Hno by done. f_equal. apply Hsame. by eapply references_apart.
  - intros q [Hq Hqs]%Forall_cons. rewrite Hro by done. by apply Hsame.
Qed.

(** The tools of the client, all of them official or opaque. *)
Lemma untouched_tools official tools items : let st := foldl (sort_tool (table_of official)) (mkSorted ∅ false [] []) tools in
  Forall2 (sent_as ∅) (st_whitelisted st ++ st_rest st) items -> size (st_present st) = size (table_of official) ->
  Forall (anonymous official) tools /\
  forall o, o ∈ official -> exists t, t ∈ tools /\ tool_name t = tool_name o /\ authentic official t.
Proof using Type.
  intros st Hf Hsize. split.
  - apply Forall_forall. intros tool Hin. destruct (defined_by (table_of official) tool) eqn:Hd; [left; by apply defined_authentic|].
    right. assert (Hst : tool ∈ st_whitelisted st ++ st_rest st) by (apply sort_tools_spec; by right).
    apply list_elem_of_lookup in Hst as [i Hi]. destruct (Forall2_lookup_l _ _ _ _ _ Hf Hi) as (item & _ & Hsent).
    unfold sent_as in Hsent. destruct (keeps_name tool); [done|]. destruct Hsent as (w & Hw & _). by rewrite lookup_empty in Hw.
  - assert (Hpres : forall n, n ∈ st_present st -> is_Some (table_of official !! n) /\
      exists tool, tool ∈ tools /\ tool_name tool = n /\ defined_by (table_of official) tool = true).
    { intros n [Hn|?]%sort_present; [by apply elem_of_empty in Hn|done]. }
    intros o Ho. assert (Hin : tool_name o ∈ st_present st).
    { assert (Heq : st_present st ≡ dom (table_of official)).
      { apply set_subseteq_size_equiv; [intros n [Hn _]%Hpres; by apply elem_of_dom|]. by rewrite size_dom, Hsize. }
      rewrite Heq. apply elem_of_dom, table_has. by left. }
    apply Hpres in Hin as (_ & t & Ht & Hn & Hd). exists t. split; [done|]. split; [done|]. by apply defined_authentic.
Qed.

End toolset.

(** ** At a request *)

Definition function_named (s : string) : json :=
  JObj [(lit "type", JStr (lit "function")); (lit "function", JObj [(lit "name", JStr (lit s))])].
Definition tools_request : json :=
  JObj [(lit "tools", JArr [function_named "bash"; function_named "read"]);
        (lit "tool_choice", JObj [(lit "type", JStr (lit "function")); (lit "name", JStr (lit "bash"))])].
Definition tools_body : string := soa (render tools_request).
Definition tools_answer : string :=
  soa (render (JObj [(lit "content", JArr [JObj [(lit "type", JStr (lit "tool_use")); (lit "name", JStr (lit "clint_abababababab"))]])])).

