(* ===== verification/ConvFiles.v ===== *)
(** * The files of the conversation archive

    op/conversation.go: a directory of files with their inodes, on which every
    operation may fail; the compaction of a day into a gzip file, which may be
    interrupted anywhere; and the cleaning of the directory. *)

From Stdlib Require Import Ascii String Sorted.
From S2P Require Import Prelude GoStrings MaskText.
#[local] Set Default Proof Using "Type*".
Local Open Scope Z_scope.
Local Open Scope list_scope.

(** ** Files *)

Record inode := mkInode { i_bytes : bytes; i_mod : Z; i_synced : bool }.
(** A name that is removed leaves the inode to those who have it open. *)
Record disk := mkDisk { names : gmap string nat; inodes : gmap nat inode; fresh : nat; clock : Z }.

Definition stat (d : disk) (name : string) : option inode := n ← names d !! name; inodes d !! n.
Definition file_size (i : inode) : Z := Z.of_nat (length (i_bytes i)).

Definition remove (name : string) (d : disk) : disk := mkDisk (delete name (names d)) (inodes d) (fresh d) (clock d).
Definition on_inode (n : nat) (f : inode -> inode) (d : disk) : disk := mkDisk (names d) (alter f n (inodes d)) (fresh d) (clock d).
Definition on_file (name : string) (f : inode -> inode) (d : disk) : disk :=
  match names d !! name with Some n => on_inode n f d | None => d end.
Definition new_file (name : string) (d : disk) : disk :=
  mkDisk (<[name := fresh d]> (names d)) (<[fresh d := mkInode [] (clock d) false]> (inodes d)) (S (fresh d)) (clock d).
(** O_CREATE, and O_CREATE with O_TRUNC. *)
Definition open_append (name : string) (d : disk) : disk := if names d !! name then d else new_file name d.
Definition open_trunc (name : string) (d : disk) : disk :=
  if names d !! name then on_file name (fun _ => mkInode [] (clock d) false) d else new_file name d.
Definition rename (old new : string) (d : disk) : disk :=
  match names d !! old with
  | Some n => mkDisk (<[new := n]> (delete old (names d))) (inodes d) (fresh d) (clock d)
  | None => d
  end.
Definition sync (i : inode) : inode := mkInode (i_bytes i) (i_mod i) true.
Definition put (now : Z) (b : bytes) (i : inode) : inode := mkInode b now false.

(** ** Operations that may fail *)

(** How an operation ends; one that writes and fails leaves some bytes behind. *)
Record fate := mkFate { works : bool; leaves : bytes }.
(** The disk, the fates to come (all is well behind their end), and every disk that
    there was, the last one first: a process may be stopped at each of them. *)
Record world := mkWorld { w_disk : disk; w_fates : list fate; w_seen : list disk }.
Definition io (A : Type) : Type := world -> A * world.

#[export] Instance io_ret : MRet io := fun A x w => (x, w).
#[export] Instance io_bind : MBind io := fun A B f m w => let '(x, w) := m w in f x w.

Definition next_fate (w : world) : fate * world :=
  match w_fates w with
  | [] => (mkFate true [], w)
  | f :: fs => (f, mkWorld (w_disk w) fs (w_seen w))
  end.
Definition attempt : io bool := fun w => let '(f, w) := next_fate w in (works f, w).
(** [on_failure]: what a failing operation leaves behind. *)
Definition act_or (effect : disk -> disk) (on_failure : bytes -> disk -> disk) : io bool := fun w =>
  let '(f, w) := next_fate w in
  let d := (if works f then effect else on_failure (leaves f)) (w_disk w) in
  (works f, mkWorld d (w_fates w) (d :: w_seen w)).
Definition act (effect : disk -> disk) : io bool := act_or effect (fun _ d => d).
Definition Stat (name : string) : io (option inode) := fun w =>
  let '(f, w) := next_fate w in ((if works f then stat (w_disk w) name else None), w).

(** ** Compaction *)

Definition archive_of (day : string) : string := day +:+ ".jsonl".

Section files.
(** compress/gzip. *)
Variable gzip : bytes -> bytes.
Variable gunzip : bytes -> option bytes.
Hypothesis gunzip_gzip : forall b, gunzip (gzip b) = Some b.

Definition verifyGzipArchive (path : string) : io bool :=
  info ← Stat path;
  mret (from_option (fun i => is_some (gunzip (i_bytes i))) false info).

Definition compressGzipAtomic (src dst tmp : string) : io bool :=
  source ← Stat src;
  match source with
  | None => mret false
  | Some i =>
      let file b d := on_file tmp (put (clock d) b) d in
      opened ← act (open_trunc tmp);
      if negb opened then mret false else
      copied ← act_or (fun d => d) file;
      if negb copied then mret false else
      closed ← act_or (file (gzip (i_bytes i))) file;
      if negb closed then mret false else
      synced ← act (on_file tmp sync);
      if negb synced then mret false else
      handed ← attempt;
      if negb handed then mret false else
      verified ← verifyGzipArchive tmp;
      if negb verified then mret false else
      act (rename tmp dst)
  end.

Definition compactYesterday (day : string) : io unit :=
  let src := archive_of day in
  let dst := src +:+ ".gz" in
  let tmp := dst +:+ ".tmp" in
  info ← Stat src;
  match info with
  | None | Some (mkInode [] _ _) => act (remove tmp) ;; mret tt
  | Some _ =>
      old ← Stat dst;
      again ← match old with
              | Some _ =>
                  whole ← verifyGzipArchive dst;
                  if whole : bool then act (remove src) ;; mret false else act (remove dst) ;; mret true
              | None => mret true
              end;
      if negb again then mret tt else
      ok ← compressGzipAtomic src dst tmp;
      act (remove (if ok : bool then src else tmp)) ;; mret tt
  end.

(** ** Cleaning *)

Definition TrimSuffix (s suffix : string) : string :=
  if HasSuffix s suffix then String.substring 0 (String.length s - String.length suffix) s else s.
Definition is_archive (name : string) : bool := HasSuffix name ".jsonl" || HasSuffix name ".jsonl.gz".
Definition day_of (name : string) : string := TrimSuffix (TrimSuffix name ".gz") ".jsonl".

Record archive := mkArchive { a_name : string; a_size : Z; a_mod : Z }.

(** The listing of a directory, [time.ParseInLocation] in the zone of the machine, and
    [sort.Slice] by the time of the last change. *)
Context `{ord : !MapOrder string}.
Variable ParseInLocation : string -> option Z.
Variable sort_by_mod : list archive -> list archive.
Hypothesis sort_perm : forall l, sort_by_mod l ≡ₚ l.
Hypothesis sort_sorted : forall l, StronglySorted (fun a b => a_mod a <= a_mod b) (sort_by_mod l).

Definition ReadDir (d : disk) : list string := (map_order (names d)).*1.
Definition expired (cutoff : Z) (name : string) : bool :=
  from_option (fun parsed => parsed <? cutoff) false (ParseInLocation (day_of name)).

Fixpoint cleanup_scan (cutoff : Z) (entries : list string) : io (list archive * Z) :=
  match entries with
  | [] => mret ([], 0)
  | name :: entries =>
      if negb (is_archive name) then cleanup_scan cutoff entries else
      info ← Stat name;
      match info with
      | None => cleanup_scan cutoff entries
      | Some i =>
          if expired cutoff name then act (remove name) ;; cleanup_scan cutoff entries
          else
            '(archives, total) ← cleanup_scan cutoff entries;
            mret (mkArchive name (file_size i) (i_mod i) :: archives, file_size i + total)
      end
  end.

Fixpoint cleanup_trim (maxBytes : Z) (archives : list archive) (total : Z) : io unit :=
  match archives with
  | [] => mret tt
  | a :: archives =>
      if total <=? maxBytes then mret tt else
      removed ← act (remove (a_name a));
      cleanup_trim maxBytes archives (if removed : bool then total - a_size a else total)
  end.

Definition cleanupConversations (cutoff maxBytes : Z) : io unit :=
  listed ← attempt;
  if negb listed then mret tt else
  entries ← (fun w => (ReadDir (w_disk w), w));
  '(archives, total) ← cleanup_scan cutoff entries;
  if total <=? maxBytes then mret tt else cleanup_trim maxBytes (sort_by_mod archives) total.
End files.

(** ** What a program does to every disk it passes through *)

Section hoare.
Variable I : disk -> Prop.

(** From a disk with [P], each disk on the way has [I], and the last one [Q]. *)
Definition hoare {A} (P : disk -> Prop) (m : io A) (Q : A -> disk -> Prop) : Prop :=
  forall w, P (w_disk w) -> Forall I (w_seen w) -> Q (m w).1 (w_disk (m w).2) /\ Forall I (w_seen (m w).2).

Lemma hoare_ret {A} (x : A) (P : disk -> Prop) (Q : A -> disk -> Prop) : (forall d, P d -> Q x d) -> hoare P (mret x) Q.
Proof using Type. intros HQ w HP Hs. split; [by apply HQ|done]. Qed.

Lemma hoare_bind {A B} (m : io A) (f : A -> io B) P Q R : hoare P m Q -> (forall x, hoare (Q x) (f x) R) -> hoare P (m ≫= f) R.
Proof using Type.
  intros Hm Hf w HP Hs. unfold mbind, io_bind. destruct (Hm w HP Hs) as [HQ Hs']. destruct (m w) as [x w']. by apply Hf.
Qed.

Lemma hoare_weaken {A} (m : io A) (P P' : disk -> Prop) (Q Q' : A -> disk -> Prop) :
  hoare P' m Q' -> (forall d, P d -> P' d) -> (forall x d, Q' x d -> Q x d) -> hoare P m Q.
Proof using Type. intros Hm HP HQ w Hw Hs. destruct (Hm w (HP _ Hw) Hs) as [? ?]. split; [by apply HQ|done]. Qed.

Lemma hoare_pre {A} (m : io A) (P P' : disk -> Prop) (Q : A -> disk -> Prop) : (forall d, P d -> P' d) -> hoare P' m Q -> hoare P m Q.
Proof using Type. intros HP Hm. by eapply hoare_weaken. Qed.

Lemma next_fate_disk w : w_disk (next_fate w).2 = w_disk w /\ w_seen (next_fate w).2 = w_seen w.
Proof using Type. unfold next_fate. by destruct (w_fates w). Qed.

Lemma hoare_learn {A} (phi : Prop) (m : io A) P Q : (forall d, P d -> phi) -> (phi -> hoare P m Q) -> hoare P m Q.
Proof using Type. intros Hphi Hm w HP Hs. apply Hm; [by eapply Hphi|done|done]. Qed.

Lemma hoare_attempt P : hoare P attempt (fun _ => P).
Proof using Type.
  intros w HP Hs. unfold attempt. pose proof (next_fate_disk w) as [Hd Hw]. destruct (next_fate w) as [f w']. cbn in *. by rewrite Hd, Hw.
Qed.

Lemma hoare_act_or P effect on_failure (Q : bool -> disk -> Prop) :
  (forall d, P d -> Q true (effect d)) -> (forall d k, P d -> Q false (on_failure k d)) ->
  (forall x d, Q x d -> I d) -> hoare P (act_or effect on_failure) Q.
Proof using Type.
  intros Ht Hf HI w HP Hs. unfold act_or. pose proof (next_fate_disk w) as [Hd Hw]. destruct (next_fate w) as [f w']. cbn in *.
  rewrite Hd, Hw. assert (HQ : Q (works f) ((if works f then effect else on_failure (leaves f)) (w_disk w))) by (destruct (works f); auto).
  split; [done|]. constructor; [by eapply HI|done].
Qed.

Lemma hoare_act P effect (Q : bool -> disk -> Prop) :
  (forall d, P d -> Q true (effect d)) -> (forall d, P d -> Q false d) -> (forall x d, Q x d -> I d) -> hoare P (act effect) Q.
Proof using Type. intros Ht Hf HI. apply hoare_act_or; [exact Ht|intros d _; apply Hf|exact HI]. Qed.

Lemma hoare_Stat P name : hoare P (Stat name) (fun r d => P d /\ (r = None \/ r = stat d name)).
Proof using Type.
  intros w HP Hs. unfold Stat. pose proof (next_fate_disk w) as [Hd Hw]. destruct (next_fate w) as [f w']. cbn in *.
  rewrite Hd, Hw. split; [|done]. split; [done|]. destruct (works f); auto.
Qed.
End hoare.

(** Where every operation works. *)
Definition runs {A} (P : disk -> Prop) (m : io A) (Q : A -> disk -> Prop) : Prop :=
  forall d seen, P d -> exists x d' seen', m (mkWorld d [] seen) = (x, mkWorld d' [] seen') /\ Q x d'.

Lemma runs_ret {A} (x : A) (P : disk -> Prop) (Q : A -> disk -> Prop) : (forall d, P d -> Q x d) -> runs P (mret x) Q.
Proof. intros HQ d seen HP. exists x, d, seen. split; [done|auto]. Qed.
Lemma runs_bind {A B} (m : io A) (f : A -> io B) P Q R : runs P m Q -> (forall x, runs (Q x) (f x) R) -> runs P (m ≫= f) R.
Proof.
  intros Hm Hf d seen HP. destruct (Hm d seen HP) as (x & d' & seen' & Hx & HQ). unfold mbind, io_bind. rewrite Hx. by apply Hf.
Qed.
Lemma runs_act_or P effect on_failure (Q : bool -> disk -> Prop) : (forall d, P d -> Q true (effect d)) -> runs P (act_or effect on_failure) Q.
Proof. intros HQ d seen HP. eexists _, _, _. split; [reflexivity|]. by apply HQ. Qed.
Lemma runs_act P effect (Q : bool -> disk -> Prop) : (forall d, P d -> Q true (effect d)) -> runs P (act effect) Q.
Proof. apply runs_act_or. Qed.
Lemma runs_attempt P (Q : bool -> disk -> Prop) : (forall d, P d -> Q true d) -> runs P attempt Q.
Proof. intros HQ d seen HP. eexists _, _, _. split; [reflexivity|]. by apply HQ. Qed.
Lemma runs_Stat P name (Q : option inode -> disk -> Prop) : (forall d, P d -> Q (stat d name) d) -> runs P (Stat name) Q.
Proof. intros HQ d seen HP. eexists _, _, _. split; [reflexivity|]. by apply HQ. Qed.
Lemma runs_pre {A} (m : io A) (P P' : disk -> Prop) (Q : A -> disk -> Prop) : (forall d, P d -> P' d) -> runs P' m Q -> runs P m Q.
Proof. intros HP Hm d seen Hd. by apply Hm, HP. Qed.
Lemma runs_learn {A} (phi : Prop) (m : io A) P Q : (forall d, P d -> phi) -> (phi -> runs P m Q) -> runs P m Q.
Proof. intros Hphi Hm d seen Hd. apply Hm; [by eapply Hphi|done]. Qed.

(** ** The directory *)

Record sane (d : disk) : Prop := {
  sane_inj : forall a b n, names d !! a = Some n -> names d !! b = Some n -> a = b;
  sane_fresh : forall a n, names d !! a = Some n -> (n < fresh d)%nat /\ is_Some (inodes d !! n) }.

Lemma stat_Some d name i : stat d name = Some i <-> exists n, names d !! name = Some n /\ inodes d !! n = Some i.
Proof. unfold stat. destruct (names d !! name) as [n|]; cbn; naive_solver. Qed.
Lemma stat_None d name : sane d -> stat d name = None <-> names d !! name = None.
Proof.
  intros Hs. unfold stat. destruct (names d !! name) as [n|] eqn:Hn; cbn; [|done].
  destruct (sane_fresh d Hs _ _ Hn) as [_ [i ->]]. done.
Qed.

Lemma sane_remove name d : sane d -> sane (remove name d).
Proof. intros [Hi Hf]. split; cbn; setoid_rewrite lookup_delete_Some; naive_solver. Qed.
Lemma stat_remove name d : stat (remove name d) name = None.
Proof. unfold stat. cbn. by rewrite lookup_delete_eq. Qed.
Lemma stat_remove_ne name other d : other ≠ name -> stat (remove name d) other = stat d other.
Proof. intros. unfold stat. cbn. by rewrite lookup_delete_ne. Qed.

Lemma sane_on_inode n f d : sane d -> sane (on_inode n f d).
Proof.
  intros [Hi Hf]. split; cbn; [done|]. intros a m Hm. apply Hf in Hm as [? Hx]. split; [done|]. by rewrite lookup_alter_is_Some.
Qed.
Lemma sane_on_file name f d : sane d -> sane (on_file name f d).
Proof. unfold on_file. destruct (names d !! name); [apply sane_on_inode|done]. Qed.
Lemma stat_on_file name f d : stat (on_file name f d) name = f <$> stat d name.
Proof.
  unfold stat, on_file. destruct (names d !! name) as [n|] eqn:Hn; cbn; rewrite Hn; cbn; [|done]. by rewrite lookup_alter_eq.
Qed.
Lemma stat_on_file_ne name other f d : sane d -> other ≠ name -> stat (on_file name f d) other = stat d other.
Proof.
  intros Hs Hne. unfold stat, on_file. destruct (names d !! name) as [n|] eqn:Hn; [|done]. cbn.
  destruct (names d !! other) as [m|] eqn:Hm; cbn; [|done]. rewrite lookup_alter_ne; [done|].
  intros ->. destruct Hne. by eapply (sane_inj d Hs).
Qed.

Lemma sane_new_file name d : names d !! name = None -> sane d -> sane (new_file name d).
Proof.
  intros Hno [Hi Hf]. split; cbn.
  - intros a b n. rewrite !lookup_insert_Some. intros [[<- <-]|[? Ha]] [[<- He]|[? Hb]]; try done; [by apply Hf in Hb as [? _]; lia| |by eapply Hi].
    apply Hf in Ha as [? _]. lia.
  - intros a n [[<- <-]|[? Ha]]%lookup_insert_Some; [rewrite lookup_insert_eq; split; [lia|by eexists]|].
    apply Hf in Ha as [? Hx]. split; [lia|]. rewrite lookup_insert_ne by lia. done.
Qed.
Lemma stat_new_file_ne name other d : sane d -> other ≠ name -> stat (new_file name d) other = stat d other.
Proof.
  intros Hs Hne. unfold stat. cbn. rewrite lookup_insert_ne by done. destruct (names d !! other) as [m|] eqn:Hm; cbn; [|done].
  apply (sane_fresh d Hs) in Hm as [? _]. rewrite lookup_insert_ne by lia. done.
Qed.
Lemma sane_open_trunc name d : sane d -> sane (open_trunc name d).
Proof. intros Hs. unfold open_trunc. destruct (names d !! name) eqn:Hn; [by apply sane_on_file|by apply sane_new_file]. Qed.
Lemma stat_open_trunc_ne name other d : sane d -> other ≠ name -> stat (open_trunc name d) other = stat d other.
Proof. intros. unfold open_trunc. destruct (names d !! name); [by apply stat_on_file_ne|by apply stat_new_file_ne]. Qed.
Lemma stat_open_trunc name d : sane d -> is_Some (stat (open_trunc name d) name).
Proof.
  intros Hs. unfold open_trunc. destruct (names d !! name) as [n|] eqn:Hn.
  - rewrite stat_on_file. unfold stat. rewrite Hn. cbn. destruct (sane_fresh d Hs _ _ Hn) as [_ [i ->]]. by eexists.
  - unfold stat. cbn. rewrite lookup_insert_eq. cbn. rewrite lookup_insert_eq. by eexists.
Qed.

Lemma sane_rename old new d : old ≠ new -> sane d -> sane (rename old new d).
Proof.
  intros Hne [Hi Hf]. unfold rename. destruct (names d !! old) as [n|] eqn:Hn; [|done]. split; cbn.
  - intros a b m. rewrite !lookup_insert_Some, !lookup_delete_Some. intros [[<- <-]|(? & ? & Ha)] [[<- He]|(? & ? & Hb)]; try done.
    + destruct (Hi _ _ _ Hn Hb). done.
    + subst. destruct (Hi _ _ _ Hn Ha). done.
    + by eapply Hi.
  - intros a m. rewrite lookup_insert_Some, lookup_delete_Some. intros [[<- <-]|(? & ? & Ha)]; [by eapply Hf|by eapply Hf].
Qed.
Lemma stat_rename old new d : is_Some (stat d old) -> stat (rename old new d) new = stat d old.
Proof.
  intros [i Hi]. apply stat_Some in Hi as (n & Hn & Hi). unfold rename, stat. rewrite Hn. cbn. by rewrite lookup_insert_eq.
Qed.
Lemma stat_rename_ne old new other d : other ≠ old -> other ≠ new -> stat (rename old new d) other = stat d other.
Proof.
  intros Ho Hn. unfold rename, stat. destruct (names d !! old); [|done]. cbn. by rewrite lookup_insert_ne, lookup_delete_ne.
Qed.

#[export] Hint Resolve sane_remove sane_on_file sane_open_trunc sane_rename : nova.

(** ** Compaction loses nothing *)

Section compaction.
Variable gzip : bytes -> bytes.
Variable gunzip : bytes -> option bytes.
Hypothesis gunzip_gzip : forall b, gunzip (gzip b) = Some b.
Variables (day : string) (b : bytes).
Notation src := (archive_of day).
Notation dst := (src +:+ ".gz").
Notation tmp := (dst +:+ ".tmp").

Lemma length_string_app (s t : string) : String.length (s +:+ t) = (String.length s + String.length t)%nat.
Proof using Type. induction s as [|c s IH]; [done|]. change (S (String.length (s +:+ t)) = S (String.length s + String.length t))%nat. by rewrite IH. Qed.
Lemma longer_ne (s t : string) : (String.length s < String.length t)%nat -> t ≠ s.
Proof using Type. intros Hl ->. lia. Qed.
Lemma dst_src : dst ≠ src.
Proof using Type. apply longer_ne. rewrite !length_string_app. cbn. lia. Qed.
Lemma tmp_dst : tmp ≠ dst.
Proof using Type. apply longer_ne. rewrite !length_string_app. cbn. lia. Qed.
Lemma tmp_src : tmp ≠ src.
Proof using Type. apply longer_ne. rewrite !length_string_app. cbn. lia. Qed.
Lemma names_apart : src ≠ dst /\ dst ≠ tmp /\ src ≠ tmp.
Proof using Type. split; [apply not_eq_sym, dst_src|]. split; [apply not_eq_sym, tmp_dst|apply not_eq_sym, tmp_src]. Qed.
Ltac apart := first [exact dst_src | exact tmp_dst | exact tmp_src | exact (proj1 names_apart) | exact (proj1 (proj2 names_apart)) | exact (proj2 (proj2 names_apart))].

(** The records of a day: in its file, or in a complete archive that is on the disk. *)
Record archived (d : disk) : Prop := {
  ar_sane : sane d;
  ar_dst : forall i, stat d dst = Some i -> i_synced i = true /\ (gunzip (i_bytes i) = None \/ gunzip (i_bytes i) = Some b);
  ar_some : (exists i, stat d src = Some i /\ i_bytes i = b /\ i_synced i = true) \/
            (stat d src = None /\ exists i, stat d dst = Some i /\ gunzip (i_bytes i) = Some b) }.

Definition has_src (d : disk) : Prop := exists i, stat d src = Some i /\ i_bytes i = b /\ i_synced i = true.
Definition has_dst (d : disk) : Prop := exists i, stat d dst = Some i /\ gunzip (i_bytes i) = Some b.

Lemma archived_tmp d d' : archived d -> sane d' -> (forall name, name ≠ tmp -> stat d' name = stat d name) -> archived d'.
Proof using Type.
  intros [Hs Hd Ho] Hs' Hst. split; [done| |]; rewrite ?(Hst src), ?(Hst dst) by apart; done.
Qed.
Lemma archived_remove_src d : archived d -> has_dst d -> archived (remove src d).
Proof using Type.
  intros [Hs Hd Ho] Hdst. split; [by apply sane_remove| |]; rewrite (stat_remove_ne src dst) by apart; [done|].
  right. split; [apply stat_remove|done].
Qed.
Lemma archived_remove_dst d : archived d -> has_src d -> archived (remove dst d) /\ has_src (remove dst d).
Proof using Type.
  intros [Hs Hd Ho] Hsrc. assert (Hsrc' : has_src (remove dst d)) by (unfold has_src; rewrite stat_remove_ne by apart; exact Hsrc).
  split; [|done]. split; [by apply sane_remove| |by left]. intros i Hi. by rewrite stat_remove in Hi.
Qed.
Lemma archived_rename d i : archived d -> has_src d -> stat d tmp = Some i -> i_synced i = true -> gunzip (i_bytes i) = Some b ->
  archived (rename tmp dst d) /\ has_src (rename tmp dst d) /\ has_dst (rename tmp dst d).
Proof using Type.
  intros [Hs Hd Ho] Hsrc Ht Hsy Hg. assert (Hst : stat (rename tmp dst d) dst = Some i) by (rewrite stat_rename; [done|by eexists]).
  assert (Hsrc' : has_src (rename tmp dst d)) by (unfold has_src; rewrite stat_rename_ne by apart; exact Hsrc).
  split; [|split; [done|by exists i]]. split; [apply sane_rename; [apart|done]| |by left].
  rewrite Hst. intros j [= <-]. auto.
Qed.

(** Nothing else in the directory is touched. *)
Variable d0 : disk.
Definition others (d : disk) : Prop := forall name, name ≠ src -> name ≠ dst -> name ≠ tmp -> stat d name = stat d0 name.
Definition safe (d : disk) : Prop := archived d /\ others d.

Lemma safe_tmp d d' : safe d -> sane d' -> (forall name, name ≠ tmp -> stat d' name = stat d name) -> safe d'.
Proof using Type.
  intros [Ha Ho] Hs Hst. split; [by eapply archived_tmp|]. intros name H1 H2 H3. rewrite Hst by done. by apply Ho.
Qed.
Lemma safe_remove name d : safe d -> name = src \/ name = dst \/ name = tmp -> archived (remove name d) -> safe (remove name d).
Proof using Type.
  intros [_ Ho] Hn Ha. split; [done|]. intros other H1 H2 H3. rewrite stat_remove_ne; [by apply Ho|]. by intros ->; destruct Hn as [?|[?|?]].
Qed.

Definition with_src (d : disk) : Prop := safe d /\ has_src d.
Lemma with_src_tmp d d' : with_src d -> sane d' -> (forall name, name ≠ tmp -> stat d' name = stat d name) -> with_src d'.
Proof using Type.
  intros [Hs Hsrc] Hsane Hst. split; [by eapply safe_tmp|]. unfold has_src. rewrite Hst by apart. exact Hsrc.
Qed.
Lemma with_src_sane d : with_src d -> sane d.
Proof using Type. by intros [[[? _ _] _] _]. Qed.
Lemma with_src_file f d : with_src d -> with_src (on_file tmp f d).
Proof using Type.
  intros Hw. pose proof (with_src_sane d Hw) as Hs. eapply with_src_tmp; [exact Hw|by apply sane_on_file|].
  intros. by apply stat_on_file_ne.
Qed.
Lemma with_src_remove_tmp d : with_src d -> with_src (remove tmp d).
Proof using Type.
  intros Hw. pose proof (with_src_sane d Hw) as Hs. eapply with_src_tmp; [exact Hw|by apply sane_remove|].
  intros. by apply stat_remove_ne.
Qed.

Notation hoare := (hoare safe).
Notation staged Q := (fun (x : bool) d => with_src d /\ (x = true -> Q d)).

(** A step on the temporary file. *)
Lemma tmp_step (P Q : disk -> Prop) effect on_failure :
  (forall d, with_src d /\ P d -> with_src (effect d) /\ Q (effect d)) -> (forall d k, with_src d -> with_src (on_failure k d)) ->
  hoare (fun d => with_src d /\ P d) (act_or effect on_failure) (staged Q).
Proof using Type.
  intros Ht Hf. apply hoare_act_or.
  - intros d [? ?]%Ht. done.
  - intros d k [Hd _]. split; [by apply Hf|done].
  - by intros x d [[? _] _].
Qed.
Lemma step_or_fail {A} (x : bool) (Q : disk -> Prop) (m : io A) (fail : A) (R : A -> disk -> Prop) :
  (forall d, with_src d -> R fail d) -> hoare (fun d => with_src d /\ Q d) m R ->
  hoare (fun d => with_src d /\ (x = true -> Q d)) (if negb x then mret fail else m) R.
Proof using Type.
  intros Hfail Hm. destruct x; cbn.
  - eapply hoare_pre; [|exact Hm]. intros d [? ?]. auto.
  - apply hoare_ret. intros d [? _]. by apply Hfail.
Qed.

Definition tmp_holds (synced : bool) (d : disk) : Prop :=
  exists i, stat d tmp = Some i /\ gunzip (i_bytes i) = Some b /\ (synced = true -> i_synced i = true).

Lemma hoare_verify P path : hoare P (verifyGzipArchive gunzip path)
  (fun x d => P d /\ (x = true -> exists i, stat d path = Some i /\ is_Some (gunzip (i_bytes i)))).
Proof using Type.
  unfold verifyGzipArchive. eapply hoare_bind; [apply hoare_Stat|]. intros info.
  apply hoare_ret. intros d [HP Hi]. split; [done|].
  destruct info as [i|]; [|done]. cbn. destruct Hi as [|Hi]; [done|]. exists i. split; [done|].
  by destruct (gunzip (i_bytes i)).
Qed.

Lemma compress_safe : hoare with_src (compressGzipAtomic gzip gunzip src dst tmp) (staged has_dst).
Proof.
  unfold compressGzipAtomic. eapply hoare_bind; [apply hoare_Stat|]. intros source. cbn.
  destruct source as [i|].
  2: { apply hoare_ret. by intros d [? _]. }
  apply (hoare_learn _ (i_bytes i = b)).
  { intros d [[_ (i' & Hi' & Hb & _)] [|Hi]]; [done|]. rewrite Hi' in Hi. by injection Hi as <-. }
  intros ->. apply (hoare_pre _ _ _ with_src); [by intros d [? _]|].
  assert (Hfail : forall d, with_src d -> with_src d /\ (false = true -> has_dst d)) by done.
  set (file := fun c d => on_file tmp (put (clock d) c) d).
  assert (Hfile : forall c d, with_src d -> with_src (file c d)) by (intros; by apply with_src_file).
  eapply hoare_bind.
  { apply (hoare_pre _ _ _ (fun d => with_src d /\ True)); [done|]. apply (tmp_step _ (fun d => is_Some (stat d tmp))).
    - intros d [Hd _]. pose proof (with_src_sane d Hd) as Hs. split; [|by apply stat_open_trunc].
      eapply with_src_tmp; [exact Hd|by apply sane_open_trunc|]. intros. by apply stat_open_trunc_ne.
    - done. }
  intros opened. apply step_or_fail; [exact Hfail|].
  eapply hoare_bind; [apply (tmp_step _ (fun d => is_Some (stat d tmp))); [done|by intros; apply Hfile]|].
  intros copied. apply step_or_fail; [exact Hfail|].
  eapply hoare_bind; [apply (tmp_step _ (tmp_holds false)); [|by intros; apply Hfile]|].
  { intros d [Hd [j Hj]]. split; [by apply Hfile|]. exists (put (clock d) (gzip b) j). unfold file. rewrite stat_on_file, Hj.
    split; [done|]. cbn. by rewrite gunzip_gzip. }
  intros closed. apply step_or_fail; [exact Hfail|].
  eapply hoare_bind; [apply (tmp_step _ (tmp_holds true)); [|done]|].
  { intros d [Hd (j & Hj & Hg & _)]. split; [by apply with_src_file|]. exists (sync j). rewrite stat_on_file, Hj. split; [done|]. by split; [exact Hg|]. }
  intros synced. apply step_or_fail; [exact Hfail|].
  eapply hoare_bind; [apply hoare_attempt|]. intros handed.
  apply (hoare_pre _ _ _ (fun d => with_src d /\ (handed = true -> tmp_holds true d))); [by intros d [? ?]|].
  apply step_or_fail; [exact Hfail|].
  eapply hoare_bind; [apply hoare_verify|].
  intros verified. apply (hoare_pre _ _ _ (fun d => with_src d /\ (verified = true -> tmp_holds true d))); [by intros d [[? ?] _]|].
  apply step_or_fail; [exact Hfail|].
  apply hoare_act; [| |by intros x d [[? _] _]].
  - intros d [Hd (j & Hj & Hg & Hsy)]. destruct Hd as [[Ha Ho] Hsrc].
    destruct (archived_rename d j Ha Hsrc Hj (Hsy eq_refl) Hg) as (Ha' & Hsrc' & Hdst'). split; [|done]. split; [|done]. split; [done|].
    intros name H1 H2 H3. rewrite stat_rename_ne by done. by apply Ho.
  - intros d [Hd _]. done.
Qed.

Hypothesis b_filled : b ≠ [].

Lemma compact_hoare : hoare safe (compactYesterday gzip gunzip day) (fun _ => safe).
Proof.
  assert (Hret : forall P : disk -> Prop, (forall d, P d -> safe d) -> hoare P (mret tt : io unit) (fun _ => safe)).
  { intros P HP. by apply hoare_ret. }
  assert (Hthen : forall P name, (forall d, P d -> safe (remove name d) /\ safe d) -> hoare P (act (remove name) ;; mret tt : io unit) (fun _ => safe)).
  { intros P name HP. eapply hoare_bind; [apply (hoare_act safe P _ (fun _ => safe)); [by intros d [? _]%HP|by intros d [_ ?]%HP|done]|]. intros x. by apply Hret. }
  assert (Hsane : forall d, safe d -> sane d) by by intros d [[? _ _] _].
  unfold compactYesterday. eapply hoare_bind; [apply hoare_Stat|]. intros info. cbn.
  assert (Hno : hoare safe (act (remove tmp) ;; mret tt : io unit) (fun _ => safe)).
  { apply Hthen. intros d Hd. split; [|done]. pose proof (Hsane d Hd). eapply safe_tmp; [exact Hd|by apply sane_remove|].
    intros. by apply stat_remove_ne. }
  destruct info as [i|]; [|eapply hoare_pre; [|exact Hno]; by intros d [? _]].
  apply (hoare_learn safe (i_bytes i = b)).
  { intros d [[[_ _ [(j & Hj & Hb & _)|[Hn _]]] _] [|Hi]]; try done; congruence. }
  intros Hb. apply (hoare_pre _ _ _ with_src).
  { intros d [Hd [|Hi]]; [done|]. split; [done|]. destruct Hd as [[_ _ [?|[Hn _]]] _]; [done|congruence]. }
  destruct i as [[|c l] m sy]; [by destruct b_filled|]. cbn in Hb. clear Hb Hno.
  eapply hoare_bind; [apply hoare_Stat|]. intros old. cbn. 
  eapply (hoare_bind _ _ _ _ (fun (x : bool) d => safe d /\ (x = true -> with_src d))).
  - destruct old as [i|].
    2: { apply hoare_ret. intros d [Hd _]. split; [apply Hd|done]. }
    eapply hoare_bind; [apply hoare_verify|]. intros [|]; cbn.
    + eapply hoare_bind.
      { apply (hoare_act safe _ _ (fun _ => safe)); [|by intros d [[[? _] _] _]|done].
        intros d [[[Hd Hsrc] Ho] Hv]. destruct (Hv eq_refl) as (j & Hj & Hg).
        apply safe_remove; [done|by left|]. apply archived_remove_src; [apply Hd|]. exists j. split; [done|].
        destruct Hd as [[_ Hdst _] _]. destruct (Hdst j Hj) as [_ [Hnone|?]]; [by rewrite Hnone in Hg; destruct Hg|done]. }
      intros x. by apply hoare_ret.
    + eapply hoare_bind.
      { apply (hoare_act safe _ _ (fun _ => with_src)); [|by intros d [[? _] _]|by intros _ d [? _]].
        intros d [[[Hd Hsrc] Ho] _]. destruct (archived_remove_dst d (proj1 Hd) Hsrc) as [Ha Hs].
        split; [|done]. apply safe_remove; [done|by right; left|done]. }
      intros x. apply hoare_ret. intros d Hd. split; [apply Hd|done].
  - intros again. destruct again; cbn; [|apply Hret; by intros d [? _]].
    apply (hoare_pre _ _ _ with_src); [by intros d [_ ?]; auto|].
    eapply hoare_bind; [apply compress_safe|]. intros ok. apply Hthen. intros d [Hd Hdst]. split; [|apply Hd].
    destruct ok.
    + apply safe_remove; [apply Hd|by left|]. apply archived_remove_src; [apply Hd|by apply Hdst].
    + by apply with_src_remove_tmp.
Qed.

(** Without failures the day ends up in its archive only. *)
Lemma compress_runs : runs (fun d => sane d /\ is_Some (stat d src)) (compressGzipAtomic gzip gunzip src dst tmp) (fun x d => x = true).
Proof using gunzip_gzip.
  unfold compressGzipAtomic. eapply runs_bind; [apply (runs_Stat _ _ (fun r d => (sane d /\ is_Some (stat d src)) /\ r = stat d src)); done|].
  intros [i|]; cbn.
  2: { intros d seen [[_ [j Hj]] Hno]. congruence. }
  eapply runs_bind; [apply (runs_act _ _ (fun x d => x = true /\ is_Some (stat d tmp)))|].
  { intros d [[Ha _] _]. split; [done|]. by apply stat_open_trunc. }
  intros x. apply (runs_learn (x = true)); [by intros d [-> _]|]. intros ->. cbn.
  eapply runs_bind; [apply (runs_act_or _ _ _ (fun x d => x = true /\ is_Some (stat d tmp))); by intros d [_ ?]|].
  intros x. apply (runs_learn (x = true)); [by intros d [-> _]|]. intros ->. cbn.
  set (good := fun d => exists j, stat d tmp = Some j /\ is_Some (gunzip (i_bytes j))).
  eapply runs_bind; [apply (runs_act_or _ _ _ (fun x d => x = true /\ good d))|].
  { intros d [_ [j Hj]]. split; [done|]. eexists. rewrite stat_on_file, Hj. split; [done|]. cbn. rewrite gunzip_gzip. by eexists. }
  intros x. apply (runs_learn (x = true)); [by intros d [-> _]|]. intros ->. cbn.
  eapply runs_bind; [apply (runs_act _ _ (fun x d => x = true /\ good d))|].
  { intros d [_ (j & Hj & Hg)]. split; [done|]. exists (sync j). rewrite stat_on_file, Hj. split; [done|exact Hg]. }
  intros x. apply (runs_learn (x = true)); [by intros d [-> _]|]. intros ->. cbn.
  eapply runs_bind; [apply (runs_attempt _ (fun x d => x = true /\ good d)); by intros d [_ ?]|].
  intros x. apply (runs_learn (x = true)); [by intros d [-> _]|]. intros ->. cbn.
  eapply runs_bind.
  { unfold verifyGzipArchive. eapply runs_bind; [apply (runs_Stat _ _ (fun r d => exists j, r = Some j /\ is_Some (gunzip (i_bytes j))))|].
    - intros d (_ & j & -> & Hg). by exists j.
    - intros r. apply (runs_ret _ _ (fun x d => x = true)). intros d (j & -> & Hg). cbn. by apply is_some_true. }
  intros x. apply (runs_learn (x = true)); [done|]. intros ->. cbn. by apply runs_act.
Qed.

Lemma compact_runs : runs sane (compactYesterday gzip gunzip day) (fun _ d => from_option (fun i => i_bytes i = []) True (stat d src)).
Proof using gunzip_gzip.
  set (gone := fun d : disk => from_option (fun i => i_bytes i = []) True (stat d src)).
  assert (Hremove : forall P : disk -> Prop, runs P (act (remove src) ;; mret tt : io unit) (fun _ => gone)).
  { intros P. eapply runs_bind; [apply (runs_act _ _ (fun _ => gone)); intros d _; unfold gone; by rewrite stat_remove|]. intros x. by apply runs_ret. }
  unfold compactYesterday. eapply runs_bind; [apply (runs_Stat _ _ (fun r d => sane d /\ r = stat d src)); done|]. intros info. cbn.
  assert (Hno : runs gone (act (remove tmp) ;; mret tt : io unit) (fun _ => gone)).
  { eapply runs_bind; [apply (runs_act _ _ (fun _ => gone))|intros x; by apply runs_ret].
    intros d Hd. unfold gone. rewrite stat_remove_ne by apart. exact Hd. }
  destruct info as [[[|c l] m sy]|].
  - eapply runs_pre; [|exact Hno]. intros d [_ Hi]. unfold gone. by rewrite <- Hi.
  - eapply runs_bind; [apply (runs_Stat _ _ (fun r d => (sane d /\ is_Some (stat d src)) /\ r = stat d dst))|].
    { intros d [Hs Hi]. split; [|done]. split; [done|]. rewrite <- Hi. by eexists. }
    intros old. cbn. eapply (runs_bind _ _ _ (fun (x : bool) d => if x then sane d /\ is_Some (stat d src) else gone d)).
    + destruct old as [i|].
      * eapply runs_bind; [unfold verifyGzipArchive; eapply runs_bind; [apply (runs_Stat _ _ (fun _ d => sane d /\ is_Some (stat d src))); by intros d [? _]|]; intros r; by apply (runs_ret _ _ (fun _ d => sane d /\ is_Some (stat d src)))|].
        intros [|]; cbn.
        -- eapply runs_bind; [apply (runs_act _ _ (fun _ => gone)); intros d _; unfold gone; by rewrite stat_remove|]. intros x. by apply runs_ret.
        -- eapply runs_bind; [apply (runs_act _ _ (fun _ d => sane d /\ is_Some (stat d src)))|intros x; by apply runs_ret].
           intros d [Hs Hi]. split; [by apply sane_remove|]. rewrite stat_remove_ne by apart. done.
      * apply runs_ret. by intros d [? _].
    + intros [|]; cbn; [|by apply runs_ret]. eapply runs_bind; [apply compress_runs|]. intros ok.
      apply (runs_learn (ok = true)); [done|]. intros ->. apply Hremove.
  - eapply runs_pre; [|exact Hno]. intros d [_ Hi]. unfold gone. by rewrite <- Hi.
Qed.
End compaction.

(** Power is lost: what was not synced is anything, and what is found is on the disk. *)
Definition power_lost (d d' : disk) : Prop :=
  names d' = names d /\ fresh d' = fresh d /\
  (forall n, is_Some (inodes d !! n) <-> is_Some (inodes d' !! n)) /\
  forall n i i', inodes d !! n = Some i -> inodes d' !! n = Some i' ->
    i_synced i' = true /\ (i_synced i = true -> i_bytes i' = i_bytes i).

Lemma power_stat d d' name : power_lost d d' ->
  match stat d name, stat d' name with
  | Some i, Some i' => i_synced i' = true /\ (i_synced i = true -> i_bytes i' = i_bytes i)
  | None, None => True
  | _, _ => False
  end.
Proof.
  intros (Hn & _ & Hdom & Hi). unfold stat. rewrite Hn. destruct (names d !! name) as [n|]; cbn; [|done].
  specialize (Hdom n). destruct (inodes d !! n) as [i|] eqn:H1, (inodes d' !! n) as [i'|] eqn:H2; [by eapply Hi| | |done].
  - by destruct (proj1 Hdom ltac:(by eexists)).
  - by destruct (proj2 Hdom ltac:(by eexists)).
Qed.

Lemma archived_power gunzip day b d d' : power_lost d d' -> archived gunzip day b d -> archived gunzip day b d'.
Proof.
  intros Hp [Hs Hd Ho]. pose proof (power_stat d d' (archive_of day) Hp) as Hsrc. pose proof (power_stat d d' (archive_of day +:+ ".gz") Hp) as Hdst.
  destruct Hp as (Hn & Hf & Hdom & _). split.
  - split; rewrite Hn; [apply Hs|]. intros a n Ha. rewrite Hf. apply (sane_fresh d Hs) in Ha as [? Ha]. split; [done|]. by apply Hdom.
  - intros i' Hi'. rewrite Hi' in Hdst. destruct (stat d _) as [i|] eqn:Hi; [|done]. destruct Hdst as [? Hb]. split; [done|].
    destruct (Hd i eq_refl) as [Hsy Hg]. by rewrite Hb.
  - destruct Ho as [(i & Hi & Hb & Hsy)|[Hno (i & Hi & Hg)]].
    + left. rewrite Hi in Hsrc. destruct (stat d' _) as [i'|]; [|done]. destruct Hsrc as [? Hb']. exists i'. split; [done|]. rewrite Hb' by done. done.
    + right. rewrite Hno in Hsrc. destruct (stat d' (archive_of day)); [done|]. split; [done|]. rewrite Hi in Hdst.
      destruct (stat d' _) as [i'|]; [|done]. destruct (Hd i Hi) as [Hsy _]. destruct Hdst as [_ Hb']. exists i'. split; [done|]. by rewrite Hb'.
Qed.


(** ** Cleaning keeps within the budget *)

Fixpoint remove_all (l : list string) (d : disk) : disk :=
  match l with [] => d | name :: l => remove_all l (remove name d) end.

Lemma remove_all_names l d name : names (remove_all l d) !! name = if decide (name ∈ l) then None else names d !! name.
Proof.
  revert d. induction l as [|x l IH]; intros d; cbn [remove_all]; [done|]. rewrite IH. cbn [names remove].
  destruct (decide (name ∈ l)) as [Hin|Hout].
  - rewrite decide_True by by right. done.
  - destruct (decide (name = x)) as [->|Hne].
    + rewrite decide_True by by left. apply lookup_delete_eq.
    + rewrite decide_False by (intros [?|?]%elem_of_cons; done). by apply lookup_delete_ne.
Qed.
Lemma remove_all_inodes l d : inodes (remove_all l d) = inodes d.
Proof. revert d. induction l as [|x l IH]; intros d; cbn [remove_all]; [done|]. by rewrite IH. Qed.
Lemma stat_remove_all l d name : stat (remove_all l d) name = if decide (name ∈ l) then None else stat d name.
Proof. unfold stat. rewrite remove_all_names, remove_all_inodes. by case_decide. Qed.
Lemma remove_all_app l l' d : remove_all (l ++ l') d = remove_all l' (remove_all l d).
Proof. revert d. induction l as [|x l IH]; intros d; cbn [app remove_all]; [done|by rewrite IH]. Qed.

Section cleaning.
Context `{ord : !MapOrder string}.
Variable ParseInLocation : string -> option Z.
Variable sort_by_mod : list archive -> list archive.
Hypothesis sort_perm : forall l, sort_by_mod l ≡ₚ l.
Hypothesis sort_sorted : forall l, StronglySorted (fun a b => a_mod a <= a_mod b) (sort_by_mod l).
Variables cutoff maxBytes : Z.
Notation is_old := (expired ParseInLocation cutoff).

Definition archive_at (d : disk) (name : string) : option archive :=
  if is_archive name then (fun i => mkArchive name (file_size i) (i_mod i)) <$> stat d name else None.
Definition archives_in (d : disk) : list archive := omap (archive_at d) (ReadDir d).
Definition total_size (l : list archive) : Z := foldr (fun a t => a_size a + t) 0 l.

Lemma total_size_app l l' : total_size (l ++ l') = total_size l + total_size l'.
Proof using Type. induction l as [|a l IH]; cbn [app total_size foldr]; [done|]. unfold total_size in *. lia. Qed.
Lemma total_size_perm l l' : l ≡ₚ l' -> total_size l = total_size l'.
Proof using Type. induction 1; cbn [total_size foldr] in *; unfold total_size in *; lia. Qed.

(** The unexpired archives among some names, and the expired ones. *)
Fixpoint sorted_out (d : disk) (entries : list string) : list archive * list string :=
  match entries with
  | [] => ([], [])
  | name :: entries =>
      let '(live, old) := sorted_out d entries in
      match archive_at d name with
      | None => (live, old)
      | Some a => if is_old name then (live, name :: old) else (a :: live, old)
      end
  end.

Lemma archive_at_remove name other d : other ≠ name -> archive_at (remove name d) other = archive_at d other.
Proof using Type. intros. unfold archive_at. by rewrite stat_remove_ne. Qed.
Lemma archive_at_name d name a : archive_at d name = Some a -> a_name a = name.
Proof using Type. unfold archive_at. destruct (is_archive name); [|done]. destruct (stat d name); [|done]. by intros [= <-]. Qed.

Lemma sorted_out_remove name entries d : name ∉ entries -> sorted_out (remove name d) entries = sorted_out d entries.
Proof using Type.
  induction entries as [|x entries IH]; intros Hno; [done|]. cbn [sorted_out]. apply not_elem_of_cons in Hno as [Hne Hno].
  rewrite IH by done. by rewrite archive_at_remove.
Qed.

Lemma sorted_out_live d entries a : a ∈ (sorted_out d entries).1 <->
  exists name, name ∈ entries /\ archive_at d name = Some a /\ is_old name = false.
Proof using Type.
  induction entries as [|x entries IH]; cbn [sorted_out].
  { rewrite elem_of_nil. setoid_rewrite elem_of_nil. naive_solver. }
  setoid_rewrite elem_of_cons. destruct (sorted_out d entries) as [live old]. cbn [fst] in IH.
  destruct (archive_at d x) as [a'|] eqn:Ha; cbn [fst].
  2: { rewrite IH. split; [intros (n & ? & ?); exists n; auto|]. intros (n & [->|?] & ? & ?); [congruence|by exists n]. }
  destruct (is_old x) eqn:Hold; cbn [fst]; rewrite ?elem_of_cons, IH.
  - split; [intros (n & ? & ?); exists n; auto|]. intros (n & [->|?] & ? & ?); [congruence|by exists n].
  - split; [intros [->|(n & ? & ?)]; [exists x; auto|exists n; auto]|]. intros (n & [->|?] & Hn & ?); [left; congruence|right; by exists n].
Qed.

Lemma sorted_out_old d entries name : name ∈ (sorted_out d entries).2 <->
  name ∈ entries /\ is_Some (archive_at d name) /\ is_old name = true.
Proof using Type.
  induction entries as [|x entries IH]; cbn [sorted_out]; [rewrite !elem_of_nil; tauto|].
  rewrite elem_of_cons. destruct (sorted_out d entries) as [live old]. cbn [snd] in IH.
  destruct (archive_at d x) as [a'|] eqn:Ha; cbn [snd].
  2: { rewrite IH. split; [tauto|]. intros [[->|?] [[? ?] ?]]; [congruence|]. split; [done|]. split; [by eexists|done]. }
  destruct (is_old x) eqn:Hold; cbn [snd]; rewrite ?elem_of_cons, IH.
  - split; [|tauto]. intros [->|?]; [|tauto]. split; [by left|]. split; [by eexists|done].
  - split; [tauto|]. intros [[->|?] [? ?]]; [congruence|tauto].
Qed.

Lemma sorted_out_nodup d entries : NoDup entries -> NoDup (a_name <$> (sorted_out d entries).1).
Proof using Type.
  induction 1 as [|x entries Hno Hnd IH]; cbn [sorted_out]; [constructor|].
  pose proof (sorted_out_live d entries) as Hlive. destruct (sorted_out d entries) as [live old]. cbn [fst] in *.
  destruct (archive_at d x) as [a|] eqn:Ha; [|done]. destruct (is_old x); [done|]. cbn. constructor; [|done].
  intros (a' & Hn & (n & Hin & Hat & _)%Hlive)%list_elem_of_fmap. apply archive_at_name in Ha, Hat. congruence.
Qed.

Lemma runs_scan entries : NoDup entries -> forall d seen, exists seen',
  cleanup_scan ParseInLocation cutoff entries (mkWorld d [] seen) =
    (((sorted_out d entries).1, total_size (sorted_out d entries).1), mkWorld (remove_all (sorted_out d entries).2 d) [] seen').
Proof using Type.
  intros Hnd. induction Hnd as [|name entries Hno Hnd IH]; intros d seen; [by eexists|].
  cbn [cleanup_scan sorted_out]. destruct (sorted_out d entries) as [live old] eqn:Hs.
  unfold archive_at. destruct (is_archive name) eqn:Ha; cbn [negb].
  2: { destruct (IH d seen) as [seen' ->]. exists seen'. by rewrite Hs. }
  unfold mbind at 1, io_bind at 1, Stat at 1. cbn [next_fate w_fates works w_disk].
  destruct (stat d name) as [i|] eqn:Hi; cbn [fmap option_fmap option_map].
  2: { destruct (IH d seen) as [seen' ->]. exists seen'. by rewrite Hs. }
  destruct (is_old name) eqn:Hold.
  - unfold mbind at 1, io_bind at 1, act, act_or. cbn [next_fate w_fates works w_disk w_seen].
    destruct (IH (remove name d) (remove name d :: seen)) as [seen' ->]. exists seen'. by rewrite sorted_out_remove, Hs.
  - destruct (IH d seen) as [seen' Hsc]. exists seen'. unfold mbind, io_bind. rewrite Hsc, Hs. done.
Qed.

(** How many archives go, the oldest first. *)
Fixpoint trimmed (l : list archive) (total : Z) : nat :=
  match l with
  | [] => 0
  | a :: l => if total <=? maxBytes then 0 else S (trimmed l (total - a_size a))
  end.
Lemma runs_trim l : forall total d seen, exists seen',
  cleanup_trim maxBytes l total (mkWorld d [] seen) = (tt, mkWorld (remove_all (a_name <$> take (trimmed l total) l) d) [] seen').
Proof using Type.
  induction l as [|a l IH]; intros total d seen; [by eexists|]. cbn [cleanup_trim trimmed].
  destruct (total <=? maxBytes); [by eexists|]. unfold mbind at 1, io_bind at 1, act, act_or. cbn [next_fate w_fates works w_disk w_seen].
  destruct (IH (total - a_size a) (remove (a_name a) d) (remove (a_name a) d :: seen)) as [seen' ->]. by exists seen'.
Qed.
Lemma trimmed_le l total : (trimmed l total <= length l)%nat.
Proof using Type. revert total. induction l as [|a l IH]; intros total; cbn [trimmed length]; [done|]. destruct (total <=? maxBytes); [lia|]. specialize (IH (total - a_size a)). lia. Qed.
Lemma trimmed_spec l total : total = total_size l -> let k := trimmed l total in
  (total_size (drop k l) <= maxBytes \/ drop k l = []) /\
  forall k' a, k = S k' -> l !! k' = Some a -> maxBytes < total_size (drop k l) + a_size a.
Proof using Type.
  revert total. induction l as [|a l IH]; intros total Ht; cbn [trimmed]; [split; [by right|done]|].
  destruct (Z.leb_spec total maxBytes); cbn [drop]; [split; [left; lia|done]|].
  cbn [total_size foldr] in Ht. fold (total_size l) in Ht. specialize (IH (total - a_size a) ltac:(lia)) as [H1 H2]. split; [done|].
  intros k' b [= <-] Hb. destruct (trimmed l (total - a_size a)) as [|k] eqn:Hk; cbn [lookup list_lookup] in Hb; [|by eapply H2].
  injection Hb as <-. rewrite drop_0. lia.
Qed.

Lemma ReadDir_spec d name : name ∈ ReadDir d <-> is_Some (names d !! name).
Proof using Type.
  unfold ReadDir. rewrite list_elem_of_fmap. split.
  - intros ([n i] & -> & Hin%elem_of_map_order). by exists i.
  - intros [i Hi]. exists (name, i). split; [done|]. by apply elem_of_map_order.
Qed.
Lemma ReadDir_nodup d : NoDup (ReadDir d).
Proof using Type. unfold ReadDir. rewrite map_order_perm. apply NoDup_fst_map_to_list. Qed.
Lemma archives_in_spec d a : a ∈ archives_in d <-> archive_at d (a_name a) = Some a.
Proof using Type.
  unfold archives_in. rewrite list_elem_of_omap. split.
  - intros (name & _ & Ha). by rewrite (archive_at_name _ _ _ Ha).
  - intros Ha. exists (a_name a). split; [|done]. apply ReadDir_spec. unfold archive_at, stat in Ha.
    destruct (is_archive _); [|done]. destruct (names d !! a_name a); [by eexists|done].
Qed.
Lemma archives_in_nodup d : NoDup (archives_in d).
Proof using Type.
  unfold archives_in. induction (ReadDir_nodup d) as [|name l Hno Hnd IH]; cbn [omap list_omap]; [constructor|].
  destruct (archive_at d name) as [a|] eqn:Ha; [|done]. constructor; [|done].
  intros (name' & Hin & Ha')%list_elem_of_omap. apply archive_at_name in Ha, Ha'. congruence.
Qed.

(** The removed files: those that expired, and the first of the others. *)
Lemma cleanup_removes d : exists l k, let out := sorted_out d (ReadDir d) in
  l = sort_by_mod out.1 /\ k = trimmed l (total_size l) /\
  w_disk (cleanupConversations ParseInLocation sort_by_mod cutoff maxBytes (mkWorld d [] [])).2 =
    remove_all (out.2 ++ (a_name <$> take k l)) d.
Proof using sort_perm.
  set (out := sorted_out d (ReadDir d)). exists (sort_by_mod out.1), (trimmed (sort_by_mod out.1) (total_size (sort_by_mod out.1))).
  split; [done|]. split; [done|]. unfold cleanupConversations.
  destruct (runs_scan _ (ReadDir_nodup d) d []) as [seen' Hs].
  unfold mbind, io_bind, attempt. cbn [next_fate w_fates works w_disk negb]. rewrite Hs. fold out. rewrite (total_size_perm _ _ (sort_perm out.1)).
  rewrite remove_all_app. destruct (Z.leb_spec (total_size out.1) maxBytes) as [Hle|Hgt].
  - cbn. destruct (sort_by_mod out.1) as [|a l]; cbn [trimmed]; [done|]. by rewrite (proj2 (Z.leb_le _ _) Hle).
  - edestruct (runs_trim (sort_by_mod out.1)) as [seen'' ->]. done.
Qed.

(** C36: what the daily cleaning leaves.  Only archives are removed; none that has
    expired is left; what is left fits into the budget, unless nothing is left; and
    an archive that has not expired goes only when it is at most as recent as all that
    stay and the budget would be exceeded with the last one that went. *)
Theorem cleanup_within_budget d :
  let d' := w_disk (cleanupConversations ParseInLocation sort_by_mod cutoff maxBytes (mkWorld d [] [])).2 in
  let kept := archives_in d' in
  (forall name, is_archive name = false -> stat d' name = stat d name) /\
  (forall a, a ∈ kept -> a ∈ archives_in d /\ is_old (a_name a) = false) /\
  (total_size kept <= maxBytes \/ kept = []) /\
  (forall a, a ∈ archives_in d -> is_old (a_name a) = false -> a ∉ kept ->
     (forall b, b ∈ kept -> a_mod a <= a_mod b) /\
     exists last, last ∈ archives_in d /\ last ∉ kept /\ a_mod a <= a_mod last /\ maxBytes < total_size kept + a_size last).
Proof.
  intros d' kept. destruct (cleanup_removes d) as (l & k & Hl & Hk & Hd'). fold d' in Hd'.
  pose proof (sorted_out_live d (ReadDir d)) as Hlive. pose proof (sorted_out_old d (ReadDir d)) as Hold.
  pose proof (sorted_out_nodup d (ReadDir d) (ReadDir_nodup d)) as Hnd.
  destruct (sorted_out d (ReadDir d)) as [live old]. cbn [fst snd] in *.
  assert (Hin : forall a, a ∈ l <-> a ∈ archives_in d /\ is_old (a_name a) = false).
  { intros a. rewrite Hl, sort_perm, Hlive, archives_in_spec. split.
    - intros (name & _ & Ha & Ho). rewrite (archive_at_name _ _ _ Ha). done.
    - intros [Ha Ho]. exists (a_name a). split; [|done]. apply ReadDir_spec. unfold archive_at, stat in Ha.
      destruct (is_archive _); [|done]. destruct (names d !! a_name a); [by eexists|done]. }
  assert (Hndl : NoDup (a_name <$> l)) by (rewrite Hl; rewrite (fmap_Permutation a_name _ _ (sort_perm live)); exact Hnd).
  assert (Hat : forall name, archive_at d' name = if decide (name ∈ old ++ (a_name <$> take k l)) then None else archive_at d name).
  { intros name. unfold archive_at. rewrite Hd', stat_remove_all. destruct (is_archive name); case_decide; done. }
  rewrite <- (take_drop k l), fmap_app, NoDup_app in Hndl. destruct Hndl as (_ & Hapart & Hndd).
  assert (Hkept : forall a, a ∈ kept <-> a ∈ drop k l).
  { intros a. unfold kept. rewrite archives_in_spec, Hat. split.
    - case_decide as Hr; [done|]. intros Ha. rewrite elem_of_app in Hr. apply Decidable.not_or in Hr as [Hno Htake].
      assert (Hal : a ∈ l).
      { apply Hin. rewrite archives_in_spec. split; [done|]. apply not_true_iff_false. intros Ho. apply Hno, Hold.
        split; [|split; [by eexists|done]]. apply ReadDir_spec. unfold archive_at, stat in Ha.
        destruct (is_archive _); [|done]. destruct (names d !! a_name a); [by eexists|done]. }
      rewrite <- (take_drop k l), elem_of_app in Hal. destruct Hal as [Hal|?]; [|done]. destruct Htake. by apply list_elem_of_fmap_2.
    - intros Hdrop. assert (Hal : a ∈ l) by (rewrite <- (take_drop k l), elem_of_app; by right).
      apply Hin in Hal as [Ha Ho]. rewrite archives_in_spec in Ha. case_decide as Hr; [|done]. exfalso.
      apply elem_of_app in Hr as [(_ & _ & Ho')%Hold|Hr]; [congruence|]. apply (Hapart _ Hr). by apply list_elem_of_fmap_2. }
  assert (Hperm : kept ≡ₚ drop k l).
  { apply NoDup_Permutation; [apply archives_in_nodup|by eapply NoDup_fmap_1|exact Hkept]. }
  destruct (trimmed_spec l (total_size l) eq_refl) as [Hfit Hneed]. rewrite <- Hk in Hfit, Hneed.
  split; [|split; [|split]].
  - intros name Hn. rewrite Hd', stat_remove_all. case_decide as Hr; [|done]. exfalso.
    assert (Hno : archive_at d name = None) by (unfold archive_at; by rewrite Hn).
    apply elem_of_app in Hr as [(_ & [? ?] & _)%Hold|(a & -> & Ha)%list_elem_of_fmap]; [congruence|].
    assert (Hal : a ∈ l) by (rewrite <- (take_drop k l), elem_of_app; by left). apply Hin in Hal as [Hal _]. rewrite archives_in_spec in Hal. congruence.
  - intros a Ha%Hkept. apply Hin. rewrite <- (take_drop k l), elem_of_app. by right.
  - rewrite (total_size_perm _ _ Hperm). destruct Hfit as [?|Hd]; [by left|right]. rewrite Hd in Hperm. by apply Permutation_nil.
  - intros a Ha Ho Hnot. assert (Hal : a ∈ l) by by apply Hin.
    assert (Htake : a ∈ take k l).
    { rewrite <- (take_drop k l), elem_of_app in Hal. destruct Hal as [?|?]; [done|]. by destruct Hnot; apply Hkept. }
    pose proof (sort_sorted live) as Hs. rewrite <- Hl in Hs. rewrite <- (take_drop k l) in Hs. split.
    + intros b Hb%Hkept. by eapply (StronglySorted_app_1_elem_of (fun a b => a_mod a <= a_mod b) (take k l) (drop k l)).
    + destruct k as [|k']; [by apply elem_of_nil in Htake|].
      apply list_elem_of_lookup in Htake as [j Hj]. apply lookup_take_Some in Hj as [Hj Hjk].
      destruct (lookup_lt_is_Some_2 l k') as [last Hlast]; [pose proof (trimmed_le l (total_size l)); lia|].
      assert (Hlt : last ∈ take (S k') l).
      { apply list_elem_of_lookup. exists k'. rewrite lookup_take_Some. split; [done|lia]. }
      assert (Hll : last ∈ l) by by eapply list_elem_of_lookup_2.
      exists last. split; [by apply Hin|]. split; [|split].
      * intros Hb%Hkept. apply (Hapart (a_name last)); by apply list_elem_of_fmap_2.
      * destruct (decide (j = k')) as [->|Hne]; [rewrite Hj in Hlast; injection Hlast as <-; lia|].
        pose proof (sort_sorted live) as Hs'. rewrite <- Hl in Hs'. rewrite <- (take_drop k' l) in Hs'.
        eapply (StronglySorted_app_1_elem_of (fun a b => a_mod a <= a_mod b) (take k' l) (drop k' l)); [exact Hs'| |].
        -- apply list_elem_of_lookup. exists j. rewrite lookup_take_Some. split; [done|lia].
        -- apply list_elem_of_lookup. exists 0%nat. by rewrite lookup_drop, Nat.add_0_r.
      * rewrite (total_size_perm _ _ Hperm). by eapply Hneed.
Qed.
End cleaning.

(** ** At a directory *)

Definition demo_gzip (b : bytes) : bytes := lit "gz" ++ b.
Definition demo_gunzip (b : bytes) : option bytes := strip (lit "gz") b.
Lemma demo_gunzip_gzip b : demo_gunzip (demo_gzip b) = Some b.
Proof. done. Qed.

Definition one_file (name : string) (b : bytes) : disk := mkDisk {[name := 0%nat]} {[0%nat := mkInode b 0 true]} 1 0.
Lemma one_file_archived day b : archived demo_gunzip day b (one_file (archive_of day) b).
Proof.
  assert (Hst : forall name, stat (one_file (archive_of day) b) name = if decide (name = archive_of day) then Some (mkInode b 0 true) else None).
  { intros name. unfold stat, one_file. cbn. case_decide as Hn; [subst; by rewrite lookup_singleton_eq|]. by rewrite lookup_singleton_ne. }
  split.
  - split; cbn; [intros ? ? ? [<- <-]%lookup_singleton_Some [<- _]%lookup_singleton_Some; done|].
    intros a n [<- <-]%lookup_singleton_Some. split; [lia|]. rewrite lookup_singleton_eq. by eexists.
  - intros i. rewrite Hst, decide_False by apply dst_src. done.
  - left. eexists. by rewrite Hst, decide_True.
Qed.

(** A run that stops behind the rename, and the one after it. *)
Definition demo_day : string := "2026-01-01".
Definition stopped_compaction : disk :=
  w_disk (compactYesterday demo_gzip demo_gunzip demo_day
    (mkWorld (one_file (archive_of demo_day) (lit "x")) (repeat (mkFate true []) 10 ++ [mkFate false []]) [])).2.

(** A day that is written again after its compaction, as after a clock that was set
    back: its new records are removed, and are in no file. *)
Definition day_again : disk :=
  mkDisk {["2026-01-01.jsonl"%string := 0%nat; "2026-01-01.jsonl.gz"%string := 1%nat]}
    {[0%nat := mkInode (lit "new") 0 true; 1%nat := mkInode (lit "gzold") 0 true]} 2 0.
Lemma rewritten_day_is_lost :
  let d := w_disk (compactYesterday demo_gzip demo_gunzip demo_day (mkWorld day_again [] [])).2 in
  i_bytes <$> stat day_again "2026-01-01.jsonl" = Some (lit "new") /\
  stat d "2026-01-01.jsonl" = None /\ i_bytes <$> stat d "2026-01-01.jsonl.gz" = Some (lit "gzold").
Proof. by vm_compute. Qed.

Definition before_mod (a b : archive) : Prop := a_mod a <= a_mod b.
#[export] Instance before_mod_dec a b : Decision (before_mod a b).
Proof. unfold before_mod. apply _. Defined.
#[export] Instance before_mod_total : Total before_mod.
Proof. intros a b. unfold before_mod. lia. Qed.
#[export] Instance before_mod_trans : Transitive before_mod.
Proof. intros a b c. unfold before_mod. lia. Qed.

(** Three archives and another file; one has expired, and two are too many. *)
Definition three_days : disk :=
  mkDisk {["1.jsonl.gz"%string := 0%nat; "2.jsonl.gz"%string := 1%nat; "3.jsonl"%string := 2%nat; "notes"%string := 3%nat]}
    {[0%nat := mkInode (lit "aa") 1 true; 1%nat := mkInode (lit "bb") 2 true; 2%nat := mkInode (lit "cc") 3 true; 3%nat := mkInode (lit "dd") 0 true]} 4 0.
Definition demo_parse (day : string) : option Z :=
  match day with "1"%string => Some 1 | "2"%string => Some 2 | "3"%string => Some 3 | _ => None end.
Lemma cleanup_within_budget_witness :
  let d := w_disk (cleanupConversations demo_parse (merge_sort before_mod) 2 3 (mkWorld three_days [] [])).2 in
  is_Some (stat d "notes") /\ stat d "1.jsonl.gz" = None /\ stat d "2.jsonl.gz" = None /\
  (total_size (archives_in d) <= 3 \/ archives_in d = []) /\ i_bytes <$> stat d "3.jsonl" = Some (lit "cc").
Proof.
  destruct (cleanup_within_budget demo_parse (merge_sort before_mod) (merge_sort_Permutation before_mod)
    (StronglySorted_merge_sort before_mod) 2 3 three_days) as (Hother & _ & Hfit & _).
  split; [rewrite Hother by done; by eexists|]. split; [by vm_compute|]. split; [by vm_compute|]. split; [exact Hfit|by vm_compute].
Defined.
