(* ===== verification/Conversation.v ===== *)
(** * Keeping conversations

    op/conversation.go: records of finished requests wait in a bounded queue, and a
    goroutine appends them to a file per day; shutting down and clearing the archive
    stop it.  [ConvFiles] has the files. *)

From Stdlib Require Import Ascii String Sorted.
From S2P Require Import Prelude GoStrings MaskText GoJson Gjson ConvFiles.
#[local] Set Default Proof Using "Type*".
Local Open Scope Z_scope.
Local Open Scope list_scope.

(** ** Settings *)

Definition DefaultConversationRetentionDays : Z := 3.
Definition ConversationRetentionDaysMin : Z := 1.
Definition ConversationRetentionDaysMax : Z := 365.
Definition DefaultConversationDirMaxGB : Z := 5.
Definition ConversationDirMaxGBMin : Z := 1.
Definition ConversationDirMaxGBMax : Z := 100.
Definition ConversationPendingMaxBytes : Z := 16 * 1024 * 1024.

(** The argument: what [SettingGetInt] gives, if it gives a number. *)
Definition conversationRetentionDays (v : option Z) : Z :=
  match v with
  | None => DefaultConversationRetentionDays
  | Some v => if v <? ConversationRetentionDaysMin then DefaultConversationRetentionDays
              else if ConversationRetentionDaysMax <? v then ConversationRetentionDaysMax else v
  end.
Definition conversationDirMaxBytes (v : option Z) : Z :=
  match v with
  | None => DefaultConversationDirMaxGB * 1024 * 1024 * 1024
  | Some v => if v <? ConversationDirMaxGBMin then DefaultConversationDirMaxGB * 1024 * 1024 * 1024
              else if ConversationDirMaxGBMax <? v then ConversationDirMaxGBMax * 1024 * 1024 * 1024
              else v * 1024 * 1024 * 1024
  end.

(** ** Records *)

(** [Meta]: the members that this part does not look at. *)
Record ConversationRecord := mkConv { Meta : json; Messages : option json; RawRequest : string; Response : string }.
Definition record_size (r : ConversationRecord) : Z := slen (RawRequest r) + slen (Response r).
Definition total_bytes (l : list ConversationRecord) : Z := foldr (fun r t => record_size r + t) 0 l.

(** ** bufio.Writer *)

Definition bufio_size : nat := 4096.
Record bufio := mkBufio { b_ino : nat; b_buf : bytes; b_err : bool }.

Definition appended (now : Z) (p : bytes) (i : inode) : inode := mkInode (i_bytes i ++ p) now false.
(** [os.File.Write]: whether all was written, and how much. *)
Definition file_Write (n : nat) (p : bytes) : io (bool * nat) := fun w =>
  let '(f, w) := next_fate w in
  let k := if works f then length p else length (take (length p) (leaves f)) in
  let d := on_inode n (appended (clock (w_disk w)) (take k p)) (w_disk w) in
  ((works f, k), mkWorld d (w_fates w) (d :: w_seen w)).

Definition Flush (w : bufio) : io (bool * bufio) :=
  if b_err w then mret (false, w) else
  match b_buf w with
  | [] => mret (true, w)
  | _ :: _ =>
      '(ok, n) ← file_Write (b_ino w) (b_buf w);
      mret (if ok : bool then (true, mkBufio (b_ino w) [] false) else (false, mkBufio (b_ino w) (drop n (b_buf w)) true))
  end.

(** The loop fills and flushes once, writes the rest directly once, and ends. *)
Fixpoint Write_loop (fuel : nat) (p : bytes) (w : bufio) : io (bool * bufio) :=
  let Available := (bufio_size - length (b_buf w))%nat in
  if b_err w then mret (false, w) else
  if (length p <=? Available)%nat then mret (true, mkBufio (b_ino w) (b_buf w ++ p) false) else
  match fuel with
  | O => mret (false, w)
  | S fuel =>
      match b_buf w with
      | [] =>
          '(ok, n) ← file_Write (b_ino w) p;
          Write_loop fuel (drop n p) (mkBufio (b_ino w) [] (negb ok))
      | _ :: _ =>
          '(_, w) ← Flush (mkBufio (b_ino w) (b_buf w ++ take Available p) false);
          Write_loop fuel (drop Available p) w
      end
  end.
Definition Write : bytes -> bufio -> io (bool * bufio) := Write_loop 2.

(** ** The store *)

Record store := mkStore {
  s_dir : bool;
  s_pending : list ConversationRecord; s_bytes : Z;
  s_day : string; s_file : option nat; s_writer : option bufio;
  s_compact : string;
  s_dropped : nat }.

Definition set_pending (l : list ConversationRecord) (n : Z) (s : store) : store :=
  mkStore (s_dir s) l n (s_day s) (s_file s) (s_writer s) (s_compact s) (s_dropped s).
Definition conversationDropLocked (s : store) : store :=
  mkStore (s_dir s) (s_pending s) (s_bytes s) (s_day s) (s_file s) (s_writer s) (s_compact s) (S (s_dropped s)).
Definition set_files (day : string) (f : option nat) (w : option bufio) (compact : string) (s : store) : store :=
  mkStore (s_dir s) (s_pending s) (s_bytes s) day f w compact (s_dropped s).

Section conversations.
Context `{Gjson}.
(** [json.Marshal] of a record; it fails on a number that is no [float64]. *)
Variable Marshal : ConversationRecord -> option bytes.

Definition extractConversationMessages (r : ConversationRecord) : ConversationRecord :=
  if bool_decide (RawRequest r = ""%string) then r else
  let messages := GetBytes (RawRequest r) [key "messages"] in
  if IsArray messages then mkConv (Meta r) messages "" (Response r) else r.

(** *** Capturing *)

(** The records that are evicted come first. *)
Fixpoint evict (size : Z) (l : list ConversationRecord) (n : Z) : list ConversationRecord * list ConversationRecord * Z :=
  match l with
  | [] => ([], [], n)
  | r :: rest =>
      if ConversationPendingMaxBytes <? n + size then
        let '(gone, l, n) := evict size rest (n - record_size r) in (r :: gone, l, n)
      else ([], l, n)
  end.

(** [alive]: the goroutine has not ended. *)
Definition CaptureConversation (enabled alive : bool) (r : ConversationRecord) (s : store) : store :=
  if negb (s_dir s) || negb enabled then s else
  if negb alive then conversationDropLocked s else
  let size := record_size r in
  if ConversationPendingMaxBytes <? size then conversationDropLocked s else
  let '(gone, l, n) := evict size (s_pending s) (s_bytes s) in
  set_pending (l ++ [r]) (n + size) (Nat.iter (length gone) conversationDropLocked s).

(** *** Files *)

Definition closeConversationFileLocked (s : store) : io (bool * store) :=
  match s_writer s with Some w => Flush w ;; mret tt | None => mret tt end ;;
  match s_file s with
  | None => mret (true, set_files (s_day s) None None (s_compact s) s)
  | Some _ => ok ← attempt; mret (ok, set_files (s_day s) None None (s_compact s) s)
  end.

Definition ensureConversationFileLocked (day : string) (s : store) : io (bool * store) :=
  if is_some (s_file s) && bool_decide (s_day s = day) then mret (true, s) else
  '(closed, s) ← closeConversationFileLocked s;
  if negb closed then mret (false, s) else
  made ← attempt;
  if negb made then mret (false, s) else
  let compact := if negb (bool_decide (s_day s = ""%string)) && negb (bool_decide (s_day s = day)) then s_day s else s_compact s in
  let s := set_files (s_day s) None None compact s in
  opened ← act (open_append (archive_of day));
  n ← ((fun w => (names (w_disk w) !! archive_of day, w)) : io (option nat));
  match n with
  | Some n => if opened : bool then mret (true, set_files day (Some n) (Some (mkBufio n [] false)) compact s) else mret (false, s)
  | None => mret (false, s)
  end.

(** *** Writing *)

(** The batch with its entries as they are left, how many were written and their
    bytes. *)
Fixpoint write_entries (w : bufio) (batch : list ConversationRecord) : io (list ConversationRecord * nat * Z * bufio) :=
  match batch with
  | [] => mret ([], 0%nat, 0, w)
  | entry :: rest =>
      let entryBytes := record_size entry in
      let entry := extractConversationMessages entry in
      match Marshal entry with
      | None => mret (entry :: rest, 0%nat, 0, w)
      | Some line =>
          '(ok, w) ← Write (line ++ ["010"%char]) w;
          if negb ok then mret (entry :: rest, 0%nat, 0, w) else
          '(rest, n, size, w) ← write_entries w rest;
          mret (entry :: rest, S n, entryBytes + size, w)
      end
  end.

Definition writeConversationBatch (w : bufio) (batch : list ConversationRecord) : io (list ConversationRecord * nat * Z * bool * bufio) :=
  '(batch, n, size, w) ← write_entries w batch;
  '(flushed, w) ← Flush w;
  mret (batch, n, size, flushed, w).

(** The number of records that were written is returned as well. *)
Definition flushConversationLocked (day : string) (room : bool) (s : store) : io (nat * store) :=
  match s_pending s with
  | [] => mret (0%nat, s)
  | _ :: _ =>
      if negb room then mret (0%nat, conversationDropLocked s) else
      '(ready, s) ← ensureConversationFileLocked day s;
      match s_writer s with
      | Some w =>
          if negb ready then mret (0%nat, conversationDropLocked s) else
          '(batch, n, size, flushed, w) ← writeConversationBatch w (s_pending s);
          let s := set_files (s_day s) (s_file s) (Some w) (s_compact s) s in
          if negb flushed || (n =? 0)%nat then mret (0%nat, set_pending batch (s_bytes s) s)
          else mret (n, set_pending (drop n batch) (Z.max 0 (s_bytes s - size)) s)
      | None => mret (0%nat, conversationDropLocked s)
      end
  end.

(** [conversationFlushBatch] in its three phases: under the lock, without it, and
    under the lock again.  [None]: there is nothing to write, or no place to. *)
Definition flush_begin (day : string) (room : bool) (s : store) : io (option (list ConversationRecord * Z * bufio) * store) :=
  match s_pending s with
  | [] => mret (None, s)
  | _ :: _ =>
      if negb room then mret (None, conversationDropLocked s) else
      '(ready, s) ← ensureConversationFileLocked day s;
      match s_writer s with
      | Some w =>
          if negb ready then mret (None, conversationDropLocked s)
          else mret (Some (s_pending s, s_bytes s, w), set_pending [] 0 s)
      | None => mret (None, conversationDropLocked s)
      end
  end.

Definition flush_end (batch : list ConversationRecord) (batchBytes : Z) (succeeded : nat) (flushed : bool) (s : store) : store :=
  if negb flushed || (succeeded =? 0)%nat then set_pending (batch ++ s_pending s) (s_bytes s + batchBytes) s
  else if (succeeded <? length batch)%nat then
    let remaining := drop succeeded batch in
    set_pending (remaining ++ s_pending s) (s_bytes s + total_bytes remaining) s
  else s.

(** *** Housekeeping, clearing, statistics *)

Variable gzip : bytes -> bytes.
Variable gunzip : bytes -> option bytes.
Context `{ord : !MapOrder string}.
Variable ParseInLocation : string -> option Z.
Variable sort_by_mod : list archive -> list archive.

Definition take_compact (s : store) : string * store := (s_compact s, set_files (s_day s) (s_file s) (s_writer s) "" s).
Definition runConversationHousekeeping (cutoff : Z) (max : option Z) (s : store) : io store :=
  let '(day, s) := take_compact s in
  (if bool_decide (day = ""%string) then mret tt else compactYesterday gzip gunzip day) ;;
  cleanupConversations ParseInLocation sort_by_mod cutoff (conversationDirMaxBytes max) ;;
  mret s.

Fixpoint remove_archives (entries : list string) : io nat :=
  match entries with
  | [] => mret 0%nat
  | name :: entries =>
      if negb (is_archive name) then remove_archives entries else
      removed ← act (remove name);
      n ← remove_archives entries;
      mret (if removed : bool then S n else n)
  end.
(** What is done once the goroutine has ended. *)
Definition finish_flush (day : string) (room : bool) (s : store) : io (nat * bool * store) :=
  '(n, s) ← flushConversationLocked day room s;
  '(closed, s) ← closeConversationFileLocked s;
  mret (n, closed, s).
Definition finish_clear (day : string) (room : bool) (s : store) : io (nat * option nat * store) :=
  '(n, _, s) ← finish_flush day room s;
  let s := set_files "" (s_file s) (s_writer s) "" s in
  listed ← attempt;
  if negb listed then mret (n, None, s) else
  entries ← ((fun w => (ReadDir (w_disk w), w)) : io (list string));
  removed ← remove_archives entries;
  mret (n, Some removed, s).

Record ConversationStats := mkStats {
  st_FileCount : Z; st_TotalBytes : Z; st_MaxBytes : Z; st_RetentionDays : Z;
  st_PendingBytes : Z; st_DroppedTotal : nat; st_OldestDay : string; st_NewestDay : string }.
Definition stats_entry (d : disk) (st : ConversationStats) (name : string) : ConversationStats :=
  if negb (is_archive name) then st else
  match stat d name with
  | None => st
  | Some i =>
      let day := day_of name in
      mkStats (st_FileCount st + 1) (st_TotalBytes st + file_size i) (st_MaxBytes st) (st_RetentionDays st) (st_PendingBytes st) (st_DroppedTotal st)
        (if bool_decide (st_OldestDay st = ""%string) || String.ltb day (st_OldestDay st) then day else st_OldestDay st)
        (if bool_decide (st_NewestDay st = ""%string) || String.ltb (st_NewestDay st) day then day else st_NewestDay st)
  end.
Definition GetConversationStats (max days : option Z) (s : store) (d : disk) : ConversationStats :=
  let st := mkStats 0 0 (conversationDirMaxBytes max) (conversationRetentionDays days) (s_bytes s) (s_dropped s) "" "" in
  if negb (s_dir s) then st else foldl (stats_entry d) st (ReadDir d).

(** ** The goroutine and those who stop it *)

Inductive loop :=
| Idle
| Writing (batch : list ConversationRecord) (batchBytes : Z) (w : bufio)
| Settling (batch : list ConversationRecord) (batchBytes : Z) (succeeded : nat) (flushed : bool)
| House
| Ending            (** the last flush is done, [conversationDone] is still open *)
| Ended.

(** Who holds [conversationFlushMu], and whether it clears the archive. *)
Inductive stopper := Nobody | Waiting (clear : bool) | Finishing (clear : bool).

Record system := mkSystem {
  y_store : store; y_loop : loop;
  y_stopped : bool;   (** [conversationStop] is closed *)
  y_stopper : stopper;
  y_wedged : bool;    (** [conversationMu] is held by one who panicked *)
  y_disk : disk;
  (** what happened to the records that were taken *)
  y_accepted : list ConversationRecord; y_evicted : list ConversationRecord; y_written : list ConversationRecord;
  y_fault : bool }.   (** a batch was not written to its end *)

Definition alive (y : system) : bool := match y_loop y with Ended => false | _ => true end.

(** [InitConversationStore] on the store of a new process. *)
Definition InitConversationStore (d : disk) : system :=
  mkSystem (mkStore true [] 0 "" None None "" 0) Idle false Nobody false d [] [] [] false.

Definition accepts (enabled alive : bool) (r : ConversationRecord) (s : store) : bool :=
  s_dir s && enabled && alive && (record_size r <=? ConversationPendingMaxBytes).
Definition on_capture (enabled : bool) (r : ConversationRecord) (y : system) : system :=
  let s := y_store y in
  let ok := accepts enabled (alive y) r s in
  mkSystem (CaptureConversation enabled (alive y) r s) (y_loop y) (y_stopped y) (y_stopper y) (y_wedged y) (y_disk y)
    (if ok then y_accepted y ++ [r] else y_accepted y)
    (if ok then y_evicted y ++ (evict (record_size r) (s_pending s) (s_bytes s)).1.1 else y_evicted y)
    (y_written y) (y_fault y).

Definition with_loop (s : store) (l : loop) (d : disk) (y : system) : system :=
  mkSystem s l (y_stopped y) (y_stopper y) (y_wedged y) d (y_accepted y) (y_evicted y) (y_written y) (y_fault y).
(** The first [n] records of [l] are written, and no others are to be. *)
Definition note_written (l : list ConversationRecord) (n : nat) (y : system) : system :=
  mkSystem (y_store y) (y_loop y) (y_stopped y) (y_stopper y) (y_wedged y) (y_disk y) (y_accepted y) (y_evicted y)
    (y_written y ++ take n l) (y_fault y || (n <? length l)%nat).
Definition with_stopper (p : stopper) (stopped wedged : bool) (y : system) : system :=
  mkSystem (y_store y) (y_loop y) stopped p wedged (y_disk y) (y_accepted y) (y_evicted y) (y_written y) (y_fault y).

(** A program of files on the disk of the system. *)
Definition run_on {A} (m : io A) (fates : list fate) (y : system) : A * disk :=
  let '(x, w) := m (mkWorld (y_disk y) fates []) in (x, w_disk w).

Inductive conv_step : system -> system -> Prop :=
| step_capture enabled r y : y_wedged y = false -> conv_step y (on_capture enabled r y)
| step_begin day room fates y out s d : y_wedged y = false -> y_loop y = Idle ->
    run_on (flush_begin day room (y_store y)) fates y = ((out, s), d) ->
    conv_step y (with_loop s match out with Some (batch, n, w) => Writing batch n w | None => House end d y)
| step_write fates y batch batchBytes w batch' n size flushed w' d : y_loop y = Writing batch batchBytes w ->
    run_on (writeConversationBatch w batch) fates y = ((batch', n, size, flushed, w'), d) ->
    let s := y_store y in
    let s := set_files (s_day s) (s_file s) (Some w') (s_compact s) s in
    conv_step y (with_loop s (Settling batch' batchBytes n flushed) d y)
| step_settle y batch batchBytes n flushed : y_wedged y = false -> y_loop y = Settling batch batchBytes n flushed ->
    conv_step y (note_written batch (if flushed then n else 0) (with_loop (flush_end batch batchBytes n flushed (y_store y)) House (y_disk y) y))
| step_tick y : y_loop y = Idle -> conv_step y (with_loop (y_store y) House (y_disk y) y)
| step_house cutoff max fates y s d : y_wedged y = false -> y_loop y = House ->
    run_on (runConversationHousekeeping cutoff max (y_store y)) fates y = (s, d) ->
    conv_step y (with_loop s Idle d y)
| step_stop day room fates y n closed s d : y_wedged y = false -> y_loop y = Idle -> y_stopped y = true ->
    run_on (finish_flush day room (y_store y)) fates y = ((n, closed, s), d) ->
    conv_step y (note_written (s_pending (y_store y)) n (with_loop s Ending d y))
| step_end y : y_loop y = Ending -> conv_step y (with_loop (y_store y) Ended (y_disk y) y)
(** [FlushConversations] and [ClearConversationArchives]; closing a closed channel panics *)
| step_ask clear y : y_wedged y = false -> y_stopper y = Nobody ->
    conv_step y (if negb (s_dir (y_store y)) then y
                 else if negb (alive y) then with_stopper (Finishing clear) (y_stopped y) false y
                 else if y_stopped y then with_stopper Nobody true true y
                 else with_stopper (Waiting clear) true false y)
| step_ended clear y : y_stopper y = Waiting clear -> alive y = false ->
    conv_step y (with_stopper (Finishing clear) (y_stopped y) (y_wedged y) y)
| step_gives_up clear y : y_stopper y = Waiting clear ->
    conv_step y (with_stopper Nobody (y_stopped y) (y_wedged y) y)
| step_flushed day room fates y n closed s d : y_wedged y = false -> y_stopper y = Finishing false ->
    run_on (finish_flush day room (y_store y)) fates y = ((n, closed, s), d) ->
    conv_step y (note_written (s_pending (y_store y)) n (with_stopper Nobody (y_stopped y) false (with_loop s (y_loop y) d y)))
| step_cleared day room fates y n removed s d : y_wedged y = false -> y_stopper y = Finishing true ->
    run_on (finish_clear day room (y_store y)) fates y = ((n, removed, s), d) ->
    conv_step y (note_written (s_pending (y_store y)) n (with_stopper Nobody (y_stopped y) false (with_loop s (y_loop y) d y)))
(** other files, and time *)
| step_outside d y : inodes d = inodes (y_disk y) -> names d = names (y_disk y) -> fresh d = fresh (y_disk y) ->
    conv_step y (with_loop (y_store y) (y_loop y) d y).
End conversations.

(** ** Where the records are *)

Section ledger.
Context `{Gjson}.
Variable Marshal : ConversationRecord -> option bytes.
Notation extract := extractConversationMessages.

Lemma str_len_nonneg s : 0 <= slen s.
Proof using Type. unfold slen. lia. Qed.
Lemma record_size_nonneg r : 0 <= record_size r.
Proof using Type. unfold record_size. pose proof (str_len_nonneg (RawRequest r)). pose proof (str_len_nonneg (Response r)). lia. Qed.
Lemma extract_again r : extract (extract r) = extract r.
Proof using Type.
  unfold extractConversationMessages. destruct (bool_decide (RawRequest r = ""%string)) eqn:He; [by rewrite He|].
  destruct (IsArray _) eqn:Ha; cbn [RawRequest]; [done|]. by rewrite He, Ha.
Qed.
Lemma extract_size r : record_size (extract r) <= record_size r.
Proof using Type.
  unfold extractConversationMessages. destruct (bool_decide _); [done|]. destruct (IsArray _); [|done].
  unfold record_size. cbn [RawRequest Response]. pose proof (str_len_nonneg (RawRequest r)). change (slen "") with 0. lia.
Qed.

Lemma total_bytes_app l l' : total_bytes (l ++ l') = total_bytes l + total_bytes l'.
Proof using Type. induction l as [|r l IH]; cbn [app total_bytes foldr]; [done|]. unfold total_bytes in *. lia. Qed.
Lemma total_bytes_nonneg l : 0 <= total_bytes l.
Proof using Type. induction l as [|r l IH]; cbn [total_bytes foldr]; [done|]. pose proof (record_size_nonneg r). unfold total_bytes in *. lia. Qed.
Lemma total_bytes_split n l : total_bytes l = total_bytes (take n l) + total_bytes (drop n l).
Proof using Type. by rewrite <- total_bytes_app, take_drop. Qed.

(** The same records, perhaps with their messages taken out. *)
Definition same_records (l l' : list ConversationRecord) : Prop :=
  extract <$> l' = extract <$> l /\ total_bytes l' <= total_bytes l.
Lemma same_records_refl l : same_records l l.
Proof using Type. split; [done|lia]. Qed.
Lemma same_records_cons r r' l l' : r' = r \/ r' = extract r -> same_records l l' -> same_records (r :: l) (r' :: l').
Proof using Type.
  intros Hr [Hl Ht]. split; cbn [fmap list_fmap total_bytes foldr].
  - f_equal; [|exact Hl]. destruct Hr as [->| ->]; [done|apply extract_again].
  - pose proof (extract_size r). unfold total_bytes in *. destruct Hr as [->| ->]; lia.
Qed.
Lemma same_records_length l l' : same_records l l' -> length l' = length l.
Proof using Type. intros [Hl _]. apply (f_equal length) in Hl. by rewrite !length_fmap in Hl. Qed.

Definition write_outcome (batch batch' : list ConversationRecord) (n : nat) (size : Z) : Prop :=
  same_records batch batch' /\ (n <= length batch)%nat /\ size = total_bytes (take n batch) /\
  total_bytes (drop n batch') <= total_bytes (drop n batch).

Lemma write_entries_spec batch : forall w world, let '(batch', n, size, _) := (write_entries Marshal w batch world).1 in
  write_outcome batch batch' n size.
Proof using Type.
  induction batch as [|r batch IH]; intros w world; cbn [write_entries].
  { split; [apply same_records_refl|]. cbn. by repeat split. }
  assert (Hstop : write_outcome (r :: batch) (extract r :: batch) 0 0).
  { split; [apply same_records_cons; [by right|apply same_records_refl]|]. cbn [take drop length]. split; [lia|]. split; [done|].
    cbn [total_bytes foldr]. pose proof (extract_size r). unfold total_bytes. lia. }
  destruct (Marshal (extract r)) as [line|]; [|exact Hstop].
  unfold mbind at 1, io_bind at 1. destruct (Write _ w world) as [[ok w1] world1]. destruct ok; cbn [negb]; [|exact Hstop].
  specialize (IH w1 world1). unfold mbind, io_bind. destruct (write_entries Marshal w1 batch world1) as [[[[batch' n] size] w2] world2]. cbn [fst] in IH.
  destruct IH as (Hsame & Hn & Hsize & Hrest). cbn. split; [apply same_records_cons; [by right|done]|]. cbn [take drop length].
  split; [lia|]. split; [|exact Hrest]. cbn [total_bytes foldr]. fold (total_bytes (take n batch)). lia.
Qed.

Lemma writeConversationBatch_spec batch w world : let '(batch', n, size, _, _) := (writeConversationBatch Marshal w batch world).1 in
  write_outcome batch batch' n size.
Proof using Type.
  unfold writeConversationBatch, mbind, io_bind. pose proof (write_entries_spec batch w world) as Hs.
  destruct (write_entries Marshal w batch world) as [[[[batch' n] size] w1] world1]. cbn [fst] in Hs.
  destruct (Flush w1 world1) as [[flushed w2] world2]. exact Hs.
Qed.

(** The files change, the queue does not. *)
Definition same_queue (s s' : store) : Prop :=
  s_dir s' = s_dir s /\ s_pending s' = s_pending s /\ s_bytes s' = s_bytes s /\ (s_dropped s <= s_dropped s')%nat.
Lemma same_queue_trans s1 s2 s3 : same_queue s1 s2 -> same_queue s2 s3 -> same_queue s1 s3.
Proof using Type. unfold same_queue. intuition; (congruence || lia). Qed.
Lemma set_files_queue day f w c s : same_queue s (set_files day f w c s).
Proof using Type. by repeat split. Qed.
Lemma drop_queue s : same_queue s (conversationDropLocked s).
Proof using Type. repeat split. cbn. lia. Qed.

Lemma close_queue s world : same_queue s (closeConversationFileLocked s world).1.2.
Proof using Type.
  unfold closeConversationFileLocked, mbind, io_bind.
  destruct (s_writer s) as [w|]; [destruct (Flush w world) as [[ok w1] world1]|]; cbn;
    (destruct (s_file s); [|apply set_files_queue]); [destruct (attempt world1)|destruct (attempt world)]; apply set_files_queue.
Qed.
Lemma ensure_queue day s world : same_queue s (ensureConversationFileLocked day s world).1.2.
Proof using Type.
  unfold ensureConversationFileLocked. destruct (_ && _); [by repeat split|]. unfold mbind, io_bind.
  pose proof (close_queue s world) as Hc. destruct (closeConversationFileLocked s world) as [[closed s1] world1]. cbn [fst snd] in Hc.
  destruct closed; cbn [negb]; [|done]. destruct (attempt world1) as [made world2]. destruct made; cbn [negb]; [|done].
  destruct (act _ world2) as [opened world3]. cbv beta.
  destruct (names (w_disk world3) !! archive_of day) as [n|]; [destruct opened|]; (eapply same_queue_trans; [exact Hc|]); by repeat split.
Qed.

(** What a flush makes of the queue: it stays, or its first [n] records are written. *)
Definition flush_outcome (s : store) (n : nat) (s' : store) : Prop :=
  s_dir s' = s_dir s /\ (s_dropped s <= s_dropped s')%nat /\ (n <= length (s_pending s))%nat /\
  exists batch, same_records (s_pending s) batch /\ s_pending s' = drop n batch /\
    total_bytes (drop n batch) <= total_bytes (drop n (s_pending s)) /\
    s_bytes s' = (if (n =? 0)%nat then s_bytes s else Z.max 0 (s_bytes s - total_bytes (take n (s_pending s)))).

Lemma flush_stays s s' : same_queue s s' -> flush_outcome s 0 s'.
Proof using Type.
  intros (Hd & Hp & Hb & Hdr). split; [done|]. split; [done|]. split; [lia|]. exists (s_pending s). rewrite Hp.
  split; [apply same_records_refl|]. by repeat split.
Qed.

Lemma conv_flush_spec day room s world : let '(n, s') := (flushConversationLocked Marshal day room s world).1 in flush_outcome s n s'.
Proof using Type.
  unfold flushConversationLocked. destruct (s_pending s) as [|r l] eqn:Hp; [apply flush_stays; by repeat split|].
  destruct room; cbn [negb]; [|apply flush_stays, drop_queue]. unfold mbind, io_bind.
  pose proof (ensure_queue day s world) as He. destruct (ensureConversationFileLocked day s world) as [[ready s1] world1]. cbn [fst snd] in He.
  destruct (s_writer s1) as [w|]; [|apply flush_stays; eapply same_queue_trans; [exact He|apply drop_queue]].
  destruct ready; cbn [negb]; [|apply flush_stays; eapply same_queue_trans; [exact He|apply drop_queue]].
  destruct He as (Hd & Hpe & Hb & Hdr). pose proof (writeConversationBatch_spec (s_pending s1) w world1) as Hw.
  destruct (writeConversationBatch Marshal w (s_pending s1) world1) as [[[[[batch n] size] flushed] w2] world2]. cbn [fst] in Hw.
  rewrite Hpe in Hw. destruct Hw as (Hsame & Hn & Hsize & Hrest).
  destruct (negb flushed || (n =? 0)%nat) eqn:Hfail; cbn [fst mret io_ret].
  - split; [done|]. split; [done|]. split; [lia|]. exists batch. split; [done|]. cbn. split; [done|]. split; [apply Hsame|]. done.
  - apply orb_false_iff in Hfail as [_ Hn0]. split; [done|]. split; [done|]. split; [done|]. exists batch. split; [done|]. cbn.
    split; [done|]. split; [done|]. rewrite Hn0, Hsize. by rewrite Hb.
Qed.

Lemma evict_spec size l : forall n, let '(gone, l', n') := evict size l n in
  l = gone ++ l' /\ n' = n - total_bytes gone /\ (l' = [] \/ n' + size <= ConversationPendingMaxBytes).
Proof using Type.
  induction l as [|r l IH]; intros n; cbn [evict]; [split; [done|]; cbn; split; [lia|by left]|].
  destruct (Z.ltb_spec ConversationPendingMaxBytes (n + size)).
  - specialize (IH (n - record_size r)). destruct (evict size l (n - record_size r)) as [[gone l'] n'].
    destruct IH as (-> & -> & Hfit). split; [done|]. cbn [total_bytes foldr]. fold (total_bytes gone). split; [lia|done].
  - split; [done|]. cbn. split; [lia|]. by right.
Qed.

Definition in_flight (l : loop) : list ConversationRecord :=
  match l with Writing batch _ _ | Settling batch _ _ _ => batch | _ => [] end.
Definition loop_ok (fault : bool) (l : loop) : Prop :=
  match l with
  | Writing batch n _ => batch ≠ [] /\ total_bytes batch <= n /\ (fault = false -> n = total_bytes batch /\ n <= ConversationPendingMaxBytes)
  | Settling batch n k _ => batch ≠ [] /\ total_bytes batch <= n /\ (k <= length batch)%nat /\ (fault = false -> n <= ConversationPendingMaxBytes)
  | _ => True
  end.

(** Every record that was taken is written, evicted or on its way, in the order in
    which it came; the counter covers the queue, and is exact and within the budget
    while no batch was left unfinished. *)
Record conv_ok (y : system) : Prop := {
  co_ledger : extract <$> (y_written y ++ y_evicted y ++ in_flight (y_loop y) ++ s_pending (y_store y)) ≡ₚ extract <$> y_accepted y;
  co_order : sublist (extract <$> (in_flight (y_loop y) ++ s_pending (y_store y))) (extract <$> y_accepted y);
  co_bytes : total_bytes (s_pending (y_store y)) <= s_bytes (y_store y);
  co_exact : y_fault y = false ->
    s_bytes (y_store y) = total_bytes (s_pending (y_store y)) /\ s_bytes (y_store y) <= ConversationPendingMaxBytes;
  co_loop : loop_ok (y_fault y) (y_loop y);
  co_dropped : (length (y_evicted y) <= s_dropped (y_store y))%nat }.

Ltac sides := cbn [note_written with_loop with_stopper y_store y_loop y_stopped y_stopper y_wedged y_disk y_accepted y_evicted y_written y_fault
  s_dir s_pending s_bytes s_dropped set_pending in_flight loop_ok].
Lemma conv_init_ok d : conv_ok (InitConversationStore d).
Proof using Type. split; cbn; try done. Qed.

(** The store and the loop change, and the queue does not. *)
Lemma ok_same_queue y s l d : conv_ok y -> same_queue (y_store y) s -> in_flight l = in_flight (y_loop y) -> loop_ok (y_fault y) l ->
  conv_ok (with_loop s l d y).
Proof using Type.
  intros [H1 H2 H3 H4 H5 H6] (Hd & Hp & Hb & Hdr) Hl Hok. split; cbn; rewrite ?Hp, ?Hb, ?Hl; try done. lia.
Qed.
Lemma ok_stopper y p a b : conv_ok y -> conv_ok (with_stopper p a b y).
Proof using Type. by intros [? ? ? ? ? ?]. Qed.

Lemma iter_drop n s : let s' := Nat.iter n conversationDropLocked s in
  s_dir s' = s_dir s /\ s_pending s' = s_pending s /\ s_bytes s' = s_bytes s /\ s_dropped s' = (n + s_dropped s)%nat.
Proof using Type.
  induction n as [|n IH]; [done|]. cbv zeta in *. rewrite Nat.iter_succ. destruct IH as (H1 & H2 & H3 & H4).
  cbn [conversationDropLocked s_dir s_pending s_bytes s_dropped]. rewrite H4. done.
Qed.

Lemma capture_ok enabled r y : conv_ok y -> conv_ok (on_capture enabled r y).
Proof using Type.
  intros Hok. unfold on_capture, accepts, CaptureConversation.
  destruct (s_dir (y_store y)) eqn:Hdir; cbn [negb andb orb]; [|by destruct y, Hok].
  destruct enabled; cbn [negb andb orb]; [|by destruct y, Hok].
  destruct (alive y); cbn [negb andb].
  2: { destruct Hok as [? ? ? ? ? ?]. split; cbn; try done. lia. }
  destruct (Z.leb_spec (record_size r) ConversationPendingMaxBytes) as [Hle|Hgt].
  2: { rewrite (proj2 (Z.ltb_lt _ _)) by lia. destruct Hok as [? ? ? ? ? ?]. split; cbn; try done. lia. }
  rewrite (proj2 (Z.ltb_ge _ _)) by lia.
  pose proof (evict_spec (record_size r) (s_pending (y_store y)) (s_bytes (y_store y))) as He.
  destruct (evict _ _ _) as [[gone l'] n'] eqn:Hev. cbn [fst]. destruct He as (Hp & Hn & Hfit).
  destruct (iter_drop (length gone) (y_store y)) as (_ & _ & _ & Hdr). destruct Hok as [H1 H2 H3 H4 H5 H6].
  assert (Hone : total_bytes [r] = record_size r) by (cbn; lia).
  rewrite Hp in H1, H2, H3, H4. rewrite total_bytes_app in H3, H4. pose proof (total_bytes_nonneg l'). pose proof (total_bytes_nonneg gone).
  split; cbn [on_capture y_store y_loop y_accepted y_evicted y_written y_fault s_pending s_bytes s_dropped set_pending]; try done.
  - rewrite (fmap_app extract (y_accepted y)), <- H1. rewrite !fmap_app. solve_Permutation.
  - rewrite (fmap_app extract (y_accepted y)), app_assoc, fmap_app. apply sublist_app; [|done]. etrans; [|exact H2].
    rewrite !fmap_app. apply sublist_app; [done|]. apply sublist_inserts_l. done.
  - rewrite total_bytes_app, Hone. lia.
  - intros Hf. destruct (H4 Hf) as [Hex Hmax]. rewrite total_bytes_app, Hone. split; [lia|].
    destruct Hfit as [->|?]; [|lia]. cbn in *. lia.
  - rewrite length_app, Hdr. lia.
Qed.

Lemma begin_spec day room s world : let '(out, s') := (flush_begin day room s world).1 in
  match out with
  | None => same_queue s s'
  | Some (batch, n, _) => s_pending s ≠ [] /\ batch = s_pending s /\ n = s_bytes s /\
      s_pending s' = [] /\ s_bytes s' = 0 /\ (s_dropped s <= s_dropped s')%nat
  end.
Proof using Type.
  unfold flush_begin. destruct (s_pending s) as [|r l] eqn:Hp; [by repeat split|].
  destruct room; cbn [negb]; [|apply drop_queue]. unfold mbind, io_bind.
  pose proof (ensure_queue day s world) as He. destruct (ensureConversationFileLocked day s world) as [[ready s1] world1]. cbn [fst snd] in He.
  destruct (s_writer s1) as [w|]; [|eapply same_queue_trans; [exact He|apply drop_queue]].
  destruct ready; cbn [negb]; [|eapply same_queue_trans; [exact He|apply drop_queue]].
  destruct He as (Hd & Hpe & Hb & Hdr). cbn. by rewrite Hpe, Hb, Hp.
Qed.

Lemma begin_ok y out s d l : conv_ok y -> in_flight (y_loop y) = [] ->
  l = match out with Some (batch, n, w) => Writing batch n w | None => House end ->
  match out with
  | None => same_queue (y_store y) s
  | Some (batch, n, _) => s_pending (y_store y) ≠ [] /\ batch = s_pending (y_store y) /\ n = s_bytes (y_store y) /\
      s_pending s = [] /\ s_bytes s = 0 /\ (s_dropped (y_store y) <= s_dropped s)%nat
  end -> conv_ok (with_loop s l d y).
Proof using Type.
  intros Hok Hidle -> Hout. destruct out as [[[batch n] w]|].
  2: { apply ok_same_queue; [done|done|by rewrite Hidle|done]. }
  destruct Hout as (Hne & -> & -> & Hp & Hb & Hdr). destruct Hok as [H1 H2 H3 H4 H5 H6]. rewrite Hidle in H1, H2. cbn [app] in H1, H2.
  split; cbn; rewrite ?Hp, ?Hb, ?app_nil_r; [done|done|done| | |lia].
  - intros _. split; [done|]. unfold ConversationPendingMaxBytes. lia.
  - split; [done|]. split; [done|]. intros Hf. by destruct (H4 Hf).
Qed.

Lemma write_ok y batch batch' batchBytes w n size s flushed d : conv_ok y -> y_loop y = Writing batch batchBytes w ->
  write_outcome batch batch' n size -> same_queue (y_store y) s -> conv_ok (with_loop s (Settling batch' batchBytes n flushed) d y).
Proof using Type.
  intros [H1 H2 H3 H4 H5 H6] Hl (Hsame & Hn & _ & _) (Hd & Hp & Hb & Hdr). rewrite Hl in *. cbn [in_flight loop_ok] in *.
  pose proof (same_records_length _ _ Hsame) as Hlen. destruct Hsame as [Hx Ht]. destruct H5 as (Hne & Hbb & Hmax).
  split; cbn; rewrite ?Hp, ?Hb; try done; [|  | |lia].
  - rewrite !fmap_app in *. by rewrite Hx.
  - rewrite !fmap_app in *. by rewrite Hx.
  - split; [intros ->; by destruct batch|]. split; [lia|]. split; [by rewrite Hlen|]. intros Hf. by apply Hmax.
Qed.

Lemma conv_settle_ok y batch batchBytes n flushed : conv_ok y -> y_loop y = Settling batch batchBytes n flushed ->
  conv_ok (note_written batch (if flushed then n else 0) (with_loop (flush_end batch batchBytes n flushed (y_store y)) House (y_disk y) y)).
Proof using Type.
  intros [H1 H2 H3 H4 H5 H6] Hl. rewrite Hl in *. cbn [in_flight loop_ok] in *. destruct H5 as (Hne & Hbb & Hn & _).
  assert (Hlen : (0 < length batch)%nat) by (destruct batch; [done|cbn; lia]).
  unfold flush_end. destruct (negb flushed || (n =? 0)%nat) eqn:Hfail.
  - assert (Hz : (if flushed then n else 0%nat) = 0%nat).
    { destruct flushed; [|done]. by apply Nat.eqb_eq. }
    rewrite Hz. split; sides; rewrite ?app_nil_r; try done; [rewrite total_bytes_app; lia|].
    intros Hf. rewrite (proj2 (Nat.ltb_lt _ _)) in Hf by done. by rewrite orb_true_r in Hf.
  - apply orb_false_iff in Hfail as [Hfl%negb_false_iff Hn0]. subst flushed.
    destruct (Nat.ltb_spec n (length batch)) as [Hlt|Hge].
    + split; sides; try done.
      * rewrite <- H1, !fmap_app, fmap_take, fmap_drop. rewrite <- (take_drop n (extract <$> batch)) at 3. solve_Permutation.
      * etrans; [|exact H2]. cbn [app]. rewrite !fmap_app. apply sublist_app; [|reflexivity]. apply fmap_sublist, sublist_drop.
      * rewrite total_bytes_app. lia.
      * intros Hf. rewrite (proj2 (Nat.ltb_lt n (length batch)) Hlt), orb_true_r in Hf. done.
    + assert (n = length batch) as -> by lia. split; sides; rewrite ?firstn_all; try done.
      * rewrite <- H1. rewrite !fmap_app. solve_Permutation.
      * etrans; [|exact H2]. cbn [app]. rewrite fmap_app. apply sublist_inserts_l. reflexivity.
      * intros Hf. apply H4. by apply orb_false_iff in Hf as [? _].
Qed.

(** The last flush: nothing is in flight. *)
Lemma flush_all_ok y n s s1 l d : conv_ok y -> in_flight (y_loop y) = [] -> in_flight l = [] -> loop_ok false l ->
  flush_outcome (y_store y) n s1 -> same_queue s1 s ->
  conv_ok (note_written (s_pending (y_store y)) n (with_loop s l d y)).
Proof using Type.
  intros [H1 H2 H3 H4 H5 H6] Hidle Hl Hlok (_ & Hdr & Hn & batch & [Hx Ht] & Hp & Hrest & Hb) (_ & Hp' & Hb' & Hdr').
  rewrite Hidle in H1, H2. cbn [app] in H1, H2. pose proof (total_bytes_split n (s_pending (y_store y))) as Hsplit.
  pose proof (total_bytes_nonneg (take n (s_pending (y_store y)))).
  split; sides; rewrite ?Hl, ?Hp', ?Hb', ?Hp, ?Hb; cbn [app].
  - rewrite <- H1, !fmap_app, fmap_take, fmap_drop, Hx. rewrite <- (take_drop n (extract <$> s_pending (y_store y))) at 3. solve_Permutation.
  - etrans; [|exact H2]. rewrite fmap_drop, Hx. apply sublist_drop.
  - destruct (Nat.eqb_spec n 0) as [->|]; [rewrite drop_0 in *; lia|lia].
  - intros [Hf Hlen%Nat.ltb_ge]%orb_false_iff. destruct (H4 Hf) as [Hex Hmax]. assert (n = length (s_pending (y_store y))) as -> by lia.
    assert (Hbl : length batch = length (s_pending (y_store y))) by (apply (f_equal length) in Hx; by rewrite !length_fmap in Hx).
    rewrite (drop_ge batch) by lia. rewrite firstn_all. change (total_bytes []) with 0.
    destruct (Nat.eqb_spec (length (s_pending (y_store y))) 0) as [Hz|Hz]; [|unfold ConversationPendingMaxBytes in *; lia].
    apply nil_length_inv in Hz. rewrite Hex, Hz. cbn. split; [done|]. unfold ConversationPendingMaxBytes. lia.
  - destruct l; cbn in *; try done; subst; by destruct Hlok.
  - lia.
Qed.

Lemma conv_finish_spec day room s world : let '(n, _, s') := (finish_flush Marshal day room s world).1 in
  exists s1, flush_outcome s n s1 /\ same_queue s1 s'.
Proof using Type.
  unfold finish_flush, mbind, io_bind. pose proof (conv_flush_spec day room s world) as Hf.
  destruct (flushConversationLocked Marshal day room s world) as [[n s1] world1]. cbn [fst] in Hf.
  pose proof (close_queue s1 world1) as Hc. destruct (closeConversationFileLocked s1 world1) as [[closed s2] world2]. by exists s1.
Qed.

Context `{ord : !MapOrder string}.
Lemma clear_spec day room s world : let '(n, _, s') := (finish_clear Marshal day room s world).1 in
  exists s1, flush_outcome s n s1 /\ same_queue s1 s'.
Proof using Type.
  unfold finish_clear, mbind, io_bind. pose proof (conv_finish_spec day room s world) as Hf.
  destruct (finish_flush Marshal day room s world) as [[[n closed] s2] world2]. cbn [fst] in Hf. destruct Hf as (s1 & Hf & Hs).
  assert (Hs' : same_queue s1 (set_files "" (s_file s2) (s_writer s2) "" s2)) by (eapply same_queue_trans; [exact Hs|apply set_files_queue]).
  destruct (attempt world2) as [listed world3]. destruct listed; cbn [negb]; [|by exists s1].
  destruct (remove_archives _ world3) as [removed world4]. by exists s1.
Qed.

Variable gzip : bytes -> bytes.
Variable gunzip : bytes -> option bytes.
Variable ParseInLocation : string -> option Z.
Variable sort_by_mod : list archive -> list archive.
Notation step := (conv_step Marshal gzip gunzip ParseInLocation sort_by_mod).

Lemma house_spec cutoff max s world : same_queue s (runConversationHousekeeping gzip gunzip ParseInLocation sort_by_mod cutoff max s world).1.
Proof using Type.
  unfold runConversationHousekeeping, take_compact, mbind, io_bind.
  destruct (bool_decide _); [|destruct (compactYesterday gzip gunzip _ world) as [u world1]]; cbn;
    destruct (cleanupConversations ParseInLocation sort_by_mod cutoff (conversationDirMaxBytes max) _) as [v world2]; apply set_files_queue.
Qed.

(** Who finishes stopping does so behind the goroutine. *)
Definition stop_ok (y : system) : Prop := forall c, y_stopper y = Finishing c -> y_loop y = Ended.
Ltac step_cases Hstep := destruct Hstep as [enabled r y Hw|day room fates y out s d Hw Hl Hrun|fates y batch bb w batch' n size fl w' d Hl Hrun| y batch bb n fl Hw Hl|y Hl|cutoff mx fates y s d Hw Hl Hrun|day room fates y n closed s d Hw Hl Hst Hrun|y Hl|clear y Hw Hp|clear y Hp Ha|clear y Hp| day room fates y n closed s d Hw Hp Hrun|day room fates y n removed s d Hw Hp Hrun|d y _ _ _].

Lemma step_stop_ok y y' : stop_ok y -> step y y' -> stop_ok y'.
Proof using Type.
  intros Hok Hstep. step_cases Hstep; intros c; cbn; try (intros Hc; rewrite (Hok c Hc) in Hl; discriminate); try done.
  - apply Hok.
  - unfold alive. destruct (negb (s_dir _)); [apply Hok|]. destruct (y_loop y) eqn:Hl; cbn [negb]; try done; by destruct (y_stopped y).
  - unfold alive in Ha. intros _. by destruct (y_loop y).
  - apply Hok.
Qed.

Lemma step_ok y y' : conv_ok y -> stop_ok y -> step y y' -> conv_ok y'.
Proof using Type.
  intros Hok Hstop Hstep. step_cases Hstep.
  - by apply capture_ok.
  - eapply begin_ok; [done|by rewrite Hl|reflexivity|].
    pose proof (begin_spec day room (y_store y) (mkWorld (y_disk y) fates [])) as Hb. unfold run_on in Hrun.
    destruct (flush_begin day room (y_store y) _) as [[out' s'] world']. by injection Hrun as <- <- <-.
  - pose proof (writeConversationBatch_spec batch w (mkWorld (y_disk y) fates [])) as Hb. unfold run_on in Hrun.
    destruct (writeConversationBatch Marshal w batch _) as [[[[[b1 n1] size1] fl1] w1] world1]. injection Hrun as <- <- <- <- <- <-.
    eapply write_ok; [done|done|exact Hb|apply set_files_queue].
  - by apply conv_settle_ok.
  - apply ok_same_queue; [done|by repeat split|by rewrite Hl|done].
  - apply ok_same_queue; [done| |by rewrite Hl|done].
    pose proof (house_spec cutoff mx (y_store y) (mkWorld (y_disk y) fates [])) as Hb. unfold run_on in Hrun.
    destruct (runConversationHousekeeping _ _ _ _ _ _ _ _) as [s' world']. by injection Hrun as <- <-.
  - pose proof (conv_finish_spec day room (y_store y) (mkWorld (y_disk y) fates [])) as Hb. unfold run_on in Hrun.
    destruct (finish_flush Marshal day room (y_store y) _) as [[[n1 c1] s2] world1]. injection Hrun as <- <- <- <-.
    destruct Hb as (s1 & Hf & Hs). eapply flush_all_ok; [done|by rewrite Hl|done|done|exact Hf|exact Hs].
  - apply ok_same_queue; [done|by repeat split|by rewrite Hl|done].
  - destruct (negb (s_dir _)); [done|]. destruct (negb (alive y)); [by apply ok_stopper|]. destruct (y_stopped y); by apply ok_stopper.
  - by apply ok_stopper.
  - by apply ok_stopper.
  - pose proof (conv_finish_spec day room (y_store y) (mkWorld (y_disk y) fates [])) as Hb. unfold run_on in Hrun.
    destruct (finish_flush Marshal day room (y_store y) _) as [[[n1 c1] s2] world1]. injection Hrun as <- <- <- <-.
    destruct Hb as (s1 & Hf & Hs). rewrite (Hstop _ Hp).
    by apply (flush_all_ok (with_stopper Nobody (y_stopped y) false y) _ _ s1); [apply ok_stopper|cbn; rewrite (Hstop _ Hp)|..].
  - pose proof (clear_spec day room (y_store y) (mkWorld (y_disk y) fates [])) as Hb. unfold run_on in Hrun.
    destruct (finish_clear Marshal day room (y_store y) _) as [[[n1 c1] s2] world1]. injection Hrun as <- <- <- <-.
    destruct Hb as (s1 & Hf & Hs). rewrite (Hstop _ Hp).
    by apply (flush_all_ok (with_stopper Nobody (y_stopped y) false y) _ _ s1); [apply ok_stopper|cbn; rewrite (Hstop _ Hp)|..].
  - apply ok_same_queue; [done|by repeat split|done|apply Hok].
Qed.

Notation reaches := (rtc step).

Lemma conv_reachable_ok d y : reaches (InitConversationStore d) y -> conv_ok y /\ stop_ok y.
Proof using Type.
  intros Hy. revert y Hy. apply (rtc_ind_r (fun y => conv_ok y /\ stop_ok y)); [split; [apply conv_init_ok|by intros c]|].
  intros x y _ Hs [Hok Hst]. split; [by eapply step_ok|by eapply step_stop_ok].
Qed.

(** C34: no record is lost on its way.  In every interleaving of requests, the writer,
    its housekeeping, shutdown and clearing, with any failure of the files, the
    records that were taken are those that were written, those that were evicted
    (which the counter covers) and those that wait, which are in their order; the
    byte counter covers the queue, and while every batch was written to its end it is
    exact and the queue and the batch being written are within the budget. *)
Theorem conversation_ledger d y : reaches (InitConversationStore d) y ->
  extract <$> (y_written y ++ y_evicted y ++ in_flight (y_loop y) ++ s_pending (y_store y)) ≡ₚ extract <$> y_accepted y /\
  sublist (extract <$> (in_flight (y_loop y) ++ s_pending (y_store y))) (extract <$> y_accepted y) /\
  (length (y_evicted y) <= s_dropped (y_store y))%nat /\
  total_bytes (s_pending (y_store y)) <= s_bytes (y_store y) /\
  (y_fault y = false ->
     s_bytes (y_store y) = total_bytes (s_pending (y_store y)) /\ s_bytes (y_store y) <= ConversationPendingMaxBytes /\
     total_bytes (in_flight (y_loop y)) <= ConversationPendingMaxBytes).
Proof using Type.
  intros [[H1 H2 H3 H4 H5 H6] _]%conv_reachable_ok. split; [done|]. split; [done|]. split; [done|]. split; [done|].
  intros Hf. destruct (H4 Hf) as [? ?]. split; [done|]. split; [done|]. rewrite Hf in H5.
  destruct (y_loop y); cbn [in_flight loop_ok] in *; try (unfold ConversationPendingMaxBytes; cbn; lia).
  - destruct H5 as (_ & ? & H5). destruct (H5 eq_refl). lia.
  - destruct H5 as (_ & ? & _ & H5). specialize (H5 eq_refl). lia.
Qed.

(** *** A goroutine that has ended *)

Lemma ended_step y y' : y_loop y = Ended -> step y y' -> y_loop y' = Ended /\ y_accepted y' = y_accepted y.
Proof using Type.
  intros He Hstep. step_cases Hstep; try (rewrite He in Hl; discriminate); try done.
  - cbn. split; [done|]. unfold accepts, alive. rewrite He. by rewrite andb_false_r.
  - destruct (negb (s_dir _)); [done|]. destruct (negb (alive y)); [done|]. by destruct (y_stopped y).
Qed.

(** Once the archive has been cleared no record is kept any more: the goroutine has
    ended, and nothing but a new process starts another one. *)
Lemma cleared_keeps_nothing y y' : y_loop y = Ended -> reaches y y' -> y_accepted y' = y_accepted y.
Proof using Type.
  intros He Hy. assert (Hgo : y_loop y' = Ended /\ y_accepted y' = y_accepted y); [|apply Hgo].
  revert y' Hy. apply (rtc_ind_r (fun y' => y_loop y' = Ended /\ y_accepted y' = y_accepted y)); [done|].
  intros a b _ Hab [Ha1 Ha2]. destruct (ended_step _ _ Ha1 Hab) as [? Hb]. split; [done|]. by rewrite Hb.
Qed.

Lemma wedged_step y y' : y_wedged y = true -> step y y' -> y_wedged y' = true /\ y_accepted y' = y_accepted y.
Proof using Type. intros Hx Hstep. step_cases Hstep; try congruence; done. Qed.

(** A second attempt to stop the goroutine before it ended panics with the lock held:
    from then on no request can hand over its record. *)
Lemma second_stop_wedges d : exists y, reaches (InitConversationStore d) y /\ y_wedged y = true /\
  forall y', reaches y y' -> y_wedged y' = true /\ y_accepted y' = y_accepted y.
Proof using Type.
  set (y0 := InitConversationStore d). set (y1 := with_stopper (Waiting true) true false y0).
  set (y2 := with_stopper Nobody true false y1). set (y3 := with_stopper Nobody true true y2).
  exists y3. split; [|split; [done|]].
  - eapply rtc_l; [exact (step_ask Marshal gzip gunzip ParseInLocation sort_by_mod true y0 eq_refl eq_refl)|].
    eapply rtc_l; [exact (step_gives_up Marshal gzip gunzip ParseInLocation sort_by_mod true y1 eq_refl)|].
    eapply rtc_l; [exact (step_ask Marshal gzip gunzip ParseInLocation sort_by_mod true y2 eq_refl eq_refl)|]. apply rtc_refl.
  - apply (rtc_ind_r (fun y' => y_wedged y' = true /\ y_accepted y' = y_accepted y3)); [done|].
    intros a b _ Hab [Hw Ha]. destruct (wedged_step _ _ Hw Hab) as [? Hb]. split; [done|]. by rewrite Hb.
Qed.

(** *** A writer that has failed *)

(** No later batch can be written by it, whatever the disk does: it is kept until
    the day changes. *)
Lemma failed_writer_stays_failed w batch world : b_err w = true ->
  exists batch' n size, writeConversationBatch Marshal w batch world = ((batch', n, size, false, w), world).
Proof using Type.
  intros Hw. assert (Hf : Flush w world = ((false, w), world)) by (unfold Flush; by rewrite Hw).
  assert (He : exists batch', write_entries Marshal w batch world = ((batch', 0%nat, 0, w), world)).
  { destruct batch as [|r batch]; [by eexists|]. cbn [write_entries]. destruct (Marshal _) as [line|]; [|by eexists].
    unfold mbind, io_bind, Write. cbn [Write_loop]. rewrite Hw. by eexists. }
  destruct He as [batch' He]. exists batch', 0%nat, 0. unfold writeConversationBatch, mbind, io_bind. by rewrite He, Hf.
Qed.

(** A record that cannot be encoded stops all that are behind it. *)
Lemma unencodable_head_blocks w r batch world : Marshal (extract r) = None -> b_err w = false -> b_buf w = [] ->
  writeConversationBatch Marshal w (r :: batch) world = ((extract r :: batch, 0%nat, 0, true, w), world).
Proof using Type.
  intros Hm Hw Hb. assert (Hf : Flush w world = ((true, w), world)) by (unfold Flush; by rewrite Hw, Hb).
  unfold writeConversationBatch, mbind, io_bind. cbn [write_entries]. rewrite Hm. cbn. by rewrite Hf.
Qed.
End ledger.

(** ** What a flush writes *)

Section writing.
Context `{Gjson}.
Variable Marshal : ConversationRecord -> option bytes.
Variable N : gmap string nat.
Notation extract := extractConversationMessages.

(** The bytes that the file has or will have once the buffer is flushed. *)
Definition holds (w : bufio) (c : bytes) (d : disk) : Prop :=
  names d = N /\ b_err w = false /\ (length (b_buf w) <= bufio_size)%nat /\
  exists i, inodes d !! b_ino w = Some i /\ i_bytes i ++ b_buf w = c.

Lemma runs_file_Write n p c Q : (forall d i, names d = N -> inodes d !! n = Some i -> i_bytes i = c ++ p -> Q (true, length p) d) ->
  runs (fun d => names d = N /\ exists i, inodes d !! n = Some i /\ i_bytes i = c) (file_Write n p) Q.
Proof using Type.
  intros HQ d seen [Hn (i & Hi & Hc)]. eexists _, _, _. split; [reflexivity|]. cbn [next_fate w_fates works].
  eapply HQ; [done|cbn [inodes on_inode w_disk]; rewrite lookup_alter_eq, Hi; reflexivity|]. cbn. by rewrite Hc, firstn_all.
Qed.

Lemma runs_Flush w c : runs (holds w c) (Flush w) (fun r d => r = (true, mkBufio (b_ino w) [] false) /\ holds (mkBufio (b_ino w) [] false) c d).
Proof using Type.
  unfold Flush. destruct w as [n [|x buf] e]; cbn [b_err b_buf b_ino].
  - destruct e; [intros d seen (_ & He & _); discriminate|]. apply runs_ret. done.
  - destruct e; [intros d seen (_ & He & _); discriminate|].
    intros d seen (Hn & _ & _ & i & Hi & Hc). cbn [b_buf b_ino] in *.
    eapply (runs_bind _ _ _ (fun r d => r = (true, length (x :: buf)) /\ names d = N /\ exists i, inodes d !! n = Some i /\ i_bytes i = c)).
    + apply (runs_file_Write n (x :: buf) (i_bytes i)). intros d' i' Hn' Hi' Hb. split; [done|]. split; [done|]. exists i'. by rewrite Hb, Hc.
    + intros [ok k]. apply (runs_learn (ok = true)); [by intros ? [[= -> ->] _]|]. intros ->. apply runs_ret.
      intros d' (_ & Hn' & i' & Hi' & Hb). split; [done|]. split; [done|]. split; [done|]. cbn. split; [lia|]. exists i'. by rewrite app_nil_r.
    + split; [done|]. by exists i.
Qed.

Notation written w c p := (fun r d => r.1 = true /\ b_ino r.2 = b_ino w /\ holds r.2 (c ++ p) d).

Lemma runs_fits k p w c : (length p <= bufio_size - length (b_buf w))%nat -> runs (holds w c) (Write_loop k p w) (written w c p).
Proof using Type.
  intros Hp. destruct k as [|k]; cbn [Write_loop]; apply (runs_learn (b_err w = false)); try (by intros d (_ & ? & _)); intros ->;
    rewrite (proj2 (Nat.leb_le _ _) Hp); apply runs_ret; intros d (Hn & _ & Hl & i & Hi & Hc);
    (split; [done|]; split; [done|]; split; [done|]; split; [done|]; cbn [b_buf b_ino snd]; rewrite length_app; split; [lia|]; exists i;
     split; [done|]; rewrite <- Hc; by rewrite app_assoc).
Qed.

Lemma runs_direct k p w c : b_buf w = [] -> runs (holds w c) (Write_loop (S k) p w) (written w c p).
Proof using Type.
  intros Hb. destruct (decide (length p <= bufio_size - length (b_buf w))%nat) as [Hp|Hp]; [by apply runs_fits|].
  cbn [Write_loop]. apply (runs_learn (b_err w = false)); [by intros d (_ & ? & _)|]. intros ->.
  rewrite (proj2 (Nat.leb_gt _ _)) by lia. rewrite Hb. intros d seen (Hn & _ & _ & i & Hi & Hc). rewrite Hb, app_nil_r in Hc.
  eapply (runs_bind _ _ _ (fun r d => r = (true, length p) /\ holds (mkBufio (b_ino w) [] false) (c ++ p) d)).
  - apply (runs_file_Write (b_ino w) p c). intros d' i' Hn' Hi' Hb'. split; [done|]. split; [done|]. split; [done|]. cbn. split; [lia|].
    exists i'. by rewrite app_nil_r.
  - intros [ok n]. apply (runs_learn ((ok, n) = (true, length p))); [by intros ? [? _]|]. intros [= -> ->].
    cbn [negb]. rewrite drop_all. eapply runs_pre; [by intros ? [_ Hh]; exact Hh|].
    intros d' seen' Hd'. destruct (runs_fits k [] (mkBufio (b_ino w) [] false) (c ++ p) ltac:(cbn; lia) d' seen' Hd') as (x & d'' & seen'' & Hx & H1 & H2 & H3).
    rewrite app_nil_r in H3. exists x, d'', seen''. done.
  - split; [done|]. by exists i.
Qed.

Lemma runs_refill m p w c : (forall p w c, b_buf w = [] -> runs (holds w c) (Write_loop m p w) (written w c p)) ->
  runs (holds w c) (Write_loop (S m) p w) (written w c p).
Proof using Type.
  intros Hm. destruct (b_buf w) as [|x buf] eqn:Hb; [by apply runs_direct|].
  destruct (decide (length p <= bufio_size - length (b_buf w))%nat) as [Hp|Hp]; [by apply runs_fits|]. cbn [Write_loop].
  apply (runs_learn (b_err w = false)); [by intros d (_ & ? & _)|]. intros ->.
  rewrite (proj2 (Nat.leb_gt _ _)) by lia. rewrite Hb. set (k := (bufio_size - length (x :: buf))%nat).
  set (w1 := mkBufio (b_ino w) ((x :: buf) ++ take k p) false).
  eapply (runs_bind _ _ _ (fun r d => r = (true, mkBufio (b_ino w) [] false) /\ holds (mkBufio (b_ino w) [] false) (c ++ take k p) d)).
  - eapply runs_pre; [|apply (runs_Flush w1)]. intros d (Hn & _ & Hl & i & Hi & Hc). rewrite Hb in Hl, Hc. split; [done|]. split; [done|].
    unfold w1. cbn [b_buf b_ino]. split; [rewrite length_app, length_take; unfold k; lia|]. exists i. split; [done|]. by rewrite app_assoc, Hc.
  - intros [ok w2]. apply (runs_learn (w2 = mkBufio (b_ino w) [] false)); [by intros ? [[= _ ->] _]|]. intros ->.
    eapply runs_pre; [by intros ? [_ Hh]; exact Hh|].
    intros d seen Hd. destruct (Hm (drop k p) (mkBufio (b_ino w) [] false) _ eq_refl d seen Hd) as (r & d' & seen' & Hr & H1 & H2 & H3).
    exists r, d', seen'. split; [done|]. split; [done|]. split; [done|]. by rewrite <- app_assoc, take_drop in H3.
Qed.
Lemma runs_Write p w c : runs (holds w c) (Write p w) (written w c p).
Proof using Type. apply (runs_refill 1). intros. by apply runs_direct. Qed.

(** A record as a line. *)
Definition line_of (r : ConversationRecord) : bytes := default [] (Marshal (extract r)) ++ ["010"%char].
Lemma runs_entries batch : Forall (fun r => is_Some (Marshal (extract r))) batch -> forall w c,
  runs (holds w c) (write_entries Marshal w batch) (fun r d => let '(batch', n, size, w') := r in
    batch' = extract <$> batch /\ n = length batch /\ b_ino w' = b_ino w /\ holds w' (c ++ concat (line_of <$> batch)) d).
Proof using Type.
  induction 1 as [|r batch [line Hr] _ IH]; intros w c; cbn [write_entries].
  { apply runs_ret. intros d Hd. cbn. rewrite app_nil_r. done. }
  rewrite Hr. eapply runs_bind; [apply runs_Write|]. intros [ok w1]. apply (runs_learn (ok = true /\ b_ino w1 = b_ino w)); [by intros d (? & ? & _)|].
  intros [-> Hino]. cbn [negb fst snd]. eapply runs_pre; [by intros d (_ & _ & Hh); exact Hh|].
  eapply runs_bind; [apply IH|]. intros [[[batch' n] size] w2]. apply runs_ret. intros d (-> & -> & Hino2 & Hh).
  split; [done|]. split; [done|]. split; [congruence|]. cbn [fmap list_fmap concat]. unfold line_of at 1. rewrite Hr. cbn [default from_option].
  rewrite <- app_assoc in Hh. exact Hh.
Qed.

Lemma runs_batch batch w c : Forall (fun r => is_Some (Marshal (extract r))) batch ->
  runs (holds w c) (writeConversationBatch Marshal w batch) (fun r d => let '(batch', n, size, flushed, w') := r in
    batch' = extract <$> batch /\ n = length batch /\ flushed = true /\
    names d = N /\ exists i, inodes d !! b_ino w = Some i /\ i_bytes i = c ++ concat (line_of <$> batch)).
Proof using Type.
  intros Hm. unfold writeConversationBatch. eapply runs_bind; [by apply runs_entries|]. intros [[[batch' n] size] w1].
  apply (runs_learn (batch' = extract <$> batch /\ n = length batch /\ b_ino w1 = b_ino w)); [by intros d (? & ? & ? & _)|].
  intros (-> & -> & Hino). eapply runs_pre; [by intros d (_ & _ & _ & Hh); exact Hh|].
  eapply runs_bind; [apply runs_Flush|]. intros [flushed w2]. apply runs_ret. intros d ([= -> ->] & Hn & _ & _ & i & Hi & Hc).
  cbn [b_ino b_buf] in *. rewrite app_nil_r in Hc. rewrite Hino in Hi. split; [done|]. split; [done|]. split; [done|]. split; [done|]. by exists i.
Qed.
End writing.

Section flushing.
Context `{Gjson}.
Variable Marshal : ConversationRecord -> option bytes.
Notation extract := extractConversationMessages.

(** What a file says; nothing if there is none. *)
Definition file_text (d : disk) (name : string) : bytes := from_option i_bytes [] (stat d name).

(** No file is open, or one without an unwritten byte and without a failure; the file
    of the day is still in the directory. *)
Definition writer_ready (d : disk) (day : string) (s : store) : Prop :=
  match s_writer s, s_file s with
  | None, None => True
  | Some w, Some n => w = mkBufio n [] false /\ (s_day s = day -> names d !! archive_of day = Some n)
  | _, _ => False
  end.

Lemma open_append_ok name d : sane d -> exists n i, names (open_append name d) !! name = Some n /\
  inodes (open_append name d) !! n = Some i /\ i_bytes i = file_text d name.
Proof using Type.
  intros Hs. unfold open_append, file_text, stat. destruct (names d !! name) as [n|] eqn:Hn; cbn.
  - destruct (sane_fresh d Hs _ _ Hn) as [_ [i Hi]]. exists n, i. by rewrite Hi.
  - exists (fresh d). eexists. rewrite !lookup_insert_eq. done.
Qed.

Lemma ensure_runs day s d seen : sane d -> writer_ready d day s -> exists n i s' d' seen',
  ensureConversationFileLocked day s (mkWorld d [] seen) = ((true, s'), mkWorld d' [] seen') /\
  s_writer s' = Some (mkBufio n [] false) /\ names d' !! archive_of day = Some n /\
  inodes d' !! n = Some i /\ i_bytes i = file_text d (archive_of day).
Proof using Type.
  intros Hs Hw. unfold ensureConversationFileLocked, writer_ready in *.
  destruct (is_some (s_file s) && bool_decide (s_day s = day)) eqn:Hopen.
  - apply andb_true_iff in Hopen as [Hf Hday%bool_decide_eq_true]. destruct (s_file s) as [n|]; [|done].
    destruct (s_writer s) as [w|] eqn:Hsw; [|done]. destruct Hw as [-> Hn]. specialize (Hn Hday).
    destruct (sane_fresh d Hs _ _ Hn) as [_ [i Hi]]. exists n, i, s, d, seen. rewrite Hsw. split; [done|]. split; [done|]. split; [done|]. split; [done|].
    unfold file_text, stat. rewrite Hn. cbn. by rewrite Hi.
  - assert (Hc : exists s1, closeConversationFileLocked s (mkWorld d [] seen) = ((true, s1), mkWorld d [] seen)).
    { unfold closeConversationFileLocked, mbind, io_bind.
      destruct (s_writer s) as [w|], (s_file s) as [n|]; try done; [destruct Hw as [-> _]|]; by eexists. }
    destruct Hc as [s1 Hc]. unfold mbind, io_bind. rewrite Hc. cbn.
    destruct (open_append_ok (archive_of day) d Hs) as (n & i & Hn & Hi & Hb). rewrite Hn. cbn.
    eexists n, i, _, _, _. split; [reflexivity|]. done.
Qed.


(** The file of the day is removed while it is open, as the cleaning does when it
    alone exceeds the budget: what is written next is written, and found nowhere. *)
Lemma written_to_no_file : let open_day := mkStore true [] 0 "2026-01-01" (Some 0%nat) (Some (mkBufio 0 [] false)) "" 0 in
  let r := mkConv JNull None "" "x" in
  let d := w_disk (cleanupConversations (fun _ => None) (merge_sort before_mod) 0 0 (mkWorld (one_file "2026-01-01.jsonl" (lit "y")) [] [])).2 in
  exists s' world',
  flushConversationLocked (fun r => Some (lit (Response r))) "2026-01-01" true (set_pending [r] 1 open_day) (mkWorld d [] []) = ((1%nat, s'), world') /\
  s_pending s' = [] /\ forall name, stat (w_disk world') name = None.
Proof using Type.
  cbv zeta. set (d := w_disk _). eexists _, _. split; [reflexivity|]. split; [done|]. intros name. unfold stat.
  assert (Hn : names d = ∅) by by vm_compute.
  cbn [w_disk on_inode names]. by rewrite Hn, lookup_empty.
Qed.

Lemma over_budget_with gzip gunzip ParseInLocation sort_by_mod d r : sane d -> record_size r = ConversationPendingMaxBytes -> exists y,
  rtc (conv_step Marshal gzip gunzip ParseInLocation sort_by_mod (ord := canonical_order)) (InitConversationStore d) y /\
  ConversationPendingMaxBytes < s_bytes (y_store y).
Proof using Type.
  intros Hs Hr. set (y0 := InitConversationStore d).
  assert (Hcap : forall s, s_dir s = true -> s_pending s = [] -> s_bytes s = 0 ->
    CaptureConversation true true r s = set_pending [r] ConversationPendingMaxBytes s).
  { intros s Hd Hp Hb. unfold CaptureConversation. rewrite Hd. cbn [negb orb]. rewrite Hr, Z.ltb_irrefl, Hp, Hb. done. }
  set (y1 := on_capture true r y0).
  assert (Hs1 : y_store y1 = set_pending [r] ConversationPendingMaxBytes (y_store y0)) by (apply Hcap; done).
  destruct (ensure_runs "d" (y_store y1) d [] Hs ltac:(by rewrite Hs1)) as (k & i & s2 & d2 & seen2 & He & Hw2 & _).
  pose proof (ensure_queue "d" (y_store y1) (mkWorld d [] [])) as Hq. rewrite He in Hq. cbn [fst snd] in Hq.
  destruct Hq as (Hdir2 & Hp2 & Hb2 & _). rewrite Hs1 in Hdir2, Hp2, Hb2. cbn in Hdir2, Hp2, Hb2.
  set (y2 := with_loop (set_pending [] 0 s2) (Writing [r] ConversationPendingMaxBytes (mkBufio k [] false)) d2 y1).
  set (y3 := on_capture true r y2).
  assert (Hs3 : y_store y3 = set_pending [r] ConversationPendingMaxBytes (set_pending [] 0 s2)) by (apply Hcap; done).
  destruct (run_on (writeConversationBatch Marshal (mkBufio k [] false) [r]) (repeat (mkFate false []) 3) y3) as [[[[[batch n] size] flushed] w4] d4] eqn:Hrun.
  assert (Hfail : negb flushed || (n =? 0)%nat = true).
  { revert Hrun. unfold run_on, writeConversationBatch, mbind, io_bind. cbn [write_entries]. destruct (Marshal _) as [line|].
    2: { cbn. intros Hx. injection Hx. intros. subst. by rewrite orb_true_r. }
    unfold mbind, io_bind, Write. destruct (Write_loop 2 _ _ _) as [[ok w5] world5] eqn:Hwr.
    destruct ok; cbn [negb]; [|cbn; destruct (Flush w5 world5) as [[f w6] world6]; cbn; intros Hx; injection Hx; intros; subst; by rewrite orb_true_r].
    cbn [write_entries mret io_ret]. assert (Hf : exists w6 world6, Flush w5 world5 = ((false, w6), world6)).
    { revert Hwr. remember 1%nat as one. cbn [Write_loop]. cbn [b_err b_buf]. destruct (_ <=? _)%nat; cbn [b_ino app].
      - intros [= <- <-]. unfold Flush. cbn [b_err b_buf]. destruct (line ++ ["010"%char]) eqn:Hl; [by destruct line|]. by eexists _, _.
      - unfold file_Write. cbn. subst one. cbn. done. }
    destruct Hf as (w6 & world6 & ->). cbn. intros Hx. injection Hx. intros. by subst. }
  set (y4 := with_loop (set_files (s_day (y_store y3)) (s_file (y_store y3)) (Some w4) (s_compact (y_store y3)) (y_store y3))
    (Settling batch ConversationPendingMaxBytes n flushed) d4 y3).
  set (y5 := note_written batch (if flushed then n else 0) (with_loop (flush_end batch ConversationPendingMaxBytes n flushed (y_store y4)) House (y_disk y4) y4)).
  exists y5. split.
  - eapply rtc_l; [exact (step_capture Marshal gzip gunzip ParseInLocation sort_by_mod true r y0 eq_refl)|].
    eapply rtc_l.
    { refine (step_begin Marshal gzip gunzip ParseInLocation sort_by_mod "d" true [] y1 (Some ([r], ConversationPendingMaxBytes, mkBufio k [] false)) _ _ eq_refl eq_refl _).
      unfold run_on. change (y_disk y1) with d. unfold flush_begin. rewrite Hs1. cbn [s_pending set_pending negb]. unfold mbind, io_bind. rewrite <- Hs1, He, Hw2. cbn [negb].
      rewrite Hp2, Hb2. reflexivity. }
    eapply rtc_l; [exact (step_capture Marshal gzip gunzip ParseInLocation sort_by_mod true r y2 eq_refl)|].
    eapply rtc_l; [exact (step_write Marshal gzip gunzip ParseInLocation sort_by_mod _ y3 _ _ _ _ _ _ _ _ _ eq_refl Hrun)|].
    eapply rtc_l; [exact (step_settle Marshal gzip gunzip ParseInLocation sort_by_mod y4 _ _ _ _ eq_refl eq_refl)|]. apply rtc_refl.
  - cbn [y5 note_written with_loop y_store]. unfold flush_end. rewrite Hfail. cbn [s_bytes set_pending]. 
    change (s_bytes (y_store y4)) with (s_bytes (y_store y3)). rewrite Hs3. cbn [s_bytes set_pending]. unfold ConversationPendingMaxBytes. lia.
Qed.
(** The budget of the queue is not kept when a batch has to be put back: a record that
    came while it was being written is counted on top of it. *)
Lemma queue_over_budget gzip gunzip ParseInLocation sort_by_mod d : sane d -> exists y,
  rtc (conv_step Marshal gzip gunzip ParseInLocation sort_by_mod (ord := canonical_order)) (InitConversationStore d) y /\
  ConversationPendingMaxBytes < s_bytes (y_store y).
Proof using Type.
  intros Hs. apply (over_budget_with _ _ _ _ _ (mkConv JNull None "" (string_of_list_ascii (repeat "x"%char (Z.to_nat ConversationPendingMaxBytes))))); [done|].
  unfold record_size. cbn [RawRequest Response]. change (slen "") with 0. unfold slen.
  assert (Hl : forall l, String.length (string_of_list_ascii l) = length l) by (induction l as [|c l IH]; cbn; [done|by rewrite IH]).
  rewrite Hl, repeat_length. unfold ConversationPendingMaxBytes. lia.
Qed.
End flushing.

(** ** At a store *)

Definition demo_conversation : ConversationRecord := mkConv JNull None "" "x".
Definition demo_store : store := mkStore true [demo_conversation] 1 "" None None "" 0.
Definition demo_marshal (r : ConversationRecord) : option bytes := Some (lit (Response r)).
Definition demo_taken : system := on_capture true demo_conversation (InitConversationStore (one_file "2026-01-01.jsonl" (lit "y"))).

Lemma conversation_ledger_witness :
  s_pending (y_store demo_taken) = [demo_conversation] /\ s_bytes (y_store demo_taken) = 1 /\
  s_bytes (y_store demo_taken) <= ConversationPendingMaxBytes /\ y_accepted demo_taken = [demo_conversation].
Proof.
  destruct (conversation_ledger (H := gjson_model) demo_marshal demo_gzip demo_gunzip (fun _ => None) (merge_sort before_mod) (ord := canonical_order)
    (one_file "2026-01-01.jsonl" (lit "y")) demo_taken) as (_ & _ & _ & _ & Hex).
  - eapply rtc_l; [by apply step_capture|apply rtc_refl].
  - destruct (Hex eq_refl) as (Hb & Hmax & _). split; [done|]. split; [by rewrite Hb|]. split; [exact Hmax|done].
Defined.

