(* ===== verification/ErrorLogText.v ===== *)
(** * What an error log keeps of a request

    op/error_log.go and op/error_log_mask.go: a failed request is written to the
    database with its texts cut, its secrets replaced, and the values that the
    masks hid in it.  A document of JSON is decoded, edited and written again; any
    other text goes through two expressions. *)

From Stdlib Require Import Ascii String.
From coqutil Require Export Datatypes.RecordSetters.
Export RecordSetters.OCamlLikeNotations.
From stdpp Require Import list sorting.
From S2P Require Import Prelude GoStrings Utf8 MaskText MaskThms GoRegexp GoJson Runes RuneBytes GoJsonThms Boundaries MaskRules.
Local Open Scope Z_scope.
Local Open Scope list_scope.

(** ** Limits *)

Definition errBriefMaxBytes : Z := 256.
Definition MaxErrDetailBytes : Z := 64 * 1024.
Definition MaxRequestBodyLogBytes : Z := 64 * 1024.
Definition maskMatchMaxPerLog : Z := 128.
Definition maskMatchMaxLabelBytes : Z := 32.
Definition maskMatchMaxOriginalBytes : Z := 256.
Definition maskMatchMaxPlaceholderBytes : Z := 64.
Definition maskMatchMaxTotalBytes : Z := 32 * 1024.

Definition blen (s : bytes) : Z := Z.of_nat (length s).

(** [truncateUTF8Bytes] of this package, the function of relay/state.go on bytes. *)
Definition truncateUTF8Bytes (text : bytes) (limit : Z) : bytes :=
  list_ascii_of_string (Utf8.truncateUTF8Bytes (string_of_list_ascii text) limit).

(** ** Documents

    An object decodes to a Go map: the last member of a key counts, and
    [json.Marshal] writes the members in the order of their keys. *)

Fixpoint bytes_cmp (x y : bytes) : comparison :=
  match x, y with
  | [], [] => Eq
  | [], _ => Lt
  | _, [] => Gt
  | a :: x, b :: y => match byte_of a ?= byte_of b with Eq => bytes_cmp x y | c => c end
  end.

Fixpoint put (k : bytes) (v : json) (m : list (bytes * json)) : list (bytes * json) :=
  match m with
  | [] => [(k, v)]
  | (k', v') :: m' =>
      match bytes_cmp k k' with
      | Lt => (k, v) :: m
      | Eq => (k, v) :: m'
      | Gt => (k', v') :: put k v m'
      end
  end.

Fixpoint canon (v : json) : json :=
  match v with
  | JArr l => JArr (canon <$> l)
  | JObj l => JObj (foldl (fun m kv => put kv.1 kv.2 m) [] ((fun kv => (kv.1, canon kv.2)) <$> l))
  | _ => v
  end.

(** [json.NewDecoder(body).Decode(&value)] under [UseNumber]: the first value of
    the text, whatever follows it. *)
Definition Decode (body : bytes) : option json :=
  '(v, _) ← value (length body) maxNestingDepth (skip_ws body); Some (canon v).

(** ** Secrets in documents *)

Definition redacted : bytes := lit "[REDACTED]".

Definition field_rune (r : Z) : option Z :=
  if (65 <=? r) && (r <=? 90) then Some (r + 32)
  else if ((97 <=? r) && (r <=? 122)) || ((48 <=? r) && (r <=? 57)) then Some r else None.

(** [strings.Map] drops the runes for which the mapping is negative. *)
Definition normalized_field (key : bytes) : string :=
  of_runes (omap field_rune (to_runes (string_of_list_ascii key))).

Definition isSensitiveField (key : bytes) : bool :=
  let normalized := normalized_field key in
  bool_decide (normalized = "authorization"%string) || bool_decide (normalized = "proxyauthorization"%string) ||
  HasSuffix normalized "apikey" || HasSuffix normalized "token" ||
  HasSuffix normalized "password" || HasSuffix normalized "passwd" ||
  HasSuffix normalized "secret".

Fixpoint redactJSONValue (v : json) : json :=
  match v with
  | JObj l => JObj ((fun kv => (kv.1, if isSensitiveField kv.1 then JStr redacted else redactJSONValue kv.2)) <$> l)
  | JArr l => JArr (redactJSONValue <$> l)
  | _ => v
  end.

Definition redactRequestBodyJSON (body : bytes) : option bytes :=
  v ← Decode body; Some (render (redactJSONValue v)).

(** ** Documents that are too long *)

Definition truncated_mark : bytes := lit "...[truncated]".
Definition shrink_text (maxLen : Z) (s : bytes) : bytes :=
  if maxLen <? blen s then truncateUTF8Bytes s maxLen ++ truncated_mark else s.

Fixpoint shrinkJSONStrings (maxLen : Z) (v : json) : json :=
  match v with
  | JObj l => JObj ((fun kv => (kv.1, match kv.2 with
                                      | JStr s => JStr (shrink_text maxLen s)
                                      | _ => shrinkJSONStrings maxLen kv.2
                                      end)) <$> l)
  | JArr l => JArr ((fun child => match child with
                                  | JStr s => JStr (shrink_text maxLen s)
                                  | _ => shrinkJSONStrings maxLen child
                                  end) <$> l)
  | _ => v
  end.

Definition shrinkAndEncodeJSON (body : bytes) (maxLen : Z) : option bytes :=
  v ← Decode body; Some (render (if 0 <? maxLen then shrinkJSONStrings maxLen v else v)).

(** The loop of [truncateRequestBodyJSON], which halves [cap] while it is 16 or
    more; ten rounds are more than it takes from 512. *)
Fixpoint shrink_loop (n : nat) (body : bytes) (maxBytes cap : Z) : bytes :=
  match n with
  | S n =>
      if cap <? 16 then
        match shrinkAndEncodeJSON body 0 with
        | None => truncateUTF8Bytes body maxBytes
        | Some encoded => truncateUTF8Bytes encoded maxBytes
        end
      else
        match shrinkAndEncodeJSON body cap with
        | None => truncateUTF8Bytes body maxBytes
        | Some encoded => if blen encoded <=? maxBytes then encoded else shrink_loop n body maxBytes (cap / 2)
        end
  | O => []
  end.

Definition truncateRequestBodyJSON (body : bytes) (maxBytes : Z) : bytes :=
  if blen body <=? maxBytes then body else shrink_loop 10 body maxBytes 512.

(** ** Secrets in other texts *)

Definition bearerSecretPattern : regex :=
  cat [RWordB; iword "Bearer"; plus (cls spaces);
       plus (icls (rng "A" "Z" :: rng "a" "z" :: rng "0" "9" :: ones "._~+/=-"))].

(** [[-_ ]?] *)
Definition sep : regex := opt (cls (ones "-_ ")).
Definition field_names : regex :=
  alt [iword "authorization"; cat [iword "proxy"; sep; iword "authorization"];
       cat [iword "x"; sep; iword "api"; sep; iword "key"]; cat [iword "api"; sep; iword "key"];
       cat [iword "access"; sep; iword "token"]; cat [iword "refresh"; sep; iword "token"];
       cat [iword "auth"; sep; iword "token"]; iword "token"; iword "password"; iword "passwd";
       cat [iword "client"; sep; iword "secret"]; iword "secret"].

(** A value between the quotes [q]: escapes, and anything but the quote, a
    backslash and the ends of lines. *)
Definition quoted_value (q : Z * Z) : regex :=
  cat [cls [q]; star (RAlt (RCat (cls [(92, 92)]) (ncls [(10, 10)])) (ncls [q; (92, 92); (13, 13); (10, 10)])); cls [q]].

Definition fieldSecretPattern : regex :=
  cat [RWordB; RGroup 1 field_names; RWordB;
       RGroup 2 (cat [star (cls spaces); opt (cls [dquote]); cls (ones ":="); star (cls spaces)]);
       alt [quoted_value dquote; quoted_value squote; plus (ncls (spaces ++ ones ",;&}]"))]].

(** [ReplaceAllString]: neither pattern matches an empty text, so the matches are
    those of [FindAllSubmatchIndex].  [last] is the end of the match before. *)
Fixpoint splice (s : bytes) (last : nat) (ls : list loc) (repl : loc -> bytes) : bytes :=
  match ls with
  | [] => drop last s
  | l :: ls => slice last (loc_start l) s ++ repl l ++ splice s (loc_end l) ls repl
  end.
Definition ReplaceAllString (r : regex) (s : bytes) (repl : loc -> bytes) : bytes :=
  splice s 0 (FindAllSubmatchIndex r s) repl.

(** The text of group [n], [$n] of a template. *)
Definition group_text (s : bytes) (l : loc) (n : nat) : bytes :=
  match group_bounds n l with Some (i, j) => slice i j s | None => [] end.

Definition redact_bearer (text : bytes) : bytes :=
  ReplaceAllString bearerSecretPattern text (fun _ => lit "Bearer [REDACTED]").
Definition redact_fields (text : bytes) : bytes :=
  ReplaceAllString fieldSecretPattern text (fun l => group_text text l 1 ++ group_text text l 2 ++ redacted).

Definition redactSensitiveText (text : bytes) : bytes :=
  if bool_decide (text = []) then [] else redact_fields (redact_bearer text).

Definition redactRequestBody (body : bytes) : bytes :=
  if bool_decide (TrimSpace (string_of_list_ascii body) = ""%string) then body
  else match redactRequestBodyJSON body with
       | Some out => out
       | None => redactSensitiveText body
       end.

(** ** The tail of a key *)

Definition apiKeyTail (v : string) : string :=
  let v := TrimSpace (TrimPrefix (TrimSpace v) "...") in
  if bool_decide (v = ""%string) then ""%string else
  let runes := to_runes v in
  ("..." +:+ of_runes (if (4 <? length runes)%nat then drop (length runes - 4) runes else runes))%string.

(** ** The values that the masks hid *)

Record maskMatchRecord := mkMatch { mm_Label : bytes; mm_Original : bytes; mm_Placeholder : bytes }.

(** A member is looked up by its name, letters of either case. *)
Definition same_field (name : string) (key : bytes) : bool := bool_decide (lower_byte <$> key = lit name).

(** One member of an object into a struct; a value that is no string is an error,
    null changes nothing. *)
Definition set_member (m : option maskMatchRecord) (kv : bytes * json) : option maskMatchRecord :=
  m ← m;
  let set (f : bytes -> maskMatchRecord) :=
    match kv.2 with JStr s => Some (f s) | JNull => Some m | _ => None end in
  if same_field "label" kv.1 then set (fun s => mkMatch s (mm_Original m) (mm_Placeholder m))
  else if same_field "original" kv.1 then set (fun s => mkMatch (mm_Label m) s (mm_Placeholder m))
  else if same_field "placeholder" kv.1 then set (fun s => mkMatch (mm_Label m) (mm_Original m) s)
  else Some m.

Definition decode_match (v : json) : option maskMatchRecord :=
  match v with
  | JNull => Some (mkMatch [] [] [])
  | JObj l => foldl set_member (Some (mkMatch [] [] [])) l
  | _ => None
  end.

(** [json.Unmarshal(raw, &matches)]. *)
Definition decode_matches (raw : bytes) : option (list maskMatchRecord) :=
  v ← json_parse raw;
  match v with JNull => Some [] | JArr l => mapM decode_match l | _ => None end.

Definition cut_match (m : maskMatchRecord) : maskMatchRecord :=
  mkMatch (truncateUTF8Bytes (mm_Label m) maskMatchMaxLabelBytes)
          (truncateUTF8Bytes (mm_Original m) maskMatchMaxOriginalBytes)
          (truncateUTF8Bytes (mm_Placeholder m) maskMatchMaxPlaceholderBytes).
Definition match_bytes (m : maskMatchRecord) : Z := blen (mm_Label m) + blen (mm_Original m) + blen (mm_Placeholder m).

Fixpoint keep_matches (total : Z) (ms : list maskMatchRecord) : list maskMatchRecord :=
  match ms with
  | [] => []
  | m :: ms =>
      let m := cut_match m in
      if maskMatchMaxTotalBytes <? total + match_bytes m then []
      else m :: keep_matches (total + match_bytes m) ms
  end.

Definition match_json (m : maskMatchRecord) : json :=
  JObj [(lit "label", JStr (mm_Label m)); (lit "original", JStr (mm_Original m));
        (lit "placeholder", JStr (mm_Placeholder m))].

(** A nil message is no bytes. *)
Definition normalizeMaskMatches (raw : bytes) : bytes :=
  if bool_decide (raw = []) then [] else
  match decode_matches raw with
  | None => []
  | Some ms =>
      let kept := keep_matches 0 (take (Z.to_nat maskMatchMaxPerLog) ms) in
      if bool_decide (kept = []) then [] else render (JArr (match_json <$> kept))
  end.

(** ** An entry *)

Record LogEntry := mkEntry {
  en_CreatedAt : Z; en_Model : string; en_ChannelName : string; en_TargetModel : string; en_ClientIP : string;
  en_APIKeyName : string; en_APIKeySuffix : string; en_ClientFormat : string; en_UpstreamType : string;
  en_RelayMode : string; en_ProxyAddr : string; en_ChannelKeyLabel : string; en_ErrClass : string;
  en_ErrBrief : bytes; en_RequestBody : bytes; en_ErrDetail : bytes; en_MaskMatches : bytes }.

Definition truncateErrorBrief (text : bytes) : bytes := truncateUTF8Bytes text errBriefMaxBytes.
Definition truncateErrorDetail (text : bytes) : bytes := truncateUTF8Bytes text MaxErrDetailBytes.

Definition truncateErrorLogForEnqueue (e : LogEntry) : LogEntry :=
  { e with en_APIKeySuffix := apiKeyTail (en_APIKeySuffix e);
           en_ErrBrief := truncateUTF8Bytes (en_ErrBrief e) errBriefMaxBytes;
           en_ErrDetail := truncateUTF8Bytes (en_ErrDetail e) MaxErrDetailBytes;
           en_RequestBody := truncateRequestBodyJSON (en_RequestBody e) MaxRequestBodyLogBytes;
           en_MaskMatches := normalizeMaskMatches (en_MaskMatches e) }.

Definition sanitizeErrorLog (e : LogEntry) : LogEntry :=
  { e with en_APIKeySuffix := apiKeyTail (en_APIKeySuffix e);
           en_ErrBrief := truncateErrorBrief (redactSensitiveText (en_ErrBrief e));
           en_ErrDetail := truncateErrorDetail (redactSensitiveText (en_ErrDetail e));
           en_RequestBody := truncateRequestBodyJSON (redactRequestBody (en_RequestBody e)) MaxRequestBodyLogBytes;
           en_MaskMatches := normalizeMaskMatches (en_MaskMatches e) }.

(** ** The order of keys *)

Lemma bytes_cmp_eq x y : bytes_cmp x y = Eq <-> x = y.
Proof.
  revert y. induction x as [|a x IH]; intros [|b y]; cbn; try done.
  destruct (Z.compare_spec (byte_of a) (byte_of b)) as [He|He|He].
  - rewrite IH. rewrite <- (of_byte_of a), <- (of_byte_of b), He. split; [by intros ->|by intros [= ->]].
  - split; [done|]. intros [= -> ->]. lia.
  - split; [done|]. intros [= -> ->]. lia.
Qed.

Lemma bytes_cmp_swap x y : bytes_cmp y x = CompOpp (bytes_cmp x y).
Proof.
  revert y. induction x as [|a x IH]; intros [|b y]; cbn; try done.
  rewrite Z.compare_antisym. by destruct (byte_of a ?= byte_of b); cbn.
Qed.

Definition before (x y : bytes) : Prop := bytes_cmp x y = Lt.

#[export] Instance before_trans : Transitive before.
Proof.
  unfold before. intros x. induction x as [|a x IH]; intros [|b y] [|c z]; cbn; try done.
  destruct (Z.compare_spec (byte_of a) (byte_of b)) as [H1|H1|H1],
           (Z.compare_spec (byte_of b) (byte_of c)) as [H2|H2|H2]; try done; intros Hxy Hyz.
  1: rewrite H1, H2, Z.compare_refl; by eapply IH.
  all: by rewrite (proj2 (Z.compare_lt_iff (byte_of a) (byte_of c))) by lia.
Qed.

Lemma before_irrefl x : ~ before x x.
Proof. unfold before. by rewrite (proj2 (bytes_cmp_eq x x) eq_refl). Qed.

(** Members in the order of their keys, every key once. *)
Definition in_order (m : list (bytes * json)) : Prop := StronglySorted before (fst <$> m).

Lemma put_Forall (P : bytes * json -> Prop) k v m : P (k, v) -> Forall P m -> Forall P (put k v m).
Proof.
  intros Hk. induction 1 as [|[k' v'] m Hkv Hm IH]; cbn [put]; [by repeat constructor|].
  destruct (bytes_cmp k k'); by repeat constructor.
Qed.

Lemma put_in_order k v m : in_order m -> in_order (put k v m).
Proof.
  unfold in_order. induction m as [|[k' v'] m IH]; cbn [put fmap list_fmap fst]; intros Hs; [by repeat constructor|].
  apply StronglySorted_inv in Hs as [Hs Hall].
  destruct (bytes_cmp k k') eqn:Hc; cbn [fmap list_fmap fst].
  - apply bytes_cmp_eq in Hc as ->. by constructor.
  - constructor; [by constructor|]. constructor; [done|].
    eapply Forall_impl; [exact Hall|]. intros y Hy. by transitivity k'.
  - constructor; [by apply IH|]. rewrite Forall_fmap in *. apply put_Forall; [|done].
    cbn. unfold before. by rewrite bytes_cmp_swap, Hc.
Qed.

(** A key behind all the others goes to the end. *)
Lemma put_last k v m : Forall (fun k' => before k' k) (fst <$> m) -> put k v m = m ++ [(k, v)].
Proof.
  induction m as [|[k' v'] m IH]; cbn; intros Hall; [done|]. apply Forall_cons in Hall as [Hk Hall].
  unfold before in Hk. rewrite bytes_cmp_swap, Hk. cbn. by rewrite IH.
Qed.

Lemma puts_id l : forall m, in_order (m ++ l) -> foldl (fun m kv => put kv.1 kv.2 m) m l = m ++ l.
Proof.
  induction l as [|[k v] l IH]; intros m Hs; cbn [foldl]; [by rewrite app_nil_r|]. cbn [fst snd].
  rewrite put_last.
  - rewrite IH; by rewrite <- app_assoc.
  - unfold in_order in Hs. rewrite fmap_app in Hs. apply Forall_forall. intros k' Hk'.
    eapply (StronglySorted_app_1_elem_of before); [exact Hs|exact Hk'|]. by left.
Qed.

Lemma puts_spec (P : bytes * json -> Prop) l m : Forall P l -> Forall P m -> in_order m ->
  Forall P (foldl (fun m kv => put kv.1 kv.2 m) m l) /\ in_order (foldl (fun m kv => put kv.1 kv.2 m) m l).
Proof.
  revert m. induction l as [|[k v] l IH]; intros m Hl Hm Hs; cbn [foldl]; [done|].
  apply Forall_cons in Hl as [Hk Hl]. apply IH; [done|by apply put_Forall|by apply put_in_order].
Qed.

(** ** Documents as the decoder leaves them *)

(** Every object in order, whole runes, literals and nesting as the parser takes
    them. *)
Fixpoint ordered (v : json) : Prop :=
  match v with
  | JArr l => foldr (fun v P => ordered v /\ P) True l
  | JObj l => in_order l /\ foldr (fun kv P => ordered kv.2 /\ P) True l
  | _ => True
  end.

Lemma ordered_arr l : foldr (fun v P => ordered v /\ P) True l <-> Forall ordered l.
Proof. induction l as [|v l IH]; cbn; [by split|]. by rewrite IH, Forall_cons. Qed.
Lemma ordered_obj (l : list (bytes * json)) :
  foldr (fun kv P => ordered kv.2 /\ P) True l <-> Forall (fun kv => ordered kv.2) l.
Proof. induction l as [|v l IH]; cbn; [by split|]. by rewrite IH, Forall_cons. Qed.

Definition document (d : nat) (v : json) : Prop := well_formed d v /\ whole v /\ ordered v.

Lemma document_arr d l : document d (JArr l) <-> exists d', d = S d' /\ Forall (document d') l.
Proof.
  unfold document. cbn [well_formed whole ordered]. destruct d as [|d]; [naive_solver|].
  rewrite wf_arr, whole_arr, ordered_arr. rewrite <- !Forall_and. split; [by exists d|]. by intros (d' & [= ->] & ?).
Qed.

Lemma document_obj d l : document d (JObj l) <->
  in_order l /\ exists d', d = S d' /\ Forall (fun kv => utf8_ok kv.1 /\ document d' kv.2) l.
Proof.
  unfold document. cbn [well_formed whole ordered]. destruct d as [|d]; [naive_solver|].
  rewrite wf_obj, whole_obj, ordered_obj. split.
  - intros (H1 & H2 & H3 & H4). split; [done|]. exists d. split; [done|].
    rewrite Forall_forall in *. naive_solver.
  - intros (H1 & d' & [= <-] & H2). rewrite !Forall_forall in *. naive_solver.
Qed.

Lemma canon_document v : forall d, well_formed d v -> whole v -> document d (canon v).
Proof.
  induction v as [|b|n|s|l IH|l IH] using json_ind; intros d Hw Hu; try done; cbn [canon].
  - apply document_arr. destruct d as [|d]; [done|]. exists d. split; [done|].
    cbn [well_formed whole] in Hw, Hu. apply wf_arr in Hw. apply whole_arr in Hu.
    apply Forall_fmap. rewrite Forall_forall in *. intros v Hv. by apply IH; [|apply Hw|apply Hu].
  - apply document_obj. destruct d as [|d]; [done|].
    cbn [well_formed whole] in Hw, Hu. apply wf_obj in Hw. apply whole_obj in Hu.
    destruct (puts_spec (fun kv => utf8_ok kv.1 /\ document d kv.2) ((fun kv => (kv.1, canon kv.2)) <$> l) []) as [H1 H2].
    + apply Forall_fmap. rewrite Forall_forall in *. intros kv Hv. destruct (Hu _ Hv). split; [done|].
      by apply IH; [|apply Hw|].
    + constructor.
    + constructor.
    + split; [done|]. by exists d.
Qed.

Lemma canon_id v : ordered v -> canon v = v.
Proof.
  induction v as [|b|n|s|l IH|l IH] using json_ind; intros Ho; try done; cbn [canon]; f_equal; cbn [ordered] in Ho.
  - apply ordered_arr in Ho. rewrite <- (list_fmap_id l) at 2. apply list_fmap_ext.
    intros i w Hi%list_elem_of_lookup_2. rewrite Forall_forall in IH, Ho. by apply IH, Ho.
  - destruct Ho as [Hs Ho%ordered_obj].
    assert (Hl : (fun kv => (kv.1, canon kv.2)) <$> l = l).
    { rewrite <- (list_fmap_id l) at 2. apply list_fmap_ext. intros i [k w] Hi%list_elem_of_lookup_2.
      rewrite Forall_forall in IH, Ho. cbn. f_equal. by apply (IH _ Hi), (Ho _ Hi). }
    rewrite Hl. apply (puts_id l []). done.
Qed.

Lemma Decode_document body v : Decode body = Some v -> document maxNestingDepth v.
Proof.
  unfold Decode. destruct (value _ _ _) as [[w rest]|] eqn:Hv; [|done]. cbn [mbind option_bind]. intros [= <-].
  apply value_yields in Hv as [Hw Hu]. by apply canon_document.
Qed.

Lemma json_parse_document v : document maxNestingDepth v -> json_parse (render v) = Some v.
Proof. intros (Hw & Hu & _). rewrite json_parse_render by done. by rewrite cleaned_id. Qed.

Lemma Decode_render v : document maxNestingDepth v -> Decode (render v) = Some v.
Proof.
  intros Hd. pose proof (json_parse_document v Hd) as Hp. destruct Hd as (_ & _ & Ho). unfold json_parse, Decode in *.
  destruct (value _ _ _) as [[w rest]|]; [|done]. cbn [mbind option_bind] in *.
  case_bool_decide; [|done]. injection Hp as ->. by rewrite canon_id.
Qed.

(** ** Texts that are cut *)

(** A cut text is made of whole runes when the text is, and it has its limit. *)
Lemma truncate_ok s limit : utf8_ok s -> utf8_ok (truncateUTF8Bytes s limit).
Proof.
  intros Hs. unfold truncateUTF8Bytes, Utf8.truncateUTF8Bytes. destruct (_ <=? _).
  - by rewrite list_ascii_of_string_of_list_ascii.
  - apply cut_rune_ok. by rewrite list_ascii_of_string_of_list_ascii.
Qed.

Lemma truncate_blen s limit : 0 <= limit -> blen (truncateUTF8Bytes s limit) <= limit.
Proof. intros Hl. unfold blen, truncateUTF8Bytes. rewrite length_las. by apply truncate_length. Qed.

Lemma truncate_id s limit : blen s <= limit -> truncateUTF8Bytes s limit = s.
Proof.
  intros Hl. unfold truncateUTF8Bytes, Utf8.truncateUTF8Bytes, slen. rewrite length_soa.
  unfold blen in Hl. rewrite (proj2 (Z.leb_le _ _)) by done. apply list_ascii_of_string_of_list_ascii.
Qed.

Lemma truncate_prefix s limit : truncateUTF8Bytes s limit `prefix_of` s.
Proof.
  unfold truncateUTF8Bytes, Utf8.truncateUTF8Bytes. destruct (_ <=? _); [by rewrite list_ascii_of_string_of_list_ascii|].
  rewrite <- (list_ascii_of_string_of_list_ascii s) at 2. apply cut_rune_prefix.
Qed.

(** ** Editing documents

    Redaction and shortening change values and leave keys, so what they make of a
    document is one. *)

Lemma in_order_map (f : bytes * json -> json) l : in_order ((fun kv => (kv.1, f kv)) <$> l) <-> in_order l.
Proof. unfold in_order. by rewrite <- list_fmap_compose. Qed.

Lemma document_obj_map (f : bytes * json -> json) d l : document d (JObj l) ->
  (forall k v d, (k, v) ∈ l -> document d v -> document d (f (k, v))) ->
  document d (JObj ((fun kv => (kv.1, f kv)) <$> l)).
Proof.
  intros [Ho (d' & -> & Hl)]%document_obj Hf. apply document_obj. split; [by apply in_order_map|].
  exists d'. split; [done|]. apply Forall_fmap. rewrite Forall_forall in *. intros [k v] Hkv.
  destruct (Hl _ Hkv). split; [done|]. by apply Hf.
Qed.

Lemma document_arr_map (f : json -> json) d l : document d (JArr l) ->
  (forall v d, v ∈ l -> document d v -> document d (f v)) -> document d (JArr (f <$> l)).
Proof.
  intros (d' & -> & Hl)%document_arr Hf. apply document_arr. exists d'. split; [done|].
  apply Forall_fmap. rewrite Forall_forall in *. intros v Hv. by apply Hf; [|apply Hl].
Qed.

Lemma document_str d s : utf8_ok s -> document d (JStr s).
Proof. done. Qed.

Lemma redacted_ok : utf8_ok redacted.
Proof. apply ascii_utf8, Forall_forall. intros a Ha. repeat (apply elem_of_cons in Ha as [->|Ha]; [done|]). by apply elem_of_nil in Ha. Qed.
Lemma truncated_mark_ok : utf8_ok truncated_mark.
Proof. apply ascii_utf8, Forall_forall. intros a Ha. repeat (apply elem_of_cons in Ha as [->|Ha]; [done|]). by apply elem_of_nil in Ha. Qed.

Lemma redact_document v : forall d, document d v -> document d (redactJSONValue v).
Proof.
  induction v as [|b|n|s|l IH|l IH] using json_ind; intros d Hd; try done; cbn [redactJSONValue]; rewrite Forall_forall in IH.
  - apply document_arr_map; [done|]. intros v d' Hv. by apply IH.
  - apply document_obj_map; [done|]. intros k v d' Hv Hd'. cbn [fst snd].
    destruct (isSensitiveField k); [apply document_str, redacted_ok|by apply (IH (k, v) Hv)].
Qed.

Lemma shrink_text_ok maxLen s : utf8_ok s -> utf8_ok (shrink_text maxLen s).
Proof.
  intros Hs. unfold shrink_text. destruct (_ <? _); [|done]. by apply utf8_app, truncated_mark_ok; apply truncate_ok.
Qed.

Lemma shrink_document maxLen v : forall d, document d v -> document d (shrinkJSONStrings maxLen v).
Proof.
  induction v as [|b|n|s|l IH|l IH] using json_ind; intros d Hd; try done; cbn [shrinkJSONStrings]; rewrite Forall_forall in IH.
  - apply document_arr_map; [done|]. intros v d' Hv Hd'.
    destruct v; try by apply (IH _ Hv). apply document_str, shrink_text_ok. apply Hd'.
  - apply document_obj_map; [done|]. intros k v d' Hv Hd'. cbn [snd].
    destruct v; try by apply (IH _ Hv). apply document_str, shrink_text_ok. apply Hd'.
Qed.

(** ** What a document holds *)

Inductive step := Key (k : bytes) | Index (i : nat).

(** Under the path [p] the document has [w]. *)
Inductive holds : json -> list step -> json -> Prop :=
| ho_here v : holds v [] v
| ho_key l k c p w : (k, c) ∈ l -> holds c p w -> holds (JObj l) (Key k :: p) w
| ho_index l i c p w : l !! i = Some c -> holds c p w -> holds (JArr l) (Index i :: p) w.

Definition secret_step (s : step) : bool := match s with Key k => isSensitiveField k | Index _ => false end.
Definition is_scalar (v : json) : bool := match v with JArr _ | JObj _ => false | _ => true end.

(** No secret is left: below a sensitive key there is nothing but the mark. *)
Definition no_secrets (v : json) : Prop :=
  forall p s q w, holds v (p ++ s :: q) w -> secret_step s = true -> q = [] /\ w = JStr redacted.

Lemma holds_scalar v p w : is_scalar v = true -> holds v p w -> p = [] /\ w = v.
Proof. intros Hv Hh. by inversion Hh; subst. Qed.

(** A way through an edited object goes through the object. *)
Lemma holds_obj_map (f : bytes * json -> json) l k p w : holds (JObj ((fun kv => (kv.1, f kv)) <$> l)) (Key k :: p) w <->
  exists c, (k, c) ∈ l /\ holds (f (k, c)) p w.
Proof.
  split.
  - intros Hh. inversion Hh as [|? ? c ? ? Hin Hc|]; subst. apply list_elem_of_fmap in Hin as ([k' c'] & [= -> ->] & Hin).
    by exists c'.
  - intros (c & Hin & Hc). eapply ho_key; [|exact Hc]. apply list_elem_of_fmap. by exists (k, c).
Qed.

Lemma holds_arr_map (f : json -> json) l i p w : holds (JArr (f <$> l)) (Index i :: p) w <->
  exists c, l !! i = Some c /\ holds (f c) p w.
Proof.
  split.
  - intros Hh. inversion Hh as [| |? ? c ? ? Hin Hc]; subst. rewrite list_lookup_fmap in Hin.
    destruct (l !! i) as [c'|]; [|done]. injection Hin as <-. by exists c'.
  - intros (c & Hin & Hc). eapply ho_index; [|exact Hc]. by rewrite list_lookup_fmap, Hin.
Qed.

Lemma no_secrets_arr l : no_secrets (JArr l) <-> forall c, c ∈ l -> no_secrets c.
Proof.
  split.
  - intros Hn c [i Hi]%list_elem_of_lookup_1 p s q w Hh. apply (Hn (Index i :: p)). by eapply ho_index.
  - intros Hn [|st p] s q w Hh Hs; inversion Hh as [| |? ? c ? ? Hi Hc]; subst; [done|].
    by eapply (Hn c (list_elem_of_lookup_2 _ _ _ Hi)).
Qed.

Lemma no_secrets_obj l : no_secrets (JObj l) <->
  forall k c, (k, c) ∈ l -> if isSensitiveField k then c = JStr redacted else no_secrets c.
Proof.
  split.
  - intros Hn k c Hi. destruct (isSensitiveField k) eqn:Hk.
    + by destruct (Hn [] (Key k) [] c (ho_key _ _ _ _ _ Hi (ho_here c)) Hk).
    + intros p s q w Hh. apply (Hn (Key k :: p)). by eapply ho_key.
  - intros Hn [|st p] s q w Hh Hs; inversion Hh as [|? k c ? ? Hi Hc|]; subst; specialize (Hn k c Hi).
    + cbn in Hs. rewrite Hs in Hn. subst c. by apply holds_scalar in Hc.
    + destruct (isSensitiveField k); [|by eapply Hn]. subst c. apply holds_scalar in Hc as [Hc _]; [|done]. by destruct p.
Qed.

Lemma no_secrets_scalar v : is_scalar v = true -> no_secrets v.
Proof. intros Hv p s q w Hh _. apply holds_scalar in Hh as [Hp _]; [|done]. by destruct p. Qed.

Lemma redact_no_secrets v : no_secrets (redactJSONValue v).
Proof.
  induction v as [|b|n|s|l IH|l IH] using json_ind; try (by apply no_secrets_scalar); rewrite Forall_forall in IH.
  - cbn [redactJSONValue]. apply no_secrets_arr. intros c (v & -> & Hv)%list_elem_of_fmap. by apply IH.
  - cbn [redactJSONValue]. apply no_secrets_obj. intros k c ([k' v] & [= -> ->] & Hv)%list_elem_of_fmap.
    cbn [fst snd]. destruct (isSensitiveField k') eqn:Hk; [done|by apply (IH (k', v) Hv)].
Qed.

(** Shortening brings no secret back: the mark is shorter than every limit. *)
Lemma shrink_no_secrets maxLen v : 16 <= maxLen -> no_secrets v -> no_secrets (shrinkJSONStrings maxLen v).
Proof.
  intros Hm. assert (Hr : shrink_text maxLen redacted = redacted).
  { unfold shrink_text. rewrite (proj2 (Z.ltb_ge _ _)); [done|]. change (blen redacted) with 10. lia. }
  induction v as [|b|n|s|l IH|l IH] using json_ind; intros Hn; try (by apply no_secrets_scalar); rewrite Forall_forall in IH.
  - cbn [shrinkJSONStrings]. apply no_secrets_arr. intros c (v & -> & Hv)%list_elem_of_fmap.
    pose proof (proj1 (no_secrets_arr l) Hn _ Hv) as Hv'. destruct v; try by apply (IH _ Hv). by apply no_secrets_scalar.
  - cbn [shrinkJSONStrings]. apply no_secrets_obj. intros k c ([k' v] & [= -> ->] & Hv)%list_elem_of_fmap.
    pose proof (proj1 (no_secrets_obj l) Hn _ _ Hv) as Hv'. cbn [snd fst]. destruct (isSensitiveField k').
    + subst v. by rewrite Hr.
    + destruct v; try by apply (IH _ Hv). by apply no_secrets_scalar.
Qed.

(** Everything else stays where it is. *)
Lemma redact_keeps v : forall p w, forallb (fun s => negb (secret_step s)) p = true -> is_scalar w = true ->
  holds (redactJSONValue v) p w <-> holds v p w.
Proof.
  induction v as [|b|n|s|l IH|l IH] using json_ind; intros p w Hp Hw; try done; cbn [redactJSONValue]; rewrite Forall_forall in IH.
  - destruct p as [|[k|i] p]; [split; intros Hh; by inversion Hh; subst|split; intros Hh; by inversion Hh|].
    cbn [forallb secret_step negb andb] in Hp. rewrite holds_arr_map. split.
    + intros (c & Hi & Hc). eapply ho_index; [done|]. by apply (IH c (list_elem_of_lookup_2 _ _ _ Hi)).
    + intros Hh. inversion Hh as [| |? ? c ? ? Hi Hc]; subst. exists c. split; [done|]. by apply (IH c (list_elem_of_lookup_2 _ _ _ Hi)).
  - destruct p as [|[k|i] p]; [split; intros Hh; by inversion Hh; subst| |split; intros Hh; by inversion Hh].
    cbn [forallb secret_step] in Hp. apply andb_true_iff in Hp as [Hk%negb_true_iff Hp].
    rewrite (holds_obj_map (fun kv => if isSensitiveField kv.1 then JStr redacted else redactJSONValue kv.2)). cbn [fst snd]. rewrite Hk. split.
    + intros (c & Hi & Hc). eapply ho_key; [done|]. by apply (IH (k, c) Hi).
    + intros Hh. inversion Hh as [|? ? c ? ? Hi Hc|]; subst. exists c. split; [done|]. by apply (IH (k, c) Hi).
Qed.

(** What is clean is left alone. *)
Lemma redact_clean v : no_secrets v -> redactJSONValue v = v.
Proof.
  induction v as [|b|n|s|l IH|l IH] using json_ind; intros Hn; try done; cbn [redactJSONValue]; f_equal; rewrite Forall_forall in IH;
    rewrite <- (list_fmap_id l) at 2; apply list_fmap_ext; intros i.
  - intros v Hv%list_elem_of_lookup_2. apply IH; [done|]. by apply (proj1 (no_secrets_arr l) Hn).
  - intros [k v] Hv%list_elem_of_lookup_2. pose proof (proj1 (no_secrets_obj l) Hn k v Hv) as Hv'. cbn [fst snd id].
    destruct (isSensitiveField k); [by subst v|]. f_equal. by apply (IH (k, v) Hv).
Qed.

Lemma redact_twice v : redactJSONValue (redactJSONValue v) = redactJSONValue v.
Proof. apply redact_clean, redact_no_secrets. Qed.

(** ** Bounds *)

Lemma shrink_loop_bound n body maxBytes cap : 0 <= maxBytes -> blen (shrink_loop n body maxBytes cap) <= maxBytes.
Proof.
  intros Hm. revert cap. induction n as [|n IH]; intros cap; cbn [shrink_loop]; [done|].
  destruct (cap <? 16); destruct (shrinkAndEncodeJSON body _) as [e|]; try by apply truncate_blen.
  destruct (Z.leb_spec (blen e) maxBytes); [done|apply IH].
Qed.

Lemma truncate_body_bound body maxBytes : 0 <= maxBytes -> blen (truncateRequestBodyJSON body maxBytes) <= maxBytes.
Proof.
  intros Hm. unfold truncateRequestBodyJSON. destruct (Z.leb_spec (blen body) maxBytes); [done|by apply shrink_loop_bound].
Qed.

(** A round of the loop on a document. *)
Lemma shrink_loop_step n w maxBytes cap : document maxNestingDepth w ->
  shrink_loop (S n) (render w) maxBytes cap =
  if cap <? 16 then truncateUTF8Bytes (render w) maxBytes
  else let encoded := render (shrinkJSONStrings cap w) in
    if blen encoded <=? maxBytes then encoded else shrink_loop n (render w) maxBytes (cap / 2).
Proof.
  intros Hd. cbn [shrink_loop]. unfold shrinkAndEncodeJSON. rewrite Decode_render by done. cbn [mbind option_bind].
  destruct (Z.ltb_spec cap 16); [done|]. by rewrite (proj2 (Z.ltb_lt 0 cap)) by lia.
Qed.

(** What becomes of a document that is too long: a shorter one, every round of the
    loop halving the limit of its texts, or the beginning of it. *)
Lemma shrink_loop_document n w maxBytes cap : document maxNestingDepth w -> cap < 16 * 2 ^ Z.of_nat n ->
  (exists c, 16 <= c /\ shrink_loop (S n) (render w) maxBytes cap = render (shrinkJSONStrings c w)) \/
  shrink_loop (S n) (render w) maxBytes cap = truncateUTF8Bytes (render w) maxBytes.
Proof.
  intros Hd. revert cap. induction n as [|n IH]; intros cap Hc; rewrite shrink_loop_step by done; cbv zeta.
  - change (16 * 2 ^ Z.of_nat 0) with 16 in Hc. rewrite (proj2 (Z.ltb_lt cap 16)) by done. by right.
  - destruct (Z.ltb_spec cap 16) as [|Hge]; [by right|].
    destruct (_ <=? maxBytes); [left; by exists cap|]. apply IH.
    rewrite Nat2Z.inj_succ, Z.pow_succ_r in Hc by lia. apply Z.div_lt_upper_bound; lia.
Qed.

Lemma truncate_body_document w maxBytes : document maxNestingDepth w ->
  (exists w', document maxNestingDepth w' /\ (w' = w \/ exists c, 16 <= c /\ w' = shrinkJSONStrings c w) /\
     truncateRequestBodyJSON (render w) maxBytes = render w') \/
  truncateRequestBodyJSON (render w) maxBytes = truncateUTF8Bytes (render w) maxBytes.
Proof.
  intros Hd. unfold truncateRequestBodyJSON. destruct (_ <=? _); [left; exists w; naive_solver|].
  destruct (shrink_loop_document 9 w maxBytes 512 Hd ltac:(done)) as [(c & Hc & ->)|Ht]; [left|by right].
  exists (shrinkJSONStrings c w). split; [by apply shrink_document|]. split; [|done]. right. by exists c.
Qed.

(** ** A document is no blank text *)

Definition visible (a : ascii) : Prop := 33 <= byte_of a < 127.

Lemma visible_not_space a : visible a -> IsSpace (byte_of a) = false.
Proof.
  unfold visible, IsSpace. intros Ha. apply orb_false_iff. split.
  - apply not_true_iff_false. intros (x & Hx & He)%existsb_exists. apply Z.eqb_eq in He. cbn in Hx. lia.
  - apply andb_false_iff. left. apply Z.leb_gt. lia.
Qed.

Lemma DecodeRune_ascii a s : byte_of a < 128 -> DecodeRune (String.String a s) = (byte_of a, 1).
Proof.
  intros Ha. unfold DecodeRune. change (str_at 0 (String.String a s)) with (Some (byte_of a)). cbv iota beta.
  unfold first_byte. by rewrite (proj2 (Z.ltb_lt _ 0x80)).
Qed.

Lemma trim_left_blanks n w a t : Forall (fun b => is_ws b = true) w -> visible a -> (length w < n)%nat ->
  trim_left n (string_of_list_ascii (w ++ a :: t)) = string_of_list_ascii (a :: t).
Proof.
  intros Hw Ha. revert n. induction Hw as [|b w Hb Hw IH]; intros [|n] Hn; cbn in Hn; try lia; cbn [app string_of_list_ascii trim_left].
  - rewrite DecodeRune_ascii by (unfold visible in Ha; lia). by rewrite visible_not_space.
  - assert (Hb' : byte_of b < 128 /\ IsSpace (byte_of b) = true).
    { apply existsb_exists in Hb as (x & Hx & He). apply Z.eqb_eq in He as ->. cbn in Hx.
      repeat destruct Hx as [<-|Hx]; done. }
    destruct Hb' as [Hlo Hsp]. rewrite DecodeRune_ascii, Hsp by done. apply IH. lia.
Qed.

Lemma trim_right_visible n a s : visible a -> trim_right n (String.String a s) <> ""%string.
Proof.
  intros Ha. revert s. induction n as [|n IH]; intros s; [done|]. cbn [trim_right].
  destruct (DecodeLastRune (String.String a s)) as [r size] eqn:Hd. destruct (IsSpace r) eqn:Hr; [|done].
  assert (Hsize : 0 <= size <= Z.of_nat (String.length s)).
  { unfold DecodeLastRune in Hd. set (S := String.String a s) in *.
    destruct (str_at (slen S - 1) S) as [b|] eqn:Hb; [|by injection Hd as <- <-].
    destruct (Z.ltb_spec b 128) as [Hlo|Hhi].
    - injection Hd as <- <-. destruct s as [|c s]; [|cbn; lia].
      unfold S in Hb. cbn in Hb. injection Hb as <-. by rewrite visible_not_space in Hr.
    - set (start := Z.max 0 _) in Hd. destruct (DecodeRune (str_drop (Z.to_nat start) S)) as [r' m] eqn:Hm.
      destruct (Z.eqb_spec (start + m) (slen S)) as [He|]; cbn [negb] in Hd; [|by injection Hd as <- <-].
      injection Hd as -> ->. destruct (Z.to_nat start) as [|k] eqn:Hk.
      + unfold S in Hm. cbn [str_drop] in Hm. rewrite DecodeRune_ascii in Hm by (unfold visible in Ha; lia).
        injection Hm as <- <-. by rewrite visible_not_space in Hr.
      + unfold slen, S in He. cbn [String.length] in He. split; [|lia].
        destruct (str_drop (Datatypes.S k) S) as [|c u] eqn:Hu; [unfold DecodeRune in Hm; cbn in Hm; injection Hm as <- <-; done|].
        rewrite <- Hu in Hm. pose proof (DecodeRune_size (str_drop (Datatypes.S k) S)) as Hs. rewrite Hm in Hs.
        specialize (Hs ltac:(by rewrite Hu)). cbn [snd] in Hs. lia. }
  replace (String.length (String.String a s) - Z.to_nat size)%nat with (S (String.length s - Z.to_nat size))%nat
    by (cbn [String.length]; lia).
  cbn [str_take]. apply IH.
Qed.

Lemma skip_ws_split l : exists w, Forall (fun b => is_ws b = true) w /\ l = w ++ skip_ws l.
Proof.
  induction l as [|a l (w & Hw & Hl)]; cbn [skip_ws]; [by exists []|]. destruct (is_ws a) eqn:Ha; [|by exists []].
  exists (a :: w). split; [by constructor|]. by rewrite Hl at 1.
Qed.

Lemma value_visible fuel d l x : value fuel d l = Some x -> exists a t, l = a :: t /\ visible a.
Proof.
  destruct fuel as [|fuel]; [done|]. destruct l as [|a l]; [done|]. intros Hv. exists a, l. split; [done|].
  cbn [value] in Hv. unfold visible.
  destruct (Ascii.eqb_spec a "{"); [by subst|]. destruct (Ascii.eqb_spec a "["); [by subst|].
  destruct (Ascii.eqb_spec a dq); [by subst|].
  change (lit "true") with ("t"%char :: lit "rue") in Hv. change (lit "false") with ("f"%char :: lit "alse") in Hv.
  change (lit "null") with ("n"%char :: lit "ull") in Hv. cbn [strip] in Hv.
  destruct (Ascii.eqb_spec "t" a); [by subst|]. destruct (Ascii.eqb_spec "f" a); [by subst|].
  destruct (Ascii.eqb_spec "n" a); [by subst|]. unfold number in Hv. destruct (Ascii.eqb_spec a "-"); [by subst|].
  unfold number_body, number_int in Hv. destruct (Ascii.eqb_spec a "0"); [by subst|].
  unfold take_digits in Hv. cbn [length span] in Hv. destruct (is_digit a) eqn:Hd; [|done].
  unfold is_digit in Hd. apply andb_true_iff in Hd. lia.
Qed.

Lemma Decode_not_blank body v : Decode body = Some v -> TrimSpace (string_of_list_ascii body) <> ""%string.
Proof.
  unfold Decode. destruct (value _ _ _) as [[w rest]|] eqn:Hv; [|done]. intros _.
  destruct (value_visible _ _ _ _ Hv) as (a & t & Hs & Ha). destruct (skip_ws_split body) as (ws & Hws & Hb).
  rewrite Hs in Hb. unfold TrimSpace. rewrite Hb, trim_left_blanks; [|done|done|].
  - cbn [string_of_list_ascii]. by apply trim_right_visible.
  - rewrite length_soa, length_app. cbn. lia.
Qed.

Lemma redact_body_document body v : Decode body = Some v -> redactRequestBody body = render (redactJSONValue v).
Proof.
  intros Hd. unfold redactRequestBody. rewrite bool_decide_false by by eapply Decode_not_blank.
  unfold redactRequestBodyJSON. by rewrite Hd.
Qed.


(** ** The values that the masks hid *)

Definition within (m : maskMatchRecord) : Prop :=
  blen (mm_Label m) <= maskMatchMaxLabelBytes /\ blen (mm_Original m) <= maskMatchMaxOriginalBytes /\
  blen (mm_Placeholder m) <= maskMatchMaxPlaceholderBytes.
Definition match_ok (m : maskMatchRecord) : Prop :=
  utf8_ok (mm_Label m) /\ utf8_ok (mm_Original m) /\ utf8_ok (mm_Placeholder m).

Lemma cut_match_within m : within (cut_match m).
Proof. unfold within, cut_match. cbn [mm_Label mm_Original mm_Placeholder]. by repeat split; apply truncate_blen. Qed.

Lemma cut_match_id m : within m -> cut_match m = m.
Proof. intros (H1 & H2 & H3). unfold cut_match. rewrite !truncate_id by done. by destruct m. Qed.

Lemma cut_match_ok m : match_ok m -> match_ok (cut_match m).
Proof. intros (H1 & H2 & H3). by repeat split; apply truncate_ok. Qed.

Lemma match_bytes_nonneg m : 0 <= match_bytes m.
Proof. unfold match_bytes, blen. lia. Qed.

Definition total_bytes (ms : list maskMatchRecord) : Z := foldr (fun m n => match_bytes m + n) 0 ms.

Lemma keep_matches_spec total ms : total <= maskMatchMaxTotalBytes ->
  let kept := keep_matches total ms in
  kept `prefix_of` (cut_match <$> ms) /\ Forall within kept /\
  total + total_bytes kept <= maskMatchMaxTotalBytes /\ keep_matches total kept = kept.
Proof.
  revert total. induction ms as [|m ms IH]; intros total Ht; cbn [keep_matches]; cbv zeta.
  { repeat split; [done|constructor|cbn; lia]. }
  destruct (Z.ltb_spec maskMatchMaxTotalBytes (total + match_bytes (cut_match m))) as [Hlt|Hle].
  { split; [apply prefix_nil|]. split; [constructor|]. split; [cbn; lia|done]. }
  destruct (IH _ Hle) as (H1 & H2 & H3 & H4). cbn [fmap list_fmap]. split; [by apply prefix_cons|].
  split; [constructor; [apply cut_match_within|done]|]. split; [cbn [total_bytes foldr]; unfold total_bytes in H3; lia|].
  cbn [keep_matches]. rewrite cut_match_id by apply cut_match_within.
  rewrite (proj2 (Z.ltb_ge _ _)) by done. by rewrite H4.
Qed.

Lemma set_member_ok l m m' : Forall (fun kv => utf8_ok kv.1 /\ whole kv.2) l -> match_ok m ->
  foldl set_member (Some m) l = Some m' -> match_ok m'.
Proof.
  assert (Hnone : forall l, foldl set_member None l = None) by (clear; induction l as [|? l IH]; [done|apply IH]).
  revert m. induction l as [|[k v] l IH]; intros m Hl Hm; cbn [foldl]; [by intros [= <-]|].
  apply Forall_cons in Hl as [[_ Hv] Hl]. destruct (set_member (Some m) (k, v)) as [m1|] eqn:Hs; [|by rewrite Hnone].
  apply IH; [done|]. destruct Hm as (H1 & H2 & H3). unfold set_member in Hs. cbn [mbind option_bind fst snd] in Hs.
  destruct (same_field "label" k); [|destruct (same_field "original" k); [|destruct (same_field "placeholder" k)]];
    destruct v; simplify_eq; by repeat split.
Qed.

Lemma decode_matches_ok raw ms : decode_matches raw = Some ms -> Forall match_ok ms.
Proof.
  unfold decode_matches. destruct (json_parse raw) as [v|] eqn:Hp; [|done]. cbn [mbind option_bind].
  apply json_parse_yields in Hp as [_ Hw]. destruct v as [|b|n|s|l|l]; try done; [by intros [= <-]|].
  cbn [whole] in Hw. apply whole_arr in Hw. intros Hm. apply mapM_Some in Hm.
  induction Hm as [|v m l ms Hv _ IH]; [constructor|]. apply Forall_cons in Hw as [Hv' Hw].
  constructor; [|by apply IH]. destruct v as [|b|n|s|l'|l']; try done; cbn [decode_match] in Hv.
  - injection Hv as <-. by repeat split; constructor.
  - cbn [whole] in Hv'. apply whole_obj in Hv'. eapply set_member_ok; [exact Hv'| |exact Hv]. by repeat split; constructor.
Qed.

Lemma nesting_two : exists d, maxNestingDepth = S (S d).
Proof. exists 9998%nat. by vm_compute. Qed.

Lemma names_ok : utf8_ok (lit "label") /\ utf8_ok (lit "original") /\ utf8_ok (lit "placeholder").
Proof.
  assert (H : forall s, forallb (fun a => byte_of a <? 128) (lit s) = true -> utf8_ok (lit s)); [|by repeat split; apply H].
  intros s Hs. apply ascii_utf8, Forall_forall. intros a Ha. apply Z.ltb_lt.
  rewrite forallb_forall in Hs. apply Hs. by apply list_elem_of_In.
Qed.

Lemma matches_document ms : Forall match_ok ms -> document maxNestingDepth (JArr (match_json <$> ms)).
Proof.
  intros Hms. destruct nesting_two as [d ->]. apply document_arr. exists (S d). split; [done|].
  apply Forall_fmap, (Forall_impl _ _ _ Hms). intros m (H1 & H2 & H3). cbn. apply document_obj. destruct names_ok as (N1 & N2 & N3).
  split; [unfold in_order; cbn [fmap list_fmap fst]; by repeat constructor|].
  exists d. split; [done|]. by repeat constructor.
Qed.

Lemma decode_match_json m : decode_match (match_json m) = Some m.
Proof. by destruct m. Qed.

Lemma decode_matches_render ms : Forall match_ok ms -> decode_matches (render (JArr (match_json <$> ms))) = Some ms.
Proof.
  intros Hms. unfold decode_matches. rewrite json_parse_document by by apply matches_document. cbn [mbind option_bind].
  apply mapM_Some. clear Hms. induction ms as [|m ms IH]; [constructor|]. constructor; [apply decode_match_json|done].
Qed.

(** The list of masked values in an entry is normalised once and for all:
    normalising it again changes nothing.  What is kept is absent, or a document
    that decodes to the first of the records given, each cut to its limits, at
    most 128 of them and 32 KiB in all. *)
Theorem mask_matches_stable raw :
  let out := normalizeMaskMatches raw in
  normalizeMaskMatches out = out /\
  (out = [] \/ exists ms kept, decode_matches raw = Some ms /\ decode_matches out = Some kept /\ kept <> [] /\
     kept `prefix_of` (cut_match <$> ms) /\ Z.of_nat (length kept) <= maskMatchMaxPerLog /\
     Forall within kept /\ total_bytes kept <= maskMatchMaxTotalBytes).
Proof.
  cbv zeta. unfold normalizeMaskMatches at 2 3 4 5. case_bool_decide as Hraw; [split; [done|by left]|].
  destruct (decode_matches raw) as [ms|] eqn:Hd; [|split; [done|by left]].
  set (n := Z.to_nat maskMatchMaxPerLog). destruct (keep_matches_spec 0 (take n ms) ltac:(done)) as (H1 & H2 & H3 & H4).
  set (kept := keep_matches 0 (take n ms)) in *. case_bool_decide as Hk; [split; [done|by left]|].
  assert (Hn : (length kept <= n)%nat).
  { apply prefix_length in H1. rewrite length_fmap, length_firstn in H1. lia. }
  assert (Hok : Forall match_ok kept).
  { destruct H1 as [rest Hrest]. apply (Forall_app match_ok kept rest). rewrite <- Hrest. apply Forall_fmap.
    apply (Forall_impl match_ok); [apply Forall_take; by eapply decode_matches_ok|]. intros m. apply cut_match_ok. }
  pose proof (decode_matches_render kept Hok) as Hr. split.
  - unfold normalizeMaskMatches. rewrite bool_decide_false by done. rewrite Hr. rewrite take_ge by done.
    rewrite H4. by rewrite bool_decide_false.
  - right. exists ms, kept. split; [done|]. split; [done|]. split; [done|]. split.
    + etrans; [exact H1|]. rewrite <- (take_drop n ms) at 2. rewrite fmap_app. by apply prefix_app_r.
    + split; [unfold maskMatchMaxPerLog in *; lia|]. split; [done|lia].
Qed.

(** ** An entry *)

Lemma slen_app x y : slen (x +:+ y) = slen x + slen y.
Proof.
  unfold slen. induction x as [|a x IH]; [done|].
  change (String.length (String.String a x +:+ y)) with (S (String.length (x +:+ y))). cbn [String.length]. lia.
Qed.

Lemma slen_of_bytes bs : slen (of_bytes bs) = Z.of_nat (length bs).
Proof. unfold slen. f_equal. induction bs as [|b bs IH]; [done|]. exact (f_equal S IH). Qed.

Lemma slen_of_runes rs : slen (of_runes rs) <= 4 * Z.of_nat (length rs).
Proof.
  unfold of_runes. rewrite slen_of_bytes. induction rs as [|r rs IH]; [done|].
  cbn [mbind list_bind length]. rewrite length_app.
  assert (length (encode_rune r) <= 4)%nat; [|lia]. unfold encode_rune, encode_valid. repeat case_match; cbn; lia.
Qed.

Lemma apiKeyTail_bound v : slen (apiKeyTail v) <= 19.
Proof.
  unfold apiKeyTail. case_bool_decide; [done|]. rewrite slen_app. change (slen "...") with 3.
  set (rs := to_runes _). destruct (Nat.ltb_spec 4 (length rs)).
  - pose proof (slen_of_runes (drop (length rs - 4) rs)) as Hs. rewrite length_drop in Hs. lia.
  - pose proof (slen_of_runes rs). lia.
Qed.

Lemma splice_ok r s repl : utf8_ok s -> (forall l, l ∈ FindAllSubmatchIndex r s -> utf8_ok (repl l)) ->
  utf8_ok (ReplaceAllString r s repl).
Proof.
  intros Hs Hrepl. unfold ReplaceAllString. pose proof (FindAll_ok r s) as Hok.
  assert (Hat : Forall (loc_at s) (FindAllSubmatchIndex r s)) by by apply find_all_at, boundary_0.
  revert Hok Hat Hrepl. generalize (FindAllSubmatchIndex r s) as ls. intros ls.
  assert (H0 : boundary s 0) by by apply boundary_0. revert H0. generalize 0%nat as last.
  induction ls as [|l ls IH]; intros last Hb Hok Hat Hrepl; cbn [splice]; [apply Hb|].
  destruct Hok as (Hl & He & _ & Hok). apply Forall_cons in Hat as [(Hsb & Heb & _) Hat].
  apply utf8_app; [by apply boundary_slice; [| |lia]|]. apply utf8_app; [apply Hrepl; by left|].
  apply IH; [done|done|done|]. intros l' Hl'. apply Hrepl. by right.
Qed.

Lemma group_text_ok r s l n : utf8_ok s -> l ∈ FindAllSubmatchIndex r s -> utf8_ok (group_text s l n).
Proof.
  intros Hs Hl. unfold group_text. destruct (group_bounds n l) as [[i j]|] eqn:Hg; [|constructor].
  pose proof (FindAll_sound r s l Hl) as ((Hle & _) & _ & Hc). pose proof (group_bounds_in n l i j Hle Hc Hg) as [Hi _].
  assert (Hat : loc_at s l).
  { pose proof (find_all_at s r (S (length s)) 0 None (boundary_0 s Hs)) as Hall. rewrite Forall_forall in Hall. by apply Hall. }
  destruct (group_at s n l i j Hat Hg). by apply boundary_slice; [| |lia].
Qed.

Lemma redact_text_ok text : utf8_ok text -> utf8_ok (redactSensitiveText text).
Proof.
  intros Ht. unfold redactSensitiveText. case_bool_decide; [constructor|].
  assert (Hb : utf8_ok (redact_bearer text)).
  { apply splice_ok; [done|]. intros _ _. apply (utf8_app (lit "Bearer ") redacted); [|apply redacted_ok].
    apply ascii_utf8. by repeat constructor. }
  apply splice_ok; [done|]. intros l Hl.
  apply utf8_app; [by eapply group_text_ok|]. apply utf8_app; [by eapply group_text_ok|apply redacted_ok].
Qed.

(** Whatever a failed request carries, the row that is stored has its size:
    256 bytes of summary, 64 KiB of detail and of body, and of the key the last
    four runes; a text made of whole runes is stored as one, and nothing else of
    the entry is touched. *)
Theorem stored_entry_bounded e :
  let e' := sanitizeErrorLog e in
  blen (en_ErrBrief e') <= errBriefMaxBytes /\ blen (en_ErrDetail e') <= MaxErrDetailBytes /\
  blen (en_RequestBody e') <= MaxRequestBodyLogBytes /\
  (en_APIKeySuffix e' = ""%string \/ exists runes, (length runes <= 4)%nat /\ en_APIKeySuffix e' = ("..." +:+ of_runes runes)%string) /\
  slen (en_APIKeySuffix e') <= 19 /\
  (utf8_ok (en_ErrBrief e) -> utf8_ok (en_ErrBrief e')) /\ (utf8_ok (en_ErrDetail e) -> utf8_ok (en_ErrDetail e')) /\
  e' = { e with en_APIKeySuffix := en_APIKeySuffix e'; en_ErrBrief := en_ErrBrief e'; en_ErrDetail := en_ErrDetail e';
                en_RequestBody := en_RequestBody e'; en_MaskMatches := en_MaskMatches e' }.
Proof.
  cbv zeta. unfold sanitizeErrorLog, truncateErrorBrief, truncateErrorDetail.
  cbn [en_ErrBrief en_ErrDetail en_RequestBody en_APIKeySuffix en_MaskMatches].
  split; [by apply truncate_blen|]. split; [by apply truncate_blen|]. split; [by apply truncate_body_bound|]. split.
  { unfold apiKeyTail. case_bool_decide; [by left|]. right. eexists. split; [|reflexivity].
    set (rs := to_runes _). destruct (Nat.ltb_spec 4 (length rs)); [rewrite length_drop|]; lia. }
  split; [apply apiKeyTail_bound|]. split; [intros Hu; by apply truncate_ok, redact_text_ok|].
  split; [intros Hu; by apply truncate_ok, redact_text_ok|done].
Qed.

(** ** Concrete inputs *)

Definition quote (s : string) : bytes := dq :: lit s ++ [dq].
(** A request with a key in a header and a token below an array. *)
Definition body_demo : bytes :=
  lit "{" ++ quote "model" ++ lit ": " ++ quote "gpt" ++ lit ", " ++ quote "X-Api-Key" ++ lit ":{" ++ quote "v" ++ lit ":1}," ++
  quote "list" ++ lit ":[1.50,{" ++ quote "session_token" ++ lit ":" ++ quote "abc" ++ lit "}]} and more".

Example body_demo_redacted : redactRequestBody body_demo =
  lit "{" ++ quote "X-Api-Key" ++ lit ":" ++ quote "[REDACTED]" ++ lit "," ++
  quote "list" ++ lit ":[1.50,{" ++ quote "session_token" ++ lit ":" ++ quote "[REDACTED]" ++ lit "}]," ++
  quote "model" ++ lit ":" ++ quote "gpt" ++ lit "}".
Proof. vm_compute. reflexivity. Qed.


(** [sanitizeErrorLog] runs when an entry is written and again when it is read, and
    on a text it is not idempotent: the value class stops at a bracket, so the mark
    grows one. *)
Lemma text_redacted_twice :
  redactSensitiveText (lit "token: abc") = lit "token: [REDACTED]" /\
  redactSensitiveText (redactSensitiveText (lit "token: abc")) = lit "token: [REDACTED]]".
Proof. vm_compute. split; reflexivity. Qed.

(** The expressions know fewer names than [isSensitiveField]: a word boundary is
    asked in front of the name, and an underscore is no boundary.  A body that does
    not decode keeps such a value. *)
Lemma text_misses_prefixed_names :
  let body := lit "{" ++ quote "openai_api_key" ++ lit ":" ++ quote "sk-live" in
  isSensitiveField (lit "openai_api_key") = true /\ Decode body = None /\ redactRequestBody body = body.
Proof. vm_compute. by repeat split. Qed.

(** Nor do they allow a blank between the quote that ends a key and the colon. *)
Lemma text_misses_spaced_colon :
  let body := lit "{" ++ quote "password" ++ lit " : " ++ quote "hunter2" ++ lit "," in
  isSensitiveField (lit "password") = true /\ Decode body = None /\ redactRequestBody body = body.
Proof. vm_compute. by repeat split. Qed.

(** A document can come to that: an entry is cut before it is queued and redacted
    when it is taken from there, and a document that is too long after all its
    texts are short is cut in the middle. *)
Lemma cut_before_redacted :
  let body := lit "{" ++ quote "my_token" ++ lit ":" ++ quote "abc" ++ lit "," ++ quote "z" ++ lit ":[1,2,3,4,5,6,7,8]}" in
  let queued := truncateRequestBodyJSON body 32 in
  redactRequestBody queued = queued /\
  exists v, Decode body = Some v /\ ~ (queued `prefix_of` render (redactJSONValue v)) /\
    lit "{" ++ quote "my_token" ++ lit ":" ++ quote "abc" `prefix_of` queued.
Proof.
  cbv zeta. split; [vm_compute; reflexivity|]. eexists. split; [vm_compute; reflexivity|]. split.
  - intros [rest Hr]. vm_compute in Hr. discriminate Hr.
  - eexists. vm_compute. reflexivity.
Qed.
