(* ===== verification/ErrorLog.v ===== *)
(** * The error log: its queue and its rows

    op/error_log.go.  A failed request is put into a channel of 512 entries; a
    goroutine takes them in batches to the database; [FlushErrorLogQueue] stops it
    when the program ends.  The variables under [errorLogLifeMu], the channels, the
    goroutine and the calls in progress are one record; an event is what one of
    them does between two points at which another may run.  The second half is the
    table of rows and what is deleted from it. *)

From coqutil Require Export Datatypes.RecordSetters.
Export RecordSetters.OCamlLikeNotations.
From stdpp Require Import gmultiset list relations.
From S2P Require Import Prelude GoStrings MaskText OrderedRows ErrorLogText.

(** ** The queue *)

Definition errorLogQueueCapacity : nat := 512.
Definition errorLogFlushThreshold : nat := 64.

(** An entry with the number of the call that brought it. *)
Notation item := (nat * LogEntry)%type.

(** The goroutine: in its select, in the insert of a batch ([last] when it ends
    after it), or emptying the queue after the stop signal. *)
Inductive writer :=
| Gone
| Waiting (batch : list item)
| Writing (batch : list item) (last : bool)
| Draining (batch : list item).

(** A call of [ErrorLogEnqueue]: behind the lock with the channel it read, or in
    the synchronous insert of the shutdown; then its answer. *)
Inductive call :=
| Pushing (queue : nat) (e : LogEntry)
| Syncing (e : LogEntry)
| Answered (ok : bool).

(** A call of [FlushErrorLogQueue]: waiting for the goroutine, emptying the
    channel, inserting what it took; then whether it ended without an error. *)
Inductive flusher :=
| Await (queue : nat)
| Collect (queue : nat) (batch : list item)
| Insert (batch : list item)
| Returned (ok : bool).

(** Channels are addresses into [lf_queues]; [lf_current] is [errorLogQueue].  The
    stop and done channels of a goroutine are made with its queue: [lf_stopped]
    tells that the current stop channel is closed, and the current done channel is
    closed when [lf_writer] is [Gone].  [lf_locked] is a lock that is never
    released. *)
Record Life := mkLife {
  lf_queues : list (list item);
  lf_current : option nat;
  lf_stopped : bool;
  lf_writer : writer;
  lf_shutting : bool;
  lf_locked : bool;
  lf_calls : list call;
  lf_flushes : list flusher;
  lf_stored : list item;
  lf_lost : list item;
  lf_dropped : Z }.

Definition life_init : Life := mkLife [] None false Gone false false [] [] [] [] 0.

Definition queue_at (q : nat) (l : Life) : list item := default [] (lf_queues l !! q).

Definition errorLogWriterAlive (l : Life) : bool :=
  match lf_current l, lf_writer l with
  | None, _ | _, Gone => false
  | Some _, _ => true
  end.

(** The branch of [ErrorLogEnqueue] that makes the channels and the goroutine. *)
Definition start_writer (l : Life) : Life :=
  { l with lf_queues := lf_queues l ++ [[]]; lf_current := Some (length (lf_queues l));
           lf_stopped := false; lf_writer := Waiting [] }.

(** ** Enqueue *)

Definition answer (t : nat) (ok : bool) (l : Life) : Life := { l with lf_calls ::= <[t := Answered ok]> }.

(** The part under the lock.  [db] tells whether there is a database. *)
Definition enqueue_lock (db : bool) (e : LogEntry) (l : Life) : Life :=
  if negb db then { l with lf_calls := lf_calls l ++ [Answered false] }
  else if lf_shutting l then { l with lf_calls := lf_calls l ++ [Syncing (sanitizeErrorLog e)] }
  else
    let l := if errorLogWriterAlive l then l else start_writer l in
    { l with lf_calls := lf_calls l ++ [Pushing (default O (lf_current l)) e] }.

(** The cut entry goes into the channel when there is room. *)
Definition enqueue_push (t : nat) (l : Life) : option Life :=
  match lf_calls l !! t with
  | Some (Pushing q e) =>
      let entries := queue_at q l in
      Some (if (length entries <? errorLogQueueCapacity)%nat
            then answer t true { l with lf_queues := <[q := entries ++ [(t, truncateErrorLogForEnqueue e)]]> (lf_queues l) }
            else answer t false { l with lf_dropped ::= Z.add 1 })
  | _ => None
  end.

(** [ErrorLogCreate] under the shutdown; it sanitizes once more. *)
Definition enqueue_synced (ok : bool) (t : nat) (l : Life) : option Life :=
  match lf_calls l !! t with
  | Some (Syncing e) =>
      Some (if ok then answer t true { l with lf_stored := lf_stored l ++ [(t, sanitizeErrorLog e)] } else answer t false l)
  | _ => None
  end.

(** ** The goroutine *)

Definition sanitized (x : item) : item := (x.1, sanitizeErrorLog x.2).

Definition writer_take (l : Life) : option Life :=
  match lf_writer l, lf_current l with
  | Waiting batch, Some q =>
      match queue_at q l with
      | x :: rest =>
          let batch := batch ++ [sanitized x] in
          Some { l with lf_queues := <[q := rest]> (lf_queues l);
                        lf_writer := if (errorLogFlushThreshold <=? length batch)%nat then Writing batch false else Waiting batch }
      | [] => None
      end
  | _, _ => None
  end.

Definition writer_tick (l : Life) : option Life :=
  match lf_writer l with
  | Waiting batch => Some { l with lf_writer := if bool_decide (length batch = O) then Waiting [] else Writing batch false }
  | _ => None
  end.

Definition writer_stop (l : Life) : option Life :=
  match lf_writer l with
  | Waiting batch => if lf_stopped l then Some { l with lf_writer := Draining batch } else None
  | _ => None
  end.

(** A turn of the loop behind the stop signal: an entry, or none and the last
    flush. *)
Definition writer_drain (l : Life) : option Life :=
  match lf_writer l, lf_current l with
  | Draining batch, Some q =>
      Some (match queue_at q l with
            | x :: rest => { l with lf_queues := <[q := rest]> (lf_queues l); lf_writer := Draining (batch ++ [sanitized x]) }
            | [] => { l with lf_writer := if bool_decide (length batch = O) then Gone else Writing batch true }
            end)
  | _, _ => None
  end.

(** [insertErrorLogBatch] is one transaction; a batch that fails is logged and
    forgotten. *)
Definition settle (ok : bool) (batch : list item) (l : Life) : Life :=
  if ok then { l with lf_stored := lf_stored l ++ batch } else { l with lf_lost := lf_lost l ++ batch }.

Definition writer_written (ok : bool) (l : Life) : option Life :=
  match lf_writer l with
  | Writing batch last => Some { settle ok batch l with lf_writer := if last then Gone else Waiting [] }
  | _ => None
  end.

Definition writer_batch (w : writer) : list item :=
  match w with Gone => [] | Waiting b | Writing b _ | Draining b => b end.

(** The recovery of the goroutine: it ends, and its batch with it. *)
Definition writer_panic (l : Life) : option Life :=
  if errorLogWriterAlive l
  then Some { l with lf_lost := lf_lost l ++ writer_batch (lf_writer l); lf_writer := Gone } else None.

(** ** Flush *)

Definition set_flush (f : nat) (p : flusher) (l : Life) : Life := { l with lf_flushes ::= <[f := p]> }.

(** The part under the lock.  Closing a closed channel panics, and the lock is
    released by no deferred call. *)
Definition flush_lock (l : Life) : Life :=
  match lf_current l with
  | None => { l with lf_flushes := lf_flushes l ++ [Returned true] }
  | Some q =>
      if errorLogWriterAlive l then
        if lf_stopped l then { l with lf_locked := true; lf_flushes := lf_flushes l ++ [Returned false] }
        else { l with lf_stopped := true; lf_shutting := true; lf_flushes := lf_flushes l ++ [Await q] }
      else { l with lf_flushes := lf_flushes l ++ [Collect q []] }
  end.

(** No goroutine is started while one is awaited, so the one awaited is the
    current one. *)
Definition flush_joined (f : nat) (l : Life) : option Life :=
  match lf_flushes l !! f with
  | Some (Await q) => if errorLogWriterAlive l then None else Some (set_flush f (Collect q []) l)
  | _ => None
  end.
Definition flush_timeout (f : nat) (l : Life) : option Life :=
  match lf_flushes l !! f with
  | Some (Await q) => Some (set_flush f (Returned false) l)
  | _ => None
  end.

(** A turn of the loop that empties the channel. *)
Definition flush_collect (f : nat) (l : Life) : option Life :=
  match lf_flushes l !! f with
  | Some (Collect q batch) =>
      Some (match queue_at q l with
            | x :: rest => set_flush f (Collect q (batch ++ [sanitized x])) { l with lf_queues := <[q := rest]> (lf_queues l) }
            | [] => set_flush f (if bool_decide (length batch = O) then Returned true else Insert batch) l
            end)
  | _ => None
  end.
Definition flush_inserted (ok : bool) (f : nat) (l : Life) : option Life :=
  match lf_flushes l !! f with
  | Some (Insert batch) => Some (set_flush f (Returned true) (settle ok batch l))
  | _ => None
  end.

(** ** Events *)

Inductive event :=
| EvEnqueue (e : LogEntry) | EvPush (t : nat) | EvSynced (ok : bool) (t : nat)
| EvTake | EvTick | EvStop | EvDrain | EvWritten (ok : bool) | EvPanic
| EvFlush | EvJoined (f : nat) | EvTimeout (f : nat) | EvCollect (f : nat) | EvInserted (ok : bool) (f : nat).

Definition run_event (db : bool) (ev : event) (l : Life) : option Life :=
  match ev with
  | EvEnqueue e => if lf_locked l then None else Some (enqueue_lock db e l)
  | EvPush t => enqueue_push t l
  | EvSynced ok t => enqueue_synced ok t l
  | EvTake => writer_take l
  | EvTick => writer_tick l
  | EvStop => writer_stop l
  | EvDrain => writer_drain l
  | EvWritten ok => writer_written ok l
  | EvPanic => writer_panic l
  | EvFlush => if lf_locked l then None else Some (flush_lock l)
  | EvJoined f => flush_joined f l
  | EvTimeout f => flush_timeout f l
  | EvCollect f => flush_collect f l
  | EvInserted ok f => flush_inserted ok f l
  end.

Definition run_events (db : bool) (evs : list event) (l : Life) : option Life :=
  foldl (fun l ev => l ← l; run_event db ev l) (Some l) evs.

Definition life_step (db : bool) (l l' : Life) : Prop := exists ev, run_event db ev l = Some l'.

(** ** Where an entry is *)

Definition tickets (b : list item) : gmultiset nat := list_to_set_disj b.*1.
Definition flush_batch (p : flusher) : list item := match p with Collect _ b | Insert b => b | _ => [] end.
Definition all_tickets (bs : list (list item)) : gmultiset nat := foldr (fun b acc => tickets b ⊎ acc) ∅ bs.

#[local] Arguments tickets : simpl never.
#[local] Arguments all_tickets : simpl never.
#[local] Arguments disj_union : simpl never.
#[local] Arguments singletonMS : simpl never.
#[local] Arguments truncateErrorLogForEnqueue : simpl never.
#[local] Arguments sanitizeErrorLog : simpl never.

(** The entries in every hand. *)
Definition held (l : Life) : gmultiset nat :=
  tickets (lf_stored l) ⊎ tickets (lf_lost l) ⊎ tickets (writer_batch (lf_writer l)) ⊎
  all_tickets (lf_queues l) ⊎ all_tickets (flush_batch <$> lf_flushes l).

Lemma tickets_app a b : tickets (a ++ b) = tickets a ⊎ tickets b.
Proof. unfold tickets. by rewrite fmap_app, list_to_set_disj_app. Qed.
Lemma tickets_cons x b : tickets (x :: b) = {[+ x.1 +]} ⊎ tickets b.
Proof. done. Qed.
Lemma tickets_sanitized x : tickets [sanitized x] = {[+ x.1 +]}.
Proof. change ({[+ x.1 +]} ⊎ ∅ = ({[+ x.1 +]} : gmultiset nat)). multiset_solver. Qed.
Lemma tickets_nil : tickets [] = ∅.
Proof. done. Qed.

Lemma all_tickets_app a b : all_tickets (a ++ b) = all_tickets a ⊎ all_tickets b.
Proof.
  induction a as [|x a IH]; [change (all_tickets b = ∅ ⊎ all_tickets b); multiset_solver|].
  change (tickets x ⊎ all_tickets (a ++ b) = (tickets x ⊎ all_tickets a) ⊎ all_tickets b). rewrite IH. multiset_solver.
Qed.

Lemma all_tickets_insert bs i old new : bs !! i = Some old ->
  tickets old ⊎ all_tickets (<[i := new]> bs) = tickets new ⊎ all_tickets bs.
Proof.
  revert i. induction bs as [|b bs IH]; intros [|i] Hi; try done.
  - injection Hi as ->. change (tickets old ⊎ (tickets new ⊎ all_tickets bs) = tickets new ⊎ (tickets old ⊎ all_tickets bs)).
    multiset_solver.
  - specialize (IH _ Hi). change (tickets old ⊎ (tickets b ⊎ all_tickets (<[i := new]> bs)) = tickets new ⊎ (tickets b ⊎ all_tickets bs)).
    multiset_solver.
Qed.

(** ** The ledger *)

(** An entry whose call said yes is in one hand, once, and no other is in any. *)
Definition said_yes (c : option call) : bool := match c with Some (Answered true) => true | _ => false end.
Definition ledger (l : Life) : Prop :=
  forall t, multiplicity t (held l) = if said_yes (lf_calls l !! t) then 1%nat else 0%nat.

(** Rows, and batches on their way to them, are sanitized entries. *)
Definition clean (b : list item) : Prop := Forall (fun x => exists e, x.2 = sanitizeErrorLog e) b.

(** What else holds at every moment.  While the goroutine is awaited or has been
    told to stop, the shutdown has begun. *)
Record life_ok (l : Life) : Prop := {
  lo_ledger : ledger l;
  lo_clean : clean (lf_stored l) /\ clean (writer_batch (lf_writer l)) /\ Forall (fun p => clean (flush_batch p)) (lf_flushes l);
  lo_bound : Forall (fun q => (length q <= errorLogQueueCapacity)%nat) (lf_queues l);
  lo_current : forall q, lf_current l = Some q -> (q < length (lf_queues l))%nat;
  lo_none : lf_current l = None -> lf_writer l = Gone;
  lo_waiting : match lf_writer l with Waiting b => (length b < errorLogFlushThreshold)%nat | _ => True end;
  lo_pushing : forall t q e, lf_calls l !! t = Some (Pushing q e) -> (q < length (lf_queues l))%nat;
  lo_flushes : forall f q b, lf_flushes l !! f = Some (Await q) \/ lf_flushes l !! f = Some (Collect q b) -> (q < length (lf_queues l))%nat }.

Lemma ledger_same l l' : held l' = held l -> (forall t, said_yes (lf_calls l' !! t) = said_yes (lf_calls l !! t)) ->
  ledger l -> ledger l'.
Proof. intros Hh Hc Hl t. by rewrite Hh, (Hl t), Hc. Qed.

(** A call that says yes puts its entry into a hand. *)
Lemma ledger_accept l l' t c : ledger l -> lf_calls l !! t = Some c -> said_yes (Some c) = false ->
  lf_calls l' = <[t := Answered true]> (lf_calls l) -> held l' = {[+ t +]} ⊎ held l -> ledger l'.
Proof.
  intros Hl Ht Hc Hl' Hh u. rewrite Hh, multiplicity_disj_union, (Hl u), Hl'. destruct (decide (u = t)) as [->|Hne].
  - rewrite multiplicity_singleton, list_lookup_insert_eq by by eapply lookup_lt_Some. rewrite Ht, Hc. cbn. by rewrite decide_True.
  - rewrite multiplicity_singleton_ne by done. by rewrite list_lookup_insert_ne.
Qed.

Lemma said_yes_snoc (cs : list call) c (t : nat) : said_yes (Some c) = false -> said_yes ((cs ++ [c]) !! t) = said_yes (cs !! t).
Proof.
  intros Hc. destruct (decide (t < length cs)%nat); [by rewrite lookup_app_l|]. rewrite lookup_app_r by lia.
  rewrite (lookup_ge_None_2 cs t) by lia. destruct (t - length cs)%nat as [|k]; [exact Hc|]. by destruct k.
Qed.

Lemma said_yes_refused (cs : list call) c (t u : nat) : cs !! t = Some c -> said_yes (Some c) = false ->
  said_yes (<[t := Answered false]> cs !! u) = said_yes (cs !! u).
Proof.
  intros Ht Hc. destruct (decide (u = t)) as [->|Hne]; [|by rewrite list_lookup_insert_ne].
  rewrite list_lookup_insert_eq by by eapply lookup_lt_Some. by rewrite Ht, Hc.
Qed.

(** ** Moving entries *)

Lemma queue_at_Some q l : (q < length (lf_queues l))%nat -> lf_queues l !! q = Some (queue_at q l).
Proof. intros Hq. unfold queue_at. by destruct (lookup_lt_is_Some_2 (lf_queues l) q Hq) as [b ->]. Qed.

Lemma take_from_queue q l x rest : (q < length (lf_queues l))%nat -> queue_at q l = x :: rest ->
  all_tickets (lf_queues l) = {[+ x.1 +]} ⊎ all_tickets (<[q := rest]> (lf_queues l)).
Proof.
  intros Hq Hx. pose proof (queue_at_Some q l Hq) as Hl. rewrite Hx in Hl.
  pose proof (all_tickets_insert _ _ _ rest Hl) as He. rewrite tickets_cons in He. multiset_solver.
Qed.

Lemma move_flush f p p' l : lf_flushes l !! f = Some p ->
  tickets (flush_batch p) ⊎ all_tickets (flush_batch <$> <[f := p']> (lf_flushes l)) =
  tickets (flush_batch p') ⊎ all_tickets (flush_batch <$> lf_flushes l).
Proof.
  intros Hf. rewrite list_fmap_insert. apply all_tickets_insert. by rewrite list_lookup_fmap, Hf.
Qed.

Lemma settle_held ok b l : tickets (lf_stored (settle ok b l)) ⊎ tickets (lf_lost (settle ok b l)) =
  tickets (lf_stored l) ⊎ tickets (lf_lost l) ⊎ tickets b.
Proof. destruct ok, l; cbn; unfold constant; rewrite tickets_app; multiset_solver. Qed.

(** ** Every event keeps the ledger *)

Lemma clean_app a b : clean (a ++ b) <-> clean a /\ clean b.
Proof. apply Forall_app. Qed.
Lemma clean_sanitized b x : clean b -> clean (b ++ [sanitized x]).
Proof. intros Hb. apply clean_app. split; [done|]. repeat constructor. by exists x.2. Qed.

Lemma bound_insert (P : list item -> Prop) qs q b : Forall P qs -> P b -> Forall P (<[q := b]> qs).
Proof. intros Hq Hb. by apply Forall_insert. Qed.

(** The fields of an updated record. *)
Ltac fields l := destruct l as [qs cur stop w shut lock calls fl st lo dr]; unfold constant in *; cbn in *; unfold constant in *.

(** A call that is entered changes no hand. *)
Lemma add_call_ok c l : said_yes (Some c) = false -> (forall q e, c = Pushing q e -> (q < length (lf_queues l))%nat) ->
  life_ok l -> life_ok { l with lf_calls := lf_calls l ++ [c] }.
Proof.
  intros Hc Hpush [Hl Hcl Hb Hq Hn Hw Hp Hf]. fields l. split; cbn; try done.
  - eapply ledger_same; [| |exact Hl]; [done|]. intros t. cbn. by apply said_yes_snoc.
  - intros t q e Ht. apply lookup_snoc_Some in Ht as [[_ Ht]|[_ Ht]]; [by eapply Hp|by eapply Hpush].
Qed.

Lemma start_writer_ok l : errorLogWriterAlive l = false -> life_ok l -> life_ok (start_writer l).
Proof.
  intros Ha [Hl Hcl Hb Hq Hn Hw Hp Hf]. unfold start_writer, errorLogWriterAlive in *. fields l.
  assert (w = Gone) as ->. { destruct cur as [q|]; [by destruct w|by apply Hn]. }
  assert (Hlen : length (qs ++ [[]]) = S (length qs)) by (rewrite length_app; cbn; lia).
  split; cbn; try done.
  - eapply ledger_same; [| |exact Hl]; [|done]. unfold held. cbn. rewrite all_tickets_app.
    change (all_tickets [[]]) with (∅ ⊎ ∅ : gmultiset nat). multiset_solver.
  - apply Forall_app. split; [done|]. apply Forall_singleton. cbn. lia.
  - intros q [= <-]. rewrite Hlen. lia.
  - unfold errorLogFlushThreshold. lia.
  - intros t q e Ht. rewrite Hlen. apply Hp in Ht. lia.
  - intros f q b Ht. rewrite Hlen. apply Hf in Ht. lia.
Qed.

Lemma enqueue_lock_ok db e l : life_ok l -> life_ok (enqueue_lock db e l).
Proof.
  intros Hok. unfold enqueue_lock. destruct (negb db); [by apply add_call_ok|].
  destruct (lf_shutting l); [by apply add_call_ok|]. destruct (errorLogWriterAlive l) eqn:Ha.
  - apply add_call_ok; [done| |done]. intros q e' [= <- _]. unfold errorLogWriterAlive in Ha.
    destruct (lf_current l) as [q|] eqn:Hq; [|done]. by apply (lo_current _ Hok).
  - pose proof (start_writer_ok l Ha Hok) as Hok'. apply add_call_ok; [done| |done].
    intros q e' [= <- _]. by apply (lo_current _ Hok').
Qed.

(** Two records with the same entries in their hands and calls that answer alike. *)
Lemma enqueue_push_ok t l l' : enqueue_push t l = Some l' -> life_ok l -> life_ok l'.
Proof.
  unfold enqueue_push. destruct (lf_calls l !! t) as [[q e|e|b]|] eqn:Ht; try done.
  intros [= <-] [Hl Hcl Hb Hq Hn Hw Hp Hf]. pose proof (Hp _ _ _ Ht) as Hlen. pose proof (queue_at_Some q l Hlen) as Hqa.
  destruct (Nat.ltb_spec (length (queue_at q l)) errorLogQueueCapacity) as [Hroom|_]; unfold answer.
  - set (b := queue_at q l) in *. clearbody b. fields l. split; cbn; try done.
    + eapply (ledger_accept _ _ t (Pushing q e) Hl Ht); [done|done|]. unfold held. cbn.
      pose proof (all_tickets_insert qs q b (b ++ [(t, truncateErrorLogForEnqueue e)]) Hqa) as He.
      rewrite tickets_app in He. change (tickets [(t, truncateErrorLogForEnqueue e)]) with ({[+ t +]} ⊎ ∅ : gmultiset nat) in He.
      multiset_solver.
    + apply bound_insert; [done|]. rewrite length_app. cbn. lia.
    + intros q' Hq'. rewrite length_insert. by apply Hq.
    + intros t' q' e' Ht'. rewrite length_insert. apply list_lookup_insert_Some in Ht' as [(_ & Hx & _)|[_ Ht']]; [done|by eapply Hp].
    + intros f q' b' Hf'. rewrite length_insert. by eapply Hf.
  - fields l. split; cbn; try done.
    + eapply ledger_same; [| |exact Hl]; [done|]. intros u. cbn. by eapply said_yes_refused.
    + intros t' q' e' Ht'. apply list_lookup_insert_Some in Ht' as [(_ & Hx & _)|[_ Ht']]; [done|by eapply Hp].
Qed.

Lemma enqueue_synced_ok ok t l l' : enqueue_synced ok t l = Some l' -> life_ok l -> life_ok l'.
Proof.
  unfold enqueue_synced. destruct (lf_calls l !! t) as [[q e|e|b]|] eqn:Ht; try done.
  intros [= <-] [Hl Hcl Hb Hq Hn Hw Hp Hf]. unfold answer. destruct ok; fields l; split; cbn; try done.
  - eapply (ledger_accept _ _ t (Syncing e) Hl Ht); [done|done|]. unfold held. cbn. rewrite tickets_app.
    change (tickets [(t, sanitizeErrorLog e)]) with ({[+ t +]} ⊎ ∅ : gmultiset nat). multiset_solver.
  - split; [|by apply Hcl]. apply clean_app. split; [by apply Hcl|]. apply Forall_singleton. by exists e.
  - intros t' q' e' Ht'. apply list_lookup_insert_Some in Ht' as [(_ & Hx & _)|[_ Ht']]; [done|by eapply Hp].
  - eapply ledger_same; [| |exact Hl]; [done|]. intros u. cbn. by eapply said_yes_refused.
  - intros t' q' e' Ht'. apply list_lookup_insert_Some in Ht' as [(_ & Hx & _)|[_ Ht']]; [done|by eapply Hp].
Qed.

(** Shortening a queue keeps the bounds, and every address stays one. *)
Lemma rest_bound qs q (x : item) rest : Forall (fun b : list item => (length b <= errorLogQueueCapacity)%nat) qs ->
  qs !! q = Some (x :: rest) -> Forall (fun b => (length b <= errorLogQueueCapacity)%nat) (<[q := rest]> qs).
Proof.
  intros Hb Hq. apply bound_insert; [done|]. rewrite Forall_lookup in Hb. specialize (Hb _ _ Hq). cbn in Hb. lia.
Qed.

(** An entry goes from a queue to the batch of the goroutine. *)
Lemma taken_ok q x rest next l : life_ok l -> lf_current l = Some q -> queue_at q l = x :: rest ->
  writer_batch next = writer_batch (lf_writer l) ++ [sanitized x] ->
  match next with Waiting b => (length b < errorLogFlushThreshold)%nat | _ => True end ->
  life_ok { l with lf_queues := <[q := rest]> (lf_queues l); lf_writer := next }.
Proof.
  intros [Hl Hcl Hb Hq Hn Hw Hp Hf] Hcur Hx Hbatch Hw'. pose proof (Hq _ Hcur) as Hlen.
  pose proof (queue_at_Some q l Hlen) as Hqa. pose proof (take_from_queue q l x rest Hlen Hx) as Htake. rewrite Hx in Hqa.
  clear Hx. fields l. split; cbn; try done.
  - eapply ledger_same; [| |exact Hl]; [|done]. unfold held. cbn. rewrite Htake, Hbatch, tickets_app, tickets_sanitized. multiset_solver.
  - rewrite Hbatch. repeat split; try apply Hcl. apply clean_sanitized, Hcl.
  - by eapply rest_bound.
  - intros q' Hq'. rewrite length_insert. by apply Hq.
  - by rewrite Hcur.
  - intros t' q' e' Ht'. rewrite length_insert. by eapply Hp.
  - intros f q' b' Hf'. rewrite length_insert. by eapply Hf.
Qed.

(** The goroutine goes on with the same batch. *)
Lemma phase_ok next l : life_ok l -> lf_current l <> None -> writer_batch next = writer_batch (lf_writer l) ->
  match next with Waiting b => (length b < errorLogFlushThreshold)%nat | _ => True end ->
  life_ok { l with lf_writer := next }.
Proof.
  intros [Hl Hcl Hb Hq Hn Hw Hp Hf] Hcur Hbatch Hw'. fields l. split; cbn; try done.
  - eapply ledger_same; [| |exact Hl]; [|done]. unfold held. cbn. by rewrite Hbatch.
  - by rewrite Hbatch.
Qed.

Lemma alive_current l : life_ok l -> lf_writer l <> Gone -> lf_current l <> None.
Proof. intros Hok Hw Hc. by apply Hw, (lo_none _ Hok). Qed.

Lemma writer_take_ok l l' : writer_take l = Some l' -> life_ok l -> life_ok l'.
Proof.
  unfold writer_take. destruct (lf_writer l) as [|batch| |] eqn:Hw; try done. destruct (lf_current l) as [q|] eqn:Hc; [|done].
  destruct (queue_at q l) as [|x rest] eqn:Hx; [done|]. intros [= <-] Hok.
  apply (taken_ok q x rest (if (errorLogFlushThreshold <=? length (batch ++ [sanitized x]))%nat
    then Writing (batch ++ [sanitized x]) false else Waiting (batch ++ [sanitized x]))); [done|done|done| |].
  - rewrite Hw. by destruct (Nat.leb_spec errorLogFlushThreshold (length (batch ++ [sanitized x]))).
  - destruct (Nat.leb_spec errorLogFlushThreshold (length (batch ++ [sanitized x]))); [done|lia].
Qed.

Lemma writer_tick_ok l l' : writer_tick l = Some l' -> life_ok l -> life_ok l'.
Proof.
  unfold writer_tick. destruct (lf_writer l) as [|batch| |] eqn:Hw; try done. intros [= <-] Hok.
  apply phase_ok; [done|apply alive_current; [done|congruence]| |].
  - rewrite Hw. case_bool_decide as Hb; [|done]. by apply nil_length_inv in Hb as ->.
  - case_bool_decide; [|done]. cbn. unfold errorLogFlushThreshold. lia.
Qed.

Lemma writer_stop_ok l l' : writer_stop l = Some l' -> life_ok l -> life_ok l'.
Proof.
  unfold writer_stop. destruct (lf_writer l) as [|batch| |] eqn:Hw; try done. destruct (lf_stopped l); [|done].
  intros [= <-] Hok. apply phase_ok; [done|apply alive_current; [done|congruence]|by rewrite Hw|done].
Qed.

Lemma writer_drain_ok l l' : writer_drain l = Some l' -> life_ok l -> life_ok l'.
Proof.
  unfold writer_drain. destruct (lf_writer l) as [| | |batch] eqn:Hw; try done. destruct (lf_current l) as [q|] eqn:Hc; [|done].
  intros [= <-] Hok. destruct (queue_at q l) as [|x rest] eqn:Hx.
  - apply phase_ok; [done|congruence| |by case_bool_decide]. rewrite Hw. case_bool_decide as Hb; [|done].
    by apply nil_length_inv in Hb as ->.
  - apply (taken_ok q x rest); [done|done|done|by rewrite Hw|done].
Qed.


(** A batch leaves the hand that held it for the table, or for nowhere. *)
Lemma writer_written_ok ok l l' : writer_written ok l = Some l' -> life_ok l -> life_ok l'.
Proof.
  unfold writer_written. destruct (lf_writer l) as [| |batch last|] eqn:Hw; try done. intros [= <-] Hok.
  pose proof (alive_current l Hok ltac:(congruence)) as Hcur. destruct Hok as [Hl Hcl Hb Hq Hn Hwt Hp Hf].
  pose proof (settle_held ok batch l) as Hs. assert (Hdone : writer_batch (if last then Gone else Waiting []) = []) by by destruct last.
  assert (Hsize : match (if last then Gone else Waiting []) with Waiting b => (length b < errorLogFlushThreshold)%nat | _ => True end).
  { destruct last; [done|]. cbn. unfold errorLogFlushThreshold. lia. }
  revert Hdone Hsize. generalize (if last then Gone else Waiting []) as next. intros next Hdone Hsize.
  rewrite Hw in Hcl. destruct ok; fields l; split; cbn; try done.
  1, 3: eapply ledger_same; [| |exact Hl]; [|done]; unfold held in *; cbn; rewrite Hw, Hdone; cbn; rewrite Hs; change (tickets []) with (∅ : gmultiset nat); multiset_solver.
  - rewrite Hdone. split; [apply clean_app; by split; apply Hcl|]. split; [by constructor|apply Hcl].
  - rewrite Hdone. split; [apply Hcl|]. split; [by constructor|apply Hcl].
Qed.

Lemma writer_panic_ok l l' : writer_panic l = Some l' -> life_ok l -> life_ok l'.
Proof.
  unfold writer_panic. destruct (errorLogWriterAlive l); [|done]. intros [= <-] [Hl Hcl Hb Hq Hn Hwt Hp Hf].
  fields l. split; cbn; try done.
  - eapply ledger_same; [| |exact Hl]; [|done]. unfold held. cbn. rewrite tickets_app. change (tickets []) with (∅ : gmultiset nat). multiset_solver.
  - split; [apply Hcl|]. split; [by constructor|apply Hcl].
Qed.

(** ** Flush *)

(** A call of Flush changes its phase and what it holds. *)
Lemma flush_phase_ok f p p' l : life_ok l -> lf_flushes l !! f = Some p -> flush_batch p' = flush_batch p ->
  (forall q b, p' = Await q \/ p' = Collect q b -> (q < length (lf_queues l))%nat) -> life_ok (set_flush f p' l).
Proof.
  intros [Hl Hcl Hb Hq Hn Hwt Hp Hf] Hp0 Hbatch Haddr. pose proof (move_flush f p p' l Hp0) as Hm.
  unfold set_flush. fields l. split; cbn; try done.
  - eapply ledger_same; [| |exact Hl]; [|done]. unfold held. cbn. rewrite Hbatch in Hm. multiset_solver.
  - split; [apply Hcl|]. split; [apply Hcl|]. apply Forall_insert; [apply Hcl|]. rewrite Hbatch.
    destruct Hcl as (_ & _ & Hall). rewrite Forall_lookup in Hall. by apply (Hall f).
  - intros f' q' b' Hf'. destruct (decide (f' = f)) as [->|Hne].
    + rewrite list_lookup_insert_eq in Hf' by by eapply lookup_lt_Some. apply (Haddr q' b'). naive_solver.
    + rewrite !list_lookup_insert_ne in Hf' by done. by eapply Hf.
Qed.

Lemma add_flush_ok p l : life_ok l -> flush_batch p = [] ->
  (forall q b, p = Await q \/ p = Collect q b -> (q < length (lf_queues l))%nat) ->
  life_ok { l with lf_flushes := lf_flushes l ++ [p] }.
Proof.
  intros [Hl Hcl Hb Hq Hn Hwt Hp Hf] Hbatch Haddr. fields l. split; cbn; try done.
  - eapply ledger_same; [| |exact Hl]; [|done]. unfold held. cbn. rewrite fmap_app, all_tickets_app. cbn. rewrite Hbatch.
    change (all_tickets [[]]) with (∅ ⊎ ∅ : gmultiset nat). multiset_solver.
  - split; [apply Hcl|]. split; [apply Hcl|]. apply Forall_app. split; [apply Hcl|]. apply Forall_singleton. rewrite Hbatch. constructor.
  - intros f q b Hfq. destruct Hfq as [Hfq|Hfq]; apply lookup_snoc_Some in Hfq as [[_ Hfq]|[_ Hfq]];
      (apply (Hf f q b); by auto) || (apply (Haddr q b); naive_solver).
Qed.

Lemma flush_lock_ok l : life_ok l -> life_ok (flush_lock l).
Proof.
  intros Hok. unfold flush_lock. destruct (lf_current l) as [q|] eqn:Hc.
  2: { apply add_flush_ok; [done|done|]. naive_solver. }
  pose proof (lo_current _ Hok q Hc) as Hq. destruct (errorLogWriterAlive l); [destruct (lf_stopped l)|].
  - pose proof (add_flush_ok (Returned false) l Hok eq_refl ltac:(naive_solver)) as [Hl Hcl Hb Hq' Hn Hwt Hp Hf].
    fields l. by split.
  - pose proof (add_flush_ok (Await q) l Hok eq_refl ltac:(naive_solver)) as [Hl Hcl Hb Hq' Hn Hwt Hp Hf].
    fields l. by split.
  - apply add_flush_ok; [done|done|]. naive_solver.
Qed.

Lemma flush_joined_ok f l l' : flush_joined f l = Some l' -> life_ok l -> life_ok l'.
Proof.
  unfold flush_joined. destruct (lf_flushes l !! f) as [[q| | |]|] eqn:Hf; try done. destruct (errorLogWriterAlive l); [done|].
  intros [= <-] Hok. eapply flush_phase_ok; [done|exact Hf|done|]. intros q' b [|[= <- _]]; [done|].
  apply (lo_flushes _ Hok f q []). by left.
Qed.

Lemma flush_timeout_ok f l l' : flush_timeout f l = Some l' -> life_ok l -> life_ok l'.
Proof.
  unfold flush_timeout. destruct (lf_flushes l !! f) as [[q| | |]|] eqn:Hf; try done.
  intros [= <-] Hok. eapply flush_phase_ok; [done|exact Hf|done|]. naive_solver.
Qed.

Lemma flush_collect_ok f l l' : flush_collect f l = Some l' -> life_ok l -> life_ok l'.
Proof.
  unfold flush_collect. destruct (lf_flushes l !! f) as [[|q batch| |]|] eqn:Hf; try done. intros [= <-] Hok.
  pose proof (lo_flushes _ Hok f q batch (or_intror Hf)) as Hlen. destruct (queue_at q l) as [|x rest] eqn:Hx.
  { eapply flush_phase_ok; [done|exact Hf| |].
    - case_bool_decide as Hb; [|done]. by apply nil_length_inv in Hb as ->.
    - intros q' b Hq'. case_bool_decide; naive_solver. }
  pose proof (queue_at_Some q l Hlen) as Hqa. pose proof (take_from_queue q l x rest Hlen Hx) as Htake. rewrite Hx in Hqa. clear Hx.
  pose proof (move_flush f _ (Collect q (batch ++ [sanitized x])) l Hf) as Hm.
  destruct Hok as [Hl Hcl Hb Hq Hn Hwt Hp Hfl]. unfold set_flush. fields l. split; cbn; try done.
  - eapply ledger_same; [| |exact Hl]; [|done]. unfold held. cbn.
    rewrite tickets_app, tickets_sanitized in Hm. rewrite Htake. multiset_solver.
  - destruct Hcl as (Hc1 & Hc2 & Hc3). split; [done|]. split; [done|]. apply Forall_insert; [done|]. cbn.
    rewrite Forall_lookup in Hc3. by apply clean_sanitized, (Hc3 _ _ Hf).
  - by eapply rest_bound.
  - intros q' Hq'. rewrite length_insert. by apply Hq.
  - intros t' q' e' Ht'. rewrite length_insert. by eapply Hp.
  - intros f' q' b' Hf'. rewrite length_insert. destruct (decide (f' = f)) as [->|Hne].
    + rewrite list_lookup_insert_eq in Hf' by by eapply lookup_lt_Some. destruct Hf' as [|[= <- _]]; [done|done].
    + rewrite !list_lookup_insert_ne in Hf' by done. by eapply Hfl.
Qed.

Lemma flush_inserted_ok ok f l l' : flush_inserted ok f l = Some l' -> life_ok l -> life_ok l'.
Proof.
  unfold flush_inserted. destruct (lf_flushes l !! f) as [[| |batch|]|] eqn:Hf; try done. intros [= <-] Hok.
  pose proof (settle_held ok batch l) as Hs. pose proof (move_flush f _ (Returned true) l Hf) as Hm.
  destruct Hok as [Hl Hcl Hb Hq Hn Hwt Hp Hfl]. assert (Hbatch : clean batch).
  { destruct Hcl as (_ & _ & Hall). rewrite Forall_lookup in Hall. by apply (Hall _ _ Hf). }
  assert (Haddr : forall f' q b, <[f := Returned true]> (lf_flushes l) !! f' = Some (Await q) \/
      <[f := Returned true]> (lf_flushes l) !! f' = Some (Collect q b) -> (q < length (lf_queues l))%nat).
  { intros f' q b Hf'. destruct (decide (f' = f)) as [->|Hne].
    - rewrite list_lookup_insert_eq in Hf' by by eapply lookup_lt_Some. naive_solver.
    - rewrite !list_lookup_insert_ne in Hf' by done. by eapply Hfl. }
  unfold set_flush. destruct ok; fields l; split; cbn; try done.
  1, 3: eapply ledger_same; [| |exact Hl]; [|done]; unfold held; cbn; change (tickets []) with (∅ : gmultiset nat) in Hm; rewrite Hs; multiset_solver.
  - split; [apply clean_app; by split; [apply Hcl|]|]. split; [apply Hcl|]. by apply Forall_insert; [apply Hcl|constructor].
  - split; [apply Hcl|]. split; [apply Hcl|]. by apply Forall_insert; [apply Hcl|constructor].
Qed.

(** ** All that can happen *)

Lemma life_init_ok : life_ok life_init.
Proof.
  split; try done.
  - repeat split; constructor.
  - cbn. intros f q b. naive_solver.
Qed.

Lemma run_event_ok db ev l l' : run_event db ev l = Some l' -> life_ok l -> life_ok l'.
Proof.
  destruct ev; cbn [run_event].
  - destruct (lf_locked l); [done|]. intros [= <-]. apply enqueue_lock_ok.
  - apply enqueue_push_ok.
  - apply enqueue_synced_ok.
  - apply writer_take_ok.
  - apply writer_tick_ok.
  - apply writer_stop_ok.
  - apply writer_drain_ok.
  - apply writer_written_ok.
  - apply writer_panic_ok.
  - destruct (lf_locked l); [done|]. intros [= <-]. apply flush_lock_ok.
  - apply flush_joined_ok.
  - apply flush_timeout_ok.
  - apply flush_collect_ok.
  - apply flush_inserted_ok.
Qed.

Lemma life_reachable_ok db l l' : rtc (life_step db) l l' -> life_ok l -> life_ok l'.
Proof. induction 1 as [|l l1 l2 [ev Hev] _ IH]; intros Hok; [done|]. by eapply IH, run_event_ok. Qed.

Lemma run_events_reachable db evs l l' : run_events db evs l = Some l' -> rtc (life_step db) l l'.
Proof.
  unfold run_events. revert l. induction evs as [|ev evs IH]; intros l; cbn [foldl].
  - intros [= <-]. apply rtc_refl.
  - cbn [mbind option_bind]. destruct (run_event db ev l) as [l1|] eqn:He.
    + intros Hr. eapply rtc_l; [by exists ev|by apply IH].
    + intros Hr. exfalso. clear IH He. revert Hr. induction evs as [|ev' evs IH]; [done|exact IH].
Qed.

(** C39: Whatever happens to the queue of the error log, in whatever order the
    calls, the goroutine and the shutdown run and whichever inserts fail: an entry
    whose call answered yes is in one place and only there, the table, a batch on
    the way to it, a channel, or the batches that were lost with a failed insert,
    and an entry whose call answered no is in none; no channel holds more than 512;
    and what reaches the table went through [sanitizeErrorLog]. *)
Theorem error_log_ledger db l : rtc (life_step db) life_init l ->
  (forall t, multiplicity t (held l) = if said_yes (lf_calls l !! t) then 1%nat else 0%nat) /\
  Forall (fun q => (length q <= errorLogQueueCapacity)%nat) (lf_queues l) /\
  Forall (fun x => exists e, x.2 = sanitizeErrorLog e) (lf_stored l).
Proof.
  intros Hr. destruct (life_reachable_ok _ _ _ Hr life_init_ok) as [Hl Hc Hb _ _ _ _ _]. split; [done|]. split; [done|apply Hc].
Qed.

(** ** After the shutdown *)

(** The shutdown has begun, the goroutine has ended, no call is between the lock
    and the channel, and the channels are empty. *)
Definition quiet (l : Life) : Prop :=
  lf_shutting l = true /\ lf_writer l = Gone /\
  (forall t q e, lf_calls l !! t <> Some (Pushing q e)) /\ Forall (fun q => q = []) (lf_queues l).

Lemma queue_at_empty q l : Forall (fun q => q = []) (lf_queues l) -> queue_at q l = [].
Proof.
  intros Hq. unfold queue_at. destruct (lf_queues l !! q) as [b|] eqn:Hb; [|done]. rewrite Forall_lookup in Hq. by apply (Hq q).
Qed.

(** A shutdown is for good: the flag stays, and no goroutine is started again. *)
Lemma shutdown_is_final db ev l l' : run_event db ev l = Some l' -> lf_shutting l = true -> lf_writer l = Gone ->
  lf_shutting l' = true /\ lf_writer l' = Gone /\ length (lf_queues l') = length (lf_queues l).
Proof.
  intros He Hs Hw. destruct ev as [e|t|[] t| | | | |[]| | |f|f|f|[] f]; cbn [run_event] in He;
    unfold enqueue_lock, enqueue_push, enqueue_synced, writer_take, writer_tick, writer_stop, writer_drain, writer_written,
      writer_panic, flush_lock, flush_joined, flush_timeout, flush_collect, flush_inserted, settle, errorLogWriterAlive in He;
    rewrite ?Hs, ?Hw in He; fields l; subst;
    repeat (case_match; try done); simplify_eq/=; unfold constant; rewrite ?length_insert; done.
Qed.

Lemma quiet_stable db ev l l' : run_event db ev l = Some l' -> quiet l -> quiet l'.
Proof.
  intros He (Hs & Hw & Hp & Hq). destruct (shutdown_is_final _ _ _ _ He Hs Hw) as (Hs' & Hw' & _).
  split; [done|]. split; [done|]. pose proof (fun q => queue_at_empty q l Hq) as Hempty.
  assert (Hcalls : forall c, (forall q e, c <> Pushing q e) -> forall t q e, (lf_calls l ++ [c]) !! t <> Some (Pushing q e)).
  { intros c Hc t q e Ht. apply lookup_snoc_Some in Ht as [[_ Ht]|[_ Ht]]; [by eapply Hp|by eapply (Hc q e)]. }
  assert (Hans : forall t ok u q e, <[t := Answered ok]> (lf_calls l) !! u <> Some (Pushing q e)).
  { intros t ok u q e Hu. apply list_lookup_insert_Some in Hu as [(_ & Hx & _)|[_ Hu]]; [done|by eapply Hp]. }
  destruct ev as [e|t|[] t| | | | |[]| | |f|f|f|[] f]; cbn [run_event] in He;
    unfold enqueue_lock, enqueue_push, enqueue_synced, writer_take, writer_tick, writer_stop, writer_drain, writer_written,
      writer_panic, flush_lock, flush_joined, flush_timeout, flush_collect, flush_inserted, settle, errorLogWriterAlive, answer, set_flush in He;
    rewrite ?Hs, ?Hw in He; try done;
    repeat (case_match; try done); simplify_eq; try (by exfalso; eapply Hp);
    try (rewrite Hempty in *; done); (split; [|exact Hq]);
    first [exact Hp | apply Hans | apply Hcalls; done].
Qed.


(** ** Concrete runs *)

Definition entry_demo : LogEntry :=
  mkEntry 0 "gpt" "c" "m" "" "" "sk-abcdef" "" "" "" "" "" "upstream" (lit "token: abc") [] [] [].

(** Two requests fail, one insert fails, and the program ends. *)
Definition shutdown_run : list event :=
  [EvEnqueue entry_demo; EvPush 0; EvTake; EvTick; EvWritten false; EvEnqueue entry_demo; EvPush 1;
   EvFlush; EvStop; EvDrain; EvDrain; EvWritten true; EvJoined 0; EvCollect 0].

Definition shut_down : Life := default life_init (run_events true shutdown_run life_init).

Lemma shut_down_reachable : rtc (life_step true) life_init shut_down.
Proof. apply (run_events_reachable true shutdown_run). by vm_compute. Qed.

Lemma shut_down_quiet : quiet shut_down.
Proof.
  split; [by vm_compute|]. split; [by vm_compute|]. split.
  - intros t q e. assert (lf_calls shut_down = [Answered true; Answered true]) as -> by by vm_compute.
    by destruct t as [|[|t]].
  - assert (lf_queues shut_down = [[]]) as -> by by vm_compute. by repeat constructor.
Qed.

Lemma error_log_ledger_witness :
  rtc (life_step true) life_init shut_down /\ multiplicity 1%nat (held shut_down) = 1%nat /\
  fst <$> lf_stored shut_down = [1%nat] /\ fst <$> lf_lost shut_down = [0%nat].
Proof.
  split; [exact shut_down_reachable|].
  split; [exact (proj1 (error_log_ledger true shut_down shut_down_reachable) 1%nat)|]. split; by vm_compute.
Defined.


(** The calls that are behind the lock when the shutdown begins are not waited
    for: one that comes to the channel after it was emptied is told yes, and its
    entry stays there. *)
Lemma late_push_is_stranded :
  exists l, run_events true [EvEnqueue entry_demo; EvFlush; EvStop; EvDrain; EvJoined 0; EvCollect 0; EvPush 0] life_init = Some l /\
    lf_calls l = [Answered true] /\ lf_writer l = Gone /\ lf_flushes l = [Returned true] /\ lf_stored l = [] /\
    fst <$> queue_at 0 l = [0%nat].
Proof. eexists. split; [vm_compute; reflexivity|]. by vm_compute. Qed.

(** A second call of Flush while the goroutine is still at work closes a closed
    channel under the lock, and no request that fails gets past it any more. *)
Lemma second_flush_wedges :
  exists l, run_events true [EvEnqueue entry_demo; EvFlush; EvTimeout 0; EvFlush] life_init = Some l /\
    lf_locked l = true /\ run_event true (EvEnqueue entry_demo) l = None.
Proof. eexists. split; [vm_compute; reflexivity|]. by vm_compute. Qed.

(** When the goroutine ends in a panic the next entry brings a new channel, and
    what is in the old one is read by nobody, not even by a shutdown that ends
    well. *)
Lemma panic_strands_the_channel :
  exists l, run_events true [EvEnqueue entry_demo; EvPush 0; EvPanic; EvEnqueue entry_demo; EvPush 1;
      EvFlush; EvStop; EvDrain; EvDrain; EvWritten true; EvJoined 0; EvCollect 0] life_init = Some l /\
    lf_calls l = [Answered true; Answered true] /\ lf_flushes l = [Returned true] /\
    fst <$> lf_stored l = [1%nat] /\ fst <$> queue_at 0 l = [0%nat].
Proof. eexists. split; [vm_compute; reflexivity|]. by vm_compute. Qed.

(** ** The table

    Rows by their ids, which grow; a time is in nanoseconds since the epoch. *)

Notation Table := (gmap Z LogEntry).

Definition DefaultErrorRetentionDays : Z := 3.
Definition DefaultErrorRetentionMaxCount : Z := 50.
Definition ErrorRetentionMaxCountMax : Z := 1000.
Definition ErrorLogListLimitDefault : Z := 50.
Definition ErrorLogListLimitMax : Z := 500.

(** [setting] is what [SettingGetInt] returns, [None] for its error. *)
Definition ErrorLogRetentionMaxCount (setting : option Z) : Z :=
  match setting with
  | None => 0
  | Some n => if n <? 0 then 0 else if ErrorRetentionMaxCountMax <? n then ErrorRetentionMaxCountMax else n
  end.
Definition ErrorLogRetentionDays (setting : option Z) : Z :=
  match setting with
  | None => DefaultErrorRetentionDays
  | Some days => if days <? 0 then 0 else days
  end.

(** [ensureErrorLogSetting]: the row and the cache entry of a setting are made on
    first use.  [read] is the outcome of the query, [Some None] for no row,
    [created] that of the insert, [again] the row that another caller inserted
    meanwhile.  The answer is whether it went well, the value cached and the value
    inserted. *)
Definition ensureErrorLogSetting (cached : option string) (db : bool) (read : option (option string))
    (created : bool) (again : option string) (defaultValue : string) : bool * option string * option string :=
  match cached with
  | Some v => (true, Some v, None)
  | None =>
      if negb db then (false, None, None) else
      match read with
      | None => (false, None, None)
      | Some (Some v) => (true, Some v, None)
      | Some None =>
          if created then (true, Some defaultValue, Some defaultValue)
          else match again with
               | Some v => (true, Some v, None)
               | None => (false, None, None)
               end
      end
  end.

Section table.
Context `{ord : !MapOrder Z}.
Implicit Types t : Table.

(** The rows in the order of their ids, and of their times. *)
Definition by_id t : list (Z * LogEntry) := rows_by (fun _ => 0) (fun _ => true) t.
Definition by_time (p : LogEntry -> bool) t : list (Z * LogEntry) := rows_by en_CreatedAt p t.

(** SELECT id FROM error_logs ORDER BY id DESC LIMIT n. *)
Definition newest_ids (n : Z) t : list Z := take (Z.to_nat n) (reverse (by_id t).*1).
(** DELETE FROM error_logs WHERE id NOT IN (...). *)
Definition delete_older (n : Z) t : Table := filter (fun kv => kv.1 ∈ newest_ids n t) t.

(** The answer is no when the statement fails or there is no database. *)
Definition ErrorLogTrimToMaxCount (setting : option Z) (db ok : bool) t : bool * Table :=
  let maxCount := ErrorLogRetentionMaxCount setting in
  if maxCount <=? 0 then (true, t)
  else if negb db then (false, t)
  else if ok then (true, delete_older maxCount t) else (false, t).

(** The statements are no transaction: what the first deleted stays deleted.
    [days_before now days] is [now.AddDate(0, 0, -days)], in the calendar of the
    machine. *)
Definition ErrorLogCleanExpired (days_before : Z -> Z -> Z) (days_setting count_setting : option Z) (now : Z) (ok1 ok2 : bool) t : Z * bool * Table :=
  let days := ErrorLogRetentionDays days_setting in
  let maxCount := ErrorLogRetentionMaxCount count_setting in
  let by_count removed t1 :=
    if 0 <? maxCount then
      if ok2 then
        let t2 := delete_older maxCount t1 in
        (removed + (Z.of_nat (size t1) - Z.of_nat (size t2)), true, t2)
      else (removed, false, t1)
    else (removed, true, t1) in
  if (days <=? 0) && (maxCount <=? 0) then (0, true, t)
  else if 0 <? days then
    if ok1 then
      let t1 := filter (fun kv => days_before now days <= en_CreatedAt kv.2) t in
      by_count (Z.of_nat (size t) - Z.of_nat (size t1)) t1
    else (0, false, t)
  else by_count 0 t.

(** [ErrorLogDeleteAll]. *)
Definition ErrorLogDeleteAll (ok : bool) t : bool * Table := if ok then (true, ∅) else (false, t).

(** The rows of the panel, new ones first; they are sanitized once more. *)
Definition ErrorLogList (limit : Z) (class : string) t : list (Z * LogEntry) :=
  let limit := if limit <=? 0 then ErrorLogListLimitDefault else limit in
  let limit := if ErrorLogListLimitMax <? limit then ErrorLogListLimitMax else limit in
  (fun row => (row.1, sanitizeErrorLog row.2)) <$>
  take (Z.to_nat limit) (reverse (by_time (fun r => (class =? "")%string || (en_ErrClass r =? class)%string) t)).

Definition ErrorLogCountSince (since : Z) t : Z := Z.of_nat (size (filter (fun kv => since <= en_CreatedAt kv.2) t)).

(** ** One class at a time *)

Definition errDedupMinInterval : Z := 60.

(** The gate of [ErrorLogDedupPerClass]: [prev] is what the caller loaded from the
    counter of the class, [last] what is in it when it comes to the swap. *)
Definition dedup_gate (now prev last : Z) : option Z :=
  if now - prev <? errDedupMinInterval then None
  else if last =? prev then Some now else None.

Definition of_class (class : string) (r : LogEntry) : bool := (en_ErrClass r =? class)%string.

(** The three statements of the sweep, each on the table of its moment: the count,
    the time of the row at place [keep] from the newest, and the deletion. *)
Definition class_count (class : string) t : Z := Z.of_nat (length (by_time (of_class class) t)).
Definition dedup_cutoff (class : string) (keep : nat) t : option Z :=
  (fun kv => en_CreatedAt kv.2) <$> reverse (by_time (of_class class) t) !! (keep - 1)%nat.
Definition dedup_delete (class : string) (cutoff : Z) t : Table :=
  filter (fun kv => ~ (en_ErrClass kv.2 = class /\ en_CreatedAt kv.2 < cutoff)) t.

(** [Pluck] leaves the zero time when there is no such row.  [ok] tells that every
    statement went well; one that fails ends the sweep. *)
Definition ErrorLogDedupPerClass (class : string) (keep : nat) (ok : bool) (t1 t2 t3 : Table) : Table :=
  if negb ok || (class_count class t1 <=? Z.of_nat keep) then t3
  else match dedup_cutoff class keep t2 with
       | Some cutoff => dedup_delete class cutoff t3
       | None => t3
       end.

(** *** What stays *)

Lemma by_id_perm t : by_id t ≡ₚ map_to_list t.
Proof.
  unfold by_id, rows_by. rewrite merge_sort_Permutation, map_order_perm.
  induction (map_to_list t) as [|x l IH]; [done|]. rewrite filter_cons_True by done. by rewrite IH.
Qed.

Lemma by_id_ids t : StronglySorted Z.lt (by_id t).*1.
Proof.
  pose proof (rows_by_sorted (fun _ => 0) (fun _ => true) t) as Hs. pose proof (rows_by_keys (fun _ => 0) (fun _ => true) t) as Hk.
  fold (by_id t) in *. induction Hs as [|[i r] l Hs IH Hall]; cbn [fmap list_fmap fst] in *; [constructor|].
  apply NoDup_cons in Hk as [Hi Hk]. constructor; [by apply IH|]. apply Forall_forall. intros j Hj.
  apply list_elem_of_fmap in Hj as ([j' r'] & -> & Hj). rewrite Forall_forall in Hall. specialize (Hall _ Hj).
  unfold row_before in Hall. cbn in *. assert (i <> j'); [|lia]. intros ->. apply Hi. apply list_elem_of_fmap. by exists (j', r').
Qed.

Lemma by_id_length t : length (by_id t) = size t.
Proof. by rewrite by_id_perm, length_map_to_list. Qed.

Lemma elem_of_by_id t i : i ∈ (by_id t).*1 <-> is_Some (t !! i).
Proof.
  rewrite list_elem_of_fmap. setoid_rewrite by_id_perm. split.
  - intros ([j r] & -> & Hj%elem_of_map_to_list). by exists r.
  - intros [r Hr]. exists (i, r). split; [done|by apply elem_of_map_to_list].
Qed.

Lemma newest_split n t : exists older, (by_id t).*1 = older ++ reverse (newest_ids n t) /\ (length older = size t - Z.to_nat n)%nat.
Proof.
  unfold newest_ids. set (ids := (by_id t).*1). assert (Hlen : length ids = size t) by (unfold ids; by rewrite length_fmap, by_id_length).
  exists (reverse (drop (Z.to_nat n) (reverse ids))). split.
  - by rewrite <- reverse_app, take_drop, reverse_involutive.
  - by rewrite length_reverse, length_drop, length_reverse, Hlen.
Qed.

Lemma newest_in n t i : i ∈ newest_ids n t -> is_Some (t !! i).
Proof.
  intros Hi. apply elem_of_by_id. destruct (newest_split n t) as (older & -> & _). rewrite elem_of_app, elem_of_reverse. by right.
Qed.

Lemma newest_dom n t : dom (delete_older n t) = list_to_set (newest_ids n t).
Proof.
  apply set_eq. intros i. rewrite elem_of_dom, elem_of_list_to_set. unfold delete_older. split.
  - intros [r Hr]. by apply map_lookup_filter_Some in Hr as [_ ?].
  - intros Hi. destruct (newest_in n t i Hi) as [r Hr]. exists r. by apply map_lookup_filter_Some.
Qed.

Lemma newest_NoDup n t : NoDup (newest_ids n t).
Proof.
  unfold newest_ids. eapply sublist_NoDup; [|apply sublist_take]. rewrite reverse_Permutation. apply rows_by_keys.
Qed.

(** Exactly the newest [n] rows stay, all of them when there are no more. *)
Lemma delete_older_spec n t : 0 <= n ->
  delete_older n t ⊆ t /\ size (delete_older n t) = Nat.min (Z.to_nat n) (size t) /\
  (forall i j, is_Some (delete_older n t !! i) -> is_Some (t !! j) -> delete_older n t !! j = None -> j < i).
Proof.
  intros Hn. split; [apply map_filter_subseteq|]. split.
  - rewrite <- size_dom, newest_dom, size_list_to_set by apply newest_NoDup.
    unfold newest_ids. rewrite length_firstn, length_reverse, length_fmap, by_id_length. done.
  - intros i j Hi Hj Hout. destruct (newest_split n t) as (older & Hsplit & _).
    assert (Hin : forall k, is_Some (delete_older n t !! k) <-> k ∈ newest_ids n t).
    { intros k. by rewrite <- elem_of_dom, newest_dom, elem_of_list_to_set. }
    apply elem_of_by_id in Hj. rewrite Hsplit, elem_of_app, elem_of_reverse in Hj. destruct Hj as [Hj|Hj].
    + pose proof (by_id_ids t) as Hs. rewrite Hsplit in Hs.
      eapply (StronglySorted_app_1_elem_of Z.lt); [exact Hs|exact Hj|]. apply elem_of_reverse. by apply Hin.
    + apply Hin in Hj as [r Hr]. congruence.
Qed.

Lemma delete_older_all n t : (size t <= Z.to_nat n)%nat -> delete_older n t = t.
Proof.
  intros Hn. unfold delete_older. apply map_filter_id. intros i r Hr. cbn. unfold newest_ids.
  rewrite take_ge by (rewrite length_reverse, length_fmap, by_id_length; done).
  apply elem_of_reverse, elem_of_by_id. by exists r.
Qed.
Lemma delete_older_twice n t : 0 <= n -> delete_older n (delete_older n t) = delete_older n t.
Proof. intros Hn. apply delete_older_all. destruct (delete_older_spec n t Hn) as (_ & -> & _). lia. Qed.

Lemma max_count_bounds setting : 0 <= ErrorLogRetentionMaxCount setting <= ErrorRetentionMaxCountMax.
Proof. unfold ErrorLogRetentionMaxCount, ErrorRetentionMaxCountMax. destruct setting as [n|]; [|lia]. case_ifs; lia. Qed.

(** What a clean-up that went well leaves: no row older than the days kept, no
    more rows than the limit, the newest of them, and the answer counts the rows
    that are gone. *)
Lemma clean_expired_spec days_before days_setting count_setting now ok1 ok2 t removed ok t' :
  ErrorLogCleanExpired days_before days_setting count_setting now ok1 ok2 t = (removed, ok, t') ->
  let days := ErrorLogRetentionDays days_setting in
  let maxCount := ErrorLogRetentionMaxCount count_setting in
  t' ⊆ t /\ removed = Z.of_nat (size t) - Z.of_nat (size t') /\
  (ok = true -> (0 < days -> map_Forall (fun _ r => days_before now days <= en_CreatedAt r) t') /\
     (0 < maxCount -> Z.of_nat (size t') <= maxCount)).
Proof.
  unfold ErrorLogCleanExpired. set (days := ErrorLogRetentionDays days_setting). cbv zeta.
  pose proof (max_count_bounds count_setting) as Hm. set (maxCount := ErrorLogRetentionMaxCount count_setting) in *.
  assert (Hcount : forall removed0 t1, t1 ⊆ t -> removed0 = Z.of_nat (size t) - Z.of_nat (size t1) ->
    (0 < days -> map_Forall (fun _ r => days_before now days <= en_CreatedAt r) t1) ->
    (if 0 <? maxCount then if ok2 then (removed0 + (Z.of_nat (size t1) - Z.of_nat (size (delete_older maxCount t1))), true, delete_older maxCount t1)
       else (removed0, false, t1) else (removed0, true, t1)) = (removed, ok, t') ->
    t' ⊆ t /\ removed = Z.of_nat (size t) - Z.of_nat (size t') /\
    (ok = true -> (0 < days -> map_Forall (fun _ r => days_before now days <= en_CreatedAt r) t') /\
       (0 < maxCount -> Z.of_nat (size t') <= maxCount))).
  { intros removed0 t1 Hsub Hr Hdays. destruct (delete_older_spec maxCount t1 ltac:(lia)) as (Hd & Hsize & _).
    destruct (Z.ltb_spec 0 maxCount); [destruct ok2|]; intros [= <- <- <-].
    - split; [by etrans|]. split; [lia|]. intros _. split; [|lia].
      intros Hpos i r Hi. apply (Hdays Hpos i). by eapply lookup_weaken.
    - done.
    - split; [done|]. split; [done|]. intros _. split; [done|lia]. }
  destruct ((days <=? 0) && (maxCount <=? 0)) eqn:Hnone.
  { intros [= <- <- <-]. split; [done|]. split; [lia|]. intros _. lia. }
  destruct (Z.ltb_spec 0 days) as [Hd|Hd]; [destruct ok1|].
  - apply Hcount; [apply map_filter_subseteq|done|]. intros _ i r Hi. by apply map_lookup_filter_Some in Hi as [_ ?].
  - intros [= <- <- <-]. split; [done|]. split; [lia|done].
  - apply Hcount; [done|lia|lia].
Qed.

(** ** One class at a time *)

Lemma by_time_front class keep t cutoff : dedup_cutoff class (S keep) t = Some cutoff ->
  exists front, NoDup front.*1 /\ length front = S keep /\
    forall i r, (i, r) ∈ front -> t !! i = Some r /\ en_ErrClass r = class /\ cutoff <= en_CreatedAt r.
Proof.
  unfold dedup_cutoff. set (rows := by_time (of_class class) t). replace (S keep - 1)%nat with keep by lia.
  destruct (reverse rows !! keep) as [[j c]|] eqn:Hk; [|done]. cbn. intros [= <-].
  pose proof (rows_by_sorted en_CreatedAt (of_class class) t) as Hs. pose proof (rows_by_keys en_CreatedAt (of_class class) t) as Hnd.
  fold (by_time (of_class class) t) in *. fold rows in Hs, Hnd.
  exists (take (S keep) (reverse rows)). split; [|split].
  - eapply sublist_NoDup; [|apply fmap_sublist, sublist_take]. by rewrite reverse_Permutation.
  - rewrite length_firstn. apply lookup_lt_Some in Hk. lia.
  - intros i r Hin. assert (Hrow : (i, r) ∈ rows). { apply elem_of_reverse. by eapply elem_of_take in Hin as (? & ?%list_elem_of_lookup_2 & _). }
    apply rows_by_spec in Hrow as [Hi Hc]. split; [done|]. split; [by apply String.eqb_eq in Hc|].
    apply elem_of_take in Hin as (k & Hik & Hlt). destruct (decide (k = keep)) as [->|Hne]; [rewrite Hik in Hk; by simplify_eq|].
    assert (Hsplit : rows = reverse (drop keep (reverse rows)) ++ reverse (take keep (reverse rows))).
    { by rewrite <- reverse_app, take_drop, reverse_involutive. }
    rewrite Hsplit in Hs. assert (Hb : row_before en_CreatedAt (j, c) (i, r)).
    { eapply (StronglySorted_app_1_elem_of (row_before en_CreatedAt)); [exact Hs| |].
      - apply elem_of_reverse. rewrite (drop_S _ _ _ Hk). by left.
      - apply elem_of_reverse, elem_of_take. exists k. split; [done|lia]. }
    unfold row_before in Hb. cbn in Hb. lia.
Qed.

(** Sweeping a class of errors deletes only old rows of that class, and a row
    it deletes leaves behind at least [keep] newer ones of its class, even though
    the three statements of the sweep are no transaction and rows are written in
    between. *)
Theorem dedup_keeps_newest class keep ok t1 t2 t3 : (1 <= keep)%nat -> t2 ⊆ t3 ->
  let t' := ErrorLogDedupPerClass class keep ok t1 t2 t3 in
  t' ⊆ t3 /\ (forall i r, t3 !! i = Some r -> en_ErrClass r <> class -> t' !! i = Some r) /\
  (forall i r, t3 !! i = Some r -> t' !! i = None -> en_ErrClass r = class /\
     exists front, NoDup front.*1 /\ length front = keep /\
       forall j c, (j, c) ∈ front -> t' !! j = Some c /\ en_ErrClass c = class /\ en_CreatedAt r < en_CreatedAt c).
Proof.
  intros Hkeep Hsub t'. assert (Hid : t' = t3 -> t' ⊆ t3 /\ (forall i r, t3 !! i = Some r -> en_ErrClass r <> class -> t' !! i = Some r) /\
    (forall i r, t3 !! i = Some r -> t' !! i = None -> False)).
  { intros ->. split; [done|]. split; [done|]. intros i r Hi Hn. congruence. }
  unfold t', ErrorLogDedupPerClass in *. destruct (negb ok || (_ <=? Z.of_nat keep)); [naive_solver|].
  destruct (dedup_cutoff class keep t2) as [cutoff|] eqn:Hc; [|naive_solver]. clear Hid. unfold dedup_delete.
  split; [apply map_filter_subseteq|]. split.
  - intros i r Hi Hcl. apply map_lookup_filter_Some. split; [done|]. cbn. naive_solver.
  - intros i r Hi Hn. assert (Hold : en_ErrClass r = class /\ en_CreatedAt r < cutoff).
    { apply map_lookup_filter_None in Hn as [Hn|Hn]; [congruence|]. specialize (Hn r Hi). cbn in Hn. by apply dec_stable. }
    destruct Hold as [Hcl Hlt]. split; [done|]. destruct keep as [|keep]; [lia|].
    destruct (by_time_front _ _ _ _ Hc) as (front & Hnd & Hlen & Hall). exists front. split; [done|]. split; [done|].
    intros j c Hj. destruct (Hall j c Hj) as (Hj2 & Hcj & Hge). split; [|split; [done|lia]].
    apply map_lookup_filter_Some. split; [by eapply lookup_weaken|]. cbn. lia.
Qed.
End table.

(** Callers that come to the gate of a class, each with its clock and what it had
    loaded; the times of those that got through, the last one first. *)
Fixpoint gate_run (attempts : list (Z * Z)) (last : Z) (passed : list Z) : Z * list Z :=
  match attempts with
  | [] => (last, passed)
  | (now, prev) :: attempts =>
      match dedup_gate now prev last with
      | Some now => gate_run attempts now (now :: passed)
      | None => gate_run attempts last passed
      end
  end.

(** However the loads and the swaps of the callers interleave, two sweeps of a
    class are a minute apart. *)
Lemma sweeps_are_apart attempts last :
  StronglySorted (fun a b => b + errDedupMinInterval <= a) (gate_run attempts last []).2.
Proof.
  assert (H : forall passed last, Forall (fun b => b <= last) passed ->
    StronglySorted (fun a b => b + errDedupMinInterval <= a) passed ->
    StronglySorted (fun a b => b + errDedupMinInterval <= a) (gate_run attempts last passed).2); [|by apply H; constructor].
  induction attempts as [|[now prev] attempts IH]; intros passed last0 Hall Hs; cbn [gate_run]; [done|].
  unfold dedup_gate. destruct (Z.ltb_spec (now - prev) errDedupMinInterval); [by apply IH|].
  destruct (Z.eqb_spec last0 prev) as [->|]; [|by apply IH]. unfold errDedupMinInterval in *. apply IH.
  - constructor; [done|]. eapply Forall_impl; [exact Hall|]. cbn. lia.
  - constructor; [done|]. eapply Forall_impl; [exact Hall|]. cbn. lia.
Qed.

(** *** Concrete tables *)

Definition row_demo (created : Z) (class : string) : LogEntry :=
  mkEntry created "" "" "" "" "" "" "" "" "" "" "" class [] [] [] [].
Definition rows_demo : gmap Z LogEntry :=
  list_to_map [(1, row_demo 10 "a"); (2, row_demo 20 "b"); (3, row_demo 30 "a"); (4, row_demo 40 "a"); (5, row_demo 40 "a")].

Lemma dedup_keeps_newest_witness :
  let t' := ErrorLogDedupPerClass "a" 2 true rows_demo rows_demo rows_demo in
  (forall i r, rows_demo !! i = Some r -> en_ErrClass r <> "a"%string -> t' !! i = Some r) /\
  t' !! 1 = None /\ t' !! 3 = None /\ size t' = 3%nat.
Proof.
  cbv zeta. split.
  - exact (proj1 (proj2 (dedup_keeps_newest "a" 2 true rows_demo rows_demo rows_demo ltac:(lia) ltac:(reflexivity)))).
  - by vm_compute.
Defined.

(** The rows with the time of the last one that is kept are no older than it, so
    more than [keep] stay when times are equal. *)
Lemma dedup_keeps_ties :
  size (ErrorLogDedupPerClass "a" 1 true rows_demo rows_demo rows_demo) = 3%nat.
Proof. by vm_compute. Qed.
